(* ===== verification/_CoqProject ===== *)
-Q . S2P
Prelude.v
Csr.v
IntegerSemantics.v
Types.v
Payload.v
CfgData.v
CfgEdit.v
Worklist.v
Cfg.v
CfgRewrite.v
Classify.v
Dce.v
Dominators.v
DomDfs.v
DomTree.v
DomOrder.v
DomLower.v
Eval.v
ConstFold.v
SlotFacts.v
UseIndex.v
ConstOpt.v
Peephole.v
Identities.v
Exec.v
Simplify.v
SimplifyFold.v
SimplifyThread.v
SimplifyMerge.v
SimplifyChains.v
SimplifyRun.v
Cse.v
CseSem.v
CseScan.v
CseWalk.v
CseRun.v
Loops.v
LoopsForest.v
LoopsExact.v
LoopsRun.v
Sched.v
SchedGraph.v
SchedOrder.v
SchedRun.v
Live.v
LiveSets.v
LiveBlocks.v
LiveSolve.v
LiveRanges.v
LiveDiverge.v
LiveLoops.v
LiveRun.v
Regalloc.v
RegIndex.v
RegScan.v
RegValid.v
RegCoalesce.v
RegRemat.v
RegMachine.v
RegSim.v
RegRun.v
RegToy.v
Infer.v
InferSubst.v
InferUnify.v
InferSolve.v
InferRun.v
Allocator.v
AllocatorInv.v
AllocatorSteps.v
AllocatorSpec.v
AllocatorOps.v
AllocatorClient.v
RtMemory.v
RtHeap.v
RtNumbers.v
RtUtf8.v
RtStdin.v
