(* ===== verification/Prelude.v ===== *)
(** * Rue compiler: verification library (root file)

    This library models parts of the Rue compiler (a Rust program under
    [src/crates/]) as executable Rocq functions and proves them correct.  The
    compiler turns source text into tokens, an AST, an untyped IR (rue-rir), a
    typed IR (rue-air), a control-flow graph (rue-cfg), and machine code
    (rue-codegen, rue-linker); a query engine (rue-query) and a driver
    (rue-compiler, rue) schedule the stages, and compiled programs link against
    a runtime with its own allocator (rue-runtime, rue-allocator).  The library
    covers the middle end, where the compiler changes programs, together with
    the kernels it rests on, and the runtime's allocator, memory primitives and
    text.

    ** Files and the code they model

    Shared kernels:
    - [Prelude]: machine integers (casts and checked operations on [Z]), the
      result monad [res] with its folds, lists.  No component of its own.
    - [IntegerSemantics]: rue-air/src/integer_semantics.rs, every operation of
      the fixed-width integer kernel, and [IntegerSpec], the same operations on
      mathematical integers.
    - [Types]: rue-air/src/type_encoding.rs and the [Type] newtype of types.rs.
    - [Payload]: rue-cfg/src/payload.rs, the append-only stores behind
      variable-length operands.

    The graph (rue-cfg/src/inst.rs):
    - [CfgData]: places, instructions, terminators, blocks, the [Cfg] owner with
      its arenas, and the owner invariant [cfg_ok].
    - [CfgEdit]: the construction and edit operations in a state and error
      monad, [built] owners.
    - [Csr]: flat adjacencies and the counting sort that fills them
      (dominators.rs and liveness.rs each build two).
    - [Worklist]: the marking loops the graph passes share, against the
      interface [MarkSet] / [MarkSetLaws]; [Dce.BitSet] and the boolean tables
      implement it.
    - [Cfg]: predecessors, returning blocks, block compaction.
    - [CfgRewrite]: the sweep that rewrites every value use.
    - [Dominators] (model), [DomDfs], [DomTree], [DomOrder], [DomLower]
      (proofs): rue-cfg/src/dominators.rs, the Cooper-Harvey-Kennedy tree, its
      constant-time queries, and the block order code generation lowers in.

    The optimizer (rue-cfg/src/opt/):
    - [Classify]: classify.rs and the operand enumeration of dce.rs.
    - [Dce]: dce.rs, bit sets, reachability, liveness, the whole pass.
    - [Eval]: no code; the meaning of instructions the folding passes are
      stated against.
    - [ConstFold], [SlotFacts], [UseIndex], [ConstOpt]: constfold.rs,
      slot_facts.rs, use_index.rs and the sparse driver constopt.rs.
    - [Peephole], [Identities]: the two halves of peephole.rs.
    - [Exec]: no code; whole graphs as programs, their executions, and
      [same_behaviour].
    - [Simplify] (model), [SimplifyFold], [SimplifyThread], [SimplifyMerge],
      [SimplifyChains], [SimplifyRun] (proofs, one per phase and the pass):
      simplify.rs.
    - [Cse] (model), [CseSem] (programs without their repeated computations),
      [CseScan], [CseWalk], [CseRun] (proofs: a block, the walk over the
      dominator tree, the pass): cse.rs.
    - [Loops] (model), [LoopsForest] (the search and its refusal), [LoopsExact]
      (headers, bodies, exits, nesting), [LoopsRun] (dominance, the forest,
      preheaders): loops.rs.

    Code generation (rue-codegen/src/):
    - [Sched] (model), [SchedGraph], [SchedOrder], [SchedRun] (proofs: the
      dependency graph, the orders, the executions): schedule_core.rs, the
      instruction scheduler both back ends share.
    - [Live] (model), [LiveSets], [LiveBlocks], [LiveSolve], [LiveRanges],
      [LiveDiverge], [LiveLoops], [LiveRun] (proofs: the working sets, the block
      partition, the fixed point, ranges and rows, divergence, loop depths, the
      analysis): liveness.rs and the [LoopInfo] of regalloc.rs.
    - [Regalloc] (model), [RegIndex], [RegScan], [RegValid], [RegCoalesce],
      [RegRemat] (proofs: the indices, a scan, the two-pass scan, coalescing,
      recipes), [RegMachine] (no code; a machine over virtual registers and one
      over the homes an allocation gives them), [RegSim], [RegRun] (proofs: the
      simulation, the driver), [RegToy] (a small back end, the witnesses and a
      counterexample): the rest of regalloc.rs, with the frame ceiling of
      rue-air/src/layout.rs.

    The front end's type inference (rue-air/src/inference/):
    - [Infer] (model), [InferSubst], [InferUnify], [InferSolve], [InferRun]
      (proofs: substitutions, unification, the solver's passes, the
      properties): types.rs, constraint.rs and unify.rs.

    The runtime:
    - [Allocator] (model), [AllocatorInv], [AllocatorSteps], [AllocatorSpec],
      [AllocatorOps], [AllocatorClient] (proofs): rue-allocator/src/lib.rs, in
      debug and release builds.
    - [RtMemory], [RtHeap], [RtNumbers], [RtUtf8], [RtStdin] (rue-runtime/src/):
      memory.rs; heap.rs and the results of rue-runtime-abi over the allocator's
      state; parse.rs and the integer formatting of string.rs; utf8.rs and the
      decoders of string.rs; the line input of io.rs.

    ** How code becomes definitions

    A definition has the name of the function it translates, or, for a loop
    body or a closure, a name of its own that the file's comments place.  A
    [u32] or [u64] whose width matters is a [Z] with its wrap-around written
    out; indices are [nat].  Mutation is state passing: a [Cfg] goes in and a
    [Cfg] comes out, and a counter record ([Stats]) is threaded as in the
    source.  [Result] is [res], with [Panic] for a failed assertion, [expect]
    or index; a function that can only panic returns [option].  Recursion that
    is not structural has fuel, and running out of it is [None] (or
    [Panic]) too, so a theorem that excludes [None] also proves termination.

    Fuel, and why it is enough: a marking worklist visits at most one entry per
    edge plus one per root; alias chains and substitution chains are no longer
    than the value arena; the depth-first search makes one step per edge and
    one per block; a sweep of the dominator fixpoint that changes anything
    moves a block to a proper ancestor, so there are at most n * n sweeps;
    [intersect] climbs at most n times per finger; the preorder walk pushes and
    pops every block once; the lowering loop emits each block once; the arena
    loop of a small allocation needs two iterations; resolving a forwarder
    visits each block at most once, and a head absorbs each block at most once;
    the walk over the dominator tree enters and leaves each block once; the loop
    search makes one step per edge and one per block, and a loop body holds each
    block once; the list
    scheduler pops each instruction once, and a cycle of the in-place permutation is no
    longer than the function; the liveness worklist fills at most once per edge
    and register; the divergence worklist holds each instruction once; the union-find of
    coalescing climbs at most once per register; resolving a type descends through at most its own
    size and the sizes of all bindings, and every round of projections that
    makes progress drops one.  Each bound is a lemma
    next to its loop.

    Code outside the repository is a parameter: [Alloc] decides whether a
    [Vec::try_reserve] succeeds, [TypePool] answers the layout questions that
    edits ask of the frozen type pool, and [PageMapper] maps and unmaps pages,
    with [MapperLaws] as its documented contract.  The reads of standard input
    are a script of results ([read_ok]: a read stores what it returns).

    ** What the theorems show

    - Edits are atomic and keep the owner invariant; payload ranges decode to
      what was appended; every owner that the edit API builds is well formed.
    - Compaction is an isomorphism onto the kept blocks; predecessor tables,
      returning blocks, reachability and liveness are exact.
    - The dominator tree answers exactly the path definitions, and the lowering
      order is the greedy topological order of dominance.
    - Folding, strength reduction and identity rewiring keep the meaning of
      every instruction on mathematical integers, traps included; the sparse
      driver reaches a fixpoint in linear work.
    - Dead code elimination removes exactly the dead instructions (those that no
      effect, trap, terminator or block parameter depends on) and the
      unreachable blocks.
    - Control-flow simplification keeps every execution of the graph: folded
      terminators, threaded edges and merged chains return, trap or run for ever
      as the original does.
    - Redundancy elimination keeps every execution too, in any world where the
      keyed operations are pure, and leaves every value that owns resources.
    - Scheduling keeps the executions of every block of machine code, in any
      machine whose instructions touch only what the back end reports of them.
    - The loop analysis refuses exactly the graphs with a cycle that no block of
      it dominates, and describes every natural loop of the others: latches,
      body, exits, nesting and preheader.
    - Liveness is liveness along paths: ranges are its hulls, diagnostic rows are
      the sets themselves; divergence is a least fixed point closed under control
      flow, and loop depths count back edges.
    - Register allocation ends on every well-formed function and keeps its runs:
      a machine that reads and writes the chosen homes, whatever clobbers leave,
      follows the machine over virtual registers step by step and halts with it.
      Two overlapping values never share a home, coalesced values meet at an
      eliminated move only, recomputed values have one recipe, and the first
      check or rewriting that fails settles the driver's outcome.
      The registers a return needs restored are saved, provided no interval
      starts in diverging code and leaves it ([starts_ok]).  Where one inside
      diverging code hands its register to one that leaves it, the prologue
      saves nothing ([RegToy.eviction_saves_nothing]).
    - Constraint solving ends, keeps the substitution acyclic, satisfies every
      constraint it does not report, reports nothing when a typing exists, and
      types every integer literal numerically.
    - The allocator serves every client that keeps its contract: blocks are
      aligned, mapped and disjoint, contents survive resizing, nothing leaks,
      and failures happen only for a stated reason.
    - The runtime's memory primitives equal their byte-wise contracts, overlap
      included; parsing and formatting of integers are exact and inverse through
      a buffer on the heap; the decoders of UTF-8 find exactly the encodings and
      always advance; reading a line does not depend on how the input is cut
      into reads, and no path leaks.

    Hypotheses state what other stages establish: [cfg_ok] (the owner
    invariant, proved of every built owner), [refs_ok] (operands are in the
    arena) and [well_typed] (the typing rules of the language's specification);
    [switch_disjoint] (no two switches share a case range); [acyclic_identities]
    (an identity operation is not its own operand); [ssa] (uses are dominated by
    their definitions, edges fit their targets) and [words_ok] (constants are
    64-bit words) of a program; [ordered] and [attached_once] (an instruction
    follows its operands in its block, a value belongs to one block), and
    [PureInterp] and [params_framed] (which operations are pure, what leaves a
    parameter slot alone) for redundancy elimination; for slot facts, that the
    source of a single-write slot is the value every load observes.  A back end's
    [SchedulerAdapter] reports every register, flag and memory access that
    matters ([InstEffect]), and latencies of a function sum to less than
    2^32; its [LivenessAdapter] names targets inside the function and registers
    below the count, with nothing live on entry ([well_formed]).  For register
    allocation ([mir_ok], [backend_ok], [file_ok]): the coalescing candidates
    are the moves, in order, and moves move; a recipe is what its instruction
    defines; no instruction names an allocatable register; the classes' registers are
    disjoint.  Rewriting one instruction to its homes is the back end's and a
    parameter: the machine over homes is what its output must do.  The save
    set is enough when no range leaves diverging code it starts in
    ([starts_ok]).  Constraints hold no bare integer-literal type ([lit_free]:
    generate.rs types literals by marked variables) and neither do the types
    a field or element lookup returns.  Iterators given to the edit API have exact size hints, as the vectors and slices of
    the compiler do.  The allocator is modelled one thread at a time: a lock
    that is taken twice is a failure, and interleavings are not modelled.

    ** What is not modelled, and why

    - Lexing, parsing, RIR generation and semantic analysis other than
      unification (constraint generation and body analysis): front-end stages
      that the plan puts after the middle end.  CFG construction (build.rs), the
      inliner (inline.rs) and the verifier (verify.rs) likewise.
    - The remaining optimizer passes: value forwarding (forward.rs), loop passes
      (licm.rs, unroll.rs), the edits of loops.rs that materialise preheaders
      (each calls the CFG verifier before it commits) and the pass pipeline
      (opt/mod.rs).
    - Code generation but for the scheduler, liveness and register allocation:
      instruction selection, frame layout, the back ends' adapters and rewriting
      of single instructions, and the encoders; the linker and target tables.
    - The rest of the runtime: entry, thread joins and parking, text output and
      traps (system calls), float formatting (an external crate), the lock around
      standard input, and the symbol tables of rue-runtime-abi.
    - The query engine, the driver and the tools: threads, locks and I/O around
      the stages.
    - Within modelled files: memory metrics, fault injection, fuzz entry
      points and the textual forms; the domain remapping and the validated wrapper of inst.rs; the
      type registry of types.rs.
*)

From stdpp Require Export base tactics option list.
From stdpp Require Export ssreflect.
From Stdlib Require Export ZArith Lia.

(** ** Machine integers

    A [w]-bit integer of the source is a [Z]; the conversions below are the
    casts of the source language ([as u64], [as i128], ...), and the
    [*_checked] functions are the standard library's checked operations. *)

Module Machine.
Local Open Scope Z_scope.

(** [x as uN]: the value modulo 2^N. *)
Definition wrap_u (bits z : Z) : Z := z mod 2 ^ bits.

(** [x as iN]: two's complement reinterpretation of the low N bits. *)
Definition wrap_s (bits z : Z) : Z := (z + 2 ^ (bits - 1)) mod 2 ^ bits - 2 ^ (bits - 1).

Definition in_u (bits z : Z) : Prop := 0 <= z < 2 ^ bits.
Definition in_s (bits z : Z) : Prop := - 2 ^ (bits - 1) <= z < 2 ^ (bits - 1).

Definition in_ub (bits z : Z) : bool := (0 <=? z) && (z <? 2 ^ bits).
Definition in_sb (bits z : Z) : bool := (- 2 ^ (bits - 1) <=? z) && (z <? 2 ^ (bits - 1)).

(** [checked_*] of an unsigned / signed machine type: the mathematical
    result when it is representable. *)
Definition checked_u (bits z : Z) : option Z := if in_ub bits z then Some z else None.
Definition checked_s (bits z : Z) : option Z := if in_sb bits z then Some z else None.

Definition u32_max : Z := 2 ^ 32 - 1.
Definition u64_max : Z := 2 ^ 64 - 1.

Lemma in_ub_spec bits z : in_ub bits z = true <-> in_u bits z.
Proof. rw /in_ub /in_u andb_true_iff Z.leb_le Z.ltb_lt. lia. Qed.

Lemma in_sb_spec bits z : in_sb bits z = true <-> in_s bits z.
Proof. rw /in_sb /in_s andb_true_iff Z.leb_le Z.ltb_lt. lia. Qed.

Lemma checked_u_Some bits z r : checked_u bits z = Some r <-> r = z /\ in_u bits z.
Proof. rw /checked_u -in_ub_spec. destruct (in_ub bits z); naive_solver. Qed.

Lemma checked_s_Some bits z r : checked_s bits z = Some r <-> r = z /\ in_s bits z.
Proof. rw /checked_s -in_sb_spec. destruct (in_sb bits z); naive_solver. Qed.

Lemma checked_s_in bits z : in_s bits z -> checked_s bits z = Some z.
Proof. intros H. by apply checked_s_Some. Qed.

Lemma checked_u_in bits z : in_u bits z -> checked_u bits z = Some z.
Proof. intros H. by apply checked_u_Some. Qed.

Lemma wrap_u_in bits z : 0 <= bits -> in_u bits (wrap_u bits z).
Proof. intros. apply Z.mod_pos_bound. by apply Z.pow_pos_nonneg. Qed.

Lemma wrap_u_small bits z : in_u bits z -> wrap_u bits z = z.
Proof. intros. by apply Z.mod_small. Qed.

Lemma wrap_s_in bits z : 1 <= bits -> in_s bits (wrap_s bits z).
Proof.
  intros. rw /in_s /wrap_s.
  assert (2 ^ bits = 2 * 2 ^ (bits - 1)) as Hb.
  { rw -Z.pow_succ_r; [f_equal; lia | lia]. }
  pose proof (Z.mod_pos_bound (z + 2 ^ (bits - 1)) (2 ^ bits)
                ltac:(apply Z.pow_pos_nonneg; lia)). lia.
Qed.

Lemma wrap_s_small bits z : 1 <= bits -> in_s bits z -> wrap_s bits z = z.
Proof.
  intros ? [H1 H2]. rw /wrap_s.
  assert (2 ^ bits = 2 * 2 ^ (bits - 1)) as Hb.
  { rw -Z.pow_succ_r; [f_equal; lia | lia]. }
  rw Z.mod_small; lia.
Qed.

(** The signed reinterpretation is the residue, shifted by one period when
    the sign bit is set. *)
Lemma wrap_s_residue bits z : 1 <= bits ->
  wrap_s bits z = (if z mod 2 ^ bits <? 2 ^ (bits - 1) then z mod 2 ^ bits
                   else z mod 2 ^ bits - 2 ^ bits).
Proof.
  intros. rw /wrap_s.
  assert (2 ^ bits = 2 * 2 ^ (bits - 1)) as Hb.
  { rw -Z.pow_succ_r; [f_equal; lia | lia]. }
  assert (0 < 2 ^ (bits - 1)) by (apply Z.pow_pos_nonneg; lia).
  pose proof (Z.mod_pos_bound z (2 ^ bits) ltac:(lia)) as Hm.
  rw -(Zplus_mod_idemp_l z).
  destruct (Z.ltb_spec (z mod 2 ^ bits) (2 ^ (bits - 1))).
  - rw (Z.mod_small (_ + _)); lia.
  - replace (z mod 2 ^ bits + 2 ^ (bits - 1))
      with (z mod 2 ^ bits - 2 ^ (bits - 1) + 1 * 2 ^ bits) by lia.
    rw Z_mod_plus_full (Z.mod_small (_ - _)); lia.
Qed.

(** A residue mod a power of two can be taken in two steps. *)
Lemma mod_mod_pow2 z a b : 0 <= a <= b -> (z mod 2 ^ b) mod 2 ^ a = z mod 2 ^ a.
Proof.
  intros. apply Z.mod_mod_divide.
  exists (2 ^ (b - a)). rw -Z.pow_add_r; [f_equal; lia | lia..].
Qed.

Lemma wrap_s_congr bits z : 1 <= bits -> wrap_s bits z mod 2 ^ bits = z mod 2 ^ bits.
Proof.
  intros. rw /wrap_s Zminus_mod_idemp_l. f_equal. lia.
Qed.

Lemma land_mask z bits : 0 <= bits -> Z.land z (2 ^ bits - 1) = z mod 2 ^ bits.
Proof. intros. rw -Z.land_ones // Z.ones_equiv. f_equal. Qed.
(** [u64::is_power_of_two] and [u64::trailing_zeros]. *)
Definition is_power_of_two (d : Z) : bool := (0 <? d) && (Z.land d (d - 1) =? 0).
Definition trailing_zeros (d : Z) : Z := if d =? 0 then 64 else Z.log2 (Z.land d (- d)).

(** [checked_next_power_of_two] and [checked_next_multiple_of] of a
    [bits]-bit type. *)
Definition checked_next_power_of_two (bits n : Z) : option Z :=
  checked_u bits (if n <=? 1 then 1 else 2 ^ (Z.log2 (n - 1) + 1)).
Definition checked_next_multiple_of (bits n m : Z) : option Z :=
  if m =? 0 then None else if n mod m =? 0 then Some n else checked_u bits (n + (m - n mod m)).

Lemma power_of_two_spec d : is_power_of_two d = true -> 0 < d /\ d = 2 ^ Z.log2 d.
Proof.
  rw /is_power_of_two andb_true_iff Z.ltb_lt Z.eqb_eq. intros [Hd Hl]. split; [done|].
  destruct (Z.log2_spec d Hd) as [Hlo Hhi]. pose proof (Z.log2_nonneg d) as Hk.
  rewrite Z.pow_succ_r // in Hhi.
  destruct (Z.eq_dec d (2 ^ Z.log2 d)) as [|Hne]; [done|exfalso].
  assert (Z.testbit (Z.land d (d - 1)) (Z.log2 d) = true) as Hb; [|by rewrite Hl Z.bits_0 in Hb].
  rw Z.land_spec Z.bit_log2 //=.
  apply Z.testbit_true; [done|]. 
  assert ((d - 1) / 2 ^ Z.log2 d = 1) as ->; [|done].
  symmetry. apply Z.div_unique with (d - 1 - 2 ^ Z.log2 d); lia.
Qed.

Lemma trailing_zeros_pow2 d : is_power_of_two d = true -> trailing_zeros d = Z.log2 d.
Proof.
  intros Hp. destruct (power_of_two_spec d Hp) as [Hd Hk].
  rw /trailing_zeros. destruct (Z.eqb_spec d 0) as [|_]; [lia|]. f_equal.
  assert (- d = Z.lnot (d - 1)) as -> by (rewrite /Z.lnot; lia).
  move: Hp. rw /is_power_of_two andb_true_iff Z.eqb_eq. intros [_ Hl].
  apply Z.bits_inj'. intros n Hn. rw Z.land_spec Z.lnot_spec //.
  assert (Z.testbit (Z.land d (d - 1)) n = false) as Hz by by rw Hl Z.bits_0.
  rewrite Z.land_spec in Hz. destruct (Z.testbit d n), (Z.testbit (d - 1) n); done.
Qed.

End Machine.

(** ** Results

    A fallible function of the source returns [Ok] or [Err]; an out-of-range
    index, a failed [expect] or a failed [assert!] is [Panic].  A function
    whose only failure is a panic is a [res] with an error type it never
    produces. *)

Inductive res (E A : Type) : Type :=
| Ok (a : A)
| Err (e : E)
| Panic.
Arguments Ok {_ _} _.
Arguments Err {_ _} _.
Arguments Panic {_ _}.

#[export] Instance res_ret E : MRet (res E) := fun A a => Ok a.
#[export] Instance res_bind E : MBind (res E) := fun A B f m =>
  match m with
  | Ok a => f a
  | Err e => Err e
  | Panic => Panic
  end.

Definition is_ok {E A} (m : res E A) : bool :=
  match m with Ok _ => true | _ => false end.

(** [Option::expect], [Vec] indexing: a missing value is a panic. *)
Definition expect {E A} (o : option A) : res E A :=
  match o with Some a => Ok a | None => Panic end.

Section Res.
Context {E A B : Type}.
Implicit Types (m : res E A) (f : A -> res E B).

Lemma bind_Ok m f b : (m ≫= f) = Ok b <-> exists a, m = Ok a /\ f a = Ok b.
Proof. destruct m; naive_solver. Qed.

Lemma bind_Err m f e :
  (m ≫= f) = Err e <-> m = Err e \/ exists a, m = Ok a /\ f a = Err e.
Proof. destruct m; naive_solver. Qed.

Lemma bind_no_panic m f :
  m <> Panic -> (forall a, m = Ok a -> f a <> Panic) -> (m ≫= f) <> Panic.
Proof. destruct m; naive_solver. Qed.

Lemma expect_Ok (o : option A) a : @expect E A o = Ok a <-> o = Some a.
Proof. destruct o; naive_solver. Qed.
End Res.

(** Decompose the successful runs among the hypotheses. *)
Ltac res_inv :=
  repeat match goal with
  | H : mbind (M := res _) _ _ = Ok _ |- _ => apply bind_Ok in H as (? & ? & ?)
  | H : mret _ = Ok _ |- _ => injection H as H
  | H : expect _ = Ok _ |- _ => apply expect_Ok in H
  | H : Ok _ = Ok _ |- _ => injection H as H
  | H : Err _ = Ok _ |- _ => discriminate H
  | H : Panic = Ok _ |- _ => discriminate H
  end; simplify_eq/=.

(** A monadic left fold over a list. *)
Fixpoint fold_res {E S A} (f : S -> A -> res E S) (s : S) (l : list A) : res E S :=
  match l with
  | [] => Ok s
  | a :: l' => s' ← f s a; fold_res f s' l'
  end.

Lemma fold_res_app {E S A} (f : S -> A -> res E S) s l1 l2 :
  fold_res f s (l1 ++ l2) = (s' ← fold_res f s l1; fold_res f s' l2).
Proof.
  revert s; induction l1 as [|a l1 IH]; intros s; simpl; [done|].
  destruct (f s a); simpl; auto.
Qed.

(** Rule of iteration: an invariant indexed by the consumed prefix. *)
Lemma fold_res_ind {E S A} (f : S -> A -> res E S) (P : list A -> S -> Prop) l s s' :
  fold_res f s l = Ok s' -> P [] s ->
  (forall pre a post t t', l = pre ++ a :: post -> P pre t -> f t a = Ok t' -> P (pre ++ [a]) t') ->
  P l s'.
Proof.
  intros Hf H0 Hstep.
  cut (forall suf pre t, l = pre ++ suf -> P pre t -> fold_res f t suf = Ok s' -> P l s').
  { intros H. apply (H l [] s); auto. }
  induction suf as [|a suf IH]; intros pre t -> Hp Hfold; simpl in *; res_inv.
  - by rw app_nil_r.
  - eapply (IH (pre ++ [a])); [by rw -app_assoc| |done]. eapply Hstep; eauto.
Qed.

(** A left fold whose step may panic. *)
Fixpoint fold_opt {S A} (f : S -> A -> option S) (s : S) (l : list A) : option S :=
  match l with
  | [] => Some s
  | a :: l' => s' ← f s a; fold_opt f s' l'
  end.

Lemma fold_opt_app {S A} (f : S -> A -> option S) s l1 l2 :
  fold_opt f s (l1 ++ l2) = (s' ← fold_opt f s l1; fold_opt f s' l2).
Proof.
  revert s; induction l1 as [|a l1 IH]; intros s; simpl; [done|].
  destruct (f s a); simpl; auto.
Qed.

(** A fold that keeps an invariant and never panics on it is total. *)
Lemma fold_opt_total {S A} (f : S -> A -> option S) (P : list A -> S -> Prop) l s :
  P [] s ->
  (forall pre a t, (exists post, l = pre ++ a :: post) -> P pre t ->
     exists t', f t a = Some t' /\ P (pre ++ [a]) t') ->
  exists s', fold_opt f s l = Some s' /\ P l s'.
Proof.
  intros H0 Hstep.
  cut (forall suf pre t, l = pre ++ suf -> P pre t -> exists s', fold_opt f t suf = Some s' /\ P l s').
  { intros H. by apply (H l []). }
  induction suf as [|a suf IH]; intros pre t Hl Hp; simpl.
  - exists t. split; [done|]. by rw Hl app_nil_r.
  - destruct (Hstep pre a t) as (t' & -> & Ht'); [by exists suf|done|]. simpl.
    apply (IH (pre ++ [a])); [by rw -app_assoc|done].
Qed.

(** A fold over rows is a fold over their concatenation. *)
Lemma fold_opt_concat {T A} (f : T -> A -> option T) ls s :
  fold_opt f s (concat ls) = fold_opt (fun s l => fold_opt f s l) s ls.
Proof.
  revert s. induction ls as [|l ls IH]; intros s; simpl; [done|]. rw fold_opt_app.
  destruct (fold_opt f s l); simpl; auto.
Qed.

(** The same rule for enumerations and index ranges: the invariant is indexed
    by how far the loop has come. *)
Lemma fold_opt_total_imap {S A} (f : S -> nat * A -> option S) (P : nat -> S -> Prop) l s :
  P 0 s ->
  (forall k a t, l !! k = Some a -> P k t -> exists t', f t (k, a) = Some t' /\ P (Datatypes.S k) t') ->
  exists s', fold_opt f s (imap pair l) = Some s' /\ P (length l) s'.
Proof.
  intros H0 Hstep. destruct (fold_opt_total f (fun pre t => P (length pre) t) (imap pair l) s) as (s' & Hf & Hp); [done| |].
  - intros pre [k a] t [post Hl] Hp. assert (imap pair l !! length pre = Some (k, a)) as Hk by by rw Hl list_lookup_middle.
    rewrite list_lookup_imap in Hk. destruct (l !! length pre) as [b|] eqn:Hb; [|done]. injection Hk as <- <-.
    destruct (Hstep _ _ _ Hb Hp) as (t' & Ht & Hp'). exists t'. split; [done|]. by rw length_app Nat.add_1_r.
  - rewrite length_imap in Hp. eauto.
Qed.

Lemma fold_opt_total_seq {S} (f : S -> nat -> option S) (P : nat -> S -> Prop) i n s :
  P i s ->
  (forall k t, i <= k < i + n -> P k t -> exists t', f t k = Some t' /\ P (Datatypes.S k) t') ->
  exists s', fold_opt f s (seq i n) = Some s' /\ P (i + n) s'.
Proof.
  revert i s. induction n as [|n IH]; intros i s H0 Hstep; simpl; [exists s; by rw Nat.add_0_r|].
  destruct (Hstep i s) as (t & -> & Ht); [lia|done|]. simpl.
  destruct (IH (Datatypes.S i) t Ht) as (s' & Hf & Hp); [intros; apply Hstep; [lia|done]|].
  exists s'. split; [done|]. by replace (i + Datatypes.S n) with (Datatypes.S i + n) by lia.
Qed.

Lemma fold_opt_total_rev {S} (f : S -> nat -> option S) (P : nat -> S -> Prop) i n s :
  P (i + n) s ->
  (forall k t, i <= k < i + n -> P (Datatypes.S k) t -> exists t', f t k = Some t' /\ P k t') ->
  exists s', fold_opt f s (rev (seq i n)) = Some s' /\ P i s'.
Proof.
  revert s. induction n as [|n IH]; intros s H0 Hstep; [exists s; by rewrite Nat.add_0_r in H0|].
  rw seq_S rev_app_distr /=. destruct (Hstep (i + n) s) as (t & -> & Ht); [lia|by rw -Nat.add_succ_r|]. simpl.
  apply IH; [done|]. intros. apply Hstep; [lia|done].
Qed.

Lemma fold_left_imap {S A} (f : S -> nat * A -> S) (P : nat -> S -> Prop) l s :
  P 0 s -> (forall k a t, l !! k = Some a -> P k t -> P (Datatypes.S k) (f t (k, a))) ->
  P (length l) (fold_left f (imap pair l) s).
Proof.
  intros H0 Hstep. destruct (fold_opt_total_imap (fun t e => Some (f t e)) P l s H0) as (s' & Hf & Hp); [eauto|].
  assert (forall l t, fold_opt (fun t e => Some (f t e)) t l = Some (fold_left f l t)) as He
    by (clear; induction l; simpl; done).
  rewrite He in Hf. by injection Hf as ->.
Qed.

(** Collect what each element emits. *)
Definition flat_opt {A E} (g : A -> option (list E)) (l : list A) : option (list E) :=
  ess ← mapM g l; Some (concat ess).

Lemma flat_opt_cons {A E} (g : A -> option (list E)) a l :
  flat_opt g (a :: l) = (es ← g a; rest ← flat_opt g l; Some (es ++ rest)).
Proof. rw /flat_opt /=. destruct (g a); simpl; [|done]. by destruct (mapM g l). Qed.

Lemma flat_opt_total {A E} (g : A -> option (list E)) l :
  Forall (fun a => is_Some (g a)) l -> exists es, flat_opt g l = Some es.
Proof. intros Hl%mapM_is_Some_2. destruct Hl as [ess Hl]. rw /flat_opt Hl /=. eauto. Qed.

Lemma flat_opt_inv {A E} (g : A -> option (list E)) l es a : flat_opt g l = Some es -> a ∈ l ->
  exists ea, g a = Some ea.
Proof.
  revert es. induction l as [|b l IH]; intros es; [by intros _ ?%not_elem_of_nil|].
  rw flat_opt_cons. destruct (g b) as [eb|] eqn:Hb; [|done]. simpl.
  destruct (flat_opt g l) as [er|]; [|done]. intros _ [->|Ha]%elem_of_cons; eauto.
Qed.

Lemma flat_opt_elem {A E} (g : A -> option (list E)) l es e : flat_opt g l = Some es ->
  e ∈ es <-> exists a es', a ∈ l /\ g a = Some es' /\ e ∈ es'.
Proof.
  revert es. induction l as [|a l IH]; intros es.
  - intros [= <-]. split; [by intros ?%not_elem_of_nil|].
    by intros (a & es' & ?%not_elem_of_nil & _).
  - rw flat_opt_cons. destruct (g a) as [ea|] eqn:Ha; [|done]. simpl.
    destruct (flat_opt g l) as [er|] eqn:Hr; [|done]. intros [= <-].
    rw elem_of_app (IH _ eq_refl). split.
    + intros [He|(b & eb & Hb & Hg & He)]; [exists a, ea|exists b, eb]; split_and!; try done.
      * by left.
      * by right.
    + intros (b & eb & [->|Hb]%elem_of_cons & Hg & He); [left; congruence|right; eauto].
Qed.

(** A fold whose steps consume emitted events is a fold over the events. *)
Lemma fold_opt_events {S A E} (f : S -> A -> option S) (g : A -> option (list E)) (h : S -> E -> S) :
  (forall s a, f s a = (es ← g a; Some (fold_left h es s))) ->
  forall l s, fold_opt f s l = (es ← flat_opt g l; Some (fold_left h es s)).
Proof.
  intros Hf l. induction l as [|a l IH]; intros s; [done|].
  rw flat_opt_cons /= Hf. destruct (g a) as [es|]; [|done]. simpl.
  rw IH. destruct (flat_opt g l); [|done]. simpl. by rw fold_left_app.
Qed.

(** ** Lists *)

(** Two results of an [omap] come from two elements. *)
Lemma omap_lookup_2 {A B} (f : A -> option B) (l : list A) i j x y : i <> j ->
  omap f l !! i = Some x -> omap f l !! j = Some y ->
  exists i' j' a b, i' <> j' /\ l !! i' = Some a /\ l !! j' = Some b /\ f a = Some x /\ f b = Some y.
Proof.
  revert i j. induction l as [|a l IH]; intros i j Hij Hi Hj; simpl in *; [done|].
  assert (forall i y, omap f l !! i = Some y -> exists i' b, l !! i' = Some b /\ f b = Some y) as Hin.
  { intros k z Hz%list_elem_of_lookup_2. apply list_elem_of_omap in Hz as (b & Hb & Hfb).
    apply list_elem_of_lookup in Hb as [k' Hk]. eauto. }
  destruct (f a) as [z|] eqn:Hfa; simpl in *.
  - destruct i as [|i], j as [|j]; simplify_eq/=.
    + destruct (Hin _ _ Hj) as (j' & b & ? & ?). exists 0, (S j'), a, b. auto.
    + destruct (Hin _ _ Hi) as (i' & b & ? & ?). exists (S i'), 0, b, a. auto.
    + destruct (IH i j) as (i' & j' & c & d & ? & ? & ? & ? & ?); [congruence|done..|].
      exists (S i'), (S j'), c, d. auto.
  - destruct (IH i j) as (i' & j' & c & d & ? & ? & ? & ? & ?); [done..|].
    exists (S i'), (S j'), c, d. auto.
Qed.

Lemma fst_snd_eq {A B} (l l' : list (A * B)) : l.*1 = l'.*1 -> l.*2 = l'.*2 -> l = l'.
Proof.
  revert l'. induction l as [|[a b] l IH]; intros [|[a' b'] l'] H1 H2; simplify_eq/=; [done|].
  f_equal. by apply IH.
Qed.

Lemma sum_list_app (l l' : list nat) : sum_list (l ++ l') = sum_list l + sum_list l'.
Proof. induction l as [|x l IH]; simpl; [done|]. rw IH. lia. Qed.

Lemma mapM_elem {A B} (f : A -> option B) l r : mapM f l = Some r -> forall y, y ∈ r <-> exists x, x ∈ l /\ f x = Some y.
Proof.
  intros Hr%mapM_Some_1 y. induction Hr as [|x z l r Hx _ IH].
  - split; [by intros ?%not_elem_of_nil|]. by intros (x & ?%not_elem_of_nil & _).
  - rw elem_of_cons IH. split.
    + intros [->|(x' & Hx' & Hf)]; [exists x|exists x']; by rw elem_of_cons; auto.
    + intros (x' & [->|Hx']%elem_of_cons & Hf); [left; congruence|right; by exists x'].
Qed.
