(* ===== verification/Csr.v ===== *)
(** * Flat adjacencies

    Rows of edges in one array with the offsets of the rows, and the counting
    sort that fills them: [crates/rue-cfg/src/dominators.rs] inverts two
    relations with it, [crates/rue-codegen/src/liveness.rs] two more. *)

From S2P Require Import Prelude.
From stdpp Require Import list.

Record Adjacency := mkAdjacency { offsets : list nat; targets : list nat }.

Definition adj_of (adj : Adjacency) (block : nat) : option (list nat) :=
  start ← offsets adj !! block;
  stop ← offsets adj !! S block;
  if (start <=? stop) && (stop <=? length (targets adj))
  then Some (take (stop - start) (drop start (targets adj))) else None.

(** The counting sort of both inversions: count, accumulate, place. *)
Definition count_key (counts : list nat) (key : nat) : option (list nat) :=
  c ← counts !! S key; Some (<[S key := S c]> counts).
Definition accumulate (os : list nat) (index : nat) : option (list nat) :=
  a ← os !! index; b ← os !! S index; Some (<[S index := b + a]> os).
Definition place_at (st : list nat * list nat) (key value : nat) : option (list nat * list nat) :=
  slot ← st.1 !! key; _ ← st.2 !! slot;
  Some (<[key := S slot]> st.1, <[slot := value]> st.2).

(** ** The inversions are exact *)

(** The values filed under a key, in order, and where they start. *)
Definition row (ps : list (nat * nat)) (k : nat) : list nat := (filter (fun p => p.1 = k) ps).*2.
Definition off (ps : list (nat * nat)) (k : nat) : nat := sum_list ((fun j => length (row ps j)) <$> seq 0 k).

Lemma row_app ps ps' k : row (ps ++ ps') k = row ps k ++ row ps' k.
Proof. by rw /row filter_app fmap_app. Qed.

Lemma row_one p k : row [p] k = if decide (p.1 = k) then [p.2] else [].
Proof. rw /row filter_cons filter_nil. by case_decide. Qed.

Lemma elem_of_row ps k v : v ∈ row ps k <-> (k, v) ∈ ps.
Proof.
  rw /row list_elem_of_fmap. split.
  - intros ([k' v'] & -> & [Hk Hp]%list_elem_of_filter). simpl in *. by subst.
  - intros Hp. exists (k, v). split; [done|]. by apply list_elem_of_filter.
Qed.

Lemma off_S ps k : off ps (S k) = off ps k + length (row ps k).
Proof. rw /off seq_S fmap_app /=. induction (_ <$> seq 0 k); simpl; lia. Qed.

Lemma off_mono ps k k' : k <= k' -> off ps k <= off ps k'.
Proof. induction 1 as [|k' _ IH]; [done|]. rw off_S. lia. Qed.

Lemma off_nil k : off [] k = 0.
Proof. induction k as [|k IH]; [done|]. rw off_S IH. done. Qed.

Lemma off_app ps ps' k : off (ps ++ ps') k = off ps k + off ps' k.
Proof. induction k as [|k IH]; [done|]. rw !off_S row_app length_app IH. lia. Qed.

Lemma off_one p k : off [p] k = if decide (p.1 < k) then 1 else 0.
Proof.
  induction k as [|k IH]; [by destruct (decide (p.1 < 0)); [lia|]|]. rw off_S IH row_one.
  repeat case_decide; simpl; lia.
Qed.

Lemma off_total ps n : Forall (fun p => p.1 < n) ps -> off ps n = length ps.
Proof.
  induction 1 as [|p ps Hp _ IH]; [apply off_nil|]. rw (off_app [p]) off_one IH decide_True //.
Qed.

Lemma csr_counts ps n : Forall (fun p => p.1 < n) ps ->
  exists counts, fold_opt count_key (replicate (S n) 0) ps.*1 = Some counts /\ length counts = S n /\
    counts !! 0 = Some 0 /\ forall k, k < n -> counts !! S k = Some (length (row ps k)).
Proof.
  intros Hf. destruct (fold_opt_total count_key (fun pre c => exists ps1, ps.*1 = pre ++ drop (length pre) ps.*1 /\
      ps1 = take (length pre) ps /\ length c = S n /\ c !! 0 = Some 0 /\
      forall k, k < n -> c !! S k = Some (length (row ps1 k))) ps.*1 (replicate (S n) 0)) as (c & Hc & ps1 & _ & -> & H).
  - exists []. split_and!; try done; [by rw length_replicate|]. intros k Hk. apply lookup_replicate. by split; [|lia].
  - intros pre a c [post Hp] (ps1 & _ & -> & Hl & H0 & Hk).
    assert (exists v, ps !! length pre = Some (a, v)) as [v Hv].
    { assert (ps.*1 !! length pre = Some a) as Hla by by rw Hp list_lookup_middle.
      rw list_lookup_fmap in Hla *. destruct (ps !! length pre) as [[a' v]|]; [|done]. simpl in Hla. injection Hla as ->. by exists v. }
    assert (a < n) as Ha.
    { rw Forall_forall in Hf. apply (Hf (a, v)). by eapply list_elem_of_lookup_2. }
    rw /count_key (Hk a Ha) /=. eexists. split; [done|]. exists (take (length (pre ++ [a])) ps).
    split_and!; [|done|by rw length_insert|by rw list_lookup_insert_ne|].
    + rw Hp length_app /= -drop_drop drop_app_length /= -app_assoc //.
    + intros k Hk'. rw length_app /= Nat.add_1_r (take_S_r _ _ _ Hv) row_app length_app row_one /=.
      destruct (decide (a = k)) as [->|Hne].
      * rw list_lookup_insert_eq; [f_equal; simpl; lia|lia].
      * rw list_lookup_insert_ne; [|congruence]. rw Hk //. f_equal. simpl. lia.
  - rw length_fmap take_ge in H *; [|lia]. by exists c.
Qed.

Lemma csr_offsets ps n counts : length counts = S n -> counts !! 0 = Some 0 ->
  (forall k, k < n -> counts !! S k = Some (length (row ps k))) ->
  exists os, fold_opt accumulate counts (seq 0 n) = Some os /\ length os = S n /\
    forall k, k <= n -> os !! k = Some (off ps k).
Proof.
  intros Hl H0 Hk. destruct (fold_opt_total accumulate (fun pre os => length os = S n /\
      (forall k, k <= length pre -> os !! k = Some (off ps k)) /\
      (forall k, length pre < S k -> os !! S k = counts !! S k)) (seq 0 n) counts) as (os & Hos & Hlo & H1 & _).
  - split_and!; [done| |done]. intros k Hk0. by assert (k = 0) as -> by (simpl in Hk0; lia).
  - intros pre i os [post Hp] (Hlo & H1 & H2).
    assert (i = length pre /\ i < n) as [-> Hin].
    { assert (seq 0 n !! length pre = Some i) as Hi by by rw Hp list_lookup_middle.
      apply lookup_seq in Hi. simpl in Hi. lia. }
    assert (os !! S (length pre) = Some (length (row ps (length pre)))) as Hn by (rw H2; [by apply Hk|lia]).
    rw /accumulate (H1 (length pre)) //= Hn /=. eexists. split; [done|].
    rw length_insert length_app /=. split_and!; [done| |].
    + intros k Hkl. destruct (decide (k = S (length pre))) as [->|Hne].
      * rw list_lookup_insert_eq; [|lia]. rw off_S. f_equal. lia.
      * rw list_lookup_insert_ne; [|done]. apply H1. lia.
    + intros k Hkl. rw list_lookup_insert_ne; [|lia]. apply H2. lia.
  - exists os. split_and!; [done..|]. intros k Hkn. apply H1. by rw length_seq.
Qed.

Lemma csr_place ps n os L : Forall (fun p => p.1 < n) ps -> length os = S n ->
  (forall k, k <= n -> os !! k = Some (off ps k)) -> L = length ps ->
  exists st, fold_opt (fun st p => place_at st p.1 p.2) (os, replicate L 0) ps = Some st /\
    (forall k, k < n -> adj_of (mkAdjacency os st.2) k = Some (row ps k)) /\
    length st.1 = S n /\ (forall k, k < n -> st.1 !! k = Some (off ps (S k))) /\ length st.2 = length ps /\ st.1 !! n = os !! n.
Proof.
  intros Hf Hlo Hos ->. pose proof (off_total ps n Hf) as Htot.
  destruct (fold_opt_total (fun st p => place_at st p.1 p.2) (fun pre st => length st.2 = length ps /\ (length st.1 = S n /\ st.1 !! n = os !! n) /\
      forall k, k < n -> st.1 !! k = Some (off ps k + length (row pre k)) /\
        forall j v, row pre k !! j = Some v -> st.2 !! (off ps k + j) = Some v)
    ps (os, replicate (length ps) 0)) as (st & Hst & Hl & [Hl1 Hln] & Hr).
  - split; [by rw length_replicate|]. split; [done|]. intros k Hk. split; [|done]. rw /= Hos; [|lia]. f_equal. simpl. lia.
  - intros pre [a v] [cs ts] [post Hp] (Hl & [Hl1 Hln] & Hr). simpl in *.
    assert (a < n) as Ha.
    { rw Forall_forall in Hf. apply (Hf (a, v)). rw Hp. set_solver. }
    assert (forall k, length (row ps k) = length (row pre k) + length (row [(a, v)] k) + length (row post k)) as Hrow.
    { intros k. rw Hp row_app (row_app [_]) !length_app. lia. }
    assert (length (row [(a, v)] a) = 1) as H1 by by rw row_one /= decide_True.
    pose proof (off_mono ps (S a) n ltac:(lia)) as Hm. rw off_S in Hm *. pose proof (Hrow a) as Hra.
    destruct (Hr a Ha) as [Hca Hra2]. rw /place_at /= Hca /=.
    destruct (lookup_lt_is_Some_2 ts (off ps a + length (row pre a))) as [z ->]; [lia|]. simpl.
    eexists. split; [done|]. simpl. rw !length_insert. split; [done|].
    split; [split; [done|by rw list_lookup_insert_ne; [|lia]]|]. intros k Hk. destruct (Hr k Hk) as [Hck Hrk].
    rw row_app row_one length_app /=. destruct (decide (a = k)) as [->|Hne].
    + rw list_lookup_insert_eq; [|by eapply lookup_lt_Some]. split; [f_equal; simpl; lia|]. intros j w Hj.
      apply lookup_app_Some in Hj as [Hj|[Hge Hj]].
      * rw list_lookup_insert_ne; [by apply Hrk|]. apply lookup_lt_Some in Hj. lia.
      * apply list_lookup_singleton_Some in Hj as [Hj <-]. assert (j = length (row pre k)) as -> by lia.
        rw list_lookup_insert_eq //. lia.
    + rw list_lookup_insert_ne // app_nil_r. split; [rw Hck; f_equal; simpl; lia|]. intros j w Hj.
      rw list_lookup_insert_ne; [by apply Hrk|]. apply lookup_lt_Some in Hj. pose proof (Hrow k) as Hrk2.
      destruct (Nat.lt_ge_cases a k) as [Hak|Hak].
      * pose proof (off_mono ps (S a) k ltac:(lia)) as Hm2. rw off_S in Hm2 *. lia.
      * pose proof (off_mono ps (S k) a ltac:(lia)) as Hm2. rw off_S in Hm2 *. lia.
  - exists st. split; [done|]. split_and!; [|done| |done|done]; cycle 1.
    { intros k Hk. destruct (Hr k Hk) as [Hck _]. by rw Hck off_S. }
    intros k Hk. destruct (Hr k Hk) as [_ Hrk]. rw /adj_of /=.
    rw (Hos k ltac:(lia)) (Hos (S k) ltac:(lia)) /= off_S. pose proof (off_mono ps (S k) n ltac:(lia)) as Hm. rw off_S in Hm *.
    destruct (Nat.leb_spec (off ps k) (off ps k + length (row ps k))); [|lia].
    destruct (Nat.leb_spec (off ps k + length (row ps k)) (length st.2)); [|lia]. simpl. f_equal.
    apply list_eq. intros j. replace (off ps k + length (row ps k) - off ps k) with (length (row ps k)) by lia.
    destruct (row ps k !! j) as [v|] eqn:Hj.
    + rw lookup_take_lt; [|by eapply lookup_lt_Some]. rw lookup_drop. by apply Hrk.
    + apply lookup_ge_None in Hj. apply lookup_take_ge. lia.
Qed.
