(* ===== verification/IntegerSemantics.v ===== *)
(** * The fixed-width integer kernel

    [crates/rue-air/src/integer_semantics.rs]: the one place where width,
    signedness, canonical representation and the checked / wrapping arithmetic
    of Rue's eight integer types are defined.  An [i128] or [u64] of the source
    is a [Z]; every cast of the source is written out with the wrap-around of
    the machine type.  The second half of the file is the reference semantics
    (mathematical integers) and the refinement theorems. *)

From S2P Require Import Prelude.
Import Machine.
Local Open Scope Z_scope.

Module IntegerSemantics.

(** The raw mathematical result and the accepted one. *)
Record CheckedIntegerResult := { raw : option Z; checked : option Z }.

Definition from_raw (r : option Z) : CheckedIntegerResult :=
  {| raw := r; checked := r |}.

Record IntegerType := { bits : Z; signed : bool }.

#[export] Instance IntegerType_eq_dec : EqDecision IntegerType.
Proof. solve_decision. Defined.

Definition new (b : Z) (s : bool) : option IntegerType :=
  if (b =? 8) || (b =? 16) || (b =? 32) || (b =? 64)
  then Some {| bits := b; signed := s |} else None.

(** The four accepted widths, each with its two signednesses. *)
Definition wf (t : IntegerType) : Prop := new (bits t) (signed t) = Some t.

Definition is_signed (t : IntegerType) : bool := signed t.
Definition is_unsigned (t : IntegerType) : bool := negb (signed t).

Definition min_i128 (t : IntegerType) : Z :=
  if signed t then - Z.shiftl 1 (bits t - 1) else 0.

Definition max_i128 (t : IntegerType) : Z :=
  if signed t then Z.shiftl 1 (bits t - 1) - 1 else Z.shiftl 1 (bits t) - 1.

Definition mask_u128 (t : IntegerType) : Z := Z.shiftl 1 (bits t) - 1.

Definition fits_i128 (t : IntegerType) (value : Z) : bool :=
  (min_i128 t <=? value) && (value <=? max_i128 t).

Definition canonicalize_i128 (t : IntegerType) (value : Z) : Z :=
  let masked := wrap_s 128 (Z.land (wrap_u 128 value) (mask_u128 t)) in
  if signed t && (Z.shiftl 1 (bits t - 1) <=? masked)
  then masked - Z.shiftl 1 (bits t)
  else masked.

Definition mask_u64 (t : IntegerType) (value : Z) : Z :=
  Z.land value (wrap_u 64 (mask_u128 t)).

Definition canonicalize_u64 (t : IntegerType) (value : Z) : Z :=
  wrap_u 64 (canonicalize_i128 t value).

Definition sign_extend_u64 (t : IntegerType) (value : Z) : Z := canonicalize_u64 t value.

Definition shift_count_mask (t : IntegerType) : Z := bits t - 1.

Definition shift_count_i128 (t : IntegerType) (value : Z) : Z :=
  wrap_u 32 (Z.land (wrap_u 128 value) (shift_count_mask t)).

Definition shift_count_u64 (t : IntegerType) (value : Z) : Z :=
  wrap_u 32 (Z.land value (shift_count_mask t)).

(** [Option::filter]. *)
Definition option_filter {A} (p : A -> bool) (o : option A) : option A :=
  match o with Some a => if p a then Some a else None | None => None end.

Definition report_raw (t : IntegerType) (r : option Z) : CheckedIntegerResult :=
  {| raw := r; checked := option_filter (fits_i128 t) r |}.

Definition checked_binary_report_i128 (t : IntegerType) (lhs rhs : Z)
    (op : Z -> Z -> option Z) : CheckedIntegerResult :=
  report_raw t (op (canonicalize_i128 t lhs) (canonicalize_i128 t rhs)).

(** The [i128] operations of the standard library. *)
Definition i128_checked_add (a b : Z) : option Z := checked_s 128 (a + b).
Definition i128_checked_sub (a b : Z) : option Z := checked_s 128 (a - b).
Definition i128_checked_mul (a b : Z) : option Z := checked_s 128 (a * b).
Definition i128_checked_div (a b : Z) : option Z :=
  if b =? 0 then None else checked_s 128 (Z.quot a b).
Definition i128_checked_rem (a b : Z) : option Z :=
  if (b =? 0) || ((a =? - 2 ^ 127) && (b =? -1)) then None else Some (Z.rem a b).
Definition i128_checked_neg (a : Z) : option Z := checked_s 128 (- a).

Definition checked_add_report_i128 t lhs rhs := checked_binary_report_i128 t lhs rhs i128_checked_add.
Definition checked_add_i128 t lhs rhs : option Z := checked (checked_add_report_i128 t lhs rhs).
Definition checked_sub_report_i128 t lhs rhs := checked_binary_report_i128 t lhs rhs i128_checked_sub.
Definition checked_sub_i128 t lhs rhs : option Z := checked (checked_sub_report_i128 t lhs rhs).
Definition checked_mul_report_i128 t lhs rhs := checked_binary_report_i128 t lhs rhs i128_checked_mul.
Definition checked_mul_i128 t lhs rhs : option Z := checked (checked_mul_report_i128 t lhs rhs).

Definition checked_div_report_i128 (t : IntegerType) (lhs rhs : Z) : CheckedIntegerResult :=
  let lhs := canonicalize_i128 t lhs in
  let rhs := canonicalize_i128 t rhs in
  if is_signed t && (lhs =? min_i128 t) && (rhs =? -1) then from_raw None
  else checked_binary_report_i128 t lhs rhs i128_checked_div.
Definition checked_div_i128 t lhs rhs : option Z := checked (checked_div_report_i128 t lhs rhs).

Definition checked_rem_report_i128 (t : IntegerType) (lhs rhs : Z) : CheckedIntegerResult :=
  let lhs := canonicalize_i128 t lhs in
  let rhs := canonicalize_i128 t rhs in
  let report := checked_binary_report_i128 t lhs rhs i128_checked_rem in
  if is_signed t && (lhs =? min_i128 t) && (rhs =? -1) then from_raw None
  else report.
Definition checked_rem_i128 t lhs rhs : option Z := checked (checked_rem_report_i128 t lhs rhs).

Definition checked_neg_report_i128 (t : IntegerType) (value : Z) : CheckedIntegerResult :=
  report_raw t (i128_checked_neg (canonicalize_i128 t value)).
Definition checked_neg_i128 t value : option Z := checked (checked_neg_report_i128 t value).

Definition checked_neg_literal_report_i128 (t : IntegerType) (magnitude : Z) : CheckedIntegerResult :=
  if magnitude <? 0 then from_raw None else report_raw t (i128_checked_neg magnitude).
Definition checked_neg_literal_i128 t magnitude : option Z :=
  checked (checked_neg_literal_report_i128 t magnitude).

Definition wrapping_add_i128 t lhs rhs : Z := canonicalize_i128 t (wrap_s 128 (lhs + rhs)).
Definition wrapping_sub_i128 t lhs rhs : Z := canonicalize_i128 t (wrap_s 128 (lhs - rhs)).
Definition wrapping_mul_i128 t lhs rhs : Z := canonicalize_i128 t (wrap_s 128 (lhs * rhs)).

(** [i128::wrapping_shl] masks the amount to the width of the type. *)
Definition shift_i128 (t : IntegerType) (value amount : Z) (left : bool) : Z :=
  let amount := shift_count_i128 t amount in
  let value := canonicalize_i128 t value in
  let shifted := if left then wrap_s 128 (Z.shiftl value (Z.land amount 127))
                 else Z.shiftr value amount in
  canonicalize_i128 t shifted.

Definition bitnot_i128 (t : IntegerType) (value : Z) : Z := canonicalize_i128 t (Z.lnot value).

Definition compare_i128 (t : IntegerType) (lhs rhs : Z) : comparison :=
  canonicalize_i128 t lhs ?= canonicalize_i128 t rhs.

Definition to_i128 (t : IntegerType) (value : Z) : Z :=
  if signed t then wrap_s 64 (canonicalize_u64 t value) else mask_u64 t value.

Definition map_u64 (t : IntegerType) (value : Z) : option Z :=
  if fits_i128 t value then Some (wrap_u 64 (canonicalize_i128 t value)) else None.

Definition checked_add_u64 t lhs rhs : option Z :=
  v ← checked_add_i128 t (to_i128 t lhs) (to_i128 t rhs); map_u64 t v.
Definition checked_sub_u64 t lhs rhs : option Z :=
  v ← checked_sub_i128 t (to_i128 t lhs) (to_i128 t rhs); map_u64 t v.
Definition checked_mul_u64 t lhs rhs : option Z :=
  v ← checked_mul_i128 t (to_i128 t lhs) (to_i128 t rhs); map_u64 t v.
Definition checked_div_u64 t lhs rhs : option Z :=
  v ← checked_div_i128 t (to_i128 t lhs) (to_i128 t rhs); map_u64 t v.
Definition checked_rem_u64 t lhs rhs : option Z :=
  v ← checked_rem_i128 t (to_i128 t lhs) (to_i128 t rhs); map_u64 t v.
Definition checked_neg_u64 t value : option Z :=
  v ← checked_neg_i128 t (to_i128 t value); map_u64 t v.

Definition wrapping_add_u64 t lhs rhs : Z := canonicalize_u64 t (wrap_u 64 (lhs + rhs)).
Definition wrapping_sub_u64 t lhs rhs : Z := canonicalize_u64 t (wrap_u 64 (lhs - rhs)).
Definition wrapping_mul_u64 t lhs rhs : Z := canonicalize_u64 t (wrap_u 64 (lhs * rhs)).

Definition shift_u64 (t : IntegerType) (value amount : Z) (left : bool) : Z :=
  wrap_u 64 (shift_i128 t (to_i128 t value) amount left).

(** [!value] on a [u64] flips 64 bits. *)
Definition bitnot_u64 (t : IntegerType) (value : Z) : Z :=
  canonicalize_u64 t (wrap_u 64 (Z.lnot value)).

Definition compare_u64 (t : IntegerType) (lhs rhs : Z) : comparison :=
  to_i128 t lhs ?= to_i128 t rhs.
End IntegerSemantics.

(** ** Reference semantics

    The values of an integer type, as mathematical integers, and what each
    operation means on them.  Nothing below mentions the machine types the
    source computes with. *)

Module IntegerSpec.
Import IntegerSemantics.

Definition min_val (t : IntegerType) : Z := if signed t then - 2 ^ (bits t - 1) else 0.
Definition max_val (t : IntegerType) : Z :=
  if signed t then 2 ^ (bits t - 1) - 1 else 2 ^ bits t - 1.
Definition in_range (t : IntegerType) (z : Z) : Prop := min_val t <= z <= max_val t.

(** The value of the type congruent to [z] modulo [2^bits]. *)
Definition norm (t : IntegerType) (z : Z) : Z :=
  if signed t then wrap_s (bits t) z else wrap_u (bits t) z.

(** The 64-bit register image of a value. *)
Definition image (z : Z) : Z := wrap_u 64 z.

(** A register image in Rue's canonical form: sign- or zero-extended. *)
Definition canonical (t : IntegerType) (w : Z) : Prop := w = image (norm t w).

Inductive arith := OpAdd | OpSub | OpMul | OpDiv | OpRem.

(** The exact result; [None] when there is none (division by zero). *)
Definition exact (op : arith) (x y : Z) : option Z :=
  match op with
  | OpAdd => Some (x + y)
  | OpSub => Some (x - y)
  | OpMul => Some (x * y)
  | OpDiv => if y =? 0 then None else Some (Z.quot x y)
  | OpRem => if y =? 0 then None else Some (Z.rem x y)
  end.

(** Checked arithmetic: [None] is the runtime trap.  A remainder traps
    exactly when the division it belongs to does. *)
Definition ref_checked (t : IntegerType) (op : arith) (x y : Z) : option Z :=
  match op with
  | OpRem => q ← exact OpDiv x y;
             if decide (in_range t q) then exact OpRem x y else None
  | _ => r ← exact op x y; if decide (in_range t r) then Some r else None
  end.

Definition checked_op (op : arith) : IntegerType -> Z -> Z -> option Z :=
  match op with
  | OpAdd => checked_add_u64
  | OpSub => checked_sub_u64
  | OpMul => checked_mul_u64
  | OpDiv => checked_div_u64
  | OpRem => checked_rem_u64
  end.
End IntegerSpec.

Import IntegerSemantics IntegerSpec.

#[export] Instance in_range_dec t z : Decision (in_range t z).
Proof. rw /in_range. apply _. Defined.

Section Kernel.
Context (t : IntegerType) (Hwf : wf t).

Lemma wf_bits : bits t = 8 \/ bits t = 16 \/ bits t = 32 \/ bits t = 64.
Proof.
  move: Hwf. rw /wf /new.
  destruct (Z.eqb_spec (bits t) 8), (Z.eqb_spec (bits t) 16),
    (Z.eqb_spec (bits t) 32), (Z.eqb_spec (bits t) 64); simpl; auto; discriminate.
Qed.

Lemma wf_bits_bound : 1 <= bits t <= 64.
Proof. pose proof wf_bits. lia. Qed.

Lemma pow_half : 2 ^ bits t = 2 * 2 ^ (bits t - 1).
Proof. pose proof wf_bits_bound. rw -Z.pow_succ_r; [f_equal; lia|lia]. Qed.

Lemma pow_bits_le : 2 ^ bits t <= 2 ^ 64.
Proof. pose proof wf_bits_bound. apply Z.pow_le_mono_r; lia. Qed.

Lemma pow_bits_pos : 0 < 2 ^ (bits t - 1).
Proof. pose proof wf_bits_bound. apply Z.pow_pos_nonneg; lia. Qed.

(** Facts about [2 ^ bits t] that [lia] needs. *)
Ltac bits_facts :=
  pose proof wf_bits_bound as Hbits; pose proof pow_half as Hhalf;
  pose proof pow_bits_le as Hle64; pose proof pow_bits_pos as Hpos.

Lemma norm_in_range z : in_range t (norm t z).
Proof.
  bits_facts. rw /in_range /norm /min_val /max_val.
  destruct (signed t).
  - pose proof (wrap_s_in (bits t) z) as Hin. rw /in_s in Hin. lia.
  - pose proof (wrap_u_in (bits t) z) as Hin. rw /in_u in Hin. lia.
Qed.

Lemma norm_id z : in_range t z -> norm t z = z.
Proof.
  bits_facts. rw /in_range /norm /min_val /max_val.
  destruct (signed t); intros.
  - apply wrap_s_small; rw ?/in_s; lia.
  - apply wrap_u_small. rw /in_u. lia.
Qed.

Lemma norm_congr z : norm t z mod 2 ^ bits t = z mod 2 ^ bits t.
Proof.
  bits_facts. rw /norm. destruct (signed t).
  - apply wrap_s_congr; lia.
  - rw /wrap_u Z.mod_mod; lia.
Qed.

(** [norm] only depends on the residue. *)
Lemma norm_eq_mod x y : x mod 2 ^ bits t = y mod 2 ^ bits t -> norm t x = norm t y.
Proof.
  bits_facts. intros He. rw /norm. destruct (signed t).
  - rw !wrap_s_residue; [|lia..]. by rw He.
  - exact He.
Qed.

Lemma norm_idem z : norm t (norm t z) = norm t z.
Proof. apply norm_id, norm_in_range. Qed.

Lemma norm_wrap_s128 z : norm t (wrap_s 128 z) = norm t z.
Proof.
  bits_facts. apply norm_eq_mod.
  rw -(mod_mod_pow2 _ (bits t) 128); [|lia].
  rw wrap_s_congr; [|lia]. by rw mod_mod_pow2; [|lia].
Qed.

Lemma norm_wrap_u64 z : norm t (wrap_u 64 z) = norm t z.
Proof. bits_facts. apply norm_eq_mod. rw /wrap_u mod_mod_pow2; [done|lia]. Qed.

Lemma norm_image z : norm t (image z) = norm t z.
Proof. apply norm_wrap_u64. Qed.

Lemma in_range_s128 z : in_range t z -> in_s 128 z.
Proof.
  bits_facts. rw /in_range /min_val /max_val /in_s.
  change (2 ^ (128 - 1)) with (2 ^ 63 * 2 ^ 64). destruct (signed t); lia.
Qed.

Lemma min_i128_val : min_i128 t = min_val t.
Proof. bits_facts. rw /min_i128 /min_val Z.shiftl_1_l //. Qed.

Lemma max_i128_val : max_i128 t = max_val t.
Proof. bits_facts. rw /max_i128 /max_val !Z.shiftl_1_l //. Qed.

Lemma fits_i128_spec z : fits_i128 t z = bool_decide (in_range t z).
Proof.
  rw /fits_i128 min_i128_val max_i128_val /in_range.
  apply eq_true_iff_eq. rw bool_decide_eq_true andb_true_iff !Z.leb_le. done.
Qed.

Lemma canonicalize_i128_norm v : canonicalize_i128 t v = norm t v.
Proof.
  bits_facts. rw /canonicalize_i128 /mask_u128 !Z.shiftl_1_l land_mask; [|lia].
  rw /wrap_u mod_mod_pow2; [|lia].
  pose proof (Z.mod_pos_bound v (2 ^ bits t) ltac:(lia)).
  rw wrap_s_small; [|lia|]; last first.
  { rw /in_s. change (2 ^ (128 - 1)) with (2 ^ 63 * 2 ^ 64). lia. }
  rw /norm. destruct (signed t); simpl; [|done].
  rw wrap_s_residue; [|lia].
  destruct (Z.ltb_spec (v mod 2 ^ bits t) (2 ^ (bits t - 1))),
    (Z.leb_spec (2 ^ (bits t - 1)) (v mod 2 ^ bits t)); lia.
Qed.

Lemma canonicalize_u64_image v : canonicalize_u64 t v = image (norm t v).
Proof. by rw /canonicalize_u64 canonicalize_i128_norm. Qed.

Lemma wrap_s64_image z : in_s 64 z -> wrap_s 64 (image z) = z.
Proof.
  intros [H1 H2]. change (2 ^ (64 - 1)) with (2 ^ 63) in *.
  rw wrap_s_residue; [|lia]. rw /image /wrap_u Z.mod_mod; [|lia].
  change (2 ^ (64 - 1)) with (2 ^ 63).
  destruct (Z.ltb_spec (z mod 2 ^ 64) (2 ^ 63)); Z.to_euclidean_division_equations; lia.
Qed.

Lemma to_i128_norm w : to_i128 t w = norm t w.
Proof.
  bits_facts. rw /to_i128 canonicalize_u64_image /mask_u64 /mask_u128.
  destruct (signed t) eqn:Hs.
  - apply wrap_s64_image. pose proof (norm_in_range w) as Hr.
    move: Hr. rw /in_range /min_val /max_val Hs /in_s.
    change (2 ^ 64) with (2 * 2 ^ (64 - 1)) in *. lia.
  - rw Z.shiftl_1_l (wrap_u_small 64); [|rw /in_u; lia].
    rw land_mask; [|lia]. by rw /norm Hs.
Qed.

Lemma map_u64_spec v :
  map_u64 t v = if decide (in_range t v) then Some (image v) else None.
Proof.
  rw /map_u64 fits_i128_spec.
  case_bool_decide; destruct (decide _); [|done..].
  by rw canonicalize_i128_norm norm_id.
Qed.

(** The exact [i128] operations on values of the type never leave [i128],
    except that [MIN / -1] has no value of the type. *)
Lemma values_add x y : in_range t x -> in_range t y -> in_s 128 (x + y).
Proof.
  bits_facts. rw /in_range /min_val /max_val /in_s.
  change (2 ^ (128 - 1)) with (2 ^ 63 * 2 ^ 64). destruct (signed t); lia.
Qed.

Lemma values_sub x y : in_range t x -> in_range t y -> in_s 128 (x - y).
Proof.
  bits_facts. rw /in_range /min_val /max_val /in_s.
  change (2 ^ (128 - 1)) with (2 ^ 63 * 2 ^ 64). destruct (signed t); lia.
Qed.

(** Two 64-bit magnitudes: the product of values fits in an [i128] for a
    signed type, and for an unsigned one unless it exceeds [2 ^ 127]. *)
Lemma mul_abs_bound x y M : Z.abs x <= M -> Z.abs y <= M -> Z.abs (x * y) <= M * M.
Proof. intros. rw Z.abs_mul. nia. Qed.

Lemma value_abs x : in_range t x -> Z.abs x <= 2 ^ 64 - 1.
Proof.
  bits_facts. rw /in_range /min_val /max_val. destruct (signed t); lia.
Qed.

(** A product that overflows [i128] overflows every integer type. *)
Lemma mul_overflow x y :
  in_range t x -> in_range t y -> ~ in_s 128 (x * y) -> ~ in_range t (x * y).
Proof.
  intros Hx Hy Hn Hr. apply Hn. by apply in_range_s128.
Qed.

Lemma quot_range x y : in_range t x -> in_range t y -> y <> 0 ->
  in_range t (Z.quot x y) \/ (signed t = true /\ x = min_val t /\ y = -1).
Proof.
  bits_facts. intros Hx Hy Hy0.
  pose proof (Z.quot_rem' x y) as Hq. pose proof (Z.rem_bound_abs x y Hy0) as Hb.
  destruct (decide (y = -1)) as [->|Hy1].
  { rw /in_range /min_val /max_val in Hx Hy *. change (-1) with (- (1)).
    rw Z.quot_opp_r // Z.quot_1_r. destruct (signed t); [|lia].
    destruct (decide (x = - 2 ^ (bits t - 1))); [right|left]; lia. }
  left. assert (Z.abs (Z.quot x y) <= Z.abs x) as Habs.
  { rw -Z.quot_abs //. apply Z.quot_le_upper_bound; nia. }
  rw /in_range /min_val /max_val in Hx Hy *. destruct (signed t).
  - destruct (decide (Z.abs y = 1)) as [H1|H1].
    + assert (y = 1) as -> by lia. rw Z.quot_1_r. lia.
    + assert (Z.abs (Z.quot x y) < 2 ^ (bits t - 1)); [|lia].
      destruct (decide (x = 0)) as [->|Hx0]; [rw Z.quot_0_l //; lia|].
      rw -Z.quot_abs //. assert (Z.abs x ÷ Z.abs y < Z.abs x); [|lia].
      apply Z.quot_lt; lia.
  - assert (0 <= Z.quot x y) by (apply Z.quot_pos; lia). lia.
Qed.
End Kernel.

Section CheckedOps.
Context (t : IntegerType) (Hwf : wf t).

Lemma filter_fits z :
  option_filter (fits_i128 t) (checked_s 128 z) =
  if decide (in_range t z) then Some z else None.
Proof.
  rw /checked_s. destruct (in_sb 128 z) eqn:Hs; simpl.
  - rw fits_i128_spec //. case_bool_decide; by destruct (decide _).
  - destruct (decide _) as [Hr|]; [|done].
    apply (in_range_s128 t Hwf), in_sb_spec in Hr. congruence.
Qed.

Lemma filter_fits_some z :
  option_filter (fits_i128 t) (Some z) = if decide (in_range t z) then Some z else None.
Proof. simpl. rw fits_i128_spec //. case_bool_decide; by destruct (decide _). Qed.

Lemma canonicalize_norm z : canonicalize_i128 t (norm t z) = norm t z.
Proof. by rw canonicalize_i128_norm // norm_idem. Qed.

Lemma canonicalize_value x : in_range t x -> canonicalize_i128 t x = x.
Proof. intros. by rw canonicalize_i128_norm // norm_id. Qed.

(** The one pair of values whose quotient leaves the type. *)
Definition overflow_pair (x y : Z) : bool := is_signed t && (x =? min_val t) && (y =? -1).

Lemma overflow_pair_spec x y : in_range t x -> in_range t y -> y <> 0 ->
  in_range t (Z.quot x y) <-> overflow_pair x y = false.
Proof.
  intros Hx Hy Hy0. rw /overflow_pair /is_signed. split.
  - intros Hq. apply not_true_iff_false. rw !andb_true_iff !Z.eqb_eq.
    intros [[Hs ->] ->]. move: Hq. change (-1) with (- (1)).
    rw Z.quot_opp_r // Z.quot_1_r /in_range /min_val /max_val Hs.
    pose proof (pow_bits_pos t Hwf). lia.
  - intros Hf. destruct (quot_range t Hwf x y Hx Hy Hy0) as [|(Hs & -> & ->)]; [done|].
    by rw Hs !Z.eqb_refl in Hf.
Qed.

Lemma rem_range x y : in_range t x -> in_range t y -> y <> 0 -> in_range t (Z.rem x y).
Proof.
  rw /in_range /min_val /max_val. intros Hx Hy Hy0.
  pose proof (Z.rem_bound_abs x y Hy0).
  pose proof (Z.rem_sign_mul x y Hy0). destruct (signed t).
  - pose proof (pow_bits_pos t Hwf). lia.
  - pose proof (Z.rem_nonneg x y Hy0). lia.
Qed.

Lemma checked_i128_spec op x y : in_range t x -> in_range t y ->
  match op with
  | OpAdd => checked_add_i128 | OpSub => checked_sub_i128 | OpMul => checked_mul_i128
  | OpDiv => checked_div_i128 | OpRem => checked_rem_i128
  end t x y = ref_checked t op x y.
Proof.
  intros Hx Hy.
  destruct op;
    rw /checked_add_i128 /checked_sub_i128 /checked_mul_i128
       /checked_div_i128 /checked_rem_i128
       /checked_add_report_i128 /checked_sub_report_i128 /checked_mul_report_i128
       /checked_div_report_i128 /checked_rem_report_i128
       /checked_binary_report_i128 /report_raw /ref_checked /=
       ?(canonicalize_value x) ?(canonicalize_value y) //.
  - apply filter_fits.
  - apply filter_fits.
  - apply filter_fits.
  - rw (min_i128_val t Hwf). fold (overflow_pair x y).
    destruct (Z.eqb_spec y 0) as [->|Hy0]; simpl.
    { rw /overflow_pair andb_false_r /=. by rw /i128_checked_div. }
    destruct (overflow_pair x y) eqn:Ho; simpl.
    + destruct (decide _) as [Hq|]; [|done].
      apply overflow_pair_spec in Hq; congruence.
    + rw /i128_checked_div. destruct (Z.eqb_spec y 0); [done|]. apply filter_fits.
  - rw (min_i128_val t Hwf). fold (overflow_pair x y).
    destruct (Z.eqb_spec y 0) as [->|Hy0]; simpl.
    { rw /overflow_pair andb_false_r /=. by rw /i128_checked_rem. }
    destruct (overflow_pair x y) eqn:Ho; simpl.
    + destruct (decide _) as [Hq|]; [|done].
      apply overflow_pair_spec in Hq; congruence.
    + destruct (decide _) as [_|Hq]; [|by apply overflow_pair_spec in Ho].
      rw /i128_checked_rem. destruct (Z.eqb_spec y 0); [done|].
      destruct (Z.eqb_spec x (- 2 ^ 127)) as [->|]; simpl.
      { move: Hx. rw /in_range /min_val.
        pose proof (pow_bits_le t Hwf). pose proof (pow_half t Hwf).
        change (2 ^ 127) with (2 ^ 63 * 2 ^ 64). destruct (signed t); lia. }
      rw (fits_i128_spec t Hwf). case_bool_decide; [done|].
      by pose proof (rem_range x y Hx Hy Hy0).
Qed.
End CheckedOps.

(** The whole family of checked operations at once. *)
Lemma checked_op_image t op a b : wf t ->
  checked_op op t a b = image <$> ref_checked t op (norm t a) (norm t b).
Proof.
  intros Hwf.
  assert (forall x y, in_range t x -> in_range t y ->
            (v ← ref_checked t op x y; map_u64 t v) = image <$> ref_checked t op x y) as Hm.
  { intros x y Hx Hy. rw /ref_checked. destruct op; simpl;
      try destruct (Z.eqb_spec y 0); simpl; try done;
      destruct (decide _) as [Hr|] in |- *; simpl; try done;
      rw map_u64_spec // decide_True //.
    by apply rem_range. }
  pose proof (norm_in_range t Hwf a) as Ha. pose proof (norm_in_range t Hwf b) as Hb.
  rewrite -Hm //. destruct op; simpl;
    rw /checked_add_u64 /checked_sub_u64 /checked_mul_u64 /checked_div_u64 /checked_rem_u64
       !to_i128_norm //.
  - by rw (checked_i128_spec t Hwf OpAdd).
  - by rw (checked_i128_spec t Hwf OpSub).
  - by rw (checked_i128_spec t Hwf OpMul).
  - by rw (checked_i128_spec t Hwf OpDiv).
  - by rw (checked_i128_spec t Hwf OpRem).
Qed.

(** C38.  The checked [u64] operations that constant folding and code planning
    share agree with exact integer arithmetic: on any two register images, the
    result is the canonical image of the exact result of the operands' values
    when that result is a value of the type, and [None] (the runtime trap)
    when it is not, for a zero divisor, and for [MIN / -1] and [MIN % -1]. *)
Theorem checked_op_refines (t : IntegerType) (op : arith) (a b : Z) (Hwf : wf t) :
  checked_op op t a b = image <$> ref_checked t op (norm t a) (norm t b).
Proof. by apply checked_op_image. Qed.

Lemma checked_op_refines_witness :
  wf {| bits := 8; signed := true |} /\
  checked_op OpDiv {| bits := 8; signed := true |} (2 ^ 64 - 128) (2 ^ 64 - 1) = None /\
  checked_op OpAdd {| bits := 8; signed := true |} 100 (2 ^ 64 - 101) = Some (2 ^ 64 - 1).
Proof.
  split; [reflexivity|split]; rewrite checked_op_refines; reflexivity.
Defined.

(** ** Canonical register images *)

Section Canonical.
Context (t : IntegerType) (Hwf : wf t).

Lemma canonical_norm_inj a b : canonical t a -> canonical t b -> norm t a = norm t b -> a = b.
Proof. rw /canonical. congruence. Qed.

Lemma canonical_image x : in_range t x -> canonical t (image x).
Proof. intros Hx. rw /canonical norm_image // norm_id //. Qed.

Lemma canonical_image_norm z : canonical t (image (norm t z)).
Proof. apply canonical_image, norm_in_range, Hwf. Qed.

Lemma norm_of_image x : in_range t x -> norm t (image x) = x.
Proof. intros. by rw norm_image // norm_id. Qed.

Lemma in_range_0 : in_range t 0.
Proof.
  pose proof (pow_bits_pos t Hwf). pose proof (pow_half t Hwf).
  rw /in_range /min_val /max_val. destruct (signed t); lia.
Qed.

Lemma canonical_0 : canonical t 0.
Proof. apply (canonical_image 0), in_range_0. Qed.

(** Values of a signed type are the integers whose bits from [bits - 1] up
    agree; of an unsigned type, those with no bit from [bits] up. *)
Lemma in_range_shiftr z :
  in_range t z <-> if signed t then Z.shiftr z (bits t - 1) = 0 \/ Z.shiftr z (bits t - 1) = -1
                   else Z.shiftr z (bits t) = 0.
Proof.
  pose proof (wf_bits_bound t Hwf). pose proof (pow_bits_pos t Hwf).
  pose proof (pow_half t Hwf).
  rw /in_range /min_val /max_val. destruct (signed t);
    (rw !Z.shiftr_div_pow2; [|lia..]); split; intros Hz.
  - destruct (decide (0 <= z)).
    + left. apply Z.div_small. lia.
    + right. symmetry. apply (Z.div_unique _ _ _ (z + 2 ^ (bits t - 1))); lia.
  - pose proof (Z.div_mod z (2 ^ (bits t - 1)) ltac:(lia)).
    pose proof (Z.mod_pos_bound z (2 ^ (bits t - 1)) ltac:(lia)). nia.
  - apply Z.div_small. lia.
  - pose proof (Z.div_mod z (2 ^ bits t) ltac:(lia)).
    pose proof (Z.mod_pos_bound z (2 ^ bits t) ltac:(lia)). nia.
Qed.

Lemma land_in_range x y : in_range t x -> in_range t y -> in_range t (Z.land x y).
Proof.
  rw !in_range_shiftr. destruct (signed t); rw Z.shiftr_land.
  - intros [->| ->] [->| ->]; auto.
  - intros -> ->. done.
Qed.

Lemma lor_in_range x y : in_range t x -> in_range t y -> in_range t (Z.lor x y).
Proof.
  rw !in_range_shiftr. destruct (signed t); rw Z.shiftr_lor.
  - intros [->| ->] [->| ->]; auto.
  - intros -> ->. done.
Qed.

Lemma lxor_in_range x y : in_range t x -> in_range t y -> in_range t (Z.lxor x y).
Proof.
  rw !in_range_shiftr. destruct (signed t); rw Z.shiftr_lxor.
  - intros [->| ->] [->| ->]; auto.
  - intros -> ->. done.
Qed.

Lemma lnot_in_range x : signed t = true -> in_range t x -> in_range t (Z.lnot x).
Proof. rw /Z.lnot /in_range /min_val /max_val. intros ->. lia. Qed.

Lemma image_land x y : image (Z.land x y) = Z.land (image x) (image y).
Proof.
  rw /image /wrap_u -!Z.land_ones //.
  apply Z.bits_inj'. intros n Hn. rw !Z.land_spec.
  destruct (Z.testbit x n), (Z.testbit y n), (Z.testbit (Z.ones 64) n); done.
Qed.

Lemma image_lor x y : image (Z.lor x y) = Z.lor (image x) (image y).
Proof. rw /image /wrap_u -!Z.land_ones // Z.land_lor_distr_l //. Qed.

Lemma image_lxor x y : image (Z.lxor x y) = Z.lxor (image x) (image y).
Proof.
  rw /image /wrap_u -!Z.land_ones //.
  apply Z.bits_inj'. intros n Hn. rw !(Z.land_spec, Z.lxor_spec).
  destruct (Z.testbit x n), (Z.testbit y n), (Z.testbit (Z.ones 64) n); done.
Qed.

(** Bitwise operations on canonical images need no width correction. *)
Lemma bitwise_images a b (f : Z -> Z -> Z) :
  (f = Z.land \/ f = Z.lor \/ f = Z.lxor) -> canonical t a -> canonical t b ->
  f a b = image (f (norm t a) (norm t b)) /\ in_range t (f (norm t a) (norm t b)).
Proof.
  intros Hf Ha Hb.
  pose proof (norm_in_range t Hwf a). pose proof (norm_in_range t Hwf b).
  destruct Hf as [->|[->| ->]].
  - rw image_land -Ha -Hb. auto using land_in_range.
  - rw image_lor -Ha -Hb. auto using lor_in_range.
  - rw image_lxor -Ha -Hb. auto using lxor_in_range.
Qed.

Lemma norm_add_congr x x' y y' : norm t x = norm t x' -> norm t y = norm t y' ->
  norm t (x + y) = norm t (x' + y').
Proof.
  intros Hx Hy. apply norm_eq_mod; [done|].
  rw (Zplus_mod x) (Zplus_mod x') -!(norm_congr t Hwf x) -!(norm_congr t Hwf y) Hx Hy.
  by rw !norm_congr.
Qed.

Lemma norm_sub_congr x x' y y' : norm t x = norm t x' -> norm t y = norm t y' ->
  norm t (x - y) = norm t (x' - y').
Proof.
  intros Hx Hy. apply norm_eq_mod; [done|].
  rw (Zminus_mod x) (Zminus_mod x') -!(norm_congr t Hwf x) -!(norm_congr t Hwf y) Hx Hy.
  by rw !norm_congr.
Qed.

Lemma norm_mul_congr x x' y y' : norm t x = norm t x' -> norm t y = norm t y' ->
  norm t (x * y) = norm t (x' * y').
Proof.
  intros Hx Hy. apply norm_eq_mod; [done|].
  rw (Zmult_mod x) (Zmult_mod x') -!(norm_congr t Hwf x) -!(norm_congr t Hwf y) Hx Hy.
  by rw !norm_congr.
Qed.

(** The masked shift count is the amount modulo the width. *)
Lemma shift_count_mod a : shift_count_i128 t a = a mod bits t.
Proof.
  assert (exists k, 0 <= k <= 6 /\ bits t = 2 ^ k) as (k & Hk & Hb).
  { destruct (wf_bits t Hwf) as [->|[->|[->| ->]]];
      [exists 3|exists 4|exists 5|exists 6]; lia. }
  rw /shift_count_i128 /shift_count_mask Hb land_mask; [|lia].
  rw {2}/wrap_u mod_mod_pow2; [|lia]. apply wrap_u_small.
  pose proof (Z.mod_pos_bound a (2 ^ k) ltac:(apply Z.pow_pos_nonneg; lia)).
  pose proof (Z.pow_le_mono_r 2 k 32 ltac:(lia) ltac:(lia)). rw /in_u. lia.
Qed.
End Canonical.

(**  Canonicalization is the identity on the values of a type and maps
    every [i128] to the one value of the type congruent to it modulo
    [2 ^ bits]; on register images it produces an image that the conversion
    back to a value inverts. *)
Theorem canonicalize_characterized (t : IntegerType) (v r : Z) (Hwf : wf t) :
  (canonicalize_i128 t v = r <-> in_range t r /\ r mod 2 ^ bits t = v mod 2 ^ bits t) /\
  (in_range t v -> to_i128 t (canonicalize_u64 t v) = v).
Proof.
  rw canonicalize_i128_norm // canonicalize_u64_image // to_i128_norm // norm_image //
    norm_idem //. split; [split|].
  - intros <-. auto using norm_in_range, norm_congr.
  - intros [Hr Hc]. rw -(norm_id t Hwf r Hr). by apply norm_eq_mod.
  - by apply norm_id.
Qed.

Lemma canonicalize_characterized_witness :
  wf {| bits := 16; signed := true |} /\
  canonicalize_i128 {| bits := 16; signed := true |} 65535 = -1.
Proof.
  split; [reflexivity|].
  apply (canonicalize_characterized {| bits := 16; signed := true |} 65535 (-1)); [reflexivity|].
  split; [|reflexivity]. by rewrite /in_range /=.
Defined.

(** The wrapping operations of the source and their mathematical meaning. *)
Definition wrapping_op (op : arith) : option ((IntegerType -> Z -> Z -> Z) * (Z -> Z -> Z)) :=
  match op with
  | OpAdd => Some (wrapping_add_u64, Z.add)
  | OpSub => Some (wrapping_sub_u64, Z.sub)
  | OpMul => Some (wrapping_mul_u64, Z.mul)
  | OpDiv | OpRem => None
  end.

Lemma wrapping_op_image t op f g a b : wf t -> wrapping_op op = Some (f, g) ->
  f t a b = image (norm t (g (norm t a) (norm t b))).
Proof.
  intros Hwf Hop.
  destruct op; simpl in Hop; simplify_eq;
    rw /wrapping_add_u64 /wrapping_sub_u64 /wrapping_mul_u64 canonicalize_u64_image //
       norm_wrap_u64 //; f_equal; symmetry.
  - apply norm_add_congr; auto using norm_idem.
  - apply norm_sub_congr; auto using norm_idem.
  - apply norm_mul_congr; auto using norm_idem.
Qed.

(** The wrapping [u64] operations are arithmetic modulo [2 ^ bits] on
    the operands' values: the result is the canonical image of the wrapped
    exact result, whatever the upper bits of the operand images are. *)
Theorem wrapping_op_refines (t : IntegerType) (op : arith) f g (a b : Z)
    (Hwf : wf t) (Hop : wrapping_op op = Some (f, g)) :
  f t a b = image (norm t (g (norm t a) (norm t b))) /\ canonical t (f t a b).
Proof.
  rw (wrapping_op_image _ _ _ _ a b Hwf Hop). by split; [|apply canonical_image_norm].
Qed.

Lemma wrapping_op_refines_witness :
  wf {| bits := 8; signed := false |} /\ wrapping_add_u64 {| bits := 8; signed := false |} 200 100 = 44.
Proof.
  split; [reflexivity|].
  by destruct (wrapping_op_refines {| bits := 8; signed := false |} OpAdd wrapping_add_u64 Z.add
    200 100 eq_refl eq_refl) as [-> _].
Defined.

Lemma shift_u64_image t v amount left : wf t ->
  let k := amount mod bits t in
  shift_u64 t v amount left =
  image (norm t (if (left : bool) then norm t v * 2 ^ k else norm t v / 2 ^ k)).
Proof.
  intros Hwf k. pose proof (wf_bits_bound t Hwf) as Hb.
  pose proof (Z.mod_pos_bound amount (bits t) ltac:(lia)) as Hk. fold k in Hk.
  rw /shift_u64 /shift_i128 shift_count_mod // -/k to_i128_norm // canonicalize_norm //
     canonicalize_i128_norm //. rewrite -/(image _). f_equal. destruct left.
  - assert (Z.land k 127 = k) as ->.
    { change 127 with (2 ^ 7 - 1). rw land_mask //. apply Z.mod_small. lia. }
    rw norm_wrap_s128 // Z.shiftl_mul_pow2 //. lia.
  - rw Z.shiftr_div_pow2 //. lia.
Qed.

(** Shifts take the amount modulo the width: a left shift multiplies by
    the power of two and wraps, a right shift is the floored quotient (so it
    is arithmetic on signed types), and neither can trap. *)
Theorem shift_refines (t : IntegerType) (v amount : Z) (left : bool) (Hwf : wf t) :
  let k := amount mod bits t in
  shift_u64 t v amount left =
  image (norm t (if left then norm t v * 2 ^ k else norm t v / 2 ^ k)).
Proof. by apply shift_u64_image. Qed.

Lemma shift_refines_witness :
  wf {| bits := 8; signed := true |} /\
  shift_u64 {| bits := 8; signed := true |} (2 ^ 64 - 2) 9 false = 2 ^ 64 - 1.
Proof. split; [reflexivity|]. rewrite shift_refines; reflexivity. Defined.

(** The remaining kernel operations, for the passes that use them. *)
Section KernelLemmas.
Context (t : IntegerType) (Hwf : wf t).

Lemma checked_neg_u64_spec a :
  checked_neg_u64 t a =
  if decide (in_range t (- norm t a)) then Some (image (- norm t a)) else None.
Proof.
  rw /checked_neg_u64 /checked_neg_i128 /checked_neg_report_i128 /report_raw /=
     to_i128_norm // canonicalize_norm // /i128_checked_neg filter_fits //.
  destruct (decide _) as [Hr|]; [|done]. simpl. rw map_u64_spec // decide_True //.
Qed.

Lemma compare_u64_spec a b : compare_u64 t a b = (norm t a ?= norm t b).
Proof. by rw /compare_u64 !to_i128_norm. Qed.

Lemma bitnot_u64_spec a : bitnot_u64 t a = image (norm t (Z.lnot (norm t a))).
Proof.
  rw /bitnot_u64 canonicalize_u64_image // norm_wrap_u64 //. f_equal.
  assert (forall z, Z.lnot z = -1 - z) as Hl by (intros; rewrite /Z.lnot; lia).
  rw !Hl. apply norm_sub_congr; [done|done|]. by rw norm_idem.
Qed.
End KernelLemmas.

(**  Negating a literal's magnitude: the literal [-m] inhabits the type
    exactly when [-m] is one of its values (so [-128] is an [i8] although
    [128] is not), and the raw result survives for the diagnostic. *)
Theorem checked_neg_literal_spec (t : IntegerType) (m : Z)
    (Hwf : wf t) (Hm : in_s 128 m) :
  checked_neg_literal_i128 t m =
    (if decide (0 <= m /\ in_range t (- m)) then Some (- m) else None) /\
  (0 <= m -> raw (checked_neg_literal_report_i128 t m) = Some (- m)).
Proof.
  rw /checked_neg_literal_i128 /checked_neg_literal_report_i128.
  destruct (Z.ltb_spec m 0) as [Hlt|Hge].
  { rw decide_False; [|lia]. simpl. split; [done|lia]. }
  rw /report_raw /i128_checked_neg /= filter_fits //. split.
  - destruct (decide (in_range t (- m))), (decide (0 <= m /\ _)); naive_solver lia.
  - intros _. apply checked_s_in. rw /in_s in Hm *. lia.
Qed.

Lemma checked_neg_literal_spec_witness :
  wf {| bits := 8; signed := true |} /\ in_s 128 128 /\
  checked_neg_literal_i128 {| bits := 8; signed := true |} 128 = Some (-128).
Proof.
  split; [reflexivity|split; [by rewrite /in_s|]].
  by rewrite (proj1 (checked_neg_literal_spec {| bits := 8; signed := true |} 128 eq_refl
    ltac:(by rewrite /in_s))).
Defined.
