(* ===== verification/Types.v ===== *)
(** * Type handles and their encoding

    [crates/rue-air/src/type_encoding.rs] assigns the [u32] encodings of
    primitive and composite types; [crates/rue-air/src/types.rs] is the [Type]
    newtype over them with its kind, constructors and predicates. *)

From S2P Require Import Prelude IntegerSemantics.
Import Machine IntegerSemantics.
Local Open Scope Z_scope.

(** ** [type_encoding.rs] *)

Definition TAG_MASK : Z := 255.
Definition PAYLOAD_SHIFT : Z := 8.
Definition MAX_PAYLOAD : Z := Z.shiftr u32_max PAYLOAD_SHIFT.
Definition RESERVED_AFTER_PRIMITIVES_START : Z := 16.
Definition RESERVED_AFTER_PRIMITIVES_END : Z := 99.
Definition RESERVED_AFTER_COMPOSITES_START : Z := 107.
Definition RESERVED_AFTER_COMPOSITES_END : Z := TAG_MASK.

Inductive Primitive :=
| PI8 | PI16 | PI32 | PI64 | PU8 | PU16 | PU32 | PU64
| PBool | PUnit | PError | PNever | PComptimeType | PF32 | PF64 | PComptimeFloat.

#[export] Instance Primitive_eq_dec : EqDecision Primitive.
Proof. solve_decision. Defined.

(** [Primitive::encode]: the discriminant. *)
Definition encode (p : Primitive) : Z :=
  match p with
  | PI8 => 0 | PI16 => 1 | PI32 => 2 | PI64 => 3
  | PU8 => 4 | PU16 => 5 | PU32 => 6 | PU64 => 7
  | PBool => 8 | PUnit => 9 | PError => 10 | PNever => 11
  | PComptimeType => 12 | PF32 => 13 | PF64 => 14 | PComptimeFloat => 15
  end.

Inductive Composite := CStruct | CEnum | CArray | CModule | CPtrConst | CPtrMut | CFunction.

#[export] Instance Composite_eq_dec : EqDecision Composite.
Proof. solve_decision. Defined.

Definition composite_tag (k : Composite) : Z :=
  match k with
  | CStruct => 100 | CEnum => 101 | CArray => 102 | CModule => 103
  | CPtrConst => 104 | CPtrMut => 105 | CFunction => 106
  end.

Inductive Decoded :=
| DPrimitive (p : Primitive)
| DComposite (kind : Composite) (payload : Z).

#[export] Instance Decoded_eq_dec : EqDecision Decoded.
Proof. solve_decision. Defined.

Definition encode_composite (kind : Composite) (payload : Z) : option Z :=
  if MAX_PAYLOAD <? payload then None
  else Some (Z.lor (wrap_u 32 (Z.shiftl payload PAYLOAD_SHIFT)) (composite_tag kind)).

Definition decode_primitive (raw : Z) : option Primitive :=
  match raw with
  | 0 => Some PI8 | 1 => Some PI16 | 2 => Some PI32 | 3 => Some PI64
  | 4 => Some PU8 | 5 => Some PU16 | 6 => Some PU32 | 7 => Some PU64
  | 8 => Some PBool | 9 => Some PUnit | 10 => Some PError | 11 => Some PNever
  | 12 => Some PComptimeType | 13 => Some PF32 | 14 => Some PF64
  | 15 => Some PComptimeFloat
  | _ => None
  end.

Definition decode (raw : Z) : option Decoded :=
  match decode_primitive raw with
  | Some p => Some (DPrimitive p)
  | None =>
      let tag := Z.land raw TAG_MASK in
      if ((RESERVED_AFTER_PRIMITIVES_START <=? tag) && (tag <=? RESERVED_AFTER_PRIMITIVES_END))
         || ((RESERVED_AFTER_COMPOSITES_START <=? tag) && (tag <=? RESERVED_AFTER_COMPOSITES_END))
      then None
      else
        kind ← match tag with
               | 100 => Some CStruct | 101 => Some CEnum | 102 => Some CArray
               | 103 => Some CModule | 104 => Some CPtrConst | 105 => Some CPtrMut
               | 106 => Some CFunction
               | _ => None
               end;
        Some (DComposite kind (Z.shiftr raw PAYLOAD_SHIFT))
  end.

Definition has_composite_kind (raw : Z) (expected : Composite) : bool :=
  match decode raw with
  | Some (DComposite kind _) => composite_tag kind =? composite_tag expected
  | _ => false
  end.

(** ** [types.rs] *)

Inductive TypeKind :=
| TKI8 | TKI16 | TKI32 | TKI64 | TKU8 | TKU16 | TKU32 | TKU64 | TKBool | TKUnit
| TKStruct (id : Z) | TKEnum (id : Z) | TKArray (id : Z) | TKPtrConst (id : Z)
| TKPtrMut (id : Z) | TKFunction (id : Z) | TKModule (id : Z)
| TKError | TKNever | TKComptimeType | TKF32 | TKF64 | TKComptimeFloat.

#[export] Instance TypeKind_eq_dec : EqDecision TypeKind.
Proof. solve_decision. Defined.

(** [struct Type(u32)]. *)
Record Type_ := mkType { raw_encoding : Z }.

#[export] Instance Type_eq_dec : EqDecision Type_.
Proof. solve_decision. Defined.

Definition primitive (p : Primitive) : Type_ := mkType (encode p).
Notation TI8 := (primitive PI8) (only parsing).
Notation TI32 := (primitive PI32).
Notation TI64 := (primitive PI64).
Notation TU8 := (primitive PU8).
Notation TU32 := (primitive PU32).
Notation TU64 := (primitive PU64).
Notation TBOOL := (primitive PBool).
Notation TUNIT := (primitive PUnit).
Notation TERROR := (primitive PError).
Notation TNEVER := (primitive PNever).
Notation TCOMPTIME_TYPE := (primitive PComptimeType).
Notation TF32 := (primitive PF32).
Notation TF64 := (primitive PF64).
Notation TCOMPTIME_FLOAT := (primitive PComptimeFloat).

(** The [new_*] constructors; a payload over 24 bits panics ([None]). *)
Definition new_composite (kind : Composite) (payload : Z) : option Type_ :=
  mkType <$> encode_composite kind payload.

Definition kind_of_primitive (p : Primitive) : TypeKind :=
  match p with
  | PI8 => TKI8 | PI16 => TKI16 | PI32 => TKI32 | PI64 => TKI64
  | PU8 => TKU8 | PU16 => TKU16 | PU32 => TKU32 | PU64 => TKU64
  | PBool => TKBool | PUnit => TKUnit | PError => TKError | PNever => TKNever
  | PComptimeType => TKComptimeType | PF32 => TKF32 | PF64 => TKF64
  | PComptimeFloat => TKComptimeFloat
  end.

Definition try_kind (ty : Type_) : option TypeKind :=
  d ← decode (raw_encoding ty);
  Some match d with
  | DPrimitive p => kind_of_primitive p
  | DComposite CStruct payload => TKStruct payload
  | DComposite CEnum payload => TKEnum payload
  | DComposite CArray payload => TKArray payload
  | DComposite CModule payload => TKModule payload
  | DComposite CPtrConst payload => TKPtrConst payload
  | DComposite CPtrMut payload => TKPtrMut payload
  | DComposite CFunction payload => TKFunction payload
  end.

Definition is_valid_encoding (v : Z) : bool := bool_decide (is_Some (decode v)).
Definition is_valid (ty : Type_) : bool := is_valid_encoding (raw_encoding ty).
Definition try_from_u32 (v : Z) : option Type_ :=
  if is_valid_encoding v then Some (mkType v) else None.

Definition is_integer (ty : Type_) : bool :=
  match decode (raw_encoding ty) with
  | Some (DPrimitive (PI8 | PI16 | PI32 | PI64 | PU8 | PU16 | PU32 | PU64)) => true
  | _ => false
  end.

Definition ty_is_signed (ty : Type_) : bool :=
  match decode (raw_encoding ty) with
  | Some (DPrimitive (PI8 | PI16 | PI32 | PI64)) => true
  | _ => false
  end.

Definition ty_is_unsigned (ty : Type_) : bool :=
  match decode (raw_encoding ty) with
  | Some (DPrimitive (PU8 | PU16 | PU32 | PU64)) => true
  | _ => false
  end.

Definition is_float (ty : Type_) : bool := bool_decide (ty = TF32) || bool_decide (ty = TF64).
Definition is_error (ty : Type_) : bool := bool_decide (ty = TERROR).
Definition is_never (ty : Type_) : bool := bool_decide (ty = TNEVER).
Definition is_64_bit (ty : Type_) : bool := bool_decide (ty = TI64) || bool_decide (ty = TU64).
Definition switch_compare_width (ty : Type_) : Z := if is_64_bit ty then 64 else 32.

Definition coerces_into (ty : Type_) (class : Type_ -> bool) : bool :=
  is_never ty || is_error ty || class ty.
Definition can_coerce_to (ty target : Type_) : bool :=
  coerces_into ty (fun t => bool_decide (t = target)).

Definition integer_semantics (ty : Type_) : option IntegerType :=
  k ← try_kind ty;
  b ← match k with
      | TKI8 | TKU8 => Some 8
      | TKI16 | TKU16 => Some 16
      | TKI32 | TKU32 => Some 32
      | TKI64 | TKU64 => Some 64
      | _ => None
      end;
  new b (ty_is_signed ty).

Definition int_bit_width (ty : Type_) : option Z := bits <$> integer_semantics ty.
Definition int_min (ty : Type_) : option Z := min_i128 <$> integer_semantics ty.
Definition int_max (ty : Type_) : option Z := max_i128 <$> integer_semantics ty.

(** ** The encoding is a bijection *)

(** The inverse of [decode]: a payload of 24 bits. *)
Definition encode_decoded (d : Decoded) : option Z :=
  match d with
  | DPrimitive p => Some (encode p)
  | DComposite k payload => encode_composite k payload
  end.

Lemma decode_primitive_encode p : decode_primitive (encode p) = Some p.
Proof. by destruct p. Qed.

Lemma decode_primitive_Some raw p : decode_primitive raw = Some p -> raw = encode p.
Proof.
  rw /decode_primitive. intros H.
  repeat (case_match; simplify_eq/=; try done).
Qed.

Lemma decode_primitive_None raw : 16 <= raw -> decode_primitive raw = None.
Proof.
  intros H. destruct (decode_primitive raw) eqn:E; [|done].
  apply decode_primitive_Some in E as ->. destruct p; simpl in H; lia.
Qed.

Lemma composite_tag_bounds k : 100 <= composite_tag k <= 106.
Proof. destruct k; simpl; lia. Qed.

Lemma encode_composite_value k payload : 0 <= payload <= MAX_PAYLOAD ->
  encode_composite k payload = Some (payload * 256 + composite_tag k).
Proof.
  intros Hp. change MAX_PAYLOAD with (2 ^ 24 - 1) in *.
  rw /encode_composite. change MAX_PAYLOAD with (2 ^ 24 - 1).
  destruct (Z.ltb_spec (2 ^ 24 - 1) payload); [lia|]. f_equal.
  rw Z.shiftl_mul_pow2 //. change (2 ^ PAYLOAD_SHIFT) with 256.
  rw wrap_u_small; [|rw /in_u; lia]. pose proof (composite_tag_bounds k).
  assert (Z.land (payload * 256) (composite_tag k) = 0) as Hl.
  { change 256 with (2 ^ 8). rw -Z.shiftl_mul_pow2 //.
    apply Z.bits_inj'; intros n Hn. rw Z.land_spec Z.bits_0.
    destruct (Z.lt_ge_cases n 8); [by rw Z.shiftl_spec_low|].
    rw (Z.bits_above_log2 (composite_tag k)) ?andb_false_r //; [lia|].
    apply Z.log2_lt_pow2; [lia|]. pose proof (Z.pow_le_mono_r 2 8 n). lia. }
  by rw -Z.lxor_lor // -Z.add_nocarry_lxor.
Qed.

Lemma decode_composite k payload : 0 <= payload <= MAX_PAYLOAD ->
  decode (payload * 256 + composite_tag k) = Some (DComposite k payload).
Proof.
  intros Hp. pose proof (composite_tag_bounds k) as Ht.
  rw /decode decode_primitive_None; [|lia].
  change TAG_MASK with (2 ^ 8 - 1). rw land_mask //.
  assert ((payload * 256 + composite_tag k) mod 2 ^ 8 = composite_tag k) as ->.
  { change (2 ^ 8) with 256. rw Z.add_comm Z_mod_plus_full Z.mod_small //. lia. }
  change (RESERVED_AFTER_COMPOSITES_END) with 255.
  rw Z.shiftr_div_pow2 //. change (2 ^ PAYLOAD_SHIFT) with 256.
  rw Z.add_comm Z.div_add // (Z.div_small (composite_tag k)); [|lia].
  destruct k; simpl; f_equal; f_equal; lia.
Qed.

Lemma decode_inv raw d : in_u 32 raw -> decode raw = Some d ->
  match d with
  | DPrimitive p => raw = encode p
  | DComposite k payload => 0 <= payload <= MAX_PAYLOAD /\ raw = payload * 256 + composite_tag k
  end.
Proof.
  intros [H1 H2] Hd. rw /decode in Hd.
  destruct (decode_primitive raw) eqn:Hp.
  { simplify_eq. by apply decode_primitive_Some. }
  change TAG_MASK with (2 ^ 8 - 1) in Hd. rw land_mask // in Hd.
  change (2 ^ 8) with 256 in Hd.
  rw Z.shiftr_div_pow2 // in Hd. change (2 ^ PAYLOAD_SHIFT) with 256 in Hd.
  change MAX_PAYLOAD with (2 ^ 24 - 1).
  change RESERVED_AFTER_COMPOSITES_END with 255 in Hd.
  destruct (_ || _); [done|].
  apply bind_Some in Hd as (k & Hk & [= <-]).
  assert (raw mod 256 = composite_tag k) as Ht.
  { repeat (case_match; simplify_eq/=; try done). }
  pose proof (Z.div_mod raw 256 ltac:(lia)). pose proof (composite_tag_bounds k).
  change (2 ^ 32) with (2 ^ 24 * 256) in H2.
  split; [|lia]. Z.to_euclidean_division_equations. lia.
Qed.

(** C39.  The type encoding is a bijection between the accepted [u32] values
    and the decoded forms: decoding an encoded primitive or composite (with a
    payload that fits 24 bits) gives it back, every raw value that decodes is
    the encoding of what it decodes to, and a payload over 24 bits is
    refused. *)
Theorem type_encoding_roundtrip (raw : Z) (d : Decoded) (Hraw : in_u 32 raw)
    (Hd : match d with DComposite _ payload => in_u 32 payload | _ => True end) :
  (decode raw = Some d <-> encode_decoded d = Some raw) /\
  (encode_decoded d = None <->
   match d with DComposite _ payload => MAX_PAYLOAD < payload | _ => False end).
Proof.
  destruct d as [p|k payload]; simpl.
  - split; [|naive_solver]. split.
    + intros H. by apply decode_inv in H as ->.
    + intros [= <-]. by rw /decode decode_primitive_encode.
  - destruct (Z.lt_ge_cases MAX_PAYLOAD payload) as [Hlt|Hge].
    + rw /encode_composite. destruct (Z.ltb_spec MAX_PAYLOAD payload); [|lia].
      split; [|done]. split; [|done]. intros H1.
      apply decode_inv in H1; [|done]. lia.
    + rw /in_u in Hd. rw encode_composite_value; [|lia]. split; [|split; [done|lia]]. split.
      * intros H. apply decode_inv in H as [_ ->]; done.
      * intros [= <-]. apply decode_composite. lia.
Qed.

Lemma type_encoding_roundtrip_witness :
  in_u 32 1637 /\ in_u 32 6 /\ decode 1637 = Some (DComposite CEnum 6).
Proof.
  split; [by rewrite /in_u|]. split; [by rewrite /in_u|].
  apply (type_encoding_roundtrip 1637 (DComposite CEnum 6)); [by rewrite /in_u..|reflexivity].
Defined.

(**  The integer predicates and the semantics descriptor agree: a type is
    an integer exactly when it has a descriptor, exactly one of signed and
    unsigned holds of an integer and neither of anything else, and the
    descriptor is one of the eight supported ones with that signedness. *)
Theorem integer_predicates_agree (ty : Type_) :
  (is_integer ty = true <-> is_Some (integer_semantics ty)) /\
  is_integer ty = xorb (ty_is_signed ty) (ty_is_unsigned ty) /\
  (forall it, integer_semantics ty = Some it ->
     wf it /\ signed it = ty_is_signed ty /\ int_bit_width ty = Some (bits it)).
Proof.
  rw /int_bit_width /integer_semantics /try_kind /is_integer /ty_is_signed /ty_is_unsigned.
  destruct (decode (raw_encoding ty)) as [[p|k payload]|]; simpl.
  - destruct p; simpl; (split; [|split]; [split; [first [done|by eauto]|by intros []]|done|]);
      intros it H; first [discriminate H|vm_compute in H; injection H as <-; done].
  - destruct k; simpl; (split; [|split]; [split; [discriminate|by intros []]|done|discriminate]).
  - split; [|split]; [split; [discriminate|by intros []]|done|discriminate].
Qed.

(** ** Facts the passes use *)

Lemma integer_semantics_wf ty it : integer_semantics ty = Some it -> wf it.
Proof.
  rw /integer_semantics /try_kind. intros H.
  destruct (decode (raw_encoding ty)) as [[p|k payload]|]; simpl in H; [|by destruct k|done].
  destruct p; first [discriminate H|vm_compute in H; injection H as <-; done].
Qed.

Lemma integer_semantics_not_float ty it : integer_semantics ty = Some it -> is_float ty = false.
Proof.
  intros H. rw /is_float. destruct (decide (ty = TF32)) as [->|]; [discriminate H|].
  destruct (decide (ty = TF64)) as [->|]; [discriminate H|].
  by rw !bool_decide_false.
Qed.

Lemma can_coerce_to_spec ty target :
  can_coerce_to ty target = true <-> ty = TNEVER \/ ty = TERROR \/ ty = target.
Proof.
  rw /can_coerce_to /coerces_into /is_never /is_error !orb_true_iff !bool_decide_eq_true. tauto.
Qed.

Lemma can_coerce_to_refl ty : can_coerce_to ty ty = true.
Proof. apply can_coerce_to_spec. auto. Qed.
