(* ===== verification/Payload.v ===== *)
(** * CFG payload stores

    [crates/rue-cfg/src/payload.rs]: append-only element stores and the
    family-typed [(start, extent)] ranges into them.  A store is its element
    list; [Vec::try_reserve] may refuse, so the global allocator is a
    parameter of the operations that append ([Alloc]). *)

From S2P Require Import Prelude.
From stdpp Require Import strings.
Import Machine.
Local Open Scope Z_scope.

(** Whether the allocator grants [additional] more elements to a vector that
    holds [len] of them. *)
Class Alloc := grant : nat -> nat -> bool.

Inductive PayloadBuildError :=
| ResourceLimitExceeded (family : string)
| CapacityFailure (family : string).

#[export] Instance PayloadBuildError_eq_dec : EqDecision PayloadBuildError.
Proof. solve_decision. Defined.

Record PayloadError := mkPayloadError {
  pe_family : string;
  pe_start : Z;
  pe_extent : Z;
  pe_store_len : nat;
}.

Definition expected_width (e : PayloadError) : Z := pe_extent e.
(** [saturating_sub] then [min]; a [u32] always converts to [usize]. *)
Definition actual_width (e : PayloadError) : Z :=
  Z.min (Z.max 0 (Z.of_nat (pe_store_len e) - pe_start e)) (pe_extent e).

(** ** Families *)

Inductive Family :=
| FIntrinsicArgs | FStructFields | FArrayElements | FEnumPayload | FGotoArgs
| FThenArgs | FElseArgs | FCallArgs | FSwitchCases | FProjections.

#[export] Instance Family_eq_dec : EqDecision Family.
Proof. solve_decision. Defined.

Definition FAMILY (f : Family) : string :=
  match f with
  | FIntrinsicArgs => "intrinsic arguments"
  | FStructFields => "struct fields"
  | FArrayElements => "array elements"
  | FEnumPayload => "enum payload"
  | FGotoArgs => "goto arguments"
  | FThenArgs => "then arguments"
  | FElseArgs => "else arguments"
  | FCallArgs => "call arguments"
  | FSwitchCases => "switch cases"
  | FProjections => "projections"
  end.

Definition CFG_PAYLOAD_FAMILY_NAMES : list string :=
  FAMILY <$> [FIntrinsicArgs; FStructFields; FArrayElements; FEnumPayload; FGotoArgs;
              FThenArgs; FElseArgs; FCallArgs; FSwitchCases; FProjections].

(** The handle: the family is a phantom parameter. *)
Record Range (F : Family) := mkRange { start : Z; extent : Z }.
Arguments mkRange {_} _ _.
Arguments start {_} _.
Arguments extent {_} _.

#[export] Instance Range_eq_dec F : EqDecision (Range F).
Proof. solve_decision. Defined.

Definition EMPTY {F} : Range F := mkRange 0 0.
Definition range_is_empty {F} (r : Range F) : bool := extent r =? 0.
Definition range_duplicate {F} (r : Range F) : Range F := mkRange (start r) (extent r).

(** A handle carries two [u32]s. *)
Definition range_u32 {F} (r : Range F) : Prop := in_u 32 (start r) /\ in_u 32 (extent r).

(** ** Stores *)

Record Store (E : Type) := mkStore { store_elements : list E }.
Arguments mkStore {_} _.
Arguments store_elements {_} _.

Definition store_new {E} : Store E := mkStore [].

Section Store.
Context {E : Type}.
Implicit Types s : Store E.

Definition store_len s : Z := Z.of_nat (length (store_elements s)).

Definition store_reserve `{Alloc} s (family : string) (additional : nat) : res PayloadBuildError unit :=
  match checked_u 64 (store_len s + Z.of_nat additional) with
  | None => Err (ResourceLimitExceeded family)
  | Some e =>
      if u32_max <? e then Err (ResourceLimitExceeded family)
      else if grant (length (store_elements s)) additional then Ok tt
      else Err (CapacityFailure family)
  end.

Definition append `{Alloc} {F} s (values : list E) : res PayloadBuildError (Store E * Range F) :=
  let family := FAMILY F in
  let extent_usize := Z.of_nat (length values) in
  if u32_max <? extent_usize then Err (ResourceLimitExceeded family)
  else if extent_usize =? 0 then Ok (s, EMPTY)
  else
    match checked_u 32 (store_len s) with
    | None => Err (ResourceLimitExceeded family)
    | Some start =>
        match checked_u 32 extent_usize with
        | None => Err (ResourceLimitExceeded family)
        | Some extent =>
            match checked_u 32 (start + extent) with
            | None => Err (ResourceLimitExceeded family)
            | Some _ =>
                if grant (length (store_elements s)) (length values)
                then Ok (mkStore (store_elements s ++ values), mkRange start extent)
                else Err (CapacityFailure family)
            end
        end
    end.

Definition bounds {F} s (range : Range F) : res PayloadError (option (nat * nat)) :=
  let malformed := {| pe_family := FAMILY F; pe_start := start range;
                      pe_extent := extent range; pe_store_len := length (store_elements s) |} in
  if extent range =? 0 then
    if start range =? 0 then Ok None
    else Err {| pe_family := FAMILY F; pe_start := start range;
                pe_extent := 0; pe_store_len := length (store_elements s) |}
  else
    match checked_u 64 (start range + extent range) with
    | None => Err malformed
    | Some e =>
        if store_len s <? e then Err malformed
        else Ok (Some (Z.to_nat (start range), Z.to_nat e))
    end.

(** [&elements[a..b]]. *)
Definition slice (l : list E) (a b : nat) : list E := take (b - a) (drop a l).

Definition view {F} s (range : Range F) : res PayloadError (list E) :=
  b ← bounds s range;
  Ok match b with
     | None => []
     | Some (a, e) => slice (store_elements s) a e
     end.

(** The generated accessors: [push_*], [checked_*] and the [expect]ing view
    (a malformed range is a panic, [None]). *)
Definition push `{Alloc} {F} := @append _ F.
Definition checked_view {F} := @view F.
Definition view_expect {F} s (range : Range F) : option (list E) :=
  match view s range with Ok vs => Some vs | _ => None end.
End Store.

(** ** What a store promises *)

Section StoreFacts.
Context {E : Type}.
Implicit Types (s : Store E) (vs : list E).

(** A range the store can decode: the canonical empty one, or a nonempty
    interval inside the store. *)
Definition well_formed {F} s (r : Range F) : Prop :=
  (start r = 0 /\ extent r = 0) \/
  (0 < extent r /\ 0 <= start r /\ start r + extent r <= store_len s).

#[export] Instance well_formed_dec {F} s (r : Range F) : Decision (well_formed s r).
Proof. rw /well_formed. apply _. Defined.

(** The elements a decodable range denotes. *)
Definition denote {F} s (r : Range F) : list E :=
  take (Z.to_nat (extent r)) (drop (Z.to_nat (start r)) (store_elements s)).

Lemma denote_length {F} s (r : Range F) : well_formed s r ->
  Z.of_nat (length (denote s r)) = extent r.
Proof.
  rw /well_formed /denote /store_len length_take length_drop. intros [[-> ->]|?]; [done|lia].
Qed.

Lemma bounds_well_formed {F} s (r : Range F) : range_u32 r -> well_formed s r ->
  (bounds s r = Ok None /\ extent r = 0 /\ denote s r = []) \/
  (exists a e, bounds s r = Ok (Some (a, e)) /\ Z.of_nat a = start r /\
     Z.of_nat e = start r + extent r /\ (a <= e <= length (store_elements s))%nat /\
     denote s r = slice (store_elements s) a e).
Proof.
  intros [H1 H2] [[Hs He]|(He & Hs & Hl)]; rw /bounds /denote.
  - left. rw Hs He //.
  - right. destruct (Z.eqb_spec (extent r) 0) as [|_]; [lia|].
    rw /in_u in H1 H2. rw checked_u_in; [|rw /in_u; lia].
    destruct (Z.ltb_spec (store_len s) (start r + extent r)); [lia|].
    eexists _, _. split; [done|]. rw /store_len in Hl. rw /slice.
    split_and!; try lia. f_equal. lia.
Qed.

Lemma view_well_formed {F} s (r : Range F) : range_u32 r ->
  well_formed s r -> view s r = Ok (denote s r).
Proof.
  intros Hr Hw. rw /view.
  by destruct (bounds_well_formed s r Hr Hw) as [(-> & _ & ->)|(a & e & -> & _ & _ & _ & ->)].
Qed.

Lemma view_malformed {F} s (r : Range F) : range_u32 r ->
  ~ well_formed s r ->
  view s r = Err {| pe_family := FAMILY F; pe_start := start r; pe_extent := extent r;
                    pe_store_len := length (store_elements s) |}.
Proof.
  intros [H1 H2] Hn. rw /view /bounds. rw /in_u in H1 H2. rw /well_formed in Hn.
  destruct (Z.eqb_spec (extent r) 0) as [He|He].
  - destruct (Z.eqb_spec (start r) 0); [tauto|]. by rw He.
  - rw checked_u_in; [|rw /in_u; lia].
    destruct (Z.ltb_spec (store_len s) (start r + extent r)); [done|lia].
Qed.

Lemma view_expect_Some {F} s (r : Range F) vs : range_u32 r ->
  view_expect s r = Some vs <-> well_formed s r /\ vs = denote s r.
Proof.
  intros Hr. rw /view_expect.
  destruct (decide (well_formed s r)) as [Hw|Hw].
  - rw view_well_formed //. naive_solver.
  - rw view_malformed //. naive_solver.
Qed.

Lemma well_formed_app {F} s (r : Range F) vs :
  well_formed s r -> well_formed (mkStore (store_elements s ++ vs)) r.
Proof. rw /well_formed /store_len /= length_app. intros [?|?]; [tauto|right; lia]. Qed.

Lemma denote_app {F} s (r : Range F) vs :
  well_formed s r -> denote (mkStore (store_elements s ++ vs)) r = denote s r.
Proof.
  rw /denote /=. intros [[-> ->]|(?&?&?)]; [done|]. rw /store_len in H1.
  rw drop_app_le; [|lia]. rw take_app_le // length_drop. lia.
Qed.

(** The successful runs of [append]. *)
Lemma append_Ok `{Alloc} {F} s vs s' (r : Range F) :
  append s vs = Ok (s', r) <->
  (vs = [] /\ s' = s /\ r = EMPTY) \/
  (vs <> [] /\ store_len s + Z.of_nat (length vs) <= u32_max /\
   grant (length (store_elements s)) (length vs) = true /\
   s' = mkStore (store_elements s ++ vs) /\ r = mkRange (store_len s) (Z.of_nat (length vs))).
Proof.
  rw /append. change u32_max with (2 ^ 32 - 1).
  destruct (Z.ltb_spec (2 ^ 32 - 1) (Z.of_nat (length vs))) as [Hbig|Hbig].
  { split; [done|]. intros [(-> & _)|(_ & ? & _)]; [done|rw /store_len in H0; lia]. }
  destruct (Z.eqb_spec (Z.of_nat (length vs)) 0) as [H0|H0].
  { assert (vs = []) as -> by (apply length_zero_iff_nil; lia). naive_solver. }
  assert (vs <> []) as Hne by (intros ->; done).
  destruct (checked_u 32 (store_len s)) as [st|] eqn:E1.
  - apply checked_u_Some in E1 as [-> E1].
    rw (checked_u_in 32 (Z.of_nat (length vs))); [|rw /in_u; lia].
    destruct (checked_u 32 (store_len s + _)) as [x|] eqn:E2.
    + apply checked_u_Some in E2 as [-> E2]. rw /in_u in E2.
      destruct (grant _ _); [|naive_solver]. split.
      * intros [= <- <-]. right. split_and!; auto. lia.
      * intros [(-> & _)|(_ & _ & _ & -> & ->)]; done.
    + split; [done|]. intros [(-> & _)|(_ & Hl & _)]; [done|].
      rw checked_u_in in E2; [done|]. rw /in_u. rw /store_len in Hl *. lia.
  - split; [done|]. intros [(-> & _)|(_ & Hl & _)]; [done|].
    rw checked_u_in in E1; [done|]. rw /in_u. rw /store_len in Hl *. lia.
Qed.

Lemma append_no_panic `{Alloc} {F} s vs : append (F := F) s vs <> Panic.
Proof. rw /append. by repeat case_match. Qed.

Lemma append_range_u32 `{Alloc} {F} s vs s' (r : Range F) :
  append s vs = Ok (s', r) -> range_u32 r.
Proof.
  rw append_Ok. change u32_max with (2 ^ 32 - 1). rw /range_u32 /in_u.
  intros [(_ & _ & ->)|(_ & Hl & _ & _ & ->)]; simpl; [lia|]. rw /store_len in Hl *. lia.
Qed.

Lemma append_denote `{Alloc} {F} s vs s' (r : Range F) :
  append s vs = Ok (s', r) -> well_formed s' r /\ denote s' r = vs.
Proof.
  rw append_Ok. intros [(-> & -> & ->)|(Hne & Hl & _ & -> & ->)].
  - split; [by left|done].
  - rw /well_formed /denote /store_len /= !Nat2Z.id drop_app_length firstn_all length_app.
    split; [right|done]. destruct vs; [done|simpl; lia].
Qed.

Lemma append_extends `{Alloc} {F} s vs s' (r : Range F) :
  append s vs = Ok (s', r) -> store_elements s' = store_elements s ++ vs.
Proof. rw append_Ok. intros [(-> & -> & _)|(_ & _ & _ & -> & _)]; [by rw app_nil_r|done]. Qed.

(** Ranges issued before an append keep denoting what they denoted. *)
Lemma append_preserves `{Alloc} {F G} s vs s' (r : Range F) (q : Range G) :
  append s vs = Ok (s', r) -> well_formed s q ->
  well_formed s' q /\ denote s' q = denote s q.
Proof.
  intros Ha Hq. pose proof (append_extends _ _ _ _ Ha) as He.
  destruct s' as [el]; simpl in He; subst el.
  split; [by apply well_formed_app|by apply denote_app].
Qed.
End StoreFacts.

(** ** In-place replacement of an interval *)

Section Splice.
Context {A : Type}.
Implicit Types l : list A.

Definition splice l (l' : list A) (a e : nat) : list A := take a l ++ l' ++ drop e l.

Lemma splice_length l l' a e : (a <= e <= length l)%nat -> length l' = (e - a)%nat ->
  length (splice l l' a e) = length l.
Proof. intros. rw /splice !length_app length_take length_drop. lia. Qed.

Lemma splice_inside l l' a e : (a <= e <= length l)%nat -> length l' = (e - a)%nat ->
  take (e - a) (drop a (splice l l' a e)) = l'.
Proof.
  intros H1 H2. rw /splice drop_app_length'; [|rw length_take; lia].
  by rw -H2 take_app_length.
Qed.

Lemma splice_lookup_outside l l' a e i : (a <= e <= length l)%nat -> length l' = (e - a)%nat ->
  (i < a \/ e <= i)%nat -> splice l l' a e !! i = l !! i.
Proof.
  intros H1 H2 Hi. rw /splice.
  assert (length (take a l) = a) as Hta by (rw length_take; lia). destruct Hi.
  - rw lookup_app_l; [|lia]. by rw lookup_take_lt.
  - rw lookup_app_r; [|lia]. rw lookup_app_r; [|lia]. rw lookup_drop. f_equal. lia.
Qed.

Lemma splice_outside l l' a e m n : (a <= e <= length l)%nat -> length l' = (e - a)%nat ->
  (m + n <= a \/ e <= m)%nat -> take n (drop m (splice l l' a e)) = take n (drop m l).
Proof.
  intros H1 H2 Hi. apply list_eq. intros i. destruct (decide (i < n)%nat).
  - rw !lookup_take_lt // !lookup_drop. apply splice_lookup_outside; [done..|lia].
  - rw !lookup_take_ge //; lia.
Qed.
End Splice.

(** ** Switch-case targets *)

(** [remap_switch_case_targets]: the one in-place edit of a store. *)
Definition remap_switch_case_targets (s : Store (Z * nat)) (range : Range FSwitchCases)
    (remap : nat -> option nat) : option (Store (Z * nat)) :=
  match view s range with
  | Ok cases =>
      cases' ← mapM (fun '(v, target) => t ← remap target; Some (v, t)) cases;
      match bounds s range with
      | Ok (Some (a, e)) =>
          Some (mkStore (splice (store_elements s) cases' a e))
      | Ok None => Some s
      | _ => None
      end
  | _ => None
  end.

(** ** Properties *)

(** A payload store round trip: a range returned by an append views
    exactly the appended elements, and every range the store could already
    decode (of any family) views what it viewed before. *)
Theorem payload_append_roundtrip `{Alloc} {E} {F} (s s' : Store E) (vs : list E) (r : Range F)
    (Happ : append s vs = Ok (s', r)) :
  view s' r = Ok vs /\
  (forall G (q : Range G) ws, range_u32 q -> view s q = Ok ws -> view s' q = Ok ws).
Proof.
  destruct (append_denote _ _ _ _ Happ) as [Hw Hd]. split.
  - rw view_well_formed; [by rw Hd|by eapply append_range_u32|done].
  - intros G q ws Hq Hv.
    assert (view_expect s q = Some ws) as [Hwq ->]%view_expect_Some; [by rw /view_expect Hv|..]; [|done].
    destruct (append_preserves _ _ _ _ q Happ Hwq) as [Hwq' <-].
    by rw view_well_formed.
Qed.

Lemma payload_append_roundtrip_witness :
  let _ : Alloc := fun _ _ => true in
  append (F := FGotoArgs) (mkStore [7; 8]%nat) [9; 10; 11]%nat
    = Ok (mkStore [7; 8; 9; 10; 11]%nat, mkRange 2 3) /\
  view (mkStore [7; 8; 9; 10; 11]%nat) (mkRange (F := FGotoArgs) 2 3) = Ok [9; 10; 11]%nat.
Proof.
  intros Ha. split; [reflexivity|].
  apply (payload_append_roundtrip (H := Ha) (mkStore [7; 8]%nat)). reflexivity.
Defined.

(** Appending is total and its failures are exact: an empty payload is
    the canonical empty range and reserves nothing; otherwise the append is
    refused as a resource limit exactly when the grown store would pass the
    [u32] ceiling, as a capacity failure exactly when the allocator refuses,
    and otherwise issues the range of the new elements. *)
Theorem payload_append_total `{Alloc} {E} {F} (s : Store E) (vs : list E) :
  append (F := F) s vs =
  (if decide (length vs = 0%nat) then Ok (s, EMPTY)
   else if decide (u32_max < store_len s + Z.of_nat (length vs))
        then Err (ResourceLimitExceeded (FAMILY F))
   else if grant (length (store_elements s)) (length vs)
        then Ok (mkStore (store_elements s ++ vs), mkRange (store_len s) (Z.of_nat (length vs)))
   else Err (CapacityFailure (FAMILY F))).
Proof.
  rw /append. change u32_max with (2 ^ 32 - 1).
  destruct (decide (length vs = 0%nat)) as [->|Hne]; [done|].
  destruct (Z.ltb_spec (2 ^ 32 - 1) (Z.of_nat (length vs))) as [Hbig|Hbig].
  { rw decide_True //. rw /store_len. lia. }
  destruct (Z.eqb_spec (Z.of_nat (length vs)) 0) as [H0|H0]; [lia|].
  rw (checked_u_in 32 (Z.of_nat (length vs))); [|rw /in_u; lia].
  destruct (decide (_ < store_len s + _)) as [Hlt|Hle].
  - destruct (checked_u 32 (store_len s)) as [st|] eqn:E1; [|done].
    apply checked_u_Some in E1 as [-> E1].
    destruct (checked_u 32 (store_len s + _)) as [x|] eqn:E2; [|done].
    apply checked_u_Some in E2 as [-> E2]. rw /in_u in E2. lia.
  - rw (checked_u_in 32 (store_len s)); [|rw /in_u /store_len in Hle *; lia].
    rw checked_u_in; [done|]. rw /in_u /store_len in Hle *. lia.
Qed.

(** Decoding never reads outside the store: a [u32] range decodes
    exactly when it is the canonical empty range or a nonempty interval inside
    the store, to the elements of that interval; any other range is an error
    that reports the range, and whose actual width falls short of the expected
    one when the range is not empty. *)
Theorem payload_view_total {E} {F} (s : Store E) (r : Range F) (Hr : range_u32 r) :
  (forall vs, view s r = Ok vs <-> well_formed s r /\ vs = denote s r) /\
  (well_formed s r -> Z.of_nat (length (denote s r)) = extent r) /\
  (~ well_formed s r -> exists e, view s r = Err e /\ expected_width e = extent r /\
     (0 < extent r -> actual_width e < expected_width e)).
Proof.
  split; [|split; [by apply denote_length|]].
  - intros vs. rw -(view_expect_Some s r vs Hr) /view_expect.
    destruct (view s r); naive_solver.
  - intros Hn. eexists. split; [by apply view_malformed|]. split; [done|].
    rw /expected_width /actual_width /=. rw /well_formed /store_len in Hn.
    destruct Hr as [[H1 _] [H2 _]]. lia.
Qed.

Lemma payload_view_total_witness :
  range_u32 (mkRange (F := FCallArgs) 1 2) /\
  well_formed (mkStore [4; 5; 6]%nat) (mkRange (F := FCallArgs) 1 2) /\
  view (mkStore [4; 5; 6]%nat) (mkRange (F := FCallArgs) 1 2) = Ok [5; 6]%nat.
Proof.
  assert (range_u32 (mkRange (F := FCallArgs) 1 2)) as Hr by (rewrite /range_u32 /in_u /=; lia).
  split; [exact Hr|].
  assert (well_formed (mkStore [4; 5; 6]%nat) (mkRange (F := FCallArgs) 1 2)) as Hw
    by (rewrite /well_formed /store_len /=; lia).
  split; [exact Hw|]. apply (payload_view_total (mkStore [4; 5; 6]%nat) _ Hr). split; [exact Hw|reflexivity].
Defined.

Lemma mapM_target_values (remap : nat -> option nat) (cases cases' : list (Z * nat)) :
  mapM (fun '(v, target) => t ← remap target; Some (v, t)) cases = Some cases' ->
  cases'.*1 = cases.*1 /\ mapM remap cases.*2 = Some cases'.*2.
Proof.
  rw !mapM_Some. induction 1 as [|[v t] [v' t'] cases cases' Hc _ [IH1 IH2]]; [done|].
  simpl in *. destruct (remap t) eqn:Ht; simplify_eq/=. split; [by f_equal|by constructor].
Qed.

Lemma remap_cases (s s' : Store (Z * nat)) (r : Range FSwitchCases)
    (remap : nat -> option nat)
    (Hr : range_u32 r) (Hremap : remap_switch_case_targets s r remap = Some s') :
  exists cases cases', view s r = Ok cases /\ view s' r = Ok cases' /\
    cases'.*1 = cases.*1 /\ mapM remap cases.*2 = Some cases'.*2 /\
    (forall q : Range FSwitchCases, range_u32 q ->
       start q + extent q <= start r \/ start r + extent r <= start q -> view s' q = view s q).
Proof.
  rw /remap_switch_case_targets in Hremap.
  destruct (decide (well_formed s r)) as [Hw|Hw]; [|by rw view_malformed in Hremap].
  rw view_well_formed // in Hremap.
  destruct (mapM _ _) as [cases'|] eqn:Hm; simpl in Hremap; [|done].
  exists (denote s r), cases'. rw view_well_formed //.
  destruct (mapM_target_values _ _ _ Hm) as [H1 H2].
  assert (length cases' = length (denote s r)) as Hlen.
  { by rw -(length_fmap fst cases') H1 length_fmap. }
  pose proof (denote_length s r Hw) as Hdl.
  destruct (bounds_well_formed s r Hr Hw) as [(Hb & He & Hd)|(a & e & Hb & Ha & He & Hl & Hd)];
    rw Hb in Hremap; injection Hremap as <-.
  - split_and!; auto. rw view_well_formed // Hd. rw Hd in Hlen. by destruct cases'.
  - assert (length cases' = (e - a)%nat) as Hl' by lia.
    split_and!; auto.
    + rw view_well_formed //; [|by rw /well_formed /store_len /= splice_length in Hw *].
      rw /denote /=. f_equal. rw -{2}(splice_inside (store_elements s) cases' a e Hl Hl').
      f_equal; [|f_equal]; lia.
    + intros q Hq Hdis. destruct (decide (well_formed s q)) as [Hwq|Hwq].
      * rw !view_well_formed //; [|by rw /well_formed /store_len /= splice_length in Hwq *].
        f_equal. rw /denote /=. apply splice_outside; [done..|].
        rw /well_formed in Hwq. lia.
      * rw !view_malformed //=; [|by rw /well_formed /store_len /= splice_length in Hwq *].
        by rw splice_length.
Qed.

(** The remap keeps the store's length, so every handle stays decodable. *)
Lemma remap_keeps_length s s' (r : Range FSwitchCases) remap : range_u32 r ->
  remap_switch_case_targets s r remap = Some s' -> store_len s' = store_len s.
Proof.
  intros Hr Hremap. rw /remap_switch_case_targets in Hremap.
  destruct (decide (well_formed s r)) as [Hw|Hw]; [|by rw view_malformed in Hremap].
  rw view_well_formed // in Hremap.
  destruct (mapM _ _) as [cases'|] eqn:Hm; simpl in Hremap; [|done].
  destruct (mapM_target_values _ _ _ Hm) as [H1 _].
  assert (length cases' = length (denote s r)) as Hlen.
  { by rw -(length_fmap fst cases') H1 length_fmap. }
  pose proof (denote_length s r Hw) as Hdl.
  destruct (bounds_well_formed s r Hr Hw) as [(Hb & _)|(a & e & Hb & Ha & He & Hl & _)];
    rw Hb in Hremap; injection Hremap as <-; [done|].
  rw /store_len /= splice_length //. lia.
Qed.

Lemma remap_total s (r : Range FSwitchCases) remap : range_u32 r -> well_formed s r ->
  Forall (fun c => is_Some (remap c.2)) (denote s r) ->
  is_Some (remap_switch_case_targets s r remap).
Proof.
  intros Hr Hw Hf. rw /remap_switch_case_targets view_well_formed //.
  destruct (mapM_is_Some_2 (fun '(v, target) => t ← remap target; Some (v, t)) (denote s r))
    as [cases' Hm].
  { eapply Forall_impl; [exact Hf|]. intros [v t] [x Hx]. simpl in *. rw Hx. by eexists. }
  rw Hm /=. destruct (bounds_well_formed s r Hr Hw) as [(-> & _)|(a & e & -> & _)]; by eexists.
Qed.

(** Renumbering the targets of one switch keeps the store's layout: the
    range afterwards views the same case values with the remapped targets, and
    a range that does not overlap it views the same cases as before. *)
Theorem remap_switch_case_targets_spec (s s' : Store (Z * nat)) (r : Range FSwitchCases)
    (remap : nat -> option nat)
    (Hr : range_u32 r) (Hremap : remap_switch_case_targets s r remap = Some s') :
  exists cases cases', view s r = Ok cases /\ view s' r = Ok cases' /\
    cases'.*1 = cases.*1 /\ mapM remap cases.*2 = Some cases'.*2 /\
    (forall q : Range FSwitchCases, range_u32 q ->
       start q + extent q <= start r \/ start r + extent r <= start q -> view s' q = view s q).
Proof. by apply remap_cases. Qed.

Lemma remap_switch_case_targets_spec_witness :
  remap_switch_case_targets (mkStore [(-1, 0%nat); (5, 3%nat); (6, 2%nat)]) (mkRange 1 2)
    (fun t => Some (t - 1)%nat) = Some (mkStore [(-1, 0%nat); (5, 2%nat); (6, 1%nat)]) /\
  exists cases cases' : list (Z * nat), view (mkStore [(-1, 0%nat); (5, 3%nat); (6, 2%nat)])
                            (mkRange (F := FSwitchCases) 1 2) = Ok cases /\
    cases'.*1 = cases.*1.
Proof.
  split; [reflexivity|].
  destruct (remap_switch_case_targets_spec (mkStore [(-1, 0%nat); (5, 3%nat); (6, 2%nat)])
    (mkStore [(-1, 0%nat); (5, 2%nat); (6, 1%nat)]) (mkRange 1 2) (fun t => Some (t - 1)%nat))
    as (cases & cases' & H1 & _ & H2 & _); [by rewrite /range_u32 /in_u /=; lia|reflexivity|].
  by exists cases, cases'.
Defined.
