(* ===== verification/CfgData.v ===== *)
(** * The control-flow graph: data and owner

    The data model of [crates/rue-cfg/src/inst.rs]: places, instructions,
    terminators, blocks and the [Cfg] owner with its arenas and payload
    stores, the accessors, and the infallible construction operations.  The
    index newtypes ([CfgValue], [BlockId], slots, type and name ids) are
    [nat]; the 2^32 ceilings the source checks are checked in [Z]. *)

From S2P Require Import Prelude IntegerSemantics Types Payload.
From stdpp Require Import strings gmap.
Import Machine.

Notation CfgValue := nat (only parsing).
Notation BlockId := nat (only parsing).
Notation Spur := nat (only parsing).
Notation StructId := nat (only parsing).
Notation EnumId := nat (only parsing).

Record Span := mkSpan { file_id : nat; span_start : Z; span_end : Z }.
Definition span_new (s e : Z) : Span := mkSpan 0 s e.

Inductive IntrinsicOperation :=
| OpAssertFailed | OpBoundsCheck | OpDebugI64 | OpDebugU64 | OpDebugBool | OpDebugFloat
| OpDebugStr | OpReadLine | OpParseI32 | OpParseI64 | OpParseU32 | OpParseU64
| OpRandomU32 | OpRandomU64 | OpPtrToInt | OpIntToPtr | OpPtrRead | OpPtrReadUnaligned
| OpPtrWrite | OpPtrWriteUnaligned | OpPtrOffset | OpAlloc | OpAllocZeroed | OpFree
| OpRealloc | OpResize | OpByteCopy | OpByteMove | OpByteSet | OpArgCount | OpArgPtr
| OpArgLen | OpEnvCount | OpEnvPtr | OpEnvLen | OpRaw | OpRawMut | OpFieldPtr | OpSyscall
| OpBitCast | OpIntToFloat | OpFloatToInt | OpFloatCast | OpTotalCmp | OpFloatSqrt
| OpFloatFloor | OpFloatCeil | OpFloatTrunc | OpFloatRound.

Inductive RuntimeCallKind :=
| RtStrByteAt | RtStrCharScalar | RtStrCharNext | RtStrCharScalarLossy
| RtStrCharNextLossy | RtToString | RtToStringUnsigned | RtToStringFloat
| RtStrPrintAggregate | RtStrPrintProjected | RtStrPrintlnAggregate
| RtStrPrintlnProjected | RtStrEprintAggregate | RtStrEprintProjected
| RtStrEprintlnAggregate | RtStrEprintlnProjected | RtDebugI64 | RtDebugU64 | RtDebugBool
| RtDebugFloat | RtDebugStr | RtPanic | RtPanicNoMessage | RtAssertFailed | RtBoundsCheck
| RtReadLine | RtParseI32 | RtParseI64 | RtParseU32 | RtParseU64 | RtRandomU32
| RtRandomU64 | RtAlloc | RtAllocZeroed | RtFree | RtRealloc | RtResize | RtArgCount
| RtArgPtr | RtArgLen | RtEnvCount | RtEnvPtr | RtEnvLen | RtByteCopy | RtByteMove
| RtByteSet | RtJoinInout | RtTestNormalizeProcess | RtTestComplete | RtTestFail
| RtTestFailComparison | RtTestFailAssert | RtTestUsageError.

Inductive ArrayInitShape := Elementwise | Repeat.

#[export] Instance ArrayInitShape_eq_dec : EqDecision ArrayInitShape.
Proof. solve_decision. Defined.

(** ** Places *)

Inductive PlaceBase :=
| Local (slot : nat)
| Param (slot : nat)
| Accessor (value : CfgValue)
| Indirect (pointer : CfgValue).

#[export] Instance PlaceBase_eq_dec : EqDecision PlaceBase.
Proof. solve_decision. Defined.

Inductive Projection :=
| Field (struct_id : StructId) (field_index : nat)
| Index (array_type : Type_) (index : CfgValue).

#[export] Instance Projection_eq_dec : EqDecision Projection.
Proof. solve_decision. Defined.

Record Place := mkPlace {
  base : PlaceBase;
  base_type : Type_;
  place_projections : Range FProjections;
}.

#[export] Instance Place_eq_dec : EqDecision Place.
Proof. solve_decision. Defined.

Definition place_local (slot : nat) (ty : Type_) : Place := mkPlace (Local slot) ty EMPTY.
Definition place_param (slot : nat) (ty : Type_) : Place := mkPlace (Param slot) ty EMPTY.

Definition as_local (p : Place) : option nat :=
  if range_is_empty (place_projections p) then
    match base p with
    | Local slot => Some slot
    | Param _ | Accessor _ | Indirect _ => None
    end
  else None.

Definition as_param (p : Place) : option nat :=
  if range_is_empty (place_projections p) then
    match base p with
    | Param slot => Some slot
    | Local _ | Accessor _ | Indirect _ => None
    end
  else None.

(** ** Calls *)

Inductive CfgArgMode := Normal | Inout | Borrow.

#[export] Instance CfgArgMode_eq_dec : EqDecision CfgArgMode.
Proof. solve_decision. Defined.

Record CfgCallArg := mkCallArg { arg_value : CfgValue; arg_mode : CfgArgMode }.

Definition is_by_ref (a : CfgCallArg) : bool :=
  match arg_mode a with Inout | Borrow => true | Normal => false end.

Record CfgCallContractArg := mkContractArg { contract_arg_ty : Type_; contract_arg_mode : CfgArgMode }.
Record CfgCallContract := mkContract {
  contract_arguments : list CfgCallContractArg;
  contract_result : Type_;
}.

(** ** Instructions and terminators *)

Inductive CfgInstData :=
| IConst (v : Z)
| IBoolConst (b : bool)
| IStringConst (index : nat)
| IParam (index : nat)
| IBlockParam (index : nat)
| IAdd (a b : CfgValue) | ISub (a b : CfgValue) | IMul (a b : CfgValue)
| IWrappingAdd (a b : CfgValue) | IWrappingSub (a b : CfgValue) | IWrappingMul (a b : CfgValue)
| IDiv (a b : CfgValue) | IMod (a b : CfgValue)
| IEq (a b : CfgValue) | INe (a b : CfgValue) | ILt (a b : CfgValue) | IGt (a b : CfgValue)
| ILe (a b : CfgValue) | IGe (a b : CfgValue)
| IBitAnd (a b : CfgValue) | IBitOr (a b : CfgValue) | IBitXor (a b : CfgValue)
| IShl (a b : CfgValue) | IShr (a b : CfgValue)
| INeg (a : CfgValue) | INot (a : CfgValue) | IBitNot (a : CfgValue)
| IAlloc (slot : nat) (init : CfgValue)
| ILoad (slot : nat)
| IStore (slot : nat) (value : CfgValue)
| IParamStore (param_slot : nat) (value : CfgValue)
| IPlaceRead (place : Place)
| IPlaceWrite (place : Place) (value : CfgValue)
| ICall (runtime : option RuntimeCallKind) (name : Spur) (args : Range FCallArgs)
| IAccessorCall (name : Spur) (args : Range FCallArgs)
| IFnAddr (name : Spur)
| ICallIndirect (callee : CfgValue) (args : Range FCallArgs)
| IIntrinsic (operation : IntrinsicOperation) (name : Spur) (args : Range FIntrinsicArgs)
| IStructInit (struct_id : StructId) (fields : Range FStructFields)
| IArrayInit (elements : Range FArrayElements) (shape : ArrayInitShape)
| IEnumVariant (enum_id : EnumId) (variant_index : nat) (payload : Range FEnumPayload)
| IEnumPayloadGet (base : CfgValue) (enum_id : EnumId) (variant_index field_index : nat)
| IIntCast (value : CfgValue) (from_ty : Type_)
| IDrop (value : CfgValue)
| IStorageLive (slot : nat) (local_ty : Type_)
| IStorageDead (slot : nat) (local_ty : Type_)
| IMoveOut (place : Place).

Record CfgInst := mkInst { data : CfgInstData; ty : Type_; span : Span }.

Inductive Terminator :=
| Goto (target : BlockId) (args : Range FGotoArgs)
| Branch (cond : CfgValue) (then_block : BlockId) (then_args : Range FThenArgs)
    (else_block : BlockId) (else_args : Range FElseArgs)
| Switch (scrutinee : CfgValue) (cases : Range FSwitchCases) (default : BlockId)
| Return (value : option CfgValue)
| Unreachable
| TermNone.

Record BasicBlock := mkBlock {
  block_id : BlockId;
  params : list (CfgValue * Type_);
  insts : list CfgValue;
  terminator : Terminator;
}.

Definition block_new (id : BlockId) : BasicBlock := mkBlock id [] [] TermNone.
Definition with_terminator (t : Terminator) (b : BasicBlock) : BasicBlock :=
  mkBlock (block_id b) (params b) (insts b) t.
Definition with_insts (l : list CfgValue) (b : BasicBlock) : BasicBlock :=
  mkBlock (block_id b) (params b) l (terminator b).
Definition with_id (id : BlockId) (b : BasicBlock) : BasicBlock :=
  mkBlock id (params b) (insts b) (terminator b).

(** ** The owner *)

(** [rue_air::ParamSlotModes] and [rue_air::SourceParamAbi]. *)
Record ParamSlotModes := mkModes { modes_by_ref : list bool; modes_writable : list bool }.
Record SourceParamAbi := mkSourceParamAbi {
  start_slot : nat; slot_count : nat; source_ty : option Type_ }.

(** The physical owner token ([Arc] identity) is a number minted per owner. *)
Record Cfg := mkCfg {
  owner_identity : nat;
  blocks : list BasicBlock;
  entry : BlockId;
  return_type : Type_;
  values : list CfgInst;
  extra : Store CfgValue;
  call_args : Store CfgCallArg;
  call_contracts : gmap CfgValue CfgCallContract;
  switch_cases : Store (Z * BlockId);
  projections : Store Projection;
  num_locals : Z;
  num_params : Z;
  fn_name : string;
  param_modes : ParamSlotModes;
  address_taken_slots : gset nat;
  ownership_boundary_slots : gset nat;
  ownership_boundary_values : gset CfgValue;
  address_taken_params : gset nat;
  source_param_abi : list SourceParamAbi;
  capacity_exceeded : option string;
  move_out_values : nat;
}.

(** Field updates. *)

Definition set_blocks (x : list BasicBlock) (c : Cfg) : Cfg :=
  mkCfg (owner_identity c) x (entry c) (return_type c) (values c) (extra c) (call_args c)
    (call_contracts c) (switch_cases c) (projections c) (num_locals c) (num_params c)
    (fn_name c) (param_modes c) (address_taken_slots c) (ownership_boundary_slots c)
    (ownership_boundary_values c) (address_taken_params c) (source_param_abi c)
    (capacity_exceeded c) (move_out_values c).
Definition set_entry (x : BlockId) (c : Cfg) : Cfg :=
  mkCfg (owner_identity c) (blocks c) x (return_type c) (values c) (extra c) (call_args c)
    (call_contracts c) (switch_cases c) (projections c) (num_locals c) (num_params c)
    (fn_name c) (param_modes c) (address_taken_slots c) (ownership_boundary_slots c)
    (ownership_boundary_values c) (address_taken_params c) (source_param_abi c)
    (capacity_exceeded c) (move_out_values c).
Definition set_values (x : list CfgInst) (c : Cfg) : Cfg :=
  mkCfg (owner_identity c) (blocks c) (entry c) (return_type c) x (extra c) (call_args c)
    (call_contracts c) (switch_cases c) (projections c) (num_locals c) (num_params c)
    (fn_name c) (param_modes c) (address_taken_slots c) (ownership_boundary_slots c)
    (ownership_boundary_values c) (address_taken_params c) (source_param_abi c)
    (capacity_exceeded c) (move_out_values c).
Definition set_extra (x : Store CfgValue) (c : Cfg) : Cfg :=
  mkCfg (owner_identity c) (blocks c) (entry c) (return_type c) (values c) x (call_args c)
    (call_contracts c) (switch_cases c) (projections c) (num_locals c) (num_params c)
    (fn_name c) (param_modes c) (address_taken_slots c) (ownership_boundary_slots c)
    (ownership_boundary_values c) (address_taken_params c) (source_param_abi c)
    (capacity_exceeded c) (move_out_values c).
Definition set_call_args (x : Store CfgCallArg) (c : Cfg) : Cfg :=
  mkCfg (owner_identity c) (blocks c) (entry c) (return_type c) (values c) (extra c) x
    (call_contracts c) (switch_cases c) (projections c) (num_locals c) (num_params c)
    (fn_name c) (param_modes c) (address_taken_slots c) (ownership_boundary_slots c)
    (ownership_boundary_values c) (address_taken_params c) (source_param_abi c)
    (capacity_exceeded c) (move_out_values c).
Definition set_call_contracts (x : gmap CfgValue CfgCallContract) (c : Cfg) : Cfg :=
  mkCfg (owner_identity c) (blocks c) (entry c) (return_type c) (values c) (extra c)
    (call_args c) x (switch_cases c) (projections c) (num_locals c) (num_params c) (fn_name c)
    (param_modes c) (address_taken_slots c) (ownership_boundary_slots c)
    (ownership_boundary_values c) (address_taken_params c) (source_param_abi c)
    (capacity_exceeded c) (move_out_values c).
Definition set_switch_cases (x : Store (Z * BlockId)) (c : Cfg) : Cfg :=
  mkCfg (owner_identity c) (blocks c) (entry c) (return_type c) (values c) (extra c)
    (call_args c) (call_contracts c) x (projections c) (num_locals c) (num_params c) (fn_name c)
    (param_modes c) (address_taken_slots c) (ownership_boundary_slots c)
    (ownership_boundary_values c) (address_taken_params c) (source_param_abi c)
    (capacity_exceeded c) (move_out_values c).
Definition set_projections (x : Store Projection) (c : Cfg) : Cfg :=
  mkCfg (owner_identity c) (blocks c) (entry c) (return_type c) (values c) (extra c)
    (call_args c) (call_contracts c) (switch_cases c) x (num_locals c) (num_params c)
    (fn_name c) (param_modes c) (address_taken_slots c) (ownership_boundary_slots c)
    (ownership_boundary_values c) (address_taken_params c) (source_param_abi c)
    (capacity_exceeded c) (move_out_values c).
Definition set_num_locals (x : Z) (c : Cfg) : Cfg :=
  mkCfg (owner_identity c) (blocks c) (entry c) (return_type c) (values c) (extra c)
    (call_args c) (call_contracts c) (switch_cases c) (projections c) x (num_params c)
    (fn_name c) (param_modes c) (address_taken_slots c) (ownership_boundary_slots c)
    (ownership_boundary_values c) (address_taken_params c) (source_param_abi c)
    (capacity_exceeded c) (move_out_values c).
Definition set_address_taken_slots (x : gset nat) (c : Cfg) : Cfg :=
  mkCfg (owner_identity c) (blocks c) (entry c) (return_type c) (values c) (extra c)
    (call_args c) (call_contracts c) (switch_cases c) (projections c) (num_locals c)
    (num_params c) (fn_name c) (param_modes c) x (ownership_boundary_slots c)
    (ownership_boundary_values c) (address_taken_params c) (source_param_abi c)
    (capacity_exceeded c) (move_out_values c).
Definition set_ownership_boundary_slots (x : gset nat) (c : Cfg) : Cfg :=
  mkCfg (owner_identity c) (blocks c) (entry c) (return_type c) (values c) (extra c)
    (call_args c) (call_contracts c) (switch_cases c) (projections c) (num_locals c)
    (num_params c) (fn_name c) (param_modes c) (address_taken_slots c) x
    (ownership_boundary_values c) (address_taken_params c) (source_param_abi c)
    (capacity_exceeded c) (move_out_values c).
Definition set_ownership_boundary_values (x : gset CfgValue) (c : Cfg) : Cfg :=
  mkCfg (owner_identity c) (blocks c) (entry c) (return_type c) (values c) (extra c)
    (call_args c) (call_contracts c) (switch_cases c) (projections c) (num_locals c)
    (num_params c) (fn_name c) (param_modes c) (address_taken_slots c)
    (ownership_boundary_slots c) x (address_taken_params c) (source_param_abi c)
    (capacity_exceeded c) (move_out_values c).
Definition set_address_taken_params (x : gset nat) (c : Cfg) : Cfg :=
  mkCfg (owner_identity c) (blocks c) (entry c) (return_type c) (values c) (extra c)
    (call_args c) (call_contracts c) (switch_cases c) (projections c) (num_locals c)
    (num_params c) (fn_name c) (param_modes c) (address_taken_slots c)
    (ownership_boundary_slots c) (ownership_boundary_values c) x (source_param_abi c)
    (capacity_exceeded c) (move_out_values c).
Definition set_source_param_abi (x : list SourceParamAbi) (c : Cfg) : Cfg :=
  mkCfg (owner_identity c) (blocks c) (entry c) (return_type c) (values c) (extra c)
    (call_args c) (call_contracts c) (switch_cases c) (projections c) (num_locals c)
    (num_params c) (fn_name c) (param_modes c) (address_taken_slots c)
    (ownership_boundary_slots c) (ownership_boundary_values c) (address_taken_params c) x
    (capacity_exceeded c) (move_out_values c).
Definition set_capacity_exceeded (x : option string) (c : Cfg) : Cfg :=
  mkCfg (owner_identity c) (blocks c) (entry c) (return_type c) (values c) (extra c)
    (call_args c) (call_contracts c) (switch_cases c) (projections c) (num_locals c)
    (num_params c) (fn_name c) (param_modes c) (address_taken_slots c)
    (ownership_boundary_slots c) (ownership_boundary_values c) (address_taken_params c)
    (source_param_abi c) x (move_out_values c).
Definition set_move_out_values (x : nat) (c : Cfg) : Cfg :=
  mkCfg (owner_identity c) (blocks c) (entry c) (return_type c) (values c) (extra c)
    (call_args c) (call_contracts c) (switch_cases c) (projections c) (num_locals c)
    (num_params c) (fn_name c) (param_modes c) (address_taken_slots c)
    (ownership_boundary_slots c) (ownership_boundary_values c) (address_taken_params c)
    (source_param_abi c) (capacity_exceeded c) x.

Definition cfg_new (owner : nat) (ret : Type_) (locals params : Z) (name : string)
    (modes : ParamSlotModes) : Cfg := {|
  owner_identity := owner;
  blocks := [];
  entry := 0;
  return_type := ret;
  values := [];
  extra := store_new;
  call_args := store_new;
  call_contracts := ∅;
  switch_cases := store_new;
  projections := store_new;
  num_locals := locals;
  num_params := params;
  fn_name := name;
  param_modes := modes;
  address_taken_slots := ∅;
  ownership_boundary_slots := ∅;
  ownership_boundary_values := ∅;
  address_taken_params := ∅;
  source_param_abi := [];
  capacity_exceeded := None;
  move_out_values := 0;
|}.

(** ** Reading the graph

    Indexing a [Vec] and decoding a payload with [expect] are [option]
    functions whose [None] is a panic. *)

Section Accessors.
Context (cfg : Cfg).

Definition get_block (id : BlockId) : option BasicBlock := blocks cfg !! id.
Definition get_inst (value : CfgValue) : option CfgInst := values cfg !! value.
Definition value_count : nat := length (values cfg).
Definition block_count : nat := length (blocks cfg).
Definition block_ids : list BlockId := seq 0 (length (blocks cfg)).

Definition is_address_taken (slot : nat) : bool := bool_decide (slot ∈ address_taken_slots cfg).
Definition is_ownership_boundary (slot : nat) : bool :=
  bool_decide (slot ∈ ownership_boundary_slots cfg).
Definition is_ownership_boundary_value (value : CfgValue) : bool :=
  bool_decide (value ∈ ownership_boundary_values cfg).
Definition is_param_address_taken (slot : nat) : bool :=
  bool_decide (slot ∈ address_taken_params cfg).
Definition is_param_by_ref (slot : nat) : bool :=
  default false (modes_by_ref (param_modes cfg) !! slot).
Definition is_param_writable (slot : nat) : bool :=
  default false (modes_writable (param_modes cfg) !! slot).

Definition is_move_out (d : CfgInstData) : bool :=
  match d with IMoveOut _ => true | _ => false end.
Definition charged_value_count : nat := length (values cfg) - move_out_values cfg.
Definition counted_move_outs : nat := length (filter (fun i => is_move_out (data i)) (values cfg)).
Definition move_out_counts : nat * nat := (move_out_values cfg, counted_move_outs).

(** The family views over the owner's stores. *)
Definition intrinsic_args (r : Range FIntrinsicArgs) := view_expect (extra cfg) r.
Definition struct_fields (r : Range FStructFields) := view_expect (extra cfg) r.
Definition array_elements (r : Range FArrayElements) := view_expect (extra cfg) r.
Definition enum_payload (r : Range FEnumPayload) := view_expect (extra cfg) r.
Definition goto_args (r : Range FGotoArgs) := view_expect (extra cfg) r.
Definition then_args_of (r : Range FThenArgs) := view_expect (extra cfg) r.
Definition else_args_of (r : Range FElseArgs) := view_expect (extra cfg) r.
Definition call_args_of (r : Range FCallArgs) := view_expect (call_args cfg) r.
Definition switch_cases_of (r : Range FSwitchCases) := view_expect (switch_cases cfg) r.
Definition get_place_projections (p : Place) := view_expect (projections cfg) (place_projections p).

Definition get_call_args (d : CfgInstData) : option (list CfgCallArg) :=
  match d with
  | ICall _ _ args | IAccessorCall _ args | ICallIndirect _ args => call_args_of args
  | _ => None
  end.
Definition get_intrinsic_args (d : CfgInstData) : option (list CfgValue) :=
  match d with IIntrinsic _ _ args => intrinsic_args args | _ => None end.
Definition get_struct_fields (d : CfgInstData) : option (list CfgValue) :=
  match d with IStructInit _ fields => struct_fields fields | _ => None end.
Definition get_array_elements (d : CfgInstData) : option (list CfgValue) :=
  match d with IArrayInit elements _ => array_elements elements | _ => None end.
Definition get_enum_payload (d : CfgInstData) : option (list CfgValue) :=
  match d with IEnumVariant _ _ payload => enum_payload payload | _ => None end.
Definition get_switch_cases (t : Terminator) : option (list (Z * BlockId)) :=
  match t with Switch _ cases _ => switch_cases_of cases | _ => None end.
Definition get_goto_args (t : Terminator) : option (list CfgValue) :=
  match t with Goto _ args => goto_args args | _ => None end.
Definition get_branch_then_args (t : Terminator) : option (list CfgValue) :=
  match t with Branch _ _ then_args _ _ => then_args_of then_args | _ => None end.
Definition get_branch_else_args (t : Terminator) : option (list CfgValue) :=
  match t with Branch _ _ _ _ else_args => else_args_of else_args | _ => None end.

(** [array_init_repeat]: [None] for another instruction, and [elements[0]]
    (which may panic) for the repeat shape. *)
Definition array_init_repeat (d : CfgInstData) : option (option CfgValue) :=
  match d with
  | IArrayInit elements Repeat => els ← array_elements elements; v ← head els; Some (Some v)
  | _ => Some None
  end.

(** [visit_successors]: the visited blocks in order. *)
Definition successors_of_term (t : Terminator) : option (list BlockId) :=
  match t with
  | Goto target _ => Some [target]
  | Branch _ then_block _ else_block _ => Some [then_block; else_block]
  | Switch _ cases default => cs ← switch_cases_of cases; Some (cs.*2 ++ [default])
  | Return _ | Unreachable | TermNone => Some []
  end.
Definition visit_successors (block : BlockId) : option (list BlockId) :=
  b ← get_block block; successors_of_term (terminator b).
End Accessors.

(** ** Well-formed owners *)

(** [get_inst_mut(value).data = d]; the type and span stay. *)
Definition write_inst_data (cfg : Cfg) (value : CfgValue) (d : CfgInstData) : option Cfg :=
  i ← get_inst cfg value;
  Some (set_values (<[value := {| data := d; ty := ty i; span := span i |}]> (values cfg)) cfg).

Section Ok.
Context (cfg : Cfg).

(** A handle that came from a store of this owner. *)
Definition range_ok {E F} (s : Store E) (r : Range F) : Prop := range_u32 r /\ well_formed s r.

Definition place_ok (p : Place) : Prop := range_ok (projections cfg) (place_projections p).

Definition inst_ok (d : CfgInstData) : Prop :=
  match d with
  | IPlaceRead p | IPlaceWrite p _ | IMoveOut p => place_ok p
  | ICall _ _ r | IAccessorCall _ r | ICallIndirect _ r => range_ok (call_args cfg) r
  | IIntrinsic _ _ r => range_ok (extra cfg) r
  | IStructInit _ r => range_ok (extra cfg) r
  | IArrayInit r _ => range_ok (extra cfg) r
  | IEnumVariant _ _ r => range_ok (extra cfg) r
  | _ => True
  end.

Definition term_ok (t : Terminator) : Prop :=
  match t with
  | Goto target args => target < block_count cfg /\ range_ok (extra cfg) args
  | Branch _ t ta e ea =>
      t < block_count cfg /\ e < block_count cfg /\
      range_ok (extra cfg) ta /\ range_ok (extra cfg) ea
  | Switch _ cases d =>
      d < block_count cfg /\ range_ok (switch_cases cfg) cases /\
      Forall (fun c => c.2 < block_count cfg) (denote (switch_cases cfg) cases)
  | Return _ | Unreachable | TermNone => True
  end.

Record block_ok (i : nat) (b : BasicBlock) : Prop := {
  block_ok_id : block_id b = i;
  block_ok_insts : Forall (fun v => v < value_count cfg) (insts b);
  block_ok_params : Forall (fun p => p.1 < value_count cfg) (params b);
  block_ok_term : term_ok (terminator b);
}.

(** The owner invariant: dense block identities below the ceiling, attached
    values and branch targets inside the arenas, every payload handle
    decodable in its own store, and an exact move-out count. *)
Record cfg_ok : Prop := {
  ok_blocks : forall i b, blocks cfg !! i = Some b -> block_ok i b;
  ok_insts : forall v i, values cfg !! v = Some i -> inst_ok (data i);
  ok_block_bound : (Z.of_nat (block_count cfg) <= u32_max)%Z;
  ok_value_bound : (Z.of_nat (value_count cfg) <= u32_max)%Z;
  ok_move_outs : move_out_values cfg = counted_move_outs cfg;
}.
End Ok.

Lemma range_ok_view {E F} (s : Store E) (r : Range F) :
  range_ok s r -> view_expect s r = Some (denote s r).
Proof. intros [H1 H2]. by apply view_expect_Some. Qed.

Lemma range_ok_EMPTY {E F} (s : Store E) : range_ok s (EMPTY (F := F)).
Proof. split; [|by left]. rw /range_u32 /in_u /=. lia. Qed.

(** Growing a store keeps its handles and what they denote. *)
Definition store_extends {E} (s s' : Store E) : Prop :=
  exists vs, store_elements s' = store_elements s ++ vs.

#[export] Instance store_extends_refl E : Reflexive (@store_extends E).
Proof. intros s. exists []. by rw app_nil_r. Qed.

Lemma range_ok_extends {E F} (s s' : Store E) (r : Range F) :
  store_extends s s' -> range_ok s r -> range_ok s' r /\ denote s' r = denote s r.
Proof.
  intros [vs He] [H1 H2]. destruct s' as [el]; simpl in He; subst el. split; [split|].
  - done.
  - by apply well_formed_app.
  - by apply denote_app.
Qed.

Lemma append_store_extends `{Alloc} {E F} (s s' : Store E) vs (r : Range F) :
  append s vs = Ok (s', r) -> store_extends s s'.
Proof. intros Ha. exists vs. by eapply append_extends. Qed.

Lemma append_range_ok `{Alloc} {E F} (s s' : Store E) vs (r : Range F) :
  append s vs = Ok (s', r) -> range_ok s' r /\ denote s' r = vs.
Proof.
  intros Ha. destruct (append_denote _ _ _ _ Ha). split; [split|]; [|done..].
  by eapply append_range_u32.
Qed.

(** The order on owners that construction follows: arenas only grow and
    stores only extend. *)
Record cfg_extends (c c' : Cfg) : Prop := {
  ext_extra : store_extends (extra c) (extra c');
  ext_call_args : store_extends (call_args c) (call_args c');
  ext_switch_cases : store_extends (switch_cases c) (switch_cases c');
  ext_projections : store_extends (projections c) (projections c');
  ext_blocks : block_count c <= block_count c';
  ext_values : value_count c <= value_count c';
}.

Lemma inst_ok_extends c c' d : cfg_extends c c' -> inst_ok c d -> inst_ok c' d.
Proof.
  intros [He Hc Hs Hp _ _] Hok.
  destruct d; simpl in *; try done; try rw /place_ok in Hok *; by eapply range_ok_extends.
Qed.

Lemma term_ok_extends c c' t : cfg_extends c c' -> term_ok c t -> term_ok c' t.
Proof.
  intros [He Hc Hs Hp Hb _] Hok. destruct t; simpl in *; try done.
  - destruct Hok as [? Hr]. split; [lia|]. by eapply range_ok_extends.
  - destruct Hok as (?&?&Hr1&Hr2). split_and!; [lia|lia|by eapply range_ok_extends..].
  - destruct Hok as (?&Hr&Hf). destruct (range_ok_extends _ _ _ Hs Hr) as [Hr' ->].
    split_and!; [lia|done|]. eapply Forall_impl; [exact Hf|]. simpl. lia.
Qed.

Lemma block_ok_extends c c' i b : cfg_extends c c' -> block_ok c i b -> block_ok c' i b.
Proof.
  intros He [H1 H2 H3 H4]. pose proof (ext_values _ _ He). split; [done|..].
  - eapply Forall_impl; [exact H2|]. simpl. lia.
  - eapply Forall_impl; [exact H3|]. simpl. lia.
  - by eapply term_ok_extends.
Qed.
