(* ===== verification/CfgEdit.v ===== *)
(** * Owner-level edits of the graph

    The construction and edit operations of [crates/rue-cfg/src/inst.rs]:
    a state and error monad over [Cfg], one definition per operation, and the
    proof that every edit either leaves the owner untouched or preserves its
    invariant. *)

From S2P Require Import Prelude IntegerSemantics Types Payload CfgData.
From stdpp Require Import strings gmap.
Import Machine.

Inductive CfgEditError :=
| InvalidBuilderInput (operation detail : string)
| EditResourceLimitExceeded (family : string)
| OwnerLimitExceeded (family : string)
| EditCapacityFailure (family : string).

(** [From<PayloadBuildError> for CfgEditError]. *)
Definition from_payload (e : PayloadBuildError) : CfgEditError :=
  match e with
  | ResourceLimitExceeded family => EditResourceLimitExceeded family
  | CapacityFailure family => EditCapacityFailure family
  end.

(** The frozen type pool, as the edit API consults it. *)
Class TypePool := {
  try_abi_slot_count : Type_ -> option Z;
  try_enum_variant_count : EnumId -> option nat;
}.

(** ** The edit monad: the owner survives an error *)

Definition editM (A : Type) : Type := Cfg -> res CfgEditError A * Cfg.

#[export] Instance editM_ret : MRet editM := fun A a c => (Ok a, c).
#[export] Instance editM_bind : MBind editM := fun A B f m c =>
  match m c with
  | (Ok a, c') => f a c'
  | (Err e, c') => (Err e, c')
  | (Panic, c') => (Panic, c')
  end.

Definition gets {A} (f : Cfg -> A) : editM A := fun c => (Ok (f c), c).
Definition modify (f : Cfg -> Cfg) : editM unit := fun c => (Ok tt, f c).
Definition throw {A} (e : CfgEditError) : editM A := fun c => (Err e, c).
(** An index or [assert!] failure. *)
Definition unwrap {A} (o : option A) : editM A := fun c => (expect o, c).
Definition invalid_edit (operation detail : string) : CfgEditError :=
  InvalidBuilderInput operation detail.
(** [if !ok { return Err(e) }]. *)
Definition require (ok : Cfg -> bool) (e : CfgEditError) : editM unit :=
  fun c => if ok c then (Ok tt, c) else (Err e, c).

(** ** Allocation of blocks and values *)

Definition checked_owner_index (length : nat) : option nat :=
  if (Z.of_nat length <=? u32_max)%Z && (Z.of_nat length <? u32_max)%Z
  then Some length else None.

Definition get_or_insert (family : string) (o : option string) : option string :=
  match o with Some f => Some f | None => Some family end.

Definition latch_capacity_error (family : string) (c : Cfg) : Cfg :=
  set_capacity_exceeded (get_or_insert family (capacity_exceeded c)) c.

Definition latched_capacity_error (c : Cfg) : option CfgEditError :=
  OwnerLimitExceeded <$> capacity_exceeded c.

Definition new_block (c : Cfg) : Cfg * BlockId :=
  match checked_owner_index (length (blocks c)) with
  | None => (latch_capacity_error "basic blocks" c, 0)
  | Some id => (set_blocks (blocks c ++ [block_new id]) c, id)
  end.

Definition add_inst (i : CfgInst) (c : Cfg) : Cfg * CfgValue :=
  match checked_owner_index (length (values c)) with
  | None => (latch_capacity_error "values" c, 0)
  | Some v =>
      (set_values (values c ++ [i])
         (set_move_out_values (move_out_values c + Nat.b2n (is_move_out (data i))) c), v)
  end.

(** [self.blocks[block]] then a field update; out of range is a panic. *)
Definition update_block (block : BlockId) (f : BasicBlock -> BasicBlock) (c : Cfg) : option Cfg :=
  b ← blocks c !! block; Some (set_blocks (<[block := f b]> (blocks c)) c).

Definition set_inst_data (value : CfgValue) (d : CfgInstData) (c : Cfg) : option Cfg :=
  i ← values c !! value;
  Some (set_values (<[value := mkInst d (ty i) (span i)]> (values c))
         (set_move_out_values
            (move_out_values c - Nat.b2n (is_move_out (data i)) + Nat.b2n (is_move_out d)) c)).

Definition add_inst_to_block (block : BlockId) (i : CfgInst) (c : Cfg) : option (Cfg * CfgValue) :=
  let '(c1, v) := add_inst i c in
  c2 ← update_block block (fun b => with_insts (insts b ++ [v]) b) c1;
  Some (c2, v).

Definition add_block_param (block : BlockId) (t : Type_) (c : Cfg) : option (Cfg * CfgValue) :=
  b ← blocks c !! block;
  let '(c1, v) := add_inst (mkInst (IBlockParam (length (params b))) t (span_new 0 0)) c in
  c2 ← update_block block
         (fun b => mkBlock (block_id b) (params b ++ [(v, t)]) (insts b) (terminator b)) c1;
  Some (c2, v).

Definition is_open (t : Terminator) : bool :=
  match t with TermNone | Unreachable => true | _ => false end.

Definition set_terminator (block : BlockId) (t : Terminator) (c : Cfg) : option Cfg :=
  b ← blocks c !! block;
  if is_open (terminator b) then update_block block (with_terminator t) c else None.

Definition set_return (block : BlockId) (v : option CfgValue) := set_terminator block (Return v).
Definition set_unreachable (block : BlockId) := set_terminator block Unreachable.

(** [alloc_temp_local_slots]: asserts a positive width and panics on [u32]
    overflow of the frame. *)
Definition alloc_temp_local_slots (slots : Z) (c : Cfg) : option (Cfg * Z) :=
  if (0 <? slots)%Z then
    n ← checked_u 32 (num_locals c + slots); Some (set_num_locals n c, num_locals c)
  else None.
Definition alloc_temp_local (c : Cfg) : option (Cfg * Z) := alloc_temp_local_slots 1 c.

Definition mark_address_taken (slot : nat) (c : Cfg) : Cfg :=
  set_address_taken_slots ({[slot]} ∪ address_taken_slots c) c.
Definition mark_ownership_boundary (slot : nat) (c : Cfg) : Cfg :=
  set_ownership_boundary_slots ({[slot]} ∪ ownership_boundary_slots c) c.
Definition mark_ownership_boundary_value (v : CfgValue) (c : Cfg) : Cfg :=
  set_ownership_boundary_values ({[v]} ∪ ownership_boundary_values c) c.
Definition mark_param_address_taken (slot : nat) (c : Cfg) : Cfg :=
  set_address_taken_params ({[slot]} ∪ address_taken_params c) c.
Definition set_call_contract (v : CfgValue) (k : CfgCallContract) (c : Cfg) : Cfg :=
  set_call_contracts (<[v := k]> (call_contracts c)) c.

(** ** Validation *)

(** [stage_edit]: [lower] is the iterator's size hint. *)
Fixpoint stage_loop `{Alloc} {E} (operation : string) (staged : list E) (values : list E)
    : res CfgEditError (list E) :=
  match values with
  | [] => Ok staged
  | v :: rest =>
      if (Z.of_nat (length staged) =? u32_max)%Z then Err (EditResourceLimitExceeded operation)
      else if grant (length staged) 1 then stage_loop operation (staged ++ [v]) rest
      else Err (EditCapacityFailure operation)
  end.

Definition stage_edit `{Alloc} {E} (operation : string) (lower : nat) (values : list E)
    : editM (list E) := fun c =>
  if (u32_max <? Z.of_nat lower)%Z then (Err (EditResourceLimitExceeded operation), c)
  else if grant 0 lower then (stage_loop operation [] values, c)
  else (Err (EditCapacityFailure operation), c).

Definition preflight_append `{Alloc} (operation : string) (block : BlockId) : editM unit := fun c =>
  match blocks c !! block with
  | None => (Err (invalid_edit operation "block is out of bounds"), c)
  | Some b =>
      if grant (length (values c)) 1 then
        if grant (length (insts b)) 1 then (Ok tt, c)
        else (Err (EditCapacityFailure "block instructions"), c)
      else (Err (EditCapacityFailure "values"), c)
  end.

Definition validate_value_refs (operation : string) (refs : list CfgValue) : editM unit :=
  require (fun c => forallb (fun v => v <? value_count c) refs)
    (invalid_edit operation "payload value is undefined").

Inductive RootKind := RootLocal | RootParam.

(** [root_slot_range]: [Err] carries the range end, [None] on overflow. *)
Definition root_slot_range (kind : RootKind) (slot width limit : Z) : res (option Z) unit :=
  match kind, (width =? 0)%Z with
  | RootParam, true => Ok tt
  | _, _ =>
      match checked_u 32 (slot + width) with
      | Some e => if (e <=? limit)%Z then Ok tt else Err (Some e)
      | None => Err None
      end
  end.

Definition param_root_width (c : Cfg) (slot : nat) (abi_width : option Z) : option Z :=
  if is_param_by_ref c slot then Some 1%Z else abi_width.

Definition is_accessor_call (d : CfgInstData) : bool :=
  match d with IAccessorCall _ _ => true | _ => false end.

(** The place base check: [None] when the base type has no width. *)
Definition place_base_valid `{TypePool} (c : Cfg) (b : PlaceBase) (bty : Type_) : option bool :=
  match b with
  | Local slot =>
      width ← try_abi_slot_count bty;
      Some (is_ok (root_slot_range RootLocal (Z.of_nat slot) width (num_locals c)))
  | Param slot =>
      width ← param_root_width c slot (try_abi_slot_count bty);
      Some (is_ok (root_slot_range RootParam (Z.of_nat slot) width (num_params c)))
  | Accessor v =>
      Some (match values c !! v with Some i => is_accessor_call (data i) | None => false end)
  | Indirect v => Some (v <? value_count c)
  end.

Definition projection_defined (c : Cfg) (p : Projection) : bool :=
  match p with Index _ index => index <? value_count c | Field _ _ => true end.

Definition validate_place_input `{TypePool} (operation : string) (b : PlaceBase) (bty : Type_)
    (projs : list Projection) : editM unit := fun c =>
  match place_base_valid c b bty with
  | None => (Err (invalid_edit operation "place base type has no valid width"), c)
  | Some false => (Err (invalid_edit operation "place base is out of bounds"), c)
  | Some true =>
      if forallb (projection_defined c) projs then (Ok tt, c)
      else (Err (invalid_edit operation "projection index value is undefined"), c)
  end.

(** ** Pushing payloads *)

Definition lift_push {E F} (store : Cfg -> Store E) (put : Store E -> Cfg -> Cfg)
    (r : Store E -> res PayloadBuildError (Store E * Range F)) : editM (Range F) := fun c =>
  match r (store c) with
  | Ok (s', range) => (Ok range, put s' c)
  | Err e => (Err (from_payload e), c)
  | Panic => (Panic, c)
  end.

Section Push.
Context `{Alloc}.
Definition push_extra {F} (vs : list CfgValue) : editM (Range F) :=
  lift_push extra set_extra (fun s => push s vs).
Definition push_intrinsic_args := @push_extra FIntrinsicArgs.
Definition push_struct_fields := @push_extra FStructFields.
Definition push_array_elements := @push_extra FArrayElements.
Definition push_enum_payload := @push_extra FEnumPayload.
Definition push_goto_args := @push_extra FGotoArgs.
Definition push_then_args := @push_extra FThenArgs.
Definition push_else_args := @push_extra FElseArgs.
Definition push_call_args (vs : list CfgCallArg) : editM (Range FCallArgs) :=
  lift_push call_args set_call_args (fun s => push s vs).
Definition push_switch_cases (vs : list (Z * BlockId)) : editM (Range FSwitchCases) :=
  lift_push switch_cases set_switch_cases (fun s => push s vs).
Definition push_projections (vs : list Projection) : editM (Range FProjections) :=
  lift_push projections set_projections (fun s => push s vs).
Definition make_place (b : PlaceBase) (bty : Type_) (projs : list Projection) : editM Place :=
  r ← push_projections projs; mret (mkPlace b bty r).
End Push.

(** Run a total or panicking state change inside the monad. *)
Definition run_state {A} (f : Cfg -> option (Cfg * A)) : editM A := fun c =>
  match f c with Some (c', a) => (Ok a, c') | None => (Panic, c) end.
Definition run_update (f : Cfg -> option Cfg) : editM unit :=
  run_state (fun c => c' ← f c; Some (c', tt)).

(** ** The edit operations

    Each takes its iterator as a list whose size hint is exact, as for the
    vectors and slices the compiler passes. *)

Section Edits.
Context `{Alloc} `{TypePool}.

Definition stage {E} (operation : string) (vs : list E) : editM (list E) :=
  stage_edit operation (length vs) vs.

Definition append_inst (block : BlockId) (i : CfgInst) : editM CfgValue :=
  run_state (add_inst_to_block block i).

Definition append_call (block : BlockId) (runtime : option RuntimeCallKind) (name : Spur)
    (args : list CfgCallArg) (t : Type_) (sp : Span) : editM CfgValue :=
  let OP := "call arguments" in
  staged ← stage OP args;
  validate_value_refs OP (arg_value <$> staged);;
  preflight_append OP block;;
  c ← gets id;
  contract_args ← unwrap (mapM (fun a => i ← get_inst c (arg_value a);
                                         Some (mkContractArg (ty i) (arg_mode a))) staged);
  range ← push_call_args staged;
  v ← append_inst block (mkInst (ICall runtime name range) t sp);
  modify (set_call_contract v (mkContract contract_args t));;
  mret v.

Definition append_intrinsic_operation (block : BlockId) (operation : IntrinsicOperation)
    (name : Spur) (args : list CfgValue) (t : Type_) (sp : Span) : editM CfgValue :=
  let OP := "intrinsic arguments" in
  staged ← stage OP args;
  validate_value_refs OP staged;;
  preflight_append OP block;;
  range ← push_intrinsic_args staged;
  append_inst block (mkInst (IIntrinsic operation name range) t sp).

Definition append_struct_init (block : BlockId) (struct_id : StructId) (fields : list CfgValue)
    (t : Type_) (sp : Span) : editM CfgValue :=
  let OP := "struct fields" in
  staged ← stage OP fields;
  validate_value_refs OP staged;;
  preflight_append OP block;;
  range ← push_struct_fields staged;
  append_inst block (mkInst (IStructInit struct_id range) t sp).

Definition append_array_init_shaped (block : BlockId) (els : list CfgValue)
    (shape : ArrayInitShape) (t : Type_) (sp : Span) : editM CfgValue :=
  let OP := "array elements" in
  staged ← stage OP els;
  validate_value_refs OP staged;;
  preflight_append OP block;;
  range ← push_array_elements staged;
  append_inst block (mkInst (IArrayInit range shape) t sp).

Definition append_array_init block els t sp := append_array_init_shaped block els Elementwise t sp.
Definition append_array_repeat block v t sp := append_array_init_shaped block [v] Repeat t sp.

(** The [let Some(def) = ... else] and variant-bound guards. *)
Definition check_enum_variant (operation : string) (enum_id : EnumId) (variant_index : nat)
    : editM unit :=
  match try_enum_variant_count enum_id with
  | None => throw (invalid_edit operation "enum target is undefined")
  | Some n =>
      if n <=? variant_index then throw (invalid_edit operation "enum variant is out of bounds")
      else mret tt
  end.

Definition append_enum_variant (block : BlockId) (enum_id : EnumId) (variant_index : nat)
    (payload : list CfgValue) (t : Type_) (sp : Span) : editM CfgValue :=
  let OP := "enum payload" in
  check_enum_variant OP enum_id variant_index;;
  staged ← stage OP payload;
  validate_value_refs OP staged;;
  preflight_append OP block;;
  range ← push_enum_payload staged;
  append_inst block (mkInst (IEnumVariant enum_id variant_index range) t sp).

Definition append_place_read (block : BlockId) (b : PlaceBase) (bty : Type_)
    (projs : list Projection) (t : Type_) (sp : Span) : editM CfgValue :=
  let OP := "projections" in
  staged ← stage OP projs;
  validate_place_input OP b bty staged;;
  preflight_append OP block;;
  range ← push_projections staged;
  append_inst block (mkInst (IPlaceRead (mkPlace b bty range)) t sp).

(** The instruction at [value], when it is of the expected kind. *)
Definition target_data (value : CfgValue) (kind : CfgInstData -> bool) (c : Cfg)
    : option CfgInstData :=
  i ← values c !! value; if kind (data i) then Some (data i) else None.
Definition target_is (value : CfgValue) (kind : CfgInstData -> bool) (c : Cfg) : bool :=
  bool_decide (is_Some (target_data value kind c)).

(** The second match of a [replace_*]: write the new handle into the target. *)
Definition store_data (OP : string) (value : CfgValue) (f : CfgInstData -> option CfgInstData)
    : editM unit := fun c =>
  match values c !! value with
  | None => (Panic, c)
  | Some i =>
      match f (data i) with
      | Some d => (Ok tt, set_values (<[value := mkInst d (ty i) (span i)]> (values c)) c)
      | None => (Err (invalid_edit OP "target changed during replacement"), c)
      end
  end.

Definition is_call_target (d : CfgInstData) : bool :=
  match d with ICall _ _ _ | ICallIndirect _ _ => true | _ => false end.

Definition replace_call_args (value : CfgValue) (vs : list CfgCallArg) : editM unit :=
  let OP := "call arguments" in
  require (target_is value is_call_target) (invalid_edit OP "target is not a Call instruction");;
  staged ← stage OP vs;
  validate_value_refs OP (arg_value <$> staged);;
  args ← push_call_args staged;
  store_data OP value (fun d =>
    match d with
    | ICall runtime name _ => Some (ICall runtime name args)
    | ICallIndirect callee _ => Some (ICallIndirect callee args)
    | _ => None
    end).

Definition is_intrinsic (d : CfgInstData) : bool :=
  match d with IIntrinsic _ _ _ => true | _ => false end.

Definition replace_intrinsic_args (value : CfgValue) (vs : list CfgValue) : editM unit :=
  let OP := "intrinsic arguments" in
  require (target_is value is_intrinsic) (invalid_edit OP "target is not an Intrinsic instruction");;
  staged ← stage OP vs;
  validate_value_refs OP staged;;
  args ← push_intrinsic_args staged;
  store_data OP value (fun d =>
    match d with IIntrinsic op name _ => Some (IIntrinsic op name args) | _ => None end).

Definition replace_inst_type (value : CfgValue) (t : Type_) : editM unit := fun c =>
  match values c !! value with
  | None => (Err (invalid_edit "instruction type" "target instruction is undefined"), c)
  | Some i => (Ok tt, set_values (<[value := mkInst (data i) t (span i)]> (values c)) c)
  end.

Definition is_int_cast (d : CfgInstData) : bool :=
  match d with IIntCast _ _ => true | _ => false end.

Definition replace_int_cast (value operand : CfgValue) (from_ty : Type_) : editM unit :=
  let OP := "integer cast" in
  require (fun c => operand <? value_count c) (invalid_edit OP "operand is undefined");;
  require (fun c => value <? value_count c) (invalid_edit OP "target instruction is undefined");;
  require (target_is value is_int_cast) (invalid_edit OP "target is not an IntCast instruction");;
  store_data OP value (fun _ => Some (IIntCast operand from_ty)).

Definition is_struct_init (d : CfgInstData) : bool :=
  match d with IStructInit _ _ => true | _ => false end.

Definition replace_struct_fields (value : CfgValue) (vs : list CfgValue) : editM unit :=
  let OP := "struct fields" in
  require (target_is value is_struct_init) (invalid_edit OP "target is not a StructInit instruction");;
  staged ← stage OP vs;
  validate_value_refs OP staged;;
  fields ← push_struct_fields staged;
  store_data OP value (fun d =>
    match d with IStructInit id _ => Some (IStructInit id fields) | _ => None end).

Definition is_array_init (d : CfgInstData) : bool :=
  match d with IArrayInit _ _ => true | _ => false end.
Definition array_shape (d : CfgInstData) : ArrayInitShape :=
  match d with IArrayInit _ shape => shape | _ => Elementwise end.

Definition replace_array_elements (value : CfgValue) (vs : list CfgValue) : editM unit :=
  let OP := "array elements" in
  target ← gets (target_data value is_array_init);
  match target with
  | None => throw (invalid_edit OP "target is not an ArrayInit instruction")
  | Some d =>
      staged ← stage OP vs;
      require (fun _ => negb (bool_decide (array_shape d = Repeat) && negb (length staged =? 1)))
        (invalid_edit OP "an array repeat carries exactly one element");;
      validate_value_refs OP staged;;
      els ← push_array_elements staged;
      store_data OP value (fun d =>
        match d with IArrayInit _ shape => Some (IArrayInit els shape) | _ => None end)
  end.

Definition is_enum_variant (d : CfgInstData) : bool :=
  match d with IEnumVariant _ _ _ => true | _ => false end.

Definition replace_enum_payload (value : CfgValue) (vs : list CfgValue) : editM unit :=
  let OP := "enum payload" in
  target ← gets (target_data value is_enum_variant);
  match target with
  | Some (IEnumVariant enum_id variant_index _) =>
      check_enum_variant OP enum_id variant_index;;
      staged ← stage OP vs;
      validate_value_refs OP staged;;
      payload ← push_enum_payload staged;
      store_data OP value (fun d =>
        match d with IEnumVariant e i _ => Some (IEnumVariant e i payload) | _ => None end)
  | _ => throw (invalid_edit OP "target is not an EnumVariant instruction")
  end.

Definition is_place_read (d : CfgInstData) : bool :=
  match d with IPlaceRead _ => true | _ => false end.
Definition is_place_write (d : CfgInstData) : bool :=
  match d with IPlaceWrite _ _ => true | _ => false end.

Definition replace_place_read (value : CfgValue) (b : PlaceBase) (bty : Type_)
    (projs : list Projection) : editM unit :=
  let OP := "projections" in
  require (target_is value is_place_read) (invalid_edit OP "target is not a PlaceRead instruction");;
  staged ← stage OP projs;
  validate_place_input OP b bty staged;;
  range ← push_projections staged;
  store_data OP value (fun _ => Some (IPlaceRead (mkPlace b bty range))).

Definition replace_place_write (instruction : CfgValue) (b : PlaceBase) (bty : Type_)
    (projs : list Projection) (value : CfgValue) : editM unit :=
  let OP := "projections" in
  require (target_is instruction is_place_write)
    (invalid_edit OP "target is not a PlaceWrite instruction");;
  require (fun c => value <? value_count c) (invalid_edit OP "written value is undefined");;
  staged ← stage OP projs;
  validate_place_input OP b bty staged;;
  range ← push_projections staged;
  store_data OP instruction (fun _ => Some (IPlaceWrite (mkPlace b bty range) value)).

Definition blocks_in_bounds (ids : list BlockId) (c : Cfg) : bool :=
  forallb (fun b => b <? block_count c) ids.
Definition block_is_open (block : BlockId) (c : Cfg) : bool :=
  match blocks c !! block with Some b => is_open (terminator b) | None => false end.

Definition try_set_goto (block target : BlockId) (args : list CfgValue) : editM unit :=
  let OP := "goto arguments" in
  require (blocks_in_bounds [block; target]) (invalid_edit OP "block target is out of bounds");;
  require (block_is_open block) (invalid_edit OP "block already has a terminator");;
  staged ← stage OP args;
  validate_value_refs OP staged;;
  range ← push_goto_args staged;
  run_update (set_terminator block (Goto target range)).

Definition reserve_values (additional : nat) : editM unit := fun c =>
  match store_reserve (extra c) "value" additional with
  | Ok _ => (Ok tt, c)
  | Err e => (Err (from_payload e), c)
  | Panic => (Panic, c)
  end.

Definition try_set_branch (block : BlockId) (cond : CfgValue) (then_block : BlockId)
    (then_args : list CfgValue) (else_block : BlockId) (else_args : list CfgValue) : editM unit :=
  let OP := "branch arguments" in
  require (blocks_in_bounds [block; then_block; else_block])
    (invalid_edit OP "block target is out of bounds");;
  require (fun c => cond <? value_count c) (invalid_edit OP "condition value is undefined");;
  require (block_is_open block) (invalid_edit OP "block already has a terminator");;
  then_staged ← stage OP then_args;
  else_staged ← stage OP else_args;
  validate_value_refs OP then_staged;;
  validate_value_refs OP else_staged;;
  require (fun _ => in_ub 64 (Z.of_nat (length then_staged) + Z.of_nat (length else_staged)))
    (EditResourceLimitExceeded OP);;
  reserve_values (length then_staged + length else_staged);;
  then_range ← push_then_args then_staged;
  else_range ← push_else_args else_staged;
  run_update (set_terminator block (Branch cond then_block then_range else_block else_range)).

Definition try_set_switch (block : BlockId) (scrutinee : CfgValue) (cases : list (Z * BlockId))
    (default : BlockId) : editM unit :=
  let OP := "switch cases" in
  require (blocks_in_bounds [block; default]) (invalid_edit OP "block target is out of bounds");;
  require (fun c => scrutinee <? value_count c) (invalid_edit OP "scrutinee value is undefined");;
  require (block_is_open block) (invalid_edit OP "block already has a terminator");;
  staged ← stage OP cases;
  require (blocks_in_bounds staged.*2) (invalid_edit OP "case target is out of bounds");;
  range ← push_switch_cases staged;
  run_update (set_terminator block (Switch scrutinee range default)).
End Edits.

(** ** Preservation of the owner invariant *)

(** Every state change below is an extension that re-establishes what it
    touched. *)
Lemma cfg_ok_intro c c' : cfg_ok c -> cfg_extends c c' ->
  (forall i b, blocks c' !! i = Some b -> block_ok c i b \/ block_ok c' i b) ->
  (forall v i, values c' !! v = Some i -> inst_ok c (data i) \/ inst_ok c' (data i)) ->
  (Z.of_nat (block_count c') <= u32_max)%Z -> (Z.of_nat (value_count c') <= u32_max)%Z ->
  move_out_values c' = counted_move_outs c' ->
  cfg_ok c'.
Proof.
  intros Hok Hext Hb Hi H1 H2 H3. split; [| |done..].
  - intros i b Hl. destruct (Hb _ _ Hl); [by eapply block_ok_extends|done].
  - intros v i Hl. destruct (Hi _ _ Hl); [by eapply inst_ok_extends|done].
Qed.

(** [c'] is [c] after some construction steps. *)
Definition cfg_step (c c' : Cfg) : Prop := cfg_ok c' /\ cfg_extends c c'.

#[export] Instance cfg_extends_refl : Reflexive cfg_extends.
Proof. intros c. split; reflexivity. Qed.

#[export] Instance store_extends_trans E : Transitive (@store_extends E).
Proof. intros s1 s2 s3 [v1 H1] [v2 H2]. exists (v1 ++ v2). by rw H2 H1 app_assoc. Qed.

#[export] Instance cfg_extends_trans : Transitive cfg_extends.
Proof. intros c1 c2 c3 [] []. split; solve [etrans; eassumption]. Qed.

Lemma cfg_step_trans c1 c2 c3 : cfg_step c1 c2 -> cfg_step c2 c3 -> cfg_step c1 c3.
Proof. intros [_ H1] [? H2]. split; [done|by etrans]. Qed.

Section Steps.
Context (c : Cfg) (Hok : cfg_ok c).

(** A step that changes neither blocks nor values. *)
Lemma step_stores c' : cfg_extends c c' -> blocks c' = blocks c -> values c' = values c ->
  move_out_values c' = move_out_values c -> cfg_step c c'.
Proof.
  intros He Hb Hv Hm. split; [|done]. apply (cfg_ok_intro c); [done..| | | | |].
  - intros i b. rw Hb. left. by apply (ok_blocks _ Hok).
  - intros v i. rw Hv. left. by eapply (ok_insts _ Hok).
  - rw /block_count Hb. apply (ok_block_bound _ Hok).
  - rw /value_count Hv. apply (ok_value_bound _ Hok).
  - rw /counted_move_outs Hv Hm. apply (ok_move_outs _ Hok).
Qed.

Lemma step_extra s : store_extends (extra c) s -> cfg_step c (set_extra s c).
Proof. intros. apply step_stores; solve [done | by split]. Qed.
Lemma step_call_args s : store_extends (call_args c) s -> cfg_step c (set_call_args s c).
Proof. intros. apply step_stores; solve [done | by split]. Qed.
Lemma step_switch_cases s : store_extends (switch_cases c) s -> cfg_step c (set_switch_cases s c).
Proof. intros. apply step_stores; solve [done | by split]. Qed.
Lemma step_projections s : store_extends (projections c) s -> cfg_step c (set_projections s c).
Proof. intros. apply step_stores; solve [done | by split]. Qed.

Lemma checked_owner_index_spec n : checked_owner_index n =
  if decide (Z.of_nat n < u32_max)%Z then Some n else None.
Proof.
  rw /checked_owner_index.
  destruct (Z.leb_spec (Z.of_nat n) u32_max), (Z.ltb_spec (Z.of_nat n) u32_max);
    simpl; case_decide; try done; lia.
Qed.

Lemma count_move_outs_app l i :
  length (filter (fun i => is_move_out (data i)) (l ++ [i])) =
  length (filter (fun i => is_move_out (data i)) l) + Nat.b2n (is_move_out (data i)).
Proof. rw filter_app length_app filter_cons filter_nil. by destruct (is_move_out (data i)). Qed.

Lemma step_add_inst i c' v : inst_ok c (data i) -> add_inst i c = (c', v) ->
  cfg_step c c' /\ blocks c' = blocks c /\ v < value_count c'.
Proof.
  rw /add_inst checked_owner_index_spec. intros Hi. case_decide as Hd; intros [= <- <-].
  - split; [|split; [done|rw /value_count /= length_app /=; lia]].
    split; [|split; try reflexivity; rw /value_count /= length_app; lia].
    apply (cfg_ok_intro c); [done|split; try reflexivity; rw /value_count /= length_app; lia| | | | |].
    + intros b l Hl. left. by apply (ok_blocks _ Hok).
    + simpl. intros u j [[_ ?]|[_ <-]]%lookup_snoc_Some; left; [by eapply (ok_insts _ Hok)|done].
    + apply (ok_block_bound _ Hok).
    + rw /value_count /= length_app /=. lia.
    + rw /counted_move_outs /= count_move_outs_app. f_equal. apply (ok_move_outs _ Hok).
  - split; [by apply step_stores|split; [done|]]. rw /value_count /=.
    change u32_max with (2 ^ 32 - 1)%Z in Hd. lia.
Qed.

Lemma step_update_block block f c' :
  update_block block f c = Some c' ->
  (forall b, blocks c !! block = Some b -> block_ok c block (f b)) ->
  cfg_step c c'.
Proof.
  rw /update_block. destruct (blocks c !! block) as [b|] eqn:Hb; simpl; [|done].
  intros [= <-] Hf.
  assert (cfg_extends c (set_blocks (<[block := f b]> (blocks c)) c)) as He.
  { split; try reflexivity. by rw /block_count /= length_insert. }
  split; [|done]. apply (cfg_ok_intro c); [done..| | | | |].
  - simpl. intros i l [(<- & <- & _)|(_ & Hl)]%list_lookup_insert_Some; left; [by apply Hf|].
    by apply (ok_blocks _ Hok).
  - intros v i Hl. left. by eapply (ok_insts _ Hok).
  - rw /block_count /= length_insert. apply (ok_block_bound _ Hok).
  - apply (ok_value_bound _ Hok).
  - apply (ok_move_outs _ Hok).
Qed.

Lemma filter_insert_length (P : CfgInst -> bool) l v i j :
  l !! v = Some i -> P i = P j -> length (filter P (<[v := j]> l)) = length (filter P l).
Proof.
  revert v. induction l as [|x l IH]; intros [|v] Hl Hp; simplify_eq/=; [|rw !filter_cons].
  - rw !filter_cons. by rw Hp; destruct (P j).
  - destruct (decide (P x)); simpl; [f_equal|]; by apply IH.
Qed.

Lemma step_replace_inst v i j :
  values c !! v = Some i -> inst_ok c (data j) ->
  is_move_out (data i) = is_move_out (data j) ->
  cfg_step c (set_values (<[v := j]> (values c)) c).
Proof.
  intros Hl Hj Hm.
  assert (cfg_extends c (set_values (<[v := j]> (values c)) c)) as He.
  { split; try reflexivity. by rw /value_count /= length_insert. }
  split; [|done]. apply (cfg_ok_intro c); [done..| | | | |].
  - intros u b Hb. left. by apply (ok_blocks _ Hok).
  - simpl. intros u k [(<- & <- & _)|(_ & Hk)]%list_lookup_insert_Some; left; [done|].
    by eapply (ok_insts _ Hok).
  - apply (ok_block_bound _ Hok).
  - rw /value_count /= length_insert. apply (ok_value_bound _ Hok).
  - rw /counted_move_outs /= (filter_insert_length (fun i => is_move_out (data i)) _ _ i) //.
    apply (ok_move_outs _ Hok).
Qed.
End Steps.

(** ** Reasoning about the monad *)

(** A fallible edit: on success [Q], on error the owner is untouched, and no
    panic. *)
Definition edit_spec {A} (m : editM A) (c : Cfg) (Q : A -> Cfg -> Prop) : Prop :=
  match m c with
  | (Ok a, c') => Q a c'
  | (Err _, c') => c' = c
  | (Panic, _) => False
  end.

(** A guard: it may fail but neither changes the owner nor panics. *)
Definition readonly {A} (m : editM A) : Prop :=
  forall c, snd (m c) = c /\ fst (m c) <> Panic.

Lemma spec_guard {A B} (m : editM A) (f : A -> editM B) c Q :
  readonly m -> (forall a, m c = (Ok a, c) -> edit_spec (f a) c Q) -> edit_spec (m ≫= f) c Q.
Proof.
  intros Hr Hf. destruct (Hr c) as [H1 H2]. rw /edit_spec /mbind /editM_bind.
  destruct (m c) as [[a|e|] c'] eqn:Hm; simpl in *; subst; [|done..]. by apply Hf.
Qed.

Lemma readonly_bind {A B} (m : editM A) (f : A -> editM B) :
  readonly m -> (forall a, readonly (f a)) -> readonly (m ≫= f).
Proof.
  intros Hm Hf c. destruct (Hm c) as [H1 H2]. rw /mbind /editM_bind.
  destruct (m c) as [[a|e|] c'] eqn:E; simpl in *; subst; [apply Hf|done..].
Qed.

Lemma readonly_ret {A} (a : A) : readonly (mret a).
Proof. done. Qed.
Lemma readonly_throw {A} e : readonly (throw (A := A) e).
Proof. done. Qed.
Lemma readonly_require ok e : readonly (require ok e).
Proof. intros c. rw /require. by destruct (ok c). Qed.
Lemma readonly_gets {A} (f : Cfg -> A) : readonly (gets f).
Proof. done. Qed.

Lemma require_true ok e c u : require ok e c = (Ok u, c) -> ok c = true.
Proof. rw /require. by destruct (ok c). Qed.

Section Guards.
Context `{Alloc} `{TypePool}.

Lemma stage_loop_result {E} op (staged vs : list E) :
  match stage_loop op staged vs with
  | Ok l => l = staged ++ vs
  | Err _ => True
  | Panic => False
  end.
Proof.
  revert staged. induction vs as [|v vs IH]; intros staged; simpl; [by rw app_nil_r|].
  destruct (_ =? _)%Z; [done|]. destruct (grant _ _); [|done].
  specialize (IH (staged ++ [v])). by rw -app_assoc in IH.
Qed.

Lemma readonly_stage {E} op (vs : list E) : readonly (stage op vs).
Proof.
  intros c. rw /stage /stage_edit. pose proof (stage_loop_result op [] vs).
  destruct (_ <? _)%Z; [done|]. destruct (grant _ _); [|done].
  split; [done|]. simpl. by destruct (stage_loop _ _ _).
Qed.

Lemma stage_Ok {E} op (vs l : list E) c : stage op vs c = (Ok l, c) -> l = vs.
Proof.
  rw /stage /stage_edit. pose proof (stage_loop_result op [] vs) as Hs.
  destruct (_ <? _)%Z; [done|]. destruct (grant _ _); [|done].
  intros [= Hl]. by rw Hl in Hs.
Qed.

Lemma readonly_preflight op block : readonly (preflight_append op block).
Proof. intros c. rw /preflight_append. by repeat case_match. Qed.

Lemma preflight_Ok op block c u : preflight_append op block c = (Ok u, c) ->
  block < block_count c.
Proof.
  rw /preflight_append. repeat case_match; try done. intros _. by eapply lookup_lt_Some.
Qed.

Lemma readonly_refs op refs : readonly (validate_value_refs op refs).
Proof. apply readonly_require. Qed.

Lemma refs_Ok op refs c u : validate_value_refs op refs c = (Ok u, c) ->
  Forall (fun v => v < value_count c) refs.
Proof.
  rw /validate_value_refs. intros Hr%require_true. rw forallb_forall in Hr. apply Forall_forall. intros v Hv.
  apply Nat.ltb_lt, Hr. by apply list_elem_of_In.
Qed.

Lemma readonly_place op b bty projs : readonly (validate_place_input op b bty projs).
Proof. intros c. rw /validate_place_input. by repeat case_match. Qed.

Lemma readonly_enum op e i : readonly (check_enum_variant op e i).
Proof. rw /check_enum_variant. repeat case_match; done. Qed.
End Guards.

Create HintDb edits.
#[export] Hint Resolve readonly_bind readonly_ret readonly_throw readonly_require readonly_gets
  readonly_stage readonly_preflight readonly_refs readonly_place readonly_enum : edits.

(** Consume the leading guards of an edit, keeping what they established. *)
Ltac next_guard :=
  apply spec_guard; [by auto with edits|];
  let a := fresh "a" in let Ha := fresh "Hg" in intros a Ha;
  first [apply stage_Ok in Ha; subst a
        | apply preflight_Ok in Ha
        | apply refs_Ok in Ha
        | apply require_true in Ha
        | idtac].

(** ** The mutating tail of an edit *)

(** From [c], [m] succeeds in a successor state satisfying [Q]. *)
Definition total {A} (m : editM A) (c : Cfg) (Q : A -> Cfg -> Prop) : Prop :=
  exists a c', m c = (Ok a, c') /\ Q a c'.

Lemma spec_push `{Alloc} {E F B} (get : Cfg -> Store E) put (vs : list E)
    (f : Range F -> editM B) c Q :
  (forall s' r, append (get c) vs = Ok (s', r) -> total (f r) (put s' c) Q) ->
  edit_spec (lift_push get put (fun s => push s vs) ≫= f) c Q.
Proof.
  intros Hf. rw /edit_spec /mbind /editM_bind /lift_push /push.
  pose proof (append_no_panic (F := F) (get c) vs) as Hn.
  destruct (append (get c) vs) as [[s' r]|e|] eqn:Ha; [|done..].
  destruct (Hf s' r eq_refl) as (b & c' & -> & HQ). done.
Qed.

Lemma total_ret {A} (a : A) c (Q : A -> Cfg -> Prop) : Q a c -> total (mret a) c Q.
Proof. intros. by exists a, c. Qed.

Lemma total_bind {A B} (m : editM A) (f : A -> editM B) c Q :
  total m c (fun a c' => total (f a) c' Q) -> total (m ≫= f) c Q.
Proof.
  intros (a & c' & Hm & b & c'' & Hf & HQ). exists b, c''.
  by rw /mbind /editM_bind Hm.
Qed.

Lemma total_modify (f : Cfg -> Cfg) c (Q : unit -> Cfg -> Prop) :
  Q tt (f c) -> total (modify f) c Q.
Proof. intros. by exists tt, (f c). Qed.

Lemma step_call_contract c c' v k : cfg_step c c' -> cfg_step c (set_call_contract v k c').
Proof.
  intros Hs. eapply cfg_step_trans; [exact Hs|]. by apply step_stores; [apply Hs|..].
Qed.

Lemma total_append_inst c block i : cfg_ok c -> block < block_count c -> inst_ok c (data i) ->
  total (append_inst block i) c (fun _ => cfg_step c).
Proof.
  intros Hok Hb Hi. rw /append_inst /total /run_state /add_inst_to_block.
  destruct (add_inst i c) as [c1 v] eqn:Ha.
  destruct (step_add_inst c Hok i c1 v Hi Ha) as (Hs1 & Hbl & Hv).
  destruct (update_block _ _ c1) as [c2|] eqn:Hu; simpl.
  - eexists _, _. split; [done|]. simpl. eapply cfg_step_trans; [done|].
    eapply step_update_block; [apply Hs1|done|].
    intros b Hlk. destruct (ok_blocks _ (proj1 Hs1) _ _ Hlk) as [H1 H2 H3 H4].
    split; [done| |done..]. simpl. apply Forall_app. split; [done|].
    by apply Forall_singleton.
  - rw /update_block in Hu. destruct (lookup_lt_is_Some_2 (blocks c1) block) as [b Hlk].
    { by rw Hbl. }
    by rw Hlk in Hu.
Qed.

Lemma total_from {A} (m : editM A) c c1 : cfg_step c c1 ->
  total m c1 (fun _ => cfg_step c1) -> total m c1 (fun _ => cfg_step c).
Proof.
  intros Hs (a & c2 & Hm & H2). exists a, c2. split; [done|]. by eapply cfg_step_trans.
Qed.

Lemma total_store_data OP value f c i d : cfg_ok c ->
  values c !! value = Some i -> f (data i) = Some d -> inst_ok c d ->
  is_move_out (data i) = is_move_out d ->
  total (store_data OP value f) c (fun _ => cfg_step c).
Proof.
  intros Hok Hv Hf Hd Hm. eexists tt, _. rw /store_data Hv Hf. split; [done|].
  by eapply step_replace_inst.
Qed.

Lemma set_terminator_step c c' block t : cfg_ok c -> term_ok c t ->
  set_terminator block t c = Some c' -> cfg_step c c'.
Proof.
  intros Hok Ht. rw /set_terminator.
  destruct (blocks c !! block) as [b|] eqn:Hb; simpl; [|done].
  destruct (is_open _); [|done]. intros Hu. eapply step_update_block; [done..|].
  intros b' Hb'. destruct (ok_blocks _ Hok _ _ Hb'). by split.
Qed.

Lemma set_terminator_None c block t :
  set_terminator block t c = None <-> block_is_open block c = false.
Proof.
  rw /set_terminator /block_is_open /update_block.
  destruct (blocks c !! block) as [b|] eqn:Hb; simpl; [|done].
  by destruct (is_open _).
Qed.

Lemma total_set_terminator c block t : cfg_ok c -> block_is_open block c = true -> term_ok c t ->
  total (run_update (set_terminator block t)) c (fun _ => cfg_step c).
Proof.
  intros Hok Hopen Ht. rw /total /run_update /run_state.
  destruct (set_terminator block t c) as [c'|] eqn:Hs; simpl.
  - exists tt, c'. split; [done|]. by eapply set_terminator_step.
  - apply set_terminator_None in Hs. congruence.
Qed.

Lemma target_is_true value kind c : target_is value kind c = true ->
  exists i, values c !! value = Some i /\ kind (data i) = true.
Proof.
  rw /target_is bool_decide_eq_true /target_data. intros [d Hd].
  destruct (values c !! value) as [i|]; simpl in *; [|done].
  exists i. by destruct (kind (data i)).
Qed.

Lemma blocks_in_bounds_true ids c : blocks_in_bounds ids c = true ->
  Forall (fun b => b < block_count c) ids.
Proof.
  rw /blocks_in_bounds forallb_forall Forall_forall. intros Hf b Hb.
  apply Nat.ltb_lt, Hf. by apply list_elem_of_In.
Qed.

(** Every push leaves a successor owner in which the new handle is good. *)
Section PushSteps.
Context `{Alloc} (c : Cfg) (Hok : cfg_ok c).

Lemma push_extra_step {F} vs s' (r : Range F) : append (extra c) vs = Ok (s', r) ->
  cfg_step c (set_extra s' c) /\ range_ok (extra (set_extra s' c)) r.
Proof.
  intros Ha. split; [|by eapply append_range_ok].
  apply step_extra; [done|]. by eapply append_store_extends.
Qed.

Lemma push_call_args_step vs s' (r : Range FCallArgs) : append (call_args c) vs = Ok (s', r) ->
  cfg_step c (set_call_args s' c) /\ range_ok (call_args (set_call_args s' c)) r.
Proof.
  intros Ha. split; [|by eapply append_range_ok].
  apply step_call_args; [done|]. by eapply append_store_extends.
Qed.

Lemma push_projections_step vs s' (r : Range FProjections) : append (projections c) vs = Ok (s', r) ->
  cfg_step c (set_projections s' c) /\ range_ok (projections (set_projections s' c)) r.
Proof.
  intros Ha. split; [|by eapply append_range_ok].
  apply step_projections; [done|]. by eapply append_store_extends.
Qed.
End PushSteps.

(** Push the payload and step to the owner that holds it. *)
Ltac push_step Hok :=
  apply spec_push; let s := fresh "s" in let r := fresh "r" in let Ha := fresh "Happ" in
  intros s r Ha;
  let Hs := fresh "Hs" in let Hr := fresh "Hr" in
  first [destruct (push_extra_step _ Hok _ _ _ Ha) as [Hs Hr]
        | destruct (push_call_args_step _ Hok _ _ _ Ha) as [Hs Hr]
        | destruct (push_projections_step _ Hok _ _ _ Ha) as [Hs Hr]];
  apply (total_from _ _ _ Hs).

(** The tails of the [append_*] and [replace_*] operations. *)
Ltac finish_append Hok :=
  push_step Hok; apply total_append_inst;
  match goal with Hs : cfg_step _ _ |- _ => first [done | apply Hs] end.
Ltac finish_replace Hok :=
  push_step Hok;
  match goal with
  | Hs : cfg_step _ _, Hv : values _ !! _ = Some _ |- _ =>
      eapply total_store_data; [apply Hs|exact Hv|reflexivity|done|reflexivity]
  end.

Section EditSteps.
Context `{Alloc} `{TypePool} (c : Cfg) (Hok : cfg_ok c).
Notation good m := (edit_spec m c (fun _ => cfg_step c)).

Lemma append_call_good block runtime name args t sp :
  good (append_call block runtime name args t sp).
Proof.
  rw /append_call. next_guard. next_guard. next_guard.
  apply spec_guard; [done|]. intros c0 [= <-].
  assert (exists l, mapM (fun a => i ← get_inst c (arg_value a);
                         Some (mkContractArg (ty i) (arg_mode a))) args = Some l) as [l Hl].
  { apply mapM_is_Some_2. rw Forall_fmap in Hg. eapply Forall_impl; [exact Hg|].
    simpl. intros x Ha. apply lookup_lt_is_Some_2 in Ha as [i Hi].
    rw /get_inst Hi. by eexists. }
  rw /id Hl. apply spec_guard; [done|]. intros a2 [= <-].
  apply spec_push. intros s' r Happ.
  destruct (push_call_args_step c Hok _ _ _ Happ) as [Hs Hr].
  apply (total_bind (append_inst _ _)).
  destruct (total_append_inst (set_call_args s' c) block (mkInst (ICall runtime name r) t sp))
    as (v & c2 & Hv & H2); [apply Hs|done|exact Hr|].
  exists v, c2. split; [done|]. apply total_bind, total_modify, total_ret.
  apply step_call_contract. by eapply cfg_step_trans.
Qed.

Lemma append_intrinsic_good block op name args t sp :
  good (append_intrinsic_operation block op name args t sp).
Proof. rw /append_intrinsic_operation. do 3 next_guard. finish_append Hok. Qed.

Lemma append_struct_init_good block id fields t sp :
  good (append_struct_init block id fields t sp).
Proof. rw /append_struct_init. do 3 next_guard. finish_append Hok. Qed.

Lemma append_array_good block els shape t sp :
  good (append_array_init_shaped block els shape t sp).
Proof. rw /append_array_init_shaped. do 3 next_guard. finish_append Hok. Qed.

Lemma append_enum_good block e i payload t sp :
  good (append_enum_variant block e i payload t sp).
Proof. rw /append_enum_variant. do 4 next_guard. finish_append Hok. Qed.

Lemma append_place_read_good block b bty projs t sp :
  good (append_place_read block b bty projs t sp).
Proof. rw /append_place_read. do 3 next_guard. finish_append Hok. Qed.

Ltac target Hg :=
  let i := fresh "i" in let Hv := fresh "Hv" in let Hk := fresh "Hk" in
  apply target_is_true in Hg as (i & Hv & Hk);
  destruct i as [d ity isp]; destruct d; try discriminate Hk.

Lemma replace_call_args_good value vs : good (replace_call_args value vs).
Proof. rw /replace_call_args. do 3 next_guard. target Hg; finish_replace Hok. Qed.

Lemma replace_intrinsic_args_good value vs : good (replace_intrinsic_args value vs).
Proof. rw /replace_intrinsic_args. do 3 next_guard. target Hg; finish_replace Hok. Qed.

Lemma replace_struct_fields_good value vs : good (replace_struct_fields value vs).
Proof. rw /replace_struct_fields. do 3 next_guard. target Hg; finish_replace Hok. Qed.

Lemma replace_place_read_good value b bty projs : good (replace_place_read value b bty projs).
Proof. rw /replace_place_read. do 3 next_guard. target Hg; finish_replace Hok. Qed.

Lemma replace_place_write_good i b bty projs v : good (replace_place_write i b bty projs v).
Proof. rw /replace_place_write. do 4 next_guard. target Hg; finish_replace Hok. Qed.

Lemma replace_inst_type_good value t : good (replace_inst_type value t).
Proof.
  rw /edit_spec /replace_inst_type. destruct (values c !! value) as [i|] eqn:Hv; [|done].
  eapply step_replace_inst; [done..| |done]. exact (ok_insts _ Hok _ _ Hv).
Qed.

Lemma total_spec {A} (m : editM A) Q : total m c Q -> edit_spec m c Q.
Proof. intros (a & c' & Hm & HQ). by rw /edit_spec Hm. Qed.

Lemma replace_int_cast_good value operand from_ty : good (replace_int_cast value operand from_ty).
Proof.
  rw /replace_int_cast. do 3 next_guard. target Hg1.
  apply total_spec. by eapply total_store_data.
Qed.

Lemma target_data_Some value kind d : target_data value kind c = Some d ->
  kind d = true /\ exists i, values c !! value = Some i /\ data i = d.
Proof.
  rw /target_data. destruct (values c !! value) as [i|]; simpl; [|done].
  destruct (kind (data i)) eqn:Hk; [|done]. intros [= <-]. eauto.
Qed.

Lemma replace_array_elements_good value vs : good (replace_array_elements value vs).
Proof.
  rw /replace_array_elements. apply spec_guard; [done|]. intros o [= <-].
  destruct (target_data _ _ _) as [d|] eqn:Ht; [|done].
  destruct (target_data_Some _ _ _ Ht) as (Hk & [d' ity isp] & Hv & <-).
  destruct d'; try discriminate Hk. do 3 next_guard. finish_replace Hok.
Qed.

Lemma replace_enum_payload_good value vs : good (replace_enum_payload value vs).
Proof.
  rw /replace_enum_payload. apply spec_guard; [done|]. intros o [= <-].
  destruct (target_data _ _ _) as [d|] eqn:Ht; [|done].
  destruct (target_data_Some _ _ _ Ht) as (Hk & [d' ity isp] & Hv & <-).
  destruct d'; try discriminate Hk. do 3 next_guard. finish_replace Hok.
Qed.

Lemma try_set_goto_good block target args : good (try_set_goto block target args).
Proof.
  rw /try_set_goto. do 4 next_guard.
  apply blocks_in_bounds_true in Hg. rw !Forall_cons in Hg. destruct Hg as (_ & Ht & _).
  push_step Hok. by apply total_set_terminator; [apply Hs|..].
Qed.

Lemma try_set_switch_good block v cases d : good (try_set_switch block v cases d).
Proof.
  rw /try_set_switch. do 5 next_guard.
  apply blocks_in_bounds_true in Hg. rw !Forall_cons in Hg. destruct Hg as (_ & Ht & _).
  apply blocks_in_bounds_true in Hg2.
  apply spec_push. intros s r Ha. destruct (append_range_ok _ _ _ _ Ha) as [Hr Hd].
  assert (cfg_step c (set_switch_cases s c)) as Hs.
  { apply step_switch_cases; [done|]. by eapply append_store_extends. }
  apply (total_from _ _ _ Hs), total_set_terminator; [apply Hs|done|].
  split_and!; [done..|]. simpl. rw Hd. rw Forall_fmap in Hg2. done.
Qed.
End EditSteps.

(** [Vec::try_reserve]: once [a + b] more elements are granted, appending [a]
    and then [b] of them stays within the reserved capacity. *)
Class AllocLaws `{Alloc} : Prop :=
  grant_split : forall len a b,
    grant len (a + b) = true -> grant len a = true /\ grant (len + a) b = true.

Lemma reserve_Ok `{Alloc} {E} (s : Store E) family n u : store_reserve s family n = Ok u ->
  (store_len s + Z.of_nat n <= u32_max)%Z /\ grant (length (store_elements s)) n = true.
Proof.
  rw /store_reserve. destruct (checked_u _ _) as [e|] eqn:He; [|done].
  apply checked_u_Some in He as [-> _].
  destruct (Z.ltb_spec u32_max (store_len s + Z.of_nat n)); [done|].
  destruct (grant _ _); [|done]. intros _. split; [lia|done].
Qed.

Lemma append_succeeds `{Alloc} {E} F (s : Store E) vs :
  (store_len s + Z.of_nat (length vs) <= u32_max)%Z ->
  grant (length (store_elements s)) (length vs) = true ->
  exists s' (r : Range F), append s vs = Ok (s', r) /\ store_elements s' = store_elements s ++ vs.
Proof.
  intros Hl Hg. destruct (decide (vs = [])) as [->|Hne].
  - exists s, EMPTY. split; [done|by rw app_nil_r].
  - eexists _, _. split; [apply append_Ok; right; by split_and!|done].
Qed.

Lemma try_set_branch_good `{AllocLaws} `{TypePool} c block cond tb ta eb ea : cfg_ok c ->
  edit_spec (try_set_branch block cond tb ta eb ea) c (fun _ => cfg_step c).
Proof.
  intros Hok. rw /try_set_branch. do 8 next_guard.
  apply blocks_in_bounds_true in Hg. rw !Forall_cons in Hg. destruct Hg as (_ & Htb & Heb & _).
  apply spec_guard.
  { intros c'. rw /reserve_values /store_reserve. by repeat case_match. }
  intros u Hres. rw /reserve_values in Hres.
  destruct (store_reserve _ _ _) eqn:Hr in Hres; [|done..].
  apply reserve_Ok in Hr as [Hl Hgr]. apply grant_split in Hgr as [Hga Hgb].
  apply spec_push. intros s r Ha.
  destruct (push_extra_step c Hok _ _ _ Ha) as [Hs Hrok].
  pose proof (append_extends _ _ _ _ Ha) as Hext.
  apply (total_from _ _ _ Hs).
  destruct (append_succeeds FElseArgs s ea) as (s2 & r2 & Ha2 & _).
  { rw /store_len Hext length_app. rw /store_len in Hl. lia. }
  { by rw Hext length_app. }
  set (c1 := set_extra s c) in *.
  destruct (push_extra_step c1 (proj1 Hs) _ _ _ Ha2) as [Hs2 Hrok2].
  destruct (total_set_terminator (set_extra s2 c1) block (Branch cond tb r eb r2))
    as (u' & c2 & Hc2 & Hstep); [apply Hs2|done| |].
  { split_and!; [done..| |done]. eapply range_ok_extends; [|exact Hrok].
    by eapply append_store_extends. }
  exists u', c2. rw /mbind /editM_bind /push_else_args /push_extra /lift_push /push Ha2 Hc2.
  split; [done|]. by eapply cfg_step_trans.
Qed.

(** ** The edit API as a step function *)

Inductive edit :=
| EdNewBlock
| EdAppendInst (block : BlockId) (i : CfgInst)
| EdBlockParam (block : BlockId) (t : Type_)
| EdTempSlots (slots : Z)
| EdCall (block : BlockId) (runtime : option RuntimeCallKind) (name : Spur)
    (args : list CfgCallArg) (t : Type_) (sp : Span)
| EdIntrinsic (block : BlockId) (op : IntrinsicOperation) (name : Spur) (args : list CfgValue)
    (t : Type_) (sp : Span)
| EdStructInit (block : BlockId) (id : StructId) (fields : list CfgValue) (t : Type_) (sp : Span)
| EdArrayInit (block : BlockId) (els : list CfgValue) (t : Type_) (sp : Span)
| EdArrayRepeat (block : BlockId) (v : CfgValue) (t : Type_) (sp : Span)
| EdEnumVariant (block : BlockId) (id : EnumId) (index : nat) (payload : list CfgValue)
    (t : Type_) (sp : Span)
| EdPlaceRead (block : BlockId) (b : PlaceBase) (bty : Type_) (projs : list Projection)
    (t : Type_) (sp : Span)
| EdReplaceCall (v : CfgValue) (args : list CfgCallArg)
| EdReplaceIntrinsic (v : CfgValue) (args : list CfgValue)
| EdReplaceType (v : CfgValue) (t : Type_)
| EdReplaceIntCast (v operand : CfgValue) (from_ty : Type_)
| EdReplaceStruct (v : CfgValue) (fields : list CfgValue)
| EdReplaceArray (v : CfgValue) (els : list CfgValue)
| EdReplaceEnum (v : CfgValue) (payload : list CfgValue)
| EdReplacePlaceRead (v : CfgValue) (b : PlaceBase) (bty : Type_) (projs : list Projection)
| EdReplacePlaceWrite (i : CfgValue) (b : PlaceBase) (bty : Type_) (projs : list Projection)
    (v : CfgValue)
| EdGoto (block target : BlockId) (args : list CfgValue)
| EdBranch (block : BlockId) (cond : CfgValue) (tb : BlockId) (ta : list CfgValue)
    (eb : BlockId) (ea : list CfgValue)
| EdSwitch (block : BlockId) (v : CfgValue) (cases : list (Z * BlockId)) (default : BlockId)
| EdReturn (block : BlockId) (v : option CfgValue)
| EdUnreachable (block : BlockId).

Definition void {A} (m : editM A) : editM unit := m ≫= fun _ => mret tt.

Definition run_edit `{Alloc} `{TypePool} (e : edit) : editM unit :=
  match e with
  | EdNewBlock => void (run_state (fun c => Some (new_block c)))
  | EdAppendInst block i => void (append_inst block i)
  | EdBlockParam block t => void (run_state (add_block_param block t))
  | EdTempSlots n => void (run_state (alloc_temp_local_slots n))
  | EdCall block rt name args t sp => void (append_call block rt name args t sp)
  | EdIntrinsic block op name args t sp => void (append_intrinsic_operation block op name args t sp)
  | EdStructInit block id fields t sp => void (append_struct_init block id fields t sp)
  | EdArrayInit block els t sp => void (append_array_init block els t sp)
  | EdArrayRepeat block v t sp => void (append_array_repeat block v t sp)
  | EdEnumVariant block id i payload t sp => void (append_enum_variant block id i payload t sp)
  | EdPlaceRead block b bty projs t sp => void (append_place_read block b bty projs t sp)
  | EdReplaceCall v args => replace_call_args v args
  | EdReplaceIntrinsic v args => replace_intrinsic_args v args
  | EdReplaceType v t => replace_inst_type v t
  | EdReplaceIntCast v operand t => replace_int_cast v operand t
  | EdReplaceStruct v fields => replace_struct_fields v fields
  | EdReplaceArray v els => replace_array_elements v els
  | EdReplaceEnum v payload => replace_enum_payload v payload
  | EdReplacePlaceRead v b bty projs => replace_place_read v b bty projs
  | EdReplacePlaceWrite i b bty projs v => replace_place_write i b bty projs v
  | EdGoto block target args => try_set_goto block target args
  | EdBranch block cond tb ta eb ea => try_set_branch block cond tb ta eb ea
  | EdSwitch block v cases d => try_set_switch block v cases d
  | EdReturn block v => run_update (set_return block v)
  | EdUnreachable block => run_update (set_unreachable block)
  end.

(** The documented misuse that asserts: naming a missing block in an
    infallible append, overwriting a real terminator, an empty or overflowing
    temporary frame region. *)
Definition asserts (e : edit) (c : Cfg) : bool :=
  match e with
  | EdAppendInst block _ | EdBlockParam block _ => negb (block <? block_count c)
  | EdReturn block _ | EdUnreachable block => negb (block_is_open block c)
  | EdTempSlots n => negb ((0 <? n)%Z && in_ub 32 (num_locals c + n))
  | _ => false
  end.

(** A raw instruction handed to [append_inst] carries no foreign payload. *)
Definition edit_input_ok (e : edit) (c : Cfg) : Prop :=
  match e with EdAppendInst _ i => inst_ok c (data i) | _ => True end.

(** The outcome every edit promises. *)
Definition edit_outcome (e : edit) (c : Cfg) (r : res CfgEditError unit * Cfg) : Prop :=
  match r with
  | (Ok _, c') => cfg_ok c' /\ cfg_extends c c'
  | (Err _, c') => c' = c
  | (Panic, _) => asserts e c = true
  end.

Section Outcome.
Context `{AllocLaws} `{TypePool} (c : Cfg) (Hok : cfg_ok c).

Lemma step_new_block : cfg_step c (fst (new_block c)).
Proof.
  rw /new_block checked_owner_index_spec //. case_decide as Hd; simpl.
  - assert (cfg_extends c (set_blocks (blocks c ++ [block_new (length (blocks c))]) c)) as He.
    { split; try reflexivity. rw /block_count /= length_app. lia. }
    split; [|done]. apply (cfg_ok_intro c); [done..| | | | |].
    + simpl. intros i b [[_ Hb]|[-> <-]]%lookup_snoc_Some; [left; by apply (ok_blocks _ Hok)|right].
      by split; try apply Forall_nil_2.
    + intros v i Hv. left. by eapply (ok_insts _ Hok).
    + rw /block_count /= length_app /=. lia.
    + apply (ok_value_bound _ Hok).
    + apply (ok_move_outs _ Hok).
  - by apply step_stores.
Qed.

Lemma update_block_None block f c' : blocks c' = blocks c ->
  update_block block f c' = None -> (block <? block_count c) = false.
Proof.
  rw /update_block. intros ->. destruct (blocks c !! block) eqn:Hb; simpl; [done|].
  intros _. apply Nat.ltb_ge. by apply lookup_ge_None.
Qed.

Lemma append_inst_outcome block i : inst_ok c (data i) ->
  edit_outcome (EdAppendInst block i) c (void (append_inst block i) c).
Proof.
  intros Hi. destruct (block <? block_count c) eqn:Hb.
  - apply Nat.ltb_lt in Hb. destruct (total_append_inst c block i Hok Hb Hi) as (v & c' & Hv & Hs).
    by rw /void /mbind /editM_bind Hv.
  - rw /void /append_inst /run_state /mbind /editM_bind. destruct (add_inst_to_block _ _ _) as [[c' v]|] eqn:Ha.
    + exfalso. rw /add_inst_to_block in Ha. destruct (add_inst i c) as [c1 v1] eqn:Hadd.
      destruct (step_add_inst c Hok i c1 v1 Hi Hadd) as (_ & Hbl & _).
      rw /update_block Hbl in Ha. apply Nat.ltb_ge in Hb.
      by rw (proj2 (lookup_ge_None _ _) Hb) in Ha.
    + simpl. by rw Hb.
Qed.

Lemma block_param_outcome block t :
  edit_outcome (EdBlockParam block t) c (void (run_state (add_block_param block t)) c).
Proof.
  rw /void /run_state /mbind /editM_bind /add_block_param.
  destruct (blocks c !! block) as [b|] eqn:Hb; simpl.
  - destruct (add_inst _ c) as [c1 v] eqn:Ha.
    destruct (step_add_inst c Hok (mkInst (IBlockParam (length (params b))) t (span_new 0 0))
                c1 v I Ha) as (Hs & Hbl & Hv).
    destruct (update_block _ _ c1) as [c2|] eqn:Hu; simpl.
    + eapply cfg_step_trans; [exact Hs|]. eapply step_update_block; [apply Hs|done|].
      intros b' Hb'. destruct (ok_blocks _ (proj1 Hs) _ _ Hb') as [H1' H2' H3' H4'].
      split; [done..| |done]. simpl. apply Forall_app. split; [done|].
      by apply Forall_singleton.
    + apply update_block_None in Hu; [|done]. by rw Hu.
  - rw (proj2 (Nat.ltb_ge _ _)) //. by apply lookup_ge_None.
Qed.

Lemma terminate_outcome block t : term_ok c t ->
  match run_update (set_terminator block t) c with
  | (Ok _, c') => cfg_ok c' /\ cfg_extends c c'
  | (Err _, c') => c' = c
  | (Panic, _) => negb (block_is_open block c) = true
  end.
Proof.
  intros Ht. rw /run_update /run_state.
  destruct (set_terminator block t c) as [c'|] eqn:Hs; simpl.
  - by apply set_terminator_step in Hs.
  - apply set_terminator_None in Hs. by rw Hs.
Qed.

Lemma spec_outcome e (m : editM unit) :
  edit_spec m c (fun _ => cfg_step c) -> edit_outcome e c (m c).
Proof. rw /edit_spec /edit_outcome. by destruct (m c) as [[]]. Qed.

Lemma spec_void_outcome e {A} (m : editM A) :
  edit_spec m c (fun _ => cfg_step c) -> edit_outcome e c (void m c).
Proof.
  rw /edit_spec /edit_outcome /void /mbind /editM_bind. by destruct (m c) as [[]].
Qed.

Lemma run_edit_outcome e : edit_input_ok e c -> edit_outcome e c (run_edit e c).
Proof.
  intros Hin. destruct e; simpl run_edit;
    try (apply spec_outcome; eauto using replace_call_args_good, replace_intrinsic_args_good,
           replace_inst_type_good, replace_int_cast_good, replace_struct_fields_good,
           replace_array_elements_good, replace_enum_payload_good, replace_place_read_good,
           replace_place_write_good, try_set_goto_good, try_set_branch_good,
           try_set_switch_good; fail);
    try (apply spec_void_outcome; eauto using append_call_good, append_intrinsic_good,
           append_struct_init_good, append_array_good, append_enum_good,
           append_place_read_good; fail).
  - pose proof step_new_block as Hs. rw /void /run_state /mbind /editM_bind.
    by destruct (new_block c).
  - by apply append_inst_outcome.
  - by apply block_param_outcome.
  - rw /void /run_state /mbind /editM_bind /alloc_temp_local_slots /checked_u.
    destruct (Z.ltb_spec 0 slots) as [Hlt|Hge]; simpl.
    + destruct (in_ub 32 _) eqn:Hub; simpl; [|by rw Hub (proj2 (Z.ltb_lt 0 slots) Hlt)].
      by apply step_stores.
    + by rw (proj2 (Z.ltb_ge 0 slots) Hge).
  - by apply (terminate_outcome block (Return v)).
  - by apply (terminate_outcome block Unreachable).
Qed.
End Outcome.

(** Owners built from a fresh one by successful edits. *)
Inductive built `{Alloc} `{TypePool} : Cfg -> Prop :=
| built_new owner ret locals params name modes :
    built (cfg_new owner ret locals params name modes)
| built_edit c e c' :
    built c -> edit_input_ok e c -> run_edit e c = (Ok tt, c') -> built c'.

Lemma cfg_new_ok owner ret locals params name modes :
  cfg_ok (cfg_new owner ret locals params name modes).
Proof. by split. Qed.

Lemma built_cfg_ok `{AllocLaws} `{TypePool} c : built c -> cfg_ok c.
Proof.
  induction 1 as [|c e c' _ IH Hin Hrun]; [apply cfg_new_ok|].
  pose proof (run_edit_outcome c IH e Hin) as Ho. rw Hrun in Ho. apply Ho.
Qed.

(** ** Properties *)

(** C26.  Every edit of the owner is atomic and safe: on success the new owner
    is well formed (dense ids, attached values and targets in range, every
    payload handle decodable, exact move-out count) and extends the old one,
    on error the owner is exactly the one before the call, and the only panics
    are the documented assertions. *)
Theorem edit_atomic_safe `{AllocLaws} `{TypePool} (e : edit) (c : Cfg)
    (Hok : cfg_ok c) (Hin : edit_input_ok e c) :
  edit_outcome e c (run_edit e c).
Proof. by apply run_edit_outcome. Qed.

(** C33.  Every owner the edit API can build is well formed, and none of its
    payload accessors panics: each attached block has a decodable terminator
    and each instruction a decodable payload. *)
Theorem built_owner_well_formed `{AllocLaws} `{TypePool} (c : Cfg) (Hb : built c) :
  cfg_ok c /\
  (forall b, b < block_count c -> exists succs, visit_successors c b = Some succs /\
     Forall (fun s => s < block_count c) succs) /\
  (forall v i, values c !! v = Some i -> inst_ok c (data i)).
Proof.
  pose proof (built_cfg_ok c Hb) as Hok. split; [done|]. split; [|apply Hok].
  intros b [blk Hblk]%lookup_lt_is_Some_2. rw /visit_successors /get_block Hblk /=.
  destruct (ok_blocks _ Hok _ _ Hblk) as [_ _ _ Ht].
  destruct (terminator blk); simpl in *; try (eexists; split; [done|]; by repeat constructor).
  - destruct Ht. eexists; split; [done|]. by repeat constructor.
  - destruct Ht as (?&?&_). eexists; split; [done|]. by repeat constructor.
  - destruct Ht as (Hd & Hr & Hf). rw /switch_cases_of (range_ok_view _ _ Hr) /=.
    eexists; split; [done|]. apply Forall_app. split; [|by repeat constructor].
    by rw Forall_fmap.
Qed.

(** ** A concrete owner *)

(** An allocator that never refuses and a pool where every type has one slot. *)
Definition unlimited : Alloc := fun _ _ => true.
Definition word_types : TypePool :=
  {| try_abi_slot_count := fun _ => Some 1%Z; try_enum_variant_count := fun _ => Some 2 |}.

Lemma unlimited_laws : @AllocLaws unlimited.
Proof. by intros len a b. Qed.

Definition sample_edits : list edit :=
  [EdNewBlock; EdNewBlock;
   EdAppendInst 0 (mkInst (IConst 7) TI32 (span_new 0 0));
   EdBlockParam 1 TI32;
   EdArrayInit 0 [0; 0] TI32 (span_new 0 0);
   EdGoto 0 1 [0];
   EdReturn 1 (Some 1)].

Definition sample_empty : Cfg := cfg_new 0 TI32 0 0 "f" (mkModes [] []).

Fixpoint run_edits `{Alloc} `{TypePool} (es : list edit) (c : Cfg) : option Cfg :=
  match es with
  | [] => Some c
  | e :: es => match run_edit e c with (Ok _, c') => run_edits es c' | _ => None end
  end.

Definition sample : Cfg :=
  default sample_empty (run_edits (H := unlimited) (H0 := word_types) sample_edits sample_empty).

Lemma run_edits_built `{Alloc} `{TypePool} es c c' :
  built c -> Forall (fun e => forall c, edit_input_ok e c) es ->
  run_edits es c = Some c' -> built c'.
Proof.
  revert c. induction es as [|e es IH]; intros c Hb Hin Hr; simpl in *; [by simplify_eq|].
  apply Forall_cons in Hin as [He Hes].
  destruct (run_edit e c) as [[[]| |] c1] eqn:E; [|done..].
  by eapply IH; [eapply built_edit|..].
Qed.

Lemma sample_built : @built unlimited word_types sample.
Proof.
  apply (run_edits_built sample_edits sample_empty); [constructor| |by vm_compute].
  by repeat constructor.
Qed.

Lemma edit_atomic_safe_witness :
  cfg_ok sample /\ edit_input_ok (EdGoto 0 1 []) sample /\
  edit_outcome (EdGoto 0 1 []) sample
    (run_edit (H := unlimited) (H0 := word_types) (EdGoto 0 1 []) sample) /\
  fst (run_edit (H := unlimited) (H0 := word_types) (EdGoto 0 1 []) sample) =
    Err (invalid_edit "goto arguments" "block already has a terminator").
Proof.
  assert (cfg_ok sample) as Hok by exact (built_cfg_ok (H0 := unlimited_laws) sample sample_built).
  split; [exact Hok|split; [exact I|split; [|vm_compute; reflexivity]]].
  apply (edit_atomic_safe (H0 := unlimited_laws) (EdGoto 0 1 []) sample Hok I).
Defined.

Lemma built_owner_well_formed_witness :
  @built unlimited word_types sample /\ block_count sample = 2 /\ cfg_ok sample.
Proof.
  split; [exact sample_built|split; [reflexivity|]].
  apply (built_owner_well_formed (H0 := unlimited_laws) sample sample_built).
Defined.
