(* ===== verification/Worklist.v ===== *)
(** * Marking worklists

    The graph passes mark nodes with a stack worklist and a set of marks.
    This file states what a mark set promises (an interface its
    implementations discharge), models the two loop shapes the source uses
    (mark when popped, mark when pushed), and proves each total with explicit
    fuel and equal to reachability. *)

From S2P Require Import Prelude.

(** ** The interface of a mark set *)

Class MarkSet (S : Type) := {
  contains : S -> nat -> bool;
  insert_mark : S -> nat -> S;
  (** indices the representation can hold without growing *)
  holds : S -> nat -> Prop;
}.

Class MarkSetLaws (S : Type) `{MarkSet S} : Prop := {
  contains_insert : forall s i j, holds s i ->
    contains (insert_mark s i) j = bool_decide (i = j) || contains s j;
  holds_insert : forall s i j, holds s j -> holds (insert_mark s i) j;
}.

(** [Vec<bool>] indexed by id: a store outside it is a panic, so it only
    holds its own indices. *)
#[export] Instance bools_marks : MarkSet (list bool) := {|
  contains s i := default false (s !! i);
  insert_mark s i := <[i := true]> s;
  holds s i := i < length s;
|}.

#[export] Instance bools_laws : MarkSetLaws (list bool).
Proof.
  split; simpl.
  - intros s i j Hi. case_bool_decide as Hij; [subst j|].
    + by rw list_lookup_insert_eq.
    + by rw list_lookup_insert_ne.
  - intros s i j. by rw length_insert.
Qed.

Section Weight.
Context {S : Type} `{MarkSetLaws S} (n : nat) (w : nat -> nat).

(** The weight of the nodes below [n] that are not marked yet. *)
Definition unmarked (s : S) : nat :=
  sum_list (w <$> filter (fun v => negb (contains s v)) (seq 0 n)).

Lemma sum_filter_remove (p q : nat -> bool) v l :
  NoDup l -> v ∈ l -> p v = true -> (forall u, q u = negb (bool_decide (v = u)) && p u) ->
  sum_list (w <$> filter p l) = w v + sum_list (w <$> filter q l).
Proof.
  intros Hnd Hv Hp Hq. induction l as [|u l IH]; [by apply not_elem_of_nil in Hv|].
  apply NoDup_cons in Hnd as [Hu Hnd]. rw !filter_cons.
  apply elem_of_cons in Hv as [->|Hv].
  - rw Hp. rw (Hq u) bool_decide_true //=.
    f_equal. f_equal. f_equal. clear IH. induction l as [|x l IHl]; [done|].
    apply not_elem_of_cons in Hu as [Hne Hu]. apply NoDup_cons in Hnd as [_ Hnd].
    rw !filter_cons IHl // (Hq x) bool_decide_false //=.
  - assert (v <> u) as Hne by (intros ->; done).
    specialize (IH Hnd Hv). rw (Hq u) bool_decide_false //=. destruct (p u); [|done].
    change (w u + sum_list (w <$> filter p l) = w v + (w u + sum_list (w <$> filter q l))). lia.
Qed.

Lemma unmarked_insert s v : v < n -> contains s v = false -> holds s v ->
  unmarked s = w v + unmarked (insert_mark s v).
Proof.
  intros Hv Hs Hh. rw /unmarked.
  apply (sum_filter_remove (fun v => negb (contains s v))).
  - apply NoDup_seq.
  - by apply elem_of_seq; lia.
  - by rw Hs.
  - intros u. rw contains_insert //. by destruct (bool_decide (v = u)).
Qed.

Lemma unmarked_le (s : S) : unmarked s <= sum_list (w <$> seq 0 n).
Proof.
  rw /unmarked. induction (seq 0 n) as [|x l IH]; [done|]. rw filter_cons fmap_cons /=.
  destruct (decide _); [rw fmap_cons /=|]; lia.
Qed.
End Weight.

Lemma sum_ones k m : sum_list ((fun _ : nat => 1) <$> seq k m) = m.
Proof. revert k. induction m as [|m IH]; intros k; [done|]. by rw /= -{2}(IH (S k)). Qed.

(** ** Reachability *)

Section Reach.
Context (next : nat -> option (list nat)).

Definition edge (u v : nat) : Prop := exists l, next u = Some l /\ v ∈ l.
Definition reach_from (roots : list nat) (v : nat) : Prop :=
  exists r, r ∈ roots /\ rtc edge r v.

Lemma reach_edge roots u v : reach_from roots u -> edge u v -> reach_from roots v.
Proof. intros (r & Hr & Hp) He. exists r. split; [done|]. by eapply rtc_r. Qed.

Lemma reach_root roots r : r ∈ roots -> reach_from roots r.
Proof. intros Hr. exists r. split; [done|constructor]. Qed.

(** A set that contains the roots and is closed under edges contains
    everything reachable. *)
Lemma reach_closed roots (P : nat -> Prop) :
  (forall r, r ∈ roots -> P r) -> (forall u v, P u -> edge u v -> P v) ->
  forall v, reach_from roots v -> P v.
Proof. intros Hr Hc v (r & Hin & Hp). apply Hr in Hin. by induction Hp; eauto. Qed.
End Reach.

(** ** The loops *)

Section Loops.
Context {S : Type} `{MarkSetLaws S} (next : nat -> option (list nat)).

(** Mark when popped: [while let Some(v) = worklist.pop()] with an insert
    test, pushing every successor.  [None] is a panic or exhausted fuel. *)
Fixpoint pop_loop (fuel : nat) (s : S) (wl : list nat) : option S :=
  match fuel with
  | 0 => None
  | Datatypes.S f =>
      match wl with
      | [] => Some s
      | v :: wl' =>
          if contains s v then pop_loop f s wl'
          else us ← next v; pop_loop f (insert_mark s v) (rev us ++ wl')
      end
  end.

(** [if set.insert(u) { worklist.push(u) }]. *)
Definition mark_push (st : S * list nat) (u : nat) : S * list nat :=
  if contains (fst st) u then st else (insert_mark (fst st) u, u :: snd st).

(** Mark when pushed. *)
Fixpoint push_loop (fuel : nat) (s : S) (wl : list nat) : option S :=
  match fuel with
  | 0 => None
  | Datatypes.S f =>
      match wl with
      | [] => Some s
      | v :: wl' =>
          us ← next v;
          let st := fold_left mark_push us (s, wl') in
          push_loop f (fst st) (snd st)
      end
  end.

(** Nodes below [n] have successors below [n], and the set can hold them. *)
Definition next_ok (n : nat) : Prop :=
  forall v, v < n -> exists us, next v = Some us /\ Forall (fun u => u < n) us.
Definition fits (n : nat) (s : S) : Prop := forall v, v < n -> holds s v.

Lemma fits_insert n s v : fits n s -> fits n (insert_mark s v).
Proof. intros Hf u Hu. by apply holds_insert, Hf. Qed.

Definition out_degree (v : nat) : nat := match next v with Some us => length us | None => 0 end.

(** Every mark is reachable from the roots, the pending nodes are reachable,
    and a marked node's successors are marked or pending. *)
Record pop_inv (n : nat) (roots : list nat) (s : S) (wl : list nat) : Prop := {
  pop_sound : forall v, contains s v = true -> reach_from next roots v /\ v < n;
  pop_pending : forall v, v ∈ wl -> reach_from next roots v /\ v < n;
  pop_roots : forall r, r ∈ roots -> contains s r = true \/ r ∈ wl;
  pop_closed : forall u v, contains s u = true -> edge next u v -> contains s v = true \/ v ∈ wl;
  pop_fits : fits n s;
}.

Lemma pop_loop_correct n roots : next_ok n -> forall fuel s wl,
  pop_inv n roots s wl ->
  length wl + unmarked n (fun v => out_degree v) s < fuel ->
  exists s', pop_loop fuel s wl = Some s' /\
    (forall v, contains s' v = true <-> reach_from next roots v).
Proof.
  intros Hn. induction fuel as [|fuel IH]; intros s wl Hi Hf; [lia|].
  destruct wl as [|v wl]; simpl.
  - exists s. split; [done|]. intros v. split; [by intros [? _]%(pop_sound _ _ _ _ Hi)|].
    apply (reach_closed next roots (fun v => contains s v = true)).
    + intros r Hr. destruct (pop_roots _ _ _ _ Hi r Hr) as [?|Hx]; [done|by apply not_elem_of_nil in Hx].
    + intros u u' Hu He.
      destruct (pop_closed _ _ _ _ Hi u u' Hu He) as [?|Hx]; [done|by apply not_elem_of_nil in Hx].
  - destruct (pop_pending _ _ _ _ Hi v) as [Hrv Hvn]; [apply list_elem_of_here|].
    destruct (contains s v) eqn:Hc.
    + apply IH; [|simpl in Hf; lia]. destruct Hi as [H1 H2 H3 H4 H5]. split; [done| | | |done].
      * intros u Hu. apply H2. by apply list_elem_of_further.
      * intros r Hr. destruct (H3 r Hr) as [?|Hx]; [by left|].
        apply elem_of_cons in Hx as [->|?]; [by left|by right].
      * intros u u' Hu He. destruct (H4 u u' Hu He) as [?|Hx]; [by left|].
        apply elem_of_cons in Hx as [->|?]; [by left|by right].
    + destruct (Hn v Hvn) as (us & Hus & Hlt). rw Hus /=.
      assert (holds s v) as Hh by by apply (pop_fits _ _ _ _ Hi).
      apply IH.
      * destruct Hi as [H1 H2 H3 H4 H5].
        assert (forall x, x ∈ rev us ++ wl <-> x ∈ us \/ x ∈ wl) as Hin.
        { intros x. rw elem_of_app !list_elem_of_In. by rw -in_rev. }
        split.
        -- intros u. rw contains_insert // orb_true_iff bool_decide_eq_true.
           intros [<-|?]; [done|by apply H1].
        -- intros u [Hu|Hu]%Hin; [|by apply H2, list_elem_of_further]. split.
           ++ eapply reach_edge; [exact Hrv|]. by exists us.
           ++ rw Forall_forall in Hlt. by apply Hlt.
        -- intros r Hr. rw contains_insert // orb_true_iff bool_decide_eq_true Hin.
           destruct (H3 r Hr) as [?|Hx]; [tauto|]. apply elem_of_cons in Hx as [->|?]; tauto.
        -- intros u u' Hu He. rw contains_insert // orb_true_iff bool_decide_eq_true Hin.
           rw contains_insert // orb_true_iff bool_decide_eq_true in Hu. destruct Hu as [<-|Hu].
           ++ destruct He as (l & Hl & Hu'). simplify_eq. tauto.
           ++ destruct (H4 u u' Hu He) as [?|Hx]; [tauto|]. apply elem_of_cons in Hx as [->|?]; tauto.
        -- by apply fits_insert.
      * rw length_app length_rev. pose proof (unmarked_insert n (fun v => out_degree v) s v Hvn Hc Hh) as Hw.
        rw /out_degree Hus in Hw. rw /out_degree in Hf. simpl in Hf. rw /out_degree. lia.
Qed.

(** Marking one node's successors: the set gains exactly them, the stack gains
    the new ones, and the pending measure is unchanged. *)
Lemma mark_push_fold n us s wl s' wl' : Forall (fun u => u < n) us -> fits n s ->
  fold_left mark_push us (s, wl) = (s', wl') ->
  (forall v, contains s' v = true <-> contains s v = true \/ v ∈ us) /\
  (forall v, v ∈ wl' -> v ∈ wl \/ v ∈ us) /\ (forall v, v ∈ wl -> v ∈ wl') /\
  (forall v, contains s' v = true -> contains s v = true \/ v ∈ wl') /\
  fits n s' /\
  length wl' + unmarked n (fun _ => 1) s' = length wl + unmarked n (fun _ => 1) s.
Proof.
  revert s wl. induction us as [|u us IH]; intros s wl Hus Hfit; simpl.
  - intros [= <- <-]. split_and!; auto. intros v. rw elem_of_nil. tauto.
  - apply Forall_cons in Hus as [Hu Hus]. rw {2}/mark_push /=.
    destruct (contains s u) eqn:Hc.
    + intros Hf. destruct (IH _ _ Hus Hfit Hf) as (H1 & H2 & H3 & H4 & H5 & H6).
      split_and!; auto; intros v.
      * rw H1 elem_of_cons. split; [tauto|]. intros [?|[->|?]]; tauto.
      * rw elem_of_cons. intros Hv. destruct (H2 v Hv); tauto.
    + intros Hf. assert (holds s u) as Hh by by apply Hfit.
      destruct (IH _ _ Hus (fits_insert _ _ u Hfit) Hf) as (H1 & H2 & H3 & H4 & H5 & H6).
      split_and!; auto.
      * intros v. rw H1 contains_insert // orb_true_iff bool_decide_eq_true elem_of_cons.
        split; intros; naive_solver.
      * intros v Hv. rw elem_of_cons. destruct (H2 v Hv) as [[->|?]%elem_of_cons|?]; tauto.
      * intros v Hv. apply H3. by apply list_elem_of_further.
      * intros v Hv. destruct (H4 v Hv) as [Hm|?]; [|tauto].
        rw contains_insert // orb_true_iff bool_decide_eq_true in Hm.
        destruct Hm as [<-|?]; [|tauto]. right. apply H3, list_elem_of_here.
      * rw H6 (unmarked_insert n (fun _ => 1) s u) //=.
Qed.

Record push_inv (n : nat) (roots : list nat) (s : S) (wl : list nat) : Prop := {
  push_sound : forall v, contains s v = true -> reach_from next roots v /\ v < n;
  push_pending : forall v, v ∈ wl -> contains s v = true;
  push_roots : forall r, r ∈ roots -> contains s r = true;
  push_closed : forall u v, contains s u = true -> edge next u v -> contains s v = true \/ u ∈ wl;
  push_fits : fits n s;
}.

Lemma push_loop_correct n roots : next_ok n -> forall fuel s wl,
  push_inv n roots s wl ->
  length wl + unmarked n (fun _ => 1) s < fuel ->
  exists s', push_loop fuel s wl = Some s' /\
    (forall v, contains s' v = true <-> reach_from next roots v).
Proof.
  intros Hn. induction fuel as [|fuel IH]; intros s wl Hi Hf; [lia|].
  destruct wl as [|v wl]; simpl.
  - exists s. split; [done|]. intros v. split; [by intros [? _]%(push_sound _ _ _ _ Hi)|].
    apply (reach_closed next roots (fun v => contains s v = true)); [apply Hi|].
    intros u u' Hu He.
    destruct (push_closed _ _ _ _ Hi u u' Hu He) as [?|Hx]; [done|by apply not_elem_of_nil in Hx].
  - destruct Hi as [H1 H2 H3 H4 H5].
    pose proof (H2 v (list_elem_of_here _ _)) as Hv. destruct (H1 v Hv) as [Hrv Hvn].
    destruct (Hn v Hvn) as (us & Hus & Hlt). rw Hus /=.
    destruct (fold_left mark_push us (s, wl)) as [s' wl'] eqn:Hfold.
    destruct (mark_push_fold n us s wl s' wl' Hlt H5 Hfold) as (F1 & F2 & F3 & F4 & F5 & F6).
    simpl. apply IH; [|simpl in Hf; lia]. split; [| | | |done].
    + intros u [Hu|Hu]%F1; [by apply H1|]. split; [|by rw Forall_forall in Hlt; apply Hlt].
      eapply reach_edge; [exact Hrv|]. by exists us.
    + intros u Hu. apply F1. destruct (F2 u Hu) as [?|?]; [left|by right].
      by apply H2, list_elem_of_further.
    + intros r Hr. apply F1. left. by apply H3.
    + intros u u' Hu He. apply F4 in Hu as [Hu|Hu]; [|by right].
      destruct (H4 u u' Hu He) as [?|[->|?]%elem_of_cons].
      * left. apply F1. by left.
      * left. apply F1. right. destruct He as (l & Hl & Hin). by simplify_eq.
      * right. by apply F3.
Qed.

(** Entry conditions: an empty set with the roots on the stack, or the roots
    marked and pending. *)
Lemma pop_loop_from_empty n s roots fuel : next_ok n -> fits n s ->
  (forall v, contains s v = false) -> Forall (fun r => r < n) roots ->
  length roots + sum_list (out_degree <$> seq 0 n) < fuel ->
  exists s', pop_loop fuel s roots = Some s' /\
    (forall v, contains s' v = true <-> reach_from next roots v).
Proof.
  intros Hn Hfit He Hr Hf. apply (pop_loop_correct n); [done|split|].
  - intros v. by rw He.
  - intros v Hv. split; [by apply reach_root|]. rw Forall_forall in Hr. by apply Hr.
  - tauto.
  - intros u v. by rw He.
  - done.
  - pose proof (unmarked_le n out_degree s). rw /out_degree in H1 Hf *. lia.
Qed.

Lemma push_loop_from_marked n s wl fuel : next_ok n -> fits n s ->
  (forall v, contains s v = true <-> v ∈ wl) -> Forall (fun r => r < n) wl ->
  length wl + n < fuel ->
  exists s', push_loop fuel s wl = Some s' /\
    (forall v, contains s' v = true <-> reach_from next wl v).
Proof.
  intros Hn Hfit He Hr Hf. apply (push_loop_correct n); [done|split|].
  - intros v Hv%He. split; [by apply reach_root|]. rw Forall_forall in Hr. by apply Hr.
  - intros v. apply He.
  - intros v. apply He.
  - intros u v Hu _. right. by apply He.
  - done.
  - pose proof (unmarked_le n (fun _ => 1) s).
    rw sum_ones in H1. lia.
Qed.
End Loops.
