(* ===== verification/Cfg.v ===== *)
(** * Graph queries and whole-graph rewrites

    The operations of [crates/rue-cfg/src/inst.rs] that read or renumber the
    whole graph: predecessor tables, the blocks that can return, block
    compaction and the sweep that rewrites every value use. *)

From S2P Require Import Prelude IntegerSemantics Types Payload CfgData CfgEdit Worklist.
From stdpp Require Import strings gmap.
Import Machine.

(** ** Predecessors *)

Definition count_edge (counts : list nat) (target : BlockId) : option (list nat) :=
  n ← counts !! target; Some (<[target := S n]> counts).

Definition push_pred (id : BlockId) (preds : list (list BlockId)) (target : BlockId)
    : option (list (list BlockId)) :=
  row ← preds !! target; Some (<[target := row ++ [id]]> preds).

(** The counting pass only sizes the rows, but indexes them. *)
Definition compute_predecessors (cfg : Cfg) : option (list (list BlockId)) :=
  counts ← fold_opt (fun counts b =>
      targets ← successors_of_term cfg (terminator b); fold_opt count_edge counts targets)
    (replicate (length (blocks cfg)) 0) (blocks cfg);
  fold_opt (fun preds b =>
      targets ← successors_of_term cfg (terminator b); fold_opt (push_pred (block_id b)) preds targets)
    (replicate (length counts) []) (blocks cfg).

(** The [reaches] test of one candidate. *)
Definition pred_test (cfg : Cfg) (block : BlockId) (candidate : BasicBlock) : option bool :=
  match terminator candidate with
  | Goto target _ => Some (target =? block)
  | Branch _ t _ e _ => Some ((t =? block) || (e =? block))
  | Switch _ cases default =>
      if default =? block then Some true
      else cs ← switch_cases_of cfg cases; Some (existsb (fun c => c.2 =? block) cs)
  | Return _ | Unreachable | TermNone => Some false
  end.

Definition predecessors_of (cfg : Cfg) (block : BlockId) : option (list BlockId) :=
  fold_opt (fun preds candidate =>
      reaches ← pred_test cfg block candidate;
      Some (if (reaches : bool) then preds ++ [block_id candidate] else preds))
    [] (blocks cfg).

(** ** Blocks that can return *)

Definition is_return (t : Terminator) : bool :=
  match t with Return _ => true | _ => false end.

(** [returning[id]] for each seed, out of range a panic. *)
Definition mark_returning (returning : list bool) (id : BlockId) : option (list bool) :=
  _ ← returning !! id; Some (<[id := true]> returning).

(** The predecessor row of a popped block; every index is checked. *)
Definition returning_next (preds : list (list BlockId)) (n : nat) (block : nat)
    : option (list nat) :=
  row ← preds !! block; if forallb (fun p => p <? n) row then Some row else None.

Definition returning_blocks (cfg : Cfg) : option (list bool) :=
  let n := length (blocks cfg) in
  preds ← compute_predecessors cfg;
  let worklist := block_id <$> filter (fun b => is_return (terminator b)) (blocks cfg) in
  returning ← fold_opt mark_returning (replicate n false) worklist;
  push_loop (returning_next preds n) (S (2 * n)) returning (rev worklist).

(** ** The successor function of a well-formed graph *)

Definition succs (cfg : Cfg) (b : BasicBlock) : list BlockId :=
  default [] (successors_of_term cfg (terminator b)).

Lemma term_ok_succs cfg t : term_ok cfg t ->
  exists l, successors_of_term cfg t = Some l /\ Forall (fun s => s < block_count cfg) l.
Proof.
  destruct t; simpl; try (intros; eexists; split; [done|]; by repeat constructor).
  - intros []. eexists; split; [done|]. by repeat constructor.
  - intros (?&?&_). eexists; split; [done|]. by repeat constructor.
  - intros (Hd & Hr & Hf). rw /switch_cases_of (range_ok_view _ _ Hr) /=.
    eexists; split; [done|]. apply Forall_app. split; [|by repeat constructor].
    by rw Forall_fmap.
Qed.

Section Queries.
Context (cfg : Cfg) (Hok : cfg_ok cfg).

Lemma block_ids_dense i b : blocks cfg !! i = Some b -> block_id b = i.
Proof. intros Hb. apply (ok_blocks _ Hok _ _ Hb). Qed.

Lemma succs_total b : b ∈ blocks cfg ->
  successors_of_term cfg (terminator b) = Some (succs cfg b) /\
  Forall (fun s => s < block_count cfg) (succs cfg b).
Proof.
  intros [i Hb]%list_elem_of_lookup. destruct (ok_blocks _ Hok _ _ Hb) as [_ _ _ Ht].
  destruct (term_ok_succs cfg _ Ht) as (l & Hl & Hf). by rw /succs Hl.
Qed.

(** The row of [t] after the blocks of [pre]: in block order, each source as
    often as it names [t]. *)
Definition pred_row (pre : list BasicBlock) (t : BlockId) : list BlockId :=
  concat ((fun b => (fun _ => block_id b) <$> filter (eq t) (succs cfg b)) <$> pre).

Lemma pred_row_snoc pre b t :
  pred_row (pre ++ [b]) t =
  pred_row pre t ++ ((fun _ => block_id b) <$> filter (eq t) (succs cfg b)).
Proof. rw /pred_row fmap_app concat_app /= app_nil_r //. Qed.

Lemma count_edges_total (counts : list nat) targets :
  Forall (fun s => s < length counts) targets ->
  exists counts', fold_opt count_edge counts targets = Some counts' /\
    length counts' = length counts.
Proof.
  revert counts. induction targets as [|t ts IH]; intros counts Hf; simpl; [by eexists|].
  apply Forall_cons in Hf as [Ht Hts].
  destruct (lookup_lt_is_Some_2 counts t Ht) as [n Hn]. rw /count_edge Hn /=.
  destruct (IH (<[t := S n]> counts)) as (c' & Hc' & Hl); [by rw length_insert|].
  exists c'. split; [done|]. by rw Hl length_insert.
Qed.

Lemma push_preds_total id preds targets :
  Forall (fun s => s < length preds) targets ->
  exists preds', fold_opt (push_pred id) preds targets = Some preds' /\
    length preds' = length preds /\
    forall t row, preds !! t = Some row ->
      preds' !! t = Some (row ++ ((fun _ => id) <$> filter (eq t) targets)).
Proof.
  revert preds. induction targets as [|u us IH]; intros preds Hf; simpl.
  - exists preds. split_and!; auto. intros t row. by rw app_nil_r.
  - apply Forall_cons in Hf as [Hu Hus].
    destruct (lookup_lt_is_Some_2 preds u Hu) as [r Hr]. rw /push_pred Hr /=.
    destruct (IH (<[u := r ++ [id]]> preds)) as (p' & Hp' & Hl & Hrow); [by rw length_insert|].
    exists p'. split_and!; [done|by rw Hl length_insert|].
    intros t row Ht. rw filter_cons. destruct (decide (t = u)) as [->|Hne].
    + simplify_eq. rw (Hrow u (r ++ [id])).
      * by rw fmap_cons -app_assoc.
      * by rw list_lookup_insert_eq.
    + apply Hrow. by rw list_lookup_insert_ne.
Qed.

Lemma compute_predecessors_total :
  exists preds, compute_predecessors cfg = Some preds /\ length preds = block_count cfg /\
    forall t, t < block_count cfg -> preds !! t = Some (pred_row (blocks cfg) t).
Proof.
  rw /compute_predecessors.
  assert (forall b pre post, blocks cfg = pre ++ b :: post ->
    successors_of_term cfg (terminator b) = Some (succs cfg b) /\
    Forall (fun s => s < block_count cfg) (succs cfg b)) as Hs.
  { intros b pre post Hb. apply succs_total. rw Hb. set_solver. }
  edestruct (fold_opt_total (fun counts b =>
      targets ← successors_of_term cfg (terminator b); fold_opt count_edge counts targets)
    (fun _ counts => length counts = block_count cfg) (blocks cfg)
    (replicate (length (blocks cfg)) 0)) as (counts & -> & Hc).
  - by rw length_replicate.
  - intros pre b t [post Hb] Ht. destruct (Hs b pre post Hb) as [-> Hf]. simpl.
    destruct (count_edges_total t (succs cfg b)) as (c' & ? & ?); [by rw Ht|].
    exists c'. split; [done|lia].
  - simpl. rw Hc.
    edestruct (fold_opt_total (fun preds b =>
        targets ← successors_of_term cfg (terminator b);
        fold_opt (push_pred (block_id b)) preds targets)
      (fun pre preds => length preds = block_count cfg /\
         forall t, t < block_count cfg -> preds !! t = Some (pred_row pre t)) (blocks cfg)
      (replicate (block_count cfg) [])) as (preds & Hp & Hl & Hrow).
    + rw length_replicate. split; [done|]. intros t Ht. by apply lookup_replicate_2.
    + intros pre b p [post Hb] [Hl Hrow]. destruct (Hs b pre post Hb) as [-> Hf]. simpl.
      destruct (push_preds_total (block_id b) p (succs cfg b)) as (p' & Hp' & Hl' & Hr');
        [by rw Hl|].
      exists p'. split; [done|]. split; [lia|]. intros t Ht.
      rw pred_row_snoc. apply Hr', Hrow. done.
    + exists preds. by rw Hp.
Qed.

Lemma elem_of_pred_row t p :
  p ∈ pred_row (blocks cfg) t <-> exists b, blocks cfg !! p = Some b /\ t ∈ succs cfg b.
Proof.
  rw /pred_row list_elem_of_In in_concat. split.
  - intros (row & Hrow & Hp). rw -!list_elem_of_In in Hrow Hp. apply list_elem_of_fmap in Hrow as (b & -> & Hb).
    apply list_elem_of_fmap in Hp as (t' & -> & Ht). apply list_elem_of_filter in Ht as [<- Ht].
    apply list_elem_of_lookup in Hb as [i Hb]. exists b. by rw (block_ids_dense _ _ Hb).
  - intros (b & Hb & Ht). exists ((fun _ => block_id b) <$> filter (eq t) (succs cfg b)).
    rw -!list_elem_of_In. split.
    + apply list_elem_of_fmap. exists b. split; [done|]. by eapply list_elem_of_lookup_2.
    + apply list_elem_of_fmap. exists t. split; [by rw (block_ids_dense _ _ Hb)|].
      by apply list_elem_of_filter.
Qed.

(** The test of [predecessors_of] is membership in the successors. *)
Lemma reaches_spec t b : b ∈ blocks cfg -> pred_test cfg t b = Some (bool_decide (t ∈ succs cfg b)).
Proof.
  intros Hb. destruct (succs_total b Hb) as [Hs _]. rw /pred_test.
  assert (forall u, (u =? t) = bool_decide (t = u)) as Heq.
  { intros u. case_bool_decide as E; [subst; apply Nat.eqb_refl|].
    apply Nat.eqb_neq. congruence. }
  destruct (terminator b) as [tg ?|? tb ? eb ?|? cs d|?| |]; simpl in Hs |- *.
  - injection Hs as <-. rw Heq. f_equal. apply bool_decide_ext. set_solver.
  - injection Hs as <-. rw !Heq -bool_decide_or. f_equal. apply bool_decide_ext. set_solver.
  - destruct (switch_cases_of cfg cs) as [l|]; simpl in *; [|done]. injection Hs as <-.
    rw Heq. case_bool_decide as Hd; simpl.
    + f_equal. symmetry. apply bool_decide_eq_true. set_solver.
    + f_equal. apply eq_true_iff_eq. rw existsb_exists bool_decide_eq_true.
      split.
      * intros ([v u] & Hin & Hu). rw /= Heq bool_decide_eq_true in Hu. subst u.
        apply elem_of_app. left. apply list_elem_of_fmap. exists (v, t). by rw list_elem_of_In.
      * intros [Hin|Hin]%elem_of_app; [|set_solver].
        apply list_elem_of_fmap in Hin as ([v u] & -> & Hin). exists (v, u).
        by rw -list_elem_of_In /= Nat.eqb_refl.
  - injection Hs as <-. done.
  - injection Hs as <-. done.
  - injection Hs as <-. done.
Qed.

Lemma predecessors_of_total t :
  predecessors_of cfg t = Some (block_id <$> filter (fun b => t ∈ succs cfg b) (blocks cfg)).
Proof.
  rw /predecessors_of.
  destruct (fold_opt_total (fun preds candidate =>
      reaches ← pred_test cfg t candidate;
      Some (if (reaches : bool) then preds ++ [block_id candidate] else preds))
    (fun pre preds => preds = block_id <$> filter (fun b => t ∈ succs cfg b) pre) (blocks cfg) [])
    as (r & -> & ->); [done| |done].
  intros pre b r [post Hb] ->. rw reaches_spec /=; [|rw Hb; set_solver].
  eexists. split; [done|]. rw filter_app fmap_app filter_cons filter_nil.
  case_bool_decide; case_decide; try done. by rw app_nil_r.
Qed.

(** Control-flow edges, and the blocks control can leave by returning. *)
Definition flow (u v : BlockId) : Prop := exists b, blocks cfg !! u = Some b /\ v ∈ succs cfg b.
Definition can_return (v : BlockId) : Prop :=
  exists u b, rtc flow v u /\ blocks cfg !! u = Some b /\ is_return (terminator b) = true.

Lemma flow_lt u v : flow u v -> u < block_count cfg /\ v < block_count cfg.
Proof.
  intros (b & Hb & Hv). split; [by eapply lookup_lt_Some|].
  destruct (succs_total b) as [_ Hf]; [by eapply list_elem_of_lookup_2|].
  rw Forall_forall in Hf. by apply Hf.
Qed.

Lemma pred_row_lt t p : p ∈ pred_row (blocks cfg) t -> p < block_count cfg.
Proof. intros (b & Hb & _)%elem_of_pred_row. by eapply lookup_lt_Some. Qed.

(** The seeds of [returning_blocks]. *)
Definition return_seeds : list BlockId :=
  block_id <$> filter (fun b => is_return (terminator b)) (blocks cfg).

Lemma elem_of_return_seeds v :
  v ∈ return_seeds <-> exists b, blocks cfg !! v = Some b /\ is_return (terminator b) = true.
Proof.
  rw /return_seeds list_elem_of_fmap. split.
  - intros (b & -> & [Hr Hb]%list_elem_of_filter). apply list_elem_of_lookup in Hb as [i Hb].
    exists b. rw (block_ids_dense _ _ Hb). by destruct (is_return _).
  - intros (b & Hb & Hr). exists b. rw (block_ids_dense _ _ Hb) list_elem_of_filter Hr.
    split_and!; [done..|]. by eapply list_elem_of_lookup_2.
Qed.

Lemma mark_seeds_total (seeds : list nat) n : Forall (fun v => v < n) seeds ->
  exists r, fold_opt mark_returning (replicate n false) seeds = Some r /\ length r = n /\
    forall v, contains r v = true <-> v ∈ seeds.
Proof.
  intros Hs.
  destruct (fold_opt_total mark_returning (fun pre r => length r = n /\
      forall v, contains r v = true <-> v ∈ pre) seeds (replicate n false)) as (r & Hr & Hl & Hc).
  - rw length_replicate. split; [done|]. intros v. rw elem_of_nil /=. split; [|done].
    destruct (replicate n false !! v) eqn:E; simpl; [|done].
    apply lookup_replicate in E as [-> _]. done.
  - intros pre v r [post Hv] [Hl Hc]. rw /mark_returning.
    assert (v < length r) as Hlt.
    { rw Hl. rw Forall_forall in Hs. apply Hs. rw Hv. set_solver. }
    destruct (lookup_lt_is_Some_2 r v Hlt) as [x Hx]. rw Hx /=. eexists. split; [done|].
    rw length_insert. split; [done|]. intros u.
    pose proof (contains_insert r v u Hlt) as Hci. simpl in Hci. rw /= Hci.
    rw orb_true_iff bool_decide_eq_true. rw elem_of_app list_elem_of_singleton.
    specialize (Hc u). simpl in Hc. rw Hc. naive_solver.
  - exists r. done.
Qed.

Lemma returning_next_ok preds : length preds = block_count cfg ->
  (forall t, t < block_count cfg -> preds !! t = Some (pred_row (blocks cfg) t)) ->
  next_ok (returning_next preds (block_count cfg)) (block_count cfg) /\
  (forall v, v < block_count cfg ->
     returning_next preds (block_count cfg) v = Some (pred_row (blocks cfg) v)).
Proof.
  intros Hl Hrow.
  assert (forall v, v < block_count cfg ->
     returning_next preds (block_count cfg) v = Some (pred_row (blocks cfg) v)) as Hn.
  { intros v Hv. rw /returning_next Hrow //=.
    destruct (forallb _ _) eqn:Hf; [done|]. exfalso. apply not_true_iff_false in Hf. apply Hf.
    apply forallb_forall. intros p Hp. apply Nat.ltb_lt, (pred_row_lt v).
    by apply list_elem_of_In. }
  split; [|done]. intros v Hv. exists (pred_row (blocks cfg) v). split; [by apply Hn|].
  apply Forall_forall. intros p. apply pred_row_lt.
Qed.

Lemma rtc_flip {A} (R R' : A -> A -> Prop) : (forall x y, R x y -> R' y x) ->
  forall x y, rtc R x y -> rtc R' y x.
Proof. intros HR x y. induction 1; [constructor|]. eapply rtc_r; eauto. Qed.

(** Walking predecessor rows from the returns is walking edges backwards. *)
Lemma reach_can_return preds : length preds = block_count cfg ->
  (forall v, v < block_count cfg ->
     returning_next preds (block_count cfg) v = Some (pred_row (blocks cfg) v)) ->
  forall v, reach_from (returning_next preds (block_count cfg)) (rev return_seeds) v <->
    can_return v.
Proof.
  intros Hl Hnext.
  assert (forall u v, edge (returning_next preds (block_count cfg)) u v <-> flow v u) as He.
  { intros u v. rw /edge. split.
    - intros (l & Hn & Hv). destruct (decide (u < block_count cfg)) as [Hu|Hu].
      + rw (Hnext u Hu) in Hn. injection Hn as <-. by apply elem_of_pred_row.
      + rw /returning_next lookup_ge_None_2 in Hn; [done|lia].
    - intros Hf. destruct (flow_lt _ _ Hf) as [_ Hu]. exists (pred_row (blocks cfg) u).
      split; [by apply Hnext|]. by apply elem_of_pred_row. }
  intros v. split.
  - intros (r & Hr & Hp). rw list_elem_of_In -in_rev -list_elem_of_In in Hr.
    apply elem_of_return_seeds in Hr as (b & Hb & Hret). exists r, b. split; [|done].
    eapply rtc_flip; [|exact Hp]. intros x y. apply He.
  - intros (u & b & Hp & Hb & Hret). exists u. split.
    + rw list_elem_of_In -in_rev -list_elem_of_In. apply elem_of_return_seeds. eauto.
    + eapply rtc_flip; [|exact Hp]. intros x y. apply He.
Qed.

Lemma returning_blocks_total :
  exists r, returning_blocks cfg = Some r /\
    forall v, default false (r !! v) = true <-> can_return v.
Proof.
  destruct compute_predecessors_total as (preds & Hp & Hl & Hrow).
  destruct (returning_next_ok preds Hl Hrow) as [Hok' Hnext].
  assert (Forall (fun v => v < block_count cfg) return_seeds) as Hseeds.
  { apply Forall_forall. intros v (b & Hb & _)%elem_of_return_seeds. by eapply lookup_lt_Some. }
  destruct (mark_seeds_total return_seeds (block_count cfg) Hseeds) as (r0 & Hr0 & Hl0 & Hc0).
  destruct (push_loop_from_marked (returning_next preds (block_count cfg)) (block_count cfg) r0
    (rev return_seeds) (S (2 * block_count cfg))) as (r & Hr & Hc); try done.
  - intros v Hv. simpl. lia.
  - intros v. rw Hc0 !list_elem_of_In. apply in_rev.
  - rw !Forall_forall in Hseeds *. intros v Hv. apply Hseeds. rw list_elem_of_In in_rev.
    by rw -list_elem_of_In.
  - rw length_rev /return_seeds length_fmap.
    pose proof (length_filter (fun b => is_return (terminator b)) (blocks cfg)).
    rw /block_count. lia.
  - exists r. split.
    + by rw /returning_blocks Hp /= Hr0.
    + intros v. specialize (Hc v). simpl in Hc. rw Hc. by apply reach_can_return.
Qed.
End Queries.

(** ** Block compaction *)

(** The old-to-new table and the number of kept blocks. *)
Definition retain_remap (keep : BlockId -> bool) (old_count : nat) : list (option BlockId) * nat :=
  fold_left (fun '(remap, kept) index =>
      if keep index then (remap ++ [Some kept], S kept) else (remap ++ [None], kept))
    (seq 0 old_count) ([], 0).

(** [blocks.retain] with its running [old_index]. *)
Fixpoint retain_from (remap : list (option BlockId)) (old_index : nat) (l : list BasicBlock)
    : list BasicBlock :=
  match l with
  | [] => []
  | b :: l' =>
      if decide (is_Some (mjoin (remap !! old_index)))
      then b :: retain_from remap (S old_index) l'
      else retain_from remap (S old_index) l'
  end.

Definition retarget (target_of : BlockId -> option BlockId) (t : Terminator) : option Terminator :=
  match t with
  | Goto target args => target' ← target_of target; Some (Goto target' args)
  | Branch c tb ta eb ea => tb' ← target_of tb; eb' ← target_of eb; Some (Branch c tb' ta eb' ea)
  | Switch v cases default => default' ← target_of default; Some (Switch v cases default')
  | Return _ | Unreachable | TermNone => Some t
  end.

Definition switch_range (b : BasicBlock) : option (Range FSwitchCases) :=
  match terminator b with Switch _ cases _ => Some (range_duplicate cases) | _ => None end.

Definition retain_blocks (keep : BlockId -> bool) (cfg : Cfg) : option (Cfg * bool) :=
  let old_count := length (blocks cfg) in
  let '(remap, kept) := retain_remap keep old_count in
  if kept =? old_count then Some (cfg, false)
  else
    entry' ← mjoin (remap !! entry cfg);
    let target_of old := mjoin (remap !! old) in
    let renumbered := imap with_id (retain_from remap 0 (blocks cfg)) in
    retargeted ← mapM (fun b => t ← retarget target_of (terminator b); Some (with_terminator t b))
                   renumbered;
    let switch_ranges := omap switch_range renumbered in
    cases ← fold_opt (fun s r => remap_switch_case_targets s r target_of)
              (switch_cases cfg) switch_ranges;
    Some (set_entry entry' (set_switch_cases cases (set_blocks retargeted cfg)), true).

(** *** What compaction does *)

(** The new identity of a kept block: the number of kept blocks before it. *)
Definition rank (keep : BlockId -> bool) (k i : nat) : nat :=
  length (filter (fun v => keep v) (seq k i)).

Definition map_targets (f : BlockId -> BlockId) (t : Terminator) : Terminator :=
  match t with
  | Goto target args => Goto (f target) args
  | Branch c tb ta eb ea => Branch c (f tb) ta (f eb) ea
  | Switch v cases default => Switch v cases (f default)
  | _ => t
  end.

(** No two blocks share switch-case storage. *)
Definition switch_disjoint (cfg : Cfg) : Prop :=
  forall i j bi bj ri rj, i <> j -> blocks cfg !! i = Some bi -> blocks cfg !! j = Some bj ->
    switch_range bi = Some ri -> switch_range bj = Some rj ->
    (start ri + extent ri <= start rj \/ start rj + extent rj <= start ri)%Z.

Section Retain.
Context (keep : BlockId -> bool).

Lemma rank_S k i : rank keep k (S i) = Nat.b2n (keep k) + rank keep (S k) i.
Proof. rw /rank /= filter_cons. by destruct (keep k). Qed.

Lemma rank_snoc k i : rank keep k (S i) = rank keep k i + Nat.b2n (keep (k + i)).
Proof.
  rw /rank seq_S filter_app length_app filter_cons filter_nil. by destruct (keep (k + i)).
Qed.

Lemma retain_remap_spec n : retain_remap keep n =
  ((fun i => if keep i then Some (rank keep 0 i) else None) <$> seq 0 n, rank keep 0 n).
Proof.
  rw /retain_remap. induction n as [|n IH]; [done|].
  rw seq_S fold_left_app IH fmap_app rank_snoc /=. destruct (keep n); simpl; f_equal; lia.
Qed.

Definition remap_at (n i : nat) : option BlockId :=
  mjoin (((fun i => if keep i then Some (rank keep 0 i) else None) <$> seq 0 n) !! i).

Lemma remap_at_spec n i : i < n ->
  remap_at n i = if keep i then Some (rank keep 0 i) else None.
Proof. intros Hi. rw /remap_at list_lookup_fmap lookup_seq_lt //. Qed.

(** The table marks exactly the kept ones of [m] indices from [k]. *)
Definition agrees (remap : list (option BlockId)) (m k : nat) : Prop :=
  forall i, i < m -> is_Some (mjoin (remap !! (k + i))) <-> keep (k + i) = true.

Lemma agrees_S remap m k : agrees remap (S m) k ->
  (is_Some (mjoin (remap !! k)) <-> keep k = true) /\ agrees remap m (S k).
Proof.
  intros Hr. split.
  - specialize (Hr 0). rw Nat.add_0_r in Hr. apply Hr. lia.
  - intros i Hi. specialize (Hr (S i)). rw Nat.add_succ_r in Hr. apply Hr. lia.
Qed.

Lemma retain_from_lookup remap l k i b :
  agrees remap (length l) k ->
  l !! i = Some b -> keep (k + i) = true ->
  retain_from remap k l !! rank keep k i = Some b.
Proof.
  revert k i. induction l as [|x l IH]; intros k i Hr Hl Hk; [done|]. simpl.
  destruct (agrees_S _ _ _ Hr) as [Hk0 Hr'].
  destruct i as [|i]; simpl in Hl.
  - rw Nat.add_0_r in Hk. rw decide_True; [by simplify_eq|]. by apply Hk0.
  - rw rank_S. rw Nat.add_succ_r in Hk.
    destruct (decide _) as [Hd|Hd].
    + apply Hk0 in Hd. rw Hd /=. by apply IH.
    + assert (keep k = false) as -> by (apply not_true_is_false; tauto). by apply IH.
Qed.

Lemma retain_from_inv remap l k j b :
  agrees remap (length l) k ->
  retain_from remap k l !! j = Some b ->
  exists i, l !! i = Some b /\ keep (k + i) = true /\ j = rank keep k i.
Proof.
  revert k j. induction l as [|x l IH]; intros k j Hr Hl; [done|]. simpl in Hl.
  destruct (agrees_S _ _ _ Hr) as [Hk0 Hr'].
  destruct (decide _) as [Hd|Hd].
  - apply Hk0 in Hd. destruct j as [|j]; simpl in Hl.
    + exists 0. rw Nat.add_0_r. by simplify_eq.
    + destruct (IH _ _ Hr' Hl) as (i & Hi & Hki & ->). exists (S i).
      rw Nat.add_succ_r rank_S Hd. done.
  - destruct (IH _ _ Hr' Hl) as (i & Hi & Hki & ->). exists (S i).
    rw Nat.add_succ_r rank_S. assert (keep k = false) as -> by (apply not_true_is_false; tauto).
    done.
Qed.

Lemma retain_from_length remap l k :
  agrees remap (length l) k ->
  length (retain_from remap k l) = rank keep k (length l).
Proof.
  revert k. induction l as [|x l IH]; intros k Hr; [done|]. simpl length. simpl retain_from.
  destruct (agrees_S _ _ _ Hr) as [Hk0 Hr'].
  rw rank_S -(IH (S k)) //. destruct (decide _) as [Hd|Hd].
  - apply Hk0 in Hd. by rw Hd.
  - by assert (keep k = false) as -> by (apply not_true_is_false; tauto).
Qed.
End Retain.

Definition range_disjoint (r q : Range FSwitchCases) : Prop :=
  (start r + extent r <= start q \/ start q + extent q <= start r)%Z.

Section RemapFold.
Context (target_of : BlockId -> option BlockId) (f : BlockId -> BlockId).

Definition map_case (c : Z * BlockId) : Z * BlockId := (c.1, f c.2).
Definition targets_ok (cases : list (Z * BlockId)) : Prop :=
  Forall (fun c => target_of c.2 = Some (f c.2)) cases.

Lemma mapM_targets cases : targets_ok cases ->
  mapM target_of cases.*2 = Some (map_case <$> cases).*2.
Proof.
  intros Ht. apply mapM_Some_2. induction Ht as [|c cases Hc _ IH]; [constructor|].
  by constructor.
Qed.

Lemma remap_one s r : range_ok s r -> targets_ok (denote s r) ->
  exists s', remap_switch_case_targets s r target_of = Some s' /\ store_len s' = store_len s /\
    denote s' r = map_case <$> denote s r /\
    forall q : Range FSwitchCases, range_ok s q -> range_disjoint r q ->
      denote s' q = denote s q.
Proof.
  intros [Hr Hw] Ht.
  destruct (remap_total s r target_of Hr Hw) as [s' Hs'].
  { eapply Forall_impl; [exact Ht|]. simpl. intros c ->. by eexists. }
  pose proof (remap_keeps_length _ _ _ _ Hr Hs') as Hlen.
  assert (forall F (q : Range F), well_formed s q -> well_formed s' q) as Hwf.
  { intros F q. by rw /well_formed Hlen. }
  destruct (remap_cases s s' r target_of Hr Hs') as (cases & cases' & V1 & V2 & E1 & E2 & Hd).
  rw view_well_formed // in V1. injection V1 as <-.
  rw view_well_formed in V2; [|done|by apply Hwf]. injection V2 as V2.
  exists s'. split_and!; [done..| |].
  - rw V2. apply fst_snd_eq.
    + by rw E1 -list_fmap_compose.
    + rw (mapM_targets _ Ht) in E2. by injection E2.
  - intros q [Hq Hwq] Hdis. specialize (Hd q Hq).
    rw (view_well_formed s' q Hq (Hwf _ _ Hwq)) (view_well_formed s q Hq Hwq) in Hd.
    rw /range_disjoint in Hdis. specialize (Hd ltac:(lia)). by injection Hd.
Qed.

Lemma remap_fold ranges s :
  Forall (fun r => range_ok s r /\ targets_ok (denote s r)) ranges ->
  (forall i j ri rj, i <> j -> ranges !! i = Some ri -> ranges !! j = Some rj ->
     range_disjoint ri rj) ->
  exists s', fold_opt (fun s r => remap_switch_case_targets s r target_of) s ranges = Some s' /\
    store_len s' = store_len s /\
    (forall r, r ∈ ranges -> denote s' r = map_case <$> denote s r) /\
    (forall q, range_ok s q -> (forall r, r ∈ ranges -> range_disjoint r q) ->
       denote s' q = denote s q).
Proof.
  revert s. induction ranges as [|r rs IH]; intros s Hf Hdis; simpl.
  { exists s. split_and!; [done..|set_solver|done]. }
  apply Forall_cons in Hf as [[Hr Ht] Hf].
  destruct (remap_one s r Hr Ht) as (s1 & Hs1 & Hl1 & Hd1 & Hq1). rw Hs1 /=.
  assert (forall q : Range FSwitchCases, range_ok s q -> range_ok s1 q) as Hok1.
  { intros q []. split; [done|]. by rw /well_formed Hl1. }
  assert (forall q, q ∈ rs -> range_disjoint r q) as Hrs.
  { intros q [j Hj]%list_elem_of_lookup. by apply (Hdis 0 (S j)). }
  destruct (IH s1) as (s' & Hs' & Hl' & Hd' & Hq').
  { rw !Forall_forall in Hf *. intros q Hq. destruct (Hf q Hq) as [Hqo Hqt].
    split; [by apply Hok1|]. rw Hq1 //. by apply Hrs. }
  { intros i j ri rj Hij Hi Hj. apply (Hdis (S i) (S j)); [lia|done..]. }
  assert (forall q, q ∈ rs -> range_disjoint q r) as Hrs'.
  { intros q Hq. destruct (Hrs q Hq); [by right|by left]. }
  exists s'. split_and!; [done|lia| |].
  - intros q [->|Hq]%elem_of_cons.
    + rw Hq' //; by apply Hok1.
    + rw Hd' // Hq1 //; [|by apply Hrs]. rw Forall_forall in Hf. by apply Hf.
  - intros q Hq Hall. rw Hq' //.
    + apply Hq1; [done|]. apply Hall, list_elem_of_here.
    + by apply Hok1.
    + intros r' Hr'. apply Hall. by apply list_elem_of_further.
Qed.
End RemapFold.

Section Compaction.
Context (cfg : Cfg) (Hok : cfg_ok cfg) (Hdis : switch_disjoint cfg) (keep : BlockId -> bool).
Context (Hentry : entry cfg < block_count cfg) (Hkeep : keep (entry cfg) = true).
Context (Hclosed : forall u v, keep u = true -> flow cfg u v -> keep v = true).

Notation n := (block_count cfg).
Notation new_id := (rank keep 0).

Lemma target_of_kept i : i < n -> keep i = true -> remap_at keep n i = Some (new_id i).
Proof. intros Hi Hk. by rw remap_at_spec // Hk. Qed.

Lemma agrees_all : agrees keep (fst (retain_remap keep n)) n 0.
Proof.
  intros i Hi. rw retain_remap_spec /=. change (mjoin _) with (remap_at keep n i).
  rw remap_at_spec //. destruct (keep i); split; solve [done | by eexists | by intros []].
Qed.

Lemma kept_targets i b : blocks cfg !! i = Some b -> keep i = true ->
  Forall (fun t => remap_at keep n t = Some (new_id t)) (succs cfg b).
Proof.
  intros Hb Hk. apply Forall_forall. intros t Ht.
  assert (flow cfg i t) as Hf by (by exists b).
  apply target_of_kept; [by apply (flow_lt cfg Hok) in Hf as []|by eapply Hclosed].
Qed.

Lemma retarget_kept i b : blocks cfg !! i = Some b -> keep i = true ->
  retarget (remap_at keep n) (terminator b) = Some (map_targets new_id (terminator b)).
Proof.
  intros Hb Hk. pose proof (kept_targets i b Hb Hk) as Hf.
  destruct (succs_total cfg Hok b) as [Hs _]; [by eapply list_elem_of_lookup_2|].
  destruct (terminator b); simpl in Hs |- *; try done.
  - injection Hs as Hs. rw -Hs in Hf. apply Forall_cons in Hf as [-> _]. done.
  - injection Hs as Hs. rw -Hs !Forall_cons in Hf. by destruct Hf as (-> & -> & _).
  - destruct (switch_cases_of cfg cases); simpl in Hs; [|done]. injection Hs as Hs.
    rw -Hs in Hf. apply Forall_app in Hf as [_ Hd]. apply Forall_cons in Hd as [-> _]. done.
Qed.

(** The blocks that survive, renumbered but not yet retargeted. *)
Definition survivors : list BasicBlock :=
  imap with_id (retain_from (fst (retain_remap keep n)) 0 (blocks cfg)).

Lemma survivors_lookup i b : blocks cfg !! i = Some b -> keep i = true ->
  survivors !! new_id i = Some (with_id (new_id i) b).
Proof.
  intros Hb Hk. rw /survivors list_lookup_imap.
  by rw (retain_from_lookup keep _ (blocks cfg) 0 i b agrees_all Hb Hk).
Qed.

Lemma survivors_inv j x : survivors !! j = Some x ->
  exists i b, blocks cfg !! i = Some b /\ keep i = true /\ j = new_id i /\ x = with_id j b.
Proof.
  rw /survivors list_lookup_imap.
  destruct (retain_from _ 0 (blocks cfg) !! j) as [b|] eqn:Hr; simpl; [|done]. intros [= <-].
  apply (retain_from_inv keep) in Hr as (i & Hb & Hk & ->); [|apply agrees_all].
  by exists i, b.
Qed.

Lemma survivors_length : length survivors = new_id n.
Proof. rw /survivors length_imap. by apply retain_from_length, agrees_all. Qed.

Definition retargeted : list BasicBlock :=
  (fun b => with_terminator (map_targets new_id (terminator b)) b) <$> survivors.

Lemma retargeted_mapM :
  mapM (fun b => t ← retarget (remap_at keep n) (terminator b); Some (with_terminator t b))
    survivors = Some retargeted.
Proof.
  apply mapM_Some_2. rw /retargeted. apply Forall2_fmap_r, Forall_Forall2_diag, Forall_forall.
  intros x [j Hx]%list_elem_of_lookup. apply survivors_inv in Hx as (i & b & Hb & Hk & -> & ->).
  rw (retarget_kept i b Hb Hk) //.
Qed.

Lemma rank_inj i j : i < j -> keep i = true -> new_id i < new_id j.
Proof.
  intros Hij Hk. rw /rank. replace j with (i + (1 + (j - i - 1))) by lia.
  rw !seq_app !filter_app !length_app /= filter_cons Hk /=. lia.
Qed.

Definition kept_ranges : list (Range FSwitchCases) := omap switch_range survivors.

Lemma survivor_range j x r : survivors !! j = Some x -> switch_range x = Some r ->
  exists i b, blocks cfg !! i = Some b /\ keep i = true /\ j = new_id i /\
    switch_range b = Some r /\ range_ok (switch_cases cfg) r /\
    targets_ok (remap_at keep n) new_id (denote (switch_cases cfg) r).
Proof.
  intros (i & b & Hb & Hk & -> & ->)%survivors_inv Hr. exists i, b. rw /switch_range /= in Hr *.
  pose proof (kept_targets i b Hb Hk) as Hf. rw /succs in Hf.
  destruct (ok_blocks _ Hok _ _ Hb) as [_ _ _ Ht].
  destruct (terminator b); simplify_eq/=. destruct Ht as (_ & Hro & _).
  assert (range_duplicate cases = cases) as -> by by destruct cases.
  split_and!; [done..|]. rw /switch_cases_of (range_ok_view _ _ Hro) /= in Hf.
  apply Forall_app in Hf as [Hf _]. by rw Forall_fmap in Hf.
Qed.

Lemma kept_cases : exists s',
  fold_opt (fun s r => remap_switch_case_targets s r (remap_at keep n)) (switch_cases cfg)
    kept_ranges = Some s' /\ store_len s' = store_len (switch_cases cfg) /\
  forall i b r, blocks cfg !! i = Some b -> keep i = true -> switch_range b = Some r ->
    denote s' r = map_case new_id <$> denote (switch_cases cfg) r.
Proof.
  destruct (remap_fold (remap_at keep n) new_id kept_ranges (switch_cases cfg))
    as (s' & Hs' & Hl & Hd & _).
  - apply Forall_forall. intros r (x & [j Hx]%list_elem_of_lookup & Hr)%list_elem_of_omap.
    by destruct (survivor_range _ _ _ Hx Hr) as (i & b & _ & _ & _ & _ & ? & ?).
  - intros i j ri rj Hij Hi Hj.
    destruct (omap_lookup_2 _ _ _ _ _ _ Hij Hi Hj) as (i' & j' & x & y & Hne & Hx & Hy & Hfx & Hfy).
    destruct (survivor_range _ _ _ Hx Hfx) as (bi & b & Hb & _ & -> & Hr & _).
    destruct (survivor_range _ _ _ Hy Hfy) as (bj & b' & Hb' & _ & -> & Hr' & _).
    apply (Hdis bi bj b b'); [congruence|done..].
  - exists s'. split_and!; [done..|]. intros i b r Hb Hk Hr. apply Hd.
    apply list_elem_of_omap. exists (with_id (new_id i) b). split; [|done].
    eapply list_elem_of_lookup_2. by apply survivors_lookup.
Qed.

Lemma rank_le i : new_id i <= i.
Proof. rw /rank. etrans; [apply length_filter|]. by rw length_seq. Qed.

Lemma rank_add i d : new_id (i + d) <= new_id i + d.
Proof.
  induction d as [|d IH]; [by rw !Nat.add_0_r|].
  rw Nat.add_succ_r rank_snoc /=. destruct (keep (i + d)); simpl; lia.
Qed.

Lemma rank_all i : new_id n = n -> i <= n -> new_id i = i.
Proof.
  intros Hn Hi. pose proof (rank_add i (n - i)) as Ha. pose proof (rank_le i).
  replace (i + (n - i)) with n in Ha by lia. lia.
Qed.

(** What a kept block becomes. *)
Definition renamed_block (cfg' : Cfg) (i : BlockId) (b : BasicBlock) : Prop :=
  exists b', blocks cfg' !! new_id i = Some b' /\ block_id b' = new_id i /\
    params b' = params b /\ insts b' = insts b /\
    terminator b' = map_targets new_id (terminator b) /\ succs cfg' b' = new_id <$> succs cfg b.

Lemma retain_all_renamed i b : new_id n = n -> blocks cfg !! i = Some b -> renamed_block cfg i b.
Proof.
  intros Hn Hb. pose proof (lookup_lt_Some _ _ _ Hb) as Hi.
  exists b. rw (rank_all i Hn (Nat.lt_le_incl _ _ Hi)).
  destruct (succs_total cfg Hok b) as [Hs Hf]; [by eapply list_elem_of_lookup_2|].
  assert (new_id <$> succs cfg b = succs cfg b) as Heq.
  { rw -{2}(list_fmap_id (succs cfg b)). apply list_fmap_ext. intros k x Hx.
    rw Forall_forall in Hf. pose proof (Hf x (list_elem_of_lookup_2 _ _ _ Hx)). apply rank_all; [done|by apply Nat.lt_le_incl]. }
  split_and!; [done|by apply (block_ids_dense cfg Hok)|done..| |by rw Heq].
  destruct (terminator b); simpl in Hs |- *; try done.
  - injection Hs as Hs. rw -Hs in Heq. by injection Heq as ->.
  - injection Hs as Hs. rw -Hs in Heq. by injection Heq as -> ->.
  - destruct (switch_cases_of cfg cases); simpl in Hs; [|done]. injection Hs as Hs.
    rw -Hs fmap_app in Heq. apply app_inj_2 in Heq as [_ Hd]; [|done]. by injection Hd as ->.
Qed.

Lemma retain_blocks_total : exists cfg',
  retain_blocks keep cfg = Some (cfg', negb (new_id n =? n)) /\
  block_count cfg' = new_id n /\ entry cfg' = new_id (entry cfg) /\ values cfg' = values cfg /\
  forall i b, blocks cfg !! i = Some b -> keep i = true -> renamed_block cfg' i b.
Proof.
  rw /retain_blocks. change (length (blocks cfg)) with n.
  pose proof survivors_length as Hsl. rw /survivors in Hsl.
  pose proof retargeted_mapM as Hmap. pose proof kept_cases as Hcases.
  rw /kept_ranges /survivors in Hmap Hcases.
  pose proof (target_of_kept _ Hentry Hkeep) as Hen. rw /remap_at in Hen Hmap Hcases.
  rw retain_remap_spec /= in Hsl Hmap Hcases *.
  destruct (Nat.eqb_spec (new_id n) n) as [Hn|Hn]; simpl.
  - exists cfg. split_and!; [done|done| |done|].
    + symmetry. apply rank_all; [done|lia].
    + intros i b Hb _. by apply retain_all_renamed.
  - rw Hen /= Hmap /=. destruct Hcases as (s' & Hs' & Hl & Hd). rw Hs' /=.
    eexists. split; [done|]. split_and!; [|done|done|].
    + rw /block_count /= /retargeted length_fmap. apply survivors_length.
    + intros i b Hb Hk. eexists. simpl. rw /retargeted list_lookup_fmap (survivors_lookup i b Hb Hk) /=.
      split_and!; [done..|].
      destruct (succs_total cfg Hok b) as [Hs _]; [by eapply list_elem_of_lookup_2|].
      specialize (Hd i b). rw /switch_range in Hd.
      destruct (ok_blocks _ Hok _ _ Hb) as [_ _ _ Ht]. rw /succs /=.
      destruct (terminator b); simpl in Hs, Ht, Hd |- *; try done.
      destruct Ht as (_ & [Hru Hwf] & _).
      assert (range_duplicate cases = cases) as Hdup by by destruct cases.
      rw Hdup in Hd. assert (range_ok s' cases) as Hro by (split; [done|by rw /well_formed Hl]).
      rw /switch_cases_of /= (range_ok_view s' cases Hro).
      rw (range_ok_view (switch_cases cfg) cases (conj Hru Hwf)) /=.
      rw (Hd cases Hb Hk eq_refl) fmap_app -!list_fmap_compose. done.
Qed.
End Compaction.

(** ** Properties *)

(** The predecessor table is the transpose of the successor relation:
    it is computed without a panic, row [t] lists in block order every block
    once per edge into [t], and the single-row query returns, in block order,
    exactly the distinct blocks of that row. *)
Theorem compute_predecessors_transpose (cfg : Cfg) (Hok : cfg_ok cfg) :
  exists preds, compute_predecessors cfg = Some preds /\ length preds = block_count cfg /\
    forall t, t < block_count cfg ->
      preds !! t = Some (pred_row cfg (blocks cfg) t) /\
      predecessors_of cfg t = Some (block_id <$> filter (fun b => t ∈ succs cfg b) (blocks cfg)) /\
      (forall p, p ∈ pred_row cfg (blocks cfg) t <-> flow cfg p t).
Proof.
  destruct (compute_predecessors_total cfg Hok) as (preds & Hp & Hl & Hrow).
  exists preds. split_and!; [done..|]. intros t Ht. split_and!.
  - by apply Hrow.
  - by apply predecessors_of_total.
  - intros p. by apply elem_of_pred_row.
Qed.

(** [returning_blocks] terminates within its fuel and marks exactly the
    blocks from which some path of control-flow edges leads to a [Return]. *)
Theorem returning_blocks_correct (cfg : Cfg) (Hok : cfg_ok cfg) :
  exists r, returning_blocks cfg = Some r /\
    forall v, default false (r !! v) = true <-> can_return cfg v.
Proof. by apply returning_blocks_total. Qed.

(** C4.  Block compaction is an isomorphism onto the kept blocks: when the
    kept set contains the entry and is closed under edges, [retain_blocks]
    succeeds, the survivors are densely renumbered in order, each keeps its
    parameters, instructions and terminator up to the renaming of targets
    (switch targets in the payload store included), the entry is renamed with
    them, the value arena is untouched, and the flag tells whether a block was
    dropped. *)
Theorem retain_blocks_isomorphism (cfg : Cfg) (keep : BlockId -> bool)
    (Hok : cfg_ok cfg) (Hdis : switch_disjoint cfg)
    (Hentry : entry cfg < block_count cfg) (Hkeep : keep (entry cfg) = true)
    (Hclosed : forall u v, keep u = true -> flow cfg u v -> keep v = true) :
  exists cfg', retain_blocks keep cfg =
      Some (cfg', negb (rank keep 0 (block_count cfg) =? block_count cfg)) /\
    block_count cfg' = rank keep 0 (block_count cfg) /\
    entry cfg' = rank keep 0 (entry cfg) /\ values cfg' = values cfg /\
    forall i b, blocks cfg !! i = Some b -> keep i = true ->
      renamed_block cfg keep cfg' i b.
Proof. by apply retain_blocks_total. Qed.

(** *** Witnesses *)

Definition switch_edits : list edit :=
  [EdNewBlock; EdNewBlock; EdNewBlock; EdNewBlock;
   EdAppendInst 0 (mkInst (IConst 7) TI32 (span_new 0 0));
   EdSwitch 0 0 [(1%Z, 2)] 3;
   EdGoto 1 2 [];
   EdReturn 2 None;
   EdUnreachable 3].

Definition switch_cfg : Cfg :=
  default sample_empty (run_edits (H := unlimited) (H0 := word_types) switch_edits sample_empty).

Lemma switch_cfg_ok : cfg_ok switch_cfg.
Proof.
  apply (built_cfg_ok (H := unlimited) (H0 := unlimited_laws) (H1 := word_types)).
  apply (run_edits_built switch_edits sample_empty); [constructor| |by vm_compute].
  by repeat constructor.
Qed.

Lemma compute_predecessors_transpose_witness :
  cfg_ok switch_cfg /\
  exists preds, compute_predecessors switch_cfg = Some preds /\ length preds = 4.
Proof.
  split; [exact switch_cfg_ok|].
  destruct (compute_predecessors_transpose switch_cfg switch_cfg_ok) as (preds & H1 & H2 & _).
  by exists preds.
Defined.

Lemma returning_blocks_correct_witness :
  cfg_ok switch_cfg /\ returning_blocks switch_cfg = Some [true; true; true; false] /\
  can_return switch_cfg 0.
Proof.
  split; [exact switch_cfg_ok|split; [vm_compute; reflexivity|]].
  destruct (returning_blocks_correct switch_cfg switch_cfg_ok) as (r & Hr & Hc).
  assert (r = [true; true; true; false]) as -> by (vm_compute in Hr; congruence).
  by apply Hc.
Defined.

(** The reachable blocks of [switch_cfg]. *)
Definition switch_keep (b : BlockId) : bool := negb (b =? 1).

Lemma switch_cfg_disjoint : switch_disjoint switch_cfg.
Proof.
  intros i j bi bj ri rj Hij Hi Hj Hri Hrj.
  destruct i as [|[|[|[|i]]]]; vm_compute in Hi; simplify_eq; try discriminate Hri;
  destruct j as [|[|[|[|j]]]]; vm_compute in Hj; simplify_eq; discriminate Hrj.
Qed.

Lemma switch_keep_closed u v : switch_keep u = true -> flow switch_cfg u v -> switch_keep v = true.
Proof.
  intros Hu (b & Hb & Hv).
  remember (succs switch_cfg b) as l eqn:Hl.
  destruct u as [|[|[|[|u]]]]; vm_compute in Hb; try discriminate Hb; injection Hb as <-;
    vm_compute in Hl; subst l; try done;
    repeat (apply elem_of_cons in Hv as [->|Hv]; [done|]); by apply not_elem_of_nil in Hv.
Qed.

Lemma retain_blocks_isomorphism_witness :
  cfg_ok switch_cfg /\ switch_disjoint switch_cfg /\ switch_keep (entry switch_cfg) = true /\
  exists cfg', retain_blocks switch_keep switch_cfg = Some (cfg', true) /\ block_count cfg' = 3.
Proof.
  split; [exact switch_cfg_ok|split; [exact switch_cfg_disjoint|split; [reflexivity|]]].
  destruct (retain_blocks_isomorphism switch_cfg switch_keep switch_cfg_ok switch_cfg_disjoint)
    as (cfg' & H1 & H2 & _).
  - apply Nat.ltb_lt. vm_compute. reflexivity.
  - reflexivity.
  - exact switch_keep_closed.
  - exists cfg'. split; [exact H1|]. rewrite H2. vm_compute. reflexivity.
Defined.
