(* ===== verification/CfgRewrite.v ===== *)
(** * Rewriting every value use

    [Cfg::rewrite_value_uses] and its in-place sweep
    ([crates/rue-cfg/src/inst.rs]): every operand of every instruction and
    terminator is sent through a map while the payload stores are rebuilt from
    scratch in arena order. *)

From S2P Require Import Prelude IntegerSemantics Types Payload CfgData CfgEdit.
From stdpp Require Import strings gmap.
Import Machine.

(** The three payload stores that hold values. *)
Record Payloads := mkPayloads {
  p_extra : Store CfgValue;
  p_calls : Store CfgCallArg;
  p_projs : Store Projection;
}.

Definition payloads_of (c : Cfg) : Payloads := mkPayloads (extra c) (call_args c) (projections c).
Definition no_payloads : Payloads := mkPayloads store_new store_new store_new.

(** Pushing into the new stores. *)
Section PushTo.
Context `{Alloc}.

Definition push_result {E F} (wrap : Store E -> Payloads)
    (r : res PayloadBuildError (Store E * Range F)) : res CfgEditError (Payloads * Range F) :=
  match r with
  | Ok (s, range) => Ok (wrap s, range)
  | Err e => Err (from_payload e)
  | Panic => Panic
  end.

Definition push_vals {F} (st : Payloads) (vs : list CfgValue)
    : res CfgEditError (Payloads * Range F) :=
  push_result (fun s => mkPayloads s (p_calls st) (p_projs st)) (append (p_extra st) vs).
Definition push_calls (st : Payloads) (vs : list CfgCallArg)
    : res CfgEditError (Payloads * Range FCallArgs) :=
  push_result (fun s => mkPayloads (p_extra st) s (p_projs st)) (append (p_calls st) vs).
Definition push_projs (st : Payloads) (vs : list Projection)
    : res CfgEditError (Payloads * Range FProjections) :=
  push_result (fun s => mkPayloads (p_extra st) (p_calls st) s) (append (p_projs st) vs).
End PushTo.

Section Sweep.
Context `{Alloc} (map : CfgValue -> CfgValue) (before_payload : string -> res CfgEditError unit).

Definition rewrite_base (b : PlaceBase) : PlaceBase :=
  match b with
  | Accessor v => Accessor (map v)
  | Indirect v => Indirect (map v)
  | Local _ | Param _ => b
  end.

Definition rewrite_projection (p : Projection) : Projection :=
  match p with
  | Field id i => Field id i
  | Index t index => Index t (map index)
  end.

Definition rewrite_arg (a : CfgCallArg) : CfgCallArg := mkCallArg (map (arg_value a)) (arg_mode a).

(** One payload: the hook, the old elements, the new range. *)
Definition move_vals {F} (old : Payloads) (st : Payloads) (r : Range F)
    : res CfgEditError (Payloads * Range F) :=
  _ ← before_payload (FAMILY F);
  vs ← expect (view_expect (p_extra old) r);
  push_vals st (map <$> vs).
Definition move_calls (old st : Payloads) (r : Range FCallArgs)
    : res CfgEditError (Payloads * Range FCallArgs) :=
  _ ← before_payload (FAMILY FCallArgs);
  vs ← expect (view_expect (p_calls old) r);
  push_calls st (rewrite_arg <$> vs).
Definition move_place (old st : Payloads) (p : Place) : res CfgEditError (Payloads * Place) :=
  _ ← before_payload (FAMILY FProjections);
  vs ← expect (view_expect (p_projs old) (place_projections p));
  '(st', r) ← push_projs st (rewrite_projection <$> vs);
  Ok (st', mkPlace (rewrite_base (base p)) (base_type p) r).

(** The instruction match of the sweep. *)
Definition rewrite_inst (old st : Payloads) (d : CfgInstData)
    : res CfgEditError (Payloads * CfgInstData) :=
  match d with
  | IAdd a b => Ok (st, IAdd (map a) (map b))
  | ISub a b => Ok (st, ISub (map a) (map b))
  | IMul a b => Ok (st, IMul (map a) (map b))
  | IWrappingAdd a b => Ok (st, IWrappingAdd (map a) (map b))
  | IWrappingSub a b => Ok (st, IWrappingSub (map a) (map b))
  | IWrappingMul a b => Ok (st, IWrappingMul (map a) (map b))
  | IDiv a b => Ok (st, IDiv (map a) (map b))
  | IMod a b => Ok (st, IMod (map a) (map b))
  | IEq a b => Ok (st, IEq (map a) (map b))
  | INe a b => Ok (st, INe (map a) (map b))
  | ILt a b => Ok (st, ILt (map a) (map b))
  | IGt a b => Ok (st, IGt (map a) (map b))
  | ILe a b => Ok (st, ILe (map a) (map b))
  | IGe a b => Ok (st, IGe (map a) (map b))
  | IBitAnd a b => Ok (st, IBitAnd (map a) (map b))
  | IBitOr a b => Ok (st, IBitOr (map a) (map b))
  | IBitXor a b => Ok (st, IBitXor (map a) (map b))
  | IShl a b => Ok (st, IShl (map a) (map b))
  | IShr a b => Ok (st, IShr (map a) (map b))
  | INeg a => Ok (st, INeg (map a))
  | INot a => Ok (st, INot (map a))
  | IBitNot a => Ok (st, IBitNot (map a))
  | IAlloc slot v => Ok (st, IAlloc slot (map v))
  | IStore slot v => Ok (st, IStore slot (map v))
  | IParamStore slot v => Ok (st, IParamStore slot (map v))
  | IEnumPayloadGet v e i f => Ok (st, IEnumPayloadGet (map v) e i f)
  | IIntCast v t => Ok (st, IIntCast (map v) t)
  | IDrop v => Ok (st, IDrop (map v))
  | IPlaceRead p => '(st', p') ← move_place old st p; Ok (st', IPlaceRead p')
  | IMoveOut p => '(st', p') ← move_place old st p; Ok (st', IMoveOut p')
  | IPlaceWrite p v => '(st', p') ← move_place old st p; Ok (st', IPlaceWrite p' (map v))
  | ICall rt name args => '(st', r) ← move_calls old st args; Ok (st', ICall rt name r)
  | IAccessorCall name args => '(st', r) ← move_calls old st args; Ok (st', IAccessorCall name r)
  | ICallIndirect callee args =>
      '(st', r) ← move_calls old st args; Ok (st', ICallIndirect (map callee) r)
  | IIntrinsic op name args => '(st', r) ← move_vals old st args; Ok (st', IIntrinsic op name r)
  | IStructInit id fields => '(st', r) ← move_vals old st fields; Ok (st', IStructInit id r)
  | IArrayInit els shape => '(st', r) ← move_vals old st els; Ok (st', IArrayInit r shape)
  | IEnumVariant e i payload => '(st', r) ← move_vals old st payload; Ok (st', IEnumVariant e i r)
  | IConst _ | IBoolConst _ | IStringConst _ | IParam _ | IBlockParam _ | IFnAddr _ | ILoad _
  | IStorageLive _ _ | IStorageDead _ _ => Ok (st, d)
  end.

(** The terminator match of the sweep. *)
Definition rewrite_term (old st : Payloads) (t : Terminator)
    : res CfgEditError (Payloads * Terminator) :=
  match t with
  | Goto target args => '(st', r) ← move_vals old st args; Ok (st', Goto target r)
  | Branch cond tb ta eb ea =>
      '(st1, ta') ← move_vals old st ta;
      '(st2, ea') ← move_vals old st1 ea;
      Ok (st2, Branch (map cond) tb ta' eb ea')
  | Switch v cases d => Ok (st, Switch (map v) cases d)
  | Return (Some v) => Ok (st, Return (Some (map v)))
  | Return None | Unreachable | TermNone => Ok (st, t)
  end.

Fixpoint rewrite_all {A} (step : Payloads -> A -> res CfgEditError (Payloads * A))
    (st : Payloads) (l : list A) : res CfgEditError (Payloads * list A) :=
  match l with
  | [] => Ok (st, [])
  | a :: l =>
      '(st1, a') ← step st a;
      '(st2, l') ← rewrite_all step st1 l;
      Ok (st2, a' :: l')
  end.

Definition rewrite_value (old st : Payloads) (i : CfgInst) : res CfgEditError (Payloads * CfgInst) :=
  '(st', d) ← rewrite_inst old st (data i); Ok (st', mkInst d (ty i) (span i)).
Definition rewrite_block (old st : Payloads) (b : BasicBlock)
    : res CfgEditError (Payloads * BasicBlock) :=
  '(st', t) ← rewrite_term old st (terminator b); Ok (st', with_terminator t b).

(** On an error the caller discards the poisoned editor, so only the
    successful owner is returned. *)
Definition rewrite_value_uses_in_place_inner (c : Cfg) : res CfgEditError Cfg :=
  let old := payloads_of c in
  let boundary_replacements : gset CfgValue := set_map map (ownership_boundary_values c) in
  '(st1, vs) ← rewrite_all (rewrite_value old) no_payloads (values c);
  '(st2, bs) ← rewrite_all (rewrite_block old) st1 (blocks c);
  Ok (set_ownership_boundary_values (ownership_boundary_values c ∪ boundary_replacements)
       (set_extra (p_extra st2) (set_call_args (p_calls st2) (set_projections (p_projs st2)
         (set_blocks bs (set_values vs c)))))).
End Sweep.

Definition rewrite_value_uses_in_place `{Alloc} (map : CfgValue -> CfgValue) (c : Cfg) :=
  rewrite_value_uses_in_place_inner map (fun _ => Ok tt) c.

(** The transactional form: the sweep runs on a clone (a peer owner with a
    fresh identity) that replaces the owner only on success. *)
Definition clone (fresh : nat) (c : Cfg) : Cfg :=
  mkCfg fresh (blocks c) (entry c) (return_type c) (values c) (extra c) (call_args c)
    (call_contracts c) (switch_cases c) (projections c) (num_locals c) (num_params c) (fn_name c)
    (param_modes c) (address_taken_slots c) (ownership_boundary_slots c)
    (ownership_boundary_values c) (address_taken_params c) (source_param_abi c)
    (capacity_exceeded c) (move_out_values c).
Definition rewrite_value_uses `{Alloc} (map : CfgValue -> CfgValue) (fresh : nat) : editM unit :=
  fun c =>
    match rewrite_value_uses_in_place map (clone fresh c) with
    | Ok c' => (Ok tt, c')
    | Err e => (Err e, c)
    | Panic => (Panic, c)
    end.

(** ** The meaning of an instruction's payload *)

Inductive content :=
| NoPayload
| Vals (l : list CfgValue)
| Calls (l : list CfgCallArg)
| Projs (l : list Projection).

(** The operands an instruction carries inline, with the handle erased. *)
Definition erase (d : CfgInstData) : CfgInstData :=
  match d with
  | IPlaceRead p => IPlaceRead (mkPlace (base p) (base_type p) EMPTY)
  | IMoveOut p => IMoveOut (mkPlace (base p) (base_type p) EMPTY)
  | IPlaceWrite p v => IPlaceWrite (mkPlace (base p) (base_type p) EMPTY) v
  | ICall rt name _ => ICall rt name EMPTY
  | IAccessorCall name _ => IAccessorCall name EMPTY
  | ICallIndirect callee _ => ICallIndirect callee EMPTY
  | IIntrinsic op name _ => IIntrinsic op name EMPTY
  | IStructInit id _ => IStructInit id EMPTY
  | IArrayInit _ shape => IArrayInit EMPTY shape
  | IEnumVariant e i _ => IEnumVariant e i EMPTY
  | _ => d
  end.

(** What the handle denotes in a set of stores. *)
Definition content_of (st : Payloads) (d : CfgInstData) : content :=
  match d with
  | IPlaceRead p | IMoveOut p | IPlaceWrite p _ => Projs (denote (p_projs st) (place_projections p))
  | ICall _ _ r | IAccessorCall _ r | ICallIndirect _ r => Calls (denote (p_calls st) r)
  | IIntrinsic _ _ r => Vals (denote (p_extra st) r)
  | IStructInit _ r => Vals (denote (p_extra st) r)
  | IArrayInit r _ => Vals (denote (p_extra st) r)
  | IEnumVariant _ _ r => Vals (denote (p_extra st) r)
  | _ => NoPayload
  end.

Section Meaning.
Context (map : CfgValue -> CfgValue).

Definition map_content (c : content) : content :=
  match c with
  | NoPayload => NoPayload
  | Vals l => Vals (map <$> l)
  | Calls l => Calls (rewrite_arg map <$> l)
  | Projs l => Projs (rewrite_projection map <$> l)
  end.

(** The inline operands under the map. *)
Definition map_operands (d : CfgInstData) : CfgInstData :=
  match d with
  | IAdd a b => IAdd (map a) (map b) | ISub a b => ISub (map a) (map b)
  | IMul a b => IMul (map a) (map b)
  | IWrappingAdd a b => IWrappingAdd (map a) (map b)
  | IWrappingSub a b => IWrappingSub (map a) (map b)
  | IWrappingMul a b => IWrappingMul (map a) (map b)
  | IDiv a b => IDiv (map a) (map b) | IMod a b => IMod (map a) (map b)
  | IEq a b => IEq (map a) (map b) | INe a b => INe (map a) (map b)
  | ILt a b => ILt (map a) (map b) | IGt a b => IGt (map a) (map b)
  | ILe a b => ILe (map a) (map b) | IGe a b => IGe (map a) (map b)
  | IBitAnd a b => IBitAnd (map a) (map b) | IBitOr a b => IBitOr (map a) (map b)
  | IBitXor a b => IBitXor (map a) (map b)
  | IShl a b => IShl (map a) (map b) | IShr a b => IShr (map a) (map b)
  | INeg a => INeg (map a) | INot a => INot (map a) | IBitNot a => IBitNot (map a)
  | IAlloc slot v => IAlloc slot (map v)
  | IStore slot v => IStore slot (map v)
  | IParamStore slot v => IParamStore slot (map v)
  | IEnumPayloadGet v e i f => IEnumPayloadGet (map v) e i f
  | IIntCast v t => IIntCast (map v) t
  | IDrop v => IDrop (map v)
  | IPlaceRead p => IPlaceRead (mkPlace (rewrite_base map (base p)) (base_type p) (place_projections p))
  | IMoveOut p => IMoveOut (mkPlace (rewrite_base map (base p)) (base_type p) (place_projections p))
  | IPlaceWrite p v =>
      IPlaceWrite (mkPlace (rewrite_base map (base p)) (base_type p) (place_projections p)) (map v)
  | ICallIndirect callee r => ICallIndirect (map callee) r
  | _ => d
  end.
End Meaning.

(** ** Correctness of one step *)

Record payloads_extend (st st' : Payloads) : Prop := {
  pext_extra : store_extends (p_extra st) (p_extra st');
  pext_calls : store_extends (p_calls st) (p_calls st');
  pext_projs : store_extends (p_projs st) (p_projs st');
}.

#[export] Instance payloads_extend_refl : Reflexive payloads_extend.
Proof. by intros st. Qed.
#[export] Instance payloads_extend_trans : Transitive payloads_extend.
Proof. intros s1 s2 s3 [] []. split; by etrans. Qed.

Definition handle_ok (st : Payloads) (d : CfgInstData) : Prop :=
  match d with
  | IPlaceRead p | IPlaceWrite p _ | IMoveOut p => range_ok (p_projs st) (place_projections p)
  | ICall _ _ r | IAccessorCall _ r | ICallIndirect _ r => range_ok (p_calls st) r
  | IIntrinsic _ _ r => range_ok (p_extra st) r
  | IStructInit _ r => range_ok (p_extra st) r
  | IArrayInit r _ => range_ok (p_extra st) r
  | IEnumVariant _ _ r => range_ok (p_extra st) r
  | _ => True
  end.

Lemma inst_ok_handle c d : inst_ok c d <-> handle_ok (payloads_of c) d.
Proof. by destruct d. Qed.

Lemma handle_extend st st' d : payloads_extend st st' -> handle_ok st d ->
  handle_ok st' d /\ content_of st' d = content_of st d.
Proof.
  intros [He Hc Hp]. destruct d; simpl; try done; intros Hr;
    first [destruct (range_ok_extends _ _ _ He Hr) as [? ->]
          | destruct (range_ok_extends _ _ _ Hc Hr) as [? ->]
          | destruct (range_ok_extends _ _ _ Hp Hr) as [? ->]]; done.
Qed.

Definition term_handles_ok (st : Payloads) (t : Terminator) : Prop :=
  match t with
  | Goto _ r => range_ok (p_extra st) r
  | Branch _ _ ta _ ea => range_ok (p_extra st) ta /\ range_ok (p_extra st) ea
  | _ => True
  end.
Definition erase_term (t : Terminator) : Terminator :=
  match t with
  | Goto target _ => Goto target EMPTY
  | Branch c tb _ eb _ => Branch c tb EMPTY eb EMPTY
  | _ => t
  end.
Definition map_term_operands (map : CfgValue -> CfgValue) (t : Terminator) : Terminator :=
  match t with
  | Branch c tb ta eb ea => Branch (map c) tb ta eb ea
  | Switch v cases d => Switch (map v) cases d
  | Return v => Return (map <$> v)
  | _ => t
  end.
(** The edge arguments, per outgoing edge that has a payload. *)
Definition term_args (st : Payloads) (t : Terminator) : list (list CfgValue) :=
  match t with
  | Goto _ r => [denote (p_extra st) r]
  | Branch _ _ ta _ ea => [denote (p_extra st) ta; denote (p_extra st) ea]
  | _ => []
  end.

Section Step.
Context `{Alloc} (map : CfgValue -> CfgValue) (hook : string -> res CfgEditError unit).
Context (Hhook : forall f, hook f <> Panic).

(** The contract of a step that rewrites [a] into [a'] in growing stores. *)
Definition step_ok {A} (step : Payloads -> A -> res CfgEditError (Payloads * A))
    (R : Payloads -> A -> A -> Prop) (a : A) : Prop :=
  forall st, step st a <> Panic /\
    forall st' a', step st a = Ok (st', a') -> payloads_extend st st' /\ R st' a a'.

Lemma move_vals_ok {F} old st (r : Range F) : range_ok (p_extra old) r ->
  move_vals map hook old st r <> Panic /\
  forall st' r', move_vals map hook old st r = Ok (st', r') ->
    payloads_extend st st' /\ range_ok (p_extra st') r' /\
    denote (p_extra st') r' = map <$> denote (p_extra old) r.
Proof.
  intros Hr. rw /move_vals. pose proof (Hhook (FAMILY F)) as Hh.
  destruct (hook (FAMILY F)); simpl; [|done..]. rw range_ok_view //= /push_vals /push_result.
  pose proof (append_no_panic (F := F) (p_extra st) (map <$> denote (p_extra old) r)).
  destruct (append _ _) as [[s q]|e|] eqn:Ha; [|done..]. split; [done|].
  intros st' r' [= <- <-]. split; [|by eapply append_range_ok].
  split; try reflexivity. by eapply append_store_extends.
Qed.

Lemma move_calls_ok old st r : range_ok (p_calls old) r ->
  move_calls map hook old st r <> Panic /\
  forall st' r', move_calls map hook old st r = Ok (st', r') ->
    payloads_extend st st' /\ range_ok (p_calls st') r' /\
    denote (p_calls st') r' = rewrite_arg map <$> denote (p_calls old) r.
Proof.
  intros Hr. rw /move_calls. pose proof (Hhook (FAMILY FCallArgs)) as Hh.
  destruct (hook _); simpl; [|done..]. rw range_ok_view //= /push_calls /push_result.
  pose proof (append_no_panic (F := FCallArgs) (p_calls st) (rewrite_arg map <$> denote (p_calls old) r)).
  destruct (append _ _) as [[s q]|e|] eqn:Ha; [|done..]. split; [done|].
  intros st' r' [= <- <-]. split; [|by eapply append_range_ok].
  split; try reflexivity. by eapply append_store_extends.
Qed.

Lemma move_place_ok old st p : range_ok (p_projs old) (place_projections p) ->
  move_place map hook old st p <> Panic /\
  forall st' p', move_place map hook old st p = Ok (st', p') ->
    payloads_extend st st' /\ range_ok (p_projs st') (place_projections p') /\
    denote (p_projs st') (place_projections p') =
      rewrite_projection map <$> denote (p_projs old) (place_projections p) /\
    base p' = rewrite_base map (base p) /\ base_type p' = base_type p.
Proof.
  intros Hr. rw /move_place. pose proof (Hhook (FAMILY FProjections)) as Hh.
  destruct (hook _); simpl; [|done..]. rw range_ok_view //= /push_projs /push_result.
  pose proof (append_no_panic (F := FProjections) (p_projs st)
    (rewrite_projection map <$> denote (p_projs old) (place_projections p))).
  destruct (append _ _) as [[s q]|e|] eqn:Ha; [|done..]. split; [done|].
  intros st' p' [= <- <-]. split; [|by destruct (append_range_ok _ _ _ _ Ha)].
  split; try reflexivity. by eapply append_store_extends.
Qed.

Definition inst_rewritten (old st : Payloads) (d d' : CfgInstData) : Prop :=
  handle_ok st d' /\ erase d' = erase (map_operands map d) /\
  content_of st d' = map_content map (content_of old d) /\ is_move_out d' = is_move_out d.

Definition term_rewritten (old st : Payloads) (t t' : Terminator) : Prop :=
  term_handles_ok st t' /\ erase_term t' = erase_term (map_term_operands map t) /\
  term_args st t' = (fmap (M := list) map) <$> term_args old t.

Ltac use_move H :=
  let Hp := fresh "Hp" in let Hq := fresh "Hq" in destruct H as [Hp Hq];
  match type of Hp with ?m <> Panic =>
    destruct m as [[? ?]|?|] eqn:?; simpl; [|split; [done|by intros]|done];
    split; [done|]; intros st' d' [= <- <-]; specialize (Hq _ _ eq_refl) end.

Lemma rewrite_inst_ok old d : handle_ok old d ->
  step_ok (rewrite_inst map hook old) (inst_rewritten old) d.
Proof.
  intros Hd st.
  destruct d; simpl in Hd |- *;
    try (split; [done|]; intros st' d' [= <- <-]; by split);
    try (use_move (move_vals_ok old st _ Hd); destruct Hq as (He & Hr & Hc);
         rw /inst_rewritten /= Hc; by split_and!);
    try (use_move (move_calls_ok old st _ Hd); destruct Hq as (He & Hr & Hc);
         rw /inst_rewritten /= Hc; by split_and!);
    use_move (move_place_ok old st _ Hd); destruct Hq as (He & Hr & Hc & Hb & Ht);
      rw /inst_rewritten /= Hc Hb Ht; by split_and!.
Qed.

Lemma rewrite_term_ok old t : term_handles_ok old t ->
  step_ok (rewrite_term map hook old) (term_rewritten old) t.
Proof.
  intros Ht st. destruct t as [tg r|c tb ta eb ea|v cs d|[v|]| |]; simpl in Ht |- *;
    try (split; [done|]; intros st' d' [= <- <-]; by split).
  - use_move (move_vals_ok old st _ Ht). destruct Hq as (He & Hr & Hc).
    rw /term_rewritten /= Hc. by split_and!.
  - destruct Ht as [Hta Hea]. destruct (move_vals_ok old st _ Hta) as [Hp1 Hq1].
    destruct (move_vals map hook old st ta) as [[st1 ta']|?|]; simpl; [|split; [done|by intros]|done].
    specialize (Hq1 _ _ eq_refl) as (He1 & Hr1 & Hc1).
    use_move (move_vals_ok old st1 _ Hea). destruct Hq as (He & Hr & Hc).
    split; [by etrans|].
    destruct (range_ok_extends _ _ _ (pext_extra _ _ He) Hr1) as [Hr1' Hd1].
    rw /term_rewritten /= Hc Hd1 Hc1. by split_and!.
Qed.
End Step.

Lemma rewrite_all_ok {A} (step : Payloads -> A -> res CfgEditError (Payloads * A))
    (R : Payloads -> A -> A -> Prop) l :
  (forall st st' a a', payloads_extend st st' -> R st a a' -> R st' a a') ->
  Forall (step_ok step R) l -> step_ok (rewrite_all step) (fun st => Forall2 (R st)) l.
Proof.
  intros Hmono. induction 1 as [|a l Ha _ IH]; intros st; simpl.
  { split; [done|]. intros st' a' [= <- <-]. by split. }
  destruct (Ha st) as [Hp1 Hq1]. destruct (step st a) as [[st1 a1]|e|]; simpl; [|by split|done].
  destruct (IH st1) as [Hp2 Hq2].
  destruct (rewrite_all step st1 l) as [[st2 l2]|e|]; simpl; [|by split|done].
  split; [done|]. intros st' a' [= <- <-].
  destruct (Hq1 _ _ eq_refl) as [He1 Hr1]. destruct (Hq2 _ _ eq_refl) as [He2 Hr2].
  split; [by etrans|]. constructor; [by eapply Hmono|done].
Qed.

Lemma inst_rewritten_mono map old st st' d d' : payloads_extend st st' ->
  inst_rewritten map old st d d' -> inst_rewritten map old st' d d'.
Proof.
  intros He (Hh & H1 & H2 & H3). destruct (handle_extend _ _ _ He Hh) as [Hh' Hc].
  split_and!; [done..| |done]. by rw Hc.
Qed.

Lemma term_rewritten_mono map old st st' t t' : payloads_extend st st' ->
  term_rewritten map old st t t' -> term_rewritten map old st' t t'.
Proof.
  intros He (Hh & H1 & H2). destruct He as [He _ _].
  destruct t' as [tg r|c tb ta eb ea|v cs d|[v|]| |]; simpl in Hh, H2; try by split_and!.
  - destruct (range_ok_extends _ _ _ He Hh) as [Hh' Hd].
    split_and!; [done..|]. by rw /= Hd.
  - destruct Hh as [Ha Hb]. destruct (range_ok_extends _ _ _ He Ha) as [Ha' Hda].
    destruct (range_ok_extends _ _ _ He Hb) as [Hb' Hdb].
    split_and!; [done..|]. by rw /= Hda Hdb.
Qed.

(** How a rewritten instruction and a rewritten block read in their owners. *)
Definition value_rewritten (map : CfgValue -> CfgValue) (old st : Payloads) (i i' : CfgInst) : Prop :=
  inst_rewritten map old st (data i) (data i') /\ ty i' = ty i /\ span i' = span i.
Definition block_rewritten (map : CfgValue -> CfgValue) (old st : Payloads) (b b' : BasicBlock)
    : Prop :=
  term_rewritten map old st (terminator b) (terminator b') /\
  block_id b' = block_id b /\ params b' = params b /\ insts b' = insts b.

Section SweepOk.
Context `{Alloc} (map : CfgValue -> CfgValue) (hook : string -> res CfgEditError unit).
Context (Hhook : forall f, hook f <> Panic) (c : Cfg) (Hok : cfg_ok c).
Notation old := (payloads_of c).

Lemma rewrite_value_ok i : i ∈ values c ->
  step_ok (rewrite_value map hook old) (value_rewritten map old) i.
Proof.
  intros [v Hv]%list_elem_of_lookup st. rw /rewrite_value.
  pose proof (proj1 (inst_ok_handle c _) (ok_insts _ Hok _ _ Hv)) as Hh.
  destruct (rewrite_inst_ok map hook Hhook old (data i) Hh st) as [Hp Hq].
  destruct (rewrite_inst _ _ _ _ _) as [[st1 d1]|e|]; simpl; [|by split|done].
  split; [done|]. intros st' i' [= <- <-]. by destruct (Hq _ _ eq_refl).
Qed.

Lemma rewrite_block_ok b : b ∈ blocks c ->
  step_ok (rewrite_block map hook old) (block_rewritten map old) b.
Proof.
  intros [v Hv]%list_elem_of_lookup st. rw /rewrite_block.
  assert (term_handles_ok old (terminator b)) as Hh.
  { destruct (ok_blocks _ Hok _ _ Hv) as [_ _ _ Ht]. destruct (terminator b); simpl in *; tauto. }
  destruct (rewrite_term_ok map hook Hhook old (terminator b) Hh st) as [Hp Hq].
  destruct (rewrite_term _ _ _ _ _) as [[st1 t1]|e|]; simpl; [|by split|done].
  split; [done|]. intros st' i' [= <- <-]. by destruct (Hq _ _ eq_refl).
Qed.

Lemma sweep_ok :
  rewrite_value_uses_in_place_inner map hook c <> Panic /\
  forall c', rewrite_value_uses_in_place_inner map hook c = Ok c' ->
    Forall2 (value_rewritten map old (payloads_of c')) (values c) (values c') /\
    Forall2 (block_rewritten map old (payloads_of c')) (blocks c) (blocks c') /\
    switch_cases c' = switch_cases c /\ entry c' = entry c /\
    move_out_values c' = move_out_values c /\ call_contracts c' = call_contracts c /\
    ownership_boundary_values c' =
      ownership_boundary_values c ∪ set_map map (ownership_boundary_values c).
Proof.
  rw /rewrite_value_uses_in_place_inner.
  destruct (rewrite_all_ok (rewrite_value map hook old) (value_rewritten map old) (values c))
    with (st := no_payloads) as [Hp1 Hq1].
  { intros st st' a a' He (?&?&?). split_and!; [|done..]. by eapply inst_rewritten_mono. }
  { apply Forall_forall. intros i. apply rewrite_value_ok. }
  destruct (rewrite_all _ _ (values c)) as [[st1 vs]|e|]; simpl; [|by split|done].
  destruct (Hq1 _ _ eq_refl) as [He1 Hr1].
  destruct (rewrite_all_ok (rewrite_block map hook old) (block_rewritten map old) (blocks c))
    with (st := st1) as [Hp2 Hq2].
  { intros st st' a a' He (?&?&?&?). split_and!; [|done..]. by eapply term_rewritten_mono. }
  { apply Forall_forall. intros b. apply rewrite_block_ok. }
  destruct (rewrite_all _ _ (blocks c)) as [[st2 bs]|e|]; simpl; [|by split|done].
  destruct (Hq2 _ _ eq_refl) as [He2 Hr2].
  split; [done|]. intros c' [= <-]. split_and!; try done.
  - rw /payloads_of /=. eapply Forall2_impl; [exact Hr1|].
    intros i i' (?&?&?). split_and!; [|done..]. destruct st2. by eapply inst_rewritten_mono.
Qed.

(** The swept owner is again well formed. *)
Lemma sweep_cfg_ok c' : rewrite_value_uses_in_place_inner map hook c = Ok c' -> cfg_ok c'.
Proof.
  intros Hc. destruct (proj2 sweep_ok c' Hc) as (Hv & Hb & Hsw & He & Hm & _ & _).
  pose proof (Forall2_length _ _ _ Hv) as Hlv. pose proof (Forall2_length _ _ _ Hb) as Hlb.
  assert (value_count c' = value_count c) as Hvc by (by rw /value_count).
  assert (block_count c' = block_count c) as Hbc by (by rw /block_count).
  split.
  - intros i b' Hb'. destruct (Forall2_lookup_r _ _ _ _ _ Hb Hb') as (b & Hlk & Ht & H1 & H2 & H3).
    destruct (ok_blocks _ Hok _ _ Hlk) as [O1 O2 O3 O4].
    split; [by rw H1|by rw H3 Hvc|by rw H2 Hvc|].
    destruct Ht as (Hh & Her & _).
    destruct (terminator b) as [tg r|cd tb ta eb ea|v cs d|[v|]| |],
      (terminator b') as [tg' r'|cd' tb' ta' eb' ea'|v' cs' d'|v'| |]; simpl in *; try done;
      simplify_eq/=; rw ?Hbc ?Hsw; tauto.
  - intros v i' Hi'. destruct (Forall2_lookup_r _ _ _ _ _ Hv Hi') as (i & Hlk & Ht & _).
    apply inst_ok_handle, Ht.
  - rw Hbc. apply (ok_block_bound _ Hok).
  - rw Hvc. apply (ok_value_bound _ Hok).
  - rw Hm (ok_move_outs _ Hok) /counted_move_outs. clear -Hv.
    induction Hv as [|i i' l l' Hi _ IH]; [done|]. rw !filter_cons.
    destruct Hi as ((_ & _ & _ & Hmo) & _). rw Hmo.
    destruct (is_move_out (data i)); simpl; [by f_equal|done].
Qed.
End SweepOk.

(** ** Property *)

(** What a completed sweep establishes. *)
Definition uses_rewritten (map : CfgValue -> CfgValue) (c c' : Cfg) : Prop :=
  Forall2 (value_rewritten map (payloads_of c) (payloads_of c')) (values c) (values c') /\
  Forall2 (block_rewritten map (payloads_of c) (payloads_of c')) (blocks c) (blocks c') /\
  switch_cases c' = switch_cases c /\ entry c' = entry c /\
  ownership_boundary_values c' =
    ownership_boundary_values c ∪ set_map map (ownership_boundary_values c).

(** C32.  Rewriting value uses is transactional and complete: on success every
    operand of every instruction and terminator - inline, in a place base, in
    a call, projection, aggregate or edge payload - is the image of the old
    one and nothing else about the graph changed (definitions, types, block
    ids, parameters, attachment, switch cases), the new owner is well formed
    although its payload stores were rebuilt, and the ownership-boundary facts
    follow their values; on an error the owner is unchanged; it never panics. *)
Theorem rewrite_value_uses_correct `{Alloc} (map : CfgValue -> CfgValue) (fresh : nat) (c : Cfg)
    (Hok : cfg_ok c) :
  match rewrite_value_uses map fresh c with
  | (Ok _, c') => cfg_ok c' /\ uses_rewritten map c c'
  | (Err _, c') => c' = c
  | (Panic, _) => False
  end.
Proof.
  assert (cfg_ok (clone fresh c)) as Hok' by (apply (step_stores c Hok); done).
  rw /rewrite_value_uses /rewrite_value_uses_in_place.
  destruct (sweep_ok map (fun _ => Ok tt) ltac:(done) _ Hok') as [Hp Hq].
  destruct (rewrite_value_uses_in_place_inner _ _ _) as [c'|e|] eqn:Hr; [|done..].
  split; [exact (sweep_cfg_ok map (fun _ => Ok tt) ltac:(done) _ Hok' _ Hr)|].
  destruct (Hq c' eq_refl) as (?&?&?&?&_&_&?). by split_and!.
Qed.

Lemma rewrite_value_uses_correct_witness :
  cfg_ok sample /\
  match rewrite_value_uses (H := unlimited) (fun v => v + 1) 9 sample with
  | (Ok _, c') => option_map data (values c' !! 2) = Some (IArrayInit (mkRange 0 2) Elementwise) /\
                  view_expect (extra c') (mkRange (F := FArrayElements) 0 2) = Some [1; 1] /\
                  cfg_ok c'
  | _ => False
  end.
Proof.
  assert (cfg_ok sample) as Hok by exact (built_cfg_ok (H0 := unlimited_laws) sample sample_built).
  split; [exact Hok|].
  pose proof (rewrite_value_uses_correct (H := unlimited) (fun v => v + 1) 9 sample Hok) as Hr.
  destruct (rewrite_value_uses _ 9 sample) as [[u|e|] c'] eqn:E.
  - assert (c' = snd (rewrite_value_uses (H := unlimited) (fun v => v + 1) 9 sample)) as Hc by (by rewrite E).
    split; [rewrite Hc; vm_compute; reflexivity|].
    split; [rewrite Hc; vm_compute; reflexivity|exact (proj1 Hr)].
  - exfalso. vm_compute in E. discriminate E.
  - exact Hr.
Defined.
