(* ===== verification/Classify.v ===== *)
(** * Trap, effect and ownership classifier

    [crates/rue-cfg/src/opt/classify.rs], and the operand enumeration of
    [crates/rue-cfg/src/opt/dce.rs] that every pass shares. *)

From S2P Require Import Prelude IntegerSemantics Types Payload CfgData.

(** [PlaceRead]'s trap test. *)
Definition is_index (p : Projection) : bool :=
  match p with Index _ _ => true | Field _ _ => false end.
Definition place_may_trap (cfg : Cfg) (p : Place) : option bool :=
  match base p with
  | Indirect _ => Some true
  | _ => projs ← get_place_projections cfg p; Some (existsb is_index projs)
  end.

Definition may_trap (cfg : Cfg) (value : CfgValue) : option bool :=
  i ← get_inst cfg value;
  match data i with
  | IAdd _ _ | ISub _ _ | IMul _ _ | IDiv _ _ | IMod _ _ | INeg _ => Some true
  | IIntCast _ _ => Some true
  | IPlaceRead p => place_may_trap cfg p
  | _ => Some false
  end.

Definition has_observable_side_effect (cfg : Cfg) (value : CfgValue) : option bool :=
  i ← get_inst cfg value;
  Some match data i with
  | ICall _ _ _ | ICallIndirect _ _ | IAccessorCall _ _ | IIntrinsic _ _ _ => true
  | IAlloc _ _ | IStore _ _ | IParamStore _ _ | IPlaceWrite _ _ => true
  | IDrop _ => true
  | IStorageLive _ _ | IStorageDead _ _ => true
  | IMoveOut _ => true
  | _ => false
  end.

Definition is_speculatable (cfg : Cfg) (value : CfgValue) : option bool :=
  t ← may_trap cfg value;
  if (t : bool) then Some false
  else o ← has_observable_side_effect cfg value; Some (negb o).

(** [needs_drop] is the frozen pool's fact about a type; a missing fact counts
    as owning. *)
Definition materializes_owned_value (needs_drop : Type_ -> option bool) (cfg : Cfg)
    (value : CfgValue) : option bool :=
  i ← get_inst cfg value; Some (default true (needs_drop (ty i))).

(** ** Operands *)

Inductive CfgUseKind := UseValue | UseAddress.

#[export] Instance CfgUseKind_eq_dec : EqDecision CfgUseKind.
Proof. solve_decision. Defined.

Definition reads (l : list CfgValue) : list (CfgValue * CfgUseKind) := (fun v => (v, UseValue)) <$> l.
Definition arg_use (a : CfgCallArg) : CfgValue * CfgUseKind :=
  (arg_value a, match arg_mode a with Normal => UseValue | Inout | Borrow => UseAddress end).

Definition base_uses (b : PlaceBase) : list CfgValue :=
  match b with Accessor v | Indirect v => [v] | Local _ | Param _ => [] end.
Definition index_uses (projs : list Projection) : list CfgValue :=
  omap (fun p => match p with Index _ index => Some index | Field _ _ => None end) projs.

(** The visited operands of an instruction, in order. *)
Definition data_uses (cfg : Cfg) (d : CfgInstData) : option (list (CfgValue * CfgUseKind)) :=
  match d with
  | IConst _ | IBoolConst _ | IStringConst _ | IParam _ | IBlockParam _ | IFnAddr _ => Some []
  | IAdd a b | ISub a b | IMul a b | IWrappingAdd a b | IWrappingSub a b | IWrappingMul a b
  | IDiv a b | IMod a b | IEq a b | INe a b | ILt a b | IGt a b | ILe a b | IGe a b
  | IBitAnd a b | IBitOr a b | IBitXor a b | IShl a b | IShr a b => Some (reads [a; b])
  | INeg v | INot v | IBitNot v => Some (reads [v])
  | IAlloc _ init => Some (reads [init])
  | ILoad _ => Some []
  | IStore _ value => Some (reads [value])
  | IParamStore _ value => Some (reads [value])
  | ICall _ _ args | IAccessorCall _ args => l ← call_args_of cfg args; Some (fmap (M := list) arg_use l)
  | ICallIndirect callee args =>
      l ← call_args_of cfg args; Some (reads [callee] ++ fmap (M := list) arg_use l)
  | IIntrinsic _ _ args => l ← intrinsic_args cfg args; Some (reads l)
  | IStructInit _ fields => l ← struct_fields cfg fields; Some (reads l)
  | IArrayInit els _ => l ← array_elements cfg els; Some (reads l)
  | IEnumVariant _ _ payload => l ← enum_payload cfg payload; Some (reads l)
  | IEnumPayloadGet b _ _ _ => Some (reads [b])
  | IIntCast value _ => Some (reads [value])
  | IDrop value => Some (reads [value])
  | IStorageLive _ _ | IStorageDead _ _ => Some []
  | IPlaceRead p | IMoveOut p =>
      projs ← get_place_projections cfg p;
      Some (reads (base_uses (base p) ++ index_uses projs))
  | IPlaceWrite p value =>
      projs ← get_place_projections cfg p;
      Some (reads ([value] ++ base_uses (base p) ++ index_uses projs))
  end.

Definition visit_instruction_uses_kinded (cfg : Cfg) (value : CfgValue)
    : option (list (CfgValue * CfgUseKind)) :=
  i ← get_inst cfg value; data_uses cfg (data i).
Definition visit_instruction_uses (cfg : Cfg) (value : CfgValue) : option (list CfgValue) :=
  uses ← visit_instruction_uses_kinded cfg value; Some uses.*1.

Definition visit_terminator_uses (cfg : Cfg) (t : Terminator) : option (list CfgValue) :=
  match t with
  | Goto _ args => goto_args cfg args
  | Branch cond _ ta _ ea =>
      l1 ← then_args_of cfg ta; l2 ← else_args_of cfg ea; Some (cond :: l1 ++ l2)
  | Switch scrutinee _ _ => Some [scrutinee]
  | Return (Some v) => Some [v]
  | Return None | Unreachable | TermNone => Some []
  end.

(** ** Totality on well-formed owners *)

Section Total.
Context (cfg : Cfg) (Hok : cfg_ok cfg).

Lemma get_inst_total v : v < value_count cfg -> exists i, get_inst cfg v = Some i /\ inst_ok cfg (data i).
Proof.
  intros [i Hi]%lookup_lt_is_Some_2. exists i. split; [done|]. by eapply (ok_insts _ Hok).
Qed.

Lemma data_uses_total d : inst_ok cfg d -> is_Some (data_uses cfg d).
Proof.
  intros Hd. destruct d; simpl in Hd |- *; try by eexists.
  all: rw /get_place_projections /call_args_of /intrinsic_args /struct_fields /array_elements
          /enum_payload (range_ok_view _ _ Hd); by eexists.
Qed.

Lemma uses_total v : v < value_count cfg -> is_Some (visit_instruction_uses cfg v).
Proof.
  intros (i & Hi & Hd)%get_inst_total.
  rw /visit_instruction_uses /visit_instruction_uses_kinded Hi /=.
  destruct (data_uses_total _ Hd) as [l ->]. by eexists.
Qed.

Lemma terminator_uses_total i b : blocks cfg !! i = Some b ->
  is_Some (visit_terminator_uses cfg (terminator b)).
Proof.
  intros Hb. destruct (ok_blocks _ Hok _ _ Hb) as [_ _ _ Ht].
  destruct (terminator b) as [tg r|cd tb ta eb ea|v cs d|[v|]| |]; simpl in Ht |- *;
    try by eexists.
  - destruct Ht as [_ Hr]. rw /goto_args (range_ok_view _ _ Hr). by eexists.
  - destruct Ht as (_ & _ & Ha & Hb'). rw /then_args_of /else_args_of (range_ok_view _ _ Ha)
      (range_ok_view _ _ Hb') /=. by eexists.
Qed.

Lemma may_trap_total v : v < value_count cfg -> is_Some (may_trap cfg v).
Proof.
  intros (i & Hi & Hd)%get_inst_total. rw /may_trap Hi /=.
  destruct (data i); try by eexists. rw /place_may_trap.
  destruct (base place); rw /get_place_projections ?(range_ok_view _ _ Hd) /=; by eexists.
Qed.

Lemma side_effect_total v : v < value_count cfg -> is_Some (has_observable_side_effect cfg v).
Proof. intros (i & Hi & _)%get_inst_total. rw /has_observable_side_effect Hi /=. by eexists. Qed.
End Total.
