(* ===== verification/Dce.v ===== *)
(** * Dead code elimination

    [crates/rue-cfg/src/opt/dce.rs]: the bit set, reachability, liveness, and
    the pass that deletes dead instructions and unreachable blocks. *)

From S2P Require Import Prelude IntegerSemantics Types Payload CfgData CfgEdit Worklist Cfg Classify.
From stdpp Require Import gmap.
Import Machine.
#[local] Arguments Nat.div : simpl never.
#[local] Arguments Nat.modulo : simpl never.

(** ** The bit set *)

(** 64-bit words, least significant bit first. *)
Record BitSet := mkBitSet { bits : list Z }.

Definition with_capacity (capacity : nat) : BitSet :=
  mkBitSet (replicate ((capacity + 63) / 64) 0%Z).

Definition bit_mask (index : nat) : Z := Z.shiftl 1 (Z.of_nat (index mod 64)).

Definition grown (b : list Z) (word_index : nat) : list Z :=
  if length b <=? word_index then b ++ replicate (word_index + 1 - length b) 0%Z else b.

(** [insert]: the new set and whether the index was newly inserted. *)
Definition bitset_insert (s : BitSet) (index : nat) : BitSet * bool :=
  let word_index := index / 64 in
  let b := grown (bits s) word_index in
  let word := default 0%Z (b !! word_index) in
  let was_set := negb (Z.land word (bit_mask index) =? 0)%Z in
  (mkBitSet (<[word_index := Z.lor word (bit_mask index)]> b), negb was_set).

Definition bitset_contains (s : BitSet) (index : nat) : bool :=
  match bits s !! (index / 64) with
  | Some word => negb (Z.land word (bit_mask index) =? 0)%Z
  | None => false
  end.

#[export] Instance bitset_marks : MarkSet BitSet := {|
  contains := bitset_contains;
  insert_mark s i := fst (bitset_insert s i);
  holds _ _ := True;
|}.

Lemma land_bit w k : (0 <= k)%Z ->
  negb (Z.land w (Z.shiftl 1 k) =? 0)%Z = Z.testbit w k.
Proof.
  intros Hk. rw Z.shiftl_1_l.
  assert (forall j, (0 <= j)%Z -> Z.testbit (Z.land w (2 ^ k)) j = Z.testbit w j && (k =? j)%Z) as Hb.
  { intros j Hj. by rw Z.land_spec Z.pow2_bits_eqb. }
  destruct (Z.testbit w k) eqn:Hw.
  - apply negb_true_iff, Z.eqb_neq. intros H0. specialize (Hb k Hk).
    by rw H0 Z.bits_0 Hw Z.eqb_refl in Hb.
  - apply negb_false_iff, Z.eqb_eq. apply Z.bits_inj'. intros j Hj. rw Hb // Z.bits_0.
    destruct (Z.eqb_spec k j) as [->|]; [by rw Hw|by rw andb_false_r].
Qed.

(** Bit [i] of the set, as a bit of its word. *)
Lemma contains_testbit s i :
  bitset_contains s i = Z.testbit (default 0%Z (bits s !! (i / 64))) (Z.of_nat (i mod 64)).
Proof.
  rw /bitset_contains /bit_mask. destruct (bits s !! (i / 64)) as [w|]; simpl.
  - apply land_bit. lia.
  - by rw Z.bits_0.
Qed.

Lemma grown_lookup b k j : default 0%Z (grown b k !! j) = default 0%Z (b !! j).
Proof.
  rw /grown. destruct (Nat.leb_spec (length b) k); [|done].
  destruct (decide (j < length b)) as [Hj|Hj].
  - by rw lookup_app_l.
  - rw lookup_app_r; [|lia]. rw (lookup_ge_None_2 b); [|lia]. simpl.
    destruct (replicate _ _ !! _) eqn:E; [|done].
    by apply lookup_replicate in E as [-> _].
Qed.

Lemma grown_length b k : k < length (grown b k).
Proof.
  rw /grown. destruct (Nat.leb_spec (length b) k); [|done].
  rw length_app length_replicate. lia.
Qed.

Lemma bitset_contains_insert s i j :
  bitset_contains (fst (bitset_insert s i)) j = bool_decide (i = j) || bitset_contains s j.
Proof.
  rw !contains_testbit /bitset_insert /=.
  destruct (decide (i / 64 = j / 64)) as [Hw|Hw].
  - rw -Hw list_lookup_insert_eq; [|apply grown_length]. rw /= Z.lor_spec grown_lookup.
    rw orb_comm. f_equal. rw /bit_mask Z.shiftl_1_l Z.pow2_bits_eqb; [|lia].
    apply eq_true_iff_eq. rw Z.eqb_eq bool_decide_eq_true.
    pose proof (Nat.div_mod_eq i 64). pose proof (Nat.div_mod_eq j 64). split; [lia|by intros ->].
  - rw list_lookup_insert_ne // grown_lookup bool_decide_false //. by intros ->.
Qed.

#[export] Instance bitset_laws : MarkSetLaws BitSet.
Proof. split; [intros s i j _; apply bitset_contains_insert|done]. Qed.

Lemma bitset_insert_new s i : snd (bitset_insert s i) = negb (bitset_contains s i).
Proof.
  rw /= contains_testbit -(grown_lookup (bits s) (i / 64)) /bit_mask land_bit //. lia.
Qed.

Lemma with_capacity_empty n i : bitset_contains (with_capacity n) i = false.
Proof.
  rw contains_testbit /=. destruct (replicate _ _ !! _) eqn:E; simpl; [|by rw Z.bits_0].
  apply lookup_replicate in E as [-> _]. apply Z.bits_0.
Qed.

(** ** Reachability and liveness *)

(** Fuel for the reachability worklist: every edge is pushed at most once. *)
Definition reach_fuel (cfg : Cfg) : nat :=
  2 + sum_list (out_degree (visit_successors cfg) <$> seq 0 (block_count cfg)).

Definition compute_reachable_blocks (cfg : Cfg) : option BitSet :=
  pop_loop (visit_successors cfg) (reach_fuel cfg) (with_capacity (block_count cfg)) [entry cfg].

Definition has_side_effects (cfg : Cfg) (value : CfgValue) : option bool :=
  t ← may_trap cfg value;
  if (t : bool) then Some true else has_observable_side_effect cfg value.

(** [has_side_effects(cfg, value) && live.insert(value)]. *)
Definition seed_inst (cfg : Cfg) (st : BitSet * list CfgValue) (value : CfgValue)
    : option (BitSet * list CfgValue) :=
  e ← has_side_effects cfg value; Some (if (e : bool) then mark_push st value else st).

(** Pass 1: the effecting or trapping instructions of reachable blocks. *)
Definition seed_effects (cfg : Cfg) (reachable : BitSet) (st : BitSet * list CfgValue)
    : option (BitSet * list CfgValue) :=
  fold_opt (fun st b =>
      if bitset_contains reachable (block_id b) then fold_opt (seed_inst cfg) st (insts b)
      else Some st) st (blocks cfg).

(** Pass 2: terminator operands and block parameters of reachable blocks. *)
Definition seed_terminators (cfg : Cfg) (reachable : BitSet) (st : BitSet * list CfgValue)
    : option (BitSet * list CfgValue) :=
  fold_opt (fun st b =>
      if bitset_contains reachable (block_id b) then
        uses ← visit_terminator_uses cfg (terminator b);
        Some (fold_left mark_push ((params b).*1) (fold_left mark_push uses st))
      else Some st) st (blocks cfg).

(** Pass 3 closes the marks under operands; a value enters the worklist only
    when first marked, so the arena size bounds the iterations. *)
Definition compute_live_values (cfg : Cfg) (reachable : BitSet) : option BitSet :=
  st1 ← seed_effects cfg reachable (with_capacity (value_count cfg), []);
  st2 ← seed_terminators cfg reachable st1;
  push_loop (visit_instruction_uses cfg) (S (value_count cfg)) (fst st2) (snd st2).

(** ** The pass *)

Record Stats := mkStats { instructions_removed : nat; blocks_removed : nat }.

Definition made_progress (s : Stats) : bool :=
  (0 <? instructions_removed s) || (0 <? blocks_removed s).

Definition attached (cfg : Cfg) : nat := sum_list ((fun b => length (insts b)) <$> blocks cfg).

Definition eliminate_dead_instructions (cfg : Cfg) (live : BitSet) : option Cfg :=
  fold_opt (fun c b =>
      update_block b (fun blk => with_insts (filter (fun v => bitset_contains live v) (insts blk)) blk) c)
    cfg (block_ids cfg).

Definition eliminate_unreachable_blocks (cfg : Cfg) (reachable : BitSet) : option Cfg :=
  fst <$> retain_blocks (fun b => bitset_contains reachable b) cfg.

Definition run (cfg : Cfg) : option (Cfg * Stats) :=
  let instructions_before := attached cfg in
  let blocks_before := block_count cfg in
  reachable ← compute_reachable_blocks cfg;
  live ← compute_live_values cfg reachable;
  cfg1 ← eliminate_dead_instructions cfg live;
  cfg2 ← eliminate_unreachable_blocks cfg1 reachable;
  Some (cfg2, mkStats (instructions_before - attached cfg2) (blocks_before - block_count cfg2)).

(** [address_only_values]: out-of-range operands are ignored. *)
Definition mark_bool (map : list bool) (used : CfgValue) : list bool := <[used := true]> map.

Definition mark_use (st : list bool * list bool) (use : CfgValue * CfgUseKind)
    : list bool * list bool :=
  match use.2 with
  | UseValue => (st.1, mark_bool st.2 use.1)
  | UseAddress => (mark_bool st.1 use.1, st.2)
  end.

Definition address_only_values (cfg : Cfg) : option (list bool) :=
  st ← fold_opt (fun st b =>
      st' ← fold_opt (fun st v =>
              uses ← visit_instruction_uses_kinded cfg v; Some (fold_left mark_use uses st))
            st (insts b);
      uses ← visit_terminator_uses cfg (terminator b);
      Some (fold_left mark_use (reads uses) st'))
    (replicate (value_count cfg) false, replicate (value_count cfg) false) (blocks cfg);
  Some (zip_with (fun addressed read => addressed && negb read) st.1 st.2).

(** ** Correctness of the analyses *)

Section Analyses.
Context (cfg : Cfg) (Hok : cfg_ok cfg) (Hentry : entry cfg < block_count cfg).

(** Operands and terminator operands name values of the arena. *)
Record refs_ok : Prop := {
  refs_insts : forall v us, v < value_count cfg -> visit_instruction_uses cfg v = Some us ->
    Forall (fun u => u < value_count cfg) us;
  refs_terms : forall i b us, blocks cfg !! i = Some b ->
    visit_terminator_uses cfg (terminator b) = Some us -> Forall (fun u => u < value_count cfg) us;
}.

Lemma visit_successors_flow u v : edge (visit_successors cfg) u v <-> flow cfg u v.
Proof.
  rw /edge /flow /visit_successors /get_block. split.
  - intros (l & Hl & Hv). destruct (blocks cfg !! u) as [b|] eqn:Hb; simpl in Hl; [|done].
    exists b. split; [done|]. by rw /succs Hl.
  - intros (b & Hb & Hv). exists (succs cfg b). split; [|done]. rw Hb /=.
    apply (succs_total cfg Hok). by eapply list_elem_of_lookup_2.
Qed.

Lemma visit_successors_ok : next_ok (visit_successors cfg) (block_count cfg).
Proof.
  intros v [b Hb]%lookup_lt_is_Some_2. exists (succs cfg b). rw /visit_successors /get_block Hb /=.
  apply (succs_total cfg Hok). by eapply list_elem_of_lookup_2.
Qed.

Lemma rtc_mono {A} (R R' : A -> A -> Prop) x y : (forall a b, R a b -> R' a b) -> rtc R x y -> rtc R' x y.
Proof. intros HR. induction 1; [constructor|]. eapply rtc_l; eauto. Qed.

Lemma reachable_total : exists r, compute_reachable_blocks cfg = Some r /\
  forall v, bitset_contains r v = true <-> rtc (flow cfg) (entry cfg) v.
Proof.
  destruct (pop_loop_from_empty (visit_successors cfg) (block_count cfg)
    (with_capacity (block_count cfg)) [entry cfg] (reach_fuel cfg)) as (r & Hr & Hc).
  - apply visit_successors_ok.
  - done.
  - intros v. apply with_capacity_empty.
  - by apply Forall_singleton.
  - rw /reach_fuel /=. lia.
  - exists r. split; [done|]. intros v. specialize (Hc v). simpl in Hc. rw Hc. split.
    + intros (r' & ->%list_elem_of_singleton & Hp). eapply rtc_mono; [|exact Hp].
      intros a b. apply visit_successors_flow.
    + intros Hp. exists (entry cfg). split; [apply list_elem_of_here|].
      eapply rtc_mono; [|exact Hp]. intros a b. apply visit_successors_flow.
Qed.

(** Pending marks: the set and the stack hold exactly [P]. *)
Definition pending (P : CfgValue -> Prop) (st : BitSet * list CfgValue) : Prop :=
  (forall v, bitset_contains st.1 v = true <-> P v) /\ (forall v, v ∈ st.2 <-> P v) /\
  length st.2 + unmarked (value_count cfg) (fun _ => 1) st.1 = value_count cfg.

Lemma pending_ext P Q st : (forall v, P v <-> Q v) -> pending P st -> pending Q st.
Proof.
  intros He (H1 & H2 & H3). split_and!; [..|done]; intros v; by rw ?H1 ?H2 He.
Qed.

Lemma pending_marks P st us : Forall (fun u => u < value_count cfg) us -> pending P st ->
  pending (fun v => P v \/ v ∈ us) (fold_left mark_push us st).
Proof.
  intros Hus (H1 & H2 & H3). destruct st as [s wl].
  destruct (fold_left mark_push us (s, wl)) as [s' wl'] eqn:Hf.
  destruct (mark_push_fold (visit_instruction_uses cfg) (value_count cfg) us s wl s' wl' Hus) as (F1 & F2 & F3 & F4 & F5 & F6);
    [done|done|]. simpl in *.
  assert (forall v, bitset_contains s' v = true <-> P v \/ v ∈ us) as Hs'.
  { intros v. by rw F1 H1. }
  split_and!; [done| |simpl; lia]. intros v. split.
  - intros [Hv|Hv]%F2; [left; by apply H2|by right].
  - intros Hv. apply Hs', F4 in Hv as [Hv|Hv]; [|done]. by apply F3, H2, H1.
Qed.

Lemma pending_start : pending (fun _ => False) (with_capacity (value_count cfg), []).
Proof.
  split_and!; simpl.
  - intros v. by rw with_capacity_empty.
  - intros v. by rw elem_of_nil.
  - rw /unmarked.
    assert (forall n (l : list nat), filter (fun v => negb (contains (with_capacity n) v)) l = l) as Hall.
    { intros n. induction l as [|v l IH]; [done|].
      rw filter_cons. by rw {1}/contains /= with_capacity_empty /= IH. }
    by rw Hall sum_ones.
Qed.

Context (Hrefs : refs_ok).

(** The seeds a block contributes. *)
Definition effect_in (reachable : BitSet) (b : BasicBlock) (v : CfgValue) : Prop :=
  bitset_contains reachable (block_id b) = true /\ v ∈ insts b /\ has_side_effects cfg v = Some true.
Definition operand_in (reachable : BitSet) (b : BasicBlock) (v : CfgValue) : Prop :=
  bitset_contains reachable (block_id b) = true /\
  ((exists us, visit_terminator_uses cfg (terminator b) = Some us /\ v ∈ us) \/ v ∈ (params b).*1).

Definition live_root (reachable : BitSet) (v : CfgValue) : Prop :=
  exists b, b ∈ blocks cfg /\ (effect_in reachable b v \/ operand_in reachable b v).

Lemma has_side_effects_total v : v < value_count cfg -> is_Some (has_side_effects cfg v).
Proof.
  intros Hv. rw /has_side_effects. destruct (may_trap_total cfg Hok v Hv) as [t ->]. simpl.
  destruct t; [by eexists|]. by apply side_effect_total.
Qed.

Lemma seed_block_total l P st : Forall (fun v => v < value_count cfg) l -> pending P st ->
  exists st', fold_opt (seed_inst cfg) st l = Some st' /\
    pending (fun v => P v \/ (v ∈ l /\ has_side_effects cfg v = Some true)) st'.
Proof.
  intros Hl Hst.
  destruct (fold_opt_total (seed_inst cfg) (fun pre st =>
      pending (fun v => P v \/ (v ∈ pre /\ has_side_effects cfg v = Some true)) st) l st)
    as (st' & Hst' & Hp).
  - eapply pending_ext; [|exact Hst]. intros v. rw elem_of_nil. tauto.
  - intros pre v t [post Hv] Ht. rw /seed_inst.
    assert (v < value_count cfg) as Hlt by (rw Forall_forall in Hl; apply Hl; rw Hv; set_solver).
    destruct (has_side_effects_total v Hlt) as [e He]. rw He /=. eexists. split; [done|].
    destruct e.
    + change (mark_push t v) with (fold_left mark_push [v] t).
      eapply pending_ext; [|apply pending_marks; [by apply Forall_singleton|exact Ht]].
      intros u. simpl. rw elem_of_app list_elem_of_singleton. naive_solver.
    + eapply pending_ext; [|exact Ht]. intros u. simpl. rw elem_of_app list_elem_of_singleton.
      naive_solver.
  - by exists st'.
Qed.

Lemma blocks_fold (Q : BasicBlock -> CfgValue -> Prop) step reachable P st :
  (forall b i P st, blocks cfg !! i = Some b -> pending P st ->
     bitset_contains reachable (block_id b) = true ->
     exists st', step st b = Some st' /\ pending (fun v => P v \/ Q b v) st') ->
  pending P st ->
  exists st', fold_opt (fun st b => if bitset_contains reachable (block_id b) then step st b
                                    else Some st) st (blocks cfg) = Some st' /\
    pending (fun v => P v \/ exists b, b ∈ blocks cfg /\
      bitset_contains reachable (block_id b) = true /\ Q b v) st'.
Proof.
  intros Hstep Hst.
  destruct (fold_opt_total (fun st b => if bitset_contains reachable (block_id b) then step st b
                                    else Some st)
    (fun pre st => pending (fun v => P v \/ exists b, b ∈ pre /\
      bitset_contains reachable (block_id b) = true /\ Q b v) st) (blocks cfg) st)
    as (st' & Hst' & Hp).
  - eapply pending_ext; [|exact Hst]. intros v. set_solver.
  - intros pre b t [post Hb] Ht.
    destruct (bitset_contains reachable (block_id b)) eqn:Hc.
    + edestruct (Hstep b (length pre)) as (t' & Ht' & Hp'); [|exact Ht|exact Hc|].
      { by rw Hb list_lookup_middle. }
      exists t'. split; [done|]. eapply pending_ext; [|exact Hp']. intros v. simpl. split.
      * intros [[?|(b0 & ? & ? & ?)]|?]; [by left|right; exists b0; set_solver|right; exists b; set_solver].
      * intros [?|(b0 & Hin & ? & ?)]; [tauto|].
        apply elem_of_app in Hin as [?|Hin]; [left; right; eauto|].
        apply list_elem_of_singleton in Hin as ->. by right.
    + exists t. split; [done|]. eapply pending_ext; [|exact Ht]. intros v. simpl. split.
      * intros [?|(b0 & ? & ? & ?)]; [by left|right; exists b0; set_solver].
      * intros [?|(b0 & Hin & ? & ?)]; [tauto|].
        apply elem_of_app in Hin as [?|Hin]; [right; eauto|].
        apply list_elem_of_singleton in Hin as ->. congruence.
  - by exists st'.
Qed.

Lemma live_total reachable : exists live, compute_live_values cfg reachable = Some live /\
  forall v, bitset_contains live v = true <->
    exists r, live_root reachable r /\ rtc (edge (visit_instruction_uses cfg)) r v.
Proof.
  rw /compute_live_values /seed_effects.
  destruct (blocks_fold (fun b v => v ∈ insts b /\ has_side_effects cfg v = Some true)
    (fun st b => fold_opt (seed_inst cfg) st (insts b)) reachable (fun _ => False)
    (with_capacity (value_count cfg), [])) as (st1 & -> & Hp1); simpl.
  { intros b i P st Hb Hst _. apply seed_block_total; [|done]. apply (ok_blocks _ Hok _ _ Hb). }
  { apply pending_start. }
  rw /seed_terminators.
  edestruct (blocks_fold (fun b v =>
      (exists us, visit_terminator_uses cfg (terminator b) = Some us /\ v ∈ us) \/ v ∈ (params b).*1)
    (fun st b => uses ← visit_terminator_uses cfg (terminator b);
        Some (fold_left mark_push ((params b).*1) (fold_left mark_push uses st))) reachable)
    as (st2 & -> & Hp2); [|exact Hp1|]; simpl.
  { intros b i P st Hb Hst _.
    destruct (terminator_uses_total cfg Hok i b Hb) as [us Hus]. rw Hus /=.
    eexists. split; [done|].
    eapply pending_ext; [|apply pending_marks; [|apply pending_marks; [|exact Hst]]].
    - intros v. simpl. naive_solver.
    - rw Forall_fmap. apply (ok_blocks _ Hok _ _ Hb).
    - by eapply (refs_terms Hrefs). }
  destruct Hp2 as (H1 & H2 & H3).
  destruct (push_loop_correct (visit_instruction_uses cfg) (value_count cfg) (snd st2))
    with (fuel := S (value_count cfg)) (s := fst st2) (wl := snd st2) as (live & Hl & Hc).
  - intros v Hv. destruct (uses_total cfg Hok v Hv) as [us Hus]. exists us. split; [done|].
    by eapply (refs_insts Hrefs).
  - assert (forall v, v ∈ st2.2 -> v < value_count cfg) as Hlt.
    { intros v [[[]|(b & Hb & _ & Hv & _)]|(b & Hb & _ & Hv)]%H2;
        apply list_elem_of_lookup in Hb as [i Hb]; destruct (ok_blocks _ Hok _ _ Hb) as [_ Hi Hpa _].
      - rw Forall_forall in Hi. by apply Hi.
      - destruct Hv as [(us & Hus & Hv)|Hv].
        + pose proof (refs_terms Hrefs _ _ _ Hb Hus) as Hf. rw Forall_forall in Hf. by apply Hf.
        + apply list_elem_of_fmap in Hv as (p & -> & Hv). rw Forall_forall in Hpa. by apply Hpa. }
    split; simpl.
    + intros v Hv. assert (v ∈ st2.2) as Hin by (by apply H2, H1).
      split; [by apply reach_root|by apply Hlt].
    + intros v Hv. by apply H1, H2.
    + intros v Hv. by apply H1, H2.
    + intros u v Hu _. right. by apply H2, H1.
    + done.
  - change (contains st2.1) with (bitset_contains st2.1) in *. lia.
  - exists live. split; [done|]. intros v. specialize (Hc v). simpl in Hc. rw Hc /reach_from.
    split; intros (r & Hr & Hp); exists r; (split; [|done]).
    + apply H2 in Hr as [[[]|(b & Hb & Hc' & Hi)]|(b & Hb & Hc' & Ho)]; exists b.
      * split; [done|]. left. by split.
      * split; [done|]. right. by split.
    + apply H2. destruct Hr as (b & Hb & [[Hc' Hi]|[Hc' Ho]]).
      * left. right. by exists b.
      * right. by exists b.
Qed.
End Analyses.

(** ** The pass *)

Section Pass.
Context (cfg : Cfg) (Hok : cfg_ok cfg).

Definition keep_live (live : BitSet) (b : BasicBlock) : BasicBlock :=
  with_insts (filter (fun v => bitset_contains live v) (insts b)) b.

Lemma set_blocks_same : set_blocks (blocks cfg) cfg = cfg.
Proof. by destruct cfg. Qed.

Lemma eliminate_dead_total live :
  eliminate_dead_instructions cfg live = Some (set_blocks (keep_live live <$> blocks cfg) cfg).
Proof.
  rw /eliminate_dead_instructions.
  destruct (fold_opt_total (fun c b => update_block b (keep_live live) c)
    (fun pre c => c = set_blocks ((keep_live live <$> take (length pre) (blocks cfg)) ++
                                  drop (length pre) (blocks cfg)) cfg)
    (block_ids cfg) cfg) as (c & Hc & ->).
  - by rw /= drop_0 set_blocks_same.
  - intros pre a c [post Hpre] ->.
    assert (a = length pre) as ->.
    { assert (block_ids cfg !! length pre = Some a) as Ha by (by rw Hpre list_lookup_middle).
      by apply lookup_seq in Ha as [-> _]. }
    assert (length pre < length (blocks cfg)) as Hlt.
    { apply (f_equal length) in Hpre. rw /block_ids length_seq length_app /= in Hpre. lia. }
    destruct (lookup_lt_is_Some_2 _ _ Hlt) as [b Hb].
    eexists. rw /update_block /=. split.
    + rw lookup_app_r; [|rw length_fmap length_take; lia].
      rw length_fmap length_take Nat.min_l; [|lia]. by rw Nat.sub_diag lookup_drop Nat.add_0_r Hb.
    + rw /set_blocks /=. f_equal. rw length_app /= Nat.add_1_r (take_S_r _ _ b) // fmap_app -app_assoc /=.
      rw insert_app_r_alt; [|rw length_fmap length_take; lia].
      rw length_fmap length_take Nat.min_l; [|lia]. rw Nat.sub_diag (drop_S _ b) //.
  - rw Hc. f_equal. rw /block_ids length_seq firstn_all drop_all app_nil_r. done.
Qed.

Notation cut live := (set_blocks (keep_live live <$> blocks cfg) cfg).

Lemma cut_block live i b : blocks cfg !! i = Some b ->
  blocks (cut live) !! i = Some (keep_live live b).
Proof. intros Hb. by rw /= list_lookup_fmap Hb. Qed.

Lemma cut_inv live i b' : blocks (cut live) !! i = Some b' ->
  exists b, blocks cfg !! i = Some b /\ b' = keep_live live b.
Proof. rw /= list_lookup_fmap. destruct (blocks cfg !! i); intros [= <-]; eauto. Qed.

Lemma cut_succs live b : succs (cut live) (keep_live live b) = succs cfg b.
Proof. rw /succs /=. by destruct (terminator b). Qed.

Lemma cut_flow live u v : flow (cut live) u v <-> flow cfg u v.
Proof.
  split.
  - intros (b' & (b & Hb & ->)%cut_inv & Hv). exists b. by rw cut_succs in Hv.
  - intros (b & Hb & Hv). exists (keep_live live b). rw cut_succs. split; [|done].
    by apply cut_block.
Qed.

Lemma cut_block_count live : block_count (cut live) = block_count cfg.
Proof. by rw /block_count /= length_fmap. Qed.

Lemma cut_ok live : cfg_ok (cut live).
Proof.
  apply (cfg_ok_intro cfg); [done| | | | | |].
  - split; try reflexivity. by rw cut_block_count.
  - intros i b' (b & Hb & ->)%cut_inv. left.
    destruct (ok_blocks _ Hok _ _ Hb) as [H1 H2 H3 H4]. split; try done.
    simpl. apply Forall_forall. intros v [_ Hv]%list_elem_of_filter.
    rw Forall_forall in H2. by apply H2.
  - intros v i Hi. left. by eapply (ok_insts _ Hok).
  - rw cut_block_count. apply (ok_block_bound _ Hok).
  - apply (ok_value_bound _ Hok).
  - apply (ok_move_outs _ Hok).
Qed.

Lemma cut_disjoint live : switch_disjoint cfg -> switch_disjoint (cut live).
Proof.
  intros Hd i j bi bj ri rj Hij (b & Hb & ->)%cut_inv (b' & Hb' & ->)%cut_inv.
  by apply (Hd i j b b').
Qed.
End Pass.

(** The roots, over block positions. *)
Lemma live_root_iff cfg (Hok : cfg_ok cfg) reachable r : live_root cfg reachable r <->
  exists i b, blocks cfg !! i = Some b /\ bitset_contains reachable i = true /\
    ((r ∈ insts b /\ has_side_effects cfg r = Some true) \/
     (exists us, visit_terminator_uses cfg (terminator b) = Some us /\ r ∈ us) \/ r ∈ (params b).*1).
Proof.
  rw /live_root /effect_in /operand_in. split.
  - intros (b & [i Hb]%list_elem_of_lookup & Hr). rewrite (block_ids_dense _ Hok _ _ Hb) in Hr. exists i, b. tauto.
  - intros (i & b & Hb & Hc & Hr). exists b. rw (block_ids_dense _ Hok _ _ Hb). split; [by eapply list_elem_of_lookup_2|tauto].
Qed.

(** What [run] leaves of a reachable block: the live instructions in order,
    the same parameters and terminator, under the new numbering. *)
Definition swept_block (cfg : Cfg) (reachable live : BitSet) (cfg' : Cfg) (i : BlockId)
    (b : BasicBlock) : Prop :=
  let new_id := rank (bitset_contains reachable) 0 in
  exists b', blocks cfg' !! new_id i = Some b' /\ block_id b' = new_id i /\
    params b' = params b /\
    insts b' = filter (fun v => bitset_contains live v) (insts b) /\
    terminator b' = map_targets new_id (terminator b) /\
    succs cfg' b' = new_id <$> succs cfg b.

Lemma run_total (cfg : Cfg) : cfg_ok cfg -> entry cfg < block_count cfg -> refs_ok cfg ->
  switch_disjoint cfg ->
  exists cfg' stats reachable live, run cfg = Some (cfg', stats) /\
    (forall v, bitset_contains reachable v = true <-> rtc (flow cfg) (entry cfg) v) /\
    (forall v, bitset_contains live v = true <->
       exists r, live_root cfg reachable r /\ rtc (edge (visit_instruction_uses cfg)) r v) /\
    values cfg' = values cfg /\
    block_count cfg' = rank (bitset_contains reachable) 0 (block_count cfg) /\
    entry cfg' = rank (bitset_contains reachable) 0 (entry cfg) /\
    (forall i b, blocks cfg !! i = Some b -> bitset_contains reachable i = true ->
       swept_block cfg reachable live cfg' i b) /\
    blocks_removed stats = block_count cfg - block_count cfg' /\
    instructions_removed stats = attached cfg - attached cfg'.
Proof.
  intros Hok Hentry Hrefs Hdis. rw /run.
  destruct (reachable_total cfg Hok Hentry) as (reachable & -> & Hreach). simpl.
  destruct (live_total cfg Hok Hentry Hrefs reachable) as (live & -> & Hlive). simpl.
  rw (eliminate_dead_total cfg Hok) /= /eliminate_unreachable_blocks.
  set (c1 := set_blocks (keep_live live <$> blocks cfg) cfg).
  destruct (retain_blocks_total c1 (cut_ok cfg Hok live) (cut_disjoint cfg live Hdis)
    (bitset_contains reachable)) as (cfg' & Hret & Hn & He & Hv & Hb).
  - by rw cut_block_count.
  - by apply Hreach.
  - intros u v Hu Hf. apply cut_flow in Hf. apply Hreach. eapply rtc_r; [by apply Hreach|done].
  - change (fun b => bitset_contains reachable b) with (bitset_contains reachable).
    rw Hret /=. exists cfg'. eexists _, reachable, live. split; [done|].
    rw cut_block_count in Hn. split_and!; try done.
    intros i b Hi Hr. destruct (Hb i (keep_live live b)) as (b' & H1 & H2 & H3 & H4 & H5 & H6);
      [by apply cut_block|done|].
    exists b'. split_and!; try done.
Qed.

Lemma rank_surj keep m j : j < rank keep 0 m -> exists i, i < m /\ keep i = true /\ rank keep 0 i = j.
Proof.
  induction m as [|m IH]; [rw /rank /=; lia|]. rw rank_snoc /=.
  destruct (keep m) eqn:Hk; simpl; intros Hj.
  - destruct (decide (j = rank keep 0 m)) as [->|]; [exists m; auto|].
    destruct IH as (i & ? & ? & ?); [lia|]. exists i. auto.
  - destruct IH as (i & ? & ? & ?); [lia|]. exists i. auto.
Qed.

(** Paths survive the renumbering. *)
Lemma swept_path cfg reachable live cfg' : 
  (forall v, bitset_contains reachable v = true <-> rtc (flow cfg) (entry cfg) v) ->
  (forall i b, blocks cfg !! i = Some b -> bitset_contains reachable i = true ->
     swept_block cfg reachable live cfg' i b) ->
  forall v, rtc (flow cfg) (entry cfg) v ->
    rtc (flow cfg') (rank (bitset_contains reachable) 0 (entry cfg))
      (rank (bitset_contains reachable) 0 v).
Proof.
  intros Hreach Hsw. apply rtc_ind_r; [constructor|]. intros u v Hu Hf IH.
  eapply rtc_r; [exact IH|]. destruct Hf as (b & Hb & Hv).
  destruct (Hsw u b Hb) as (b' & Hb' & _ & _ & _ & _ & Hs); [by apply Hreach|].
  exists b'. split; [done|]. rw Hs. by apply list_elem_of_fmap_2.
Qed.

(** ** Properties *)

(** The packed bit set is a set of indices: a fresh one of any capacity
    is empty, inserting adds exactly the index (growing when it is past the
    capacity), and [insert] reports whether the index was new. *)
Theorem bitset_refines_set (s : BitSet) (capacity i j : nat) :
  bitset_contains (with_capacity capacity) i = false /\
  bitset_contains (fst (bitset_insert s i)) j = bool_decide (i = j) || bitset_contains s j /\
  snd (bitset_insert s i) = negb (bitset_contains s i).
Proof.
  split_and!; [apply with_capacity_empty|apply bitset_contains_insert|apply bitset_insert_new].
Qed.

(** [compute_reachable_blocks] terminates within its fuel without a
    panic and computes exactly the blocks on a control-flow path from the
    entry. *)
Theorem reachable_blocks_correct (cfg : Cfg) (Hok : cfg_ok cfg)
    (Hentry : entry cfg < block_count cfg) :
  exists r, compute_reachable_blocks cfg = Some r /\
    forall v, bitset_contains r v = true <-> rtc (flow cfg) (entry cfg) v.
Proof. by apply reachable_total. Qed.

(** [compute_live_values] terminates within its fuel without a panic;
    the live set is the least set that contains the effecting or trapping
    instructions, the terminator operands and the parameters of reachable
    blocks and is closed under the operands of its members. *)
Theorem live_values_least (cfg : Cfg) (reachable : BitSet) (Hok : cfg_ok cfg)
    (Hentry : entry cfg < block_count cfg) (Hrefs : refs_ok cfg) :
  exists live, compute_live_values cfg reachable = Some live /\
    (forall v, live_root cfg reachable v -> bitset_contains live v = true) /\
    (forall v us u, bitset_contains live v = true -> visit_instruction_uses cfg v = Some us ->
       u ∈ us -> bitset_contains live u = true) /\
    (forall P : CfgValue -> Prop, (forall v, live_root cfg reachable v -> P v) ->
       (forall v us u, P v -> visit_instruction_uses cfg v = Some us -> u ∈ us -> P u) ->
       forall v, bitset_contains live v = true -> P v).
Proof.
  destruct (live_total cfg Hok Hentry Hrefs reachable) as (live & Hl & Hc).
  exists live. split_and!; [done|..].
  - intros v Hv. apply Hc. exists v. split; [done|constructor].
  - intros v us u Hv Hus Hu. apply Hc in Hv as (r & Hr & Hp). apply Hc. exists r.
    split; [done|]. eapply rtc_r; [exact Hp|]. by exists us.
  - intros P HP Hclosed v Hv. apply Hc in Hv as (r & Hr & Hp). apply HP in Hr.
    induction Hp as [|x y z (us & Hus & Hy)]; [done|]. eauto.
Qed.

(** C27.  Dead code elimination is total on a verified graph and exact: it
    keeps precisely the reachable blocks, densely renumbered, each with its
    parameters, its terminator and precisely its live instructions in order,
    where a value is live when operands lead to it from a root: an effecting or
    trapping instruction, an operand of a terminator or a parameter of a
    reachable block.  So no root and no operand of a kept instruction is lost,
    and no instruction that no root depends on is kept; afterwards every block
    is reachable; and the reported counts are the differences. *)
Theorem dce_run_exact (cfg : Cfg) (Hok : cfg_ok cfg) (Hentry : entry cfg < block_count cfg)
    (Hrefs : refs_ok cfg) (Hdis : switch_disjoint cfg) :
  exists cfg' stats reachable live, run cfg = Some (cfg', stats) /\
    (forall v, bitset_contains reachable v = true <-> rtc (flow cfg) (entry cfg) v) /\
    values cfg' = values cfg /\
    (forall i b, blocks cfg !! i = Some b -> bitset_contains reachable i = true ->
       swept_block cfg reachable live cfg' i b /\
       (forall v, v ∈ insts b -> has_side_effects cfg v = Some true -> bitset_contains live v = true) /\
       (forall us u, visit_terminator_uses cfg (terminator b) = Some us -> u ∈ us ->
          bitset_contains live u = true)) /\
    (forall v us u, bitset_contains live v = true -> visit_instruction_uses cfg v = Some us ->
       u ∈ us -> bitset_contains live u = true) /\
    (forall v, bitset_contains live v = true <-> exists r, rtc (edge (visit_instruction_uses cfg)) r v /\
       exists i b, blocks cfg !! i = Some b /\ rtc (flow cfg) (entry cfg) i /\
         ((r ∈ insts b /\ has_side_effects cfg r = Some true) \/
          (exists us, visit_terminator_uses cfg (terminator b) = Some us /\ r ∈ us) \/ r ∈ (params b).*1)) /\
    (forall v, v < block_count cfg' -> rtc (flow cfg') (entry cfg') v) /\
    stats = mkStats (attached cfg - attached cfg') (block_count cfg - block_count cfg').
Proof.
  destruct (run_total cfg Hok Hentry Hrefs Hdis)
    as (cfg' & stats & reachable & live & Hrun & Hreach & Hlive & Hv & Hn & He & Hsw & Hs1 & Hs2).
  exists cfg', stats, reachable, live. split; [done|]. split; [done|]. split; [done|].
  split; [|split; [|split; [|split]]].
  - intros i b Hb Hr. split_and!; [by apply Hsw| |].
    + intros v Hin Hse. apply Hlive. exists v. split; [|constructor]. exists b.
      split; [by eapply list_elem_of_lookup_2|]. left. by rw /effect_in (block_ids_dense _ Hok _ _ Hb).
    + intros us u Hus Hu. apply Hlive. exists u. split; [|constructor]. exists b.
      split; [by eapply list_elem_of_lookup_2|]. right.
      rw /operand_in (block_ids_dense _ Hok _ _ Hb). split; [done|]. left. by exists us.
  - intros v us u Hv' Hus Hu. apply Hlive in Hv' as (r & Hr & Hp). apply Hlive. exists r.
    split; [done|]. eapply rtc_r; [exact Hp|]. by exists us.
  - intros v. rw Hlive. f_equiv. intros r. rw (live_root_iff cfg Hok reachable r). setoid_rewrite Hreach. tauto.
  - intros v. rw Hn. intros (i & Hi & Hk & <-)%rank_surj. rw He.
    eapply swept_path; [done..|]. by apply Hreach.
  - destruct stats. simpl in *. by subst.
Qed.

(** *** Witnesses *)

Lemma switch_cfg_refs : refs_ok switch_cfg.
Proof.
  split.
  - intros v us Hv Hus. destruct v as [|v]; vm_compute in Hus; [|discriminate Hus].
    injection Hus as <-. constructor.
  - intros i b us Hb Hus. destruct i as [|[|[|[|i]]]]; vm_compute in Hb; try discriminate Hb;
      injection Hb as <-; vm_compute in Hus; injection Hus as <-; repeat constructor.
Qed.

Lemma switch_cfg_entry : entry switch_cfg < block_count switch_cfg.
Proof. apply Nat.ltb_lt. vm_compute. reflexivity. Qed.

Lemma reachable_blocks_correct_witness :
  cfg_ok switch_cfg /\ entry switch_cfg < block_count switch_cfg /\
  exists r, compute_reachable_blocks switch_cfg = Some r /\ bitset_contains r 3 = true.
Proof.
  split; [exact switch_cfg_ok|split; [exact switch_cfg_entry|]].
  destruct (reachable_blocks_correct switch_cfg switch_cfg_ok switch_cfg_entry) as (r & Hr & _).
  exists r. split; [exact Hr|]. vm_compute in Hr. injection Hr as <-. reflexivity.
Defined.

Lemma live_values_least_witness :
  cfg_ok switch_cfg /\ entry switch_cfg < block_count switch_cfg /\ refs_ok switch_cfg /\
  exists live, compute_live_values switch_cfg (mkBitSet [1%Z]) = Some live /\
    bitset_contains live 0 = true.
Proof.
  split; [exact switch_cfg_ok|split; [exact switch_cfg_entry|split; [exact switch_cfg_refs|]]].
  destruct (live_values_least switch_cfg (mkBitSet [1%Z]) switch_cfg_ok switch_cfg_entry
    switch_cfg_refs) as (live & Hl & _).
  exists live. split; [exact Hl|]. vm_compute in Hl. injection Hl as <-. reflexivity.
Defined.

(** A comparison nothing reads and the constant only it reads, a sum nothing
    reads but that can trap, and a block control cannot reach. *)
Definition dead_edits : list edit :=
  let at_i32 b d := EdAppendInst b (mkInst d TI32 (span_new 0 0)) in
  [EdNewBlock; EdNewBlock;
   at_i32 0 (IConst 7); at_i32 0 (IConst 5);
   EdAppendInst 0 (mkInst (ILt 0 1) TBOOL (span_new 0 0));
   at_i32 0 (IConst 3); at_i32 0 (IAdd 0 3); EdReturn 0 (Some 0);
   at_i32 1 (IConst 9); EdUnreachable 1].
Definition dead_empty : Cfg := cfg_new 0 TI32 0 0 String.EmptyString (mkModes [] []).
Definition dead_cfg : Cfg :=
  default dead_empty (run_edits (H := unlimited) (H0 := word_types) dead_edits dead_empty).

Lemma dead_cfg_ok : cfg_ok dead_cfg.
Proof.
  apply (built_cfg_ok (H := unlimited) (H0 := unlimited_laws) (H1 := word_types)).
  apply (run_edits_built dead_edits dead_empty); [constructor| |by vm_compute].
  by repeat constructor.
Qed.

Lemma dead_cfg_refs : refs_ok dead_cfg.
Proof.
  split.
  - intros v us Hv Hus.
    do 6 (destruct v as [|v]; [vm_compute in Hus; injection Hus as <-;
      repeat constructor; apply Nat.ltb_lt; vm_compute; reflexivity|]).
    vm_compute in Hus. by destruct v.
  - intros i b us Hb Hus.
    do 2 (destruct i as [|i]; [vm_compute in Hb; injection Hb as <-; vm_compute in Hus; injection Hus as <-;
      repeat constructor; apply Nat.ltb_lt; vm_compute; reflexivity|]).
    vm_compute in Hb. by destruct i.
Qed.

Lemma dead_cfg_disjoint : switch_disjoint dead_cfg.
Proof.
  intros i j bi bj ri rj Hij Hi Hj Hri Hrj.
  do 2 (destruct i as [|i]; [vm_compute in Hi; injection Hi as <-; vm_compute in Hri; discriminate Hri|]).
  vm_compute in Hi. destruct i; discriminate Hi.
Qed.

(** The comparison and its constant go, the sum stays, the block goes. *)
Lemma dce_run_exact_witness :
  cfg_ok dead_cfg /\ refs_ok dead_cfg /\ switch_disjoint dead_cfg /\ insts <$> blocks dead_cfg = [[0; 1; 2; 3; 4]; [5]] /\
  exists cfg' stats live, run dead_cfg = Some (cfg', stats) /\ stats = mkStats 3 1 /\ insts <$> blocks cfg' = [[0; 3; 4]] /\
    bitset_contains live 3 = true /\ bitset_contains live 1 = false.
Proof.
  split; [exact dead_cfg_ok|split; [exact dead_cfg_refs|split; [exact dead_cfg_disjoint|split; [vm_compute; reflexivity|]]]].
  destruct (dce_run_exact dead_cfg dead_cfg_ok ltac:(apply Nat.ltb_lt; vm_compute; reflexivity) dead_cfg_refs
    dead_cfg_disjoint) as (cfg' & stats & reachable & live & Hrun & Hreach & _ & Hb & _).
  exists cfg', stats, live. split; [exact Hrun|].
  destruct (blocks dead_cfg !! 0) as [b|] eqn:Hb0; [|vm_compute in Hb0; discriminate Hb0].
  destruct (Hb 0 b Hb0) as ((b' & Hb' & _ & _ & Hins & _) & _); [apply Hreach; constructor|].
  vm_compute in Hb0. injection Hb0 as <-. vm_compute in Hrun. injection Hrun as <- <-.
  split; [reflexivity|]. split; [reflexivity|]. simpl in Hins.
  assert (rank (bitset_contains reachable) 0 0 = 0) as Hr0 by reflexivity. rewrite Hr0 in Hb'. injection Hb' as <-. simpl in Hins.
  assert (forall v, v ∈ [0; 3; 4] <-> bitset_contains live v = true /\ v ∈ [0; 1; 2; 3; 4]) as Hl
    by (intros v; rewrite Hins list_elem_of_filter Is_true_true; reflexivity).
  clear -Hl. split; [apply Hl; set_solver|]. apply not_true_iff_false. intros H1.
  assert (1 ∈ [0; 3; 4]) as Hin by (apply Hl; split; [exact H1|set_solver]). clear -Hin. set_solver.
Defined.
