(* ===== verification/Dominators.v ===== *)
(** * Dominator trees

    [crates/rue-cfg/src/dominators.rs]: the Cooper-Harvey-Kennedy fixpoint over
    a reverse postorder, the preorder intervals that make the dominance query
    constant time, and the block order that code generation lowers in.  Flat
    adjacencies are offsets and targets as in the source; [None] is a panic (an
    index out of range, a failed [expect]) or a loop that outlives its fuel. *)

From S2P Require Import Prelude Payload CfgData Csr.
From stdpp Require Import list.

(** ** Flat adjacencies *)

Definition adj_push (cfg : Cfg) (adj : Adjacency) (index : BlockId) : option Adjacency :=
  succs ← visit_successors cfg index;
  let ts := targets adj ++ succs in
  Some (mkAdjacency (offsets adj ++ [length ts]) ts).
Definition adj_successors (cfg : Cfg) (n : nat) : option Adjacency :=
  fold_opt (adj_push cfg) (mkAdjacency [0] []) (seq 0 n).

Definition place_source (adj : Adjacency) (st : list nat * list BlockId) (source : BlockId)
    : option (list nat * list BlockId) :=
  ts ← adj_of adj source; fold_opt (fun st target => place_at st target source) st ts.

Definition reversed (adj : Adjacency) (n : nat) : option Adjacency :=
  counts ← fold_opt count_key (replicate (S n) 0) (targets adj);
  os ← fold_opt accumulate counts (seq 0 n);
  st ← fold_opt (place_source adj) (os, replicate (length (targets adj)) 0) (seq 0 n);
  Some (mkAdjacency os st.2).

(** ** Postorder *)

(** The stack holds blocks with the index of the next successor to explore. *)
Fixpoint dfs_loop (fuel : nat) (succs : Adjacency) (stack : list (BlockId * nat)) (visited : list bool)
    (post_num : list (option nat)) (post_order : list BlockId) : option (list (option nat) * list BlockId) :=
  match fuel with
  | O => None
  | S fuel =>
      match stack with
      | [] => Some (post_num, post_order)
      | (block, idx) :: rest =>
          block_succs ← adj_of succs block;
          match block_succs !! idx with
          | Some s =>
              seen ← visited !! s;
              if (seen : bool) then dfs_loop fuel succs ((block, S idx) :: rest) visited post_num post_order
              else dfs_loop fuel succs ((s, 0) :: (block, S idx) :: rest) (<[s := true]> visited) post_num post_order
          | None =>
              _ ← post_num !! block;
              dfs_loop fuel succs rest visited (<[block := Some (length post_order)]> post_num) (post_order ++ [block])
          end
      end
  end.

Definition postorder (succs : Adjacency) (entry n : nat) : option (list (option nat) * list BlockId) :=
  if entry <? n
  then dfs_loop (S (n + length (targets succs))) succs [(entry, 0)] (<[entry := true]> (replicate n false))
         (replicate n None) []
  else Some (replicate n None, []).

(** ** The fixpoint *)

Section Fixpoint_.
Context (post_num : list (option nat)).

Definition num_of (b : BlockId) : option nat := mjoin (post_num !! b).

(** [while px < py] of one finger. *)
Fixpoint climb (fuel : nat) (idom : list (option BlockId)) (x px py : nat) : option (BlockId * nat) :=
  if px <? py then
    match fuel with
    | O => None
    | S fuel => x' ← mjoin (idom !! x); px' ← num_of x'; climb fuel idom x' px' py
    end
  else Some (x, px).

Fixpoint intersect (fuel : nat) (a b : BlockId) (idom : list (option BlockId)) : option BlockId :=
  if a =? b then Some a else
  match fuel with
  | O => None
  | S fuel =>
      pa ← num_of a; pb ← num_of b;
      fa ← climb (length post_num) idom a pa pb;
      fb ← climb (length post_num) idom b pb fa.2;
      intersect fuel fa.1 fb.1 idom
  end.

Definition meet_pred (idom : list (option BlockId)) (new_idom : option BlockId) (p : BlockId)
    : option (option BlockId) :=
  pn ← post_num !! p;
  match pn with
  | None => Some new_idom
  | Some _ =>
      pi ← idom !! p;
      match pi, new_idom with
      | None, _ => Some new_idom
      | Some _, None => Some (Some p)
      | Some _, Some cur => r ← intersect (S (2 * length post_num)) p cur idom; Some (Some r)
      end
  end.

Definition update_block (entry : BlockId) (preds : Adjacency) (st : list (option BlockId) * bool) (b : BlockId)
    : option (list (option BlockId) * bool) :=
  if b =? entry then Some st else
  ps ← adj_of preds b;
  new_idom ← fold_opt (meet_pred st.1) None ps;
  match new_idom with
  | None => Some st
  | Some ni =>
      cur ← st.1 !! b;
      if decide (cur = Some ni) then Some st else Some (<[b := Some ni]> st.1, true)
  end.

Fixpoint fixpoint (fuel : nat) (entry : BlockId) (preds : Adjacency) (rpo : list BlockId)
    (idom : list (option BlockId)) : option (list (option BlockId)) :=
  match fuel with
  | O => None
  | S fuel =>
      st ← fold_opt (update_block entry preds) (idom, false) rpo;
      if (st.2 : bool) then fixpoint fuel entry preds rpo st.1 else Some st.1
  end.
End Fixpoint_.

(** ** Preorder intervals *)

Definition count_child (counts : list nat) (e : nat * option BlockId) : option (list nat) :=
  match e.2 with Some p => if p =? e.1 then Some counts else count_key counts p | None => Some counts end.
Definition place_child (st : list nat * list BlockId) (e : nat * option BlockId) : option (list nat * list BlockId) :=
  match e.2 with Some p => if p =? e.1 then Some st else place_at st p e.1 | None => Some st end.

Definition children_of (idom : list (option BlockId)) (n : nat) : option Adjacency :=
  let entries := imap pair idom in
  counts ← fold_opt count_child (replicate (S n) 0) entries;
  child_counts ← fold_opt accumulate counts (seq 0 n);
  total ← child_counts !! n;
  st ← fold_opt place_child (child_counts, replicate total 0) entries;
  Some (mkAdjacency child_counts st.2).

Fixpoint preorder_loop (fuel : nat) (children : Adjacency) (stack : list (BlockId * nat)) (next : nat)
    (pre_num : list (option nat)) (subtree_last : list nat) : option (list (option nat) * list nat) :=
  match fuel with
  | O => None
  | S fuel =>
      match stack with
      | [] => Some (pre_num, subtree_last)
      | (block, cursor) :: rest =>
          block_children ← adj_of children block;
          match block_children !! cursor with
          | Some child =>
              _ ← pre_num !! child;
              preorder_loop fuel children ((child, 0) :: (block, S cursor) :: rest) (S next)
                (<[child := Some next]> pre_num) subtree_last
          | None =>
              _ ← subtree_last !! block;
              preorder_loop fuel children rest next pre_num (<[block := next - 1]> subtree_last)
          end
      end
  end.

Definition preorder_intervals (idom : list (option BlockId)) (entry n : nat)
    : option (list (option nat) * list nat) :=
  children ← children_of idom n;
  if n <=? entry then Some (replicate n None, replicate n 0) else
  preorder_loop (S (2 * n)) children [(entry, 0)] 1 (<[entry := Some 0]> (replicate n None)) (replicate n 0).

(** ** The tree *)

Record DominatorTree := mkTree {
  t_idom : list (option BlockId);
  t_post_num : list (option nat);
  pre_num : list (option nat);
  subtree_last : list nat;
}.

Definition compute (cfg : Cfg) : option DominatorTree :=
  let n := block_count cfg in
  succs ← adj_successors cfg n;
  po ← postorder succs (entry cfg) n;
  let rpo := rev po.2 in
  let idom := if entry cfg <? n then <[entry cfg := Some (entry cfg)]> (replicate n None) else replicate n None in
  preds ← reversed succs n;
  idom ← fixpoint po.1 (S (n * n)) (entry cfg) preds rpo idom;
  intervals ← preorder_intervals idom (entry cfg) n;
  Some (mkTree idom po.1 intervals.1 intervals.2).

Definition is_reachable (t : DominatorTree) (block : BlockId) : bool :=
  match mjoin (t_post_num t !! block) with Some _ => true | None => false end.

Definition idom (t : DominatorTree) (block : BlockId) : option BlockId :=
  match mjoin (t_idom t !! block) with
  | Some d => if d =? block then None else Some d
  | None => None
  end.

Definition dominates (t : DominatorTree) (a b : BlockId) : option bool :=
  match mjoin (pre_num t !! a), mjoin (pre_num t !! b) with
  | Some pre_a, Some pre_b =>
      last ← subtree_last t !! a; Some ((pre_a <=? pre_b) && (pre_b <=? last))
  | _, _ => Some (a =? b)
  end.

(** ** The lowering order *)

(** The [BinaryHeap] of reversed indices: [pop] takes a least element. *)
Fixpoint heap_pop (h : list nat) : option (nat * list nat) :=
  match h with
  | [] => None
  | x :: h =>
      match heap_pop h with
      | Some (y, h') => if x <=? y then Some (x, h) else Some (y, x :: h')
      | None => Some (x, [])
      end
  end.

Definition push_child (t : DominatorTree) (children : list (list nat)) (index : nat) : option (list (list nat)) :=
  match idom t index with
  | Some parent => row ← children !! parent; Some (<[parent := row ++ [index]]> children)
  | None => Some children
  end.

Fixpoint lowering_loop (fuel : nat) (children : list (list nat)) (ready order : list nat) : option (list BlockId) :=
  match fuel with
  | O => None
  | S fuel =>
      match heap_pop ready with
      | None => Some order
      | Some (index, ready) =>
          row ← children !! index;
          lowering_loop fuel children (rev row ++ ready) (order ++ [index])
      end
  end.

Definition block_lowering_order (cfg : Cfg) : option (list BlockId) :=
  let n := block_count cfg in
  t ← compute cfg;
  children ← fold_opt (push_child t) (replicate n []) (seq 0 n);
  order ← lowering_loop (S n) children (if is_reachable t (entry cfg) then [entry cfg] else []) [];
  Some (order ++ filter (fun b => is_reachable t b = false) (seq 0 n)).
