(* ===== verification/DomDfs.v ===== *)
(** * Dominator trees: edges and postorder

    The adjacency of a well-formed graph is its successor relation, its
    reversal lists the predecessors, and the depth-first search numbers the
    reachable blocks so that each but the entry has a predecessor with a larger
    number. *)

From S2P Require Import Prelude Payload CfgData Cfg Dce Csr Dominators.
From stdpp Require Import list.

(** A property of a fold, indexed by the position in [seq 0 n]. *)
Lemma fold_seq_total {T} (f : T -> nat -> option T) (P : nat -> T -> Prop) n s : P 0 s ->
  (forall i t, i < n -> P i t -> exists t', f t i = Some t' /\ P (S i) t') ->
  exists s', fold_opt f s (seq 0 n) = Some s' /\ P n s'.
Proof.
  intros H0 Hs. destruct (fold_opt_total f (fun pre => P (length pre)) (seq 0 n) s) as (s' & Hf & Hp); [done| |].
  - intros pre i t [post Hp] HP. assert (i = length pre /\ i < n) as [-> Hi].
    { assert (seq 0 n !! length pre = Some i) as Hi by by rw Hp list_lookup_middle.
      apply lookup_seq in Hi. simpl in Hi. lia. }
    destruct (Hs _ t Hi HP) as (t' & Ht & HP'). exists t'. by rw length_app /= Nat.add_1_r.
  - exists s'. by rw length_seq in Hp *.
Qed.

Lemma fold_opt_ext {T A} (f g : T -> A -> option T) l s : (forall t a, a ∈ l -> f t a = g t a) ->
  fold_opt f s l = fold_opt g s l.
Proof.
  revert s. induction l as [|a l IH]; intros s Hf; simpl; [done|]. rw Hf; [|by left].
  destruct (g s a); simpl; [|done]. apply IH. intros t0 b Hb. apply Hf. by right.
Qed.

Lemma fold_opt_map {T A B} (f : T -> B -> option T) (h : A -> B) l s :
  fold_opt f s (h <$> l) = fold_opt (fun t a => f t (h a)) s l.
Proof. revert s. induction l as [|a l IH]; intros s; simpl; [done|]. by destruct (f s (h a)); simpl. Qed.

Section Edges.
Context (cfg : Cfg) (Hok : cfg_ok cfg).
Notation n := (block_count cfg).

Definition next (u : BlockId) : list BlockId := default [] (visit_successors cfg u).

Lemma next_spec u : u < n -> visit_successors cfg u = Some (next u) /\ Forall (fun v => v < n) (next u).
Proof. intros Hu. destruct (visit_successors_ok cfg Hok u Hu) as (l & Hl & Hf). by rw /next Hl. Qed.

Lemma flow_next u v : flow cfg u v <-> u < n /\ v ∈ next u.
Proof.
  rw -visit_successors_flow // /Worklist.edge. split.
  - intros (l & Hl & Hv). rw /next Hl. split; [|done].
    rw /visit_successors /get_block in Hl *. destruct (blocks cfg !! u) eqn:Hb; [|done]. by eapply lookup_lt_Some.
  - intros [Hu Hv]. destruct (next_spec u Hu) as [Hn _]. by exists (next u).
Qed.

Lemma adj_successors_spec : exists adj, adj_successors cfg n = Some adj /\
  targets adj = concat (next <$> seq 0 n) /\ forall u, u < n -> adj_of adj u = Some (next u).
Proof.
  destruct (fold_seq_total (adj_push cfg) (fun i adj => targets adj = concat (next <$> seq 0 i) /\
    length (offsets adj) = S i /\ forall k, k <= i -> offsets adj !! k = Some (length (concat (next <$> seq 0 k))))
    n (mkAdjacency [0] [])) as (adj & Ha & Ht & Hl & Ho).
  - split_and!; [done|done|]. intros k Hk. by assert (k = 0) as -> by lia.
  - intros i [os ts] Hi (Ht & Hl & Ho). simpl in *. destruct (next_spec i Hi) as [Hn _].
    rw /adj_push Hn /=. eexists. split; [done|]. simpl.
    assert (ts ++ next i = concat (next <$> seq 0 (S i))) as Hts.
    { rw seq_S fmap_app concat_app /= app_nil_r Ht //. }
    rw Hts length_app Hl /=. split_and!; [done|lia|]. intros k Hk. destruct (decide (k = S i)) as [->|Hne].
    + rw lookup_app_r; [|lia]. by rw Hl Nat.sub_diag.
    + rw lookup_app_l; [|lia]. apply Ho. lia.
  - exists adj. split_and!; [done..|]. intros u Hu. rw /adj_of !Ho; [|lia..]. cbn [mbind option_bind].
    assert (concat (next <$> seq 0 n) = concat (next <$> seq 0 u) ++ next u ++ concat (next <$> seq (S u) (n - S u))) as Hc.
    { replace n with (u + S (n - S u)) at 1 by lia. rw seq_app fmap_app concat_app /=. done. }
    rw seq_S fmap_app concat_app /= app_nil_r length_app Ht Hc !length_app.
    case_match eqn:Hb; [|apply andb_false_iff in Hb as [Hb%Nat.leb_gt|Hb%Nat.leb_gt]; lia]. f_equal.
    rw drop_app_length. replace (_ + _ - _) with (length (next u)) by lia. by rw take_app_length.
Qed.

(** Every edge, keyed by its target. *)
Definition edge_pairs : list (nat * nat) := concat ((fun u => (fun v => (v, u)) <$> next u) <$> seq 0 n).

Lemma elem_of_edge_pairs b p : (b, p) ∈ edge_pairs <-> p < n /\ b ∈ next p.
Proof.
  rw /edge_pairs list_elem_of_In List.in_concat. split.
  - intros (l & Hl & Hb). rw -!list_elem_of_In in Hl, Hb *. apply list_elem_of_fmap in Hl as (u & -> & Hu%elem_of_seq).
    apply list_elem_of_fmap in Hb as (v & [= -> ->] & Hv). split; [lia|done].
  - intros [Hp Hb]. exists ((fun v => (v, p)) <$> next p). rw -!list_elem_of_In. split.
    + apply (list_elem_of_fmap_2 (fun u => (fun v => (v, u)) <$> next u)). apply elem_of_seq. lia.
    + by apply (list_elem_of_fmap_2 (fun v => (v, p))).
Qed.

Lemma edge_pairs_keys : edge_pairs.*1 = concat (next <$> seq 0 n).
Proof.
  rw /edge_pairs. induction (seq 0 n) as [|u l IH]; simpl; [done|]. rw fmap_app IH. f_equal.
  rw -list_fmap_compose. by apply list_fmap_id.
Qed.

Lemma reversed_spec adj : targets adj = concat (next <$> seq 0 n) ->
  (forall u, u < n -> adj_of adj u = Some (next u)) ->
  exists preds, reversed adj n = Some preds /\
    forall b, b < n -> exists ps, adj_of preds b = Some ps /\ forall p, p ∈ ps <-> p < n /\ b ∈ next p.
Proof.
  intros Ht Ha. assert (Forall (fun p : nat * nat => p.1 < n) edge_pairs) as Hf.
  { apply Forall_forall. intros [b p] [Hp Hb]%elem_of_edge_pairs. destruct (next_spec p Hp) as [_ Hn].
    rw Forall_forall in Hn *. by apply Hn. }
  destruct (csr_counts _ _ Hf) as (counts & Hc & Hl & H0 & Hk).
  destruct (csr_offsets _ _ _ Hl H0 Hk) as (os & Hos & Hlo & Ho).
  destruct (csr_place edge_pairs n os (length (targets adj)) Hf Hlo Ho) as (st & Hst & Hr & _).
  { by rw Ht -edge_pairs_keys length_fmap. }
  rw /reversed Ht -edge_pairs_keys Hc /= Hos /=.
  assert (fold_opt (place_source adj) (os, replicate (length edge_pairs.*1) 0) (seq 0 n) = Some st) as ->.
  { rewrite -Hst Ht -edge_pairs_keys /edge_pairs fold_opt_concat fold_opt_map. apply fold_opt_ext.
    intros t u Hu%elem_of_seq. rw /place_source Ha /=; [|lia]. by rw fold_opt_map. }
  simpl. eexists. split; [done|]. intros b Hb. exists (row edge_pairs b). split; [by apply Hr|].
  intros p. by rw elem_of_row elem_of_edge_pairs.
Qed.
End Edges.

(** ** The depth-first search *)

(** The postorder of the blocks reachable from the entry. *)
Record Postorder (n : nat) (next : nat -> list nat) (entry : nat) (post_num : list (option nat)) (post_order : list nat)
    : Prop := {
  po_length : length post_num = n;
  po_nodup : NoDup post_order;
  po_elem : forall v, v ∈ post_order <-> rtc (fun u v => u < n /\ v ∈ next u) entry v;
  po_num : forall v k, post_num !! v = Some (Some k) <-> post_order !! k = Some v;
  po_last : last post_order = Some entry;
  po_parent : forall i v, post_order !! i = Some v -> v <> entry ->
    exists u j, v ∈ next u /\ i < j /\ post_order !! j = Some u;
}.

Section Search.
Context (n : nat) (next : nat -> list nat) (entry : nat) (adj : Adjacency).
Context (Hadj : forall u, u < n -> adj_of adj u = Some (next u)).
Context (Hnext : forall u, u < n -> Forall (fun v => v < n) (next u)).
Notation E := (fun u v => u < n /\ v ∈ next u).

Definition marks (stack : list (nat * nat)) (post_order : list nat) : list nat := stack.*1 ++ post_order.

Record searching (stack : list (nat * nat)) (visited : list bool) (post_num : list (option nat)) (post_order : list nat)
    : Prop := {
  s_visited : forall v, v < n -> visited !! v = Some (bool_decide (v ∈ marks stack post_order));
  s_length : length post_num = n;
  s_nodup : NoDup (marks stack post_order);
  s_lt : Forall (fun v => v < n) (marks stack post_order);
  s_num : forall v k, post_num !! v = Some (Some k) <-> post_order !! k = Some v;
  s_idx : forall u i, (u, i) ∈ stack -> i <= length (next u) /\
    forall v, v ∈ take i (next u) -> v ∈ marks stack post_order;
  s_done : forall u v, u ∈ post_order -> v ∈ next u -> v ∈ marks stack post_order;
  s_path : forall k u v, stack.*1 !! k = Some v -> stack.*1 !! S k = Some u -> v ∈ next u;
  s_last : stack = [] /\ last post_order = Some entry \/ last stack.*1 = Some entry;
  s_parent : forall i v, post_order !! i = Some v -> v <> entry ->
    exists u, v ∈ next u /\ (u ∈ stack.*1 \/ exists j, i < j /\ post_order !! j = Some u);
  s_reach : forall v, v ∈ marks stack post_order -> rtc E entry v;
}.

Definition work (stack : list (nat * nat)) (post_order : list nat) : nat :=
  sum_list ((fun u => S (length (next u))) <$> post_order) + sum_list stack.*2.
Definition all_work : nat := n + length (concat (next <$> seq 0 n)).

Lemma sum_list_submset (f : nat -> nat) l l' : NoDup l -> l ⊆ l' -> sum_list (f <$> l) <= sum_list (f <$> l').
Proof.
  intros Hn Hs. pose proof (NoDup_submseteq l l' Hn Hs) as Hsub. apply submseteq_Permutation in Hsub as [k Hk].
  assert (forall a b : list nat, a ≡ₚ b -> sum_list a = sum_list b) as Hp by (induction 1; simpl; lia).
  rewrite (Hp _ _ (fmap_Permutation f _ _ Hk)) fmap_app sum_list_app. lia.
Qed.

Lemma dfs_work_bound stack visited post_num post_order : searching stack visited post_num post_order ->
  work stack post_order <= all_work.
Proof.
  intros Hs. assert (all_work = sum_list ((fun u => S (length (next u))) <$> seq 0 n)) as ->.
  { assert (forall l, sum_list ((fun u => S (length (next u))) <$> l) = length l + length (concat (next <$> l))) as ->.
    { induction l as [|u l IH]; [done|]. rw !fmap_cons /= length_app -Nat.add_succ_l IH. lia. }
    by rw length_seq. }
  etrans; [|apply sum_list_submset; [apply (s_nodup _ _ _ _ Hs)|]].
  - rw /work /marks fmap_app. assert (sum_list stack.*2 <= sum_list ((fun u => S (length (next u))) <$> stack.*1)) as Hle.
    { assert (forall u i, (u, i) ∈ stack -> i <= length (next u)) as Hi by (intros u i Hu; by apply (s_idx _ _ _ _ Hs)).
      clear Hs. induction stack as [|[u i] stack IH]; simpl; [done|].
      pose proof (Hi u i ltac:(by left)). assert (forall v j, (v, j) ∈ stack -> j <= length (next v)) as Hi' by (intros v j Hv; apply Hi; by right).
      specialize (IH Hi'). unfold fmap in IH. lia. }
    rw sum_list_app. lia.
  - intros v Hv. pose proof (s_lt _ _ _ _ Hs) as Hf. rw Forall_forall in Hf *. apply elem_of_seq. specialize (Hf v Hv). lia.
Qed.

Lemma search_advance block idx rest s visited post_num post_order :
  searching ((block, idx) :: rest) visited post_num post_order -> next block !! idx = Some s ->
  s ∈ marks ((block, idx) :: rest) post_order -> searching ((block, S idx) :: rest) visited post_num post_order.
Proof.
  intros [] Hs Hm. split; try done; [|by right; destruct s_last0 as [[? _]|?]].
  intros u i [[= -> ->]|Hu]%elem_of_cons; [|apply s_idx0; by right].
  destruct (s_idx0 block idx ltac:(by left)) as [_ Ht]. split; [by apply lookup_lt_Some in Hs|].
  intros v. rw (take_S_r _ _ _ Hs) elem_of_app list_elem_of_singleton. intros [Hv| ->]; [by apply Ht|done].
Qed.

Lemma search_push block idx rest s visited post_num post_order :
  searching ((block, idx) :: rest) visited post_num post_order -> next block !! idx = Some s -> s < n ->
  s ∉ marks ((block, idx) :: rest) post_order ->
  searching ((s, 0) :: (block, S idx) :: rest) (<[s := true]> visited) post_num post_order.
Proof.
  intros Hi Hs Hsn Hm. pose proof (list_elem_of_lookup_2 _ _ _ Hs) as Hse. destruct Hi.
  assert (forall v, v ∈ marks ((block, idx) :: rest) post_order -> v ∈ marks ((s, 0) :: (block, S idx) :: rest) post_order) as Hsub.
  { intros v Hv. by apply elem_of_cons; right. }
  assert (block < n) as Hb by (rw Forall_forall in s_lt0; apply s_lt0; by left).
  split; try done.
  - intros v Hv. destruct (decide (v = s)) as [->|Hne].
    + rw list_lookup_insert_eq; [|by eapply lookup_lt_Some, s_visited0]. rw bool_decide_true //. by left.
    + rw list_lookup_insert_ne // s_visited0 //. f_equal. apply bool_decide_ext. split; [by right|]. by intros [?|?]%elem_of_cons.
  - by apply NoDup_cons.
  - by constructor.
  - intros u i [[= -> ->]|[[= -> ->]|Hu]%elem_of_cons]%elem_of_cons.
    + split; [lia|]. by intros v ?%not_elem_of_nil.
    + destruct (s_idx0 block idx ltac:(by left)) as [_ Ht]. split; [by apply lookup_lt_Some in Hs|].
      intros v. rw (take_S_r _ _ _ Hs) elem_of_app list_elem_of_singleton. intros [Hv| ->]; [by apply Hsub, Ht|by left].
    + destruct (s_idx0 u i ltac:(by right)) as [? Ht]. split; [done|]. intros v Hv. by apply Hsub, Ht.
  - intros u v Hu Hv. by eapply Hsub, s_done0.
  - intros [|k] u v; simpl; [by intros [= <-] [= <-]|]. apply s_path0.
  - right. destruct s_last0 as [[? _]|Hl]; [done|].
    change (last (s :: ((block, idx) :: rest).*1) = Some entry). by rw last_cons Hl.
  - intros i v Hv Hne. destruct (s_parent0 i v Hv Hne) as (u & Hu & [Hst|Hj]); exists u; (split; [done|]); [left|by right].
    by apply elem_of_cons; right.
  - intros v [->|Hv]%elem_of_cons; [|by apply s_reach0]. eapply rtc_r; [apply (s_reach0 block); by left|done].
Qed.

Lemma search_pop block idx rest visited post_num post_order :
  searching ((block, idx) :: rest) visited post_num post_order -> next block !! idx = None ->
  searching rest visited (<[block := Some (length post_order)]> post_num) (post_order ++ [block]).
Proof.
  intros Hi Hnone. assert (forall v, v ∈ marks ((block, idx) :: rest) post_order <-> v ∈ marks rest (post_order ++ [block])) as Hm.
  { intros v. rw /marks /= elem_of_cons !elem_of_app list_elem_of_singleton. tauto. }
  assert (marks ((block, idx) :: rest) post_order ≡ₚ marks rest (post_order ++ [block])) as Hperm.
  { rw /marks /=. solve_Permutation. }
  destruct Hi. assert (block < n) as Hb by (rw Forall_forall in s_lt0; apply s_lt0; by left).
  assert (block ∉ post_order) as Hnp.
  { rw /marks /= in s_nodup0. apply NoDup_cons in s_nodup0 as [Hn _]. intros ?. apply Hn, elem_of_app. by right. }
  split; try (by rw -Hperm).
  - intros v Hv. rw s_visited0 //. f_equal. by apply bool_decide_ext.
  - by rw length_insert.
  - intros v k. destruct (decide (v = block)) as [->|Hne].
    + rw list_lookup_insert_eq; [|lia]. split.
      * intros [= <-]. by rw lookup_app_r // Nat.sub_diag.
      * intros Hk. apply lookup_app_Some in Hk as [Hk|[Hge Hk]]; [by apply list_elem_of_lookup_2 in Hk|].
        apply list_lookup_singleton_Some in Hk as [Hk _]. do 2 f_equal. lia.
    + rw list_lookup_insert_ne // s_num0. split; [by apply lookup_app_l_Some|].
      intros [?|[_ Hk]]%lookup_app_Some; [done|]. by apply list_lookup_singleton_Some in Hk as [_ ?].
  - intros u i Hu. destruct (s_idx0 u i ltac:(by right)) as [? Ht]. split; [done|]. intros v Hv. by apply Hm, Ht.
  - intros u v [Hu| ->%list_elem_of_singleton]%elem_of_app Hv; apply Hm; [by eapply s_done0|].
    destruct (s_idx0 block idx ltac:(by left)) as [_ Ht]. apply Ht. rw take_ge //. by apply lookup_ge_None.
  - intros k u v Hk Hk'. by apply (s_path0 (S k) u v).
  - destruct s_last0 as [[? _]|Hl]; [done|]. destruct rest as [|[r j] rest]; simpl in Hl |- *; [left|by right].
    split; [done|]. rw last_snoc. by injection Hl as ->.
  - intros i v Hv Hne. apply lookup_app_Some in Hv as [Hv|[Hge Hv]].
    + destruct (s_parent0 i v Hv Hne) as (u & Hu & [[Hub|Hst]%elem_of_cons|(j & Hj & Hju)]); exists u; (split; [done|]).
      * right. simpl in Hub. subst u. exists (length post_order). split; [by eapply lookup_lt_Some|]. by rw lookup_app_r // Nat.sub_diag.
      * by left.
      * right. exists j. split; [done|]. by apply lookup_app_l_Some.
    + apply list_lookup_singleton_Some in Hv as [_ <-]. destruct rest as [|[u j] rest].
      * destruct s_last0 as [[? _]|Hl]; [done|]. simpl in Hl. congruence.
      * exists u. split; [by apply (s_path0 0 u block)|]. left. by left.
  - intros v Hv%Hm. by apply s_reach0.
Qed.

Lemma search_ends visited post_num post_order : searching [] visited post_num post_order ->
  Postorder n next entry post_num post_order.
Proof.
  intros []. rw /marks /= in s_visited0 s_nodup0 s_lt0 s_done0 s_reach0.
  destruct s_last0 as [[_ Hl]|?]; [|done]. split; try done.
  - intros v. split; [by apply s_reach0|]. apply (rtc_ind_r (fun v => v ∈ post_order)).
    + rw last_lookup in Hl *. by eapply list_elem_of_lookup_2.
    + intros u w _ [_ Hw] Hu. by eapply s_done0.
  - intros i v Hv Hne. destruct (s_parent0 i v Hv Hne) as (u & Hu & [?%not_elem_of_nil|(j & ? & ?)]); [done|]. by exists u, j.
Qed.

Lemma dfs_total fuel stack visited post_num post_order : searching stack visited post_num post_order ->
  all_work < fuel + work stack post_order ->
  exists pn po, dfs_loop fuel adj stack visited post_num post_order = Some (pn, po) /\ Postorder n next entry pn po.
Proof.
  revert stack visited post_num post_order. induction fuel as [|fuel IH]; intros stack visited post_num post_order Hs Hf.
  { pose proof (dfs_work_bound _ _ _ _ Hs). lia. }
  cbn [dfs_loop]. destruct stack as [|[block idx] rest]; [eexists _, _; split; [done|by eapply search_ends]|].
  assert (block < n) as Hb by (pose proof (s_lt _ _ _ _ Hs) as Hl; rw Forall_forall in Hl *; apply Hl; by left).
  rw Hadj //. cbn [mbind option_bind]. destruct (next block !! idx) as [s|] eqn:Hn.
  - assert (s < n) as Hsn.
    { pose proof (Hnext block Hb) as Hl. rw Forall_forall in Hl *. apply Hl. by eapply list_elem_of_lookup_2. }
    rw (s_visited _ _ _ _ Hs s Hsn). cbn [mbind option_bind]. case_bool_decide as Hm; apply IH.
    + by eapply search_advance.
    + rw /work /= in Hf |- *. lia.
    + by apply search_push.
    + rw /work /= in Hf |- *. lia.
  - destruct (lookup_lt_is_Some_2 post_num block) as [z ->]; [by rw (s_length _ _ _ _ Hs)|]. cbn [mbind option_bind]. apply IH.
    + by eapply search_pop.
    + pose proof (proj1 (s_idx _ _ _ _ Hs block idx ltac:(by left))) as Hi. apply lookup_ge_None in Hn.
      rw /work /= in Hf |- *. rw fmap_app sum_list_app /=. unfold fmap in *. lia.
Qed.
End Search.

Lemma postorder_spec (n : nat) (next : nat -> list nat) entry adj : entry < n ->
  (forall u, u < n -> adj_of adj u = Some (next u)) -> (forall u, u < n -> Forall (fun v => v < n) (next u)) ->
  targets adj = concat (next <$> seq 0 n) ->
  exists pn po, postorder adj entry n = Some (pn, po) /\ Postorder n next entry pn po.
Proof.
  intros He Ha Hn Ht. rw /postorder. destruct (Nat.ltb_spec entry n); [|lia].
  eapply dfs_total; [done..| |rw /work /all_work Ht /=; lia]. split; simpl.
  - intros v Hv. destruct (decide (v = entry)) as [->|Hne].
    + rw list_lookup_insert_eq; [|by rw length_replicate]. rw bool_decide_true //. by left.
    + rw list_lookup_insert_ne // bool_decide_false; [by apply lookup_replicate|].
      by intros ->%list_elem_of_singleton.
  - apply length_replicate.
  - apply NoDup_singleton.
  - by repeat constructor.
  - intros v k. split; [|done]. by intros [[=] _]%lookup_replicate.
  - intros u i [= -> ->]%list_elem_of_singleton. split; [lia|]. by intros v ?%not_elem_of_nil.
  - by intros u v ?%not_elem_of_nil.
  - by intros [|k] u v.
  - by right.
  - done.
  - intros v ->%list_elem_of_singleton. constructor.
Qed.
