(* ===== verification/DomTree.v ===== *)
(** * Dominator trees: the fixpoint

    A tree under construction maps processed blocks to their current immediate
    dominator.  Every state of the sweep over-approximates dominance: the
    dominators of a processed block are its ancestors.  Each update moves a
    block to an ancestor of its parent, so the sweeps end, and a state that a
    sweep leaves alone is exact. *)

From S2P Require Import Prelude Payload CfgData Csr Dominators DomDfs.
From stdpp Require Import list.

Section Tree.
Context (n : nat) (next : nat -> list nat) (entry : nat) (post_num : list (option nat)) (post_order : list nat).
Context (HP : Postorder n next entry post_num post_order).
Notation E := (fun u v => u < n /\ v ∈ next u).
Notation R v := (v ∈ post_order).
Implicit Types T : list (option nat).

(** ** Dominance *)

(** The blocks of a walk from the entry, the last one first. *)
Inductive walk : list nat -> nat -> Prop :=
| walk_entry : walk [entry] entry
| walk_step l u v : walk l u -> u < n -> v ∈ next u -> walk (v :: l) v.

Definition doms (a b : nat) : Prop := forall l, walk l b -> a ∈ l.

Lemma reach_entry : R entry.
Proof. apply (po_elem _ _ _ _ _ HP). constructor. Qed.

Lemma walk_reach l v : walk l v -> R v /\ Forall (fun u => R u) l.
Proof.
  induction 1 as [|l u v _ [Hu Hl] Hun Hv]; [by split; [apply reach_entry|constructor; [apply reach_entry|]]|].
  assert (R v) as Hrv; [|by split; [|constructor]].
  apply (po_elem _ _ _ _ _ HP) in Hu. apply (po_elem _ _ _ _ _ HP). by eapply rtc_r.
Qed.

Lemma reach_walk v : R v -> exists l, walk l v.
Proof.
  intros Hv%(po_elem _ _ _ _ _ HP). revert v Hv. apply (rtc_ind_r (fun v => exists l, walk l v)).
  - eexists. constructor.
  - intros u v _ [? ?] [l ?]. eexists. by econstructor.
Qed.

Lemma doms_reach a b : R b -> doms a b -> R a.
Proof.
  intros Hb Hd. destruct (reach_walk b Hb) as [l Hl]. destruct (walk_reach l b Hl) as [_ Hf].
  rw Forall_forall in Hf *. apply Hf. by apply Hd.
Qed.

Lemma doms_pred a b p : doms a b -> a <> b -> p < n -> b ∈ next p -> doms a p.
Proof. intros Hd Hne Hp Hb l Hl. specialize (Hd _ (walk_step l p b Hl Hp Hb)). by apply elem_of_cons in Hd as [?|?]. Qed.

Lemma doms_refl b : doms b b.
Proof. intros l. inversion 1; by left. Qed.

(** ** Numbers *)

Definition nu (v : nat) : nat := default 0 (num_of post_num v).

Lemma nu_spec v : R v -> num_of post_num v = Some (nu v) /\ post_order !! nu v = Some v.
Proof.
  intros [k Hk]%list_elem_of_lookup. pose proof (proj2 (po_num _ _ _ _ _ HP v k) Hk) as Hn.
  by rw /nu /num_of Hn.
Qed.

Lemma nu_inj a b : R a -> R b -> nu a = nu b -> a = b.
Proof. intros Ha Hb He. pose proof (nu_spec a Ha) as [_ H1]. pose proof (nu_spec b Hb) as [_ H2]. congruence. Qed.

Lemma nu_entry v : R v -> nu v <= nu entry /\ nu v < length post_order.
Proof.
  intros Hv. destruct (nu_spec v Hv) as [_ H1]. pose proof (po_last _ _ _ _ _ HP) as Hl. rw last_lookup in Hl *.
  apply lookup_lt_Some in H1. destruct (nu_spec entry reach_entry) as [_ H2].
  pose proof (NoDup_lookup _ _ _ _ (po_nodup _ _ _ _ _ HP) Hl H2). lia.
Qed.

Lemma post_length : length post_order <= length post_num.
Proof.
  assert (post_order ⊆+ seq 0 (length post_num)) as Hs%submseteq_length; [|by rw length_seq in Hs *].
  apply NoDup_submseteq; [apply (po_nodup _ _ _ _ _ HP)|]. intros v Hv. destruct (nu_spec v Hv) as [Hn _]. apply elem_of_seq.
  rw /num_of in Hn *. destruct (post_num !! v) eqn:Hpv; [|done]. apply lookup_lt_Some in Hpv. lia.
Qed.

Lemma nu_parent b : R b -> b <> entry -> exists p, p < n /\ R p /\ b ∈ next p /\ nu b < nu p.
Proof.
  intros Hb Hne. destruct (nu_spec b Hb) as [_ Hk]. destruct (po_parent _ _ _ _ _ HP _ _ Hk Hne) as (p & j & Hbp & Hj & Hp).
  pose proof (list_elem_of_lookup_2 _ _ _ Hp) as Hrp. destruct (nu_spec p Hrp) as [_ Hp2].
  pose proof (NoDup_lookup _ _ _ _ (po_nodup _ _ _ _ _ HP) Hp Hp2) as ->. exists p. split_and!; [|done..|done].
  pose proof (proj2 (po_num _ _ _ _ _ HP _ _) Hp) as Hn%lookup_lt_Some. by rw (po_length _ _ _ _ _ HP) in Hn *.
Qed.

(** Climbing along edges to larger numbers. *)
Definition asc : nat -> nat -> Prop := rtc (fun x u => u < n /\ x ∈ next u /\ nu x < nu u).

Lemma asc_walk x b l : asc x b -> walk l b -> exists l', walk (l' ++ l) x /\ Forall (fun y => nu y < nu b) l' /\ nu x <= nu b.
Proof.
  intros Ha Hl. induction Ha as [b|x u b (Hu & Hx & Hlt) _ IH]; [by exists []|].
  destruct (IH Hl) as (l' & Hw & Hf & Hle). exists (x :: l'). split; [by apply (walk_step _ u)|].
  split; [constructor; [lia|done]|lia].
Qed.

Lemma doms_asc a x b : asc x b -> doms a x -> nu b < nu a -> doms a b.
Proof.
  intros Hasc Hd Hlt l Hl. destruct (asc_walk x b l Hasc Hl) as (l' & Hw & Hf & _).
  apply Hd in Hw. apply elem_of_app in Hw as [Hw|?]; [|done]. rw Forall_forall in Hf *. specialize (Hf a Hw). lia.
Qed.

(** ** Trees under construction *)

Definition up T (x y : nat) : Prop := T !! x = Some (Some y).
Definition processed T (x : nat) : Prop := exists y, up T x y.
Definition anc T : nat -> nat -> Prop := rtc (up T).

Record tree_ok T : Prop := {
  t_length : length T = n;
  t_root : up T entry entry;
  t_up : forall x y, up T x y -> x <> entry -> R x /\ nu x < nu y /\ processed T y /\ asc x y;
  t_dom : forall x a, processed T x -> doms a x -> anc T x a;
}.

Lemma up_det T x y z : up T x y -> up T x z -> y = z.
Proof. rw /up. congruence. Qed.

Section Facts.
Context (T : list (option nat)) (HT : tree_ok T).

Lemma processed_reach x : processed T x -> R x.
Proof.
  intros [y Hy]. destruct (decide (x = entry)) as [->|Hne]; [apply reach_entry|]. by destruct (t_up T HT x y Hy Hne).
Qed.

Lemma up_processed x y : up T x y -> processed T y.
Proof.
  intros Hy. destruct (decide (x = entry)) as [->|Hne]; [|by destruct (t_up T HT x y Hy Hne) as (_ & _ & ? & _)].
  rw (up_det _ _ _ _ Hy (t_root T HT)). eexists. apply (t_root T HT).
Qed.

Lemma anc_processed x a : processed T x -> anc T x a -> processed T a.
Proof. intros Hx Ha. induction Ha as [|x y a Hy _ IH]; [done|]. by apply IH, (up_processed x). Qed.

Lemma anc_nu x a : anc T x a -> x = a \/ nu x < nu a.
Proof.
  induction 1 as [|x y a Hy _ IH]; [by left|]. destruct (decide (x = entry)) as [->|Hne].
  - by rw (up_det _ _ _ _ Hy (t_root T HT)) in IH *.
  - destruct (t_up T HT x y Hy Hne) as (_ & Hlt & _). destruct IH as [->|]; right; lia.
Qed.

Lemma anc_linear x a b : anc T x a -> anc T x b -> anc T a b \/ anc T b a.
Proof.
  induction 1 as [x|x y a Hy Ha IH]; [by left|]. intros Hb. destruct Hb as [x|x z b Hz Hb]; [right; by eapply rtc_l|].
  rw (up_det _ _ _ _ Hz Hy) in Hb *. auto.
Qed.

Lemma anc_asc x a : anc T x a -> asc x a.
Proof.
  induction 1 as [|x y a Hy _ IH]; [constructor|]. destruct (decide (x = entry)) as [->|Hne].
  - by rw (up_det _ _ _ _ Hy (t_root T HT)) in IH *.
  - destruct (t_up T HT x y Hy Hne) as (_ & _ & _ & ?). by etrans.
Qed.

Lemma anc_entry x : processed T x -> anc T x entry.
Proof.
  remember (nu entry - nu x) as k eqn:Hk. revert x Hk. induction (lt_wf k) as [k _ IH]. intros x -> [y Hy].
  destruct (decide (x = entry)) as [->|Hne]; [constructor|]. destruct (t_up T HT x y Hy Hne) as (Hx & Hlt & Hpy & _).
  eapply rtc_l; [exact Hy|]. apply (IH (nu entry - nu y)); [|done..].
  destruct (nu_entry y (processed_reach y Hpy)). lia.
Qed.

(** ** Fingers *)

Lemma climb_spec fuel x py : processed T x -> py <= nu entry -> nu entry - nu x <= fuel ->
  exists x', climb post_num fuel T x (nu x) py = Some (x', nu x') /\ anc T x x' /\ py <= nu x' /\
    (x' = x \/ nu x < py) /\ forall z, anc T x z -> py <= nu z -> anc T x' z.
Proof.
  revert x. induction fuel as [|fuel IH]; intros x Hx Hpy Hf; cbn [climb]; destruct (Nat.ltb_spec (nu x) py) as [Hlt|Hge].
  - lia.
  - exists x. split_and!; [done|constructor|done|by left|done].
  - destruct Hx as [y Hy]. assert (x <> entry) as Hne by (intros ->; lia).
    destruct (t_up T HT x y Hy Hne) as (_ & Hxy & Hpy2 & _). rw Hy. cbn [mjoin option_join mbind option_bind].
    destruct (nu_spec y (processed_reach y Hpy2)) as [-> _]. cbn [mbind option_bind].
    destruct (IH y Hpy2 Hpy ltac:(lia)) as (x' & -> & Ha & Hle & _ & Hz). exists x'. split_and!; [done|by eapply rtc_l|done|by right|].
    intros z Hxz Hpz. apply Hz; [|done]. destruct Hxz as [x|x w z Hw Hwz]; [lia|]. by rw (up_det _ _ _ _ Hw Hy) in Hwz *.
  - exists x. split_and!; [done|constructor|done|by left|done].
Qed.

Lemma intersect_spec fuel a b : processed T a -> processed T b -> 2 * nu entry < fuel + nu a + nu b ->
  exists c, intersect post_num fuel a b T = Some c /\ anc T a c /\ anc T b c /\
    forall z, anc T a z -> anc T b z -> anc T c z.
Proof.
  revert a b. induction fuel as [|fuel IH]; intros a b Ha Hb Hf.
  { destruct (nu_entry a (processed_reach a Ha)), (nu_entry b (processed_reach b Hb)). lia. }
  cbn [intersect]. destruct (Nat.eqb_spec a b) as [->|Hab].
  { exists b. split_and!; [done|constructor|constructor|done]. }
  pose proof (processed_reach a Ha) as HRa. pose proof (processed_reach b Hb) as HRb.
  destruct (nu_entry a HRa) as [Hae Hal], (nu_entry b HRb) as [Hbe Hbl].
  pose proof post_length as Hlen. destruct (nu_entry entry reach_entry) as [_ Hle].
  destruct (nu_spec a HRa) as [-> _], (nu_spec b HRb) as [-> _]. cbn [mbind option_bind].
  destruct (climb_spec (length post_num) a (nu b) Ha Hbe ltac:(lia)) as (a' & -> & Haa & Hba & Hca & Hza). cbn [mbind option_bind fst snd].
  pose proof (anc_processed a a' Ha Haa) as Ha'. destruct (nu_entry a' (processed_reach a' Ha')) as [Hae' _].
  destruct (climb_spec (length post_num) b (nu a') Hb Hae' ltac:(lia)) as (b' & -> & Hbb & Hab' & Hcb & Hzb). cbn [mbind option_bind fst snd].
  pose proof (anc_processed b b' Hb Hbb) as Hb'.
  assert (nu a <> nu b) as Hnab by (intros He; by apply Hab, nu_inj).
  destruct (IH a' b' Ha' Hb') as (c & Hc & Hac & Hbc & Hz).
  { destruct (anc_nu a a' Haa) as [->|], (anc_nu b b' Hbb) as [->|]; lia. }
  exists c. split_and!; [done|by etrans|by etrans|]. intros z Haz Hbz.
  assert (anc T a' z) as Ha'z.
  { apply Hza; [done|]. destruct (anc_nu b z Hbz) as [->|]; lia. }
  apply Hz; [done|]. apply Hzb; [done|]. destruct (anc_nu a' z Ha'z) as [->|]; lia.
Qed.

(** The meet of the processed predecessors. *)
Definition is_meet (ps : list nat) (o : option nat) : Prop :=
  match o with
  | None => forall p, p ∈ ps -> ~ processed T p
  | Some d => (exists p, p ∈ ps /\ processed T p) /\ (forall p, p ∈ ps -> processed T p -> anc T p d) /\
      forall z, (forall p, p ∈ ps -> processed T p -> anc T p z) -> anc T d z
  end.

Lemma meet_spec ps : Forall (fun p => p < n) ps -> exists o, fold_opt (meet_pred post_num T) None ps = Some o /\ is_meet ps o.
Proof.
  intros Hf. apply (fold_opt_total (meet_pred post_num T) is_meet); [by intros p ?%not_elem_of_nil|].
  intros pre p o [post Hp] Ho. assert (p < n) as Hpn.
  { rw Forall_forall in Hf *. apply Hf. rw Hp. set_solver. }
  rw /meet_pred. destruct (lookup_lt_is_Some_2 post_num p) as [pn Hpn2]; [by rw (po_length _ _ _ _ _ HP)|].
  destruct (lookup_lt_is_Some_2 T p) as [pi Hpi]; [by rw (t_length T HT)|]. rw Hpn2 Hpi. cbn [mbind option_bind].
  assert (~ processed T p -> is_meet (pre ++ [p]) o) as Hskip.
  { intros Hnp. destruct o as [d|]; simpl in Ho |- *.
    - destruct Ho as ((q & Hq & Hpq) & Ha & Hz). split_and!.
      + exists q. by rw elem_of_app; split; [left|].
      + intros p' [?| ->%list_elem_of_singleton]%elem_of_app ?; auto; done.
      + intros z Hz'. apply Hz. intros p' ? ?. apply Hz'; [|done]. by apply elem_of_app; left.
    - intros p' [?| ->%list_elem_of_singleton]%elem_of_app; auto. }
  destruct pn as [pn|].
  2:{ exists o. split; [done|]. apply Hskip. intros Hpp. destruct (nu_spec p (processed_reach p Hpp)) as [Hnu _].
      by rw /num_of Hpn2 in Hnu *. }
  destruct pi as [pi|]; [|exists o; split; [done|]; apply Hskip; intros [y Hy]; by rw /up Hpi in Hy *].
  assert (processed T p) as Hpp by by exists pi.
  destruct o as [cur|]; simpl in Ho.
  - destruct Ho as ((q & Hq & Hpq) & Ha & Hz). pose proof (anc_processed q cur Hpq (Ha q Hq Hpq)) as Hpc.
    destruct (intersect_spec (S (2 * length post_num)) p cur Hpp Hpc) as (c & -> & Hpc' & Hcc & Hzc).
    { pose proof post_length. destruct (nu_entry entry reach_entry). lia. }
    cbn [mbind option_bind]. eexists. split; [done|]. simpl. split_and!.
    + exists p. rw elem_of_app. split; [right; by left|done].
    + intros p' [Hp'| ->%list_elem_of_singleton]%elem_of_app Hpp'; [|done]. etrans; [by apply Ha|done].
    + intros z Hz'. apply Hzc; [apply Hz'; [|done]; rw elem_of_app; right; by left|].
      apply Hz. intros p' ? ?. apply Hz'; [|done]. by apply elem_of_app; left.
  - eexists. split; [done|]. simpl. split_and!.
    + exists p. rw elem_of_app. split; [right; by left|done].
    + intros p' [Hp'| ->%list_elem_of_singleton]%elem_of_app Hpp'; [by destruct (Ho p' Hp')|constructor].
    + intros z Hz'. apply Hz'; [|done]. rw elem_of_app. right. by left.
Qed.
End Facts.

Lemma reach_lt v : R v -> v < n.
Proof.
  intros Hv. destruct (nu_spec v Hv) as [Hn _]. rw /num_of in Hn *.
  destruct (post_num !! v) eqn:Hpv; [|done]. apply lookup_lt_Some in Hpv. by rw (po_length _ _ _ _ _ HP) in Hpv *.
Qed.

(** ** One update *)

Section Update.
Context (T : list (option nat)) (HT : tree_ok T) (z d : nat).
Context (Hz : R z) (Hne : z <> entry) (Hnu : nu z < nu d) (Hd : processed T d) (Hasc : asc z d).
Context (Hdom : forall a, doms a z -> a <> z -> anc T d a).
Notation T' := (<[z := Some d]> T).

Lemma up_update x y : up T' x y <-> x = z /\ y = d \/ x <> z /\ up T x y.
Proof using HP HT Hz.
  clear Hnu Hdom Hd Hasc Hne. rw /up. destruct (decide (x = z)) as [->|Hxz].
  - rw list_lookup_insert_eq; [|rw (t_length T HT); by apply reach_lt]. naive_solver.
  - rw list_lookup_insert_ne; [|congruence]. naive_solver.
Qed.

Lemma up_nu x y : up T x y -> x = y \/ nu x < nu y.
Proof. intros Hy. apply (anc_nu T HT). by apply rtc_once. Qed.

Lemma anc_above x a : nu z < nu x -> anc T' x a <-> anc T x a.
Proof.
  intros Hx. split; intros Ha.
  - induction Ha as [|x y a Hy _ IH]; [constructor|]. apply up_update in Hy as [[-> _]|[_ Hy]]; [lia|].
    eapply rtc_l; [exact Hy|]. apply IH. destruct (up_nu x y Hy) as [->|]; lia.
  - induction Ha as [|x y a Hy _ IH]; [constructor|]. eapply rtc_l; [|apply IH; destruct (up_nu x y Hy) as [->|]; lia].
    apply up_update. right. split; [|done]. intros ->. lia.
Qed.

Lemma anc_case x a : anc T x a -> anc T' x a \/ anc T x z /\ anc T' x z /\ anc T z a /\ z <> a.
Proof.
  intros Ha. induction Ha as [|x y a Hy Ha IH]; [left; constructor|].
  destruct (decide (x = z)) as [->|Hxz].
  - destruct (decide (z = a)) as [->|Hza]; [left; constructor|]. right. split_and!; [constructor|constructor|by eapply rtc_l|done].
  - assert (up T' x y) as Hy' by (apply up_update; by right).
    destruct IH as [?|(H1 & H2 & H3 & H4)]; [left; by eapply rtc_l|right]. split_and!; [by eapply rtc_l|by eapply rtc_l|done|done].
Qed.

Lemma anc_below x a : anc T x a -> nu a <= nu z -> anc T' x a.
Proof. intros [?|(_ & _ & Hza & Hn)]%anc_case Hle; [done|]. destruct (anc_nu T HT z a Hza); [done|lia]. Qed.

Lemma processed_update x : processed T' x <-> x = z \/ processed T x.
Proof.
  split.
  - intros [y Hy]. apply up_update in Hy as [[-> _]|[_ Hy]]; [by left|right; by exists y].
  - destruct (decide (x = z)) as [->|Hx]; [intros _; exists d; apply up_update; by left|].
    intros [?|[y Hy]]; [done|]. exists y. apply up_update. by right.
Qed.

Lemma anc_mono x a : (forall e, up T z e -> anc T e d) -> processed T x -> anc T' x a -> anc T x a.
Proof.
  intros He Hx Ha. induction Ha as [|x y a Hy _ IH]; [constructor|]. apply up_update in Hy as [[-> ->]|[_ Hy]].
  - destruct Hx as [e Hze]. etrans; [by eapply rtc_l; [|apply He]|]. by apply IH.
  - eapply rtc_l; [exact Hy|]. apply IH. by eapply (up_processed T HT).
Qed.

Lemma tree_update : tree_ok T'.
Proof.
  split.
  - by rw length_insert (t_length T HT).
  - apply up_update. right. split; [done|apply (t_root T HT)].
  - intros x y [[-> ->]|[Hx Hy]]%up_update Hxe; [split_and!; [done|done|apply processed_update; by right|done]|].
    destruct (t_up T HT x y Hy Hxe) as (? & ? & ? & ?). split_and!; [done|done|apply processed_update; by right|done].
  - intros x a Hx Hda. assert (forall a, doms a z -> anc T' z a) as Hza.
    { intros b Hb. destruct (decide (b = z)) as [->|Hbz]; [constructor|]. eapply rtc_l; [apply up_update; by left|].
      apply anc_above; [done|]. by apply Hdom. }
    destruct (decide (x = z)) as [->|Hxz]; [by apply Hza|]. apply processed_update in Hx as [?|Hx]; [done|].
    destruct (anc_case x a (t_dom T HT x a Hx Hda)) as [?|(H1 & H2 & H3 & H4)]; [done|]. etrans; [exact H2|].
    apply Hza. apply (doms_asc a x z); [by apply (anc_asc T HT)|done|]. by destruct (anc_nu T HT z a H3).
Qed.
End Update.

(** ** The sweep *)

Definition edge_up (p b : nat) : Prop := p < n /\ R p /\ b ∈ next p /\ nu b < nu p.

(** In a sweep, the blocks numbered [m] and above have been visited. *)
Record sweeping (m : nat) T : Prop := {
  w_tree : tree_ok T;
  w_done : forall b, R b -> m <= nu b -> processed T b;
  w_first : (forall b, R b -> processed T b) \/ forall b, processed T b -> m <= nu b \/ b = entry;
  w_above : forall b p e, up T b e -> b <> entry -> m <= nu b -> edge_up p b -> anc T p e;
  w_below : forall b p e, up T b e -> b <> entry -> nu b < m -> edge_up p b ->
    (nu e < m -> anc T p e) /\ (m <= nu e -> forall a, anc T p a -> nu e <= nu a -> anc T e a);
  w_seen : forall b e, up T b e -> b <> entry -> exists seen : nat -> Prop,
    (forall p, seen p -> p < n /\ b ∈ next p /\ processed T p) /\ forall a, (forall p, seen p -> anc T p a) -> nu e <= nu a;
}.

(** What the visit of one block may do to the tree. *)
Record visit_ok (z : nat) T T' : Prop := {
  v_tree : tree_ok T';
  v_processed : forall b, processed T' b <-> b = z \/ processed T b;
  v_same : forall b y, b <> z -> up T' b y <-> up T b y;
  v_above : forall x a, nu z < nu x -> anc T' x a <-> anc T x a;
  v_below : forall x a, anc T x a -> nu a <= nu z -> anc T' x a;
  v_mono : forall x a, processed T x -> anc T' x a -> anc T x a;
}.

Lemma visit_step z T T' : sweeping (S (nu z)) T -> visit_ok z T T' -> R z ->
  (z <> entry -> forall e, up T' z e -> (forall p, edge_up p z -> anc T p e) /\
    exists seen : nat -> Prop, (forall p, seen p -> p < n /\ z ∈ next p /\ processed T p) /\
      forall a, (forall p, seen p -> anc T p a) -> nu e <= nu a) ->
  sweeping (nu z) T'.
Proof.
  intros Hw Hv HRz Hze. pose proof (w_tree _ _ Hw) as HT. pose proof (v_tree _ _ _ Hv) as HT'. split; [done|..].
  - intros b Hb Hle. apply (v_processed _ _ _ Hv). destruct (decide (nu b = nu z)) as [He|Hn].
    + left. by apply nu_inj.
    + right. apply (w_done _ _ Hw); [done|lia].
  - destruct (w_first _ _ Hw) as [Hall|Hsome].
    + left. intros b Hb. apply (v_processed _ _ _ Hv). right. by apply Hall.
    + right. intros b [->|Hb]%(v_processed _ _ _ Hv); [by left|]. destruct (Hsome b Hb); [left; lia|by right].
  - intros b p e He Hbe Hle Hp. pose proof Hp as (_ & HRp & _ & Hlt).
    assert (processed T p) as Hpp by (apply (w_done _ _ Hw); [done|lia]).
    apply (v_above _ _ _ Hv); [lia|]. destruct (decide (b = z)) as [->|Hbz].
    + by apply (Hze Hbe e He).
    + apply (w_above _ _ Hw b p e); [by apply (v_same _ _ _ Hv)|done| |done].
      assert (R b) as HRb by (apply (processed_reach T' HT'); by exists e). assert (nu b <> nu z) by (intros ?; by apply Hbz, nu_inj). lia.
  - intros b p e He Hbe Hlt Hp. assert (b <> z) as Hbz by (intros ->; lia). apply (v_same _ _ _ Hv) in He; [|done].
    destruct (w_below _ _ Hw b p e He Hbe ltac:(lia) Hp) as [H1 H2]. split.
    + intros Hl. apply (v_below _ _ _ Hv); [apply H1; lia|lia].
    + intros Hle a Ha Hea. assert (processed T b) as Hpb by by exists e.
      assert (processed T e) as Hpe by by eapply (up_processed T HT). 
      assert (processed T p) as Hpp.
      { destruct (w_first _ _ Hw) as [Hall|Hsome]; [apply Hall, Hp|]. destruct (Hsome b Hpb); [lia|done]. }
      pose proof (processed_reach T HT e Hpe) as HRe.
      destruct (decide (nu e = nu z)) as [Hez|Hez].
      * apply nu_inj in Hez; [|done..]. subst z. assert (anc T' p e) as Hpe' by (apply (v_below _ _ _ Hv); [apply H1; lia|lia]).
        destruct (anc_linear T' p e a Hpe' Ha) as [?|Hae]; [done|].
        destruct (anc_nu T' HT' a e Hae) as [->|?]; [constructor|lia].
      * apply (v_above _ _ _ Hv); [lia|]. apply H2; [lia| |done]. by apply (v_mono _ _ _ Hv).
  - intros b e He Hbe. assert (exists seen : nat -> Prop, (forall p, seen p -> p < n /\ b ∈ next p /\ processed T p) /\
        forall a, (forall p, seen p -> anc T p a) -> nu e <= nu a) as (seen & Hs & Ha).
    { destruct (decide (b = z)) as [->|Hbz]; [by apply (Hze Hbe e He)|].
      apply (v_same _ _ _ Hv) in He; [|done]. by apply (w_seen _ _ Hw). }
    exists seen. split.
    + intros p Hp. destruct (Hs p Hp) as (? & ? & ?). split_and!; [done|done|]. apply (v_processed _ _ _ Hv). by right.
    + intros a Hpa. apply Ha. intros p Hp. apply (v_mono _ _ _ Hv); [by apply Hs|by apply Hpa].
Qed.

Lemma visit_same z T : tree_ok T -> processed T z -> visit_ok z T T.
Proof. intros HT Hz. split; try done. intros b. split; [by right|by intros [->|?]]. Qed.

(** A block whose entry the sweep would not change. *)
Definition stable T (ps : nat -> list nat) (b : nat) : Prop := b <> entry -> exists d, up T b d /\ is_meet T (ps b) (Some d).

Section Sweep.
Context (ps : nat -> list nat) (Hps : forall b p, b < n -> p ∈ ps b <-> p < n /\ b ∈ next p).

Definition pot T : nat := sum_list ((fun o => match o with Some d => S (nu d) | None => 0 end) <$> T).

Lemma sum_list_insert (l : list nat) i x y : l !! i = Some x -> sum_list (<[i := y]> l) + x = sum_list l + y.
Proof.
  intros Hi. rewrite insert_take_drop; [|by eapply lookup_lt_Some].
  rewrite -{3}(take_drop_middle l i x Hi) !sum_list_app /=. lia.
Qed.

Lemma sum_list_bound (l : list nat) k : (forall x, x ∈ l -> x <= k) -> sum_list l <= length l * k.
Proof.
  induction l as [|x l IH]; intros Hk; simpl; [lia|]. pose proof (Hk x ltac:(by left)).
  assert (sum_list l <= length l * k) by (apply IH; intros; apply Hk; by right). lia.
Qed.

Lemma pot_insert T z d : T !! z <> Some (Some d) -> z < length T -> (forall e, up T z e -> anc T e d) -> tree_ok T ->
  pot T < pot (<[z := Some d]> T).
Proof.
  intros Hn Hz He HT. destruct (lookup_lt_is_Some_2 T z Hz) as [o Ho]. rw /pot list_fmap_insert.
  set (f := fun o : option nat => match o with Some d => S (nu d) | None => 0 end).
  pose proof (sum_list_insert (f <$> T) z (f o) (f (Some d))) as Hs. rw list_lookup_fmap Ho in Hs *. specialize (Hs eq_refl).
  change (f (Some d)) with (S (nu d)) in Hs |- *.
  destruct o as [e|]; [change (f (Some e)) with (S (nu e)) in Hs|change (f None) with 0 in Hs; lia]. destruct (anc_nu T HT e d (He e Ho)) as [->|]; [done|lia].
Qed.

Lemma pot_bound T : tree_ok T -> pot T <= n * n.
Proof.
  intros HT. assert (forall o, o ∈ T -> match o with Some d => S (nu d) | None => 0 end <= n) as Hf.
  { intros [d|] Hd; [|lia]. apply list_elem_of_lookup in Hd as [x Hx].
    assert (processed T d) as Hpd by by eapply (up_processed T HT). destruct (nu_entry d (processed_reach T HT d Hpd)).
    pose proof post_length. rw (po_length _ _ _ _ _ HP) in H1 *. lia. }
  rw /pot. etrans; [apply (sum_list_bound _ n)|by rw length_fmap (t_length T HT)].
  intros x (o & -> & Ho)%list_elem_of_fmap. by apply Hf.
Qed.

(** The new immediate dominator of a visited block. *)
Lemma meet_facts z T d : sweeping (S (nu z)) T -> R z -> z <> entry -> is_meet T (ps z) (Some d) ->
  nu z < nu d /\ processed T d /\ asc z d /\ (forall a, doms a z -> a <> z -> anc T d a) /\
  (forall e, up T z e -> anc T e d) /\ forall p, edge_up p z -> anc T p d.
Proof.
  intros Hw Hz Hne (_ & Hd & Hm). pose proof (w_tree _ _ Hw) as HT. pose proof (reach_lt z Hz) as Hzn.
  assert (forall p, edge_up p z -> anc T p d /\ processed T p) as Hup.
  { intros p (Hp & HRp & Hzp & Hlt). assert (processed T p) as Hpp by (apply (w_done _ _ Hw); [done|lia]).
    split; [|done]. apply Hd; [by apply Hps|done]. }
  destruct (nu_parent z Hz Hne) as (p0 & Hp0 & HRp0 & Hzp0 & Hlt0).
  assert (edge_up p0 z) as He0 by done. destruct (Hup p0 He0) as [Ha0 Hpp0].
  assert (nu p0 <= nu d) as Hpd by (destruct (anc_nu T HT p0 d Ha0) as [->|]; lia).
  split_and!.
  - lia.
  - by apply (anc_processed T HT p0).
  - eapply rtc_l; [|by apply (anc_asc T HT)]. done.
  - intros a Hda Hna. apply Hm. intros p [Hp Hzp]%Hps Hpp; [|done]. apply (t_dom T HT); [done|]. by eapply doms_pred.
  - intros e He. destruct (w_below _ _ Hw z p0 e He Hne ltac:(lia) He0) as [_ H2].
    destruct (t_up T HT z e He Hne) as (_ & Hze & _). apply H2; [lia|done|].
    destruct (w_seen _ _ Hw z e He Hne) as (seen & Hs & Ha). apply Ha. intros p Hp. destruct (Hs p Hp) as (? & ? & ?).
    apply Hd; [by apply Hps|done].
  - intros p Hp. by apply Hup.
Qed.

Lemma visit_meet z T d : sweeping (S (nu z)) T -> R z -> z <> entry -> is_meet T (ps z) (Some d) ->
  sweeping (nu z) (<[z := Some d]> T) /\ (up T z d -> sweeping (nu z) T).
Proof.
  intros Hw Hz Hne Hm. pose proof (w_tree _ _ Hw) as HT. pose proof (reach_lt z Hz) as Hzn.
  destruct (meet_facts z T d Hw Hz Hne Hm) as (Hnu & Hpd & Hasc & Hdom & Hmono & Hup).
  assert (forall e, e = d -> (forall p, edge_up p z -> anc T p e) /\
    exists seen : nat -> Prop, (forall p, seen p -> p < n /\ z ∈ next p /\ processed T p) /\
      forall a, (forall p, seen p -> anc T p a) -> nu e <= nu a) as Hseen.
  { intros e ->. split; [done|]. exists (fun p => p ∈ ps z /\ processed T p). split.
    - intros p [[? ?]%Hps ?]; [|done]. done.
    - intros a Ha. destruct Hm as (_ & _ & Hm). assert (anc T d a) as Hda by (apply Hm; intros; by apply Ha).
      destruct (anc_nu T HT d a Hda) as [->|]; lia. }
  split.
  - apply (visit_step z T); [done| |done|].
    + split.
      * by apply tree_update.
      * intros b. by apply processed_update.
      * intros b y Hb. rw up_update //. naive_solver.
      * intros x a Hx. by apply anc_above.
      * intros x a Ha Hle. by apply anc_below.
      * intros x a Hx Ha. by apply (anc_mono T HT z d Hz).
    + intros _ e He. apply (up_update T HT z d Hz) in He as [[_ ->]|[? _]]; [by apply Hseen|done].
  - intros Hu. apply (visit_step z T T); [done|apply visit_same; [done|by exists d]|done|].
    intros _ e He. apply Hseen. by eapply up_det.
Qed.

Lemma visit_entry T : sweeping (S (nu entry)) T -> sweeping (nu entry) T.
Proof.
  intros Hw. pose proof (w_tree _ _ Hw) as HT. apply (visit_step entry T T); [done| |apply reach_entry|done].
  apply visit_same; [done|]. exists entry. apply (t_root T HT).
Qed.

(** Every block has a processed predecessor when it is visited. *)
Lemma meet_some z T o : sweeping (S (nu z)) T -> R z -> z <> entry -> is_meet T (ps z) o -> exists d, o = Some d.
Proof.
  intros Hw Hz Hne Hm. destruct o as [d|]; [by exists d|]. exfalso.
  destruct (nu_parent z Hz Hne) as (p0 & Hp0 & HRp0 & Hzp0 & Hlt0). apply (Hm p0).
  - by apply Hps; [apply reach_lt|].
  - apply (w_done _ _ Hw); [done|lia].
Qed.

Context (preds : Adjacency) (Hpreds : forall b, b < n -> adj_of preds b = Some (ps b)).

Lemma update_spec z T ch : sweeping (S (nu z)) T -> R z ->
  exists T' ch', update_block post_num entry preds (T, ch) z = Some (T', ch') /\ sweeping (nu z) T' /\ pot T <= pot T' /\
    (T' = T /\ ch' = ch /\ stable T ps z \/ ch' = true /\ pot T < pot T').
Proof.
  intros Hw Hz. pose proof (w_tree _ _ Hw) as HT. pose proof (reach_lt z Hz) as Hzn. rw /update_block.
  destruct (Nat.eqb_spec z entry) as [->|Hne].
  { exists T, ch. split_and!; [done|by apply visit_entry|done|]. left. split_and!; [done|done|by intros ?]. }
  rw Hpreds //. cbn [mbind option_bind fst snd].
  destruct (meet_spec T HT (ps z)) as (o & -> & Hm); [by apply Forall_forall; intros p [? _]%Hps|]. cbn [mbind option_bind].
  destruct (meet_some z T o Hw Hz Hne Hm) as [d ->]. destruct (visit_meet z T d Hw Hz Hne Hm) as [Hw1 Hw2].
  destruct (lookup_lt_is_Some_2 T z) as [cur Hcur]; [by rw (t_length T HT)|]. rw Hcur. cbn [mbind option_bind].
  case_decide as Hc.
  - subst cur. exists T, ch. split_and!; [done|by apply Hw2|done|]. left. split_and!; [done|done|]. intros _. by exists d.
  - destruct (meet_facts z T d Hw Hz Hne Hm) as (_ & _ & _ & _ & Hmono & _).
    assert (pot T < pot (<[z := Some d]> T)) as Hp by (apply pot_insert; [congruence|by rw (t_length T HT)|done|done]).
    exists (<[z := Some d]> T), true. split_and!; [done|done|lia|]. by right.
Qed.

Notation N := (length post_order).

Lemma sweep_spec T : sweeping N T ->
  exists T' ch, fold_opt (update_block post_num entry preds) (T, false) (rev post_order) = Some (T', ch) /\
    sweeping 0 T' /\ (ch = false -> T' = T /\ forall b, R b -> stable T ps b) /\ (ch = true -> pot T < pot T').
Proof.
  intros Hw. destruct (fold_opt_total (update_block post_num entry preds) (fun pre st =>
      sweeping (N - length pre) st.1 /\ pot T <= pot st.1 /\
      (st.2 = false -> st.1 = T /\ forall b, b ∈ pre -> stable T ps b) /\ (st.2 = true -> pot T < pot st.1))
    (rev post_order) (T, false)) as ([T' ch] & Hf & Hw' & _ & Hs & Hp).
  - simpl. rw Nat.sub_0_r. split_and!; try done. intros _. split; [done|]. by intros b ?%not_elem_of_nil.
  - intros pre z [T1 ch1] [post Hrev] (Hw1 & Hp1 & Hs1 & Hc1). simpl in *.
    assert (post_order = rev post ++ [z] ++ rev pre) as Hpo.
    { rewrite -(rev_involutive post_order) Hrev rev_app_distr /= -app_assoc //. }
    assert (post_order !! length post = Some z) as Hz by (rw Hpo lookup_app_r length_rev // Nat.sub_diag //).
    pose proof (list_elem_of_lookup_2 _ _ _ Hz) as HRz. destruct (nu_spec z HRz) as [_ Hz2].
    pose proof (NoDup_lookup _ _ _ _ (po_nodup _ _ _ _ _ HP) Hz Hz2) as Hnz.
    assert (N = length post + S (length pre)) as HN by (rw Hpo !length_app !length_rev /=; lia).
    replace (N - length pre) with (S (nu z)) in Hw1 by lia.
    destruct (update_spec z T1 ch1 Hw1 HRz) as (T2 & ch2 & -> & Hw2 & Hle & Hcase). eexists. split; [done|]. simpl.
    rw length_app /=. replace (N - (length pre + 1)) with (nu z) by lia. split_and!; [done|lia| |].
    + destruct Hcase as [(-> & -> & Hst)|[-> _]]; [|done]. intros Hch. destruct (Hs1 Hch) as [-> Hpre]. split; [done|].
      intros b [Hb| ->%list_elem_of_singleton]%elem_of_app; [by apply Hpre|done].
    + destruct Hcase as [(-> & -> & _)|[-> Hlt]]; [done|]. intros _. lia.
  - exists T', ch. simpl in *. rw length_rev Nat.sub_diag in Hw' *. split_and!; [done|done| |done].
    intros Hch. destruct (Hs Hch) as [-> Hst]. split; [done|]. intros b Hb. apply Hst. rewrite list_elem_of_In -in_rev -list_elem_of_In //.
Qed.

Lemma next_sweep T : sweeping 0 T -> sweeping N T.
Proof.
  intros Hw. pose proof (w_tree _ _ Hw) as HT. assert (forall b, processed T b -> nu b < N) as Hlt.
  { intros b Hb. by apply nu_entry, (processed_reach T HT). }
  assert (forall b, R b -> processed T b) as Hall by (intros b Hb; apply (w_done _ _ Hw); [done|lia]).
  split; [done|auto|by left| | |apply (w_seen _ _ Hw)].
  - intros b p e He _ Hle _. assert (processed T b) as Hb by by exists e. specialize (Hlt b Hb). lia.
  - intros b p e He Hbe _ Hp. split; [intros _; apply (w_above _ _ Hw b p e); [done|done|lia|done]|].
    intros Hle. specialize (Hlt e ltac:(by eapply (up_processed T HT))). lia.
Qed.

Lemma fixpoint_spec fuel T : sweeping N T -> n * n < fuel + pot T ->
  exists T', fixpoint post_num fuel entry preds (rev post_order) T = Some T' /\ tree_ok T' /\
    forall b, R b -> processed T' b /\ stable T' ps b.
Proof.
  revert T. induction fuel as [|fuel IH]; intros T Hw Hf; [pose proof (pot_bound T (w_tree _ _ Hw)); lia|].
  cbn [fixpoint]. destruct (sweep_spec T Hw) as (T' & ch & -> & Hw' & Hs & Hc). cbn [mbind option_bind fst snd].
  destruct ch.
  - apply IH; [by apply next_sweep|]. specialize (Hc eq_refl). lia.
  - destruct (Hs eq_refl) as [-> Hst]. exists T. split_and!; [done|apply (w_tree _ _ Hw')|]. intros b Hb.
    split; [|by apply Hst]. apply (w_done _ _ Hw'); [done|lia].
Qed.

Lemma stable_exact T : tree_ok T -> (forall b, R b -> processed T b /\ stable T ps b) ->
  forall a b, R b -> anc T b a <-> doms a b.
Proof.
  intros HT Hst a b Hb. split; [|apply (t_dom T HT); by apply Hst]. intros Ha l Hl. revert a Ha.
  assert (forall a, anc T entry a -> a = entry) as Hentry.
  { intros a Ha. destruct (anc_nu T HT entry a Ha) as [->|Hlt]; [done|].
    pose proof (proj2 (Hst entry reach_entry)) as _. assert (processed T a) as Hpa by (eapply (anc_processed T HT); [by apply Hst, reach_entry|done]).
    destruct (nu_entry a (processed_reach T HT a Hpa)). lia. }
  clear Hb. induction Hl as [|l u v Hl IH Hun Hv]; intros a Ha.
  { rw (Hentry a Ha). by left. }
  destruct (decide (v = entry)) as [->|Hne]; [rw (Hentry a Ha); by left|].
  destruct Ha as [v|v w a Hw Ha]; [by left|]. right. apply IH.
  destruct (walk_reach l u Hl) as [Hu _]. assert (R v) as HRv.
  { apply (po_elem _ _ _ _ _ HP). apply (po_elem _ _ _ _ _ HP) in Hu. by eapply rtc_r. }
  destruct (proj2 (Hst v HRv) Hne) as (d & Hd & _ & Hm & _). rw (up_det _ _ _ _ Hw Hd) in Ha *.
  etrans; [|exact Ha]. apply Hm; [by apply Hps; [apply reach_lt|]|by apply Hst].
Qed.

Lemma start_sweeping : entry < n -> sweeping N (<[entry := Some entry]> (replicate n None)).
Proof.
  intros He. set (T := <[entry := Some entry]> _).
  assert (forall x y, up T x y <-> x = entry /\ y = entry) as Hup.
  { intros x y. rw /up /T. destruct (decide (x = entry)) as [->|Hx].
    - rw list_lookup_insert_eq; [|by rw length_replicate]. split; [by intros [= ->]|by intros [_ ->]].
    - rw list_lookup_insert_ne; [|congruence]. split; [by intros [[=] _]%lookup_replicate|by intros [? _]]. }
  assert (forall x, processed T x -> x = entry) as Hproc by by intros x [y [? _]%Hup].
  split.
  - split.
    + by rw length_insert length_replicate.
    + by apply Hup.
    + by intros x y [-> _]%Hup.
    + intros x a ->%Hproc Hd. specialize (Hd _ walk_entry). apply list_elem_of_singleton in Hd as ->. constructor.
  - intros b Hb Hle. destruct (nu_entry b Hb). lia.
  - right. intros b Hb. right. by apply Hproc.
  - by intros b p e [-> _]%Hup.
  - by intros b p e [-> _]%Hup.
  - by intros b e [-> _]%Hup.
Qed.
End Sweep.
End Tree.
