(* ===== verification/DomOrder.v ===== *)
(** * Dominator trees: intervals, queries and the lowering order

    The preorder walk gives every block of the tree an interval that holds
    exactly its descendants; with the exact tree of [DomTree] this makes the
    constant-time query decide dominance.  The lowering order takes the least
    available block of the tree. *)

From S2P Require Import Prelude Payload CfgData CfgEdit Cfg Dce Csr Dominators DomDfs DomTree.
From stdpp Require Import list sorting.

(** ** Children *)

Definition child_pair (e : nat * option BlockId) : option (nat * nat) :=
  match e.2 with Some p => if p =? e.1 then None else Some (p, e.1) | None => None end.
Definition child_pairs (T : list (option BlockId)) : list (nat * nat) := omap child_pair (imap pair T).

Lemma fold_opt_omap {T A B} (f : T -> A -> option T) (g : T -> B -> option T) (h : A -> option B) l s :
  (forall t a, f t a = match h a with Some b => g t b | None => Some t end) ->
  fold_opt f s l = fold_opt g s (omap h l).
Proof.
  intros Hf. revert s. induction l as [|a l IH]; intros s; [done|]. cbn [fold_opt omap list_omap]. rw Hf.
  destruct (h a) as [b|]; cbn [fold_opt mbind option_bind]; [|apply IH]. by destruct (g s b); simpl.
Qed.

Lemma elem_of_child_pairs T p c : (p, c) ∈ child_pairs T <-> T !! c = Some (Some p) /\ c <> p.
Proof.
  rw /child_pairs list_elem_of_omap. split.
  - intros ([i o] & Hi & Hc). apply list_elem_of_lookup in Hi as [k Hk]. rw list_lookup_imap in Hk *.
    destruct (T !! k) as [o'|] eqn:HT; [|done]. simpl in Hk. injection Hk as <- <-. rw /child_pair /= in Hc *.
    destruct o' as [q|]; [|done]. destruct (Nat.eqb_spec q k); [done|]. injection Hc as <- <-. split; [done|congruence].
  - intros [HT Hne]. exists (c, Some p). split.
    + apply list_elem_of_lookup. exists c. by rw list_lookup_imap HT.
    + rw /child_pair /=. by destruct (Nat.eqb_spec p c).
Qed.

Lemma child_pairs_nodup T k : NoDup (omap child_pair (imap (fun i o => (k + i, o)) T)).*2.
Proof.
  revert k. induction T as [|o T IH]; intros k; [constructor|]. rw imap_cons.
  assert (imap ((fun i o => (k + i, o)) ∘ S) T = imap (fun i o => (S k + i, o)) T) as ->.
  { apply imap_ext. intros i x _. simpl. f_equal. lia. }
  cbn [omap list_omap]. destruct (child_pair (k + 0, o)) as [[p c]|] eqn:Hp; [|apply IH].
  rw fmap_cons. apply NoDup_cons. split; [|apply IH]. rw /child_pair /= in Hp *. destruct o as [q|]; [|done].
  destruct (q =? k + 0); [done|]. injection Hp as -> <-. simpl. intros ([p' c'] & Hc & Hpc)%list_elem_of_fmap.
  apply list_elem_of_omap in Hpc as ([i o'] & Hi & Ho). apply list_elem_of_lookup in Hi as [j Hj].
  rw list_lookup_imap in Hj *. destruct (T !! j) as [o2|]; [|done]. simpl in Hj. injection Hj as <- <-.
  rw /child_pair /= in Ho *. destruct o2 as [q|]; [|done]. destruct (q =? _); [done|]. injection Ho as -> <-. simpl in Hc. lia.
Qed.

Lemma children_spec T n : length T = n -> (forall c p, T !! c = Some (Some p) -> p < n) ->
  exists adj, children_of T n = Some adj /\ forall p, p < n -> exists cs, adj_of adj p = Some cs /\ NoDup cs /\
    forall c, c ∈ cs <-> T !! c = Some (Some p) /\ c <> p.
Proof.
  intros Hl Hlt. set (ps := child_pairs T).
  assert (Forall (fun p : nat * nat => p.1 < n) ps) as Hf.
  { apply Forall_forall. intros [p c] [Hc _]%elem_of_child_pairs. by apply (Hlt c). }
  destruct (csr_counts _ _ Hf) as (counts & Hc & Hlc & H0 & Hk).
  destruct (csr_offsets _ _ _ Hlc H0 Hk) as (os & Hos & Hlo & Ho).
  destruct (csr_place ps n os (length ps) Hf Hlo Ho eq_refl) as (st & Hst & Hr & _).
  rw /children_of. rewrite (fold_opt_omap count_child (fun c p => count_key c p.1) child_pair).
  2:{ intros t [i o]. rw /count_child /child_pair /=. destruct o as [p|]; [|done]. by destruct (p =? i). }
  rewrite -/(child_pairs T) -/ps -(fold_opt_map count_key fst) Hc. cbn [mbind option_bind]. rw Hos. cbn [mbind option_bind].
  rw (Ho n ltac:(done)) off_total //. cbn [mbind option_bind].
  rewrite (fold_opt_omap place_child (fun st p => place_at st p.1 p.2) child_pair).
  2:{ intros t [i o]. rw /place_child /child_pair /=. destruct o as [p|]; [|done]. by destruct (p =? i). }
  rewrite -/(child_pairs T) -/ps Hst. cbn [mbind option_bind]. eexists. split; [done|]. intros p Hp.
  exists (row ps p). split_and!; [by apply Hr| |].
  - rw /row. pose proof (child_pairs_nodup T 0) as Hnd. simpl in Hnd.
    change (omap child_pair (imap (fun i o => (i, o)) T)) with ps in Hnd.
    clear -Hnd. induction ps as [|[q c] ps IH]; [constructor|]. rw fmap_cons in Hnd *. apply NoDup_cons in Hnd as [Hn Hnd].
    rw filter_cons. case_decide; [|auto]. rw fmap_cons. apply NoDup_cons. split; [|auto]. intros Hin. apply Hn.
    apply list_elem_of_fmap in Hin as (x & Hx & [_ Hxp]%list_elem_of_filter). apply list_elem_of_fmap. by exists x.
  - intros c. by rw elem_of_row elem_of_child_pairs.
Qed.

(** ** The preorder walk *)

Section Walk.
Context (n : nat) (next : nat -> list nat) (entry : nat) (post_num : list (option nat)) (post_order : list nat).
Context (HP : Postorder n next entry post_num post_order).
Context (T : list (option nat)) (HT : tree_ok n next entry post_num post_order T).
Context (Hall : forall b, b ∈ post_order -> processed T b).
Context (children : Adjacency) (ch : nat -> list nat).
Context (Hch : forall p, p < n -> adj_of children p = Some (ch p) /\ NoDup (ch p) /\ forall c, c ∈ ch p <-> up T c p /\ c <> p).
Notation anc := (anc T).
Notation R v := (v ∈ post_order).

Record walking (stack : list (nat * nat)) (order fin : list nat) (pre : list (option nat)) (last : list nat) : Prop := {
  k_pre_len : length pre = n;
  k_last_len : length last = n;
  k_pre : forall v k, pre !! v = Some (Some k) <-> order !! k = Some v;
  k_nodup : NoDup order;
  k_split : order ≡ₚ stack.*1 ++ fin;
  k_reach : forall v, v ∈ order -> R v;
  k_entry : entry ∈ order;
  k_closed : forall v p, v ∈ order -> up T v p -> p ∈ order;
  k_cursor : forall x i, (x, i) ∈ stack -> i <= length (ch x) /\ forall j c, ch x !! j = Some c -> (c ∈ order <-> j < i);
  k_fin : forall x c, x ∈ fin -> up T c x -> c <> x -> c ∈ fin;
  k_path : forall k c p, stack.*1 !! k = Some c -> stack.*1 !! S k = Some p -> up T c p /\ c <> p;
  k_open : forall x i y j, x ∈ stack.*1 -> order !! i = Some x -> order !! j = Some y -> (anc y x <-> i <= j);
  k_shut : forall x i y j, x ∈ fin -> order !! i = Some x -> order !! j = Some y ->
    exists l, last !! x = Some l /\ l < length order /\ (anc y x <-> i <= j <= l);
}.

Lemma stack_anc stack order fin pre last k x y : walking stack order fin pre last ->
  stack.*1 !! 0 = Some x -> stack.*1 !! k = Some y -> anc x y.
Proof.
  intros Hw Hx. revert y. induction k as [|k IH]; intros y Hy; [rw Hx in Hy *; injection Hy as ->; constructor|].
  destruct (lookup_lt_is_Some_2 stack.*1 k) as [c Hc]; [apply lookup_lt_Some in Hy; lia|].
  eapply rtc_r; [by apply IH|]. by apply (k_path _ _ _ _ _ Hw k).
Qed.

Lemma fin_desc stack order fin pre last x y : walking stack order fin pre last -> x ∈ fin -> anc y x -> y ∈ fin.
Proof.
  intros Hw Hx Ha. induction Ha as [|y w x Hy _ IH]; [done|]. specialize (IH Hx).
  destruct (decide (y = w)) as [->|Hne]; [done|]. by apply (k_fin _ _ _ _ _ Hw w).
Qed.

Lemma closed_anc stack order fin pre last x y : walking stack order fin pre last -> y ∈ order -> anc y x -> x ∈ order.
Proof. intros Hw Hy Ha. induction Ha as [|y w x Hyw _ IH]; [done|]. apply IH. by apply (k_closed _ _ _ _ _ Hw y). Qed.

Lemma walking_disjoint stack order fin pre last x : walking stack order fin pre last -> x ∈ stack.*1 -> x ∉ fin.
Proof.
  intros Hw Hx Hf. pose proof (k_nodup _ _ _ _ _ Hw) as Hn. rw (k_split _ _ _ _ _ Hw) in Hn *.
  apply NoDup_app in Hn as (_ & Hd & _). by apply (Hd x).
Qed.

Lemma walking_order stack order fin pre last x : walking stack order fin pre last -> x ∈ order <-> x ∈ stack.*1 \/ x ∈ fin.
Proof. intros Hw. by rw (k_split _ _ _ _ _ Hw) elem_of_app. Qed.

Lemma walk_push block cursor rest c order fin pre last :
  walking ((block, cursor) :: rest) order fin pre last -> ch block !! cursor = Some c ->
  walking ((c, 0) :: (block, S cursor) :: rest) (order ++ [c]) fin (<[c := Some (length order)]> pre) last.
Proof.
  intros Hw Hc. assert (block ∈ order) as Hbo by (apply (walking_order _ _ _ _ _ _ Hw); left; by left).
  assert (block < n) as Hbn by (eapply (reach_lt n next entry post_num post_order HP), (k_reach _ _ _ _ _ Hw), Hbo).
  destruct (Hch block Hbn) as (_ & Hnd & Hcs). destruct (proj1 (Hcs c) (list_elem_of_lookup_2 _ _ _ Hc)) as [Hup Hcb].
  destruct (k_cursor _ _ _ _ _ Hw block cursor ltac:(by left)) as [_ Hcur].
  assert (c ∉ order) as Hco by (intros Hin; apply (Hcur cursor c Hc) in Hin; lia).
  assert (R c) as HRc by (apply (processed_reach n next entry post_num post_order HP T HT); by exists block).
  assert (c < n) as Hcn by (by apply (reach_lt n next entry post_num post_order HP)).
  assert (forall y, y ∈ order -> anc y c -> False) as Hnc by (intros y Hy Ha; by apply Hco, (closed_anc _ _ _ _ _ _ _ Hw Hy)).
  assert (forall i y, (order ++ [c]) !! i = Some y -> order !! i = Some y \/ i = length order /\ y = c) as Hlk.
  { intros i y [?|[Hge Hy]]%lookup_app_Some; [by left|]. apply list_lookup_singleton_Some in Hy as [? <-]. right. split; [lia|done]. }
  pose proof Hw as [k1 k2 k3 k4 k5 k6 k7 k8 k9 k10 k11 k12 k13]. split; try done.
  - by rw length_insert.
  - intros v k. destruct (decide (v = c)) as [->|Hne].
    + rw list_lookup_insert_eq; [|lia]. split.
      * intros [= <-]. by rw lookup_app_r // Nat.sub_diag.
      * intros [Hk|[-> _]]%Hlk; [by apply list_elem_of_lookup_2 in Hk|done].
    + rw list_lookup_insert_ne // k3. split; [by apply lookup_app_l_Some|]. by intros [?|[_ ?]]%Hlk.
  - apply NoDup_app. split_and!; [done| |apply NoDup_singleton]. by intros x Hx ->%list_elem_of_singleton.
  - rw k5 /=. solve_Permutation.
  - intros v [Hv| ->%list_elem_of_singleton]%elem_of_app; [by apply k6|done].
  - apply elem_of_app. by left.
  - intros v p [Hv| ->%list_elem_of_singleton]%elem_of_app Hp; apply elem_of_app; left; [by apply (k8 v)|].
    by rw (up_det _ _ _ _ Hp Hup).
  - intros x i [[= -> ->]|[[= -> ->]|Hx]%elem_of_cons]%elem_of_cons.
    + split; [lia|]. intros j c' Hc'. split; [|lia]. intros Hin.
      destruct (Hch c Hcn) as (_ & _ & Hcc). destruct (proj1 (Hcc c') (list_elem_of_lookup_2 _ _ _ Hc')) as [Hup' Hne'].
      apply elem_of_app in Hin as [Hin| ->%list_elem_of_singleton]; [|done]. exfalso. by apply Hco, (k8 c').
    + split; [by apply lookup_lt_Some in Hc|]. intros j c' Hc'. rw elem_of_app list_elem_of_singleton (Hcur j c' Hc').
      split; [|intros Hj; destruct (decide (j = cursor)) as [->|]; [right; congruence|left; lia]].
      intros [?| ->]; [lia|]. rw (NoDup_lookup _ _ _ _ Hnd Hc' Hc). lia.
    + destruct (k9 x i ltac:(by right)) as [Hi Hx2]. split; [done|]. intros j c' Hc'. rw elem_of_app list_elem_of_singleton -(Hx2 j c' Hc').
      split; [|by left]. intros [?| ->]; [done|]. exfalso.
      assert (x ∈ order) as Hxo by (apply (walking_order _ _ _ _ _ _ Hw); left; right; by apply (list_elem_of_fmap_2' fst _ (x, i))).
      assert (x < n) as Hxn by (apply (reach_lt n next entry post_num post_order HP); by apply k6).
      destruct (Hch x Hxn) as (_ & _ & Hcx). destruct (proj1 (Hcx c) (list_elem_of_lookup_2 _ _ _ Hc')) as [Hup' _].
      rw (up_det _ _ _ _ Hup' Hup) in Hx *. rw k5 /= in k4 *. apply NoDup_cons in k4 as [Hn _]. apply Hn, elem_of_app.
      left. by apply (list_elem_of_fmap_2' fst _ (block, i)).
  - intros [|k] c' p; simpl; [by intros [= <-] [= <-]|]. apply k11.
  - intros x i y j Hx Hi Hj. apply elem_of_cons in Hx as [->|Hx].
    + assert (i = length order) as ->.
      { destruct (Hlk i _ Hi) as [Hi'|[? _]]; [by apply list_elem_of_lookup_2 in Hi'|done]. }
      destruct (Hlk j y Hj) as [Hj'|[-> ->]]; [|split; [done|intros _; constructor]]. split.
      * intros Ha. exfalso. apply (Hnc y); [by eapply list_elem_of_lookup_2|done].
      * apply lookup_lt_Some in Hj'. lia.
    + destruct (Hlk i x Hi) as [Hi'|[_ ->]]; [|exfalso; apply Hco, (walking_order _ _ _ _ _ _ Hw); by left].
      destruct (Hlk j y Hj) as [Hj'|[-> ->]]; [by apply k12|]. split; [intros _; apply lookup_lt_Some in Hi'; lia|intros _].
      eapply rtc_l; [exact Hup|]. apply list_elem_of_lookup in Hx as [k Hk]. by apply (stack_anc _ _ _ _ _ k block x Hw).
  - intros x i y j Hx Hi Hj. rw length_app /=.
    destruct (Hlk i x Hi) as [Hi'|[_ ->]]; [|exfalso; apply Hco, (walking_order _ _ _ _ _ _ Hw); by right].
    destruct (Hlk j y Hj) as [Hj'|[-> ->]].
    + destruct (k13 x i y j Hx Hi' Hj') as (l & ? & ? & ?). exists l. split_and!; [done|lia|done].
    + destruct (k13 x i x i Hx Hi' Hi') as (l & Hl & Hlo & _). exists l. split_and!; [done|lia|].
      split; [|lia]. intros Ha. exfalso. destruct Ha as [|c' w x Hcw Hwx]; [apply Hco, (walking_order _ _ _ _ _ _ Hw); by right|].
      rw (up_det _ _ _ _ Hcw Hup) in Hwx *. apply (walking_disjoint _ _ _ _ _ block Hw); [by left|].
      by apply (fin_desc _ _ _ _ _ x block Hw).
Qed.

Lemma walk_pop block cursor rest order fin pre last :
  walking ((block, cursor) :: rest) order fin pre last -> ch block !! cursor = None ->
  walking rest order (block :: fin) pre (<[block := length order - 1]> last).
Proof.
  intros Hw Hnone. assert (block ∈ order) as Hbo by (apply (walking_order _ _ _ _ _ _ Hw); left; by left).
  pose proof (k_reach _ _ _ _ _ Hw block Hbo) as HRb.
  assert (block < n) as Hbn by (by apply (reach_lt n next entry post_num post_order HP)).
  destruct (Hch block Hbn) as (_ & Hnd & Hcs). destruct (k_cursor _ _ _ _ _ Hw block cursor ltac:(by left)) as [_ Hcur].
  pose proof (walking_disjoint _ _ _ _ _ block Hw ltac:(by left)) as Hbf.
  pose proof Hw as [k1 k2 k3 k4 k5 k6 k7 k8 k9 k10 k11 k12 k13]. split; try done.
  - by rw length_insert.
  - rw k5 /=. solve_Permutation.
  - intros x i Hx. apply k9. by right.
  - intros x c [->|Hx]%elem_of_cons Hup Hne; [|right; by apply (k10 x)]. right.
    pose proof (proj2 (Hcs c) (conj Hup Hne)) as Hin.
    apply list_elem_of_lookup in Hin as [j Hj]. assert (c ∈ order) as Hco.
    { apply (Hcur j c Hj). apply lookup_lt_Some in Hj. apply lookup_ge_None in Hnone. lia. }
    apply (walking_order _ _ _ _ _ _ Hw) in Hco as [Hst|?]; [|done]. exfalso. apply list_elem_of_lookup in Hst as [k Hk].
    pose proof (stack_anc _ _ _ _ _ k block c Hw eq_refl Hk) as Hbc.
    destruct (anc_nu n next entry post_num post_order T HT block c Hbc) as [?|H1]; [done|].
    destruct (anc_nu n next entry post_num post_order T HT c block (rtc_once _ _ Hup)) as [?|H2]; [done|lia].
  - intros k c p. apply (k11 (S k)).
  - intros x i y j Hx. apply k12. by right.
  - intros x i y j Hx Hi Hj. destruct (decide (x = block)) as [->|Hne].
    + exists (length order - 1). pose proof (lookup_lt_Some _ _ _ Hj). rw list_lookup_insert_eq; [|lia].
      split_and!; [done|lia|]. rw (k12 block i y j ltac:(by left) Hi Hj). lia.
    + apply elem_of_cons in Hx as [?|Hx]; [done|]. rw list_lookup_insert_ne //. by apply k13.
Qed.

(** Numbers and intervals decide ancestry. *)
Definition intervals (pre : list (option nat)) (last : list nat) : Prop :=
  (forall v, ~ R v -> mjoin (pre !! v) = None) /\
  forall a b, R a -> R b -> exists i j l, mjoin (pre !! a) = Some i /\ mjoin (pre !! b) = Some j /\ last !! a = Some l /\
    (anc b a <-> i <= j <= l).

Lemma walk_ends order fin pre last : walking [] order fin pre last -> intervals pre last.
Proof.
  intros Hw. assert (forall x, R x -> x ∈ fin) as Hfin.
  { intros x Hx. apply (fin_desc _ _ _ _ _ entry x Hw).
    - by destruct (proj1 (walking_order _ _ _ _ _ entry Hw) (k_entry _ _ _ _ _ Hw)) as [?%not_elem_of_nil|?].
    - apply (anc_entry n next entry post_num post_order HP T HT). by apply Hall. }
  split.
  - intros v Hv. destruct (pre !! v) as [[k|]|] eqn:Hk; [|done|done].
    apply (k_pre _ _ _ _ _ Hw) in Hk. exfalso. apply Hv, (k_reach _ _ _ _ _ Hw). by eapply list_elem_of_lookup_2.
  - intros a b Ha Hb. assert (forall x, R x -> exists i, order !! i = Some x) as Hord.
    { intros x Hx. apply list_elem_of_lookup, (walking_order _ _ _ _ _ _ Hw). right. by apply Hfin. }
    destruct (Hord a Ha) as [i Hi], (Hord b Hb) as [j Hj]. destruct (k_shut _ _ _ _ _ Hw a i b j (Hfin a Ha) Hi Hj) as (l & Hl & _ & Hiff).
    exists i, j, l. by rewrite (proj2 (k_pre _ _ _ _ _ Hw a i) Hi) (proj2 (k_pre _ _ _ _ _ Hw b j) Hj).
Qed.

Lemma walk_size stack order fin pre last : walking stack order fin pre last -> length order <= n /\ length fin <= length order.
Proof.
  intros Hw. split.
  - assert (order ⊆+ seq 0 n) as Hs%submseteq_length; [|by rw length_seq in Hs *].
    apply NoDup_submseteq; [apply (k_nodup _ _ _ _ _ Hw)|]. intros v Hv. apply elem_of_seq.
    pose proof (reach_lt n next entry post_num post_order HP v (k_reach _ _ _ _ _ Hw v Hv)). lia.
  - rw (Permutation_length (k_split _ _ _ _ _ Hw)) length_app. lia.
Qed.

Lemma preorder_total fuel stack order fin pre last : walking stack order fin pre last ->
  2 * n < fuel + length order + length fin ->
  exists pre' last', preorder_loop fuel children stack (length order) pre last = Some (pre', last') /\ intervals pre' last'.
Proof.
  revert stack order fin pre last. induction fuel as [|fuel IH]; intros stack order fin pre last Hw Hf.
  { destruct (walk_size _ _ _ _ _ Hw). lia. }
  cbn [preorder_loop]. destruct stack as [|[block cursor] rest]; [eexists _, _; split; [done|by eapply walk_ends]|].
  assert (block ∈ order) as Hbo by (apply (walking_order _ _ _ _ _ _ Hw); left; by left).
  pose proof (reach_lt n next entry post_num post_order HP block (k_reach _ _ _ _ _ Hw block Hbo)) as Hbn.
  destruct (Hch block Hbn) as (-> & _ & Hcs). cbn [mbind option_bind]. destruct (ch block !! cursor) as [c|] eqn:Hc.
  - destruct (proj1 (Hcs c) (list_elem_of_lookup_2 _ _ _ Hc)) as [Hup _].
    assert (c < n) as Hcn.
    { apply (reach_lt n next entry post_num post_order HP), (processed_reach n next entry post_num post_order HP T HT). by exists block. }
    destruct (lookup_lt_is_Some_2 pre c) as [z ->]; [by rw (k_pre_len _ _ _ _ _ Hw)|]. cbn [mbind option_bind].
    pose proof (walk_push _ _ _ _ _ _ _ _ Hw Hc) as Hw'. replace (S (length order)) with (length (order ++ [c])) by (rw length_app /=; lia).
    apply (IH _ _ _ _ _ Hw'). rw length_app /=. lia.
  - destruct (lookup_lt_is_Some_2 last block) as [z ->]; [by rw (k_last_len _ _ _ _ _ Hw)|]. cbn [mbind option_bind].
    apply (IH _ _ _ _ _ (walk_pop _ _ _ _ _ _ _ Hw Hc)). simpl. lia.
Qed.

Lemma walk_starts : entry < n -> walking [(entry, 0)] [entry] [] (<[entry := Some 0]> (replicate n None)) (replicate n 0).
Proof.
  intros He. pose proof (reach_entry n next entry post_num post_order HP) as HRe. destruct (Hch entry He) as (_ & _ & Hce).
  pose proof (t_root _ _ _ _ _ _ HT) as Hroot.
  split.
  - by rw length_insert length_replicate.
  - apply length_replicate.
  - intros v k. destruct (decide (v = entry)) as [->|Hne].
    + rw list_lookup_insert_eq; [|by rw length_replicate]. rw list_lookup_singleton_Some. split; [by intros [= <-]|by intros [-> _]].
    + rw list_lookup_insert_ne //. split; [by intros [[=] _]%lookup_replicate|by intros [_ ?]%list_lookup_singleton_Some].
  - apply NoDup_singleton.
  - done.
  - by intros v ->%list_elem_of_singleton.
  - by left.
  - intros v p ->%list_elem_of_singleton Hp. rw (up_det _ _ _ _ Hp Hroot). by left.
  - intros x i [= -> ->]%list_elem_of_singleton. split; [lia|]. intros j c Hc. split; [|lia]. intros ->%list_elem_of_singleton.
    by apply list_elem_of_lookup_2, Hce in Hc as [_ ?].
  - by intros x c ?%not_elem_of_nil.
  - by intros [|k] c p.
  - intros x i y j ->%list_elem_of_singleton [-> _]%list_lookup_singleton_Some [-> <-]%list_lookup_singleton_Some.
    split; [done|constructor].
  - by intros x i y j ?%not_elem_of_nil.
Qed.
End Walk.

(** ** The tree of a graph *)

Section Graph.
Context (cfg : Cfg) (Hok : cfg_ok cfg) (Hentry : entry cfg < block_count cfg).
Notation n := (block_count cfg).

(** The blocks of a path of control-flow edges from the entry, last first. *)
Inductive flow_path : list BlockId -> BlockId -> Prop :=
| path_entry : flow_path [entry cfg] (entry cfg)
| path_step l u v : flow_path l u -> flow cfg u v -> flow_path (v :: l) v.

Definition dominated_by (a b : BlockId) : Prop := forall l, flow_path l b -> a ∈ l.
Definition live_block (b : BlockId) : Prop := rtc (flow cfg) (entry cfg) b.

Lemma flow_path_walk l b : flow_path l b <-> walk n (next cfg) (entry cfg) l b.
Proof.
  split.
  - induction 1 as [|l u v _ IH Hf]; [constructor|]. apply (flow_next cfg Hok) in Hf as [? ?]. by econstructor.
  - induction 1 as [|l u v _ IH Hu Hv]; [constructor|]. econstructor; [exact IH|]. by apply (flow_next cfg Hok).
Qed.

Lemma dominated_dom a b : dominated_by a b <-> doms n (next cfg) (entry cfg) a b.
Proof. split; intros Hd l Hl; apply Hd; by apply flow_path_walk. Qed.

(** What a correct tree answers. *)
Record tree_exact (t : DominatorTree) : Prop := {
  x_reach : forall b, is_reachable t b = true <-> live_block b;
  x_dom : forall a b, exists r, dominates t a b = Some r /\ (r = true <-> a = b \/ live_block b /\ dominated_by a b);
  x_idom : forall b d, idom t b = Some d <->
    live_block b /\ d <> b /\ dominated_by d b /\ forall a, dominated_by a b -> a <> b -> dominated_by a d;
  x_parent : forall b, live_block b -> b <> entry cfg -> exists d, idom t b = Some d;
}.

(** The parts [compute] puts together. *)
Lemma compute_parts : exists post_num post_order T pre last,
  compute cfg = Some (mkTree T post_num pre last) /\
  Postorder n (next cfg) (entry cfg) post_num post_order /\
  tree_ok n (next cfg) (entry cfg) post_num post_order T /\
  (forall b, b ∈ post_order -> processed T b) /\
  (forall a b, b ∈ post_order -> anc T b a <-> doms n (next cfg) (entry cfg) a b) /\
  intervals post_order T pre last.
Proof.
  destruct (adj_successors_spec cfg Hok) as (succs & Hs & Hst & Hsa).
  destruct (postorder_spec n (next cfg) (entry cfg) succs Hentry Hsa) as (pn & po & Hpo & HP).
  { intros u Hu. by apply next_spec. } { done. }
  destruct (reversed_spec cfg Hok succs Hst Hsa) as (preds & Hpr & Hpa).
  set (ps := fun b => default [] (adj_of preds b)).
  assert (forall b, b < n -> adj_of preds b = Some (ps b)) as Hps1 by (intros b Hb; rw /ps; by destruct (Hpa b Hb) as (l & -> & _)).
  assert (forall b p, b < n -> p ∈ ps b <-> p < n /\ b ∈ next cfg p) as Hps2.
  { intros b p Hb. rw /ps. by destruct (Hpa b Hb) as (l & -> & Hl). }
  destruct (fixpoint_spec n (next cfg) (entry cfg) pn po HP ps Hps2 preds Hps1 (S (n * n)) _
    (start_sweeping n (next cfg) (entry cfg) pn po HP Hentry)) as (T & HT1 & HT & Hst2); [lia|].
  pose proof (stable_exact n (next cfg) (entry cfg) pn po HP ps Hps2 T HT Hst2) as Hex.
  destruct (children_spec T n) as (children & Hc & Hca).
  { apply (t_length _ _ _ _ _ _ HT). }
  { intros c p Hcp. apply (reach_lt n (next cfg) (entry cfg) pn po HP), (processed_reach n (next cfg) (entry cfg) pn po HP T HT).
    by eapply (up_processed n (next cfg) (entry cfg) pn po T HT c). }
  set (ch := fun p => default [] (adj_of children p)).
  assert (forall p, p < n -> adj_of children p = Some (ch p) /\ NoDup (ch p) /\ forall c, c ∈ ch p <-> up T c p /\ c <> p) as Hch.
  { intros p Hp. rw /ch. by destruct (Hca p Hp) as (l & -> & ? & ?). }
  destruct (preorder_total n (next cfg) (entry cfg) pn po HP T HT (fun b Hb => proj1 (Hst2 b Hb)) children ch Hch (S (2 * n)) _ _ _ _ _
    (walk_starts n (next cfg) (entry cfg) pn po HP T HT children ch Hch Hentry)) as (pre & last & Hpl & Hint); [simpl; lia|].
  exists pn, po, T, pre, last. split_and!; [|done|done|by intros b Hb; apply Hst2|done|done].
  rw /compute Hs. cbn [mbind option_bind]. rw Hpo. cbn [mbind option_bind fst snd]. rw Hpr. cbn [mbind option_bind].
  destruct (Nat.ltb_spec (entry cfg) n); [|lia]. rw HT1. cbn [mbind option_bind].
  rw /preorder_intervals Hc. cbn [mbind option_bind]. destruct (Nat.leb_spec n (entry cfg)); [lia|].
  cbn [length] in Hpl. by rw Hpl.
Qed.

Lemma live_post post_num post_order b : Postorder n (next cfg) (entry cfg) post_num post_order ->
  b ∈ post_order <-> live_block b.
Proof.
  intros HP. rw (po_elem _ _ _ _ _ HP) /live_block. split; apply rtc_subrel.
  - intros u v ?. by apply (flow_next cfg Hok).
  - intros u v ?. by apply (flow_next cfg Hok).
Qed.

Lemma compute_exact : exists t, compute cfg = Some t /\ tree_exact t.
Proof.
  destruct compute_parts as (pn & po & T & pre & last & Hc & HP & HT & Hall & Hex & Hnone & Hint).
  eexists. split; [exact Hc|]. pose proof (live_post pn po) as Hlive.
  assert (forall b, (exists k, mjoin (pn !! b) = Some k) <-> live_block b) as Hpn.
  { intros b. rw -(Hlive b HP). split.
    - intros [k Hk]. destruct (pn !! b) as [o|] eqn:Hb; [|done]. simpl in Hk. subst o.
      apply (po_num _ _ _ _ _ HP) in Hb. by eapply list_elem_of_lookup_2.
    - intros Hb. destruct (nu_spec _ _ _ _ _ HP b Hb) as [Hn _]. by eexists. }
  split.
  - intros b. rw -Hpn /is_reachable /=. destruct (mjoin (pn !! b)); split; [by eexists|done|done|by intros [k ?]].
  - intros a b. rw /dominates /=.
    assert (doms n (next cfg) (entry cfg) b b) as Hrefl by apply doms_refl.
    destruct (decide (a ∈ po)) as [Ha|Ha]; [destruct (decide (b ∈ po)) as [Hb|Hb]|].
    + destruct (Hint a b Ha Hb) as (i & j & l & -> & -> & Hl & Hiff). rw Hl. cbn [mbind option_bind]. eexists. split; [done|].
      rw andb_true_iff !Nat.leb_le dominated_dom -Hiff -(Hlive b HP) (Hex a b Hb).
      split; [by right|]. by intros [->|[_ ?]].
    + rw (Hnone b Hb). exists (a =? b). split; [by destruct (mjoin (pre !! a))|]. rw Nat.eqb_eq -(Hlive b HP). split; [by left|].
      by intros [?|[? _]].
    + rw (Hnone a Ha). exists (a =? b). split; [done|]. rw Nat.eqb_eq -(Hlive b HP) dominated_dom. split; [by left|].
      intros [?|[Hb Hd]]; [done|]. exfalso. apply Ha. by apply (doms_reach n (next cfg) (entry cfg) pn po HP a b).
  - intros b d. rw /idom /= -(Hlive b HP). split.
    + destruct (T !! b) as [[p|]|] eqn:Hb; simpl; [|done|done]. destruct (Nat.eqb_spec p b) as [|Hpb]; [done|]. intros [= <-].
      assert (b ∈ po) as HRb by (apply (processed_reach n (next cfg) (entry cfg) pn po HP T HT); by exists p).
      assert (p ∈ po) as HRp.
      { apply (processed_reach n (next cfg) (entry cfg) pn po HP T HT). by eapply (up_processed n (next cfg) (entry cfg) pn po T HT b). }
      split_and!; [done|done|apply dominated_dom, Hex; [done|by apply rtc_once]|].
      intros a Ha Hab. apply dominated_dom, Hex; [done|]. apply dominated_dom, Hex in Ha; [|done].
      destruct Ha as [b|b w a Hw Ha]; [done|]. by rw (up_det _ _ _ _ Hw Hb) in Ha *.
    + intros (HRb & Hdb & Hd & Hcl). destruct (Hall b HRb) as [p Hp]. rewrite Hp. simpl.
      apply dominated_dom, Hex in Hd as Hbd; [|done]. destruct Hbd as [b|b w d Hw Hpd]; [done|].
      rw (up_det _ _ _ _ Hw Hp) in Hpd *. destruct (Nat.eqb_spec p b) as [->|Hpb].
      * exfalso. destruct (anc_nu n (next cfg) (entry cfg) pn po T HT b d Hpd) as [?|Hlt]; [done|].
        destruct (decide (b = entry cfg)) as [->|Hne].
        -- assert (d ∈ po) as Hdpo.
           { apply (doms_reach n (next cfg) (entry cfg) pn po HP d (entry cfg)); [done|exact Hd]. }
           destruct (nu_entry n (next cfg) (entry cfg) pn po HP d Hdpo). lia.
        -- destruct (t_up _ _ _ _ _ _ HT b b Hp Hne) as (_ & ? & _). lia.
      * f_equal. destruct (anc_nu n (next cfg) (entry cfg) pn po T HT p d Hpd) as [?|Hlt]; [done|].
        assert (d ∈ po) as HRd.
        { apply (doms_reach n (next cfg) (entry cfg) pn po HP d b); [done|exact Hd]. }
        assert (dominated_by p d) as Hpd2.
        { apply Hcl; [|done]. apply dominated_dom, Hex; [done|by apply rtc_once]. }
        apply dominated_dom, Hex in Hpd2; [|done]. destruct (anc_nu n (next cfg) (entry cfg) pn po T HT d p Hpd2) as [|]; [done|lia].
  - intros b HRb%(Hlive b HP) Hne. destruct (Hall b HRb) as [p Hp]. exists p. rw /idom /= Hp /=.
    destruct (t_up _ _ _ _ _ _ HT b p Hp Hne) as (_ & ? & _). by destruct (Nat.eqb_spec p b) as [->|]; [lia|].
Qed.
End Graph.
