(* ===== verification/DomLower.v ===== *)
(** * Dominator trees: the lowering order

    The heap pops a least element, the children lists are the tree's rows, and
    the loop emits, always the lowest first, the blocks whose immediate
    dominator is already emitted.  With the exact tree of [DomOrder] the order
    is the greedy topological order of dominance. *)

From S2P Require Import Prelude Payload CfgData CfgEdit Cfg Dce Csr Dominators DomDfs DomTree DomOrder.
From stdpp Require Import list sorting.

(** ** The heap *)

Lemma heap_pop_spec h :
  match heap_pop h with
  | None => h = []
  | Some (x, h') => h ≡ₚ x :: h' /\ forall y, y ∈ h -> x <= y
  end.
Proof.
  induction h as [|x h IH]; simpl; [done|]. destruct (heap_pop h) as [[y h']|].
  - destruct IH as [Hp Hle]. destruct (Nat.leb_spec x y) as [Hxy|Hxy].
    + split; [done|]. intros z [->|Hz]%elem_of_cons; [done|]. specialize (Hle z Hz). lia.
    + split; [rw Hp; apply Permutation_swap|]. intros z [->|Hz]%elem_of_cons; [lia|by apply Hle].
  - subst h. split; [done|]. by intros z ->%list_elem_of_singleton.
Qed.

(** ** The children *)

Lemma push_child_rows t n : (forall c p, c < n -> idom t c = Some p -> p < n) ->
  exists rows, fold_opt (push_child t) (replicate n []) (seq 0 n) = Some rows /\
    forall p, p < n -> rows !! p = Some (filter (fun c => idom t c = Some p) (seq 0 n)).
Proof.
  intros Hlt. destruct (fold_seq_total (push_child t) (fun i rows => length rows = n /\
      forall p, p < n -> rows !! p = Some (filter (fun c => idom t c = Some p) (seq 0 i))) n (replicate n []))
    as (rows & Hr & _ & Hrows); [| |by exists rows].
  - split; [apply length_replicate|]. intros p Hp. by apply lookup_replicate_2.
  - intros i rows Hi [Hl Hrows]. rw /push_child.
    assert (forall p, filter (fun c => idom t c = Some p) (seq 0 (S i)) =
      filter (fun c => idom t c = Some p) (seq 0 i) ++ if decide (idom t i = Some p) then [i] else []) as HS.
    { intros p. rw seq_S filter_app filter_cons filter_nil /=. done. }
    destruct (idom t i) as [q|] eqn:Hq.
    + rw (Hrows q (Hlt i q Hi Hq)). cbn [mbind option_bind]. eexists. split; [done|]. rw length_insert.
      split; [done|]. intros p Hp. destruct (decide (q = p)) as [->|Hne].
      * rw HS list_lookup_insert_eq; [|lia]. by case_decide.
      * rw list_lookup_insert_ne // HS Hrows //. case_decide; [congruence|]. by rw app_nil_r.
    + eexists. split; [done|]. split; [done|]. intros p Hp. rw HS Hrows //. case_decide; [congruence|]. by rw app_nil_r.
Qed.

Section Lowering.
Context (cfg : Cfg) (Hok : cfg_ok cfg) (Hentry : entry cfg < block_count cfg).
Context (t : DominatorTree) (Ht : tree_exact cfg t).
Notation n := (block_count cfg).
Notation live_block := (live_block cfg).
Notation dominated_by := (dominated_by cfg).
Notation flow_path := (flow_path cfg).

(** ** Dominance along paths *)

Lemma live_lt b : live_block b -> b < n.
Proof.
  intros [<-|(u & _ & Hf)]%rtc_inv_r; [done|].
  apply (flow_next cfg Hok) in Hf as [Hu Hv]. destruct (next_spec cfg Hok u Hu) as [_ Hall].
  rw Forall_forall in Hall *. by apply Hall.
Qed.

Lemma live_path b : live_block b <-> exists l, flow_path l b.
Proof.
  split.
  - revert b. apply (rtc_ind_r (fun b => exists l, flow_path l b)); [by eexists; constructor|].
    intros u v _ Hf [l Hl]. by eexists; econstructor.
  - intros [l Hl]. induction Hl as [|l u v _ IH Hf]; [by constructor|]. by eapply rtc_r.
Qed.

Lemma path_suffix l b a : flow_path l b -> a ∈ l -> a = b \/ exists l', flow_path l' a /\ length l' < length l.
Proof.
  induction 1 as [|l u v Hp IH Hf]; [by intros ->%list_elem_of_singleton; left|].
  intros [->|Ha]%elem_of_cons; [by left|]. right. destruct (IH Ha) as [->|(l' & ? & ?)].
  - by exists l; simpl; split; [|lia].
  - exists l'. simpl. split; [done|lia].
Qed.

Lemma dominated_trans a b c : dominated_by a b -> dominated_by b c -> dominated_by a c.
Proof.
  intros Hab Hbc l Hl. specialize (Hbc l Hl). revert Hbc. induction Hl as [|l u v Hp IH Hf].
  - intros ->%list_elem_of_singleton. apply Hab. constructor.
  - intros [->|Hb]%elem_of_cons; [apply Hab; by econstructor|]. right. by apply IH.
Qed.

Lemma idom_facts b d : idom t b = Some d ->
  live_block b /\ live_block d /\ d <> b /\ dominated_by d b /\ forall a, dominated_by a b -> a <> b -> dominated_by a d.
Proof.
  intros (Hb & Hne & Hd & Hc)%(x_idom _ _ Ht). split_and!; [done| |done..]. apply live_path in Hb as [l Hl].
  destruct (path_suffix l b d Hl (Hd l Hl)) as [?|(l' & ? & _)]; [done|]. apply live_path. by exists l'.
Qed.

Lemma idom_entry : idom t (entry cfg) = None.
Proof.
  destruct (idom t (entry cfg)) as [d|] eqn:Hd; [|done]. apply idom_facts in Hd as (_ & _ & Hne & Hd & _).
  assert (d ∈ [entry cfg]) as ->%list_elem_of_singleton; [|done]. apply Hd. constructor.
Qed.

(** A set that holds the entry and is closed under the tree's children holds
    every reachable block. *)
Lemma tree_induction (P : BlockId -> Prop) : P (entry cfg) -> (forall b d, idom t b = Some d -> P d -> P b) ->
  forall b, live_block b -> P b.
Proof.
  intros H0 Hs b Hb. apply live_path in Hb as [l Hl]. remember (length l) as k eqn:Hk.
  revert b l Hl Hk. induction k as [k IH] using lt_wf_ind. intros b l Hl ->.
  destruct (decide (b = entry cfg)) as [->|Hne]; [done|].
  assert (live_block b) as Hb by (apply live_path; by exists l).
  destruct (x_parent _ _ Ht b Hb Hne) as [d Hd]. apply (Hs b d Hd). destruct (idom_facts b d Hd) as (_ & _ & Hdb & Hdom & _).
  destruct (path_suffix l b d Hl (Hdom l Hl)) as [?|(l' & Hl' & Hlt)]; [done|]. by eapply IH.
Qed.

(** ** The loop *)

Definition available (done : list BlockId) (b : BlockId) : Prop :=
  b = entry cfg \/ exists d, idom t b = Some d /\ d ∈ done.

Record lowering (ready order : list BlockId) : Prop := {
  l_nodup : NoDup (ready ++ order);
  l_elem : forall b, b ∈ ready ++ order <-> available order b;
  l_topo : forall i b d, order !! i = Some b -> idom t b = Some d -> d ∈ take i order;
  l_least : forall i b c, order !! i = Some b -> available (take i order) c -> c ∉ take i order -> b <= c;
}.

Lemma available_live done b : available done b -> live_block b.
Proof. intros [->|(d & Hd & _)]; [by constructor|]. by apply idom_facts in Hd as [? _]. Qed.

Lemma lowering_bound ready order : lowering ready order -> length ready + length order <= n.
Proof.
  intros Hl. rw -length_app -(length_seq n 0). apply submseteq_length, NoDup_submseteq; [apply (l_nodup _ _ Hl)|].
  intros b Hb%(l_elem _ _ Hl)%available_live%live_lt. apply elem_of_seq. lia.
Qed.

Lemma lowering_starts : lowering [entry cfg] [].
Proof.
  split; [apply NoDup_singleton| |done|done]. intros b. rw app_nil_r list_elem_of_singleton /available. split; [by left|].
  by intros [?|(d & _ & ?%not_elem_of_nil)].
Qed.

Lemma lowering_step ready order x ready' : lowering ready order -> ready ≡ₚ x :: ready' ->
  (forall y, y ∈ ready -> x <= y) ->
  lowering (rev (filter (fun c => idom t c = Some x) (seq 0 n)) ++ ready') (order ++ [x]).
Proof.
  intros Hl Hperm Hle. set (row := filter _ _).
  assert (forall c, c ∈ row <-> idom t c = Some x) as Hrow.
  { intros c. rw /row list_elem_of_filter elem_of_seq. split; [by intros [? _]|]. intros Hc. split; [done|].
    apply idom_facts in Hc as [Hc%live_lt _]. lia. }
  assert (rev row ≡ₚ row) as Hrev by (symmetry; apply Permutation_rev).
  pose proof (l_nodup _ _ Hl) as Hnd. rw Hperm /= in Hnd *. apply NoDup_cons in Hnd as [Hx Hnd].
  assert (x ∈ ready ++ order) as Hxin by (rw Hperm; by left).
  assert (forall b, b ∈ order ++ [x] <-> b ∈ order \/ b = x) as Hox by (intros b; by rw elem_of_app list_elem_of_singleton).
  assert (x ∉ order) as Hxo by (intros Hin; apply Hx, elem_of_app; by right).
  assert (forall b, available (order ++ [x]) b <-> available order b \/ idom t b = Some x) as Hav.
  { intros b. rw /available. split.
    - intros [?|(d & Hd & [?| ->]%Hox)]; [by left; left|left; right; by exists d|by right].
    - intros [[?|(d & ? & ?)]|Hb]; [by left|right; exists d; rw Hox; by split; [|left]|right; exists x; rw Hox; by split; [|right]]. }
  assert (forall i b, (order ++ [x]) !! i = Some b -> take i (order ++ [x]) = take i order /\
    (order !! i = Some b \/ i = length order /\ b = x)) as Hlk.
  { intros i b [Hi|[Hge Hb]]%lookup_app_Some.
    - split; [|by left]. apply take_app_le. apply lookup_lt_Some in Hi. lia.
    - apply list_lookup_singleton_Some in Hb as [Hz <-]. assert (i = length order) as -> by lia.
      split; [|by right]. by rw take_app_length take_ge. }
  split.
  - replace ((rev row ++ ready') ++ order ++ [x]) with (rev row ++ (ready' ++ order) ++ [x]) by by rw -!app_assoc.
    apply NoDup_app. split_and!.
    + rw Hrev. apply NoDup_filter, NoDup_seq.
    + intros c Hc Hin. rw Hrev Hrow in Hc *.
      assert (c ∈ ready ++ order) as Hc2.
      { rw Hperm. apply elem_of_app in Hin as [?| ->%list_elem_of_singleton]; [by right|by left]. }
      apply (l_elem _ _ Hl) in Hc2 as [->|(d & Hd & Hdo)]; [by rw idom_entry in Hc *|]. congruence.
    + apply NoDup_app. split_and!; [done| |apply NoDup_singleton]. by intros c Hc ->%list_elem_of_singleton.
  - intros b. rw Hav -(l_elem _ _ Hl) !elem_of_app list_elem_of_singleton Hperm elem_of_cons -Hrow Hrev. tauto.
  - intros i b d Hi Hd. destruct (Hlk i b Hi) as [-> [Hi'|[-> ->]]]; [by apply (l_topo _ _ Hl i b)|].
    rw take_ge //. apply (l_elem _ _ Hl) in Hxin as [->|(d' & Hd' & ?)]; [by rw idom_entry in Hd *|]. congruence.
  - intros i b c Hi. destruct (Hlk i b Hi) as [-> [Hi'|[-> ->]]]; [by apply (l_least _ _ Hl i)|].
    rw take_ge //. intros Hc%(l_elem _ _ Hl) Hn. apply elem_of_app in Hc as [?|?]; [by apply Hle|done].
Qed.

Lemma lowering_total rows : (forall p, p < n -> rows !! p = Some (filter (fun c => idom t c = Some p) (seq 0 n))) ->
  forall fuel ready order, lowering ready order -> n < fuel + length order ->
  exists order', lowering_loop fuel rows ready order = Some order' /\ lowering [] order'.
Proof.
  intros Hrows fuel. induction fuel as [|fuel IH]; intros ready order Hl Hf.
  { pose proof (lowering_bound _ _ Hl). lia. }
  cbn [lowering_loop]. pose proof (heap_pop_spec ready) as Hpop. destruct (heap_pop ready) as [[x ready']|].
  - destruct Hpop as [Hp Hle]. assert (x < n) as Hx.
    { apply live_lt, (available_live order), (l_elem _ _ Hl), elem_of_app. left. rw Hp. by left. }
    rw (Hrows x Hx). cbn [mbind option_bind]. apply IH; [by apply (lowering_step ready)|]. rw length_app /=. lia.
  - subst ready. by exists order.
Qed.

Lemma lowering_covers order : lowering [] order -> forall b, b ∈ order <-> live_block b.
Proof.
  intros Hl b. split; [by intros Hb%(l_elem _ _ Hl)%available_live|]. revert b. apply tree_induction.
  - apply (l_elem _ _ Hl). by left.
  - intros b d Hd Ho. apply (l_elem _ _ Hl). right. by exists d.
Qed.

(** ** In terms of dominance *)

Lemma lowering_doms_first order i b a : lowering [] order -> order !! i = Some b -> dominated_by a b -> a <> b ->
  a ∈ take i order.
Proof.
  intros Hl. revert b. induction i as [i IH] using lt_wf_ind. intros b Hi Ha Hne.
  assert (live_block b) as Hb by (apply (lowering_covers _ Hl); by eapply list_elem_of_lookup_2).
  destruct (decide (b = entry cfg)) as [->|Hbe].
  { exfalso. apply Hne. apply list_elem_of_singleton, Ha. constructor. }
  destruct (x_parent _ _ Ht b Hb Hbe) as [d Hd]. pose proof (l_topo _ _ Hl i b d Hi Hd) as Hdi.
  destruct (idom_facts b d Hd) as (_ & _ & _ & _ & Hc). specialize (Hc a Ha Hne).
  destruct (decide (a = d)) as [->|Had]; [done|]. apply list_elem_of_lookup in Hdi as [j Hj].
  assert (j < i) as Hji by (apply lookup_lt_Some in Hj; rw length_take in Hj *; lia).
  rw lookup_take_lt // in Hj *. specialize (IH j Hji d Hj Hc Had).
  apply list_elem_of_lookup in IH as [k Hk]. apply list_elem_of_lookup. exists k.
  assert (k < j) as Hkj by (apply lookup_lt_Some in Hk; rw length_take in Hk *; lia).
  rw lookup_take_lt // in Hk *. rw lookup_take_lt //. lia.
Qed.

Lemma lowering_greedy order i b c : lowering [] order -> order !! i = Some b -> live_block c -> c ∉ take i order ->
  (forall a, dominated_by a c -> a <> c -> a ∈ take i order) -> b <= c.
Proof.
  intros Hl Hi Hc Hn Ha. apply (l_least _ _ Hl i b c Hi); [|done]. destruct (decide (c = entry cfg)) as [->|Hce]; [by left|].
  destruct (x_parent _ _ Ht c Hc Hce) as [d Hd]. right. exists d. split; [done|].
  destruct (idom_facts c d Hd) as (_ & _ & Hne & Hdom & _). by apply Ha.
Qed.

(** Where dominators always have smaller numbers, the order is the arena's. *)
Lemma lowering_arena order : lowering [] order ->
  (forall a b, live_block b -> dominated_by a b -> a <= b) -> StronglySorted lt order.
Proof.
  intros Hl Hsm. pose proof (l_nodup _ _ Hl) as Hnd. simpl in Hnd.
  assert (forall i b c, order !! i = Some b -> live_block c -> c ∉ take i order -> b <= c) as Hle.
  { intros i b c Hi. induction c as [c IH] using lt_wf_ind. intros Hc Hn.
    destruct (decide (b <= c)) as [|Hbc]; [done|]. apply (lowering_greedy order i b c Hl Hi Hc Hn).
    intros a Ha Hne. destruct (decide (a ∈ take i order)) as [|Hna]; [done|]. exfalso. pose proof (Hsm a c Hc Ha) as Hac.
    assert (live_block a) as Hla.
    { apply live_path in Hc as [l Hlc]. destruct (path_suffix l c a Hlc (Ha l Hlc)) as [?|(l' & ? & _)]; [done|].
      apply live_path. by exists l'. }
    assert (a < c) as Hlt by lia. specialize (IH a Hlt Hla Hna). lia. }
  assert (forall i j b c, order !! i = Some b -> order !! j = Some c -> i < j -> b < c) as Hlt.
  { intros i j b c Hi Hj Hij. assert (b <> c) as Hne.
    { intros ->. pose proof (NoDup_lookup _ _ _ _ Hnd Hi Hj). lia. }
    assert (b <= c); [|lia]. apply (Hle i b c Hi).
    - apply (lowering_covers _ Hl). by eapply list_elem_of_lookup_2.
    - intros Hin. apply list_elem_of_lookup in Hin as [k Hk].
      assert (k < i) as Hki by (apply lookup_lt_Some in Hk; rw length_take in Hk *; lia).
      rw lookup_take_lt // in Hk *. pose proof (NoDup_lookup _ _ _ _ Hnd Hk Hj). lia. }
  clear -Hlt. induction order as [|x order IH]; [constructor|]. constructor.
  - apply IH. intros i j b c Hi Hj Hij. apply (Hlt (S i) (S j) b c Hi Hj). lia.
  - apply Forall_forall. intros y Hy. apply list_elem_of_lookup in Hy as [j Hj]. by apply (Hlt 0 (S j) x y eq_refl Hj (Nat.lt_0_succ _)).
Qed.
End Lowering.

(** ** Properties *)

Lemma filter_seq_sorted (P : nat -> Prop) `{!forall b, Decision (P b)} k m : StronglySorted lt (filter P (seq k m)).
Proof.
  revert k. induction m as [|m IH]; intros k; [constructor|]. cbn [seq]. rw filter_cons. case_decide; [|apply IH].
  constructor; [apply IH|]. apply Forall_forall. intros b [_ Hb%elem_of_seq]%list_elem_of_filter. lia.
Qed.

(** C24. On every well-formed graph [DominatorTree::compute] finishes without a
    panic, and its answers are the path definitions: a block is reachable
    exactly when a path of control-flow edges leads to it from the entry; the
    constant-time [dominates] never panics and holds exactly when the two
    blocks are the same or the second is reachable and the first lies on every
    path to it; [idom] is the closest strict dominator of a reachable block,
    one that every other strict dominator dominates, and only the entry and
    unreachable blocks have none. *)
Theorem dominator_tree_exact (cfg : Cfg) (Hok : cfg_ok cfg) (Hentry : entry cfg < block_count cfg) :
  exists t, compute cfg = Some t /\
    (forall b, is_reachable t b = true <-> exists l, flow_path cfg l b) /\
    (forall a b, exists r, dominates t a b = Some r /\
      (r = true <-> a = b \/ (exists l, flow_path cfg l b) /\ forall l, flow_path cfg l b -> a ∈ l)) /\
    (forall b d, idom t b = Some d <->
      (exists l, flow_path cfg l b) /\ d <> b /\ (forall l, flow_path cfg l b -> d ∈ l) /\
      forall a, (forall l, flow_path cfg l b -> a ∈ l) -> a <> b -> forall l, flow_path cfg l d -> a ∈ l) /\
    (forall b, idom t b = None <-> b = entry cfg \/ ~ exists l, flow_path cfg l b).
Proof.
  destruct (compute_exact cfg Hok Hentry) as (t & Hc & Ht). exists t. split; [exact Hc|].
  pose proof Ht as [Hr Hd Hi Hp]. split_and!.
  - intros b. by rw Hr -live_path.
  - intros a b. destruct (Hd a b) as (r & ? & Hiff). exists r. by rw -live_path.
  - intros b d. by rw Hi live_path.
  - intros b. rw -live_path. split.
    + intros Hn. destruct (decide (b = entry cfg)) as [|Hne]; [by left|]. right. intros Hb.
      destruct (Hp b Hb Hne) as [d ?]. congruence.
    + intros [->|Hn]; [by apply (idom_entry cfg Hentry t Ht)|]. destruct (idom t b) as [d|] eqn:Hb; [|done].
      by apply Hi in Hb as [? _].
Qed.

(** C25. The order code generation lowers blocks in exists for every
    well-formed graph and lists every block once: first the reachable blocks,
    each after all its strict dominators and always the lowest block whose
    strict dominators are out, then the unreachable ones by index.  When
    dominators never have larger indices than the blocks they dominate, the
    reachable part is in arena order. *)
Theorem block_lowering_order_correct (cfg : Cfg) (Hok : cfg_ok cfg) (Hentry : entry cfg < block_count cfg) :
  exists live dead, block_lowering_order cfg = Some (live ++ dead) /\
    live ++ dead ≡ₚ seq 0 (block_count cfg) /\
    (forall b, b ∈ live <-> exists l, flow_path cfg l b) /\ StronglySorted lt dead /\
    (forall i b a, live !! i = Some b -> dominated_by cfg a b -> a <> b -> a ∈ take i live) /\
    (forall i b c, live !! i = Some b -> c ∈ drop i live ->
      (forall a, dominated_by cfg a c -> a <> c -> a ∈ take i live) -> b <= c) /\
    ((forall a b, b ∈ live -> dominated_by cfg a b -> a <= b) -> StronglySorted lt live).
Proof.
  destruct (compute_exact cfg Hok Hentry) as (t & Hc & Ht).
  destruct (push_child_rows t (block_count cfg)) as (rows & Hrows & Hrow).
  { intros c p _ Hp. destruct (idom_facts cfg Hentry t Ht c p Hp) as (_ & Hl & _). by apply live_lt. }
  destruct (lowering_total cfg Hok Hentry t Ht rows Hrow (S (block_count cfg)) [entry cfg] [])
    as (live & Hlive & Hl); [by apply lowering_starts|simpl; lia|].
  pose proof (lowering_covers cfg Hentry t Ht live Hl) as Hcov. pose proof (l_nodup _ _ _ _ Hl) as Hnd. simpl in Hnd.
  set (dead := filter (fun b => is_reachable t b = false) (seq 0 (block_count cfg))).
  assert (forall b, b ∈ dead <-> ~ live_block cfg b /\ b < block_count cfg) as Hdead.
  { intros b. rw /dead list_elem_of_filter -(x_reach _ _ Ht) not_true_iff_false elem_of_seq.
    split; (intros [? ?]; split; [done|lia]). }
  exists live, dead. split_and!.
  - rw /block_lowering_order Hc. cbn [mbind option_bind]. rw Hrows. cbn [mbind option_bind].
    assert (is_reachable t (entry cfg) = true) as -> by (apply (x_reach _ _ Ht); constructor).
    rw Hlive. done.
  - apply NoDup_Permutation.
    + apply NoDup_app. split_and!; [done| |apply NoDup_filter, NoDup_seq]. intros b Hb [Hn _]%Hdead. by apply Hn, Hcov.
    + apply NoDup_seq.
    + intros b. rw elem_of_app Hcov Hdead elem_of_seq. split.
      * intros [Hb%live_lt|[_ ?]]; [lia|done|done|lia].
      * intros [_ Hb]. destruct (is_reachable t b) eqn:Hr; [left; by apply (x_reach _ _ Ht)|right].
        split; [|lia]. intros Hb2%(x_reach _ _ Ht). congruence.
  - intros b. by rw Hcov live_path.
  - apply filter_seq_sorted.
  - intros i b a Hi Hd Hne. by eapply lowering_doms_first.
  - intros i b c Hi Hin Ha. eapply (lowering_greedy cfg Hentry t Ht live i b c Hl Hi); [| |done].
    + apply Hcov. rewrite -(take_drop i live). apply elem_of_app. by right.
    + intros Ht2. rewrite -(take_drop i live) in Hnd. apply NoDup_app in Hnd as (_ & Hd & _). by apply (Hd c).
  - intros Hsm. apply (lowering_arena cfg Hentry t Ht live Hl). intros a b Hb. apply Hsm. by apply Hcov.
Qed.
(** A switch with an unreachable block. *)
Lemma dominator_tree_exact_witness : exists t, compute switch_cfg = Some t /\
  idom t 3 = Some 0 /\ is_reachable t 1 = false.
Proof.
  destruct (dominator_tree_exact switch_cfg switch_cfg_ok ltac:(vm_compute; lia)) as (t & Ht & Hr & Hd & Hi & Hn).
  exists t. split; [exact Ht|]. vm_compute in Ht. injection Ht as <-. split; reflexivity.
Defined.

Lemma block_lowering_order_correct_witness : exists live dead,
  block_lowering_order switch_cfg = Some (live ++ dead) /\ live ++ dead = [0; 2; 3; 1] /\ (0 ∈ live).
Proof.
  destruct (block_lowering_order_correct switch_cfg switch_cfg_ok ltac:(vm_compute; lia))
    as (live & dead & Ho & _ & Hl & _). exists live, dead. split; [exact Ho|]. split.
  - vm_compute in Ho. injection Ho as Ho. symmetry. exact Ho.
  - apply Hl. eexists. constructor.
Defined.
