(* ===== verification/Eval.v ===== *)
(** * Meaning of instructions

    A reference semantics for the instructions the optimizer evaluates, on
    the mathematical integers of [IntegerSemantics.IntegerSpec].  It models no
    code: it is what the theorems of the folding passes are stated against.

    An environment gives every SSA value a runtime value.  [eval] says what an
    instruction yields in an environment, that it traps, or that its operands
    do not determine it (memory, calls, floats).  Stack slots that have a single
    write are an argument: [source slot] is the value that every load of the
    slot observes. *)

From S2P Require Import Prelude IntegerSemantics Types Payload CfgData CfgEdit Classify.
Import Machine IntegerSemantics IntegerSpec.
Local Open Scope Z_scope.

Inductive rval :=
| RInt (image : Z)
| RBool (b : bool)
| REnum (enum_id : EnumId) (variant : nat) (payload : list rval)
| ROther (id : Z).

Definition env := CfgValue -> rval.

Inductive outcome := Value (r : rval) | Trap | Unknown.

(** Integer results: [None] is a trap. *)
Definition int_result (r : option Z) : outcome :=
  match r with Some z => Value (RInt (image z)) | None => Trap end.

Section Eval.
Context (source : nat -> option CfgValue) (cfg : Cfg) (ρ : env).

(** An operation on two integers of type [ty]. *)
Definition int2 (ty : Type_) (f : IntegerType -> Z -> Z -> option Z) (a b : CfgValue) : outcome :=
  match integer_semantics ty, ρ a, ρ b with
  | Some t, RInt x, RInt y => int_result (f t (norm t x) (norm t y))
  | _, _, _ => Unknown
  end.
Definition int1 (ty : Type_) (f : IntegerType -> Z -> option Z) (a : CfgValue) : outcome :=
  match integer_semantics ty, ρ a with
  | Some t, RInt x => int_result (f t (norm t x))
  | _, _ => Unknown
  end.

Definition operand_type (a : CfgValue) : option Type_ := ty <$> get_inst cfg a.
Definition float_operand (a : CfgValue) : bool :=
  match operand_type a with Some T => is_float T | None => false end.

(** Equality: scalars by value, and field-less enums by variant.  Floats and
    aggregates are left to the backend. *)
Definition equality (f : bool -> bool) (a b : CfgValue) : outcome :=
  if float_operand a || float_operand b then Unknown else
  match ρ a, ρ b with
  | RInt x, RInt y => Value (RBool (f (x =? y)))
  | RBool x, RBool y => Value (RBool (f (eqb x y)))
  | REnum e v [], REnum e' v' [] =>
      if decide (e = e') then Value (RBool (f (v =? v')%nat)) else Unknown
  | _, _ => Unknown
  end.

Definition ordered (f : comparison -> bool) (a b : CfgValue) : outcome :=
  match T ← operand_type a; integer_semantics T, ρ a, ρ b with
  | Some t, RInt x, RInt y => Value (RBool (f (norm t x ?= norm t y)))
  | _, _, _ => Unknown
  end.

Definition shifted (left : bool) (t : IntegerType) (x y : Z) : option Z :=
  let k := y mod bits t in Some (norm t (if left then x * 2 ^ k else x / 2 ^ k)).

Definition is_lt (c : comparison) : bool := match c with Lt => true | _ => false end.
Definition is_gt (c : comparison) : bool := match c with Gt => true | _ => false end.

Definition eval_data (T : Type_) (d : CfgInstData) : outcome :=
  match d with
  | IConst w => Value (RInt w)
  | IBoolConst b => Value (RBool b)
  | IAdd a b => int2 T (fun t => ref_checked t OpAdd) a b
  | ISub a b => int2 T (fun t => ref_checked t OpSub) a b
  | IMul a b => int2 T (fun t => ref_checked t OpMul) a b
  | IDiv a b => int2 T (fun t => ref_checked t OpDiv) a b
  | IMod a b => int2 T (fun t => ref_checked t OpRem) a b
  | IWrappingAdd a b => int2 T (fun t x y => Some (norm t (x + y))) a b
  | IWrappingSub a b => int2 T (fun t x y => Some (norm t (x - y))) a b
  | IWrappingMul a b => int2 T (fun t x y => Some (norm t (x * y))) a b
  | IBitAnd a b => int2 T (fun t x y => Some (Z.land x y)) a b
  | IBitOr a b => int2 T (fun t x y => Some (Z.lor x y)) a b
  | IBitXor a b => int2 T (fun t x y => Some (Z.lxor x y)) a b
  | IShl a b => int2 T (shifted true) a b
  | IShr a b => int2 T (shifted false) a b
  | INeg a => int1 T (fun t x => if decide (in_range t (- x)) then Some (- x) else None) a
  | IBitNot a => int1 T (fun t x => Some (norm t (Z.lnot x))) a
  | INot a => match ρ a with RBool b => Value (RBool (negb b)) | _ => Unknown end
  | IEq a b => equality id a b
  | INe a b => equality negb a b
  | ILt a b => ordered is_lt a b
  | IGt a b => ordered is_gt a b
  | ILe a b => ordered (fun c => negb (is_gt c)) a b
  | IGe a b => ordered (fun c => negb (is_lt c)) a b
  | IEnumVariant e v payload =>
      match enum_payload cfg payload with
      | Some l => Value (REnum e v (map ρ l))
      | None => Unknown
      end
  | IIntCast a from =>
      match integer_semantics from, integer_semantics T, ρ a with
      | Some t, Some t', RInt x =>
          if decide (in_range t' (norm t x)) then Value (RInt (image (norm t x))) else Trap
      | _, _, _ => Unknown
      end
  | ILoad slot => match source slot with Some v => Value (ρ v) | None => Unknown end
  | _ => Unknown
  end.

Definition eval (i : CfgInst) : outcome := eval_data (ty i) (data i).
End Eval.

(** ** Typing

    The rules of docs/spec (4.2, 4.3, 4.3a, 3.12) for the operations above,
    and what the values of a type are. *)

Definition value_of_type (T : Type_) (r : rval) : Prop :=
  match integer_semantics T with
  | Some t => exists w, r = RInt w /\ canonical t w
  | None => T = TBOOL -> exists b, r = RBool b
  end.

Lemma value_int T t w : integer_semantics T = Some t -> canonical t w -> value_of_type T (RInt w).
Proof. intros HT Hw. rw /value_of_type HT. eauto. Qed.

Lemma value_other T r : integer_semantics T = None -> T <> TBOOL -> value_of_type T r.
Proof. intros HT Hb. by rw /value_of_type HT. Qed.

Definition integral (T : Type_) : Prop := is_Some (integer_semantics T).

Section Typing.
Context (cfg : Cfg).
Definition operand_is (a : CfgValue) (T : Type_) : Prop := operand_type cfg a = Some T.

Definition inst_typed (i : CfgInst) : Prop :=
  match data i with
  | IAdd a b | ISub a b | IMul a b | IDiv a b =>
      (integral (ty i) \/ is_float (ty i) = true) /\ operand_is a (ty i) /\ operand_is b (ty i)
  | IWrappingAdd a b | IWrappingSub a b | IWrappingMul a b | IMod a b
  | IBitAnd a b | IBitOr a b | IBitXor a b | IShl a b | IShr a b =>
      integral (ty i) /\ operand_is a (ty i) /\ operand_is b (ty i)
  | INeg a => (integral (ty i) \/ is_float (ty i) = true) /\ operand_is a (ty i)
  | IBitNot a => integral (ty i) /\ operand_is a (ty i)
  | INot a => ty i = TBOOL /\ operand_is a TBOOL
  | IEq a b | INe a b | ILt a b | IGt a b | ILe a b | IGe a b =>
      ty i = TBOOL /\ exists T, operand_is a T /\ operand_is b T
  | IEnumVariant e _ _ => try_kind (ty i) = Some (TKEnum (Z.of_nat e))
  | _ => True
  end.

Definition well_typed : Prop := forall v i, get_inst cfg v = Some i -> inst_typed i.

(** Every value is one of its type. *)
Definition env_typed (ρ : env) : Prop :=
  forall v i, get_inst cfg v = Some i -> value_of_type (ty i) (ρ v).
End Typing.

(** An environment an execution can produce: a value whose instruction is
    determined by its operands has the value they determine. *)
Definition models (source : nat -> option CfgValue) (cfg : Cfg) (ρ : env) : Prop :=
  forall v i r, get_inst cfg v = Some i -> eval source cfg ρ i = Value r -> ρ v = r.

(** Instructions that are values already. *)
Definition literal (d : CfgInstData) : bool :=
  match d with IConst _ | IBoolConst _ | IEnumVariant _ _ _ => true | _ => false end.

Definition literals_agree (source : nat -> option CfgValue) (cfg : Cfg) (ρ : env) : Prop :=
  forall v i r, get_inst cfg v = Some i -> literal (data i) = true ->
    eval source cfg ρ i = Value r -> ρ v = r.

Lemma models_literals source cfg ρ : models source cfg ρ -> literals_agree source cfg ρ.
Proof. intros Hm v i r Hi _. by apply Hm. Qed.

(** ** What evaluation depends on *)

(** Two owners that give the same values the same types and keep the same
    value payloads. *)
Definition same_frame (cfg cfg' : Cfg) : Prop :=
  extra cfg = extra cfg' /\ forall v, operand_type cfg v = operand_type cfg' v.

#[export] Instance same_frame_equiv : Equivalence same_frame.
Proof.
  split.
  - done.
  - intros c c' [He Ht]. by split.
  - intros c1 c2 c3 [He Ht] [He' Ht']. split; [congruence|]. intros v. by rw Ht.
Qed.

Lemma eval_frame source cfg cfg' ρ i : same_frame cfg cfg' ->
  eval source cfg ρ i = eval source cfg' ρ i.
Proof.
  intros [He Ht]. rw /eval. destruct (data i); simpl; try done;
    rw /equality /ordered /float_operand ?Ht // /enum_payload He //.
Qed.

Lemma inst_typed_frame cfg cfg' i : same_frame cfg cfg' -> inst_typed cfg i -> inst_typed cfg' i.
Proof.
  intros [_ Ht]. rw /inst_typed /operand_is. destruct (data i); rw -?Ht; try done;
    intros [? (T & ? & ?)]; split; try done; exists T; by rw -!Ht.
Qed.

Lemma env_typed_frame cfg cfg' ρ : same_frame cfg cfg' -> env_typed cfg ρ -> env_typed cfg' ρ.
Proof.
  intros [_ Hf] Ht v i Hi. specialize (Hf v). rw /operand_type Hi /= in Hf *.
  destruct (get_inst cfg v) as [j|] eqn:Hj; simplify_eq/=. rw -Hf. by apply Ht.
Qed.

(** An instruction reads its operands, their types and the slot sources. *)
Lemma eval_ext source cfg cfg' ρ ρ' i us :
  data_uses cfg (data i) = Some us -> extra cfg = extra cfg' ->
  (forall u, u ∈ us.*1 -> ρ u = ρ' u /\ operand_type cfg u = operand_type cfg' u) ->
  (forall slot v, source slot = Some v -> ρ v = ρ' v) ->
  eval source cfg ρ i = eval source cfg' ρ' i.
Proof.
  intros Hus He Hu Hs. rw /eval.
  assert (forall u, u ∈ us.*1 -> ρ u = ρ' u) as Hr by (intros u Hin; by apply Hu).
  assert (forall u, u ∈ us.*1 -> operand_type cfg u = operand_type cfg' u) as Ht
    by (intros u Hin; by apply Hu).
  clear Hu.
  destruct (data i) eqn:Hd; try done; simpl in Hus;
    try (injection Hus as <-; simpl;
      rw /int2 /int1 /equality /ordered /float_operand;
      repeat match goal with
      | |- context [ρ ?u] => rewrite (Hr u ltac:(simpl; set_solver))
      | |- context [operand_type cfg ?u] => rewrite (Ht u ltac:(simpl; set_solver))
      end; done).
  - simpl. destruct (source slot) as [v|] eqn:Hsl; [|done]. f_equal. by eapply Hs.
  - simpl. rw /enum_payload -He. rewrite /enum_payload in Hus.
    destruct (view_expect (extra cfg) payload) as [l|]; [|done]. injection Hus as <-.
    do 2 f_equal. apply map_ext_in. intros u Hin. apply Hr.
    rw /reads -list_fmap_compose. apply list_elem_of_fmap. exists u. split; [done|].
    by apply list_elem_of_In.
Qed.

(** [cfg'] computes what [cfg] computes: the same environments are executions
    of both, and in those every instruction has the same outcome, traps
    included. *)
Record equivalent (source : nat -> option CfgValue) (cfg cfg' : Cfg) : Prop := {
  equivalent_frame : same_frame cfg cfg';
  equivalent_models : forall ρ, env_typed cfg ρ -> models source cfg ρ <-> models source cfg' ρ;
  equivalent_eval : forall ρ v i i', env_typed cfg ρ -> models source cfg ρ ->
    get_inst cfg v = Some i -> get_inst cfg' v = Some i' ->
    eval source cfg ρ i = eval source cfg' ρ i';
}.

#[export] Instance equivalent_refl source : Reflexive (equivalent source).
Proof. intros c. split; [reflexivity|done|]. intros. by simplify_eq. Qed.

#[export] Instance equivalent_trans source : Transitive (equivalent source).
Proof.
  intros c1 c2 c3 [Hf1 Hm1 He1] [Hf2 Hm2 He2].
  assert (forall ρ, env_typed c1 ρ -> env_typed c2 ρ) as Ht by (intros; by eapply env_typed_frame).
  split.
  - by etrans.
  - intros ρ H1. rw Hm1 //. by apply Hm2, Ht.
  - intros ρ v i k H1 Hm Hi Hk.
    destruct (get_inst c2 v) as [j|] eqn:Hj.
    + rw (He1 _ v i j) //. apply (He2 _ v); auto. by apply Hm1.
    + destruct Hf1 as [_ Hf]. specialize (Hf v). by rewrite /operand_type Hi Hj in Hf.
Qed.

(** The value a constant instruction has. *)
Definition const_value (d : CfgInstData) : option rval :=
  match d with IConst w => Some (RInt w) | IBoolConst b => Some (RBool b) | _ => None end.

Lemma const_value_eval source cfg ρ T d r :
  const_value d = Some r -> eval_data source cfg ρ T d = Value r.
Proof. destruct d; naive_solver. Qed.

Lemma write_inst_data_Some cfg v d cfg' : write_inst_data cfg v d = Some cfg' <->
  exists i, get_inst cfg v = Some i /\
    cfg' = set_values (<[v := {| data := d; ty := ty i; span := span i |}]> (values cfg)) cfg.
Proof. rw /write_inst_data. destruct (get_inst cfg v); naive_solver. Qed.

Lemma get_inst_write cfg v d cfg' u : write_inst_data cfg v d = Some cfg' ->
  get_inst cfg' u = if decide (u = v) then (fun i => {| data := d; ty := ty i; span := span i |}) <$> get_inst cfg u
                    else get_inst cfg u.
Proof.
  intros (i & Hi & ->)%write_inst_data_Some. rw /get_inst /=. case_decide as Hu.
  - subst u. rw list_lookup_insert_eq; [by rewrite -/(get_inst cfg v) Hi|by eapply lookup_lt_Some].
  - by rw list_lookup_insert_ne.
Qed.

Lemma write_same_frame cfg v d cfg' : write_inst_data cfg v d = Some cfg' -> same_frame cfg cfg'.
Proof.
  intros Hw. split.
  - by apply write_inst_data_Some in Hw as (i & _ & ->).
  - intros u. rw /operand_type (get_inst_write _ _ _ _ u Hw). case_decide; [|done].
    by destruct (get_inst cfg u).
Qed.

(** Replacing an instruction by the constant it evaluates to. *)
Lemma constant_step source cfg cfg' v i d r :
  get_inst cfg v = Some i -> literal (data i) = false -> const_value d = Some r ->
  (forall ρ, env_typed cfg ρ -> literals_agree source cfg ρ -> eval source cfg ρ i = Value r) ->
  write_inst_data cfg v d = Some cfg' -> equivalent source cfg cfg'.
Proof.
  intros Hi Hl Hd Hev Hw. pose proof (write_same_frame _ _ _ _ Hw) as Hf.
  pose proof (fun u => get_inst_write _ _ _ _ u Hw) as Hg.
  assert (forall ρ, models source cfg' ρ -> literals_agree source cfg ρ) as Hlit.
  { intros ρ Hm u j s Hj Hlj Hs. apply (Hm u j).
    - rw Hg decide_False //. intros ->. simplify_eq. congruence.
    - by rw -(eval_frame _ _ _ _ _ Hf). }
  split; [done|intros ρ Ht; split|].
  - intros Hm u j s. rw Hg. case_decide as Hu; [subst u; rw Hi /=; intros <-%Some_inj|intros Hj].
    + rw /eval /= (const_value_eval _ _ _ _ _ _ Hd). intros [= <-].
      apply (Hm _ _ _ Hi). by apply Hev, models_literals.
    + rw -(eval_frame _ _ _ _ _ Hf). by apply Hm.
  - intros Hm u j s Hj. destruct (decide (u = v)) as [->|Hu].
    + simplify_eq. rw Hev //; [|by apply Hlit]. intros [= <-].
      eapply (Hm v); [by rw Hg decide_True // Hi|]. by apply const_value_eval.
    + rw (eval_frame _ _ _ _ _ Hf). apply Hm. by rw Hg decide_False.
  - intros ρ u j j' Ht Hm Hj. rw Hg. case_decide as Hu.
    + subst u. assert (j = i) as -> by congruence. rw Hi /=. intros <-%Some_inj.
      rw Hev //; [|by apply models_literals]. by rw /eval /= (const_value_eval _ _ _ _ _ _ Hd).
    + intros Hj'. simplify_eq. by apply eval_frame.
Qed.

(** ** Traps and the classifier *)

Lemma int_result_no_trap r : is_Some r -> int_result r <> Trap.
Proof. by intros [z ->]. Qed.

Lemma int2_no_trap ρ T f a b : (forall t x y, is_Some (f t x y)) -> int2 ρ T f a b <> Trap.
Proof.
  intros Hf. rw /int2. destruct (integer_semantics T), (ρ a), (ρ b); try done.
  by apply int_result_no_trap.
Qed.

Lemma int1_no_trap ρ T f a : (forall t x, is_Some (f t x)) -> int1 ρ T f a <> Trap.
Proof.
  intros Hf. rw /int1. destruct (integer_semantics T), (ρ a); try done.
  by apply int_result_no_trap.
Qed.

Lemma equality_no_trap cfg ρ f a b : equality cfg ρ f a b <> Trap.
Proof.
  rw /equality. repeat case_match; done.
Qed.

Lemma ordered_no_trap cfg ρ f a b : ordered cfg ρ f a b <> Trap.
Proof. rw /ordered. repeat case_match; done. Qed.

(** The classifier covers every trap of the evaluated instructions: in
    any environment, an instruction that traps is in the [may_trap] set, so it
    is never speculated, and dead code elimination keeps it. *)
Theorem traps_are_classified (source : nat -> option CfgValue) (cfg : Cfg) (ρ : env)
    (v : CfgValue) (i : CfgInst) (Hi : get_inst cfg v = Some i)
    (Htrap : eval source cfg ρ i = Trap) :
  may_trap cfg v = Some true /\ is_speculatable cfg v = Some false.
Proof.
  assert (may_trap cfg v = Some true) as Hmay; [|by rw /is_speculatable Hmay].
  rw /may_trap Hi /=. rewrite /eval in Htrap.
  destruct (data i) eqn:Hd; simpl in Htrap; try done; exfalso; move: Htrap;
    try solve [by apply int2_no_trap; eauto | by apply int1_no_trap; eauto
              | by apply equality_no_trap | by apply ordered_no_trap].
  - by destruct (ρ a).
  - by destruct (source slot).
  - by destruct (enum_payload cfg payload).
Qed.

(** ** A small owner

    [let a: i8 = 100 + 27; a - 27], followed by an addition that overflows. *)
Definition fold_edits : list edit :=
  let at_i8 d := EdAppendInst 0%nat (mkInst d TI8 (span_new 0 0)) in
  [EdTempSlots 1; EdNewBlock;
   at_i8 (IConst 100); at_i8 (IConst 27); at_i8 (IAdd 0 1);
   EdAppendInst 0 (mkInst (IAlloc 0 2) TUNIT (span_new 0 0));
   at_i8 (ILoad 0); at_i8 (ISub 4 1); at_i8 (IAdd 2 1);
   EdReturn 0 (Some 5%nat)].

Definition fold_cfg : Cfg :=
  default sample_empty (run_edits (H := unlimited) (H0 := word_types) fold_edits sample_empty).

Definition fold_env : env := fun v =>
  nth v [RInt 100; RInt 27; RInt 127; ROther 0; RInt 127; RInt 100; RInt 5] (ROther 0).

Definition fold_source (slot : nat) : option CfgValue := if (slot =? 0)%nat then Some 2%nat else None.

Lemma fold_cfg_ok : cfg_ok fold_cfg.
Proof.
  apply (built_cfg_ok (H := unlimited) (H0 := unlimited_laws) (H1 := word_types)).
  apply (run_edits_built fold_edits sample_empty); [constructor| |by vm_compute].
  by repeat constructor.
Qed.

Lemma fold_cfg_typed : well_typed fold_cfg.
Proof.
  intros v i Hi.
  do 7 (destruct v as [|v]; [vm_compute in Hi; injection Hi as <-; vm_compute;
    repeat split; try (left; eexists; reflexivity)|]).
  by vm_compute in Hi; destruct v.
Qed.

Lemma fold_env_typed : env_typed fold_cfg fold_env.
Proof.
  intros v i Hi.
  do 7 (destruct v as [|v]; [vm_compute in Hi; injection Hi as <-;
    first [apply (value_int _ {| bits := 8; signed := true |}); vm_compute; reflexivity
          |apply value_other; [vm_compute; reflexivity|by intros [=]]]|]).
  by vm_compute in Hi; destruct v.
Qed.

Lemma fold_env_models : models fold_source fold_cfg fold_env.
Proof.
  intros v i r Hi.
  do 7 (destruct v as [|v]; [vm_compute in Hi; injection Hi as <-; vm_compute; congruence|]).
  by vm_compute in Hi; destruct v.
Qed.

Lemma traps_are_classified_witness :
  eval fold_source fold_cfg fold_env (mkInst (IAdd 2 1) TI8 (span_new 0 0)) = Trap /\
  may_trap fold_cfg 6 = Some true.
Proof.
  split; [vm_compute; reflexivity|].
  apply (traps_are_classified fold_source fold_cfg fold_env 6 (mkInst (IAdd 2 1) TI8 (span_new 0 0)));
    vm_compute; reflexivity.
Defined.
