(* ===== verification/ConstFold.v ===== *)
(** * Constant folding kernel

    [crates/rue-cfg/src/opt/constfold.rs]: one instruction at a time, folded
    to a constant when its operands are constants or when an operand
    annihilates it.  [None] is a panic (an operand index outside the arena),
    [Some None] declines the fold. *)

From S2P Require Import Prelude IntegerSemantics Types Payload CfgData CfgEdit Classify Eval.
Import Machine IntegerSemantics IntegerSpec.
Local Open Scope Z_scope.

Definition is_foldable (d : CfgInstData) : bool :=
  match d with
  | IAdd _ _ | ISub _ _ | IMul _ _ | IWrappingAdd _ _ | IWrappingSub _ _ | IWrappingMul _ _
  | IDiv _ _ | IMod _ _ | IEq _ _ | INe _ _ | ILt _ _ | IGt _ _ | ILe _ _ | IGe _ _
  | IBitAnd _ _ | IBitOr _ _ | IBitXor _ _ | IShl _ _ | IShr _ _
  | INeg _ | INot _ | IBitNot _ => true
  | _ => false
  end.
Definition is_foldable_instruction (cfg : Cfg) (value : CfgValue) : option bool :=
  i ← get_inst cfg value; Some (is_foldable (data i)).

(** The [?] operator inside a function that may also panic, [Option::or_else]
    and [bool::then_some]. *)
Definition try_bind {A B} (x : option (option A)) (f : A -> option (option B)) : option (option B) :=
  o ← x; match o with Some a => f a | None => Some None end.
Definition or_else {A} (x y : option (option A)) : option (option A) :=
  o ← x; match o with Some a => Some (Some a) | None => y end.
Definition then_some {A} (c : option bool) (a : A) : option (option A) :=
  b ← c; Some (if (b : bool) then Some a else None).
Notation "x '←?' e ; k" := (try_bind e (fun x => k))
  (at level 20, e at level 100, k at level 200, format "x  ←?  e ;  '/' k").

Definition get_const_int (cfg : Cfg) (value : CfgValue) : option (option Z) :=
  i ← get_inst cfg value; Some match data i with IConst v => Some v | _ => None end.
Definition get_const_bool (cfg : Cfg) (value : CfgValue) : option (option bool) :=
  i ← get_inst cfg value; Some match data i with IBoolConst v => Some v | _ => None end.
Definition get_enum_variant (cfg : Cfg) (value : CfgValue) : option (option (EnumId * nat * Z)) :=
  i ← get_inst cfg value;
  match data i with
  | IEnumVariant enum_id variant_index payload =>
      l ← enum_payload cfg payload;
      Some (Some (enum_id, variant_index, wrap_u 32 (Z.of_nat (length l))))
  | _ => Some None
  end.

(** [get_const_int(v) == Some(c)], and its [||] over two operands. *)
Definition const_is (cfg : Cfg) (value : CfgValue) (c : Z) : option bool :=
  o ← get_const_int cfg value; Some (bool_decide (o = Some c)).
Definition either_const_is (cfg : Cfg) (lhs rhs : CfgValue) (c : Z) : option bool :=
  l ← const_is cfg lhs c; if (l : bool) then Some true else const_is cfg rhs c.

Definition checked_add (a b : Z) (ty : Type_) : option Z :=
  t ← integer_semantics ty; checked_add_u64 t a b.
Definition checked_sub (a b : Z) (ty : Type_) : option Z :=
  t ← integer_semantics ty; checked_sub_u64 t a b.
Definition checked_mul (a b : Z) (ty : Type_) : option Z :=
  t ← integer_semantics ty; checked_mul_u64 t a b.
Definition checked_div (a b : Z) (ty : Type_) : option Z :=
  if b =? 0 then None else t ← integer_semantics ty; checked_div_u64 t a b.
Definition checked_mod (a b : Z) (ty : Type_) : option Z :=
  if b =? 0 then None else t ← integer_semantics ty; checked_rem_u64 t a b.
Definition checked_neg (a : Z) (ty : Type_) : option Z :=
  t ← integer_semantics ty; checked_neg_u64 t a.

Section Kernel.
Context (cfg : Cfg).
Implicit Types lhs rhs operand : CfgValue.

Definition fold_binary_arith lhs rhs (op : Z -> Z -> option Z) : option (option CfgInstData) :=
  a ←? get_const_int cfg lhs;
  b ←? get_const_int cfg rhs;
  Some (IConst <$> op a b).

Definition fold_comparison lhs rhs (op : Z -> Z -> bool) : option (option CfgInstData) :=
  l ← get_inst cfg lhs;
  declined ← (if is_float (ty l) then Some true else r ← get_inst cfg rhs; Some (is_float (ty r)));
  if (declined : bool) then Some None else
  a ←? get_const_int cfg lhs;
  b ←? get_const_int cfg rhs;
  Some (Some (IBoolConst (op a b))).

Definition fold_enum_comparison lhs rhs (op : nat -> nat -> bool) : option (option CfgInstData) :=
  l ←? get_enum_variant cfg lhs;
  r ←? get_enum_variant cfg rhs;
  let '(lhs_enum_id, lhs_variant, lhs_payload_len) := l in
  let '(rhs_enum_id, rhs_variant, rhs_payload_len) := r in
  Some (if bool_decide (lhs_enum_id = rhs_enum_id) && (lhs_payload_len =? 0) && (rhs_payload_len =? 0)
        then Some (IBoolConst (op lhs_variant rhs_variant)) else None).

Definition fold_comparison_ordered lhs rhs (ty : Type_) (op : comparison -> bool)
    : option (option CfgInstData) :=
  a ←? get_const_int cfg lhs;
  b ←? get_const_int cfg rhs;
  Some (t ← integer_semantics ty; Some (IBoolConst (op (compare_u64 t a b)))).

Definition fold_shift lhs rhs (ty : Type_) (is_left : bool) : option (option CfgInstData) :=
  a ←? get_const_int cfg lhs;
  b ←? get_const_int cfg rhs;
  Some (t ← integer_semantics ty; Some (IConst (shift_u64 t a b is_left))).

Definition fold_unary_arith operand (op : Z -> option Z) : option (option CfgInstData) :=
  v ←? get_const_int cfg operand; Some (IConst <$> op v).

Definition fold_not operand : option (option CfgInstData) :=
  v ←? get_const_bool cfg operand; Some (Some (IBoolConst (negb v))).

(** [Ordering::Less], ... as the source tests them. *)
Definition ordering_eqb (a b : comparison) : bool :=
  match a, b with Eq, Eq | Lt, Lt | Gt, Gt => true | _, _ => false end.

Definition fold_data (ty : Type_) (d : CfgInstData) : option (option CfgInstData) :=
  let ordered lhs rhs op :=
    l ← get_inst cfg lhs; fold_comparison_ordered lhs rhs (CfgData.ty l) op in
  let wrapping (f : IntegerType -> Z -> Z -> Z) a b := t ← integer_semantics ty; Some (f t a b) in
  match d with
  | IAdd lhs rhs => fold_binary_arith lhs rhs (fun a b => checked_add a b ty)
  | ISub lhs rhs =>
      or_else (fold_binary_arith lhs rhs (fun a b => checked_sub a b ty))
        (then_some (Some (negb (is_float ty) && bool_decide (lhs = rhs))) (IConst 0))
  | IMul lhs rhs =>
      or_else (fold_binary_arith lhs rhs (fun a b => checked_mul a b ty))
        (then_some (if negb (is_float ty) then either_const_is cfg lhs rhs 0 else Some false)
           (IConst 0))
  | IWrappingAdd lhs rhs => fold_binary_arith lhs rhs (wrapping wrapping_add_u64)
  | IWrappingSub lhs rhs =>
      or_else (fold_binary_arith lhs rhs (wrapping wrapping_sub_u64))
        (then_some (Some (bool_decide (lhs = rhs))) (IConst 0))
  | IWrappingMul lhs rhs =>
      or_else (fold_binary_arith lhs rhs (wrapping wrapping_mul_u64))
        (then_some (either_const_is cfg lhs rhs 0) (IConst 0))
  | IDiv lhs rhs => fold_binary_arith lhs rhs (fun a b => checked_div a b ty)
  | IMod lhs rhs =>
      or_else (fold_binary_arith lhs rhs (fun a b => checked_mod a b ty))
        (then_some (const_is cfg rhs 1) (IConst 0))
  | IEq lhs rhs =>
      or_else (fold_comparison lhs rhs Z.eqb) (fold_enum_comparison lhs rhs Nat.eqb)
  | INe lhs rhs =>
      or_else (fold_comparison lhs rhs (fun a b => negb (a =? b)))
        (fold_enum_comparison lhs rhs (fun a b => negb (Nat.eqb a b)))
  | ILt lhs rhs => ordered lhs rhs (fun o => ordering_eqb o Lt)
  | IGt lhs rhs => ordered lhs rhs (fun o => ordering_eqb o Gt)
  | ILe lhs rhs => ordered lhs rhs (fun o => negb (ordering_eqb o Gt))
  | IGe lhs rhs => ordered lhs rhs (fun o => negb (ordering_eqb o Lt))
  | IBitAnd lhs rhs =>
      or_else (fold_binary_arith lhs rhs (fun a b => Some (Z.land a b)))
        (then_some (either_const_is cfg lhs rhs 0) (IConst 0))
  | IBitOr lhs rhs => fold_binary_arith lhs rhs (fun a b => Some (Z.lor a b))
  | IBitXor lhs rhs =>
      or_else (fold_binary_arith lhs rhs (fun a b => Some (Z.lxor a b)))
        (then_some (Some (bool_decide (lhs = rhs))) (IConst 0))
  | IShl lhs rhs => fold_shift lhs rhs ty true
  | IShr lhs rhs => fold_shift lhs rhs ty false
  | INeg operand => fold_unary_arith operand (fun v => checked_neg v ty)
  | INot operand => fold_not operand
  | IBitNot operand =>
      fold_unary_arith operand (fun v => t ← integer_semantics ty; Some (bitnot_u64 t v))
  | _ => Some None
  end.

Definition fold_instruction (value : CfgValue) : option (Cfg * bool) :=
  i ← get_inst cfg value;
  folded ← fold_data (ty i) (data i);
  match folded with
  | Some new_data => cfg' ← write_inst_data cfg value new_data; Some (cfg', true)
  | None => Some (cfg, false)
  end.
End Kernel.

(** ** Soundness of one fold *)


Lemma try_bind_Some {A B} (x : option (option A)) (f : A -> option (option B)) b :
  try_bind x f = Some (Some b) <-> exists a, x = Some (Some a) /\ f a = Some (Some b).
Proof. destruct x as [[a|]|]; naive_solver. Qed.

Lemma or_else_Some {A} (x y : option (option A)) a :
  or_else x y = Some (Some a) -> x = Some (Some a) \/ x = Some None /\ y = Some (Some a).
Proof. destruct x as [[b|]|]; naive_solver. Qed.

Lemma then_some_Some {A} (c : option bool) (a b : A) :
  then_some c a = Some (Some b) -> c = Some true /\ b = a.
Proof. destruct c as [[]|]; naive_solver. Qed.

#[local] Arguments try_bind : simpl never.
#[local] Arguments or_else : simpl never.
#[local] Arguments then_some : simpl never.

Section Sound.
Context (source : nat -> option CfgValue) (cfg : Cfg) (ρ : env).
Context (Hm : literals_agree source cfg ρ) (Ht : env_typed cfg ρ).

Lemma const_int_inst v w : get_const_int cfg v = Some (Some w) ->
  exists i, get_inst cfg v = Some i /\ data i = IConst w.
Proof.
  rw /get_const_int. destruct (get_inst cfg v) as [[d T s]|]; [|done].
  intros Hd. exists (mkInst d T s). destruct d; simplify_eq/=. done.
Qed.

Lemma const_int_value v w : get_const_int cfg v = Some (Some w) -> ρ v = RInt w.
Proof.
  intros (i & Hi & Hd)%const_int_inst. apply (Hm v i); rw /eval ?Hd //.
Qed.

Lemma const_bool_value v b : get_const_bool cfg v = Some (Some b) -> ρ v = RBool b.
Proof.
  rw /get_const_bool. destruct (get_inst cfg v) as [[d T s]|] eqn:Hi; [|done].
  intros Hd. apply (Hm v _ _ Hi); destruct d; by simplify_eq/=.
Qed.

Lemma operand_int v T t : operand_is cfg v T -> integer_semantics T = Some t ->
  exists w, ρ v = RInt w /\ canonical t w.
Proof.
  rw /operand_is /operand_type. intros (i & Hi & ->)%fmap_Some HT.
  pose proof (Ht _ _ Hi) as Hv. by rewrite /value_of_type HT in Hv.
Qed.

Lemma const_canonical v T t w : operand_is cfg v T -> integer_semantics T = Some t ->
  get_const_int cfg v = Some (Some w) -> canonical t w.
Proof.
  intros Hv HT Hw. destruct (operand_int v T t Hv HT) as (w' & Hr & Hc).
  rewrite (const_int_value _ _ Hw) in Hr. by simplify_eq.
Qed.

Lemma const_is_value v c : const_is cfg v c = Some true -> ρ v = RInt c.
Proof.
  rw /const_is. destruct (get_const_int cfg v) as [o|] eqn:Ho; [|done]. intros Hb.
  simplify_eq/=. apply bool_decide_eq_true in Hb. subst o. by apply const_int_value.
Qed.

Lemma either_const_value a b c : either_const_is cfg a b c = Some true ->
  ρ a = RInt c \/ ρ b = RInt c.
Proof.
  rw /either_const_is. destruct (const_is cfg a c) as [[]|] eqn:Ha; [|intros Hb|done].
  - left. by apply const_is_value.
  - right. by apply const_is_value.
Qed.

Lemma fold_binary_inv a b op d : fold_binary_arith cfg a b op = Some (Some d) ->
  exists x y r, ρ a = RInt x /\ ρ b = RInt y /\ op x y = Some r /\ d = IConst r /\
    get_const_int cfg a = Some (Some x) /\ get_const_int cfg b = Some (Some y).
Proof.
  rw /fold_binary_arith. intros (x & Hx & (y & Hy & Hr)%try_bind_Some)%try_bind_Some.
  injection Hr as Hr. apply fmap_Some in Hr as (r & Hr & ->).
  exists x, y, r. split_and!; try done; by apply const_int_value.
Qed.

(** Both operands constant: the kernel operation [op] computes [f]. *)
Lemma fold_binary_sound T (f : IntegerType -> Z -> Z -> option Z) a b op d :
  operand_is cfg a T -> operand_is cfg b T ->
  (forall x y r, op x y = Some r -> exists t, integer_semantics T = Some t /\
     (canonical t x -> canonical t y -> exists z, f t (norm t x) (norm t y) = Some z /\ r = image z)) ->
  fold_binary_arith cfg a b op = Some (Some d) ->
  exists r, const_value d = Some r /\ int2 ρ T f a b = Value r.
Proof.
  intros Ha Hb Hop (x & y & r & Hx & Hy & Hr & -> & Hcx & Hcy)%fold_binary_inv.
  destruct (Hop _ _ _ Hr) as (t & HT & Hz).
  destruct (Hz (const_canonical _ _ _ _ Ha HT Hcx) (const_canonical _ _ _ _ Hb HT Hcy))
    as (z & Hf & ->).
  eexists. split; [done|]. by rw /int2 HT Hx Hy Hf.
Qed.

Lemma checked_fold_image T op x y r : (t ← integer_semantics T; checked_op op t x y) = Some r ->
  exists t, integer_semantics T = Some t /\
    (canonical t x -> canonical t y ->
     exists z, ref_checked t op (norm t x) (norm t y) = Some z /\ r = image z).
Proof.
  destruct (integer_semantics T) as [t|] eqn:HT; [|done]. simpl. intros Hr. exists t. split; [done|].
  intros _ _. rewrite (checked_op_image t op x y (integer_semantics_wf _ _ HT)) in Hr.
  apply fmap_Some in Hr as (z & Hz & ->). eauto.
Qed.

Lemma wrapping_fold_image T op f g x y r : wrapping_op op = Some (f, g) ->
  (t ← integer_semantics T; Some (f t x y)) = Some r ->
  exists t, integer_semantics T = Some t /\
    (canonical t x -> canonical t y ->
     exists z, Some (norm t (g (norm t x) (norm t y))) = Some z /\ r = image z).
Proof.
  intros Hop. destruct (integer_semantics T) as [t|] eqn:HT; [|done]. simpl. intros Hr.
  exists t. split; [done|]. intros _ _.
  rewrite (wrapping_op_image t op f g x y (integer_semantics_wf _ _ HT) Hop) in Hr.
  simplify_eq. eauto.
Qed.

(** An annihilated operation: the result is zero whatever the other operand. *)
Lemma annihilated T (f : IntegerType -> Z -> Z -> option Z) a b :
  integral T -> operand_is cfg a T -> operand_is cfg b T ->
  (forall t x y, integer_semantics T = Some t -> canonical t x -> canonical t y ->
     ρ a = RInt x -> ρ b = RInt y -> f t (norm t x) (norm t y) = Some 0) ->
  int2 ρ T f a b = Value (RInt 0).
Proof.
  intros [t HT] Ha Hb Hf.
  destruct (operand_int a T t Ha HT) as (x & Hx & Hcx).
  destruct (operand_int b T t Hb HT) as (y & Hy & Hcy).
  by rw /int2 HT Hx Hy (Hf t x y).
Qed.

Lemma ref_checked_zero t op x y : wf t -> exact op x y = Some 0 -> op <> OpRem ->
  ref_checked t op x y = Some 0.
Proof.
  intros Hwf He Ho. destruct op; try done; rw /ref_checked He /= decide_True //; by apply in_range_0.
Qed.

Lemma norm_0 t : wf t -> norm t 0 = 0.
Proof. intros. apply norm_id; [done|]. by apply in_range_0. Qed.

Lemma in_range_1 t : wf t -> in_range t 1.
Proof.
  intros Hwf. rw /in_range /min_val /max_val.
  destruct (signed t), (wf_bits t Hwf) as [-> |[-> |[-> | ->]]]; simpl; lia.
Qed.

Lemma norm_1 t : wf t -> norm t 1 = 1.
Proof. intros. apply norm_id; [done|]. by apply in_range_1. Qed.

(** A fold whose operands decline falls back on an annihilator. *)
Lemma fold_or_zero (o : outcome) x c d :
  or_else x (then_some c (IConst 0)) = Some (Some d) ->
  (x = Some (Some d) -> exists r, const_value d = Some r /\ o = Value r) ->
  (c = Some true -> o = Value (RInt 0)) ->
  exists r, const_value d = Some r /\ o = Value r.
Proof.
  intros [Hx|[_ (Hc & ->)%then_some_Some]]%or_else_Some H1 H2; [by apply H1|].
  exists (RInt 0). auto.
Qed.

Lemma ordered_sound a b d f g : (forall c, f c = g c) ->
  (l ← get_inst cfg a; fold_comparison_ordered cfg a b (CfgData.ty l) f) = Some (Some d) ->
  exists r, const_value d = Some r /\ ordered cfg ρ g a b = Value r.
Proof.
  intros Hfg. destruct (get_inst cfg a) as [i|] eqn:Hi; [|done]. simpl.
  rw /fold_comparison_ordered /ordered /operand_type Hi /=.
  intros (x & Hx & (y & Hy & Hr)%try_bind_Some)%try_bind_Some. injection Hr as Hr.
  destruct (integer_semantics (CfgData.ty i)) as [t|] eqn:HT; simplify_eq/=.
  rw (const_int_value _ _ Hx) (const_int_value _ _ Hy).
  eexists. split; [done|]. rw -Hfg compare_u64_spec //. by apply integer_semantics_wf in HT.
Qed.

(** A shift count read at its type or from its image is the same count. *)
Lemma norm_mod_bits t z : wf t -> norm t z mod bits t = z mod bits t.
Proof.
  intros Hwf.
  assert (bits t | 2 ^ bits t) as Hd.
  { destruct (wf_bits t Hwf) as [-> |[-> |[-> | ->]]]; by apply Z.mod_divide. }
  rw -(Z.mod_mod_divide (norm t z) _ _ Hd) -(Z.mod_mod_divide z _ _ Hd). f_equal.
  by apply norm_congr.
Qed.

Lemma shift_sound T a b d left :
  fold_shift cfg a b T left = Some (Some d) ->
  exists r, const_value d = Some r /\ int2 ρ T (shifted left) a b = Value r.
Proof.
  rw /fold_shift. intros (x & Hx & (y & Hy & Hr)%try_bind_Some)%try_bind_Some.
  injection Hr as Hr. destruct (integer_semantics T) as [t|] eqn:HT; simplify_eq/=.
  pose proof (integer_semantics_wf _ _ HT) as Hwf.
  eexists. split; [done|].
  rw /int2 HT (const_int_value _ _ Hx) (const_int_value _ _ Hy) /shifted /=.
  by rw shift_u64_image // norm_mod_bits.
Qed.
Context (Hok : cfg_ok cfg) (Hw : well_typed cfg).

Lemma enum_variant_value v e k n : get_enum_variant cfg v = Some (Some (e, k, n)) ->
  exists l, ρ v = REnum e k l /\ (n = 0 -> l = []) /\ float_operand cfg v = false.
Proof.
  rw /get_enum_variant /float_operand /operand_type.
  destruct (get_inst cfg v) as [[d T s]|] eqn:Hi; [|done]. destruct d; try done. simpl.
  pose proof (ok_insts _ Hok _ _ Hi) as Hr. simpl in Hr.
  pose proof (Hw _ _ Hi) as HT. rw /inst_typed /= in HT *.
  assert (enum_payload cfg payload = Some (denote (extra cfg) payload)) as Hp
    by by apply range_ok_view.
  rw Hp /=. intros Hn. simplify_eq.
  exists (map ρ (denote (extra cfg) payload)). split_and!.
  - apply (Hm _ _ _ Hi); [done|]. by rw /eval /= Hp.
  - intros Hz. destruct Hr as [Hu _].
    assert (length (denote (extra cfg) payload) = 0%nat) as Hl%length_zero_iff_nil;
      [|by rw Hl].
    rw wrap_u_small in Hz *; [lia|].
    rw /range_u32 /in_u in Hu *. rw /denote length_take. lia.
  - rw /is_float. repeat case_bool_decide; subst; done.
Qed.

Lemma equality_sound a b d f op eop :
  (forall x y, op x y = f (x =? y)) -> (forall x y, eop x y = f (x =? y)%nat) ->
  or_else (fold_comparison cfg a b op) (fold_enum_comparison cfg a b eop) = Some (Some d) ->
  exists r, const_value d = Some r /\ equality cfg ρ f a b = Value r.
Proof.
  intros Hop Heop [Hc|[_ Hc]]%or_else_Some.
  - move: Hc. rw /fold_comparison /equality /float_operand /operand_type.
    destruct (get_inst cfg a) as [i|] eqn:Hi; [|done]. simpl.
    destruct (is_float (ty i)) eqn:Hfa; [done|].
    destruct (get_inst cfg b) as [j|] eqn:Hj; [|done]. simpl.
    destruct (is_float (ty j)) eqn:Hfb; [done|].
    intros (x & Hx & (y & Hy & Hr)%try_bind_Some)%try_bind_Some. simplify_eq.
    rw (const_int_value _ _ Hx) (const_int_value _ _ Hy) /= Hop. eauto.
  - move: Hc. rw /fold_enum_comparison.
    intros ([[e v] n] & Hl & ([[e' v'] n'] & Hr & Hd)%try_bind_Some)%try_bind_Some.
    destruct (enum_variant_value _ _ _ _ Hl) as (l & Ha & Hla & Hfa).
    destruct (enum_variant_value _ _ _ _ Hr) as (l' & Hb & Hlb & Hfb).
    case_bool_decide; [subst e'|done].
    destruct (Z.eqb_spec n 0) as [Hn|]; [|done]. destruct (Z.eqb_spec n' 0) as [Hn'|]; [|done].
    simplify_eq/=. rw /equality Hfa Hfb Ha Hb Hla // Hlb //= decide_True // Heop. eauto.
Qed.

Lemma integral_of_not_float i : integral (ty i) \/ is_float (ty i) = true ->
  is_float (ty i) = false -> integral (ty i).
Proof. intros [?|?] ?; [done|congruence]. Qed.

Lemma bitwise_fold_image T f x y r : f = Z.land \/ f = Z.lor \/ f = Z.lxor -> integral T ->
  Some (f x y) = Some r ->
  exists t, integer_semantics T = Some t /\
    (canonical t x -> canonical t y ->
     exists z, Some (f (norm t x) (norm t y)) = Some z /\ r = image z).
Proof.
  intros Hf [t HT] [= <-]. exists t. split; [done|]. intros Hx Hy.
  eexists. split; [done|].
  by apply (bitwise_images t (integer_semantics_wf _ _ HT) x y f Hf Hx Hy).
Qed.

Lemma fold_unary_sound T (f : IntegerType -> Z -> option Z) a op d :
  operand_is cfg a T ->
  (forall x r, op x = Some r -> exists t z, integer_semantics T = Some t /\
     f t (norm t x) = Some z /\ r = image z) ->
  fold_unary_arith cfg a op = Some (Some d) ->
  exists r, const_value d = Some r /\ int1 ρ T f a = Value r.
Proof.
  intros Ha Hop. rw /fold_unary_arith. intros (x & Hx & Hr)%try_bind_Some.
  injection Hr as (r & Hr & ->)%fmap_Some.
  destruct (Hop _ _ Hr) as (t & z & HT & Hf & ->).
  eexists. split; [done|]. by rw /int1 HT (const_int_value _ _ Hx) Hf.
Qed.

(** A fold replaces an instruction that does not trap by the constant it
    evaluates to. *)
Lemma fold_data_sound i d : inst_typed cfg i -> fold_data cfg (ty i) (data i) = Some (Some d) ->
  exists r, const_value d = Some r /\ eval source cfg ρ i = Value r.
Proof.
  rw /eval /inst_typed. destruct (data i) eqn:Hd; try done; simpl.
  - intros (_ & Ha & Hb). eapply fold_binary_sound; [done..|].
    intros x y r Hr. by apply (checked_fold_image _ OpAdd).
  - intros (HT & Ha & Hb) Hf. eapply fold_or_zero; [exact Hf|intros Hf'|].
    + eapply fold_binary_sound; [done..| |exact Hf'].
      intros x y r Hr. by apply (checked_fold_image _ OpSub).
    + intros [Hfl%negb_true_iff ->%bool_decide_eq_true]%Some_inj%andb_true_iff.
      apply annihilated; [by apply integral_of_not_float|done..|].
      intros t x y Ht' _ _ Hx Hy. assert (y = x) as -> by congruence.
      apply ref_checked_zero; [by eapply integer_semantics_wf|simpl; f_equal; lia|done].
  - intros (HT & Ha & Hb) Hf. eapply fold_or_zero; [exact Hf|intros Hf'|].
    + eapply fold_binary_sound; [done..| |exact Hf'].
      intros x y r Hr. by apply (checked_fold_image _ OpMul).
    + destruct (is_float (ty i)) eqn:Hfl; [done|]. simpl. intros Hz%either_const_value.
      apply annihilated; [by destruct HT|done..|].
      intros t x y Ht' _ _ Hx Hy. pose proof (integer_semantics_wf _ _ Ht') as Hwf.
      apply ref_checked_zero; [done|simpl|done].
      destruct Hz as [Hz|Hz]; [assert (x = 0) as -> by congruence|assert (y = 0) as -> by congruence];
        rw norm_0 //; f_equal; lia.
  - intros (HT & Ha & Hb). eapply fold_binary_sound; [done..|].
    intros x y r Hr. by apply (wrapping_fold_image _ OpAdd wrapping_add_u64 Z.add).
  - intros (HT & Ha & Hb) Hf. eapply fold_or_zero; [exact Hf|intros Hf'|].
    + eapply fold_binary_sound; [done..| |exact Hf'].
      intros x y r Hr. by apply (wrapping_fold_image _ OpSub wrapping_sub_u64 Z.sub).
    + intros [= ->%bool_decide_eq_true]. apply annihilated; [done..|].
      intros t x y Ht' _ _ Hx Hy. assert (y = x) as -> by congruence. rw Z.sub_diag norm_0 //.
      by eapply integer_semantics_wf.
  - intros (HT & Ha & Hb) Hf. eapply fold_or_zero; [exact Hf|intros Hf'|].
    + eapply fold_binary_sound; [done..| |exact Hf'].
      intros x y r Hr. by apply (wrapping_fold_image _ OpMul wrapping_mul_u64 Z.mul).
    + intros Hz%either_const_value. apply annihilated; [done..|].
      intros t x y Ht' _ _ Hx Hy. pose proof (integer_semantics_wf _ _ Ht') as Hwf.
      assert (norm t x * norm t y = 0) as ->; [|by rw norm_0].
      destruct Hz as [Hz|Hz]; [assert (x = 0) as -> by congruence|assert (y = 0) as -> by congruence];
        rw norm_0 //; lia.
  - intros (HT & Ha & Hb). eapply fold_binary_sound; [done..|].
    intros x y r. rw /checked_div. destruct (y =? 0); [done|].
    by apply (checked_fold_image _ OpDiv).
  - intros (HT & Ha & Hb) Hf. eapply fold_or_zero; [exact Hf|intros Hf'|].
    + eapply fold_binary_sound; [done..| |exact Hf'].
      intros x y r. rw /checked_mod. destruct (y =? 0); [done|].
      by apply (checked_fold_image _ OpRem).
    + intros Hz%const_is_value. apply annihilated; [done..|].
      intros t x y Ht' _ _ Hx Hy. pose proof (integer_semantics_wf _ _ Ht') as Hwf.
      rw Hz in Hy *. simplify_eq. rw norm_1 // /ref_checked /= Z.quot_1_r decide_True; last first.
      { by apply norm_in_range. }
      by rw Z.rem_1_r.
  - intros _. by apply equality_sound.
  - intros _. by apply equality_sound.
  - intros _. apply ordered_sound. by intros [].
  - intros _. apply ordered_sound. by intros [].
  - intros _. apply ordered_sound. by intros [].
  - intros _. apply ordered_sound. by intros [].
  - intros (HT & Ha & Hb) Hf. eapply fold_or_zero; [exact Hf|intros Hf'|].
    + eapply fold_binary_sound; [done..| |exact Hf'].
      intros x y r Hr. by apply (bitwise_fold_image _ Z.land); auto.
    + intros Hz%either_const_value. apply annihilated; [done..|].
      intros t x y Ht' _ _ Hx Hy. pose proof (integer_semantics_wf _ _ Ht') as Hwf.
      destruct Hz as [Hz|Hz]; [assert (x = 0) as -> by congruence|assert (y = 0) as -> by congruence];
        rw norm_0 // ?Z.land_0_r //.
  - intros (HT & Ha & Hb). eapply fold_binary_sound; [done..|].
    intros x y r Hr. by apply (bitwise_fold_image _ Z.lor); auto.
  - intros (HT & Ha & Hb) Hf. eapply fold_or_zero; [exact Hf|intros Hf'|].
    + eapply fold_binary_sound; [done..| |exact Hf'].
      intros x y r Hr. by apply (bitwise_fold_image _ Z.lxor); auto.
    + intros [= ->%bool_decide_eq_true]. apply annihilated; [done..|].
      intros t x y Ht' _ _ Hx Hy. assert (y = x) as -> by congruence. by rw Z.lxor_nilpotent.
  - intros _. by apply shift_sound.
  - intros _. by apply shift_sound.
  - intros [_ Ha]. eapply fold_unary_sound; [done|].
    intros x r. rw /checked_neg. destruct (integer_semantics (ty i)) as [t|] eqn:HT; [|done].
    simpl. pose proof (integer_semantics_wf _ _ HT) as Hwf.
    rw checked_neg_u64_spec //. destruct (decide _) as [Hd'|]; [|done]. intros [= <-].
    exists t, (- norm t x). by rw decide_True.
  - intros [_ Ha]. rw /fold_not. intros (b & Hb & [= <-])%try_bind_Some.
    rw (const_bool_value _ _ Hb). eauto.
  - intros [_ Ha]. eapply fold_unary_sound; [done|].
    intros x r. destruct (integer_semantics (ty i)) as [t|] eqn:HT; [|done].
    simpl. pose proof (integer_semantics_wf _ _ HT) as Hwf.
    rw bitnot_u64_spec //. intros [= <-]. eauto.
Qed.
End Sound.

(** ** The whole step *)

(** Whatever is folded becomes a constant. *)
Lemma fold_data_constant cfg T d d' : fold_data cfg T d = Some (Some d') ->
  exists r, const_value d' = Some r.
Proof.
  assert (forall a b op, fold_binary_arith cfg a b op = Some (Some d') ->
    exists r, const_value d' = Some r) as Hbin.
  { intros a b op. rw /fold_binary_arith /try_bind. intros Hf.
    repeat (simplify_option_eq; case_match). destruct (op _ _); simplify_option_eq; eauto. }
  assert (forall x c, or_else x (then_some c (IConst 0)) = Some (Some d') ->
    (x = Some (Some d') -> exists r, const_value d' = Some r) ->
    exists r, const_value d' = Some r) as Hzero.
  { intros x c [Hx|[_ [_ ->]%then_some_Some]]%or_else_Some Hc; eauto. }
  destruct d; simpl; eauto; try done;
    rw /fold_comparison /fold_enum_comparison /fold_comparison_ordered /fold_shift
       /fold_unary_arith /fold_not /try_bind /or_else; intros Hf;
    repeat (simplify_option_eq; try case_match); eauto.
Qed.

Section Step.
Context (cfg : Cfg) (Hok : cfg_ok cfg) (Hw : well_typed cfg).

Lemma operand_get v T : operand_is cfg v T -> exists i, get_inst cfg v = Some i /\ ty i = T.
Proof. rw /operand_is /operand_type. intros (i & Hi & ->)%fmap_Some. eauto. Qed.

Lemma const_int_total v T : operand_is cfg v T -> exists o, get_const_int cfg v = Some o.
Proof. intros (i & Hi & _)%operand_get. rw /get_const_int Hi /=. eauto. Qed.

Lemma either_const_total a b T c : operand_is cfg a T -> operand_is cfg b T ->
  exists o, either_const_is cfg a b c = Some o.
Proof.
  intros [o Ha]%const_int_total [o' Hb]%const_int_total.
  rw /either_const_is /const_is Ha Hb /=. case_bool_decide; eauto.
Qed.

Lemma fold_binary_total a b T op : operand_is cfg a T -> operand_is cfg b T ->
  exists o, fold_binary_arith cfg a b op = Some o.
Proof.
  intros [[x|] Ha]%const_int_total [[y|] Hb]%const_int_total;
    rw /fold_binary_arith Ha /try_bind /= ?Hb /=; eauto.
Qed.

Lemma fold_unary_total a T op : operand_is cfg a T -> exists o, fold_unary_arith cfg a op = Some o.
Proof.
  intros [[x|] Ha]%const_int_total; rw /fold_unary_arith Ha /try_bind /=; eauto.
Qed.

Lemma or_else_total {A} (x y : option (option A)) :
  (exists o, x = Some o) -> (exists o, y = Some o) -> exists o, or_else x y = Some o.
Proof. intros [[a|] ->] [b ->]; rw /or_else /=; eauto. Qed.

Lemma then_some_total {A} c (a : A) : (exists b, c = Some b) -> exists o, then_some c a = Some o.
Proof. intros [[] ->]; rw /then_some /=; eauto. Qed.

Lemma enum_variant_total v T : operand_is cfg v T -> exists o, get_enum_variant cfg v = Some o.
Proof.
  intros (i & Hi & _)%operand_get. rw /get_enum_variant Hi /=.
  destruct (data i) eqn:Hd; eauto.
  pose proof (ok_insts _ Hok _ _ Hi) as Hr. rw Hd /= in Hr *.
  rw /enum_payload (range_ok_view _ _ Hr) /=. eauto.
Qed.

Lemma equality_total a b T op eop : operand_is cfg a T -> operand_is cfg b T ->
  exists o, or_else (fold_comparison cfg a b op) (fold_enum_comparison cfg a b eop) = Some o.
Proof.
  intros Ha Hb. apply or_else_total.
  - destruct (operand_get _ _ Ha) as (i & Hi & _), (operand_get _ _ Hb) as (j & Hj & _).
    destruct (const_int_total _ _ Ha) as [[x|] Hx], (const_int_total _ _ Hb) as [[y|] Hy];
      rw /fold_comparison Hi Hj /= Hx /try_bind /= ?Hy /=;
      destruct (is_float (ty i)), (is_float (ty j)); eauto.
  - destruct (enum_variant_total _ _ Ha) as [[[[e v] n]|] Hx],
      (enum_variant_total _ _ Hb) as [[[[e' v'] n']|] Hy];
      rw /fold_enum_comparison Hx /try_bind /= ?Hy /=; eauto.
Qed.

Lemma ordered_total a b T op : operand_is cfg a T -> operand_is cfg b T ->
  exists o, (l ← get_inst cfg a; fold_comparison_ordered cfg a b (CfgData.ty l) op) = Some o.
Proof.
  intros Ha Hb. destruct (operand_get _ _ Ha) as (i & -> & _). simpl.
  destruct (const_int_total _ _ Ha) as [[x|] Hx], (const_int_total _ _ Hb) as [[y|] Hy];
    rw /fold_comparison_ordered Hx /try_bind /= ?Hy /=; eauto.
Qed.

Lemma shift_total a b T S left : operand_is cfg a T -> operand_is cfg b T ->
  exists o, fold_shift cfg a b S left = Some o.
Proof.
  intros Ha Hb.
  destruct (const_int_total _ _ Ha) as [[x|] Hx], (const_int_total _ _ Hb) as [[y|] Hy];
    rw /fold_shift Hx /try_bind /= ?Hy /=; eauto.
Qed.

(** A well-typed owner never makes the kernel panic. *)
Lemma fold_data_total i : inst_typed cfg i -> exists o, fold_data cfg (ty i) (data i) = Some o.
Proof.
  rw /inst_typed. destruct (data i); try solve [simpl; eauto]; simpl.
  1-8, 15-19: intros (_ & Ha & Hb);
    try (apply or_else_total; [|apply then_some_total; repeat case_match; eauto]);
    solve [by eapply fold_binary_total | by eapply either_const_total | by eapply shift_total
          | destruct (const_int_total _ _ Hb) as [o Ho]; rw /const_is Ho /=; eauto].
  1-6: intros (_ & T & Ha & Hb); solve [by eapply equality_total | by eapply ordered_total].
  - intros (_ & Ha). by eapply fold_unary_total.
  - intros (_ & (i' & Hi' & _)%operand_get).
    rw /fold_not /get_const_bool Hi' /=. destruct (data i'); rw /try_bind /=; eauto.
  - intros (_ & Ha). by eapply fold_unary_total.
Qed.

(** The owner after a write of constant data to a foldable instruction. *)
Lemma write_const_ok v i d r cfg' :
  get_inst cfg v = Some i -> is_move_out (data i) = false -> const_value d = Some r ->
  write_inst_data cfg v d = Some cfg' -> cfg_step cfg cfg' /\ well_typed cfg'.
Proof.
  intros Hi Hmo Hd Hwr. pose proof (write_same_frame _ _ _ _ Hwr) as Hf. split.
  - apply write_inst_data_Some in Hwr as (j & Hj & ->). simplify_eq.
    apply (step_replace_inst cfg Hok v i); [done|by destruct d|].
    rw Hmo /=. by destruct d.
  - intros u j. rw (get_inst_write _ _ _ _ u Hwr). case_decide as Hu.
    + subst u. rw Hi /=. intros [= <-]. by destruct d.
    + intros Hj. apply (inst_typed_frame _ _ _ Hf). by eapply Hw.
Qed.

Lemma foldable_data i d : fold_data cfg (ty i) (data i) = Some (Some d) ->
  literal (data i) = false /\ is_move_out (data i) = false /\ is_foldable (data i) = true.
Proof. by destruct (data i). Qed.

(** One fold, on the whole owner. *)
Lemma fold_instruction_spec source v i : get_inst cfg v = Some i ->
  exists cfg' b, fold_instruction cfg v = Some (cfg', b) /\ cfg_step cfg cfg' /\ well_typed cfg' /\
    equivalent source cfg cfg' /\
    if b then is_foldable (data i) = true /\
      exists d r, write_inst_data cfg v d = Some cfg' /\ const_value d = Some r /\
        forall ρ, env_typed cfg ρ -> literals_agree source cfg ρ -> eval source cfg ρ i = Value r
    else cfg' = cfg.
Proof.
  intros Hi. pose proof (Hw _ _ Hi) as Hti.
  destruct (fold_data_total _ Hti) as [[d|] Hf]; rw /fold_instruction Hi /= Hf /=; last first.
  { exists cfg, false. by split_and!. }
  destruct (foldable_data _ _ Hf) as (Hl & Hmo & Hfo).
  destruct (fold_data_constant _ _ _ _ Hf) as [r Hr].
  assert (exists cfg', write_inst_data cfg v d = Some cfg') as [cfg' Hwr].
  { rw /write_inst_data Hi /=. eauto. }
  destruct (write_const_ok _ _ _ _ _ Hi Hmo Hr Hwr) as [Hs Hw'].
  assert (forall ρ, env_typed cfg ρ -> literals_agree source cfg ρ -> eval source cfg ρ i = Value r)
    as Hev.
  { intros ρ Ht Hm. destruct (fold_data_sound source cfg ρ Hm Ht Hok Hw _ _ Hti Hf) as (r' & Hr' & ->).
    congruence. }
  exists cfg', true. rw Hwr /=. split_and!; try done.
  - by eapply constant_step.
  - eauto 10.
Qed.
End Step.

(** C28.  One attempt of the fold kernel on a well-formed, well-typed owner
    never panics.  When it folds, the instruction becomes a constant of the
    same type and span whose value is the one the instruction has in every
    execution: in particular an operation that traps is never folded.  When it
    declines, the owner is unchanged.  Either way the owner keeps its
    invariant and its executions, and every instruction its outcome. *)
Theorem fold_instruction_correct (source : nat -> option CfgValue) (cfg : Cfg) (v : CfgValue)
    (i : CfgInst) (Hok : cfg_ok cfg) (Hw : well_typed cfg) (Hi : get_inst cfg v = Some i) :
  exists cfg' folded, fold_instruction cfg v = Some (cfg', folded) /\
    cfg_ok cfg' /\ well_typed cfg' /\ equivalent source cfg cfg' /\
    (folded = false -> cfg' = cfg) /\
    (folded = true -> exists d r,
       get_inst cfg' v = Some {| data := d; ty := ty i; span := span i |} /\
       const_value d = Some r /\
       (forall u, u <> v -> get_inst cfg' u = get_inst cfg u) /\
       forall ρ, env_typed cfg ρ -> models source cfg ρ -> eval source cfg ρ i = Value r).
Proof.
  destruct (fold_instruction_spec cfg Hok Hw source v i Hi)
    as (cfg' & b & Hf & [Hok' _] & Hw' & Heq & Hb).
  exists cfg', b. split_and!; try done; intros ->; [done|].
  destruct Hb as (_ & d & r & Hwr & Hr & Hev). exists d, r.
  pose proof (fun u => get_inst_write _ _ _ _ u Hwr) as Hg. split_and!.
  - by rw Hg decide_True // Hi.
  - done.
  - intros u Hu. by rw Hg decide_False.
  - intros ρ Ht Hm. by apply Hev, models_literals.
Qed.

(** ** The kernel decides constant operands *)

Section Decides.
Context (source : nat -> option CfgValue) (cfg : Cfg) (ρ : env).
Context (Hm : literals_agree source cfg ρ) (Ht : env_typed cfg ρ).

(** The operand is an integer constant. *)
Definition const_operand (v : CfgValue) : Prop :=
  (exists w, get_const_int cfg v = Some (Some w)) /\ exists T, operand_is cfg v T /\ integral T.

Lemma binary_declines T (f : IntegerType -> Z -> Z -> option Z) a b op :
  integral T -> const_operand a -> const_operand b ->
  (forall t x y, integer_semantics T = Some t -> op x y = None -> f t (norm t x) (norm t y) = None) ->
  fold_binary_arith cfg a b op = Some None -> int2 ρ T f a b = Trap.
Proof.
  intros [t HT] [[x Hx] _] [[y Hy] _] Hop. rw /fold_binary_arith Hx Hy /try_bind /=.
  intros [= Hn%fmap_None].
  by rw /int2 HT (const_int_value _ _ _ Hm _ _ Hx) (const_int_value _ _ _ Hm _ _ Hy) /=
     (Hop _ _ _ HT Hn).
Qed.

Lemma checked_declines T t op x y : integer_semantics T = Some t ->
  (t ← integer_semantics T; checked_op op t x y) = None -> ref_checked t op (norm t x) (norm t y) = None.
Proof.
  intros HT. rw HT /= checked_op_image; [|by eapply integer_semantics_wf].
  by intros ?%fmap_None.
Qed.

Lemma or_else_None {A} (x y : option (option A)) : or_else x y = Some None -> x = Some None.
Proof. destruct x as [[]|]; naive_solver. Qed.

Lemma const_operand_not_float v i : const_operand v -> get_inst cfg v = Some i -> is_float (ty i) = false.
Proof.
  intros [_ (T & (j & Hj & <-)%operand_get & [t Hi])] Hv. simplify_eq.
  by eapply integer_semantics_not_float.
Qed.

Lemma equality_decides a b op eop : const_operand a -> const_operand b ->
  or_else (fold_comparison cfg a b op) (fold_enum_comparison cfg a b eop) <> Some None.
Proof.
  intros Ha Hb Hn%or_else_None. move: Hn.
  pose proof Ha as [[x Hx] (Ta & (i & Hi & _)%operand_get & _)].
  pose proof Hb as [[y Hy] (Tb & (j & Hj & _)%operand_get & _)].
  by rw /fold_comparison Hi Hj /= (const_operand_not_float _ _ Ha Hi)
    (const_operand_not_float _ _ Hb Hj) Hx Hy.
Qed.

Lemma ordered_decides a b op : const_operand a -> const_operand b ->
  (l ← get_inst cfg a; fold_comparison_ordered cfg a b (CfgData.ty l) op) <> Some None.
Proof.
  intros [[x Hx] (T & (i & Hi & <-)%operand_get & [t HT])] [[y Hy] _].
  by rw Hi /= /fold_comparison_ordered Hx Hy /try_bind /= HT.
Qed.

Lemma shift_decides a b T left : integral T -> const_operand a -> const_operand b ->
  fold_shift cfg a b T left <> Some None.
Proof.
  intros [t HT] [[x Hx] _] [[y Hy] _]. by rw /fold_shift Hx Hy /try_bind /= HT.
Qed.

Lemma int1_declines T f a op : integral T -> const_operand a ->
  (forall t x, integer_semantics T = Some t -> op x = None -> f t (norm t x) = None) ->
  fold_unary_arith cfg a op = Some None -> int1 ρ T f a = Trap.
Proof.
  intros [t HT] [[x Hx] _] Hop. rw /fold_unary_arith Hx /try_bind /=. intros [= Hn%fmap_None].
  by rw /int1 HT (const_int_value _ _ _ Hm _ _ Hx) /= (Hop _ _ HT Hn).
Qed.

Lemma operand_integral a T : operand_is cfg a T -> const_operand a -> integral T.
Proof.
  intros HT [_ (S & HS & Hi)]. rw /operand_is in HS, HT *. by simplify_eq.
Qed.

(** With constant integer operands, the kernel declines exactly the traps. *)
Lemma declined_traps i uses : inst_typed cfg i -> is_foldable (data i) = true ->
  data_uses cfg (data i) = Some uses -> Forall const_operand uses.*1 ->
  fold_data cfg (ty i) (data i) = Some None -> eval source cfg ρ i = Trap.
Proof.
  intros Hti Hfo Hu Hc. rw /eval.
  destruct (data i) eqn:Hd; try done; simpl in Hu; injection Hu as <-; simpl in Hc;
    repeat match goal with H : Forall _ (_ :: _) |- _ => apply Forall_cons in H as [? H] end;
    rw /inst_typed Hd in Hti *; simpl.
  - destruct Hti as (_ & Ha & _). apply binary_declines; [by apply (operand_integral _ _ Ha)|done..|].
    intros t x y HT. by apply (checked_declines _ t OpAdd).
  - destruct Hti as (_ & Ha & _). intros Hn%or_else_None. move: Hn.
    apply binary_declines; [by apply (operand_integral _ _ Ha)|done..|].
    intros t x y HT. by apply (checked_declines _ t OpSub).
  - destruct Hti as (_ & Ha & _). intros Hn%or_else_None. move: Hn.
    apply binary_declines; [by apply (operand_integral _ _ Ha)|done..|].
    intros t x y HT. by apply (checked_declines _ t OpMul).
  - destruct Hti as (_ & Ha & _). apply binary_declines; [by apply (operand_integral _ _ Ha)|done..|].
    intros t x y HT. by rw HT.
  - destruct Hti as (_ & Ha & _). intros Hn%or_else_None. move: Hn.
    apply binary_declines; [by apply (operand_integral _ _ Ha)|done..|].
    intros t x y HT. by rw HT.
  - destruct Hti as (_ & Ha & _). intros Hn%or_else_None. move: Hn.
    apply binary_declines; [by apply (operand_integral _ _ Ha)|done..|].
    intros t x y HT. by rw HT.
  - destruct Hti as (_ & Ha & _). apply binary_declines; [by apply (operand_integral _ _ Ha)|done..|].
    intros t x y HT. rw /checked_div. destruct (Z.eqb_spec y 0) as [->|].
    + intros _. by rw /ref_checked norm_0; [|by eapply integer_semantics_wf].
    + by apply (checked_declines _ t OpDiv).
  - destruct Hti as (_ & Ha & _). intros Hn%or_else_None. move: Hn.
    apply binary_declines; [by apply (operand_integral _ _ Ha)|done..|].
    intros t x y HT. rw /checked_mod. destruct (Z.eqb_spec y 0) as [->|].
    + intros _. by rw /ref_checked norm_0; [|by eapply integer_semantics_wf].
    + by apply (checked_declines _ t OpRem).
  - intros Hn. by apply equality_decides in Hn.
  - intros Hn. by apply equality_decides in Hn.
  - intros Hn. by apply ordered_decides in Hn.
  - intros Hn. by apply ordered_decides in Hn.
  - intros Hn. by apply ordered_decides in Hn.
  - intros Hn. by apply ordered_decides in Hn.
  - destruct Hti as (_ & Ha & _). intros Hn%or_else_None. move: Hn.
    apply binary_declines; [by apply (operand_integral _ _ Ha)|done..|]. done.
  - destruct Hti as (_ & Ha & _). apply binary_declines; [by apply (operand_integral _ _ Ha)|done..|]. done.
  - destruct Hti as (_ & Ha & _). intros Hn%or_else_None. move: Hn.
    apply binary_declines; [by apply (operand_integral _ _ Ha)|done..|]. done.
  - destruct Hti as (HT & _). intros Hn. by apply shift_decides in Hn.
  - destruct Hti as (HT & _). intros Hn. by apply shift_decides in Hn.
  - destruct Hti as [_ Ha]. apply int1_declines; [by apply (operand_integral _ _ Ha)|done|].
    intros t x HT. rw /checked_neg HT /= checked_neg_u64_spec; [|by eapply integer_semantics_wf].
    by destruct (decide _).
  - destruct Hti as [_ Ha]. destruct (operand_integral _ _ Ha ltac:(done)) as [t HT]. by vm_compute in HT.
  - destruct Hti as [_ Ha]. apply int1_declines; [by apply (operand_integral _ _ Ha)|done|].
    intros t x HT. by rw HT.
Qed.
End Decides.

(** On constant integer operands the kernel is a decision procedure: it
    folds exactly the operations that do not trap, to their value, and leaves
    exactly the trapping ones in place for the runtime panic. *)
Theorem fold_instruction_decides (source : nat -> option CfgValue) (cfg : Cfg) (ρ : env)
    (v : CfgValue) (i : CfgInst) (uses : list CfgValue)
    (Hok : cfg_ok cfg) (Hw : well_typed cfg) (Ht : env_typed cfg ρ) (Hm : models source cfg ρ)
    (Hi : get_inst cfg v = Some i) (Hfo : is_foldable_instruction cfg v = Some true)
    (Hu : visit_instruction_uses cfg v = Some uses) (Hc : Forall (const_operand cfg) uses) :
  exists cfg' folded, fold_instruction cfg v = Some (cfg', folded) /\
    match eval source cfg ρ i with
    | Value r => folded = true /\ exists i', get_inst cfg' v = Some i' /\ const_value (data i') = Some r
    | Trap => folded = false
    | Unknown => False
    end.
Proof.
  pose proof (Hw _ _ Hi) as Hti. apply models_literals in Hm.
  rewrite /is_foldable_instruction Hi /= in Hfo. injection Hfo as Hfo.
  rewrite /visit_instruction_uses /visit_instruction_uses_kinded Hi /= in Hu.
  destruct (data_uses cfg (data i)) as [ks|] eqn:Hks; [|done]. injection Hu as <-.
  rw /fold_instruction Hi /=.
  destruct (fold_data_total cfg Hok _ Hti) as [[d|] Hf]; rw Hf /=.
  - destruct (fold_data_sound source cfg ρ Hm Ht Hok Hw _ _ Hti Hf) as (r & Hr & ->).
    assert (exists cfg', write_inst_data cfg v d = Some cfg') as [cfg' Hwr].
    { rw /write_inst_data Hi /=. eauto. }
    exists cfg', true. rw Hwr /=. split; [done|]. split; [done|].
    eexists. split; [by rw (get_inst_write _ _ _ _ v Hwr) decide_True // Hi|done].
  - exists cfg, false. split; [done|].
    by rw (declined_traps source cfg ρ Hm i ks).
Qed.

Lemma fold_instruction_correct_witness :
  cfg_ok fold_cfg /\ well_typed fold_cfg /\
  exists cfg', fold_instruction fold_cfg 2 = Some (cfg', true) /\
    get_inst cfg' 2 = Some (mkInst (IConst 127) TI8 (span_new 0 0)).
Proof.
  split; [exact fold_cfg_ok|split; [exact fold_cfg_typed|]].
  destruct (fold_instruction_correct fold_source fold_cfg 2 (mkInst (IAdd 0 1) TI8 (span_new 0 0))
    fold_cfg_ok fold_cfg_typed ltac:(vm_compute; reflexivity)) as (cfg' & b & H & _ & _ & _ & _ & Hb).
  assert (b = true) as -> by (vm_compute in H; congruence).
  exists cfg'. split; [exact H|].
  destruct (Hb eq_refl) as (d & r & -> & Hr & _ & Hev).
  specialize (Hev fold_env fold_env_typed fold_env_models). vm_compute in Hev.
  injection Hev as <-. destruct d; try discriminate Hr. injection Hr as ->. reflexivity.
Defined.

Lemma fold_instruction_decides_witness :
  eval fold_source fold_cfg fold_env (mkInst (IAdd 0 1) TI8 (span_new 0 0)) = Value (RInt 127) /\
  exists cfg', fold_instruction fold_cfg 2 = Some (cfg', true).
Proof.
  split; [vm_compute; reflexivity|].
  destruct (fold_instruction_decides fold_source fold_cfg fold_env 2
    (mkInst (IAdd 0 1) TI8 (span_new 0 0)) [0%nat; 1%nat]
    fold_cfg_ok fold_cfg_typed fold_env_typed fold_env_models) as (cfg' & b & H & Hb);
    try (vm_compute; reflexivity).
  - repeat constructor; try (eexists; vm_compute; reflexivity);
      exists TI8; split; [vm_compute; reflexivity|eexists; vm_compute; reflexivity| |];
      [vm_compute; reflexivity|eexists; vm_compute; reflexivity].
  - assert (b = true) as -> by (vm_compute in H; congruence). exists cfg'. exact H.
Defined.
