(* ===== verification/SlotFacts.v ===== *)
(** * Slot write and escape classification

    [crates/rue-cfg/src/opt/slot_facts.rs]: which local slots have a single
    whole-slot write, which parameter slots are never written, and which slots
    a loop leaves alone.  [None] is a panic. *)

From S2P Require Import Prelude IntegerSemantics Types Payload CfgData CfgEdit Classify Worklist Dce Eval.
Import Machine.

(** ** Local slots *)

Inductive SlotWrites :=
| SwNone
| SwOne (value : CfgValue) (block : BlockId)
| SwDisqualified.

#[export] Instance SlotWrites_eq_dec : EqDecision SlotWrites.
Proof. solve_decision. Defined.

Definition record_state (state : SlotWrites) (write : option (CfgValue * BlockId)) : SlotWrites :=
  match state, write with
  | SwNone, Some (value, block) => SwOne value block
  | _, _ => SwDisqualified
  end.
(** Out-of-range slots are skipped. *)
Definition record_write (slot_writes : list SlotWrites) (slot : nat)
    (write : option (CfgValue * BlockId)) : list SlotWrites :=
  alter (fun state => record_state state write) slot slot_writes.

(** [slice.fill(x)]. *)
Definition fill {A} (x : A) (l : list A) : list A := (fun _ => x) <$> l.

Definition record_arg (cfg : Cfg) (sw : list SlotWrites) (arg : CfgCallArg) : option (list SlotWrites) :=
  if negb (is_by_ref arg) then Some sw else
  i ← get_inst cfg (arg_value arg);
  Some match data i with
  | ILoad slot => record_write sw slot None
  | IPlaceRead place =>
      match base place with
      | Local slot => record_write sw slot None
      | Param _ => sw
      | Accessor _ | Indirect _ => fill SwDisqualified sw
      end
  | IParam _ => sw
  | _ => fill SwDisqualified sw
  end.

Definition record_inst (cfg : Cfg) (block : BlockId) (sw : list SlotWrites) (value : CfgValue)
    : option (list SlotWrites) :=
  i ← get_inst cfg value;
  match data i with
  | IAlloc slot init | IStore slot init => Some (record_write sw slot (Some (init, block)))
  | IPlaceWrite place _ =>
      Some match base place with Local slot => record_write sw slot None | _ => sw end
  | ICall _ _ args | IAccessorCall _ args | ICallIndirect _ args =>
      l ← call_args_of cfg args; fold_opt (record_arg cfg) sw l
  | _ => Some sw
  end.

Definition scanned (reachable : option BitSet) (b : BasicBlock) : bool :=
  match reachable with Some set => bitset_contains set (block_id b) | None => true end.

Definition classify_slot_writes (cfg : Cfg) (reachable : option BitSet) : option (list SlotWrites) :=
  let num_locals := Z.to_nat (num_locals cfg) in
  let slot_writes := (fun slot => if is_address_taken cfg slot then SwDisqualified else SwNone)
                       <$> seq 0 num_locals in
  fold_opt (fun sw b =>
      if negb (scanned reachable b) then Some sw
      else fold_opt (record_inst cfg (block_id b)) sw (insts b))
    slot_writes (blocks cfg).

(** ** Parameter slots *)

Definition mark_written (never_written : list bool) (slot : nat) : list bool :=
  <[slot := false]> never_written.

Definition param_arg (cfg : Cfg) (nw : list bool) (arg : CfgCallArg) : option (list bool) :=
  if negb (is_by_ref arg) then Some nw else
  i ← get_inst cfg (arg_value arg);
  Some match data i with
  | IParam index => mark_written nw index
  | IPlaceRead place =>
      match base place with
      | Param slot => mark_written nw slot
      | Local _ => nw
      | Accessor _ | Indirect _ => fill false nw
      end
  | ILoad _ => nw
  | _ => fill false nw
  end.

Definition param_inst (cfg : Cfg) (nw : list bool) (value : CfgValue) : option (list bool) :=
  i ← get_inst cfg value;
  match data i with
  | IParamStore param_slot _ => Some (mark_written nw param_slot)
  | IPlaceWrite place _ =>
      Some match base place with Param slot => mark_written nw slot | _ => nw end
  | ICall _ _ args | IAccessorCall _ args | ICallIndirect _ args =>
      l ← call_args_of cfg args; fold_opt (param_arg cfg) nw l
  | _ => Some nw
  end.

Definition classify_never_written_params (cfg : Cfg) : option (list bool) :=
  let num_params := Z.to_nat (num_params cfg) in
  let never_written := (fun slot => negb (is_param_writable cfg slot) && negb (is_param_address_taken cfg slot))
                         <$> seq 0 num_params in
  fold_opt (fun nw b => fold_opt (param_inst cfg) nw (insts b)) never_written (blocks cfg).

(** ** Loops

    The tables of stamps are reused from one loop to the next; a slot is
    written in the current loop when its stamp is the current generation. *)

Record LoopWorkspace := mkWorkspace {
  local_generation : list Z;
  param_generation : list Z;
  generation : Z;
}.
Record LoopWork := mkLoopWork {
  instructions_scanned : Z; entries_initialized : Z; workspace_growths : Z }.
Record LoopSlotFacts := mkFacts { facts : LoopWorkspace; unknown_memory_target : bool }.

Definition workspace_default : LoopWorkspace := mkWorkspace [] [] 0.

Definition resize {A} (n : nat) (x : A) (l : list A) : list A := l ++ replicate (n - length l) x.

Definition mark (l : list Z) (slot : nat) (generation : Z) : list Z := <[slot := generation]> l.

Definition mark_local (g : Z) (slot : nat) (f : LoopSlotFacts) : LoopSlotFacts :=
  let w := facts f in
  mkFacts (mkWorkspace (mark (local_generation w) slot g) (param_generation w) (generation w))
    (unknown_memory_target f).
Definition mark_param (g : Z) (slot : nat) (f : LoopSlotFacts) : LoopSlotFacts :=
  let w := facts f in
  mkFacts (mkWorkspace (local_generation w) (mark (param_generation w) slot g) (generation w))
    (unknown_memory_target f).
Definition set_unknown (f : LoopSlotFacts) : LoopSlotFacts := mkFacts (facts f) true.

Definition mark_place (g : Z) (b : PlaceBase) (f : LoopSlotFacts) : LoopSlotFacts :=
  match b with
  | Local slot => mark_local g slot f
  | Param slot => mark_param g slot f
  | Accessor _ | Indirect _ => f
  end.

Definition loop_arg (cfg : Cfg) (g : Z) (f : LoopSlotFacts) (arg : CfgCallArg) : option LoopSlotFacts :=
  if negb (is_by_ref arg) then Some f else
  i ← get_inst cfg (arg_value arg);
  Some match data i with
  | ILoad slot => mark_local g slot f
  | IParam index => mark_param g index f
  | IPlaceRead place => mark_place g (base place) f
  | _ => f
  end.

Definition loop_inst (cfg : Cfg) (g : Z) (f : LoopSlotFacts) (value : CfgValue) : option LoopSlotFacts :=
  i ← get_inst cfg value;
  match data i with
  | IAlloc slot _ | IStore slot _ => Some (mark_local g slot f)
  | IParamStore param_slot _ => Some (mark_param g param_slot f)
  | IPlaceWrite place _ =>
      Some match base place with
      | Accessor _ | Indirect _ => set_unknown f
      | b => mark_place g b f
      end
  | ICall _ _ args | IAccessorCall _ args | ICallIndirect _ args =>
      l ← call_args_of cfg args; f' ← fold_opt (loop_arg cfg g) f l; Some (set_unknown f')
  | IIntrinsic _ _ _ | IDrop _ => Some (set_unknown f)
  | _ => Some f
  end.

Definition loop_block (cfg : Cfg) (reachable : BitSet) (g : Z) (st : LoopSlotFacts * Z) (block : BlockId)
    : option (LoopSlotFacts * Z) :=
  if negb (bitset_contains reachable block) then Some st else
  b ← get_block cfg block;
  fold_opt (fun '(f, n) value => f' ← loop_inst cfg g f value; Some (f', (n + 1)%Z)) st (insts b).

(** Growing the tables and taking a fresh generation. *)
Definition loop_start (cfg : Cfg) (w : LoopWorkspace) : LoopWorkspace * LoopWork :=
  let local_count := Z.to_nat (num_locals cfg) in
  let param_count := Z.to_nat (num_params cfg) in
  let short_l := (length (local_generation w) <? local_count)%nat in
  let short_p := (length (param_generation w) <? param_count)%nat in
  let lg := if short_l then resize local_count 0%Z (local_generation w) else local_generation w in
  let pg := if short_p then resize param_count 0%Z (param_generation w) else param_generation w in
  let entries :=
    ((if short_l then Z.of_nat (local_count - length (local_generation w)) else 0) +
     (if short_p then Z.of_nat (param_count - length (param_generation w)) else 0))%Z in
  let growths := (if short_l || short_p then 1 else 0)%Z in
  match checked_u 64 (generation w + 1) with
  | Some g => (mkWorkspace lg pg g, mkLoopWork 0 entries growths)
  | None => (mkWorkspace (fill 0%Z lg) (fill 0%Z pg) 1,
             mkLoopWork 0 (entries + Z.of_nat (length lg + length pg)) growths)
  end.

Definition classify_loop_slot_invariance (cfg : Cfg) (body : list BlockId) (reachable : BitSet)
    (w : LoopWorkspace) : option (LoopSlotFacts * LoopWork) :=
  let '(w1, work) := loop_start cfg w in
  '(f, n) ← fold_opt (loop_block cfg reachable (generation w1)) (mkFacts w1 false, 0%Z) body;
  Some (f, mkLoopWork n (entries_initialized work) (workspace_growths work)).

Definition local_is_invariant (cfg : Cfg) (f : LoopSlotFacts) (slot : nat) : bool :=
  negb (unknown_memory_target f) && negb (is_address_taken cfg slot) &&
  match local_generation (facts f) !! slot with
  | Some g => negb (g =? generation (facts f))%Z
  | None => false
  end.
Definition param_is_invariant (cfg : Cfg) (f : LoopSlotFacts) (slot : nat) : bool :=
  negb (unknown_memory_target f) && negb (is_param_address_taken cfg slot) &&
  match param_generation (facts f) !! slot with
  | Some g => negb (g =? generation (facts f))%Z
  | None => false
  end.

(** ** What the scans see

    The write events of an instruction, in order: a write to a local slot
    (with the value and block of a whole-slot write), to a parameter slot, or
    to a slot the scan cannot name. *)

Inductive event :=
| WriteLocal (slot : nat) (init : option (CfgValue * BlockId))
| WriteParam (slot : nat)
| WriteAny.

Definition base_events (b : PlaceBase) : list event :=
  match b with
  | Local slot => [WriteLocal slot None]
  | Param slot => [WriteParam slot]
  | Accessor _ | Indirect _ => []
  end.

(** A by-reference argument hands over the address of its root. *)
Definition arg_events (cfg : Cfg) (arg : CfgCallArg) : option (list event) :=
  if negb (is_by_ref arg) then Some [] else
  i ← get_inst cfg (arg_value arg);
  Some match data i with
  | ILoad slot => [WriteLocal slot None]
  | IParam index => [WriteParam index]
  | IPlaceRead place =>
      match base place with Accessor _ | Indirect _ => [WriteAny] | b => base_events b end
  | _ => [WriteAny]
  end.

Definition inst_events (cfg : Cfg) (block : BlockId) (value : CfgValue) : option (list event) :=
  i ← get_inst cfg value;
  match data i with
  | IAlloc slot init | IStore slot init => Some [WriteLocal slot (Some (init, block))]
  | IParamStore slot _ => Some [WriteParam slot]
  | IPlaceWrite place _ => Some (base_events (base place))
  | ICall _ _ args | IAccessorCall _ args | ICallIndirect _ args =>
      l ← call_args_of cfg args; flat_opt (arg_events cfg) l
  | _ => Some []
  end.

Definition cfg_events (cfg : Cfg) (reachable : option BitSet) : option (list event) :=
  flat_opt (fun b => if negb (scanned reachable b) then Some []
                     else flat_opt (inst_events cfg (block_id b)) (insts b)) (blocks cfg).

Definition touches_local (slot : nat) (e : event) : bool :=
  match e with WriteLocal s _ => (s =? slot) | WriteParam _ => false | WriteAny => true end.
Definition touches_param (slot : nat) (e : event) : bool :=
  match e with WriteLocal _ _ => false | WriteParam s => (s =? slot) | WriteAny => true end.

(** The class of a local slot: [SwOne] when exactly one event can touch it and
    that event is a whole-slot write. *)
Definition slot_class (slot : nat) (events : list event) : SlotWrites :=
  match filter (touches_local slot) events with
  | [] => SwNone
  | [WriteLocal _ (Some (value, block))] => SwOne value block
  | _ => SwDisqualified
  end.

Definition apply_local (sw : list SlotWrites) (e : event) : list SlotWrites :=
  match e with
  | WriteLocal slot w => record_write sw slot w
  | WriteParam _ => sw
  | WriteAny => fill SwDisqualified sw
  end.
Definition apply_param (nw : list bool) (e : event) : list bool :=
  match e with
  | WriteLocal _ _ => nw
  | WriteParam slot => mark_written nw slot
  | WriteAny => fill false nw
  end.

Section Scan.
Context (cfg : Cfg).

Lemma record_arg_events sw arg :
  record_arg cfg sw arg = (es ← arg_events cfg arg; Some (fold_left apply_local es sw)).
Proof.
  rw /record_arg /arg_events. destruct (negb (is_by_ref arg)); [done|].
  destruct (get_inst cfg (arg_value arg)) as [i|]; [|done]. simpl.
  destruct (data i); try done. by destruct (base place).
Qed.

Lemma record_inst_events block sw v :
  record_inst cfg block sw v = (es ← inst_events cfg block v; Some (fold_left apply_local es sw)).
Proof.
  rw /record_inst /inst_events. destruct (get_inst cfg v) as [i|]; [|done]. simpl.
  destruct (data i); try done; try (destruct (call_args_of cfg args); [|done]; simpl;
    apply fold_opt_events, record_arg_events).
  by destruct (base place).
Qed.

Lemma param_arg_events nw arg :
  param_arg cfg nw arg = (es ← arg_events cfg arg; Some (fold_left apply_param es nw)).
Proof.
  rw /param_arg /arg_events. destruct (negb (is_by_ref arg)); [done|].
  destruct (get_inst cfg (arg_value arg)) as [i|]; [|done]. simpl.
  destruct (data i); try done. by destruct (base place).
Qed.

Lemma param_inst_events block nw v :
  param_inst cfg nw v = (es ← inst_events cfg block v; Some (fold_left apply_param es nw)).
Proof.
  rw /param_inst /inst_events. destruct (get_inst cfg v) as [i|]; [|done]. simpl.
  destruct (data i); try done; try (destruct (call_args_of cfg args); [|done]; simpl;
    apply fold_opt_events, param_arg_events).
  by destruct (base place).
Qed.

Lemma scan_events reachable sw :
  fold_opt (fun sw b => if negb (scanned reachable b) then Some sw
                        else fold_opt (record_inst cfg (block_id b)) sw (insts b)) sw (blocks cfg) =
  (es ← cfg_events cfg reachable; Some (fold_left apply_local es sw)).
Proof.
  apply fold_opt_events. intros s b. destruct (negb (scanned reachable b)); [done|].
  apply fold_opt_events, record_inst_events.
Qed.

Lemma params_events nw :
  fold_opt (fun nw b => fold_opt (param_inst cfg) nw (insts b)) nw (blocks cfg) =
  (es ← cfg_events cfg None; Some (fold_left apply_param es nw)).
Proof.
  apply fold_opt_events. intros s b. simpl.
  apply fold_opt_events, param_inst_events.
Qed.
End Scan.

(** ** One slot at a time *)

Lemma fill_lookup {A} (x : A) l s : fill x l !! s = (fun _ => x) <$> l !! s.
Proof. by rw /fill list_lookup_fmap. Qed.

Definition slot_step (slot : nat) (state : SlotWrites) (e : event) : SlotWrites :=
  match e with
  | WriteLocal s w => if s =? slot then record_state state w else state
  | WriteParam _ => state
  | WriteAny => SwDisqualified
  end.

Lemma apply_local_lookup slot es sw :
  fold_left apply_local es sw !! slot = (fun st => fold_left (slot_step slot) es st) <$> sw !! slot.
Proof.
  revert sw. induction es as [|e es IH]; intros sw; simpl; [by destruct (sw !! slot)|].
  rw IH. destruct e as [s w|s|]; simpl; [|done|].
  - rw /record_write. destruct (Nat.eqb_spec s slot) as [->|].
    + rw list_lookup_alter_eq. by destruct (sw !! slot).
    + by rw list_lookup_alter_ne.
  - rw fill_lookup. by destruct (sw !! slot).
Qed.

Lemma slot_step_disqualified slot es : fold_left (slot_step slot) es SwDisqualified = SwDisqualified.
Proof.
  induction es as [|[s w|s|] es IH]; simpl; try done. by destruct (s =? slot).
Qed.

Lemma slot_step_miss slot st e : ~ touches_local slot e -> slot_step slot st e = st.
Proof. destruct e as [s w|s|]; simpl; [|done|naive_solver]. destruct (s =? slot); naive_solver. Qed.

Lemma slot_step_untouched slot es st : filter (touches_local slot) es = [] ->
  fold_left (slot_step slot) es st = st.
Proof.
  revert st. induction es as [|e es IH]; intros st; simpl; [done|].
  rw filter_cons. case_decide as Ht; [done|]. rw slot_step_miss //. apply IH.
Qed.

Lemma slot_step_one slot es v b :
  fold_left (slot_step slot) es (SwOne v b) =
  match filter (touches_local slot) es with [] => SwOne v b | _ => SwDisqualified end.
Proof.
  induction es as [|e es IH]; simpl; [done|]. rw filter_cons. case_decide as Ht.
  - assert (slot_step slot (SwOne v b) e = SwDisqualified) as ->; [|apply slot_step_disqualified].
    destruct e as [s w|s|]; simpl in *; [|done|done]. by destruct (s =? slot).
  - by rw slot_step_miss.
Qed.

Lemma slot_step_class slot es : fold_left (slot_step slot) es SwNone = slot_class slot es.
Proof.
  induction es as [|e es IH]; simpl; [done|]. rw /slot_class filter_cons. case_decide as Ht.
  - destruct e as [s [[v b]|]|s|]; simpl in Ht |- *; try done.
    + destruct (s =? slot); [|done]. simpl. rw slot_step_one. by repeat case_match.
    + destruct (s =? slot); [|done]. simpl. rw slot_step_disqualified.
      by repeat case_match.
    + rw slot_step_disqualified. by repeat case_match.
  - by rw slot_step_miss.
Qed.

Lemma apply_param_lookup slot es nw :
  fold_left apply_param es nw !! slot =
  (fun b => b && negb (existsb (touches_param slot) es)) <$> nw !! slot.
Proof.
  revert nw. induction es as [|e es IH]; intros nw; simpl.
  - destruct (nw !! slot) as [b|]; simpl; [|done]. by rw andb_true_r.
  - rw IH. destruct e as [s w|s|]; simpl; [done| |].
    + rw /mark_written. destruct (Nat.eqb_spec s slot) as [->|].
      * destruct (nw !! slot) as [b|] eqn:Hb; simpl.
        -- rw list_lookup_insert_eq; [by rw andb_false_r|by eapply lookup_lt_Some].
        -- apply lookup_ge_None in Hb. rw (lookup_ge_None_2 (<[_ := _]> nw)) // length_insert. lia.
      * by rw list_lookup_insert_ne.
    + rw fill_lookup. destruct (nw !! slot); simpl; [|done]. by rw andb_false_r.
Qed.

Lemma apply_local_length es sw : length (fold_left apply_local es sw) = length sw.
Proof.
  revert sw. induction es as [|[s w|s|] es IH]; intros sw; simpl; try done; rw IH.
  - apply length_alter.
  - apply length_fmap.
Qed.

Lemma apply_param_length es nw : length (fold_left apply_param es nw) = length nw.
Proof.
  revert nw. induction es as [|[s w|s|] es IH]; intros nw; simpl; try done; rw IH.
  - apply length_insert.
  - apply length_fmap.
Qed.

(** ** The scans are total *)

Section Total.
Context (cfg : Cfg) (Hok : cfg_ok cfg) (Hrefs : refs_ok cfg).

Lemma arg_events_total arg : arg_value arg < value_count cfg -> is_Some (arg_events cfg arg).
Proof.
  intros Hv. rw /arg_events. destruct (negb (is_by_ref arg)); [done|].
  destruct (lookup_lt_is_Some_2 _ _ Hv) as [i Hi]. rw /get_inst Hi /=. by eexists.
Qed.

Lemma call_args_total r : range_ok (call_args cfg) r -> exists l, call_args_of cfg r = Some l.
Proof. intros Hr. rw /call_args_of (range_ok_view _ _ Hr). eauto. Qed.

Lemma args_in_uses v i us l a :
  get_inst cfg v = Some i -> visit_instruction_uses cfg v = Some us ->
  match data i with
  | ICall _ _ args | IAccessorCall _ args | ICallIndirect _ args => call_args_of cfg args = Some l
  | _ => False
  end -> a ∈ l -> arg_value a ∈ us.
Proof.
  intros Hi. rw /visit_instruction_uses /visit_instruction_uses_kinded Hi /=.
  assert (a ∈ l -> (arg_value a) ∈ (arg_use <$> l).*1) as Hin.
  { intros Ha. rw -list_fmap_compose. by apply (list_elem_of_fmap_2 (fst ∘ arg_use)). }
  destruct (data i); try done; simpl; intros Hus Hl Ha; rw Hl /= in Hus *; simplify_eq.
  - by apply Hin.
  - by apply Hin.
  - rw /=. apply list_elem_of_further. by apply Hin.
Qed.

Lemma inst_events_total block v : v < value_count cfg -> is_Some (inst_events cfg block v).
Proof.
  intros Hv. destruct (lookup_lt_is_Some_2 _ _ Hv) as [i Hi].
  destruct (uses_total cfg Hok v Hv) as [us Hus].
  pose proof (refs_insts _ Hrefs _ _ Hv Hus) as Hr. rw Forall_forall in Hr *.
  pose proof (ok_insts _ Hok _ _ Hi) as Hio.
  pose proof (args_in_uses v i us) as Hin. rw /inst_events /get_inst Hi /=.
  rw /get_inst Hi in Hin *.
  destruct (data i); try by eexists.
  all: destruct (call_args_total _ Hio) as [l Hl]; rw Hl /=; apply flat_opt_total, Forall_forall;
    intros a Ha; apply arg_events_total, Hr; by eapply Hin.
Qed.

Lemma cfg_events_total reachable : exists es, cfg_events cfg reachable = Some es.
Proof.
  apply flat_opt_total, Forall_forall. intros b [i Hb]%list_elem_of_lookup.
  destruct (negb (scanned reachable b)); [by eexists|].
  destruct (flat_opt_total (inst_events cfg (block_id b)) (insts b)) as [es ->]; [|by eexists].
  apply Forall_forall. intros v Hv. apply inst_events_total.
  by pose proof (proj1 (Forall_forall _ _) (block_ok_insts _ _ _ (ok_blocks _ Hok _ _ Hb)) v Hv).
Qed.
End Total.

Lemma slot_writes_exact_spec (cfg : Cfg) (reachable : option BitSet)
    (Hok : cfg_ok cfg) (Hrefs : refs_ok cfg) :
  exists sw es, classify_slot_writes cfg reachable = Some sw /\ cfg_events cfg reachable = Some es /\
    length sw = Z.to_nat (num_locals cfg) /\
    forall slot, slot < Z.to_nat (num_locals cfg) ->
      sw !! slot = Some (if is_address_taken cfg slot then SwDisqualified else slot_class slot es).
Proof.
  destruct (cfg_events_total cfg Hok Hrefs reachable) as [es Hes].
  rw /classify_slot_writes scan_events Hes /=. do 2 eexists. split; [done|split; [done|]].
  split; [by rw apply_local_length length_fmap length_seq|].
  intros slot Hs. rw apply_local_lookup list_lookup_fmap lookup_seq_lt //=.
  destruct (is_address_taken cfg slot); [by rw slot_step_disqualified|by rw slot_step_class].
Qed.

(** C36.  [classify_slot_writes] computes the class of every local slot from
    the write events of the scanned blocks: an address-taken slot is
    disqualified; another slot is unwritten when no event can touch it, has a
    single write when exactly one event can and that event is a whole-slot
    write, and is disqualified otherwise (several writes, a projected write, a
    by-reference argument rooted at it or at a place the scan cannot name). *)
Theorem slot_writes_exact (cfg : Cfg) (reachable : option BitSet)
    (Hok : cfg_ok cfg) (Hrefs : refs_ok cfg) :
  exists sw es, classify_slot_writes cfg reachable = Some sw /\ cfg_events cfg reachable = Some es /\
    length sw = Z.to_nat (num_locals cfg) /\
    forall slot, slot < Z.to_nat (num_locals cfg) ->
      sw !! slot = Some (if is_address_taken cfg slot then SwDisqualified else slot_class slot es).
Proof. by apply slot_writes_exact_spec. Qed.

(**  A parameter slot counts as never written exactly when the body may
    not assign it, its address is not taken, and no write event of any block
    can touch it. *)
Theorem never_written_exact (cfg : Cfg) (Hok : cfg_ok cfg) (Hrefs : refs_ok cfg) :
  exists nw es, classify_never_written_params cfg = Some nw /\ cfg_events cfg None = Some es /\
    length nw = Z.to_nat (num_params cfg) /\
    forall slot, slot < Z.to_nat (num_params cfg) ->
      nw !! slot = Some (negb (is_param_writable cfg slot) && negb (is_param_address_taken cfg slot)
                         && negb (existsb (touches_param slot) es)).
Proof.
  destruct (cfg_events_total cfg Hok Hrefs None) as [es Hes].
  rw /classify_never_written_params params_events Hes /=.
  do 2 eexists. split; [done|split; [done|]].
  split; [by rw apply_param_length length_fmap length_seq|].
  intros slot Hs. by rw apply_param_lookup list_lookup_fmap lookup_seq_lt.
Qed.

(** ** Loops *)

(** An instruction whose memory target the loop scan cannot bound. *)
Definition is_opaque (d : CfgInstData) : bool :=
  match d with
  | ICall _ _ _ | IAccessorCall _ _ | ICallIndirect _ _ | IIntrinsic _ _ _ | IDrop _ => true
  | IPlaceWrite place _ => match base place with Accessor _ | Indirect _ => true | _ => false end
  | _ => false
  end.

(** What scanning one attached instruction does: its direct writes, then the
    barrier, then one unit of work. *)
Inductive loop_event := LoopWrite (e : event) | LoopOpaque | LoopTick.

Definition loop_events (cfg : Cfg) (value : CfgValue) : option (list loop_event) :=
  i ← get_inst cfg value;
  es ← inst_events cfg 0 value;
  Some (map LoopWrite es ++ (if is_opaque (data i) then [LoopOpaque] else []) ++ [LoopTick]).

Definition body_events (cfg : Cfg) (reachable : BitSet) (body : list BlockId) : option (list loop_event) :=
  flat_opt (fun block => if negb (bitset_contains reachable block) then Some []
                         else b ← get_block cfg block; flat_opt (loop_events cfg) (insts b)) body.

Definition apply_write (g : Z) (f : LoopSlotFacts) (e : event) : LoopSlotFacts :=
  match e with
  | WriteLocal slot _ => mark_local g slot f
  | WriteParam slot => mark_param g slot f
  | WriteAny => f
  end.
Definition apply_loop (g : Z) (st : LoopSlotFacts * Z) (e : loop_event) : LoopSlotFacts * Z :=
  match e with
  | LoopWrite e => (apply_write g st.1 e, st.2)
  | LoopOpaque => (set_unknown st.1, st.2)
  | LoopTick => (st.1, (st.2 + 1)%Z)
  end.

Lemma apply_loop_writes g es f n :
  fold_left (apply_loop g) (map LoopWrite es) (f, n) = (fold_left (apply_write g) es f, n).
Proof. revert f. induction es as [|e es IH]; intros f; simpl; [done|]. by rw IH. Qed.

Lemma loop_arg_events cfg g f arg :
  loop_arg cfg g f arg = (es ← arg_events cfg arg; Some (fold_left (apply_write g) es f)).
Proof.
  rw /loop_arg /arg_events. destruct (negb (is_by_ref arg)); [done|].
  destruct (get_inst cfg (arg_value arg)) as [i|]; [|done]. simpl.
  destruct (data i); try done. by destruct (base place).
Qed.

Lemma loop_inst_events cfg g f n v :
  (f' ← loop_inst cfg g f v; Some (f', (n + 1)%Z)) =
  (es ← loop_events cfg v; Some (fold_left (apply_loop g) es (f, n))).
Proof.
  rw /loop_inst /loop_events /inst_events. destruct (get_inst cfg v) as [i|]; [|done]. simpl.
  destruct (data i) eqn:Hd; try done;
    try (destruct (call_args_of cfg args) as [l|]; [|done]; simpl;
         rw (fold_opt_events _ _ _ (loop_arg_events cfg g)); destruct (flat_opt _ _) as [es|]; [|done];
         simpl; rw fold_left_app apply_loop_writes //=).
  simpl. by destruct (base place).
Qed.

Lemma loop_block_events cfg reachable g st block :
  loop_block cfg reachable g st block =
  (es ← (if negb (bitset_contains reachable block) then Some []
         else b ← get_block cfg block; flat_opt (loop_events cfg) (insts b));
   Some (fold_left (apply_loop g) es st)).
Proof.
  rw /loop_block. destruct (negb (bitset_contains reachable block)); [by destruct st|].
  destruct (get_block cfg block) as [b|]; [|done]. simpl.
  apply (fold_opt_events _ (loop_events cfg)). intros [f n] v. apply loop_inst_events.
Qed.

Definition marks_local (slot : nat) (e : loop_event) : bool :=
  match e with LoopWrite (WriteLocal s _) => s =? slot | _ => false end.
Definition marks_param (slot : nat) (e : loop_event) : bool :=
  match e with LoopWrite (WriteParam s) => s =? slot | _ => false end.
Definition is_loop_opaque (e : loop_event) : bool := match e with LoopOpaque => true | _ => false end.
Definition is_tick (e : loop_event) : bool := match e with LoopTick => true | _ => false end.

Lemma mark_lookup l s slot g :
  mark l s g !! slot = (fun x => if s =? slot then g else x) <$> l !! slot.
Proof.
  rw /mark. destruct (Nat.eqb_spec s slot) as [->|].
  - destruct (l !! slot) as [x|] eqn:Hx; simpl.
    + rw list_lookup_insert_eq; [done|by eapply lookup_lt_Some].
    + apply lookup_ge_None in Hx. apply lookup_ge_None_2. by rw length_insert.
  - rw list_lookup_insert_ne //. by destruct (l !! slot).
Qed.

Lemma stamp_twice (b c : bool) (g : Z) (o : option Z) :
  (fun x => if b then g else x) <$> ((fun x => if c then g else x) <$> o) =
  (fun x => if c || b then g else x) <$> o.
Proof. destruct o as [x|], b, c; done. Qed.

(** What a run over the events leaves in the facts. *)
Lemma apply_loop_result g es f n :
  let '(f', n') := fold_left (apply_loop g) es (f, n) in
  generation (facts f') = generation (facts f) /\
  unknown_memory_target f' = unknown_memory_target f || existsb is_loop_opaque es /\
  n' = (n + Z.of_nat (length (List.filter is_tick es)))%Z /\
  (forall slot, local_generation (facts f') !! slot =
     (fun x => if existsb (marks_local slot) es then g else x) <$> local_generation (facts f) !! slot) /\
  (forall slot, param_generation (facts f') !! slot =
     (fun x => if existsb (marks_param slot) es then g else x) <$> param_generation (facts f) !! slot).
Proof.
  revert f n. induction es as [|e es IH]; intros f n; simpl.
  { rw orb_false_r. split_and!; try done; [lia| |]; intros slot.
    - by destruct (local_generation (facts f) !! slot).
    - by destruct (param_generation (facts f) !! slot). }
  specialize (IH (apply_loop g (f, n) e).1 (apply_loop g (f, n) e).2).
  rw -surjective_pairing in IH *.
  destruct (fold_left (apply_loop g) es (apply_loop g (f, n) e)) as [f' n'].
  destruct IH as (-> & -> & -> & Hl & Hp).
  destruct e as [[s w|s|]| |]; simpl in Hl, Hp |- *; split_and!;
    try done; try (rw ?orb_assoc ?orb_false_r //; lia); intros slot;
    rw ?Hl ?Hp ?mark_lookup // stamp_twice //.
Qed.

(** The tables never hold a stamp from the future. *)
Record workspace_ok (w : LoopWorkspace) : Prop := {
  workspace_generation : (0 <= generation w <= u64_max)%Z;
  workspace_locals : Forall (fun x => (0 <= x <= generation w)%Z) (local_generation w);
  workspace_params : Forall (fun x => (0 <= x <= generation w)%Z) (param_generation w);
}.

(** Every loop starts with big enough tables and no current stamp, also when
    the generation counter wraps. *)
Lemma loop_start_ok cfg w : workspace_ok w ->
  let '(w1, _) := loop_start cfg w in
  (1 <= generation w1 <= u64_max)%Z /\
  Forall (fun x => (0 <= x < generation w1)%Z) (local_generation w1) /\
  Forall (fun x => (0 <= x < generation w1)%Z) (param_generation w1) /\
  Z.to_nat (num_locals cfg) <= length (local_generation w1) /\
  Z.to_nat (num_params cfg) <= length (param_generation w1).
Proof.
  intros [Hg Hl Hp]. rw /loop_start.
  set (lg := if _ <? _ then resize (Z.to_nat (num_locals cfg)) _ _ else _).
  set (pg := if _ <? _ then resize (Z.to_nat (num_params cfg)) _ _ else _).
  assert (forall n l, Forall (fun x => (0 <= x <= generation w)%Z) l ->
    let l' := if (length l <? n) then resize n 0%Z l else l in
    Forall (fun x => (0 <= x <= generation w)%Z) l' /\ n <= length l') as Hres.
  { intros n l Hf. simpl. destruct (Nat.ltb_spec (length l) n); [|done]. rw /resize. split.
    - apply Forall_app; split; [done|]. apply Forall_replicate. lia.
    - rw length_app length_replicate. lia. }
  destruct (Hres (Z.to_nat (num_locals cfg)) _ Hl) as [Hl' Hll].
  destruct (Hres (Z.to_nat (num_params cfg)) _ Hp) as [Hp' Hpl].
  fold lg in Hl', Hll. fold pg in Hp', Hpl. clearbody lg pg. rw /checked_u.
  destruct (in_ub 64 (generation w + 1)) eqn:Hu; simpl.
  - apply in_ub_spec in Hu. rw /in_u in Hu *. rw /u64_max. split_and!; try lia.
    + eapply Forall_impl; [exact Hl'|]. simpl. lia.
    + eapply Forall_impl; [exact Hp'|]. simpl. lia.
  - rw !length_fmap. split_and!; try done; apply Forall_fmap, Forall_forall; simpl; lia.
Qed.

Section Loop.
Context (cfg : Cfg) (reachable : BitSet) (body : list BlockId).

(** The instructions the loop scan visits. *)
Definition in_loop (v : CfgValue) : Prop :=
  exists block b, block ∈ body /\ bitset_contains reachable block = true /\
    get_block cfg block = Some b /\ v ∈ insts b.

Definition opaque_at (v : CfgValue) : Prop := exists i, get_inst cfg v = Some i /\ is_opaque (data i) = true.
Definition writes_at (v : CfgValue) (e : event) : Prop :=
  exists es, inst_events cfg 0 v = Some es /\ e ∈ es.

Lemma body_events_elem es e : body_events cfg reachable body = Some es ->
  e ∈ es <-> exists v evs, in_loop v /\ loop_events cfg v = Some evs /\ e ∈ evs.
Proof.
  intros Hes. rw (flat_opt_elem _ _ _ e Hes). split.
  - intros (block & eb & Hin & Hb & He).
    destruct (bitset_contains reachable block) eqn:Hr; simpl in Hb; [|simplify_eq; by apply not_elem_of_nil in He].
    destruct (get_block cfg block) as [b|] eqn:Hg; [|done]. simpl in Hb.
    apply (flat_opt_elem _ _ _ e Hb) in He as (v & ev & Hv & Hev & He).
    exists v, ev. split; [|done]. exists block, b. auto.
  - intros (v & evs & (block & b & Hin & Hr & Hg & Hv) & Hev & He).
    destruct (flat_opt_inv _ _ _ _ Hes Hin) as [eb Hb]. exists block, eb. split_and!; [done..|].
    rw Hr /= Hg /= in Hb *. apply (flat_opt_elem _ _ _ e Hb). eauto.
Qed.

Lemma loop_events_elem v evs e : loop_events cfg v = Some evs ->
  e ∈ evs <-> match e with
              | LoopWrite e => writes_at v e
              | LoopOpaque => opaque_at v
              | LoopTick => True
              end.
Proof.
  rw /loop_events /writes_at /opaque_at. destruct (get_inst cfg v) as [i|]; [|done]. simpl.
  destruct (inst_events cfg 0 v) as [es|]; [|done]. simpl. intros [= <-].
  rw !elem_of_app list_elem_of_fmap list_elem_of_singleton.
  destruct e as [e| |]; split.
  - intros [(x & [= ->] & Hx)|[H|H]]; [eauto| |done].
    destruct (is_opaque (data i)); [by apply list_elem_of_singleton in H|by apply not_elem_of_nil in H].
  - intros (es' & [= <-] & He). left. eauto.
  - intros [(x & ? & _)|[H|H]]; [done| |done].
    destruct (is_opaque (data i)) eqn:Ho; [eauto|by apply not_elem_of_nil in H].
  - intros (j & [= <-] & Ho). right. left. rw Ho. by apply list_elem_of_singleton.
  - done.
  - intros _. right. by right.
Qed.

Lemma body_exists es (P : loop_event -> bool) : body_events cfg reachable body = Some es ->
  existsb P es = true <-> exists v evs e, in_loop v /\ loop_events cfg v = Some evs /\ e ∈ evs /\ P e = true.
Proof.
  intros Hes. rw existsb_exists. split.
  - intros (e & He%list_elem_of_In & HP).
    apply (body_events_elem _ _ Hes) in He as (v & evs & ? & ? & ?). eauto 10.
  - intros (v & evs & e & ? & ? & ? & HP). exists e. split; [|done].
    apply list_elem_of_In, (body_events_elem _ _ Hes). eauto.
Qed.

Context (Hok : cfg_ok cfg) (Hrefs : refs_ok cfg).
Context (Hbody : Forall (fun block => block < block_count cfg) body).

Lemma loop_events_total v : v < value_count cfg -> is_Some (loop_events cfg v).
Proof.
  intros Hv. rw /loop_events. destruct (inst_events_total cfg Hok Hrefs 0 v Hv) as [es ->].
  destruct (lookup_lt_is_Some_2 _ _ Hv) as [i Hi]. rw /get_inst Hi /=. by eexists.
Qed.

Lemma body_events_total : exists es, body_events cfg reachable body = Some es.
Proof.
  apply flat_opt_total. eapply Forall_impl; [exact Hbody|]. intros block Hb. simpl.
  destruct (negb _); [by eexists|]. destruct (lookup_lt_is_Some_2 _ _ Hb) as [b Hl].
  rw /get_block Hl /=. destruct (flat_opt_total (loop_events cfg) (insts b)) as [es ->]; [|by eexists].
  apply Forall_forall. intros v Hv. apply loop_events_total.
  by pose proof (proj1 (Forall_forall _ _) (block_ok_insts _ _ _ (ok_blocks _ Hok _ _ Hl)) v Hv).
Qed.

Lemma in_loop_bound v : in_loop v -> v < value_count cfg.
Proof.
  intros (block & b & _ & _ & Hl & Hv).
  by pose proof (proj1 (Forall_forall _ _) (block_ok_insts _ _ _ (ok_blocks _ Hok _ _ Hl)) v Hv).
Qed.

Lemma body_opaque es : body_events cfg reachable body = Some es ->
  existsb is_loop_opaque es = true <-> exists v, in_loop v /\ opaque_at v.
Proof.
  intros Hes. rw (body_exists _ _ Hes). split.
  - intros (v & evs & e & Hv & Hev & He & HP). destruct e; try done.
    exists v. split; [done|]. by apply (loop_events_elem _ _ _ Hev) in He.
  - intros (v & Hv & Ho). destruct (loop_events_total v (in_loop_bound v Hv)) as [evs Hev].
    exists v, evs, LoopOpaque. split_and!; try done. by apply (loop_events_elem _ _ _ Hev).
Qed.

Lemma body_marks es (P : loop_event -> bool) :
  (forall x, P x = true -> exists e, x = LoopWrite e) ->
  body_events cfg reachable body = Some es ->
  existsb P es = true <-> exists v e, in_loop v /\ writes_at v e /\ P (LoopWrite e) = true.
Proof.
  intros HP Hes. rw (body_exists _ _ Hes). split.
  - intros (v & evs & x & Hv & Hev & Hx & Hpx). destruct (HP x Hpx) as (e & ->).
    exists v, e. split_and!; try done. by apply (loop_events_elem _ _ _ Hev) in Hx.
  - intros (v & e & Hv & He & Hpe). destruct (loop_events_total v (in_loop_bound v Hv)) as [evs Hev].
    exists v, evs, (LoopWrite e). split_and!; try done. by apply (loop_events_elem _ _ _ Hev).
Qed.

(** The stamp test of a slot whose table entry was stale at the start. *)
Lemma stamp_current (g x : Z) (b : bool) : (0 <= x < g)%Z ->
  negb ((if b then g else x) =? g)%Z = negb b.
Proof. intros Hx. f_equal. destruct b; [apply Z.eqb_refl|apply Z.eqb_neq; lia]. Qed.

Lemma invariant_iff (unknown taken b : bool) (P : CfgValue -> Prop) :
  (unknown = true <-> exists v, in_loop v /\ opaque_at v) ->
  (b = true <-> exists v, in_loop v /\ P v) ->
  negb unknown && negb taken && negb b = true <->
  taken = false /\ forall v, in_loop v -> ~ opaque_at v /\ ~ P v.
Proof.
  intros Hu Hb. rw !andb_true_iff !negb_true_iff -!not_true_iff_false Hu Hb. naive_solver.
Qed.
End Loop.

(** The loop scan is exact whatever the reused workspace held: a local
    (parameter) slot is invariant in the loop if and only if its address is
    not taken and no instruction of the reachable part of the body is a call,
    intrinsic, drop or unrooted write, or writes that very slot.  The
    workspace stays fit for the next loop, also when the generation counter
    wraps around. *)
Theorem loop_invariance_exact (cfg : Cfg) (body : list BlockId) (reachable : BitSet)
    (w : LoopWorkspace) (Hok : cfg_ok cfg) (Hrefs : refs_ok cfg)
    (Hbody : Forall (fun block => block < block_count cfg) body) (Hw : workspace_ok w) :
  exists f work, classify_loop_slot_invariance cfg body reachable w = Some (f, work) /\
    workspace_ok (facts f) /\
    (forall slot, slot < Z.to_nat (num_locals cfg) ->
       local_is_invariant cfg f slot = true <->
       is_address_taken cfg slot = false /\
       forall v, in_loop cfg reachable body v ->
         ~ opaque_at cfg v /\ ~ exists init, writes_at cfg v (WriteLocal slot init)) /\
    (forall slot, slot < Z.to_nat (num_params cfg) ->
       param_is_invariant cfg f slot = true <->
       is_param_address_taken cfg slot = false /\
       forall v, in_loop cfg reachable body v -> ~ opaque_at cfg v /\ ~ writes_at cfg v (WriteParam slot)).
Proof.
  pose proof (loop_start_ok cfg w Hw) as Hstart. rw /classify_loop_slot_invariance.
  destruct (loop_start cfg w) as [w1 work]. destruct Hstart as (Hg & Hl & Hp & Hll & Hpl).
  destruct (body_events_total cfg reachable body Hok Hrefs Hbody) as [es Hes].
  rw (fold_opt_events _ _ _ (loop_block_events cfg reachable (generation w1))).
  rewrite -/(body_events cfg reachable body) Hes /=.
  pose proof (apply_loop_result (generation w1) es (mkFacts w1 false) 0) as Hres.
  destruct (fold_left _ es (mkFacts w1 false, 0%Z)) as [f n]. simpl in Hres |- *.
  destruct Hres as (Hgen & Hunk & _ & Hlook_l & Hlook_p).
  pose proof (body_opaque cfg reachable body Hok Hrefs es Hes) as Ho.
  do 2 eexists. split; [done|]. split_and!.
  - split; [rw Hgen; lia| |]; apply Forall_lookup; intros slot y; rw ?Hlook_l ?Hlook_p Hgen;
      intros (x & Hx & ->)%fmap_Some.
    + pose proof (proj1 (Forall_lookup _ _) Hl _ _ Hx). simpl in *. case_match; lia.
    + pose proof (proj1 (Forall_lookup _ _) Hp _ _ Hx). simpl in *. case_match; lia.
  - intros slot Hs. rw /local_is_invariant Hlook_l.
    destruct (lookup_lt_is_Some_2 (local_generation w1) slot ltac:(lia)) as [x Hx].
    pose proof (proj1 (Forall_lookup _ _) Hl _ _ Hx) as Hb. rw Hx /= Hgen stamp_current //.
    apply (invariant_iff cfg reachable body); [by rw Hunk|].
    rw (body_marks cfg reachable body Hok Hrefs es (marks_local slot)) //; last first.
    { intros [[]| |]; naive_solver. }
    split.
    + intros (v & [s i|s|] & Hv & He & Hm); try done. simpl in Hm. apply Nat.eqb_eq in Hm as ->. eauto.
    + intros (v & Hv & i & He). exists v, (WriteLocal slot i). split_and!; try done. apply Nat.eqb_refl.
  - intros slot Hs. rw /param_is_invariant Hlook_p.
    destruct (lookup_lt_is_Some_2 (param_generation w1) slot ltac:(lia)) as [x Hx].
    pose proof (proj1 (Forall_lookup _ _) Hp _ _ Hx) as Hb. rw Hx /= Hgen stamp_current //.
    apply (invariant_iff cfg reachable body); [by rw Hunk|].
    rw (body_marks cfg reachable body Hok Hrefs es (marks_param slot)) //; last first.
    { intros [[]| |]; naive_solver. }
    split.
    + intros (v & [s i|s|] & Hv & He & Hm); try done. simpl in Hm. apply Nat.eqb_eq in Hm as ->. eauto.
    + intros (v & Hv & He). exists v, (WriteParam slot). split_and!; try done. apply Nat.eqb_refl.
Qed.

(** ** A concrete run *)

Lemma fold_cfg_refs : refs_ok fold_cfg.
Proof.
  split.
  - intros v us Hv Hus.
    do 7 (destruct v as [|v]; [vm_compute in Hus; injection Hus as <-;
      repeat constructor; apply Nat.ltb_lt; vm_compute; reflexivity|]).
    vm_compute in Hus. by destruct v.
  - intros i b us Hb Hus. destruct i as [|i]; [|vm_compute in Hb; destruct i; discriminate].
    vm_compute in Hb. injection Hb as <-. vm_compute in Hus. injection Hus as <-.
    repeat constructor; apply Nat.ltb_lt; vm_compute; reflexivity.
Qed.

Lemma slot_writes_exact_witness :
  cfg_ok fold_cfg /\ refs_ok fold_cfg /\ classify_slot_writes fold_cfg None = Some [SwOne 2 0].
Proof.
  split; [exact fold_cfg_ok|split; [exact fold_cfg_refs|]].
  destruct (slot_writes_exact fold_cfg None fold_cfg_ok fold_cfg_refs) as (sw & es & Hsw & _).
  rewrite Hsw. vm_compute in Hsw. congruence.
Defined.

Lemma never_written_exact_witness :
  cfg_ok fold_cfg /\ refs_ok fold_cfg /\ classify_never_written_params fold_cfg = Some [].
Proof.
  split; [exact fold_cfg_ok|split; [exact fold_cfg_refs|]].
  destruct (never_written_exact fold_cfg fold_cfg_ok fold_cfg_refs) as (nw & es & Hnw & _ & Hl & _).
  rewrite Hnw. by destruct nw.
Defined.

(** The loop body writes slot 0, with the counter about to wrap. *)
Lemma loop_invariance_exact_witness :
  cfg_ok fold_cfg /\ refs_ok fold_cfg /\ workspace_ok (mkWorkspace [5%Z] [] u64_max) /\
  exists f work, classify_loop_slot_invariance fold_cfg [0] (mkBitSet [1%Z])
    (mkWorkspace [5%Z] [] u64_max) = Some (f, work) /\ local_is_invariant fold_cfg f 0 = false.
Proof.
  assert (workspace_ok (mkWorkspace [5%Z] [] u64_max)) as Hw.
  { split; [by vm_compute|repeat constructor; by vm_compute|constructor]. }
  split; [exact fold_cfg_ok|split; [exact fold_cfg_refs|split; [exact Hw|]]].
  destruct (loop_invariance_exact fold_cfg [0] (mkBitSet [1%Z]) (mkWorkspace [5%Z] [] u64_max)
    fold_cfg_ok fold_cfg_refs ltac:(repeat constructor; apply Nat.ltb_lt; vm_compute; reflexivity) Hw)
    as (f & work & Hf & _).
  exists f, work. split; [exact Hf|]. vm_compute in Hf. injection Hf as <- _. vm_compute. reflexivity.
Defined.
