(* ===== verification/UseIndex.v ===== *)
(** * Def-use snapshot index

    [crates/rue-cfg/src/opt/use_index.rs]: the users of every value in
    compressed sparse rows, refilled in reused storage.  A bucket of a value is
    current when its generation stamp is.  A [Panic] is an index out of range
    or a failed [assert_eq!]. *)

From S2P Require Import Prelude IntegerSemantics Types Payload CfgData CfgEdit Classify Worklist Dce Eval SlotFacts.
Import Machine.

Inductive CfgUseIndexError :=
| Invalidated
| WrongOwner
| ValueDomainChanged
| ValueOutOfRange (value : CfgValue)
| ValueTypeChanged (value : CfgValue).

Record CfgUseIndex := mkIndex {
  bucket_generation : list Z;
  bucket_index : list nat;
  generation : Z;
  keys : list CfgValue;
  key_types : list Type_;
  offsets : list nat;
  users_of : list CfgValue;
  cursors : list nat;
  indexed_count : nat;
  owner : option nat;
}.

Definition index_default : CfgUseIndex := mkIndex [] [] 0 [] [] [] [] [] 0 None.

Record CfgUseIndexWork := mkIndexWork {
  users_visited : nat; edges_visited : nat; domain_entries_initialized : nat }.

Definition invalidate (ix : CfgUseIndex) : CfgUseIndex :=
  mkIndex (bucket_generation ix) (bucket_index ix) (generation ix) (keys ix) (key_types ix)
    (offsets ix) (users_of ix) (cursors ix) (indexed_count ix) None.

(** The tables of the sparse buckets: stamps, bucket numbers, keys, their
    types, and one count per key. *)
Record Buckets := mkBuckets {
  b_generation : list Z; b_index : list nat;
  b_keys : list CfgValue; b_types : list Type_; b_counts : list nat }.

(** Grow the domain and take the next generation; on the theoretical wrap all
    stamps are cleared. *)
Definition grow_domain (value_count : nat) (ix : CfgUseIndex) : list Z * list nat * nat :=
  if length (bucket_generation ix) <? value_count then
    let added := value_count - length (bucket_generation ix) in
    (bucket_generation ix ++ replicate added 0%Z,
     take value_count (bucket_index ix) ++ replicate (value_count - length (bucket_index ix)) 0, added)
  else (bucket_generation ix, bucket_index ix, 0).

Definition next_generation (bg : list Z) (g : Z) : list Z * Z * nat :=
  let g' := wrap_u 64 (g + 1) in
  if (g' =? 0)%Z then ((fun _ => 0%Z) <$> bg, 1%Z, length bg) else (bg, g', 0).

(** Counting one operand; an operand outside the domain is remembered. *)
Definition count_operand (cfg : Cfg) (g : Z) (st : Buckets * option CfgValue) (operand : CfgValue)
    : option (Buckets * option CfgValue) :=
  let '(b, invalid) := st in
  if value_count cfg <=? operand then Some (b, Some operand) else
  stamp ← b_generation b !! operand;
  b' ← (if (stamp =? g)%Z then Some b else
          i ← get_inst cfg operand;
          Some (mkBuckets (<[operand := g]> (b_generation b))
                  (<[operand := length (b_keys b)]> (b_index b))
                  (b_keys b ++ [operand]) (b_types b ++ [ty i]) (b_counts b ++ [0])));
  bucket ← b_index b' !! operand;
  c ← b_counts b' !! bucket;
  Some (mkBuckets (b_generation b') (b_index b') (b_keys b') (b_types b')
          (<[bucket := S c]> (b_counts b')), invalid).

(** Counting the operands of every user in order, up to the first error. *)
Fixpoint count_users (cfg : Cfg) (g : Z) (b : Buckets) (user_order : list CfgValue)
    : option (Buckets * option CfgUseIndexError) :=
  match user_order with
  | [] => Some (b, None)
  | user :: rest =>
      if value_count cfg <=? user then Some (b, Some (ValueOutOfRange user)) else
      us ← visit_instruction_uses cfg user;
      '(b', invalid) ← fold_opt (count_operand cfg g) (b, None) us;
      match invalid with
      | Some operand => Some (b', Some (ValueOutOfRange operand))
      | None => count_users cfg g b' rest
      end
  end.

(** Exclusive prefix sums, and their total. *)
Fixpoint prefix_sums (total : nat) (counts : list nat) : list nat * nat :=
  match counts with
  | [] => ([], total)
  | c :: counts => let '(os, t) := prefix_sums (total + c) counts in (total :: os, t)
  end.

Definition place_use (bi : list nat) (user : CfgValue) (st : list CfgValue * list nat) (operand : CfgValue)
    : option (list CfgValue * list nat) :=
  let '(us, cursors) := st in
  bucket ← bi !! operand;
  cursor ← cursors !! bucket;
  if cursor <? length us then Some (<[cursor := user]> us, <[bucket := S cursor]> cursors) else None.

Definition place_user (cfg : Cfg) (bi : list nat) (st : list CfgValue * list nat) (user : CfgValue)
    : option (list CfgValue * list nat) :=
  ops ← visit_instruction_uses cfg user; fold_opt (place_use bi user) st ops.

(** The edges a pass over the users visits. *)
Definition edge_count (cfg : Cfg) (user_order : list CfgValue) : nat :=
  sum_list_with (fun user => match visit_instruction_uses cfg user with
                             | Some us => length us | None => 0 end) user_order.

(** [rebuild]: the index after it, with the work done or the error.  On an
    error the refill stops half way and the index stays invalid. *)
Definition rebuild (cfg : Cfg) (user_order : list CfgValue) (ix : CfgUseIndex)
    : option (CfgUseIndex * res CfgUseIndexError CfgUseIndexWork) :=
  let ix := invalidate ix in
  let '(bg, bi, added) := grow_domain (value_count cfg) ix in
  let '(bg, g, cleared) := next_generation bg (generation ix) in
  '(b, error) ← count_users cfg g (mkBuckets bg bi [] [] []) user_order;
  match error with
  | Some e => Some (mkIndex (b_generation b) (b_index b) g (b_keys b) (b_types b) (b_counts b) [] []
                      (indexed_count ix) None, Err e)
  | None =>
      let '(os, total) := prefix_sums 0 (b_counts b) in
      '(us, cs) ← fold_opt (place_user cfg (b_index b)) (replicate total 0, os) user_order;
      Some (mkIndex (b_generation b) (b_index b) g (b_keys b) (b_types b) (os ++ [total]) us cs
              (value_count cfg) (Some (owner_identity cfg)),
            Ok (mkIndexWork (2 * length user_order) (2 * edge_count cfg user_order) (added + cleared)))
  end.

Definition users (ix : CfgUseIndex) (cfg : Cfg) (value : CfgValue) : res CfgUseIndexError (list CfgValue) :=
  match owner ix with
  | None => Err Invalidated
  | Some o =>
      if negb (o =? owner_identity cfg) then Err WrongOwner else
      if negb (value_count cfg =? indexed_count ix) then Err ValueDomainChanged else
      if indexed_count ix <=? value then Err (ValueOutOfRange value) else
      stamp ← expect (bucket_generation ix !! value);
      if negb (stamp =? generation ix)%Z then Ok [] else
      bucket ← expect (bucket_index ix !! value);
      key ← expect (keys ix !! bucket);
      if negb (key =? value) then Panic else
      indexed_type ← expect (key_types ix !! bucket);
      i ← expect (get_inst cfg value);
      if negb (bool_decide (ty i = indexed_type)) then Err (ValueTypeChanged value) else
      first ← expect (offsets ix !! bucket);
      last ← expect (offsets ix !! S bucket);
      if (last <? first) || (length (users_of ix) <? last) then Panic
      else Ok (take (last - first) (drop first (users_of ix)))
  end.

(** ** The edges

    A pass over the users visits one edge per operand, repeated operands
    included. *)

Definition user_edges (cfg : Cfg) (user : CfgValue) : option (list (CfgValue * CfgValue)) :=
  us ← visit_instruction_uses cfg user; Some (map (pair user) us).
Definition edges (cfg : Cfg) (user_order : list CfgValue) : option (list (CfgValue * CfgValue)) :=
  flat_opt (user_edges cfg) user_order.

(** The users of a value: in order, one entry per edge. *)
Definition users_in (es : list (CfgValue * CfgValue)) (v : CfgValue) : list CfgValue :=
  (filter (fun e => e.2 = v) es).*1.

Lemma users_in_app es es' v : users_in (es ++ es') v = users_in es v ++ users_in es' v.
Proof. by rw /users_in filter_app fmap_app. Qed.

Lemma users_in_one u w v : users_in [(u, w)] v = if decide (w = v) then [u] else [].
Proof. rw /users_in filter_cons filter_nil /=. by case_decide. Qed.

Lemma users_in_nil es v : users_in es v = [] <-> v ∉ es.*2.
Proof.
  induction es as [|[u w] es IH]; simpl; [split; [by intros _ ?%not_elem_of_nil|done]|].
  rw (users_in_app [_]) users_in_one not_elem_of_cons. case_decide; naive_solver.
Qed.

(** ** The index between uses *)

(** Fit for a refill: one bucket entry per stamp, and no stamp from the
    future. *)
Record index_ok (ix : CfgUseIndex) : Prop := {
  index_lengths : length (bucket_index ix) = length (bucket_generation ix);
  index_generation : (0 <= generation ix <= u64_max)%Z;
  index_stamps : Forall (fun x => (0 <= x <= generation ix)%Z) (bucket_generation ix);
}.

Lemma index_default_ok : index_ok index_default.
Proof. split; [done|by vm_compute|constructor]. Qed.

(** After growing the domain and taking a generation no bucket is current. *)
Lemma fresh_generation n ix bg bi added bg' g cleared : index_ok ix ->
  grow_domain n ix = (bg, bi, added) -> next_generation bg (generation ix) = (bg', g, cleared) ->
  length bi = length bg' /\ n <= length bg' /\ (1 <= g <= u64_max)%Z /\
  Forall (fun x => (0 <= x < g)%Z) bg'.
Proof.
  intros [Hl Hg Hs]. rw /grow_domain /next_generation Hl.
  assert (Forall (fun x => (0 <= x <= generation ix)%Z) bg ->
    let '(bg', g, _) := next_generation bg (generation ix) in
    length bg' = length bg /\ (1 <= g <= u64_max)%Z /\ Forall (fun x => (0 <= x < g)%Z) bg') as Hn.
  { intros Hb. rw /next_generation /wrap_u.
    destruct (Z.eqb_spec ((generation ix + 1) mod 2 ^ 64) 0) as [Hz|Hz].
    - rw length_fmap. split_and!; try done. apply Forall_fmap, Forall_forall. simpl. lia.
    - assert (generation ix <> u64_max) as Hmax.
      { intros He. rw He in Hz *. by apply Hz. }
      rw /u64_max in Hg, Hmax |- *. rw Z.mod_small; [|lia]. split_and!; [done|lia|lia|].
      eapply Forall_impl; [exact Hb|]. simpl. lia. }
  rw /next_generation in Hn *. intros Hgrow Hnext. rw Hnext in Hn *.
  destruct (Nat.ltb_spec (length (bucket_generation ix)) n); simplify_eq.
  - assert (Forall (fun x => (0 <= x <= generation ix)%Z) (bucket_generation ix ++
      replicate (n - length (bucket_generation ix)) 0%Z)) as Hbg.
    { apply Forall_app; split; [done|]. apply Forall_replicate. lia. }
    destruct (Hn Hbg) as (Hlen & Hg' & Hs'). rw Hlen !length_app length_take !length_replicate Hl.
    split_and!; [lia|lia|lia..|done].
  - destruct (Hn Hs) as (Hlen & Hg' & Hs'). rw Hlen Hl. split_and!; [done|lia|lia..|done].
Qed.

(** ** The counting pass *)

Section Count.
Context (cfg : Cfg) (N : nat) (g : Z) (HN : value_count cfg <= N).

(** The buckets after counting the edges [es]: the current stamps are those of
    the keys, and every key's bucket holds its type and its number of uses. *)
Record counted (es : list (CfgValue * CfgValue)) (b : Buckets) : Prop := {
  counted_gen : length (b_generation b) = N;
  counted_idx : length (b_index b) = N;
  counted_stamps : Forall (fun x => (0 <= x <= g)%Z) (b_generation b);
  counted_types : length (b_types b) = length (b_keys b);
  counted_counts : length (b_counts b) = length (b_keys b);
  counted_current : forall v, v < N -> b_generation b !! v = Some g <-> v ∈ b_keys b;
  counted_cover : forall v, v ∈ es.*2 -> v ∈ b_keys b;
  counted_key : forall k v, b_keys b !! k = Some v ->
    v < value_count cfg /\ b_index b !! v = Some k /\
    b_types b !! k = (ty <$> get_inst cfg v) /\ b_counts b !! k = Some (length (users_in es v));
}.

Lemma counted_start bg bi : length bg = N -> length bi = N ->
  Forall (fun x => (0 <= x < g)%Z) bg -> counted [] (mkBuckets bg bi [] [] []).
Proof.
  intros Hbg Hbi Hs. split; simpl; try done.
  - eapply Forall_impl; [exact Hs|]. simpl. lia.
  - intros v _. split; [|by intros ?%not_elem_of_nil].
    intros Hv. pose proof (proj1 (Forall_lookup _ _) Hs _ _ Hv). simpl in *. lia.
Qed.

(** A key for a new operand. *)
Definition with_key (b : Buckets) (w : CfgValue) (t : Type_) : Buckets :=
  mkBuckets (<[w := g]> (b_generation b)) (<[w := length (b_keys b)]> (b_index b))
    (b_keys b ++ [w]) (b_types b ++ [t]) (b_counts b ++ [0]).

Lemma counted_with_key es b w i : (0 <= g)%Z -> counted es b -> w < value_count cfg ->
  get_inst cfg w = Some i -> w ∉ b_keys b -> counted es (with_key b w (ty i)).
Proof.
  intros Hg [H1 H2 H3 H4 H5 H6 H7 H8] Hw Hi Hk. split; simpl.
  - by rw length_insert.
  - by rw length_insert.
  - apply Forall_insert; [done|lia].
  - rw !length_app H4 //.
  - rw !length_app H5 //.
  - intros v Hv. rw elem_of_app list_elem_of_singleton. destruct (decide (v = w)) as [->|Hvw].
    + rw list_lookup_insert_eq; [|lia]. naive_solver.
    + rw list_lookup_insert_ne // H6 //. naive_solver.
  - intros v Hv. apply elem_of_app. left. by apply H7.
  - intros k v Hkv. apply lookup_app_Some in Hkv as [Hkv|[Hlen Hkv]].
    + pose proof (lookup_lt_Some _ _ _ Hkv) as Hlt.
      destruct (H8 _ _ Hkv) as (Hv & Hb & Ht & Hc). assert (v <> w) as Hvw.
      { intros ->. by apply Hk, list_elem_of_lookup_2 with k. }
      rw list_lookup_insert_ne // lookup_app_l; [|lia]. rw lookup_app_l; [|lia]. done.
    + apply list_lookup_singleton_Some in Hkv as [Hz <-].
      assert (k = length (b_keys b)) as -> by lia.
      split_and!; [done|by rw list_lookup_insert_eq; [|lia]| |].
      * by rw -H4 list_lookup_middle // Hi.
      * rw -H5 list_lookup_middle //. rw (proj2 (users_in_nil es w)) //. by intros ?%H7.
Qed.

(** One more use of a keyed operand. *)
Lemma counted_use es b u w k c : counted es b -> b_keys b !! k = Some w ->
  b_counts b !! k = Some c ->
  counted (es ++ [(u, w)])
    (mkBuckets (b_generation b) (b_index b) (b_keys b) (b_types b) (<[k := S c]> (b_counts b))).
Proof.
  intros [H1 H2 H3 H4 H5 H6 H7 H8] Hk Hc. split; simpl; try done.
  - by rw length_insert.
  - intros v. rw fmap_app elem_of_app list_elem_of_singleton. intros [Hv| ->]; [by apply H7|].
    by eapply list_elem_of_lookup_2.
  - intros k' v Hkv. destruct (H8 _ _ Hkv) as (Hv & Hb & Ht & Hc'). split_and!; try done.
    destruct (H8 _ _ Hk) as (_ & Hbw & _ & Hcw).
    rw users_in_app length_app users_in_one. destruct (decide (w = v)) as [->|Hwv].
    + assert (k' = k) as -> by congruence. rw list_lookup_insert_eq; [|by eapply lookup_lt_Some].
      rewrite Hc in Hcw. injection Hcw as ->. f_equal. simpl. lia.
    + rw list_lookup_insert_ne; [|congruence]. rw Hc'. f_equal. simpl. lia.
Qed.

Lemma count_operand_step es b u w inv : (0 <= g)%Z -> counted es b -> w < value_count cfg ->
  exists b', count_operand cfg g (b, inv) w = Some (b', inv) /\ counted (es ++ [(u, w)]) b'.
Proof.
  intros Hg Hb Hw. rw /count_operand. destruct (Nat.leb_spec (value_count cfg) w); [lia|].
  destruct (lookup_lt_is_Some_2 (b_generation b) w) as [x Hx].
  { rw (counted_gen _ _ Hb). lia. }
  assert (exists b1, (if (x =? g)%Z then Some b else
            i ← get_inst cfg w; Some (with_key b w (ty i))) = Some b1 /\ counted es b1 /\
            w ∈ b_keys b1) as (b1 & Hb1 & Hc1 & Hk1).
  { destruct (Z.eqb_spec x g) as [->|Hxg].
    - exists b. split_and!; try done. apply (counted_current _ _ Hb w ltac:(lia)). done.
    - destruct (lookup_lt_is_Some_2 (values cfg) w Hw) as [i Hi]. rw /get_inst Hi /=.
      eexists. split; [done|]. split; [|simpl; apply elem_of_app; right; by apply list_elem_of_singleton].
      apply counted_with_key; try done. rw -(counted_current _ _ Hb w ltac:(lia)). congruence. }
  rw Hx /= Hb1 /=. apply list_elem_of_lookup in Hk1 as [k Hk1].
  destruct (counted_key _ _ Hc1 _ _ Hk1) as (_ & Hi & _ & Hc). rw Hi /= Hc /=.
  eexists. split; [done|]. by apply counted_use.
Qed.

#[local] Arguments count_operand : simpl never.

Lemma count_operands es b u ws : (0 <= g)%Z -> counted es b ->
  Forall (fun w => w < value_count cfg) ws ->
  exists b', fold_opt (count_operand cfg g) (b, None) ws = Some (b', None) /\
    counted (es ++ map (pair u) ws) b'.
Proof.
  intros Hg. revert es b. induction ws as [|w ws IH]; intros es b Hb Hws; simpl.
  { rw app_nil_r. eauto. }
  apply Forall_cons in Hws as [Hw Hws].
  destruct (count_operand_step es b u w None Hg Hb Hw) as (b1 & -> & Hc1). simpl.
  destruct (IH _ _ Hc1 Hws) as (b2 & -> & Hc2). exists b2. split; [done|]. by rewrite -app_assoc in Hc2.
Qed.

Lemma count_users_ok es b order es' : (0 <= g)%Z -> counted es b ->
  Forall (fun u => u < value_count cfg) order ->
  edges cfg order = Some es' -> Forall (fun e => e.2 < value_count cfg) es' ->
  exists b', count_users cfg g b order = Some (b', None) /\ counted (es ++ es') b'.
Proof.
  intros Hg. revert es b es'. induction order as [|u order IH]; intros es b es' Hb Ho; simpl.
  { intros [= <-] _. rw app_nil_r. eauto. }
  apply Forall_cons in Ho as [Hu Ho]. rw /edges flat_opt_cons.
  destruct (user_edges cfg u) as [eu|] eqn:Heu; [|done]. simpl.
  destruct (flat_opt (user_edges cfg) order) as [er|] eqn:Her; [|done]. simpl.
  intros [= <-] [Hfu Hfr]%Forall_app. destruct (Nat.leb_spec (value_count cfg) u); [lia|].
  rw /user_edges in Heu *. destruct (visit_instruction_uses cfg u) as [us|]; [|done]. simplify_eq/=.
  destruct (count_operands es b u us Hg Hb) as (b1 & Hb1 & Hc1); [by rw Forall_map in Hfu *|].
  rw Hb1 /=. destruct (IH _ _ er Hc1 Ho Her Hfr) as (b2 & -> & Hc2).
  exists b2. split; [done|]. by rw app_assoc.
Qed.
End Count.

(** ** The placing pass *)

Definition offset (counts : list nat) (k : nat) : nat := sum_list (take k counts).

Lemma offset_S counts k c : counts !! k = Some c -> offset counts (S k) = offset counts k + c.
Proof. intros Hc. rw /offset (take_S_r _ _ c) // sum_list_app /=. lia. Qed.

Lemma offset_mono counts k k' : k <= k' -> offset counts k <= offset counts k'.
Proof.
  intros Hk. rw /offset. replace (take k counts) with (take k (take k' counts)).
  - rewrite -{2}(take_drop k (take k' counts)) sum_list_app. lia.
  - rw take_take. f_equal. lia.
Qed.

Lemma offset_disjoint counts k k' c : counts !! k = Some c -> k < k' ->
  offset counts k + c <= offset counts k'.
Proof. intros Hc Hk. rw -(offset_S _ _ _ Hc). by apply offset_mono. Qed.

Lemma offset_total counts k c : counts !! k = Some c -> offset counts k + c <= sum_list counts.
Proof.
  intros Hc. rw -(offset_S _ _ _ Hc) /offset. rewrite -{2}(take_drop (S k) counts) sum_list_app. lia.
Qed.

Lemma prefix_sums_spec t counts os total : prefix_sums t counts = (os, total) ->
  length os = length counts /\ total = t + sum_list counts /\
  forall k, k < length counts -> os !! k = Some (t + offset counts k).
Proof.
  revert t os total. induction counts as [|c counts IH]; intros t os total; simpl.
  { intros [= <- <-]. split_and!; [done|lia|intros k Hk; simpl in Hk; lia]. }
  destruct (prefix_sums (t + c) counts) as [os' total'] eqn:Hp. intros [= <- <-].
  destruct (IH _ _ _ Hp) as (Hl & -> & Hk). split_and!; [by rw /= Hl|lia|].
  intros [|k] Hlt; simpl; [rw /offset /=; f_equal; lia|].
  rw Hk /offset /=; [f_equal; lia|simpl in Hlt; lia].
Qed.

Section Place.
Context (cfg : Cfg) (N : nat) (g : Z) (HN : value_count cfg <= N).
Context (es : list (CfgValue * CfgValue)) (b : Buckets) (Hb : counted cfg N g es b).

(** After placing the edges [es1], every row is filled up to its cursor. *)
Record placed (es1 : list (CfgValue * CfgValue)) (us cursors : list nat) : Prop := {
  placed_users : length us = sum_list (b_counts b);
  placed_row : forall k v, b_keys b !! k = Some v ->
    cursors !! k = Some (offset (b_counts b) k + length (users_in es1 v)) /\
    forall j u, users_in es1 v !! j = Some u -> us !! (offset (b_counts b) k + j) = Some u;
}.

Lemma users_in_prefix es1 es2 v : es = es1 ++ es2 ->
  length (users_in es v) = length (users_in es1 v) + length (users_in es2 v).
Proof. intros ->. by rw users_in_app length_app. Qed.

Lemma place_use_step es1 u w es2 us cursors : es = es1 ++ (u, w) :: es2 ->
  placed es1 us cursors ->
  exists us' cursors', place_use (b_index b) u (us, cursors) w = Some (us', cursors') /\
    placed (es1 ++ [(u, w)]) us' cursors'.
Proof.
  intros He [Hlen Hrow].
  assert (w ∈ b_keys b) as [k Hk]%list_elem_of_lookup.
  { apply (counted_cover _ _ _ _ _ Hb). rw He fmap_app elem_of_app /=. right. by left. }
  destruct (counted_key _ _ _ _ _ Hb _ _ Hk) as (_ & Hi & _ & Hc).
  destruct (Hrow _ _ Hk) as [Hcur Hfill].
  set (p := offset (b_counts b) k + length (users_in es1 w)).
  assert (p < offset (b_counts b) k + length (users_in es w)) as Hp.
  { rw (users_in_prefix es1 ((u, w) :: es2) w He) (users_in_app [_]) users_in_one decide_True //= /p. lia. }
  pose proof (offset_total _ _ _ Hc) as Htot.
  rw /place_use Hi /= Hcur /= -/p. destruct (Nat.ltb_spec p (length us)); [|lia].
  do 2 eexists. split; [done|]. split; [by rw length_insert|].
  intros k' v Hkv. destruct (Hrow _ _ Hkv) as [Hcur' Hfill'].
  destruct (counted_key _ _ _ _ _ Hb _ _ Hkv) as (_ & Hi' & _ & Hc').
  rw users_in_app users_in_one. destruct (decide (w = v)) as [<-|Hwv].
  - assert (k' = k) as -> by congruence.
    rw list_lookup_insert_eq; [|by eapply lookup_lt_Some]. split.
    { f_equal. rw length_app /= /p. lia. }
    intros j x [Hj|[Hj [Hz <-]%list_lookup_singleton_Some]]%lookup_app_Some.
    + rw list_lookup_insert_ne; [by apply Hfill|]. rw /p. apply lookup_lt_Some in Hj. lia.
    + assert (offset (b_counts b) k + j = p) as ->; [|by rw list_lookup_insert_eq].
      rw /p. lia.
  - rw app_nil_r list_lookup_insert_ne; [|congruence]. split; [done|].
    intros j x Hj. rw list_lookup_insert_ne; [by apply Hfill'|].
    pose proof (lookup_lt_Some _ _ _ Hj) as Hlt.
    pose proof (users_in_prefix es1 _ v He) as Hpre.
    assert (k <> k') as Hkk by congruence.
    destruct (Nat.lt_ge_cases k k').
    + pose proof (offset_disjoint _ _ _ _ Hc ltac:(done)). lia.
    + pose proof (offset_disjoint _ k' k _ Hc' ltac:(lia)). lia.
Qed.

#[local] Arguments place_use : simpl never.

Lemma place_uses es1 u ws es2 us cursors : es = es1 ++ map (pair u) ws ++ es2 ->
  placed es1 us cursors ->
  exists us' cursors', fold_opt (place_use (b_index b) u) (us, cursors) ws = Some (us', cursors') /\
    placed (es1 ++ map (pair u) ws) us' cursors'.
Proof.
  revert es1 us cursors. induction ws as [|w ws IH]; intros es1 us cs He Hp; simpl.
  { rw app_nil_r. eauto. }
  destruct (place_use_step _ _ _ _ _ _ He Hp) as (us1 & cs1 & -> & Hp1). simpl.
  destruct (IH (es1 ++ [(u, w)]) us1 cs1) as (us2 & cs2 & -> & Hp2); [by rw -app_assoc|done|].
  do 2 eexists. split; [done|]. by rewrite -app_assoc in Hp2.
Qed.

Lemma place_users es1 order es2 us cursors : edges cfg order = Some es2 -> es = es1 ++ es2 ->
  placed es1 us cursors ->
  exists us' cursors', fold_opt (place_user cfg (b_index b)) (us, cursors) order = Some (us', cursors') /\
    placed es us' cursors'.
Proof.
  revert es1 es2 us cursors. induction order as [|u order IH]; intros es1 es2 us cs; simpl.
  { intros [= <-] He Hp. rewrite app_nil_r in He. rw He. eauto. }
  rw /edges flat_opt_cons. destruct (user_edges cfg u) as [eu|] eqn:Heu; [|done]. simpl.
  destruct (flat_opt (user_edges cfg) order) as [er|] eqn:Her; [|done]. simpl.
  intros [= <-] He Hp. rewrite /user_edges in Heu. rw /place_user.
  destruct (visit_instruction_uses cfg u) as [ws|]; [|done]. injection Heu as <-. simpl.
  destruct (place_uses _ _ _ _ _ _ He Hp) as (us1 & cs1 & -> & Hp1). simpl.
  apply (IH (es1 ++ map (pair u) ws) er); [done|by rw He app_assoc|done].
Qed.
End Place.

(** ** Refilling the index *)

Section Rebuild.
Context (cfg : Cfg) (ix : CfgUseIndex) (Hix : index_ok ix).

(** Lookup in a refilled index. *)
Lemma users_filled N g es b us cursors os total v :
  value_count cfg <= N -> counted cfg N g es b ->
  prefix_sums 0 (b_counts b) = (os, total) -> placed b es us cursors ->
  v < value_count cfg ->
  users (mkIndex (b_generation b) (b_index b) g (b_keys b) (b_types b) (os ++ [total]) us cursors
           (value_count cfg) (Some (owner_identity cfg))) cfg v = Ok (users_in es v).
Proof.
  intros HN Hb Hps [Hlen Hrow] Hv. destruct (prefix_sums_spec _ _ _ _ Hps) as (Hlo & -> & Ho).
  rw /users /= !Nat.eqb_refl /=. destruct (Nat.leb_spec (value_count cfg) v); [lia|].
  destruct (lookup_lt_is_Some_2 (b_generation b) v) as [x Hx]; [rw (counted_gen _ _ _ _ _ Hb); lia|].
  pose proof (counted_current _ _ _ _ _ Hb v ltac:(lia)) as Hcur. rw Hx in Hcur *.
  rw /= . destruct (Z.eqb_spec x g) as [->|Hxg]; simpl; last first.
  { f_equal. symmetry. apply users_in_nil. intros Hin%(counted_cover _ _ _ _ _ Hb).
    apply Hcur in Hin. congruence. }
  assert (v ∈ b_keys b) as [k Hk]%list_elem_of_lookup by by apply Hcur.
  destruct (counted_key _ _ _ _ _ Hb _ _ Hk) as (_ & Hi & Ht & Hc).
  destruct (Hrow _ _ Hk) as [_ Hfill].
  destruct (lookup_lt_is_Some_2 (values cfg) v Hv) as [i Hgi]. rewrite -/(get_inst cfg v) in Hgi.
  rw Hi /= Hk /= Nat.eqb_refl /= Ht Hgi /= bool_decide_eq_true_2 //=.
  pose proof (lookup_lt_Some _ _ _ Hc) as Hkc. pose proof (offset_total _ _ _ Hc) as Htot.
  rw (lookup_app_l os _ k); [|lia]. rw Ho //=.
  assert ((os ++ [sum_list (b_counts b)]) !! S k =
          Some (offset (b_counts b) k + length (users_in es v))) as Hnext.
  { rw -(offset_S _ _ _ Hc). destruct (Nat.eq_dec (S k) (length os)) as [He|He].
    - rw He list_lookup_middle // Hlo /offset take_ge //.
    - rw lookup_app_l; [|lia]. rw Ho //. lia. }
  rw Hnext /=.
  destruct (Nat.ltb_spec (offset (b_counts b) k + length (users_in es v)) (offset (b_counts b) k)); [lia|].
  destruct (Nat.ltb_spec (length us) (offset (b_counts b) k + length (users_in es v))); [lia|].
  simpl. f_equal. rw Nat.add_comm Nat.add_sub. apply list_eq. intros j.
  destruct (Nat.lt_ge_cases j (length (users_in es v))) as [Hj|Hj].
  - destruct (lookup_lt_is_Some_2 _ _ Hj) as [u Hu].
    rw lookup_take_lt // lookup_drop Hu. by apply Hfill.
  - rw lookup_take_ge //. by rw (lookup_ge_None_2 (users_in es v)).
Qed.
End Rebuild.

Lemma edges_total cfg order : cfg_ok cfg -> refs_ok cfg ->
  Forall (fun u => u < value_count cfg) order ->
  exists es, edges cfg order = Some es /\ Forall (fun e => e.2 < value_count cfg) es.
Proof.
  intros Hok Hrefs Ho.
  destruct (flat_opt_total (user_edges cfg) order) as [es Hes].
  { eapply Forall_impl; [exact Ho|]. intros u Hu. simpl. rw /user_edges.
    destruct (uses_total cfg Hok u Hu) as [us ->]. by eexists. }
  exists es. split; [done|]. apply Forall_forall. intros e He.
  apply (flat_opt_elem _ _ _ e Hes) in He as (u & eu & Hu & Heu & He).
  rewrite /user_edges in Heu. destruct (visit_instruction_uses cfg u) as [us|] eqn:Hus; [|done].
  injection Heu as <-. apply list_elem_of_fmap in He as (w & -> & Hw).
  pose proof (proj1 (Forall_forall _ _) Ho u Hu) as Hlt.
  by apply (proj1 (Forall_forall _ _) (refs_insts _ Hrefs u us Hlt Hus)).
Qed.

Lemma edges_length cfg order es : edges cfg order = Some es -> edge_count cfg order = length es.
Proof.
  revert es. induction order as [|u order IH]; intros es; [by intros [= <-]|].
  rw /edges flat_opt_cons /user_edges /edge_count /=.
  destruct (visit_instruction_uses cfg u) as [us|]; [|done]. simpl.
  destruct (flat_opt (user_edges cfg) order) as [er|] eqn:Her; rewrite -/(user_edges cfg) Her; [|done].
  intros [= <-]. rw length_app length_map -(IH er Her) //.
Qed.

Lemma rebuild_spec (cfg : Cfg) (order : list CfgValue) (ix : CfgUseIndex)
    (Hok : cfg_ok cfg) (Hrefs : refs_ok cfg) (Hix : index_ok ix)
    (Horder : Forall (fun u => u < value_count cfg) order) :
  exists ix' work es, rebuild cfg order ix = Some (ix', Ok work) /\ index_ok ix' /\
    edges cfg order = Some es /\
    users_visited work = 2 * length order /\ edges_visited work = 2 * length es /\
    forall v, v < value_count cfg -> users ix' cfg v = Ok (users_in es v).
Proof.
  assert (exists es, edges cfg order = Some es /\ Forall (fun e => e.2 < value_count cfg) es)
    as (es & Hes & Hfes).
  { by apply edges_total. }
  rw /rebuild. destruct (grow_domain _ _) as [[bg bi] added] eqn:Hgrow.
  destruct (next_generation bg _) as [[bg' g] cleared] eqn:Hnext.
  destruct (fresh_generation (value_count cfg) (invalidate ix) bg bi added bg' g cleared)
    as (Hlen & HN & Hg & Hs); [by destruct Hix; split|done|done|].
  destruct (count_users_ok cfg (length bg') g HN [] (mkBuckets bg' bi [] [] []) order es)
    as (b & Hcu & Hb); [lia|by apply counted_start|done..|].
  rw Hcu /=. destruct (prefix_sums 0 (b_counts b)) as [os total] eqn:Hps.
  destruct (prefix_sums_spec _ _ _ _ Hps) as (Hlo & Htotal & Ho).
  destruct (place_users cfg (length bg') g HN es b Hb [] order es (replicate total 0) os Hes eq_refl)
    as (us & cs & Hpl & Hplaced).
  { split; [by rw length_replicate Htotal|]. intros k v Hk.
    destruct (counted_key _ _ _ _ _ Hb _ _ Hk) as (_ & _ & _ & Hc).
    rw Ho; [|by eapply lookup_lt_Some]. split; [f_equal; simpl; lia|done]. }
  rw Hpl /=. do 3 eexists. split; [done|]. split_and!; try done.
  - split; simpl; [by rw (counted_gen _ _ _ _ _ Hb) (counted_idx _ _ _ _ _ Hb)|lia|].
    by apply (counted_stamps _ _ _ _ _ Hb).
  - rw (edges_length _ _ _ Hes) //.
  - intros v Hv. by eapply users_filled.
Qed.

(** After a successful refill, the index answers every value of the
    indexed owner with exactly its users: one entry per operand edge, repeated
    operands repeated, in the order the users were given. *)
Theorem rebuild_users_exact (cfg : Cfg) (order : list CfgValue) (ix : CfgUseIndex)
    (Hok : cfg_ok cfg) (Hrefs : refs_ok cfg) (Hix : index_ok ix)
    (Horder : Forall (fun u => u < value_count cfg) order) :
  exists ix' work es, rebuild cfg order ix = Some (ix', Ok work) /\ index_ok ix' /\
    edges cfg order = Some es /\
    users_visited work = 2 * length order /\ edges_visited work = 2 * length es /\
    forall v, v < value_count cfg -> users ix' cfg v = Ok (users_in es v).
Proof. by apply rebuild_spec. Qed.

Lemma rebuild_users_exact_witness :
  cfg_ok fold_cfg /\ refs_ok fold_cfg /\
  exists ix work, rebuild fold_cfg [2; 5; 6] index_default = Some (ix, Ok work) /\
    users ix fold_cfg 1 = Ok [2; 5; 6].
Proof.
  split; [exact fold_cfg_ok|split; [exact fold_cfg_refs|]].
  destruct (rebuild_users_exact fold_cfg [2; 5; 6] index_default fold_cfg_ok fold_cfg_refs
    index_default_ok ltac:(repeat constructor; apply Nat.ltb_lt; vm_compute; reflexivity))
    as (ix & work & es & H & _ & Hes & _ & _ & Hu).
  exists ix, work. split; [exact H|]. rewrite Hu; [|apply Nat.ltb_lt; vm_compute; reflexivity].
  vm_compute in Hes. injection Hes as <-. reflexivity.
Defined.
