(* ===== verification/ConstOpt.v ===== *)
(** * Sparse constant folding and propagation

    [crates/rue-cfg/src/opt/constopt.rs]: every instruction gets one seed fold
    attempt; afterwards an instruction is revisited only when one of its
    operands becomes constant, and the loads of a single-write slot become
    constant when the written value does.  [None] is a panic. *)

From S2P Require Import Prelude IntegerSemantics Types Payload CfgData CfgEdit Classify Worklist Dce Eval ConstFold SlotFacts UseIndex.
Import Machine.

Record Stats := mkStats { fold_attempts : nat; folded : nat; loads_rewritten : nat }.

Definition stats_default : Stats := mkStats 0 0 0.
Definition attempted (s : Stats) : Stats := mkStats (S (fold_attempts s)) (folded s) (loads_rewritten s).
Definition did_fold (s : Stats) : Stats := mkStats (fold_attempts s) (S (folded s)) (loads_rewritten s).
Definition did_rewrite (s : Stats) : Stats :=
  mkStats (fold_attempts s) (folded s) (S (loads_rewritten s)).

Definition const_payload (cfg : Cfg) (value : CfgValue) : option (option CfgInstData) :=
  i ← get_inst cfg value;
  Some match data i with
  | IConst v => Some (IConst v)
  | IBoolConst b => Some (IBoolConst b)
  | _ => None
  end.

(** The users the index snapshots. *)
Definition foldable_values (cfg : Cfg) : option (list CfgValue) :=
  flat_opt (fun value => b ← is_foldable_instruction cfg value; Some (if (b : bool) then [value] else []))
    (seq 0 (value_count cfg)).

Definition note_load (cfg : Cfg) (loads : list (list CfgValue)) (value : CfgValue)
    : option (list (list CfgValue)) :=
  i ← get_inst cfg value;
  Some match data i with ILoad slot => alter (fun l => l ++ [value]) slot loads | _ => loads end.

Definition note_watcher (watchers : list (list nat)) (e : nat * SlotWrites) : option (list (list nat)) :=
  match e with
  | (slot, SwOne init _) =>
      l ← watchers !! init; Some (<[init := l ++ [slot]]> watchers)
  | _ => Some watchers
  end.

(** The mutable state of the event loop. *)
Record State := mkState {
  s_cfg : Cfg; s_stats : Stats; s_queue : list CfgValue; s_watchers : list (list nat) }.

Definition attempt_fold (st : State) (value : CfgValue) : option State :=
  '(cfg, ok) ← fold_instruction (s_cfg st) value;
  let stats := attempted (s_stats st) in
  Some (if (ok : bool) then mkState cfg (did_fold stats) (s_queue st ++ [value]) (s_watchers st)
        else mkState cfg stats (s_queue st) (s_watchers st)).

Definition seed (st : State) (value : CfgValue) : option State :=
  payload ← const_payload (s_cfg st) value;
  match payload with
  | Some _ => Some (mkState (s_cfg st) (s_stats st) (s_queue st ++ [value]) (s_watchers st))
  | None => attempt_fold st value
  end.

Definition rewrite_load (payload : CfgInstData) (st : State) (load : CfgValue) : option State :=
  if is_ownership_boundary_value (s_cfg st) load then Some st else
  cfg ← write_inst_data (s_cfg st) load payload;
  Some (mkState cfg (did_rewrite (s_stats st)) (s_queue st ++ [load]) (s_watchers st)).

Definition resolve_slot (loads_of_slot : list (list CfgValue)) (value : CfgValue) (st : State) (slot : nat)
    : option State :=
  payload ← const_payload (s_cfg st) value;
  payload ← payload;
  loads ← loads_of_slot !! slot;
  fold_opt (rewrite_load payload) st loads.

Definition step_event (ix : CfgUseIndex) (loads_of_slot : list (list CfgValue)) (value : CfgValue)
    (st : State) : option State :=
  match users ix (s_cfg st) value with
  | Ok us =>
      st ← fold_opt attempt_fold st us;
      slots ← s_watchers st !! value;
      let st := mkState (s_cfg st) (s_stats st) (s_queue st) (<[value := []]> (s_watchers st)) in
      fold_opt (resolve_slot loads_of_slot value) st slots
  | _ => None
  end.

(** The event loop; [fuel] bounds the events. *)
Fixpoint event_loop (ix : CfgUseIndex) (loads_of_slot : list (list CfgValue)) (fuel : nat) (st : State)
    : option State :=
  match s_queue st with
  | [] => Some st
  | value :: queue =>
      match fuel with
      | 0 => None
      | S fuel =>
          st ← step_event ix loads_of_slot value (mkState (s_cfg st) (s_stats st) queue (s_watchers st));
          event_loop ix loads_of_slot fuel st
      end
  end.

(** The tables built before the seed pass. *)
Definition tables (cfg : Cfg)
    : option (list SlotWrites * CfgUseIndex * list (list CfgValue) * list (list nat)) :=
  slot_writes ← classify_slot_writes cfg None;
  order ← foldable_values cfg;
  '(ix, r) ← rebuild cfg order index_default;
  match r with
  | Ok _ =>
      loads ← fold_opt (note_load cfg) (replicate (Z.to_nat (num_locals cfg)) []) (seq 0 (value_count cfg));
      watchers ← fold_opt note_watcher (replicate (value_count cfg) []) (imap pair slot_writes);
      Some (slot_writes, ix, loads, watchers)
  | _ => None
  end.

Definition run (cfg : Cfg) : option (Cfg * Stats) :=
  '(_, ix, loads, watchers) ← tables cfg;
  st ← fold_opt seed (mkState cfg stats_default [] watchers) (seq 0 (value_count cfg));
  st ← event_loop ix loads (value_count cfg) st;
  Some (s_cfg st, s_stats st).

(** ** Locality of the kernel *)

(** The fold of an instruction reads its operands only. *)
Lemma fold_data_local c c' T d us : extra c = extra c' -> is_foldable d = true ->
  data_uses c d = Some us -> (forall u, u ∈ us.*1 -> get_inst c u = get_inst c' u) ->
  fold_data c T d = fold_data c' T d.
Proof.
  intros He Hfo Hus Hg.
  assert (forall u, u ∈ us.*1 -> get_const_int c u = get_const_int c' u) as Hci.
  { intros u Hu. by rw /get_const_int Hg. }
  assert (forall u, u ∈ us.*1 -> get_const_bool c u = get_const_bool c' u) as Hcb.
  { intros u Hu. by rw /get_const_bool Hg. }
  assert (forall u, u ∈ us.*1 -> get_enum_variant c u = get_enum_variant c' u) as Hev.
  { intros u Hu. rw /get_enum_variant Hg //. destruct (get_inst c' u) as [i|]; [|done]. simpl.
    destruct (data i); try done. by rw /enum_payload He. }
  destruct d; try done; simpl in Hus; injection Hus as <-; simpl;
    rw /fold_binary_arith /fold_comparison /fold_enum_comparison /fold_comparison_ordered
       /fold_shift /fold_unary_arith /fold_not /either_const_is /const_is;
    repeat match goal with
    | |- context [get_const_int c ?u] => rewrite (Hci u ltac:(simpl; set_solver))
    | |- context [get_const_bool c ?u] => rewrite (Hcb u ltac:(simpl; set_solver))
    | |- context [get_enum_variant c ?u] => rewrite (Hev u ltac:(simpl; set_solver))
    | |- context [get_inst c ?u] => rewrite (Hg u ltac:(simpl; set_solver))
    end; done.
Qed.

Lemma get_inst_lt c v i : get_inst c v = Some i -> v < value_count c.
Proof. apply lookup_lt_Some. Qed.

Definition const_at (c : Cfg) (v : CfgValue) : Prop :=
  exists i r, get_inst c v = Some i /\ const_value (data i) = Some r.

Lemma const_payload_spec c v i : get_inst c v = Some i ->
  const_payload c v = Some (if const_value (data i) then Some (data i) else None).
Proof. intros Hi. rw /const_payload Hi /=. by destruct (data i). Qed.

Lemma foldable_not_const i : is_foldable (data i) = true -> const_value (data i) = None.
Proof. by destruct (data i). Qed.

(** ** The driver's invariant *)

(** Every load of a slot with a single write observes the written value. *)
Definition slot_source (sw : list SlotWrites) (slot : nat) : option CfgValue :=
  match sw !! slot with Some (SwOne v _) => Some v | _ => None end.

Section Driver.
Context (c0 : Cfg) (Hok0 : cfg_ok c0) (Hrefs0 : refs_ok c0) (Hw0 : well_typed c0).
Context (sw : list SlotWrites) (L : list (list CfgValue)) (W0 : list (list nat)).

Notation n := (value_count c0).
Notation source := (slot_source sw).

(** [u] is an operand of the foldable instruction [v] of the original owner. *)
Definition fold_edge (u v : CfgValue) : Prop :=
  exists i us, get_inst c0 v = Some i /\ is_foldable (data i) = true /\
    data_uses c0 (data i) = Some us /\ u ∈ us.*1.

Definition stuck (c : Cfg) (v : CfgValue) : Prop :=
  forall i, get_inst c v = Some i -> is_foldable (data i) = true ->
    fold_data c (ty i) (data i) = Some None.

(** The loads of a slot in the original owner. *)
Definition loads_spec : Prop :=
  forall slot l, L !! slot = Some l -> NoDup l /\
    forall v, v ∈ l <-> exists i, get_inst c0 v = Some i /\ data i = ILoad slot.

(** [c] differs from [c0] by constants only. *)
Record only_constants (c : Cfg) : Prop := {
  oc_values : exists vs, c = set_values vs c0 /\ length vs = n;
  oc_inst : forall v i, get_inst c v = Some i -> const_at c v \/ get_inst c0 v = Some i;
}.

(** The state of the driver: [P] are the processed events, [cur] the event
    being processed, [R] its users still to be attempted, [U] slots still to be
    resolved and [X] slots not yet completely resolved; the seed pass has
    visited the values below [m]. *)
Record inv (P cur R : list CfgValue) (U X : list nat) (m : nat) (st : State) : Prop := {
  inv_ok : cfg_ok (s_cfg st);
  inv_typed : well_typed (s_cfg st);
  inv_equiv : equivalent source c0 (s_cfg st);
  inv_only : only_constants (s_cfg st);
  inv_nodup : NoDup (P ++ cur ++ s_queue st);
  inv_const : forall v, v ∈ P ++ cur ++ s_queue st -> const_at (s_cfg st) v;
  inv_known : forall v, v < m -> const_at (s_cfg st) v -> v ∈ P ++ cur ++ s_queue st;
  inv_seen : forall v, v ∈ P ++ cur ++ s_queue st -> v < m;
  inv_stuck : forall v, v < m -> stuck (s_cfg st) v \/
    (exists u, u ∈ s_queue st /\ fold_edge u v) \/ v ∈ R;
  inv_watch : forall v, v < n -> s_watchers st !! v = (if decide (v ∈ P) then Some [] else W0 !! v);
  inv_unresolved : forall slot v b l load, sw !! slot = Some (SwOne v b) -> v ∉ P \/ slot ∈ U ->
    L !! slot = Some l -> load ∈ l -> get_inst (s_cfg st) load = get_inst c0 load;
  inv_resolved : forall slot v b l load, sw !! slot = Some (SwOne v b) -> v ∈ P -> slot ∉ X ->
    L !! slot = Some l -> load ∈ l -> is_ownership_boundary_value c0 load = false ->
    const_at (s_cfg st) load;
}.

Lemma const_at_not_foldable c v i : const_at c v -> get_inst c v = Some i -> is_foldable (data i) = false.
Proof.
  intros (j & r & Hj & Hr) Hi. assert (j = i) as -> by congruence.
  destruct (is_foldable (data i)) eqn:Hf; [|done]. by rewrite (foldable_not_const i Hf) in Hr.
Qed.

Lemma only_constants_extra c : only_constants c -> extra c = extra c0.
Proof. by intros [(vs & -> & _) _]. Qed.

Lemma only_constants_count c : only_constants c -> value_count c = n.
Proof. by intros [(vs & -> & Hl) _]. Qed.

Lemma stuck_after_write c u d c' v : only_constants c -> write_inst_data c u d = Some c' -> v <> u ->
  stuck c v -> stuck c' v \/ fold_edge u v.
Proof.
  intros Honly Hw Hvu Hs. pose proof (fun w => get_inst_write _ _ _ _ w Hw) as Hg.
  destruct (write_same_frame _ _ _ _ Hw) as [He _].
  destruct (get_inst c v) as [i|] eqn:Hi; last first.
  { left. intros i. by rw Hg decide_False // Hi. }
  destruct (is_foldable (data i)) eqn:Hf; last first.
  { left. intros j. rw Hg decide_False // Hi. intros [= <-]. congruence. }
  destruct (oc_inst _ Honly _ _ Hi) as [Hc|H0].
  { by rewrite (const_at_not_foldable _ _ _ Hc Hi) in Hf. }
  destruct (data_uses_total c0 (data i) (ok_insts _ Hok0 _ _ H0)) as [us Hus].
  destruct (decide (u ∈ us.*1)) as [Hu|Hu]; [right; exists i, us; done|left].
  intros j. rw Hg decide_False // Hi. intros [= <-] _. rw -(Hs i Hi Hf). symmetry.
  apply (fold_data_local c c' _ _ us); try done.
  - revert Hus. by destruct (data i).
  - intros w Hwu. rw Hg decide_False //. by intros ->.
Qed.

(** Making one more value constant. *)
Lemma inv_write P cur R U X m st u iu d r c' stats :
  inv P cur R U X m st -> u < m -> m <= n ->
  get_inst (s_cfg st) u = Some iu -> literal (data iu) = false -> is_move_out (data iu) = false ->
  const_value d = Some r -> const_value (data iu) = None ->
  (forall ρ, env_typed (s_cfg st) ρ -> literals_agree source (s_cfg st) ρ ->
     eval source (s_cfg st) ρ iu = Value r) ->
  (forall slot v b l, sw !! slot = Some (SwOne v b) -> v ∉ P \/ slot ∈ U ->
     L !! slot = Some l -> u ∉ l) ->
  write_inst_data (s_cfg st) u d = Some c' ->
  inv P cur (List.remove Nat.eq_dec u R) U X m (mkState c' stats (s_queue st ++ [u]) (s_watchers st)).
Proof.
  intros [Hok Htyped Hequiv Honly Hnd Hconst Hknown Hseen Hstuck Hwatch Hunres Hres]
    Hum Hmn Hiu Hlit Hmo Hd Hnc Hev Hl Hw.
  destruct (write_const_ok _ Hok Htyped _ _ _ _ _ Hiu Hmo Hd Hw) as [[Hok' _] Ht'].
  pose proof (fun v => get_inst_write _ _ _ _ v Hw) as Hg.
  assert (~ const_at (s_cfg st) u) as Hnew.
  { intros (i & r' & Hi & Hr'). congruence. }
  assert (u ∉ P ++ cur ++ s_queue st) as Hnin by (intros ?%Hconst; done).
  assert (const_at c' u) as Hcu.
  { exists {| data := d; ty := ty iu; span := span iu |}, r. split; [|done].
    by rw Hg decide_True // Hiu. }
  assert (forall v, const_at (s_cfg st) v -> const_at c' v) as Hmono.
  { intros v (i & r' & Hi & Hr'). destruct (decide (v = u)) as [->|Hvu]; [done|].
    exists i, r'. by rw Hg decide_False. }
  assert (forall v, const_at c' v -> v = u \/ const_at (s_cfg st) v) as Hinv.
  { intros v (i & r' & Hi & Hr'). destruct (decide (v = u)) as [->|Hvu]; [by left|].
    right. exists i, r'. by rewrite Hg decide_False in Hi. }
  assert (P ++ cur ++ s_queue st ++ [u] = (P ++ cur ++ s_queue st) ++ [u]) as Happ by by rw -!app_assoc.
  split; simpl; try done.
  - etrans; [exact Hequiv|]. by eapply constant_step.
  - destruct Honly as [(vs & Hvs & Hlen) Hinst]. split.
    + apply write_inst_data_Some in Hw as (i & _ & ->). eexists. split.
      * by rw Hvs.
      * by rw length_insert.
    + intros v i. rw Hg. case_decide as Hvu; [subst v; by left|].
      intros Hi. destruct (Hinst v i Hi) as [Hc|Hc]; [left; by apply Hmono|by right].
  - rw Happ. apply NoDup_app. split; [done|]. split; [|apply NoDup_singleton].
    by intros v Hv ->%list_elem_of_singleton.
  - intros v. rw Happ elem_of_app list_elem_of_singleton.
    intros [Hv| ->]; [by apply Hmono, Hconst|done].
  - intros v Hv. rw Happ elem_of_app list_elem_of_singleton.
    intros [->|Hc]%Hinv; [by right|left; by apply Hknown].
  - intros v. rw Happ elem_of_app list_elem_of_singleton.
    intros [Hv| ->]; [by apply Hseen|done].
  - intros v Hv. destruct (decide (v = u)) as [->|Hvu].
    { left. intros i Hi Hf. by rewrite (const_at_not_foldable _ _ _ Hcu Hi) in Hf. }
    destruct (Hstuck v Hv) as [Hs|[(w & Hwq & Hwe)|HR]].
    + destruct (stuck_after_write _ _ _ _ v Honly Hw Hvu Hs) as [Hs'|He]; [by left|].
      right. left. exists u. split; [|done]. apply elem_of_app. right. by apply list_elem_of_singleton.
    + right. left. exists w. split; [|done]. apply elem_of_app. by left.
    + right. right. apply list_elem_of_In, in_in_remove; [done|]. by apply list_elem_of_In.
  - intros slot v b l load Hsw HU HL Hload. rw Hg decide_False; [by eapply Hunres|].
    intros ->. by eapply Hl.
  - intros slot v b l load Hsw HP HX HL Hload Hb. apply Hmono. by eapply Hres.
Qed.

Lemma inv_weaken P cur R R' U X m st : (forall v, v ∈ R -> v ∈ R' \/ stuck (s_cfg st) v) ->
  inv P cur R U X m st -> inv P cur R' U X m st.
Proof.
  intros HR [? ? ? ? ? ? ? ? Hs ? ? ?]. split; try done. intros v Hv.
  destruct (Hs v Hv) as [?|[?|[?|?]%HR]]; auto.
Qed.

(** The counters take no part in the invariant. *)
Lemma inv_stats P cur R U X m st stats : inv P cur R U X m st ->
  inv P cur R U X m (mkState (s_cfg st) stats (s_queue st) (s_watchers st)).
Proof. by intros []. Qed.

Lemma fold_instruction_false c v i c' : get_inst c v = Some i ->
  fold_instruction c v = Some (c', false) -> fold_data c (ty i) (data i) = Some None.
Proof.
  intros Hi. rw /fold_instruction Hi /=. destruct (fold_data c (ty i) (data i)) as [[d|]|]; [|done..].
  simpl. by destruct (write_inst_data c v d).
Qed.

Lemma inv_get P cur R U X m st v : inv P cur R U X m st -> v < n -> exists i, get_inst (s_cfg st) v = Some i.
Proof.
  intros Hinv Hv. apply lookup_lt_is_Some_2.
  by rewrite -/(value_count (s_cfg st)) (only_constants_count _ (inv_only _ _ _ _ _ _ _ Hinv)).
Qed.

Context (HL : loads_spec).

Lemma inv_attempt P cur R U X m st u : inv P cur (u :: R) U X m st -> u < m -> m <= n ->
  exists st', attempt_fold st u = Some st' /\ inv P cur R U X m st' /\
    fold_attempts (s_stats st') = S (fold_attempts (s_stats st)).
Proof.
  intros Hinv Hum Hmn. destruct (inv_get _ _ _ _ _ _ _ u Hinv ltac:(lia)) as [i Hi].
  destruct (fold_instruction_spec (s_cfg st) (inv_ok _ _ _ _ _ _ _ Hinv) (inv_typed _ _ _ _ _ _ _ Hinv)
    source u i Hi) as (c' & b & Hf & _ & _ & _ & Hb).
  rw /attempt_fold Hf /=. eexists. split; [done|]. destruct b; simpl.
  - split; [|done]. destruct Hb as (Hfo & d & r & Hw & Hr & Hev).
    assert (literal (data i) = false /\ is_move_out (data i) = false) as [Hlit Hmo]
      by by destruct (data i).
    pose proof (foldable_not_const i Hfo) as Hnc.
    assert (get_inst c0 u = Some i) as H0.
    { destruct (oc_inst _ (inv_only _ _ _ _ _ _ _ Hinv) _ _ Hi) as [Hc|?]; [|done].
      by rewrite (const_at_not_foldable _ _ _ Hc Hi) in Hfo. }
    eapply (inv_weaken _ _ (List.remove Nat.eq_dec u (u :: R))).
    { intros v Hv%list_elem_of_In%in_remove. left. apply list_elem_of_In. naive_solver. }
    eapply inv_write; try done.
    intros slot v bb l _ _ Hl Hul. destruct (HL _ _ Hl) as [_ Hspec].
    apply Hspec in Hul as (j & Hj & Hd). simplify_eq. by rewrite Hd in Hfo.
  - subst c'. split; [|done]. apply (inv_stats P cur R U X m st).
    eapply inv_weaken; [|exact Hinv]. intros v [->|Hv]%elem_of_cons; [right|by left].
    intros j Hj _. simplify_eq. by eapply fold_instruction_false.
Qed.

Lemma inv_attempts P cur us U X m st : inv P cur us U X m st -> Forall (fun u => u < m) us -> m <= n ->
  exists st', fold_opt attempt_fold st us = Some st' /\ inv P cur [] U X m st' /\
    fold_attempts (s_stats st') = fold_attempts (s_stats st) + length us.
Proof.
  intros Hinv Hus Hmn. revert st Hinv. induction us as [|u us IH]; intros st Hinv; simpl.
  { exists st. split_and!; [done..|lia]. }
  apply Forall_cons in Hus as [Hu Hus].
  destruct (inv_attempt _ _ _ _ _ _ _ _ Hinv Hu Hmn) as (st1 & -> & Hinv1 & Ha1). simpl.
  destruct (IH Hus _ Hinv1) as (st2 & -> & Hinv2 & Ha2). exists st2. split_and!; [done..|lia].
Qed.

Lemma const_stuck c v : const_at c v -> stuck c v.
Proof. intros Hc i Hi Hf. by rewrite (const_at_not_foldable _ _ _ Hc Hi) in Hf. Qed.

(** One seed visit. *)
Lemma inv_seed m st : inv [] [] [] [] [] m st -> m < n ->
  exists st', seed st m = Some st' /\ inv [] [] [] [] [] (S m) st' /\
    fold_attempts (s_stats st') <= S (fold_attempts (s_stats st)).
Proof.
  intros Hinv Hmn. destruct (inv_get _ _ _ _ _ _ _ m Hinv Hmn) as [i Hi].
  rw /seed (const_payload_spec _ _ _ Hi) /=. destruct (const_value (data i)) as [r|] eqn:Hr.
  - eexists. split; [done|]. split; [|simpl; lia].
    assert (const_at (s_cfg st) m) as Hc by (exists i, r; done).
    destruct Hinv as [? ? ? ? Hnd Hconst Hknown Hseen Hstuck Hwatch ? ?]. split; simpl in *; try done.
    + apply NoDup_app. split; [done|]. split; [|apply NoDup_singleton].
      intros v Hv ->%list_elem_of_singleton. by apply Hseen, Nat.lt_irrefl in Hv.
    + intros v [Hv| ->%list_elem_of_singleton]%elem_of_app; [by apply Hconst|done].
    + intros v Hv Hcv. apply elem_of_app. destruct (decide (v = m)) as [->|].
      * right. by apply list_elem_of_singleton.
      * left. apply Hknown; [lia|done].
    + intros v [Hv| ->%list_elem_of_singleton]%elem_of_app; [|lia].
      apply Hseen in Hv. lia.
    + intros v Hv. destruct (decide (v = m)) as [->|]; [left; by apply const_stuck|].
      destruct (Hstuck v ltac:(lia)) as [?|[(u & Hu & He)|?]]; [by left| |by right; right].
      right. left. exists u. split; [|done]. apply elem_of_app. by left.
  - assert (~ const_at (s_cfg st) m) as Hnc by (intros (j & r & Hj & Hjr); congruence).
    assert (inv [] [] [m] [] [] (S m) st) as Hinv'.
    { destruct Hinv as [? ? ? ? Hnd Hconst Hknown Hseen Hstuck Hwatch ? ?]. split; simpl in *; try done.
      - intros v Hv Hcv. apply Hknown; [|done]. assert (v <> m) by by intros ->. lia.
      - intros v Hv%Hseen. lia.
      - intros v Hv. destruct (decide (v = m)) as [->|].
        + right. right. by apply list_elem_of_singleton.
        + destruct (Hstuck v ltac:(lia)) as [?|[?|[]%not_elem_of_nil]]; auto. }
    destruct (inv_attempt _ _ _ _ _ _ _ m Hinv' ltac:(lia) ltac:(lia)) as (st' & -> & Hi' & Ha).
    exists st'. split_and!; [done..|lia].
Qed.

Lemma inv_seeds k m st : inv [] [] [] [] [] m st -> m + k = n ->
  exists st', fold_opt seed st (seq m k) = Some st' /\ inv [] [] [] [] [] n st' /\
    fold_attempts (s_stats st') <= fold_attempts (s_stats st) + k.
Proof.
  revert m st. induction k as [|k IH]; intros m st Hinv Hk; simpl.
  { exists st. rw -Hk Nat.add_0_r. split_and!; [done..|lia]. }
  destruct (inv_seed m st Hinv ltac:(lia)) as (st1 & -> & Hinv1 & Ha1). simpl.
  destruct (IH (S m) st1 Hinv1 ltac:(lia)) as (st2 & -> & Hinv2 & Ha2).
  exists st2. split_and!; [done..|lia].
Qed.

(** ** Resolving slots *)

Definition watchers_spec : Prop :=
  length W0 = n /\ forall v slots, W0 !! v = Some slots -> NoDup slots /\
    forall slot, slot ∈ slots <-> exists b, sw !! slot = Some (SwOne v b).

Context (HW : watchers_spec) (HLlen : length L = length sw).

(** Rewriting the loads of one slot whose written value is the constant
    [payload]; [T] are the loads still to be rewritten. *)
Lemma inv_rewrite_loads P cur U X slot v b payload r st T :
  inv P cur [] U X n st -> sw !! slot = Some (SwOne v b) -> slot ∉ U -> v ∈ P ->
  const_value payload = Some r ->
  (exists i, get_inst (s_cfg st) v = Some i /\ data i = payload) ->
  NoDup T -> (forall load, load ∈ T -> exists i, get_inst c0 load = Some i /\ data i = ILoad slot) ->
  (forall load, load ∈ T -> get_inst (s_cfg st) load = get_inst c0 load) ->
  exists st', fold_opt (rewrite_load payload) st T = Some st' /\ inv P cur [] U X n st' /\
    fold_attempts (s_stats st') = fold_attempts (s_stats st) /\
    (forall w, const_at (s_cfg st) w -> const_at (s_cfg st') w) /\
    (forall load, load ∈ T -> is_ownership_boundary_value c0 load = false -> const_at (s_cfg st') load) /\
    (forall load, load ∉ T -> get_inst (s_cfg st') load = get_inst (s_cfg st) load) /\
    (exists i, get_inst (s_cfg st') v = Some i /\ data i = payload).
Proof.
  intros Hinv Hsw HU HP Hr Hv Hnd Hloads. revert st Hinv Hv Hnd Hloads.
  induction T as [|load T IH]; intros st Hinv Hv Hnd Hloads Hsame; simpl.
  { exists st. split_and!; try done. by intros load ?%not_elem_of_nil. }
  apply NoDup_cons in Hnd as [Hni Hnd].
  destruct (Hloads load ltac:(by left)) as (i & Hi & Hd).
  assert (is_ownership_boundary_value (s_cfg st) load = is_ownership_boundary_value c0 load) as Hob.
  { destruct (oc_values _ (inv_only _ _ _ _ _ _ _ Hinv)) as (vs & -> & _). done. }
  rw /rewrite_load Hob. destruct (is_ownership_boundary_value c0 load) eqn:Hbound; simpl.
  { destruct (IH st Hinv Hv Hnd) as (st' & Hst' & Hinv' & Ha & Hmono & Hc & Hs & Hv').
    - intros l Hl. apply Hloads. by right.
    - intros l Hl. apply Hsame. by right.
    - exists st'. split_and!; try done.
      + intros l [->|Hl]%elem_of_cons Hb; [congruence|by apply Hc].
      + intros l Hl. apply Hs. intros Hl'. apply Hl. by right. }
  rewrite -(Hsame load) in Hi; [|by left].
  assert (exists c', write_inst_data (s_cfg st) load payload = Some c') as [c' Hw].
  { rw /write_inst_data Hi /=. eauto. }
  pose proof (fun w => get_inst_write _ _ _ _ w Hw) as Hg.
  assert (load < n) as Hln.
  { apply get_inst_lt in Hi. by rewrite (only_constants_count _ (inv_only _ _ _ _ _ _ _ Hinv)) in Hi. }
  assert (v <> load) as Hvl.
  { intros ->. destruct Hv as (j & Hj & Hdj). simplify_eq. by rewrite Hd in Hr. }
  set (st1 := mkState c' (did_rewrite (s_stats st)) (s_queue st ++ [load]) (s_watchers st)).
  assert (inv P cur [] U X n st1) as Hinv1.
  { apply (inv_write P cur [] U X n st load i payload r c'); try done; try by rewrite Hd.
    - intros ρ _ Hlit. rw /eval Hd /= /slot_source Hsw. f_equal.
      destruct Hv as (j & Hj & Hdj). apply (Hlit v j); [done|rw Hdj; by destruct payload|].
      rw /eval Hdj. by apply const_value_eval.
    - intros slot' v' b' l Hsw' HU' Hl Hin. destruct (HL _ _ Hl) as [_ Hspec].
      apply Hspec in Hin as (j & Hj & Hdj). rewrite -(Hsame load) in Hj; [|by left].
      assert (slot' = slot) as -> by congruence. simplify_eq. naive_solver. }
  rw Hw /=. destruct (IH st1 Hinv1) as (st' & Hst' & Hinv' & Ha & Hmono & Hc & Hs & Hv').
  - destruct Hv as (j & Hj & Hdj). exists j. by rw /st1 /= Hg decide_False.
  - done.
  - intros l Hl. apply Hloads. by right.
  - intros l Hl. rw /st1 /= Hg decide_False; [apply Hsame; by right|]. by intros ->.
  - exists st'. split_and!; try done.
    + intros w (j & rj & Hj & Hrj). apply Hmono. destruct (decide (w = load)) as [->|Hwl].
      * exists {| data := payload; ty := ty i; span := span i |}, r. split; [|done].
        by rw /st1 /= Hg decide_True // Hi.
      * exists j, rj. by rw /st1 /= Hg decide_False.
    + intros l [->|Hl]%elem_of_cons Hb; [|by apply Hc]. apply Hmono.
      exists {| data := payload; ty := ty i; span := span i |}, r. split; [|done].
      by rw /st1 /= Hg decide_True // Hi.
    + intros l Hl. rw Hs; [|intros Hl'; apply Hl; by right].
      rw /st1 /= Hg decide_False //. intros ->. apply Hl. by left.
Qed.

(** Resolving the slots that wait for the constant [v]. *)
Lemma inv_resolve P v slots st :
  inv P [] [] slots slots n st -> v ∈ P -> NoDup slots ->
  (forall slot, slot ∈ slots -> exists b, sw !! slot = Some (SwOne v b)) ->
  (exists i r, get_inst (s_cfg st) v = Some i /\ const_value (data i) = Some r) ->
  exists st', fold_opt (resolve_slot L v) st slots = Some st' /\ inv P [] [] [] [] n st' /\
    fold_attempts (s_stats st') = fold_attempts (s_stats st).
Proof.
  revert st. induction slots as [|slot slots IH]; intros st Hinv HP Hnd Hsl Hv; simpl.
  { exists st. done. }
  apply NoDup_cons in Hnd as [Hni Hnd]. destruct (Hsl slot ltac:(by left)) as [b Hsw].
  destruct Hv as (i & r & Hi & Hr).
  assert (exists l, L !! slot = Some l) as [l Hl].
  { apply lookup_lt_is_Some_2. rw HLlen. by eapply lookup_lt_Some. }
  destruct (HL _ _ Hl) as [Hndl Hspec].
  rw /resolve_slot (const_payload_spec _ _ _ Hi) Hr /= Hl /=.
  assert (inv P [] [] slots (slot :: slots) n st) as Hinv'.
  { destruct Hinv as [? ? ? ? ? ? ? ? ? ? Hun ?]. split; try done.
    intros s v' b' l' load Hs Ho. apply (Hun s v' b' l' load Hs).
    destruct Ho as [?|?]; [by left|right; by right]. }
  destruct (inv_rewrite_loads P [] slots (slot :: slots) slot v b (data i) r st l Hinv' Hsw Hni HP Hr)
    as (st1 & Hst1 & Hinv1 & Ha1 & Hmono & Hc1 & _ & Hv1); try done.
  { by exists i. }
  { intros load Hin. by apply Hspec. }
  { intros load Hin. apply (inv_unresolved _ _ _ _ _ _ _ Hinv slot v b l load); try done.
    right. by left. }
  rw Hst1 /=. destruct (IH st1) as (st2 & Hst2 & Hinv2 & Ha2); try done.
  - destruct Hinv1 as [? ? ? ? ? ? ? ? ? ? ? Hres]. split; try done.
    intros s v' b' l' load Hs HP' HX Hl' Hin Hb. destruct (decide (s = slot)) as [->|Hss].
    + simplify_eq. by apply Hc1.
    + apply (Hres s v' b' l' load); try done. by intros [?|?]%elem_of_cons.
  - intros s Hs. apply Hsl. by right.
  - destruct Hv1 as (j & Hj & Hd). exists j, r. by rw Hd.
  - exists st2. split_and!; try done. lia.
Qed.

(** ** One event *)

Context (ix : CfgUseIndex) (es : list (CfgValue * CfgValue)).
Definition users_spec : Prop :=
  (forall v, v < n -> users ix c0 v = Ok (users_in es v)) /\
  (forall u v, u ∈ users_in es v <-> fold_edge v u) /\
  (forall u v, fold_edge v u -> u < n).
Context (Hix : users_spec).

Lemma users_only_constants c v : only_constants c -> same_frame c0 c -> v < n ->
  users ix c v = Ok (users_in es v).
Proof.
  intros Hoc [_ Hf] Hv. rw -(proj1 Hix v Hv). destruct (oc_values _ Hoc) as (vs & Hvs & Hlen).
  rw /users. destruct (owner ix) as [o|]; [|done].
  assert (value_count c = n) as -> by by rw Hvs.
  assert (owner_identity c = owner_identity c0) as -> by by rw Hvs.
  assert (v < value_count c) as Hvc by by rw (only_constants_count _ Hoc).
  destruct (lookup_lt_is_Some_2 _ _ Hvc) as [i Hi], (lookup_lt_is_Some_2 _ _ Hv) as [i0 Hi0].
  specialize (Hf v). rewrite /operand_type /get_inst Hi Hi0 /= in Hf. injection Hf as Hf.
  by rw /get_inst Hi Hi0 /= -Hf.
Qed.

Lemma inv_event P v q st : inv P [] [] [] [] n st -> s_queue st = v :: q ->
  exists st', step_event ix L v (mkState (s_cfg st) (s_stats st) q (s_watchers st)) = Some st' /\
    inv (P ++ [v]) [] [] [] [] n st' /\
    fold_attempts (s_stats st') = fold_attempts (s_stats st) + length (users_in es v).
Proof.
  intros Hinv Hq. pose proof Hinv as [? ? Heq Honly Hnd Hconst Hknown Hseen Hstuck Hwatch Hun Hres].
  rewrite Hq in Hnd, Hconst, Hknown, Hseen, Hstuck.
  assert (v < n) as Hv by (apply Hseen, elem_of_app; right; by left).
  assert (v ∉ P) as HvP.
  { intros HP. apply NoDup_app in Hnd as (_ & Hnd & _). apply (Hnd v HP). by left. }
  destruct (Hconst v ltac:(apply elem_of_app; right; by left)) as (i & r & Hi & Hr).
  rw /step_event /= (users_only_constants _ v Honly (equivalent_frame _ _ _ Heq) Hv).
  assert (inv P [v] (users_in es v) [] [] n (mkState (s_cfg st) (s_stats st) q (s_watchers st))) as Hinv1.
  { split; simpl in *; try done. intros w Hw.
    destruct (Hstuck w Hw) as [?|[(u & [->|Hu]%elem_of_cons & He)|[]%not_elem_of_nil]]; [by left| |].
    - right. right. by apply (proj1 (proj2 Hix)).
    - right. left. by exists u. }
  destruct (inv_attempts P [v] (users_in es v) [] [] n _ Hinv1) as (st1 & -> & Hinv2 & Ha1); [|done|].
  { apply Forall_forall. intros u Hu. apply (proj2 (proj2 Hix) u v). by apply (proj1 (proj2 Hix)). }
  simpl. destruct HW as [HWl HWs].
  destruct (lookup_lt_is_Some_2 W0 v ltac:(lia)) as [slots Hslots].
  destruct (HWs _ _ Hslots) as [Hnds Hspec].
  rw (inv_watch _ _ _ _ _ _ _ Hinv2 v Hv) decide_False // Hslots /=.
  set (st2 := mkState (s_cfg st1) (s_stats st1) (s_queue st1) (<[v := []]> (s_watchers st1))).
  assert (inv (P ++ [v]) [] [] slots slots n st2) as Hinv3.
  { destruct Hinv2 as [? ? ? ? Hnd2 Hconst2 Hknown2 Hseen2 Hstuck2 Hwatch2 Hun2 Hres2].
    rewrite !app_assoc in Hnd2. setoid_rewrite app_assoc in Hconst2.
    setoid_rewrite app_assoc in Hknown2. setoid_rewrite app_assoc in Hseen2.
    split; simpl; try done.
    - intros w Hw. destruct (decide (w = v)) as [->|Hwv].
      + rw list_lookup_insert_eq; [|by eapply lookup_lt_Some; rw Hwatch2 // decide_False].
        rw decide_True //. apply elem_of_app. right. by apply list_elem_of_singleton.
      + rw list_lookup_insert_ne // Hwatch2 //. apply decide_ext. rw elem_of_app list_elem_of_singleton.
        naive_solver.
    - intros slot v' b l load Hs Ho. apply (Hun2 slot v' b l load Hs). left.
      destruct Ho as [Hn|Hin]; [intros HP; by apply Hn, elem_of_app; left|].
      apply Hspec in Hin as [b' Hb']. by simplify_eq.
    - intros slot v' b l load Hs HP Hn. apply (Hres2 slot v' b l load Hs); [|by apply not_elem_of_nil].
      apply elem_of_app in HP as [?| ->%list_elem_of_singleton]; [done|].
      exfalso. apply Hn, Hspec. by exists b. }
  assert (const_at (s_cfg st1) v) as Hcv.
  { apply (inv_const _ _ _ _ _ _ _ Hinv2). apply elem_of_app. right. by left. }
  destruct (inv_resolve (P ++ [v]) v slots st2 Hinv3) as (st3 & Hst3 & Hinv4 & Ha3); try done.
  { apply elem_of_app. right. by apply list_elem_of_singleton. }
  { intros slot Hin. by apply Hspec. }
  exists st3. split_and!; [done..|]. rw Ha3 /= Ha1 //.
Qed.

(** ** The loop ends *)

Definition work (P : list CfgValue) : nat := sum_list_with (fun v => length (users_in es v)) P.

Lemma work_app P P' : work (P ++ P') = work P + work P'.
Proof. induction P as [|v P IH]; simpl; [done|]. rw IH. lia. Qed.

Lemma queue_bound P st : inv P [] [] [] [] n st -> length P + length (s_queue st) <= n.
Proof.
  intros Hinv. rw -length_app -(length_seq n 0).
  apply submseteq_length, NoDup_submseteq; [apply (inv_nodup _ _ _ _ _ _ _ Hinv)|].
  intros v Hv. apply elem_of_seq. pose proof (inv_seen _ _ _ _ _ _ _ Hinv v Hv). lia.
Qed.

Lemma event_loop_ok fuel P st : inv P [] [] [] [] n st -> length P + fuel = n ->
  exists P' st', event_loop ix L fuel st = Some st' /\ inv P' [] [] [] [] n st' /\
    s_queue st' = [] /\
    fold_attempts (s_stats st') + work P = fold_attempts (s_stats st) + work P'.
Proof.
  revert P st. induction fuel as [|fuel IH]; intros P st Hinv Hf; simpl;
    destruct (s_queue st) as [|v q] eqn:Hq; try (by exists P, st).
  - pose proof (queue_bound P st Hinv) as Hb. rewrite Hq /= in Hb. lia.
  - destruct (inv_event P v q st Hinv Hq) as (st1 & -> & Hinv1 & Ha1). simpl.
    destruct (IH (P ++ [v]) st1 Hinv1) as (P' & st' & Hl & Hinv' & Hq' & Ha).
    { rw length_app /=. lia. }
    exists P', st'. split_and!; try done. rewrite work_app /= in Ha. lia.
Qed.

(** Distinct values have distinct edges. *)
Lemma work_bound P (l : list (CfgValue * CfgValue)) : NoDup P ->
  sum_list_with (fun v => length (users_in l v)) P <= length l.
Proof.
  intros Hnd. induction l as [|[u w] l IH]; simpl.
  - clear Hnd. induction P; simpl; lia.
  - assert (sum_list_with (fun v => length (users_in ((u, w) :: l) v)) P <=
            sum_list_with (fun v => length (users_in l v)) P + 1) as Hs; [|lia].
    clear IH. induction Hnd as [|v P Hv Hnd IH]; simpl; [lia|].
    rw (users_in_app [(u, w)] l v) users_in_one length_app.
    destruct (decide (w = v)) as [->|Hwv]; simpl; [|lia].
    assert (sum_list_with (fun v0 => length (users_in ((u, v) :: l) v0)) P =
            sum_list_with (fun v0 => length (users_in l v0)) P) as ->; [|lia].
    clear IH Hnd. induction P as [|x P IH]; simpl; [done|].
    apply not_elem_of_cons in Hv as [Hvx Hv]. rw IH //.
    by rw (users_in_app [(u, v)] l x) users_in_one decide_False.
Qed.

Lemma inv_start : inv [] [] [] [] [] 0 (mkState c0 stats_default [] W0).
Proof.
  split; simpl; try done.
  - split; [|by right]. exists (values c0). split; [by destruct c0|done].
  - constructor.
  - by intros v ?%not_elem_of_nil.
  - intros v Hv. lia.
  - by intros v ?%not_elem_of_nil.
  - intros v Hv. lia.
  - intros slot v b l load _ Hn. by apply not_elem_of_nil in Hn.
Qed.

(** The whole run over the tables. *)
Lemma run_tables :
  exists P st, (st ← fold_opt seed (mkState c0 stats_default [] W0) (seq 0 n); event_loop ix L n st) = Some st /\
    inv P [] [] [] [] n st /\ s_queue st = [] /\
    fold_attempts (s_stats st) <= n + length es.
Proof.
  destruct (inv_seeds n 0 _ inv_start ltac:(lia)) as (st1 & -> & Hinv1 & Ha1). simpl.
  destruct (event_loop_ok n [] st1 Hinv1 ltac:(done)) as (P & st & -> & Hinv & Hq & Ha).
  exists P, st. split_and!; try done. simpl in Ha1, Ha.
  pose proof (inv_nodup _ _ _ _ _ _ _ Hinv) as Hnd. rewrite Hq !app_nil_r in Hnd.
  pose proof (work_bound P es Hnd) as Hwb. rewrite -/(work P) in Hwb. lia.
Qed.
End Driver.

(** ** The tables *)

Section Tables.
Context (c0 : Cfg) (Hok0 : cfg_ok c0) (Hrefs0 : refs_ok c0).

Lemma foldable_values_spec : exists order, foldable_values c0 = Some order /\
  forall v, v ∈ order <-> exists i, get_inst c0 v = Some i /\ is_foldable (data i) = true.
Proof.
  destruct (flat_opt_total (fun value => b ← is_foldable_instruction c0 value;
    Some (if (b : bool) then [value] else [])) (seq 0 (value_count c0))) as [order Ho].
  { apply Forall_forall. intros v Hv%elem_of_seq.
    destruct (lookup_lt_is_Some_2 (values c0) v) as [i Hi]; [rewrite /value_count in Hv; lia|].
    rw /is_foldable_instruction /get_inst Hi /=. by eexists. }
  exists order. split; [done|]. intros v. rw (flat_opt_elem _ _ _ v Ho). split.
  - intros (w & l & Hw & Hl & Hv). rewrite /is_foldable_instruction in Hl.
    destruct (get_inst c0 w) as [i|] eqn:Hi; [|done]. simpl in Hl.
    destruct (is_foldable (data i)) eqn:Hf; simplify_eq; [|by apply not_elem_of_nil in Hv].
    apply list_elem_of_singleton in Hv as ->. by exists i.
  - intros (i & Hi & Hf). exists v, [v]. split_and!; [|by rw /is_foldable_instruction Hi /= Hf|by left].
    apply elem_of_seq. split; [lia|]. by eapply get_inst_lt.
Qed.

Lemma users_in_elem es u v : u ∈ users_in es v <-> (u, v) ∈ es.
Proof.
  rw /users_in list_elem_of_fmap. split.
  - intros ([u' v'] & -> & [Hv Hin]%list_elem_of_filter). simpl in *. by subst.
  - intros Hin. exists (u, v). split; [done|]. by apply list_elem_of_filter.
Qed.

Lemma index_spec order es ix : (forall v, v ∈ order <-> exists i, get_inst c0 v = Some i /\ is_foldable (data i) = true) ->
  edges c0 order = Some es -> (forall v, v < value_count c0 -> users ix c0 v = Ok (users_in es v)) ->
  users_spec c0 ix es.
Proof.
  intros Ho Hes Hu. split_and!; [done| |].
  - intros u v. rw users_in_elem (flat_opt_elem _ _ _ (u, v) Hes). split.
    + intros (w & l & Hw & Hl & Hin). rewrite /user_edges in Hl.
      destruct (visit_instruction_uses c0 w) as [us|] eqn:Hus; [|done]. injection Hl as <-.
      apply list_elem_of_fmap in Hin as (v' & [= -> ->] & Hv'). apply Ho in Hw as (i & Hi & Hf).
      rewrite /visit_instruction_uses /visit_instruction_uses_kinded Hi /= in Hus.
      destruct (data_uses c0 (data i)) as [ks|] eqn:Hks; [|done]. injection Hus as <-.
      exists i, ks. done.
    + intros (i & us & Hi & Hf & Hus & Hv). exists u, (map (pair u) us.*1). split_and!.
      * apply Ho. by exists i.
      * by rw /user_edges /visit_instruction_uses /visit_instruction_uses_kinded Hi /= Hus.
      * apply list_elem_of_fmap. by exists v.
  - intros u v (i & us & Hi & _). by eapply get_inst_lt.
Qed.

Lemma seq_not_seen m k pre a post : seq m k = pre ++ a :: post -> a ∉ pre.
Proof.
  intros Hs. pose proof (NoDup_seq m k) as Hnd. rewrite Hs in Hnd.
  apply NoDup_app in Hnd as (_ & Hnd & _). intros Ha. apply (Hnd a Ha). by left.
Qed.

Lemma loads_table k : exists L, fold_opt (note_load c0) (replicate k []) (seq 0 (value_count c0)) = Some L /\
  length L = k /\ loads_spec c0 L.
Proof.
  destruct (fold_opt_total (note_load c0) (fun pre t => length t = k /\
    forall slot l, t !! slot = Some l -> NoDup l /\
      forall v, v ∈ l <-> v ∈ pre /\ exists i, get_inst c0 v = Some i /\ data i = ILoad slot)
    (seq 0 (value_count c0)) (replicate k [])) as (L & HL & Hlen & Hspec).
  - split; [apply length_replicate|]. intros slot l [-> _]%lookup_replicate_1. split; [constructor|].
    intros v. rw elem_of_nil. naive_solver.
  - intros pre a t [post Hpost] [Hlen Ht].
    assert (a < value_count c0) as Ha.
    { assert (a ∈ seq 0 (value_count c0)) as Hin; [|apply elem_of_seq in Hin; lia].
      rw Hpost. apply elem_of_app. right. by left. }
    pose proof (seq_not_seen _ _ _ _ _ Hpost) as Hnew.
    destruct (lookup_lt_is_Some_2 (values c0) a Ha) as [i Hi]. rewrite -/(get_inst c0 a) in Hi.
    assert (forall s l, t !! s = Some l -> data i <> ILoad s -> NoDup l /\
      forall v, v ∈ l <-> v ∈ pre ++ [a] /\ exists i, get_inst c0 v = Some i /\ data i = ILoad s) as Hkeep.
    { intros s l Hl Hd. destruct (Ht s l Hl) as [Hn Hv]. split; [done|]. intros v.
      rw Hv elem_of_app list_elem_of_singleton. split; [intros [? ?]; auto|].
      intros [[?| ->] (j & Hj & Hdj)]; [eauto|congruence]. }
    rw /note_load Hi /=. eexists. split; [done|].
    destruct (data i) eqn:Hd; try (split; [done|]; intros s l Hl; by apply Hkeep).
    split; [etrans; [apply length_alter|done]|]. intros s l Hl. destruct (decide (s = slot)) as [->|Hss].
    + rewrite list_lookup_alter_eq in Hl. destruct (t !! slot) as [l0|] eqn:Hl0; [|done].
      injection Hl as <-. destruct (Ht slot l0 Hl0) as [Hn Hv]. split.
      * apply NoDup_app. split; [done|]. split; [|apply NoDup_singleton].
        intros x [Hx _]%Hv ->%list_elem_of_singleton. done.
      * intros v. rw !elem_of_app Hv list_elem_of_singleton. split; [|naive_solver].
        intros [[? ?]| ->]; [auto|]. split; [by right|]. by exists i.
    + rewrite list_lookup_alter_ne in Hl; [|done]. apply Hkeep; [done|]. by intros [= ->].
  - exists L. split_and!; try done. intros slot l Hl. destruct (Hspec slot l Hl) as [Hn Hv].
    split; [done|]. intros v. rw Hv. split; [naive_solver|]. intros (i & Hi & Hd). split; [|eauto].
    apply elem_of_seq. split; [lia|]. by eapply get_inst_lt.
Qed.

(** The written value of a whole-slot write is an operand. *)
Lemma write_init_bound es s v b : cfg_events c0 None = Some es ->
  WriteLocal s (Some (v, b)) ∈ es -> v < value_count c0.
Proof.
  intros Hes (bb & l & Hbb & Hl & Hin)%(flat_opt_elem _ _ _ _ Hes).
  simpl in Hl. apply (flat_opt_elem _ _ _ _ Hl) in Hin as (w & evs & Hw & Hevs & Hin).
  apply list_elem_of_lookup in Hbb as [k Hk].
  pose proof (proj1 (Forall_forall _ _) (block_ok_insts _ _ _ (ok_blocks _ Hok0 _ _ Hk)) w Hw) as Hwn.
  simpl in Hwn. destruct (uses_total c0 Hok0 w Hwn) as [us Hus].
  pose proof (refs_insts _ Hrefs0 w us Hwn Hus) as Hr.
  rewrite /inst_events in Hevs. rewrite /visit_instruction_uses /visit_instruction_uses_kinded in Hus.
  destruct (get_inst c0 w) as [i|]; [|done]. simpl in Hevs, Hus.
  assert (forall a ea, arg_events c0 a = Some ea -> WriteLocal s (Some (v, b)) ∉ ea) as Harg.
  { intros a ea. rw /arg_events. destruct (negb (is_by_ref a)); [intros [= <-]; by apply not_elem_of_nil|].
    destruct (get_inst c0 (arg_value a)) as [j|]; [|done]. simpl. intros [= <-].
    destruct (data j); try destruct (base place); simpl; set_solver. }
  assert (forall l, flat_opt (arg_events c0) l = Some evs -> False) as Hargs.
  { intros l' Hl'. apply (flat_opt_elem _ _ _ _ Hl') in Hin as (a & ea & _ & Hea & Hin).
    by apply (Harg _ _ Hea). }
  destruct (data i); simplify_eq/=; try (by apply not_elem_of_nil in Hin);
    try (destruct (call_args_of c0 args); [|done]; by destruct (Hargs _ Hevs)).
  - apply list_elem_of_singleton in Hin as [= -> ->]. by inversion Hr.
  - apply list_elem_of_singleton in Hin as [= -> ->]. by inversion Hr.
  - by apply list_elem_of_singleton in Hin.
  - destruct (base place); simpl in Hin; set_solver.
Qed.

Lemma slot_class_one slot es v b : slot_class slot es = SwOne v b ->
  exists s, WriteLocal s (Some (v, b)) ∈ es.
Proof.
  rw /slot_class. destruct (filter (fun x => touches_local slot x) es) as [|e l] eqn:Hf; [done|].
  intros Hc. assert (e ∈ es) as He.
  { assert (e ∈ filter (fun x => touches_local slot x) es) as [_ ?]%list_elem_of_filter; [|done].
    rw Hf. by left. }
  destruct e as [s [[v' b']|]|s|], l; try done. simplify_eq. eauto.
Qed.

Lemma watchers_table sw : (forall slot v b, sw !! slot = Some (SwOne v b) -> v < value_count c0) ->
  exists W0, fold_opt note_watcher (replicate (value_count c0) []) (imap pair sw) = Some W0 /\
    watchers_spec c0 sw W0.
Proof.
  intros Hb.
  assert (NoDup (imap pair sw)) as Hnd.
  { apply (NoDup_fmap_1 fst). rw fmap_imap. apply NoDup_alt. intros i j x Hi Hj.
    rewrite list_lookup_imap in Hi. rewrite list_lookup_imap in Hj.
    destruct (sw !! i), (sw !! j); simplify_eq/=. done. }
  destruct (fold_opt_total note_watcher (fun pre t => length t = value_count c0 /\
    forall v slots, t !! v = Some slots -> NoDup slots /\
      forall slot, slot ∈ slots <-> exists b, (slot, SwOne v b) ∈ pre)
    (imap pair sw) (replicate (value_count c0) [])) as (W0 & HW & Hlen & Hspec).
  - split; [apply length_replicate|]. intros v l [-> _]%lookup_replicate_1. split; [constructor|].
    intros slot. rw elem_of_nil. split; [done|]. by intros [b ?%not_elem_of_nil].
  - intros pre [slot st] t [post Hpost] [Hlen Ht].
    assert (sw !! slot = Some st) as Hsl.
    { assert ((slot, st) ∈ imap pair sw) as [k Hk]%list_elem_of_lookup.
      { rw Hpost. apply elem_of_app. right. by left. }
      rewrite list_lookup_imap in Hk. by apply fmap_Some in Hk as (x & Hx & [= -> ->]). }
    assert ((slot, st) ∉ pre) as Hnew.
    { rewrite Hpost in Hnd. apply NoDup_app in Hnd as (_ & Hnd & _). intros Ha. apply (Hnd _ Ha). by left. }
    assert (forall v slots, t !! v = Some slots -> (forall b, st <> SwOne v b) -> NoDup slots /\
      forall s, s ∈ slots <-> exists b, (s, SwOne v b) ∈ pre ++ [(slot, st)]) as Hkeep.
    { intros v slots Hv Hne. destruct (Ht v slots Hv) as [Hn Hs]. split; [done|]. intros s.
      rw Hs. split; intros [b Hin]; exists b.
      - apply elem_of_app. by left.
      - apply elem_of_app in Hin as [?|[= -> <-]%list_elem_of_singleton]; [done|]. by destruct (Hne b). }
    destruct st as [|v b|]; simpl.
    + exists t. split; [done|]. split; [done|]. intros v slots Hv. by apply Hkeep.
    + destruct (lookup_lt_is_Some_2 t v) as [l Hl]; [rw Hlen; by eapply Hb|]. rw Hl /=.
      eexists. split; [done|]. split; [by rw length_insert|]. intros w slots.
      intros [(<- & <- & _)|(Hvw & Hw)]%list_lookup_insert_Some.
      * destruct (Ht v l Hl) as [Hn Hs]. split.
        -- apply NoDup_app. split; [done|]. split; [|apply NoDup_singleton].
           intros x Hx ->%list_elem_of_singleton. apply Hs in Hx as [b' Hin].
           assert (b' = b) as ->; [|done].
           assert ((slot, SwOne v b') ∈ imap pair sw) as [k Hk]%list_elem_of_lookup.
           { rw Hpost. apply elem_of_app. by left. }
           rewrite list_lookup_imap in Hk. apply fmap_Some in Hk as (x & Hx & [= -> <-]). congruence.
        -- intros s. rw elem_of_app Hs list_elem_of_singleton. split.
           ++ intros [[b' Hin]| ->]; [exists b'|exists b]; apply elem_of_app; [by left|right; by left].
           ++ intros [b' [Hin|[= -> ->]%list_elem_of_singleton]%elem_of_app]; [left; by exists b'|by right].
      * apply Hkeep; [done|]. by intros b' [= ->].
    + exists t. split; [done|]. split; [done|]. intros v slots Hv. by apply Hkeep.
  - exists W0. split; [done|]. split; [done|]. intros v slots Hv.
    destruct (Hspec v slots Hv) as [Hn Hs]. split; [done|]. intros slot. rw Hs. split; intros [b Hin]; exists b.
    + apply list_elem_of_lookup in Hin as [k Hk]. rewrite list_lookup_imap in Hk.
      by apply fmap_Some in Hk as (x & Hx & [= -> ->]).
    + apply list_elem_of_lookup. exists slot. by rw list_lookup_imap Hin.
Qed.
End Tables.

(** A run, with the driver's invariant at its end. *)
Lemma run_spec c0 : cfg_ok c0 -> refs_ok c0 -> well_typed c0 ->
  exists sw L W0 ix order es P st, classify_slot_writes c0 None = Some sw /\
    foldable_values c0 = Some order /\ edges c0 order = Some es /\
    loads_spec c0 L /\ length L = length sw /\
    run c0 = Some (s_cfg st, s_stats st) /\
    inv c0 sw L W0 P [] [] [] [] (value_count c0) st /\ s_queue st = [] /\
    fold_attempts (s_stats st) <= value_count c0 + length es /\ users_spec c0 ix es.
Proof.
  intros Hok Hrefs Hw.
  destruct (slot_writes_exact_spec c0 None Hok Hrefs) as (sw & evs & Hsw & Hevs & Hswl & Hclass).
  destruct (foldable_values_spec c0) as (order & Horder & Hin).
  assert (Forall (fun u => u < value_count c0) order) as Hbound.
  { apply Forall_forall. intros u (i & Hi & _)%Hin. by eapply get_inst_lt. }
  destruct (rebuild_spec c0 order index_default Hok Hrefs index_default_ok Hbound)
    as (ix & wk & es & Hix & _ & Hes & _ & _ & Hu).
  destruct (loads_table c0 (Z.to_nat (num_locals c0))) as (L & HL & HLl & HLs).
  destruct (watchers_table c0 sw) as (W0 & HW & HWs).
  { intros slot v b Hs. pose proof (lookup_lt_Some _ _ _ Hs) as Hlt. rewrite Hswl in Hlt.
    rewrite Hclass // in Hs. destruct (is_address_taken c0 slot); [done|]. injection Hs as Hs.
    apply slot_class_one in Hs as [s Hs]. by eapply write_init_bound. }
  pose proof (index_spec c0 order es ix Hin Hes Hu) as Hixs.
  assert (length L = length sw) as HLsw by congruence.
  destruct (run_tables c0 Hok Hrefs Hw sw L W0 HLs HWs HLsw ix es Hixs)
    as (P & st & Hrun & Hinv & Hq & Ha).
  exists sw, L, W0, ix, order, es, P, st. split_and!; try done.
  rw /run /tables Hsw /= Horder /= Hix /= HL /= HW /=.
  destruct (fold_opt seed _ _) as [st1|]; [|done]. simpl in Hrun |- *. by rw Hrun.
Qed.

(** C5.  The sparse driver terminates without a panic on every well-formed,
    well-typed owner, and is sound: it replaces some instructions by constants
    and changes nothing else, and the result has the same executions, with the
    same outcome (trap or value) of every instruction, where a load of a
    single-write slot reads the written value. *)
Theorem constopt_sound (cfg : Cfg) (Hok : cfg_ok cfg) (Hrefs : refs_ok cfg) (Hw : well_typed cfg) :
  exists sw cfg' stats, classify_slot_writes cfg None = Some sw /\ run cfg = Some (cfg', stats) /\
    cfg_ok cfg' /\ well_typed cfg' /\ only_constants cfg cfg' /\
    equivalent (slot_source sw) cfg cfg'.
Proof.
  destruct (run_spec cfg Hok Hrefs Hw) as (sw & L & W0 & ix & order & es & P & st & Hsw & _ & _ & _ & _ &
    Hrun & Hinv & _).
  exists sw, (s_cfg st), (s_stats st). destruct Hinv. done.
Qed.


(** The work is linear: one attempt per value plus at most one attempt
    per operand edge of the foldable instructions. *)
Theorem constopt_linear_work (cfg : Cfg) (Hok : cfg_ok cfg) (Hrefs : refs_ok cfg) (Hw : well_typed cfg) :
  exists order es cfg' stats, foldable_values cfg = Some order /\ edges cfg order = Some es /\
    run cfg = Some (cfg', stats) /\ fold_attempts stats <= value_count cfg + length es.
Proof.
  destruct (run_spec cfg Hok Hrefs Hw) as (sw & L & W0 & ix & order & es & P & st & _ & Ho & He & _ & _ &
    Hrun & _ & _ & Ha & _).
  by exists order, es, (s_cfg st), (s_stats st).
Qed.

(** ** A concrete run *)

Lemma constopt_sound_witness :
  cfg_ok fold_cfg /\ refs_ok fold_cfg /\ well_typed fold_cfg /\
  exists cfg' stats, run fold_cfg = Some (cfg', stats) /\ stats = mkStats 11 2 1.
Proof.
  split; [exact fold_cfg_ok|split; [exact fold_cfg_refs|split; [exact fold_cfg_typed|]]].
  destruct (constopt_sound fold_cfg fold_cfg_ok fold_cfg_refs fold_cfg_typed)
    as (sw & cfg' & stats & _ & H & _).
  exists cfg', stats. split; [exact H|]. vm_compute in H. congruence.
Defined.


Lemma constopt_linear_work_witness :
  cfg_ok fold_cfg /\ refs_ok fold_cfg /\ well_typed fold_cfg /\
  exists cfg' stats, run fold_cfg = Some (cfg', stats) /\ fold_attempts stats <= 13.
Proof.
  split; [exact fold_cfg_ok|split; [exact fold_cfg_refs|split; [exact fold_cfg_typed|]]].
  destruct (constopt_linear_work fold_cfg fold_cfg_ok fold_cfg_refs fold_cfg_typed)
    as (order & es & cfg' & stats & Ho & He & H & Ha).
  exists cfg', stats. split; [exact H|]. vm_compute in Ho. injection Ho as <-. vm_compute in He.
  injection He as <-. exact Ha.
Defined.
