(* ===== verification/Peephole.v ===== *)
(** * Peephole simplification

    [crates/rue-cfg/src/opt/peephole.rs]: unsigned division and remainder by a
    power of two become shift and mask, and operations that return an operand
    unchanged have their uses re-pointed at it.  [None] is a panic or, in
    [resolve], a chain of aliases that never ends. *)

From S2P Require Import Prelude IntegerSemantics Types Payload CfgData CfgEdit Worklist Cfg CfgRewrite Classify Dce Eval ConstFold.
Import Machine IntegerSemantics IntegerSpec.
Local Open Scope Z_scope.

Record Stats := mkStats { divmods_reduced : nat; identities_rewired : nat }.
Definition stats_default : Stats := mkStats 0 0.

Definition is_unsigned (kind : TypeKind) : bool :=
  match kind with TKU8 | TKU16 | TKU32 | TKU64 => true | _ => false end.

Definition const_int (cfg : Cfg) (value : CfgValue) : option (option Z) :=
  i ← get_inst cfg value; Some match data i with IConst v => Some v | _ => None end.

(** ** Strength reduction *)

Definition div_mod (d : CfgInstData) : option (CfgValue * CfgValue * bool) :=
  match d with IDiv a b => Some (a, b, true) | IMod a b => Some (a, b, false) | _ => None end.

Definition reduce_state : Type := Cfg * list (nat * CfgValue) * Stats.

Definition reduce_value (st : reduce_state) (e : nat * CfgValue) : option reduce_state :=
  let '(cfg, insertions, stats) := st in
  let '(i, value) := e in
  inst ← get_inst cfg value;
  kind ← try_kind (ty inst);
  if negb (is_unsigned kind) then Some st else
  match div_mod (data inst) with
  | None => Some st
  | Some (numerator, divisor, is_div) =>
      d ← const_int cfg divisor;
      match d with
      | None => Some st
      | Some d =>
          if (d <? 2) || negb (is_power_of_two d) then Some st else
          let new_data := IConst (if (is_div : bool) then trailing_zeros d else d - 1) in
          let '(cfg1, amount) := add_inst (mkInst new_data (ty inst) (span inst)) cfg in
          cfg2 ← write_inst_data cfg1 value
                   (if (is_div : bool) then IShr numerator amount else IBitAnd numerator amount);
          Some (cfg2, insertions ++ [(i, amount)],
                mkStats (S (divmods_reduced stats)) (identities_rewired stats))
      end
  end.

(** [Vec::insert]. *)
Definition vec_insert {A} (i : nat) (a : A) (l : list A) : option (list A) :=
  if (i <=? length l)%nat then Some (take i l ++ a :: drop i l) else None.

Definition insert_amount (block : BlockId) (cfg : Cfg) (e : nat * CfgValue) : option Cfg :=
  b ← get_block cfg block;
  l ← vec_insert e.1 e.2 (insts b);
  update_block block (with_insts l) cfg.

Definition reduce_block (st : Cfg * Stats) (block : BlockId) : option (Cfg * Stats) :=
  let '(cfg, stats) := st in
  b ← get_block cfg block;
  '(cfg, insertions, stats) ← fold_opt reduce_value (cfg, [], stats) (imap pair (insts b));
  cfg ← fold_opt (insert_amount block) cfg (rev insertions);
  Some (cfg, stats).

Definition reduce_unsigned_div_mod (cfg : Cfg) (stats : Stats) : option (Cfg * Stats) :=
  fold_opt reduce_block (cfg, stats) (seq 0 (block_count cfg)).

(** ** Identities *)

Definition is_const (cfg : Cfg) (c : Z) (v : CfgValue) : option bool :=
  o ← const_int cfg v; Some (bool_decide (o = Some c)).

(** [if p(b) { Some(a) } else if p(a) { Some(b) } else { None }] *)
Definition either_side (p : CfgValue -> option bool) (a b : CfgValue) : option (option CfgValue) :=
  pb ← p b;
  if (pb : bool) then Some (Some a) else pa ← p a; Some (if (pa : bool) then Some b else None).
(** A match arm [.. if p(b) => Some(a)] with no later arm. *)
Definition right_unit (p : CfgValue -> option bool) (a b : CfgValue) : option (option CfgValue) :=
  pb ← p b; Some (if (pb : bool) then Some a else None).

Definition identity_target (cfg : Cfg) (value : CfgValue) : option (option CfgValue) :=
  inst ← get_inst cfg value;
  if is_float (ty inst) then Some None else
  let is0 := is_const cfg 0 in
  let is1 := is_const cfg 1 in
  match data inst with
  | IAdd a b => either_side is0 a b
  | ISub a b => right_unit is0 a b
  | IMul a b => either_side is1 a b
  | IWrappingAdd a b => either_side is0 a b
  | IWrappingSub a b => right_unit is0 a b
  | IWrappingMul a b => either_side is1 a b
  | IDiv a b => right_unit is1 a b
  | IBitXor a b => either_side is0 a b
  | IBitOr a b =>
      o ← either_side is0 a b;
      Some (match o with Some t => Some t | None => if (a =? b)%nat then Some a else None end)
  | IBitAnd a b => Some (if (a =? b)%nat then Some a else None)
  | IShl a b | IShr a b => right_unit is0 a b
  | INot a =>
      inner ← get_inst cfg a;
      Some match data inner with INot v => Some v | _ => None end
  | _ => Some None
  end.

Definition collect_alias (cfg : Cfg) : option (list (option CfgValue)) :=
  mapM (identity_target cfg) (seq 0 (value_count cfg)).

Definition dummy_out (st : Cfg * nat) (e : nat * option CfgValue) : option (Cfg * nat) :=
  let '(cfg, n) := st in
  match e.2 with
  | Some _ => cfg ← write_inst_data cfg e.1 (IConst 0); Some (cfg, S n)
  | None => Some (cfg, n)
  end.

(** [while let Some(next) = alias[v] { v = next }]: a chain without repetition
    has at most as many links as there are values. *)
Fixpoint resolve (fuel : nat) (alias : list (option CfgValue)) (v : CfgValue) : option CfgValue :=
  next ← alias !! v;
  match next with
  | None => Some v
  | Some v' => match fuel with 0%nat => None | S fuel => resolve fuel alias v' end
  end.

(** The values the sweep applies its map to. *)
Definition swept_operands (cfg : Cfg) : option (list CfgValue) :=
  l1 ← flat_opt (visit_instruction_uses cfg) (seq 0 (value_count cfg));
  l2 ← flat_opt (fun b => visit_terminator_uses cfg (terminator b)) (blocks cfg);
  Some (l1 ++ l2 ++ elements (ownership_boundary_values cfg)).

Definition rewire_identities `{Alloc} (cfg : Cfg) (stats : Stats) : option (res CfgEditError (Cfg * Stats)) :=
  alias ← collect_alias cfg;
  if forallb (fun a => match a with None => true | Some _ => false end) alias
  then Some (Ok (cfg, stats)) else
  '(cfg1, n) ← fold_opt dummy_out (cfg, identities_rewired stats) (imap pair alias);
  let resolve v := resolve (length alias) alias v in
  operands ← swept_operands cfg1;
  _ ← mapM resolve operands;
  Some (cfg2 ← rewrite_value_uses_in_place (fun v => default v (resolve v)) cfg1;
        Ok (cfg2, mkStats (divmods_reduced stats) n)).

Definition run `{Alloc} (cfg : Cfg) : option (res CfgEditError (Cfg * Stats)) :=
  '(cfg1, stats) ← reduce_unsigned_div_mod cfg stats_default;
  rewire_identities cfg1 stats.

Section Reduce.
Context (t : IntegerType) (Hwf : wf t) (Hu : signed t = false).

Lemma unsigned_range x : in_range t x <-> 0 <= x < 2 ^ bits t.
Proof. rw /in_range /min_val /max_val Hu. lia. Qed.

Lemma norm_small d : 0 <= d < 2 ^ bits t -> norm t d = d.
Proof. intros Hd. apply norm_id; [done|]. by apply unsigned_range. Qed.

Lemma canonical_unsigned d : 0 <= d < 2 ^ bits t -> canonical t d.
Proof.
  intros Hd. rw /canonical norm_small // /image wrap_u_small //.
  pose proof (pow_bits_le t Hwf). rw /in_u. lia.
Qed.

Lemma canonical_value d : canonical t d -> 0 <= norm t d < 2 ^ bits t /\ norm t d = d.
Proof.
  intros Hc. pose proof (norm_in_range t Hwf d) as Hr. rewrite unsigned_range in Hr. split; [done|].
  rewrite {2}Hc /image wrap_u_small //. pose proof (pow_bits_le t Hwf). rw /in_u. lia.
Qed.

Context (x d : Z) (Hx : in_range t x) (Hd : 2 <= d < 2 ^ bits t) (Hp : is_power_of_two d = true).

Lemma log2_bound : 1 <= Z.log2 d < bits t /\ Z.log2 d < 2 ^ bits t.
Proof.
  destruct (power_of_two_spec d Hp) as [Hd0 Hk].
  assert (Z.log2 d < bits t) as Hlt by (apply Z.log2_lt_pow2; lia).
  assert (Z.log2 2 <= Z.log2 d) as Hge by (apply Z.log2_le_mono; lia). change (Z.log2 2) with 1 in Hge.
  pose proof (Z.log2_lt_lin d Hd0). lia.
Qed.

Lemma reduce_div : ref_checked t OpDiv x d = shifted false t x (Z.log2 d).
Proof.
  destruct (power_of_two_spec d Hp) as [Hd0 Hk]. pose proof log2_bound as [Hb _].
  pose proof (proj1 (unsigned_range x) Hx) as Hxr.
  assert (Z.quot x d = x / d) as Hq by (apply Z.quot_div_nonneg; lia).
  assert (0 <= x / d < 2 ^ bits t) as Hr.
  { split; [apply Z.div_pos; lia|]. apply Z.le_lt_trans with x; [apply Z.div_le_upper_bound; nia|lia]. }
  rw /ref_checked /=. destruct (Z.eqb_spec d 0); [lia|]. simpl. rw Hq decide_True; [|by apply unsigned_range].
  rw /shifted Z.mod_small; [|lia]. rw -Hk norm_small //.
Qed.

Lemma reduce_rem : ref_checked t OpRem x d = Some (Z.land x (d - 1)).
Proof.
  destruct (power_of_two_spec d Hp) as [Hd0 Hk]. pose proof log2_bound as [Hb _].
  pose proof (proj1 (unsigned_range x) Hx) as Hxr.
  assert (Z.quot x d = x / d) as Hq by (apply Z.quot_div_nonneg; lia).
  assert (0 <= x / d < 2 ^ bits t) as Hr.
  { split; [apply Z.div_pos; lia|]. apply Z.le_lt_trans with x; [apply Z.div_le_upper_bound; nia|lia]. }
  rw /ref_checked /=. destruct (Z.eqb_spec d 0); [lia|]. simpl. rw Hq decide_True; [|by apply unsigned_range].
  f_equal. rewrite {2}Hk land_mask; [|lia]. rw -Hk. apply Z.rem_mod_nonneg; lia.
Qed.
End Reduce.

(** The two operations in an environment. *)
Lemma reduce_sound ρ T t numerator divisor amount d x (is_div : bool) :
  integer_semantics T = Some t -> signed t = false ->
  ρ numerator = RInt x -> ρ divisor = RInt d -> canonical t d -> 2 <= d -> is_power_of_two d = true ->
  ρ amount = RInt (if is_div then trailing_zeros d else d - 1) ->
  (if is_div then int2 ρ T (fun t => ref_checked t OpDiv) numerator divisor
   else int2 ρ T (fun t => ref_checked t OpRem) numerator divisor) =
  (if is_div then int2 ρ T (shifted false) numerator amount
   else int2 ρ T (fun t x y => Some (Z.land x y)) numerator amount).
Proof.
  intros HT Hs Hx Hd Hc H2 Hp Ha. pose proof (integer_semantics_wf _ _ HT) as Hwf.
  destruct (canonical_value t Hwf Hs d Hc) as [Hr Hn]. rewrite Hn in Hr.
  assert (2 <= d < 2 ^ bits t) as Hd2 by lia.
  pose proof (norm_in_range t Hwf x) as Hxr.
  destruct (power_of_two_spec d Hp) as [_ Hk]. pose proof (log2_bound t d Hd2 Hp) as [Hlb Hlm].
  rw /int2 HT Hx Hd Ha Hn. f_equal. destruct is_div.
  - rw (reduce_div t Hwf Hs _ d Hxr Hd2 Hp) trailing_zeros_pow2 // (norm_small t Hwf Hs (Z.log2 d)) //. lia.
  - rw (reduce_rem t Hs _ d Hxr Hd2 Hp) (norm_small t Hwf Hs (d - 1)) //. lia.
Qed.

Lemma is_unsigned_semantics T kind : try_kind T = Some kind -> is_unsigned kind = true ->
  exists t, integer_semantics T = Some t /\ signed t = false.
Proof.
  rw /integer_semantics /try_kind /ty_is_signed.
  destruct (decode (raw_encoding T)) as [[p|k payload]|]; simpl; [| |done].
  - intros [= <-]. destruct p; try done; intros _; eexists; split; reflexivity.
  - intros [= <-]. by destruct k.
Qed.

(** ** Executions of a growing owner

    [cfg'] refines [cfg]: it has the values of [cfg] and perhaps more; every
    execution of it is one of [cfg] with the same outcomes, and every
    execution of [cfg] extends to one of it. *)
Record refines (source : nat -> option CfgValue) (cfg cfg' : Cfg) : Prop := {
  refines_count : (value_count cfg <= value_count cfg')%nat;
  refines_type : forall v, (v < value_count cfg)%nat -> operand_type cfg' v = operand_type cfg v;
  refines_eval : forall ρ, env_typed cfg' ρ -> models source cfg' ρ ->
    env_typed cfg ρ /\ models source cfg ρ /\
    forall v i i', get_inst cfg v = Some i -> get_inst cfg' v = Some i' ->
      eval source cfg ρ i = eval source cfg' ρ i';
  refines_extend : forall ρ, env_typed cfg ρ -> models source cfg ρ ->
    exists ρ', env_typed cfg' ρ' /\ models source cfg' ρ' /\
      forall v, (v < value_count cfg)%nat -> ρ' v = ρ v;
}.

#[export] Instance refines_refl source : Reflexive (refines source).
Proof. intros c. split; [done|done| |eauto]. intros ρ Ht Hm. split_and!; try done. intros. by simplify_eq. Qed.

#[export] Instance refines_trans source : Transitive (refines source).
Proof.
  intros c1 c2 c3 [N1 T1 E1 X1] [N2 T2 E2 X2]. split; [lia| | |].
  - intros v Hv. rw T2; [by apply T1|lia].
  - intros ρ Ht Hm. destruct (E2 ρ Ht Hm) as (Ht2 & Hm2 & He2). destruct (E1 ρ Ht2 Hm2) as (Ht1 & Hm1 & He1).
    split_and!; [done..|]. intros v i k Hi Hk.
    destruct (lookup_lt_is_Some_2 (values c2) v) as [j Hj].
    { apply lookup_lt_Some in Hi. rewrite /value_count in N1. lia. }
    rw (He1 v i j) //. by apply (He2 v).
  - intros ρ Ht Hm. destruct (X1 ρ Ht Hm) as (ρ1 & Ht1 & Hm1 & Hr1).
    destruct (X2 ρ1 Ht1 Hm1) as (ρ2 & Ht2 & Hm2 & Hr2). exists ρ2. split_and!; try done.
    intros v Hv. rw Hr2; [by apply Hr1|lia].
Qed.

(** ** One reduction *)

Definition div_mod_data (is_div : bool) (a b : CfgValue) : CfgInstData :=
  if is_div then IDiv a b else IMod a b.
Definition reduced_data (is_div : bool) (a b : CfgValue) : CfgInstData :=
  if is_div then IShr a b else IBitAnd a b.
Definition reduced_amount (is_div : bool) (d : Z) : Z :=
  if is_div then trailing_zeros d else d - 1.

Record reduction (c : Cfg) (v : CfgValue) (c' : Cfg) (is_div : bool) (a b : CfgValue) (i : CfgInst)
    (t : IntegerType) (d : Z) : Prop := {
  red_inst : get_inst c v = Some i;
  red_data : data i = div_mod_data is_div a b;
  red_type : integer_semantics (ty i) = Some t;
  red_unsigned : signed t = false;
  red_divisor : exists j, get_inst c b = Some j /\ data j = IConst d;
  red_two : 2 <= d;
  red_power : is_power_of_two d = true;
  red_get : forall u, get_inst c' u =
    if decide (u = v) then Some (mkInst (reduced_data is_div a (value_count c)) (ty i) (span i))
    else if decide (u = value_count c) then Some (mkInst (IConst (reduced_amount is_div d)) (ty i) (span i))
    else get_inst c u;
  red_extra : extra c = extra c';
}.

(** What the passes keep about the owner. *)
Record peephole_ok (cfg : Cfg) : Prop := {
  po_ok : cfg_ok cfg;
  po_refs : refs_ok cfg;
  po_typed : well_typed cfg;
  po_types : forall v i, get_inst cfg v = Some i -> is_Some (try_kind (ty i));
}.

Lemma get_inst_bound c v i : get_inst c v = Some i -> (v < value_count c)%nat.
Proof. apply lookup_lt_Some. Qed.

Lemma operand_bound c v i us : refs_ok c -> get_inst c v = Some i -> data_uses c (data i) = Some us ->
  Forall (fun u => (u < value_count c)%nat) us.*1.
Proof.
  intros Hr Hi Hus. apply (refs_insts _ Hr v); [by eapply get_inst_bound|].
  by rw /visit_instruction_uses /visit_instruction_uses_kinded Hi /= Hus.
Qed.

(** Typing survives when every operand keeps its type. *)
Lemma inst_typed_mono c c' j : (forall u T, operand_is c u T -> operand_is c' u T) ->
  inst_typed c j -> inst_typed c' j.
Proof. intros Hm. rw /inst_typed. destruct (data j); try done; naive_solver. Qed.

Section Reduction.
Context (source : nat -> option CfgValue) (c c' : Cfg) (v : CfgValue) (is_div : bool)
  (a b : CfgValue) (i : CfgInst) (t : IntegerType) (d : Z).
Context (Hp : peephole_ok c) (Hred : reduction c v c' is_div a b i t d).
Context (Hsource : forall slot u, source slot = Some u -> (u < value_count c)%nat).
Notation n := (value_count c).

Lemma red_v : (v < n)%nat.
Proof using Hred. eapply get_inst_bound, Hred. Qed.

Lemma red_same u : (u < n)%nat -> operand_type c' u = operand_type c u.
Proof using Hred.
  intros Hu. rw /operand_type (red_get _ _ _ _ _ _ _ _ _ Hred). case_decide as Hv.
  - subst u. by rw (red_inst _ _ _ _ _ _ _ _ _ Hred).
  - case_decide; [lia|done].
Qed.

Lemma red_operands : operand_is c a (ty i) /\ operand_is c b (ty i).
Proof using Hp Hred.
  pose proof (po_typed _ Hp v i (red_inst _ _ _ _ _ _ _ _ _ Hred)) as Ht.
  rewrite /inst_typed (red_data _ _ _ _ _ _ _ _ _ Hred) in Ht. destruct is_div; simpl in Ht; tauto.
Qed.

Lemma red_operand_lt : (a < n)%nat /\ (b < n)%nat.
Proof using Hp Hred.
  destruct red_operands as [Ha Hb]. rewrite /operand_is /operand_type /get_inst in Ha Hb.
  apply fmap_Some in Ha as (? & Ha & _). apply fmap_Some in Hb as (? & Hb & _).
  split; by eapply lookup_lt_Some.
Qed.

(** Instructions of [c] read nothing of the new value. *)
Lemma red_eval_old ρ ρ' u j : (forall w, (w < n)%nat -> ρ w = ρ' w) -> get_inst c u = Some j ->
  eval source c ρ j = eval source c' ρ' j.
Proof using Hp Hred Hsource.
  intros Hr Hj. destruct (get_inst_total c (po_ok _ Hp) u) as (j' & Hj' & Hok); [by eapply get_inst_bound|].
  simplify_eq. destruct (data_uses_total c _ Hok) as [us Hus].
  pose proof (operand_bound _ _ _ _ (po_refs _ Hp) Hj Hus) as Hb. rewrite Forall_forall in Hb.
  apply (eval_ext _ _ _ _ _ _ us); [done|apply Hred| |].
  - intros w Hw%Hb. split; [by apply Hr|]. by rw red_same.
  - intros slot w Hs%Hsource. by apply Hr.
Qed.

(** The rewritten instruction computes what it replaces. *)
Lemma red_eval_new ρ T s : env_typed c ρ -> ρ b = RInt d -> ρ n = RInt (reduced_amount is_div d) -> T = ty i ->
  eval source c ρ i = eval source c' ρ (mkInst (reduced_data is_div a n) T s).
Proof using Hp Hred.
  intros Ht Hb Hn ->. destruct red_operands as [Hta Htb].
  assert (forall w, operand_is c w (ty i) -> exists x, ρ w = RInt x /\ canonical t x) as Hint.
  { intros w Hw. rewrite /operand_is /operand_type in Hw. apply fmap_Some in Hw as (k & Hk & Hty).
    pose proof (Ht w k Hk) as Hv. rewrite -Hty /value_of_type (red_type _ _ _ _ _ _ _ _ _ Hred) in Hv. done. }
  destruct (Hint _ Hta) as (x & Hx & _). destruct (Hint _ Htb) as (y & Hy & Hc). assert (y = d) as -> by congruence.
  rw /eval (red_data _ _ _ _ _ _ _ _ _ Hred) /=.
  pose proof (reduce_sound ρ (ty i) t a b n d x is_div) as Hr.
  destruct is_div; simpl; apply Hr; try done; apply Hred.
Qed.

Lemma red_canonical ρ T : T = ty i -> env_typed c ρ -> ρ b = RInt d ->
  value_of_type T (RInt (reduced_amount is_div d)).
Proof using Hp Hred.
  intros -> Ht Hb. destruct red_operands as [_ Htb].
  rewrite /operand_is /operand_type in Htb. apply fmap_Some in Htb as (k & Hk & Hty).
  pose proof (red_type _ _ _ _ _ _ _ _ _ Hred) as HT. pose proof (integer_semantics_wf _ _ HT) as Hwf.
  pose proof (red_unsigned _ _ _ _ _ _ _ _ _ Hred) as Hu.
  pose proof (red_two _ _ _ _ _ _ _ _ _ Hred) as H2. pose proof (red_power _ _ _ _ _ _ _ _ _ Hred) as Hpow.
  pose proof (Ht b k Hk) as Hv. rewrite -Hty /value_of_type HT in Hv. destruct Hv as (w & Hw & Hc).
  assert (w = d) as -> by congruence. destruct (canonical_value t Hwf Hu d Hc) as [Hr Hn]. rewrite Hn in Hr.
  apply (value_int _ t _ HT). apply canonical_unsigned; [done..|].
  destruct (log2_bound t d ltac:(lia) Hpow) as [Hl1 Hl2].
  rw /reduced_amount. destruct is_div; [rw trailing_zeros_pow2 //; lia|lia].
Qed.

Lemma red_divisor_value ρ : models source c ρ -> ρ b = RInt d.
Proof using Hred.
  intros Hm. destruct (red_divisor _ _ _ _ _ _ _ _ _ Hred) as (j & Hj & Hd).
  apply (Hm b j); [done|]. by rw /eval Hd.
Qed.

Lemma red_divisor_not_v : b <> v.
Proof using Hred.
  intros ->. destruct (red_divisor _ _ _ _ _ _ _ _ _ Hred) as (j & Hj & Hd).
  pose proof (red_inst _ _ _ _ _ _ _ _ _ Hred) as Hi. pose proof (red_data _ _ _ _ _ _ _ _ _ Hred) as Hdi.
  assert (j = i) as -> by congruence. rewrite Hd in Hdi. by destruct is_div.
Qed.

Lemma red_env_typed ρ : env_typed c' ρ -> env_typed c ρ.
Proof using Hred.
  intros Ht u j Hj. pose proof (get_inst_bound _ _ _ Hj) as Hu. pose proof (red_same u Hu) as Hs.
  rewrite /operand_type Hj /= in Hs. apply fmap_Some in Hs as (k & Hk & ->). by apply Ht.
Qed.

Lemma red_new_inst : get_inst c' n = Some (mkInst (IConst (reduced_amount is_div d)) (ty i) (span i)).
Proof using Hred.
  pose proof red_v. rw (red_get _ _ _ _ _ _ _ _ _ Hred) decide_False; [by rw decide_True|lia].
Qed.

(** Every execution of the result is one of the original. *)
Lemma red_eval ρ : env_typed c' ρ -> models source c' ρ ->
  env_typed c ρ /\ models source c ρ /\
  forall u j j', get_inst c u = Some j -> get_inst c' u = Some j' ->
    eval source c ρ j = eval source c' ρ j'.
Proof using Hp Hred Hsource.
  intros Ht' Hm'. pose proof (red_env_typed _ Ht') as Ht. pose proof red_operand_lt as [Ha Hb].
  assert (ρ b = RInt d) as Hbd.
  { destruct (red_divisor _ _ _ _ _ _ _ _ _ Hred) as (j & Hj & Hd). apply (Hm' b j); [|by rw /eval Hd].
    rw (red_get _ _ _ _ _ _ _ _ _ Hred) !decide_False //; [lia|]. apply red_divisor_not_v. }
  assert (ρ n = RInt (reduced_amount is_div d)) as Hnd.
  { by apply (Hm' _ _ _ red_new_inst). }
  assert (forall u j j', get_inst c u = Some j -> get_inst c' u = Some j' ->
    eval source c ρ j = eval source c' ρ j') as He.
  { intros u j j' Hj. rw (red_get _ _ _ _ _ _ _ _ _ Hred). case_decide as Hv; [|case_decide as Hn].
    - subst u. intros [= <-]. assert (j = i) as -> by (pose proof (red_inst _ _ _ _ _ _ _ _ _ Hred); congruence).
      by apply red_eval_new.
    - apply get_inst_bound in Hj. lia.
    - intros Hj'. assert (j' = j) as -> by congruence. by eapply red_eval_old. }
  split; [done|]. split; [|done]. intros u j r Hj.
  pose proof (get_inst_bound _ _ _ Hj) as Hu. pose proof (red_same u Hu) as Hs.
  rewrite /operand_type Hj /= in Hs. apply fmap_Some in Hs as (k & Hk & _).
  rw (He _ _ _ Hj Hk). by apply Hm'.
Qed.

(** Every execution of the original extends to one of the result. *)
Lemma red_extend ρ : env_typed c ρ -> models source c ρ ->
  exists ρ', env_typed c' ρ' /\ models source c' ρ' /\ forall u, (u < n)%nat -> ρ' u = ρ u.
Proof using Hp Hred Hsource.
  intros Ht Hm. set (ρ' := fun u => if decide (u = n) then RInt (reduced_amount is_div d) else ρ u).
  assert (forall u, (u < n)%nat -> ρ' u = ρ u) as Hlow by (intros u Hu; rw /ρ' decide_False //; lia).
  assert (ρ' n = RInt (reduced_amount is_div d)) as Hnd by by rw /ρ' decide_True.
  pose proof (red_divisor_value _ Hm) as Hbd. pose proof red_operand_lt as [Ha Hb].
  assert (env_typed c ρ') as Ht1.
  { intros u j Hj. rw Hlow; [by apply Ht|by eapply get_inst_bound]. }
  exists ρ'. split_and!; [| |done]; intros u j; rw (red_get _ _ _ _ _ _ _ _ _ Hred).
  - case_decide as Hv; [intros [= <-]|case_decide as Hn; [intros [= <-]|]].
    + subst u. rw Hlow; [|apply red_v]. apply (Ht v i), Hred.
    + subst u. rw Hnd. by apply (red_canonical ρ).
    + apply Ht1.
  - intros r. case_decide as Hv; [intros [= <-]|case_decide as Hn; [intros [= <-]|intros Hj]].
    + rw -red_eval_new //; [|by rw Hlow]. subst u. rw Hlow; [|apply red_v].
      pose proof (red_inst _ _ _ _ _ _ _ _ _ Hred) as Hi.
      assert (eval source c ρ' i = eval source c ρ i) as ->; [|by apply (Hm v)].
      rw (red_eval_old ρ' ρ' v i) // -(red_eval_old ρ ρ' v i) //. intros w Hw. by rw Hlow.
    + subst u. intros [= <-]. by rw Hnd.
    + pose proof (get_inst_bound _ _ _ Hj). rw -(red_eval_old ρ ρ' u j) //.
      * rw Hlow //. by apply Hm.
      * intros w Hw. by rw Hlow.
Qed.

Lemma red_refines : refines source c c'.
Proof using Hp Hred Hsource.
  split; [|apply red_same|apply red_eval|apply red_extend].
  pose proof (get_inst_bound _ _ _ red_new_inst). lia.
Qed.

Lemma red_well_typed : well_typed c'.
Proof using Hp Hred.
  pose proof red_operands as [Hta Htb]. pose proof red_operand_lt as [Ha Hb].
  assert (operand_is c' a (ty i)) as Hta' by (by rw /operand_is red_same).
  assert (operand_is c' n (ty i)) as Htn.
  { by rw /operand_is /operand_type red_new_inst. }
  assert (integral (ty i)) as Hint by (rw /integral (red_type _ _ _ _ _ _ _ _ _ Hred); by eexists).
  intros u j. rw (red_get _ _ _ _ _ _ _ _ _ Hred). case_decide as Hv; [intros [= <-]|case_decide as Hn; [by intros [= <-]|intros Hj]].
  - rw /inst_typed. by destruct is_div.
  - apply (inst_typed_mono c); [|by apply (po_typed _ Hp u)].
    intros w T Hw. rw /operand_is red_same //. rewrite /operand_is /operand_type /get_inst in Hw.
    apply fmap_Some in Hw as (? & Hw & _). by eapply lookup_lt_Some.
Qed.
End Reduction.

(** ** The reduction step of the pass *)

Lemma data_uses_stores c c' d : extra c = extra c' -> call_args c = call_args c' ->
  projections c = projections c' -> data_uses c d = data_uses c' d.
Proof.
  intros He Hc Hp. destruct d; try done; simpl;
    by rw /call_args_of /intrinsic_args /struct_fields /array_elements /enum_payload
      /get_place_projections ?He ?Hc ?Hp.
Qed.

Lemma term_uses_stores c c' t : extra c = extra c' -> visit_terminator_uses c t = visit_terminator_uses c' t.
Proof. intros He. destruct t; try done; simpl; by rw /goto_args /then_args_of /else_args_of ?He. Qed.

(** What makes the scan total; unlike typing it survives an exhausted arena. *)
Record shape_ok (cfg : Cfg) : Prop := {
  so_ok : cfg_ok cfg;
  so_refs : refs_ok cfg;
  so_types : forall v i, get_inst cfg v = Some i -> is_Some (try_kind (ty i));
}.

Lemma peephole_shape c : peephole_ok c <-> shape_ok c /\ well_typed c.
Proof. split; [by intros []|by intros [[] ?]]. Qed.

Definition has_room (c : Cfg) : Prop := Z.of_nat (value_count c) < u32_max.

Lemma add_inst_cases i c c1 am : is_move_out (data i) = false -> add_inst i c = (c1, am) ->
  (has_room c /\ am = value_count c /\ values c1 = values c ++ [i] /\ capacity_exceeded c1 = capacity_exceeded c \/
   ~ has_room c /\ am = 0%nat /\ values c1 = values c /\ capacity_exceeded c1 <> None) /\
  blocks c1 = blocks c /\ extra c1 = extra c /\ call_args c1 = call_args c /\ projections c1 = projections c.
Proof.
  intros Hm. rw /add_inst checked_owner_index_spec. fold (value_count c).
  case_decide as Hr; intros [= <- <-]; (split; [|done]).
  - by left.
  - right. split_and!; try done. simpl. by destruct (capacity_exceeded c).
Qed.

(** Writing a div or mod as a shift or mask by [am]. *)
Definition mutated (c : Cfg) (v : CfgValue) (is_div : bool) (a am : CfgValue) (i : CfgInst) (d : Z) (c' : Cfg) : Prop :=
  (has_room c /\ am = value_count c /\ capacity_exceeded c' = capacity_exceeded c /\
   (forall u, get_inst c' u =
     if decide (u = v) then Some (mkInst (reduced_data is_div a am) (ty i) (span i))
     else if decide (u = value_count c) then Some (mkInst (IConst (reduced_amount is_div d)) (ty i) (span i))
     else get_inst c u) \/
   ~ has_room c /\ am = 0%nat /\ capacity_exceeded c' <> None /\
   (forall u, get_inst c' u =
     if decide (u = v) then Some (mkInst (reduced_data is_div a am) (ty i) (span i)) else get_inst c u)) /\
  blocks c' = blocks c /\ extra c' = extra c /\ call_args c' = call_args c /\ projections c' = projections c /\
  cfg_step c c' /\ (am < value_count c')%nat.

Lemma mutate_spec c v is_div a b i d : cfg_ok c -> get_inst c v = Some i -> data i = div_mod_data is_div a b ->
  exists c' am, (let '(c1, am) := add_inst (mkInst (IConst (reduced_amount is_div d)) (ty i) (span i)) c in
    c2 ← write_inst_data c1 v (reduced_data is_div a am); Some (c2, am)) = Some (c', am) /\
  mutated c v is_div a am i d c'.
Proof.
  intros Hok Hi Hd. destruct (add_inst _ c) as [c1 am] eqn:Ha.
  destruct (step_add_inst c Hok (mkInst (IConst (reduced_amount is_div d)) (ty i) (span i)) c1 am I Ha) as (Hstep & _ & Ham).
  apply add_inst_cases in Ha as (Hc & Hb & He & Hca & Hpr); [|done].
  assert (get_inst c1 v = Some i) as Hi1.
  { pose proof (get_inst_bound _ _ _ Hi). rw /get_inst.
    destruct Hc as [(_ & _ & -> & _)|(_ & _ & -> & _)]; [|done]. by apply lookup_app_l_Some. }
  destruct (write_inst_data c1 v (reduced_data is_div a am)) as [c2|] eqn:Hw; [|by rewrite /write_inst_data Hi1 in Hw].
  exists c2, am. split; [done|]. pose proof (fun u => get_inst_write _ _ _ _ u Hw) as Hg.
  pose proof Hw as (j & Hj & ->)%write_inst_data_Some. assert (j = i) as -> by congruence.
  assert (cfg_step c1 (set_values (<[v := mkInst (reduced_data is_div a am) (ty i) (span i)]> (values c1)) c1)) as Hstep2.
  { apply step_replace_inst with i; [apply Hstep|done|by destruct is_div|]. rw Hd. by destruct is_div. }
  split_and!; try done; [|by eapply cfg_step_trans|by rw /value_count /= length_insert].
  destruct Hc as [(Hr & -> & Hv & Hcap)|(Hr & -> & Hv & Hcap)]; [left|right]; split_and!; try done; intros u.
  - rw Hg. case_decide as Hu; [subst u; by rw Hi1|]. rw /get_inst Hv. case_decide as Hn.
    + subst u. by rw list_lookup_middle.
    + destruct (decide (u < value_count c)%nat) as [Hlt|Hge]; [by rw lookup_app_l|].
      rw !lookup_ge_None_2 // ?length_app /=; rewrite /value_count in Hn Hge |- *; lia.
  - rw Hg. case_decide as Hu; [subst u; by rw Hi1|]. by rw /get_inst Hv.
Qed.

Lemma mutated_shape c v is_div a b am i d c' : shape_ok c -> get_inst c v = Some i ->
  data i = div_mod_data is_div a b -> mutated c v is_div a am i d c' -> shape_ok c'.
Proof.
  intros [Hok Hrefs Hty] Hi Hd (Hc & Hb & He & Hca & Hpr & [Hok' Hext] & Ham).
  pose proof (ext_values _ _ Hext) as Hn.
  assert (a < value_count c)%nat as Ha.
  { assert (exists us, data_uses c (data i) = Some us /\ a ∈ us.*1) as (us & Hus & Hin).
    { rw Hd. exists (reads [a; b]). split; [by destruct is_div|set_solver]. }
    pose proof (operand_bound _ _ _ _ Hrefs Hi Hus) as Hf. rewrite Forall_forall in Hf. by apply Hf. }
  assert (forall u j, get_inst c' u = Some j -> is_Some (try_kind (ty j)) /\
    (get_inst c u = Some j \/ data j = reduced_data is_div a am \/ exists w, data j = IConst w)) as Hcases.
  { intros u j. destruct Hc as [(_ & _ & _ & Hg)|(_ & _ & _ & Hg)]; rw Hg;
      repeat case_decide; try (intros [= <-]; simpl; split; [by eapply Hty|eauto]);
      intros Hj; (split; [by eapply Hty|by left]). }
  split; [done| |by intros u j [? _]%Hcases].
  split.
  - intros u us Hu. destruct (get_inst_total c' Hok' u Hu) as (j & Hj & _).
    rw /visit_instruction_uses /visit_instruction_uses_kinded Hj /=.
    destruct (Hcases u j Hj) as [_ [Hold|[-> | [w ->]]]].
    + rw (data_uses_stores c' c) //. destruct (data_uses c (data j)) as [ks|] eqn:Hus; [|done].
      intros [= <-]. eapply Forall_impl; [by eapply operand_bound|]. simpl. lia.
    + destruct is_div; intros [= <-]; repeat constructor; lia.
    + by intros [= <-].
  - intros k bk us. rw Hb. intros Hbk. rw (term_uses_stores c' c) //. intros Hus.
    eapply Forall_impl; [by eapply (refs_terms _ Hrefs)|]. simpl. lia.
Qed.

Lemma mutated_reduction c v is_div a b am i j t d c' : mutated c v is_div a am i d c' ->
  capacity_exceeded c' = None ->
  get_inst c v = Some i -> data i = div_mod_data is_div a b -> integer_semantics (ty i) = Some t ->
  signed t = false -> get_inst c b = Some j -> data j = IConst d -> 2 <= d -> is_power_of_two d = true ->
  reduction c v c' is_div a b i t d /\ am = value_count c /\ capacity_exceeded c = None.
Proof.
  intros (Hc & _ & He & _) Hcap Hi Hd HT Hs Hj Hjd H2 Hp.
  destruct Hc as [(_ & -> & Hcap' & Hg)|(_ & _ & Hcap' & _)]; [|done].
  split_and!; [|done|congruence]. split; try done. eauto.
Qed.

(** The pass either leaves a value alone or reduces it. *)
Lemma reduce_value_spec c ins stats k v : shape_ok c -> (v < value_count c)%nat ->
  reduce_value (c, ins, stats) (k, v) = Some (c, ins, stats) \/
  exists c' am is_div a b i j t d,
    reduce_value (c, ins, stats) (k, v) =
      Some (c', ins ++ [(k, am)], mkStats (S (divmods_reduced stats)) (identities_rewired stats)) /\
    mutated c v is_div a am i d c' /\ get_inst c v = Some i /\ data i = div_mod_data is_div a b /\
    integer_semantics (ty i) = Some t /\ signed t = false /\
    get_inst c b = Some j /\ data j = IConst d /\ 2 <= d /\ is_power_of_two d = true.
Proof.
  intros [Hok Hrefs Hty] Hv. destruct (get_inst_total c Hok v Hv) as (i & Hi & Hio).
  destruct (Hty v i Hi) as [kind Hk]. rw /reduce_value Hi /= Hk /=.
  destruct (is_unsigned kind) eqn:Hu; simpl; [|by left].
  destruct (is_unsigned_semantics _ _ Hk Hu) as (t & HT & Hs).
  destruct (div_mod (data i)) as [[[a b] is_div]|] eqn:Hdm; [|by left].
  assert (data i = div_mod_data is_div a b) as Hd.
  { rewrite /div_mod in Hdm. destruct (data i); simplify_eq/=; done. }
  assert (b < value_count c)%nat as Hb.
  { assert (exists us, data_uses c (data i) = Some us /\ b ∈ us.*1) as (us & Hus & Hin).
    { rw Hd. exists (reads [a; b]). split; [by destruct is_div|set_solver]. }
    pose proof (operand_bound _ _ _ _ Hrefs Hi Hus) as Hf. rewrite Forall_forall in Hf. by apply Hf. }
  destruct (get_inst_total c Hok b Hb) as (j & Hj & _). rw /const_int Hj /=.
  assert ((exists w, data j = IConst w) \/ match data j with IConst v => Some v | _ => None end = None)
    as [[w Hjd]| ->] by (destruct (data j); eauto); [rw Hjd /=|by left].
  destruct ((w <? 2) || negb (is_power_of_two w)) eqn:Hg; [by left|right].
  apply orb_false_iff in Hg as [H2%Z.ltb_ge Hp%negb_false_iff].
  destruct (mutate_spec c v is_div a b i w Hok Hi Hd) as (c' & am & Hm & Hmut).
  exists c', am, is_div, a, b, i, j, t, w. split_and!; try done. move: Hm.
  rw -/(reduced_data is_div a am) -/(reduced_amount is_div w).
  destruct (add_inst _ c) as [c1 am1]. rw -/(reduced_data is_div a am1).
  destruct (write_inst_data c1 v (reduced_data is_div a am1)) as [c2|]; [|done]. by intros [= <- <-].
Qed.

(** ** Back-to-front insertion *)

(** The (position, amount) pairs of one optional amount per position. *)
Fixpoint positions (k : nat) (os : list (option CfgValue)) : list (nat * CfgValue) :=
  match os with
  | [] => []
  | o :: os => match o with Some a => [(k, a)] | None => [] end ++ positions (S k) os
  end.

(** Each amount directly before its instruction. *)
Fixpoint weave (os : list (option CfgValue)) (l : list CfgValue) : list CfgValue :=
  match os, l with
  | o :: os, v :: l => match o with Some a => [a] | None => [] end ++ v :: weave os l
  | _, _ => l
  end.

Lemma positions_snoc k os o :
  positions k (os ++ [o]) = positions k os ++ match o with Some a => [((k + length os)%nat, a)] | None => [] end.
Proof.
  revert k. induction os as [|o' os IH]; intros k; simpl.
  - rw Nat.add_0_r. by destruct o.
  - rw IH app_assoc. do 2 f_equal. by rw Nat.add_succ_r.
Qed.

Lemma elem_of_positions k os e : e ∈ positions k os -> Some e.2 ∈ os.
Proof.
  revert k. induction os as [|o os IH]; intros k; simpl; [by intros ?%not_elem_of_nil|].
  intros [He|He%IH]%elem_of_app; [|by right]. destruct o as [a|]; [|by apply not_elem_of_nil in He].
  apply list_elem_of_singleton in He as ->. by left.
Qed.

Lemma insert_back_to_front os pre l : (length os <= length l)%nat ->
  fold_opt (fun l (e : nat * CfgValue) => vec_insert e.1 e.2 l) (pre ++ l) (rev (positions (length pre) os))
  = Some (pre ++ weave os l).
Proof.
  revert pre l. induction os as [|o os IH]; intros pre l Hl; simpl.
  - by destruct l.
  - destruct l as [|v l]; simpl in Hl; [lia|]. rw rev_app_distr fold_opt_app.
    pose proof (IH (pre ++ [v]) l ltac:(lia)) as Hf. rewrite -!app_assoc /= length_app /= Nat.add_1_r in Hf.
    rw Hf /=. destruct o as [a|]; [|done]. simpl. rw /vec_insert length_app leb_correct; [|lia].
    by rw take_app_length drop_app_length.
Qed.

(** The block loop of the insertions. *)
Lemma insert_amounts block c b ins l : get_block c block = Some b ->
  fold_opt (fun l (e : nat * CfgValue) => vec_insert e.1 e.2 l) (insts b) ins = Some l ->
  exists c', fold_opt (insert_amount block) c ins = Some c' /\ values c' = values c /\
    blocks c' = <[block := with_insts l b]> (blocks c) /\
    c' = set_blocks (blocks c') c.
Proof.
  revert c b. induction ins as [|e ins IH]; intros c b Hb; simpl.
  - intros [= <-]. exists c. split_and!; try done; [|by destruct c].
    rw list_insert_id //. by destruct b.
  - destruct (vec_insert e.1 e.2 (insts b)) as [l'|] eqn:Hv; [|done]. simpl. intros Hf.
    rw /insert_amount Hb /= Hv /= /update_block. rewrite /get_block in Hb. rw Hb /=.
    destruct (IH (set_blocks (<[block:=with_insts l' b]> (blocks c)) c) (with_insts l' b)) as (c' & Hc & Hvs & Hbs & Heq).
    { rw /get_block /= list_lookup_insert_eq //. by eapply lookup_lt_Some. }
    { by destruct b. }
    exists c'. split_and!; [done|done| |by rewrite Heq].
    rw Hbs /= list_insert_insert_eq. by destruct b.
Qed.

(** [l'] is [l] with new constants, each directly before the shift or mask
    that uses it.  [n] is the number of original values. *)
Definition amount_of (c : Cfg) (v a : CfgValue) : Prop :=
  exists i j is_div x w, get_inst c v = Some i /\ data i = reduced_data is_div x a /\
    get_inst c a = Some j /\ data j = IConst w.

Inductive woven (n : nat) (c : Cfg) : list CfgValue -> list CfgValue -> Prop :=
| woven_nil : woven n c [] []
| woven_keep v l l' : (v < n)%nat -> woven n c l l' -> woven n c (v :: l) (v :: l')
| woven_amount v a l l' : (v < n)%nat -> (n <= a)%nat -> amount_of c v a ->
    woven n c l l' -> woven n c (v :: l) (a :: v :: l').

Lemma weave_woven n c os l : length os = length l -> Forall (fun v => (v < n)%nat) l ->
  (forall k a v, os !! k = Some (Some a) -> l !! k = Some v -> (n <= a)%nat /\ amount_of c v a) ->
  woven n c l (weave os l).
Proof.
  revert l. induction os as [|o os IH]; intros [|v l] Hl Hf Ho; simplify_eq/=; [constructor|].
  inversion_clear Hf. assert (woven n c l (weave os l)) as Hw.
  { apply IH; [done..|]. intros k. by apply (Ho (S k)). }
  destruct o as [a|]; simpl; [|by constructor].
  destruct (Ho 0%nat a v) as [? ?]; [done..|]. by apply woven_amount.
Qed.

(** What later steps keep: everything that is not a division. *)
Definition stable (c c' : Cfg) : Prop :=
  forall u i, get_inst c u = Some i -> div_mod (data i) = None -> get_inst c' u = Some i.

#[export] Instance stable_refl : Reflexive stable.
Proof. by intros c u i. Qed.
#[export] Instance stable_trans : Transitive stable.
Proof. intros c1 c2 c3 H1 H2 u i Hu Hd. auto. Qed.

Lemma amount_of_stable c c' v a : stable c c' -> amount_of c v a -> amount_of c' v a.
Proof.
  intros Hs (i & j & is_div & x & w & Hi & Hd & Hj & Hw). exists i, j, is_div, x, w.
  split_and!; try done; (apply Hs; [done|]); [rw Hd; by destruct is_div|by rw Hw].
Qed.

Lemma woven_stable n c c' l l' : stable c c' -> woven n c l l' -> woven n c' l l'.
Proof.
  intros Hs. induction 1; [constructor|by constructor|].
  apply woven_amount; try done. by eapply amount_of_stable.
Qed.

Lemma reduction_stable c v c' is_div a b i t d : reduction c v c' is_div a b i t d -> stable c c'.
Proof.
  intros Hr u j Hj Hd. rw (red_get _ _ _ _ _ _ _ _ _ Hr). case_decide as Hv.
  - subst u. pose proof (red_inst _ _ _ _ _ _ _ _ _ Hr) as Hi. assert (j = i) as -> by congruence.
    rewrite (red_data _ _ _ _ _ _ _ _ _ Hr) in Hd. by destruct is_div.
  - rw decide_False //. intros ->. apply get_inst_bound in Hj. lia.
Qed.

Lemma reduction_amount c v c' is_div a b i t d : reduction c v c' is_div a b i t d ->
  amount_of c' v (value_count c).
Proof.
  intros Hr. eexists _, _, is_div, a, _. split_and!.
  - rw (red_get _ _ _ _ _ _ _ _ _ Hr). by rw decide_True.
  - done.
  - by eapply red_new_inst.
  - done.
Qed.

Lemma reduction_peephole c v c' is_div a b i t d : peephole_ok c -> shape_ok c' ->
  reduction c v c' is_div a b i t d -> peephole_ok c'.
Proof. intros Hp Hs Hr. apply peephole_shape. split; [done|]. by eapply red_well_typed. Qed.

Lemma imap_pair_split {A} (l : list A) pre e post : imap pair l = pre ++ e :: post ->
  e.1 = length pre /\ l !! length pre = Some e.2.
Proof.
  intros Hl. assert (imap pair l !! length pre = Some e) as He by by rw Hl list_lookup_middle.
  rewrite list_lookup_imap in He. destruct (l !! length pre); simplify_eq/=. done.
Qed.

(** ** The scan *)

Section Scan.
Context (source : nat -> option CfgValue) (c0 : Cfg) (Hc0 : shape_ok c0).
Context (Hsource : forall slot u, source slot = Some u -> (u < value_count c0)%nat).

(** While no arena limit was hit. *)
Definition grown (c : Cfg) : Prop :=
  capacity_exceeded c = None -> well_typed c0 ->
  peephole_ok c /\ refines source c0 c /\ stable c0 c /\ capacity_exceeded c0 = None.

(** After the values of a prefix of a block. *)
Definition scanned (cb : Cfg) (l : list CfgValue) (pre : list (nat * CfgValue)) (st : reduce_state) : Prop :=
  let '(c, ins, stats) := st in
  shape_ok c /\ blocks c = blocks cb /\ (value_count cb <= value_count c)%nat /\ grown c /\
  exists os, length os = length pre /\ ins = positions 0 os /\
    (forall a, Some a ∈ os -> (a < value_count c)%nat) /\
    (capacity_exceeded c = None -> well_typed c0 -> capacity_exceeded cb = None /\ stable cb c /\
     forall k a v, os !! k = Some (Some a) -> l !! k = Some v ->
       (value_count c0 <= a)%nat /\ amount_of c v a).

Lemma scan_value cb l pre e st : Forall (fun v => (v < value_count cb)%nat) l ->
  (exists post, imap pair l = pre ++ e :: post) -> scanned cb l pre st ->
  exists st', reduce_value st e = Some st' /\ scanned cb l (pre ++ [e]) st'.
Proof using Hc0 Hsource.
  intros Hl [post Hpost]. destruct st as [[c ins] stats].
  destruct (imap_pair_split _ _ _ _ Hpost) as [Hk Hv]. destruct e as [k v]; simpl in Hk, Hv. subst k.
  intros (Hs & Hb & Hn & Hg & os & Hlen & -> & Ham & Hgood).
  assert (v < value_count c)%nat as Hvc.
  { rewrite Forall_lookup in Hl. apply Hl in Hv. lia. }
  destruct (reduce_value_spec c (positions 0 os) stats (length pre) v Hs Hvc) as
    [-> |(c' & am & is_div & a & b & i & j & t & d & -> & Hmut & Hi & Hd & HT & Hsg & Hj & Hjd & H2 & Hp)].
  - eexists. split; [done|]. split_and!; try done. exists (os ++ [None]).
    rw positions_snoc !length_app Hlen app_nil_r. split_and!; try done.
    + intros x [Hx|Hx%list_elem_of_singleton]%elem_of_app; [by apply Ham|done].
    + intros Hcap Hw. destruct (Hgood Hcap Hw) as (Hcb & Hst & Hos). split_and!; try done.
      intros k x u [[_ Hk]|[_ Hk]]%lookup_snoc_Some; [by apply Hos|done].
  - pose proof (mutated_shape _ _ _ _ _ _ _ _ _ Hs Hi Hd Hmut) as Hs'.
    pose proof Hmut as (_ & Hb' & _ & _ & _ & [_ Hext] & Hamc). pose proof (ext_values _ _ Hext) as Hnc.
    assert (capacity_exceeded c' = None -> well_typed c0 ->
      peephole_ok c /\ refines source c0 c /\ stable c0 c /\ capacity_exceeded c = None /\ capacity_exceeded c0 = None /\
      am = value_count c /\ reduction c v c' is_div a b i t d) as Hred.
    { intros Hcap Hw. destruct (mutated_reduction _ _ _ _ _ _ _ _ _ _ _ Hmut Hcap Hi Hd HT Hsg Hj Hjd H2 Hp) as (Hr & -> & Hcap').
      by destruct (Hg Hcap' Hw) as (? & ? & ? & ?). }
    eexists. split; [done|]. split_and!; [done|congruence|lia| |exists (os ++ [Some am])].
    + intros Hcap Hw. destruct (Hred Hcap Hw) as (Hpo & Hrf & Hst & Hcap' & Hc00 & -> & Hr). split_and!; try done.
      * by eapply reduction_peephole.
      * etrans; [done|]. eapply red_refines; [done|done|]. intros slot u Hu%Hsource.
        pose proof (refines_count _ _ _ Hrf). lia.
      * etrans; [done|]. by eapply reduction_stable.
    + rw positions_snoc !length_app Hlen. split_and!; try done.
      * intros x [Hx|Hx%list_elem_of_singleton]%elem_of_app; [apply Ham in Hx; lia|by simplify_eq].
      * intros Hcap Hw. destruct (Hred Hcap Hw) as (Hpo & Hrf & Hst & Hcap' & Hc00 & -> & Hr).
        destruct (Hgood Hcap' Hw) as (Hcb & Hstb & Hos). pose proof (reduction_stable _ _ _ _ _ _ _ _ _ Hr) as Hstr.
        split_and!; [done|by etrans|]. intros k x u [[_ Hk]|[-> Hk]]%lookup_snoc_Some Hu.
        { destruct (Hos _ _ _ Hk Hu). split; [done|]. by eapply amount_of_stable. }
        rewrite Hlen in Hu. simplify_eq. split; [apply (refines_count _ _ _ Hrf)|]. by eapply reduction_amount.
Qed.

Lemma weave_bound os l m : (forall a, Some a ∈ os -> (a < m)%nat) -> Forall (fun v => (v < m)%nat) l ->
  Forall (fun v => (v < m)%nat) (weave os l).
Proof.
  revert l. induction os as [|o os IH]; intros l Ho Hl; [by destruct l|].
  destruct l as [|v l]; [done|]. inversion_clear Hl. simpl. apply Forall_app. split.
  - destruct o as [a|]; [|done]. constructor; [|done]. apply Ho. by left.
  - constructor; [done|]. apply IH; [|done]. intros a Ha. apply Ho. by right.
Qed.

(** Replacing a block's instruction list. *)
Lemma set_insts_shape c block b l : shape_ok c -> blocks c !! block = Some b ->
  Forall (fun v => (v < value_count c)%nat) l ->
  shape_ok (set_blocks (<[block := with_insts l b]> (blocks c)) c).
Proof.
  intros [Hok Hr Ht] Hb Hl. split; [| |done].
  - apply (step_update_block c Hok block (with_insts l)); [by rw /update_block Hb|].
    intros b' Hb'. assert (b' = b) as -> by congruence. destruct (ok_blocks _ Hok _ _ Hb). by split.
  - split.
    + intros v us Hv. rw /visit_instruction_uses /visit_instruction_uses_kinded /get_inst /=.
      destruct (values c !! v) as [i|] eqn:Hi; [|done]. simpl. rw (data_uses_stores _ c) //.
      intros Hus. apply (refs_insts _ Hr v); [done|].
      by rw /visit_instruction_uses /visit_instruction_uses_kinded /get_inst Hi.
    + intros k b' us Hk. rw (term_uses_stores _ c) //. intros Hus. simpl in Hk.
      apply list_lookup_insert_Some in Hk as [(<- & <- & _)|[_ Hk]]; by eapply (refs_terms _ Hr).
Qed.

Lemma set_blocks_refines c bs : refines source c (set_blocks bs c).
Proof.
  assert (same_frame c (set_blocks bs c)) as Hf by done.
  assert (forall ρ, env_typed c ρ <-> env_typed (set_blocks bs c) ρ) as Ht.
  { intros ρ. split; by apply env_typed_frame. }
  split; [done|done| |].
  - intros ρ Ht' Hm. split_and!; [by apply Ht| |].
    + intros v i r Hi. rw (eval_frame source c (set_blocks bs c)) //. by apply (Hm v).
    + intros v i i' Hi Hi'. assert (i' = i) as -> by (rewrite /get_inst /= in Hi'; rewrite /get_inst in Hi; congruence).
      by apply eval_frame.
  - intros ρ Ht' Hm. exists ρ. split_and!; [by apply Ht| |done].
    intros v i r Hi. rw -(eval_frame source c (set_blocks bs c)) //. by apply (Hm v).
Qed.

Definition blocks_reduced (pre : list BlockId) (st : Cfg * Stats) : Prop :=
  let c := st.1 in
  shape_ok c /\ block_count c = block_count c0 /\ (value_count c0 <= value_count c)%nat /\ grown c /\
  (forall k, (length pre <= k)%nat -> blocks c !! k = blocks c0 !! k) /\
  forall k b, (k < length pre)%nat -> blocks c0 !! k = Some b ->
    exists l, blocks c !! k = Some (with_insts l b) /\
      (capacity_exceeded c = None -> well_typed c0 -> woven (value_count c0) c (insts b) l).

Lemma reduce_block_spec pre k st : (exists post, seq 0 (block_count c0) = pre ++ k :: post) ->
  blocks_reduced pre st -> exists st', reduce_block st k = Some st' /\ blocks_reduced (pre ++ [k]) st'.
Proof using Hc0 Hsource.
  intros [post Hpost]. destruct st as [c stats]. intros (Hs & Hbc & Hn & Hg & Hrest & Hdone). simpl in *.
  assert (k = length pre /\ (k < block_count c0)%nat) as [-> Hk].
  { assert (seq 0 (block_count c0) !! length pre = Some k) as Hl by by rw Hpost list_lookup_middle.
    apply lookup_seq in Hl. simpl in Hl. lia. }
  destruct (lookup_lt_is_Some_2 (blocks c0) (length pre) Hk) as [b Hb0].
  assert (blocks c !! length pre = Some b) as Hb by (rw Hrest //).
  destruct (ok_blocks _ (so_ok _ Hc0) _ _ Hb0) as [_ Hin0 _ _].
  assert (Forall (fun v => (v < value_count c)%nat) (insts b)) as Hin.
  { eapply Forall_impl; [exact Hin0|]. simpl. lia. }
  rw /reduce_block /get_block Hb /=.
  destruct (fold_opt_total reduce_value (scanned c (insts b)) (imap pair (insts b)) (c, [], stats))
    as ([[c1 ins] stats1] & -> & Hs1 & Hb1 & Hn1 & Hg1 & os & Hlen & -> & Ham & Hgood).
  { split_and!; try done. exists []. split_and!; try done. { by intros a ?%not_elem_of_nil. } }
  { intros p e st. by apply scan_value. }
  rewrite length_imap in Hlen. simpl.
  assert (get_block c1 (length pre) = Some b) as Hgb by (by rw /get_block Hb1).
  destruct (insert_amounts (length pre) c1 b (rev (positions 0 os)) (weave os (insts b)) Hgb)
    as (c2 & -> & Hv2 & Hb2 & Heq).
  { apply (insert_back_to_front os []). by rw Hlen. }
  rewrite Hb2 in Heq. simpl. eexists. split; [done|]. rewrite /blocks_reduced. simpl.
  assert (Forall (fun v => (v < value_count c1)%nat) (weave os (insts b))) as Hwb.
  { apply weave_bound; [done|]. eapply Forall_impl; [exact Hin0|]. simpl. lia. }
  assert (shape_ok c2) as Hs2 by (rewrite Heq; by apply set_insts_shape).
  assert (stable c1 c2) as Hst2 by (intros u i; by rw /get_inst Hv2).
  assert (capacity_exceeded c2 = capacity_exceeded c1) as Hcap2 by by rewrite Heq.
  split_and!; [done| |rw /value_count Hv2; rewrite /value_count in Hn1 Hn; lia| | |].
  - rw /block_count Hb2 length_insert Hb1. exact Hbc.
  - intros Hcap Hw. rewrite Hcap2 in Hcap. destruct (Hg1 Hcap Hw) as (Hp & Hr & Hst & Hc00). split_and!; [| | |done].
    + apply peephole_shape. split; [done|]. rewrite Heq. by apply (po_typed _ Hp).
    + rewrite Heq. etrans; [done|]. apply set_blocks_refines.
    + by etrans.
  - intros j. rw length_app /=. intros Hj. rw Hb2 list_lookup_insert_ne; [|lia]. rw Hb1 Hrest //. lia.
  - intros j b' Hj Hb'. rewrite length_app /= in Hj. destruct (decide (j = length pre)) as [->|Hne].
    + assert (b' = b) as -> by congruence. eexists. split.
      { rw Hb2 list_lookup_insert_eq; [done|]. rw Hb1. by eapply lookup_lt_Some. }
      intros Hcap Hw. rewrite Hcap2 in Hcap. destruct (Hgood Hcap Hw) as (_ & _ & Hos).
      apply (woven_stable _ c1); [done|]. by apply weave_woven.
    + destruct (Hdone j b') as (l & Hl & Hwv); [lia|done|]. exists l. split.
      { rw Hb2 list_lookup_insert_ne; [by rw Hb1|done]. }
      intros Hcap Hw. rewrite Hcap2 in Hcap. destruct (Hgood Hcap Hw) as (Hcc & Hstb & _).
      apply (woven_stable _ c); [by etrans|]. by apply Hwv.
Qed.

(** The whole scan. *)
Lemma reduce_spec stats : exists st', reduce_unsigned_div_mod c0 stats = Some st' /\
  blocks_reduced (seq 0 (block_count c0)) st'.
Proof using Hc0 Hsource.
  apply fold_opt_total; [|apply reduce_block_spec].
  split_and!; try done; [|by intros k b Hk; simpl in Hk; lia].
  intros Hcap Hw. split_and!; [by apply peephole_shape|reflexivity..|done].
Qed.
End Scan.

(** ** Properties of strength reduction *)

(** C29.  Strength reduction never panics, and on an owner whose value arena
    did not run out it is exact: every execution of the result is one of the
    original with the same value or trap of every instruction, every execution
    of the original extends to one of the result (so no division trap is lost
    and none is introduced), typing is kept, and in each block the original
    instructions stay in order with only the new amounts and masks in
    between, each directly before the shift or mask that uses it. *)
Theorem strength_reduction_exact (source : nat -> option CfgValue) (cfg : Cfg) (stats : Stats)
    (Hok : cfg_ok cfg) (Hrefs : refs_ok cfg)
    (Htypes : forall v i, get_inst cfg v = Some i -> is_Some (try_kind (ty i)))
    (Hsource : forall slot u, source slot = Some u -> (u < value_count cfg)%nat) :
  exists cfg' stats', reduce_unsigned_div_mod cfg stats = Some (cfg', stats') /\
    cfg_ok cfg' /\ refs_ok cfg' /\
    (capacity_exceeded cfg' = None -> well_typed cfg ->
     well_typed cfg' /\ refines source cfg cfg' /\
     forall k b, blocks cfg !! k = Some b ->
       exists l, blocks cfg' !! k = Some (with_insts l b) /\ woven (value_count cfg) cfg' (insts b) l).
Proof.
  destruct (reduce_spec source cfg (Build_shape_ok cfg Hok Hrefs Htypes) Hsource stats)
    as ([cfg' stats'] & Hrun & [Hok' Hrefs' _] & _ & _ & Hg & _ & Hb). simpl in *.
  exists cfg', stats'. split_and!; try done. intros Hcap Hw.
  destruct (Hg Hcap Hw) as (Hp & Hr & _). split_and!; [by apply Hp|done|].
  intros k b Hk. destruct (Hb k b) as (l & Hl & Hwv); [|done|eauto].
  rw length_seq. by eapply lookup_lt_Some.
Qed.

(** [let q: u8 = x / 8; let r: u8 = x % 8; (q + 0) ^ r], with [x = 200]. *)
Definition peep_edits : list edit :=
  let at_u8 d := EdAppendInst 0%nat (mkInst d TU8 (span_new 0 0)) in
  [EdNewBlock;
   at_u8 (IConst 200); at_u8 (IConst 8); at_u8 (IDiv 0 1); at_u8 (IMod 0 1);
   at_u8 (IConst 0); at_u8 (IAdd 2 4); at_u8 (IBitOr 5 4); at_u8 (IBitXor 6 3);
   EdReturn 0 (Some 6%nat)].

Definition peep_cfg : Cfg :=
  default sample_empty (run_edits (H := unlimited) (H0 := word_types) peep_edits sample_empty).

Lemma peep_cfg_ok : cfg_ok peep_cfg.
Proof.
  apply (built_cfg_ok (H := unlimited) (H0 := unlimited_laws) (H1 := word_types)).
  apply (run_edits_built peep_edits sample_empty); [constructor| |by vm_compute].
  by repeat constructor.
Qed.

Lemma peep_cfg_typed : well_typed peep_cfg.
Proof.
  intros v i Hi.
  do 8 (destruct v as [|v]; [vm_compute in Hi; injection Hi as <-; vm_compute;
    repeat split; try (left; eexists; reflexivity); try (eexists; reflexivity)|]).
  by vm_compute in Hi; destruct v.
Qed.

Lemma peep_cfg_types v i : get_inst peep_cfg v = Some i -> is_Some (try_kind (ty i)).
Proof.
  intros Hi. do 8 (destruct v as [|v]; [vm_compute in Hi; injection Hi as <-; vm_compute; by eexists|]).
  by vm_compute in Hi; destruct v.
Qed.

Lemma peep_cfg_refs : refs_ok peep_cfg.
Proof.
  split.
  - intros v us Hv Hus.
    do 8 (destruct v as [|v]; [vm_compute in Hus; injection Hus as <-;
      repeat constructor; apply Nat.ltb_lt; vm_compute; reflexivity|]).
    vm_compute in Hus. by destruct v.
  - intros i b us Hb Hus. destruct i as [|i]; [|vm_compute in Hb; destruct i; discriminate].
    vm_compute in Hb. injection Hb as <-. vm_compute in Hus. injection Hus as <-.
    repeat constructor; apply Nat.ltb_lt; vm_compute; reflexivity.
Qed.

Lemma strength_reduction_exact_witness :
  cfg_ok peep_cfg /\ refs_ok peep_cfg /\ well_typed peep_cfg /\
  exists cfg' stats', reduce_unsigned_div_mod peep_cfg stats_default = Some (cfg', stats') /\
    stats' = mkStats 2 0 /\ (insts <$> get_block cfg' 0) = Some [0; 1; 8; 2; 9; 3; 4; 5; 6; 7]%nat /\
    (data <$> get_inst cfg' 2) = Some (IShr 0 8) /\ (data <$> get_inst cfg' 3) = Some (IBitAnd 0 9) /\
    refines (fun _ => None) peep_cfg cfg'.
Proof.
  split; [exact peep_cfg_ok|split; [exact peep_cfg_refs|split; [exact peep_cfg_typed|]]].
  destruct (strength_reduction_exact (fun _ => None) peep_cfg stats_default peep_cfg_ok peep_cfg_refs
    peep_cfg_types ltac:(by intros)) as (cfg' & stats' & Hrun & _ & _ & Hr).
  exists cfg', stats'. assert (Some (cfg', stats') = reduce_unsigned_div_mod peep_cfg stats_default) as Heq by by symmetry.
  vm_compute in Heq. injection Heq as -> ->. split; [exact Hrun|].
  split; [reflexivity|split; [reflexivity|split; [reflexivity|split; [reflexivity|]]]].
  apply Hr; [reflexivity|exact peep_cfg_typed].
Defined.
