(* ===== verification/Identities.v ===== *)
(** * Identity rewiring: correctness

    The identity half of [crates/rue-cfg/src/opt/peephole.rs]: the collected
    aliases are sound in every execution, their chains resolve, and the one
    batched sweep re-points every use. *)

From S2P Require Import Prelude IntegerSemantics Types Payload CfgData CfgEdit Worklist Cfg CfgRewrite Classify Dce Eval ConstFold Peephole.
Import Machine IntegerSemantics IntegerSpec.

(** ** Alias chains *)

Section Resolve.
Context (alias : list (option CfgValue)).
Notation n := (length alias).

(** One link. *)
Definition link (v t : CfgValue) : Prop := alias !! v = Some (Some t).
Definition root (v : CfgValue) : Prop := alias !! v = Some None.

Context (Hclosed : forall v t, link v t -> t < n).
Context (rank : CfgValue -> nat) (Hrank : forall v t, link v t -> rank t < rank v).

Lemma seen_bound (seen : list CfgValue) : NoDup seen -> Forall (fun u => u < n) seen -> length seen <= n.
Proof.
  intros Hnd Hf. rewrite -(length_seq n 0). apply submseteq_length, NoDup_submseteq; [done|].
  intros u Hu. rewrite Forall_forall in Hf. apply elem_of_seq. split; [lia|]. by apply Hf.
Qed.

(** The values passed so far are distinct because their rank is larger. *)
Lemma resolve_fuel fuel seen v : v < n -> NoDup seen -> Forall (fun u => u < n /\ rank v < rank u) seen ->
  n <= length seen + fuel -> exists w, resolve fuel alias v = Some w /\ rtc link v w /\ root w.
Proof using Hclosed Hrank.
  revert seen v. induction fuel as [|fuel IH]; intros seen v Hv Hnd Hseen Hfuel;
    destruct (lookup_lt_is_Some_2 alias v Hv) as [[t|] Ht]; simpl; rw Ht /=.
  - assert (length (v :: seen) <= n); [|simpl in *; lia].
    apply seen_bound.
    + constructor; [|done]. intros Hin. rewrite Forall_forall in Hseen. destruct (Hseen v Hin). lia.
    + constructor; [done|]. eapply Forall_impl; [exact Hseen|]. by intros u [? _].
  - eexists. by split_and!.
  - destruct (IH (v :: seen) t) as (w & Hw & Hr & Hroot).
    + by eapply Hclosed.
    + constructor; [|done]. intros Hin. rewrite Forall_forall in Hseen. destruct (Hseen v Hin). lia.
    + pose proof (Hrank v t Ht). constructor; [done|].
      eapply Forall_impl; [exact Hseen|]. intros u [? ?]. split; [done|lia].
    + simpl. lia.
    + exists w. split_and!; [done| |done]. by eapply rtc_l.
  - eexists. by split_and!.
Qed.

Lemma resolve_total v : v < n -> exists w, resolve n alias v = Some w /\ rtc link v w /\ root w.
Proof using Hclosed Hrank. intros Hv. apply (resolve_fuel n []); [done|constructor..|simpl; lia]. Qed.
End Resolve.

(** ** What an identity computes *)

Lemma either_side_Some p a b u : either_side p a b = Some (Some u) ->
  p b = Some true /\ u = a \/ p a = Some true /\ u = b.
Proof.
  rw /either_side. destruct (p b) as [[]|]; simpl; [intros [= <-]; by left| |done].
  destruct (p a) as [[]|]; simpl; [intros [= <-]; by right|done..].
Qed.

Lemma right_unit_Some p a b u : right_unit p a b = Some (Some u) -> p b = Some true /\ u = a.
Proof. rw /right_unit. destruct (p b) as [[]|]; simpl; naive_solver. Qed.

Lemma is_const_Some c k v : is_const c k v = Some true -> exists i, get_inst c v = Some i /\ data i = IConst k.
Proof.
  rw /is_const /const_int. destruct (get_inst c v) as [i|]; [|done]. simpl. intros [= Hb].
  apply bool_decide_eq_true in Hb. exists i. split; [done|]. destruct (data i); by simplify_eq.
Qed.

Section Identity.
Context (source : nat -> option CfgValue) (c : Cfg) (ρ : env).
Context (Hw : well_typed c) (Ht : env_typed c ρ) (Hm : models source c ρ).
Local Open Scope Z_scope.

Lemma is_const_value k v : is_const c k v = Some true -> ρ v = RInt k.
Proof using Hm. intros (i & Hi & Hd)%is_const_Some. apply (Hm v i); [done|]. by rw /eval Hd. Qed.

Section Unit.
Context (T : Type_) (t : IntegerType) (f : IntegerType -> Z -> Z -> option Z) (a b : CfgValue) (k : Z).
Context (HT : integer_semantics T = Some t) (Ha : operand_is c a T) (Hb : operand_is c b T).
Context (Hk : norm t k = k).

(** An operation with a unit operand returns the other one. *)
Lemma right_unit_eval : is_const c k b = Some true ->
  (forall x, in_range t x -> f t x k = Some x) -> int2 ρ T f a b = Value (ρ a).
Proof using Ht Hm HT Ha Hk.
  intros Hc Hf. destruct (operand_int c ρ Ht a T t Ha HT) as (x & Hx & Hcx).
  rw /int2 HT Hx (is_const_value _ _ Hc) Hk Hf /= -?Hcx //.
  apply norm_in_range. by eapply integer_semantics_wf.
Qed.

Lemma left_unit_eval : is_const c k a = Some true ->
  (forall x, in_range t x -> f t k x = Some x) -> int2 ρ T f a b = Value (ρ b).
Proof using Ht Hm HT Hb Hk.
  intros Hc Hf. destruct (operand_int c ρ Ht b T t Hb HT) as (x & Hx & Hcx).
  rw /int2 HT Hx (is_const_value _ _ Hc) Hk Hf /= -?Hcx //.
  apply norm_in_range. by eapply integer_semantics_wf.
Qed.

Lemma either_unit_eval u : either_side (is_const c k) a b = Some (Some u) ->
  (forall x, in_range t x -> f t x k = Some x) -> (forall x, in_range t x -> f t k x = Some x) ->
  int2 ρ T f a b = Value (ρ u) /\ operand_is c u T.
Proof using Ht Hm HT Ha Hb Hk.
  intros [[Hc ->]|[Hc ->]]%either_side_Some H1 H2; (split; [|done]);
    [by apply right_unit_eval|by apply left_unit_eval].
Qed.

Lemma right_side_eval u : right_unit (is_const c k) a b = Some (Some u) ->
  (forall x, in_range t x -> f t x k = Some x) -> int2 ρ T f a b = Value (ρ u) /\ operand_is c u T.
Proof using Ht Hm HT Ha Hk.
  intros [Hc ->]%right_unit_Some H1. split; [|done]. by apply right_unit_eval.
Qed.

(** Idempotent operations. *)
Lemma same_eval : (forall x, f t x x = Some x) -> int2 ρ T f a a = Value (ρ a).
Proof using Ht HT Ha.
  intros Hf. destruct (operand_int c ρ Ht a T t Ha HT) as (x & Hx & Hcx). by rw /int2 HT Hx Hf /= -Hcx.
Qed.
End Unit.

Lemma ref_checked_exact t op x y r : op <> OpRem -> exact op x y = Some r -> in_range t r ->
  ref_checked t op x y = Some r.
Proof. intros Ho He Hr. destruct op; try done; rw /ref_checked He /= decide_True //. Qed.

Lemma shifted_zero t left x : wf t -> in_range t x -> shifted left t x 0 = Some x.
Proof.
  intros Hwf Hx. rw /shifted Zmod_0_l Z.pow_0_r Z.mul_1_r Z.div_1_r. f_equal.
  destruct left; by apply norm_id.
Qed.

(** An identity never traps and has the value of its target, which has its
    type. *)
Lemma identity_sound v t : identity_target c v = Some (Some t) ->
  exists i, get_inst c v = Some i /\ eval source c ρ i = Value (ρ t) /\ operand_is c t (ty i).
Proof using Hw Ht Hm.
  rw /identity_target. destruct (get_inst c v) as [i|] eqn:Hi; [|done]. simpl.
  destruct (is_float (ty i)) eqn:Hfl; [done|]. intros Htg. exists i. split; [done|].
  pose proof (Hw v i Hi) as Hty. rewrite /inst_typed in Hty. rw /eval.
  assert (forall T, integral (ty i) -> T = ty i -> exists it, integer_semantics T = Some it /\ wf it) as Hint.
  { intros T [it HT] ->. exists it. split; [done|]. by eapply integer_semantics_wf. }
  destruct (data i) eqn:Hd; try done; simpl in Hty |- *;
    lazymatch type of Hty with
    | _ /\ operand_is c ?a _ /\ operand_is c ?b _ =>
        destruct Hty as (Hin & Ha & Hb);
        assert (integral (ty i)) as Hin' by (first [exact Hin|destruct Hin as [?|?]; [done|congruence]]);
        destruct (Hint _ Hin' eq_refl) as (it & HT & Hwf)
    | _ => idtac
    end;
    try solve [
      eapply (either_unit_eval (ty i) it _ _ _ 0); try done; [by apply norm_0|..];
      intros x Hx; first [apply ref_checked_exact; [done|simpl; f_equal; lia|done]
                         |rw ?Z.add_0_r ?Z.add_0_l ?Z.lxor_0_r ?Z.lxor_0_l ?norm_id //]
    | eapply (either_unit_eval (ty i) it _ _ _ 1); try done; [by apply norm_1|..];
      intros x Hx; first [apply ref_checked_exact; [done|simpl; f_equal; lia|done]
                         |rw ?Z.mul_1_r ?Z.mul_1_l ?norm_id //]
    | eapply (right_side_eval (ty i) it _ _ _ 0); try done; [by apply norm_0|..];
      intros x Hx; first [apply ref_checked_exact; [done|simpl; f_equal; lia|done]
                         |by apply shifted_zero|rw ?Z.sub_0_r ?norm_id //]
    | eapply (right_side_eval (ty i) it _ _ _ 1); try done; [by apply norm_1|..];
      intros x Hx; apply ref_checked_exact; [done|simpl; by rw Z.quot_1_r|done] ].
  - destruct (Nat.eqb_spec a b) as [->|]; simplify_eq. split; [|done].
    apply (same_eval (ty i) it); [done..|]. intros x. by rw Z.land_diag.
  - destruct (either_side (is_const c 0) a b) as [[u|]|] eqn:He; simpl in Htg; [| |done].
    + simplify_eq. eapply (either_unit_eval (ty i) it _ _ _ 0); try done; [by apply norm_0|..];
        intros x _; by rw ?Z.lor_0_r ?Z.lor_0_l.
    + destruct (Nat.eqb_spec a b) as [->|]; simplify_eq. split; [|done].
      apply (same_eval (ty i) it); [done..|]. intros x. by rw Z.lor_diag.
  - destruct Hty as [HT Ha]. rewrite HT. destruct (get_inst c a) as [j|] eqn:Hj; [|done]. simpl in Htg.
    destruct (data j) eqn:Hdj; try done. simplify_eq.
    pose proof (Hw a j Hj) as Hja. rewrite /inst_typed Hdj in Hja. destruct Hja as [HTj Ht'].
    split; [|done]. rewrite /operand_is /operand_type in Ht'. apply fmap_Some in Ht' as (k & Hk & HTk).
    pose proof (Ht t k Hk) as Hv. rewrite -HTk in Hv. destruct (Hv eq_refl) as [x Hx].
    assert (ρ a = RBool (negb x)) as ->; [|by rw Hx negb_involutive].
    apply (Hm a j); [done|]. by rw /eval Hdj /= Hx.
Qed.
End Identity.

(** ** Collecting the aliases *)

Section Collect.
Context (c : Cfg) (Hok : cfg_ok c) (Hrefs : refs_ok c).
Notation n := (value_count c).

Lemma is_const_total k v : v < n -> is_Some (is_const c k v).
Proof using Hok.
  intros (i & Hi & _)%(get_inst_total c Hok). rw /is_const /const_int Hi /=. by eexists.
Qed.

Lemma either_side_total p a b : is_Some (p a) -> is_Some (p b) -> is_Some (either_side p a b).
Proof. intros [[] Ha] [[] Hb]; rw /either_side Hb /= ?Ha; by eexists. Qed.

Lemma right_unit_total p a b : is_Some (p b) -> is_Some (right_unit p a b).
Proof. intros [pb Hb]. rw /right_unit Hb /=. by eexists. Qed.

Lemma identity_target_total v : v < n -> is_Some (identity_target c v).
Proof using Hok Hrefs.
  intros Hv. destruct (get_inst_total c Hok v Hv) as (i & Hi & Hio).
  destruct (data_uses_total c _ Hio) as [us Hus]. pose proof (operand_bound _ _ _ _ Hrefs Hi Hus) as Hb.
  rewrite Forall_forall in Hb. rw /identity_target Hi /=. destruct (is_float (ty i)); [by eexists|].
  destruct (data i) eqn:Hd; simpl in Hus |- *; try by eexists.
  all: injection Hus as <-; simpl in Hb.
  all: try (destruct (is_const_total 0 a ltac:(apply Hb; set_solver)) as [pa Ha];
            destruct (is_const_total 0 b ltac:(apply Hb; set_solver)) as [pb Hpb];
            destruct (is_const_total 1 a ltac:(apply Hb; set_solver)) as [qa Hqa];
            destruct (is_const_total 1 b ltac:(apply Hb; set_solver)) as [qb Hqb]).
  all: try solve [apply either_side_total; by eexists | apply right_unit_total; by eexists | by eexists].
  - destruct (either_side_total (is_const c 0) a b) as [o ->]; [by eexists..|]. simpl. by eexists.
  - destruct (get_inst_total c Hok a ltac:(apply Hb; set_solver)) as (j & -> & _). by eexists.
Qed.

Lemma collect_alias_spec : exists alias, collect_alias c = Some alias /\ length alias = n /\
  forall v o, alias !! v = Some o <-> v < n /\ identity_target c v = Some o.
Proof using Hok Hrefs.
  destruct (mapM_is_Some_2 (identity_target c) (seq 0 n)) as [alias Ha].
  { apply Forall_forall. intros v Hv%elem_of_seq. apply identity_target_total. lia. }
  exists alias. split; [done|]. apply mapM_Some in Ha. pose proof (Forall2_length _ _ _ Ha) as Hl.
  rewrite length_seq in Hl. split; [done|]. intros v o. split.
  - intros Hv. destruct (Forall2_lookup_r _ _ _ _ _ Ha Hv) as (u & [-> Hu]%lookup_seq & Ht). done.
  - intros [Hv Ht]. assert (seq 0 n !! v = Some v) as Hs by (apply lookup_seq; by split).
    destruct (Forall2_lookup_l _ _ _ _ _ Ha Hs) as (o' & Ho & Ht'). congruence.
Qed.
End Collect.

(** ** The placeholders *)

Definition placeholder (i : CfgInst) : CfgInst := mkInst (IConst 0) (ty i) (span i).

Definition dummied (c : Cfg) (is_identity : CfgValue -> Prop) (c1 : Cfg) : Prop :=
  cfg_ok c1 /\ extra c1 = extra c /\ call_args c1 = call_args c /\ projections c1 = projections c /\
  blocks c1 = blocks c /\ ownership_boundary_values c1 = ownership_boundary_values c /\
  value_count c1 = value_count c /\
  forall v i, get_inst c v = Some i ->
    (is_identity v -> get_inst c1 v = Some (placeholder i)) /\
    (~ is_identity v -> get_inst c1 v = Some i).

Lemma identity_not_move_out c v i t : identity_target c v = Some (Some t) -> get_inst c v = Some i ->
  is_move_out (data i) = false.
Proof.
  rw /identity_target. intros Ht Hi. rewrite Hi /= in Ht.
  destruct (is_float (ty i)); [done|]. destruct (data i); try done.
Qed.

Lemma dummied_ext c P Q c1 : (forall v, P v <-> Q v) -> dummied c P c1 -> dummied c Q c1.
Proof.
  intros HPQ (?&?&?&?&?&?&?&Hi). split_and!; try done. intros v i Hv.
  destruct (Hi v i Hv). split; rw -HPQ; auto.
Qed.

Lemma dummy_step c c1 v i P : get_inst c v = Some i -> is_move_out (data i) = false ->
  dummied c P c1 -> ~ P v ->
  exists c2, write_inst_data c1 v (IConst 0) = Some c2 /\ dummied c (fun u => P u \/ u = v) c2.
Proof.
  intros Hi Hmo (Hok & He & Hca & Hpr & Hb & Hbv & Hn & Hg) Hnp.
  destruct (Hg v i Hi) as [_ Hsame]. specialize (Hsame Hnp).
  destruct (write_inst_data c1 v (IConst 0)) as [c2|] eqn:Hw; [|by rewrite /write_inst_data Hsame in Hw].
  exists c2. split; [done|]. pose proof (fun u => get_inst_write _ _ _ _ u Hw) as Hgw.
  apply write_inst_data_Some in Hw as (j & Hj & ->). assert (j = i) as -> by congruence.
  destruct (step_replace_inst c1 Hok v i (placeholder i)) as [Hok2 _]; [done..|].
  split_and!; try done; [by rw /value_count /= length_insert|].
  intros u k Hk. rw Hgw. destruct (Hg u k Hk) as [H1 H2]. case_decide as Hu.
  - subst u. assert (k = i) as -> by congruence. rw Hsame. split; [done|tauto].
  - split; [intros [?|?]; [by apply H1|done]|intros Hn'; apply H2; tauto].
Qed.

Lemma dummy_out_spec c n alias : cfg_ok c -> length alias = value_count c ->
  (forall v o, alias !! v = Some o <-> v < value_count c /\ identity_target c v = Some o) ->
  exists c1 m, fold_opt dummy_out (c, n) (imap pair alias) = Some (c1, n + m) /\
    m = length (List.filter (fun a => match a with Some _ => true | None => false end) alias) /\
    dummied c (fun v => exists t, link alias v t) c1.
Proof.
  intros Hok Hl Ha.
  destruct (fold_opt_total dummy_out
    (fun pre st => let k := length pre in
       st.2 = n + length (List.filter (fun a => match a with Some _ => true | None => false end) (take k alias)) /\
       dummied c (fun v => v < k /\ exists t, link alias v t) st.1) (imap pair alias) (c, n))
    as ([c1 m] & Hf & Hm & Hd).
  - split; [simpl; lia|]. split_and!; try done. intros v i Hi. split; [intros [Hv _]; simpl in Hv; lia|done].
  - intros pre e [c1 m] [post Hpost] [Hm Hd]. simpl in Hm, Hd.
    destruct (imap_pair_split _ _ _ _ Hpost) as [Hk Hv]. destruct e as [k o]; simpl in Hk, Hv. subst k.
    rw length_app /= Nat.add_1_r (take_S_r _ _ _ Hv) List.filter_app length_app /=.
    rw /dummy_out /=. destruct o as [t|].
    + pose proof Hv as [Hlt Htg]%Ha. destruct (lookup_lt_is_Some_2 (values c) (length pre) Hlt) as [i Hi].
      destruct (dummy_step c c1 (length pre) i _ Hi (identity_not_move_out _ _ _ _ Htg Hi) Hd ltac:(intros [? _]; lia))
        as (c2 & -> & Hd2). eexists. split; [done|]. split; [simpl; lia|]. simpl.
      eapply dummied_ext; [|exact Hd2]. intros u. split.
      * intros [[? ?]| ->]; (split; [lia|]); [done|by exists t].
      * intros [Hu ?]. destruct (decide (u = length pre)); [by right|left; split; [lia|done]].
    + eexists. split; [done|]. split; [simpl; lia|]. simpl. eapply dummied_ext; [|exact Hd].
      intros u. split; [intros [? ?]; split; [lia|done]|].
      intros [Hu [t Ht]]. split; [|by exists t]. destruct (decide (u = length pre)) as [->|]; [|lia].
      rewrite /link in Ht. congruence.
  - rewrite length_imap firstn_all in Hm. rewrite length_imap in Hd. simpl in Hm, Hd. subst m.
    exists c1, (length (List.filter (fun a => match a with Some _ => true | None => false end) alias)).
    split_and!; [done..|]. eapply dummied_ext; [|exact Hd]. intros v. split; [by intros [_ ?]|].
    intros [t Ht]. split; [by eapply lookup_lt_Some|by exists t].
Qed.

(** ** Reading a rewritten instruction *)

Definition payload_free (d : CfgInstData) : bool :=
  match d with
  | IPlaceRead _ | IMoveOut _ | IPlaceWrite _ _ | ICall _ _ _ | IAccessorCall _ _ | ICallIndirect _ _
  | IIntrinsic _ _ _ | IStructInit _ _ | IArrayInit _ _ | IEnumVariant _ _ _ => false
  | _ => true
  end.

Lemma erase_payload_free d d' : payload_free d = true -> erase d' = d -> d' = d.
Proof. intros Hd <-. destruct d'; try done. Qed.

Section Rewritten.
Context (map : CfgValue -> CfgValue) (c c' : Cfg).
Notation old := (payloads_of c).
Notation new := (payloads_of c').

Lemma rewritten_payload_free d d' : payload_free d = true -> inst_rewritten map old new d d' ->
  d' = map_operands map d.
Proof.
  intros Hd (_ & He & _). apply erase_payload_free; [by destruct d|]. rw He. by destruct d.
Qed.

Lemma rewritten_index_uses l : index_uses (rewrite_projection map <$> l) = map <$> index_uses l.
Proof.
  rewrite /index_uses. induction l as [|[id i|t v] l IH]; [done|exact IH|]. simpl. by f_equal.
Qed.

Lemma rewritten_place_uses p p' : range_ok (projections c) (place_projections p) ->
  range_ok (projections c') (place_projections p') ->
  denote (projections c') (place_projections p') =
    rewrite_projection map <$> denote (projections c) (place_projections p) ->
  base p' = rewrite_base map (base p) ->
  exists l, get_place_projections c p = Some l /\
    get_place_projections c' p' = Some (rewrite_projection map <$> l) /\
    base_uses (base p') = map <$> base_uses (base p) /\
    index_uses (rewrite_projection map <$> l) = map <$> index_uses l.
Proof.
  intros Hr Hr' Hd Hb. exists (denote (projections c) (place_projections p)).
  rw /get_place_projections !range_ok_view // Hd Hb. split_and!; try done.
  - by destruct (base p).
  - apply rewritten_index_uses.
Qed.

Lemma reads_map l : (reads (map <$> l)).*1 = map <$> (reads l).*1.
Proof. rw /reads -!list_fmap_compose. by apply list_fmap_ext. Qed.
Lemma args_map l : (arg_use <$> (rewrite_arg map <$> l)).*1 = map <$> (arg_use <$> l).*1.
Proof. rw -!list_fmap_compose. by apply list_fmap_ext. Qed.

(** The operands of the rewritten instruction are the images of the old
    ones. *)
Lemma rewritten_uses d d' : inst_ok c d -> inst_rewritten map old new d d' ->
  exists us us', data_uses c d = Some us /\ data_uses c' d' = Some us' /\ us'.*1 = map <$> us.*1.
Proof.
  intros Hok Hr. destruct (payload_free d) eqn:Hf.
  - rw (rewritten_payload_free d d' Hf Hr). destruct d; try done; simpl; eexists _, _; by split_and!.
  - destruct Hr as (Hh & He & Hc & _). destruct d; try done; destruct d'; try done; simpl in *; simplify_eq/=;
      try (rewrite /call_args_of /intrinsic_args /struct_fields /array_elements /enum_payload;
           rewrite !range_ok_view //= ?Hc; eexists _, _; split_and!; [done..|];
           rewrite ?fmap_app ?reads_map ?args_map; done).
    all: try (match goal with p' : Place |- context [get_place_projections c ?p] =>
        destruct (rewritten_place_uses p p') as (l & -> & -> & Hb & Hi); [done..|congruence|] end;
      simpl; eexists _, _; split_and!; [done..|]; rewrite /= ?fmap_cons Hb Hi -fmap_app reads_map; done).
    + destruct (rewritten_place_uses place place0) as (l & -> & -> & Hb & Hi); [done..|].
      simpl. eexists _, _. split_and!; [done..|]. rewrite Hb Hi -fmap_app. simpl. f_equal. apply reads_map.
    + rewrite /call_args_of !range_ok_view //= Hc. eexists _, _. split_and!; [done..|].
      simpl. f_equal. apply args_map.
Qed.

Lemma rewritten_term_uses t t' : term_handles_ok old t -> term_rewritten map old new t t' ->
  exists us, visit_terminator_uses c t = Some us /\ visit_terminator_uses c' t' = Some (map <$> us).
Proof.
  intros Ht (Hh & He & Ha).
  destruct t as [tg r|cd tb ta eb ea|v cs d|v| |], t' as [tg' r'|cd' tb' ta' eb' ea'|v' cs' d'|v'| |];
    simpl in *; try done; simplify_eq/=; try (eexists; by split).
  - rewrite /goto_args !range_ok_view //=. eexists. split; [done|]. by f_equal.
  - destruct Ht as [Ht1 Ht2], Hh as [Hh1 Hh2].
    rewrite /then_args_of /else_args_of !range_ok_view //=. eexists. split; [done|].
    rewrite fmap_cons fmap_app. f_equal. f_equal. by f_equal.
  - destruct v; eexists; by split.
Qed.

(** Same outcome under the map. *)
Lemma eval_rewritten source ρ ρ' T d d' : inst_ok c d -> inst_rewritten map old new d d' ->
  (forall us u, data_uses c d = Some us -> u ∈ us.*1 ->
     ρ u = ρ' (map u) /\ operand_type c u = operand_type c' (map u)) ->
  (forall slot u, source slot = Some u -> ρ u = ρ' (map u)) ->
  eval_data source c ρ T d = eval_data (fun slot => map <$> source slot) c' ρ' T d'.
Proof.
  intros Hok Hr Hu Hs. destruct (payload_free d) eqn:Hf.
  - rewrite (rewritten_payload_free d d' Hf Hr).
    destruct d; try done; simpl in Hu |- *;
      try (rewrite /int2 /int1 /equality /ordered /float_operand;
        repeat match goal with
        | |- context [ρ ?u] => rewrite (proj1 (Hu _ u eq_refl ltac:(simpl; set_solver)))
        | |- context [operand_type c ?u] => rewrite (proj2 (Hu _ u eq_refl ltac:(simpl; set_solver)))
        end; done).
    destruct (source slot) as [u|] eqn:Hsl; [|done]. simpl. f_equal. by eapply Hs.
  - destruct Hr as (Hh & He & Hc & _). destruct d; try done; destruct d'; try done.
    simpl in *. simplify_eq/=. rewrite /enum_payload in Hu |- *.
    rewrite !range_ok_view //= Hc. rewrite range_ok_view // in Hu. simpl in Hu.
    do 2 f_equal. etrans; [|apply (list_fmap_compose map ρ')]. apply list_fmap_ext. intros k u Hk. simpl.
    refine (proj1 (Hu _ u eq_refl _)). rewrite /reads -list_fmap_compose.
    apply list_elem_of_fmap. exists u. split; [done|]. by eapply list_elem_of_lookup_2.
Qed.

Lemma inst_typed_rewritten i i' : value_rewritten map old new i i' ->
  (forall u T, operand_is c u T -> operand_is c' (map u) T) -> inst_typed c i -> inst_typed c' i'.
Proof.
  intros (Hr & Ht & _) Hu. destruct (payload_free (data i)) eqn:Hf.
  - pose proof (rewritten_payload_free _ _ Hf Hr) as Hd. rewrite /inst_typed Hd Ht.
    destruct (data i); try done; simpl; naive_solver.
  - destruct Hr as (_ & He & _ & _). rewrite /inst_typed Ht.
    destruct (data i); try done; destruct (data i'); try done. simpl in He. by simplify_eq.
Qed.
End Rewritten.

(** ** The rewiring *)

Definition is_identity (c : Cfg) (v : CfgValue) : Prop := exists t, identity_target c v = Some (Some t).

(** Operands are not identities of themselves, through any chain. *)
Definition acyclic_identities (c : Cfg) : Prop :=
  exists rank : CfgValue -> nat, forall v t, identity_target c v = Some (Some t) -> rank t < rank v.

(** No operand of [c'] is an identity of [c]. *)
Definition identities_unused (c c' : Cfg) : Prop :=
  (forall v us u, visit_instruction_uses c' v = Some us -> u ∈ us -> ~ is_identity c u) /\
  (forall k b us u, blocks c' !! k = Some b -> visit_terminator_uses c' (terminator b) = Some us ->
     u ∈ us -> ~ is_identity c u).

(** [map] sends every value to a surviving one that holds the same thing in
    every execution, and surviving instructions compute the same outcome from
    the mapped operands; identities compute their target and never trap. *)
Definition rewired_by (map : CfgValue -> CfgValue) (c c' : Cfg) : Prop :=
  forall source ρ ρ', env_typed c ρ -> models source c ρ ->
    (forall slot u, source slot = Some u -> u < value_count c) ->
    (forall u, u < value_count c -> ~ is_identity c u -> ρ' u = ρ u) ->
    forall v i, get_inst c v = Some i ->
      ρ (map v) = ρ v /\ ~ is_identity c (map v) /\
      exists i', get_inst c' v = Some i' /\ ty i' = ty i /\
        (is_identity c v -> eval source c ρ i = Value (ρ (map v)) /\ data i' = IConst 0) /\
        (~ is_identity c v ->
           eval source c ρ i = eval (fun slot => map <$> source slot) c' ρ' i').

Section Rewire.
Context (c : Cfg) (Hok : cfg_ok c) (Hrefs : refs_ok c) (Hw : well_typed c).
Context (alias : list (option CfgValue)) (Hlen : length alias = value_count c).
Context (Halias : forall v o, alias !! v = Some o <-> v < value_count c /\ identity_target c v = Some o).
Context (Hacyc : acyclic_identities c).
Notation n := (value_count c).

Lemma alias_identity v : (exists t, link alias v t) <-> is_identity c v.
Proof using Halias.
  split.
  - intros [t [_ Ht]%Halias]. by exists t.
  - intros [t Ht]. exists t. apply Halias. split; [|done].
    rewrite /identity_target in Ht. destruct (get_inst c v) as [i|] eqn:Hi; [|done]. by eapply get_inst_bound.
Qed.

Lemma root_not_identity v : root alias v -> ~ is_identity c v.
Proof using Halias. intros Hr [t Ht]%alias_identity. rewrite /root /link in Hr Ht. congruence. Qed.

Lemma identity_type v t i : link alias v t -> get_inst c v = Some i -> operand_is c t (ty i).
Proof using Hw Halias.
  intros [_ Ht]%Halias Hi. rewrite /identity_target Hi /= in Ht.
  destruct (is_float (ty i)); [done|]. pose proof (Hw v i Hi) as Hty. rewrite /inst_typed in Hty.
  destruct (data i) eqn:Hd; try done; simpl in Hty, Ht;
    try (apply either_side_Some in Ht as [[_ ->]|[_ ->]]; tauto);
    try (apply right_unit_Some in Ht as [_ ->]; tauto).
  - destruct (a =? b); simplify_eq. tauto.
  - destruct (either_side (is_const c 0) a b) as [[u|]|] eqn:He; simpl in Ht; [| |done].
    + simplify_eq. apply either_side_Some in He as [[_ ->]|[_ ->]]; tauto.
    + destruct (a =? b); simplify_eq. tauto.
  - destruct (get_inst c a) as [j|] eqn:Hj; [|done]. simpl in Ht. destruct (data j) eqn:Hdj; try done.
    simplify_eq. pose proof (Hw a j Hj) as Hja. rewrite /inst_typed Hdj in Hja.
    destruct Hty as [-> _]. tauto.
Qed.

Lemma link_bound v t : link alias v t -> t < length alias.
Proof using Hw Hlen Halias.
  intros Hl. pose proof Hl as [Hv _]%Halias. destruct (lookup_lt_is_Some_2 (values c) v Hv) as [i Hi].
  pose proof (identity_type v t i Hl Hi) as Ht. rewrite /operand_is /operand_type in Ht.
  apply fmap_Some in Ht as (j & Hj & _). rewrite Hlen. by eapply get_inst_bound.
Qed.

Definition resolved (v : CfgValue) : CfgValue := default v (resolve (length alias) alias v).

Lemma resolved_spec v : v < n ->
  resolve (length alias) alias v = Some (resolved v) /\ rtc (link alias) v (resolved v) /\ root alias (resolved v).
Proof using Hw Hlen Halias Hacyc.
  intros Hv. destruct Hacyc as [rank Hrank].
  destruct (resolve_total alias link_bound rank) with (v := v) as (w & Hr & Hrtc & Hroot).
  { intros u t [_ Ht]%Halias. by apply Hrank. }
  { by rewrite Hlen. }
  by rewrite /resolved Hr.
Qed.

Lemma root_bound v : root alias v -> v < n.
Proof using Halias. by intros [? _]%Halias. Qed.

Lemma resolved_root v : root alias v -> resolved v = v.
Proof using Hw Hlen Halias Hacyc.
  intros Hr. destruct (resolved_spec v (root_bound v Hr)) as (_ & Hrtc & _).
  destruct (rtc_inv _ _ Hrtc) as [<-|(t & Hl & _)]; [done|]. rewrite /root /link in Hr Hl. congruence.
Qed.

(** Along a chain the type and the value stay. *)
Lemma chain_type v w T : rtc (link alias) v w -> operand_is c v T -> operand_is c w T.
Proof using Hw Halias.
  induction 1 as [|v t w Hl _ IH]; [done|]. intros Hv. apply IH.
  rewrite /operand_is /operand_type in Hv. apply fmap_Some in Hv as (i & Hi & ->).
  by eapply identity_type.
Qed.

Lemma chain_value source ρ v w : env_typed c ρ -> models source c ρ -> rtc (link alias) v w -> ρ w = ρ v.
Proof using Hw Halias.
  intros Ht Hm. induction 1 as [|v t w Hl _ IH]; [done|]. rewrite IH.
  pose proof Hl as [_ Hid]%Halias. destruct (identity_sound source c ρ Hw Ht Hm v t Hid) as (i & Hi & He & _).
  symmetry. by apply (Hm v i).
Qed.

Section Swept.
Context (c1 c' : Cfg) (Hd : dummied c (is_identity c) c1) (Hok' : cfg_ok c')
  (Hsw : uses_rewritten resolved c1 c').

Lemma identity_dec v : v < n -> is_identity c v \/ ~ is_identity c v.
Proof using Hlen Halias.
  intros Hv. destruct (lookup_lt_is_Some_2 alias v) as [[t|] Ht]; [by rewrite Hlen|left|right].
  - apply alias_identity. by exists t.
  - by apply root_not_identity.
Qed.

Lemma dummied_frame : same_frame c c1.
Proof using Hlen Halias Hd.
  destruct Hd as (_ & He & _ & _ & _ & _ & Hn & Hg). split; [done|]. intros v. rewrite /operand_type.
  destruct (get_inst c v) as [i|] eqn:Hi.
  - destruct (Hg v i Hi) as [H1 H2]. destruct (identity_dec v (get_inst_bound _ _ _ Hi)); [rewrite H1 //|rewrite H2 //].
  - destruct (get_inst c1 v) eqn:Hi1; [|done]. apply get_inst_bound in Hi1. rewrite Hn in Hi1.
    apply lookup_lt_is_Some_2 in Hi1 as [? Hi1]. rewrite /get_inst in Hi. congruence.
Qed.

Lemma dummied_refs : refs_ok c1.
Proof using Hrefs Hlen Halias Hd.
  destruct Hd as (_ & He & Hca & Hpr & Hb & _ & Hn & Hg). split.
  - intros v us Hv. rewrite Hn in Hv. destruct (lookup_lt_is_Some_2 (values c) v Hv) as [i Hi].
    destruct (Hg v i Hi) as [H1 H2]. rewrite /visit_instruction_uses /visit_instruction_uses_kinded.
    destruct (identity_dec v Hv) as [Hid|Hid].
    + rewrite H1 //=. by intros [= <-].
    + rewrite H2 //= (data_uses_stores c1 c) //. destruct (data_uses c (data i)) eqn:Hu; [|done].
      intros [= <-]. rewrite Hn. by eapply operand_bound.
  - intros k b us. rewrite Hb Hn. intros Hk. rewrite (term_uses_stores c1 c) //. by apply (refs_terms _ Hrefs k).
Qed.

Lemma swept_inst v i : get_inst c v = Some i -> exists i1 i', get_inst c1 v = Some i1 /\ get_inst c' v = Some i' /\
  value_rewritten resolved (payloads_of c1) (payloads_of c') i1 i' /\
  (is_identity c v -> i1 = placeholder i) /\ (~ is_identity c v -> i1 = i).
Proof using Hlen Halias Hd Hsw.
  intros Hi. destruct Hd as (_ & _ & _ & _ & _ & _ & Hn & Hg). destruct Hsw as (Hv & _).
  destruct (lookup_lt_is_Some_2 (values c1) v) as [i1 Hi1].
  { fold (value_count c1). rewrite Hn. by eapply get_inst_bound. }
  destruct (Forall2_lookup_l _ _ _ _ _ Hv Hi1) as (i' & Hi' & Hr). exists i1, i'.
  destruct (Hg v i Hi) as [H1 H2]. split_and!; [done..| |].
  - intros Hid. specialize (H1 Hid). rewrite /get_inst in H1. congruence.
  - intros Hid. specialize (H2 Hid). rewrite /get_inst in H2. congruence.
Qed.

Lemma swept_type v T : v < n -> operand_is c v T -> operand_is c' v T.
Proof using Hlen Halias Hd Hsw.
  intros Hv. destruct (lookup_lt_is_Some_2 (values c) v Hv) as [i Hi].
  destruct (swept_inst v i Hi) as (i1 & i' & Hi1 & Hi' & (_ & Ht & _) & _).
  pose proof (proj2 dummied_frame v) as Hf. rewrite /operand_is. rewrite Hf /operand_type Hi1 Hi' /=. congruence.
Qed.

Lemma swept_operand_type u : u < n -> operand_type c u = operand_type c' (resolved u).
Proof using Hw Hlen Halias Hacyc Hd Hsw.
  intros Hu. destruct (resolved_spec u Hu) as (_ & Hrtc & Hroot).
  destruct (lookup_lt_is_Some_2 (values c) u Hu) as [i Hi].
  assert (operand_is c u (ty i)) as Hty by (by rewrite /operand_is /operand_type /get_inst Hi).
  pose proof (chain_type _ _ _ Hrtc Hty) as Hty'.
  pose proof (swept_type _ _ (root_bound _ Hroot) Hty') as Hty''. rewrite /operand_is in Hty, Hty''. congruence.
Qed.

Lemma swept_typed : well_typed c'.
Proof using Hrefs Hw Hlen Halias Hacyc Hd Hsw.
  intros v i' Hi'. assert (v < n) as Hv.
  { destruct Hd as (_ & _ & _ & _ & _ & _ & Hn & _). destruct Hsw as (Hvs & _).
    apply get_inst_bound in Hi'. rewrite -Hn /value_count (Forall2_length _ _ _ Hvs). exact Hi'. }
  destruct (lookup_lt_is_Some_2 (values c) v Hv) as [i Hi].
  destruct (swept_inst v i Hi) as (i1 & i2 & Hi1 & Hi2 & Hr & H1 & H2).
  assert (i2 = i') as -> by congruence. destruct (identity_dec v Hv) as [Hid|Hid].
  - rewrite (H1 Hid) in Hr. destruct Hr as (Hr & _ & _).
    by rewrite /inst_typed (rewritten_payload_free resolved c1 c' (IConst 0) (data i') eq_refl Hr).
  - apply (inst_typed_rewritten resolved c c' i); [|..].
    + pose proof dummied_frame as [He _]. destruct Hd as (_ & _ & Hca & Hpr & _).
      rewrite (H2 Hid) in Hr. by rewrite /payloads_of He -Hca -Hpr.
    + intros u T Hu. pose proof Hu as Hu'. rewrite /operand_is /operand_type in Hu'.
      apply fmap_Some in Hu' as (j & Hj & _). rewrite /operand_is -swept_operand_type //. by eapply get_inst_bound.
    + by apply (Hw v).
Qed.

Lemma swept_unused : identities_unused c c'.
Proof using Hok Hrefs Hw Hlen Halias Hacyc Hd Hsw.
  pose proof dummied_refs as Hr1. pose proof Hd as (Hok1 & _ & _ & _ & _ & _ & Hn & _).
  pose proof Hsw as (Hvs & Hbs & _).
  assert (forall us u, Forall (fun u => u < value_count c1) us -> u ∈ resolved <$> us -> ~ is_identity c u) as Hmap.
  { intros us u Hf (w & -> & Hin)%list_elem_of_fmap. rewrite Forall_forall Hn in Hf.
    destruct (resolved_spec w (Hf w Hin)) as (_ & _ & Hroot). by apply root_not_identity. }
  split.
  - intros v us u. rewrite /visit_instruction_uses /visit_instruction_uses_kinded.
    destruct (get_inst c' v) as [i'|] eqn:Hi'; [|done]. simpl.
    destruct (Forall2_lookup_r _ _ _ _ _ Hvs Hi') as (i1 & Hi1 & Hr & _).
    destruct (rewritten_uses resolved c1 c' (data i1) (data i')) as (us1 & us' & Hu1 & -> & Heq); [|done|].
    { by eapply (ok_insts _ Hok1). }
    intros [= <-]. rewrite Heq. apply Hmap. by eapply operand_bound.
  - intros k b' us u Hk. destruct (Forall2_lookup_r _ _ _ _ _ Hbs Hk) as (b1 & Hb1 & Hr & _).
    destruct (rewritten_term_uses resolved c1 c' (terminator b1) (terminator b')) as (us1 & Hu1 & ->); [|done|].
    { destruct (ok_blocks _ Hok1 _ _ Hb1) as [_ _ _ Ht]. destruct (terminator b1); simpl in *; tauto. }
    intros [= <-]. apply Hmap. by eapply (refs_terms _ Hr1).
Qed.

Lemma swept_rewired : rewired_by resolved c c'.
Proof using Hok Hrefs Hw Hlen Halias Hacyc Hd Hsw.
  intros source ρ ρ' Ht Hm Hs Hρ v i Hi. pose proof (get_inst_bound _ _ _ Hi) as Hv.
  destruct (resolved_spec v Hv) as (_ & Hrtc & Hroot).
  assert (forall u, u < n -> ρ u = ρ' (resolved u)) as Hmap.
  { intros u Hu. destruct (resolved_spec u Hu) as (_ & Hr & Hru).
    rewrite Hρ; [|by apply root_bound|by apply root_not_identity]. symmetry. by eapply chain_value. }
  split; [by eapply chain_value|]. split; [by apply root_not_identity|].
  destruct (swept_inst v i Hi) as (i1 & i' & Hi1 & Hi' & (Hr & Hty & _) & H1 & H2).
  exists i'. split; [done|]. pose proof dummied_frame as Hf.
  split; [|split].
  - rewrite Hty. destruct (identity_dec v Hv) as [Hid|Hid]; [by rewrite H1|by rewrite H2].
  - intros Hid. split.
    + pose proof Hid as [t Htg]. destruct (identity_sound source c ρ Hw Ht Hm v t Htg) as (j & Hj & He & _).
      assert (j = i) as -> by congruence. rewrite He. f_equal.
      rewrite (chain_value source ρ v (resolved v)) //. symmetry. by apply (Hm v i).
    + rewrite (H1 Hid) in Hr. by rewrite (rewritten_payload_free resolved c1 c' (IConst 0) (data i') eq_refl Hr).
  - intros Hid. rewrite (H2 Hid) in Hr, Hty. rewrite (eval_frame source c c1) // /eval Hty.
    pose proof Hd as (Hok1 & _). apply (eval_rewritten resolved c1 c'); [|done| |].
    + rewrite (H2 Hid) in Hi1. by eapply (ok_insts _ Hok1).
    + intros us u Hus Hu. rewrite (H2 Hid) in Hi1.
      pose proof (operand_bound _ _ _ _ dummied_refs Hi1 Hus) as Hb. rewrite Forall_forall in Hb.
      specialize (Hb u Hu). destruct Hd as (_ & _ & _ & _ & _ & _ & Hn & _). rewrite Hn in Hb.
      split; [by apply Hmap|]. rewrite -(proj2 dummied_frame u). by apply swept_operand_type.
    + intros slot u Hsl%Hs. by apply Hmap.
Qed.
End Swept.
End Rewire.

(** ** Property *)

(** Nothing to rewire. *)
Lemma rewired_by_id c : cfg_ok c -> refs_ok c -> (forall v, ~ is_identity c v) -> rewired_by id c c.
Proof.
  intros Hok Hrefs Hn source ρ ρ' Ht Hm Hs Hρ v i Hi. split_and!; [done|apply Hn|].
  exists i. split_and!; [done..|by intros ?%Hn|]. intros _.
  assert (inst_ok c (data i)) as Hio by (by eapply (ok_insts _ Hok)).
  destruct (data_uses_total c _ Hio) as [us Hus].
  pose proof (operand_bound _ _ _ _ Hrefs Hi Hus) as Hb. rewrite Forall_forall in Hb.
  transitivity (eval source c ρ' i).
  - apply (eval_ext _ _ _ _ _ _ us); [done..| |].
    + intros u Hu%Hb. split; [|done]. by rewrite Hρ.
    + intros slot u Hu%Hs. by rewrite Hρ.
  - rewrite /eval. destruct (data i); try done. simpl. by destruct (source slot).
Qed.

Lemma swept_operands_total c : cfg_ok c -> refs_ok c ->
  (forall u, u ∈ ownership_boundary_values c -> u < value_count c) ->
  exists l, swept_operands c = Some l /\ Forall (fun u => u < value_count c) l.
Proof.
  intros Hok Hrefs Hb. rewrite /swept_operands.
  destruct (flat_opt_total (visit_instruction_uses c) (seq 0 (value_count c))) as [l1 H1].
  { apply Forall_forall. intros v Hv%elem_of_seq. apply uses_total; [done|lia]. }
  destruct (flat_opt_total (fun b => visit_terminator_uses c (terminator b)) (blocks c)) as [l2 H2].
  { apply Forall_forall. intros b [k Hk]%list_elem_of_lookup. by eapply terminator_uses_total. }
  rewrite H1 /= H2 /=. eexists. split; [done|]. rewrite !Forall_app. split_and!; apply Forall_forall.
  - intros u (v & us & Hv & Hus & Hu)%(flat_opt_elem _ _ _ _ H1).
    apply elem_of_seq in Hv. pose proof (refs_insts _ Hrefs v us ltac:(lia) Hus) as Hf.
    rewrite Forall_forall in Hf. by apply Hf.
  - intros u (b & us & [k Hk]%list_elem_of_lookup & Hus & Hu)%(flat_opt_elem _ _ _ _ H2).
    pose proof (refs_terms _ Hrefs k b us Hk Hus) as Hf. rewrite Forall_forall in Hf. by apply Hf.
  - intros u Hu%elem_of_elements. by apply Hb.
Qed.

(** C30.  Identity rewiring terminates and is exact: the chain resolution
    always ends (also on identities of identities) and never indexes out of
    range; the only failure is an edit error of the payload stores.  On
    success the owner is well formed and well typed, no operand of any
    instruction or terminator is a rewired identity any more, every identity
    computed exactly the value of the operand it was replaced by and could
    not trap, and every other instruction has the outcome it had, whatever the
    placeholders hold. *)
Theorem rewire_identities_exact `{Alloc} (cfg : Cfg) (stats : Stats)
    (Hok : cfg_ok cfg) (Hrefs : refs_ok cfg) (Hw : well_typed cfg)
    (Hbound : forall u, u ∈ ownership_boundary_values cfg -> u < value_count cfg)
    (Hacyc : acyclic_identities cfg) :
  match rewire_identities cfg stats with
  | Some (Ok (cfg', _)) =>
      cfg_ok cfg' /\ well_typed cfg' /\ value_count cfg' = value_count cfg /\
      identities_unused cfg cfg' /\ exists map, rewired_by map cfg cfg'
  | Some (Err _) => True
  | Some Panic | None => False
  end.
Proof.
  destruct (collect_alias_spec cfg Hok Hrefs) as (alias & Hal & Hlen & Halias).
  rewrite /rewire_identities Hal /=. destruct (forallb _ alias) eqn:Hall.
  - assert (forall v, ~ is_identity cfg v) as Hnone.
    { intros v [t Ht]%(alias_identity cfg alias Halias). rewrite forallb_forall in Hall.
      apply list_elem_of_lookup_2, list_elem_of_In in Ht. by specialize (Hall _ Ht). }
    do 3 (split; [done|]). split; [split; intros; apply Hnone|exists id; by apply rewired_by_id].
  - destruct (dummy_out_spec cfg (identities_rewired stats) alias Hok Hlen Halias) as (c1 & m & -> & _ & Hd).
    apply (dummied_ext _ _ (is_identity cfg)) in Hd; [|apply (alias_identity cfg alias Halias)]. simpl.
    pose proof (dummied_refs cfg Hrefs alias Hlen Halias c1 Hd) as Hr1.
    pose proof Hd as (Hok1 & _ & _ & _ & _ & Hbv & Hn & _).
    destruct (swept_operands_total c1 Hok1 Hr1) as (ops & -> & Hops); [by rewrite Hbv Hn|]. simpl.
    destruct (mapM_is_Some_2 (fun v => resolve (length alias) alias v) ops) as [rs ->].
    { eapply Forall_impl; [exact Hops|]. intros u Hu. rewrite Hn in Hu.
      destruct (resolved_spec cfg Hw alias Hlen Halias Hacyc u Hu) as (Hru & _). by eexists. }
    simpl. fold (resolved alias).
    destruct (sweep_ok (resolved alias) (fun _ => Ok tt) ltac:(done) c1 Hok1) as [Hp Hq].
    rewrite /rewrite_value_uses_in_place.
    destruct (rewrite_value_uses_in_place_inner (resolved alias) _ c1) as [c'|e|] eqn:Hr; [|done..]. simpl.
    destruct (Hq c' eq_refl) as (Hvs & Hbs & Hsc & He & _ & _ & Hbv').
    assert (cfg_ok c') as Hok' by exact (sweep_cfg_ok (resolved alias) (fun _ => Ok tt) ltac:(done) c1 Hok1 c' Hr).
    assert (uses_rewritten (resolved alias) c1 c') as Hsw by by split_and!.
    split; [done|split; [|split; [|split; [|exists (resolved alias)]]]].
    + exact (swept_typed cfg Hrefs Hw alias Hlen Halias Hacyc c1 c' Hd Hsw).
    + by rewrite -Hn /value_count (Forall2_length _ _ _ Hvs).
    + exact (swept_unused cfg Hok Hrefs Hw alias Hlen Halias Hacyc c1 c' Hd Hsw).
    + exact (swept_rewired cfg Hok Hrefs Hw alias Hlen Halias Hacyc c1 c' Hd Hsw).
Qed.

Lemma peep_cfg_bound u : u ∈ ownership_boundary_values peep_cfg -> u < value_count peep_cfg.
Proof.
  assert (ownership_boundary_values peep_cfg = ∅) as -> by (vm_compute; reflexivity). set_solver.
Qed.

Lemma rewire_identities_exact_witness :
  cfg_ok peep_cfg /\ refs_ok peep_cfg /\ well_typed peep_cfg /\ acyclic_identities peep_cfg /\
  exists cfg' stats', rewire_identities (H := unlimited) peep_cfg stats_default = Some (Ok (cfg', stats')) /\
    stats' = mkStats 0 2 /\ (data <$> get_inst cfg' 5) = Some (IConst 0) /\
    (data <$> get_inst cfg' 7) = Some (IBitXor 2 3) /\
    (terminator <$> get_block cfg' 0) = Some (Return (Some 2)) /\
    identities_unused peep_cfg cfg'.
Proof.
  assert (acyclic_identities peep_cfg) as Hac.
  { exists id. intros v t Ht. do 8 (destruct v as [|v]; [vm_compute in Ht; first [discriminate Ht|
      injection Ht as <-; apply Nat.ltb_lt; vm_compute; reflexivity]|]). vm_compute in Ht. by destruct v. }
  split; [exact peep_cfg_ok|split; [exact peep_cfg_refs|split; [exact peep_cfg_typed|split; [exact Hac|]]]].
  pose proof (rewire_identities_exact (H := unlimited) peep_cfg stats_default peep_cfg_ok peep_cfg_refs
    peep_cfg_typed peep_cfg_bound Hac) as Hr.
  destruct (rewire_identities (H := unlimited) peep_cfg stats_default) as [[[cfg' stats']|e|]|] eqn:E.
  - exists cfg', stats'. split; [reflexivity|]. vm_compute in E. injection E as <- <-.
    split; [reflexivity|split; [reflexivity|split; [reflexivity|split; [reflexivity|]]]]. apply Hr.
  - exfalso. vm_compute in E. discriminate E.
  - contradiction Hr.
  - contradiction Hr.
Defined.
