(* ===== verification/Exec.v ===== *)
(** * Executions of a control-flow graph

    A reference semantics for whole graphs; it models no code.  A graph is read
    as a [Program]: blocks with parameters, instructions and a terminator whose
    payloads are decoded.  What an instruction does to the world (memory, calls,
    input and output) is a parameter, [Interp]; it sees the instruction, its
    shape and the values of its operands.  Two programs have the same behaviour
    when from every environment and world they reach the same outcomes, so also
    when one runs for ever the other does. *)

From S2P Require Import Prelude IntegerSemantics Types Payload CfgData CfgEdit Classify Eval CfgRewrite.
From stdpp Require Import list relations.
Import Machine.

(** ** Programs *)

Inductive term_view :=
| VGoto (t : BlockId) (args : list CfgValue)
| VBranch (cond : CfgValue) (tb : BlockId) (ta : list CfgValue) (eb : BlockId) (ea : list CfgValue)
| VSwitch (scrutinee : CfgValue) (cases : list (Z * BlockId)) (default : BlockId)
| VReturn (value : option CfgValue)
| VStop.

Record block_view := mkBlockView { v_params : list CfgValue; v_insts : list CfgValue; v_term : term_view }.

(** An instruction apart from its operands, and the operands. *)
Record inst_view := mkInstView {
  iv_ty : Type_;
  iv_literal : option rval;
  iv_shape : CfgInstData;
  iv_content : content;
  iv_uses : list CfgValue;
}.

Record Program := mkProgram {
  p_entry : BlockId;
  p_block : BlockId -> option block_view;
  p_inst : CfgValue -> option inst_view;
}.

Definition view_term (cfg : Cfg) (t : Terminator) : option term_view :=
  match t with
  | Goto t r => vs ← goto_args cfg r; Some (VGoto t vs)
  | Branch c tb ta eb ea => vs ← then_args_of cfg ta; ws ← else_args_of cfg ea; Some (VBranch c tb vs eb ws)
  | Switch v cases d => cs ← switch_cases_of cfg cases; Some (VSwitch v cs d)
  | Return v => Some (VReturn v)
  | Unreachable | TermNone => Some VStop
  end.
Definition view_block (cfg : Cfg) (b : BlockId) : option block_view :=
  block ← blocks cfg !! b; t ← view_term cfg (terminator block);
  Some (mkBlockView (params block).*1 (insts block) t).

Definition literal_of (d : CfgInstData) : option rval :=
  match d with IConst z => Some (RInt z) | IBoolConst b => Some (RBool b) | _ => None end.
Definition view_inst (cfg : Cfg) (v : CfgValue) : option inst_view :=
  i ← get_inst cfg v; us ← visit_instruction_uses cfg v;
  Some (mkInstView (ty i) (literal_of (data i)) (map_operands (fun _ => 0) (erase (data i)))
    (map_content (fun _ => 0) (content_of (payloads_of cfg) (data i))) us).

Definition program_of (cfg : Cfg) : Program := mkProgram (entry cfg) (view_block cfg) (view_inst cfg).

Definition edges (t : term_view) : list (BlockId * list CfgValue) :=
  match t with
  | VGoto t args => [(t, args)]
  | VBranch _ tb ta eb ea => [(tb, ta); (eb, ea)]
  | VSwitch _ cases d => ((fun c => (c.2, [])) <$> cases) ++ [(d, [])]
  | VReturn _ | VStop => []
  end.
Definition term_uses (t : term_view) : list CfgValue :=
  match t with
  | VGoto _ args => args
  | VBranch c _ ta _ ea => c :: ta ++ ea
  | VSwitch v _ _ => [v]
  | VReturn (Some v) => [v]
  | VReturn None | VStop => []
  end.

Lemma edges_uses t x args u : (x, args) ∈ edges t -> u ∈ args -> u ∈ term_uses t.
Proof.
  destruct t as [tg a|c tb ta eb ea|v cs d|v|]; simpl; try done.
  - by intros [= -> ->]%list_elem_of_singleton.
  - intros [[= -> ->]|[= -> ->]%list_elem_of_singleton]%elem_of_cons Hu; right; apply elem_of_app; [by left|by right].
  - intros [([z b] & [= -> ->] & _)%list_elem_of_fmap|[= -> ->]%list_elem_of_singleton]%elem_of_app; by intros ?%not_elem_of_nil.
  - by intros ?%not_elem_of_nil.
  - by intros ?%not_elem_of_nil.
Qed.

(** ** Paths, definitions and uses *)

Section Static.
Context (P : Program).

Definition p_flow (u v : BlockId) : Prop :=
  exists b args, p_block P u = Some b /\ (v, args) ∈ edges (v_term b).

(** The blocks of a path from the entry, last first. *)
Inductive path : list BlockId -> BlockId -> Prop :=
| path_start : path [p_entry P] (p_entry P)
| path_snoc l u v : path l u -> p_flow u v -> path (v :: l) v.

Definition live (b : BlockId) : Prop := exists l, path l b.
Definition dominates (a b : BlockId) : Prop := forall l, path l b -> a ∈ l.

Definition defines (b : BlockId) (v : CfgValue) : Prop :=
  exists bv, p_block P b = Some bv /\ (v ∈ v_params bv \/ v ∈ v_insts bv).
Definition reads_in (b : BlockId) (u : CfgValue) : Prop :=
  exists bv, p_block P b = Some bv /\
    (u ∈ term_uses (v_term bv) \/ exists v iv, v ∈ v_insts bv /\ p_inst P v = Some iv /\ u ∈ iv_uses iv).

Definition value_ty (v : CfgValue) : option Type_ := iv_ty <$> p_inst P v.
(** An edge carries one argument per parameter of its target, of its type. *)
Definition edge_fits (t : BlockId) (args : list CfgValue) : Prop :=
  exists tv, p_block P t = Some tv /\ length args = length (v_params tv) /\
    forall i p a, v_params tv !! i = Some p -> args !! i = Some a -> value_ty a = value_ty p.

(** What the structural verifier establishes of every graph the optimizer
    sees, for its reachable blocks: operands are defined in a block that
    dominates their use, nothing is defined twice, parameters are not
    instructions or literals, and edges fit their targets. *)
Record ssa : Prop := {
  ssa_dominates : forall b u, live b -> reads_in b u -> exists d, defines d u /\ dominates d b;
  ssa_once : forall d d' v, live d -> live d' -> defines d v -> defines d' v -> d = d';
  ssa_params : forall b bv, live b -> p_block P b = Some bv ->
    NoDup (v_params bv) /\ forall v, v ∈ v_params bv -> v ∉ v_insts bv /\
      forall iv, p_inst P v = Some iv -> iv_literal iv = None;
  ssa_edges : forall b bv t args, live b -> p_block P b = Some bv -> (t, args) ∈ edges (v_term bv) -> edge_fits t args;
  ssa_entry : is_Some (p_block P (p_entry P));
}.

Lemma path_in l b : path l b -> b ∈ l.
Proof. destruct 1; left. Qed.

Lemma path_prefix l b a : path l b -> a ∈ l -> exists l', path l' a /\ l' ⊆ l /\ length l' <= length l /\
  (a = b \/ length l' < length l).
Proof.
  induction 1 as [|l u v Hp IH Hf].
  - intros ->%list_elem_of_singleton. exists [p_entry P]. split_and!; [constructor|done|done|by left].
  - intros [->|Ha]%elem_of_cons.
    + exists (v :: l). split_and!; [by econstructor|done|done|by left].
    + destruct (IH Ha) as (l' & ? & ? & ? & _). exists l'. simpl. split_and!; [done|set_solver|lia|right; lia].
Qed.

Lemma live_in l b a : path l b -> a ∈ l -> live a.
Proof. intros Hp Ha. destruct (path_prefix l b a Hp Ha) as (l' & ? & _). by exists l'. Qed.

Lemma dominates_live a b : live b -> dominates a b -> live a.
Proof. intros [l Hl] Hd. eapply live_in; [exact Hl|by apply Hd]. Qed.

Lemma live_flow u v : live u -> p_flow u v -> live v.
Proof. intros [l Hl] Hf. exists (v :: l). by econstructor. Qed.

Lemma live_entry : live (p_entry P).
Proof. exists [p_entry P]. constructor. Qed.

(** A block other than the entry is entered from a predecessor. *)
Lemma path_pred l v : path l v -> v <> p_entry P -> exists u l', p_flow u v /\ path l' u /\ l = v :: l'.
Proof. destruct 1 as [|l u v]; [done|]. intros _. by exists u, l. Qed.

Lemma dominates_step a u v : p_flow u v -> a <> v -> dominates a v -> dominates a u.
Proof. intros Hf Hne Hd l Hl. specialize (Hd (v :: l)). apply elem_of_cons in Hd as [?|?]; [done..|by econstructor]. Qed.

Lemma dominates_refl a : dominates a a.
Proof. intros l. apply path_in. Qed.

Lemma dominates_trans a b c : dominates a b -> dominates b c -> dominates a c.
Proof.
  intros Hab Hbc l Hl. destruct (path_prefix l c b Hl (Hbc l Hl)) as (l' & Hl' & Hsub & _). by apply Hsub, Hab.
Qed.

(** The only predecessor of a reachable block is not dominated by it. *)
Lemma unique_pred_not_dominated t u : t <> p_entry P -> (forall u', live u' -> p_flow u' t -> u' = u) -> live u -> ~ dominates t u.
Proof.
  intros Hne Hu [l Hl] Hd. remember (length l) as k eqn:Hk. revert l Hl Hk.
  induction k as [k IH] using lt_wf_ind. intros l Hl ->.
  destruct (path_prefix l u t Hl (Hd l Hl)) as (l' & Hl' & _ & Hle & _).
  destruct (path_pred l' t Hl' Hne) as (u' & l2 & Hf & Hl2 & ->). assert (u' = u) as -> by (apply Hu; [by exists l2|done]).
  apply (IH (length l2)) with (l := l2); [simpl in Hle; lia|done..].
Qed.
End Static.

(** A change of terminators keeps the discipline when every new path runs
    along an old one that adds only blocks that define nothing, and every new
    use was a use at the end of such a path. *)
Definition lifts (P : Program) (l' l : list BlockId) : Prop := forall x v, x ∈ l -> defines P x v -> x ∈ l'.

Record reshaped (P P' : Program) : Prop := {
  rs_entry : p_entry P' = p_entry P;
  rs_inst : forall v, p_inst P' v = p_inst P v;
  rs_block : forall b bv', p_block P' b = Some bv' ->
    exists bv, p_block P b = Some bv /\ v_params bv' = v_params bv /\ v_insts bv' = v_insts bv;
  rs_block_some : forall b bv, p_block P b = Some bv -> is_Some (p_block P' b);
}.

Lemma reshaped_defines P P' b v : reshaped P P' -> defines P' b v -> defines P b v.
Proof.
  intros Hr (bv' & Hb & Hv). destruct (rs_block _ _ Hr b bv' Hb) as (bv & ? & Hps & His). exists bv. by rw -Hps -His.
Qed.

Lemma reshaped_defines_2 P P' b v : reshaped P P' -> defines P b v -> defines P' b v.
Proof.
  intros Hr (bv & Hb & Hv). destruct (rs_block_some _ _ Hr b bv Hb) as [bv' Hb'].
  destruct (rs_block _ _ Hr b bv' Hb') as (bv2 & Hb2 & Hps & His). exists bv'. rw Hps His. split; [done|]. congruence.
Qed.

Lemma ssa_transport P P' : ssa P -> reshaped P P' ->
  (forall b, live P' b -> live P b) ->
  (forall b u, live P' b -> reads_in P' b u -> exists b2, live P b2 /\ reads_in P b2 u /\
     forall l', path P' l' b -> exists l, path P l b2 /\ lifts P l' l) ->
  (forall b bv' t args, live P' b -> p_block P' b = Some bv' -> (t, args) ∈ edges (v_term bv') ->
     edge_fits P t args) ->
  ssa P'.
Proof.
  intros Hssa Hr Hlive Huse Hedge. split.
  - intros b u Hb Hu. destruct (Huse b u Hb Hu) as (b2 & Hb2 & Hu2 & Hl).
    destruct (ssa_dominates _ Hssa b2 u Hb2 Hu2) as (d & Hd & Hdom). exists d. split; [by apply (reshaped_defines_2 P)|].
    intros l' Hl'. destruct (Hl l' Hl') as (l & Hp & Hlift). by apply (Hlift d u), Hd; apply Hdom.
  - intros d d' v Hd Hd' H1 H2. by apply (ssa_once _ Hssa d d' v); [by apply Hlive|by apply Hlive|by eapply reshaped_defines..].
  - intros b bv' Hb Hbv'. destruct (rs_block _ _ Hr b bv' Hbv') as (bv & Hbv & -> & ->).
    destruct (ssa_params _ Hssa b bv (Hlive b Hb) Hbv) as [Hnd Hv]. split; [done|]. intros v Hin. rw (rs_inst _ _ Hr). by apply Hv.
  - intros b bv' t args Hb Hbv' Hin. destruct (Hedge b bv' t args Hb Hbv' Hin) as (tv & Ht & Hl & Hty).
    destruct (rs_block_some _ _ Hr t tv Ht) as [tv' Ht']. exists tv'. split; [done|].
    destruct (rs_block _ _ Hr t tv' Ht') as (tv2 & Ht2 & -> & _). assert (tv2 = tv) as -> by congruence. split; [done|].
    intros i p a Hp Ha. rw /value_ty !(rs_inst _ _ Hr). by apply (Hty i).
  - destruct (ssa_entry _ Hssa) as [bv Hb]. rw (rs_entry _ _ Hr). by eapply rs_block_some.
Qed.

(** ** Executions *)

Class Interp (W : Type) := {
  prim : CfgValue -> Type_ -> CfgInstData -> content -> list rval -> W -> W * option rval;
  word_of_other : rval -> option Z;
}.

Inductive outcome_of (W : Type) := Returned (w : W) (v : option rval) | Trapped (w : W) | Stuck.
Arguments Returned {_} _ _.
Arguments Trapped {_} _.
Arguments Stuck {_}.

Definition set_env (ρ : env) (v : CfgValue) (r : rval) : env := fun u => if u =? v then r else ρ u.
Definition bind_env (ρ : env) (ps : list CfgValue) (rs : list rval) : env :=
  fold_left (fun ρ e => set_env ρ e.1 e.2) (zip ps rs) ρ.

Section Execution.
Context `{Interp W} (P : Program).

(** The word a switch compares: a case matches on the compared bits. *)
Definition word_of (r : rval) : option Z :=
  match r with RInt z => Some z | RBool b => Some (Z.b2z b) | _ => word_of_other r end.
Definition same_word (T : Type_) (w case : Z) : bool :=
  (wrap_u (switch_compare_width T) w =? wrap_u (switch_compare_width T) case)%Z.
Definition selected (T : Type_) (w : Z) (cases : list (Z * BlockId)) (default : BlockId) : BlockId :=
  match list_find (fun c => same_word T w c.1 = true) cases with
  | Some (_, (_, target)) => target
  | None => default
  end.

Definition exec_value (st : env * W) (v : CfgValue) : res W (env * W) :=
  iv ← expect (p_inst P v);
  match iv_literal iv with
  | Some r => Ok (set_env st.1 v r, st.2)
  | None =>
      match prim v (iv_ty iv) (iv_shape iv) (iv_content iv) (st.1 <$> iv_uses iv) st.2 with
      | (w, Some r) => Ok (set_env st.1 v r, w)
      | (w, None) => Err w
      end
  end.

Definition taken_edge (ρ : env) (t : term_view) : option (BlockId * list CfgValue) :=
  match t with
  | VGoto t args => Some (t, args)
  | VBranch c tb ta eb ea =>
      match ρ c with RBool true => Some (tb, ta) | RBool false => Some (eb, ea) | _ => None end
  | VSwitch v cases d =>
      iv ← p_inst P v; w ← word_of (ρ v); Some (selected (iv_ty iv) w cases d, [])
  | VReturn _ | VStop => None
  end.

Definition state : Type := BlockId * env * W.

(** Take an edge: the parameters get the arguments all at once. *)
Definition enter (ρ : env) (w : W) (e : option (BlockId * list CfgValue)) : state + outcome_of W :=
  match e with
  | Some (b, args) =>
      match p_block P b with
      | Some bv =>
          if length args =? length (v_params bv) then inl (b, bind_env ρ (v_params bv) (ρ <$> args), w) else inr Stuck
      | None => inr Stuck
      end
  | None => inr Stuck
  end.

(** Leave a block along its terminator. *)
Definition leave (ρ : env) (w : W) (t : term_view) : state + outcome_of W :=
  match t with
  | VReturn v => inr (Returned w (ρ <$> v))
  | _ => enter ρ w (taken_edge ρ t)
  end.

Definition step (s : state) : state + outcome_of W :=
  let '(b, ρ, w) := s in
  match p_block P b with
  | Some bv =>
      match fold_res exec_value (ρ, w) (v_insts bv) with
      | Ok (ρ, w) => leave ρ w (v_term bv)
      | Err w => inr (Trapped w)
      | Panic => inr Stuck
      end
  | None => inr Stuck
  end.

Fixpoint run (fuel : nat) (s : state) : option (outcome_of W) :=
  match fuel with
  | O => None
  | S fuel => match step s with inl s => run fuel s | inr o => Some o end
  end.

Definition steps_to (s t : state) : Prop := step s = inl t.

Lemma run_mono n m s o : n <= m -> run n s = Some o -> run m s = Some o.
Proof.
  revert m s. induction n as [|n IH]; intros m s Hm; [done|]. destruct m as [|m]; [lia|]. simpl.
  destruct (step s); [|done]. apply IH. lia.
Qed.

Lemma run_steps s t n o : rtc steps_to s t -> run n t = Some o -> exists m, run m s = Some o.
Proof.
  intros Hr. induction Hr as [t|s u t Hs _ IH]; intros Hn; [by exists n|]. destruct (IH Hn) as [m Hm].
  exists (S m). simpl. by rw Hs.
Qed.

Lemma run_steps_inv s t n o : rtc steps_to s t -> run n s = Some o -> exists m, m <= n /\ run m t = Some o.
Proof.
  intros Hr. revert n. induction Hr as [t|s u t Hs _ IH]; intros n Hn; [by exists n|]. destruct n as [|n]; [done|].
  simpl in Hn. rw Hs in Hn *. destruct (IH n Hn) as (m & ? & ?). exists m. split; [lia|done].
Qed.
End Execution.

(** ** Same behaviour *)

Section Behaviour.
Context `{Interp W}.

Definition reaches (P : Program) (s : state) (o : outcome_of W) : Prop := exists n, run P n s = Some o.

Lemma reaches_final P s o : step P s = inr o -> reaches P s o.
Proof. intros Hs. exists 1. change (match step P s with inl s => run P 0 s | inr o => Some o end = Some o). by rewrite Hs. Qed.

Definition same_behaviour (P P' : Program) : Prop :=
  forall ρ w o, reaches P (p_entry P, ρ, w) o <-> reaches P' (p_entry P', ρ, w) o.

#[export] Instance same_behaviour_equiv : Equivalence same_behaviour.
Proof.
  split.
  - by intros P ρ w o.
  - intros P Q Hpq ρ w o. by rw (Hpq ρ w o).
  - intros P Q R Hpq Hqr ρ w o. by rw (Hpq ρ w o) (Hqr ρ w o).
Qed.

(** Every step of the second program is matched by steps of the first. *)
Lemma simulate (P P' : Program) (R : state -> state -> Prop) :
  (forall s s', R s s' -> match step P' s' with
     | inr o => reaches P s o
     | inl t' => exists u t, steps_to P s u /\ rtc (steps_to P) u t /\ R t t'
     end) ->
  forall s s', R s s' -> forall o, reaches P s o <-> reaches P' s' o.
Proof.
  intros Hsim s s' HR o. split.
  - intros [n Hn]. revert s s' HR Hn. induction n as [n IH] using lt_wf_ind. intros s s' HR Hn.
    specialize (Hsim s s' HR). destruct (step P' s') as [t'|o'] eqn:Hs'.
    + destruct Hsim as (u & t & Hu & Ht & HR'). destruct n as [|n]; [done|]. simpl in Hn. rw Hu in Hn *.
      destruct (run_steps_inv P u t n o Ht Hn) as (m & Hm & Hrun).
      destruct (IH m ltac:(lia) t t' HR' Hrun) as [k Hk]. exists (S k). simpl. by rw Hs'.
    + destruct Hsim as [m Hm]. exists 1. simpl. rw Hs'.
      rewrite -(run_mono P n (n + m) s o ltac:(lia) Hn). symmetry. apply (run_mono P m); [lia|done].
  - intros [n Hn]. revert s s' HR Hn. induction n as [|n IH]; intros s s' HR Hn; [done|]. simpl in Hn.
    specialize (Hsim s s' HR). destruct (step P' s') as [t'|o'].
    + destruct Hsim as (u & t & Hu & Ht & HR'). destruct (IH t t' HR' Hn) as [k Hk].
      destruct (run_steps P u t k o Ht Hk) as [m Hm]. exists (S m). simpl. by rw Hu.
    + by injection Hn as <-.
Qed.
End Behaviour.

(** ** Environments *)

Lemma set_env_same ρ v r : set_env ρ v r v = r.
Proof. by rw /set_env Nat.eqb_refl. Qed.

Lemma set_env_ne ρ v r u : u <> v -> set_env ρ v r u = ρ u.
Proof. intros Hne. rw /set_env. by destruct (Nat.eqb_spec u v). Qed.

Lemma bind_env_ne ps : forall rs ρ u, u ∉ ps -> bind_env ρ ps rs u = ρ u.
Proof.
  induction ps as [|p ps IH]; intros rs ρ u Hu; [done|]. destruct rs as [|r rs]; [done|].
  apply not_elem_of_cons in Hu as [Hne Hu]. rw /bind_env /=. fold (bind_env (set_env ρ p r) ps rs).
  rw IH //. by apply set_env_ne.
Qed.

Lemma bind_env_lookup ps : forall rs ρ i p r, NoDup ps -> ps !! i = Some p -> rs !! i = Some r ->
  bind_env ρ ps rs p = r.
Proof.
  induction ps as [|p ps IH]; intros rs ρ i q r Hnd Hp Hr; [done|]. apply NoDup_cons in Hnd as [Hn Hnd].
  destruct rs as [|r' rs]; [done|]. rw /bind_env /=. fold (bind_env (set_env ρ p r') ps rs). destruct i as [|i]; simpl in *.
  - injection Hp as ->. injection Hr as ->. rw bind_env_ne //. apply set_env_same.
  - by apply (IH _ _ i).
Qed.

Section Effects.
Context `{Interp W} (P : Program).

(** Executing instructions changes the environment at them alone. *)
Lemma exec_frame vs : forall ρ w ρ' w', fold_res (exec_value P) (ρ, w) vs = Ok (ρ', w') ->
  forall u, u ∉ vs -> ρ' u = ρ u.
Proof.
  induction vs as [|v vs IH]; intros ρ w ρ' w' Hf u Hu; simpl in Hf; [by injection Hf as -> _|].
  apply not_elem_of_cons in Hu as [Hne Hu]. apply bind_Ok in Hf as ([ρ1 w1] & Hv & Hf).
  rw (IH _ _ _ _ Hf u Hu). rw /exec_value in Hv *. apply bind_Ok in Hv as (iv & _ & Hv). simpl in Hv.
  destruct (iv_literal iv); [injection Hv as <- _; by apply set_env_ne|].
  destruct (prim _ _ _ _ _ _) as [w2 [r|]]; [|done]. injection Hv as <- _. by apply set_env_ne.
Qed.

Lemma exec_literal vs : forall ρ w ρ' w', fold_res (exec_value P) (ρ, w) vs = Ok (ρ', w') ->
  forall u iv r, u ∈ vs -> p_inst P u = Some iv -> iv_literal iv = Some r -> ρ' u = r.
Proof.
  induction vs as [|v vs IH]; intros ρ w ρ' w' Hf u iv r Hu Hiv Hr; [by apply not_elem_of_nil in Hu|]. simpl in Hf.
  apply bind_Ok in Hf as ([ρ1 w1] & Hv & Hf). destruct (decide (u ∈ vs)) as [|Hn]; [by eapply IH|].
  apply elem_of_cons in Hu as [->|?]; [|done]. rw (exec_frame _ _ _ _ _ Hf v Hn).
  rw /exec_value Hiv /= Hr in Hv *. injection Hv as <- _. apply set_env_same.
Qed.
End Effects.

Lemma tc_first {A} (R : A -> A -> Prop) x y : tc R x y -> exists z, R x z /\ rtc R z y.
Proof. destruct 1 as [x y Hxy|x y z Hxy Hyz]; [by exists y; split; [|constructor]|]. exists y. split; [done|by apply tc_rtc]. Qed.

Section Leaving.
Context `{Interp W} (P : Program).

Lemma taken_edge_in ρ t e : taken_edge P ρ t = Some e -> e ∈ edges t.
Proof.
  destruct t as [tg a|c tb ta eb ea|v cs d|v|]; simpl; try done.
  - intros [= <-]. by left.
  - destruct (ρ c) as [|[]| |]; try done; intros [= <-]; set_solver.
  - destruct (p_inst P v) as [iv|]; [|done]. simpl. destruct (word_of (ρ v)) as [k|]; [|done]. simpl.
    intros [= <-]. apply elem_of_app. rw /selected.
    destruct (list_find _ _) as [[j [z tg]]|] eqn:Hl; [left|right; by left].
    apply list_find_Some in Hl as (Hk & _). apply list_elem_of_fmap. exists (z, tg). split; [done|]. by eapply list_elem_of_lookup_2.
Qed.

Lemma enter_inl ρ (w : W) e x ρ1 w1 : enter P ρ w e = inl (x, ρ1, w1) ->
  exists args tv, e = Some (x, args) /\ p_block P x = Some tv /\ length args = length (v_params tv) /\
    ρ1 = bind_env ρ (v_params tv) (ρ <$> args) /\ w1 = w.
Proof.
  destruct e as [[b args]|]; [|done]. simpl. destruct (p_block P b) as [tv|] eqn:Hb; [|done].
  destruct (Nat.eqb_spec (length args) (length (v_params tv))) as [Hl|]; [|done]. intros [= <- <- <-]. by exists args, tv.
Qed.

Lemma leave_inl ρ (w : W) t s : leave P ρ w t = inl s -> enter P ρ w (taken_edge P ρ t) = inl s.
Proof. by destruct t. Qed.

Lemma leave_taken ρ (w : W) t e : taken_edge P ρ t = Some e -> leave P ρ w t = enter P ρ w (Some e).
Proof. intros He. rewrite -He. by destruct t. Qed.

Lemma leave_none ρ (w : W) t : (forall v, t <> VReturn v) -> taken_edge P ρ t = None -> leave P ρ w t = inr Stuck.
Proof. intros Hn He. destruct t as [| | |v|]; [by cbn [leave]; rewrite He..|by destruct (Hn v)|done]. Qed.

Lemma leave_ext P' ρ (w : W) t t' : (forall v, t <> VReturn v) -> (forall v, t' <> VReturn v) ->
  enter P' ρ w (taken_edge P' ρ t') = enter P ρ w (taken_edge P ρ t) -> leave P' ρ w t' = leave P ρ w t.
Proof.
  intros H1 H2. destruct t; try (exfalso; by eapply H1); destruct t'; try (exfalso; by eapply H2); done.
Qed.

Lemma path_cons l b : path P l b -> exists l', l = b :: l'.
Proof. destruct 1; by eexists. Qed.

(** A step runs the block and takes one of its edges. *)
Lemma step_inl b ρ w t ρ1 w1 : step P (b, ρ, w) = inl (t, ρ1, w1) ->
  exists bv ρ2 args tv, p_block P b = Some bv /\ fold_res (exec_value P) (ρ, w) (v_insts bv) = Ok (ρ2, w1) /\
    (t, args) ∈ edges (v_term bv) /\ p_block P t = Some tv /\ length args = length (v_params tv) /\
    ρ1 = bind_env ρ2 (v_params tv) (ρ2 <$> args).
Proof.
  simpl. destruct (p_block P b) as [bv|]; [|done]. destruct (fold_res _ _ _) as [[ρ2 w2]|w2|] eqn:He; [|done..].
  intros (args & tv & Hte & Htv & Hlen & -> & ->)%leave_inl%enter_inl. exists bv, ρ2, args, tv.
  split_and!; try done. by apply taken_edge_in in Hte.
Qed.

Lemma exec_values_inst P' vs : (forall v, p_inst P' v = p_inst P v) -> forall st : env * W,
  fold_res (exec_value P') st vs = fold_res (exec_value P) st vs.
Proof.
  intros Hi. induction vs as [|v vs IH]; intros st; [done|]. simpl. rw /exec_value Hi. fold (exec_value P st v).
  by destruct (exec_value P st v); simpl.
Qed.
End Leaving.
