(* ===== verification/Simplify.v ===== *)
(** * Control-flow simplification

    [crates/rue-cfg/src/opt/simplify.rs]: terminators on constants become
    [Goto]s, edges into empty forwarding blocks go to the forwarder's
    destination, and a block whose only incoming edge is a [Goto] is absorbed
    into its predecessor.  [Panic] is a failed assertion or index, or a loop
    that outlives its fuel. *)

From S2P Require Import Prelude IntegerSemantics Types Payload CfgData CfgEdit Worklist Cfg CfgRewrite Classify Dce Peephole.
Import Machine.

Record Stats := mkStats {
  blocks_scanned : nat;
  branches_folded : nat;
  switches_folded : nat;
  edges_threaded : nat;
  forwarders_resolved : nat;
  blocks_merged : nat;
}.
Definition stats_default : Stats := mkStats 0 0 0 0 0 0.

(** One more of a counter. *)
Definition add_stats (s d : Stats) : Stats :=
  mkStats (blocks_scanned s + blocks_scanned d) (branches_folded s + branches_folded d)
    (switches_folded s + switches_folded d) (edges_threaded s + edges_threaded d)
    (forwarders_resolved s + forwarders_resolved d) (blocks_merged s + blocks_merged d).
Definition one_scanned := mkStats 1 0 0 0 0 0.
Definition one_branch := mkStats 0 1 0 0 0 0.
Definition one_switch := mkStats 0 0 1 0 0 0.
Definition one_threaded := mkStats 0 0 0 1 0 0.
Definition one_resolved := mkStats 0 0 0 0 1 0.
Definition one_merged := mkStats 0 0 0 0 0 1.

(** The pass discards the owner on an error, so only a successful edit
    returns it. *)
Definition edited {A} (m : editM A) (c : Cfg) : res CfgEditError (Cfg * A) :=
  match m c with
  | (Ok a, c') => Ok (c', a)
  | (Err e, _) => Err e
  | (Panic, _) => Panic
  end.
Definition put_terminator (block : BlockId) (t : Terminator) (c : Cfg) : res CfgEditError Cfg :=
  expect (update_block block (with_terminator t) c).

(** ** Terminator folding *)

Definition case_matches (wide : bool) (scrut_val case : Z) : bool :=
  if wide then (scrut_val =? wrap_u 64 case)%Z else (wrap_u 32 scrut_val =? wrap_u 32 case)%Z.

Definition switch_target (wide : bool) (scrut_val : Z) (cases : list (Z * BlockId)) (default : BlockId) : BlockId :=
  match list_find (fun c => case_matches wide scrut_val c.1 = true) cases with
  | Some (_, (_, target)) => target
  | None => default
  end.

Section Run.
Context `{Alloc}.

Definition fold_block (st : Cfg * Stats) (block_id : BlockId) : res CfgEditError (Cfg * Stats) :=
  let '(cfg, stats) := st in
  let stats := add_stats stats one_scanned in
  block ← expect (get_block cfg block_id);
  match terminator block with
  | Branch cond then_block then_args else_block else_args =>
      i ← expect (get_inst cfg cond);
      match data i with
      | IBoolConst taken =>
          values ← expect (if taken then then_args_of cfg then_args else else_args_of cfg else_args);
          '(cfg, args) ← edited (push_goto_args values) cfg;
          cfg ← put_terminator block_id (Goto (if taken then then_block else else_block) args) cfg;
          Ok (cfg, add_stats stats one_branch)
      | _ => Ok (cfg, stats)
      end
  | Switch scrutinee cases default =>
      i ← expect (get_inst cfg scrutinee);
      match match data i with IConst v => Some v | IBoolConst b => Some (Z.b2z b) | _ => None end with
      | Some scrut_val =>
          let wide := (switch_compare_width (ty i) =? 64)%Z in
          cs ← expect (switch_cases_of cfg cases);
          cfg ← put_terminator block_id (Goto (switch_target wide scrut_val cs default) EMPTY) cfg;
          Ok (cfg, add_stats stats one_switch)
      | None => Ok (cfg, stats)
      end
  | Goto _ _ | Return _ | Unreachable | TermNone => Ok (cfg, stats)
  end.

Definition fold_terminators (cfg : Cfg) (stats : Stats) : res CfgEditError (Cfg * Stats) :=
  fold_res fold_block (cfg, stats) (seq 0 (block_count cfg)).

(** ** Threading *)

Record Edge := mkEdge { target : BlockId; args : list CfgValue }.

Inductive ForwardResolution := Unseen | Active | Complete (b : BlockId) | Cyclic.

(** [for block in path { resolution[block] = r }]; the path was indexed. *)
Definition mark_path (path : list BlockId) (r : ForwardResolution) (resolution : list ForwardResolution) :=
  fold_left (fun resolution block => <[block := r]> resolution) path resolution.

Fixpoint resolve_loop (fuel : nat) (forward_edge : list (option Edge)) (resolution : list ForwardResolution)
    (path : list BlockId) (current : BlockId) (stats : Stats)
    : option (option BlockId * list ForwardResolution * Stats) :=
  match fuel with
  | O => None
  | S fuel =>
      r ← resolution !! current;
      match r with
      | Complete terminal => Some (Some terminal, mark_path path (Complete terminal) resolution, stats)
      | Cyclic | Active => Some (None, mark_path path Cyclic resolution, stats)
      | Unseen =>
          edge ← mjoin (forward_edge !! current);
          let resolution := <[current := Active]> resolution in
          let path := path ++ [current] in
          let stats := add_stats stats one_resolved in
          next ← forward_edge !! target edge;
          match next with
          | None => Some (Some current, mark_path path (Complete current) resolution, stats)
          | Some _ => resolve_loop fuel forward_edge resolution path (target edge) stats
          end
      end
  end.

Definition resolve_forwarder (forward_edge : list (option Edge)) (resolution : list ForwardResolution)
    (start : BlockId) (stats : Stats) : option (option BlockId * list ForwardResolution * Stats) :=
  e ← forward_edge !! start;
  match e with
  | None => Some (None, resolution, stats)
  | Some _ => resolve_loop (S (length forward_edge)) forward_edge resolution [] start stats
  end.

Definition forward_edge_of (cfg : Cfg) (reachable : BitSet) (block_id : BlockId) : option (option Edge) :=
  if (block_id =? entry cfg) || negb (bitset_contains reachable block_id) then Some None else
  block ← get_block cfg block_id;
  if negb (bool_decide (insts block = [])) || negb (bool_decide (params block = [])) then Some None else
  match terminator block with
  | Goto target args => vs ← goto_args cfg args; Some (Some (mkEdge target vs))
  | _ => Some None
  end.

(** The closure [thread_side]: where an edge ends up, with the arguments of
    the last forwarder when it was threaded. *)
Definition thread_side (forward_edge : list (option Edge)) (resolution : list ForwardResolution) (side : BlockId)
    (stats : Stats) : option (BlockId * option (list CfgValue) * list ForwardResolution * Stats) :=
  '(resolved, resolution, stats) ← resolve_forwarder forward_edge resolution side stats;
  match resolved with
  | Some terminal =>
      edge ← mjoin (forward_edge !! terminal);
      Some (target edge, Some (args edge), resolution, add_stats stats one_threaded)
  | None => Some (side, None, resolution, stats)
  end.

Definition thread_state : Type := Cfg * list ForwardResolution * Stats.

Definition thread_block (reachable : BitSet) (forward_edge : list (option Edge)) (st : thread_state)
    (block_id : BlockId) : res CfgEditError thread_state :=
  let '(cfg, resolution, stats) := st in
  if negb (bitset_contains reachable block_id) then Ok st else
  block ← expect (get_block cfg block_id);
  match terminator block with
  | Goto target _ =>
      if target =? block_id then Ok st else
      '(target', forwarded, resolution, stats) ← expect (thread_side forward_edge resolution target stats);
      match forwarded with
      | Some values =>
          '(cfg, args) ← edited (push_goto_args values) cfg;
          cfg ← put_terminator block_id (Goto target' args) cfg;
          Ok (cfg, resolution, stats)
      | None => Ok (cfg, resolution, stats)
      end
  | Branch cond then_block then_args else_block else_args =>
      '(new_then, forwarded_then, resolution, stats) ← expect (thread_side forward_edge resolution then_block stats);
      '(new_else, forwarded_else, resolution, stats) ← expect (thread_side forward_edge resolution else_block stats);
      if (new_then =? then_block) && (new_else =? else_block) then Ok (cfg, resolution, stats) else
      then_values ← match forwarded_then with Some vs => Ok vs | None => expect (then_args_of cfg then_args) end;
      else_values ← match forwarded_else with Some vs => Ok vs | None => expect (else_args_of cfg else_args) end;
      '(cfg, then_args) ← edited (push_then_args then_values) cfg;
      '(cfg, else_args) ← edited (push_else_args else_values) cfg;
      cfg ← put_terminator block_id (Branch cond new_then then_args new_else else_args) cfg;
      Ok (cfg, resolution, stats)
  | _ => Ok st
  end.

Definition thread_forwarders (cfg : Cfg) (stats : Stats) : res CfgEditError (Cfg * Stats) :=
  reachable ← expect (compute_reachable_blocks cfg);
  forward_edge ← expect (mapM (forward_edge_of cfg reachable) (seq 0 (block_count cfg)));
  '(cfg, _, stats) ← fold_res (thread_block reachable forward_edge)
    (cfg, replicate (block_count cfg) Unseen, stats) (seq 0 (block_count cfg));
  Ok (cfg, stats).

(** ** Merging *)

Definition count_term (cfg : Cfg) (reachable : BitSet) (incoming : list nat) (block_id : BlockId) : option (list nat) :=
  if negb (bitset_contains reachable block_id) then Some incoming else
  block ← get_block cfg block_id;
  match terminator block with
  | Goto target _ => count_edge incoming target
  | Branch _ then_block _ else_block _ =>
      incoming ← count_edge incoming then_block; count_edge incoming else_block
  | Switch _ cases default =>
      cs ← switch_cases_of cfg cases;
      incoming ← fold_opt (fun incoming c => count_edge incoming c.2) incoming cs;
      count_edge incoming default
  | _ => Some incoming
  end.

Record merge_state := mkMerge {
  m_cfg : Cfg;
  m_subst : list (option CfgValue);
  m_consumed : list bool;
  m_stats : Stats;
}.

Definition with_params (ps : list (CfgValue * Type_)) (b : BasicBlock) : BasicBlock :=
  mkBlock (block_id b) ps (insts b) (terminator b).

(** [subst[param] = Some(arg)]. *)
Definition record_subst (subst : list (option CfgValue)) (e : CfgValue * CfgValue) : option (list (option CfgValue)) :=
  _ ← subst !! e.1; Some (<[e.1 := Some e.2]> subst).

(** Absorb [tgt], the target of [head]'s [Goto] with arguments [range]. *)
Definition absorb (head tgt : BlockId) (range : Range FGotoArgs) (st : merge_state) : option merge_state :=
  vs ← goto_args (m_cfg st) range;
  target_block ← get_block (m_cfg st) tgt;
  cfg ← update_block tgt (with_params []) (m_cfg st);
  if negb (length (params target_block) =? length vs) then None else
  subst ← fold_opt record_subst (m_subst st) (zip (params target_block).*1 vs);
  cfg ← update_block tgt (fun b => with_terminator Unreachable (with_insts [] b)) cfg;
  cfg ← update_block head (fun b =>
    with_terminator (terminator target_block) (with_insts (insts b ++ insts target_block) b)) cfg;
  _ ← m_consumed st !! tgt;
  Some (mkMerge cfg subst (<[tgt := true]> (m_consumed st)) (add_stats (m_stats st) one_merged)).

Fixpoint absorb_loop (fuel : nat) (incoming : list nat) (head : BlockId) (st : merge_state) : option merge_state :=
  match fuel with
  | O => None
  | S fuel =>
      block ← get_block (m_cfg st) head;
      match terminator block with
      | Goto tgt range =>
          if (tgt =? head) || (tgt =? entry (m_cfg st)) then Some st else
          consumed ← m_consumed st !! tgt;
          if (consumed : bool) then Some st else
          count ← incoming !! tgt;
          if negb (count =? 1) then Some st else
          st ← absorb head tgt range st;
          absorb_loop fuel incoming head st
      | _ => Some st
      end
  end.

Definition merge_block (reachable : BitSet) (incoming : list nat) (st : merge_state) (head : BlockId)
    : option merge_state :=
  if negb (bitset_contains reachable head) then Some st else
  consumed ← m_consumed st !! head;
  if (consumed : bool) then Some st else
  absorb_loop (S (block_count (m_cfg st))) incoming head st.

(** The closure of the one sweep indexes [resolved] with every operand. *)
Definition merge_chains (cfg : Cfg) (stats : Stats) : res CfgEditError (Cfg * Stats) :=
  let n := block_count cfg in
  reachable ← expect (compute_reachable_blocks cfg);
  incoming ← expect (fold_opt (count_term cfg reachable) (replicate n 0) (seq 0 n));
  st ← expect (fold_opt (merge_block reachable incoming)
    (mkMerge cfg (replicate (value_count cfg) None) (replicate n false) stats) (seq 0 n));
  if blocks_merged (m_stats st) =? 0 then Ok (m_cfg st, m_stats st) else
  resolved ← expect (mapM (resolve (value_count (m_cfg st)) (m_subst st)) (seq 0 (value_count (m_cfg st))));
  operands ← expect (swept_operands (m_cfg st));
  _ ← expect (mapM (fun v => resolved !! v) operands);
  cfg ← rewrite_value_uses_in_place (fun v => default v (resolved !! v)) (m_cfg st);
  Ok (cfg, m_stats st).

Definition run (cfg : Cfg) : res CfgEditError (Cfg * Stats) :=
  '(cfg, stats) ← fold_terminators cfg stats_default;
  '(cfg, stats) ← thread_forwarders cfg stats;
  merge_chains cfg stats.
End Run.
