(* ===== verification/SimplifyFold.v ===== *)
(** * Terminator folding: correctness

    The first phase of [Simplify.v].  An edit of a terminator leaves the rest
    of the program alone; the fold replaces a terminator on a literal by the
    edge every execution takes, because the literal's instruction has run on
    every path to the block. *)

From S2P Require Import Prelude IntegerSemantics Types Payload CfgData CfgEdit Worklist Cfg CfgRewrite Classify Dce Eval Peephole Exec Simplify.
From stdpp Require Import list relations.
Import Machine.

Lemma fold_res_seq {E S} (f : S -> nat -> res E S) (Inv : nat -> S -> Prop) n s : Inv 0 s ->
  (forall i t, i < n -> Inv i t -> f t i <> Panic /\ forall t', f t i = Ok t' -> Inv (Datatypes.S i) t') ->
  fold_res f s (seq 0 n) <> Panic /\ forall s', fold_res f s (seq 0 n) = Ok s' -> Inv n s'.
Proof.
  intros H0 Hs. cut (forall k i t, i + k = n -> Inv i t ->
    fold_res f t (seq i k) <> Panic /\ forall s', fold_res f t (seq i k) = Ok s' -> Inv n s').
  { intros Hc. by apply (Hc n 0). }
  induction k as [|k IH]; intros i t Hik Hi; simpl.
  - assert (i = n) as -> by lia. split; [done|]. by intros s' [= <-].
  - destruct (Hs i t ltac:(lia) Hi) as [Hp Hq]. destruct (f t i) as [t'|e|]; simpl; [|by split|done].
    apply IH; [lia|by apply Hq].
Qed.

(** ** Views of well-formed owners *)

Lemma view_term_total cfg t : term_ok cfg t -> is_Some (view_term cfg t).
Proof.
  destruct t as [tg r|c tb ta eb ea|v cs d|v| |]; simpl; try by eexists.
  - intros [_ Hr]. rw /goto_args (range_ok_view _ _ Hr). by eexists.
  - intros (_ & _ & Ha & Hb). rw /then_args_of /else_args_of (range_ok_view _ _ Ha) (range_ok_view _ _ Hb). by eexists.
  - intros (_ & Hr & _). rw /switch_cases_of (range_ok_view _ _ Hr). by eexists.
Qed.

Lemma view_block_total cfg b : cfg_ok cfg -> b < block_count cfg -> is_Some (view_block cfg b).
Proof.
  intros Hok [blk Hb]%lookup_lt_is_Some_2. rw /view_block Hb /=.
  destruct (view_term_total cfg (terminator blk)) as [t ->]; [by apply (ok_blocks _ Hok _ _ Hb)|]. by eexists.
Qed.

Lemma view_block_Some cfg b bv : view_block cfg b = Some bv <-> exists blk, blocks cfg !! b = Some blk /\
  v_params bv = (params blk).*1 /\ v_insts bv = insts blk /\ view_term cfg (terminator blk) = Some (v_term bv).
Proof.
  rw /view_block. split.
  - destruct (blocks cfg !! b) as [blk|]; [|done]. simpl. destruct (view_term _ _) as [t|] eqn:Ht; [|done]. simpl.
    intros [= <-]. by exists blk.
  - intros (blk & -> & H1 & H2 & H3). simpl. rw H3 /= -H1 -H2. by destruct bv.
Qed.

Lemma view_block_lt cfg b bv : view_block cfg b = Some bv -> b < block_count cfg.
Proof. intros (blk & Hb & _)%view_block_Some. by eapply lookup_lt_Some. Qed.

Lemma view_inst_total cfg v : cfg_ok cfg -> v < value_count cfg -> is_Some (view_inst cfg v).
Proof.
  intros Hok Hv. rw /view_inst. destruct (get_inst_total cfg Hok v Hv) as (i & -> & _).
  destruct (uses_total cfg Hok v Hv) as [us ->]. by eexists.
Qed.

Lemma view_targets cfg t tv : view_term cfg t = Some tv -> successors_of_term cfg t = Some (edges tv).*1.
Proof.
  destruct t as [tg r|c tb ta eb ea|v cs d|v| |]; simpl.
  - destruct (goto_args cfg r); [|done]. by intros [= <-].
  - destruct (then_args_of cfg ta); [|done]. simpl. destruct (else_args_of cfg ea); [|done]. by intros [= <-].
  - destruct (switch_cases_of cfg cs) as [l|]; [|done]. simpl. intros [= <-]. f_equal. simpl. rw fmap_app /=. f_equal.
    by rewrite -list_fmap_compose.
  - by intros [= <-].
  - by intros [= <-].
  - by intros [= <-].
Qed.

Lemma program_flow cfg u v : cfg_ok cfg -> p_flow (program_of cfg) u v <-> flow cfg u v.
Proof.
  intros Hok. rw /p_flow /flow. split.
  - intros (bv & args & Hb & Hin). apply view_block_Some in Hb as (blk & Hb & _ & _ & Ht). exists blk. split; [done|].
    rw /succs (view_targets _ _ _ Ht) /=. apply list_elem_of_fmap. by exists (v, args).
  - intros (blk & Hb & Hin). destruct (view_block_total cfg u Hok) as [bv Hbv]; [by eapply lookup_lt_Some|].
    pose proof Hbv as (blk' & Hb' & _ & _ & Ht)%view_block_Some. assert (blk' = blk) as -> by congruence.
    rw /succs (view_targets _ _ _ Ht) /= in Hin *. apply list_elem_of_fmap in Hin as ([v' args] & -> & Hin). by exists bv, args.
Qed.

Lemma program_live cfg b : cfg_ok cfg -> live (program_of cfg) b <-> rtc (flow cfg) (entry cfg) b.
Proof.
  intros Hok. split.
  - intros [l Hl]. induction Hl as [|l u v _ IH Hf]; [constructor|]. eapply rtc_r; [exact IH|]. by apply program_flow.
  - revert b. apply (rtc_ind_r (fun b => live (program_of cfg) b)); [apply live_entry|].
    intros u v _ Hf Hu. eapply live_flow; [exact Hu|]. by apply program_flow.
Qed.

(** ** Edits of terminators *)

(** What the phases leave alone. *)
Record evolves (c c' : Cfg) : Prop := {
  ev_ok : cfg_ok c';
  ev_entry : entry c' = entry c;
  ev_values : values c' = values c;
  ev_call_args : call_args c' = call_args c;
  ev_projections : projections c' = projections c;
  ev_switch_cases : switch_cases c' = switch_cases c;
  ev_extra : store_extends (extra c) (extra c');
  ev_boundary : ownership_boundary_values c' = ownership_boundary_values c;
  ev_count : block_count c' = block_count c;
}.

Lemma evolves_refl c : cfg_ok c -> evolves c c.
Proof. intros Hok. by split. Qed.

Lemma store_extends_trans {E} (s1 s2 s3 : Store E) : store_extends s1 s2 -> store_extends s2 s3 -> store_extends s1 s3.
Proof. intros [l1 H1] [l2 H2]. exists (l1 ++ l2). by rw H2 H1 app_assoc. Qed.

Lemma evolves_trans c1 c2 c3 : evolves c1 c2 -> evolves c2 c3 -> evolves c1 c3.
Proof.
  intros [] []. split; try congruence. by eapply store_extends_trans.
Qed.

Lemma evolves_term c c' t : evolves c c' -> term_ok c t -> view_term c' t = view_term c t.
Proof.
  intros He Hok. destruct t as [tg r|cd tb ta eb ea|v cs d|v| |]; simpl in *; try done.
  - destruct Hok as [_ Hr]. destruct (range_ok_extends _ _ _ (ev_extra _ _ He) Hr) as [Hr' Hd].
    by rw /goto_args (range_ok_view _ _ Hr) (range_ok_view _ _ Hr') Hd.
  - destruct Hok as (_ & _ & Ha & Hb). destruct (range_ok_extends _ _ _ (ev_extra _ _ He) Ha) as [Ha' Hda].
    destruct (range_ok_extends _ _ _ (ev_extra _ _ He) Hb) as [Hb' Hdb].
    by rw /then_args_of /else_args_of (range_ok_view _ _ Ha) (range_ok_view _ _ Ha') Hda
      (range_ok_view _ _ Hb) (range_ok_view _ _ Hb') Hdb.
  - by rw /switch_cases_of (ev_switch_cases _ _ He).
Qed.

Lemma evolves_inst c c' v : cfg_ok c -> evolves c c' -> view_inst c' v = view_inst c v.
Proof.
  intros Hok He. rw /view_inst /visit_instruction_uses /visit_instruction_uses_kinded /get_inst (ev_values _ _ He).
  destruct (values c !! v) as [i|] eqn:Hi; [|done]. simpl. pose proof (ok_insts _ Hok _ _ Hi) as Hio.
  assert (data_uses c' (data i) = data_uses c (data i)) as ->.
  { destruct (data i); simpl in Hio |- *; try done;
      rw /call_args_of /get_place_projections /intrinsic_args /struct_fields /array_elements /enum_payload
        ?(ev_call_args _ _ He) ?(ev_projections _ _ He) //;
      destruct (range_ok_extends _ _ _ (ev_extra _ _ He) Hio) as [Hr Hd];
      by rw (range_ok_view _ _ Hio) (range_ok_view _ _ Hr) Hd. }
  assert (content_of (payloads_of c') (data i) = content_of (payloads_of c) (data i)) as ->; [|done].
  assert (payloads_extend (payloads_of c) (payloads_of c')) as Hpe.
  { split; simpl; [apply (ev_extra _ _ He)|by rw (ev_call_args _ _ He)|by rw (ev_projections _ _ He)]. }
  by destruct (handle_extend _ _ (data i) Hpe (proj1 (inst_ok_handle c _) Hio)).
Qed.

Lemma evolves_block c c' b : cfg_ok c -> evolves c c' -> blocks c' !! b = blocks c !! b -> view_block c' b = view_block c b.
Proof.
  intros Hok He Hb. rw /view_block Hb. destruct (blocks c !! b) as [blk|] eqn:Hbl; [|done]. simpl.
  rw (evolves_term c c') //. by apply (ok_blocks _ Hok _ _ Hbl).
Qed.

Section Edits.
Context `{Alloc}.

Lemma set_extra_ok c s : cfg_ok c -> store_extends (extra c) s -> cfg_ok (set_extra s c).
Proof.
  intros Hok Hs. assert (cfg_extends c (set_extra s c)) as He by by split.
  destruct Hok as [Hb Hi H1 H2 H3]. split; [| |done..].
  - intros i b Hlk. eapply block_ok_extends; [exact He|]. by apply Hb.
  - intros v i Hlk. eapply inst_ok_extends; [exact He|]. by eapply Hi.
Qed.

Lemma edited_push {F} (vs : list CfgValue) c : cfg_ok c ->
  edited (push_extra (F := F) vs) c <> Panic /\
  forall c' r, edited (push_extra (F := F) vs) c = Ok (c', r) ->
    evolves c c' /\ blocks c' = blocks c /\ range_ok (extra c') r /\ denote (extra c') r = vs.
Proof.
  intros Hok. rw /edited /push_extra /lift_push. pose proof (append_no_panic (F := F) (extra c) vs) as Hnp.
  rw /push. destruct (append (extra c) vs) as [[s r]|e|] eqn:Ha; [|done..]. split; [done|].
  intros c' r' [= <- <-]. pose proof (append_store_extends _ _ _ _ Ha) as Hs. split_and!; [|done|by eapply append_range_ok..].
  split; try done. by apply set_extra_ok.
Qed.

Lemma put_terminator_spec b t c : cfg_ok c -> b < block_count c -> term_ok c t ->
  exists c', put_terminator b t c = Ok c' /\ evolves c c' /\ blocks c' = alter (with_terminator t) b (blocks c).
Proof.
  intros Hok [blk Hb]%lookup_lt_is_Some_2 Ht. rw /put_terminator /update_block Hb /=. eexists. split; [done|]. split.
  - split; try done; [|by rw /block_count /= length_insert].
    destruct Hok as [Hbs Hi H1 H2 H3]. split; try done.
    + intros i b' Hlk. assert (block_ok c i b') as [? ? ? Ht'].
      { simpl in Hlk. destruct (decide (b = i)) as [->|Hne].
        - rw list_lookup_insert_eq in Hlk *; [|by eapply lookup_lt_Some]. injection Hlk as <-. by destruct (Hbs i blk Hb).
        - rw list_lookup_insert_ne // in Hlk *. by apply Hbs. }
      split; try done. destruct (terminator b'); simpl in *; rw /block_count /= ?length_insert //.
    + rw /block_count /= length_insert. done.
  - simpl. apply list_eq. intros i. destruct (decide (b = i)) as [->|Hne].
    + rw list_lookup_insert_eq; [|by eapply lookup_lt_Some]. rw list_lookup_alter_eq Hb. done.
    + rw list_lookup_insert_ne // list_lookup_alter_ne //.
Qed.

(** The view of an owner whose block [b] got the terminator [t]. *)
Lemma retarget_view c c1 c' b t tv blk : cfg_ok c -> evolves c c1 -> blocks c1 = blocks c -> evolves c1 c' ->
  blocks c' = alter (with_terminator t) b (blocks c1) -> term_ok c1 t -> view_term c1 t = Some tv ->
  view_block c b = Some blk ->
  view_block c' b = Some (mkBlockView (v_params blk) (v_insts blk) tv) /\
  forall x, x <> b -> view_block c' x = view_block c x.
Proof.
  intros Hok H1 Hb1 H2 Hb2 Hto Ht Hblk. split.
  - apply view_block_Some in Hblk as (bb & Hb & -> & -> & _). apply view_block_Some. exists (with_terminator t bb).
    rw Hb2 list_lookup_alter_eq Hb1 Hb. split_and!; [done..|]. simpl. by rw (evolves_term c1 c').
  - intros x Hx. apply evolves_block; [done|by eapply evolves_trans|]. by rw Hb2 list_lookup_alter_ne // Hb1.
Qed.
End Edits.

(** ** What folding does to a program *)

Section FoldView.
Context (P : Program).

Definition literal_at (v : CfgValue) : option rval := iv ← p_inst P v; iv_literal iv.
Definition literal_word (r : rval) : option Z :=
  match r with RInt z => Some z | RBool b => Some (Z.b2z b) | _ => None end.

Definition fold_view (t : term_view) : term_view :=
  match t with
  | VBranch c tb ta eb ea =>
      match literal_at c with Some (RBool b) => if b then VGoto tb ta else VGoto eb ea | _ => t end
  | VSwitch v cs d =>
      match iv ← p_inst P v; r ← iv_literal iv; w ← literal_word r; Some (iv, w) with
      | Some (iv, w) => VGoto (switch_target (switch_compare_width (iv_ty iv) =? 64)%Z w cs d) []
      | None => t
      end
  | _ => t
  end.
Definition fold_block_view (b : block_view) : block_view := mkBlockView (v_params b) (v_insts b) (fold_view (v_term b)).

Record folded (P' : Program) : Prop := {
  fd_entry : p_entry P' = p_entry P;
  fd_inst : forall v, p_inst P' v = p_inst P v;
  fd_block : forall b, p_block P' b = fold_block_view <$> p_block P b;
}.

(** Constants are 64-bit words, as the source's [u64]. *)
Definition words_ok : Prop := forall v z, literal_at v = Some (RInt z) -> in_u 64 z.
End FoldView.

Lemma view_uses cfg t tv : view_term cfg t = Some tv -> visit_terminator_uses cfg t = Some (term_uses tv).
Proof.
  destruct t as [tg r|c tb ta eb ea|v cs d|[v|]| |]; simpl; try (by intros [= <-]).
  - destruct (goto_args cfg r); [|done]. by intros [= <-].
  - destruct (then_args_of cfg ta); [|done]. simpl. destruct (else_args_of cfg ea); [|done]. by intros [= <-].
  - destruct (switch_cases_of cfg cs); [|done]. by intros [= <-].
Qed.

(** References stay in range when the terminators' new uses do. *)
Lemma evolves_refs c c' : cfg_ok c -> evolves c c' -> refs_ok c ->
  (forall b bv u, view_block c' b = Some bv -> u ∈ term_uses (v_term bv) -> u < value_count c) -> refs_ok c'.
Proof.
  intros Hok Hev [Hi Ht] Hu.
  assert (value_count c' = value_count c) as Hn by by rw /value_count (ev_values _ _ Hev). split.
  - intros v us. rw Hn. intros Hv Hus. apply (Hi v us Hv).
    pose proof (evolves_inst c c' v Hok Hev) as Hvi. rw /view_inst Hus in Hvi *.
    destruct (get_inst_total c Hok v Hv) as (i & Hgi & _). rw /get_inst (ev_values _ _ Hev) in Hvi *.
    destruct (uses_total c Hok v Hv) as [us' Hus']. rw Hus' in Hvi *. rw /get_inst in Hgi *. rw Hgi /= in Hvi *. congruence.
  - intros b blk us Hb Hus. rw Hn. apply Forall_forall. intros u Hin.
    destruct (view_block_total c' b (ev_ok _ _ Hev)) as [bv Hbv]; [by eapply lookup_lt_Some|].
    apply (Hu b bv u Hbv). apply view_block_Some in Hbv as (blk' & Hb' & _ & _ & Hvt). assert (blk' = blk) as -> by congruence.
    rw (view_uses _ _ _ Hvt) in Hus *. by injection Hus as ->.
Qed.

(** A terminator of a well-formed owner reads values of the owner. *)
Lemma refs_view c b bv u : refs_ok c -> view_block c b = Some bv -> u ∈ term_uses (v_term bv) -> u < value_count c.
Proof.
  intros Hr (blk & Hb & _ & _ & Hvt)%view_block_Some Hu. pose proof (refs_terms _ Hr _ _ _ Hb (view_uses _ _ _ Hvt)) as Hf.
  rewrite Forall_forall in Hf. by apply Hf.
Qed.

(** The literal at a value, as the code reads it. *)
Lemma literal_at_data cfg v i : cfg_ok cfg -> get_inst cfg v = Some i ->
  exists iv, view_inst cfg v = Some iv /\ iv_ty iv = ty i /\ iv_literal iv = literal_of (data i).
Proof.
  intros Hok Hi. destruct (view_inst_total cfg v Hok) as [iv Hiv]; [by eapply lookup_lt_Some|]. exists iv. split; [done|].
  rw /view_inst Hi /= in Hiv *. destruct (visit_instruction_uses cfg v); [|done]. by injection Hiv as <-.
Qed.

(** ** The phase *)

Section Phase.
Context `{Alloc} (c0 : Cfg) (Hok0 : cfg_ok c0) (Hrefs : refs_ok c0).
Notation P0 := (program_of c0).

Record fold_inv (i : nat) (st : Cfg * Stats) : Prop := {
  fi_evolves : evolves c0 st.1;
  fi_done : forall x, x < i -> view_block st.1 x = fold_block_view P0 <$> view_block c0 x;
  fi_todo : forall x, i <= x -> view_block st.1 x = view_block c0 x;
}.

Lemma fold_inv_step i c c' stats stats' bv : fold_inv i (c, stats) -> view_block c0 i = Some bv -> evolves c c' ->
  view_block c' i = Some (mkBlockView (v_params bv) (v_insts bv) (fold_view P0 (v_term bv))) ->
  (forall x, x <> i -> view_block c' x = view_block c x) -> fold_inv (S i) (c', stats').
Proof.
  intros [He Hd Ht] Hb Hev Hi Hx. simpl in *. split; simpl.
  - by eapply evolves_trans.
  - intros x Hlt. destruct (decide (x = i)) as [->|Hne]; [by rw Hi Hb|]. rw Hx // Hd //. lia.
  - intros x Hle. rw Hx; [|lia]. apply Ht. lia.
Qed.

Lemma fold_inv_same i c stats stats' bv : fold_inv i (c, stats) -> view_block c0 i = Some bv ->
  fold_view P0 (v_term bv) = v_term bv -> fold_inv (S i) (c, stats').
Proof.
  intros Hi Hb Hf. pose proof (fi_todo _ _ Hi i ltac:(done)) as Hbi. simpl in Hbi.
  apply (fold_inv_step i c c stats stats' bv); [done|done|apply evolves_refl, (ev_ok _ _ (fi_evolves _ _ Hi))| |done].
  rw Hbi Hb Hf. by destruct bv.
Qed.

(** Replacing the terminator by the taken edge. *)
Lemma fold_inv_goto i c c1 stats stats' bv tgt r vs :
  fold_inv i (c, stats) -> view_block c0 i = Some bv -> evolves c c1 -> blocks c1 = blocks c ->
  range_ok (extra c1) r -> denote (extra c1) r = vs -> tgt < block_count c0 ->
  fold_view P0 (v_term bv) = VGoto tgt vs ->
  exists c', put_terminator i (Goto tgt r) c1 = Ok c' /\ fold_inv (S i) (c', stats').
Proof.
  intros Hinv Hb He1 Hb1 Hr Hd Htgt Hfold. pose proof (fi_evolves _ _ Hinv) as He0. simpl in He0.
  pose proof (fi_todo _ _ Hinv i ltac:(done)) as Hci. simpl in Hci. rw Hb in Hci *.
  assert (block_count c1 = block_count c0) as Hn by by rw (ev_count _ _ He1) (ev_count _ _ He0).
  assert (term_ok c1 (Goto tgt r)) as Hto by (split; [by rw Hn|done]).
  destruct (put_terminator_spec i (Goto tgt r) c1) as (c' & Hp & He2 & Hb2).
  { apply (ev_ok _ _ He1). } { rw Hn. by eapply view_block_lt. } { done. }
  exists c'. split; [done|].
  destruct (retarget_view c c1 c' i (Goto tgt r) (VGoto tgt vs) bv) as [Hv Hx]; try done.
  { apply (ev_ok _ _ He0). } { rw /= /goto_args (range_ok_view _ _ Hr) /= Hd //. }
  apply (fold_inv_step i c c' stats stats' bv); [done|done|by eapply evolves_trans|by rw Hfold|done].
Qed.

Lemma fold_block_ok i st : i < block_count c0 -> fold_inv i st ->
  fold_block st i <> Panic /\ forall st', fold_block st i = Ok st' -> fold_inv (S i) st'.
Proof.
  intros Hi Hinv. destruct st as [c stats]. pose proof (fi_evolves _ _ Hinv) as He0. simpl in He0.
  destruct (view_block_total c0 i Hok0 Hi) as [bv Hb].
  pose proof (fi_todo _ _ Hinv i ltac:(done)) as Hci. simpl in Hci. rw Hb in Hci *.
  pose proof Hci as (blk & Hblk & _ & _ & Hvt)%view_block_Some.
  pose proof Hb as (blk0 & Hblk0 & _ & _ & Hvt0)%view_block_Some.
  pose proof (ok_blocks _ (ev_ok _ _ He0) _ _ Hblk) as Hbo. pose proof (block_ok_term _ _ _ Hbo) as Hto.
  assert (forall u, u ∈ term_uses (v_term bv) -> u < value_count c0) as Hu.
  { intros u Hu. pose proof (refs_terms _ Hrefs i blk0 _ Hblk0 (view_uses _ _ _ Hvt0)) as Hf.
    rewrite Forall_forall in Hf. by apply Hf. }
  assert (forall v, get_inst c v = get_inst c0 v) as Hg by (intros v; by rw /get_inst (ev_values _ _ He0)).
  rw /fold_block /get_block Hblk. cbn [expect mbind res_bind].
  destruct (terminator blk) as [tg r|cd tb ta eb ea|v cs d|v| |] eqn:Hterm; simpl in Hto, Hvt.
  - split; [done|]. intros st' [= <-]. apply (fold_inv_same i c stats _ bv); [done..|].
    destruct (goto_args c r); [|done]. by injection Hvt as <-.
  - destruct Hto as (Htb & Heb & Hta & Hea). rw (ev_count _ _ He0) in Htb Heb *.
    rw /then_args_of /else_args_of (range_ok_view _ _ Hta) (range_ok_view _ _ Hea) /= in Hvt *. injection Hvt as Hvt.
    destruct (lookup_lt_is_Some_2 (values c0) cd) as [ci Hci2]; [apply Hu; rewrite -Hvt; by left|].
    destruct (literal_at_data c0 cd ci Hok0 Hci2) as (iv & Hiv & _ & Hlit).
    assert (fold_view P0 (v_term bv) = match literal_of (data ci) with
      | Some (RBool b) => if b then VGoto tb (denote (extra c) ta) else VGoto eb (denote (extra c) ea) | _ => v_term bv end) as Hfv.
    { rewrite -Hvt /= /literal_at /= Hiv /= Hlit. by destruct (literal_of (data ci)) as [[]|]. }
    rw Hg /get_inst Hci2. cbn [expect mbind res_bind].
    destruct (data ci) eqn:Hdata;
      try (split; [done|]; intros st' [= <-]; by apply (fold_inv_same i c stats _ bv)).
    rename select bool into b.
    assert (exists vs, (if b then Some (denote (extra c) ta) else Some (denote (extra c) ea)) = Some vs /\
      fold_view P0 (v_term bv) = VGoto (if b then tb else eb) vs) as (vs & Hvs & Hfv2).
    { rw Hfv. destruct b; by eexists. }
    rw Hvs. cbn [expect mbind res_bind]. rw /push_goto_args.
    destruct (edited_push (F := FGotoArgs) vs c (ev_ok _ _ He0)) as [Hp Hq].
    destruct (edited (push_extra vs) c) as [[c1 r]|e|]; cbn [mbind res_bind]; [|by split|done].
    destruct (Hq c1 r eq_refl) as (He1 & Hb1 & Hr & Hd).
    destruct (fold_inv_goto i c c1 stats (add_stats (add_stats stats one_scanned) one_branch) bv (if b then tb else eb) r vs)
      as (c' & -> & Hinv'); try done; [by destruct b|]. cbn [mbind res_bind]. split; [done|]. by intros st' [= <-].
  - destruct Hto as (Hd & Hr & Hcs). rw (ev_count _ _ He0) in Hd Hcs *.
    rw /switch_cases_of (range_ok_view _ _ Hr) /= in Hvt *. injection Hvt as Hvt.
    destruct (lookup_lt_is_Some_2 (values c0) v) as [vi Hvi]; [apply Hu; rewrite -Hvt; by left|].
    destruct (literal_at_data c0 v vi Hok0 Hvi) as (iv & Hiv & Hty & Hlit).
    rw Hg /get_inst Hvi. cbn [expect mbind res_bind].
    assert (fold_view P0 (v_term bv) = match match data vi with IConst v => Some v | IBoolConst b => Some (Z.b2z b) | _ => None end with
      | Some w => VGoto (switch_target (switch_compare_width (ty vi) =? 64)%Z w (denote (switch_cases c) cs) d) [] | None => v_term bv end) as Hfv.
    { rewrite -Hvt /= Hiv /= Hlit. destruct (data vi); by rewrite /= ?Hty. }
    destruct (match data vi with IConst v => Some v | IBoolConst b => Some (Z.b2z b) | _ => None end) as [w|].
    + cbn [expect mbind res_bind].
      destruct (fold_inv_goto i c c stats (add_stats (add_stats stats one_scanned) one_switch) bv
        (switch_target (switch_compare_width (ty vi) =? 64)%Z w (denote (switch_cases c) cs) d) EMPTY []) as (c' & -> & Hinv'); try done.
      * apply evolves_refl, (ev_ok _ _ He0).
      * apply range_ok_EMPTY.
      * rw /switch_target. destruct (list_find _ _) as [[k [z t]]|] eqn:Hf; [|done].
        apply list_find_Some in Hf as (Hk & _). rewrite Forall_forall in Hcs.
        apply (Hcs (z, t)). by eapply list_elem_of_lookup_2.
      * cbn [mbind res_bind]. split; [done|]. by intros st' [= <-].
    + split; [done|]. intros st' [= <-]. by apply (fold_inv_same i c stats _ bv).
  - split; [done|]. intros st' [= <-]. apply (fold_inv_same i c stats _ bv); [done..|]. by injection Hvt as <-.
  - split; [done|]. intros st' [= <-]. apply (fold_inv_same i c stats _ bv); [done..|]. by injection Hvt as <-.
  - split; [done|]. intros st' [= <-]. apply (fold_inv_same i c stats _ bv); [done..|]. by injection Hvt as <-.
Qed.

(** The phase folds every terminator and fails only when a store is full. *)
Lemma fold_terminators_ok stats : fold_terminators c0 stats <> Panic /\
  forall c' stats', fold_terminators c0 stats = Ok (c', stats') -> evolves c0 c' /\ folded P0 (program_of c').
Proof.
  destruct (fold_res_seq fold_block fold_inv (block_count c0) (c0, stats)) as [Hp Hq].
  - split; [by apply evolves_refl|lia|done].
  - apply fold_block_ok.
  - split; [done|]. intros c' stats' Hr. specialize (Hq _ Hr) as [He Hd Ht]. simpl in *. split; [done|]. split.
    + by apply ev_entry.
    + intros v. by apply evolves_inst.
    + intros b. simpl. destruct (decide (b < block_count c0)) as [Hlt|Hge]; [by apply Hd|]. rw Ht; [|lia].
      destruct (view_block c0 b) eqn:Hb; [|done]. apply view_block_lt in Hb. lia.
Qed.
End Phase.

(** ** Meaning *)

Lemma switch_target_selected T w cs d : in_u 64 w ->
  switch_target (switch_compare_width T =? 64)%Z w cs d = selected T w cs d.
Proof.
  intros Hw. rw /switch_target /selected.
  assert (forall c : Z * BlockId, (case_matches (switch_compare_width T =? 64)%Z w c.1 = true) <-> (same_word T w c.1 = true)) as Heq.
  { intros c. rw /case_matches /same_word /switch_compare_width. destruct (is_64_bit T); [|done].
    rewrite (wrap_u_small 64 w) //. }
  assert (list_find (fun c => case_matches (switch_compare_width T =? 64)%Z w c.1 = true) cs =
    list_find (fun c => same_word T w c.1 = true) cs) as ->; [|done].
  induction cs as [|c cs IH]; [done|]. simpl. rw IH. specialize (Heq c). repeat case_decide; tauto.
Qed.

(** Folding keeps one of a terminator's edges. *)
Lemma fold_edges_in P t e : e ∈ edges (fold_view P t) -> e ∈ edges t.
Proof.
  rw /fold_view. destruct t as [tg a|c tb ta eb ea|v cs d|v|]; try done.
  - destruct (literal_at P c) as [[| [] | |]|]; try done; intros ->%list_elem_of_singleton; set_solver.
  - destruct (iv ← _; _) as [[iv w]|]; [|done]. intros ->%list_elem_of_singleton. simpl. apply elem_of_app.
    rw /switch_target. destruct (list_find _ _) as [[k [z tg]]|] eqn:Hl; [left|right; by left].
    apply list_find_Some in Hl as (Hk & _). apply list_elem_of_fmap. exists (z, tg). split; [done|]. by eapply list_elem_of_lookup_2.
Qed.

Lemma fold_uses_in P t u : u ∈ term_uses (fold_view P t) -> u ∈ term_uses t.
Proof.
  rw /fold_view. destruct t as [tg a|c tb ta eb ea|v cs d|v|]; try done.
  - destruct (literal_at P c) as [[| [] | |]|]; simpl; try done; set_solver.
  - destruct (iv ← _; _) as [[iv w]|]; [|done]. by intros ?%not_elem_of_nil.
Qed.

Section Meaning.
Context `{Interp W} (P P' : Program) (Hssa : ssa P) (Hwords : words_ok P) (Hf : folded P P').

Lemma folded_block b bv' : p_block P' b = Some bv' -> exists bv, p_block P b = Some bv /\ bv' = fold_block_view P bv.
Proof. rw (fd_block _ _ Hf). destruct (p_block P b) as [bv|]; [|done]. intros [= <-]. by exists bv. Qed.

Lemma folded_reshaped : reshaped P P'.
Proof.
  split.
  - by apply fd_entry.
  - by apply fd_inst.
  - intros b bv' (bv & Hb & ->)%folded_block. by exists bv.
  - intros b bv Hb. rw (fd_block _ _ Hf) Hb. by eexists.
Qed.

Lemma folded_flow u v : p_flow P' u v -> p_flow P u v.
Proof. intros (b & args & (bv & Hb & ->)%folded_block & Hin). exists bv, args. split; [done|]. by apply (fold_edges_in P). Qed.

Lemma folded_path l b : path P' l b -> path P l b.
Proof.
  induction 1 as [|l u v _ IH Hfl]; [rw (fd_entry _ _ Hf); constructor|]. econstructor; [exact IH|]. by apply folded_flow.
Qed.

Lemma folded_ssa : ssa P'.
Proof.
  apply (ssa_transport P P' Hssa folded_reshaped).
  - intros b [l Hl]. exists l. by apply folded_path.
  - intros b u [l Hl] (bv' & (bv & Hb & ->)%folded_block & Hu). exists b. split_and!.
    + exists l. by apply folded_path.
    + exists bv. split; [done|]. destruct Hu as [Hu|(v & iv & Hv & Hiv & Hu)]; [left; by apply (fold_uses_in P)|right].
      exists v, iv. split_and!; [done| |done]. by rewrite -(fd_inst _ _ Hf).
    + intros l' Hl'. exists l'. split; [by apply folded_path|]. by intros x v Hx _.
  - intros b bv' t args [l Hl] (bv & Hb & ->)%folded_block Hin. apply (ssa_edges _ Hssa b bv); [|done|by apply (fold_edges_in P)].
    exists l. by apply folded_path.
Qed.

(** The literals of the blocks in [l] have their values. *)
Definition known (ρ : env) (l : list BlockId) : Prop :=
  forall d bv v r, d ∈ l -> p_block P d = Some bv -> v ∈ v_insts bv -> literal_at P v = Some r -> ρ v = r.

Lemma known_exec l b bv ρ w ρ' w' : p_block P b = Some bv -> known ρ l ->
  fold_res (exec_value P) (ρ, w) (v_insts bv) = Ok (ρ', w') -> known ρ' (b :: l).
Proof.
  intros Hb Hk He d dv v r Hd Hdv Hv Hlit. destruct (decide (v ∈ v_insts bv)) as [Hin|Hout].
  - rw /literal_at in Hlit *. destruct (p_inst P v) as [iv|] eqn:Hiv; [|done]. simpl in Hlit.
    by eapply (exec_literal P _ _ _ _ _ He).
  - rw (exec_frame P _ _ _ _ _ He v Hout). apply elem_of_cons in Hd as [->|Hd]; [congruence|]. by apply (Hk d dv).
Qed.

Lemma known_bind l t tv ρ rs : (forall d, d ∈ l -> live P d) -> live P t -> p_block P t = Some tv -> known ρ l ->
  known (bind_env ρ (v_params tv) rs) l.
Proof.
  intros Hl Ht Htv Hk d dv v r Hd Hdv Hv Hlit. rw bind_env_ne; [by apply (Hk d dv)|]. intros Hp.
  destruct (ssa_params _ Hssa t tv Ht Htv) as [_ Hps]. destruct (Hps v Hp) as [Hnv _].
  assert (d = t) as -> by (apply (ssa_once _ Hssa d t v); [by apply Hl|done|exists dv; by split; [|right]|exists tv; by split; [|left]]).
  apply Hnv. congruence.
Qed.

(** The literal a terminator reads is known. *)
Lemma known_operand l b bv ρ u r : path P l b -> p_block P b = Some bv -> known ρ l -> u ∈ term_uses (v_term bv) ->
  literal_at P u = Some r -> ρ u = r.
Proof.
  intros Hp Hb Hk Hu Hlit. destruct (ssa_dominates _ Hssa b u) as (d & (dv & Hdv & [Hpar|Hin]) & Hdom).
  { by exists l. } { exists bv. split; [done|by left]. }
  - rw /literal_at in Hlit *. destruct (p_inst P u) as [iv|] eqn:Hiv; [|done]. simpl in Hlit.
    destruct (ssa_params _ Hssa d dv) as [_ Hps]; [|done|].
    + eapply live_in; [exact Hp|by apply Hdom].
    + destruct (Hps u Hpar) as [_ Hn]. by rw (Hn iv Hiv) in Hlit *.
  - apply (Hk d dv); [|done..]. by apply Hdom.
Qed.

Lemma folded_enter ρ (w : W) e : enter P' ρ w e = enter P ρ w e.
Proof. destruct e as [[b args]|]; [|done]. rw /enter (fd_block _ _ Hf). by destruct (p_block P b). Qed.

Lemma fold_leave l b bv ρ (w : W) : path P l b -> p_block P b = Some bv -> known ρ l ->
  leave P' ρ w (fold_view P (v_term bv)) = leave P ρ w (v_term bv).
Proof.
  intros Hp Hb Hk.
  assert (forall t1 t2, (forall v, t1 <> VReturn v) -> (forall v, t2 <> VReturn v) ->
    taken_edge P' ρ t1 = taken_edge P ρ t2 -> leave P' ρ w t1 = leave P ρ w t2) as Hleave.
  { intros t1 t2 H1 H2 He. apply leave_ext; [done..|]. by rw He folded_enter. }
  destruct (v_term bv) as [tg a|c tb ta eb ea|v cs d|v|] eqn:Ht; cbn [fold_view].
  - by apply Hleave.
  - destruct (literal_at P c) as [r|] eqn:Hlit; [|by apply Hleave].
    pose proof (known_operand l b bv ρ c r Hp Hb Hk ltac:(rw Ht; by left) Hlit) as Hc.
    destruct r as [z|[]|e k p|z]; by apply Hleave; simpl; rw ?Hc.
  - destruct (p_inst P v) as [iv|] eqn:Hiv; cbn [mbind option_bind].
    + destruct (iv_literal iv) as [r|] eqn:Hr; cbn [mbind option_bind].
      * assert (literal_at P v = Some r) as Hlit by by rw /literal_at Hiv.
        pose proof (known_operand l b bv ρ v r Hp Hb Hk ltac:(rw Ht; by left) Hlit) as Hc.
        destruct r as [z|q|e k p|z]; cbn [literal_word mbind option_bind]; apply Hleave; try done;
          cbn [taken_edge]; rw ?(fd_inst _ _ Hf) ?Hiv /= ?Hc //=.
        -- rw switch_target_selected //. by apply (Hwords v).
        -- rw switch_target_selected //. by destruct q.
      * apply Hleave; [done..|]. by rw /= (fd_inst _ _ Hf).
    + apply Hleave; [done..|]. by rw /= (fd_inst _ _ Hf).
  - done.
  - by apply Hleave.
Qed.

Lemma folded_behaviour : same_behaviour P P'.
Proof.
  intros ρ0 w0 o. apply (simulate P P' (fun s s' => s = s' /\ exists l, path P l s.1.1 /\ known s.1.2 (tail l))).
  - intros [[b ρ] w] s' [<- (l & Hp & Hk)]. simpl in Hp, Hk. destruct (p_block P b) as [bv|] eqn:Hb.
    2:{ simpl. rw (fd_block _ _ Hf) Hb /=. exists 1. simpl. by rw Hb. }
    assert (step P' (b, ρ, w) = step P (b, ρ, w)) as Hs.
    { simpl. rw (fd_block _ _ Hf) Hb /=.
      rw (exec_values_inst P P' _ (fd_inst _ _ Hf)). destruct (fold_res _ _ _) as [[ρ1 w1]|w1|] eqn:He; [|done..].
      apply (fold_leave l b); [done..|]. destruct (path_cons P l b Hp) as [l' ->]. by apply (known_exec l' b bv ρ w ρ1 w1). }
    rw Hs. destruct (step P (b, ρ, w)) as [[[t ρ1] w1]|o'] eqn:Hst; [|exists 1; simpl in *; by rw Hst].
    destruct (step_inl P _ _ _ _ _ _ Hst) as (bv' & ρ2 & args & tv & Hb' & He & Hin & Htv & _ & ->).
    assert (bv' = bv) as -> by congruence. assert (p_flow P b t) as Hflow by by exists bv, args.
    exists (t, bind_env ρ2 (v_params tv) (ρ2 <$> args), w1), (t, bind_env ρ2 (v_params tv) (ρ2 <$> args), w1).
    split; [exact Hst|]. split; [constructor|]. split; [done|]. exists (t :: l). split; [by econstructor|]. cbn [tail fst snd].
    apply (known_bind l t tv); [|eapply live_flow; [by exists l|done]|done|].
    + intros d Hd. by eapply live_in.
    + destruct (path_cons P l b Hp) as [l' ->]. by apply (known_exec l' b bv ρ w ρ2 w1).
  - split; [by rw (fd_entry _ _ Hf)|]. exists [p_entry P]. split; [constructor|]. by intros d bv v r ?%not_elem_of_nil.
Qed.
End Meaning.
