(* ===== verification/SimplifyThread.v ===== *)
(** * Threading: correctness

    The second phase of [Simplify.v].  A forwarder runs nothing and binds
    nothing, so an edge into one reaches, with the environment unchanged, the
    destination of the chain it starts; every execution of the threaded
    program is one of the original with the forwarders left out. *)

From S2P Require Import Prelude IntegerSemantics Types Payload CfgData CfgEdit Worklist Cfg CfgRewrite Classify Dce Eval Peephole Exec Simplify SimplifyFold.
From stdpp Require Import list relations.
Import Machine.

(** ** Programs *)

Section Program.
Context (P : Program).

Definition forwarder (f x : BlockId) (vs : list CfgValue) : Prop :=
  live P f /\ f <> p_entry P /\ p_block P f = Some (mkBlockView [] [] (VGoto x vs)).

(** Where the chain of forwarders from [f] leads, with the last one's
    arguments. *)
Inductive forwards : BlockId -> BlockId -> list CfgValue -> Prop :=
| forwards_last f x vs : forwarder f x vs -> forwards f x vs
| forwards_step f x ws y vs : forwarder f x ws -> forwards x y vs -> forwards f y vs.

Definition side (t : BlockId) (vs : list CfgValue) (t' : BlockId) (vs' : list CfgValue) : Prop :=
  t' = t /\ vs' = vs \/ forwards t t' vs'.

Inductive thread_view : term_view -> term_view -> Prop :=
| tv_same t : thread_view t t
| tv_goto t vs t' vs' : side t vs t' vs' -> thread_view (VGoto t vs) (VGoto t' vs')
| tv_branch c t vs e ws t' vs' e' ws' : side t vs t' vs' -> side e ws e' ws' ->
    thread_view (VBranch c t vs e ws) (VBranch c t' vs' e' ws').

Definition thread_block_view (b b' : block_view) : Prop :=
  v_params b' = v_params b /\ v_insts b' = v_insts b /\ thread_view (v_term b) (v_term b').

Record threaded (P' : Program) : Prop := {
  th_entry : p_entry P' = p_entry P;
  th_inst : forall v, p_inst P' v = p_inst P v;
  th_block : forall b, option_relation thread_block_view (fun _ => False) (fun _ => False) (p_block P b) (p_block P' b);
}.

Definition hollow (x : BlockId) : Prop := forall v, ~ defines P x v.

Lemma forwarder_hollow f x vs : forwarder f x vs -> hollow f.
Proof. intros (_ & _ & Hb) v (bv & Hb' & Hv). rw Hb in Hb' *. injection Hb' as <-. set_solver. Qed.

Lemma forwarder_flow f x vs : forwarder f x vs -> p_flow P f x.
Proof. intros (_ & _ & Hb). eexists _, vs. split; [exact Hb|]. by left. Qed.

(** The last forwarder of a chain, and the paths to it. *)
Lemma forwards_end f y vs : forwards f y vs -> exists e, forwarder e y vs /\
  forall l u, path P l u -> p_flow P u f -> exists l2, path P l2 e /\ forall x, x ∈ l2 -> x ∈ l \/ hollow x.
Proof.
  induction 1 as [f x vs Hf|f x ws y vs Hf _ (e & He & IH)].
  - exists f. split; [done|]. intros l u Hp Hfl. exists (f :: l). split; [by econstructor|].
    intros z [->|?]%elem_of_cons; [right; by eapply forwarder_hollow|by left].
  - exists e. split; [done|]. intros l u Hp Hfl.
    destruct (IH (f :: l) f) as (l2 & Hp2 & Hl2); [by econstructor|by eapply forwarder_flow|].
    exists l2. split; [done|]. intros z Hz. destruct (Hl2 z Hz) as [[->|?]%elem_of_cons|?]; [right; by eapply forwarder_hollow|by left|by right].
Qed.
End Program.

Section Meaning.
Context `{Interp W} (P P' : Program) (Hssa : ssa P) (Ht : threaded P P').

Lemma threaded_block b bv' : p_block P' b = Some bv' -> exists bv, p_block P b = Some bv /\ thread_block_view P bv bv'.
Proof.
  intros Hb'. pose proof (th_block _ _ Ht b) as Hr. rw Hb' in Hr *. destruct (p_block P b) as [bv|]; [|done]. by exists bv.
Qed.

Lemma threaded_reshaped : reshaped P P'.
Proof.
  split.
  - by apply th_entry.
  - by apply th_inst.
  - intros b bv' (bv & Hb & ? & ? & _)%threaded_block. by exists bv.
  - intros b bv Hb. pose proof (th_block _ _ Ht b) as Hr. rw Hb in Hr *. by destruct (p_block P' b).
Qed.

(** An edge of the threaded program is an edge of the original, or leads
    along a chain from one. *)
Lemma threaded_edge t t' x vs : thread_view P t t' -> (x, vs) ∈ edges t' ->
  (x, vs) ∈ edges t \/ exists f ws, (f, ws) ∈ edges t /\ forwards P f x vs.
Proof.
  destruct 1 as [t|t us t' us' Hs|c t us e ws t' us' e' ws' Hs1 Hs2]; [by left|..]; simpl.
  - intros [= -> ->]%list_elem_of_singleton. destruct Hs as [[-> ->]|Hf]; [left; by left|right]. exists t, us. by split; [left|].
  - intros [[= -> ->]|[= -> ->]%list_elem_of_singleton]%elem_of_cons.
    + destruct Hs1 as [[-> ->]|Hf]; [left; by left|right]. exists t, us. by split; [left|].
    + destruct Hs2 as [[-> ->]|Hf]; [left; by right; left|right]. exists e, ws. by split; [right; left|].
Qed.

Lemma threaded_use t t' u : thread_view P t t' -> u ∈ term_uses t' ->
  u ∈ term_uses t \/ exists f ws x vs, (f, ws) ∈ edges t /\ forwards P f x vs /\ u ∈ vs.
Proof.
  destruct 1 as [t|t us t' us' Hs|c t us e ws t' us' e' ws' Hs1 Hs2]; [by left|..]; simpl.
  - intros Hu. destruct Hs as [[-> ->]|Hf]; [by left|right]. exists t, us, t', us'. by split_and!; [left|..].
  - intros [->|[Hu|Hu]%elem_of_app]%elem_of_cons; [left; by left| |].
    + destruct Hs1 as [[-> ->]|Hf]; [left; right; apply elem_of_app; by left|right]. exists t, us, t', us'. by split_and!; [left|..].
    + destruct Hs2 as [[-> ->]|Hf]; [left; right; apply elem_of_app; by right|right]. exists e, ws, e', ws'. by split_and!; [right; left|..].
Qed.

Lemma threaded_path l' b : path P' l' b -> exists l, path P l b /\ lifts P l' l.
Proof.
  induction 1 as [|l' u v _ (l & Hp & Hl) (bv' & args & (bv & Hb & _ & _ & Hv)%threaded_block & Hin)].
  - exists [p_entry P]. rw (th_entry _ _ Ht). split; [constructor|]. by intros x v Hx _.
  - assert (forall x w, x ∈ l -> defines P x w -> x ∈ v :: l') as Hl2 by (intros x w Hx Hw; right; by apply (Hl x w)).
    destruct (threaded_edge _ _ _ _ Hv Hin) as [He|(f & ws & He & Hf)].
    + exists (v :: l). split; [econstructor; [exact Hp|by exists bv, args]|].
      intros x w [->|Hx]%elem_of_cons Hw; [by left|by apply (Hl2 x w)].
    + destruct (forwards_end _ _ _ _ Hf) as (e & Hfe & Hends). destruct (Hends l u Hp) as (l2 & Hp2 & Hsub); [by exists bv, ws|].
      exists (v :: l2). split; [econstructor; [exact Hp2|by eapply forwarder_flow]|].
      intros x w [->|Hx]%elem_of_cons Hw; [by left|]. destruct (Hsub x Hx) as [?|Hh]; [by apply (Hl2 x w)|by apply Hh in Hw].
Qed.

Lemma threaded_live b : live P' b -> live P b.
Proof. intros [l' Hl']. destruct (threaded_path _ _ Hl') as (l & ? & _). by exists l. Qed.

Lemma threaded_ssa : ssa P'.
Proof.
  apply (ssa_transport P P' Hssa threaded_reshaped); [exact threaded_live| |].
  - intros b u Hb (bv' & (bv & Hbv & _ & Hins & Hv)%threaded_block & Hu).
    assert (reads_in P b u -> exists b2, live P b2 /\ reads_in P b2 u /\
      forall l', path P' l' b -> exists l, path P l b2 /\ lifts P l' l) as Hsame.
    { intros Hr. exists b. split; [by apply threaded_live|]. split; [done|]. intros l' Hl'. by apply threaded_path. }
    destruct Hu as [Hu|(v & iv & Hvi & Hiv & Hu)].
    + destruct (threaded_use _ _ _ Hv Hu) as [Hu'|(f & ws & x & vs & He & Hf & Hin)]; [apply Hsame; exists bv; by split; [|left]|].
      destruct (forwards_end _ _ _ _ Hf) as (e & (Hle & Hne & Hbe) & Hends). exists e. split_and!; [done| |].
      * eexists. split; [exact Hbe|]. by left.
      * intros l' Hl'. destruct (threaded_path _ _ Hl') as (l & Hp & Hl). destruct (Hends l b Hp) as (l2 & Hp2 & Hsub); [by exists bv, ws|].
        exists l2. split; [done|]. intros y w Hy Hw. destruct (Hsub y Hy) as [?|Hh]; [by apply (Hl y w)|by apply Hh in Hw].
    + apply Hsame. exists bv. split; [done|]. right. exists v, iv. rewrite -Hins. split_and!; [done| |done]. by rewrite -(th_inst _ _ Ht).
  - intros b bv' t args Hb (bv & Hbv & _ & _ & Hv)%threaded_block Hin.
    destruct (threaded_edge _ _ _ _ Hv Hin) as [He|(f & ws & He & Hf)].
    + apply (ssa_edges _ Hssa b bv); [by apply threaded_live|done|done].
    + destruct (forwards_end _ _ _ _ Hf) as (e & (Hle & Hne & Hbe) & _). apply (ssa_edges _ Hssa e _ t args Hle Hbe). by left.
Qed.

(** Running through a chain leaves the environment alone. *)
Lemma forwards_steps f y vs ρ (w : W) : forwards P f y vs -> exists tv u, p_block P y = Some tv /\
  length vs = length (v_params tv) /\ steps_to P (f, ρ, w) u /\ rtc (steps_to P) u (y, bind_env ρ (v_params tv) (ρ <$> vs), w).
Proof.
  induction 1 as [f x vs (Hl & Hne & Hb)|f x ws y vs (Hl & Hne & Hb) Hfw (tv & u & Htv & Hlen & Hs & Hr)].
  - destruct (ssa_edges _ Hssa f _ x vs Hl Hb) as (tv & Htv & Hlen & _); [by left|]. exists tv. eexists. split_and!; [done|done| |constructor].
    rw /steps_to /= Hb /= Htv Hlen Nat.eqb_refl. done.
  - destruct (ssa_edges _ Hssa f _ x ws Hl Hb) as (xv & Hxv & Hlx & _); [by left|].
    assert (v_params xv = []) as Hx by (by inversion Hfw as [? ? ? (_ & _ & Hbx)|? ? ? ? ? (_ & _ & Hbx)]; rw Hbx in Hxv *; injection Hxv as <-).
    exists tv. eexists. split_and!; [done|done| |eapply rtc_l; [exact Hs|exact Hr]].
    rw /steps_to /= Hb /= Hxv Hlx Nat.eqb_refl Hx. done.
Qed.

(** Entering a block along a threaded side. *)
Lemma side_enter ρ (w : W) b bv t vs t' vs' : live P b -> p_block P b = Some bv -> (t, vs) ∈ edges (v_term bv) -> side P t vs t' vs' ->
  exists s u, enter P ρ w (Some (t, vs)) = inl u /\ rtc (steps_to P) u s /\ enter P' ρ w (Some (t', vs')) = inl s.
Proof.
  intros Hl Hb Hin Hs. destruct (ssa_edges _ Hssa b bv t vs Hl Hb Hin) as (tv & Htv & Hlen & _).
  assert (forall x xv us, p_block P x = Some xv -> length us = length (v_params xv) ->
    enter P' ρ w (Some (x, us)) = inl (x, bind_env ρ (v_params xv) (ρ <$> us), w)) as Hent.
  { intros x xv us Hx Hlx. destruct (rs_block_some _ _ threaded_reshaped x xv Hx) as [xv' Hx'].
    destruct (threaded_block x xv' Hx') as (xv2 & Hx2 & Hps & _). assert (xv2 = xv) as -> by congruence.
    by rw /enter Hx' Hps Hlx Nat.eqb_refl. }
  destruct Hs as [[-> ->]|Hf].
  - eexists _, _. split_and!; [|constructor|by apply (Hent t tv)]. by rw /enter Htv Hlen Nat.eqb_refl.
  - destruct (forwards_steps t t' vs' ρ w Hf) as (tv' & u & Htv' & Hlen' & Hs & Hr).
    assert (v_params tv = []) as Hx by (by inversion Hf as [? ? ? (_ & _ & Hbx)|? ? ? ? ? (_ & _ & Hbx)]; rw Hbx in Htv *; injection Htv as <-).
    eexists _, _. split_and!; [|eapply rtc_l; [exact Hs|exact Hr]|by apply Hent].
    rw /enter Htv Hlen Nat.eqb_refl Hx. done.
Qed.

(** The threaded terminator takes the image of the edge the original takes. *)
Lemma threaded_taken ρ t t' : thread_view P t t' ->
  taken_edge P' ρ t' = None /\ taken_edge P ρ t = None \/
  exists x vs x' vs', taken_edge P' ρ t' = Some (x', vs') /\ taken_edge P ρ t = Some (x, vs) /\ side P x vs x' vs'.
Proof.
  destruct 1 as [t|t us t' us' Hs|c t us e ws t' us' e' ws' Hs1 Hs2]; simpl.
  - assert (taken_edge P' ρ t = taken_edge P ρ t) as -> by (destruct t; [done..| |done|done]; simpl; by rw (th_inst _ _ Ht)).
    destruct (taken_edge P ρ t) as [[x vs]|]; [right|by left]. exists x, vs, x, vs. split_and!; [done..|]. by left.
  - right. by exists t, us, t', us'.
  - destruct (ρ c) as [|[]| |]; [by left| |by right; eexists _, _, _, _|by left|by left]. right. by eexists _, _, _, _.
Qed.

Lemma threaded_behaviour : same_behaviour P P'.
Proof.
  intros ρ0 w0 o. apply (simulate P P' (fun s s' => s = s' /\ live P s.1.1)); [|split; [by rw (th_entry _ _ Ht)|apply live_entry]].
  intros [[b ρ] w] s' [<- Hl]. simpl in Hl. destruct (p_block P' b) as [bv'|] eqn:Hb'.
  2:{ simpl. rw Hb'. exists 1. simpl. pose proof (th_block _ _ Ht b) as Hr. rw Hb' in Hr *. by destruct (p_block P b). }
  destruct (threaded_block b bv' Hb') as (bv & Hb & Hps & His & Htv).
  assert (forall vs st, fold_res (exec_value P') st vs = fold_res (exec_value P) st vs) as Hex.
  { intros vs. apply exec_values_inst, (th_inst _ _ Ht). }
  destruct (fold_res (exec_value P) (ρ, w) (v_insts bv)) as [[ρ1 w1]|w1|] eqn:He.
  2,3: (simpl; rw Hb' His Hex He; exists 1; simpl; by rw Hb He).
  assert (step P' (b, ρ, w) = leave P' ρ1 w1 (v_term bv')) as -> by by rw /= Hb' His Hex He.
  assert (step P (b, ρ, w) = leave P ρ1 w1 (v_term bv)) as Hstep by by rw /= Hb He.
  destruct (threaded_taken ρ1 _ _ Htv) as [[Hn' Hn]|(x & vs & x' & vs' & Hx' & Hx & Hs)].
  - assert (leave P' ρ1 w1 (v_term bv') = leave P ρ1 w1 (v_term bv)) as ->.
    { destruct Htv as [t|t us t' us' Hs|c t us e ws t' us' e' ws' Hs1 Hs2]; [|by apply leave_ext; try done; rw Hn' Hn..].
      destruct t; [by apply leave_ext; try done; rw Hn' Hn..|done|done]. }
    rw -Hstep. destruct (step P (b, ρ, w)) as [s|o'] eqn:Hst.
    + symmetry in Hstep. apply leave_inl in Hstep. by rw Hn in Hstep *.
    + by apply reaches_final.
  - destruct (side_enter ρ1 w1 b bv x vs x' vs' Hl Hb) as (s & u & Hu & Hr & Hs'); [by apply (taken_edge_in P ρ1)|done|].
    rw (leave_taken P' _ _ _ _ Hx') Hs'. rw (leave_taken P _ _ _ _ Hx) Hu in Hstep *.
    exists u, s. split; [exact Hstep|]. split; [exact Hr|]. split; [done|].
    destruct s as [[y ρy] wy]. apply enter_inl in Hs' as (args & tv & [= -> ->] & _). simpl.
    destruct Hs as [[-> ->]|Hf].
    + eapply live_flow; [exact Hl|]. exists bv, vs. split; [done|]. by apply (taken_edge_in P ρ1).
    + destruct (forwards_end _ _ _ _ Hf) as (e & He2 & _). eapply live_flow; [apply He2|by eapply forwarder_flow].
Qed.
End Meaning.

(** ** The resolver *)

#[export] Instance ForwardResolution_eq_dec : EqDecision ForwardResolution.
Proof. solve_decision. Defined.

Lemma mark_path_lookup path r res : length (mark_path path r res) = length res /\
  forall j, mark_path path r res !! j = if decide (j ∈ path /\ j < length res) then Some r else res !! j.
Proof.
  rw /mark_path. revert res. induction path as [|b path IH]; intros res; cbn [fold_left].
  - split; [done|]. intros j. destruct (decide _) as [[?%not_elem_of_nil _]|]; done.
  - destruct (IH (<[b := r]> res)) as [Hl Hj]. rw length_insert in Hl Hj *. split; [done|]. intros j. rw Hj.
    destruct (decide (j = b)) as [->|Hne].
    + destruct (decide (b < length res)) as [Hlt|Hge].
      * rw list_lookup_insert_eq //. destruct (decide _) as [_|_]; destruct (decide _) as [_|Hn]; try done; by destruct Hn; split; [left|].
      * rw list_insert_ge; [|lia]. destruct (decide _) as [[_ ?]|_]; [lia|]. by destruct (decide _) as [[_ ?]|_]; [lia|].
    + rw list_lookup_insert_ne //. destruct (decide _) as [[? ?]|H1], (decide _) as [[H2 ?]|H2]; try done.
      * by destruct H2; split; [right|].
      * apply elem_of_cons in H2 as [?|?]; [done|]. by destruct H1.
Qed.

Section Resolver.
Context (fe : list (option Edge)).
Notation n := (length fe).
Context (Htarget : forall b e, fe !! b = Some (Some e) -> target e < n).

Definition is_forwarder (b : BlockId) : Prop := exists e, fe !! b = Some (Some e).
Definition fw_link (b b' : BlockId) : Prop := is_forwarder b' /\ exists e, fe !! b = Some (Some e) /\ target e = b'.
Definition ends_at (b t : BlockId) : Prop := rtc fw_link b t /\ is_forwarder t.
Definition res_ok (res : list ForwardResolution) : Prop :=
  length res = n /\ forall b t, res !! b = Some (Complete t) -> ends_at b t.

Lemma res_ok_mark path r res : res_ok res -> (forall b t, b ∈ path -> r = Complete t -> ends_at b t) -> res_ok (mark_path path r res).
Proof.
  intros [Hl Hr] Hp. destruct (mark_path_lookup path r res) as [Hl' Hj]. split; [congruence|].
  intros b t. rw Hj. destruct (decide _) as [[Hb _]|]; [|apply Hr]. intros [= ->]. by apply Hp.
Qed.

Lemma is_forwarder_lt b : is_forwarder b -> b < n.
Proof. intros [e He]. by eapply lookup_lt_Some. Qed.

(** The path of a resolution: distinct visited forwarders, linked to the
    current one. *)
Lemma resolve_loop_ok fuel : forall res path current stats, res_ok res -> is_forwarder current ->
  NoDup path -> (forall b, b ∈ path -> b < n /\ rtc fw_link b current /\ res !! b = Some Active) -> n < fuel + length path ->
  exists o res' stats', resolve_loop fuel fe res path current stats = Some (o, res', stats') /\ res_ok res' /\
    forall t, o = Some t -> ends_at current t.
Proof.
  induction fuel as [|fuel IH]; intros res path current stats Hres Hcur Hnd Hpath Hfuel.
  { assert (length path <= n); [|lia]. rewrite -(length_seq n 0). apply submseteq_length, NoDup_submseteq; [done|].
    intros b Hb. apply elem_of_seq. destruct (Hpath b Hb). lia. }
  pose proof (is_forwarder_lt _ Hcur) as Hlt. destruct Hres as [Hlen Hr]. cbn [resolve_loop].
  destruct (lookup_lt_is_Some_2 res current) as [r Hcr]; [by rw Hlen|]. rw Hcr. cbn [mbind option_bind].
  assert (forall t, r = Complete t -> ends_at current t) as Hcomplete by (intros t ->; by apply Hr).
  destruct r as [| |t|].
  - pose proof Hcur as [e He]. rw He. cbn [mjoin option_join mbind option_bind].
    destruct (lookup_lt_is_Some_2 fe (target e)) as [nx Hnx]; [by eapply Htarget|]. rw Hnx. cbn [mbind option_bind].
    assert (res_ok (<[current := Active]> res)) as Hres'.
    { split; [by rw length_insert|]. intros b t. destruct (decide (b = current)) as [->|Hne].
      - rw list_lookup_insert_eq; [done|]. by rw Hlen.
      - rw list_lookup_insert_ne //. apply Hr. }
    destruct nx as [e'|].
    + assert (fw_link current (target e)) as Hlink by (split; [by exists e'|by exists e]).
      assert (current ∉ path) as Hncur by (intros Hin; destruct (Hpath _ Hin) as (_ & _ & Ha); rw Hcr in Ha *; done).
      destruct (IH (<[current := Active]> res) (path ++ [current]) (target e) (add_stats stats one_resolved))
        as (o & res' & stats' & Ho & Hres2 & Ht); try done.
      * by exists e'.
      * apply NoDup_app. split_and!; [done| |apply NoDup_singleton]. by intros b Hb ->%list_elem_of_singleton.
      * intros b [Hb| ->%list_elem_of_singleton]%elem_of_app.
        -- destruct (Hpath b Hb) as (? & ? & ?). split_and!; [done|by eapply rtc_r|].
           rw list_lookup_insert_ne //. by intros ->.
        -- split_and!; [done|by apply rtc_once|]. rw list_lookup_insert_eq //. by rw Hlen.
      * rw length_app /=. lia.
      * eexists _, _, _. split; [exact Ho|]. split; [done|]. intros t [Hrt Hft]%Ht. split; [by eapply rtc_l|done].
    + eexists _, _, _. split; [done|]. split.
      * apply res_ok_mark; [done|]. intros b t [Hb| ->%list_elem_of_singleton]%elem_of_app [= <-]; [|by split; [constructor|]].
        split; [by apply Hpath|done].
      * intros t [= <-]. by split; [constructor|].
  - eexists _, _, _. split; [done|]. split; [|done]. by apply res_ok_mark.
  - eexists _, _, _. split; [done|]. destruct (Hcomplete t eq_refl) as [Hrt Hft]. split.
    + apply res_ok_mark; [done|]. intros b t' Hb [= <-]. split; [|done]. etrans; [by apply Hpath|done].
    + by intros t' [= <-].
  - eexists _, _, _. split; [done|]. split; [|done]. by apply res_ok_mark.
Qed.

Lemma resolve_forwarder_ok res start stats : res_ok res -> start < n ->
  exists o res' stats', resolve_forwarder fe res start stats = Some (o, res', stats') /\ res_ok res' /\
    forall t, o = Some t -> ends_at start t.
Proof.
  intros Hres [e He]%lookup_lt_is_Some_2. rw /resolve_forwarder He. cbn [mbind option_bind]. destruct e as [e|].
  - apply resolve_loop_ok; [done|by exists e|constructor|by intros b ?%not_elem_of_nil|simpl; lia].
  - by eexists _, _, _.
Qed.

(** One side of a terminator: the last forwarder's edge, or no change. *)
Lemma thread_side_ok res t stats : res_ok res -> t < n ->
  exists t' fwd res' stats', thread_side fe res t stats = Some (t', fwd, res', stats') /\ res_ok res' /\
    match fwd with
    | Some vs => exists l e, ends_at t l /\ fe !! l = Some (Some e) /\ t' = target e /\ vs = args e
    | None => t' = t
    end.
Proof.
  intros Hres Ht. destruct (resolve_forwarder_ok res t stats Hres Ht) as (o & res' & stats' & Ho & Hres' & Hend).
  rw /thread_side Ho. cbn [mbind option_bind]. destruct o as [l|]; [|by eexists _, _, _, _].
  destruct (Hend l eq_refl) as [Hr [e He]]. rw He. cbn [mjoin option_join mbind option_bind].
  eexists _, _, _, _. split; [done|]. split; [done|]. exists l, e. by split_and!; [split; [|exists e]|..].
Qed.
End Resolver.

(** ** The forwarders of an owner *)

Section Edges.
Context (c0 : Cfg) (Hok0 : cfg_ok c0) (reachable : BitSet).
Context (Hreach : forall b, bitset_contains reachable b = true <-> rtc (flow c0) (entry c0) b).
Notation P0 := (program_of c0).

Lemma forward_edge_of_ok b : b < block_count c0 -> exists o, forward_edge_of c0 reachable b = Some o /\
  forall e, o = Some e <-> forwarder P0 b (target e) (args e).
Proof.
  intros Hb. rw /forward_edge_of. destruct (Nat.eqb_spec b (entry c0)) as [->|Hne]; simpl.
  { exists None. split; [done|]. intros e. split; [done|]. by intros (_ & ? & _). }
  destruct (bitset_contains reachable b) eqn:Hr; simpl.
  2:{ exists None. split; [done|]. intros e. split; [done|]. intros (Hl & _). apply program_live, Hreach in Hl; [|done]. congruence. }
  assert (live P0 b) as Hl by (apply program_live; [done|by apply Hreach]).
  destruct (view_block_total c0 b Hok0 Hb) as [bv Hbv]. pose proof Hbv as (blk & Hblk & Hps & His & Hvt)%view_block_Some.
  assert (forall e, forwarder P0 b (target e) (args e) <-> v_params bv = [] /\ v_insts bv = [] /\ v_term bv = VGoto (target e) (args e)) as Hfw.
  { intros e. rw /forwarder /= Hbv. destruct bv as [ps ins t]. simpl. split.
    - by intros (_ & _ & [= -> -> ->]).
    - by intros (-> & -> & ->). }
  rw /get_block Hblk. cbn [mbind option_bind]. rw -His.
  destruct (bool_decide (v_insts bv = [])) eqn:H1; cbn [negb orb].
  2:{ apply bool_decide_eq_false in H1. exists None. split; [done|]. intros e. rw Hfw. split; [done|]. by intros (_ & ? & _). }
  destruct (bool_decide (params blk = [])) eqn:H2; cbn [negb].
  2:{ apply bool_decide_eq_false in H2. exists None. split; [done|]. intros e. rw Hfw Hps. split; [done|].
      intros (Hn & _). by apply fmap_nil_inv in Hn. }
  apply bool_decide_eq_true in H1, H2. rw H2 /= in Hps *. rw Hps H1 in Hfw *.
  pose proof (block_ok_term _ _ _ (ok_blocks _ Hok0 _ _ Hblk)) as Hto.
  assert (forall o : option Edge, (forall e, o = Some e <-> v_term bv = VGoto (target e) (args e)) ->
    exists o', Some o = Some o' /\ forall e, o' = Some e <-> forwarder P0 b (target e) (args e)) as Hdone.
  { intros o Ho. exists o. split; [done|]. intros e. rw Hfw Ho. split; [done|by intros (_ & _ & ?)]. }
  destruct (terminator blk) as [tg r|cd tb ta eb ea|v cs d|v| |]; simpl in Hvt, Hto |- *.
  - destruct (goto_args c0 r) as [vs|]; [|done]. simpl in Hvt |- *. injection Hvt as Hvt. apply Hdone.
    intros e. rewrite -Hvt. split; [by intros [= <-]|]. intros [= -> ->]. by destruct e.
  - apply Hdone. intros e. destruct (then_args_of c0 ta); [|done]. simpl in Hvt. destruct (else_args_of c0 ea); [|done].
    injection Hvt as Hvt. by rewrite -Hvt.
  - apply Hdone. intros e. destruct (switch_cases_of c0 cs); [|done]. injection Hvt as Hvt. by rewrite -Hvt.
  - apply Hdone. intros e. injection Hvt as Hvt. by rewrite -Hvt.
  - apply Hdone. intros e. injection Hvt as Hvt. by rewrite -Hvt.
  - apply Hdone. intros e. injection Hvt as Hvt. by rewrite -Hvt.
Qed.

Lemma forward_edges_ok : exists fe, mapM (forward_edge_of c0 reachable) (seq 0 (block_count c0)) = Some fe /\
  length fe = block_count c0 /\ forall b e, fe !! b = Some (Some e) <-> forwarder P0 b (target e) (args e).
Proof.
  destruct (mapM_is_Some_2 (forward_edge_of c0 reachable) (seq 0 (block_count c0))) as [fe Hfe].
  { apply Forall_forall. intros b Hb%elem_of_seq. destruct (forward_edge_of_ok b) as (o & Ho & _); [lia|]. by exists o. }
  exists fe. split; [done|]. apply mapM_Some in Hfe. pose proof (Forall2_length _ _ _ Hfe) as Hl. rw length_seq in Hl *.
  split; [done|]. intros b e. split.
  - intros Hb. destruct (Forall2_lookup_r _ _ _ _ _ Hfe Hb) as (b' & Hs & Ho). apply lookup_seq in Hs as [-> Hlt].
    destruct (forward_edge_of_ok _ Hlt) as (o & Ho' & Hiff). apply Hiff. simpl in *. congruence.
  - intros Hf. assert (b < block_count c0) as Hlt by (destruct Hf as (_ & _ & Hv); by eapply view_block_lt).
    destruct (forward_edge_of_ok _ Hlt) as (o & Ho & Hiff). apply Hiff in Hf as ->.
    destruct (Forall2_lookup_l _ _ _ b b Hfe) as (o' & Ho' & Heq); [by apply lookup_seq|]. congruence.
Qed.
End Edges.

(** ** The phase *)

Section Phase.
Context `{Alloc} (c0 : Cfg) (Hok0 : cfg_ok c0) (reachable : BitSet).
Context (Hreach : forall b, bitset_contains reachable b = true <-> rtc (flow c0) (entry c0) b).
Notation P0 := (program_of c0).
Context (fe : list (option Edge)) (Hlen : length fe = block_count c0).
Context (Hfe : forall b e, fe !! b = Some (Some e) <-> forwarder P0 b (target e) (args e)).

Lemma ends_forwards b l e : ends_at fe b l -> fe !! l = Some (Some e) -> forwards P0 b (target e) (args e).
Proof.
  intros [Hr _] Hl. induction Hr as [l|b x l (Hx & eb & Hb & <-) _ IH].
  - apply forwards_last. by apply Hfe.
  - eapply forwards_step; [by apply Hfe in Hb|by apply IH].
Qed.

Lemma forwarder_target_lt b e : fe !! b = Some (Some e) -> target e < length fe.
Proof.
  intros (_ & _ & Hv)%Hfe. apply view_block_Some in Hv as (blk & Hblk & _ & _ & Ht). rw Hlen.
  pose proof (block_ok_term _ _ _ (ok_blocks _ Hok0 _ _ Hblk)) as Hto. simpl in Ht.
  destruct (terminator blk) as [tg r|cd tb ta eb ea|v cs d|v| |]; simpl in Ht, Hto.
  - destruct (goto_args c0 r); [|done]. simpl in Ht. injection Ht as <- _. by destruct Hto.
  - destruct (then_args_of c0 ta); [|done]. simpl in Ht. by destruct (else_args_of c0 ea).
  - by destruct (switch_cases_of c0 cs).
  - done.
  - done.
  - done.
Qed.

Lemma forwards_lt b x vs : forwards P0 b x vs -> x < block_count c0.
Proof.
  induction 1 as [f x vs Hf|]; [|done]. rewrite -Hlen. by apply (forwarder_target_lt f (mkEdge x vs)), Hfe.
Qed.

Definition sides_ok (t : BlockId) (vs : list CfgValue) (t' : BlockId) (fwd : option (list CfgValue)) : Prop :=
  t' < block_count c0 /\ side P0 t vs t' (default vs fwd) /\ (fwd = None -> t' = t).

Lemma thread_side_forwards res t vs stats : res_ok fe res -> t < block_count c0 ->
  exists t' fwd res' stats', thread_side fe res t stats = Some (t', fwd, res', stats') /\ res_ok fe res' /\ sides_ok t vs t' fwd.
Proof.
  intros Hres Ht. destruct (thread_side_ok fe forwarder_target_lt res t stats Hres) as (t' & fwd & res' & stats' & Hs & Hres' & Hf); [by rw Hlen|].
  exists t', fwd, res', stats'. split; [done|]. split; [done|]. destruct fwd as [us|].
  - destruct Hf as (l & e & Hend & Hl & -> & ->). pose proof (ends_forwards _ _ _ Hend Hl) as Hfw.
    split_and!; [by eapply forwards_lt|by right|done].
  - subst t'. split_and!; [done|by left|done].
Qed.

Record thread_inv (i : nat) (st : thread_state) : Prop := {
  ti_evolves : evolves c0 st.1.1;
  ti_res : res_ok fe st.1.2;
  ti_done : forall x, x < i -> option_relation (thread_block_view P0) (fun _ => False) (fun _ => False) (view_block c0 x) (view_block st.1.1 x);
  ti_todo : forall x, i <= x -> view_block st.1.1 x = view_block c0 x;
}.

Lemma thread_inv_step i c c' res res' stats stats' bv tv : thread_inv i (c, res, stats) -> view_block c0 i = Some bv ->
  evolves c c' -> res_ok fe res' -> view_block c' i = Some (mkBlockView (v_params bv) (v_insts bv) tv) ->
  thread_view P0 (v_term bv) tv ->
  (forall x, x <> i -> view_block c' x = view_block c x) -> thread_inv (S i) (c', res', stats').
Proof.
  intros [He Hr Hd Ht] Hb Hev Hres Hi Htv Hx. simpl in *. split; simpl.
  - by eapply evolves_trans.
  - done.
  - intros x Hlt. destruct (decide (x = i)) as [->|Hne]; [by rw Hi Hb|]. rw Hx //. apply Hd. lia.
  - intros x Hle. rw Hx; [|lia]. apply Ht. lia.
Qed.

Lemma thread_inv_same i c res res' stats stats' : i < block_count c0 -> thread_inv i (c, res, stats) -> res_ok fe res' ->
  thread_inv (S i) (c, res', stats').
Proof.
  intros Hi Hinv Hres. destruct (view_block_total c0 i Hok0 Hi) as [bv Hb].
  apply (thread_inv_step i c c res res' stats stats' bv (v_term bv)); try done.
  - apply evolves_refl, (ev_ok _ _ (ti_evolves _ _ Hinv)).
  - rw (ti_todo _ _ Hinv i ltac:(done)) Hb. by destruct bv.
  - constructor.
Qed.

(** Writing the new terminator of block [i]. *)
Lemma thread_inv_put i c c1 res res' stats stats' bv t tv : thread_inv i (c, res, stats) -> view_block c0 i = Some bv ->
  evolves c c1 -> blocks c1 = blocks c -> res_ok fe res' -> term_ok c1 t -> view_term c1 t = Some tv ->
  thread_view P0 (v_term bv) tv ->
  exists c', put_terminator i t c1 = Ok c' /\ thread_inv (S i) (c', res', stats').
Proof.
  intros Hinv Hb He1 Hb1 Hres Hto Hvt Htv. pose proof (ti_evolves _ _ Hinv) as He0. simpl in He0.
  pose proof (ti_todo _ _ Hinv i ltac:(done)) as Hci. simpl in Hci. rw Hb in Hci *.
  destruct (put_terminator_spec i t c1) as (c' & Hp & He2 & Hb2).
  { apply (ev_ok _ _ He1). } { rw (ev_count _ _ He1) (ev_count _ _ He0). by eapply view_block_lt. } { done. }
  exists c'. split; [done|]. destruct (retarget_view c c1 c' i t tv bv) as [Hv Hx]; try done; [apply (ev_ok _ _ He0)|].
  by apply (thread_inv_step i c c' res res' stats stats' bv tv); [| |eapply evolves_trans|..].
Qed.

Lemma thread_block_ok i st : i < block_count c0 -> thread_inv i st ->
  thread_block reachable fe st i <> Panic /\ forall st', thread_block reachable fe st i = Ok st' -> thread_inv (S i) st'.
Proof.
  intros Hi Hinv. destruct st as [[c res] stats]. pose proof (ti_evolves _ _ Hinv) as He0. simpl in He0.
  pose proof (ti_res _ _ Hinv) as Hres. simpl in Hres.
  destruct (view_block_total c0 i Hok0 Hi) as [bv Hb].
  pose proof (ti_todo _ _ Hinv i ltac:(done)) as Hci. simpl in Hci. rw Hb in Hci *.
  pose proof Hci as (blk & Hblk & _ & _ & Hvt)%view_block_Some.
  pose proof (block_ok_term _ _ _ (ok_blocks _ (ev_ok _ _ He0) _ _ Hblk)) as Hto.
  assert (forall st', Ok (E := CfgEditError) (c, res, stats) = Ok st' -> thread_inv (S i) st') as Hskip.
  { intros st' [= <-]. by apply (thread_inv_same i c res res stats). }
  rw /thread_block. destruct (bitset_contains reachable i); cbn [negb]; [|by split].
  rw /get_block Hblk. cbn [expect mbind res_bind].
  destruct (terminator blk) as [tg r|cd tb ta eb ea|v cs d|v| |]; simpl in Hto, Hvt; try (by split).
  - destruct Hto as [Htg Hr]. rw (ev_count _ _ He0) in Htg *. destruct (tg =? i); [by split|].
    rw /goto_args (range_ok_view _ _ Hr) /= in Hvt *. injection Hvt as Hvt.
    destruct (thread_side_forwards res tg (denote (extra c) r) stats Hres Htg) as (t' & fwd & res' & stats' & -> & Hres' & Ht' & Hside & Hno).
    cbn [expect mbind res_bind]. destruct fwd as [vs|].
    + rw /push_goto_args. destruct (edited_push (F := FGotoArgs) vs c (ev_ok _ _ He0)) as [Hp Hq].
      destruct (edited (push_extra vs) c) as [[c1 q]|e|]; cbn [mbind res_bind]; [|by split|done].
      destruct (Hq c1 q eq_refl) as (He1 & Hb1 & Hrq & Hd).
      destruct (thread_inv_put i c c1 res res' stats stats' bv (Goto t' q) (VGoto t' vs)) as (c' & -> & Hinv'); try done.
      * split; [|done]. by rw (ev_count _ _ He1) (ev_count _ _ He0).
      * by rw /= /goto_args (range_ok_view _ _ Hrq) Hd.
      * rewrite -Hvt. by apply tv_goto.
      * cbn [mbind res_bind]. split; [done|]. by intros st' [= <-].
    + split; [done|]. intros st' [= <-]. by apply (thread_inv_same i c res res' stats).
  - destruct Hto as (Htb & Heb & Hta & Hea). rw (ev_count _ _ He0) in Htb Heb *.
    rw /then_args_of /else_args_of (range_ok_view _ _ Hta) (range_ok_view _ _ Hea) /= in Hvt *. injection Hvt as Hvt.
    destruct (thread_side_forwards res tb (denote (extra c) ta) stats Hres Htb) as (t' & fwd & res1 & stats1 & -> & Hres1 & Ht' & Hside & Hno).
    cbn [expect mbind res_bind].
    destruct (thread_side_forwards res1 eb (denote (extra c) ea) stats1 Hres1 Heb) as (e' & fwd' & res2 & stats2 & -> & Hres2 & He' & Hside' & Hno').
    cbn [expect mbind res_bind]. destruct ((t' =? tb) && (e' =? eb)).
    { split; [done|]. intros st' [= <-]. by apply (thread_inv_same i c res res2 stats). }
    assert (forall E (vs : list CfgValue) fwd, match fwd with Some us => Ok us | None => Ok (E := E) vs end = Ok (default vs fwd)) as Hdef.
    { by intros E vs []. }
    rw !Hdef. cbn [mbind res_bind]. rw /push_then_args /push_else_args.
    destruct (edited_push (F := FThenArgs) (default (denote (extra c) ta) fwd) c (ev_ok _ _ He0)) as [Hp Hq].
    destruct (edited (push_extra _) c) as [[c1 q]|e|]; cbn [mbind res_bind]; [|by split|done].
    destruct (Hq c1 q eq_refl) as (He1 & Hb1 & Hrq & Hd).
    destruct (edited_push (F := FElseArgs) (default (denote (extra c) ea) fwd') c1 (ev_ok _ _ He1)) as [Hp' Hq'].
    destruct (edited (push_extra _) c1) as [[c2 q']|e|]; cbn [mbind res_bind]; [|by split|done].
    destruct (Hq' c2 q' eq_refl) as (He2 & Hb2 & Hrq' & Hd').
    destruct (range_ok_extends _ _ _ (ev_extra _ _ He2) Hrq) as [Hrq2 Hd2].
    destruct (thread_inv_put i c c2 res res2 stats stats2 bv (Branch cd t' q e' q')
      (VBranch cd t' (default (denote (extra c) ta) fwd) e' (default (denote (extra c) ea) fwd'))) as (c' & -> & Hinv'); try done.
    + by eapply evolves_trans.
    + by rw Hb2 Hb1.
    + simpl. by rw (ev_count _ _ He2) (ev_count _ _ He1) (ev_count _ _ He0).
    + by rw /= /then_args_of /else_args_of (range_ok_view _ _ Hrq2) (range_ok_view _ _ Hrq') /= Hd' Hd2 Hd.
    + rewrite -Hvt. by apply tv_branch.
    + cbn [mbind res_bind]. split; [done|]. by intros st' [= <-].
Qed.
End Phase.

(** The phase threads edges along forwarders and fails only when a store is
    full. *)
Lemma thread_forwarders_ok `{Alloc} c0 stats : cfg_ok c0 -> entry c0 < block_count c0 ->
  thread_forwarders c0 stats <> Panic /\
  forall c' stats', thread_forwarders c0 stats = Ok (c', stats') ->
    evolves c0 c' /\ threaded (program_of c0) (program_of c').
Proof.
  intros Hok Hentry. rw /thread_forwarders. destruct (reachable_total c0 Hok Hentry) as (reachable & -> & Hreach).
  cbn [expect mbind res_bind]. destruct (forward_edges_ok c0 Hok reachable Hreach) as (fe & -> & Hlen & Hfe).
  cbn [expect mbind res_bind].
  destruct (fold_res_seq (thread_block reachable fe) (thread_inv c0 fe) (block_count c0)
    (c0, replicate (block_count c0) Unseen, stats)) as [Hp Hq].
  - split; [by apply evolves_refl| |lia|done]. split; [by rw length_replicate|]. by intros b t [[=] _]%lookup_replicate.
  - intros i st. by apply thread_block_ok.
  - destruct (fold_res _ _ _) as [[[c1 res1] stats1]|e|]; cbn [mbind res_bind]; [|by split|done].
    split; [done|]. intros c' stats' [= <- <-]. specialize (Hq _ eq_refl) as [He _ Hd Ht]. simpl in *. split; [done|]. split.
    + by apply ev_entry.
    + intros v. by apply evolves_inst.
    + intros b. simpl. destruct (decide (b < block_count c0)) as [Hlt|Hge]; [by apply Hd|]. rw Ht; [|lia].
      destruct (view_block c0 b) eqn:Hb; [|done]. apply view_block_lt in Hb. lia.
Qed.
