(* ===== verification/SimplifyMerge.v ===== *)
(** * Merging: what it means

    The third phase of [Simplify.v], on programs.  A consumed block has one
    incoming edge, the [Goto] of its predecessor; a head runs the blocks of its
    chain one after the other, and uses of a consumed block's parameters name
    the arguments instead.  A parameter and its argument have the same value
    wherever the parameter may be used, because the argument cannot be computed
    again before the consumed block is entered again. *)

From S2P Require Import Prelude IntegerSemantics Types Payload CfgData CfgEdit Worklist Cfg CfgRewrite Classify Dce Eval Peephole Exec Simplify SimplifyFold.
From stdpp Require Import list relations.
Import Machine.

Definition map_term_view (m : CfgValue -> CfgValue) (t : term_view) : term_view :=
  match t with
  | VGoto t args => VGoto t (m <$> args)
  | VBranch c tb ta eb ea => VBranch (m c) tb (m <$> ta) eb (m <$> ea)
  | VSwitch v cs d => VSwitch (m v) cs d
  | VReturn v => VReturn (m <$> v)
  | VStop => VStop
  end.
Definition map_edge (m : CfgValue -> CfgValue) (e : BlockId * list CfgValue) : BlockId * list CfgValue := (e.1, m <$> e.2).
Definition map_inst_view (m : CfgValue -> CfgValue) (iv : inst_view) : inst_view :=
  mkInstView (iv_ty iv) (iv_literal iv) (iv_shape iv) (iv_content iv) (m <$> iv_uses iv).

Section Merge.
Context (P : Program) (Hssa : ssa P).

(** [t] is entered from [u] alone, by a [Goto] with these arguments. *)
Definition sole_entry (u t : BlockId) (args : list CfgValue) : Prop :=
  live P u /\ t <> p_entry P /\ (exists bv, p_block P u = Some bv /\ v_term bv = VGoto t args) /\
  forall u', live P u' -> p_flow P u' t -> u' = u.

Lemma sole_flow u t args : sole_entry u t args -> p_flow P u t.
Proof. intros (_ & _ & (bv & Hb & Ht) & _). exists bv, args. rw Ht. split; [done|by left]. Qed.

Lemma sole_live u t args : sole_entry u t args -> live P t.
Proof. intros Hs. eapply live_flow; [apply Hs|by eapply sole_flow]. Qed.

Lemma sole_dominates u t args : sole_entry u t args -> dominates P u t.
Proof.
  intros (_ & Hne & _ & Hu) l Hl. destruct (path_pred P l t Hl Hne) as (u' & l' & Hf & Hl' & ->).
  assert (u' = u) as -> by (apply Hu; [by exists l'|done]). right. by eapply path_in.
Qed.

Lemma sole_not_dominated u t args : sole_entry u t args -> ~ dominates P t u.
Proof. intros (Hl & Hne & _ & Hu). by apply unique_pred_not_dominated. Qed.

Lemma dominates_antisym a b : live P a -> dominates P a b -> dominates P b a -> a = b.
Proof.
  intros [l Hl] Hab Hba. remember (length l) as k eqn:Hk. revert l Hl Hk. induction k as [k IH] using lt_wf_ind. intros l Hl ->.
  destruct (path_prefix P l a b Hl (Hba l Hl)) as (l1 & Hl1 & _ & Hle1 & [?|Hlt1]); [done|].
  destruct (path_prefix P l1 b a Hl1 (Hab l1 Hl1)) as (l2 & Hl2 & _ & Hle2 & _). apply (IH (length l2)) with (l := l2); [lia|done..].
Qed.

(** An argument of a [sole_entry] is defined above it. *)
Lemma arg_defined u t args a : sole_entry u t args -> a ∈ args -> exists d, defines P d a /\ dominates P d u.
Proof.
  intros (Hl & _ & (bv & Hb & Ht) & _) Ha. apply (ssa_dominates _ Hssa); [done|]. exists bv. split; [done|]. left. by rw Ht.
Qed.

Lemma arg_not_redefined u t args a x : sole_entry u t args -> a ∈ args -> live P x -> dominates P t x -> ~ defines P x a.
Proof.
  intros Hs Ha Hx Htx Hdef. destruct (arg_defined u t args a Hs Ha) as (d & Hd & Hdu).
  assert (d = x) as ->.
  { apply (ssa_once _ Hssa d x a); [|done..]. eapply dominates_live; [apply Hs|exact Hdu]. }
  apply (sole_not_dominated u t args Hs). by eapply dominates_trans.
Qed.

Section Consumed.
Context (C : BlockId -> Prop) (pred : BlockId -> BlockId) (eargs : BlockId -> list CfgValue).
Context (HC : forall t, C t -> sole_entry (pred t) t (eargs t)).

(** A parameter of a consumed block and its argument. *)
Definition sub (p a : CfgValue) : Prop :=
  exists t bv i, C t /\ p_block P t = Some bv /\ v_params bv !! i = Some p /\ eargs t !! i = Some a.

Lemma sub_defines p a : sub p a -> exists t, C t /\ defines P t p /\ a ∈ eargs t.
Proof.
  intros (t & bv & i & Ht & Hb & Hp & Ha). exists t. split_and!; [done| |by eapply list_elem_of_lookup_2].
  exists bv. split; [done|]. left. by eapply list_elem_of_lookup_2.
Qed.

Lemma sub_det p a b : sub p a -> sub p b -> a = b.
Proof.
  intros (t & bv & i & Ht & Hb & Hp & Ha) (t' & bv' & i' & Ht' & Hb' & Hp' & Ha').
  assert (t = t') as <-.
  { apply (ssa_once _ Hssa t t' p); [by eapply sole_live, HC..|exists bv|exists bv']; (split; [done|left; by eapply list_elem_of_lookup_2]). }
  assert (bv' = bv) as -> by congruence. destruct (ssa_params _ Hssa t bv) as [Hnd _]; [by eapply sole_live, HC|done|].
  pose proof (NoDup_lookup _ _ _ _ Hnd Hp Hp') as ->. congruence.
Qed.

Lemma sub_type p a : rtc sub p a -> value_ty P a = value_ty P p.
Proof.
  induction 1 as [|p b a (t & bv & i & Ht & Hb & Hp & Ha) _ IH]; [done|]. rw IH. destruct (HC t Ht) as (Hl & _ & (pv & Hpv & Htm) & _).
  destruct (ssa_edges _ Hssa (pred t) pv t (eargs t) Hl Hpv) as (tv & Htv & _ & Hty); [rw Htm; by left|].
  assert (tv = bv) as -> by congruence. by apply (Hty i).
Qed.

Lemma sub_above p a t : tc sub p a -> live P t -> defines P t p ->
  exists d, live P d /\ defines P d a /\ dominates P d t /\ d <> t.
Proof.
  intros Hs. revert t.
  assert (forall p a t, sub p a -> live P t -> defines P t p -> exists d, live P d /\ defines P d a /\ dominates P d t /\ d <> t) as Hone.
  { intros q b t (t' & Ht' & Hd & Hb)%sub_defines Hl Hdt. pose proof (HC t' Ht') as Hso.
    assert (t' = t) as -> by (apply (ssa_once _ Hssa t' t q); [by eapply sole_live|done..]).
    destruct (arg_defined _ _ _ _ Hso Hb) as (d & Hdb & Hdom). exists d. split_and!; [|done| |].
    - eapply dominates_live; [apply Hso|done].
    - eapply dominates_trans; [exact Hdom|by eapply sole_dominates].
    - intros ->. by apply (sole_not_dominated _ _ _ Hso). }
  induction Hs as [p a Hs|p b a Hs _ IH]; intros t Hl Hd; [by eapply Hone|].
  destruct (Hone p b t Hs Hl Hd) as (d & Hld & Hdb & Hdom & Hne).
  destruct (IH d Hld Hdb) as (d2 & Hl2 & Hda & Hdom2 & Hne2). exists d2. split_and!; [done|done|by eapply dominates_trans|].
  intros ->. apply Hne2. by apply dominates_antisym.
Qed.

Lemma sub_acyclic p : ~ tc sub p p.
Proof.
  intros Hs. assert (exists q, sub p q) as [q Hq].
  { revert Hs. generalize p at 2. intros z [x y Hs|x y z' Hs _]; by exists y. }
  destruct (sub_defines p q Hq) as (t & Ht & Hd & _). assert (live P t) as Hl by by eapply sole_live, HC.
  destruct (sub_above p p t Hs Hl Hd) as (d & Hld & Hdd & _ & Hne). apply Hne. by apply (ssa_once _ Hssa d t p).
Qed.

(** ** Chains *)

(** What a head runs: its own instructions, then the chain's, up to the first
    terminator that does not lead into a consumed block. *)
Inductive chain : BlockId -> list CfgValue -> term_view -> BlockId -> Prop :=
| chain_end b bv : p_block P b = Some bv -> (forall t args, v_term bv = VGoto t args -> ~ C t) ->
    chain b (v_insts bv) (v_term bv) b
| chain_link b bv t args vs tm e : p_block P b = Some bv -> v_term bv = VGoto t args -> C t ->
    chain t vs tm e -> chain b (v_insts bv ++ vs) tm e.

Definition chained (b t : BlockId) : Prop := C t /\ exists bv args, p_block P b = Some bv /\ v_term bv = VGoto t args.

Lemma chain_rtc b vs tm e : chain b vs tm e -> rtc chained b e.
Proof. induction 1 as [|b bv t args vs tm e Hb Ht HCt _ IH]; [constructor|]. eapply rtc_l; [|exact IH]. split; [done|]. by exists bv, args. Qed.

Lemma chained_flow b t : chained b t -> p_flow P b t.
Proof. intros (_ & bv & args & Hb & Ht). exists bv, args. rw Ht. split; [done|by left]. Qed.

Lemma chain_live b vs tm e : chain b vs tm e -> live P b -> live P e.
Proof.
  intros Hc%chain_rtc. induction Hc as [|b x e Hl _ IH]; [done|]. intros Hb. apply IH.
  eapply live_flow; [exact Hb|by apply chained_flow].
Qed.

Lemma chain_term b vs tm e : chain b vs tm e -> exists ev, p_block P e = Some ev /\ tm = v_term ev /\
  forall t args, v_term ev = VGoto t args -> ~ C t.
Proof. induction 1 as [b bv Hb Hn|b bv t args vs tm e Hb Ht HCt _ IH]; [by exists bv|exact IH]. Qed.

Lemma chained_inj b b' t : live P b -> live P b' -> chained b t -> chained b' t -> b = b'.
Proof.
  intros Hl Hl' Hb Hb'. destruct (HC t) as (_ & _ & _ & Hu); [apply Hb|].
  rewrite (Hu b Hl (chained_flow _ _ Hb)). symmetry. by apply Hu, chained_flow.
Qed.

Lemma rtc_chained_live b e : live P b -> rtc chained b e -> live P e.
Proof. intros Hl Hr. induction Hr as [|b x e Hb _ IH]; [done|]. apply IH. eapply live_flow; [exact Hl|by apply chained_flow]. Qed.

(** Two heads whose chains meet are the same. *)
Lemma chained_heads b b' e : live P b -> live P b' -> ~ C b -> ~ C b' -> rtc chained b e -> rtc chained b' e -> b = b'.
Proof.
  intros Hl Hl' Hb Hb' Hr. revert b' Hl' Hb'. revert e Hr.
  refine (rtc_ind_r (fun e => forall b', live P b' -> ~ C b' -> rtc chained b' e -> b = b') b _ _).
  - intros b' Hl' Hb' [?|(x & _ & Hx)]%rtc_inv_r; [done|]. destruct Hb. by destruct Hx.
  - intros y z Hy Hz IH b' Hl' Hb' [->|(x & Hr & Hx)]%rtc_inv_r; [by destruct Hb', Hz|]. apply IH; [done..|].
    assert (y = x) as ->; [|done]. apply (chained_inj y x z); [by apply (rtc_chained_live b y)|by apply (rtc_chained_live b' x)|done..].
Qed.

(** The end of a chain leads only to heads. *)
Lemma chain_exit b vs tm e x args : chain b vs tm e -> live P b -> (x, args) ∈ edges tm -> ~ C x.
Proof.
  intros Hc Hl Hin HCx. pose proof (chain_live _ _ _ _ Hc Hl) as Hle. destruct (chain_term _ _ _ _ Hc) as (ev & He & -> & Hn).
  destruct (HC x HCx) as (_ & _ & (pv & Hp & Ht) & Hu). assert (e = pred x) as -> by (apply Hu; [done|by exists ev, args]).
  assert (pv = ev) as -> by congruence. by apply (Hn x (eargs x)).
Qed.

(** ** Environments *)

Section Env.
Context (m : CfgValue -> CfgValue).
Context (Hm : forall v, rtc sub v (m v) /\ forall a, ~ sub (m v) a).

(** Where a consumed block has been passed, its parameters have their
    arguments' values. *)
Definition settled (ρ : env) (b : BlockId) : Prop :=
  forall t bv i p a, C t -> p_block P t = Some bv -> v_params bv !! i = Some p -> eargs t !! i = Some a ->
    dominates P t b -> ρ p = ρ a.
Definition agree (ρ ρ' : env) : Prop := forall v, (forall a, ~ sub v a) -> ρ' v = ρ v.

Lemma settled_sub ρ b v v' : live P b -> settled ρ b -> rtc sub v v' ->
  (exists d, defines P d v /\ dominates P d b) -> ρ v = ρ v'.
Proof.
  intros Hl Hs Hr. induction Hr as [|v a v' Hva _ IH]; [done|]. intros (d & Hd & Hdom).
  pose proof Hva as (t & bv & i & Ht & Hb & Hp & Ha). pose proof (HC t Ht) as Hso.
  assert (d = t) as ->.
  { apply (ssa_once _ Hssa d t v); [by eapply dominates_live|by eapply sole_live|done|].
    exists bv. split; [done|]. left. by eapply list_elem_of_lookup_2. }
  rw (Hs t bv i v a) //. apply IH. destruct (arg_defined _ _ _ a Hso) as (d' & Hd' & Hdom'); [by eapply list_elem_of_lookup_2|].
  exists d'. split; [done|]. eapply dominates_trans; [exact Hdom'|]. eapply dominates_trans; [by eapply sole_dominates|done].
Qed.

(** An operand has its value under its new name. *)
Lemma operand_value ρ ρ' b u : live P b -> settled ρ b -> agree ρ ρ' -> reads_in P b u -> ρ' (m u) = ρ u.
Proof.
  intros Hl Hs Ha Hu. destruct (Hm u) as [Hr Hn]. rw (Ha (m u)) //. symmetry.
  apply (settled_sub ρ b); [done..|]. by apply (ssa_dominates _ Hssa).
Qed.

Lemma settled_set ρ b bv v r : live P b -> p_block P b = Some bv -> v ∈ v_insts bv -> settled ρ b -> settled (set_env ρ v r) b.
Proof.
  intros Hl Hb Hv Hs t tv i p a Ht Htv Hp Ha Hdom. pose proof (HC t Ht) as Hso. rw !set_env_ne; [by apply (Hs t tv i)| |].
  - intros ->. apply (arg_not_redefined _ _ _ v b Hso); [by eapply list_elem_of_lookup_2|done..|]. exists bv. split; [done|by right].
  - intros ->. assert (t = b) as ->.
    { apply (ssa_once _ Hssa t b v); [by eapply sole_live|done|exists tv|exists bv]; (split; [done|]); [left; by eapply list_elem_of_lookup_2|by right]. }
    assert (tv = bv) as -> by congruence. destruct (ssa_params _ Hssa b bv Hl Hb) as [_ Hn].
    by destruct (Hn v (list_elem_of_lookup_2 _ _ _ Hp)) as [? _].
Qed.

Lemma inst_not_sub b bv v a : live P b -> p_block P b = Some bv -> v ∈ v_insts bv -> ~ sub v a.
Proof.
  intros Hl Hb Hv (t & tv & i & Ht & Htv & Hp & _). assert (t = b) as ->.
  { apply (ssa_once _ Hssa t b v); [by eapply sole_live, HC|done|exists tv|exists bv]; (split; [done|]); [left; by eapply list_elem_of_lookup_2|by right]. }
  assert (tv = bv) as -> by congruence. destruct (ssa_params _ Hssa b bv Hl Hb) as [_ Hn].
  by destruct (Hn v (list_elem_of_lookup_2 _ _ _ Hp)) as [? _].
Qed.

Lemma agree_set ρ ρ' v r : agree ρ ρ' -> agree (set_env ρ v r) (set_env ρ' v r).
Proof. intros Ha u Hu. rw /set_env. destruct (u =? v); [done|by apply Ha]. Qed.

(** Entering a block along an edge. *)
Lemma settled_enter ρ b x xv vs : live P b -> p_flow P b x -> p_block P x = Some xv -> settled ρ b ->
  (forall i p a, C x -> v_params xv !! i = Some p -> eargs x !! i = Some a -> bind_env ρ (v_params xv) vs p = ρ a) ->
  settled (bind_env ρ (v_params xv) vs) x.
Proof.
  intros Hl Hf Hx Hs Hself t tv i p a Ht Htv Hp Ha Hdom. pose proof (HC t Ht) as Hso.
  assert (live P x) as Hlx by by eapply live_flow.
  assert (a ∉ v_params xv) as Hna.
  { intros Hin. apply (arg_not_redefined _ _ _ a x Hso); [by eapply list_elem_of_lookup_2|done..|]. exists xv. split; [done|by left]. }
  rw (bind_env_ne _ _ _ a Hna). destruct (decide (t = x)) as [->|Hne].
  - assert (tv = xv) as -> by congruence. by apply (Hself i).
  - rw bind_env_ne.
    + apply (Hs t tv i); [done..|]. by eapply dominates_step.
    + intros Hin. apply Hne. apply (ssa_once _ Hssa t x p); [by eapply sole_live|done|exists tv|exists xv];
        (split; [done|]); left; [by eapply list_elem_of_lookup_2|done].
Qed.

Lemma agree_bind ρ ρ' ps vs : agree ρ ρ' -> agree (bind_env ρ ps vs) (bind_env ρ' ps vs).
Proof.
  revert ρ ρ' vs. induction ps as [|p ps IH]; intros ρ ρ' vs Ha; [done|]. destruct vs as [|v vs]; [done|].
  rw /bind_env /=. apply (IH _ _ vs). by apply agree_set.
Qed.
End Env.
End Consumed.
End Merge.

(** ** The merged program *)

Record merged (P P' : Program) (m : CfgValue -> CfgValue) (C : BlockId -> Prop) : Prop := {
  mg_entry : p_entry P' = p_entry P;
  mg_inst : forall v, p_inst P' v = map_inst_view m <$> p_inst P v;
  mg_block : forall b bv, live P b -> ~ C b -> p_block P b = Some bv -> exists vs tm e,
    chain P C b vs tm e /\ p_block P' b = Some (mkBlockView (v_params bv) vs (map_term_view m tm));
}.

Section Meaning.
Context `{Interp W} (P P' : Program) (Hssa : ssa P).
Context (C : BlockId -> Prop) (pred : BlockId -> BlockId) (eargs : BlockId -> list CfgValue).
Context (HC : forall t, C t -> sole_entry P (pred t) t (eargs t)).
Context (m : CfgValue -> CfgValue) (Hm : forall v, rtc (sub P C eargs) v (m v) /\ forall a, ~ sub P C eargs (m v) a).
Context (Hmg : merged P P' m C).
Notation settled := (settled P C eargs).
Notation agree := (agree P C eargs).

Lemma operands_value (ρ ρ' : env) (b : BlockId) (us : list CfgValue) : live P b -> settled ρ b -> agree ρ ρ' -> (forall u, u ∈ us -> reads_in P b u) ->
  fmap (M := list) ρ' (fmap (M := list) m us) = fmap (M := list) ρ us.
Proof.
  intros Hl Hs Ha Hu. rewrite -list_fmap_compose. apply list_fmap_ext. intros i u Hi. simpl.
  apply (operand_value P Hssa C pred eargs HC m Hm ρ ρ' b); [done..|]. by apply Hu, list_elem_of_lookup_2 with i.
Qed.

(** Running a block's instructions on both sides. *)
Lemma exec_merged b bv : live P b -> p_block P b = Some bv -> forall vs ρ ρ' (w : W), vs ⊆ v_insts bv -> settled ρ b -> agree ρ ρ' ->
  match fold_res (exec_value P) (ρ, w) vs with
  | Ok (ρ1, w1) => exists ρ1', fold_res (exec_value P') (ρ', w) vs = Ok (ρ1', w1) /\ settled ρ1 b /\ agree ρ1 ρ1'
  | Err w1 => fold_res (exec_value P') (ρ', w) vs = Err w1
  | Panic => fold_res (exec_value P') (ρ', w) vs = Panic
  end.
Proof.
  intros Hl Hb vs. induction vs as [|v vs IH]; intros ρ ρ' w Hsub Hs Ha; [by exists ρ'|].
  assert (v ∈ v_insts bv) as Hv by (apply Hsub; by left). assert (vs ⊆ v_insts bv) as Hsub' by (intros u Hu; apply Hsub; by right).
  assert (forall r w1, match fold_res (exec_value P) (set_env ρ v r, w1) vs with
    | Ok (ρ1, w1') => exists ρ1', fold_res (exec_value P') (set_env ρ' v r, w1) vs = Ok (ρ1', w1') /\ settled ρ1 b /\ agree ρ1 ρ1'
    | Err w1' => fold_res (exec_value P') (set_env ρ' v r, w1) vs = Err w1'
    | Panic => fold_res (exec_value P') (set_env ρ' v r, w1) vs = Panic
    end) as Hgo.
  { intros r w1. apply IH; [done| |by apply agree_set]. by apply (settled_set P Hssa C pred eargs HC ρ b bv). }
  cbn [fold_res]. rw /exec_value (mg_inst _ _ _ _ Hmg v). destruct (p_inst P v) as [iv|] eqn:Hiv; [|done].
  cbn [expect fmap option_fmap option_map mbind res_bind fst snd map_inst_view iv_literal iv_ty iv_shape iv_content iv_uses].
  destruct (iv_literal iv) as [r|]; [apply Hgo|].
  rw (operands_value ρ ρ' b (iv_uses iv) Hl Hs Ha).
  { destruct (prim v (iv_ty iv) (iv_shape iv) (iv_content iv) (ρ <$> iv_uses iv) w) as [w1 [r|]]; [apply Hgo|done]. }
  intros u Hu. exists bv. split; [done|]. right. by exists v, iv.
Qed.

(** The [Goto] into a consumed block. *)
Lemma chained_step b bv t args ρ (w : W) : live P b -> p_block P b = Some bv -> v_term bv = VGoto t args -> C t ->
  settled ρ b -> exists tv, p_block P t = Some tv /\
    leave P ρ w (v_term bv) = inl (t, bind_env ρ (v_params tv) (ρ <$> args), w) /\
    settled (bind_env ρ (v_params tv) (ρ <$> args)) t /\
    forall ρ', agree ρ ρ' -> agree (bind_env ρ (v_params tv) (ρ <$> args)) ρ'.
Proof.
  intros Hl Hb Ht HCt Hs. pose proof (HC t HCt) as Hso. pose proof Hso as (_ & _ & (pv & Hp & Hpt) & Hu).
  assert (p_flow P b t) as Hf by (exists bv, args; rw Ht; split; [done|by left]).
  assert (b = pred t) as -> by by apply Hu. assert (pv = bv) as -> by congruence. assert (eargs t = args) as <- by congruence.
  destruct (ssa_edges _ Hssa _ bv t (eargs t) Hl Hb) as (tv & Htv & Hlen & _); [rw Ht; by left|]. exists tv.
  pose proof (ssa_params _ Hssa t tv (sole_live _ _ _ _ Hso) Htv) as [Hnd _].
  split_and!; [done| | |].
  - rw Ht /leave /enter /= Htv Hlen Nat.eqb_refl. done.
  - apply (settled_enter P Hssa C pred eargs HC ρ (pred t) t tv); [done..|]. intros i p a _ Hpi Hai.
    apply (bind_env_lookup _ _ _ i); [done..|]. by rw list_lookup_fmap Hai.
  - intros ρ' Ha v Hv. rw (Ha v Hv) bind_env_ne //. intros Hin. apply list_elem_of_lookup in Hin as [i Hi].
    destruct (lookup_lt_is_Some_2 (eargs t) i) as [a Hai]; [rw Hlen; by eapply lookup_lt_Some|].
    apply (Hv a). exists t, tv, i. by split_and!.
Qed.

(** Running a chain on both sides: the head's instructions in the merged
    program are the blocks of the chain, one step each, in the original. *)
Lemma chain_merged b vs tm e : chain P C b vs tm e -> live P b -> forall ρ ρ' (w : W), settled ρ b -> agree ρ ρ' ->
  match fold_res (exec_value P') (ρ', w) vs with
  | Ok (ρ1', w1) => exists ev ρ0 w0 ρ1, rtc (steps_to P) (b, ρ, w) (e, ρ0, w0) /\ p_block P e = Some ev /\ tm = v_term ev /\
      fold_res (exec_value P) (ρ0, w0) (v_insts ev) = Ok (ρ1, w1) /\ settled ρ1 e /\ agree ρ1 ρ1'
  | Err w1 => reaches P (b, ρ, w) (Trapped w1)
  | Panic => reaches P (b, ρ, w) Stuck
  end.
Proof.
  induction 1 as [b bv Hb Hn|b bv t args vs tm e Hb Ht HCt Hch IH]; intros Hl ρ ρ' w Hs Ha.
  - pose proof (exec_merged b bv Hl Hb (v_insts bv) ρ ρ' w ltac:(done) Hs Ha) as He.
    destruct (fold_res (exec_value P) (ρ, w) (v_insts bv)) as [[ρ1 w1]|w1|] eqn:Hex.
    + destruct He as (ρ1' & -> & Hs1 & Ha1). exists bv, ρ, w, ρ1. by split_and!; [constructor|..].
    + rw He. apply reaches_final. by rw /= Hb Hex.
    + rw He. apply reaches_final. by rw /= Hb Hex.
  - rw fold_res_app. pose proof (exec_merged b bv Hl Hb (v_insts bv) ρ ρ' w ltac:(done) Hs Ha) as He.
    destruct (fold_res (exec_value P) (ρ, w) (v_insts bv)) as [[ρ1 w1]|w1|] eqn:Hex.
    2,3: (rw He; apply reaches_final; by rw /= Hb Hex).
    destruct He as (ρ1' & -> & Hs1 & Ha1). cbn [mbind res_bind].
    destruct (chained_step b bv t args ρ1 w1 Hl Hb Ht HCt Hs1) as (tv & Htv & Hlv & Hs2 & Ha2).
    assert (steps_to P (b, ρ, w) (t, bind_env ρ1 (v_params tv) (ρ1 <$> args), w1)) as Hstep by by rw /steps_to /= Hb Hex.
    specialize (IH (sole_live _ _ _ _ (HC t HCt)) _ ρ1' w1 Hs2 (Ha2 _ Ha1)).
    destruct (fold_res (exec_value P') (ρ1', w1) vs) as [[ρ2' w2]|w2|].
    + destruct IH as (ev & ρ0 & w0 & ρ2 & Hr & IH). exists ev, ρ0, w0, ρ2. split; [by eapply rtc_l|exact IH].
    + destruct IH as [k Hk]. eapply run_steps; [by apply rtc_once|exact Hk].
    + destruct IH as [k Hk]. eapply run_steps; [by apply rtc_once|exact Hk].
Qed.

Lemma merged_taken (ρ ρ' : env) e ev : live P e -> settled ρ e -> agree ρ ρ' -> p_block P e = Some ev ->
  taken_edge P' ρ' (map_term_view m (v_term ev)) = map_edge m <$> taken_edge P ρ (v_term ev).
Proof.
  intros Hl Hs Ha He.
  assert (forall u, u ∈ term_uses (v_term ev) -> ρ' (m u) = ρ u) as Hu.
  { intros u Hu. apply (operand_value P Hssa C pred eargs HC m Hm ρ ρ' e); [done..|]. exists ev. split; [done|by left]. }
  destruct (v_term ev) as [tg a|c tb ta eb ea|v cs d|v|]; simpl; try done.
  - rw Hu; [|by left]. by destruct (ρ c) as [|[]| |].
  - assert (value_ty P (m v) = value_ty P v) as Hty by by apply (sub_type P Hssa C pred eargs HC), Hm.
    rw /value_ty in Hty *. rw (mg_inst _ _ _ _ Hmg (m v)) Hu; [|by left].
    destruct (p_inst P (m v)) as [iv'|], (p_inst P v) as [iv|]; simplify_eq/=; [|done]. rw Hty. by destruct (word_of (ρ v)).
Qed.

Lemma merged_enter (ρ ρ' : env) (w : W) b x (args : list CfgValue) : live P b -> p_flow P b x -> ~ C x -> settled ρ b -> agree ρ ρ' ->
  fmap (M := list) ρ' (fmap (M := list) m args) = fmap (M := list) ρ args -> edge_fits P x args ->
  exists ρ1 ρ1', enter P ρ w (Some (x, args)) = inl (x, ρ1, w) /\ enter P' ρ' w (Some (x, m <$> args)) = inl (x, ρ1', w) /\
    settled ρ1 x /\ agree ρ1 ρ1'.
Proof.
  intros Hl Hf Hx Hs Ha Hv (xv & Hxv & Hlen & _).
  destruct (mg_block _ _ _ _ Hmg x xv) as (vs & tm & e & _ & Hx'); [by eapply live_flow|done|done|].
  exists (bind_env ρ (v_params xv) (ρ <$> args)), (bind_env ρ' (v_params xv) (ρ <$> args)). split_and!.
  - by rw /enter Hxv Hlen Nat.eqb_refl.
  - rw /enter Hx' length_fmap /= Hlen Nat.eqb_refl Hv. done.
  - by apply (settled_enter P Hssa C pred eargs HC ρ b).
  - by apply agree_bind.
Qed.

Lemma merged_behaviour : same_behaviour P P'.
Proof.
  intros ρ0 w0 o. apply (simulate P P' (fun s s' => s.1.1 = s'.1.1 /\ s.2 = s'.2 /\ live P s.1.1 /\ ~ C s.1.1 /\
    settled s.1.2 s.1.1 /\ agree s.1.2 s'.1.2)).
  - intros [[b ρ] w] [[b' ρ'] w'] (Hb & Hw & Hl & HnC & Hs & Ha). simpl in *. subst b' w'.
    assert (exists bv, p_block P b = Some bv) as [bv Hb].
    { destruct Hl as [l Hp]. destruct Hp as [|l u v Hp (ub & args & Hub & Hin)]; [apply (ssa_entry _ Hssa)|].
      destruct (ssa_edges _ Hssa u ub v args) as (tv & ? & _); [by exists l|done|done|by exists tv]. }
    destruct (mg_block _ _ _ _ Hmg b bv Hl HnC Hb) as (vs & tm & e & Hch & Hb').
    rw Hb' /=. pose proof (chain_merged b vs tm e Hch Hl ρ ρ' w Hs Ha) as Hrun.
    destruct (fold_res (exec_value P') (ρ', w) vs) as [[ρ1' w1]|w1|]; [|done..].
    destruct Hrun as (ev & ρe & we & ρ1 & Hr & He & -> & Hex & Hs1 & Ha1). pose proof (chain_live _ _ _ _ _ _ Hch Hl) as Hle.
    assert (step P (e, ρe, we) = leave P ρ1 w1 (v_term ev)) as Hstep by by rw /= He Hex.
    pose proof (merged_taken ρ1 ρ1' e ev Hle Hs1 Ha1 He) as Htk.
    assert (forall u, u ∈ term_uses (v_term ev) -> reads_in P e u) as Huse by (intros u Hu; exists ev; split; [done|by left]).
    assert (forall s o, step P s = inr o -> rtc (steps_to P) (b, ρ, w) s -> reaches P (b, ρ, w) o) as Hfin.
    { intros s o' Hso Hrs. destruct (reaches_final P s o' Hso) as [k Hk]. by eapply run_steps. }
    destruct (taken_edge P ρ1 (v_term ev)) as [[x args]|] eqn:Hx.
    + pose proof (taken_edge_in P ρ1 _ _ Hx) as Hin.
      destruct (merged_enter ρ1 ρ1' w1 e x args Hle) as (ρ2 & ρ2' & H1 & H2 & Hs2 & Ha2); [by exists ev, args| |done|done| | |].
      * by apply (chain_exit P C pred eargs HC b vs (v_term ev) e x args).
      * apply (operands_value ρ1 ρ1' e); [done..|]. intros u Hu. apply Huse. by eapply edges_uses.
      * by apply (ssa_edges _ Hssa e ev).
      * rw (leave_taken P' _ _ _ _ Htk) /= in H2 |- *. rw H2. rw (leave_taken P _ _ _ _ Hx) H1 in Hstep *.
        assert (tc (steps_to P) (b, ρ, w) (x, ρ2, w1)) as Htc by (eapply tc_rtc_l; [exact Hr|by apply tc_once]).
        destruct (tc_first _ _ _ Htc) as (u & Hu & Hur). exists u, (x, ρ2, w1). split_and!; try done.
        -- eapply live_flow; [exact Hle|by exists ev, args].
        -- by apply (chain_exit P C pred eargs HC b vs (v_term ev) e x args).
    + assert ((exists v, v_term ev = VReturn v) \/ forall v, v_term ev <> VReturn v) as [[v Hterm]|Hno].
      { destruct (v_term ev); [by right..| |by right]. left. by eexists. }
      * rw Hterm /=. apply (Hfin (e, ρe, we)); [|done]. rw Hstep Hterm /=. do 2 f_equal. destruct v as [v|]; [|done]. simpl. f_equal. symmetry.
        apply (operand_value P Hssa C pred eargs HC m Hm ρ1 ρ1' e); [done..|]. apply Huse. rw Hterm. by left.
      * rw (leave_none P' ρ1'); [|destruct (v_term ev) as [| | |v|]; try done; by destruct (Hno v)|done]. apply (Hfin (e, ρe, we)); [|done]. by rw Hstep leave_none.
  - split_and!; try done; simpl.
    + by rw (mg_entry _ _ _ _ Hmg).
    + apply live_entry.
    + intros HCe. by destruct (HC _ HCe) as (_ & ? & _).
    + intros t bv i p a Ht Hb Hp Ha Hdom. exfalso. destruct (HC t Ht) as (_ & Hne & _). apply Hne.
      apply list_elem_of_singleton. apply Hdom. constructor.
Qed.
End Meaning.
