(* ===== verification/SimplifyChains.v ===== *)
(** * Merging: the code

    [merge_chains] of [Simplify.v] builds the merged program of
    [SimplifyMerge]: every head holds its chain, the substitution table is the
    relation between consumed parameters and their arguments, its chains end,
    and the one sweep renames every use. *)

From S2P Require Import Prelude Dominators DomDfs IntegerSemantics Types Payload CfgData CfgEdit Worklist Cfg CfgRewrite Classify Dce Eval ConstFold Peephole Identities Exec Simplify SimplifyFold SimplifyThread SimplifyMerge.
From stdpp Require Import list relations.
Import Machine.

(** ** Chains grow *)

Section Grow.
Context (P : Program) (C C' : BlockId -> Prop) (u tgt : BlockId) (vs0 : list CfgValue).
Context (HC' : forall t, C' t <-> C t \/ t = tgt) (Hsole : sole_entry P u tgt vs0).

Lemma chain_grow b vs tm e : chain P C b vs tm e -> live P b -> e <> u -> chain P C' b vs tm e.
Proof using HC' Hsole.
  induction 1 as [b bv Hb Hn|b bv t args vs tm e Hb Ht HCt Hch IH]; intros Hl Hne.
  - apply chain_end; [done|]. intros t args Ht [HCt| ->]%HC'; [by apply (Hn t args)|]. apply Hne.
    destruct Hsole as (_ & _ & _ & Hu). apply Hu; [done|]. exists bv, args. rw Ht. split; [done|by left].
  - apply (chain_link P C' b bv t args); [done..|apply HC'; by left|]. apply IH; [|done].
    eapply live_flow; [exact Hl|]. exists bv, args. rw Ht. split; [done|by left].
Qed.

Lemma chain_append b vs tm e vs2 tm2 e2 args : chain P C b vs tm e -> tm = VGoto tgt args -> chain P C' tgt vs2 tm2 e2 ->
  chain P C' b (vs ++ vs2) tm2 e2.
Proof using HC'.
  induction 1 as [b bv Hb Hn|b bv t args' vs tm e Hb Ht HCt Hch IH]; intros Htm H2.
  - apply (chain_link P C' b bv tgt args); [done|done|apply HC'; by right|done].
  - rewrite -app_assoc. apply (chain_link P C' b bv t args'); [done..|apply HC'; by left|by apply IH].
Qed.
End Grow.

(** ** Substitution chains end *)

Section Acyclic.
Context (alias : list (option CfgValue)) (Hclosed : forall v t, link alias v t -> t < length alias).
Context (Hacyc : forall v, ~ tc (link alias) v v).

Lemma resolve_fuel_acyclic fuel : forall seen v, v < length alias -> NoDup seen ->
  Forall (fun u => u < length alias /\ tc (link alias) u v) seen -> length alias <= length seen + fuel ->
  exists w, resolve fuel alias v = Some w /\ rtc (link alias) v w /\ Identities.root alias w.
Proof using Hclosed Hacyc.
  induction fuel as [|fuel IH]; intros seen v Hv Hnd Hseen Hfuel;
    destruct (lookup_lt_is_Some_2 alias v Hv) as [[t|] Ht]; simpl; rw Ht /=; try (by exists v; split_and!; [|constructor|]).
  - assert (length (v :: seen) <= length alias); [|simpl in *; lia]. apply seen_bound.
    + constructor; [|done]. intros Hin. rewrite Forall_forall in Hseen. destruct (Hseen v Hin) as [_ Hc]. by apply (Hacyc v).
    + constructor; [done|]. eapply Forall_impl; [exact Hseen|]. by intros u [? _].
  - destruct (IH (v :: seen) t) as (w & Hw & Hr & Hroot).
    + by eapply Hclosed.
    + constructor; [|done]. intros Hin. rewrite Forall_forall in Hseen. destruct (Hseen v Hin) as [_ Hc]. by apply (Hacyc v).
    + constructor; [split; [done|by apply tc_once]|]. eapply Forall_impl; [exact Hseen|].
      intros x [? Hx]. split; [done|]. eapply tc_r; [exact Hx|done].
    + simpl. lia.
    + exists w. split_and!; [done| |done]. by eapply rtc_l.
Qed.

Lemma resolve_acyclic v : v < length alias ->
  exists w, resolve (length alias) alias v = Some w /\ rtc (link alias) v w /\ Identities.root alias w.
Proof using Hclosed Hacyc. intros Hv. apply (resolve_fuel_acyclic _ []); [done|constructor..|simpl; lia]. Qed.
End Acyclic.

(** ** Tables *)

Lemma record_substs es : forall s, NoDup es.*1 -> Forall (fun e => e.1 < length s) es ->
  exists s', fold_opt record_subst s es = Some s' /\ length s' = length s /\
    (forall p a, (p, a) ∈ es -> s' !! p = Some (Some a)) /\ forall p, p ∉ es.*1 -> s' !! p = s !! p.
Proof.
  induction es as [|[p a] es IH]; intros s Hnd Hf.
  - exists s. split_and!; [done|done|by intros p a ?%not_elem_of_nil|done].
  - rw fmap_cons in Hnd *. apply NoDup_cons in Hnd as [Hn Hnd]. apply Forall_cons in Hf as [Hp Hf]. simpl in Hp, Hn.
    cbn [fold_opt]. destruct (lookup_lt_is_Some_2 s p Hp) as [o Ho].
    assert (record_subst s (p, a) = Some (<[p := Some a]> s)) as -> by by rw /record_subst /= Ho. cbn [mbind option_bind].
    destruct (IH (<[p := Some a]> s) Hnd) as (s' & Hs' & Hl & H1 & H2); [by rw length_insert|].
    exists s'. split; [exact Hs'|]. rw length_insert in Hl *. split; [done|]. split.
    + intros q b [[= -> ->]|Hin]%elem_of_cons; [|by apply H1]. rw H2 //. by apply list_lookup_insert_eq.
    + intros q [Hne Hq]%not_elem_of_cons. rw H2 // list_lookup_insert_ne //.
Qed.

Definition unconsumed (l : list bool) : nat := length (filter (fun b => b = false) l).

Lemma unconsumed_insert l i : l !! i = Some false -> unconsumed l = S (unconsumed (<[i := true]> l)).
Proof.
  intros Hi. rewrite /unconsumed (insert_take_drop l i true); [|by eapply lookup_lt_Some].
  rewrite -{1}(take_drop_middle l i false Hi) !filter_app !filter_cons !length_app. simpl. lia.
Qed.

Lemma unconsumed_replicate k : unconsumed (replicate k false) = k.
Proof. induction k as [|k IH]; [done|]. rewrite -{2}IH. done. Qed.

Lemma unconsumed_all l i : unconsumed l = length l -> l !! i <> Some true.
Proof.
  intros Hu Hi. pose proof Hu as Hu2. rewrite /unconsumed -{1}(take_drop_middle l i true Hi) filter_app filter_cons length_app in Hu2.
  simpl in Hu2. rewrite -{3}(take_drop_middle l i true Hi) length_app /= in Hu2.
  pose proof (length_filter (fun b => b = false) (take i l)). pose proof (length_filter (fun b => b = false) (drop (S i) l)). lia.
Qed.

Lemma update_block_alter b f c : b < block_count c -> update_block b f c = Some (set_blocks (alter f b (blocks c)) c).
Proof.
  intros [blk Hb]%lookup_lt_is_Some_2. rw /update_block Hb /=. do 2 f_equal. apply list_eq. intros i.
  destruct (decide (b = i)) as [->|Hne].
  - rw list_lookup_insert_eq; [|by eapply lookup_lt_Some]. by rw list_lookup_alter_eq Hb.
  - by rw list_lookup_insert_ne // list_lookup_alter_ne.
Qed.

(** ** Counting edges *)

Definition occurrences (t : BlockId) (l : list BlockId) : nat := length (filter (fun x => x = t) l).

Lemma count_edges_spec ts : forall inc, Forall (fun t => t < length inc) ts ->
  exists inc', fold_opt count_edge inc ts = Some inc' /\ length inc' = length inc /\
    forall t k, inc !! t = Some k -> inc' !! t = Some (k + occurrences t ts).
Proof.
  induction ts as [|x ts IH]; intros inc Hf.
  - exists inc. split_and!; [done|done|]. intros t k ->. f_equal. rw /occurrences /=. lia.
  - apply Forall_cons in Hf as [Hx Hf]. cbn [fold_opt]. destruct (lookup_lt_is_Some_2 inc x Hx) as [n Hn].
    assert (count_edge inc x = Some (<[x := S n]> inc)) as -> by by rw /count_edge Hn. cbn [mbind option_bind]. destruct (IH (<[x := S n]> inc)) as (inc' & -> & Hl & Hk); [by rw length_insert|].
    exists inc'. rw length_insert in Hl *. split_and!; [done|done|]. intros t k Ht. rw /occurrences filter_cons.
    destruct (decide (x = t)) as [->|Hne].
    + rw (Hk t (S n)); [|by apply list_lookup_insert_eq]. assert (k = n) as -> by congruence. f_equal. simpl. rw /occurrences. lia.
    + apply Hk. by rw list_lookup_insert_ne.
Qed.

Lemma sum_two (l : list nat) i j a b : i <> j -> l !! i = Some a -> l !! j = Some b -> a + b <= sum_list l.
Proof.
  revert i j a b. induction l as [|x l IH]; intros i j a b Hne Hi Hj; [done|].
  assert (forall k y, l !! k = Some y -> y <= sum_list l) as Hone.
  { clear. induction l as [|x l IH]; intros k y Hk; [done|]. destruct k as [|k]; simpl in *; [injection Hk as ->; lia|].
    specialize (IH k y Hk). lia. }
  destruct i as [|i], j as [|j]; simpl in *; [done|injection Hi as ->; specialize (Hone _ _ Hj); lia|
    injection Hj as ->; specialize (Hone _ _ Hi); lia|]. assert (a + b <= sum_list l); [|lia]. apply (IH i j); [congruence|done..].
Qed.

Section Code.
Context (c0 : Cfg) (Hok0 : cfg_ok c0) (Hentry : entry c0 < block_count c0) (reachable : BitSet).
Context (Hreach : forall b, bitset_contains reachable b = true <-> rtc (flow c0) (entry c0) b).
Notation P0 := (program_of c0).
Notation n := (block_count c0).

Lemma live_reach b : live P0 b <-> bitset_contains reachable b = true.
Proof. by rw program_live // Hreach. Qed.

Lemma live_block_lt b : live P0 b -> b < n.
Proof.
  intros [l Hl]. destruct Hl as [|l u v _ Hf]; [done|]. apply program_flow, (flow_next c0 Hok0) in Hf as [Hu Hv]; [|done].
  destruct (next_spec c0 Hok0 u Hu) as [_ Hall]. rewrite Forall_forall in Hall. by apply Hall.
Qed.

Lemma flow_in_next u v : p_flow P0 u v -> v ∈ next c0 u.
Proof. intros Hf%program_flow; [|done]. by apply (flow_next c0 Hok0) in Hf as [_ ?]. Qed.

Lemma count_term_next inc b : b < n -> bitset_contains reachable b = true ->
  count_term c0 reachable inc b = fold_opt count_edge inc (next c0 b).
Proof.
  intros Hb Hr. rw /count_term Hr /=. destruct (next_spec c0 Hok0 b Hb) as [Hn _].
  rw /visit_successors in Hn *. destruct (get_block c0 b) as [blk|]; [|done]. cbn [mbind option_bind] in Hn |- *.
  destruct (terminator blk) as [tg r|cd tb ta eb ea|v cs d|v| |]; simpl in Hn.
  - injection Hn as <-. cbn [fold_opt]. by destruct (count_edge inc tg).
  - injection Hn as <-. cbn [fold_opt]. destruct (count_edge inc tb) as [i1|]; [|done]. cbn [mbind option_bind]. by destruct (count_edge i1 eb).
  - destruct (switch_cases_of c0 cs) as [l|]; [|done]. cbn [mbind option_bind] in Hn |- *. injection Hn as <-.
    rw fold_opt_app fold_opt_map. destruct (fold_opt _ inc l) as [i1|]; [|done]. cbn [mbind option_bind fold_opt]. by destruct (count_edge i1 d).
  - by injection Hn as <-.
  - by injection Hn as <-.
  - by injection Hn as <-.
Qed.

Definition edges_into (t b : BlockId) : nat := if bitset_contains reachable b then occurrences t (next c0 b) else 0.

Lemma incoming_ok : exists incoming, fold_opt (count_term c0 reachable) (replicate n 0) (seq 0 n) = Some incoming /\
  length incoming = n /\
  forall t u u', incoming !! t = Some 1 -> live P0 u -> live P0 u' -> p_flow P0 u t -> p_flow P0 u' t -> u = u'.
Proof.
  destruct (fold_seq_total (count_term c0 reachable) (fun i inc => length inc = n /\
      forall t, t < n -> inc !! t = Some (sum_list (edges_into t <$> seq 0 i))) n (replicate n 0)) as (inc & Hinc & Hl & Hs).
  - split; [by rw length_replicate|]. intros t Ht. by apply lookup_replicate_2.
  - intros i inc Hi [Hl Hs]. destruct (bitset_contains reachable i) eqn:Hr.
    + rw (count_term_next _ _ Hi Hr). destruct (next_spec c0 Hok0 i Hi) as [_ Hall].
      destruct (count_edges_spec (next c0 i) inc) as (inc' & Hc & Hl' & Hk); [by rw Hl|]. exists inc'. split; [done|].
      split; [congruence|]. intros t Ht. rw (Hk t _ (Hs t Ht)) seq_S fmap_app sum_list_app /= /edges_into Hr. f_equal. lia.
    + exists inc. split; [by rw /count_term Hr|]. split; [done|]. intros t Ht. rw (Hs t Ht) seq_S fmap_app sum_list_app /= /edges_into Hr.
      f_equal. lia.
  - exists inc. split_and!; [done..|]. intros t u u' H1 Hu Hu' Hf Hf'. destruct (decide (u = u')) as [|Hne]; [done|]. exfalso.
    assert (forall x, live P0 x -> p_flow P0 x t -> x < n /\ (edges_into t <$> seq 0 n) !! x = Some (edges_into t x) /\ 1 <= edges_into t x) as Hx.
    { intros x Hx Hfx. pose proof (live_block_lt x Hx) as Hlt. split_and!; [done| |].
      - rw list_lookup_fmap (proj2 (lookup_seq 0 n x x)) //.
      - rw /edges_into (proj1 (live_reach x) Hx). apply flow_in_next, list_elem_of_lookup in Hfx as [k Hk].
        rewrite /occurrences -(take_drop_middle _ _ _ Hk) filter_app filter_cons length_app decide_True //=. lia. }
    assert (t < n) as Ht by by apply live_block_lt, (live_flow P0 u t).
    destruct (Hx u Hu Hf) as (_ & Hlu & Hou), (Hx u' Hu' Hf') as (_ & Hlu' & Hou').
    pose proof (sum_two _ _ _ _ _ Hne Hlu Hlu'). rw (Hs t Ht) in H1 *. injection H1 as H1. lia.
Qed.

(** The unique predecessor and its arguments, read off the graph. *)
Definition goto_of (u : BlockId) : option (BlockId * list CfgValue) :=
  bv ← view_block c0 u; match v_term bv with VGoto t a => Some (t, a) | _ => None end.
Definition pred_of (t : BlockId) : BlockId :=
  match list_find (fun u => bitset_contains reachable u = true /\ fst <$> goto_of u = Some t) (seq 0 n) with
  | Some (_, u) => u
  | None => 0
  end.
Definition eargs_of (t : BlockId) : list CfgValue := match goto_of (pred_of t) with Some (_, a) => a | None => [] end.

Lemma sole_entry_of u t vs : sole_entry P0 u t vs -> pred_of t = u /\ eargs_of t = vs.
Proof.
  intros (Hl & _ & (bv & Hb & Ht) & Hu).
  assert (goto_of u = Some (t, vs)) as Hg by (simpl in Hb; by rw /goto_of Hb /= Ht).
  assert (pred_of t = u) as Hp; [|by rw /eargs_of Hp Hg].
  rw /pred_of. destruct (list_find _ (seq 0 n)) as [[i u']|] eqn:Hf.
  - apply list_find_Some in Hf as (_ & [Hr Hg'] & _). apply Hu; [by apply live_reach|]. rw /goto_of in Hg' *.
    destruct (view_block c0 u') as [bv'|] eqn:Hb'; [|done]. simpl in Hg'. exists bv'. destruct (v_term bv') as [t' a| | | |] eqn:Ht'; try done.
    injection Hg' as ->. exists a. split; [done|by left].
  - exfalso. apply list_find_None in Hf. rewrite Forall_forall in Hf. apply (Hf u).
    + apply elem_of_seq. pose proof (live_block_lt u Hl). lia.
    + split; [by apply live_reach|by rw Hg].
Qed.

(** ** The invariant *)

Context (Hssa : ssa P0).
Context (incoming : list nat) (Hinlen : length incoming = n).
Context (Hin1 : forall t u u', incoming !! t = Some 1 -> live P0 u -> live P0 u' -> p_flow P0 u t -> p_flow P0 u' t -> u = u').
Context (merged0 : nat).

Definition taken (st : merge_state) (t : BlockId) : Prop := m_consumed st !! t = Some true.
Notation substitutes st := (sub P0 (taken st) eargs_of).

Record merge_inv (st : merge_state) : Prop := {
  mi_evolves : evolves c0 (m_cfg st);
  mi_len : length (m_consumed st) = n;
  mi_slen : length (m_subst st) = value_count c0;
  mi_sole : forall t, taken st t -> sole_entry P0 (pred_of t) t (eargs_of t);
  mi_subst : forall p a, m_subst st !! p = Some (Some a) <-> substitutes st p a;
  mi_head : forall b bv, live P0 b -> ~ taken st b -> view_block c0 b = Some bv ->
    exists vs tm e, chain P0 (taken st) b vs tm e /\ view_block (m_cfg st) b = Some (mkBlockView (v_params bv) vs tm);
  mi_term : forall b blk, blocks (m_cfg st) !! b = Some blk ->
    terminator blk = Unreachable \/ exists b0 blk0, blocks c0 !! b0 = Some blk0 /\ terminator blk = terminator blk0;
  mi_count : blocks_merged (m_stats st) + unconsumed (m_consumed st) = merged0 + n;
}.

(** The owner after [head] absorbed [tgt]. *)
Definition husk (b : BasicBlock) : BasicBlock := mkBlock (block_id b) [] [] Unreachable.
Definition joined (tb hb : BasicBlock) : BasicBlock := mkBlock (block_id hb) (params hb) (insts hb ++ insts tb) (terminator tb).
Definition absorbed (c : Cfg) (head tgt : BlockId) (tb : BasicBlock) : Cfg :=
  set_blocks (alter (joined tb) head (alter husk tgt (blocks c))) c.

Lemma absorbed_lookup c head tgt tb hb b : head <> tgt -> blocks c !! head = Some hb -> blocks c !! tgt = Some tb ->
  blocks (absorbed c head tgt tb) !! b =
    if decide (b = head) then Some (joined tb hb) else if decide (b = tgt) then Some (husk tb) else blocks c !! b.
Proof.
  intros Hne Hh Ht. simpl. destruct (decide (b = head)) as [->|Hbh].
  - by rw list_lookup_alter_eq list_lookup_alter_ne // Hh.
  - rw list_lookup_alter_ne //. destruct (decide (b = tgt)) as [->|Hbt]; [by rw list_lookup_alter_eq Ht|by rw list_lookup_alter_ne].
Qed.

Lemma absorbed_evolves c head tgt tb hb : cfg_ok c -> head <> tgt -> blocks c !! head = Some hb -> blocks c !! tgt = Some tb ->
  evolves c (absorbed c head tgt tb).
Proof.
  intros Hok Hne Hh Ht.
  assert (block_count (absorbed c head tgt tb) = block_count c) as Hn by by rw /block_count /= !length_alter.
  split; try done. pose proof Hok as [Hb Hi H1 H2 H3]. split; try done; [|by rw Hn].
  intros b blk. rw (absorbed_lookup c head tgt tb hb) //. pose proof (Hb _ _ Hh) as [Q1 Q2 Q3 Q4]. pose proof (Hb _ _ Ht) as [R1 R2 R3 R4].
  assert (forall t, term_ok c t -> term_ok (absorbed c head tgt tb) t) as Hto.
  { intros t. destruct t; simpl; rw ?Hn //. }
  destruct (decide (b = head)) as [->|Hbh].
  - intros [= <-]. split; simpl; [done| |done|by apply Hto]. apply Forall_app. by split.
  - destruct (decide (b = tgt)) as [->|Hbt]; [intros [= <-]; by split|]. intros Hlk. destruct (Hb _ _ Hlk) as [? ? ? ?].
    split; [done|done|done|by apply Hto].
Qed.

Lemma absorb_runs head tgt range st vs hb tb : cfg_ok (m_cfg st) -> head <> tgt ->
  blocks (m_cfg st) !! head = Some hb -> blocks (m_cfg st) !! tgt = Some tb ->
  goto_args (m_cfg st) range = Some vs -> length (params tb) = length vs -> NoDup (params tb).*1 ->
  Forall (fun p => p < length (m_subst st)) (params tb).*1 -> tgt < length (m_consumed st) ->
  exists subst', absorb head tgt range st = Some (mkMerge (absorbed (m_cfg st) head tgt tb) subst'
      (<[tgt := true]> (m_consumed st)) (add_stats (m_stats st) one_merged)) /\
    length subst' = length (m_subst st) /\
    (forall i p a, (params tb).*1 !! i = Some p -> vs !! i = Some a -> subst' !! p = Some (Some a)) /\
    (forall p, p ∉ (params tb).*1 -> subst' !! p = m_subst st !! p).
Proof.
  intros Hok Hne Hh Ht Hvs Hlen Hnd Hlt Hc. destruct (record_substs (zip (params tb).*1 vs) (m_subst st)) as (s' & Hs' & Hl & H1 & H2).
  { rw fst_zip //. rw length_fmap Hlen. done. }
  { apply Forall_forall. intros [p a] Hp%list_elem_of_lookup. destruct Hp as [i Hi]. apply lookup_zip_Some in Hi as [Hi _].
    rewrite Forall_lookup in Hlt. by eapply Hlt. }
  exists s'. rw fst_zip in H2 *; [|by rw length_fmap Hlen]. split_and!; [|done| |done].
  - assert (head < block_count (m_cfg st)) as Hhn by by eapply lookup_lt_Some. assert (tgt < block_count (m_cfg st)) as Htn by by eapply lookup_lt_Some.
    rw /absorb Hvs /get_block Ht. cbn [mbind option_bind].
    rw update_block_alter //. cbn [mbind option_bind]. rw Hlen Nat.eqb_refl. cbn [negb].
    rw Hs'. cbn [mbind option_bind].
    rw update_block_alter; [|by rw /block_count /= length_alter]. cbn [mbind option_bind].
    rw update_block_alter; [|by rw /block_count /= !length_alter]. cbn [mbind option_bind].
    destruct (lookup_lt_is_Some_2 (m_consumed st) tgt Hc) as [x ->]. cbn [mbind option_bind]. do 2 f_equal.
    by rewrite /= list_alter_alter_eq.
  - intros i p a Hp Ha. apply H1. apply list_elem_of_lookup. exists i. apply lookup_zip_Some. by split.
Qed.

Lemma chain_goto st head vs tm e tgt args : merge_inv st -> live P0 head -> chain P0 (taken st) head vs tm e -> tm = VGoto tgt args ->
  incoming !! tgt = Some 1 -> tgt <> entry c0 -> sole_entry P0 e tgt args.
Proof.
  intros Hinv Hl Hch Htm H1 Hne. destruct (chain_term _ _ _ _ _ _ Hch) as (ev & He & Htme & _).
  pose proof (chain_live _ _ _ _ _ _ Hch Hl) as Hle. assert (p_flow P0 e tgt) as Hf.
  { exists ev, args. rewrite -Htme Htm. split; [done|by left]. }
  split_and!; [done|done|exists ev; split; [done|congruence]|]. intros u' Hu' Hf'. by apply (Hin1 tgt).
Qed.

(** One absorption. *)
Lemma absorb_step st head hv vs tgt args range e hb : merge_inv st -> live P0 head -> ~ taken st head ->
  view_block c0 head = Some hv -> chain P0 (taken st) head vs (VGoto tgt args) e ->
  blocks (m_cfg st) !! head = Some hb -> view_block (m_cfg st) head = Some (mkBlockView (v_params hv) vs (VGoto tgt args)) ->
  goto_args (m_cfg st) range = Some args -> tgt <> head -> ~ taken st tgt -> sole_entry P0 e tgt args ->
  exists st', absorb head tgt range st = Some st' /\ merge_inv st' /\ ~ taken st' head /\
    unconsumed (m_consumed st) = S (unconsumed (m_consumed st')).
Proof.
  intros Hinv Hl HnC Hhv Hch Hhb Hvh Hargs Hne HnT Hsole. pose proof (ev_ok _ _ (mi_evolves _ Hinv)) as Hok.
  destruct (sole_entry_of _ _ _ Hsole) as [Hpred Heargs].
  pose proof (sole_live _ _ _ _ Hsole) as Hlt. pose proof (live_block_lt _ Hlt) as Htn.
  destruct (view_block_total c0 tgt Hok0 Htn) as [tv Htv]. destruct (mi_head _ Hinv tgt tv Hlt HnT Htv) as (vs2 & tm2 & e2 & Hch2 & Hvt).
  pose proof Hvt as (tb & Htb & Htps & Htis & Httm)%view_block_Some. simpl in Htps, Htis, Httm.
  pose proof Hsole as (Hle & Htne & (ev & Hev & Hevt) & _).
  destruct (ssa_edges _ Hssa e ev tgt args Hle Hev) as (tv' & Htv' & Hlen & _); [rw Hevt; by left|].
  assert (tv' = tv) as -> by (simpl in Htv'; congruence). rw Htps in Hlen *. rw length_fmap in Hlen *.
  destruct (ssa_params _ Hssa tgt tv Hlt Htv) as [Hnd _]. rw Htps in Hnd *.
  assert (forall p, p ∈ (params tb).*1 -> p < value_count c0) as Hpv.
  { intros p Hp. pose proof (block_ok_params _ _ _ (ok_blocks _ Hok _ _ Htb)) as Hf. apply list_elem_of_fmap in Hp as ([p' t'] & -> & Hp).
    rewrite Forall_forall in Hf. specialize (Hf _ Hp). simpl. by rw /value_count (ev_values _ _ (mi_evolves _ Hinv)) in Hf *. }
  destruct (absorb_runs head tgt range st args hb tb Hok) as (subst' & Habs & Hsl & Hs1 & Hs2);
    [congruence|done|done|done|done|done| |by rw (mi_len _ Hinv)|].
  { apply Forall_forall. intros p Hp. rw (mi_slen _ Hinv). by apply Hpv. }
  set (st' := mkMerge _ _ _ _) in Habs. exists st'. split; [exact Habs|].
  assert (m_consumed st !! tgt = Some false) as Htf.
  { rw /taken in HnT *. destruct (lookup_lt_is_Some_2 (m_consumed st) tgt) as [[] Hx]; [by rw (mi_len _ Hinv)|done|done]. }
  assert (forall t, taken st' t <-> taken st t \/ t = tgt) as Htaken.
  { intros t. rw /taken /=. destruct (decide (t = tgt)) as [->|Ht].
    - rw list_lookup_insert_eq; [|by rw (mi_len _ Hinv)]. split; [by right|done].
    - rw list_lookup_insert_ne //. split; [by left|]. by intros [?|?]. }
  assert (unconsumed (m_consumed st) = S (unconsumed (m_consumed st'))) as Hun by by apply unconsumed_insert.
  assert (~ taken st' head) as Hhead by (rw Htaken; intros [?|?]; [done|congruence]).
  split; [|by split].
  assert (forall b, live P0 b -> ~ taken st b -> forall vs tm x, chain P0 (taken st) b vs tm x -> x = e -> b = head) as Hends.
  { intros b Hlb Hnb vs' tm' x Hx ->. apply (chained_heads P0 (taken st) pred_of eargs_of (mi_sole _ Hinv) b head e); try done;
      by eapply chain_rtc. }
  assert (chain P0 (taken st') tgt vs2 tm2 e2) as Hch2'.
  { apply (chain_grow P0 (taken st) (taken st') e tgt args Htaken Hsole); [done|done|]. intros ->. apply Hne. by apply (Hends tgt Hlt HnT vs2 tm2 e). }
  pose proof (absorbed_evolves (m_cfg st) head tgt tb hb Hok ltac:(congruence) Hhb Htb) as Hev2.
  split.
  - by eapply evolves_trans; [apply (mi_evolves _ Hinv)|].
  - by rw /= length_insert (mi_len _ Hinv).
  - by rw /= Hsl (mi_slen _ Hinv).
  - intros t [Ht| ->]%Htaken; [by apply (mi_sole _ Hinv)|]. by rw Hpred Heargs.
  - intros p a. simpl. split.
    + intros Hp. destruct (decide (p ∈ (params tb).*1)) as [Hin|Hout].
      * apply list_elem_of_lookup in Hin as [i Hi]. destruct (lookup_lt_is_Some_2 args i) as [a' Ha'].
        { rw Hlen. apply lookup_lt_Some in Hi. by rw length_fmap in Hi *. }
        pose proof (Hs1 i p a' Hi Ha'). exists tgt, tv, i. split_and!; [apply Htaken; by right|done|by rw Htps|rw Heargs; congruence].
      * rw Hs2 // in Hp *. apply (mi_subst _ Hinv) in Hp as (t & bv & i & Ht & H1). exists t, bv, i. split; [apply Htaken; by left|done].
    + intros (t & bv & i & Ht & Hbv & Hpi & Hai). apply Htaken in Ht as [Ht| ->].
      * rw Hs2; [apply (mi_subst _ Hinv); by exists t, bv, i|]. intros Hin. apply HnT.
        assert (t = tgt) as <-; [|done]. apply (ssa_once _ Hssa t tgt p); [by eapply sole_live, (mi_sole _ Hinv)|done|exists bv|exists tv];
          (split; [done|left]); [by eapply list_elem_of_lookup_2|by rw Htps].
      * assert (bv = tv) as -> by (simpl in Hbv; congruence). apply (Hs1 i); [by rewrite -Htps|by rewrite -Heargs].
  - intros b bv Hlb Hnb Hbv. assert (~ taken st b /\ b <> tgt) as [Hnb' Hbt] by (split; intros ?; apply Hnb, Htaken; [by left|by right]).
    destruct (decide (b = head)) as [->|Hbh].
    + assert (bv = hv) as -> by congruence. exists (vs ++ vs2), tm2, e2. split.
      * by apply (chain_append P0 (taken st) (taken st') tgt Htaken head vs (VGoto tgt args) e vs2 tm2 e2 args).
      * pose proof Hvh as (hb' & Hhb' & Hhp & Hhi & _)%view_block_Some. assert (hb' = hb) as -> by congruence. simpl in Hhp, Hhi.
        apply view_block_Some. exists (joined tb hb). simpl m_cfg.
        rw (absorbed_lookup _ head tgt tb hb) // ?decide_True //. split_and!; [done|done| |].
        -- simpl. by rw Hhi Htis.
        -- simpl. rw (evolves_term (m_cfg st)) //. apply (block_ok_term _ _ _ (ok_blocks _ Hok _ _ Htb)).
    + destruct (mi_head _ Hinv b bv Hlb Hnb' Hbv) as (vs3 & tm3 & e3 & Hch3 & Hv3). exists vs3, tm3, e3. split.
      * apply (chain_grow P0 (taken st) (taken st') e tgt args Htaken Hsole); [done|done|]. intros ->. by apply Hbh, (Hends b Hlb Hnb' vs3 tm3 e).
      * rewrite -Hv3. apply (evolves_block (m_cfg st)); [done|exact Hev2|]. simpl m_cfg.
        rw (absorbed_lookup _ head tgt tb hb) //. by rw decide_False // decide_False.
  - intros b blk. simpl m_cfg. rw (absorbed_lookup _ head tgt tb hb) //. destruct (decide (b = head)) as [->|Hbh].
    + intros [= <-]. destruct (mi_term _ Hinv tgt tb Htb) as [Hu|Hu]; [by left|by right].
    + destruct (decide (b = tgt)) as [->|]; [intros [= <-]; by left|]. apply (mi_term _ Hinv).
  - simpl. pose proof (mi_count _ Hinv). simpl in *. lia.
Qed.

Lemma absorb_loop_ok fuel : forall st head, merge_inv st -> live P0 head -> ~ taken st head -> unconsumed (m_consumed st) < fuel ->
  exists st', absorb_loop fuel incoming head st = Some st' /\ merge_inv st'.
Proof.
  induction fuel as [|fuel IH]; intros st head Hinv Hl Hn Hf; [lia|].
  destruct (view_block_total c0 head Hok0 (live_block_lt _ Hl)) as [hv Hhv].
  destruct (mi_head _ Hinv head hv Hl Hn Hhv) as (vs & tm & e & Hch & Hvh).
  pose proof Hvh as (hb & Hhb & _ & _ & Htm)%view_block_Some. simpl in Htm.
  cbn [absorb_loop]. rw /get_block Hhb. cbn [mbind option_bind].
  pose proof (mi_evolves _ Hinv) as Hev. pose proof (block_ok_term _ _ _ (ok_blocks _ (ev_ok _ _ Hev) _ _ Hhb)) as Hto.
  destruct (terminator hb) as [tgt range| | | | |]; try (by eexists). simpl in Htm, Hto. destruct Hto as [Htn _].
  rw (ev_count _ _ Hev) in Htn *. destruct (goto_args (m_cfg st) range) as [args|] eqn:Hargs; [|done]. simpl in Htm. injection Htm as <-.
  destruct (Nat.eqb_spec tgt head) as [|Hne]; [by eexists|]. rw (ev_entry _ _ Hev).
  destruct (Nat.eqb_spec tgt (entry c0)) as [|Hte]; [by eexists|]. cbn [orb].
  destruct (lookup_lt_is_Some_2 (m_consumed st) tgt) as [x Hx]; [by rw (mi_len _ Hinv)|]. rw Hx. cbn [mbind option_bind].
  destruct x; [by eexists|]. destruct (lookup_lt_is_Some_2 incoming tgt) as [k Hk]; [by rw Hinlen|]. rw Hk. cbn [mbind option_bind].
  destruct (Nat.eqb_spec k 1) as [->|]; cbn [negb]; [|by eexists].
  destruct (absorb_step st head hv vs tgt args range e hb) as (st' & -> & Hinv' & Hn' & Hu); try done.
  - rw /taken Hx. done.
  - by eapply chain_goto.
  - cbn [mbind option_bind]. apply IH; [done..|]. lia.
Qed.

(** ** The loop *)

Lemma merge_starts stats : merged0 = blocks_merged stats ->
  merge_inv (mkMerge c0 (replicate (value_count c0) None) (replicate n false) stats).
Proof.
  intros Hm. assert (forall t, ~ taken (mkMerge c0 (replicate (value_count c0) None) (replicate n false) stats) t) as Hnone.
  { intros t [[=] _]%lookup_replicate. }
  split; simpl.
  - by apply evolves_refl.
  - apply length_replicate.
  - apply length_replicate.
  - intros t Ht. by apply Hnone in Ht.
  - intros p a. split; [by intros [[=] _]%lookup_replicate|]. intros (t & _ & _ & Ht & _). by apply Hnone in Ht.
  - intros b bv Hl _ Hb. exists (v_insts bv), (v_term bv), b. split; [|rw Hb; by destruct bv].
    apply chain_end; [done|]. intros t args _. apply Hnone.
  - intros b blk Hb. right. by exists b, blk.
  - by rw Hm unconsumed_replicate.
Qed.

Lemma merge_block_ok st head : merge_inv st -> head < n -> exists st', merge_block reachable incoming st head = Some st' /\ merge_inv st'.
Proof.
  intros Hinv Hlt. rw /merge_block. destruct (bitset_contains reachable head) eqn:Hr; cbn [negb]; [|by eexists].
  destruct (lookup_lt_is_Some_2 (m_consumed st) head) as [x Hx]; [by rw (mi_len _ Hinv)|]. rw Hx. cbn [mbind option_bind].
  destruct x; [by eexists|]. apply absorb_loop_ok; [done|by apply live_reach|by rw /taken Hx|].
  rw (ev_count _ _ (mi_evolves _ Hinv)). pose proof (length_filter (fun b => b = false) (m_consumed st)). rw (mi_len _ Hinv) in H *.
  rw /unconsumed. lia.
Qed.

Lemma merge_blocks_ok st : merge_inv st -> exists st', fold_opt (merge_block reachable incoming) st (seq 0 n) = Some st' /\ merge_inv st'.
Proof.
  intros Hinv. destruct (fold_seq_total (merge_block reachable incoming) (fun _ => merge_inv) n st Hinv) as (st' & ? & ?); [|by exists st'].
  intros i t Hi Ht. by apply merge_block_ok.
Qed.

(** ** The sweep *)

Lemma merge_refs st : merge_inv st -> refs_ok c0 -> refs_ok (m_cfg st).
Proof.
  intros Hinv Hrefs. pose proof (mi_evolves _ Hinv) as Hev. apply (evolves_refs c0); [done..|].
  intros b bv u (blk & Hb & _ & _ & Hvt)%view_block_Some Hu. destruct (mi_term _ Hinv b blk Hb) as [Hx|(b0 & blk0 & Hb0 & Hteq)].
  - rw Hx /= in Hvt *. injection Hvt as Hvt. rewrite -Hvt in Hu. by apply not_elem_of_nil in Hu.
  - destruct (view_block_total c0 b0 Hok0) as [bv0 Hbv0]; [by eapply lookup_lt_Some|]. apply (refs_view c0 b0 bv0 u Hrefs Hbv0).
    apply view_block_Some in Hbv0 as (blk' & Hb0' & _ & _ & Hvt0). assert (blk' = blk0) as -> by congruence.
    rw Hteq (evolves_term c0) // in Hvt *; [congruence|]. apply (block_ok_term _ _ _ (ok_blocks _ Hok0 _ _ Hb0)).
Qed.

Lemma merge_map st : merge_inv st -> refs_ok c0 -> exists resolved,
  mapM (resolve (value_count (m_cfg st)) (m_subst st)) (seq 0 (value_count (m_cfg st))) = Some resolved /\
  length resolved = value_count c0 /\
  forall v, rtc (substitutes st) v (default v (resolved !! v)) /\ forall a, ~ substitutes st (default v (resolved !! v)) a.
Proof.
  intros Hinv Hrefs. pose proof (mi_evolves _ Hinv) as Hev.
  assert (value_count (m_cfg st) = value_count c0) as Hn by by rw /value_count (ev_values _ _ Hev). rw Hn.
  assert (forall p a, link (m_subst st) p a <-> substitutes st p a) as Hlink by apply (mi_subst _ Hinv).
  assert (forall p a, substitutes st p a -> a < value_count c0) as Hclosed.
  { intros p a (t & bv & i & Ht & _ & _ & Ha). destruct (mi_sole _ Hinv t Ht) as (_ & _ & (pv & Hp & Hpt) & _).
    pose proof Hp as (blk & Hblk & _ & _ & Hvt)%view_block_Some. pose proof (refs_terms _ Hrefs _ _ _ Hblk (view_uses _ _ _ Hvt)) as Hf.
    rewrite Forall_forall in Hf. apply Hf. rw Hpt. by eapply list_elem_of_lookup_2. }
  assert (forall v, v < value_count c0 -> exists w, resolve (value_count c0) (m_subst st) v = Some w /\
    rtc (link (m_subst st)) v w /\ Identities.root (m_subst st) w) as Hres.
  { rewrite -(mi_slen _ Hinv). apply resolve_acyclic.
    - intros v t Hv. rw (mi_slen _ Hinv). by apply Hlink, Hclosed in Hv.
    - intros v Hv. apply (sub_acyclic P0 Hssa (taken st) pred_of eargs_of (mi_sole _ Hinv) v).
      apply (tc_congruence id (substitutes st)) in Hv; [done|]. intros x y. apply Hlink. }
  destruct (mapM_is_Some_2 (resolve (value_count c0) (m_subst st)) (seq 0 (value_count c0))) as [resolved Hr].
  { apply Forall_forall. intros v Hv%elem_of_seq. destruct (Hres v ltac:(lia)) as (w & Hw & _). by exists w. }
  exists resolved. split; [done|]. apply mapM_Some in Hr. pose proof (Forall2_length _ _ _ Hr) as Hlr. rw length_seq in Hlr *.
  split; [done|]. intros v. destruct (resolved !! v) as [w|] eqn:Hw; simpl.
  - destruct (Forall2_lookup_r _ _ _ _ _ Hr Hw) as (v' & Hs & Hv'). apply lookup_seq in Hs as [-> Hlt]. simpl in Hv'.
    destruct (Hres v Hlt) as (w' & Hw' & Hrt & Hroot). assert (w' = w) as -> by congruence. split.
    + eapply rtc_subrel; [|exact Hrt]. intros x y. apply Hlink.
    + intros a Ha. apply Hlink in Ha. rw /link in Ha *. by rw /Identities.root Ha in Hroot *.
  - split; [constructor|]. intros a Ha. apply Hlink, lookup_lt_Some in Ha. apply lookup_ge_None in Hw. rw (mi_slen _ Hinv) in Ha *. lia.
Qed.
End Code.

(** A rewritten owner reads as the renamed program. *)
Section Renamed.
Context (m : CfgValue -> CfgValue) (c c' : Cfg) (Hok : cfg_ok c) (Hsw : uses_rewritten m c c').

Lemma literal_erase d : literal_of (erase d) = literal_of d.
Proof. by destruct d. Qed.
Lemma literal_map d : literal_of (map_operands m d) = literal_of d.
Proof. by destruct d. Qed.
Lemma shape_map d : map_operands (fun _ => 0) (erase (map_operands m d)) = map_operands (fun _ => 0) (erase d).
Proof. destruct d; try done; simpl; by destruct (base place). Qed.
Lemma content_map ct : map_content (fun _ => 0) (map_content m ct) = map_content (fun _ => 0) ct.
Proof.
  destruct ct as [|l|l|l]; simpl; [done|..]; f_equal; rewrite -list_fmap_compose; apply list_fmap_ext; intros i x _; try done.
  by destruct x.
Qed.

Lemma renamed_inst v : view_inst c' v = map_inst_view m <$> view_inst c v.
Proof.
  destruct Hsw as (Hvs & _). rw /view_inst /visit_instruction_uses /visit_instruction_uses_kinded /get_inst.
  destruct (values c !! v) as [i|] eqn:Hi.
  - destruct (Forall2_lookup_l _ _ _ _ _ Hvs Hi) as (i' & Hi' & Hr & Hty & _). rw Hi'. cbn [mbind option_bind].
    destruct (rewritten_uses m c c' (data i) (data i') (ok_insts _ Hok _ _ Hi) Hr) as (us & us' & -> & -> & Hus).
    cbn [mbind option_bind fmap option_fmap option_map]. rw /map_inst_view /=. destruct Hr as (_ & Her & Hct & _).
    rw Hty Hus Her Hct shape_map content_map. do 2 f_equal. by rewrite -(literal_erase (data i')) Her literal_erase literal_map.
  - destruct (values c' !! v) as [i'|] eqn:Hi'; [|done]. destruct (Forall2_lookup_r _ _ _ _ _ Hvs Hi') as (i & Hi2 & _). congruence.
Qed.

Lemma renamed_term t t' : term_ok c t -> term_rewritten m (payloads_of c) (payloads_of c') t t' -> switch_cases c' = switch_cases c ->
  view_term c' t' = map_term_view m <$> view_term c t.
Proof.
  intros Hto (Hh & Her & Hargs) Hsc. destruct t as [tg r|cd tb ta eb ea|v cs d|v| |], t' as [tg' r'|cd' tb' ta' eb' ea'|v' cs' d'|v'| |];
    simpl in *; try done.
  - injection Her as ->. injection Hargs as Hd. destruct Hto as [_ Hr].
    rw /goto_args (range_ok_view _ _ Hr) (range_ok_view _ _ Hh) /= Hd. done.
  - injection Her as -> -> ->. injection Hargs as Hd1 Hd2. destruct Hto as (_ & _ & Hr1 & Hr2), Hh as [Hh1 Hh2].
    rw /then_args_of /else_args_of (range_ok_view _ _ Hr1) (range_ok_view _ _ Hr2) (range_ok_view _ _ Hh1) (range_ok_view _ _ Hh2) /= Hd1 Hd2. done.
  - injection Her as -> -> ->. rw /switch_cases_of Hsc. destruct Hto as (_ & Hr & _). rw (range_ok_view _ _ Hr). done.
  - injection Her as ->. done.
Qed.

Lemma renamed_block b : view_block c' b = (fun bv => mkBlockView (v_params bv) (v_insts bv) (map_term_view m (v_term bv))) <$> view_block c b.
Proof.
  destruct Hsw as (_ & Hbs & Hsc & _). rw /view_block. destruct (blocks c !! b) as [blk|] eqn:Hb.
  - destruct (Forall2_lookup_l _ _ _ _ _ Hbs Hb) as (blk' & Hb' & Hr & _ & Hps & His). rw Hb'. cbn [mbind option_bind].
    rw (renamed_term _ _ (block_ok_term _ _ _ (ok_blocks _ Hok _ _ Hb)) Hr Hsc) Hps His. by destruct (view_term c (terminator blk)).
  - destruct (blocks c' !! b) as [blk'|] eqn:Hb'; [|done]. destruct (Forall2_lookup_r _ _ _ _ _ Hbs Hb') as (blk & Hb2 & _). congruence.
Qed.
End Renamed.

(** The tail of [merge_chains] and of redundancy elimination: check that every
    operand has an entry, then rename. *)

Lemma sweep_resolved `{Alloc} (c : Cfg) (resolved : list CfgValue) : cfg_ok c -> refs_ok c ->
  (forall u, u ∈ ownership_boundary_values c -> u < value_count c) -> length resolved = value_count c ->
  match operands ← expect (swept_operands c);
        _ ← expect (mapM (fun v => resolved !! v) operands);
        rewrite_value_uses_in_place (fun v => default v (resolved !! v)) c with
  | Ok c' => cfg_ok c' /\ uses_rewritten (fun v => default v (resolved !! v)) c c'
  | Err _ => True
  | Panic => False
  end.
Proof.
  intros Hok Hrefs Hb Hlen. destruct (swept_operands_total c Hok Hrefs Hb) as (ops & -> & Hops). cbn [expect mbind res_bind].
  destruct (mapM_is_Some_2 (fun v => resolved !! v) ops) as [rs ->].
  { eapply Forall_impl; [exact Hops|]. intros u Hu. apply lookup_lt_is_Some_2. by rw Hlen. }
  cbn [expect mbind res_bind]. rw /rewrite_value_uses_in_place. set (m := fun v => default v (resolved !! v)).
  destruct (sweep_ok m (fun _ => Ok tt) ltac:(done) c Hok) as [Hp Hq].
  pose proof (sweep_cfg_ok m (fun _ => Ok tt) ltac:(done) c Hok) as Hok2.
  destruct (rewrite_value_uses_in_place_inner m _ c) as [c2|e|]; [|done..]. split; [by apply Hok2|].
  destruct (Hq c2 eq_refl) as (Hvs & Hbs & Hsc & He & _ & _ & Hbv). by split_and!.
Qed.
