(* ===== verification/SimplifyRun.v ===== *)
(** * Control-flow simplification: the pass

    [run] of [Simplify.v]: the one sweep of [merge_chains] is total and renames
    every use, each phase hands the next what it assumes, and the simplified
    graph has the executions of the original. *)

From S2P Require Import Prelude Dominators DomDfs IntegerSemantics Types Payload CfgData CfgEdit Worklist Cfg CfgRewrite Classify Dce Eval ConstFold Peephole Identities Exec Simplify SimplifyFold SimplifyThread SimplifyMerge SimplifyChains.
From stdpp Require Import list relations.
Import Machine.

(** ** The result of merging *)

(** [c'] is the merged program of [c], for some consumed blocks. *)
Definition merges (c c' : Cfg) : Prop :=
  let P := program_of c in
  exists (C : BlockId -> Prop) pred eargs m,
    (forall t, C t -> sole_entry P (pred t) t (eargs t)) /\
    (forall v, rtc (sub P C eargs) v (m v) /\ forall a, ~ sub P C eargs (m v) a) /\
    merged P (program_of c') m C.

Lemma map_term_view_id t : map_term_view id t = t.
Proof. destruct t as [| | |[]|]; by rewrite /= ?list_fmap_id. Qed.
Lemma map_inst_view_id iv : map_inst_view id iv = iv.
Proof. destruct iv. by rewrite /map_inst_view /= list_fmap_id. Qed.

(** What the loop of [merge_chains] leaves, once every use is renamed. *)
Lemma merges_view `{Alloc} c c1 c' C pred eargs m : cfg_ok c -> evolves c c1 ->
  (forall t, C t -> sole_entry (program_of c) (pred t) t (eargs t)) ->
  (forall v, rtc (sub (program_of c) C eargs) v (m v) /\ forall a, ~ sub (program_of c) C eargs (m v) a) ->
  (forall b bv, live (program_of c) b -> ~ C b -> view_block c b = Some bv ->
    exists vs tm e, chain (program_of c) C b vs tm e /\ view_block c1 b = Some (mkBlockView (v_params bv) vs tm)) ->
  entry c' = entry c1 ->
  (forall v, view_inst c' v = map_inst_view m <$> view_inst c1 v) ->
  (forall b, view_block c' b = (fun bv => mkBlockView (v_params bv) (v_insts bv) (map_term_view m (v_term bv))) <$> view_block c1 b) ->
  merges c c'.
Proof.
  intros Hok Hev HC Hm Hhead He Hi Hb. exists C, pred, eargs, m. split; [done|]. split; [done|]. split; simpl.
  - by rw He (ev_entry _ _ Hev).
  - intros v. by rw Hi (evolves_inst c c1).
  - intros b bv Hl Hn Hbv. destruct (Hhead b bv Hl Hn Hbv) as (vs & tm & e & Hch & Hv). exists vs, tm, e.
    split; [done|]. by rw Hb Hv.
Qed.

Section Merging.
Context `{Alloc} (c0 : Cfg) (Hok : cfg_ok c0) (Hentry : entry c0 < block_count c0) (Hrefs : refs_ok c0).
Context (Hbound : forall u, u ∈ ownership_boundary_values c0 -> u < value_count c0) (Hssa : ssa (program_of c0)).

Lemma merge_chains_ok stats :
  merge_chains c0 stats <> Panic /\
  forall c' stats', merge_chains c0 stats = Ok (c', stats') -> cfg_ok c' /\ merges c0 c'.
Proof using All.
  rw /merge_chains. destruct (reachable_total c0 Hok Hentry) as (reachable & -> & Hreach). cbn [expect mbind res_bind].
  destruct (incoming_ok c0 Hok Hentry reachable Hreach) as (incoming & -> & Hinlen & Hin1). cbn [expect mbind res_bind].
  destruct (merge_blocks_ok c0 Hok Hentry reachable Hreach Hssa incoming Hinlen Hin1 (blocks_merged stats)
    _ (merge_starts c0 Hok reachable (blocks_merged stats) stats eq_refl)) as (st & -> & Hinv). cbn [expect mbind res_bind].
  pose proof (mi_evolves _ _ _ _ Hinv) as Hev. pose proof (ev_ok _ _ Hev) as Hok1.
  destruct (Nat.eqb_spec (blocks_merged (m_stats st)) 0) as [Hz|_].
  - split; [done|]. intros c' stats' [= <- _]. split; [done|].
    assert (forall t, ~ taken st t) as Hnone.
    { intros t. apply unconsumed_all. pose proof (mi_count _ _ _ _ Hinv). rewrite (mi_len _ _ _ _ Hinv).
      pose proof (length_filter (fun b => b = false) (m_consumed st)) as Hf. rewrite (mi_len _ _ _ _ Hinv) in Hf. rewrite /unconsumed in H0 *. lia. }
    apply (merges_view c0 (m_cfg st) (m_cfg st) (taken st) (pred_of c0 reachable) (eargs_of c0 reachable) id); try done.
    + apply (mi_sole _ _ _ _ Hinv).
    + intros v. split; [constructor|]. intros a (t & bv & i & Ht & _). by apply (Hnone t).
    + apply (mi_head _ _ _ _ Hinv).
    + intros v. destruct (view_inst _ v) as [iv|]; [|done]. by rewrite /= map_inst_view_id.
    + intros b. destruct (view_block _ b) as [[ps vs t]|]; [|done]. by rewrite /= map_term_view_id.
  - destruct (merge_map c0 Hentry reachable Hssa incoming Hinlen (blocks_merged stats) st Hinv Hrefs) as (resolved & -> & Hlen & Hres). cbn [expect mbind res_bind].
    assert (value_count (m_cfg st) = value_count c0) as Hn by by rw /value_count (ev_values _ _ Hev).
    pose proof (sweep_resolved (m_cfg st) resolved Hok1 (merge_refs c0 Hok reachable (blocks_merged stats) st Hinv Hrefs)) as Hsw.
    rewrite (ev_boundary _ _ Hev) Hn in Hsw. specialize (Hsw Hbound Hlen). set (m := fun v => default v (resolved !! v)) in *.
    destruct (expect (swept_operands (m_cfg st))) as [ops|e|]; cbn [mbind res_bind] in Hsw |- *; [|done..].
    destruct (expect (mapM (fun v => resolved !! v) ops)) as [rs|e|]; cbn [mbind res_bind] in Hsw |- *; [|done..].
    destruct (rewrite_value_uses_in_place m (m_cfg st)) as [c2|e|]; cbn [mbind res_bind]; [|by split|done].
    destruct Hsw as [Hok2 Hsw]. split; [done|]. intros c' stats' [= <- _]. split; [done|].
    apply (merges_view c0 (m_cfg st) c2 (taken st) (pred_of c0 reachable) (eargs_of c0 reachable) m); try done.
    + apply (mi_sole _ _ _ _ Hinv).
    + apply (mi_head _ _ _ _ Hinv).
    + by destruct Hsw as (_ & _ & _ & ? & _).
    + intros v. by apply renamed_inst.
    + intros b. by apply renamed_block.
Qed.

Lemma merging_behaviour `{Interp W} c' : merges c0 c' -> same_behaviour (program_of c0) (program_of c').
Proof using Hssa.
  intros (C & pred & eargs & m & HC & Hm & Hmg). by apply (merged_behaviour _ _ Hssa C pred eargs HC m Hm).
Qed.
End Merging.

(** ** Phases in sequence *)

Lemma evolves_entry c c' : evolves c c' -> entry c < block_count c -> entry c' < block_count c'.
Proof. intros He. by rw (ev_entry _ _ He) (ev_count _ _ He). Qed.

Lemma evolves_bound c c' : evolves c c' -> (forall u, u ∈ ownership_boundary_values c -> u < value_count c) ->
  forall u, u ∈ ownership_boundary_values c' -> u < value_count c'.
Proof. intros He. by rw (ev_boundary _ _ He) /value_count (ev_values _ _ He). Qed.

Lemma folded_refs c c' : cfg_ok c -> refs_ok c -> evolves c c' -> folded (program_of c) (program_of c') -> refs_ok c'.
Proof.
  intros Hok Hrefs Hev Hf. apply (evolves_refs c); [done..|]. intros b bv' u Hb Hu.
  destruct (folded_block _ _ Hf b bv' Hb) as (bv & Hb0 & ->). apply (refs_view c b bv); [done..|]. exact (fold_uses_in _ _ _ Hu).
Qed.

Lemma threaded_refs c c' : cfg_ok c -> refs_ok c -> evolves c c' -> threaded (program_of c) (program_of c') -> refs_ok c'.
Proof.
  intros Hok Hrefs Hev Ht. apply (evolves_refs c); [done..|]. intros b bv' u Hb Hu.
  destruct (threaded_block _ _ Ht b bv' Hb) as (bv & Hb0 & _ & _ & Hv).
  destruct (threaded_use _ _ _ _ Hv Hu) as [Hin|(f & ws & x & vs & _ & Hfw & Hin)]; [by apply (refs_view c b bv u)|].
  destruct (forwards_end _ _ _ _ Hfw) as (e & (_ & _ & He) & _). exact (refs_view c e _ u Hrefs He Hin).
Qed.

(** C6.  Control-flow simplification keeps every execution: on a well-formed
    owner in SSA form no assertion or index of the pass fails and every loop
    ends; unless a payload store is full, the result is well formed, and from
    every environment and world the simplified graph returns, traps or gets
    stuck with the same world and value as the original, or like it never
    ends - folded branches and switches took the edge they would have taken,
    a threaded edge reaches its forwarders' destination with the right
    arguments, and an absorbed block runs in place with its parameters
    replaced. *)
Theorem simplify_sound `{Alloc} `{Interp W} (cfg : Cfg) (Hok : cfg_ok cfg) (Hentry : entry cfg < block_count cfg)
    (Hrefs : refs_ok cfg) (Hbound : forall u, u ∈ ownership_boundary_values cfg -> u < value_count cfg)
    (Hssa : ssa (program_of cfg)) (Hwords : words_ok (program_of cfg)) :
  match Simplify.run cfg with
  | Ok (cfg', _) => cfg_ok cfg' /\ same_behaviour (program_of cfg) (program_of cfg')
  | Err _ => True
  | Panic => False
  end.
Proof.
  rewrite /Simplify.run. destruct (fold_terminators_ok cfg Hok Hrefs stats_default) as [Hp1 Hq1].
  destruct (fold_terminators cfg stats_default) as [[c1 stats1]|e|]; cbn [mbind res_bind]; [|done..].
  destruct (Hq1 c1 stats1 eq_refl) as [He1 Hf]. pose proof (ev_ok _ _ He1) as Hok1.
  pose proof (folded_ssa _ _ Hssa Hf) as Hssa1.
  pose proof (evolves_entry _ _ He1 Hentry) as Hentry1.
  destruct (thread_forwarders_ok c1 stats1 Hok1 Hentry1) as [Hp2 Hq2].
  destruct (thread_forwarders c1 stats1) as [[c2 stats2]|e|]; cbn [mbind res_bind]; [|done..].
  destruct (Hq2 c2 stats2 eq_refl) as [He2 Ht].
  pose proof (threaded_ssa _ _ Hssa1 Ht) as Hssa2.
  destruct (merge_chains_ok c2 (ev_ok _ _ He2)) with (stats := stats2) as [Hp3 Hq3].
  - by eapply evolves_entry.
  - apply (threaded_refs c1); [done| |done..]. by apply (folded_refs cfg).
  - eapply evolves_bound; [exact He2|]. by eapply evolves_bound.
  - done.
  - destruct (merge_chains c2 stats2) as [[c3 stats3]|e|]; [|done..]. destruct (Hq3 c3 stats3 eq_refl) as [Hok3 Hm].
    split; [done|]. transitivity (program_of c1); [by apply folded_behaviour|].
    transitivity (program_of c2); [by apply threaded_behaviour|]. by apply merging_behaviour.
Qed.

(** ** Witness *)

(** A branch on a literal into a forwarder, whose destination returns its
    parameter. *)
Definition detour_edits : list edit :=
  [EdNewBlock; EdNewBlock; EdNewBlock; EdNewBlock;
   EdBlockParam 3 TI32;
   EdAppendInst 0 (mkInst (IBoolConst true) TBOOL (span_new 0 0));
   EdAppendInst 0 (mkInst (IConst 7) TI32 (span_new 0 0));
   EdBranch 0 1 1 [] 2 [];
   EdGoto 1 3 [2];
   EdUnreachable 2;
   EdReturn 3 (Some 0)].

Definition detour_cfg : Cfg :=
  default sample_empty (run_edits (H := unlimited) (H0 := word_types) detour_edits sample_empty).

Lemma detour_cfg_ok : cfg_ok detour_cfg.
Proof.
  apply (built_cfg_ok (H := unlimited) (H0 := unlimited_laws) (H1 := word_types)).
  apply (run_edits_built detour_edits sample_empty); [constructor| |by vm_compute].
  by repeat constructor.
Qed.

Lemma detour_cfg_refs : refs_ok detour_cfg.
Proof.
  split.
  - intros v us Hv Hus.
    do 3 (destruct v as [|v]; [vm_compute in Hus; injection Hus as <-;
      repeat constructor; apply Nat.ltb_lt; vm_compute; reflexivity|]).
    vm_compute in Hus. by destruct v.
  - intros i b us Hb Hus.
    do 4 (destruct i as [|i]; [vm_compute in Hb; injection Hb as <-; vm_compute in Hus; injection Hus as <-;
      repeat constructor; apply Nat.ltb_lt; vm_compute; reflexivity|]).
    vm_compute in Hb. by destruct i.
Qed.

Notation detour := (program_of detour_cfg).

Lemma detour_block b bv : p_block detour b = Some bv ->
  b = 0 /\ bv = mkBlockView [] [1; 2] (VBranch 1 1 [] 2 []) \/ b = 1 /\ bv = mkBlockView [] [] (VGoto 3 [2]) \/
  b = 2 /\ bv = mkBlockView [] [] VStop \/ b = 3 /\ bv = mkBlockView [0] [] (VReturn (Some 0)).
Proof.
  intros Hb. do 4 (destruct b as [|b]; [vm_compute in Hb; injection Hb as <-; tauto|]).
  vm_compute in Hb. by destruct b.
Qed.

Lemma detour_entry_dominates b : dominates detour 0 b.
Proof. intros l. induction 1 as [|l u v _ IH _]; [by left|by right]. Qed.

(** Which block defines a value. *)
Lemma detour_defines d v : defines detour d v -> d = 0 /\ (v = 1 \/ v = 2) \/ d = 3 /\ v = 0.
Proof.
  intros (bv & [(-> & ->)|[(-> & ->)|[(-> & ->)|(-> & ->)]]]%detour_block & Hv); simpl in Hv; set_solver.
Qed.

Lemma detour_no_operands v iv : p_inst detour v = Some iv -> iv_uses iv = [] /\ (v = 0 -> iv_literal iv = None).
Proof.
  intros Hv. do 3 (destruct v as [|v]; [vm_compute in Hv; injection Hv as <-; done|]).
  vm_compute in Hv. by destruct v.
Qed.

Lemma detour_ssa : ssa detour.
Proof.
  assert (forall v, v = 1 \/ v = 2 -> defines detour 0 v) as H0.
  { intros v Hv. exists (mkBlockView [] [1; 2] (VBranch 1 1 [] 2 [])). split; [by vm_compute|]. simpl. set_solver. }
  split.
  - intros b u _ (bv & Hb & [Hu|(v & iv & _ & Hiv & Hu)]).
    + apply detour_block in Hb as [(-> & ->)|[(-> & ->)|[(-> & ->)|(-> & ->)]]]; simpl in Hu.
      * exists 0. split; [apply H0; set_solver|apply detour_entry_dominates].
      * exists 0. split; [apply H0; set_solver|apply detour_entry_dominates].
      * by apply not_elem_of_nil in Hu.
      * exists 3. split; [|apply dominates_refl]. apply list_elem_of_singleton in Hu as ->.
        exists (mkBlockView [0] [] (VReturn (Some 0))). split; [by vm_compute|]. left. by left.
    + apply detour_no_operands in Hiv as [Hn _]. rewrite Hn in Hu. exact (False_ind _ (not_elem_of_nil u Hu)).
  - intros d d' v _ _ Hd%detour_defines Hd'%detour_defines. lia.
  - intros b bv _ [(-> & ->)|[(-> & ->)|[(-> & ->)|(-> & ->)]]]%detour_block; simpl;
      (split; [repeat constructor; set_solver|]); intros v Hv; try by apply not_elem_of_nil in Hv.
    apply list_elem_of_singleton in Hv as ->. split; [set_solver|]. intros iv Hiv. by apply detour_no_operands in Hiv as [_ Hl]; apply Hl.
  - assert (forall t tv args, p_block detour t = Some tv -> length args = length (v_params tv) ->
      (forall i p a, v_params tv !! i = Some p -> args !! i = Some a -> value_ty detour a = value_ty detour p) ->
      edge_fits detour t args) as Hfit by (intros t tv args Ht Hl Hty; exact (ex_intro _ tv (conj Ht (conj Hl Hty)))).
    intros b bv t args _ [(-> & ->)|[(-> & ->)|[(-> & ->)|(-> & ->)]]]%detour_block Hin; simpl in Hin.
    + assert (args = [] /\ (t = 1 \/ t = 2)) as [-> Ht] by set_solver.
      destruct Ht as [-> | ->].
      * apply (Hfit 1 (mkBlockView [] [] (VGoto 3 [2]))); [vm_compute; reflexivity|reflexivity|by intros [|i] p a].
      * apply (Hfit 2 (mkBlockView [] [] VStop)); [vm_compute; reflexivity|reflexivity|by intros [|i] p a].
    + apply list_elem_of_singleton in Hin. injection Hin as -> ->.
      apply (Hfit 3 (mkBlockView [0] [] (VReturn (Some 0)))); [by vm_compute|done|].
      intros [|i] p a; [|done]. intros [= <-] [= <-]. vm_compute. reflexivity.
    + by apply not_elem_of_nil in Hin.
    + by apply not_elem_of_nil in Hin.
  - eexists (mkBlockView [] [1; 2] (VBranch 1 1 [] 2 [])). vm_compute. reflexivity.
Qed.

Lemma detour_words : words_ok detour.
Proof.
  intros v z Hv. do 3 (destruct v as [|v]; [vm_compute in Hv; first [discriminate Hv|injection Hv as <-; by split]|]).
  vm_compute in Hv. by destruct v.
Qed.

Lemma detour_bound u : u ∈ ownership_boundary_values detour_cfg -> u < value_count detour_cfg.
Proof.
  assert (ownership_boundary_values detour_cfg = ∅) as -> by (vm_compute; reflexivity). set_solver.
Qed.

(** An interpretation: a counter of the executed effects. *)
Definition tick : Interp nat := {|
  prim := fun _ _ _ _ _ w => (S w, Some (ROther 0));
  word_of_other := fun _ => None;
|}.

Lemma simplify_sound_witness :
  cfg_ok detour_cfg /\ ssa detour /\ words_ok detour /\
  exists cfg', Simplify.run (H := unlimited) detour_cfg = Ok (cfg', mkStats 4 1 0 1 1 1) /\
    view_block cfg' 0 = Some (mkBlockView [] [1; 2] (VReturn (Some 2))) /\
    same_behaviour (H := tick) detour (program_of cfg').
Proof.
  split; [exact detour_cfg_ok|split; [exact detour_ssa|split; [exact detour_words|]]].
  pose proof (simplify_sound (H := unlimited) (H0 := tick) detour_cfg detour_cfg_ok
    ltac:(apply Nat.ltb_lt; vm_compute; reflexivity) detour_cfg_refs detour_bound detour_ssa detour_words) as Hr.
  destruct (Simplify.run (H := unlimited) detour_cfg) as [[cfg' stats']|e|] eqn:E.
  - assert (stats' = mkStats 4 1 0 1 1 1 /\ view_block cfg' 0 = Some (mkBlockView [] [1; 2] (VReturn (Some 2)))) as [-> Hv]
      by (vm_compute in E; injection E as <- <-; split; reflexivity).
    exists cfg'. split; [reflexivity|split; [exact Hv|]]. apply Hr.
  - exfalso. vm_compute in E. discriminate E.
  - contradiction Hr.
Defined.
