(* ===== verification/Cse.v ===== *)
(** * Redundancy elimination

    [crates/rue-cfg/src/opt/cse.rs]: value numbering along the dominator tree.
    The table holds the computations of the current block and its dominators;
    a repeated computation becomes a placeholder and its uses move to the first
    occurrence.  [None] and [Panic] are a failed assertion or index, or a loop
    that outlives its fuel. *)

From stdpp Require Import gmap countable.
From S2P Require Import Prelude IntegerSemantics Types Payload CfgData CfgEdit CfgRewrite Classify SlotFacts Csr Dominators Peephole.
Import Machine.

Record Stats := mkStats {
  insts_scanned : nat;
  duplicates_replaced : nat;
  max_table_entries : nat;
  dominator_computations : nat;
}.
Definition stats_default : Stats := mkStats 0 0 0 0.

(** ** Keys *)

Inductive VnKey :=
| KConst (v : Z) (ty : Type_)
| KBoolConst (b : bool) (ty : Type_)
| KStringConst (index : nat) (ty : Type_)
| KParam (index : nat) (ty : Type_)
| KUnary (tag : nat) (a : CfgValue) (ty : Type_)
| KBinary (tag : nat) (a b : CfgValue) (ty : Type_).

#[export] Instance VnKey_eq_dec : EqDecision VnKey.
Proof. solve_decision. Defined.

#[export] Instance Type_countable : Countable Type_.
Proof. by apply (inj_countable' raw_encoding mkType); intros []. Defined.

#[export] Instance VnKey_countable : Countable VnKey.
Proof.
  refine (inj_countable'
    (fun k => match k with
     | KConst v t => inl (inl (v, t)) | KBoolConst b t => inl (inr (inl (b, t)))
     | KStringConst i t => inl (inr (inr (i, t))) | KParam i t => inr (inl (i, t))
     | KUnary g a t => inr (inr (inl (g, a, t))) | KBinary g a b t => inr (inr (inr (g, a, b, t))) end)
    (fun x => match x with
     | inl (inl (v, t)) => KConst v t | inl (inr (inl (b, t))) => KBoolConst b t
     | inl (inr (inr (i, t))) => KStringConst i t | inr (inl (i, t)) => KParam i t
     | inr (inr (inl (g, a, t))) => KUnary g a t | inr (inr (inr (g, a, b, t))) => KBinary g a b t end) _).
  by intros [].
Defined.

(** Sort the operands of a symmetric operation. *)
Definition commutative (tag : nat) (a b : CfgValue) (ty : Type_) : VnKey :=
  let '(lo, hi) := if a <=? b then (a, b) else (b, a) in KBinary tag lo hi ty.

Definition key_of (needs_drop : Type_ -> option bool) (cfg : Cfg) (value : CfgValue) (never_written_param : list bool)
    (r : CfgValue -> option CfgValue) : option (option VnKey) :=
  owned ← materializes_owned_value needs_drop cfg value;
  if (owned : bool) then Some None else
  inst ← get_inst cfg value;
  let ty := ty inst in
  let symmetric tag a b := a ← r a; b ← r b; Some (Some (commutative tag a b ty)) in
  let binary tag a b := a ← r a; b ← r b; Some (Some (KBinary tag a b ty)) in
  let unary tag a := a ← r a; Some (Some (KUnary tag a ty)) in
  match data inst with
  | IConst v => Some (Some (KConst v ty))
  | IBoolConst b => Some (Some (KBoolConst b ty))
  | IStringConst s => Some (Some (KStringConst s ty))
  | IParam index =>
      Some (if default false (never_written_param !! index) then Some (KParam index ty) else None)
  | IAdd a b => symmetric 0 a b
  | IMul a b => symmetric 1 a b
  | IEq a b => symmetric 2 a b
  | INe a b => symmetric 3 a b
  | IBitAnd a b => symmetric 4 a b
  | IBitOr a b => symmetric 5 a b
  | IBitXor a b => symmetric 6 a b
  | IWrappingAdd a b => symmetric 19 a b
  | IWrappingMul a b => symmetric 20 a b
  | ISub a b => binary 7 a b
  | IDiv a b => binary 8 a b
  | IMod a b => binary 9 a b
  | ILt a b => binary 10 a b
  | IGt a b => binary 11 a b
  | ILe a b => binary 12 a b
  | IGe a b => binary 13 a b
  | IShl a b => binary 14 a b
  | IShr a b => binary 15 a b
  | IWrappingSub a b => binary 21 a b
  | INeg a => unary 16 a
  | INot a => unary 17 a
  | IBitNot a => unary 18 a
  | _ => Some None
  end.

(** ** Scanning *)

Record scan := mkScan {
  sc_cfg : Cfg;
  sc_subst : list (option CfgValue);
  sc_table : gmap VnKey CfgValue;
  sc_stats : Stats;
}.

Section Run.
Context `{Alloc} (needs_drop : Type_ -> option bool).

(** The source's own [resolve] is the same loop as the one of the peephole
    pass. *)
Definition scan_value (never_written_param : list bool) (st : scan * list VnKey) (value : CfgValue)
    : option (scan * list VnKey) :=
  let '(mkScan cfg subst table (mkStats scanned dups most doms), introduced) := st in
  key ← key_of needs_drop cfg value never_written_param (resolve (length subst) subst);
  match key with
  | None => Some (mkScan cfg subst table (mkStats (S scanned) dups most doms), introduced)
  | Some key =>
      match table !! key with
      | Some first =>
          _ ← subst !! value;
          cfg ← write_inst_data cfg value (IConst 0);
          Some (mkScan cfg (<[value := Some first]> subst) table (mkStats (S scanned) (S dups) most doms), introduced)
      | None =>
          let table := <[key := value]> table in
          Some (mkScan cfg subst table (mkStats (S scanned) dups (most `max` size table) doms), introduced ++ [key])
      end
  end.

Definition scan_block (never_written_param : list bool) (s : scan) (block_id : BlockId) : option (scan * list VnKey) :=
  block ← get_block (sc_cfg s) block_id;
  fold_opt (scan_value never_written_param) (s, []) (insts block).

(** [for key in introduced { table.remove(&key) }]. *)
Definition leave_scope (s : scan) (introduced : list VnKey) : scan :=
  mkScan (sc_cfg s) (sc_subst s) (fold_left (fun table key => delete key table) introduced (sc_table s)) (sc_stats s).

Inductive Event := Enter (block : BlockId) | Exit (introduced : list VnKey).

Fixpoint walk (fuel : nat) (never_written_param : list bool) (children : list (list BlockId)) (stack : list Event) (s : scan)
    : option scan :=
  match fuel with
  | O => None
  | S fuel =>
      match stack with
      | [] => Some s
      | Enter block :: stack =>
          '(s, introduced) ← scan_block never_written_param s block;
          row ← children !! block;
          walk fuel never_written_param children ((Enter <$> row) ++ Exit introduced :: stack) s
      | Exit introduced :: stack => walk fuel never_written_param children stack (leave_scope s introduced)
      end
  end.

Definition scan_dead (never_written_param : list bool) (dominators : DominatorTree) (s : scan) (block : BlockId) : option scan :=
  if is_reachable dominators block then Some s else
  '(s, introduced) ← scan_block never_written_param s block;
  Some (leave_scope s introduced).

(** The walk and the isolated blocks: the table is empty in between. *)
Definition number_values (cfg : Cfg) : option scan :=
  never_written_param ← classify_never_written_params cfg;
  let n := block_count cfg in
  dominators ← compute cfg;
  children ← fold_opt (push_child dominators) (replicate n []) (seq 0 n);
  s ← walk (S (2 * n)) never_written_param children
    (if is_reachable dominators (entry cfg) then [Enter (entry cfg)] else [])
    (mkScan cfg (replicate (value_count cfg) None) ∅ (mkStats 0 0 0 1));
  if negb (bool_decide (sc_table s = ∅)) then None else
  fold_opt (scan_dead never_written_param dominators) s (seq 0 n).

Definition run (cfg : Cfg) : res CfgEditError (Cfg * Stats) :=
  s ← expect (number_values cfg);
  if 0 <? duplicates_replaced (sc_stats s) then
    resolved ← expect (mapM (resolve (length (sc_subst s)) (sc_subst s)) (seq 0 (value_count (sc_cfg s))));
    operands ← expect (swept_operands (sc_cfg s));
    _ ← expect (mapM (fun v => resolved !! v) operands);
    cfg ← rewrite_value_uses_in_place (fun v => default v (resolved !! v)) (sc_cfg s);
    Ok (cfg, sc_stats s)
  else Ok (sc_cfg s, sc_stats s).
End Run.
