(* ===== verification/CseSem.v ===== *)
(** * Redundancy elimination: meaning

    Programs in which repeated pure computations are replaced by their first
    occurrence.  [deduped] relates such a program to the original; the two have
    the same executions when computations are pure ([PureInterp]), parameter
    reads that are shared read slots nothing writes, and an occurrence
    dominates what it replaces. *)

From S2P Require Import Prelude IntegerSemantics Types Payload CfgData CfgEdit Classify Eval CfgRewrite Exec SimplifyMerge.
From stdpp Require Import list relations.
Import Machine.

(** ** Pure computations *)

(** Operations whose result depends on type, shape and operands alone. *)
Definition pure_shape (d : CfgInstData) : bool :=
  match d with
  | IStringConst _ | IAdd _ _ | IMul _ _ | IEq _ _ | INe _ _ | IBitAnd _ _ | IBitOr _ _ | IBitXor _ _
  | IWrappingAdd _ _ | IWrappingMul _ _ | ISub _ _ | IDiv _ _ | IMod _ _ | ILt _ _ | IGt _ _ | ILe _ _ | IGe _ _
  | IShl _ _ | IShr _ _ | IWrappingSub _ _ | INeg _ | INot _ | IBitNot _ => true
  | _ => false
  end.
Definition comm_shape (d : CfgInstData) : bool :=
  match d with
  | IAdd _ _ | IMul _ _ | IEq _ _ | INe _ _ | IBitAnd _ _ | IBitOr _ _ | IBitXor _ _ | IWrappingAdd _ _ | IWrappingMul _ _ => true
  | _ => false
  end.

(** A world in which these operations are pure - they may trap, but neither
    read nor change the world -, the symmetric ones symmetric, and reading a
    parameter gives the content of its slot. *)
Class PureInterp (W : Type) `{Interp W} := {
  pure_op : Type_ -> CfgInstData -> list rval -> option rval;
  prim_pure v ty d ct rs w : pure_shape d = true -> prim v ty d ct rs w = (w, pure_op ty d rs);
  pure_comm ty d a b : comm_shape d = true -> pure_op ty d [a; b] = pure_op ty d [b; a];
  param_value : Type_ -> nat -> W -> rval;
  prim_param v ty i ct rs w : prim v ty (IParam i) ct rs w = (w, Some (param_value ty i w));
}.

(** ** The relation *)

Section Dedup.
Context (P P' : Program) (m : CfgValue -> CfgValue) (frozen : nat -> Prop).

(** A computation that may be shared. *)
Definition reusable (iv : inst_view) : Prop :=
  is_Some (iv_literal iv) \/ pure_shape (iv_shape iv) = true \/ exists i, iv_shape iv = IParam i /\ frozen i.

(** The same computation on operands with the same representatives, up to the
    order of a symmetric operation. *)
Definition same_op (iv ivf : inst_view) : Prop :=
  iv_ty iv = iv_ty ivf /\ iv_literal iv = iv_literal ivf /\ iv_shape iv = iv_shape ivf /\ reusable ivf /\
  (m <$> iv_uses iv = m <$> iv_uses ivf \/
   comm_shape (iv_shape ivf) = true /\ exists a b, m <$> iv_uses iv = [a; b] /\ m <$> iv_uses ivf = [b; a]).

(** [v] is an instruction whose value is there when instruction [k] of [b]
    runs. *)
Definition avail (b : BlockId) (k : nat) (v : CfgValue) : Prop :=
  exists d dv i, p_block P d = Some dv /\ v_insts dv !! i = Some v /\ dominates P d b /\ (d <> b \/ i < k).

Record deduped : Prop := {
  dd_entry : p_entry P' = p_entry P;
  dd_block b : p_block P' b = (fun bv => mkBlockView (v_params bv) (v_insts bv) (map_term_view m (v_term bv))) <$> p_block P b;
  dd_keep v : m v = v -> p_inst P' v = map_inst_view m <$> p_inst P v;
  dd_zero v : m v <> v -> exists iv, p_inst P' v = Some iv /\ iv_literal iv = Some (RInt 0);
  dd_param b bv v : live P b -> p_block P b = Some bv -> v ∈ v_params bv -> m v = v;
  dd_twin b bv j v : live P b -> p_block P b = Some bv -> v_insts bv !! j = Some v -> m v <> v ->
    m (m v) = m v /\ avail b j (m v) /\ exists iv ivf, p_inst P v = Some iv /\ p_inst P (m v) = Some ivf /\ same_op iv ivf;
}.

(** Inside a block, an instruction follows its operands and occurs once. *)
Definition ordered : Prop :=
  forall b bv, live P b -> p_block P b = Some bv -> NoDup (v_insts bv) /\
    forall j v iv u k, v_insts bv !! j = Some v -> p_inst P v = Some iv -> u ∈ iv_uses iv -> v_insts bv !! k = Some u -> k < j.
End Dedup.

(** ** Same executions *)

Section Meaning.
Context `{PureInterp W} (P P' : Program) (m : CfgValue -> CfgValue) (frozen : nat -> Prop).
Context (Hssa : ssa P) (Hord : ordered P) (Hdd : deduped P P' m frozen).
(** No instruction of a reachable block changes a frozen slot. *)
Context (Hfrozen : forall b bv v iv rs (w w' : W) r i T, live P b -> p_block P b = Some bv -> v ∈ v_insts bv -> p_inst P v = Some iv ->
  iv_literal iv = None -> prim v (iv_ty iv) (iv_shape iv) (iv_content iv) rs w = (w', r) -> frozen i -> param_value T i w' = param_value T i w).
Notation avail := (avail P).
Notation reusable := (reusable frozen).

Definition op_value (iv : inst_view) (rs : list rval) (w : W) : option rval :=
  match iv_literal iv with
  | Some r => Some r
  | None => match iv_shape iv with IParam i => Some (param_value (iv_ty iv) i w) | d => pure_op (iv_ty iv) d rs end
  end.

Lemma reusable_prim v iv rs w : reusable iv -> iv_literal iv = None ->
  prim v (iv_ty iv) (iv_shape iv) (iv_content iv) rs w = (w, op_value iv rs w).
Proof.
  intros Hr Hl. rw /op_value Hl. destruct Hr as [[r Hr]|[Hp|(i & -> & _)]]; [congruence| |apply prim_param].
  rw prim_pure //. by destruct (iv_shape iv).
Qed.

(** What is known of the values that are there. *)
Definition holds (ρ : env) (w : W) (v : CfgValue) : Prop :=
  (m v <> v -> ρ v = ρ (m v)) /\
  (m v = v -> forall iv, p_inst P v = Some iv -> reusable iv -> op_value iv (ρ <$> iv_uses iv) w = Some (ρ v)).
Definition settled (ρ : env) (w : W) (b : BlockId) (k : nat) : Prop := forall v, avail b k v -> holds ρ w v.
Definition agree (ρ ρ' : env) : Prop := forall v, m v = v -> ρ' v = ρ v.

Lemma avail_defines b k v : avail b k v -> exists d, defines P d v /\ dominates P d b.
Proof. intros (d & dv & i & Hd & Hi & Hdom & _). exists d. split; [|done]. exists dv. split; [done|right]. by eapply list_elem_of_lookup_2. Qed.

Lemma live_block b : live P b -> is_Some (p_block P b).
Proof.
  intros [l Hp]. destruct Hp as [|l u v Hp (ub & args & Hub & Hin)]; [apply (ssa_entry _ Hssa)|].
  destruct (ssa_edges _ Hssa u ub v args) as (tv & ? & _); [by exists l|done..|by exists tv].
Qed.

(** A value is in one place. *)
Lemma inst_place d dv i d' dv' i' v : live P d -> live P d' -> p_block P d = Some dv -> p_block P d' = Some dv' ->
  v_insts dv !! i = Some v -> v_insts dv' !! i' = Some v -> d = d' /\ i = i'.
Proof.
  intros Hl Hl' Hd Hd' Hi Hi'. assert (d = d') as <-.
  { apply (ssa_once _ Hssa d d' v); [done..|exists dv|exists dv']; (split; [done|right]); by eapply list_elem_of_lookup_2. }
  split; [done|]. assert (dv' = dv) as -> by congruence. destruct (Hord d dv Hl Hd) as [Hnd _]. by eapply NoDup_lookup.
Qed.

(** An operand of an instruction is available before it, unless it is a block
    parameter. *)
Lemma operand_place b bv j v iv u : live P b -> p_block P b = Some bv -> v_insts bv !! j = Some v -> p_inst P v = Some iv -> u ∈ iv_uses iv ->
  avail b j u \/ exists d dv, live P d /\ p_block P d = Some dv /\ u ∈ v_params dv /\ dominates P d b.
Proof.
  intros Hl Hb Hj Hiv Hu. destruct (ssa_dominates _ Hssa b u Hl) as (d & (dv & Hd & Hin) & Hdom).
  { exists bv. split; [done|right]. exists v, iv. split_and!; [by eapply list_elem_of_lookup_2|done..]. }
  pose proof (dominates_live P d b Hl Hdom) as Hld. destruct Hin as [Hin|[i Hi]%list_elem_of_lookup]; [right; by exists d, dv|left].
  exists d, dv, i. split_and!; [done..|]. destruct (decide (d = b)) as [->|]; [right|by left].
  assert (dv = bv) as -> by congruence. by apply (proj2 (Hord b bv Hl Hb) j v iv u).
Qed.

Lemma avail_trans b j g : live P b -> (exists d dv i, p_block P d = Some dv /\ dominates P d b /\ avail d i g /\ (d <> b \/ i <= j)) ->
  avail b j g.
Proof.
  intros Hl (d & dv & i & Hd & Hdom & (e & ev & i2 & He & Hi2 & Hdom2 & Hne) & Hle). exists e, ev, i2.
  split_and!; [done|done|by eapply dominates_trans|]. destruct (decide (e = b)) as [->|]; [|by left]. right.
  assert (d = b) as -> by (apply (dominates_antisym P); [by eapply dominates_live|done..]).
  destruct Hne as [?|Hlt]; [done|]. destruct Hle as [?|Hle]; [done|lia].
Qed.

(** The facts about an available value mention only values available with it,
    and block parameters above it. *)
Lemma holds_frame ρ ρ' w w' b k v : live P b -> avail b k v -> holds ρ w v ->
  (forall u, avail b k u -> ρ' u = ρ u) ->
  (forall u d dv, live P d -> p_block P d = Some dv -> u ∈ v_params dv -> dominates P d b -> (d = b -> k <> 0) -> ρ' u = ρ u) ->
  (forall i T, frozen i -> param_value T i w' = param_value T i w) ->
  holds ρ' w' v.
Proof.
  intros Hl Hav [H1 H2] Hsame Hpar Hw. pose proof Hav as (d & dv & i & Hd & Hi & Hdom & Hne).
  pose proof (dominates_live P d b Hl Hdom) as Hld. split.
  - intros Hm. destruct (dd_twin _ _ _ _ Hdd d dv i v Hld Hd Hi Hm) as (_ & Hf & _). rw (Hsame v Hav) (H1 Hm). symmetry. apply Hsame.
    apply avail_trans; [done|]. exists d, dv, i. split_and!; [done..|]. destruct Hne as [?|?]; [by left|right; lia].
  - intros Hm iv Hiv Hr. specialize (H2 Hm iv Hiv Hr). rw (Hsame v Hav) -H2.
    assert ((ρ' <$> iv_uses iv) = ρ <$> iv_uses iv) as Huses.
    { apply list_fmap_ext. intros x u Hx%list_elem_of_lookup_2. destruct (operand_place d dv i v iv u Hld Hd Hi Hiv Hx) as [Hu|(e & ev & Hle & He & Hp & Hdom2)].
      - apply Hsame. apply avail_trans; [done|]. exists d, dv, i. split_and!; [done..|]. destruct Hne as [?|?]; [by left|right; lia].
      - apply (Hpar u e ev); [done..|by eapply dominates_trans|]. intros -> ->. destruct Hne as [Hne|?]; [|lia].
        apply Hne. by apply (dominates_antisym P). }
    rw Huses /op_value. destruct (iv_literal iv) eqn:Hlit; [done|]. destruct Hr as [[? ?]|[Hp|(x & Hs & Hx)]]; [congruence| |by rw Hs Hw].
    by destruct (iv_shape iv).
Qed.

(** An operand has its value under its representative's name. *)
Lemma dedup_operand_value b bv j ρ ρ' w u : live P b -> p_block P b = Some bv -> settled ρ w b j -> agree ρ ρ' ->
  avail b j u \/ (exists d dv, live P d /\ p_block P d = Some dv /\ u ∈ v_params dv /\ dominates P d b) -> ρ' (m u) = ρ u.
Proof.
  intros Hl Hb Hs Ha [Hu|(d & dv & Hld & Hd & Hp & _)].
  - destruct (decide (m u = u)) as [He|Hne]; [by rw Ha; [by rw He|]; rw He|]. destruct (Hs u Hu) as [H1 _].
    pose proof Hu as (d & dv & i & Hd & Hi & Hdom & _). destruct (dd_twin _ _ _ _ Hdd d dv i u) as (Hmm & _); [by eapply dominates_live|done..|].
    by rw (Ha (m u) Hmm) H1.
  - assert (m u = u) as He by by apply (dd_param _ _ _ _ Hdd d dv). rw He. by apply Ha.
Qed.

Lemma term_operand b bv u : live P b -> p_block P b = Some bv -> u ∈ term_uses (v_term bv) ->
  avail b (length (v_insts bv)) u \/ exists d dv, live P d /\ p_block P d = Some dv /\ u ∈ v_params dv /\ dominates P d b.
Proof.
  intros Hl Hb Hu. destruct (ssa_dominates _ Hssa b u Hl) as (d & (dv & Hd & Hin) & Hdom); [exists bv; split; [done|by left]|].
  pose proof (dominates_live P d b Hl Hdom) as Hld. destruct Hin as [Hin|[i Hi]%list_elem_of_lookup]; [right; by exists d, dv|left].
  exists d, dv, i. split_and!; [done..|]. destruct (decide (d = b)) as [->|]; [right|by left].
  assert (dv = bv) as -> by congruence. by eapply lookup_lt_Some.
Qed.

(** Instruction values and parameters are different values. *)
Lemma inst_not_param d dv i v e ev : live P d -> live P e -> p_block P d = Some dv -> p_block P e = Some ev -> v_insts dv !! i = Some v -> v ∉ v_params ev.
Proof.
  intros Hld Hle Hd He Hi%list_elem_of_lookup_2 Hp. assert (d = e) as <-.
  { apply (ssa_once _ Hssa d e v); [done..|exists dv|exists ev]; split; try done; auto. }
  assert (ev = dv) as -> by congruence. destruct (ssa_params _ Hssa d dv Hld Hd) as [_ Hn]. by destruct (Hn v Hp).
Qed.

Lemma dedup_agree_set ρ ρ' v r r' : agree ρ ρ' -> (m v = v -> r' = r) -> agree (set_env ρ v r) (set_env ρ' v r').
Proof. intros Ha Hv u Hu. rw /set_env. destruct (Nat.eqb_spec u v) as [->|]; [by apply Hv|by apply Ha]. Qed.

(** Giving instruction [k] its value. *)
Lemma dedup_settled_set b bv k v ρ w w' r : live P b -> p_block P b = Some bv -> v_insts bv !! k = Some v -> settled ρ w b k ->
  (forall i T, frozen i -> param_value T i w' = param_value T i w) ->
  (m v <> v -> r = ρ (m v)) ->
  (m v = v -> forall iv, p_inst P v = Some iv -> reusable iv -> op_value iv (ρ <$> iv_uses iv) w' = Some r) ->
  settled (set_env ρ v r) w' b (S k).
Proof.
  intros Hl Hb Hk Hs Hw Hdup Hself u Hu.
  assert (forall x, avail b k x -> set_env ρ v r x = ρ x) as Hsame.
  { intros x (d & dv & i & Hd & Hi & Hdom & Hne). apply set_env_ne. intros ->.
    destruct (inst_place d dv i b bv k v) as [-> ->]; [by eapply dominates_live|done..|]. destruct Hne; [done|lia]. }
  assert (forall x d dv, live P d -> p_block P d = Some dv -> x ∈ v_params dv -> set_env ρ v r x = ρ x) as Hpar.
  { intros x d dv Hld Hd Hp. apply set_env_ne. intros ->. by apply (inst_not_param b bv k v d dv). }
  destruct (decide (u = v)) as [->|Hne].
  - split.
    + intros Hm. rw set_env_same Hsame; [by apply Hdup|]. by destruct (dd_twin _ _ _ _ Hdd b bv k v Hl Hb Hk Hm) as (_ & ? & _).
    + intros Hm iv Hiv Hr. rw set_env_same -(Hself Hm iv Hiv Hr). f_equal. apply list_fmap_ext. intros i x Hx%list_elem_of_lookup_2.
      destruct (operand_place b bv k v iv x Hl Hb Hk Hiv Hx) as [Hav|(d & dv & Hld & Hd & Hp & _)]; [by apply Hsame|by eapply Hpar].
  - assert (avail b k u) as Hav.
    { destruct Hu as (d & dv & i & Hd & Hi & Hdom & Hlt). exists d, dv, i. split_and!; [done..|]. destruct (decide (d = b)) as [->|]; [right|by left].
      destruct Hlt as [?|Hlt]; [done|]. assert (i <> k); [|lia]. intros ->. apply Hne. congruence. }
    apply (holds_frame ρ _ w _ b k); [done|done|by apply Hs|exact Hsame| |done]. intros x d dv Hld Hd Hp _ _. by apply (Hpar x d dv).
Qed.

(** Running the block on both sides. *)
Lemma exec_deduped b bv : live P b -> p_block P b = Some bv -> forall vs k ρ ρ' w, drop k (v_insts bv) = vs -> settled ρ w b k -> agree ρ ρ' ->
  match fold_res (exec_value P) (ρ, w) vs with
  | Ok (ρ1, w1) => exists ρ1', fold_res (exec_value P') (ρ', w) vs = Ok (ρ1', w1) /\ settled ρ1 w1 b (length (v_insts bv)) /\ agree ρ1 ρ1'
  | Err w1 => fold_res (exec_value P') (ρ', w) vs = Err w1
  | Panic => fold_res (exec_value P') (ρ', w) vs = Panic
  end.
Proof using All.
  intros Hl Hb vs. induction vs as [|v vs IH]; intros k ρ ρ' w Hvs Hs Ha.
  { exists ρ'. split_and!; [done| |done]. intros u (d & dv & i & Hd & Hi & Hdom & Hlt). apply Hs. exists d, dv, i. split_and!; [done..|].
    destruct Hlt as [?|Hlt]; [by left|]. destruct (decide (d = b)) as [->|]; [right|by left].
    assert (length (drop k (v_insts bv)) = 0) as Hz by by rw Hvs. rewrite length_drop in Hz.
    assert (dv = bv) as -> by congruence. apply lookup_lt_Some in Hi. lia. }
  assert (v_insts bv !! k = Some v) as Hk by (rewrite -(Nat.add_0_r k) -lookup_drop Hvs; done).
  assert (drop (S k) (v_insts bv) = vs) as Hvs' by (rewrite -Nat.add_1_r -drop_drop Hvs; done).
  cbn [fold_res]. rw /exec_value. destruct (decide (m v = v)) as [Hm|Hm].
  - rw (dd_keep _ _ _ _ Hdd v Hm). destruct (p_inst P v) as [iv|] eqn:Hiv; [|done].
    assert (ρ' <$> (m <$> iv_uses iv) = ρ <$> iv_uses iv) as Huses.
    { rewrite -list_fmap_compose. apply list_fmap_ext. intros i u Hu%list_elem_of_lookup_2. simpl.
      apply (dedup_operand_value b bv k ρ ρ' w); [done..|]. by eapply operand_place. }
    cbn [expect fmap option_fmap option_map mbind res_bind fst snd map_inst_view iv_literal iv_ty iv_shape iv_content iv_uses].
    destruct (iv_literal iv) as [r|] eqn:Hlit.
    + apply (IH (S k)); [done| |by apply dedup_agree_set]. apply (dedup_settled_set b bv k v ρ w); [done..|].
      intros _ iv' Hiv' _. assert (iv' = iv) as -> by congruence. by rw /op_value Hlit.
    + rw Huses. destruct (prim v (iv_ty iv) (iv_shape iv) (iv_content iv) (ρ <$> iv_uses iv) w) as [w1 [r|]] eqn:Hp; [|done].
      apply (IH (S k)); [done| |by apply dedup_agree_set].
      assert (forall i T, frozen i -> param_value T i w1 = param_value T i w) as Hfr.
      { intros i T Hi. eapply Hfrozen; [exact Hl|exact Hb|by eapply list_elem_of_lookup_2|exact Hiv|done|exact Hp|done]. }
      apply (dedup_settled_set b bv k v ρ w); [done..|]. intros _ iv' Hiv' Hr. assert (iv' = iv) as -> by congruence.
      rewrite (reusable_prim v iv _ w Hr Hlit) in Hp. by injection Hp as <- <-.
  - destruct (dd_twin _ _ _ _ Hdd b bv k v Hl Hb Hk Hm) as (Hmm & Hav & iv & ivf & Hiv & Hivf & Hty & Hlit & Hsh & Hr & Hus).
    destruct (dd_zero _ _ _ _ Hdd v Hm) as (iz & Hz & Hzl). rw Hiv Hz. cbn [expect mbind res_bind]. rw Hzl.
    destruct (Hs (m v) Hav) as [_ Hf]. specialize (Hf Hmm ivf Hivf Hr).
    assert (forall ws (x : inst_view), (forall u, u ∈ iv_uses x -> ρ' (m u) = ρ u) -> m <$> iv_uses x = ws -> ρ <$> iv_uses x = ρ' <$> ws) as Hmap.
    { intros ws x Hx <-. rewrite -list_fmap_compose. apply list_fmap_ext. intros i u Hu%list_elem_of_lookup_2. symmetry. by apply Hx. }
    assert (forall u, u ∈ iv_uses iv -> ρ' (m u) = ρ u) as Hu1.
    { intros u Hu. apply (dedup_operand_value b bv k ρ ρ' w); [done..|]. by eapply operand_place. }
    assert (forall u, u ∈ iv_uses ivf -> ρ' (m u) = ρ u) as Hu2.
    { intros u Hu. apply (dedup_operand_value b bv k ρ ρ' w); [done..|]. pose proof Hav as (d & dv & i & Hd & Hi & Hdom & Hlt).
      pose proof (dominates_live P d b Hl Hdom) as Hld. destruct (operand_place d dv i (m v) ivf u Hld Hd Hi Hivf Hu) as [Hu'|(e & ev & ? & ? & ? & ?)].
      - left. apply avail_trans; [done|]. exists d, dv, i. split_and!; [done..|]. destruct Hlt; [by left|right; lia].
      - right. exists e, ev. split_and!; [done..|]. by eapply dominates_trans. }
    assert (op_value iv (ρ <$> iv_uses iv) w = Some (ρ (m v))) as Hval.
    { rw -Hf /op_value Hlit Hty Hsh. destruct (iv_literal ivf) eqn:Hlf; [done|]. destruct Hus as [Hus|(Hc & a & c & Ha1 & Ha2)].
      - rw (Hmap _ iv Hu1 Hus) (Hmap _ ivf Hu2 eq_refl). done.
      - rw (Hmap _ iv Hu1 Ha1) (Hmap _ ivf Hu2 Ha2) /=. destruct (iv_shape ivf) eqn:Hsf; try done; by apply pure_comm. }
    assert (settled (set_env ρ v (ρ (m v))) w b (S k)) as Hset by by apply (dedup_settled_set b bv k v ρ w).
    assert (agree (set_env ρ v (ρ (m v))) (set_env ρ' v (RInt 0))) as Hagree by by apply dedup_agree_set.
    destruct (iv_literal iv) as [r|] eqn:Hl2.
    + rewrite /op_value Hl2 in Hval. injection Hval as ->. by apply (IH (S k)).
    + assert (reusable iv) as Hr2.
      { destruct Hr as [Hr|[Hr|Hr]]; [exfalso; rewrite -Hlit in Hr; by destruct Hr|right; left; by rw Hsh|right; right; by rw Hsh]. }
      cbn [fst snd]. rw (reusable_prim v iv _ w Hr2 Hl2) Hval. by apply (IH (S k)).
Qed.

Lemma dedup_agree_bind ps : forall vs ρ ρ', agree ρ ρ' -> agree (bind_env ρ ps vs) (bind_env ρ' ps vs).
Proof.
  induction ps as [|p ps IH]; intros vs ρ ρ' Ha; [done|]. destruct vs as [|v vs]; [done|].
  rw /bind_env /=. apply (IH vs). by apply dedup_agree_set.
Qed.

Lemma dedup_settled_enter b bv x xv ρ w vs : live P b -> p_block P b = Some bv -> p_flow P b x -> p_block P x = Some xv ->
  settled ρ w b (length (v_insts bv)) -> settled (bind_env ρ (v_params xv) vs) w x 0.
Proof.
  intros Hl Hb Hf Hx Hs v Hv. assert (live P x) as Hlx by by eapply live_flow.
  assert (forall u, avail x 0 u -> avail b (length (v_insts bv)) u) as Hback.
  { intros u (d & dv & i & Hd & Hi & Hdom & Hne). exists d, dv, i. assert (d <> x) as Hdx by (destruct Hne; [done|lia]).
    split_and!; [done|done|by eapply dominates_step|]. destruct (decide (d = b)) as [->|]; [right|by left].
    assert (dv = bv) as -> by congruence. by eapply lookup_lt_Some. }
  apply (holds_frame ρ _ w w x 0); [done|done|by apply Hs, Hback| | |done].
  - intros u (d & dv & i & Hd & Hi & Hdom & _). apply bind_env_ne. apply (inst_not_param d dv i u x xv); [by eapply dominates_live|done..].
  - intros u d dv Hld Hd Hp _ Hdx. apply bind_env_ne. intros Hin. assert (d = x) as ->; [|by destruct (Hdx eq_refl)].
    apply (ssa_once _ Hssa d x u); [done..|exists dv|exists xv]; split; auto.
Qed.

Lemma map_term_return t v : map_term_view m t = VReturn v -> exists u, t = VReturn u /\ v = m <$> u.
Proof. destruct t as [| | |u|]; try done. intros [= <-]. by exists u. Qed.

Lemma deduped_taken b bv ρ ρ' : live P b -> p_block P b = Some bv -> (forall u, u ∈ term_uses (v_term bv) -> ρ' (m u) = ρ u) ->
  taken_edge P' ρ' (map_term_view m (v_term bv)) = map_edge m <$> taken_edge P ρ (v_term bv).
Proof.
  intros Hl Hb Hu. pose proof (fun u => term_operand b bv u Hl Hb) as Hplace. destruct (v_term bv) as [tg a|c tb ta eb ea|v cs d|v|]; simpl; try done.
  - rw Hu; [|by left]. by destruct (ρ c) as [|[]| |].
  - rw Hu; [|by left]. assert (iv_ty <$> p_inst P' (m v) = iv_ty <$> p_inst P v) as Hty.
    { destruct (decide (m v = v)) as [He|Hne]; [rw He (dd_keep _ _ _ _ Hdd v He); by destruct (p_inst P v)|].
      destruct (Hplace v) as [(d2 & dv & i & Hd & Hi & Hdom & _)|(d2 & dv & Hld & Hd & Hp & _)]; [by left| |].
      - destruct (dd_twin _ _ _ _ Hdd d2 dv i v) as (Hmm & _ & iv & ivf & Hiv & Hivf & Hty & _); [by eapply dominates_live|done..|].
        rw (dd_keep _ _ _ _ Hdd (m v) Hmm) Hiv Hivf /=. by rw Hty.
      - destruct Hne. by apply (dd_param _ _ _ _ Hdd d2 dv). }
    destruct (p_inst P' (m v)) as [iv'|], (p_inst P v) as [iv|]; simplify_eq/=; [|done]. rw Hty. by destruct (word_of (ρ v)).
Qed.

Lemma dedup_behaviour : same_behaviour P P'.
Proof using All.
  intros ρ0 w0 o. apply (simulate P P' (fun s s' => s.1.1 = s'.1.1 /\ s.2 = s'.2 /\ live P s.1.1 /\
    settled s.1.2 s.2 s.1.1 0 /\ agree s.1.2 s'.1.2)).
  2: { split_and!; try done; simpl; [by rw (dd_entry _ _ _ _ Hdd)|apply live_entry|].
       intros v (d & dv & i & _ & _ & Hdom & Hne). destruct Hne as [Hne|?]; [|lia]. destruct Hne. apply list_elem_of_singleton, Hdom. constructor. }
  intros [[b ρ] w] [[b' ρ'] w'] (Hb & Hw & Hl & Hs & Ha). simpl in *. subst b' w'. destruct (live_block b Hl) as [bv Hb].
  rw (dd_block _ _ _ _ Hdd b) Hb. cbn [fmap option_fmap option_map v_insts v_term].
  pose proof (exec_deduped b bv Hl Hb (v_insts bv) 0 ρ ρ' w eq_refl Hs Ha) as Hrun.
  assert (forall o, step P (b, ρ, w) = inr o -> reaches P (b, ρ, w) o) as Hfin by by intros o' ?; apply reaches_final.
  destruct (fold_res (exec_value P) (ρ, w) (v_insts bv)) as [[ρ1 w1]|w1|] eqn:Hex.
  2,3: (rw Hrun; apply Hfin; by rw /= Hb Hex).
  destruct Hrun as (ρ1' & -> & Hs1 & Ha1).
  assert (step P (b, ρ, w) = leave P ρ1 w1 (v_term bv)) as Hstep by by rw /= Hb Hex.
  assert (forall u, u ∈ term_uses (v_term bv) -> ρ1' (m u) = ρ1 u) as Hu.
  { intros u Hu. apply (dedup_operand_value b bv (length (v_insts bv)) ρ1 ρ1' w1); [done..|]. by apply term_operand. }
  pose proof (deduped_taken b bv ρ1 ρ1' Hl Hb Hu) as Htk.
  destruct (taken_edge P ρ1 (v_term bv)) as [[x args]|] eqn:Hx.
  - pose proof (taken_edge_in P ρ1 _ _ Hx) as Hin. assert (p_flow P b x) as Hflow by by exists bv, args.
    destruct (ssa_edges _ Hssa b bv x args Hl Hb Hin) as (xv & Hxv & Hlen & _).
    assert (ρ1' <$> (m <$> args) = ρ1 <$> args) as Hargs.
    { rewrite -list_fmap_compose. apply list_fmap_ext. intros i u Hi%list_elem_of_lookup_2. apply Hu. by eapply edges_uses. }
    rewrite (leave_taken P' _ _ _ _ Htk) /= (dd_block _ _ _ _ Hdd x) Hxv /= length_fmap Hlen Nat.eqb_refl Hargs.
    rewrite (leave_taken P _ _ _ _ Hx) /= Hxv Hlen Nat.eqb_refl in Hstep.
    eexists _, _. split; [exact Hstep|]. split; [constructor|]. split_and!; [done|done|by eapply live_flow|by eapply dedup_settled_enter|by apply dedup_agree_bind].
  - assert ((exists v, v_term bv = VReturn v) \/ forall v, v_term bv <> VReturn v) as [[v Hterm]|Hno].
    { destruct (v_term bv); [by right..| |by right]. left. by eexists. }
    + rw Hterm /=. apply Hfin. rw Hstep Hterm /=. do 2 f_equal. destruct v as [v|]; [|done]. simpl. f_equal. symmetry. apply Hu. rw Hterm. by left.
    + rw (leave_none P' ρ1'); [|intros v (u & Hv & _)%map_term_return; by apply (Hno u)|done]. apply Hfin. by rw Hstep leave_none.
Qed.
End Meaning.
