(* ===== verification/CseScan.v ===== *)
(** * Redundancy elimination: scanning blocks

    What the table and the substitution of [Cse.v] hold while the blocks are
    scanned: every entry was computed in an open block, every replaced value
    has a twin of the same key placed before it, and only replaced values were
    overwritten. *)

From stdpp Require Import gmap.
From S2P Require Import Prelude IntegerSemantics Types Payload CfgData CfgEdit Worklist Cfg CfgRewrite Classify Dce Eval Csr Dominators DomDfs Peephole Identities Exec SimplifyFold Cse.
Import Machine.

(** Instruction [i] of a block. *)
Definition inst_at (c : Cfg) (b : BlockId) (i : nat) (v : CfgValue) : Prop :=
  exists blk, blocks c !! b = Some blk /\ insts blk !! i = Some v.

(** A value belongs to one block, as one instruction or one parameter. *)
Record attached_once (c : Cfg) : Prop := {
  at_inst : forall b i b' i' v, inst_at c b i v -> inst_at c b' i' v -> b = b' /\ i = i';
  at_param : forall b blk b' i v, blocks c !! b = Some blk -> v ∈ (params blk).*1 -> ~ inst_at c b' i v;
}.

(** The surviving value. *)
Definition rep (subst : list (option CfgValue)) (v : CfgValue) : CfgValue := default v (mjoin (subst !! v)).

Lemma rep_link subst v f : link subst v f -> rep subst v = f.
Proof. rw /link /rep. by intros ->. Qed.
Lemma rep_root subst v : (forall f, ~ link subst v f) -> rep subst v = v.
Proof. rw /link /rep. intros Hn. destruct (subst !! v) as [[f|]|]; try done. by destruct (Hn f). Qed.
Lemma link_dec subst v : (exists f, link subst v f) \/ forall f, ~ link subst v f.
Proof. rw /link. destruct (subst !! v) as [[f|]|]; [left; by exists f|by right..]. Qed.
Lemma rep_changed subst v : rep subst v <> v -> link subst v (rep subst v).
Proof. intros Hne. destruct (link_dec subst v) as [[f Hf]|Hn]; [by rw (rep_link _ _ _ Hf)|]. by rw rep_root in Hne *. Qed.

(** The owner with the replaced values overwritten. *)
Record dimmed (c0 : Cfg) (subst : list (option CfgValue)) (c : Cfg) : Prop := {
  dm_ok : cfg_ok c;
  dm_frame : exists vs, c = set_values vs c0 /\ length vs = value_count c0;
  dm_get : forall v i, get_inst c0 v = Some i ->
    get_inst c v = Some match mjoin (subst !! v) with Some _ => placeholder i | None => i end;
}.

Section Scan.
Context (needs_drop : Type_ -> option bool) (c0 : Cfg) (Hok0 : cfg_ok c0) (Hrefs : refs_ok c0).
Context (nw : list bool).
Notation n := (value_count c0).
Notation P0 := (program_of c0).
Notation inst_at := (inst_at c0).

Definition matches (r : CfgValue -> CfgValue) (v : CfgValue) (key : VnKey) : Prop :=
  key_of needs_drop c0 v nw (fun u => Some (r u)) = Some (Some key).

(** The key of [v] under some earlier renaming. *)
Definition keyed (subst : list (option CfgValue)) (v : CfgValue) (key : VnKey) : Prop :=
  exists r, (forall u, rep subst (r u) = rep subst u) /\ matches r v key.

Record scan_inv (open : list (BlockId * list VnKey)) (seen : CfgValue -> Prop) (s : scan) : Prop := {
  si_cfg : dimmed c0 (sc_subst s) (sc_cfg s);
  si_len : length (sc_subst s) = n;
  si_table : forall key f, sc_table s !! key = Some f ->
    (forall g, ~ link (sc_subst s) f g) /\ seen f /\ keyed (sc_subst s) f key /\
    exists b ks i, (b, ks) ∈ open /\ key ∈ ks /\ inst_at b i f;
  si_dups : forall v f, link (sc_subst s) v f -> seen v /\ seen f /\ (forall g, ~ link (sc_subst s) f g) /\
    (exists key, keyed (sc_subst s) v key /\ keyed (sc_subst s) f key) /\
    exists b j d i, inst_at b j v /\ inst_at d i f /\ Exec.dominates P0 d b /\ (d <> b \/ i < j);
  si_none : duplicates_replaced (sc_stats s) = 0 -> forall v f, ~ link (sc_subst s) v f;
}.

Lemma scan_inv_seen open (seen seen' : CfgValue -> Prop) s : (forall v, seen v -> seen' v) -> scan_inv open seen s -> scan_inv open seen' s.
Proof.
  intros Hs [H1 H2 H3 H4 H5]. split; try done.
  - intros key f Hk. destruct (H3 key f Hk) as (? & ? & ?). auto.
  - intros v f Hl. destruct (H4 v f Hl) as (? & ? & ?). auto.
Qed.

(** ** Keys *)

Lemma key_of_ext c v us r r' : visit_instruction_uses c v = Some us -> (forall u, u ∈ us -> r u = r' u) ->
  key_of needs_drop c v nw r = key_of needs_drop c v nw r'.
Proof.
  rw /visit_instruction_uses /visit_instruction_uses_kinded /key_of. destruct (materializes_owned_value needs_drop c v) as [[]|]; [done| |done].
  cbn [mbind option_bind]. destruct (get_inst c v) as [i|]; [|done]. cbn [mbind option_bind].
  intros Hus Hr. destruct (data i); try done; injection Hus as <-; repeat (rewrite -> Hr by set_solver); done.
Qed.

Lemma key_of_total v r : v < n -> (forall u, u < n -> is_Some (r u)) -> is_Some (key_of needs_drop c0 v nw r).
Proof using Hok0 Hrefs.
  intros Hv Hr. destruct (get_inst_total c0 Hok0 v Hv) as (i & Hi & Hio). rw /key_of /materializes_owned_value Hi. cbn [mbind option_bind].
  destruct (default true (needs_drop (ty i))); [by eexists|]. destruct (data_uses_total c0 _ Hio) as [us Hus].
  pose proof (operand_bound _ _ _ _ Hrefs Hi Hus) as Hb. rewrite Forall_forall in Hb.
  assert (forall u, u ∈ us.*1 -> exists x, r u = Some x) as Hus'.
  { intros u Hu. apply Hr, Hb, Hu. }
  clear Hb Hr. destruct (data i); try (by eexists); injection Hus as <-; simpl in Hus';
    repeat match goal with |- context [r ?a] =>
      let H := fresh in destruct (Hus' a) as [? H]; [set_solver|]; rewrite H; cbn [mbind option_bind]; clear H end; by eexists.
Qed.

(** ** Entries survive *)

Lemma keyed_now subst v key : (forall u, rep subst (rep subst u) = rep subst u) -> matches (rep subst) v key -> keyed subst v key.
Proof. intros Hr Hm. by exists (rep subst). Qed.

(** A new link changes the representatives of its source alone. *)
Lemma rep_insert subst v f u : v < length subst -> rep (<[v := Some f]> subst) u = if decide (u = v) then f else rep subst u.
Proof.
  intros Hv. rw /rep. destruct (decide (u = v)) as [->|Hne].
  - by rw list_lookup_insert_eq.
  - by rw list_lookup_insert_ne.
Qed.

Lemma keyed_insert subst v f w key : v < length subst -> (forall g, ~ link subst v g) -> v <> f -> (forall x, ~ link subst x v) ->
  keyed subst w key -> keyed (<[v := Some f]> subst) w key.
Proof.
  intros Hv Hroot Hne Htgt (r & Hr & Hm). exists r. split; [|done]. intros u. rw !(rep_insert subst v f _ Hv).
  destruct (decide (r u = v)) as [Hru|Hru], (decide (u = v)) as [->|Hu]; [done| |exfalso|done].
  - exfalso. specialize (Hr u). rw Hru (rep_root _ _ Hroot) in Hr *. destruct (link_dec subst u) as [[g Hg]|Hn].
    + rewrite (rep_link _ _ _ Hg) in Hr. subst g. by apply (Htgt u).
    + rewrite (rep_root _ _ Hn) in Hr. congruence.
  - specialize (Hr v). rw (rep_root _ _ Hroot) in Hr *. destruct (link_dec subst (r v)) as [[g Hg]|Hn].
    + rewrite (rep_link _ _ _ Hg) in Hr. subst g. by apply (Htgt (r v)).
    + rewrite (rep_root _ _ Hn) in Hr. congruence.
Qed.

Lemma link_insert subst v f x g : v < length subst ->
  link (<[v := Some f]> subst) x g <-> x = v /\ g = f \/ x <> v /\ link subst x g.
Proof.
  intros Hv. rw /link. destruct (decide (x = v)) as [->|Hne].
  - rw list_lookup_insert_eq //. split; [intros [= ->]; by left|]. by intros [[_ ->]|[? _]].
  - rw list_lookup_insert_ne //. split; [by right|]. by intros [[? _]|[_ ?]].
Qed.

Lemma dimmed_write subst c v f : dimmed c0 subst c -> length subst = n -> v < n -> (forall g, ~ link subst v g) ->
  (forall i, get_inst c0 v = Some i -> is_move_out (data i) = false) ->
  exists c', write_inst_data c v (IConst 0) = Some c' /\ dimmed c0 (<[v := Some f]> subst) c'.
Proof using Hok0.
  intros [Hok (vs & Hc & Hl) Hg] Hlen Hv Hroot Hmo. destruct (get_inst_total c0 Hok0 v Hv) as (i & Hi & _).
  assert (get_inst c v = Some i) as Hci.
  { rw (Hg v i Hi). rw /link in Hroot *. destruct (subst !! v) as [[g|]|]; try done. by destruct (Hroot g). }
  destruct (write_inst_data c v (IConst 0)) as [c'|] eqn:Hw; [|by rw /write_inst_data Hci in Hw *]. exists c'. split; [done|].
  pose proof (fun u => get_inst_write _ _ _ _ u Hw) as Hgw. apply write_inst_data_Some in Hw as (j & Hj & ->). assert (j = i) as -> by congruence.
  destruct (step_replace_inst c Hok v i (placeholder i)) as [Hok2 _]; [done|done|by rw (Hmo i Hi)|]. split; [done| |].
  - exists (<[v := placeholder i]> vs). rw Hc /=. split; [done|]. by rw length_insert.
  - intros u k Hk. rw Hgw (Hg u k Hk). case_decide as Hu.
    + subst u. rw list_lookup_insert_eq ?Hlen //=. assert (k = i) as -> by congruence. f_equal. by destruct (mjoin (subst !! v)).
    + by rw list_lookup_insert_ne.
Qed.

Lemma matches_pure r v key : matches r v key -> exists i, get_inst c0 v = Some i /\ is_move_out (data i) = false.
Proof.
  rw /matches /key_of /materializes_owned_value. destruct (get_inst c0 v) as [i|] eqn:Hi; [|done]. cbn [mbind option_bind].
  destruct (default true (needs_drop (ty i))); [done|]. intros Hk. exists i. split; [done|]. by destruct (data i).
Qed.

(** ** One value *)

Lemma dups_root open seen s v f : scan_inv open seen s -> link (sc_subst s) v f -> forall g, ~ link (sc_subst s) f g.
Proof. intros Hi Hl. by destruct (si_dups _ _ _ Hi v f Hl) as (_ & _ & ? & _). Qed.

Lemma rep_idem open seen s u : scan_inv open seen s -> rep (sc_subst s) (rep (sc_subst s) u) = rep (sc_subst s) u.
Proof.
  intros Hi. destruct (link_dec (sc_subst s) u) as [[g Hg]|Hn]; [|by rw !(rep_root _ u Hn)]. rw (rep_link _ _ _ Hg).
  apply rep_root. by eapply dups_root.
Qed.

Lemma inst_at_lt b i v : inst_at b i v -> v < n.
Proof using Hok0.
  intros (blk & Hb & Hi). pose proof (block_ok_insts _ _ _ (ok_blocks _ Hok0 _ _ Hb)) as Hf. rewrite Forall_forall in Hf.
  apply Hf. by eapply list_elem_of_lookup_2.
Qed.

(** A chain has one link. *)
Lemma resolve_rep s open seen u : scan_inv open seen s -> u < n ->
  resolve (length (sc_subst s)) (sc_subst s) u = Some (rep (sc_subst s) u).
Proof using Hok0.
  intros Hi Hu. pose proof (si_len _ _ _ Hi) as Hlen. set (subst := sc_subst s) in *. rewrite Hlen. assert (0 < n) as Hpos by lia.
  destruct (link_dec subst u) as [[g Hg]|Hn].
  - destruct (si_dups _ _ _ Hi u g Hg) as (_ & _ & Hgr & _ & _ & _ & d & i & _ & Hat & _). apply inst_at_lt in Hat. rewrite -Hlen in Hat.
    destruct (lookup_lt_is_Some_2 subst g Hat) as [[y|] Hy]; [by destruct (Hgr y)|].
    rw (rep_link _ _ _ Hg). rewrite /link in Hg. destruct n as [|k]; [lia|]. simpl. rw Hg. cbn [mbind option_bind].
    destruct k; simpl; by rw Hy.
  - rw (rep_root _ _ Hn). rewrite -Hlen in Hu. destruct (lookup_lt_is_Some_2 subst u Hu) as [[y|] Hy]; [by destruct (Hn y)|].
    destruct n; simpl; by rw Hy.
Qed.

(** A value that is not replaced is as it was. *)
Lemma get_inst_root s open seen v : scan_inv open seen s -> (forall g, ~ link (sc_subst s) v g) -> get_inst (sc_cfg s) v = get_inst c0 v.
Proof.
  intros Hi Hroot. pose proof (si_cfg _ _ _ Hi) as Hd. destruct (get_inst c0 v) as [i|] eqn:Hv.
  - rw (dm_get _ _ _ Hd v i Hv). rw /link in Hroot *. destruct (sc_subst s !! v) as [[g|]|]; try done. by destruct (Hroot g).
  - destruct (dm_frame _ _ _ Hd) as (vs & Hc & Hl). rw Hc /get_inst /= in Hv *. apply lookup_ge_None in Hv. apply lookup_ge_None_2.
    rw /value_count in Hl *. lia.
Qed.

Lemma key_now s open seen v : scan_inv open seen s -> v < n -> ~ seen v ->
  exists ko, key_of needs_drop (sc_cfg s) v nw (resolve (length (sc_subst s)) (sc_subst s)) = Some ko /\
    forall key, ko = Some key -> keyed (sc_subst s) v key.
Proof using Hok0 Hrefs.
  intros Hinv Hv Hns. assert (forall g, ~ link (sc_subst s) v g) as Hroot by (intros g Hg; by apply Hns, (si_dups _ _ _ Hinv v g)).
  destruct (uses_total c0 Hok0 v Hv) as [us Hus].
  assert (forall r, key_of needs_drop (sc_cfg s) v nw r = key_of needs_drop c0 v nw r) as Hsame.
  { intros r. by rw /key_of /materializes_owned_value (get_inst_root _ _ _ _ Hinv Hroot). }
  pose proof (refs_insts _ Hrefs v us Hv Hus) as Hb. rewrite Forall_forall in Hb.
  rw Hsame (key_of_ext c0 v us _ (fun u => Some (rep (sc_subst s) u)) Hus); [|by intros u Hu%Hb; eapply resolve_rep].
  destruct (key_of_total v (fun u => Some (rep (sc_subst s) u)) Hv) as [ko Hko]; [by intros u _; eexists|]. exists ko. split; [done|].
  intros key ->. apply keyed_now; [|done]. intros u. by eapply rep_idem.
Qed.

Lemma scan_value_ok rest c s intro seen v j : scan_inv ((c, intro) :: rest) seen s -> inst_at c j v -> ~ seen v ->
  (forall b i u, inst_at b i u -> seen u -> b = c -> i < j) ->
  (forall d ks, (d, ks) ∈ rest -> Exec.dominates P0 d c /\ d <> c) ->
  exists s' intro', scan_value needs_drop nw (s, intro) v = Some (s', intro') /\
    scan_inv ((c, intro') :: rest) (fun u => seen u \/ u = v) s'.
Proof using Hok0 Hrefs.
  intros Hinv Hat Hns Hbefore Hrest.
  pose proof (inst_at_lt _ _ _ Hat) as Hv.
  destruct (key_now s _ seen v Hinv Hv Hns) as (ko & Hko & Hkey).
  pose proof Hinv as [Hd Hlen Htab Hdup Hnone]. destruct s as [cfg subst table [a b0 mx dm]]. simpl in *.
  assert (forall g, ~ link subst v g) as Hroot by (intros g Hg; by apply Hns, (Hdup v g)).
  assert (forall x, ~ link subst x v) as Htgt by (intros x Hx; by apply Hns, (Hdup x v)).
  rw Hko. cbn [mbind option_bind]. destruct ko as [key|].
  2: { do 2 eexists. split; [done|]. apply (scan_inv_seen _ seen); [tauto|]. by split. }
  specialize (Hkey key eq_refl). destruct (table !! key) as [f|] eqn:Hf.
  - destruct (Htab key f Hf) as (Hfr & Hfs & Hfk & b & ks & i & Hopen & _ & Hfat).
    assert (v <> f) as Hvf by (intros ->; done).
    destruct (lookup_lt_is_Some_2 subst v) as [o Ho]; [by rw Hlen|]. rw Ho. cbn [mbind option_bind].
    pose proof Hkey as (r & _ & (iv & Hiv & Hmo)%matches_pure).
    destruct (dimmed_write subst cfg v f Hd Hlen Hv Hroot) as (cfg' & -> & Hd'); [intros ? ?; congruence|]. cbn [mbind option_bind].
    assert (v < length subst) as Hvl by by rw Hlen.
    assert (forall w k, keyed subst w k -> keyed (<[v := Some f]> subst) w k) as Hkeep by by intros w k; apply keyed_insert.
    assert (forall w, w <> v -> (forall g, ~ link subst w g) -> forall g, ~ link (<[v := Some f]> subst) w g) as Hroots.
    { intros w Hw Hn g [[-> _]|[_ Hg]]%link_insert; [done|by apply (Hn g)|done]. }
    do 2 eexists. split; [done|]. split; simpl.
    + done.
    + by rw length_insert.
    + intros k g Hg. destruct (Htab k g Hg) as (? & ? & ? & ?). split_and!; [|by left|by apply Hkeep|done].
      apply Hroots; [|done]. intros ->. done.
    + intros x g [[-> ->]|[Hx Hg]]%link_insert; [| |done].
      * split_and!; [by right|by left|by apply Hroots|by exists key; split; apply Hkeep|].
        exists c, j, b, i. split_and!; [done..| |].
        -- apply elem_of_cons in Hopen as [[= -> ->]|Hopen]; [apply dominates_refl|by apply (Hrest b ks)].
        -- apply elem_of_cons in Hopen as [[= -> ->]|Hopen]; [right; by eapply Hbefore|left; by apply (Hrest b ks)].
      * destruct (Hdup x g Hg) as (? & ? & ? & (k & ? & ?) & ?). split_and!; [by left|by left| |exists k; split; by apply Hkeep|done].
        apply Hroots; [|done]. by intros ->.
    + done.
  - do 2 eexists. split; [done|]. split; simpl; [done|done| | |done].
    + intros k g [[<- <-]|[Hk Hg]]%lookup_insert_Some.
      * split_and!; [done|by right|done|]. exists c, (intro ++ [key]), j. split_and!; [by left|set_solver|done].
      * destruct (Htab k g Hg) as (? & ? & ? & b & ks & i & Hopen & Hks & Hgat). split_and!; [done|by left|done|].
        apply elem_of_cons in Hopen as [[= -> ->]|Hopen].
        -- exists c, (intro ++ [key]), i. split_and!; [by left|set_solver|done].
        -- exists b, ks, i. split_and!; [by right|done|done].
    + intros x g Hg. destruct (Hdup x g Hg) as (? & ? & ?). split_and!; [by left|by left|tauto..].
Qed.

(** ** One block *)

Context (Hatt : attached_once c0).

Lemma scan_block_ok rest c s seen : scan_inv rest seen s -> c < block_count c0 ->
  (forall i u, inst_at c i u -> ~ seen u) ->
  (forall d ks, (d, ks) ∈ rest -> Exec.dominates P0 d c /\ d <> c) ->
  exists s' intro, scan_block needs_drop nw s c = Some (s', intro) /\
    scan_inv ((c, intro) :: rest) (fun u => seen u \/ exists i, inst_at c i u) s'.
Proof using Hok0 Hrefs Hatt.
  intros Hinv Hc Hnew Hrest. rw /scan_block. destruct (dm_frame _ _ _ (si_cfg _ _ _ Hinv)) as (vs & Hcfg & _).
  destruct (lookup_lt_is_Some_2 (blocks c0) c Hc) as [blk Hb]. rw Hcfg /get_block /=. rw Hb. cbn [mbind option_bind].
  assert (forall i u, insts blk !! i = Some u <-> inst_at c i u) as Hins.
  { intros i u. split; [intros Hi; by exists blk|]. intros (blk' & Hb' & Hi). congruence. }
  destruct (fold_opt_total (scan_value needs_drop nw)
    (fun pre st => scan_inv ((c, st.2) :: rest) (fun u => seen u \/ u ∈ pre) st.1) (insts blk) (s, []))
    as ([s' intro] & Hf & Hinv').
  - destruct Hinv as [H1 H2 H3 H4 H5]. split; [done|done| | |done]; simpl.
    + intros key f Hk. destruct (H3 key f Hk) as (? & ? & ? & b & ks & i & ? & ?). split_and!; [done|by left|done|].
      exists b, ks, i. split; [by right|done].
    + intros v f Hl. destruct (H4 v f Hl) as (? & ? & ?). split_and!; [by left|by left|tauto..].
  - intros pre v [t intro] [post Hp] Ht. simpl in Ht.
    assert (inst_at c (length pre) v) as Hat by (apply Hins; by rw Hp list_lookup_middle).
    destruct (scan_value_ok rest c t intro _ v (length pre) Ht Hat) as (t' & intro' & -> & Ht').
    + intros [Hs|Hs]; [by eapply Hnew|]. apply list_elem_of_lookup in Hs as [i Hi].
      assert (inst_at c i v) as Hat2 by (apply Hins; rw Hp; by apply lookup_app_l_Some).
      destruct (at_inst _ Hatt _ _ _ _ _ Hat Hat2) as [_ He]. apply lookup_lt_Some in Hi. lia.
    + intros b i u Hu [Hs|Hs] ->; [by destruct (Hnew i u)|]. apply list_elem_of_lookup in Hs as [k Hk].
      assert (inst_at c k u) as Hat2 by (apply Hins; rw Hp; by apply lookup_app_l_Some).
      destruct (at_inst _ Hatt _ _ _ _ _ Hu Hat2) as [_ ->]. by eapply lookup_lt_Some.
    + done.
    + eexists. split; [done|]. simpl. apply (scan_inv_seen _ (fun u => (seen u \/ u ∈ pre) \/ u = v)); [|done].
      intros u. rw elem_of_app list_elem_of_singleton. tauto.
  - exists s', intro. split; [done|]. simpl in Hinv'. eapply scan_inv_seen; [|exact Hinv']. intros u [Hu|Hu]; [by left|right].
    apply list_elem_of_lookup in Hu as [i Hi]. exists i. by apply Hins.
Qed.

Lemma delete_all ks (m : gmap VnKey CfgValue) key v : fold_left (fun t k => delete k t) ks m !! key = Some v -> m !! key = Some v /\ key ∉ ks.
Proof.
  revert m. induction ks as [|k ks IH]; intros m; simpl; [intros ?; split; [done|by apply not_elem_of_nil]|].
  intros [[Hne Hm]%lookup_delete_Some Hn]%IH. split; [done|]. apply not_elem_of_cons. split; [congruence|done].
Qed.

Lemma leave_scope_ok b ks rest seen s : scan_inv ((b, ks) :: rest) seen s -> scan_inv rest seen (leave_scope s ks).
Proof.
  intros [H1 H2 H3 H4 H5]. split; simpl; try done. intros key f [Hk Hn]%delete_all.
  destruct (H3 key f Hk) as (? & ? & ? & d & ks' & i & [[= -> ->]|Ho]%elem_of_cons & ? & ?); [done|].
  split_and!; [done..|]. by exists d, ks', i.
Qed.
End Scan.
