(* ===== verification/CseWalk.v ===== *)
(** * Redundancy elimination: the walk

    The event stack of [Cse.v] visits every block of the dominator tree once,
    inside the scopes of its dominators; the unreachable blocks follow, each on
    its own, and no index or assertion fails. *)

From stdpp Require Import gmap.
From S2P Require Import Prelude IntegerSemantics Types Payload CfgData CfgEdit Worklist Cfg CfgRewrite Classify Dce Eval SlotFacts Csr Dominators DomDfs DomOrder DomLower Peephole Identities Exec SimplifyFold SimplifyMerge Cse CseScan.
Import Machine.

Section Walk.
Context (needs_drop : Type_ -> option bool) (c0 : Cfg) (Hok0 : cfg_ok c0) (Hentry : entry c0 < block_count c0) (Hrefs : refs_ok c0).
Context (Hatt : attached_once c0) (nw : list bool) (t : DominatorTree) (Ht : tree_exact c0 t).
Notation n := (block_count c0).
Notation P0 := (program_of c0).
Notation scan_inv := (scan_inv needs_drop c0 nw).

(** ** Dominance *)

Lemma program_path l b : Exec.path P0 l b <-> flow_path c0 l b.
Proof using Hok0.
  split.
  - induction 1 as [|l u v _ IH Hf]; [constructor|]. econstructor; [exact IH|]. by apply program_flow.
  - induction 1 as [|l u v _ IH Hf]; [apply (Exec.path_start P0)|]. econstructor; [exact IH|]. by apply program_flow.
Qed.

Lemma program_dominates a b : Exec.dominates P0 a b <-> dominated_by c0 a b.
Proof using Hok0. split; intros Hd l Hl; apply Hd; by apply program_path. Qed.

Lemma idom_strict b d : idom t b = Some d -> live_block c0 b /\ live_block c0 d /\ d <> b /\ Exec.dominates P0 d b.
Proof using Hentry Hok0 Ht. intros Hb. destruct (idom_facts c0 Hentry t Ht b d Hb) as (? & ? & ? & ? & _). rw program_dominates. done. Qed.

(** ** The stack *)

Definition pending (stack : list Event) : list BlockId := omap (fun e => match e with Enter c => Some c | Exit _ => None end) stack.
Definition weight (stack : list Event) : nat := sum_list ((fun e => match e with Enter _ => 2 | Exit _ => 1 end) <$> stack).

(** Exits close the open blocks, innermost first, and a block is entered
    right below its immediate dominator. *)
Fixpoint nested (stack : list Event) (open : list (BlockId * list VnKey)) : Prop :=
  match stack with
  | [] => open = []
  | Enter c :: stack =>
      match open with (p, _) :: _ => idom t c = Some p | [] => c = entry c0 end /\ nested stack open
  | Exit ks :: stack => exists b rest, open = (b, ks) :: rest /\ nested stack rest
  end.
Fixpoint chained (open : list (BlockId * list VnKey)) : Prop :=
  match open with
  | [] => True
  | (b, _) :: rest => (forall d ks, (d, ks) ∈ rest -> Exec.dominates P0 d b /\ d <> b) /\ chained rest
  end.

Definition seen_in (D : list BlockId) (v : CfgValue) : Prop := exists b i, b ∈ D /\ inst_at c0 b i v.

Record walk_inv (D : list BlockId) (stack : list Event) (open : list (BlockId * list VnKey)) (s : scan) : Prop := {
  wi_scan : scan_inv open (seen_in D) s;
  wi_nested : nested stack open;
  wi_chained : chained open;
  wi_open : forall b ks, (b, ks) ∈ open -> b ∈ D;
  wi_live : forall b, b ∈ D \/ b ∈ pending stack -> live_block c0 b;
  wi_closed : forall b, b ∈ D -> b = entry c0 \/ exists p, idom t b = Some p /\ p ∈ D;
  wi_once : NoDup (D ++ pending stack);
}.

Lemma walk_bound D stack open s : walk_inv D stack open s -> length D + length (pending stack) <= n.
Proof using Hok0 Hentry.
  intros Hi. rewrite -length_app -(length_seq n 0). apply submseteq_length, NoDup_submseteq; [apply (wi_once _ _ _ _ Hi)|].
  intros b Hb%elem_of_app. apply elem_of_seq. split; [lia|]. apply (live_lt c0 Hok0 Hentry). by apply (wi_live _ _ _ _ Hi).
Qed.

Lemma pending_app l1 l2 : pending (l1 ++ l2) = pending l1 ++ pending l2.
Proof. apply omap_app. Qed.
Lemma pending_enter row : pending (Enter <$> row) = row.
Proof. induction row as [|b row IH]; [done|]. by rw /= IH. Qed.
Lemma weight_app l1 l2 : weight (l1 ++ l2) = weight l1 + weight l2.
Proof. by rw /weight fmap_app sum_list_app. Qed.
Lemma weight_enter row : weight (Enter <$> row) = 2 * length row.
Proof. induction row as [|b row IH]; [done|]. rw /weight /= in IH *. rw IH. lia. Qed.

Lemma pending_parent stack : forall open c, nested stack open -> c ∈ pending stack ->
  c = entry c0 \/ exists p ks, idom t c = Some p /\ (p, ks) ∈ open.
Proof.
  induction stack as [|[b|ks] stack IH]; intros open c Hn Hc; simpl in *; [by apply not_elem_of_nil in Hc| |].
  - destruct Hn as [Hb Hn]. apply elem_of_cons in Hc as [->|Hc]; [|by apply (IH open)].
    destruct open as [|[p ks] open]; [by left|right]. exists p, ks. split; [done|by left].
  - destruct Hn as (b & rest & -> & Hn). destruct (IH rest c Hn Hc) as [?|(p & ks' & ? & ?)]; [by left|right].
    exists p, ks'. split; [done|by right].
Qed.

(** A pending block is new, and so are its instructions. *)
Lemma entered_new D c stack open s : walk_inv D (Enter c :: stack) open s -> c ∉ D /\ c ∉ pending stack /\ forall i u, inst_at c0 c i u -> ~ seen_in D u.
Proof using Hatt.
  intros Hi. pose proof (wi_once _ _ _ _ Hi) as Hnd. simpl in Hnd. apply NoDup_app in Hnd as (_ & Hdis & Hnd).
  apply NoDup_cons in Hnd as [Hn _]. assert (c ∉ D) as HcD by (intros Hc; apply (Hdis c Hc); by left). split_and!; [done..|].
  intros i u Hu (b & j & Hb & Hu'). destruct (at_inst _ Hatt _ _ _ _ _ Hu Hu') as [-> _]. done.
Qed.

(** ** The walk ends *)

Context (rows : list (list BlockId)) (Hrows : forall p, p < n -> rows !! p = Some (filter (fun c => idom t c = Some p) (seq 0 n))).

Lemma enter_ok D c stack open s : walk_inv D (Enter c :: stack) open s -> exists s' intro row,
  scan_block needs_drop nw s c = Some (s', intro) /\ rows !! c = Some row /\
  walk_inv (c :: D) ((Enter <$> row) ++ Exit intro :: stack) ((c, intro) :: open) s'.
Proof using All.
  intros Hi. destruct (entered_new D c stack open s Hi) as (HcD & Hcp & Hnew). pose proof Hi as [Hsc [Hpar Hnest] Hch Hop Hlive Hcl Hnd].
  assert (live_block c0 c) as Hlc by (apply Hlive; right; by left). assert (c < n) as Hcn by by apply live_lt.
  assert (forall d ks, (d, ks) ∈ open -> Exec.dominates P0 d c /\ d <> c) as Habove.
  { intros d ks Hd. split; [|intros ->; by eapply HcD, Hop]. destruct open as [|[p ks'] open]; [by apply not_elem_of_nil in Hd|].
    destruct (idom_strict c p Hpar) as (_ & _ & _ & Hdom). apply elem_of_cons in Hd as [[= -> ->]|Hd]; [done|].
    simpl in Hch. by apply (dominates_trans _ _ p); [apply (proj1 Hch d ks)|]. }
  destruct (scan_block_ok needs_drop c0 Hok0 Hrefs nw Hatt open c s _ Hsc Hcn Hnew Habove) as (s' & intro & Hs' & Hinv').
  exists s', intro, (filter (fun b => idom t b = Some c) (seq 0 n)). split; [done|]. split; [by apply Hrows|].
  set (row := filter _ _) in *. assert (forall b, b ∈ row -> idom t b = Some c) as Hrow by by intros b [? _]%list_elem_of_filter.
  assert (forall b, b ∈ row -> b ∉ c :: D /\ b ∉ pending stack) as Hfresh.
  { intros b Hb%Hrow. destruct (idom_strict b c Hb) as (_ & _ & Hne & _).
    assert (b <> entry c0) as Hbe by (intros ->; by rw (idom_entry c0 Hentry t Ht) in Hb *). split.
    - apply not_elem_of_cons. split; [done|]. intros HbD. destruct (Hcl b HbD) as [?|(p & Hp & HpD)]; [done|].
      assert (p = c) as -> by congruence. done.
    - intros Hbp. destruct (pending_parent stack open b Hnest Hbp) as [?|(p & ks & Hp & Hpo)]; [done|].
      assert (p = c) as -> by congruence. by eapply HcD, Hop. }
  split.
  - eapply scan_inv_seen; [|exact Hinv']. intros u [(b & i & Hb & Hu)|[i Hu]]; [exists b, i; split; [by right|done]|].
    exists c, i. split; [by left|done].
  - clear -Hrow Hnest. revert Hrow. generalize row. intros l Hl. induction l as [|b l IH]; simpl; [by exists c, open|].
    split; [apply Hl; by left|]. apply IH. intros x Hx. apply Hl. by right.
  - by split.
  - intros b ks [[= -> ->]|Hb]%elem_of_cons; [by left|right; by eapply Hop].
  - intros b. rw pending_app pending_enter /=. intros [[->|Hb]%elem_of_cons|[Hb|Hb]%elem_of_app]; [done|apply Hlive; by left| |].
    + by destruct (idom_strict b c (Hrow b Hb)).
    + apply Hlive. right. simpl. by right.
  - intros b [->|Hb]%elem_of_cons.
    + destruct open as [|[p ks] open]; [by left|right]. exists p. split; [done|right]. eapply Hop. by left.
    + destruct (Hcl b Hb) as [?|(p & ? & ?)]; [by left|right]. exists p. split; [done|by right].
  - rw pending_app pending_enter. change (pending (Exit intro :: stack)) with (pending stack). simpl in Hnd. apply NoDup_app in Hnd as (HD & Hdis & Hp). apply NoDup_cons in Hp as [_ Hp].
    apply NoDup_app. split_and!; [by constructor| |].
    + intros b Hb [Hb2|Hb2]%elem_of_app; [by destruct (Hfresh b Hb2)|]. apply elem_of_cons in Hb as [->|Hb]; [done|].
      apply (Hdis b Hb). by right.
    + apply NoDup_app. split_and!; [apply NoDup_filter, NoDup_seq| |done]. intros b Hb. by destruct (Hfresh b Hb).
Qed.

Lemma exit_ok D ks stack open s : walk_inv D (Exit ks :: stack) open s -> exists rest, walk_inv D stack rest (leave_scope s ks).
Proof.
  intros [Hsc (b & rest & -> & Hnest) Hch Hop Hlive Hcl Hnd]. exists rest. split; try done.
  - by eapply leave_scope_ok.
  - by destruct Hch.
  - intros d ks' Hd. eapply Hop. by right.
Qed.

Lemma walk_ok fuel : forall D stack open s, walk_inv D stack open s ->
  2 * (n - length D - length (pending stack)) + weight stack < fuel ->
  exists s' D', walk needs_drop fuel nw rows stack s = Some s' /\ scan_inv [] (seen_in D') s' /\ forall b, b ∈ D' -> live_block c0 b.
Proof using All.
  induction fuel as [|fuel IH]; intros D stack open s Hi Hf; [lia|]. destruct stack as [|[c|ks] stack].
  - exists s, D. pose proof Hi as [Hsc Hn _ _ Hlive _ _]. simpl in Hn. subst open. split_and!; [done..|]. intros b Hb. apply Hlive. by left.
  - destruct (enter_ok D c stack open s Hi) as (s' & intro & row & Hs & Hr & Hi'). cbn [walk]. rw Hs. cbn [mbind option_bind]. rw Hr.
    cbn [mbind option_bind]. apply (IH (c :: D) _ ((c, intro) :: open) s' Hi'). pose proof (walk_bound _ _ _ _ Hi') as Hb'.
    rw pending_app pending_enter in Hb' *. rw weight_app weight_enter length_app. simpl in *.
    assert (weight (Exit intro :: stack) = S (weight stack)) as -> by done.
    assert (weight (Enter c :: stack) = 2 + weight stack) as Hw by done. rw Hw in Hf *. simpl in *. rw length_app in Hb' *. simpl in *. lia.
  - destruct (exit_ok D ks stack open s Hi) as [rest Hi']. cbn [walk]. apply (IH D stack rest _ Hi').
    assert (weight (Exit ks :: stack) = S (weight stack)) as Hw by done. rw Hw in Hf *. simpl in *. lia.
Qed.
End Walk.

(** ** The whole numbering *)

Lemma set_values_id c : set_values (values c) c = c.
Proof. by destruct c. Qed.

Section Numbering.
Context (needs_drop : Type_ -> option bool) (c0 : Cfg) (Hok0 : cfg_ok c0) (Hentry : entry c0 < block_count c0) (Hrefs : refs_ok c0).
Context (Hatt : attached_once c0).
Notation n := (block_count c0).

Lemma dimmed_start : dimmed c0 (replicate (value_count c0) None) c0.
Proof using Hok0.
  split; [done|exists (values c0); by rw set_values_id|]. intros v i Hi. rw lookup_replicate_2 //. by eapply lookup_lt_Some.
Qed.

Lemma start_inv nw open : scan_inv needs_drop c0 nw open (seen_in c0 []) (mkScan c0 (replicate (value_count c0) None) ∅ (mkStats 0 0 0 1)).
Proof using Hok0.
  split; simpl.
  - apply dimmed_start.
  - apply length_replicate.
  - intros key f Hk. by rw lookup_empty in Hk *.
  - intros v f Hl. rw /link in Hl *. by apply lookup_replicate in Hl as [? _].
  - intros _ v f Hl. rw /link in Hl *. by apply lookup_replicate in Hl as [? _].
Qed.

Lemma number_values_ok : exists nw s, classify_never_written_params c0 = Some nw /\ number_values needs_drop c0 = Some s /\
  scan_inv needs_drop c0 nw [] (fun _ => True) s.
Proof using All.
  destruct (never_written_exact c0 Hok0 Hrefs) as (nw & _ & Hnw & _). destruct (compute_exact c0 Hok0 Hentry) as (t & Hc & Ht).
  destruct (push_child_rows t n) as (rows & Hrows & Hrow).
  { intros c p _ Hp. destruct (idom_facts c0 Hentry t Ht c p Hp) as (_ & Hl & _). by apply live_lt. }
  assert (live_block c0 (entry c0)) as Hle by constructor.
  assert (is_reachable t (entry c0) = true) as Hre by by apply (x_reach _ _ Ht).
  destruct (walk_ok needs_drop c0 Hok0 Hentry Hrefs Hatt nw t Ht rows Hrow (S (2 * n)) [] [Enter (entry c0)] []
    (mkScan c0 (replicate (value_count c0) None) ∅ (mkStats 0 0 0 1))) as (s & D & Hwalk & Hinv & HD).
  { split; try done; [apply start_inv|by intros b ks ?%not_elem_of_nil| |by intros b ?%not_elem_of_nil|].
    - intros b [Hb|Hb]; [by apply not_elem_of_nil in Hb|]. by apply list_elem_of_singleton in Hb as ->.
    - apply NoDup_singleton. }
  { rw /weight /=. lia. }
  assert (sc_table s = ∅) as Hempty.
  { apply map_empty. intros key. destruct (sc_table s !! key) as [f|] eqn:Hf; [|done].
    destruct (si_table _ _ _ _ _ _ Hinv key f Hf) as (_ & _ & _ & b & ks & i & Ho & _). by apply not_elem_of_nil in Ho. }
  destruct (fold_seq_total (scan_dead needs_drop nw t)
    (fun k => scan_inv needs_drop c0 nw [] (fun v => exists b i, inst_at c0 b i v /\ (live_block c0 b \/ b < k))) n s)
    as (s' & Hdead & Hinv').
  - eapply scan_inv_seen; [|exact Hinv]. intros v (b & i & Hb & Hv). exists b, i. split; [done|left; by apply HD].
  - intros k u Hk Hu. rw /scan_dead. destruct (is_reachable t k) eqn:Hr.
    + exists u. split; [done|]. eapply scan_inv_seen; [|exact Hu]. intros v (b & i & Hv & [Hb|Hb]); exists b, i; split; try done; [by left|right; lia].
    + destruct (scan_block_ok needs_drop c0 Hok0 Hrefs nw Hatt [] k u _ Hu Hk) as (u' & intro & -> & Hu').
      * intros i v Hv (b & j & Hb & Hlt). destruct (at_inst _ Hatt _ _ _ _ _ Hv Hb) as [<- _]. destruct Hlt as [Hl|Hl]; [|lia].
        apply (x_reach _ _ Ht) in Hl. congruence.
      * by intros d ks ?%not_elem_of_nil.
      * cbn [mbind option_bind]. eexists. split; [done|]. apply leave_scope_ok with (b := k). eapply scan_inv_seen; [|exact Hu'].
        intros v [(b & i & Hv & [Hb|Hb])|[i Hv]]; [exists b, i; split; [done|by left]|exists b, i; split; [done|right; lia]|exists k, i; split; [done|right; lia]].
  - exists nw, s'. split; [done|]. split; [|by eapply scan_inv_seen; [|exact Hinv']].
    rw /number_values Hnw. cbn [mbind option_bind]. rw Hc. cbn [mbind option_bind]. rw Hrows. cbn [mbind option_bind].
    rw Hre Hwalk. cbn [mbind option_bind]. rw bool_decide_true //.
Qed.
End Numbering.
