(* ===== verification/CseRun.v ===== *)
(** * Redundancy elimination: the pass

    [run] of [Cse.v]: equal keys are the same computation, so the program after
    the sweep is a deduplication of the original in the sense of [CseSem]. *)

From stdpp Require Import gmap.
From S2P Require Import Prelude IntegerSemantics Types Payload CfgData CfgEdit Worklist Cfg CfgRewrite Classify Dce Eval SlotFacts Csr Dominators DomDfs DomOrder Peephole Identities Exec SimplifyFold SimplifyMerge SimplifyChains SimplifyRun Cse CseSem CseScan CseWalk.
Import Machine.

(** ** What a key stands for *)

Definition key_ty (k : VnKey) : Type_ :=
  match k with KConst _ t | KBoolConst _ t | KStringConst _ t | KParam _ t | KUnary _ _ t | KBinary _ _ _ t => t end.
Definition key_args (k : VnKey) : list CfgValue :=
  match k with KUnary _ a _ => [a] | KBinary _ a b _ => [a; b] | _ => [] end.
Definition key_shape (k : VnKey) : CfgInstData :=
  match k with
  | KConst v _ => IConst v
  | KBoolConst b _ => IBoolConst b
  | KStringConst i _ => IStringConst i
  | KParam i _ => IParam i
  | KUnary tag _ _ => match tag with 16 => INeg 0 | 17 => INot 0 | _ => IBitNot 0 end
  | KBinary tag _ _ _ =>
      match tag with
      | 0 => IAdd 0 0 | 1 => IMul 0 0 | 2 => IEq 0 0 | 3 => INe 0 0 | 4 => IBitAnd 0 0 | 5 => IBitOr 0 0 | 6 => IBitXor 0 0
      | 7 => ISub 0 0 | 8 => IDiv 0 0 | 9 => IMod 0 0 | 10 => ILt 0 0 | 11 => IGt 0 0 | 12 => ILe 0 0 | 13 => IGe 0 0
      | 14 => IShl 0 0 | 15 => IShr 0 0 | 19 => IWrappingAdd 0 0 | 20 => IWrappingMul 0 0 | _ => IWrappingSub 0 0
      end
  end.

(** The operands of an operation are a key's, in some order for a symmetric
    one. *)
Definition args_match (shape : CfgInstData) (us ks : list CfgValue) : Prop :=
  us = ks \/ comm_shape shape = true /\ exists x y, us = [x; y] /\ ks = [y; x].

Ltac key_case Hnd :=
  eexists; split; [reflexivity|]; cbn; rewrite ?Hnd; split; [done|]; do 3 (split; [reflexivity|]);
  (split; [first [left; by eexists|right; left; reflexivity]|
           first [left; reflexivity|right; split; [reflexivity|]; do 2 eexists; split; reflexivity]]).

Section Keys.
Context (needs_drop : Type_ -> option bool) (c : Cfg) (nw : list bool).
Definition frozen (i : nat) : Prop := nw !! i = Some true.

Lemma matches_view r v key : matches needs_drop c nw r v key -> exists iv, view_inst c v = Some iv /\
  needs_drop (iv_ty iv) = Some false /\ iv_ty iv = key_ty key /\ iv_shape iv = key_shape key /\
  iv_literal iv = literal_of (key_shape key) /\ reusable frozen iv /\ args_match (key_shape key) (r <$> iv_uses iv) (key_args key).
Proof.
  rw /matches /key_of /materializes_owned_value /view_inst /visit_instruction_uses /visit_instruction_uses_kinded.
  destruct (get_inst c v) as [i|]; [|done]. cbn [mbind option_bind]. destruct (needs_drop (ty i)) as [[]|] eqn:Hnd; [done| |done].
  cbn [default from_option]. intros Hk. rw /reusable /args_match.
  destruct (data i) eqn:Hd; cbn [mbind option_bind] in Hk; try discriminate Hk; try (injection Hk as <-; key_case Hnd);
    try (rewrite /commutative in Hk; destruct (Nat.leb (r a) (r b)); injection Hk as <-; key_case Hnd).
  destruct (nw !! index) as [[]|] eqn:Hi; cbn in Hk; try done. injection Hk as <-. eexists. split; [reflexivity|]. cbn. rewrite Hnd.
  split_and!; try done; [|by left]. right. right. by exists index.
Qed.

Lemma keyed_same subst v f key : keyed needs_drop c nw subst v key -> keyed needs_drop c nw subst f key ->
  exists iv ivf, view_inst c v = Some iv /\ view_inst c f = Some ivf /\ needs_drop (iv_ty iv) = Some false /\ same_op (rep subst) frozen iv ivf.
Proof.
  intros (r1 & Hr1 & (iv & Hiv & Hnd & Hty & Hsh & Hlit & _ & Hargs)%matches_view) (r2 & Hr2 & (ivf & Hivf & _ & Htyf & Hshf & Hlitf & Hre & Hargsf)%matches_view).
  exists iv, ivf. split_and!; [done..|]. split_and!; try congruence.
  assert (forall r (us : list CfgValue), (forall u, rep subst (r u) = rep subst u) -> rep subst <$> us = rep subst <$> (r <$> us)) as Hmap.
  { intros r us Hr. rewrite -list_fmap_compose. apply list_fmap_ext. intros i u _. symmetry. apply Hr. }
  rw (Hmap r1 (iv_uses iv) Hr1) (Hmap r2 (iv_uses ivf) Hr2) Hshf.
  destruct Hargs as [->|(Hc & x & y & -> & Hk)], Hargsf as [->|(Hc2 & x2 & y2 & -> & Hk2)]; [by left| | |].
  - rw Hk2. right. split; [done|]. eexists _, _. by split.
  - rw Hk. right. split; [done|]. eexists _, _. by split.
  - left. rewrite Hk in Hk2. by injection Hk2 as <- <-.
Qed.
End Keys.

(** ** Parameter slots *)

(** What the world promises of parameters: an instruction none of whose write
    events can touch a slot that is neither assignable nor has its address
    taken leaves the slot's content. *)
Definition params_framed `{PureInterp W} (c : Cfg) : Prop :=
  forall b blk v es i T iv rs (w w' : W) r,
    blocks c !! b = Some blk -> v ∈ insts blk -> inst_events c b v = Some es -> existsb (touches_param i) es = false ->
    is_param_writable c i = false -> is_param_address_taken c i = false ->
    view_inst c v = Some iv -> prim v (iv_ty iv) (iv_shape iv) (iv_content iv) rs w = (w', r) ->
    param_value T i w' = param_value T i w.

Section Frozen.
Context (c : Cfg) (Hok : cfg_ok c) (Hrefs : refs_ok c) (nw : list bool) (Hnw : classify_never_written_params c = Some nw).

Lemma frozen_events i b blk v : frozen nw i -> blocks c !! b = Some blk -> v ∈ insts blk ->
  is_param_writable c i = false /\ is_param_address_taken c i = false /\
  exists es, inst_events c b v = Some es /\ existsb (touches_param i) es = false.
Proof using Hok Hrefs Hnw.
  intros Hi Hb Hv. destruct (never_written_exact c Hok Hrefs) as (nw' & all & Hnw' & Hall & Hlen & Hex).
  assert (nw' = nw) as -> by congruence. pose proof (lookup_lt_Some _ _ _ Hi) as Hlt. rw Hlen in Hlt *. rw /frozen (Hex i Hlt) in Hi *.
  injection Hi as Hi. apply andb_true_iff in Hi as [Hi He]. apply andb_true_iff in Hi as [Hw Ha].
  apply negb_true_iff in Hw, Ha, He. split_and!; [done..|].
  pose proof (ok_blocks _ Hok _ _ Hb) as Hbo. pose proof (block_ok_insts _ _ _ Hbo) as Hf. rewrite Forall_forall in Hf.
  destruct (inst_events_total c Hok Hrefs b v) as [es Hes]; [by apply Hf|]. exists es. split; [done|].
  apply not_true_iff_false. intros Ht. apply existsb_exists in Ht as (e & Hin & Hte). apply not_true_iff_false in He. apply He.
  apply existsb_exists. exists e. split; [|done]. apply list_elem_of_In. rw /cfg_events in Hall *.
  assert (blk ∈ blocks c) as Hblk by by eapply list_elem_of_lookup_2.
  destruct (flat_opt_inv _ _ _ blk Hall Hblk) as [es1 He1]. apply (flat_opt_elem _ _ _ _ Hall). exists blk, es1. split_and!; [done..|].
  cbn [scanned negb] in He1. rewrite (block_ok_id _ _ _ Hbo) in He1. apply (flat_opt_elem _ _ _ _ He1).
  exists v, es. split_and!; [done..|]. by apply list_elem_of_In.
Qed.
End Frozen.

(** ** The numbered owner *)

Section Numbered.
Context (needs_drop : Type_ -> option bool) (c0 : Cfg) (Hok0 : cfg_ok c0) (Hrefs : refs_ok c0) (Hatt : attached_once c0).
Context (nw : list bool) (s : scan) (Hinv : scan_inv needs_drop c0 nw [] (fun _ => True) s).
Notation n := (value_count c0).
Notation c1 := (sc_cfg s).
Notation m := (rep (sc_subst s)).

Lemma numbered_count : value_count c1 = n.
Proof using Hinv. destruct (dm_frame _ _ _ (si_cfg _ _ _ _ _ _ Hinv)) as (vs & Hc & Hl). by rw Hc /value_count /=. Qed.

Lemma numbered_bound : (forall u, u ∈ ownership_boundary_values c0 -> u < n) -> forall u, u ∈ ownership_boundary_values c1 -> u < value_count c1.
Proof using Hinv. intros Hb u. rw numbered_count. destruct (dm_frame _ _ _ (si_cfg _ _ _ _ _ _ Hinv)) as (vs & Hc & _). rw Hc /=. apply Hb. Qed.

Lemma numbered_block b : view_block c1 b = view_block c0 b.
Proof using Hinv. destruct (dm_frame _ _ _ (si_cfg _ _ _ _ _ _ Hinv)) as (vs & Hc & _). rw Hc. done. Qed.

Lemma numbered_uses v us : visit_instruction_uses c1 v = Some us -> us = [] \/ visit_instruction_uses c0 v = Some us.
Proof using Hinv.
  destruct (dm_frame _ _ _ (si_cfg _ _ _ _ _ _ Hinv)) as (vs & Hc & Hl). rw /visit_instruction_uses /visit_instruction_uses_kinded.
  destruct (get_inst c0 v) as [i|] eqn:Hi.
  - rw (dm_get _ _ _ (si_cfg _ _ _ _ _ _ Hinv) v i Hi). intros Hus. destruct (mjoin (sc_subst s !! v)); [left; by injection Hus as <-|right].
    rewrite -Hus. cbn [mbind option_bind]. rewrite (data_uses_stores c1 c0); [done|by rewrite Hc..].
  - destruct (get_inst c1 v) as [i|] eqn:Hi1; [|done]. apply lookup_lt_Some in Hi1. rewrite -/(value_count c1) numbered_count in Hi1.
    apply lookup_ge_None in Hi. rw /value_count in Hi1 *. lia.
Qed.

Lemma numbered_refs : refs_ok c1.
Proof using Hinv Hrefs.
  split.
  - intros v us Hv. rw numbered_count in Hv *. intros [->|Hus]%numbered_uses; [constructor|]. by apply (refs_insts _ Hrefs v).
  - destruct (dm_frame _ _ _ (si_cfg _ _ _ _ _ _ Hinv)) as (vs & Hc & _). rw numbered_count. intros i b us. rw Hc. apply (refs_terms _ Hrefs).
Qed.

Lemma numbered_inst v : m v = v -> view_inst c1 v = view_inst c0 v.
Proof using Hinv.
  intros Hm. assert (forall g, ~ link (sc_subst s) v g) as Hroot.
  { intros g Hg. pose proof (dups_root _ _ _ _ _ _ _ _ Hinv Hg) as Hr. rewrite (rep_link _ _ _ Hg) in Hm. subst g. by apply (Hr v). }
  rw /view_inst /visit_instruction_uses /visit_instruction_uses_kinded (get_inst_root _ _ _ _ _ _ _ Hinv Hroot).
  destruct (dm_frame _ _ _ (si_cfg _ _ _ _ _ _ Hinv)) as (vs & Hc & _). rw Hc. destruct (get_inst c0 v) as [i|]; [|done]. cbn [mbind option_bind].
  rw (data_uses_stores (set_values vs c0) c0) //.
Qed.

Lemma numbered_zero v : m v <> v -> exists iv iv0, view_inst c1 v = Some iv /\ view_inst c0 v = Some iv0 /\ iv_ty iv = iv_ty iv0 /\
  iv_literal iv = Some (RInt 0).
Proof using Hinv Hok0.
  intros Hm%rep_changed. destruct (si_dups _ _ _ _ _ _ Hinv v _ Hm) as (_ & _ & _ & _ & b & j & d & i & Hat & _).
  apply (inst_at_lt c0 Hok0) in Hat. destruct (view_inst_total c0 v Hok0 Hat) as [iv0 Hiv0]. rewrite Hiv0.
  rw /view_inst in Hiv0 *. destruct (get_inst c0 v) as [k|] eqn:Hk; [|done]. cbn [mbind option_bind] in Hiv0.
  rw /visit_instruction_uses /visit_instruction_uses_kinded (dm_get _ _ _ (si_cfg _ _ _ _ _ _ Hinv) v k Hk). rewrite /link in Hm. rw Hm.
  destruct (visit_instruction_uses c0 v); [|done]. injection Hiv0 as <-. do 2 eexists. by split_and!.
Qed.

(** The swept owner is the deduplication. *)
Lemma numbered_deduped c' : entry c' = entry c1 ->
  (forall v, view_inst c' v = map_inst_view m <$> view_inst c1 v) ->
  (forall b, view_block c' b = (fun bv => mkBlockView (v_params bv) (v_insts bv) (map_term_view m (v_term bv))) <$> view_block c1 b) ->
  deduped (program_of c0) (program_of c') m (frozen nw).
Proof using Hinv Hok0 Hatt.
  intros He Hi Hb. assert (forall b bv j v, view_block c0 b = Some bv -> v_insts bv !! j = Some v -> inst_at c0 b j v) as Hat.
  { intros b bv j v (blk & Hblk & _ & His & _)%view_block_Some Hj. exists blk. by rw -His. }
  split; simpl.
  - rw He. by destruct (dm_frame _ _ _ (si_cfg _ _ _ _ _ _ Hinv)) as (vs & -> & _).
  - intros b. by rw Hb numbered_block.
  - intros v Hv. by rw Hi numbered_inst.
  - intros v (iv & _ & Hiv & _ & _ & Hl)%numbered_zero. exists (map_inst_view m iv). by rw Hi Hiv.
  - intros b bv v _ Hbv Hv. destruct (decide (m v = v)) as [|Hne]; [done|]. apply rep_changed in Hne.
    destruct (si_dups _ _ _ _ _ _ Hinv v _ Hne) as (_ & _ & _ & _ & b' & j & d & i & Hat' & _).
    apply view_block_Some in Hbv as (blk & Hblk & Hps & _). exfalso. eapply (at_param _ Hatt); [exact Hblk|by rewrite -Hps|exact Hat'].
  - intros b bv j v _ Hbv Hj Hne. split; [by eapply rep_idem|]. apply rep_changed in Hne.
    destruct (si_dups _ _ _ _ _ _ Hinv v _ Hne) as (_ & _ & _ & (key & Hk1 & Hk2) & b' & j' & d & i & Hat1 & (blk & Hblk & Hfi) & Hdom & Hlt).
    destruct (at_inst _ Hatt _ _ _ _ _ (Hat _ _ _ _ Hbv Hj) Hat1) as [<- <-].
    destruct (keyed_same needs_drop c0 nw _ v _ key Hk1 Hk2) as (iv & ivf & ? & ? & _ & ?). split; [|by exists iv, ivf].
    destruct (view_block_total c0 d Hok0) as [dv Hdv]; [by eapply lookup_lt_Some|]. exists d, dv, i. split_and!; [done| |done|done].
    apply view_block_Some in Hdv as (blk' & Hblk' & _ & -> & _). by assert (blk' = blk) as -> by congruence.
Qed.

(** A value that is replaced owns nothing. *)
Lemma numbered_owned v iv : view_inst c0 v = Some iv -> needs_drop (iv_ty iv) <> Some false -> m v = v.
Proof using Hinv.
  intros Hv Hnd. destruct (decide (m v = v)) as [|Hne]; [done|]. apply rep_changed in Hne.
  destruct (si_dups _ _ _ _ _ _ Hinv v _ Hne) as (_ & _ & _ & (key & Hk1 & Hk2) & _).
  destruct (keyed_same needs_drop c0 nw _ v _ key Hk1 Hk2) as (iv' & ivf & Hiv & _ & Hnd' & _). congruence.
Qed.
End Numbered.

Lemma map_inst_view_ext (f g : CfgValue -> CfgValue) iv : (forall v, f v = g v) -> map_inst_view f iv = map_inst_view g iv.
Proof. intros Hfg. rw /map_inst_view. f_equal. by apply list_fmap_ext. Qed.
Lemma map_term_view_ext (f g : CfgValue -> CfgValue) t : (forall v, f v = g v) -> map_term_view f t = map_term_view g t.
Proof. intros Hfg. destruct t as [| | |[v|]|]; simpl; f_equal; try done; try (by apply list_fmap_ext). by rw Hfg. Qed.

(** Every instruction keeps its type, and one whose value owns resources its
    operation. *)
Definition owners_kept (needs_drop : Type_ -> option bool) (P P' : Program) : Prop :=
  forall v iv, p_inst P v = Some iv -> exists iv', p_inst P' v = Some iv' /\ iv_ty iv' = iv_ty iv /\
    (needs_drop (iv_ty iv) <> Some false -> iv_shape iv' = iv_shape iv /\ iv_literal iv' = iv_literal iv).

(** C7.  Redundancy elimination keeps every execution: on a well-formed
    owner in SSA form whose values are attached once no assertion or index of
    the pass fails and its walk ends with an empty table; unless a payload
    store is full, the result is well formed, an instruction whose value owns
    resources is still there, and from every environment and world the
    new graph returns, traps or gets stuck with the same world and value as
    the original, or like it never ends - whenever a repeated computation is
    dropped, its first occurrence dominates it and computed the value that its
    uses now read. *)
Theorem cse_sound `{Alloc} `{PureInterp W} (needs_drop : Type_ -> option bool) (cfg : Cfg) (Hok : cfg_ok cfg)
    (Hentry : entry cfg < block_count cfg) (Hrefs : refs_ok cfg)
    (Hbound : forall u, u ∈ ownership_boundary_values cfg -> u < value_count cfg)
    (Hssa : ssa (program_of cfg)) (Hord : ordered (program_of cfg)) (Hatt : attached_once cfg)
    (Hparams : params_framed (W := W) cfg) :
  match Cse.run needs_drop cfg with
  | Ok (cfg', _) =>
      cfg_ok cfg' /\ owners_kept needs_drop (program_of cfg) (program_of cfg') /\
      same_behaviour (W := W) (program_of cfg) (program_of cfg')
  | Err _ => True
  | Panic => False
  end.
Proof.
  destruct (number_values_ok needs_drop cfg Hok Hentry Hrefs Hatt) as (nw & s & Hnw & Hs & Hinv). rewrite /Cse.run Hs. cbn [expect mbind res_bind].
  set (m := rep (sc_subst s)). pose proof (si_cfg _ _ _ _ _ _ Hinv) as Hd.
  assert (forall c' f, (forall v, f v = m v) -> cfg_ok c' -> entry c' = entry (sc_cfg s) ->
    (forall v, view_inst c' v = map_inst_view f <$> view_inst (sc_cfg s) v) ->
    (forall b, view_block c' b = (fun bv => mkBlockView (v_params bv) (v_insts bv) (map_term_view f (v_term bv))) <$> view_block (sc_cfg s) b) ->
    cfg_ok c' /\ owners_kept needs_drop (program_of cfg) (program_of c') /\ same_behaviour (W := W) (program_of cfg) (program_of c')) as Hfin.
  { intros c' f Hf Hok' He Hi0 Hb0.
    assert (forall v, view_inst c' v = map_inst_view m <$> view_inst (sc_cfg s) v) as Hi.
    { intros v. rw Hi0. destruct (view_inst (sc_cfg s) v) as [iv|]; [|done]. simpl. by rw (map_inst_view_ext f m). }
    assert (forall b, view_block c' b = (fun bv => mkBlockView (v_params bv) (v_insts bv) (map_term_view m (v_term bv))) <$> view_block (sc_cfg s) b) as Hb.
    { intros b. rw Hb0. destruct (view_block (sc_cfg s) b) as [bv|]; [|done]. simpl. by rw (map_term_view_ext f m). }
    split_and!; [done| |].
    - intros v iv Hv. simpl in *. rewrite Hi. destruct (decide (m v = v)) as [Hm|Hm].
      + rw (numbered_inst _ _ _ _ Hinv v Hm) Hv. eexists. by split_and!.
      + destruct (numbered_zero _ _ Hok _ _ Hinv v Hm) as (iv' & iv0 & -> & Hv0 & Hty & _). assert (iv0 = iv) as -> by congruence.
        eexists. split; [done|]. split; [done|]. intros Hnd. destruct Hm. by eapply numbered_owned.
    - apply (dedup_behaviour _ _ m (frozen nw)); [done..|by apply (numbered_deduped needs_drop)|].
      intros b bv v iv rs w w' r i T _ Hbv Hv Hiv _ Hp Hfr. apply view_block_Some in Hbv as (blk & Hblk & _ & His & _). rewrite His in Hv.
      destruct (frozen_events cfg Hok Hrefs nw Hnw i b blk v Hfr Hblk Hv) as (Hw & Ha & es & Hes & Ht). by eapply Hparams. }
  destruct (Nat.ltb_spec 0 (duplicates_replaced (sc_stats s))) as [_|Hz].
  - assert (value_count (sc_cfg s) = value_count cfg) as Hn by by eapply numbered_count.
    destruct (mapM_is_Some_2 (resolve (length (sc_subst s)) (sc_subst s)) (seq 0 (value_count (sc_cfg s)))) as [resolved Hr].
    { apply Forall_forall. intros v Hv%elem_of_seq. eexists. eapply (resolve_rep _ _ Hok); [exact Hinv|]. lia. }
    rw Hr. cbn [expect mbind res_bind]. apply mapM_Some in Hr. pose proof (Forall2_length _ _ _ Hr) as Hl. rewrite length_seq in Hl.
    assert (forall v, default v (resolved !! v) = m v) as Hm.
    { intros v. destruct (resolved !! v) as [w|] eqn:Hw; simpl.
      - destruct (Forall2_lookup_r _ _ _ _ _ Hr Hw) as (v' & Hv' & Hres). apply lookup_seq in Hv' as [-> Hlt]. simpl in Hres.
        rewrite (resolve_rep _ _ Hok _ _ _ _ _ Hinv) in Hres; [by injection Hres|lia].
      - apply lookup_ge_None in Hw. rw /m /rep. assert (sc_subst s !! v = None) as ->; [|done]. apply lookup_ge_None.
        rewrite (si_len _ _ _ _ _ _ Hinv). lia. }
    pose proof (sweep_resolved (sc_cfg s) resolved (dm_ok _ _ _ Hd) (numbered_refs _ _ Hrefs _ _ Hinv) (numbered_bound _ _ _ _ Hinv Hbound) (eq_sym Hl)) as Hsw.
    destruct (expect (swept_operands (sc_cfg s))) as [ops|e|]; cbn [mbind res_bind] in Hsw |- *; [|done..].
    destruct (expect (mapM (fun v => resolved !! v) ops)) as [rs|e|]; cbn [mbind res_bind] in Hsw |- *; [|done..].
    destruct (rewrite_value_uses_in_place _ (sc_cfg s)) as [c2|e|]; cbn [mbind res_bind]; [|done..].
    destruct Hsw as [Hok2 Hsw]. apply (Hfin c2 _ Hm); [done|by destruct Hsw as (_ & _ & _ & ? & _)| |].
    + intros v. by apply renamed_inst; [apply (dm_ok _ _ _ Hd)|].
    + intros b. by apply renamed_block; [apply (dm_ok _ _ _ Hd)|].
  - apply (Hfin (sc_cfg s) id); [|apply (dm_ok _ _ _ Hd)|done| |].
    + intros v. symmetry. apply rep_root. apply (si_none _ _ _ _ _ _ Hinv). lia.
    + intros v. destruct (view_inst (sc_cfg s) v) as [iv|]; [|done]. by rw /= map_inst_view_id.
    + intros b. destruct (view_block (sc_cfg s) b) as [[ps vs tm]|]; [|done]. by rw /= map_term_view_id.
Qed.

(** ** Witness *)

(** Two sums of the same parameters, the second commuted and in a branch that
    writes the third parameter. *)
Definition twice_edits : list edit :=
  let at_i32 b d := EdAppendInst b (mkInst d TI32 (span_new 0 0)) in
  [EdNewBlock; EdNewBlock; EdNewBlock;
   at_i32 0 (IParam 0); at_i32 0 (IParam 1); at_i32 0 (IAdd 0 1); at_i32 0 (IConst 9);
   EdAppendInst 0 (mkInst (ILt 2 3) TBOOL (span_new 0 0));
   EdBranch 0 4 1 [] 2 [];
   at_i32 1 (IParam 1); at_i32 1 (IParam 0); at_i32 1 (IAdd 5 6);
   EdAppendInst 1 (mkInst (IParamStore 2 7) TUNIT (span_new 0 0));
   at_i32 1 (IParam 2); EdReturn 1 (Some 9);
   at_i32 2 (IParam 2); EdReturn 2 (Some 10)].
Definition twice_empty : Cfg := cfg_new 0 TI32 0 3 String.EmptyString (mkModes [] []).
Definition twice_cfg : Cfg :=
  default twice_empty (run_edits (H := unlimited) (H0 := word_types) twice_edits twice_empty).

Lemma twice_cfg_ok : cfg_ok twice_cfg.
Proof.
  apply (built_cfg_ok (H := unlimited) (H0 := unlimited_laws) (H1 := word_types)).
  apply (run_edits_built twice_edits twice_empty); [constructor| |by vm_compute].
  by repeat constructor.
Qed.

Lemma twice_cfg_refs : refs_ok twice_cfg.
Proof.
  split.
  - intros v us Hv Hus.
    do 11 (destruct v as [|v]; [vm_compute in Hus; injection Hus as <-;
      repeat constructor; apply Nat.ltb_lt; vm_compute; reflexivity|]).
    vm_compute in Hus. by destruct v.
  - intros i b us Hb Hus.
    do 3 (destruct i as [|i]; [vm_compute in Hb; injection Hb as <-; vm_compute in Hus; injection Hus as <-;
      repeat constructor; apply Nat.ltb_lt; vm_compute; reflexivity|]).
    vm_compute in Hb. by destruct i.
Qed.

Lemma twice_bound u : u ∈ ownership_boundary_values twice_cfg -> u < value_count twice_cfg.
Proof.
  assert (ownership_boundary_values twice_cfg = ∅) as -> by (vm_compute; reflexivity). set_solver.
Qed.

Notation twice := (program_of twice_cfg).

Lemma twice_block b bv : p_block twice b = Some bv ->
  b = 0 /\ bv = mkBlockView [] [0; 1; 2; 3; 4] (VBranch 4 1 [] 2 []) \/
  b = 1 /\ bv = mkBlockView [] [5; 6; 7; 8; 9] (VReturn (Some 9)) \/ b = 2 /\ bv = mkBlockView [] [10] (VReturn (Some 10)).
Proof.
  intros Hb. do 3 (destruct b as [|b]; [vm_compute in Hb; injection Hb as <-; tauto|]).
  vm_compute in Hb. by destruct b.
Qed.

Lemma twice_at b i v : inst_at twice_cfg b i v ->
  b = 0 /\ v = i /\ i < 5 \/ b = 1 /\ v = 5 + i /\ i < 5 \/ b = 2 /\ v = 10 /\ i = 0.
Proof.
  intros (blk & Hb & Hi). do 3 (destruct b as [|b]; [vm_compute in Hb; injection Hb as <-;
    do 5 (destruct i as [|i]; [vm_compute in Hi; try (injection Hi as <-; lia); discriminate Hi|]); by vm_compute in Hi|]).
  vm_compute in Hb. by destruct b.
Qed.

Lemma twice_attached : attached_once twice_cfg.
Proof.
  split.
  - intros b i b' i' v H1%twice_at H2%twice_at. lia.
  - intros b blk b' i v Hb Hv. do 3 (destruct b as [|b]; [vm_compute in Hb; injection Hb as <-; by apply not_elem_of_nil in Hv|]).
    vm_compute in Hb. by destruct b.
Qed.

Definition twice_home (v : CfgValue) : BlockId := if v <? 5 then 0 else if v <? 10 then 1 else 2.

Lemma twice_defines d v : defines twice d v <-> v < 11 /\ d = twice_home v.
Proof.
  split.
  - intros (bv & [(-> & ->)|[(-> & ->)|(-> & ->)]]%twice_block & [Hv|Hv]); simpl in Hv; try (by apply not_elem_of_nil in Hv);
      repeat (apply elem_of_cons in Hv as [->|Hv]; [split; [lia|done]|]); by apply not_elem_of_nil in Hv.
  - intros [Hv ->]. do 11 (destruct v as [|v]; [eexists; split; [vm_compute; reflexivity|right; simpl; set_solver]|]). lia.
Qed.

Lemma twice_dominates b u : (b = 0 \/ b = 1 \/ b = 2) -> twice_home u = 0 \/ twice_home u = b -> dominates twice (twice_home u) b.
Proof.
  intros _ [-> | ->]; [|apply dominates_refl]. intros l. induction 1 as [|l x y _ IH _]; [by left|by right].
Qed.

(** Where operands come from. *)
Lemma twice_operands v iv u : p_inst twice v = Some iv -> u ∈ iv_uses iv -> u < v /\ (twice_home u = 0 \/ twice_home u = twice_home v).
Proof.
  intros Hv Hu. do 11 (destruct v as [|v]; [vm_compute in Hv; injection Hv as <-; simpl in Hu;
    repeat (apply elem_of_cons in Hu as [->|Hu]; [split; [lia|by vm_compute; auto]|]); by apply not_elem_of_nil in Hu|]).
  vm_compute in Hv. by destruct v.
Qed.

Lemma twice_ssa : ssa twice.
Proof.
  split.
  - intros b u _ (bv & Hb & Hu). assert (u < 11 /\ (b = 0 \/ b = 1 \/ b = 2) /\ (twice_home u = 0 \/ twice_home u = b)) as (H1 & H2 & H3).
    { destruct Hu as [Hu|(v & iv & Hv & Hiv & Hu)].
      - apply twice_block in Hb as [(-> & ->)|[(-> & ->)|(-> & ->)]]; simpl in Hu; apply list_elem_of_singleton in Hu as ->;
          (split; [lia|split; [lia|vm_compute; auto]]).
      - assert (defines twice b v) as [Hlt ->]%twice_defines by (exists bv; split; [done|by right]).
        destruct (twice_operands v iv u Hiv Hu) as [? Hh]. split; [lia|split; [|done]].
        rw /twice_home. destruct (v <? 5), (v <? 10); lia. }
    exists (twice_home u). split; [exact (proj2 (twice_defines _ u) (conj H1 eq_refl))|exact (twice_dominates b u H2 H3)].
  - intros d d' v _ _ [_ ->]%twice_defines [_ ->]%twice_defines. reflexivity.
  - intros b bv _ [(-> & ->)|[(-> & ->)|(-> & ->)]]%twice_block; (split; [constructor|]); by intros v ?%not_elem_of_nil.
  - intros b bv t args _ [(-> & ->)|[(-> & ->)|(-> & ->)]]%twice_block Hin; simpl in Hin; [|by apply not_elem_of_nil in Hin..].
    assert (args = [] /\ (t = 1 \/ t = 2)) as [-> Ht] by set_solver.
    destruct Ht as [-> | ->]; (eexists; split; [vm_compute; reflexivity|]); by split.
  - eexists. vm_compute. reflexivity.
Qed.

Lemma twice_ordered : ordered twice.
Proof.
  intros b bv _ Hb. assert (forall k v, v_insts bv !! k = Some v -> inst_at twice_cfg b k v) as Hat.
  { intros k v Hk. apply view_block_Some in Hb as (blk & Hblk & _ & His & _). exists blk. split; [exact Hblk|]. rewrite -His. exact Hk. }
  split.
  - apply twice_block in Hb as [(_ & ->)|[(_ & ->)|(_ & ->)]]; [apply (NoDup_seq 0 5)|apply (NoDup_seq 5 5)|apply (NoDup_seq 10 1)].
  - intros j v iv u k Hj Hiv Hu Hk. destruct (twice_operands v iv u Hiv Hu) as [Hlt _].
    apply Hat, twice_at in Hj. apply Hat, twice_at in Hk. lia.
Qed.

(** A world of parameters alone. *)
Definition slots_op (d : CfgInstData) (rs : list rval) : option rval :=
  match d, rs with
  | IAdd _ _, [RInt a; RInt b] => Some (RInt (a + b))
  | IDiv _ _, [RInt a; RInt b] => if (b =? 0)%Z then None else Some (RInt (Z.quot a b))
  | ILt _ _, [RInt a; RInt b] => Some (RBool (a <? b)%Z)
  | _, _ => Some (ROther 0)
  end.
#[local] Instance slots : Interp (nat -> Z) := {|
  prim := fun _ _ d _ rs w =>
    if pure_shape d then (w, slots_op d rs) else
    match d, rs with
    | IParam i, _ => (w, Some (RInt (w i)))
    | IParamStore i _, [RInt z] => ((fun j => if j =? i then z else w j), Some (ROther 0))
    | _, _ => (w, Some (ROther 0))
    end;
  word_of_other := fun _ => None;
|}.
#[local] Instance slots_pure : PureInterp (nat -> Z).
Proof.
  refine {| pure_op := fun _ => slots_op; param_value := fun _ i w => RInt (w i) |}.
  - intros v ty d ct rs w Hd. simpl. by rewrite Hd.
  - intros ty d a b Hd. destruct d; try done; simpl; destruct a as [x| | |], b as [y| | |]; try done. by rewrite Z.add_comm.
  - done.
Defined.

Lemma twice_framed : params_framed (W := nat -> Z) twice_cfg.
Proof.
  intros b blk v es i T iv rs w w' r Hb Hv Hes Ht _ _ Hiv Hp. simpl. apply list_elem_of_lookup in Hv as [k Hk].
  assert (inst_at twice_cfg b k v) as Hat by exact (ex_intro _ blk (conj Hb Hk)). apply twice_at in Hat.
  assert (v < 11) as Hlt by lia. clear Hat Hb Hk.
  do 11 (destruct v as [|v]; [vm_compute in Hiv; injection Hiv as <-; vm_compute in Hes; injection Hes as <-; simpl in Hp, Ht;
    first [injection Hp as <- _; reflexivity|
      assert (i <> 2) as Hne by (intros ->; discriminate Ht); destruct rs as [|[z| | |] [|]]; injection Hp as <- _; try reflexivity;
      destruct (Nat.eqb_spec i 2) as [He|]; [destruct (Hne He)|reflexivity]]|]); lia.
Qed.

Lemma cse_sound_witness :
  match Cse.run (H := unlimited) (fun _ => Some false) twice_cfg with
  | Ok (cfg', stats) => duplicates_replaced stats = 3 /\ cfg_ok cfg' /\ same_behaviour (W := nat -> Z) twice (program_of cfg')
  | _ => False
  end.
Proof.
  pose proof (cse_sound (H := unlimited) (W := nat -> Z) (fun _ => Some false) twice_cfg twice_cfg_ok
    ltac:(apply Nat.ltb_lt; vm_compute; reflexivity) twice_cfg_refs twice_bound twice_ssa twice_ordered twice_attached twice_framed) as Hs.
  assert (exists c st, Cse.run (H := unlimited) (fun _ => Some false) twice_cfg = Ok (c, st) /\ duplicates_replaced st = 3) as (c & st & Hr & Hd).
  { do 2 eexists. split; [vm_compute; reflexivity|reflexivity]. }
  rewrite Hr in Hs |- *. destruct Hs as (H1 & _ & H2). exact (conj Hd (conj H1 H2)).
Defined.
