(* ===== verification/Loops.v ===== *)
(** * Natural loops

    [crates/rue-cfg/src/opt/loops.rs]: the loop forest of a graph, or its
    refusal, and the lookup of a loop's preheader.  [None] is a panic (an index
    out of range, a failed [expect]) or a loop that outlives its fuel. *)

From stdpp Require Import gmap.
From S2P Require Import Prelude Types Payload CfgData Csr Cfg Worklist Dominators.
Import Machine.

Notation LoopId := nat (only parsing).

Record NaturalLoop := mkLoop {
  header : BlockId;
  latches : list BlockId;
  body : list BlockId;
  parent : option LoopId;
  exits : list (BlockId * BlockId);
}.

(** A binary search of the sorted body. *)
Definition loop_contains (lp : NaturalLoop) (block : BlockId) : bool := bool_decide (block ∈ body lp).

Record LoopForest := mkForest { forest_loops : list NaturalLoop; irreducible : bool }.
Definition is_irreducible (f : LoopForest) : bool := irreducible f.
Definition forest_len (f : LoopForest) : nat := length (forest_loops f).
Definition forest_is_empty (f : LoopForest) : bool := bool_decide (forest_loops f = []).
Definition forest_get (f : LoopForest) (id : LoopId) : option NaturalLoop := forest_loops f !! id.

Record Stats := mkStats {
  blocks_visited : nat;
  edges_visited : nat;
  back_edges : nat;
  header_slot_probes : nat;
  latch_dedup_probes : nat;
  loops_found : nat;
  body_pushes : nat;
  parent_body_visits : nat;
}.

(** [sort_by_key], which is stable; [le] compares the keys. *)
Fixpoint insert_by {A} (le : A -> A -> bool) (e : A) (l : list A) : list A :=
  match l with [] => [e] | e' :: l' => if le e e' then e :: l else e' :: insert_by le e l' end.
Definition sort_by {A} (le : A -> A -> bool) (l : list A) : list A := foldr (insert_by le) [] l.
Definition sort_ids (l : list BlockId) : list BlockId := sort_by Nat.leb l.

(** ** Successors *)

Definition count_successors (cfg : Cfg) (edge_count : Z) (raw : BlockId) : option Z :=
  succs ← visit_successors cfg raw; fold_opt (fun count _ => checked_u 64 (count + 1)) edge_count succs.
(** The offsets and targets are filled as in [Dominators]. *)
Definition successors_build (cfg : Cfg) (n : nat) : option Adjacency :=
  _ ← fold_opt (count_successors cfg) 0%Z (seq 0 n); adj_successors cfg n.

(** ** Reachability and irreducibility *)

Record search := mkSearch { visited : list bool; on_stack : list bool; refused : bool; n_blocks : nat; n_edges : nat }.

Fixpoint search_loop (fuel : nat) (succs : Adjacency) (dom : DominatorTree) (stack : list (BlockId * nat)) (st : search) : option search :=
  match fuel with
  | O => None
  | S fuel =>
      match stack with
      | [] => Some st
      | (block, idx) :: rest =>
          block_succs ← adj_of succs block;
          match block_succs !! idx with
          | Some s =>
              let st := mkSearch (visited st) (on_stack st) (refused st) (n_blocks st) (S (n_edges st)) in
              on ← on_stack st !! s;
              if (on : bool) then
                d ← dominates dom s block;
                search_loop fuel succs dom ((block, S idx) :: rest)
                  (mkSearch (visited st) (on_stack st) (refused st || negb d) (n_blocks st) (n_edges st))
              else
                seen ← visited st !! s;
                if (seen : bool) then search_loop fuel succs dom ((block, S idx) :: rest) st
                else search_loop fuel succs dom ((s, 0) :: (block, S idx) :: rest)
                  (mkSearch (<[s := true]> (visited st)) (<[s := true]> (on_stack st)) (refused st) (S (n_blocks st)) (n_edges st))
          | None =>
              _ ← on_stack st !! block;
              search_loop fuel succs dom rest
                (mkSearch (visited st) (<[block := false]> (on_stack st)) (refused st) (n_blocks st) (n_edges st))
          end
      end
  end.
Definition search_from (succs : Adjacency) (dom : DominatorTree) (entry n : nat) : option search :=
  let none := replicate n false in
  if entry <? n
  then search_loop (S (n + length (targets succs))) succs dom [(entry, 0)] (mkSearch (<[entry := true]> none) (<[entry := true]> none) false 1 0)
  else Some (mkSearch none none false 0 0).

(** ** Back edges, grouped by header *)

Record groups := mkGroups { headers : list BlockId; latch_sets : list (list BlockId); header_slots : list (option nat); g_edges : nat; g_back : nat }.

Definition add_latch (u : BlockId) (g : groups) (slot : nat) : option groups :=
  row ← latch_sets g !! slot;
  let row := if bool_decide (last row = Some u) then row else row ++ [u] in
  Some (mkGroups (headers g) (<[slot := row]> (latch_sets g)) (header_slots g) (g_edges g) (g_back g)).
Definition group_edge (dom : DominatorTree) (u : BlockId) (g : groups) (s : BlockId) : option groups :=
  let g := mkGroups (headers g) (latch_sets g) (header_slots g) (S (g_edges g)) (g_back g) in
  d ← dominates dom s u;
  if negb d then Some g else
  let g := mkGroups (headers g) (latch_sets g) (header_slots g) (g_edges g) (S (g_back g)) in
  entry ← header_slots g !! s;
  match entry with
  | Some slot => add_latch u g slot
  | None =>
      let slot := length (headers g) in
      add_latch u (mkGroups (headers g ++ [s]) (latch_sets g ++ [[]]) (<[s := Some slot]> (header_slots g)) (g_edges g) (g_back g)) slot
  end.
Definition group_block (succs : Adjacency) (dom : DominatorTree) (visited : list bool) (g : groups) (u : BlockId) : option groups :=
  v ← visited !! u;
  if negb v then Some g else ss ← adj_of succs u; fold_opt (group_edge dom u) g ss.

(** ** Bodies *)

#[export] Instance gset_marks : MarkSet (gset nat) := {| contains s i := bool_decide (i ∈ s); insert_mark s i := {[i]} ∪ s; holds _ _ := True |}.

Definition seed_body (header : BlockId) (st : gset BlockId * list BlockId) (latch : BlockId) : gset BlockId * list BlockId :=
  if latch =? header then st else mark_push st latch.
(** Every insertion after the header's is a push. *)
Definition loop_body (preds : list (list BlockId)) (n : nat) (header : BlockId) (latches : list BlockId) : option (list BlockId * nat) :=
  let '(body, work) := fold_left (seed_body header) latches ({[header]}, []) in
  body ← push_loop (fun block => preds !! block) (S n) body work;
  Some (sort_ids (elements body), size body - 1).
Definition exits_of (succs : Adjacency) (body : list BlockId) : option (list (BlockId * BlockId)) :=
  flat_opt (fun b => ss ← adj_of succs b : option (list BlockId); Some (map (pair b) (filter (fun s => s ∉ body) ss))) body.

Definition build_loop (succs : Adjacency) (preds : list (list BlockId)) (n : nat) (st : list NaturalLoop * nat) (e : BlockId * list BlockId)
    : option (list NaturalLoop * nat) :=
  let '(header, set) := e in
  let latches := sort_ids set in
  '(body, pushes) ← loop_body preds n header latches;
  exits ← exits_of succs body;
  Some (st.1 ++ [mkLoop header latches body None exits], st.2 + pushes).

(** ** Nesting *)

Definition note_header (table : list (option LoopId)) (e : LoopId * NaturalLoop) : option (list (option LoopId)) :=
  _ ← table !! header e.2; Some (<[header e.2 := Some e.1]> table).

Definition adopt (loops : list NaturalLoop) (loop_by_header : list (option LoopId)) (outer : LoopId) (st : list (option LoopId) * nat) (block : BlockId)
    : option (list (option LoopId) * nat) :=
  let st := (st.1, S st.2) in
  entry ← loop_by_header !! block;
  match entry with
  | None => Some st
  | Some inner =>
      if inner =? outer then Some st else
      o ← loops !! outer; i ← loops !! inner;
      if negb (length (body i) <? length (body o)) then Some st else
      p ← st.1 !! inner;
      match p with None => Some (<[inner := Some outer]> st.1, st.2) | Some _ => Some st end
  end.
Definition adopt_body (loops : list NaturalLoop) (loop_by_header : list (option LoopId)) (st : list (option LoopId) * nat) (outer : LoopId)
    : option (list (option LoopId) * nat) :=
  o ← loops !! outer; fold_opt (adopt loops loop_by_header outer) st (body o).

Definition body_size (loops : list NaturalLoop) (id : LoopId) : nat := match loops !! id with Some lp => length (body lp) | None => 0 end.
Definition with_parent (lp : NaturalLoop) (p : option LoopId) : NaturalLoop := mkLoop (header lp) (latches lp) (body lp) p (exits lp).

Definition assign_loop_parents (loops : list NaturalLoop) (block_count : nat) : option (list NaturalLoop * nat) :=
  loop_by_header ← fold_opt note_header (replicate block_count None) (imap pair loops);
  let by_body_size := sort_by (fun a b => (body_size loops a <? body_size loops b) || ((body_size loops a =? body_size loops b) && (a <=? b)))
    (seq 0 (length loops)) in
  '(parents, visits) ← fold_opt (adopt_body loops loop_by_header) (replicate (length loops) None, 0) by_body_size;
  Some (zip_with with_parent loops parents, visits).

(** ** The forest *)

Definition loops_with_stats (cfg : Cfg) (dom : DominatorTree) : option (LoopForest * Stats) :=
  let n := block_count cfg in
  succs ← successors_build cfg n;
  st ← search_from succs dom (entry cfg) n;
  if refused st then Some (mkForest [] true, mkStats (n_blocks st) (n_edges st) 0 0 0 0 0 0) else
  preds ← compute_predecessors cfg;
  g ← fold_opt (group_block succs dom (visited st)) (mkGroups [] [] (replicate n None) (n_edges st) 0) (seq 0 n);
  '(loops, pushes) ← fold_opt (build_loop succs preds n) ([], 0) (zip (headers g) (latch_sets g));
  '(loops, visits) ← assign_loop_parents loops n;
  Some (mkForest loops false, mkStats (n_blocks st) (g_edges g) (g_back g) (g_back g) (g_back g) (length loops) pushes visits).
Definition loops (cfg : Cfg) (dom : DominatorTree) : option LoopForest := r ← loops_with_stats cfg dom; Some r.1.

(** ** Acyclic block orders *)

Definition observe (block target : BlockId) : bool := target <=? block.
Definition may_cycle (cfg : Cfg) (block : BlockId) : option bool :=
  b ← get_block cfg block;
  match terminator b with
  | Goto target _ => Some (observe block target)
  | Branch _ then_block _ else_block _ => Some (observe block then_block || observe block else_block)
  | Switch _ cases default => cs ← switch_cases_of cfg cases; Some (existsb (fun c => observe block c.2) cs || observe block default)
  | Return _ | Unreachable | TermNone => Some false
  end.
Fixpoint any_may_cycle (cfg : Cfg) (blocks : list BlockId) : option bool :=
  match blocks with [] => Some false | b :: blocks => c ← may_cycle cfg b; if (c : bool) then Some true else any_may_cycle cfg blocks end.
Definition may_have_cycle_by_block_order (cfg : Cfg) : option bool := any_may_cycle cfg (seq 0 (block_count cfg)).

(** ** Preheaders *)

Record PreheaderClassification := mkClassification { outside : list BlockId; reusable : option BlockId }.
Definition goes_to (cfg : Cfg) (header predecessor : BlockId) : option bool :=
  b ← get_block cfg predecessor; Some match terminator b with Goto target _ => target =? header | _ => false end.
Definition classify_preheader (cfg : Cfg) (lp : NaturalLoop) : option PreheaderClassification :=
  ps ← predecessors_of cfg (header lp);
  let outside := filter (fun p => negb (loop_contains lp p)) ps in
  match outside with
  | [predecessor] => g ← goes_to cfg (header lp) predecessor; Some (mkClassification outside (if (g : bool) then Some predecessor else None))
  | _ => Some (mkClassification outside None)
  end.
Definition preheader (cfg : Cfg) (lp : NaturalLoop) : option (option BlockId) := c ← classify_preheader cfg lp; Some (reusable c).
