(* ===== verification/LoopsForest.v ===== *)
(** * Natural loops: the forest is exact

    The search refuses a graph when some cycle has no block that dominates it;
    the headers are the targets of back edges, a body is what reaches a latch
    without passing the header, and a parent is a smallest enclosing loop. *)

From stdpp Require Import gmap sorting relations.
From S2P Require Import Prelude IntegerSemantics Types Payload CfgData CfgEdit Csr Cfg Worklist Dce Dominators DomDfs DomTree DomOrder DomLower Loops.
Import Machine.

(** ** Sorting *)

Section Sort.
Context {A : Type} (le : A -> A -> bool).

Lemma insert_by_perm e l : insert_by le e l ≡ₚ e :: l.
Proof. induction l as [|e' l IH]; simpl; [done|]. destruct (le e e'); [done|]. rw IH. apply Permutation_swap. Qed.
Lemma sort_by_perm l : sort_by le l ≡ₚ l.
Proof. induction l as [|e l IH]; simpl; [done|]. by rw insert_by_perm IH. Qed.
Lemma elem_of_sort_by l x : x ∈ sort_by le l <-> x ∈ l.
Proof. by rw sort_by_perm. Qed.

Context (Htotal : forall a b, le a b = false -> le b a = true) (Htrans : forall a b c, le a b = true -> le b c = true -> le a c = true).

Lemma insert_by_sorted e l : StronglySorted (fun a b => le a b = true) l -> StronglySorted (fun a b => le a b = true) (insert_by le e l).
Proof using Htotal Htrans.
  induction 1 as [|e' l Hs IH Hall]; simpl; [by repeat constructor|]. rewrite Forall_forall in Hall. destruct (le e e') eqn:He.
  - constructor; [constructor; [done|by apply Forall_forall]|]. constructor; [done|]. apply Forall_forall. intros x Hx. by eapply Htrans, Hall.
  - constructor; [done|]. apply Forall_forall. intros x Hx. rewrite insert_by_perm in Hx. apply elem_of_cons in Hx as [->|Hx]; [by apply Htotal|by apply Hall].
Qed.
Lemma sort_by_sorted l : StronglySorted (fun a b => le a b = true) (sort_by le l).
Proof using Htotal Htrans. induction l as [|e l IH]; simpl; [constructor|]. by apply insert_by_sorted. Qed.
End Sort.

Lemma sort_ids_sorted l : NoDup l -> StronglySorted lt (sort_ids l).
Proof.
  intros Hnd. assert (NoDup (sort_ids l)) as Hnd' by by rw /sort_ids sort_by_perm.
  assert (StronglySorted (fun a b => Nat.leb a b = true) (sort_ids l)) as Hs.
  { apply sort_by_sorted; [intros a b ?%Nat.leb_gt; apply Nat.leb_le; lia|intros a b c ?%Nat.leb_le ?%Nat.leb_le; apply Nat.leb_le; lia]. }
  revert Hnd'. generalize (sort_ids l) Hs. clear Hs. intros k. induction 1 as [|a k Hk IH Ha]; [constructor|].
  intros [Hna Hnd']%NoDup_cons. constructor; [by apply IH|]. rewrite !Forall_forall in Ha |- *. intros x Hx. specialize (Ha x Hx).
  apply Nat.leb_le in Ha. assert (x <> a) by by intros ->. lia.
Qed.

Section Forest.
Context (cfg : Cfg) (Hok : cfg_ok cfg) (Hentry : entry cfg < block_count cfg).
Notation n := (block_count cfg).
Notation next := (next cfg).
Notation dominated_by := (dominated_by cfg).
Notation live_block := (live_block cfg).

(** ** What the forest is to be *)

(** A cycle of reachable blocks, none twice, last first. *)
Record cycle (c : list BlockId) : Prop := {
  cy_nodup : NoDup c;
  cy_live : forall b, b ∈ c -> live_block b;
  cy_path : forall k u v, c !! k = Some v -> c !! S k = Some u -> flow cfg u v;
  cy_close : exists u h, head c = Some u /\ last c = Some h /\ flow cfg u h;
}.
(** Control can enter it at two blocks. *)
Definition tangled (c : list BlockId) : Prop := cycle c /\ forall h, h ∈ c -> exists b, b ∈ c /\ ~ dominated_by h b.

Definition back_edge (u h : BlockId) : Prop := live_block u /\ flow cfg u h /\ dominated_by h u.
(** The header, and what reaches a latch without passing it. *)
Definition natural_loop (h b : BlockId) : Prop :=
  b = h \/ exists u, back_edge u h /\ u <> h /\ b <> h /\ rtc (fun x y => flow cfg x y /\ x <> h /\ y <> h) b u.
End Forest.

(** ** The search *)

Section Search.
Context (cfg : Cfg) (Hok : cfg_ok cfg) (Hentry : entry cfg < block_count cfg) (t : DominatorTree) (Ht : tree_exact cfg t).
Context (adj : Adjacency) (Hadj : forall u, u < block_count cfg -> adj_of adj u = Some (next cfg u)).
Notation n := (block_count cfg).
Notation next := (next cfg).
Notation searching := (searching n next (entry cfg)).
Notation live_block := (live_block cfg).
Notation dominated_by := (dominated_by cfg).

Definition before (l : list nat) (v u : nat) : Prop := exists i j, l !! i = Some v /\ l !! j = Some u /\ i < j.

(** A scanned edge whose target does not dominate its source leads to a block
    that was finished first. *)
Record loop_search (stack : list (nat * nat)) (post_order : list nat) (st : search) : Prop := {
  ls_stack : forall v, v < n -> on_stack st !! v = Some (bool_decide (v ∈ stack.*1));
  ls_done : refused st = false -> forall u v, u ∈ post_order -> v ∈ next u -> dominated_by v u \/ before post_order v u;
  ls_open : refused st = false -> forall u i v, (u, i) ∈ stack -> v ∈ take i (next u) ->
    dominated_by v u \/ v ∈ post_order \/ before stack.*1 v u;
  ls_refused : refused st = true -> exists c, tangled cfg c;
}.

Lemma before_cons l x v u : before l v u -> before (x :: l) v u.
Proof. intros (i & j & ? & ? & ?). exists (S i), (S j). split_and!; [done..|lia]. Qed.
Lemma before_app l k v u : before l v u -> before (l ++ k) v u.
Proof. intros (i & j & ? & ? & ?). exists i, j. split_and!; [by apply lookup_app_l_Some..|done]. Qed.

(** The stack is a path, last first. *)
Lemma stack_path stack visited pn po : searching stack visited pn po -> forall k v, stack.*1 !! k = Some v -> flow_path cfg (drop k stack.*1) v.
Proof.
  intros Hs. destruct (s_last _ _ _ _ _ _ _ Hs) as [[-> _]|Hlast]; [done|]. intros k v Hk. remember (length stack.*1 - k) as m eqn:Hm.
  revert k v Hk Hm. induction m as [|m IH]; intros k v Hk Hm; [apply lookup_lt_Some in Hk; lia|].
  rw (drop_S _ _ _ Hk). destruct (stack.*1 !! S k) as [u|] eqn:Hu.
  - econstructor; [apply IH; [done|lia]|]. apply (flow_next cfg Hok). split; [|by eapply (s_path _ _ _ _ _ _ _ Hs)].
    pose proof (s_lt _ _ _ _ _ _ _ Hs) as Hlt. rewrite Forall_forall in Hlt. apply Hlt. apply elem_of_app. left. by eapply list_elem_of_lookup_2.
  - assert (S k = length stack.*1) as Hl by (apply lookup_ge_None in Hu; apply lookup_lt_Some in Hk; lia).
    rw drop_ge; [|lia]. rewrite last_lookup -Hl /= Hk in Hlast. injection Hlast as ->. constructor.
Qed.

(** A retreating edge whose target does not dominate its source. *)
Lemma tangle stack visited pn po block k s : searching stack visited pn po -> head stack.*1 = Some block -> stack.*1 !! k = Some s ->
  flow cfg block s -> ~ dominated_by s block -> exists c, tangled cfg c.
Proof.
  intros Hs Hb Hk Hf Hd. pose proof (s_nodup _ _ _ _ _ _ _ Hs) as Hnd. rewrite /marks NoDup_app in Hnd. destruct Hnd as [Hnd _].
  assert (forall x, x ∈ take (S k) stack.*1 -> exists j, stack.*1 !! j = Some x /\ j <= k) as Htake.
  { intros x Hx. apply list_elem_of_lookup in Hx as [j Hj]. apply lookup_take_Some in Hj as [? ?]. exists j. split; [done|lia]. }
  exists (take (S k) stack.*1). split.
  - split.
    + rewrite -(take_drop (S k) stack.*1) NoDup_app in Hnd. apply Hnd.
    + intros b (j & Hj & _)%Htake. apply (live_path cfg). eexists. by eapply stack_path.
    + intros j u v [Hv _]%lookup_take_Some [Hu _]%lookup_take_Some. apply (flow_next cfg Hok). split; [|by eapply (s_path _ _ _ _ _ _ _ Hs)].
      pose proof (s_lt _ _ _ _ _ _ _ Hs) as Hlt. rewrite Forall_forall in Hlt. apply Hlt. apply elem_of_app. left. by eapply list_elem_of_lookup_2.
    + exists block, s. split_and!; [|by rw (take_S_r _ _ _ Hk) last_snoc|done]. by destruct stack.*1.
  - intros h (j & Hj & Hle)%Htake. destruct (decide (h = s)) as [->|Hne].
    + exists block. split; [|done]. destruct stack.*1 as [|x l]; [done|]. injection Hb as ->. by left.
    + exists s. split; [rw (take_S_r _ _ _ Hk); apply elem_of_app; right; by left|]. intros Hdom.
      specialize (Hdom _ (stack_path _ _ _ _ Hs k s Hk)). apply list_elem_of_lookup in Hdom as [m Hm]. rewrite lookup_drop in Hm.
      assert (j = k + m) as -> by by eapply NoDup_lookup. assert (m = 0) as -> by lia. rewrite Nat.add_0_r in Hj. congruence.
Qed.

Lemma stack_lt stack visited pn po v : searching stack visited pn po -> v ∈ marks stack po -> v < n.
Proof. intros Hs Hv. pose proof (s_lt _ _ _ _ _ _ _ Hs) as Hlt. rewrite Forall_forall in Hlt. by apply Hlt. Qed.
Lemma marks_live stack visited pn po v : searching stack visited pn po -> v ∈ marks stack po -> live_block v.
Proof.
  intros Hs Hv. pose proof (s_reach _ _ _ _ _ _ _ Hs v Hv) as Hr. revert Hr. apply rtc_mono. intros a b Hab. by apply (flow_next cfg Hok).
Qed.

Lemma search_total fuel stack po pn st : searching stack (visited st) pn po -> loop_search stack po st ->
  all_work n next < fuel + work next stack po ->
  exists st' pn' po', search_loop fuel adj t stack st = Some st' /\ searching [] (visited st') pn' po' /\ loop_search [] po' st'.
Proof.
  revert stack po pn st. induction fuel as [|fuel IH]; intros stack po pn st Hs Hl Hf.
  { pose proof (dfs_work_bound _ _ _ _ _ _ _ Hs). lia. }
  cbn [search_loop]. destruct stack as [|[block idx] rest]; [by exists st, pn, po|].
  assert (block < n) as Hb by (apply (stack_lt _ _ _ _ _ Hs); by left).
  rw Hadj //. cbn [mbind option_bind]. destruct (next block !! idx) as [s|] eqn:Hn.
  - assert (s < n) as Hsn.
    { destruct (next_spec cfg Hok block Hb) as [_ Hall]. rewrite Forall_forall in Hall. apply Hall. by eapply list_elem_of_lookup_2. }
    assert (flow cfg block s) as Hflow by (apply (flow_next cfg Hok); split; [done|by eapply list_elem_of_lookup_2]).
    cbn [on_stack visited]. rw (ls_stack _ _ _ Hl s Hsn). cbn [mbind option_bind]. case_bool_decide as Hon.
    + destruct (x_dom _ _ Ht s block) as (r & -> & Hr). cbn [mbind option_bind]. eapply (IH _ po pn).
      * by eapply search_advance; [exact Hs|done|apply elem_of_app; left].
      * destruct Hl as [H1 H2 H3 H4]. split; simpl.
        -- done.
        -- intros [Hrf _]%orb_false_iff. by apply H2.
        -- intros [Hrf Hnr]%orb_false_iff u i v [[= -> ->]|Hu]%elem_of_cons Hv; [|apply (H3 Hrf u i v); [by right|done]].
           rewrite (take_S_r _ _ _ Hn) in Hv. apply elem_of_app in Hv as [Hv|Hv%list_elem_of_singleton]; [apply (H3 Hrf block idx v); [by left|done]|subst v].
           left. apply negb_false_iff, Hr in Hnr as [->|[_ Hd]]; [|done]. intros l Hlp. by destruct Hlp; left.
        -- intros [Hrf|Hnr]%orb_true_iff; [by apply H4|]. apply negb_true_iff in Hnr. apply list_elem_of_lookup in Hon as [k Hk].
           eapply (tangle _ _ _ _ block k s Hs); [done..|]. intros Hd. assert (r = true) as Hx; [|congruence]. apply Hr. right. split; [|done].
           apply (marks_live _ _ _ _ _ Hs). by left.
      * rw /work /= in Hf |- *. lia.
    + rw (s_visited _ _ _ _ _ _ _ Hs s Hsn). cbn [mbind option_bind]. case_bool_decide as Hm; eapply (IH _ po pn).
      * by eapply search_advance.
      * destruct Hl as [H1 H2 H3 H4]. split; simpl; [done..| |done].
        intros Hrf u i v [[= -> ->]|Hu]%elem_of_cons Hv; [|apply (H3 Hrf u i v); [by right|done]].
        rewrite (take_S_r _ _ _ Hn) in Hv. apply elem_of_app in Hv as [Hv|Hv%list_elem_of_singleton]; [apply (H3 Hrf block idx v); [by left|done]|subst v].
        right. left. apply elem_of_app in Hm as [?|?]; [done|done].
      * rw /work /= in Hf |- *. lia.
      * by apply search_push.
      * destruct Hl as [H1 H2 H3 H4]. split; simpl.
        -- intros v Hv. destruct (decide (v = s)) as [->|Hne].
           ++ rw list_lookup_insert_eq; [|by eapply lookup_lt_Some, H1]. rw bool_decide_true //. by left.
           ++ rw list_lookup_insert_ne // H1 //. f_equal. apply bool_decide_ext. simpl. rw (elem_of_cons _ v s). naive_solver.
        -- done.
        -- intros Hrf u i v [[= -> ->]|Hu]%elem_of_cons Hv; [by rewrite take_0 in Hv; apply not_elem_of_nil in Hv|].
           apply elem_of_cons in Hu as [[= -> ->]|Hu].
           ++ rewrite (take_S_r _ _ _ Hn) in Hv. apply elem_of_app in Hv as [Hv|Hv%list_elem_of_singleton].
              ** destruct (H3 Hrf block idx v ltac:(by left) Hv) as [?|[?|?]]; [by left|right; by left|right; right; by apply before_cons].
              ** subst v. right. right. exists 0, 1. split_and!; [done..|lia].
           ++ destruct (H3 Hrf u i v ltac:(by right) Hv) as [?|[?|?]]; [by left|right; by left|right; right; by apply before_cons].
        -- done.
      * rw /work /= in Hf |- *. lia.
  - cbn [on_stack]. rw (ls_stack _ _ _ Hl block Hb). cbn [mbind option_bind]. eapply (IH _ (po ++ [block])).
    + cbn [visited]. by eapply search_pop.
    + pose proof (s_nodup _ _ _ _ _ _ _ Hs) as Hnd. rewrite /marks NoDup_app /= NoDup_cons in Hnd. destruct Hnd as ((Hnb & _) & _).
      destruct Hl as [H1 H2 H3 H4]. split; simpl.
      * intros v Hv. destruct (decide (v = block)) as [->|Hne].
        -- rw list_lookup_insert_eq; [|by eapply lookup_lt_Some, H1]. by rw bool_decide_false.
        -- rw list_lookup_insert_ne // H1 //. f_equal. apply bool_decide_ext. simpl. rw elem_of_cons. naive_solver.
      * intros Hrf u v [Hu| ->%list_elem_of_singleton]%elem_of_app Hv.
        -- destruct (H2 Hrf u v Hu Hv) as [?|?]; [by left|right; by apply before_app].
        -- assert (v ∈ take idx (next block)) as Hv' by by rw take_ge //; apply lookup_ge_None.
           destruct (H3 Hrf block idx v ltac:(by left) Hv') as [?|[[i Hi]%list_elem_of_lookup|(i & j & Hi & Hj & Hlt)]]; [by left| |].
           ++ right. exists i, (length po). split_and!; [by apply lookup_app_l_Some|by rw lookup_app_r // Nat.sub_diag|by eapply lookup_lt_Some].
           ++ exfalso. destruct j as [|j]; [lia|]. simpl in Hj. apply Hnb. by eapply list_elem_of_lookup_2.
      * intros Hrf u i v Hu Hv. destruct (H3 Hrf u i v ltac:(by right) Hv) as [?|[?|(a & b & Ha & Hb' & Hlt)]]; [by left|right; left; apply elem_of_app; by left|].
        destruct b as [|b]; [lia|]. destruct a as [|a]; simpl in Ha, Hb'.
        -- injection Ha as ->. right. left. apply elem_of_app. right. by left.
        -- right. right. exists a, b. split_and!; [done..|lia].
      * done.
    + pose proof (proj1 (s_idx _ _ _ _ _ _ _ Hs block idx ltac:(by left))) as Hi. apply lookup_ge_None in Hn.
      rw /work /= in Hf |- *. rw fmap_app sum_list_app /=. unfold fmap in *. lia.
Qed.

(** Rotating a cycle. *)
Lemma cycle_rotate a l : cycle cfg (a :: l) -> cycle cfg (l ++ [a]).
Proof.
  intros [Hnd Hlive Hpath (u & h & Hu & Hh & Hf)]. injection Hu as <-. destruct l as [|b l]; [by split; [..|exists a, h]|].
  split.
  - by rewrite Permutation_app_comm.
  - intros x. rw Permutation_app_comm. apply Hlive.
  - intros k x y Hx Hy. apply lookup_app_Some in Hy as [Hy|[Hge Hy]].
    + rewrite lookup_app_l in Hx; [|apply lookup_lt_Some in Hy; lia]. by apply (Hpath (S k)).
    + apply list_lookup_singleton_Some in Hy as [Hz <-]. rewrite lookup_app_l in Hx; [|lia].
      rewrite last_lookup /= in Hh. replace k with (length l) in Hx by (simpl in *; lia). simpl in Hx. congruence.
  - exists b, a. split_and!; [done|by rw last_snoc|]. by apply (Hpath 0).
Qed.

Lemma head_edge c h u : cycle cfg c -> last c = Some h -> head c = Some u -> dominated_by h u -> forall b, b ∈ c -> dominated_by h b.
Proof.
  intros [Hnd Hlive Hpath _] Hh Hu Hd b [i Hi]%list_elem_of_lookup l Hl.
  assert (forall j x, j <= i -> c !! (i - j) = Some x -> flow_path cfg (take j (drop (i - j) c) ++ l) x) as Hgo.
  { intros j. induction j as [|j IH]; intros x Hj Hx; [rewrite Nat.sub_0_r in Hx; by simplify_eq|].
    destruct (c !! (i - j)) as [y|] eqn:Hy; [|apply lookup_ge_None in Hy; apply lookup_lt_Some in Hi; lia].
    rw (drop_S _ _ _ Hx) /=. replace (S (i - S j)) with (i - j) by lia. econstructor; [by apply IH; [lia|]|].
    apply (Hpath (i - S j)); [done|]. by replace (S (i - S j)) with (i - j) by lia. }
  assert (h ∈ take i c ++ l) as Hin.
  { specialize (Hgo i u). rewrite Nat.sub_diag drop_0 in Hgo. apply Hd, Hgo; [done|]. by destruct c. }
  apply elem_of_app in Hin as [Hin|]; [exfalso|done]. apply list_elem_of_lookup in Hin as [j Hj]. apply lookup_take_Some in Hj as [Hj Hlt].
  rewrite last_lookup in Hh. assert (j = pred (length c)) as -> by by eapply NoDup_lookup. apply lookup_lt_Some in Hi. lia.
Qed.

Lemma cycle_split l1 l2 : cycle cfg (l1 ++ l2) -> cycle cfg (l2 ++ l1).
Proof.
  revert l2. induction l1 as [|a l1 IH]; intros l2; [by rw app_nil_r|]. intros Hc%cycle_rotate. rewrite -app_assoc in Hc.
  apply IH in Hc. by rewrite -app_assoc in Hc.
Qed.

Lemma before_trans l a b c : NoDup l -> before l a b -> before l b c -> before l a c.
Proof.
  intros Hnd (i & j & Hi & Hj & ?) (j' & k & Hj' & Hk & ?). assert (j' = j) as -> by by eapply NoDup_lookup. exists i, k. split_and!; [done..|lia].
Qed.
Lemma before_irrefl l a : NoDup l -> ~ before l a a.
Proof. intros Hnd (i & j & Hi & Hj & ?). assert (i = j) by by eapply NoDup_lookup. lia. Qed.

(** Along a cycle of a finished search some edge leads to a block that
    dominates its source. *)
Lemma not_tangled po c : (forall u v, live_block u -> v ∈ next u -> dominated_by v u \/ before po v u) -> NoDup po ->
  cycle cfg c -> exists h, h ∈ c /\ forall b, b ∈ c -> dominated_by h b.
Proof.
  intros He Hnd Hc. pose proof Hc as [_ Hlive Hpath (u & h & Hu & Hh & Hf)].
  assert (forall x y, x ∈ c -> flow cfg x y -> dominated_by y x \/ before po y x) as He'.
  { intros x y Hx [_ Hy]%(flow_next cfg Hok). apply He; [by apply Hlive|done]. }
  assert (h ∈ c /\ u ∈ c) as [Hhc Huc].
  { rewrite last_lookup in Hh. rewrite head_lookup in Hu. split; by eapply list_elem_of_lookup_2. }
  assert (forall m, (exists k x y, c !! k = Some y /\ c !! S k = Some x /\ dominated_by y x) \/
    forall k x, k <= m -> c !! k = Some x -> x = u \/ before po u x) as Hrun.
  { induction m as [|m [?|IH]]; [right|by left|].
    - intros k x Hk Hx. assert (k = 0) as -> by lia. rewrite head_lookup in Hu. left. congruence.
    - destruct (c !! S m) as [x|] eqn:Hx; last first.
      { right. intros k y Hk Hy. destruct (decide (k = S m)) as [->|]; [congruence|]. apply (IH k); [lia|done]. }
      destruct (lookup_lt_is_Some_2 c m) as [y Hy]; [apply lookup_lt_Some in Hx; lia|].
      destruct (He' x y) as [Hd|Hb]; [by eapply list_elem_of_lookup_2|by eapply Hpath|left; by exists m, x, y|right].
      intros k z Hk Hz. destruct (decide (k = S m)) as [->|]; [|apply (IH k); [lia|done]]. assert (z = x) as -> by congruence.
      destruct (IH m y ltac:(lia) Hy) as [->|Hb']; [by right|right]. by eapply before_trans. }
  destruct (Hrun (length c)) as [(k & x & y & Hy & Hx & Hd)|Hall].
  - assert (cycle cfg (drop (S k) c ++ take (S k) c)) as Hc' by by apply cycle_split; rewrite take_drop.
    exists y. split; [by eapply list_elem_of_lookup_2|]. intros b Hb. apply (head_edge _ y x Hc').
    + rw (take_S_r _ _ _ Hy) app_assoc last_snoc //.
    + by rw (drop_S _ _ _ Hx).
    + done.
    + rewrite -(take_drop (S k) c) in Hb. apply elem_of_app. apply elem_of_app in Hb. tauto.
  - destruct (He' u h Huc Hf) as [Hd|Hb]; [exists h; split; [done|]; by eapply head_edge|].
    rewrite last_lookup in Hh. destruct (Hall (pred (length c)) h ltac:(lia) Hh) as [->|Hb']; [by destruct (before_irrefl po u Hnd)|].
    destruct (before_irrefl po u Hnd). by eapply before_trans.
Qed.

Lemma search_exact : targets adj = concat (next <$> seq 0 n) ->
  exists st, search_from adj t (entry cfg) n = Some st /\ (forall v, v < n -> exists b, visited st !! v = Some b /\ (b = true <-> live_block v)) /\
    (refused st = true <-> exists c, tangled cfg c).
Proof.
  intros Htg. rw /search_from. destruct (Nat.ltb_spec (entry cfg) n) as [_|]; [|lia].
  destruct (search_total (S (n + length (targets adj))) [(entry cfg, 0)] [] (replicate n None)
    (mkSearch (<[entry cfg := true]> (replicate n false)) (<[entry cfg := true]> (replicate n false)) false 1 0)) as (st & pn & po & -> & Hs & Hl).
  - split; simpl.
    + intros v Hv. destruct (decide (v = entry cfg)) as [->|Hne].
      * rw list_lookup_insert_eq; [|by rw length_replicate]. rw bool_decide_true //. by left.
      * rw list_lookup_insert_ne // bool_decide_false; [by apply lookup_replicate|]. by intros ->%list_elem_of_singleton.
    + apply length_replicate.
    + apply NoDup_singleton.
    + by repeat constructor.
    + intros v k. split; [|done]. by intros [[=] _]%lookup_replicate.
    + intros u i [= -> ->]%list_elem_of_singleton. split; [lia|]. by intros v ?%not_elem_of_nil.
    + by intros u v ?%not_elem_of_nil.
    + by intros [|k] u v.
    + by right.
    + done.
    + intros v ->%list_elem_of_singleton. constructor.
  - split; simpl; [|by intros _ u v ?%not_elem_of_nil| |done].
    + intros v Hv. destruct (decide (v = entry cfg)) as [->|Hne].
      * rw list_lookup_insert_eq; [|by rw length_replicate]. rw bool_decide_true //. by left.
      * rw list_lookup_insert_ne // bool_decide_false; [by apply lookup_replicate|]. by intros ->%list_elem_of_singleton.
    + intros _ u i v [= -> ->]%list_elem_of_singleton Hv. rewrite take_0 in Hv. by apply not_elem_of_nil in Hv.
  - rw /work /all_work Htg /=. lia.
  - exists st. pose proof (search_ends _ _ _ _ _ _ Hs) as HP. split; [done|]. split.
    + intros v Hv. exists (bool_decide (v ∈ po)). split; [apply (s_visited _ _ _ _ _ _ _ Hs v Hv)|].
      rw bool_decide_eq_true. by apply (live_post cfg Hok pn).
    + split; [apply (ls_refused _ _ _ Hl)|]. intros (c & Hc & Hno). destruct (refused st) eqn:Hr; [done|exfalso].
      destruct (not_tangled po c) as (h & Hh & Hd); [|apply (po_nodup _ _ _ _ _ HP)|done|].
      * intros u v Hu Hv. apply (ls_done _ _ _ Hl Hr); [by apply (live_post cfg Hok pn)|done].
      * destruct (Hno h Hh) as (b & Hb & Hn). by destruct (Hn (Hd b Hb)).
Qed.
End Search.
