(* ===== verification/LoopsExact.v ===== *)
(** * Natural loops: headers, bodies and nesting

    With the search of [LoopsForest]: the grouping of back edges, the bodies,
    the exits and the parents, and the forest they make. *)

From stdpp Require Import gmap sorting relations.
From S2P Require Import Prelude IntegerSemantics Types Payload CfgData CfgEdit Csr Cfg Worklist Dce Dominators DomDfs DomTree DomOrder DomLower Loops LoopsForest.
Import Machine.

#[export] Instance gset_laws : MarkSetLaws (gset nat).
Proof.
  split; simpl; [|done]. intros s i j _. apply eq_bool_prop_intro. rw orb_True !bool_decide_spec elem_of_union elem_of_singleton. naive_solver.
Qed.

Lemma sorted_snoc l (u : nat) : StronglySorted lt l -> (forall x, x ∈ l -> x < u) -> StronglySorted lt (l ++ [u]).
Proof.
  induction 1 as [|a l Hs IH Ha]; intros Hu; simpl; [by repeat constructor|]. constructor; [apply IH; intros x Hx; apply Hu; by right|].
  apply Forall_app. split; [done|]. repeat constructor. apply Hu. by left.
Qed.
Lemma sorted_nodup l : StronglySorted lt l -> NoDup l.
Proof. induction 1 as [|a l Hs IH Ha]; constructor; [|done]. intros Hin. rewrite Forall_forall in Ha. specialize (Ha a Hin). lia. Qed.

Section Exact.
Context (cfg : Cfg) (Hok : cfg_ok cfg) (Hentry : entry cfg < block_count cfg) (t : DominatorTree) (Ht : tree_exact cfg t).
Context (adj : Adjacency) (Hadj : forall u, u < block_count cfg -> adj_of adj u = Some (next cfg u)).
Context (visited : list bool) (Hvis : forall v, v < block_count cfg -> exists b, visited !! v = Some b /\ (b = true <-> live_block cfg v)).
Notation n := (block_count cfg).
Notation next := (next cfg).
Notation live_block := (live_block cfg).
Notation back_edge := (back_edge cfg).
Notation natural_loop := (natural_loop cfg).

(** ** Headers and latches *)

(** What the groups hold of the back edges seen; none has a source past [u]. *)
Record grouped (E : nat -> nat -> Prop) (u : nat) (g : groups) : Prop := {
  gr_nodup : NoDup (headers g);
  gr_lengths : length (latch_sets g) = length (headers g) /\ length (header_slots g) = n;
  gr_slots : forall h, h < n -> exists o, header_slots g !! h = Some o /\ forall k, o = Some k <-> headers g !! k = Some h;
  gr_headers : forall h, h ∈ headers g <-> exists v, E v h;
  gr_row : forall k h row, headers g !! k = Some h -> latch_sets g !! k = Some row ->
    StronglySorted lt row /\ forall v, v ∈ row <-> E v h;
  gr_bound : forall v h, E v h -> v <= u /\ h < n;
}.

Lemma grouped_proper E E' u g : (forall v h, E v h <-> E' v h) -> grouped E u g -> grouped E' u g.
Proof.
  intros HE [H1 H2 H3 H4 H5 H6]. split; [done..| | |].
  - intros h. rw H4. split; intros [v Hv]; exists v; by apply HE.
  - intros k h row Hk Hr. destruct (H5 k h row Hk Hr) as [? Hv]. split; [done|]. intros v. by rw Hv HE.
  - intros v h Hv. apply H6. by apply HE.
Qed.

Lemma last_sorted row (u : nat) : StronglySorted lt row -> (forall v, v ∈ row -> v <= u) -> u ∈ row -> last row = Some u.
Proof.
  induction 1 as [|a row Hs IH Ha]; intros Hle Hu; [by apply not_elem_of_nil in Hu|]. rewrite Forall_forall in Ha. rw last_cons.
  apply elem_of_cons in Hu as [<-|Hu]; [|rw IH //; intros v Hv; apply Hle; by right].
  destruct row as [|b row]; [done|]. pose proof (Ha b ltac:(by left)). pose proof (Hle b ltac:(right; by left)). lia.
Qed.

Lemma add_latch_ok E u g k h : grouped E u g -> headers g !! k = Some h -> (forall v, E v h -> v <= u) -> u < n -> h < n ->
  exists g', add_latch u g k = Some g' /\ grouped (fun v h' => E v h' \/ v = u /\ h' = h) u g' /\ headers g' = headers g.
Proof.
  intros [H1 [H2a H2b] H3 H4 H5 H6] Hk Hle Hu Hh. rw /add_latch.
  destruct (lookup_lt_is_Some_2 (latch_sets g) k) as [row Hrow]; [rw H2a; by eapply lookup_lt_Some|]. rw Hrow. cbn [mbind option_bind].
  eexists. split; [done|]. split; [|done]. destruct (H5 k h row Hk Hrow) as [Hs Hm]. split; cbn [headers latch_sets header_slots].
  - done.
  - by rw length_insert.
  - done.
  - intros h'. rw H4. split; [intros [v Hv]; exists v; by left|]. intros [v [Hv|[-> ->]]]; [by exists v|].
    apply H4. by eapply list_elem_of_lookup_2.
  - intros j h' row' Hj Hr'. destruct (decide (j = k)) as [->|Hne].
    + assert (h' = h) as -> by congruence. rewrite list_lookup_insert_eq in Hr'; [|by eapply lookup_lt_Some]. injection Hr' as <-.
      case_bool_decide as Hlast.
      * split; [done|]. intros v. rw Hm. split; [by left|]. intros [?|[-> _]]; [done|]. apply Hm. rewrite last_lookup in Hlast. by eapply list_elem_of_lookup_2.
      * split.
        -- apply sorted_snoc; [done|]. intros x Hx. pose proof (Hle x (proj1 (Hm x) Hx)). assert (x <> u); [|lia]. intros ->. apply Hlast.
           apply last_sorted; [done| |done]. intros v Hv. by apply Hle, Hm.
        -- intros v. rw elem_of_app list_elem_of_singleton Hm. naive_solver.
    + rewrite list_lookup_insert_ne in Hr'; [|done]. destruct (H5 j h' row' Hj Hr') as [? Hm']. split; [done|]. intros v. rw Hm'.
      split; [by left|]. intros [?|[-> ->]]; [done|]. destruct Hne. by eapply NoDup_lookup.
  - intros v h' [Hv|[-> ->]]; [by apply H6|lia].
Qed.

Lemma group_edge_ok E u g s : grouped E u g -> u < n -> s < n -> live_block u -> exists g', group_edge t u g s = Some g' /\
  grouped (fun v h => E v h \/ v = u /\ h = s /\ dominated_by cfg s u) u g'.
Proof.
  intros Hg Hu Hs Hlive. rw /group_edge. destruct (x_dom _ _ Ht s u) as (r & -> & Hr). cbn [mbind option_bind].
  assert (r = true <-> dominated_by cfg s u) as Hr'.
  { rw Hr. split; [|by right]. intros [->|[_ ?]]; [|done]. intros l Hl. by destruct Hl; left. }
  destruct r; simpl negb; cbn iota.
  2: { eexists. split; [done|]. apply (grouped_proper E); [|by destruct Hg; split].
       intros v h. split; [by left|]. intros [?|(_ & _ & Hd)]; [done|]. by apply Hr' in Hd. }
  assert (forall v h, E v h \/ v = u /\ h = s <-> E v h \/ v = u /\ h = s /\ dominated_by cfg s u) as HE.
  { intros v h. pose proof (proj1 Hr' eq_refl). tauto. }
  cbn [header_slots headers latch_sets g_edges g_back]. destruct (gr_slots _ _ _ Hg s Hs) as (o & Ho & Hk). rw Ho. cbn [mbind option_bind].
  set (g1 := mkGroups (headers g) (latch_sets g) (header_slots g) (S (g_edges g)) (S (g_back g))).
  assert (grouped E u g1) as Hg1 by (by destruct Hg; split). destruct o as [k|].
  - destruct (add_latch_ok E u g1 k s Hg1) as (g' & -> & Hg' & _); [by apply Hk|intros v Hv; by apply (gr_bound _ _ _ Hg v s)|done|done|].
    exists g'. split; [done|]. exact (grouped_proper _ _ _ _ HE Hg').
  - assert (s ∉ headers g) as Hns by (intros [k Hx]%list_elem_of_lookup; by apply Hk in Hx).
    destruct Hg as [H1 [H2a H2b] H3 H4 H5 H6]. assert (forall v, ~ E v s) as HnE by (intros v Hv; apply Hns, H4; by exists v).
    set (g2 := mkGroups (headers g ++ [s]) (latch_sets g ++ [[]]) (<[s := Some (length (headers g))]> (header_slots g)) (S (g_edges g)) (S (g_back g))).
    (* the empty row is filled at once *)
    assert (add_latch u g2 (length (headers g)) = Some (mkGroups (headers g ++ [s]) (latch_sets g ++ [[u]]) (header_slots g2) (S (g_edges g)) (S (g_back g)))) as ->.
    { rw /add_latch /=. rw -H2a list_lookup_middle //. cbn [mbind option_bind last]. rw bool_decide_false //.
      rw insert_app_r_alt // Nat.sub_diag //. }
    eexists. split; [done|]. apply (grouped_proper (fun v h => E v h \/ v = u /\ h = s)); [done|]. split; cbn [headers latch_sets header_slots g2].
    + apply NoDup_app. split_and!; [done| |apply NoDup_singleton]. by intros x Hx ->%list_elem_of_singleton.
    + rw !length_app length_insert H2a //.
    + intros h Hh. destruct (decide (h = s)) as [->|Hne].
      * exists (Some (length (headers g))). split; [by rw list_lookup_insert_eq // H2b|]. intros k. split.
        -- intros [= <-]. by rw list_lookup_middle.
        -- intros Hx. apply lookup_app_Some in Hx as [Hx|[Hge Hx]]; [by apply list_elem_of_lookup_2 in Hx|].
           apply list_lookup_singleton_Some in Hx as [Hz _]. f_equal. lia.
      * destruct (H3 h Hh) as (o & Ho' & Hk'). exists o. rw list_lookup_insert_ne //. split; [done|]. intros k. rw Hk'. split; [by apply lookup_app_l_Some|].
        intros [?|[_ Hx]]%lookup_app_Some; [done|]. by apply list_lookup_singleton_Some in Hx as [_ ?].
    + intros h. rw elem_of_app list_elem_of_singleton H4. split; [|naive_solver].
      intros [[v Hv]| ->]; [exists v; by left|exists u; by right].
    + intros k h row Hx Hrow. apply lookup_app_Some in Hx as [Hx|[Hge Hx]].
      * rewrite lookup_app_l in Hrow; [|rw H2a; by eapply lookup_lt_Some]. destruct (H5 k h row Hx Hrow) as [? Hm]. split; [done|].
        intros v. rw Hm. split; [by left|]. intros [?|[-> ->]]; [done|]. destruct Hns. by eapply list_elem_of_lookup_2.
      * apply list_lookup_singleton_Some in Hx as [Hz <-]. replace k with (length (latch_sets g)) in Hrow by lia.
        rewrite list_lookup_middle in Hrow; [|done]. injection Hrow as <-. split; [repeat constructor|]. intros v. rw list_elem_of_singleton.
        split; [by right|]. intros [Hv|[-> _]]; [by destruct (HnE v)|done].
    + intros v h [Hv|[-> ->]]; [by apply H6|lia].
Qed.

Lemma grouped_mono E u u' g : u <= u' -> grouped E u g -> grouped E u' g.
Proof. intros Hu [H1 H2 H3 H4 H5 H6]. split; [done..|]. intros v h Hv. destruct (H6 v h Hv). lia. Qed.

Lemma group_block_ok E u g : grouped E u g -> u < n ->
  exists g', group_block adj t visited g u = Some g' /\ grouped (fun v h => E v h \/ v = u /\ back_edge v h) u g'.
Proof using All.
  intros Hg Hu. rw /group_block. destruct (Hvis u Hu) as (b & -> & Hb). cbn [mbind option_bind]. destruct b; simpl negb; cbn iota; last first.
  { eexists. split; [done|]. apply (grouped_proper E); [|done]. intros v h. split; [by left|]. intros [?|[-> [Hl _]]]; [done|]. by apply Hb in Hl. }
  assert (live_block u) as Hl by by apply Hb. rw Hadj //. cbn [mbind option_bind].
  destruct (fold_opt_total (group_edge t u) (fun pre g => grouped (fun v h => E v h \/ v = u /\ h ∈ pre /\ dominated_by cfg h u) u g) (next u) g)
    as (g' & Hf & Hg').
  - apply (grouped_proper E); [|done]. intros v h. split; [by left|]. by intros [?|(_ & ?%not_elem_of_nil & _)].
  - intros pre s g1 [post Hp] Hg1. destruct (group_edge_ok _ u g1 s Hg1 Hu) as (g2 & -> & Hg2); [|done|].
    { destruct (next_spec cfg Hok u Hu) as [_ Hall]. rewrite Forall_forall in Hall. apply Hall. rw Hp. apply elem_of_app. right. by left. }
    exists g2. split; [done|]. eapply grouped_proper; [|exact Hg2]. intros v h. rw elem_of_app list_elem_of_singleton. naive_solver.
  - exists g'. split; [done|]. eapply grouped_proper; [|exact Hg']. intros v h. rw /LoopsForest.back_edge (flow_next cfg Hok). naive_solver.
Qed.

Lemma group_all i b : exists g, fold_opt (group_block adj t visited) (mkGroups [] [] (replicate n None) i b) (seq 0 n) = Some g /\
  grouped back_edge n g.
Proof using All.
  destruct (fold_opt_total_seq (group_block adj t visited) (fun u g => grouped (fun v h => v < u /\ back_edge v h) u g) 0 n
    (mkGroups [] [] (replicate n None) i b)) as (g & Hg & Hgr).
  - split; simpl; try done.
    + constructor.
    + by rw length_replicate.
    + intros h Hh. exists None. by rw lookup_replicate_2.
    + intros h. split; [by intros ?%not_elem_of_nil|]. intros (v & ? & _). lia.
    + intros v h [? _]. lia.
  - intros u g [_ Hu] Hg. destruct (group_block_ok _ u g Hg ltac:(lia)) as (g' & -> & Hg'). exists g'. split; [done|].
    apply (grouped_mono _ u); [lia|]. eapply grouped_proper; [|exact Hg']. intros v h. simpl.
    split; [intros [[? ?]|[-> ?]]; split; [lia|done|lia|done]|]. intros [Hv ?]. destruct (decide (v = u)) as [->|]; [by right|left; split; [lia|done]].
  - exists g. split; [exact Hg|]. eapply grouped_proper; [|exact Hgr]. intros v h. simpl. split; [by intros [_ ?]|]. intros Hv. split; [|done].
    destruct Hv as (_ & Hf & _). apply (flow_next cfg Hok) in Hf. lia.
Qed.

(** ** Bodies *)

Context (preds : list (list BlockId)) (Hpreds : forall b, b < n -> exists ps, preds !! b = Some ps /\ forall p, p ∈ ps <-> flow cfg p b)
  (Hpreds_length : length preds = n).

(** The predecessors, but none of the header, which is never taken up. *)
Definition back_next (h b : BlockId) : option (list BlockId) := if b =? h then Some [] else preds !! b.

Lemma back_next_loop (h : BlockId) fuel : forall (s : gset nat) wl, h ∈ s -> h ∉ wl ->
  push_loop (fun b => preds !! b) fuel s wl = push_loop (back_next h) fuel s wl.
Proof.
  induction fuel as [|fuel IH]; intros s wl Hs Hw; [done|]. destruct wl as [|v wl]; [done|]. apply not_elem_of_cons in Hw as [Hne Hw]. simpl.
  rw {2}/back_next. destruct (Nat.eqb_spec v h); [congruence|]. destruct (preds !! v) as [us|]; [|done]. cbn [mbind option_bind].
  assert (h ∈ (fold_left mark_push us (s, wl)).1 /\ h ∉ (fold_left mark_push us (s, wl)).2) as [? ?]; [|by apply IH].
  clear IH Hne. revert s wl Hs Hw. induction us as [|u us IH]; intros s wl Hs Hw; [done|]. simpl. rw {2 4}/mark_push /=. case_bool_decide as Hu; [by apply IH|].
  apply IH; [set_solver|]. apply not_elem_of_cons. split; [by intros ->|done].
Qed.

Lemma back_edge_lt u h : back_edge u h -> u < n /\ h < n.
Proof. intros (_ & Hf & _). by apply (flow_lt cfg Hok) in Hf. Qed.

Lemma seed_body_ok h ls : forall (s : gset nat) wl, h ∈ s -> h ∉ wl -> (forall v, v ∈ s <-> v = h \/ v ∈ wl) ->
  let st := fold_left (seed_body h) ls (s, wl) in h ∉ st.2 /\ (forall v, v ∈ st.1 <-> v = h \/ v ∈ st.2) /\
    (forall v, v ∈ st.2 <-> v ∈ wl \/ v ∈ ls /\ v <> h).
Proof.
  induction ls as [|l ls IH]; intros s wl Hs Hw Hm; simpl.
  { split_and!; [done..|]. intros v. rw elem_of_nil. tauto. }
  rw {2 4 6 8}/seed_body. destruct (Nat.eqb_spec l h) as [->|Hne].
  - destruct (IH s wl Hs Hw Hm) as (H1 & H2 & H3). split_and!; [done..|]. intros v. rw H3 elem_of_cons. naive_solver.
  - rw /mark_push /=. case_bool_decide as Hl.
    + destruct (IH s wl Hs Hw Hm) as (H1 & H2 & H3). split_and!; [done..|]. intros v. rw H3 elem_of_cons. apply Hm in Hl. naive_solver.
    + destruct (IH ({[l]} ∪ s) (l :: wl)) as (H1 & H2 & H3); [set_solver|by apply not_elem_of_cons|intros v; rw elem_of_cons; set_solver|].
      split_and!; [done..|]. intros v. rw H3 !elem_of_cons. naive_solver.
Qed.

Lemma seed_mark h ls : forall (s : gset nat) wl, h ∈ s -> fold_left (seed_body h) ls (s, wl) = fold_left mark_push ls (s, wl).
Proof.
  induction ls as [|l ls IH]; intros s wl Hs; [done|]. simpl. rw {2}/seed_body. destruct (Nat.eqb_spec l h) as [->|Hne].
  - assert (mark_push (s, wl) h = (s, wl)) as -> by (rw /mark_push /=; by rw bool_decide_true). by apply IH.
  - rw /mark_push /=. case_bool_decide; [by apply IH|]. apply IH. set_solver.
Qed.

Lemma natural_reach h wl v : (forall u, u ∈ wl <-> back_edge u h /\ u <> h) -> h < n -> reach_from (back_next h) (h :: wl) v <-> natural_loop h v.
Proof.
  intros Hwl Hh. assert (forall x y, edge (back_next h) x y <-> x <> h /\ flow cfg y x) as Hedge.
  { intros x y. rw /edge /back_next. destruct (Nat.eqb_spec x h) as [->|Hne].
    - split; [intros (l & Hl & Hy); injection Hl as <-; by apply not_elem_of_nil in Hy|by intros [? _]].
    - split; [|intros [_ Hf]; destruct (Hpreds x) as (ps & ? & Hps); [by apply (flow_lt cfg Hok) in Hf as [_ ?]|exists ps; split; [done|by apply Hps]]].
      intros (l & Hl & Hy). split; [done|]. destruct (preds !! x) as [ps|] eqn:Hx; [|done]. injection Hl as <-.
      destruct (decide (x < n)) as [Hlt|Hge]; [destruct (Hpreds x Hlt) as (ps' & ? & Hps); assert (ps' = ps) as -> by congruence; by apply Hps|].
      exfalso. apply lookup_lt_Some in Hx. lia. }
  split.
  - apply (reach_closed (back_next h) (h :: wl) (natural_loop h)).
    + intros r [->|Hr]%elem_of_cons; [by left|right]. apply Hwl in Hr as [Hb Hne]. exists r. split_and!; [done..|constructor].
    + intros x y Hx [Hne Hf]%Hedge. destruct (decide (y = h)) as [->|Hyh]; [by left|]. destruct Hx as [->|(u & Hb & Hu & _ & Hr)]; [done|].
      right. exists u. split_and!; [done..|]. by eapply rtc_l.
  - intros [->|(u & Hb & Hu & Hv & Hr)]; [apply reach_root; by left|]. revert Hv. induction Hr as [u|x y u [Hf [Hxh Hyh]] _ IH] => Hv.
    + apply reach_root. right. by apply Hwl.
    + eapply reach_edge; [by apply IH|]. by apply Hedge.
Qed.

Lemma loop_body_ok h ls : h < n -> (forall u, u ∈ ls <-> back_edge u h) ->
  exists body pushes, loop_body preds n h ls = Some (body, pushes) /\ StronglySorted lt body /\ forall b, b ∈ body <-> natural_loop h b.
Proof.
  intros Hh Hls. rw /loop_body. destruct (fold_left (seed_body h) ls ({[h]}, [])) as [s wl] eqn:Hseed.
  destruct (seed_body_ok h ls {[h]} []) as (Hw & Hs & Hwl); [set_solver|apply not_elem_of_nil|intros v; rw elem_of_nil; set_solver|].
  rewrite Hseed /= in Hw, Hs, Hwl. rewrite seed_mark in Hseed; [|set_solver].
  assert (Forall (fun u => u < n) ls) as Hlt by (apply Forall_forall; intros u Hu; by apply Hls, back_edge_lt in Hu as [? _]).
  destruct (mark_push_fold (back_next h) n ls {[h]} [] s wl Hlt ltac:(intros v _; exact I) Hseed) as (_ & _ & _ & _ & _ & Hmeasure).
  assert (unmarked n (fun _ => 1) ({[h]} : gset nat) < n) as Hun.
  { pose proof (unmarked_insert n (fun _ => 1) (∅ : gset nat) h Hh) as Hi. simpl in Hi. rw bool_decide_false in Hi *; [|set_solver].
    specialize (Hi eq_refl I). pose proof (unmarked_le n (fun _ => 1) (∅ : gset nat)) as Hle. rewrite sum_ones in Hle.
    replace ({[h]} ∪ ∅ : gset nat) with ({[h]} : gset nat) in Hi by set_solver. lia. }
  assert (forall u, u ∈ wl <-> back_edge u h /\ u <> h) as Hroots by (intros u; rw Hwl elem_of_nil Hls; tauto).
  destruct (push_loop_correct (back_next h) n (h :: wl)) with (fuel := S n) (s := s) (wl := wl) as (s' & Hrun & Hm).
  - intros v Hv. rw /back_next. destruct (Nat.eqb_spec v h); [by exists []|]. destruct (Hpreds v Hv) as (ps & -> & Hps). exists ps. split; [done|].
    apply Forall_forall. intros u Hu. apply Hps in Hu. by apply (flow_lt cfg Hok) in Hu as [? _].
  - split; simpl.
    + intros v Hv. rewrite bool_decide_eq_true Hs in Hv. split; [apply reach_root; rw elem_of_cons; tauto|].
      destruct Hv as [->|Hv]; [done|]. by apply Hroots in Hv as [[? _]%back_edge_lt _].
    + intros v Hv. rw bool_decide_eq_true Hs. by right.
    + intros r Hr%elem_of_cons. by apply bool_decide_eq_true, Hs.
    + intros u v Hu (l & Hl & Hv). rewrite bool_decide_eq_true Hs in Hu. destruct Hu as [->|Hu]; [|by right].
      rewrite /back_next Nat.eqb_refl in Hl. injection Hl as <-. by apply not_elem_of_nil in Hv.
    + intros v _. exact I.
  - simpl in Hmeasure. lia.
  - rewrite (back_next_loop h); [|apply Hs; by left|done]. rewrite Hrun. cbn [mbind option_bind].
    assert (forall b, b ∈ s' <-> natural_loop h b) as Hex.
    { intros b. rewrite -(natural_reach h wl) // -Hm /=. by rw bool_decide_eq_true. }
    eexists _, _. split; [done|]. split; [apply sort_ids_sorted, NoDup_elements|]. intros b. by rw /sort_ids elem_of_sort_by elem_of_elements.
Qed.

Lemma exits_ok body : (forall b, b ∈ body -> b < n) -> exists es, exits_of adj body = Some es /\
  forall u v, (u, v) ∈ es <-> u ∈ body /\ flow cfg u v /\ v ∉ body.
Proof using Hok Hadj.
  intros Hb. rw /exits_of. destruct (flat_opt_total (fun b => ss ← adj_of adj b : option (list BlockId); Some (map (pair b) (filter (fun s => s ∉ body) ss))) body) as [es Hes].
  { apply Forall_forall. intros b Hin. rw Hadj; [by eexists|by apply Hb]. }
  exists es. split; [exact Hes|]. intros u v. rw (flat_opt_elem _ _ _ _ Hes). split.
  - intros (b & es' & Hin & He & Huv). rewrite Hadj in He; [|by apply Hb]. cbn [mbind option_bind] in He. injection He as <-.
    apply list_elem_of_fmap in Huv as (w & [= -> ->] & [Hw Hn]%list_elem_of_filter). split_and!; [done| |done]. apply (flow_next cfg Hok). split; [by apply Hb|done].
  - intros (Hin & Hf & Hn). exists u. eexists. split_and!; [done|rw Hadj; [done|by apply Hb]|]. apply (list_elem_of_fmap_2 (pair u)).
    apply list_elem_of_filter. split; [done|]. by apply (flow_next cfg Hok) in Hf as [_ ?].
Qed.

(** ** The loops before their parents *)

Record loop_ok (lp : NaturalLoop) : Prop := {
  lo_header : exists u, back_edge u (header lp);
  lo_latches : StronglySorted lt (latches lp) /\ forall u, u ∈ latches lp <-> back_edge u (header lp);
  lo_body : StronglySorted lt (body lp) /\ forall b, b ∈ body lp <-> natural_loop (header lp) b;
  lo_exits : forall u v, (u, v) ∈ exits lp <-> natural_loop (header lp) u /\ flow cfg u v /\ ~ natural_loop (header lp) v;
}.

Lemma natural_lt h b : h < n -> natural_loop h b -> b < n.
Proof. intros Hh [->|(u & (_ & Hf & _) & _ & _ & Hr)]; [done|]. destruct Hr as [|x y z [Hf' _]]; [by apply (flow_lt cfg Hok) in Hf as [? _]|by apply (flow_lt cfg Hok) in Hf' as [? _]]. Qed.

Lemma build_loop_ok loops k h ls : h < n -> (exists u, back_edge u h) -> StronglySorted lt ls -> (forall u, u ∈ ls <-> back_edge u h) ->
  exists lp k', build_loop adj preds n (loops, k) (h, ls) = Some (loops ++ [lp], k') /\ header lp = h /\ loop_ok lp.
Proof.
  intros Hh Hu Hs Hls. rw /build_loop. assert (forall u, u ∈ sort_ids ls <-> back_edge u h) as Hls' by (intros u; by rw /sort_ids elem_of_sort_by).
  destruct (loop_body_ok h (sort_ids ls) Hh Hls') as (body & pushes & -> & Hbs & Hb). cbn [mbind option_bind].
  destruct (exits_ok body) as (es & -> & He); [intros b Hin; apply (natural_lt h); [done|by apply Hb]|]. cbn [mbind option_bind].
  eexists _, _. split; [done|]. split; [done|]. split; simpl.
  - done.
  - split; [apply sort_ids_sorted, sorted_nodup, Hs|done].
  - done.
  - intros u v. by rw He !Hb.
Qed.

Lemma build_all g : grouped back_edge n g ->
  exists loops pushes, fold_opt (build_loop adj preds n) ([], 0) (zip (headers g) (latch_sets g)) = Some (loops, pushes) /\
    header <$> loops = headers g /\ Forall loop_ok loops.
Proof.
  intros Hg. pose proof (gr_lengths _ _ _ Hg) as [Hlen _].
  destruct (fold_opt_total (build_loop adj preds n) (fun pre st => header <$> st.1 = pre.*1 /\ Forall loop_ok st.1) (zip (headers g) (latch_sets g)) ([], 0))
    as ([loops pushes] & Hf & Hh & Hall); [done| |].
  - intros pre [h ls] [loops k] [post Hp] [Hh Hall]. cbn [fst snd] in Hh, Hall |- *.
    assert (zip (headers g) (latch_sets g) !! length pre = Some (h, ls)) as Hx by by rw Hp list_lookup_middle.
    apply lookup_zip_with_Some in Hx as (h' & ls' & [= <- <-] & Hh' & Hls'). destruct (gr_row _ _ _ Hg _ _ _ Hh' Hls') as [Hs Hm].
    assert (exists u, back_edge u h) as [u Hu] by (apply (gr_headers _ _ _ Hg); by eapply list_elem_of_lookup_2).
    destruct (build_loop_ok loops k h ls) as (lp & k' & -> & Hlp & Hok'); [by apply (gr_bound _ _ _ Hg u h)|by exists u|done..|].
    eexists. split; [done|]. simpl. rw !fmap_app /= Hh Hlp. split; [done|]. apply Forall_app. split; [done|by apply Forall_singleton].
  - exists loops, pushes. split_and!; [done| |done]. simpl in Hh. rw Hh. apply fst_zip. lia.
Qed.
End Exact.

(** ** Parents *)

Section Parents.
Context (loops : list NaturalLoop) (n : nat).
Context (Hnd : NoDup (header <$> loops)) (Hbody : forall lp b, lp ∈ loops -> b ∈ body lp -> b < n) (Hheader : forall lp, lp ∈ loops -> header lp < n).

(** Loop [o] encloses loop [i]. *)
Definition encloses (o i : LoopId) : bool :=
  match loops !! o, loops !! i with
  | Some lo, Some li => negb (i =? o) && bool_decide (header li ∈ body lo) && (length (body li) <? length (body lo))
  | _, _ => false
  end.
Definition smaller (a b : LoopId) : bool :=
  (body_size loops a <? body_size loops b) || ((body_size loops a =? body_size loops b) && (a <=? b)).

Lemma note_headers : exists table, fold_opt note_header (replicate n None) (imap pair loops) = Some table /\
  forall b, b < n -> exists o, table !! b = Some o /\ forall i, o = Some i <-> header <$> loops !! i = Some b.
Proof using Hnd Hheader.
  destruct (fold_opt_total_imap note_header (fun k table => length table = n /\
    forall b, b < n -> exists o, table !! b = Some o /\ forall i, o = Some i <-> i < k /\ header <$> loops !! i = Some b) loops (replicate n None))
    as (table & Hf & _ & Ht).
  - split; [apply length_replicate|]. intros b Hb. exists None. rw lookup_replicate_2 //. split; [done|]. intros i. split; [done|]. by intros [? _]; lia.
  - intros k lp table Hk [Hl Ht]. assert (header lp < n) as Hh by (apply Hheader; by eapply list_elem_of_lookup_2).
    rw /note_header /=. destruct (Ht (header lp) Hh) as (o & Ho & _). rw Ho. cbn [mbind option_bind]. eexists. split; [done|]. split; [by rw length_insert|].
    intros b Hb. destruct (decide (b = header lp)) as [->|Hne].
    + exists (Some k). rw list_lookup_insert_eq; [|by rw Hl]. split; [done|]. intros i. split.
      * intros [= <-]. rw Hk. split; [lia|done].
      * intros [Hi He]. f_equal. apply (NoDup_lookup _ _ _ (header lp) Hnd); rw list_lookup_fmap; [by rw Hk|done].
    + rw list_lookup_insert_ne //. destruct (Ht b Hb) as (o' & Ho' & Hi). exists o'. split; [done|]. intros i. rw Hi.
      split; intros [? He]; (split; [|done]); [lia|]. destruct (decide (i = k)) as [->|]; [|lia]. rewrite Hk in He. simpl in He. congruence.
  - exists table. split; [done|]. intros b Hb. destruct (Ht b Hb) as (o & Ho & Hi). exists o. split; [done|]. intros i. rw Hi.
    split; [by intros [_ ?]|]. intros He. split; [|done]. destruct (loops !! i) eqn:Hx; [by eapply lookup_lt_Some|done].
Qed.

Definition adopted (p : option LoopId) (o : LoopId) (b : bool) : option LoopId := match p with Some q => Some q | None => if b then Some o else None end.

Lemma adopt_body_ok table parents k o : (forall b, b < n -> exists e, table !! b = Some e /\ forall i, e = Some i <-> header <$> loops !! i = Some b) ->
  length parents = length loops -> o < length loops ->
  exists parents' k', adopt_body loops table (parents, k) o = Some (parents', k') /\ length parents' = length loops /\
    forall i p, parents !! i = Some p -> parents' !! i = Some (adopted p o (encloses o i)).
Proof using Hbody.
  intros Ht Hl Ho. rw /adopt_body. destruct (lookup_lt_is_Some_2 loops o Ho) as [lo Hlo]. rw Hlo. cbn [mbind option_bind].
  destruct (fold_opt_total (adopt loops table o) (fun pre st => length st.1 = length loops /\ forall i p li, parents !! i = Some p -> loops !! i = Some li ->
    st.1 !! i = Some (adopted p o (encloses o i && bool_decide (header li ∈ pre)))) (body lo) (parents, k)) as ([parents' k'] & -> & Hl' & Hp).
  - split; [done|]. intros i p li Hi Hli. rw bool_decide_false; [|apply not_elem_of_nil]. rw andb_false_r Hi. by destruct p.
  - intros pre b [ps k1] [post Hpost] [Hl1 Hp]. assert (b ∈ body lo) as Hb by (rw Hpost; apply elem_of_app; right; by left).
    rw /adopt. cbn [fst snd]. destruct (Ht b) as (e & -> & He); [apply (Hbody lo); [by eapply list_elem_of_lookup_2|done]|]. cbn [mbind option_bind].
    (* a header elsewhere changes nothing *)
    assert (forall st2 : list (option LoopId) * nat, (forall i p li, parents !! i = Some p -> loops !! i = Some li -> header li = b -> encloses o i = true ->
      st2.1 !! i = Some (adopted p o true)) -> (forall i li, loops !! i = Some li -> header li <> b \/ encloses o i = false -> st2.1 !! i = ps !! i) ->
      forall i p li, parents !! i = Some p -> loops !! i = Some li -> st2.1 !! i = Some (adopted p o (encloses o i && bool_decide (header li ∈ pre ++ [b])))) as Hcase.
    { intros st2 H1 H2 i p li Hi Hli. assert (bool_decide (header li ∈ pre ++ [b]) = bool_decide (header li ∈ pre) || bool_decide (header li = b)) as ->.
      { apply eq_bool_prop_intro. rw orb_True !bool_decide_spec elem_of_app list_elem_of_singleton //. }
      destruct (encloses o i) eqn:Hen; [|rw (H2 i li) //; [by rw (Hp i p li) // Hen|by right]].
      destruct (decide (header li = b)) as [Hhb|Hhb].
      - rw (bool_decide_true (header li = b)) // orb_true_r. by apply (H1 i p li).
      - rw (bool_decide_false (header li = b)) // orb_false_r (H2 i li) //; [|by left]. by rw (Hp i p li) // Hen. }
    destruct e as [inner|].
    2: { eexists. split; [done|]. split; [done|]. apply Hcase; [|done]. intros i p li _ Hli Hh _. exfalso.
         assert (None = Some i) as Hx; [apply He; by rw Hli /= Hh|done]. }
    pose proof (proj1 (He inner) eq_refl) as Hin. destruct (loops !! inner) as [li|] eqn:Hli; [|done]. injection Hin as Hin.
    assert (forall i l, loops !! i = Some l -> header l = b -> i = inner) as Huniq.
    { intros i l Hi Hh. assert (Some inner = Some i) as Hx; [apply He; by rw Hi /= Hh|congruence]. }
    assert (encloses o inner = negb (inner =? o) && (length (body li) <? length (body lo))) as Hen.
    { rw /encloses Hlo Hli bool_decide_true ?andb_true_r //. by rw Hin. }
    destruct (inner =? o) eqn:Hio.
    { eexists. split; [done|]. split; [done|]. apply Hcase; [|done]. intros i p l _ Hl2 Hh He2. rewrite (Huniq i l Hl2 Hh) Hen in He2. done. }
    rw Hlo. cbn [mbind option_bind]. destruct (length (body li) <? length (body lo)) eqn:Hlt; simpl negb; cbn iota; last first.
    { eexists. split; [done|]. split; [done|]. apply Hcase; [|done]. intros i p l _ Hl2 Hh He2. rewrite (Huniq i l Hl2 Hh) Hen in He2. done. }
    destruct (lookup_lt_is_Some_2 ps inner) as [q Hq]; [rw Hl1; by eapply lookup_lt_Some|]. rw Hq. cbn [mbind option_bind].
    assert (forall p, parents !! inner = Some p -> q = adopted p o (bool_decide (b ∈ pre))) as Hqp.
    { intros p Hpi. pose proof (Hp inner p li Hpi Hli) as Hx. rewrite Hq Hen Hin /= in Hx. by injection Hx. }
    destruct q as [q|]; (eexists; split; [done|]); (split; [cbn [fst]; by rw ?length_insert|]); apply Hcase; cbn [fst].
    + intros i p l Hpi Hl2 Hh _. rewrite (Huniq i l Hl2 Hh) in Hpi |- *. rw Hq. pose proof (Hqp p Hpi) as Hx. destruct p as [p|]; simpl in *; [congruence|].
      destruct (bool_decide (b ∈ pre)); congruence.
    + done.
    + intros i p l Hpi Hl2 Hh _. rewrite (Huniq i l Hl2 Hh) in Hpi |- *. rw list_lookup_insert_eq; [|by eapply lookup_lt_Some].
      pose proof (Hqp p Hpi) as Hx. by destruct p as [p|].
    + intros i l Hl2 Hor. destruct (decide (i = inner)) as [->|Hne]; [|by rw list_lookup_insert_ne]. assert (l = li) as -> by congruence.
      destruct Hor as [Hor|Hor]; [done|]. by rewrite Hen in Hor.
  - exists parents', k'. split_and!; [done..|]. intros i p Hi. destruct (lookup_lt_is_Some_2 loops i) as [li Hli]; [rw -Hl; by eapply lookup_lt_Some|].
    rw (Hp i p li) //. do 2 f_equal. destruct (encloses o i) eqn:He; [|done]. simpl. rw /encloses Hlo Hli in He *.
    apply andb_true_iff in He as [[_ He]%andb_true_iff _]. done.
Qed.

(** The parent is the first enclosing loop in the order of sizes. *)
Lemma parents_ok : exists loops' k, assign_loop_parents loops n = Some (loops', k) /\
  length loops' = length loops /\ forall i lp, loops !! i = Some lp -> exists p, loops' !! i = Some (with_parent lp p) /\
    (p = None <-> forall o, encloses o i = false) /\
    forall o, p = Some o -> encloses o i = true /\ forall o', encloses o' i = true -> smaller o o' = true.
Proof using All.
  rw /assign_loop_parents. destruct note_headers as (table & -> & Ht). cbn [mbind option_bind]. fold smaller.
  set (order := sort_by smaller (seq 0 (length loops))).
  assert (StronglySorted (fun a b => smaller a b = true) order) as Hsorted.
  { apply sort_by_sorted; rw /smaller; intros *; rw !orb_true_iff !andb_true_iff ?orb_false_iff ?andb_false_iff ?Nat.ltb_lt ?Nat.leb_le ?Nat.eqb_eq ?Nat.ltb_ge ?Nat.leb_gt ?Nat.eqb_neq; lia. }
  assert (forall o, o ∈ order <-> o < length loops) as Hin by (intros o; rw /order elem_of_sort_by elem_of_seq; lia).
  destruct (fold_opt_total (adopt_body loops table) (fun pre st => length st.1 = length loops /\
    forall i, i < length loops -> st.1 !! i = Some (head (filter (fun o => encloses o i = true) pre))) order (replicate (length loops) None, 0))
    as ([parents k] & Hf & Hl & Hp).
  - split; [apply length_replicate|]. intros i Hi. by apply lookup_replicate_2.
  - intros pre o [ps k] [post Hpost] [Hl Hp]. assert (o < length loops) as Ho by (apply Hin; rw Hpost; apply elem_of_app; right; by left).
    destruct (adopt_body_ok table ps k o Ht Hl Ho) as (ps' & k' & -> & Hl' & Hp'). eexists. split; [done|]. split; [done|].
    intros i Hi. cbn [fst] in *. rw (Hp' i _ (Hp i Hi)) filter_app filter_cons filter_nil.
    destruct (filter _ pre) as [|q l] eqn:Hq; simpl; [|done]. by destruct (encloses o i).
  - rw Hf. cbn [mbind option_bind]. eexists _, _. split; [done|]. cbn [fst] in *. split; [rw length_zip_with; lia|].
    intros i lp Hi. pose proof (lookup_lt_Some _ _ _ Hi) as Hlt. eexists. split; [rw lookup_zip_with Hi (Hp i Hlt) //|].
    assert (forall o, encloses o i = true -> o ∈ order) as Hmem.
    { intros o He. apply Hin. rewrite /encloses in He. destruct (loops !! o) eqn:Hx; [by eapply lookup_lt_Some|done]. }
    destruct (filter (fun o => encloses o i = true) order) as [|o l] eqn:Hfl; simpl.
    + split; [|done]. split; [|done]. intros _ o. apply not_true_iff_false. intros He.
      assert (o ∈ filter (fun o => encloses o i = true) order) as Hx by (apply list_elem_of_filter; split; [done|by apply Hmem]).
      rewrite Hfl in Hx. by apply not_elem_of_nil in Hx.
    + assert (encloses o i = true) as He.
      { assert (o ∈ filter (fun o => encloses o i = true) order) as Hx by (rw Hfl; by left). by apply list_elem_of_filter in Hx as [? _]. }
      split; [split; [done|]; intros Hno; by rewrite Hno in He|]. intros o2 [= <-]. split; [done|]. intros o' He'.
      assert (o' ∈ o :: l) as Hx by (rewrite -Hfl; apply list_elem_of_filter; split; [done|by apply Hmem]).
      apply elem_of_cons in Hx as [->|Hx]; [rw /smaller; rw orb_true_iff andb_true_iff Nat.eqb_eq Nat.leb_le; by right|].
      assert (StronglySorted (fun a b => smaller a b = true) (filter (fun o => encloses o i = true) order)) as Hsf.
      { clear -Hsorted. induction Hsorted as [|a l Hs IH Ha]; [constructor|]. rw filter_cons. case_decide; [|done]. constructor; [done|].
        rewrite !Forall_forall in Ha |- *. intros x [_ Hx]%list_elem_of_filter. by apply Ha. }
      rewrite Hfl in Hsf. apply StronglySorted_inv in Hsf as [_ Hall]. rewrite Forall_forall in Hall. by apply Hall.
Qed.
End Parents.
