(* ===== verification/LoopsRun.v ===== *)
(** * Natural loops: the analysis

    The whole analysis on a well-formed graph: it finishes, refuses exactly the
    graphs with a tangled cycle, and describes every natural loop of the
    others. *)

From stdpp Require Import gmap sorting relations.
From S2P Require Import Prelude IntegerSemantics Types Payload CfgData CfgEdit Csr Cfg Worklist Dce Dominators DomDfs DomTree DomOrder DomLower Loops LoopsForest LoopsExact.
Import Machine.

Section Run.
Context (cfg : Cfg) (Hok : cfg_ok cfg) (Hentry : entry cfg < block_count cfg) (t : DominatorTree) (Ht : tree_exact cfg t).
Notation n := (block_count cfg).
Notation flow := (flow cfg).
Notation flow_path := (flow_path cfg).
Notation dominated_by := (dominated_by cfg).
Notation live_block := (live_block cfg).
Notation back_edge := (back_edge cfg).
Notation natural_loop := (natural_loop cfg).

(** ** Dominance *)

Lemma dominated_antisym a b : live_block a -> dominated_by a b -> dominated_by b a -> a = b.
Proof.
  intros [l Hl]%(live_path cfg) Hab Hba. remember (length l) as k eqn:Hk. revert l Hl Hk. induction k as [k IH] using lt_wf_ind. intros l Hl ->.
  destruct (path_suffix cfg Hentry l a b Hl (Hba l Hl)) as [->|(l2 & Hl2 & Hlt2)]; [done|].
  destruct (path_suffix cfg Hentry l2 b a Hl2 (Hab l2 Hl2)) as [->|(l3 & Hl3 & Hlt3)]; [done|]. by apply (IH (length l3)) with (l := l3); [lia|..].
Qed.

Lemma dominators_linear a b c : live_block c -> dominated_by a c -> dominated_by b c -> dominated_by a b \/ dominated_by b a.
Proof using Hok Hentry Ht.
  intros Hc. revert c Hc. apply (tree_induction cfg Hentry t Ht (fun c => dominated_by a c -> dominated_by b c -> dominated_by a b \/ dominated_by b a)).
  - intros Ha Hb. assert (b = entry cfg) as ->; [|by left]. assert (b ∈ [entry cfg]) as ?%list_elem_of_singleton; [|done]. apply Hb. constructor.
  - intros c d Hd IH Ha Hb. apply (x_idom _ _ Ht) in Hd as (_ & _ & _ & Hd). destruct (decide (b = c)) as [->|Hbc]; [by left|].
    destruct (decide (a = c)) as [->|Hac]; [by right|]. by apply IH; apply Hd.
Qed.

(** A path from its last visit to a block on. *)
Lemma path_last l b h : flow_path l b -> h ∈ l -> exists l2 l1, l = l2 ++ h :: l1 /\ h ∉ l2 /\ forall p, flow_path p h -> flow_path (l2 ++ p) b.
Proof.
  induction 1 as [|l u v Hp IH Hf].
  - intros ->%list_elem_of_singleton. exists [], []. split_and!; [done|apply not_elem_of_nil|done].
  - intros Hh. destruct (decide (h = v)) as [->|Hne]; [exists [], l; split_and!; [done|apply not_elem_of_nil|done]|].
    apply elem_of_cons in Hh as [?|Hh]; [done|]. destruct (IH Hh) as (l2 & l1 & -> & Hn & Hext). exists (v :: l2), l1.
    split_and!; [done|by apply not_elem_of_cons|]. intros p Hpp. simpl. econstructor; [by apply Hext|done].
Qed.

(** ** Bodies *)

Lemma body_dominated h b : live_block b -> natural_loop h b -> dominated_by h b.
Proof.
  intros _ [->|(u & (_ & _ & Hd) & _ & _ & Hr)]; [intros l Hl; by destruct Hl; left|]. induction Hr as [|x y u [Hf [_ Hy]] _ IH]; [done|].
  intros l Hl. specialize (IH Hd (y :: l)). apply elem_of_cons in IH as [->|?]; [done..|by econstructor].
Qed.

(** What a block of the body is reached from, short of the header, is in the
    body too. *)
Lemma body_closed h b p : natural_loop h b -> b <> h -> flow p b -> natural_loop h p.
Proof.
  intros [->|(u & Hb & Hu & Hbh & Hr)] Hne Hf; [done|]. destruct (decide (p = h)) as [->|Hp]; [by left|right]. exists u. split_and!; [done..|]. by eapply rtc_l.
Qed.

(** Loops that share a reachable block are nested. *)
Lemma loops_nested h1 h2 b : live_block b -> natural_loop h1 b -> natural_loop h2 b -> dominated_by h1 h2 -> h1 <> h2 ->
  natural_loop h1 h2 /\ forall x, natural_loop h2 x -> natural_loop h1 x.
Proof.
  intros Hlive H1 H2 Hd Hne. pose proof (body_dominated h1 b Hlive H1) as Hd1. pose proof (body_dominated h2 b Hlive H2) as Hd2.
  assert (live_block h2) as Hl2.
  { apply (live_path cfg) in Hlive as [l Hl]. specialize (Hd2 l Hl). destruct (path_suffix cfg Hentry l b h2 Hl Hd2) as [->|(l' & Hl' & _)]; apply (live_path cfg); eauto. }
  assert (~ dominated_by h2 h1) as Hnd by (intros Hd'; apply Hne; symmetry; by apply dominated_antisym).
  assert (natural_loop h1 h2) as Hin.
  { pose proof Hlive as [l Hl]%(live_path cfg). destruct (path_last l b h2 Hl (Hd2 l Hl)) as (l2 & l1 & -> & Hn & Hext).
    (* the way from [h2] to [b] misses [h1] *)
    assert (h1 ∉ l2) as Hn1.
    { intros Hin. destruct (path_last _ b h1 Hl) as (l3 & l4 & Heq & Hn3 & Hext3); [apply elem_of_app; by left|]. apply Hnd. intros p Hp.
      assert (l3 ⊆ l2) as Hsub.
      { clear -Heq Hn3 Hin. revert l2 Heq Hin. induction l3 as [|x l3 IH]; intros l2 Heq Hin y Hy; [by apply not_elem_of_nil in Hy|].
        destruct l2 as [|z l2]; [by apply not_elem_of_nil in Hin|]. injection Heq as -> Heq. apply not_elem_of_cons in Hn3 as [Hx Hn3].
        apply elem_of_cons in Hin as [?|Hin]; [done|]. apply elem_of_cons in Hy as [->|Hy]; [by left|right]. by apply (IH Hn3 l2 Heq Hin). }
      specialize (Hd2 _ (Hext3 p Hp)). apply elem_of_app in Hd2 as [Hx|]; [by apply Hsub in Hx|done]. }
    assert (forall k b, natural_loop h1 b -> h1 ∉ k -> flow_path (k ++ h2 :: l1) b -> natural_loop h1 h2) as Hgo; [|by apply (Hgo l2 b)].
    clear -Hne. intros k. induction k as [|x k IH]; intros b Hb Hk Hp; simpl in Hp; inversion Hp as [|l u v Hp' Hf]; subst; try done.
    - by destruct k.
    - apply not_elem_of_cons in Hk as [Hx Hk]. apply (IH u); [|done|done]. by apply (body_closed h1 b). }
  split; [done|]. intros x [->|(u & Hb & Hu & Hx & Hr)]; [done|]. assert (natural_loop h1 u) as Hu1.
  { apply (body_closed h1 h2); [done|done|apply Hb]. }
  assert (~ natural_loop h2 h1) as Hn1.
  { intros Hx1. apply Hnd, body_dominated; [|done]. apply (live_path cfg) in Hl2 as [l Hl]. specialize (Hd l Hl).
    destruct (path_last l h2 h1 Hl Hd) as (l2 & l1 & -> & _ & _). apply (live_path cfg). clear -Hl. revert h2 Hl.
    induction l2 as [|y l2 IH]; intros h2 Hl; [exists (h1 :: l1); simpl in Hl; by inversion Hl; subst; econstructor|].
    inversion Hl as [|l u v Hp Hf]; subst; [by destruct l2|]. by apply (IH u). }
  clear Hx. induction Hr as [u|x y u [Hf [_ Hy]] Hr IH]; [done|]. assert (natural_loop h1 y) as Hy1 by by apply IH.
  apply (body_closed h1 y); [done| |done]. intros ->. apply Hn1. right. by exists u.
Qed.

Lemma body_antisym h1 h2 : live_block h1 -> live_block h2 -> natural_loop h1 h2 -> natural_loop h2 h1 -> h1 = h2.
Proof. intros H1 H2 H12 H21. by apply dominated_antisym; [..|apply body_dominated|apply body_dominated]. Qed.

(** ** Successors *)

Lemma count_list (l : list BlockId) : forall k, (0 <= k)%Z -> (k + Z.of_nat (length l) < 2 ^ 64)%Z ->
  fold_opt (fun count _ => checked_u 64 (count + 1)) k l = Some (k + Z.of_nat (length l))%Z.
Proof.
  induction l as [|x l IH]; intros k Hk Hl; cbn [fold_opt length]; [f_equal; lia|]. cbn [length] in Hl.
  rw checked_u_in; [|rw /in_u; lia]. cbn [mbind option_bind]. rw IH; [f_equal; lia|lia|lia].
Qed.

Lemma next_length u : u < n -> (Z.of_nat (length (next cfg u)) <= 2 ^ 32)%Z.
Proof using Hok Hentry.
  intros [b Hb]%lookup_lt_is_Some_2. rw /next /visit_successors /get_block Hb. cbn [mbind option_bind].
  pose proof (block_ok_term _ _ _ (ok_blocks _ Hok _ _ Hb)) as Ht'. destruct (terminator b) as [| |x r d| | |]; simpl; try lia.
  destruct Ht' as (_ & Hr & _). rw /switch_cases_of range_ok_view //. cbn [mbind option_bind]. simpl default.
  destruct Hr as [[_ He] Hw]. rw /in_u in He. apply denote_length in Hw. rw length_app length_fmap /=. lia.
Qed.

Lemma successors_build_total : exists adj, successors_build cfg n = Some adj /\
  targets adj = concat (next cfg <$> seq 0 n) /\ forall u, u < n -> adj_of adj u = Some (next cfg u).
Proof using Hok Hentry.
  destruct (adj_successors_spec cfg Hok) as (adj & Ha & Hs). exists adj. split; [|done]. rw /successors_build.
  destruct (fold_seq_total (count_successors cfg) (fun i k => (0 <= k <= Z.of_nat i * 2 ^ 32)%Z) n 0%Z) as (k & -> & _); [lia| |done].
  intros i k Hi Hk. rw /count_successors. destruct (next_spec cfg Hok i Hi) as [-> _]. cbn [mbind option_bind].
  pose proof (next_length i Hi). pose proof (ok_block_bound _ Hok) as Hn. rw /u32_max in Hn.
  eexists. split; [apply count_list; nia|nia].
Qed.

(** ** The forest *)

(** Loop [o] goes round the header of loop [i]. *)
Definition around (ls : list NaturalLoop) (o i : LoopId) : Prop :=
  o <> i /\ exists lo li, ls !! o = Some lo /\ ls !! i = Some li /\ natural_loop (header lo) (header li).

Record forest_exact (f : LoopForest) : Prop := {
  fe_irreducible : irreducible f = true <-> exists c, tangled cfg c;
  fe_refused : irreducible f = true -> forest_loops f = [];
  fe_headers : NoDup (header <$> forest_loops f);
  fe_all : irreducible f = false -> forall h, h ∈ header <$> forest_loops f <-> exists u, back_edge u h;
  fe_loops : Forall (loop_ok cfg) (forest_loops f);
  fe_parent : forall i lp, forest_loops f !! i = Some lp ->
    (parent lp = None <-> forall o, ~ around (forest_loops f) o i) /\
    forall o, parent lp = Some o -> around (forest_loops f) o i /\
      forall o', o' <> o -> around (forest_loops f) o' i -> around (forest_loops f) o' o;
}.

Lemma header_live lp : loop_ok cfg lp -> live_block (header lp).
Proof. intros [[u (Hl & Hf & _)] _ _ _]. by eapply rtc_r. Qed.

Lemma body_strict l1 l2 : loop_ok cfg l1 -> loop_ok cfg l2 -> header l1 <> header l2 -> natural_loop (header l1) (header l2) ->
  length (body l2) < length (body l1).
Proof using Hok Hentry Ht.
  intros H1 H2 Hne Hin. pose proof (header_live _ H1) as Hl1. pose proof (header_live _ H2) as Hl2.
  assert (natural_loop (header l2) (header l2)) as Hself by by left.
  destruct (loops_nested _ _ _ Hl2 Hin Hself (body_dominated _ _ Hl2 Hin) Hne) as [_ Hsub].
  destruct (lo_body _ _ H1) as [Hs1 Hb1]. destruct (lo_body _ _ H2) as [Hs2 Hb2].
  assert (header l1 :: body l2 ⊆+ body l1) as Hle%submseteq_length; [|simpl in Hle; lia].
  apply NoDup_submseteq.
  - constructor; [|by apply sorted_nodup]. rw Hb2. intros Hback. apply Hne. by apply body_antisym.
  - intros x [->|Hx]%elem_of_cons; [apply Hb1; by left|]. by apply Hb1, Hsub, Hb2.
Qed.

Lemma encloses_around ls o i : NoDup (header <$> ls) -> Forall (loop_ok cfg) ls -> encloses ls o i = true <-> around ls o i.
Proof using Hok Hentry Ht.
  intros Hnd Hls. rw /encloses /around. destruct (ls !! o) as [lo|] eqn:Ho; [|split; [done|by intros (_ & ? & ? & ? & _)]].
  destruct (ls !! i) as [li|] eqn:Hi; [|split; [done|by intros (_ & ? & ? & _ & ? & _)]].
  rewrite Forall_lookup in Hls. pose proof (Hls _ _ Ho) as Hlo. pose proof (Hls _ _ Hi) as Hli.
  rw !andb_true_iff bool_decide_eq_true negb_true_iff Nat.eqb_neq Nat.ltb_lt (proj2 (lo_body _ _ Hlo)). split.
  - intros [[Hne Hin] _]. split; [done|]. by exists lo, li.
  - intros (Hne & ? & ? & [= <-] & [= <-] & Hin). split_and!; [done..|]. apply body_strict; [done..| |done]. intros Heq. apply Hne.
    eapply (NoDup_lookup _ _ _ (header lo) Hnd); rw list_lookup_fmap; [by rw Ho|by rw Hi /= Heq].
Qed.

Lemma around_nested ls a b i : NoDup (header <$> ls) -> Forall (loop_ok cfg) ls -> around ls a i -> around ls b i -> b <> a ->
  smaller ls a b = true -> around ls b a.
Proof using Hok Hentry Ht.
  intros Hnd Hls (Ha & la & li & Hla & Hli & Hai) (Hb & lb & ? & Hlb & Hli' & Hbi) Hne Hsm. rewrite Hli in Hli'. injection Hli' as <-.
  split; [done|]. exists lb, la. split_and!; [done..|]. rewrite Forall_lookup in Hls.
  pose proof (Hls _ _ Hla) as Oa. pose proof (Hls _ _ Hlb) as Ob. pose proof (header_live _ (Hls _ _ Hli)) as Hlive.
  assert (header la <> header lb) as Hh.
  { intros Heq. apply Hne. symmetry. eapply (NoDup_lookup _ _ _ (header la) Hnd); rw list_lookup_fmap; [by rw Hla|by rw Hlb /= Heq]. }
  destruct (dominators_linear (header la) (header lb) (header li)) as [Hd|Hd]; [done|by apply body_dominated..| |].
  - exfalso. destruct (loops_nested (header la) (header lb) (header li)) as [Hin _]; [done..|].
    pose proof (body_strict la lb Oa Ob Hh Hin). rw /smaller /body_size Hla Hlb in Hsm.
    apply orb_true_iff in Hsm as [?%Nat.ltb_lt|[?%Nat.eqb_eq _]%andb_true_iff]; lia.
  - by destruct (loops_nested (header lb) (header la) (header li)) as [? _].
Qed.

Lemma around_lookup ls ls' o i : header <$> ls = header <$> ls' -> around ls o i <-> around ls' o i.
Proof.
  intros Heq. assert (forall k, header <$> ls !! k = header <$> ls' !! k) as Hk by (intros k; by rw -!list_lookup_fmap Heq).
  assert (forall l, around l o i <-> o <> i /\ exists a b, header <$> l !! o = Some a /\ header <$> l !! i = Some b /\ natural_loop a b) as Hr.
  { intros l. rw /around. split; intros [Hne H]; (split; [done|]).
    - destruct H as (lo & li & -> & -> & H). by exists (header lo), (header li).
    - destruct H as (a & b & (lo & -> & Ho)%fmap_Some & (li & -> & Hi)%fmap_Some & H). exists lo, li. by rw -Ho -Hi. }
  by rw !Hr !Hk.
Qed.

Lemma with_parent_ok lp p : loop_ok cfg lp -> loop_ok cfg (with_parent lp p).
Proof. by intros [H1 H2 H3 H4]. Qed.

Lemma parents_exact ls : NoDup (header <$> ls) -> (forall h, h ∈ header <$> ls <-> exists u, back_edge u h) -> Forall (loop_ok cfg) ls ->
  (~ exists c, tangled cfg c) -> exists ls' k, assign_loop_parents ls n = Some (ls', k) /\ forest_exact (mkForest ls' false).
Proof using Hok Hentry Ht.
  intros Hnd Hall Hls Hirr. pose proof Hls as Hls'. rewrite Forall_forall in Hls'.
  assert (forall lp, lp ∈ ls -> header lp < n) as Hh by (intros lp Hlp; eapply live_lt; [done..|]; by apply header_live, Hls').
  destruct (parents_ok ls n Hnd) as (ls' & k & Ha & Hlen & Hp).
  { intros lp b Hlp Hb. apply (lo_body _ _ (Hls' _ Hlp)) in Hb. eapply natural_lt; [done|by apply Hh|done]. }
  { done. }
  assert (header <$> ls = header <$> ls') as Heq.
  { apply list_eq. intros i. rw !list_lookup_fmap. destruct (ls !! i) as [lp|] eqn:Hi.
    - by destruct (Hp i lp Hi) as (p & -> & _).
    - by rw lookup_ge_None_2; [|rw Hlen; by apply lookup_ge_None]. }
  exists ls', k. split; [done|]. split; simpl.
  - by split.
  - done.
  - by rw -Heq.
  - intros _ h. by rw -Heq.
  - apply Forall_lookup. intros i lp' Hi. assert (is_Some (ls !! i)) as [lp Hlp] by (apply lookup_lt_is_Some; rw -Hlen; by eapply lookup_lt_Some).
    destruct (Hp i lp Hlp) as (p & Hp' & _). rewrite Hi in Hp'. injection Hp' as ->. apply with_parent_ok, Hls'. by eapply list_elem_of_lookup_2.
  - intros i lp' Hi. assert (is_Some (ls !! i)) as [lp Hlp] by (apply lookup_lt_is_Some; rw -Hlen; by eapply lookup_lt_Some).
    destruct (Hp i lp Hlp) as (p & Hp' & HN & HS). rewrite Hi in Hp'. injection Hp' as ->. simpl.
    assert (forall a b, encloses ls a b = true <-> around ls' a b) as He by (intros a b; by rw encloses_around // (around_lookup ls ls')).
    split.
    + rw HN. split; intros Ho o; [by rw -He Ho|]. destruct (encloses ls o i) eqn:Hoi; [|done]. by apply He, Ho in Hoi.
    + intros o Ho. destruct (HS o Ho) as [Hoi Hmin]. split; [by apply He|]. intros o' Hne Ho'. apply He in Ho'.
      rw -(around_lookup ls ls') //. apply (around_nested ls o o' i); [done..|by apply encloses_around|by apply encloses_around|done|by apply Hmin].
Qed.

Lemma forest_total : exists f s, loops_with_stats cfg t = Some (f, s) /\ forest_exact f.
Proof using Hok Hentry Ht.
  rw /loops_with_stats. destruct successors_build_total as (adj & -> & Htg & Hadj). cbn [mbind option_bind].
  destruct (search_exact cfg Hok Hentry t Ht adj Hadj Htg) as (st & -> & Hvis & Href). cbn [mbind option_bind].
  destruct (refused st) eqn:Hr.
  { eexists _, _. split; [done|]. split; simpl; [by rw -Href|done|constructor|done|constructor|done]. }
  destruct (compute_predecessors_total cfg Hok) as (preds & -> & Hpl & Hpr). cbn [mbind option_bind].
  destruct (group_all cfg Hok Hentry t Ht adj Hadj (visited st) Hvis (n_edges st) 0) as (g & -> & Hg). cbn [mbind option_bind].
  destruct (build_all cfg Hok Hentry t Ht adj Hadj (visited st) Hvis preds) with (g := g) as (ls & pushes & -> & Hhd & Hls); [|done|done|].
  { intros b Hb. eexists. split; [by apply Hpr|]. intros p. by rw elem_of_pred_row. }
  cbn [mbind option_bind]. destruct (parents_exact ls) as (ls' & k & -> & Hf).
  - rw Hhd. apply (gr_nodup _ _ _ _ Hg).
  - rw Hhd. apply (gr_headers _ _ _ _ Hg).
  - done.
  - intros Ht'%Href. congruence.
  - by eexists _, _.
Qed.
(** ** Block orders *)

Lemma may_cycle_exact b blk : blocks cfg !! b = Some blk -> exists r, may_cycle cfg b = Some r /\ (r = true <-> exists s, s ∈ succs cfg blk /\ s <= b).
Proof using Hok.
  clear t Ht Hentry.
  intros Hb. destruct (succs_total cfg Hok blk ltac:(by eapply list_elem_of_lookup_2)) as [Hs _]. rw /may_cycle /get_block Hb. cbn [mbind option_bind].
  assert (forall s, observe b s = true <-> s <= b) as Ho by (intros s; by rw /observe Nat.leb_le).
  destruct (terminator blk) as [s|x tb ta eb ea|x r d| | |]; simpl in Hs.
  - injection Hs as <-. eexists. split; [done|]. rw Ho. set_solver.
  - injection Hs as <-. eexists. split; [done|]. rw orb_true_iff !Ho. set_solver.
  - destruct (switch_cases_of cfg r) as [cs|]; [|done]. injection Hs as <-. eexists. split; [done|]. rw orb_true_iff Ho existsb_exists. split.
    + intros [(c & Hc%list_elem_of_In & Hle%Ho)|Hle]; [exists c.2|exists d]; (split; [|done]); apply elem_of_app; [left; by apply list_elem_of_fmap_2|right; by left].
    + intros (s & [(c & -> & Hc)%list_elem_of_fmap| ->%list_elem_of_singleton]%elem_of_app & Hle); [left|by right]. exists c. by rw -list_elem_of_In Ho.
  - injection Hs as <-. eexists. split; [done|]. set_solver.
  - injection Hs as <-. eexists. split; [done|]. set_solver.
  - injection Hs as <-. eexists. split; [done|]. set_solver.
Qed.

Lemma block_order_exact : exists r, may_have_cycle_by_block_order cfg = Some r /\ (r = true <-> exists u v, flow u v /\ v <= u).
Proof using Hok.
  clear t Ht Hentry.
  rw /may_have_cycle_by_block_order. assert (forall l, (forall b, b ∈ l -> b < n) -> exists r, any_may_cycle cfg l = Some r /\
    (r = true <-> exists u v, u ∈ l /\ flow u v /\ v <= u)) as Hgo.
  { induction l as [|b l IH]; intros Hl; [exists false; split; [done|]; set_solver|]. simpl.
    destruct (lookup_lt_is_Some_2 (blocks cfg) b) as [blk Hb]; [apply Hl; by left|]. destruct (may_cycle_exact b blk Hb) as (r & -> & Hr). cbn [mbind option_bind].
    destruct IH as (r' & Hr' & Hl'); [intros b' Hb'; apply Hl; by right|]. destruct r.
    - eexists. split; [done|]. split; [|done]. intros _. destruct (proj1 Hr eq_refl) as (s & Hs & Hle). exists b, s. split; [by left|]. split; [by exists blk|done].
    - exists r'. split; [done|]. rw Hl'. split; intros (u & v & Hu & Hf & Hle); exists u, v; [split; [by right|done]|].
      apply elem_of_cons in Hu as [->|Hu]; [|done]. destruct Hf as (blk' & Hb' & Hs). rewrite Hb in Hb'. injection Hb' as <-.
      assert (false = true) by (apply Hr; by exists v). done. }
  destruct (Hgo (seq 0 n)) as (r & Hr & Hc); [intros b Hb%elem_of_seq; lia|]. exists r. split; [done|]. rw Hc. split; intros (u & v & H).
  - exists u, v. apply H.
  - exists u, v. split; [|done]. apply elem_of_seq. destruct H as [[blk [Hb _]] _]. apply lookup_lt_Some in Hb. rw /block_count. lia.
Qed.

Lemma path_increasing l b : (forall u v, flow u v -> u < v) -> flow_path l b -> forall a, a ∈ l -> a <= b.
Proof.
  intros Hinc. induction 1 as [|l u v Hp IH Hf]; intros a.
  - intros ->%list_elem_of_singleton. done.
  - intros [->|Ha]%elem_of_cons; [done|]. specialize (IH a Ha). specialize (Hinc u v Hf). lia.
Qed.

(** A graph whose edges all go forward has no loop. *)
Lemma forward_acyclic f : (forall u v, flow u v -> u < v) -> forest_exact f -> irreducible f = false /\ forest_loops f = [].
Proof using Hok Hentry Ht.
  intros Hinc [H1 _ _ H4 _ _]. assert (irreducible f = false) as Hf.
  { destruct (irreducible f) eqn:Hi; [|done]. exfalso. destruct (proj1 H1 eq_refl) as [c [[_ _ Hp (u & h & Hu & Hh & Huh)] _]].
    assert (forall k v, c !! k = Some v -> v <= u) as Hle.
    { induction k as [|k IH]; intros v Hv; [destruct c; [done|]; simpl in *; by simplify_eq|].
      destruct (lookup_lt_is_Some_2 c k) as [w Hw]; [apply lookup_lt_Some in Hv; lia|]. specialize (Hinc _ _ (Hp k v w Hw Hv)). specialize (IH w Hw). lia. }
    rewrite last_lookup in Hh. specialize (Hle _ _ Hh). specialize (Hinc _ _ Huh). lia. }
  split; [done|]. destruct (forest_loops f) as [|lp ls] eqn:Hl; [done|]. exfalso.
  destruct (proj1 (H4 Hf (header lp))) as (u & Hlive & Hfl & Hd); [by left|].
  apply (live_path cfg) in Hlive as [l Hp]. pose proof (path_increasing l u Hinc Hp _ (Hd l Hp)). specialize (Hinc _ _ Hfl). lia.
Qed.

(** ** Preheaders *)

(** The block every way into the loop from outside comes through, and which goes
    nowhere else. *)
Definition preheader_block (lp : NaturalLoop) (p : BlockId) : Prop :=
  p ∉ body lp /\ (exists blk args, blocks cfg !! p = Some blk /\ terminator blk = Goto (header lp) args) /\
  forall q, flow q (header lp) -> q ∉ body lp -> q = p.

Lemma preheader_exact lp : exists r, preheader cfg lp = Some r /\ forall p, r = Some p <-> preheader_block lp p.
Proof using Hok.
  clear t Ht Hentry.
  rw /preheader /classify_preheader predecessors_of_total //. cbn [mbind option_bind].
  set (row := block_id <$> _). set (out := filter _ row).
  assert (forall p, p ∈ row <-> flow p (header lp)) as Hrow.
  { intros p. rw /row list_elem_of_fmap. split.
    - intros (blk & -> & [Hs [i Hi]%list_elem_of_lookup]%list_elem_of_filter). exists blk. by rw (block_ids_dense cfg Hok _ _ Hi).
    - intros (blk & Hb & Hs). exists blk. split; [by rw (block_ids_dense cfg Hok _ _ Hb)|]. apply list_elem_of_filter. split; [done|by eapply list_elem_of_lookup_2]. }
  assert (forall p, p ∈ out <-> flow p (header lp) /\ p ∉ body lp) as Hout.
  { intros p. rw /out list_elem_of_filter Hrow /loop_contains. case_bool_decide; simpl; naive_solver. }
  assert (NoDup out) as Hnd.
  { apply NoDup_filter, NoDup_fmap_2_strong; [|apply NoDup_filter].
    - intros b1 b2 [_ [i Hi]%list_elem_of_lookup]%list_elem_of_filter [_ [j Hj]%list_elem_of_lookup]%list_elem_of_filter.
      rewrite (block_ids_dense cfg Hok _ _ Hi) (block_ids_dense cfg Hok _ _ Hj). intros ->. by simplify_eq.
    - apply NoDup_alt. intros i j b Hi Hj. by rewrite -(block_ids_dense cfg Hok _ _ Hi) (block_ids_dense cfg Hok _ _ Hj). }
  destruct out as [|p [|q out']] eqn:Ho.
  - exists None. split; [done|]. intros p. split; [done|]. intros (Hp & (blk & args & Hb & Ht') & _).
    assert (p ∈ []) as []%not_elem_of_nil. apply Hout. split; [|done]. exists blk. split; [done|]. rw /succs Ht' /=. by left.
  - assert (is_Some (blocks cfg !! p)) as [blk Hb] by (apply lookup_lt_is_Some; destruct (proj1 (Hout p)) as [[b [Hb _]] _]; [by left|by eapply lookup_lt_Some]).
    rw /goes_to /get_block Hb. cbn [mbind option_bind].
    set (g := match terminator blk with Goto _ _ => _ | _ => _ end). assert (g = true <-> exists args, terminator blk = Goto (header lp) args) as Hg.
    { rw /g. destruct (terminator blk); try (split; [done|by intros [? ?]]). rw Nat.eqb_eq. split; [intros ->; by eexists|by intros [? [= ? _]]]. }
    clearbody g. eexists. split; [done|]. simpl. intros r. split.
    + destruct g; [|done]. intros [= <-]. split; [by apply Hout; left|]. split; [|intros q Hq Hqb; apply list_elem_of_singleton; by apply Hout].
      destruct (proj1 Hg eq_refl) as [args Ht']. by exists blk, args.
    + intros (Hr & (blk' & args & Hb' & Ht') & Hq). assert (r = p) as -> by (symmetry; apply Hq; apply Hout; by left).
      rewrite Hb in Hb'. injection Hb' as <-. by rw (proj2 Hg); [|by eexists].
  - exists None. split; [done|]. intros r. split; [done|]. intros (_ & _ & Hq). apply NoDup_cons in Hnd as [Hpq _]. exfalso. apply Hpq.
    assert (p = r) as -> by (apply Hq; apply Hout; by left). assert (q = r) as -> by (apply Hq; apply Hout; right; by left). by left.
Qed.
End Run.


(** C40. On every well-formed graph [LoopForest::loops_with_stats], given the
    dominator tree of the graph, finishes without a panic.  It refuses the
    graph exactly when some cycle has no block that dominates all of it, and
    then lists no loop.  Otherwise it lists one loop for every target of a back
    edge and no other: its latches are the sources of those back edges; its
    body is the header and the blocks that reach a latch without passing the
    header, in order; its exits are the edges that leave the body; every
    reachable block of it is dominated by the header.  Two loops that share a
    reachable block are nested, and the parent of a loop is the innermost other
    loop that holds its header, or none when no other loop does.  [preheader]
    finds the block outside the body that alone leads to the header and goes
    nowhere else, when there is one.  The scan by block order never rules out a
    graph with a loop. *)
Theorem loop_forest_exact (cfg : Cfg) (Hok : cfg_ok cfg) (Hentry : entry cfg < block_count cfg) :
  exists t f s, compute cfg = Some t /\ loops_with_stats cfg t = Some (f, s) /\
    let ls := forest_loops f in
    (is_irreducible f = true <-> exists c, tangled cfg c) /\ (is_irreducible f = true -> ls = []) /\
    NoDup (header <$> ls) /\
    (is_irreducible f = false -> forall h, h ∈ header <$> ls <-> exists u, back_edge cfg u h) /\
    (forall lp, lp ∈ ls ->
      StronglySorted lt (latches lp) /\ StronglySorted lt (body lp) /\
      (forall u, u ∈ latches lp <-> back_edge cfg u (header lp)) /\
      (forall b, loop_contains lp b = true <-> natural_loop cfg (header lp) b) /\
      (forall u v, (u, v) ∈ exits lp <-> u ∈ body lp /\ flow cfg u v /\ v ∉ body lp) /\
      (forall b, b ∈ body lp -> live_block cfg b -> dominated_by cfg (header lp) b) /\
      exists r, preheader cfg lp = Some r /\ forall p, r = Some p <-> preheader_block cfg lp p) /\
    (exists r, may_have_cycle_by_block_order cfg = Some r /\ (r = false -> is_irreducible f = false /\ ls = [])) /\
    (forall l1 l2 b, l1 ∈ ls -> l2 ∈ ls -> b ∈ body l1 -> b ∈ body l2 -> live_block cfg b ->
      body l1 ⊆ body l2 \/ body l2 ⊆ body l1) /\
    forall i lp, ls !! i = Some lp -> (parent lp = None <-> forall o, ~ around cfg ls o i) /\
      forall o, parent lp = Some o -> around cfg ls o i /\ forall o', o' <> o -> around cfg ls o' i -> around cfg ls o' o.
Proof.
  destruct (compute_exact cfg Hok Hentry) as (t & Hc & Ht). destruct (forest_total cfg Hok Hentry t Ht) as (f & s & Hf & [H1 H2 H3 H4 H5 H6]).
  exists t, f, s. rewrite Forall_forall in H5. do 2 (split; [done|]). cbn zeta. do 4 (split; [done|]). split; [|split; [|split; [|done]]].
  - intros lp [_ [Hls Hl] [Hbs Hb] He]%H5. do 3 (split; [done|]). split_and!.
    + intros b. by rw /loop_contains bool_decide_eq_true Hb.
    + intros u v. by rw He !Hb.
    + intros b Hin Hlive. apply body_dominated; [done|by apply Hb].
    + by apply preheader_exact.
  - destruct (block_order_exact cfg Hok) as (r & Hr & Hor). exists r. split; [done|]. intros ->.
    apply (forward_acyclic cfg Hok Hentry t Ht); [|by split; rw ?Forall_forall]. intros u v Huv. destruct (decide (u < v)) as [|Hge]; [done|].
    assert (false = true) as []%diff_false_true. apply Hor. exists u, v. split; [done|lia].
  - intros l1 l2 b O1%H5 O2%H5 B1 B2 Hlive. destruct (lo_body _ _ O1) as [_ Hb1]. destruct (lo_body _ _ O2) as [_ Hb2].
    apply Hb1 in B1. apply Hb2 in B2. destruct (decide (header l1 = header l2)) as [Heq|Hne].
    { left. intros x. by rw Hb1 Hb2 Heq. }
    destruct (dominators_linear cfg Hok Hentry t Ht (header l1) (header l2) b) as [Hd|Hd]; [done|by apply body_dominated..|right|left]; intros x.
    + rw Hb1 Hb2. apply (loops_nested cfg Hentry (header l1) (header l2) b); [done..].
    + rw Hb1 Hb2. apply (loops_nested cfg Hentry (header l2) (header l1) b); [done..|congruence].
Qed.

(** *** Witness: a loop in a loop *)

Definition nest_edits : list edit :=
  [EdNewBlock; EdNewBlock; EdNewBlock; EdNewBlock; EdNewBlock;
   EdAppendInst 0 (mkInst (IBoolConst true) TBOOL (span_new 0 0));
   EdGoto 0 1 []; EdBranch 1 0 2 [] 4 []; EdBranch 2 0 3 [] 1 []; EdGoto 3 2 []; EdReturn 4 None].
Definition nest_cfg : Cfg :=
  default sample_empty (run_edits (H := unlimited) (H0 := word_types) nest_edits sample_empty).

Lemma nest_cfg_ok : cfg_ok nest_cfg.
Proof.
  apply (built_cfg_ok (H := unlimited) (H0 := unlimited_laws) (H1 := word_types)).
  apply (run_edits_built nest_edits sample_empty); [constructor| |by vm_compute].
  by repeat constructor.
Qed.

Definition loop_row (lp : NaturalLoop) := (header lp, latches lp, body lp, parent lp, exits lp).

Lemma loop_forest_exact_witness : exists t f s, compute nest_cfg = Some t /\ loops_with_stats nest_cfg t = Some (f, s) /\
  is_irreducible f = false /\ loop_row <$> forest_loops f = [(1, [2], [1; 2; 3], None, [(1, 4)]); (2, [3], [2; 3], Some 0, [(2, 1)])].
Proof.
  destruct (loop_forest_exact nest_cfg nest_cfg_ok ltac:(vm_compute; lia)) as (t & f & s & Ht & Hf & _). exists t, f, s.
  split; [exact Ht|]. split; [exact Hf|]. vm_compute in Ht. injection Ht as <-. vm_compute in Hf. injection Hf as <- _. split; reflexivity.
Defined.

(** A block that is never reached may belong to a body without its header
    dominating it. *)
Definition dead_edits : list edit :=
  [EdNewBlock; EdNewBlock; EdNewBlock; EdNewBlock; EdNewBlock;
   EdAppendInst 0 (mkInst (IBoolConst true) TBOOL (span_new 0 0));
   EdGoto 0 1 []; EdBranch 1 0 2 [] 4 []; EdGoto 2 1 []; EdGoto 3 2 []; EdReturn 4 None].
Definition dead_cfg : Cfg :=
  default sample_empty (run_edits (H := unlimited) (H0 := word_types) dead_edits sample_empty).

Lemma dead_member : (t ← compute dead_cfg; f ← loops dead_cfg t; d ← dominates t 1 3; Some (body <$> forest_loops f, d)) = Some ([[1; 2; 3]], false).
Proof. by vm_compute. Qed.
