(* ===== verification/Sched.v ===== *)
(** * Instruction scheduling

    [crates/rue-codegen/src/schedule_core.rs]: the scheduler both back ends
    share.  Within a block without barriers it builds a dependency graph from
    the facts a [SchedulerAdapter] gives about each instruction, computes
    critical-path priorities, lists the block in a topological order by
    priority, and permutes the instructions in place.  [None] is a failed
    index, a subtraction or addition out of range, or a loop that outlives its
    fuel. *)

From S2P Require Import Prelude.
Import Machine.

(** [reg_class.rs]. *)
Inductive RegClass := Gp | Fp.
#[export] Instance RegClass_eq_dec : EqDecision RegClass.
Proof. solve_decision. Defined.

(** A [[T; RegClass::COUNT]] indexed by [class.index()]. *)
Record PerClass (T : Type) := mkPerClass { gp : T; fp : T }.
Arguments mkPerClass {T} _ _.
Arguments gp {T} _.
Arguments fp {T} _.
Definition at_class {T} (p : PerClass T) (class : RegClass) : T := match class with Gp => gp p | Fp => fp p end.
Definition set_class {T} (class : RegClass) (t : T) (p : PerClass T) : PerClass T :=
  match class with Gp => mkPerClass t (fp p) | Fp => mkPerClass (gp p) t end.
Definition map_class {T U} (f : T -> U) (p : PerClass T) : PerClass U := mkPerClass (f (gp p)) (f (fp p)).

(** The facts a back end supplies. *)
Class SchedulerAdapter (Inst Reg : Type) := {
  reg_class : Reg -> RegClass;
  reg_index : Reg -> nat;
  latency_of : Inst -> Z;
  is_barrier : Inst -> bool;
  accesses_memory : Inst -> bool;
  regs_read : Inst -> list Reg;
  regs_written : Inst -> list Reg;
  clobbers : Inst -> list Reg;
  writes_flags : Inst -> bool;
  reads_flags : Inst -> bool;
}.

(** ** Register bookkeeping *)

Record RegTracker := mkTracker {
  writers : PerClass (list (option nat));
  readers : PerClass (list (list nat));
}.

Definition tracker_new : RegTracker := mkTracker (mkPerClass [] []) (mkPerClass [] []).

(** [clear] keeps the tables' lengths. *)
Definition clear (t : RegTracker) : RegTracker :=
  mkTracker (map_class (fmap (fun _ => None)) (writers t)) (map_class (fmap (fun _ => [])) (readers t)).

(** [if table.len() <= reg { table.resize(reg + 1, d) }]. *)
Definition grow {T} (d : T) (reg : nat) (table : list T) : list T :=
  if length table <=? reg then table ++ replicate (S reg - length table) d else table.

Definition ensure (class : RegClass) (reg : nat) (t : RegTracker) : RegTracker :=
  mkTracker (set_class class (grow None reg (at_class (writers t) class)) (writers t))
    (set_class class (grow [] reg (at_class (readers t) class)) (readers t)).

Definition last_writer (t : RegTracker) (class : RegClass) (reg : nat) : option nat :=
  mjoin (at_class (writers t) class !! reg).

Definition last_readers (t : RegTracker) (class : RegClass) (reg : nat) : option (list nat) :=
  match at_class (readers t) class !! reg with
  | Some [] => None
  | r => r
  end.

Definition record_write (class : RegClass) (reg idx : nat) (t : RegTracker) : option RegTracker :=
  let t := ensure class reg t in
  _ ← at_class (writers t) class !! reg;
  _ ← at_class (readers t) class !! reg;
  Some (mkTracker (set_class class (<[reg := Some idx]> (at_class (writers t) class)) (writers t))
    (set_class class (<[reg := []]> (at_class (readers t) class)) (readers t))).

Definition record_read (class : RegClass) (reg idx : nat) (t : RegTracker) : option RegTracker :=
  let t := ensure class reg t in
  rs ← at_class (readers t) class !! reg;
  Some (mkTracker (writers t) (set_class class (<[reg := rs ++ [idx]]> (at_class (readers t) class)) (readers t))).

(** ** The dependency graph *)

Record SchedNode := mkNode {
  deps : list nat;
  users : list nat;
  priority : Z;
  latency : Z;
}.
Definition node_new (l : Z) : SchedNode := mkNode [] [] 0 l.
Definition push_dep (from : nat) (n : SchedNode) := mkNode (deps n ++ [from]) (users n) (priority n) (latency n).
Definition push_user (to : nat) (n : SchedNode) := mkNode (deps n) (users n ++ [to]) (priority n) (latency n).
Definition with_priority (p : Z) (n : SchedNode) := mkNode (deps n) (users n) p (latency n).

(** [last_edge_target] holds [None] for [usize::MAX], which is no index. *)
Definition edges_state : Type := list SchedNode * list (option nat).

Definition add_edge (to : nat) (e : edges_state) (from : nat) : option edges_state :=
  let '(nodes, last_edge_target) := e in
  last ← last_edge_target !! from;
  if decide (last = Some to) then Some e else
  _ ← nodes !! to;
  let nodes := alter (push_dep from) to nodes in
  _ ← nodes !! from;
  Some (alter (push_user to) from nodes, <[from := Some to]> last_edge_target).

Record graph_state := mkGraph {
  g_edges : edges_state;
  g_regs : RegTracker;
  last_memory_access : option nat;
  last_flags_writer : option nat;
  last_flags_readers : list nat;
}.

Section Schedule.
Context {Inst Reg : Type} `{SchedulerAdapter Inst Reg}.

Definition writer_of (t : RegTracker) (reg : Reg) : option nat := last_writer t (reg_class reg) (reg_index reg).
(** [for &reader in readers { if reader != i { ... } }], no readers when the
    register has none. *)
Definition readers_but (i : nat) (t : RegTracker) (reg : Reg) : list nat :=
  filter (fun reader => reader <> i) (default [] (last_readers t (reg_class reg) (reg_index reg))).

(** The sources of the edges into instruction [i], in the order of the calls
    of [add_edge]: RAW, WAW, WAR, flags, memory, clobbers. *)
Definition edge_sources (g : graph_state) (i : nat) (inst : Inst) : list nat :=
  let t := g_regs g in
  let reads := regs_read inst in
  let writes := regs_written inst in
  omap (writer_of t) reads ++
  omap (writer_of t) writes ++
  concat (readers_but i t <$> writes) ++
  (if reads_flags inst then option_list (last_flags_writer g) else []) ++
  (if writes_flags inst then option_list (last_flags_writer g) else []) ++
  (if writes_flags inst then filter (fun reader => reader <> i) (last_flags_readers g) else []) ++
  (if accesses_memory inst then option_list (last_memory_access g) else []) ++
  concat ((fun reg => readers_but i t reg ++ option_list (writer_of t reg)) <$> clobbers inst).

Definition visit_inst (block : list Inst) (g : graph_state) (i : nat) : option graph_state :=
  inst ← block !! i;
  edges ← fold_opt (add_edge i) (g_edges g) (edge_sources g i inst);
  t ← fold_opt (fun t reg => record_write (reg_class reg) (reg_index reg) i t) (g_regs g) (clobbers inst);
  t ← fold_opt (fun t reg => record_write (reg_class reg) (reg_index reg) i t) t (regs_written inst);
  t ← fold_opt (fun t reg => record_read (reg_class reg) (reg_index reg) i t) t (regs_read inst);
  let flags_readers := if writes_flags inst then [] else last_flags_readers g in
  Some (mkGraph edges t
    (if accesses_memory inst then Some i else last_memory_access g)
    (if writes_flags inst then Some i else last_flags_writer g)
    (if reads_flags inst then flags_readers ++ [i] else flags_readers)).

(** [build_dep_graph_reusing] of the block [instructions[start..end]]; every
    retained node is reset and the edge table cleared, so only the register
    tables carry storage from block to block. *)
Definition build_dep_graph_reusing (block : list Inst) (regs : RegTracker) : option (list SchedNode * RegTracker) :=
  let n := length block in
  g ← fold_opt (visit_inst block)
    (mkGraph (node_new ∘ latency_of <$> block, replicate n None) (clear regs) None None []) (seq 0 n);
  Some ((g_edges g).1, g_regs g).

(** ** Priorities *)

Definition node_priority (nodes : list SchedNode) (idx : nat) : option (list SchedNode) :=
  node ← nodes !! idx;
  ps ← mapM (fun user => priority <$> nodes !! user) (users node);
  p ← checked_u 32 (latency node + foldr Z.max 0 ps)%Z;
  Some (<[idx := with_priority p node]> nodes).

Definition calculate_priorities (nodes : list SchedNode) : option (list SchedNode) :=
  fold_opt node_priority nodes (rev (seq 0 (length nodes))).

(** ** List scheduling *)

Record ReadyInst := mkReady { r_priority : Z; r_idx : nat }.

(** [Ord]: the higher priority first, then the lower index. *)
Definition ready_le (a b : ReadyInst) : bool :=
  (r_priority a <? r_priority b)%Z || ((r_priority a =? r_priority b)%Z && (r_idx b <=? r_idx a)).

(** [BinaryHeap::pop]: a greatest element. *)
Fixpoint heap_pop (h : list ReadyInst) : option (ReadyInst * list ReadyInst) :=
  match h with
  | [] => None
  | x :: h =>
      match heap_pop h with
      | Some (y, h') => if ready_le y x then Some (x, h) else Some (y, x :: h')
      | None => Some (x, [])
      end
  end.

Record sched_state := mkSched { scheduled : list nat; remaining_deps : list nat; ready : list ReadyInst }.

(** One [user] of the popped instruction. *)
Definition complete_edge (nodes : list SchedNode) (st : sched_state) (user : nat) : option sched_state :=
  r ← remaining_deps st !! user;
  match r with
  | O => None
  | S r =>
      let remaining := <[user := r]> (remaining_deps st) in
      if r =? 0 then
        node ← nodes !! user;
        Some (mkSched (scheduled st) remaining (mkReady (priority node) user :: ready st))
      else Some (mkSched (scheduled st) remaining (ready st))
  end.

Fixpoint schedule_loop (fuel : nat) (nodes : list SchedNode) (st : sched_state) : option (list nat) :=
  match fuel with
  | O => None
  | S fuel =>
      match heap_pop (ready st) with
      | None => Some (scheduled st)
      | Some (r, ready') =>
          node ← nodes !! r_idx r;
          st ← fold_opt (complete_edge nodes)
            (mkSched (scheduled st ++ [r_idx r]) (remaining_deps st) ready') (users node);
          schedule_loop fuel nodes st
      end
  end.

Definition schedule_block (nodes : list SchedNode) : option (list nat) :=
  let start := omap (fun '(idx, node) => if length (deps node) =? 0 then Some (mkReady (priority node) idx) else None)
    (imap pair nodes) in
  schedule_loop (S (length nodes)) nodes (mkSched [] (length ∘ deps <$> nodes) start).

(** ** Permuting in place *)

Definition swap {T} (i j : nat) (l : list T) : option (list T) :=
  x ← l !! i; y ← l !! j; Some (<[j := x]> (<[i := y]> l)).

(** [while destination[current] != current]. *)
Fixpoint settle {T} (fuel : nat) (current : nat) (st : list T * list nat) : option (list T * list nat) :=
  match fuel with
  | O => None
  | S fuel =>
      target ← st.2 !! current;
      if target =? current then Some st else
      items ← swap current target st.1;
      destination ← swap current target st.2;
      settle fuel current (items, destination)
  end.

Definition apply_permutation {T} (items : list T) (destination : list nat) : option (list T) :=
  let n := length destination in
  fst <$> fold_opt (fun st current => settle (S n) current st) (items, destination) (seq 0 n).

(** ** The driver *)

Definition record_block_permutation (instructions : list Inst) (start sched_end : nat)
    (st : list nat * RegTracker) : option (list nat * RegTracker) :=
  let '(destination, regs) := st in
  if sched_end <? start then None else
  if sched_end - start <=? 2 then Some st else
  '(nodes, regs) ← build_dep_graph_reusing (take (sched_end - start) (drop start instructions)) regs;
  nodes ← calculate_priorities nodes;
  order ← schedule_block nodes;
  destination ← fold_opt (fun destination '(new_offset, old_offset) =>
    _ ← destination !! (start + old_offset); Some (<[start + old_offset := start + new_offset]> destination))
    destination (imap pair order);
  Some (destination, regs).

Definition driver_state : Type := nat * (list nat * RegTracker).

Definition visit_end (instructions : list Inst) (st : driver_state) (block_end : nat) : option driver_state :=
  let '(block_start, st') := st in
  inst ← instructions !! block_end;
  if negb (is_barrier inst) then Some st else
  st' ← record_block_permutation instructions block_start block_end st';
  Some (S block_end, st').

Definition schedule_instructions (instructions : list Inst) : option (list Inst) :=
  let n := length instructions in
  if n <? 3 then Some instructions else
  '(block_start, st) ← fold_opt (visit_end instructions) (0, (seq 0 n, tracker_new)) (seq 0 n);
  '(destination, _) ← (if block_start <? n then record_block_permutation instructions block_start n st else Some st);
  apply_permutation instructions destination.
End Schedule.
