(* ===== verification/SchedGraph.v ===== *)
(** * Instruction scheduling: the dependency graph

    The graph [build_dep_graph_reusing] builds has an edge only from an earlier
    to a later instruction, every edge is in both tables once, and any two
    instructions that touch a location of which one writes it are connected by
    a path. *)

From S2P Require Import Prelude Sched.
From stdpp Require Import list relations.
Import Machine.

Lemma elem_of_concat_map {A B} (f : A -> list B) l x : x ∈ concat (f <$> l) <-> exists a, a ∈ l /\ x ∈ f a.
Proof.
  induction l as [|a l IH]; cbn; [set_solver|]. rw elem_of_app IH. setoid_rewrite elem_of_cons. naive_solver.
Qed.

(** ** What an instruction touches *)

Inductive Loc := LReg (class : RegClass) (reg : nat) | LFlags | LMem.
#[export] Instance Loc_eq_dec : EqDecision Loc.
Proof. solve_decision. Defined.

Section Touch.
Context {Inst Reg : Type} `{SchedulerAdapter Inst Reg}.

Definition loc_of (reg : Reg) : Loc := LReg (reg_class reg) (reg_index reg).
Definition reads_at (inst : Inst) : list Loc :=
  (loc_of <$> regs_read inst) ++ (if reads_flags inst then [LFlags] else []) ++
  (if accesses_memory inst then [LMem] else []).
Definition writes_at (inst : Inst) : list Loc :=
  (loc_of <$> (regs_written inst ++ clobbers inst)) ++ (if writes_flags inst then [LFlags] else []) ++
  (if accesses_memory inst then [LMem] else []).

(** Two instructions may not be exchanged. *)
Definition conflict (a b : Inst) : Prop :=
  exists l, l ∈ writes_at a /\ (l ∈ reads_at b \/ l ∈ writes_at b) \/ l ∈ reads_at a /\ l ∈ writes_at b.
End Touch.

(** ** Register tables *)

Definition readers_at (t : RegTracker) (class : RegClass) (reg : nat) : list nat := default [] (at_class (readers t) class !! reg).

Lemma readers_at_last t class reg : default [] (last_readers t class reg) = readers_at t class reg.
Proof. rw /last_readers /readers_at. by destruct (at_class (readers t) class !! reg) as [[|]|]. Qed.

Lemma at_set_class {T} class class' (x : T) p :
  at_class (set_class class x p) class' = if decide (class = class') then x else at_class p class'.
Proof. by destruct class, class'. Qed.

Lemma at_map_class {T U} (f : T -> U) p class : at_class (map_class f p) class = f (at_class p class).
Proof. by destruct class. Qed.

Lemma grow_lookup {T} (d : T) reg table i :
  reg < length (grow d reg table) /\ (grow d reg table !! i = table !! i \/ table !! i = None /\ grow d reg table !! i = Some d).
Proof.
  rw /grow. destruct (Nat.leb_spec (length table) reg) as [Hle|]; [|split; [done|by left]].
  rw length_app length_replicate. split; [lia|]. destruct (decide (i < length table)) as [Hi|Hi].
  - left. by rw lookup_app_l.
  - rw (lookup_app_r table _ i); [|lia]. destruct (replicate _ d !! (i - length table)) as [x|] eqn:Hx.
    + right. apply lookup_replicate in Hx as [-> _]. split; [|done]. apply lookup_ge_None. lia.
    + left. symmetry. apply lookup_ge_None. lia.
Qed.

(** Growing changes no answer. *)
Lemma ensure_answers class reg t class' reg' :
  last_writer (ensure class reg t) class' reg' = last_writer t class' reg' /\
  readers_at (ensure class reg t) class' reg' = readers_at t class' reg'.
Proof.
  rw /last_writer /readers_at /= !at_set_class. destruct (decide (class = class')) as [<-|]; [|done].
  destruct (grow_lookup None reg (at_class (writers t) class) reg') as [_ [->|[H1 ->]]];
    destruct (grow_lookup [] reg (at_class (readers t) class) reg') as [_ [->|[H2 ->]]]; by rw ?H1 ?H2.
Qed.

Lemma ensure_covers class reg t : is_Some (at_class (writers (ensure class reg t)) class !! reg) /\
  is_Some (at_class (readers (ensure class reg t)) class !! reg).
Proof.
  split; apply lookup_lt_is_Some_2; rw /= at_set_class decide_True //; apply grow_lookup, 0.
Qed.

Lemma record_write_spec class reg idx t : exists t', record_write class reg idx t = Some t' /\
  forall class' reg', last_writer t' class' reg' =
      (if decide (LReg class reg = LReg class' reg') then Some idx else last_writer t class' reg') /\
    readers_at t' class' reg' = (if decide (LReg class reg = LReg class' reg') then [] else readers_at t class' reg').
Proof.
  rw /record_write. destruct (ensure_covers class reg t) as [[x Hx] [y Hy]]. pose proof (ensure_answers class reg t) as Ha.
  destruct (ensure class reg t) as [ws rs]. simpl in Hx, Hy. rw Hx Hy /=. eexists. split; [done|]. intros class' reg'.
  destruct (Ha class' reg') as [<- <-]. rw /last_writer /readers_at /= !at_set_class.
  destruct (decide (class = class')) as [<-|Hc]; [|by destruct (decide (LReg class reg = LReg class' reg')); simplify_eq].
  destruct (decide (reg = reg')) as [<-|Hr].
  - destruct (decide (LReg class reg = LReg class reg)); [|done].
    by rw !list_lookup_insert_eq //; eapply lookup_lt_Some.
  - destruct (decide (LReg class reg = LReg class reg')); [simplify_eq|]. by rw !list_lookup_insert_ne.
Qed.

Lemma record_read_spec class reg idx t : exists t', record_read class reg idx t = Some t' /\
  forall class' reg', last_writer t' class' reg' = last_writer t class' reg' /\
    readers_at t' class' reg' = readers_at t class' reg' ++ (if decide (LReg class reg = LReg class' reg') then [idx] else []).
Proof.
  rw /record_read. destruct (ensure_covers class reg t) as [_ [y Hy]]. pose proof (ensure_answers class reg t) as Ha.
  destruct (ensure class reg t) as [ws rs]. simpl in Hy. rw Hy /=. eexists. split; [done|]. intros class' reg'.
  destruct (Ha class' reg') as [<- <-]. split; [done|]. rw /readers_at /= !at_set_class.
  destruct (decide (class = class')) as [<-|Hc]; [|destruct (decide (LReg class reg = LReg class' reg')); simplify_eq; by rw app_nil_r].
  destruct (decide (reg = reg')) as [<-|Hr].
  - destruct (decide (LReg class reg = LReg class reg)); [|done].
    rw list_lookup_insert_eq; [by rw Hy|by eapply lookup_lt_Some].
  - destruct (decide (LReg class reg = LReg class reg')); [simplify_eq|]. by rw list_lookup_insert_ne // app_nil_r.
Qed.

Lemma clear_answers t class reg : last_writer (clear t) class reg = None /\ readers_at (clear t) class reg = [].
Proof.
  rw /last_writer /readers_at /= !at_map_class !list_lookup_fmap. split; by destruct (at_class _ class !! reg).
Qed.

Section Tracking.
Context {Inst Reg : Type} `{SchedulerAdapter Inst Reg}.

Lemma record_writes rs idx t : exists t',
  fold_opt (fun t reg => record_write (reg_class reg) (reg_index reg) idx t) t rs = Some t' /\
  forall class reg, last_writer t' class reg = (if decide (LReg class reg ∈ loc_of <$> rs) then Some idx else last_writer t class reg) /\
    readers_at t' class reg = (if decide (LReg class reg ∈ loc_of <$> rs) then [] else readers_at t class reg).
Proof.
  revert t. induction rs as [|r rs IH]; intros t.
  - exists t. split; [done|]. intros class reg. by destruct (decide _) as [?%not_elem_of_nil|].
  - cbn [fold_opt]. destruct (record_write_spec (reg_class r) (reg_index r) idx t) as (t1 & -> & H1). cbn [mbind option_bind].
    destruct (IH t1) as (t2 & -> & H2). exists t2. split; [done|]. intros class reg.
    destruct (H1 class reg) as [H1w H1r], (H2 class reg) as [-> ->]. rw H1w H1r fmap_cons.
    change (LReg (reg_class r) (reg_index r)) with (loc_of r).
    assert (LReg class reg ∈ loc_of r :: (loc_of <$> rs) <-> loc_of r = LReg class reg \/ LReg class reg ∈ loc_of <$> rs) as Hiff
      by (rw elem_of_cons; split; (intros [->|?]; [by left|by right])).
    split; repeat case_decide; try done; exfalso; tauto.
Qed.

Lemma record_reads rs idx t : exists t',
  fold_opt (fun t reg => record_read (reg_class reg) (reg_index reg) idx t) t rs = Some t' /\
  forall class reg, last_writer t' class reg = last_writer t class reg /\
    forall r, r ∈ readers_at t' class reg <-> r ∈ readers_at t class reg \/ r = idx /\ LReg class reg ∈ loc_of <$> rs.
Proof.
  revert t. induction rs as [|r rs IH]; intros t.
  - exists t. split; [done|]. intros class reg. split; [done|]. intros x. set_solver.
  - cbn [fold_opt]. destruct (record_read_spec (reg_class r) (reg_index r) idx t) as (t1 & -> & H1). cbn [mbind option_bind].
    destruct (IH t1) as (t2 & -> & H2). exists t2. split; [done|]. intros class reg.
    destruct (H1 class reg) as [H1w H1r], (H2 class reg) as [-> H2r]. split; [done|]. intros x. rw H2r H1r fmap_cons.
    change (LReg (reg_class r) (reg_index r)) with (loc_of r). destruct (decide (loc_of r = LReg class reg)) as [He|He]; set_solver.
Qed.
End Tracking.

(** ** Adding edges *)

Definition dep (nodes : list SchedNode) (a b : nat) : Prop := exists node, nodes !! b = Some node /\ a ∈ deps node.

(** The graph of the instructions before [k], with the edges from [S] into
    [k]. *)
Record graph_inv (n k : nat) (S : list nat) (e : edges_state) : Prop := {
  gi_len : length e.1 = n;
  gi_tlen : length e.2 = n;
  gi_nodup : forall b node, e.1 !! b = Some node -> NoDup (deps node) /\ NoDup (users node);
  gi_users : forall a node b, e.1 !! a = Some node -> b ∈ users node <-> dep e.1 a b;
  gi_below : forall a b, dep e.1 a b -> a < b <= k;
  gi_filled : forall a, dep e.1 a k <-> a ∈ S;
  gi_target : forall a t, e.2 !! a = Some (Some t) -> t < k \/ t = k /\ a ∈ S;
  gi_target_in : forall a, a ∈ S -> e.2 !! a = Some (Some k);
}.

Lemma graph_inv_next n k S e : graph_inv n k S e -> graph_inv n (Datatypes.S k) [] e.
Proof.
  intros [H1 H2 H3 H4 H5 H6 H7 H8]. split; try done.
  - intros a b Hd. specialize (H5 a b Hd). lia.
  - intros a. split; [|by intros ?%not_elem_of_nil]. intros Hd%H5. lia.
  - intros a t [?|[-> _]]%H7; left; lia.
  - by intros a ?%not_elem_of_nil.
Qed.

(** One new edge, in both nodes. *)
Lemma push_edge_lookup (nodes : list SchedNode) from to b : from <> to ->
  alter (push_user to) from (alter (push_dep from) to nodes) !! b =
    (fun node => if decide (b = to) then push_dep from node else if decide (b = from) then push_user to node else node) <$> nodes !! b.
Proof.
  intros Hne. destruct (decide (b = to)) as [->|Ht].
  - by rw list_lookup_alter_ne // list_lookup_alter_eq.
  - destruct (decide (b = from)) as [->|Hf].
    + by rw list_lookup_alter_eq list_lookup_alter_ne.
    + rw !list_lookup_alter_ne //. by destruct (nodes !! b).
Qed.

Lemma push_edge_dep nodes from to a b : from <> to -> to < length nodes ->
  dep (alter (push_user to) from (alter (push_dep from) to nodes)) a b <-> dep nodes a b \/ a = from /\ b = to.
Proof.
  intros Hne [nt Hto]%lookup_lt_is_Some_2. split.
  - intros (node & Hb & Ha). rw push_edge_lookup // in Hb *. destruct (nodes !! b) as [nb|] eqn:Hnb; [|done]. injection Hb as <-.
    destruct (decide (b = to)) as [->|Ht].
    + apply elem_of_app in Ha as [Ha|Ha%list_elem_of_singleton]; [left; by exists nb|by right].
    + left. exists nb. split; [done|]. by destruct (decide (b = from)).
  - intros [(nb & Hb & Ha)|[-> ->]].
    + eexists. rw push_edge_lookup // Hb. split; [done|]. destruct (decide (b = to)); [apply elem_of_app; by left|]. by destruct (decide (b = from)).
    + eexists. rw push_edge_lookup // Hto /=. split; [done|]. destruct (decide (to = to)); [|done]. apply elem_of_app. right. by left.
Qed.

Lemma add_edge_spec n k S e from : graph_inv n k S e -> from < k -> k < n ->
  exists e', add_edge k e from = Some e' /\ graph_inv n k (from :: S) e' /\
    latency <$> e'.1 = latency <$> e.1 /\ forall a b, dep e.1 a b -> dep e'.1 a b.
Proof.
  intros Hg Hf Hk. destruct e as [nodes targets]. pose proof Hg as [H1 H2 H3 H4 H5 H6 H7 H8]. simpl in *.
  destruct (lookup_lt_is_Some_2 targets from ltac:(lia)) as [last Hl]. rw /add_edge Hl /=.
  destruct (decide (last = Some k)) as [->|Hlast].
  - exists (nodes, targets). split; [done|]. split; [|by split].
    destruct (H7 from k Hl) as [?|[_ Hin]]; [lia|]. split; simpl; try done.
    + intros a. rw H6 elem_of_cons. split; [by right|]. by intros [->|?].
    + intros a t [?|[? ?]]%H7; [by left|right]. split; [done|by right].
    + intros a [->|?]%elem_of_cons; [done|by apply H8].
  - assert (from ∉ S) as Hnin by (intros Hin; specialize (H8 from Hin); congruence).
    destruct (lookup_lt_is_Some_2 nodes k ltac:(lia)) as [nk Hnk]. rw Hnk /= list_lookup_alter_ne; [|lia].
    destruct (lookup_lt_is_Some_2 nodes from ltac:(lia)) as [nf Hnf]. rw Hnf /=.
    set (nodes' := alter _ _ (alter _ _ nodes)). exists (nodes', <[from:=Some k]> targets). split; [done|].
    assert (from <> k) as Hne by lia. assert (k < length nodes) as Hkl by lia.
    assert (forall a b, dep nodes' a b <-> dep nodes a b \/ a = from /\ b = k) as Hdep by (intros a b; by apply push_edge_dep).
    assert (forall b, nodes' !! b = (fun node => if decide (b = k) then push_dep from node else if decide (b = from) then push_user k node else node) <$> nodes !! b)
      as Hlk by (intros b; by apply push_edge_lookup).
    assert (~ dep nodes from k) as Hnew by by rw H6. clearbody nodes'.
    assert (latency <$> nodes' = latency <$> nodes) as Hlat.
    { apply list_eq. intros b. rw !list_lookup_fmap Hlk. destruct (nodes !! b); [|done]. simpl. f_equal.
      by destruct (decide (b = k)), (decide (b = from)). }
    split; [|split; [exact Hlat|intros a b Hd; apply Hdep; by left]].
    split; simpl.
    + rewrite -(length_fmap latency) Hlat length_fmap. done.
    + by rw length_insert.
    + intros b node. rw Hlk. destruct (nodes !! b) as [nb|] eqn:Hb; [|done]. intros [= <-]. destruct (H3 b nb Hb) as [Hd Hu].
      destruct (decide (b = k)) as [->|Hbk].
      * split; [|done]. simpl. apply NoDup_app. split; [done|]. split; [|apply NoDup_singleton].
        intros x Hx ->%list_elem_of_singleton. apply Hnew. by exists nb.
      * destruct (decide (b = from)) as [->|]; [|done]. split; [done|]. simpl. apply NoDup_app. split; [done|]. split; [|apply NoDup_singleton].
        intros x Hx ->%list_elem_of_singleton. apply Hnew. by apply (H4 from nb).
    + intros a node b. rw Hlk Hdep. destruct (nodes !! a) as [na|] eqn:Ha; [|done]. intros [= <-]. rewrite -(H4 a na b Ha).
      destruct (decide (a = k)) as [->|Hak]; [|destruct (decide (a = from)) as [->|Haf]].
      * simpl. split; [by left|]. by intros [?|[-> _]].
      * simpl. rw elem_of_app list_elem_of_singleton. naive_solver.
      * naive_solver.
    + intros a b [Hd|[-> ->]]%Hdep; [by apply H5|lia].
    + intros a. rw Hdep H6 elem_of_cons. naive_solver.
    + intros a t. destruct (decide (a = from)) as [->|Ha].
      * rw list_lookup_insert_eq; [|lia]. intros [= <-]. right. split; [done|by left].
      * rw list_lookup_insert_ne //. intros [?|[? ?]]%H7; [by left|right]. split; [done|by right].
    + intros a [->|Ha]%elem_of_cons; [rw list_lookup_insert_eq //; lia|]. rw list_lookup_insert_ne; [by apply H8|]. by intros ->.
Qed.

Lemma add_edges_spec n k l : forall S e, graph_inv n k S e -> Forall (fun a => a < k) l -> k < n ->
  exists e' S', fold_opt (add_edge k) e l = Some e' /\ graph_inv n k S' e' /\ (forall a, a ∈ S' <-> a ∈ l \/ a ∈ S) /\
    latency <$> e'.1 = latency <$> e.1 /\ forall a b, dep e.1 a b -> dep e'.1 a b.
Proof.
  induction l as [|a l IH]; intros S e Hg Hl Hk.
  - exists e, S. split_and!; try done. intros a. set_solver.
  - apply Forall_cons in Hl as [Ha Hl]. cbn [fold_opt]. destruct (add_edge_spec n k S e a Hg Ha Hk) as (e1 & -> & Hg1 & Hl1 & Hd1).
    cbn [mbind option_bind]. destruct (IH _ e1 Hg1 Hl Hk) as (e2 & S' & -> & Hg2 & HS & Hl2 & Hd2). exists e2, S'.
    split_and!; [done|done| |congruence|]. { intros x. rw HS. set_solver. } { intros x b Hd. by apply Hd2, Hd1. }
Qed.

(** ** Tracking the last accesses *)

Section Build.
Context {Inst Reg : Type} `{SchedulerAdapter Inst Reg} (block : list Inst).
Notation n := (length block).

Definition reads (i : nat) (l : Loc) : Prop := exists inst, block !! i = Some inst /\ l ∈ reads_at inst.
Definition writes (i : nat) (l : Loc) : Prop := exists inst, block !! i = Some inst /\ l ∈ writes_at inst.

(** [w] is the last writer of [l] before [k], and [rs] holds the readers
    since. *)
Record tracks (k : nat) (l : Loc) (w : option nat) (rs : list nat) : Prop := {
  tr_writer : forall x, w = Some x -> x < k /\ writes x l;
  tr_last : forall y, y < k -> writes y l -> exists x, w = Some x /\ y <= x;
  tr_readers : forall r, r < k -> reads r l -> (forall y, r < y < k -> ~ writes y l) -> r ∈ rs;
  tr_below : forall r, r ∈ rs -> r < k;
}.

(** What the state of the visit remembers of a location. *)
Definition seen_writer (g : graph_state) (l : Loc) : option nat :=
  match l with
  | LReg class reg => last_writer (g_regs g) class reg
  | LFlags => last_flags_writer g
  | LMem => last_memory_access g
  end.
Definition seen_readers (g : graph_state) (l : Loc) : list nat :=
  match l with
  | LReg class reg => readers_at (g_regs g) class reg
  | LFlags => last_flags_readers g
  | LMem => option_list (last_memory_access g)
  end.

Record visit_inv (k : nat) (g : graph_state) : Prop := {
  vi_graph : graph_inv n k [] (g_edges g);
  vi_latency : latency <$> (g_edges g).1 = latency_of <$> block;
  vi_tracks : forall l, tracks k l (seen_writer g l) (seen_readers g l);
  vi_path : forall a b l, a < b < k -> writes a l /\ (reads b l \/ writes b l) \/ reads a l /\ writes b l ->
    tc (dep (g_edges g).1) a b;
}.

Lemma seen_regs i g rs : omap (writer_of (g_regs g)) rs = omap (seen_writer g) (loc_of <$> rs) /\
  concat (readers_but i (g_regs g) <$> rs) = concat ((fun l => filter (fun r => r <> i) (seen_readers g l)) <$> (loc_of <$> rs)).
Proof.
  induction rs as [|r rs [IH1 IH2]]; [done|]. split.
  - simpl. unfold omap, fmap in IH1. rewrite IH1. done.
  - simpl. by rewrite IH2 /readers_but readers_at_last.
Qed.

(** Every recorded access of a location the instruction touches is a source. *)
Lemma sources_writer g i inst l x : l ∈ reads_at inst \/ l ∈ writes_at inst -> seen_writer g l = Some x ->
  x ∈ edge_sources g i inst.
Proof.
  intros Hl Hx. rw /edge_sources. destruct (seen_regs i g (regs_read inst)) as [-> _].
  destruct (seen_regs i g (regs_written inst)) as [-> _]. rw !elem_of_app.
  assert (forall ls, l ∈ ls -> x ∈ omap (seen_writer g) ls) as Ho by (intros ls Hin; apply list_elem_of_omap; by exists l).
  destruct Hl as [Hl|Hl]; apply elem_of_app in Hl as [Hl|[Hl|Hl]%elem_of_app].
  - left. by apply Ho.
  - destruct (reads_flags inst); [|by apply not_elem_of_nil in Hl]. apply list_elem_of_singleton in Hl as ->.
    right; right; right; left. simpl in Hx. rw Hx. by left.
  - destruct (accesses_memory inst); [|by apply not_elem_of_nil in Hl]. apply list_elem_of_singleton in Hl as ->.
    right; right; right; right; right; right; left. simpl in Hx. rw Hx. by left.
  - rw fmap_app elem_of_app in Hl *. destruct Hl as [Hl|(reg & -> & Hr)%list_elem_of_fmap]; [right; left; by apply Ho|].
    do 7 right. apply elem_of_concat_map. exists reg. split; [done|].
    apply elem_of_app. right. simpl in Hx. rw /writer_of Hx. by left.
  - destruct (writes_flags inst); [|by apply not_elem_of_nil in Hl]. apply list_elem_of_singleton in Hl as ->.
    right; right; right; right; left. simpl in Hx. rw Hx. by left.
  - destruct (accesses_memory inst); [|by apply not_elem_of_nil in Hl]. apply list_elem_of_singleton in Hl as ->.
    right; right; right; right; right; right; left. simpl in Hx. rw Hx. by left.
Qed.

Lemma sources_reader g i inst l r : l ∈ writes_at inst -> r ∈ seen_readers g l -> r <> i -> r ∈ edge_sources g i inst.
Proof.
  intros Hl Hr Hne. rw /edge_sources. destruct (seen_regs i g (regs_written inst)) as [_ ->]. rw !elem_of_app.
  rw /writes_at fmap_app !elem_of_app in Hl *. destruct Hl as [[Hl|(reg & -> & Hreg)%list_elem_of_fmap]|[Hl|Hl]].
  - right; right; left. apply elem_of_concat_map. exists l. split; [done|]. by apply list_elem_of_filter.
  - do 7 right. apply elem_of_concat_map. exists reg. split; [done|].
    apply elem_of_app. left. rw /readers_but readers_at_last. by apply list_elem_of_filter.
  - destruct (writes_flags inst); [|by apply not_elem_of_nil in Hl]. apply list_elem_of_singleton in Hl as ->.
    do 5 right. left. by apply list_elem_of_filter.
  - destruct (accesses_memory inst); [|by apply not_elem_of_nil in Hl]. apply list_elem_of_singleton in Hl as ->.
    do 6 right. left. done.
Qed.

(** Sources are earlier instructions. *)
Lemma sources_below k g inst : (forall l, tracks k l (seen_writer g l) (seen_readers g l)) ->
  Forall (fun x => x < k) (edge_sources g k inst).
Proof.
  intros Ht. assert (forall l x, seen_writer g l = Some x -> x < k) as Hw by (intros l x Hx; by apply (tr_writer _ _ _ _ (Ht l))).
  assert (forall l r, r ∈ seen_readers g l -> r < k) as Hr by (intros l; apply (tr_below _ _ _ _ (Ht l))).
  assert (forall (regs : list Reg) x, x ∈ omap (writer_of (g_regs g)) regs -> x < k) as Hws.
  { intros regs x (reg & _ & Hx)%list_elem_of_omap. by apply (Hw (loc_of reg)). }
  assert (forall reg x, x ∈ readers_but k (g_regs g) reg -> x < k) as Hrs.
  { intros reg x [_ Hx]%list_elem_of_filter. rw readers_at_last in Hx *. by apply (Hr (loc_of reg)). }
  assert (forall (b : bool) (o : option nat), (forall x, o = Some x -> x < k) -> forall x, x ∈ (if b then option_list o else []) -> x < k) as Hopt.
  { intros [] [o|] Ho x; simpl; [intros ->%list_elem_of_singleton; by apply Ho|by intros ?%not_elem_of_nil..]. }
  apply Forall_forall. intros x. rw /edge_sources !elem_of_app.
  intros [Hx|[Hx|[Hx|[Hx|[Hx|[Hx|[Hx|Hx]]]]]]].
  - by eapply Hws.
  - by eapply Hws.
  - apply elem_of_concat_map in Hx as (reg & _ & Hx). by eapply Hrs.
  - apply (Hopt _ _ (Hw LFlags) _ Hx).
  - apply (Hopt _ _ (Hw LFlags) _ Hx).
  - destruct (writes_flags inst); [|by apply not_elem_of_nil in Hx]. apply list_elem_of_filter in Hx as [_ Hx]. by apply (Hr LFlags).
  - apply (Hopt _ _ (Hw LMem) _ Hx).
  - apply elem_of_concat_map in Hx as (reg & _ & Hx). apply elem_of_app in Hx as [Hx|Hx]; [by eapply Hrs|].
    destruct (writer_of (g_regs g) reg) as [w|] eqn:Hwr; [|by apply not_elem_of_nil in Hx]. apply list_elem_of_singleton in Hx as ->.
    by apply (Hw (loc_of reg)).
Qed.
(** ** One visit *)

Lemma writes_at_k k inst l : block !! k = Some inst -> writes k l <-> l ∈ writes_at inst.
Proof. intros Hk. split; [intros (inst' & Hk' & Hl); congruence|by exists inst]. Qed.
Lemma reads_at_k k inst l : block !! k = Some inst -> reads k l <-> l ∈ reads_at inst.
Proof. intros Hk. split; [intros (inst' & Hk' & Hl); congruence|by exists inst]. Qed.

Lemma tracks_step k inst l w rs w' rs' : tracks k l w rs -> block !! k = Some inst ->
  w' = (if decide (l ∈ writes_at inst) then Some k else w) ->
  (forall r, r ∈ rs' <-> (l ∉ writes_at inst /\ r ∈ rs) \/ (r = k /\ l ∈ reads_at inst)) ->
  tracks (S k) l w' rs'.
Proof.
  intros [H1 H2 H3 H4] Hk -> Hrs. pose proof (writes_at_k k inst l Hk) as Hw. pose proof (reads_at_k k inst l Hk) as Hr.
  destruct (decide (l ∈ writes_at inst)) as [Hin|Hout]; split.
  - intros x [= <-]. split; [lia|by apply Hw].
  - intros y Hy Hyw. exists k. split; [done|lia].
  - intros r Hrk Hrr Hno. apply Hrs. right. destruct (decide (r = k)) as [->|Hne]; [split; [done|by apply Hr]|].
    exfalso. apply (Hno k); [lia|by apply Hw].
  - intros r [[? _]|[-> _]]%Hrs; [done|lia].
  - intros x Hx. destruct (H1 x Hx). split; [lia|done].
  - intros y Hy Hyw. apply H2; [|done]. destruct (decide (y = k)) as [->|]; [by apply Hw in Hyw|lia].
  - intros r Hrk Hrr Hno. apply Hrs. destruct (decide (r = k)) as [->|Hne]; [right; split; [done|by apply Hr]|left].
    split; [done|]. apply H3; [lia|done|]. intros y Hy. apply Hno. lia.
  - intros r [[_ Hx]|[-> _]]%Hrs; [|lia]. specialize (H4 r Hx). lia.
Qed.

Lemma tables_step k g inst : exists t,
  (t ← fold_opt (fun t reg => record_write (reg_class reg) (reg_index reg) k t) (g_regs g) (clobbers inst);
   t ← fold_opt (fun t reg => record_write (reg_class reg) (reg_index reg) k t) t (regs_written inst);
   fold_opt (fun t reg => record_read (reg_class reg) (reg_index reg) k t) t (regs_read inst)) = Some t /\
  forall class reg, let l := LReg class reg in
    last_writer t class reg = (if decide (l ∈ writes_at inst) then Some k else last_writer (g_regs g) class reg) /\
    forall r, r ∈ readers_at t class reg <->
      (l ∉ writes_at inst /\ r ∈ readers_at (g_regs g) class reg) \/ (r = k /\ l ∈ reads_at inst).
Proof.
  destruct (record_writes (clobbers inst) k (g_regs g)) as (t1 & -> & H1). cbn [mbind option_bind].
  destruct (record_writes (regs_written inst) k t1) as (t2 & -> & H2). cbn [mbind option_bind].
  destruct (record_reads (regs_read inst) k t2) as (t3 & -> & H3). exists t3. split; [done|]. intros class reg. set (l := LReg class reg).
  destruct (H1 class reg) as [H1w H1r], (H2 class reg) as [H2w H2r], (H3 class reg) as [-> H3r].
  assert (l ∈ writes_at inst <-> l ∈ loc_of <$> regs_written inst \/ l ∈ loc_of <$> clobbers inst) as Hw.
  { rw /writes_at fmap_app !elem_of_app. split; [|tauto]. intros [?|[Hl|Hl]]; [done|exfalso..].
    - destruct (writes_flags inst); set_solver.
    - destruct (accesses_memory inst); set_solver. }
  assert (l ∈ reads_at inst <-> l ∈ loc_of <$> regs_read inst) as Hr.
  { rw /reads_at !elem_of_app. split; [|tauto]. intros [?|[Hl|Hl]]; [done|exfalso..].
    - destruct (reads_flags inst); set_solver.
    - destruct (accesses_memory inst); set_solver. }
  subst l. split.
  - rw H2w H1w. repeat case_decide; try done; exfalso; tauto.
  - intros r. rw H3r H2r H1r Hr. assert (r ∉ @nil nat) by apply not_elem_of_nil. repeat case_decide; tauto.
Qed.

Lemma option_list_Some_elem (o : option nat) x : x ∈ option_list o <-> o = Some x.
Proof. destruct o as [y|]; simpl; [rw list_elem_of_singleton; split; congruence|]. split; [by intros ?%not_elem_of_nil|done]. Qed.

(** The new state sees exactly the new accesses. *)
Lemma seen_step k g inst edges t :
  (forall class reg, let l := LReg class reg in
    last_writer t class reg = (if decide (l ∈ writes_at inst) then Some k else last_writer (g_regs g) class reg) /\
    forall r, r ∈ readers_at t class reg <->
      (l ∉ writes_at inst /\ r ∈ readers_at (g_regs g) class reg) \/ (r = k /\ l ∈ reads_at inst)) ->
  let flags_readers := if writes_flags inst then [] else last_flags_readers g in
  let g' := mkGraph edges t (if accesses_memory inst then Some k else last_memory_access g)
    (if writes_flags inst then Some k else last_flags_writer g)
    (if reads_flags inst then flags_readers ++ [k] else flags_readers) in
  forall l, seen_writer g' l = (if decide (l ∈ writes_at inst) then Some k else seen_writer g l) /\
    forall r, r ∈ seen_readers g' l <-> (l ∉ writes_at inst /\ r ∈ seen_readers g l) \/ (r = k /\ l ∈ reads_at inst).
Proof.
  intros Ht fr g' l. destruct l as [class reg| |]; [by apply Ht| |].
  - assert (LFlags ∈ writes_at inst <-> writes_flags inst = true) as Hw.
    { rw /writes_at !elem_of_app. destruct (writes_flags inst), (accesses_memory inst); set_solver. }
    assert (LFlags ∈ reads_at inst <-> reads_flags inst = true) as Hr.
    { rw /reads_at !elem_of_app. destruct (reads_flags inst), (accesses_memory inst); set_solver. }
    split; [simpl|intros r; rw Hr Hw; simpl; rw /fr].
    + case_decide as Hd; rw Hw in Hd *; by destruct (writes_flags inst).
    + destruct (writes_flags inst), (reads_flags inst); set_solver.
  - assert (LMem ∈ writes_at inst <-> accesses_memory inst = true) as Hw.
    { rw /writes_at !elem_of_app. destruct (writes_flags inst), (accesses_memory inst); set_solver. }
    assert (LMem ∈ reads_at inst <-> accesses_memory inst = true) as Hr.
    { rw /reads_at !elem_of_app. destruct (reads_flags inst), (accesses_memory inst); set_solver. }
    split; [simpl|intros r; rw Hr Hw; simpl; rw !option_list_Some_elem].
    + case_decide as Hd; rw Hw in Hd *; by destruct (accesses_memory inst).
    + destruct (accesses_memory inst); naive_solver.
Qed.

Lemma visit_inst_ok k g : visit_inv k g -> k < n -> exists g', visit_inst block g k = Some g' /\ visit_inv (S k) g'.
Proof.
  intros [Hg Hlat Ht Hp] Hk. destruct (lookup_lt_is_Some_2 block k Hk) as [inst Hi]. rw /visit_inst Hi. cbn [mbind option_bind].
  destruct (add_edges_spec n k (edge_sources g k inst) [] (g_edges g) Hg) as (e' & S' & -> & Hg' & HS & Hlat' & Hmono);
    [by apply sources_below|done|]. cbn [mbind option_bind].
  destruct (tables_step k g inst) as (t & Htab & Hseen). revert Htab.
  destruct (fold_opt _ (g_regs g) _) as [t1|]; [|done]. cbn [mbind option_bind]. destruct (fold_opt _ t1 _) as [t2|]; [|done]. cbn [mbind option_bind].
  intros ->. cbn [mbind option_bind]. eexists. split; [reflexivity|]. pose proof (seen_step k g inst e' t Hseen) as Hstep. cbv zeta in Hstep.
  set (g' := mkGraph _ _ _ _ _) in Hstep |- *. split.
  - by apply (graph_inv_next n k S').
  - by rw Hlat'.
  - intros l. destruct (Hstep l) as [Hsw Hsr]. by apply (tracks_step k inst l (seen_writer g l) (seen_readers g l)).
  - intros a b l Hab Hc. change (g_edges g') with e'.
    assert (forall x y, tc (dep (g_edges g).1) x y -> tc (dep e'.1) x y) as Hm.
    { intros x y Hxy. eapply (tc_congruence id); [|exact Hxy]. exact Hmono. }
    destruct (decide (b = k)) as [->|Hne]; [|apply Hm, (Hp a b l); [lia|done]].
    pose proof (writes_at_k k inst l Hi) as Hw. pose proof (reads_at_k k inst l Hi) as Hr. pose proof (Ht l) as [T1 T2 T3 T4].
    assert (forall x, x ∈ edge_sources g k inst -> tc (dep e'.1) x k) as Hedge.
    { intros x Hx. apply tc_once. apply (gi_filled _ _ _ _ Hg'), HS. by left. }
    assert (forall x, a <= x -> x < k -> writes x l -> writes a l \/ reads a l -> x ∈ edge_sources g k inst -> tc (dep e'.1) a k) as Hvia.
    { intros x Hle Hlt Hxw Ha Hx. destruct (decide (a = x)) as [->|]; [by apply Hedge|].
      eapply tc_transitive; [apply Hm, (Hp a x l); [lia|tauto]|by apply Hedge]. }
    destruct Hc as [[Haw Hb]|[Har Hbw]].
    + destruct (T2 a ltac:(lia) Haw) as (x & Hx & Hle). destruct (T1 x Hx) as [Hlt Hxw]. apply (Hvia x); [done..|by left|].
      apply (sources_writer g k inst l x); [|done]. rewrite -Hw -Hr. tauto.
    + assert ((exists x, seen_writer g l = Some x /\ a <= x) \/ forall x, seen_writer g l = Some x -> x < a) as [(x & Hx & Hle)|Hno].
      { destruct (seen_writer g l) as [x|]; [|by right]. destruct (decide (a <= x)); [left; by exists x|right]. intros y [= <-]. lia. }
      * destruct (T1 x Hx) as [Hlt Hxw]. apply (Hvia x); [done..|by right|].
        apply (sources_writer g k inst l x); [|done]. right. by apply Hw.
      * apply Hedge, (sources_reader g k inst l a); [by apply Hw|apply T3; [lia|done|]|lia]. intros y Hy Hyw.
        destruct (T2 y ltac:(lia) Hyw) as (x & Hx & Hle). specialize (Hno x Hx). lia.
Qed.
End Build.

(** ** The whole graph *)

(** A graph whose edges go forward and are in both tables. *)
Record dag (nodes : list SchedNode) : Prop := {
  dag_nodup : forall b node, nodes !! b = Some node -> NoDup (deps node) /\ NoDup (users node);
  dag_users : forall a node b, nodes !! a = Some node -> b ∈ users node <-> dep nodes a b;
  dag_forward : forall a b, dep nodes a b -> a < b;
}.

Lemma dep_lt nodes a b : dag nodes -> dep nodes a b -> a < b < length nodes.
Proof. intros Hd Hab. split; [by apply (dag_forward _ Hd)|]. destruct Hab as (node & Hb & _). by eapply lookup_lt_Some. Qed.

Lemma build_ok `{SchedulerAdapter Inst Reg} (block : list Inst) regs : exists nodes regs',
  build_dep_graph_reusing block regs = Some (nodes, regs') /\ dag nodes /\ latency <$> nodes = latency_of <$> block /\
  forall a b x y, a < b -> block !! a = Some x -> block !! b = Some y -> conflict x y -> tc (dep nodes) a b.
Proof.
  rw /build_dep_graph_reusing. set (g0 := mkGraph _ _ _ _ _).
  assert (forall i node, (node_new ∘ latency_of <$> block) !! i = Some node -> deps node = [] /\ users node = []) as Hnew.
  { intros i node. rw list_lookup_fmap. destruct (block !! i); [|done]. by intros [= <-]. }
  assert (visit_inv block 0 g0) as H0.
  { split.
    - split; simpl; try done.
      + by rw length_fmap.
      + by rw length_replicate.
      + intros b node [-> ->]%Hnew. split; apply NoDup_nil_2.
      + intros a node b [_ ->]%Hnew. split; [by intros ?%not_elem_of_nil|]. by intros (node' & [-> _]%Hnew & ?%not_elem_of_nil).
      + by intros a b (node & [-> _]%Hnew & ?%not_elem_of_nil).
      + intros a. split; [|by intros ?%not_elem_of_nil]. by intros (node & [-> _]%Hnew & ?%not_elem_of_nil).
      + by intros a t [[=] _]%lookup_replicate.
      + by intros a ?%not_elem_of_nil.
    - simpl. by rewrite -list_fmap_compose.
    - intros l. assert (seen_writer g0 l = None /\ seen_readers g0 l = []) as [-> ->].
      { destruct l as [class reg| |]; [|done..]. apply clear_answers. }
      split; [done|intros; lia|intros; lia|]. by intros r ?%not_elem_of_nil.
    - intros; lia. }
  assert (forall k, k <= length block -> exists g, fold_opt (visit_inst block) g0 (seq 0 k) = Some g /\ visit_inv block k g) as Hk.
  { induction k as [|k IH]; intros Hle; [by exists g0|]. destruct IH as (g & Hg & Hi); [lia|].
    destruct (visit_inst_ok block k g Hi ltac:(lia)) as (g' & Hg' & Hi'). exists g'. split; [|done].
    rw seq_S fold_opt_app Hg /= Hg'. done. }
  destruct (Hk (length block) ltac:(lia)) as (g & -> & [Hg Hlat Ht Hp]). cbn [mbind option_bind]. eexists _, _. split; [reflexivity|].
  split; [|split; [done|]].
  - pose proof Hg as [? ? ? ? Hb ? ? ?]. split; [done|done|]. intros a b Hd. by apply Hb.
  - intros a b x y Hab Ha Hb (l & Hl). apply (Hp a b l); [apply lookup_lt_Some in Hb; lia|].
    destruct Hl as [[? [?|?]]|[? ?]]; [left; split; [by exists x|left; by exists y]|left; split; [by exists x|right; by exists y]|right].
    split; [by exists x|by exists y].
Qed.

(** ** Priorities *)

(** Same graph, other priorities. *)
Definition same_graph (nodes nodes' : list SchedNode) : Prop :=
  Forall2 (fun a b => deps b = deps a /\ users b = users a /\ latency b = latency a) nodes nodes'.

Lemma same_graph_dep nodes nodes' a b : same_graph nodes nodes' -> dep nodes' a b <-> dep nodes a b.
Proof.
  intros Hs. split; intros (node & Hb & Ha).
  - destruct (Forall2_lookup_r _ _ _ _ _ Hs Hb) as (n0 & Hn0 & Hd & _). exists n0. by rewrite -Hd.
  - destruct (Forall2_lookup_l _ _ _ _ _ Hs Hb) as (n0 & Hn0 & Hd & _). exists n0. by rewrite Hd.
Qed.

Lemma same_graph_dag nodes nodes' : same_graph nodes nodes' -> dag nodes -> dag nodes'.
Proof.
  intros Hs [H1 H2 H3]. split.
  - intros b node Hb. destruct (Forall2_lookup_r _ _ _ _ _ Hs Hb) as (n0 & Hn0 & -> & -> & _). by eapply H1.
  - intros a node b Ha. destruct (Forall2_lookup_r _ _ _ _ _ Hs Ha) as (n0 & Hn0 & _ & -> & _).
    rw (same_graph_dep _ _ _ _ Hs). by apply H2.
  - intros a b Hd. apply H3. by apply (same_graph_dep _ _ _ _ Hs).
Qed.

Definition sumZ {A} (f : A -> Z) (l : list A) : Z := foldr (fun x acc => f x + acc)%Z 0%Z l.

Lemma sumZ_app {A} (f : A -> Z) a b : (sumZ f (a ++ b) = sumZ f a + sumZ f b)%Z.
Proof. induction a as [|x a IH]; simpl; [done|]. rewrite IH. lia. Qed.

Lemma sumZ_nonneg {A} (f : A -> Z) l : Forall (fun x => (0 <= f x)%Z) l -> (0 <= sumZ f l)%Z.
Proof. induction 1; simpl; lia. Qed.

Lemma sumZ_drop {A} (f : A -> Z) l k : Forall (fun x => (0 <= f x)%Z) l -> (sumZ f (drop k l) <= sumZ f l)%Z.
Proof.
  intros Hf. rewrite -{2}(take_drop k l) sumZ_app. pose proof (sumZ_nonneg f (take k l) (Forall_take _ _ _ Hf)). lia.
Qed.

Lemma sumZ_take {A} (f : A -> Z) l k : Forall (fun x => (0 <= f x)%Z) l -> (sumZ f (take k l) <= sumZ f l)%Z.
Proof.
  intros Hf. rewrite -{2}(take_drop k l) sumZ_app. pose proof (sumZ_nonneg f (drop k l) (Forall_drop _ _ _ Hf)). lia.
Qed.

Lemma foldr_max_bound l m : (0 <= m)%Z -> Forall (fun p => (0 <= p <= m)%Z) l -> (0 <= foldr Z.max 0 l <= m)%Z.
Proof. intros Hm. induction 1; simpl; lia. Qed.

(** Priorities never overflow when the latencies of the block fit a [u32]. *)
Lemma priorities_ok nodes : dag nodes -> Forall (fun node => (0 <= latency node)%Z) nodes -> (sumZ latency nodes < 2 ^ 32)%Z ->
  exists nodes', calculate_priorities nodes = Some nodes' /\ same_graph nodes nodes'.
Proof.
  intros Hdag Hpos Hsum. rw /calculate_priorities.
  assert (forall k, k <= length nodes -> exists nodes', fold_opt node_priority nodes (rev (seq (length nodes - k) k)) = Some nodes' /\
    same_graph nodes nodes' /\ forall j node, length nodes - k <= j -> nodes' !! j = Some node ->
      (0 <= priority node <= sumZ latency (drop j nodes))%Z) as Hk.
  2:{ destruct (Hk (length nodes) ltac:(lia)) as (nodes' & Hn & Hs & _). exists nodes'. split; [|done]. by rw Nat.sub_diag in Hn *. }
  induction k as [|k IH]; intros Hle.
  - exists nodes. split; [done|]. split; [by apply Forall2_same_length_lookup_2; [|intros i x y Hx Hy; assert (x = y) as -> by congruence]|].
    intros j node Hj Hl. apply lookup_lt_Some in Hl. lia.
  - destruct IH as (nodes1 & Hn & Hs & Hp); [lia|]. set (idx := length nodes - S k) in *.
    assert (length nodes - k = S idx) as Hidx by lia. rw Hidx in Hn Hp *. assert (idx < length nodes) as Hlt by lia.
    change (seq idx (S k)) with (idx :: seq (S idx) k). cbn [rev]. rw fold_opt_app Hn. cbn [mbind option_bind fold_opt].
    pose proof (Forall2_length _ _ _ Hs) as Hlen. destruct (lookup_lt_is_Some_2 nodes idx Hlt) as [node0 Hnode0].
    destruct (Forall2_lookup_l _ _ _ _ _ Hs Hnode0) as (node & Hnode & Hd & Hu & Hla).
    assert (forall m, S idx <= m -> (sumZ latency (drop m nodes) <= sumZ latency (drop (S idx) nodes))%Z) as Hmono.
    { intros m Hm. replace (drop m nodes) with (drop (m - S idx) (drop (S idx) nodes)) by (rewrite drop_drop; f_equal; lia).
      by apply sumZ_drop, Forall_drop. }
    assert (0 <= sumZ latency (drop (S idx) nodes))%Z as Hnn by by apply sumZ_nonneg, Forall_drop.
    rw /node_priority Hnode. cbn [mbind option_bind].
    destruct (mapM_is_Some_2 (fun user => priority <$> nodes1 !! user) (users node)) as [ps Hps].
    { apply Forall_forall. intros u Hin. rewrite Hu in Hin. apply (dag_users _ Hdag idx node0 u Hnode0), (dep_lt _ _ _ Hdag) in Hin as [_ Hul].
      rewrite Hlen in Hul. apply fmap_is_Some, lookup_lt_is_Some_2, Hul. }
    rw Hps. cbn [mbind option_bind]. apply mapM_Some in Hps.
    assert (0 <= foldr Z.max 0 ps <= sumZ latency (drop (S idx) nodes))%Z as Hmax.
    { apply foldr_max_bound; [done|]. apply Forall_lookup. intros i p Hi. destruct (Forall2_lookup_r _ _ _ _ _ Hps Hi) as (u & Hui & Hup).
      apply fmap_Some in Hup as (un & Hun & ->). apply list_elem_of_lookup_2 in Hui. rewrite Hu in Hui.
      apply (dag_users _ Hdag idx node0 u Hnode0), (dag_forward _ Hdag) in Hui. pose proof (Hp u un Hui Hun). pose proof (Hmono u Hui). lia. }
    assert (sumZ latency (drop idx nodes) = latency node + sumZ latency (drop (S idx) nodes))%Z as Hdrop.
    { rewrite (drop_S nodes node0 idx Hnode0) Hla. done. }
    assert (0 <= latency node)%Z as Hn0 by (rewrite Hla; rewrite Forall_lookup in Hpos; by eapply Hpos).
    pose proof (sumZ_drop latency nodes idx Hpos) as Hall.
    rewrite checked_u_in; [|split; lia]. cbn [mbind option_bind]. eexists. split; [reflexivity|]. split.
    + apply Forall2_same_length_lookup_2; [by rewrite length_insert|]. intros i x y Hx Hy.
      destruct (decide (i = idx)) as [->|Hi].
      * rewrite list_lookup_insert_eq in Hy; [|by eapply lookup_lt_Some]. injection Hy as <-. assert (x = node0) as -> by congruence. done.
      * rewrite list_lookup_insert_ne // in Hy. destruct (Forall2_lookup_l _ _ _ _ _ Hs Hx) as (y' & Hy' & Hr). congruence.
    + intros j x Hj. destruct (decide (j = idx)) as [->|Hi].
      * rewrite list_lookup_insert_eq; [|by eapply lookup_lt_Some]. intros [= <-]. simpl. lia.
      * rewrite list_lookup_insert_ne //. apply Hp. lia.
Qed.
