(* ===== verification/SchedOrder.v ===== *)
(** * Instruction scheduling: the order and the permutation

    [schedule_block] of [Sched.v] lists every instruction of the block once,
    each after the instructions it depends on; [apply_permutation] moves every
    element to its destination. *)

From S2P Require Import Prelude Sched SchedGraph.
From stdpp Require Import list relations.
Import Machine.

Lemma heap_pop_none h : heap_pop h = None -> h = [].
Proof. destruct h as [|x h]; [done|]. simpl. destruct (heap_pop h) as [[y h']|]; [by destruct (ready_le y x)|done]. Qed.

Lemma heap_pop_perm h : forall y h', heap_pop h = Some (y, h') -> h ≡ₚ y :: h'.
Proof.
  induction h as [|x h IH]; intros y h' Hp; [done|]. simpl in Hp. destruct (heap_pop h) as [[z h1]|] eqn:Hz.
  - destruct (ready_le z x); injection Hp as <- <-; [done|]. rewrite (IH z h1 eq_refl). apply Permutation_swap.
  - injection Hp as <- <-. by rewrite (heap_pop_none h Hz).
Qed.

(** [order] lists each index below [n] once, after its dependencies. *)
Definition after_deps (nodes : list SchedNode) (order : list nat) : Prop :=
  forall j b a, order !! j = Some b -> dep nodes a b -> exists i, i < j /\ order !! i = Some a.
Definition schedules (nodes : list SchedNode) (order : list nat) : Prop :=
  NoDup order /\ (forall x, x ∈ order <-> x < length nodes) /\ after_deps nodes order.

Section Order.
Context (nodes : list SchedNode) (Hdag : dag nodes).
Notation n := (length nodes).

Definition deps_of (b : nat) : list nat := match nodes !! b with Some node => deps node | None => [] end.
Lemma dep_deps_of a b : dep nodes a b <-> a ∈ deps_of b.
Proof.
  rw /dep /deps_of. destruct (nodes !! b) as [node|].
  - split; [by intros (node' & [= <-] & Ha)|by exists node].
  - split; [by intros (node' & [=] & _)|by intros ?%not_elem_of_nil].
Qed.

(** The dependencies of [b] that are not in [done]. *)
Definition missing (done : list nat) (b : nat) : nat :=
  match nodes !! b with Some node => length (filter (fun a => a ∉ done) (deps node)) | None => 0 end.

Lemma missing_zero done b : missing done b = 0 <-> forall a, dep nodes a b -> a ∈ done.
Proof.
  rw /missing. split.
  - intros Hm a (node & Hb & Ha). rw Hb in Hm *. destruct (decide (a ∈ done)) as [|Hn]; [done|].
    apply length_zero_iff_nil in Hm. assert (a ∈ filter (fun a => a ∉ done) (deps node)) as Hin by by apply list_elem_of_filter.
    rw Hm in Hin *. by apply not_elem_of_nil in Hin.
  - intros Ha. destruct (nodes !! b) as [node|] eqn:Hb; [|done]. apply length_zero_iff_nil.
    destruct (filter _ _) as [|x l] eqn:Hf; [done|]. assert (x ∈ filter (fun a => a ∉ done) (deps node)) as Hin by (rw Hf; by left).
    apply list_elem_of_filter in Hin as [Hn Hx]. destruct Hn. apply Ha. by exists node.
Qed.

(** Scheduling one more instruction. *)
Lemma missing_snoc done idx b : idx ∉ done ->
  missing done b = missing (done ++ [idx]) b + (if decide (idx ∈ deps_of b) then 1 else 0).
Proof.
  intros Hni. rw /missing /deps_of. destruct (nodes !! b) as [node|] eqn:Hb.
  2:{ by destruct (decide _) as [?%not_elem_of_nil|]. }
  pose proof (dag_nodup _ Hdag b node Hb) as [Hnd _].
  assert (forall l, NoDup l -> length (filter (fun a => a ∉ done) l) =
    length (filter (fun a => a ∉ done ++ [idx]) l) + (if decide (idx ∈ l) then 1 else 0)) as Hl.
  { intros l. induction l as [|a l IH]; intros Hndl.
    - cbn [filter list_filter length]. by destruct (decide (idx ∈ [])) as [?%not_elem_of_nil|].
    - apply NoDup_cons in Hndl as [Ha Hndl]. specialize (IH Hndl). rw !filter_cons. destruct (decide (a = idx)) as [->|Hne].
      + rw decide_True // decide_False; [|by rw elem_of_app list_elem_of_singleton; intros Hc; apply Hc; right].
        simpl. rw IH. destruct (decide (idx ∈ l)); [done|]. destruct (decide (idx ∈ idx :: l)) as [|Hx]; [lia|]. destruct Hx. by left.
      + assert (idx ∈ a :: l <-> idx ∈ l) as Hiff by (rw elem_of_cons; naive_solver).
        assert (a ∉ done ++ [idx] <-> a ∉ done) as Hd by (rw elem_of_app list_elem_of_singleton; naive_solver).
        repeat case_decide; simpl in *; rewrite ?IH; try tauto; lia. }
  exact (Hl (deps node) Hnd).
Qed.

Record loop_inv (pending : list nat) (st : sched_state) : Prop := {
  li_nodup : NoDup (scheduled st);
  li_below : forall x, x ∈ scheduled st -> x < n;
  li_after : after_deps nodes (scheduled st);
  li_len : length (remaining_deps st) = n;
  li_count : forall b, b < n -> remaining_deps st !! b = Some (missing (scheduled st) b + (if decide (b ∈ pending) then 1 else 0));
  li_ready_nodup : NoDup (r_idx <$> ready st);
  li_ready : forall x, x ∈ r_idx <$> ready st <-> x < n /\ x ∉ scheduled st /\ remaining_deps st !! x = Some 0;
}.

(** An unscheduled user stays unscheduled. *)
Lemma complete_edges_ok users : forall st, loop_inv users st -> NoDup users -> Forall (fun b => b < n /\ b ∉ scheduled st) users ->
  exists st', fold_opt (complete_edge nodes) st users = Some st' /\ loop_inv [] st' /\ scheduled st' = scheduled st.
Proof.
  induction users as [|u users IH]; intros st Hinv Hnd Hf; [by exists st|].
  apply NoDup_cons in Hnd as [Hu Hnd]. apply Forall_cons in Hf as [[Hun Hus] Hf]. pose proof Hinv as [H1 H2 H3 H4 H5 H6 H7].
  assert (remaining_deps st !! u = Some (S (missing (scheduled st) u))) as Hru.
  { rw (H5 u Hun). f_equal. destruct (decide (u ∈ u :: users)) as [_|Hn]; [lia|destruct Hn; by left]. }
  cbn [fold_opt]. rw /complete_edge Hru. cbn [mbind option_bind].
  assert (forall b, b < n -> <[u := missing (scheduled st) u]> (remaining_deps st) !! b =
    Some (missing (scheduled st) b + (if decide (b ∈ users) then 1 else 0))) as Hcount.
  { intros b Hb. destruct (decide (b = u)) as [->|Hne].
    - rw list_lookup_insert_eq; [|lia]. destruct (decide (u ∈ users)); [done|]. f_equal. lia.
    - rw list_lookup_insert_ne // H5 //. do 2 f_equal. assert (b ∈ u :: users <-> b ∈ users) by (rw elem_of_cons; naive_solver).
      repeat case_decide; tauto. }
  assert (u ∉ r_idx <$> ready st) as Hur.
  { rw H7. intros (_ & _ & Hz). congruence. }
  destruct (Nat.eqb_spec (missing (scheduled st) u) 0) as [Hz|Hnz].
  - destruct (lookup_lt_is_Some_2 nodes u Hun) as [node Hnode]. rw Hnode. cbn [mbind option_bind]. match goal with |- exists st', fold_opt _ ?s _ = _ /\ _ => apply (IH s); [|done|done] end.
    split; simpl; try done.
    + by rw length_insert.
    + by apply NoDup_cons.
    + intros x. rw elem_of_cons. destruct (decide (x = u)) as [->|Hne].
      * rw list_lookup_insert_eq; [|lia]. rw Hz. split; [|by left]. done.
      * rw list_lookup_insert_ne // H7. naive_solver.
  - cbn [mbind option_bind]. match goal with |- exists st', fold_opt _ ?s _ = _ /\ _ => apply (IH s); [|done|done] end. split; simpl; try done.
    + by rw length_insert.
    + intros x. destruct (decide (x = u)) as [->|Hne].
      * rw list_lookup_insert_eq; [|lia]. split; [done|]. intros (_ & _ & [=]). done.
      * by rw list_lookup_insert_ne // H7.
Qed.

(** When nothing is ready everything is scheduled. *)
Lemma all_scheduled st : loop_inv [] st -> ready st = [] -> forall x, x < n -> x ∈ scheduled st.
Proof.
  intros [H1 H2 H3 H4 H5 H6 H7] Hr x. induction x as [x IH] using lt_wf_ind. intros Hx.
  destruct (decide (x ∈ scheduled st)) as [|Hn]; [done|]. exfalso.
  assert (x ∈ r_idx <$> ready st) as Hin; [|rw Hr in Hin *; by apply not_elem_of_nil in Hin].
  apply H7. split_and!; [done..|]. rw (H5 x Hx). assert (missing (scheduled st) x = 0) as ->; [|done].
  apply missing_zero. intros a Ha. pose proof (dep_lt _ _ _ Hdag Ha). apply IH; lia.
Qed.

Lemma pop_inv st r ready' node : loop_inv [] st -> heap_pop (ready st) = Some (r, ready') -> nodes !! r_idx r = Some node ->
  loop_inv (users node) (mkSched (scheduled st ++ [r_idx r]) (remaining_deps st) ready') /\
  Forall (fun b => b < n /\ b ∉ scheduled st ++ [r_idx r]) (users node) /\ r_idx r ∉ scheduled st.
Proof.
  intros [H1 H2 H3 H4 H5 H6 H7] Hp%heap_pop_perm Hnode. set (idx := r_idx r) in *.
  assert (r_idx <$> ready st ≡ₚ idx :: (r_idx <$> ready')) as Hperm by by rw Hp.
  destruct (proj1 (H7 idx)) as (Hlt & Hns & Hzero); [rewrite Hperm; by left|].
  assert (missing (scheduled st) idx = 0) as Hm0 by (rw (H5 idx Hlt) in Hzero *; injection Hzero as Hz; lia).
  pose proof (proj1 (missing_zero _ _) Hm0) as Hdeps. rewrite Hperm in H6. apply NoDup_cons in H6 as [Hir H6].
  split; [split; simpl|split; [|done]].
  - apply NoDup_app. split; [done|]. split; [|apply NoDup_singleton]. by intros x Hx ->%list_elem_of_singleton.
  - intros x [Hx| ->%list_elem_of_singleton]%elem_of_app; [by apply H2|done].
  - intros j b a Hj Hd. apply lookup_app_Some in Hj as [Hj|[Hj Hs]].
    + destruct (H3 j b a Hj Hd) as (i & Hi & Ha). exists i. split; [done|]. by apply lookup_app_l_Some.
    + apply list_lookup_singleton_Some in Hs as [Hj0 <-]. destruct (proj1 (list_elem_of_lookup _ _) (Hdeps a Hd)) as [i Hi].
      exists i. split; [apply lookup_lt_Some in Hi; lia|by apply lookup_app_l_Some].
  - done.
  - intros b Hb. rw (H5 b Hb) (missing_snoc _ idx b Hns). f_equal.
    destruct (decide (b ∈ [])) as [?%not_elem_of_nil|_]; [done|]. pose proof (dag_users _ Hdag idx node b Hnode) as Hiff. rw dep_deps_of in Hiff *.
    repeat case_decide; try lia; tauto.
  - done.
  - intros x. transitivity (x ∈ r_idx <$> ready st /\ x <> idx).
    + rewrite Hperm elem_of_cons. naive_solver.
    + rewrite H7 elem_of_app list_elem_of_singleton. naive_solver.
  - apply Forall_forall. intros b Hb. apply (dag_users _ Hdag idx node b Hnode) in Hb. pose proof (dep_lt _ _ _ Hdag Hb) as [Hib Hbn].
    split; [done|]. rw elem_of_app list_elem_of_singleton. intros [Hin| ->]; [|lia]. apply list_elem_of_lookup in Hin as [j Hj].
    destruct (H3 j b idx Hj Hb) as (i & _ & Hi). apply Hns. by eapply list_elem_of_lookup_2.
Qed.

Lemma schedule_loop_ok fuel : forall st, loop_inv [] st -> n - length (scheduled st) < fuel ->
  exists order, schedule_loop fuel nodes st = Some order /\ schedules nodes order.
Proof.
  induction fuel as [|fuel IH]; intros st Hinv Hfuel; [lia|]. cbn [schedule_loop].
  destruct (heap_pop (ready st)) as [[r ready']|] eqn:Hp.
  - assert (r_idx r < n) as Hlt.
    { apply (li_ready _ _ Hinv). rewrite (heap_pop_perm _ _ _ Hp). by left. }
    destruct (lookup_lt_is_Some_2 nodes _ Hlt) as [node Hnode]. rw Hnode. cbn [mbind option_bind].
    destruct (pop_inv st r ready' node Hinv Hp Hnode) as (Hinv' & Hf & Hns).
    destruct (complete_edges_ok (users node) _ Hinv') as (st' & -> & Hinv2 & Hs);
      [apply (dag_nodup _ Hdag _ _ Hnode)|exact Hf|]. cbn [mbind option_bind]. apply IH; [done|].
    rw Hs /= length_app /=. assert (length (scheduled st ++ [r_idx r]) <= n) as Hle; [|rw length_app /= in Hle *; lia].
    rewrite -(length_seq n 0). apply submseteq_length, NoDup_submseteq; [apply (li_nodup _ _ Hinv')|].
    intros x Hx%(li_below _ _ Hinv'). apply elem_of_seq. lia.
  - apply heap_pop_none in Hp. exists (scheduled st). split; [done|]. split; [apply (li_nodup _ _ Hinv)|]. split; [|apply (li_after _ _ Hinv)].
    intros x. split; [apply (li_below _ _ Hinv)|by apply all_scheduled].
Qed.

Lemma schedule_block_ok : exists order, schedule_block nodes = Some order /\ schedules nodes order.
Proof.
  rw /schedule_block. set (start := omap _ _). apply schedule_loop_ok; [|simpl; lia].
  assert (r_idx <$> start = filter (fun x => (length ∘ deps <$> nodes) !! x = Some 0) (seq 0 n)) as Hstart.
  { subst start. clear Hdag.
    cut (forall k l, (forall i, l !! i = nodes !! (k + i)) ->
      r_idx <$> omap (fun '(idx, node) => if length (deps node) =? 0 then Some (mkReady (priority node) idx) else None) (imap (fun i => pair (k + i)) l)
      = filter (fun x => (length ∘ deps <$> nodes) !! x = Some 0) (seq k (length l))).
    { intros Hc. by apply (Hc 0 nodes). }
    intros k l. revert k. induction l as [|node l IH]; intros k Hl; [done|].
    assert (imap (fun i => pair (k + i)) (node :: l) = (k, node) :: imap (fun i => pair (S k + i)) l) as ->.
    { simpl. f_equal; [by rw Nat.add_0_r|]. apply imap_ext. intros i x _. simpl. f_equal. lia. }
    assert (forall i, l !! i = nodes !! (S k + i)) as Hl2 by (intros i; pose proof (Hl (S i)) as Hx; simpl in Hx; rewrite Hx; f_equal; lia).
    specialize (IH (S k) Hl2). assert (nodes !! k = Some node) as Hk by (rewrite -(Nat.add_0_r k) -Hl; done).
    cbn [length seq]. rw filter_cons list_lookup_fmap Hk. simpl in IH |- *.
    destruct (Nat.eqb_spec (length (deps node)) 0) as [Hz|Hz]; case_decide as Hd; simplify_eq/=; try congruence.
    f_equal. exact IH. }
  assert (forall b, missing [] b = match nodes !! b with Some node => length (deps node) | None => 0 end) as Hmiss.
  { intros b. rw /missing. destruct (nodes !! b) as [node|]; [|done]. induction (deps node) as [|x l IH]; [done|].
    rw filter_cons. destruct (decide (x ∉ [])) as [_|Hx]; [simpl; by rw IH|destruct Hx; apply not_elem_of_nil]. }
  split; simpl.
  - apply NoDup_nil_2.
  - by intros x ?%not_elem_of_nil.
  - by intros j b a.
  - by rw length_fmap.
  - intros b [node Hb]%lookup_lt_is_Some_2. rw list_lookup_fmap Hmiss Hb. cbn [fmap option_fmap option_map compose]. f_equal.
    destruct (decide (b ∈ [])) as [?%not_elem_of_nil|]; [done|lia].
  - rw Hstart. apply NoDup_filter, NoDup_seq.
  - intros x. rw Hstart list_elem_of_filter elem_of_seq. split; [intros [? ?]; split_and!; [lia|apply not_elem_of_nil|done]|].
    intros (? & _ & ?). split; [done|lia].
Qed.
End Order.

(** ** Permuting in place *)

(** The transposition of two positions. *)
Definition transpose (i j k : nat) : nat := if k =? i then j else if k =? j then i else k.

Lemma transpose_inj i j : Inj (=) (=) (transpose i j).
Proof. intros x y. rw /transpose. destruct (Nat.eqb_spec x i), (Nat.eqb_spec x j), (Nat.eqb_spec y i), (Nat.eqb_spec y j); lia. Qed.

Lemma swap_spec {T} i j (l : list T) : i < length l -> j < length l ->
  exists l', swap i j l = Some l' /\ length l' = length l /\ forall k, l' !! k = l !! transpose i j k.
Proof.
  intros [x Hx]%lookup_lt_is_Some_2 [y Hy]%lookup_lt_is_Some_2. rw /swap Hx Hy /=. eexists. split; [done|].
  rw !length_insert. split; [done|]. intros k. rw /transpose. pose proof (lookup_lt_Some _ _ _ Hx). pose proof (lookup_lt_Some _ _ _ Hy).
  destruct (Nat.eqb_spec k i) as [->|Hi].
  - destruct (decide (i = j)) as [<-|Hij].
    + rw list_lookup_insert_eq; [congruence|by rw length_insert].
    + rw list_lookup_insert_ne // list_lookup_insert_eq //.
  - destruct (Nat.eqb_spec k j) as [->|Hj].
    + rw list_lookup_insert_eq; [done|by rw length_insert].
    + rw !list_lookup_insert_ne //; congruence.
Qed.

Definition fixed_at (ds : list nat) (p : nat) : Prop := ds !! p = Some p.
Definition is_permutation (n : nat) (ds : list nat) : Prop :=
  length ds = n /\ NoDup ds /\ Forall (fun d => d < n) ds.

Section Permute.
Context {T : Type} (n : nat) (items : list T) (dest : list nat).

(** Every element still travels with its destination. *)
Record moving (st : list T * list nat) : Prop := {
  mv_perm : is_permutation n st.2;
  mv_len : length st.1 = n;
  mv_pairs : zip st.1 st.2 ≡ₚ zip items dest;
}.

Lemma moving_swap its ds i j its' ds' : moving (its, ds) -> i < n -> j < n -> swap i j its = Some its' -> swap i j ds = Some ds' ->
  moving (its', ds').
Proof.
  intros [(Hld & Hnd & Hf) Hli Hp] Hi Hj Hsi Hsd. simpl in *.
  destruct (swap_spec i j its) as (l1 & Hs1 & Hlen1 & Hk1); [lia..|]. assert (l1 = its') as -> by congruence.
  destruct (swap_spec i j ds) as (l2 & Hs2 & Hlen2 & Hk2); [lia..|]. assert (l2 = ds') as -> by congruence.
  assert (ds' ≡ₚ ds) as Hpd.
  { apply Permutation_inj. split; [done|]. exists (transpose i j). split; [apply transpose_inj|done]. }
  split; simpl; [|lia|].
  - split; [lia|]. by rewrite Hpd.
  - rewrite -Hp. apply Permutation_inj. split; [rw !length_zip; lia|]. exists (transpose i j). split; [apply transpose_inj|].
    intros k. rw !lookup_zip_with Hk1 Hk2 //.
Qed.

Lemma settle_ok fuel : forall fixed current st, moving st -> current < n -> NoDup fixed -> Forall (fixed_at st.2) fixed ->
  n < fuel + length fixed ->
  exists st', settle fuel current st = Some st' /\ moving st' /\ fixed_at st'.2 current /\
    forall p, fixed_at st.2 p -> fixed_at st'.2 p.
Proof.
  induction fuel as [|fuel IH]; intros fixed current [its ds] Hm Hc Hnd Hfix Hfuel.
  { exfalso. assert (length fixed <= n); [|lia]. rewrite -(length_seq n 0). apply submseteq_length, NoDup_submseteq; [done|].
    intros p Hp. rewrite Forall_forall in Hfix. specialize (Hfix p Hp). destruct (mv_perm _ Hm) as [Hl _]. simpl in *.
    apply elem_of_seq. apply lookup_lt_Some in Hfix. lia. }
  pose proof Hm as [(Hld & Hndd & Hf) Hli Hp]. simpl in *.
  destruct (lookup_lt_is_Some_2 ds current ltac:(lia)) as [target Ht]. rw Ht. cbn [mbind option_bind].
  destruct (Nat.eqb_spec target current) as [->|Hne]; [by exists (its, ds)|].
  assert (target < n) as Htn by (rewrite Forall_lookup in Hf; by eapply Hf).
  destruct (swap_spec current target its) as (its' & Hs1 & Hlen1 & Hk1); [lia..|].
  destruct (swap_spec current target ds) as (ds' & Hs2 & Hlen2 & Hk2); [lia..|].
  rw Hs1 Hs2. cbn [mbind option_bind].
  assert (fixed_at ds' target) as Hft.
  { rw /fixed_at Hk2 /transpose. destruct (Nat.eqb_spec target current); [done|]. by rw Nat.eqb_refl. }
  assert (forall p, fixed_at ds p -> p <> current /\ p <> target) as Hnot.
  { intros p Hp1. rw /fixed_at in Hp1 *. split; intros ->; [congruence|]. apply Hne. symmetry. by eapply NoDup_lookup. }
  assert (forall p, fixed_at ds p -> fixed_at ds' p) as Hkeep.
  { intros p Hp1. destruct (Hnot p Hp1). rw /fixed_at Hk2 /transpose. destruct (Nat.eqb_spec p current), (Nat.eqb_spec p target); done. }
  destruct (IH (target :: fixed) current (its', ds')) as (st' & Hst & Hm' & Hfc & Hrest).
  - by apply (moving_swap its ds current target).
  - done.
  - apply NoDup_cons. split; [|done]. intros Hin. rewrite Forall_forall in Hfix. by destruct (Hnot target (Hfix _ Hin)).
  - simpl. apply Forall_cons. split; [done|]. eapply Forall_impl; [exact Hfix|exact Hkeep].
  - simpl. lia.
  - exists st'. split_and!; [done..|]. intros p Hp1. by apply Hrest, Hkeep.
Qed.

Lemma apply_permutation_ok : length items = n -> is_permutation n dest ->
  exists out, apply_permutation items dest = Some out /\ length out = n /\
    forall i d, dest !! i = Some d -> out !! d = items !! i.
Proof.
  intros Hlen Hperm. rw /apply_permutation (proj1 Hperm).
  assert (forall k, k <= n -> exists st, fold_opt (fun st current => settle (S n) current st) (items, dest) (seq 0 k) = Some st /\
    moving st /\ forall p, p < k -> fixed_at st.2 p) as Hk.
  { induction k as [|k IH]; intros Hle.
    - exists (items, dest). split; [done|]. split; [by split|lia].
    - destruct IH as (st & Hst & Hm & Hfix); [lia|].
      destruct (settle_ok (S n) [] k st Hm) as (st' & Hst' & Hm' & Hfk & Hkeep); [lia|constructor|done|simpl; lia|].
      exists st'. split; [rw seq_S fold_opt_app Hst; cbn [mbind option_bind fold_opt]; rw Hst'; done|]. split; [done|]. intros p Hp.
      destruct (decide (p = k)) as [->|]; [done|]. apply Hkeep, Hfix. lia. }
  destruct (Hk n ltac:(lia)) as ([out ds] & -> & [Hp Hl Hpairs] & Hfix). simpl in *. exists out. split; [done|]. split; [done|].
  intros i d Hd. destruct (lookup_lt_is_Some_2 items i) as [x Hx].
  { destruct Hperm as [Hld _]. apply lookup_lt_Some in Hd. lia. }
  assert ((x, d) ∈ zip out ds) as Hin.
  { rewrite Hpairs. apply list_elem_of_lookup. exists i. by apply lookup_zip_Some. }
  apply list_elem_of_lookup in Hin as [p Hp']. apply lookup_zip_Some in Hp' as [Hxo Hdo]. pose proof (lookup_lt_Some _ _ _ Hxo).
  rw (Hfix p ltac:(lia)) in Hdo *. injection Hdo as ->. congruence.
Qed.
End Permute.
