(* ===== verification/SchedRun.v ===== *)
(** * Instruction scheduling: executions

    What scheduling means: instructions are steps on a machine state, a map
    from locations to values, and a step may read and write only what the
    adapter reports.  Steps without a conflict commute, so a block runs the
    same in any order that keeps conflicting instructions in their order; the
    driver reorders each block between barriers in such an order. *)

From S2P Require Import Prelude Sched SchedGraph SchedOrder.
From stdpp Require Import list relations.
From Stdlib Require Import Sorted.
Import Machine.

(** ** Executions *)

(** What an instruction may do with values [V]: [effect i s out] gives the
    values [out] it leaves in the locations it writes, from what it reads in
    [s].  The law is the contract of the adapter: every location that has an
    influence is reported.  Clobbered registers may get any value. *)
Class InstEffect (Inst Reg V : Type) `{SchedulerAdapter Inst Reg} := {
  effect : Inst -> (Loc -> V) -> (Loc -> V) -> Prop;
  effect_reads : forall i s s' out, (forall l, l ∈ reads_at i -> s l = s' l) -> effect i s out -> effect i s' out;
}.

Section Meaning.
Context {Inst Reg V : Type} `{InstEffect Inst Reg V}.
Notation machine := (Loc -> V).

Definition step (i : Inst) (s t : machine) : Prop :=
  exists out, effect i s out /\ forall l, t l = if decide (l ∈ writes_at i) then out l else s l.

Inductive runs : list Inst -> machine -> machine -> Prop :=
| runs_nil s t : (forall l, s l = t l) -> runs [] s t
| runs_cons i is' s u t : step i s u -> runs is' u t -> runs (i :: is') s t.

(** A block in another order with the same executions. *)
Definition reordered (block block' : list Inst) : Prop :=
  block ≡ₚ block' /\ forall s t, runs block s t <-> runs block' s t.

(** Each block between barriers reordered, each barrier in its place. *)
Inductive blocks_reordered : list Inst -> list Inst -> Prop :=
| br_nil : blocks_reordered [] []
| br_block l l' block block' x : blocks_reordered l l' -> Forall (fun i => is_barrier i = false) block ->
    reordered block block' -> is_barrier x = true -> blocks_reordered (l ++ block ++ [x]) (l' ++ block' ++ [x]).
Definition function_reordered (l l' : list Inst) : Prop :=
  exists p p' block block', l = p ++ block /\ l' = p' ++ block' /\ blocks_reordered p p' /\
    Forall (fun i => is_barrier i = false) block /\ reordered block block'.

Lemma step_ext i s s' t t' : (forall l, s l = s' l) -> (forall l, t l = t' l) -> step i s t -> step i s' t'.
Proof.
  intros Hs Ht (out & He & Hl). exists out. split; [eapply effect_reads; [|exact He]; auto|]. intros l. by rw -Ht Hl Hs.
Qed.

Lemma runs_ext is' : forall s s' t, (forall l, s l = s' l) -> runs is' s t -> runs is' s' t.
Proof.
  destruct is' as [|i is']; intros s s' t Hs Hr; inversion Hr as [? ? Hst|? ? ? u ? Hu Hrest]; subst.
  - constructor. intros l. by rw -Hs Hst.
  - econstructor; [|exact Hrest]. by eapply step_ext.
Qed.

Lemma conflict_sym a b : conflict a b -> conflict b a.
Proof. intros (l & Hl). exists l. tauto. Qed.

(** Independent steps commute. *)
Lemma step_commute a b s u t : ~ conflict a b -> step a s u -> step b u t -> exists u', step b s u' /\ step a u' t.
Proof.
  intros Hn (oa & Ha & Hu) (ob & Hb & Ht).
  assert (forall l, l ∈ writes_at a -> l ∉ reads_at b /\ l ∉ writes_at b) as H1.
  { intros l Hl. split; intros Hc; apply Hn; exists l; left; tauto. }
  assert (forall l, l ∈ writes_at b -> l ∉ reads_at a) as H2 by (intros l Hl Hc; apply Hn; exists l; by right).
  exists (fun l => if decide (l ∈ writes_at b) then ob l else s l). split; [|].
  - exists ob. split; [|done]. eapply effect_reads; [|exact Hb]. intros l Hl. rw Hu.
    destruct (decide (l ∈ writes_at a)) as [Hw|]; [|done]. by destruct (H1 l Hw).
  - exists oa. split.
    + eapply effect_reads; [|exact Ha]. intros l Hl. simpl. destruct (decide (l ∈ writes_at b)) as [Hw|]; [|done].
      by destruct (H2 l Hw).
    + intros l. rw Ht Hu. simpl. destruct (decide (l ∈ writes_at b)) as [Hw|]; [|done].
      destruct (decide (l ∈ writes_at a)) as [Hw2|]; [|done]. by destruct (H1 l Hw2).
Qed.

(** An instruction that conflicts with nothing before it can go first. *)
Lemma runs_front x l2 l1 : (forall y, y ∈ l1 -> ~ conflict y x) -> forall s t, runs (l1 ++ x :: l2) s t <-> runs (x :: l1 ++ l2) s t.
Proof.
  induction l1 as [|y l1 IH]; intros Hl s t; [done|].
  assert (~ conflict y x) as Hyx by (apply Hl; by left).
  assert (forall z, z ∈ l1 -> ~ conflict z x) as Hl1 by (intros z Hz; apply Hl; by right). simpl. split.
  - intros Hr. inversion Hr as [|? ? ? u ? Hy Hrest]; subst. apply (IH Hl1) in Hrest.
    inversion Hrest as [|? ? ? v ? Hx Hrest2]; subst. destruct (step_commute y x s u v Hyx Hy Hx) as (w & Hxw & Hyw).
    econstructor; [exact Hxw|]. by econstructor.
  - intros Hr. inversion Hr as [|? ? ? u ? Hx Hrest]; subst. inversion Hrest as [|? ? ? v ? Hy Hrest2]; subst.
    destruct (step_commute x y s u v) as (w & Hyw & Hxw); [intros Hc; by apply Hyx, conflict_sym|done..|].
    econstructor; [exact Hyw|]. apply (IH Hl1). by econstructor.
Qed.

(** ** Orders *)

Lemma runs_cons_equiv x l l' : (forall s t, runs l s t <-> runs l' s t) -> forall s t, runs (x :: l) s t <-> runs (x :: l') s t.
Proof.
  intros Hl s t. split; intros Hr; inversion Hr as [|? ? ? u ? Hx Hrest]; subst; (econstructor; [exact Hx|]); by apply Hl.
Qed.

Section Order.
Context (block : list Inst).
Notation pick := (omap (fun i => block !! i)).

Definition keeps_conflicts (order : list nat) : Prop :=
  forall i j a b x y, i < j -> order !! i = Some b -> order !! j = Some a -> a < b ->
    block !! a = Some x -> block !! b = Some y -> ~ conflict x y.

Lemma pick_runs order : forall sorted, sorted ≡ₚ order -> StronglySorted lt sorted -> keeps_conflicts order ->
  forall s t, runs (pick sorted) s t <-> runs (pick order) s t.
Proof.
  induction order as [|x order IH]; intros sorted Hp Hs Hk s t.
  - by apply Permutation_nil_r in Hp as ->.
  - assert (x ∈ sorted) as (l1 & l2 & ->)%list_elem_of_split by (rewrite Hp; by left).
    rewrite -Permutation_middle in Hp. apply Permutation_cons_inv in Hp.
    assert (StronglySorted lt (l1 ++ l2) /\ forall y, y ∈ l1 -> y < x) as [Hs' Hlt].
    { clear -Hs. induction l1 as [|y l1 IH]; simpl in *.
      - apply StronglySorted_inv in Hs as [Hs _]. split; [done|]. by intros y ?%not_elem_of_nil.
      - apply StronglySorted_inv in Hs as [Hs Hf]. destruct (IH Hs) as [IH1 IH2]. apply Forall_app in Hf as [Hf1 Hf2].
        apply Forall_cons in Hf2 as [Hyx Hf2]. split; [constructor; [done|apply Forall_app; by split]|].
        intros z [->|Hz]%elem_of_cons; [done|by apply IH2]. }
    assert (keeps_conflicts order) as Hk'.
    { intros i j a b xx yy Hij Hi Hj. apply (Hk (S i) (S j)); [lia|done|done]. }
    assert (forall z, pick (x :: z) = match block !! x with Some i => i :: pick z | None => pick z end) as Hcons by done.
    rw Hcons. destruct (block !! x) as [ix|] eqn:Hx.
    + transitivity (runs (ix :: pick l1 ++ pick l2) s t).
      * rw omap_app Hcons. apply runs_front. intros y (a & Ha & Hya)%list_elem_of_omap.
        assert (a ∈ order) as [j Hj]%list_elem_of_lookup by (rewrite -Hp; apply elem_of_app; by left).
        apply (Hk 0 (S j) a x y ix); [lia|done|done|by apply Hlt|done|done].
      * apply runs_cons_equiv. intros s' t'. rewrite -omap_app. by apply IH.
    + rw omap_app Hcons -omap_app. by apply IH.
Qed.

Lemma pick_seq : pick (seq 0 (length block)) = block.
Proof.
  cut (forall k l, (forall i, l !! i = block !! (k + i)) -> pick (seq k (length l)) = l).
  { intros Hc. by apply (Hc 0 block). }
  intros k l. revert k. induction l as [|x l IH]; intros k Hl; [done|]. simpl.
  assert (block !! k = Some x) as -> by (rewrite -(Nat.add_0_r k) -Hl; done). f_equal. apply (IH (S k)).
  intros i. pose proof (Hl (S i)) as Hx. simpl in Hx. rewrite Hx. f_equal. lia.
Qed.

Lemma sorted_seq k n : StronglySorted lt (seq k n).
Proof.
  revert k. induction n as [|n IH]; intros k; [constructor|]. simpl. constructor; [done|].
  apply Forall_forall. intros x Hx%elem_of_seq. lia.
Qed.

Lemma pick_reordered order : order ≡ₚ seq 0 (length block) -> keeps_conflicts order -> reordered block (pick order).
Proof.
  intros Hp Hk. split.
  - transitivity (pick (seq 0 (length block))); [by rewrite pick_seq|]. by rewrite Hp.
  - intros s t. pose proof (pick_runs order (seq 0 (length block))) as Hr. rewrite pick_seq in Hr.
    apply Hr; [by rewrite Hp|apply sorted_seq|done].
Qed.

(** A schedule of the block's graph keeps conflicting instructions in order. *)
Lemma schedules_keeps nodes order : length nodes = length block -> dag nodes -> schedules nodes order ->
  (forall a b x y, a < b -> block !! a = Some x -> block !! b = Some y -> conflict x y -> tc (dep nodes) a b) ->
  order ≡ₚ seq 0 (length block) /\ keeps_conflicts order.
Proof.
  intros Hlen Hdag (Hnd & Hin & Hafter) Hpath. split.
  - apply NoDup_Permutation; [done|apply NoDup_seq|]. intros x. rw Hin Hlen elem_of_seq. lia.
  - intros i j a b x y Hij Hi Hj Hab Ha Hb Hc. specialize (Hpath a b x y Hab Ha Hb Hc).
    assert (forall a b, tc (dep nodes) a b -> forall j, order !! j = Some b -> exists i, i < j /\ order !! i = Some a) as Htc.
    { intros a' b' Htc. induction Htc as [u v Huv|u v w Huv _ IH]; intros k Hk; [by apply (Hafter k v u)|].
      destruct (IH k Hk) as (k1 & ? & Hk1). destruct (Hafter k1 v u Hk1 Huv) as (k2 & ? & Hk2). exists k2. split; [lia|done]. }
    destruct (Htc a b Hpath i Hi) as (k & Hki & Hk). assert (k = j) as -> by by eapply NoDup_lookup. lia.
Qed.
End Order.

(** ** One block *)

Lemma reordered_refl l : reordered l l.
Proof. done. Qed.

Lemma function_reordered_refl l : function_reordered l l.
Proof.
  cut (exists p block, l = p ++ block /\ blocks_reordered p p /\ Forall (fun i => is_barrier i = false) block).
  { intros (p & block & -> & Hp & Hb). by exists p, p, block, block. }
  induction l as [|x l (p & block & -> & Hp & Hb)] using rev_ind.
  - exists [], []. split_and!; [done|constructor|constructor].
  - destruct (is_barrier x) eqn:Hx.
    + exists (p ++ block ++ [x]), []. split_and!; [by rw -!app_assoc app_nil_r| |constructor]. by constructor.
    + exists p, (block ++ [x]). split_and!; [by rw app_assoc|done|]. apply Forall_app. split; [done|by apply Forall_singleton].
Qed.

(** The destinations [record_block_permutation] records for a block. *)
Definition places (start : nat) (order : list nat) (dest : list nat) : Prop :=
  forall k o, order !! k = Some o -> dest !! (start + o) = Some (start + k).

Lemma place_all start order : forall dest, NoDup order -> Forall (fun o => start + o < length dest) order ->
  exists dest', fold_opt (fun destination '(new_offset, old_offset) =>
      _ ← destination !! (start + old_offset); Some (<[start + old_offset := start + new_offset]> destination))
      dest (imap pair order) = Some dest' /\ length dest' = length dest /\ places start order dest' /\
    forall i, (forall o, o ∈ order -> i <> start + o) -> dest' !! i = dest !! i.
Proof.
  cut (forall k dest, NoDup order -> Forall (fun o => start + o < length dest) order ->
    exists dest', fold_opt (fun destination '(new_offset, old_offset) =>
      _ ← destination !! (start + old_offset); Some (<[start + old_offset := start + new_offset]> destination))
      dest (imap (fun j => pair (k + j)) order) = Some dest' /\ length dest' = length dest /\
    (forall j o, order !! j = Some o -> dest' !! (start + o) = Some (start + (k + j))) /\
    forall i, (forall o, o ∈ order -> i <> start + o) -> dest' !! i = dest !! i).
  { intros Hc dest. apply (Hc 0 dest). }
  induction order as [|o order IH]; intros k dest Hnd Hf.
  - exists dest. by split_and!.
  - apply NoDup_cons in Hnd as [Ho Hnd]. apply Forall_cons in Hf as [Hlt Hf].
    assert (imap (fun j => pair (k + j)) (o :: order) = (k, o) :: imap (fun j => pair (S k + j)) order) as ->.
    { simpl. f_equal; [by rw Nat.add_0_r|]. apply imap_ext. intros i x _. simpl. f_equal. lia. }
    cbn [fold_opt]. destruct (lookup_lt_is_Some_2 dest _ Hlt) as [d Hd]. rw Hd. cbn [mbind option_bind].
    destruct (IH (S k) (<[start + o:=start + k]> dest) Hnd) as (dest' & -> & Hl & Hp & Hother); [by rw length_insert|].
    exists dest'. rw length_insert in Hl *. split_and!; [done|done| |].
    + intros [|j] x Hj; simpl in Hj.
      * injection Hj as <-. rw Hother; [rw list_lookup_insert_eq // Nat.add_0_r //|]. intros y Hy. assert (y <> o) by (by intros ->). lia.
      * rw (Hp j x Hj). f_equal. lia.
    + intros i Hi. rw Hother; [|intros y Hy; apply Hi; by right]. rw list_lookup_insert_ne //. intros Heq. by apply (Hi o); [left|].
Qed.

(** A block is reordered, and nothing outside it moves. *)
Lemma record_block_ok instructions start stop dest regs : start <= stop <= length instructions ->
  length dest = length instructions -> (forall i, start <= i < stop -> dest !! i = Some i) ->
  Forall (fun i => (0 <= latency_of i)%Z) instructions -> (sumZ latency_of instructions < 2 ^ 32)%Z ->
  let block := take (stop - start) (drop start instructions) in
  exists dest' regs' order, record_block_permutation instructions start stop (dest, regs) = Some (dest', regs') /\
    length dest' = length instructions /\ (forall i, i < start \/ stop <= i -> dest' !! i = dest !! i) /\
    order ≡ₚ seq 0 (length block) /\ keeps_conflicts block order /\ places start order dest'.
Proof.
  intros Hrange Hlen Hid Hpos Hsum block. assert (length block = stop - start) as Hbl by (subst block; rw length_take length_drop; lia).
  rw /record_block_permutation. destruct (Nat.ltb_spec stop start) as [|_]; [lia|].
  destruct (Nat.leb_spec (stop - start) 2) as [_|_].
  - exists dest, regs, (seq 0 (length block)). split_and!; [done|done|done|done| |].
    + intros i j a b x y Hij Hi Hj. apply lookup_seq in Hi as [-> _]. apply lookup_seq in Hj as [-> _]. lia.
    + intros k o Hk. apply lookup_seq in Hk as [-> Hk]. apply Hid. lia.
  - fold block. destruct (build_ok block regs) as (nodes & regs' & -> & Hdag & Hlat & Hpath). cbn [mbind option_bind].
    assert (length nodes = length block) as Hnl by (rewrite -(length_fmap latency) Hlat length_fmap; done).
    assert (Forall (fun i => (0 <= latency_of i)%Z) block) as Hposb by by apply Forall_take, Forall_drop.
    assert (Forall (fun node => (0 <= latency node)%Z) nodes) as Hposn.
    { apply Forall_lookup. intros i node Hi. assert ((latency_of <$> block) !! i = Some (latency node)) as Hb by (rewrite -Hlat list_lookup_fmap Hi; done).
      rewrite list_lookup_fmap in Hb. apply fmap_Some in Hb as (x & Hx & ->). rewrite Forall_lookup in Hposb. by eapply Hposb. }
    assert (sumZ latency nodes < 2 ^ 32)%Z as Hsumb.
    { assert (sumZ latency nodes = sumZ latency_of block) as ->.
      { clear -Hlat. revert nodes Hlat. induction block as [|x l IH]; intros [|y nodes] Hlat; try done. injection Hlat as Hx Hl. simpl.
        by rewrite Hx (IH nodes Hl). }
      pose proof (sumZ_drop latency_of _ start Hpos). pose proof (sumZ_take latency_of _ (stop - start) (Forall_drop _ start _ Hpos)) as Ht.
      fold block in Ht. lia. }
    destruct (priorities_ok nodes Hdag Hposn Hsumb) as (nodes' & -> & Hs). cbn [mbind option_bind].
    pose proof (same_graph_dag _ _ Hs Hdag) as Hdag'. pose proof (Forall2_length _ _ _ Hs) as Hnl'.
    destruct (schedule_block_ok nodes' Hdag') as (order & -> & Hsch). cbn [mbind option_bind].
    destruct (schedules_keeps block nodes' order) as [Hperm Hkeep]; [congruence|done|done| |].
    { intros a b x y Hab Ha Hb Hc. eapply (tc_congruence id); [|exact (Hpath a b x y Hab Ha Hb Hc)]. intros u v. apply same_graph_dep, Hs. }
    assert (forall o, o ∈ order -> o < stop - start) as Hob by (intros o; rw Hperm elem_of_seq Hbl; lia).
    destruct (place_all start order dest) as (dest' & -> & Hl & Hp & Hother).
    { rewrite Hperm. apply NoDup_seq. }
    { apply Forall_forall. intros o Ho. specialize (Hob o Ho). lia. }
    cbn [mbind option_bind]. exists dest', regs', order. split_and!; [done|congruence| |done|done|done].
    intros i Hi. apply Hother. intros o Ho%Hob. lia.
Qed.

(** ** The driver *)

Arguments record_block_permutation : simpl never.

(** Reading a block in the listed order. *)
Lemma pick_lookup (block : list Inst) order : Forall (fun o => o < length block) order ->
  length (omap (fun i => block !! i) order) = length order /\
  forall k o, order !! k = Some o -> omap (fun i => block !! i) order !! k = block !! o.
Proof.
  induction 1 as [|o order [x Hx]%lookup_lt_is_Some_2 Hf [IHl IHk]]; [done|]. simpl. rw Hx. split; [simpl; f_equal; exact IHl|].
  intros [|k] o' Hk; simpl in Hk |- *; [congruence|]. by apply IHk.
Qed.

(** The destinations of the positions in [[start, stop)] are these positions. *)
Lemma places_perm start n order dest : order ≡ₚ seq 0 n -> places start order dest -> start + n <= length dest ->
  take n (drop start dest) ≡ₚ seq start n.
Proof.
  intros Hp Hpl Hle. assert (length (take n (drop start dest)) = n) as Hl by (rw length_take length_drop; lia).
  symmetry. apply submseteq_length_Permutation; [|rw length_seq Hl; lia].
  apply NoDup_submseteq; [apply NoDup_seq|]. intros x Hx%elem_of_seq.
  destruct (lookup_lt_is_Some_2 order (x - start)) as [o Ho]; [rewrite Hp length_seq; lia|].
  assert (o < n) as Hon by (apply list_elem_of_lookup_2 in Ho; rewrite Hp in Ho; apply elem_of_seq in Ho; lia).
  apply list_elem_of_lookup. exists o. rw lookup_take_lt // lookup_drop (Hpl _ _ Ho). f_equal. lia.
Qed.

Section Driver.
Context (instructions : list Inst).
Notation n := (length instructions).
Context (Hpos : Forall (fun i => (0 <= latency_of i)%Z) instructions) (Hsum : (sumZ latency_of instructions < 2 ^ 32)%Z).

(** [o] is the start of the result that the destinations below [bs] give. *)
Definition realizes (bs : nat) (dest : list nat) (o : list Inst) : Prop :=
  length o = bs /\ take bs dest ≡ₚ seq 0 bs /\ forall i d, i < bs -> dest !! i = Some d -> o !! d = instructions !! i.

Record driver_inv (k : nat) (st : driver_state) : Prop := {
  di_start : st.1 <= k <= n;
  di_open : Forall (fun i => is_barrier i = false) (take (k - st.1) (drop st.1 instructions));
  di_len : length st.2.1 = n;
  di_rest : forall i, st.1 <= i < n -> st.2.1 !! i = Some i;
  di_done : exists o, realizes st.1 st.2.1 o /\ blocks_reordered (take st.1 instructions) o;
}.

(** Ending a block at [k]. *)
Lemma end_block bs dest regs k : driver_inv k (bs, (dest, regs)) ->
  exists dest' regs' block' o, record_block_permutation instructions bs k (dest, regs) = Some (dest', regs') /\
    length dest' = n /\ (forall i, k <= i < n -> dest' !! i = Some i) /\
    realizes k dest' (o ++ block') /\ blocks_reordered (take bs instructions) o /\
    reordered (take (k - bs) (drop bs instructions)) block'.
Proof using Hpos Hsum.
  intros [Hst Hopen Hlen Hrest (o & (Hlo & Hpo & Ho) & Hbr)]. simpl in *.
  destruct (record_block_ok instructions bs k dest regs) as (dest' & regs' & order & Hrec & Hlen' & Hout & Hperm & Hkeep & Hpl);
    [done|done|intros i Hi; apply Hrest; lia|done|done|].
  set (block := take (k - bs) (drop bs instructions)) in *. assert (length block = k - bs) as Hbl by (subst block; rw length_take length_drop; lia).
  destruct (pick_lookup block order) as [Hpkl Hpk]; [rewrite Hperm; apply Forall_forall; intros x Hx%elem_of_seq; lia|].
  assert (length order = k - bs) as Hol by (rewrite Hperm length_seq; done).
  exists dest', regs', (omap (fun i => block !! i) order), o. split_and!; [done|done| | |done|by apply pick_reordered].
  - intros i Hi. rw Hout; [apply Hrest; lia|lia].
  - split_and!.
    + rw length_app Hpkl Hol Hlo. lia.
    + assert (take k dest' = take bs dest ++ take (k - bs) (drop bs dest')) as ->.
      { replace k with (bs + (k - bs)) at 1 by lia. rewrite -take_take_drop. f_equal. apply list_eq. intros i.
        destruct (decide (i < bs)); [rw !lookup_take_lt // Hout //; by left|]. rw !lookup_take_ge //; lia. }
      rewrite Hpo (places_perm bs (k - bs) order dest'); [|rewrite -Hbl; done|done|lia].
      replace k with (bs + (k - bs)) at 2 by lia. by rewrite seq_app.
    + intros i d Hi Hd. destruct (decide (i < bs)) as [Hib|Hib].
      * rw Hout in Hd *; [|by left]. assert (d ∈ take bs dest) as Hin by (apply list_elem_of_lookup; exists i; by rw lookup_take_lt).
        rewrite Hpo in Hin. apply elem_of_seq in Hin. rw lookup_app_l; [by apply Ho|lia].
      * assert (exists kk, order !! kk = Some (i - bs)) as [kk Hkk].
        { apply list_elem_of_lookup. rewrite Hperm. apply elem_of_seq. lia. }
        pose proof (Hpl _ _ Hkk) as Hd'. replace (bs + (i - bs)) with i in Hd' by lia. assert (d = bs + kk) as -> by congruence.
        rw lookup_app_r; [|lia]. replace (bs + kk - length o) with kk by lia. rw (Hpk _ _ Hkk) /block lookup_take_lt; [|lia].
        rw lookup_drop. f_equal. lia.
Qed.

Lemma take_block bs k : bs <= k -> take k instructions = take bs instructions ++ take (k - bs) (drop bs instructions).
Proof. intros Hle. replace k with (bs + (k - bs)) at 1 by lia. by rewrite take_take_drop. Qed.

Lemma visit_end_ok k st : k < n -> driver_inv k st -> exists st', visit_end instructions st k = Some st' /\ driver_inv (S k) st'.
Proof using Hpos Hsum.
  intros Hk Hinv. destruct st as [bs [dest regs]]. destruct (lookup_lt_is_Some_2 instructions k Hk) as [x Hx].
  pose proof Hinv as [Hst Hopen Hlen Hrest (o0 & Hreal0 & Hbr0)]. simpl in *. rw /visit_end Hx. cbn [mbind option_bind].
  destruct (is_barrier x) eqn:Hb; cbn [negb].
  - destruct (end_block bs dest regs k Hinv) as (dest' & regs' & block' & o & -> & Hlen' & Hrest' & (Hlo & Hpo & Ho) & Hbr & Hre).
    cbn [mbind option_bind]. eexists. split; [reflexivity|]. split; simpl.
    + lia.
    + by rw Nat.sub_diag.
    + done.
    + intros i Hi. apply Hrest'. lia.
    + exists ((o ++ block') ++ [x]). split.
      * split_and!.
        -- rw length_app Hlo /=. lia.
        -- rewrite (take_S_r _ _ k); [|apply Hrest'; lia]. rewrite Hpo seq_S. done.
        -- intros i d Hi Hd. destruct (decide (i = k)) as [->|Hne].
           ++ rw Hrest' in Hd *; [|lia]. injection Hd as <-. rw lookup_app_r; [|lia]. by rw Hlo Nat.sub_diag Hx.
           ++ assert (d ∈ take k dest') as Hin by (apply list_elem_of_lookup; exists i; rw lookup_take_lt //; lia).
              rewrite Hpo in Hin. apply elem_of_seq in Hin. rw lookup_app_l; [|lia]. apply Ho; [lia|done].
      * rw (take_S_r _ _ _ Hx) (take_block bs k); [|lia]. rewrite -!app_assoc. by constructor.
  - eexists. split; [reflexivity|]. split; simpl; [lia| |done|done|by exists o0].
    replace (S k - bs) with (S (k - bs)) by lia. rewrite (take_S_r _ _ x); [|rw lookup_drop; by replace (bs + (k - bs)) with k by lia].
    apply Forall_app. split; [done|by apply Forall_singleton].
Qed.

Lemma schedule_ok : exists out, schedule_instructions instructions = Some out /\ function_reordered instructions out.
Proof using Hpos Hsum.
  rw /schedule_instructions. destruct (Nat.ltb_spec n 3) as [_|_]; [exists instructions; split; [done|apply function_reordered_refl]|].
  assert (forall k, k <= n -> exists st, fold_opt (visit_end instructions) (0, (seq 0 n, tracker_new)) (seq 0 k) = Some st /\ driver_inv k st) as Hk.
  { induction k as [|k IH]; intros Hle.
    - eexists. split; [reflexivity|]. split; simpl; [lia|done|by rw length_seq|intros i Hi; apply lookup_seq; lia|].
      exists []. split; [|constructor]. split_and!; [done|done|lia].
    - destruct IH as (st & Hst & Hi); [lia|]. destruct (visit_end_ok k st Hle Hi) as (st' & Hst' & Hi'). exists st'. split; [|done].
      rw seq_S fold_opt_app Hst /= Hst'. done. }
  destruct (Hk n ltac:(lia)) as ([bs [dest regs]] & -> & Hinv). cbn [mbind option_bind].
  assert (exists dest' regs' o, (if bs <? n then record_block_permutation instructions bs n (dest, regs) else Some (dest, regs)) = Some (dest', regs') /\
    length dest' = n /\ realizes n dest' o /\ function_reordered instructions o) as (dest' & regs' & o & -> & Hlen & (Hlo & Hpo & Ho) & Hfr).
  { pose proof Hinv as [Hst Hopen Hlen Hrest (o0 & Hreal0 & Hbr0)]. simpl in *. destruct (Nat.ltb_spec bs n) as [Hlt|Hge].
    - destruct (end_block bs dest regs n Hinv) as (dest' & regs' & block' & o & Hrec & Hlen' & Hrest' & Hreal & Hbr & Hre).
      exists dest', regs', (o ++ block'). split_and!; [done..|]. exists (take bs instructions), o, (take (n - bs) (drop bs instructions)), block'.
      split_and!; [|done..]. rewrite -take_block; [|lia]. by rewrite firstn_all.
    - assert (bs = n) as -> by lia. exists dest, regs, o0. split_and!; [done..|]. exists instructions, o0, [], [].
      rw firstn_all in Hbr0 *. by rw !app_nil_r. }
  cbn [mbind option_bind]. rewrite firstn_all2 in Hpo; [|lia].
  destruct (apply_permutation_ok n instructions dest' eq_refl) as (out & -> & Hlout & Hout).
  { split_and!; [done|rewrite Hpo; apply NoDup_seq|rewrite Hpo; apply Forall_forall; intros x Hx%elem_of_seq; lia]. }
  exists out. split; [done|]. assert (out = o) as ->; [|done]. apply list_eq. intros d.
  destruct (decide (d < n)) as [Hd|Hd]; [|rw !lookup_ge_None_2 //; lia].
  assert (d ∈ dest') as [i Hi]%list_elem_of_lookup by (rewrite Hpo; apply elem_of_seq; lia).
  rw (Hout i d Hi) (Ho i d) //. apply lookup_lt_Some in Hi. lia.
Qed.
End Driver.
End Meaning.

(** ** Property *)

(** C8.  Scheduling keeps the meaning of every function: on instructions
    whose latencies fit a [u32] in total no index or counter of the scheduler
    fails and all its loops end; every barrier stays where it is, and each
    block between barriers is a permutation of the original block with
    exactly the original's executions - from any machine state, whatever the
    instructions do in the locations they report, clobbered registers, flags
    and memory included. *)
Theorem schedule_sound `{InstEffect Inst Reg V} (instructions : list Inst)
    (Hpos : Forall (fun i => (0 <= latency_of i)%Z) instructions) (Hsum : (sumZ latency_of instructions < 2 ^ 32)%Z) :
  exists out, schedule_instructions instructions = Some out /\ function_reordered instructions out.
Proof. by apply schedule_ok. Qed.

(** ** Witness *)

(** A machine whose instructions are their facts: every written location gets
    the sum of what is read. *)
Record toy := mkToy { t_reads : list nat; t_writes : list nat; t_memory : bool; t_flags : bool; t_barrier : bool; t_latency : Z }.
#[local] Instance toy_adapter : SchedulerAdapter toy nat := {|
  reg_class := fun _ => Gp; reg_index := fun r => r; latency_of := t_latency; is_barrier := t_barrier;
  accesses_memory := t_memory; regs_read := t_reads; regs_written := t_writes; clobbers := fun _ => [];
  writes_flags := t_flags; reads_flags := fun _ => false
|}.
Definition toy_out (i : toy) (s : Loc -> Z) : Z := foldr (fun l acc => (s l + acc)%Z) 1%Z (reads_at i).
#[local] Program Instance toy_effect : InstEffect toy nat Z := {| effect := fun i s out => forall l, out l = toy_out i s |}.
Next Obligation.
  intros i s s' out Hs Ho l. rewrite Ho /toy_out. clear Ho. induction (reads_at i) as [|x ls IH]; [done|]. simpl.
  rewrite Hs; [|by left]. f_equal. apply IH. intros y Hy. apply Hs. by right.
Qed.

(** A load feeding an addition, an independent chain, and a jump. *)
Definition toy_code : list toy := [
  mkToy [9] [0] true false false 4; mkToy [0] [1] false true false 1; mkToy [] [2] false false false 1;
  mkToy [2] [3] false false false 3; mkToy [] [] false false true 1; mkToy [3] [4] true false false 1].

Lemma schedule_sound_witness :
  exists out, schedule_instructions toy_code = Some out /\
    (t_writes <$> out) = [[0]; [2]; [3]; [1]; []; [4]] /\ function_reordered (V := Z) toy_code out.
Proof.
  destruct (schedule_sound (V := Z) toy_code) as (out & Ho & Hr).
  - repeat (constructor; [vm_compute; discriminate|]). constructor.
  - vm_compute. reflexivity.
  - exists out. split; [exact Ho|]. split; [|exact Hr]. vm_compute in Ho. injection Ho as <-. reflexivity.
Defined.
