(* ===== verification/Live.v ===== *)
(** * Liveness analysis

    [crates/rue-codegen/src/liveness.rs], with the result types of
    [regalloc.rs] and [reg_class.rs]: the block partition, the sparse working
    sets, the block-level dataflow, live ranges, divergence and loop depths, as
    both back ends use them through their adapter.  [None] is a failed assertion
    or index, or a loop that outlives its fuel; capacities of inline lists are
    the adapter's concern. *)

From stdpp Require Import gmap sorting.
From S2P Require Import Prelude Csr Sched.
Import Machine.

Notation VReg := nat (only parsing).
Notation LabelId := nat (only parsing).

(** What a back end reports of its instructions. *)
Class LivenessAdapter (Inst Reg : Type) := {
  label : Inst -> option LabelId;
  successors : nat -> Inst -> gmap LabelId nat -> list nat;
  uses : Inst -> list VReg;
  defs : Inst -> list VReg;
  clobbers : Inst -> list Reg;
  is_non_returning : Inst -> bool;
}.

(** The successor lists adapters are made of. *)
Definition fallthrough_successor (idx num_insts : nat) : list nat := if idx + 1 <? num_insts then [idx + 1] else [].
Definition branch_successor (label : LabelId) (label_to_idx : gmap LabelId nat) : list nat :=
  match label_to_idx !! label with Some target => [target] | None => [] end.
Definition conditional_successors (idx : nat) (label : LabelId) (label_to_idx : gmap LabelId nat) (num_insts : nat) : list nat :=
  fallthrough_successor idx num_insts ++ branch_successor label label_to_idx.

(** ** Results *)

Record LiveRange := mkRange { r_start : nat; r_end : nat }.
Definition overlaps (a b : LiveRange) : bool := (r_start a <=? r_end b) && (r_start b <=? r_end a).

Record LivenessInfo (Reg : Type) := mkInfo {
  ranges : list (option LiveRange);
  clobbers_at : list (list Reg);
  non_returning_at : list bool;
  diverging_at : list bool;
  diverging_uses : list bool;
  vreg_classes : list RegClass;
}.
Arguments mkInfo {_}.
Arguments ranges {_}.
Arguments clobbers_at {_}.
Arguments non_returning_at {_}.
Arguments diverging_at {_}.
Arguments diverging_uses {_}.
Arguments vreg_classes {_}.

Record InstructionLiveness := mkRow {
  il_index : nat;
  il_live_in : list VReg;
  il_live_out : list VReg;
  il_defs : list VReg;
  il_uses : list VReg;
}.
Record LivenessDebugInfo := mkDebug {
  dbg_instructions : list InstructionLiveness;
  dbg_live_ranges : list (option LiveRange);
  dbg_vreg_count : nat;
}.

(** ** Loop depths *)

Record LoopInfo := mkLoops {
  depths : list Z;
  max_depth : Z;
  run_starts : list nat;
  run_max : list (list Z);
}.
Definition no_loops (instruction_count : nat) : LoopInfo := mkLoops (replicate instruction_count 0%Z) 0 [] [].

(** The runs of equal depth: their first indices and their depths. *)
Definition push_run (ds : list Z) (st : list nat * list Z) (e : nat * Z) : option (list nat * list Z) :=
  let '(index, depth) := e in
  fresh ← match index with O => Some true | S before => d ← ds !! before; Some (bool_decide (depth <> d)) end;
  Some (if (fresh : bool) then (st.1 ++ [index], st.2 ++ [depth]) else st).

(** One level of the sparse table above [previous]: windows of [span] runs. *)
Definition next_level (runs span : nat) (previous : list Z) : option (list Z) :=
  mapM (fun index => a ← previous !! index; b ← previous !! (index + span / 2); Some (a `max` b)%Z) (seq 0 (runs + 1 - span)).
Definition push_level (runs : nat) (table : list (list Z)) (level : nat) : option (list (list Z)) :=
  previous ← table !! (level - 1); current ← next_level runs (2 ^ level) previous; Some (table ++ [current]).

(** [usize::BITS - runs.leading_zeros()]: the bit length. *)
Definition bit_length (x : nat) : nat := match x with O => 0 | _ => S (Nat.log2 x) end.

Definition from_depths (ds : list Z) : option LoopInfo :=
  let md := fold_left Z.max ds 0%Z in
  if (md =? 0)%Z then Some (mkLoops ds md [] []) else
  '(starts, run_depths) ← fold_opt (push_run ds) ([], []) (imap pair ds);
  let runs := length run_depths in
  table ← fold_opt (push_level runs) [run_depths] (seq 1 (bit_length runs - 1));
  Some (mkLoops ds md starts table).

Definition depth (l : LoopInfo) (inst_idx : nat) : Z := default 0%Z (depths l !! inst_idx).

(** [partition_point(|&start| start <= inst_idx) - 1] on the sorted starts. *)
Definition run_of (l : LoopInfo) (inst_idx : nat) : option nat :=
  match length (filter (fun start => start <= inst_idx) (run_starts l)) with O => None | S k => Some k end.

Definition max_depth_in_range (l : LoopInfo) (start end_ : nat) : option Z :=
  if (max_depth l =? 0)%Z then Some 0%Z else
  if (end_ <? start) || (length (depths l) <=? start) then Some 0%Z else
  let end_ := end_ `min` (length (depths l) - 1) in
  first ← run_of l start;
  last ← run_of l end_;
  let len := last - first + 1 in
  let level := bit_length len - 1 in
  table ← run_max l !! level;
  a ← table !! first;
  b ← table !! (last + 1 - 2 ^ level);
  Some (a `max` b)%Z.

Definition add_delta (ds : list Z) (e : nat * Z) : option (list Z) :=
  d ← ds !! e.1; Some (<[e.1 := (d + e.2)%Z]> ds).
Definition loop_edge (from : nat) (deltas : list Z) (to : nat) : option (list Z) :=
  if from <? to then Some deltas else
  deltas ← add_delta deltas (to, 1%Z); add_delta deltas (S from, (-1)%Z).

(** [u32::try_from(enclosing).unwrap_or(u32::MAX)]. *)
Definition saturated (enclosing : Z) : Z := default u32_max (checked_u 32 enclosing).
Definition depth_step (st : Z * list Z) (delta : Z) : Z * list Z :=
  let enclosing := (st.1 + delta)%Z in (enclosing, st.2 ++ [saturated enclosing]).

Definition compute_loop_info (num_insts : nat) (succs : list (list nat)) : option LoopInfo :=
  if num_insts =? 0 then Some (no_loops 0) else
  deltas ← fold_opt (fun deltas e => fold_opt (loop_edge e.1) deltas e.2) (replicate (num_insts + 1) 0%Z) (imap pair succs);
  from_depths (fold_left depth_step (take num_insts deltas) (0%Z, [])).2.

(** ** Blocks *)

Record BlockPartition := mkPartition { starts : list nat; block_of : list nat }.
Definition blocks_len (p : BlockPartition) : nat := length (starts p) - 1.
Definition span_of (p : BlockPartition) (block : nat) : option (nat * nat) :=
  s ← starts p !! block; e ← starts p !! S block; Some (s, e - 1).
Definition of_inst (p : BlockPartition) (inst : nat) : option nat := block_of p !! inst.

Definition mark_leader (leaders : list bool) (idx : nat) : option (list bool) :=
  _ ← leaders !! idx; Some (<[idx := true]> leaders).
Definition leader_row (num_insts : nat) (leaders : list bool) (e : nat * list nat) : option (list bool) :=
  let '(idx, succs) := e in
  let falls_through := bool_decide (succs = [idx + 1]) in
  leaders ← if negb falls_through && (idx + 1 <? num_insts) then mark_leader leaders (idx + 1) else Some leaders;
  fold_opt (fun leaders succ => if succ =? idx + 1 then Some leaders else mark_leader leaders succ) leaders succs.
Definition open_block (st : list nat * list nat) (e : nat * bool) : list nat * list nat :=
  let starts := if e.2 then st.1 ++ [e.1] else st.1 in (starts, st.2 ++ [length starts - 1]).

Definition partition_blocks (num_insts : nat) (succs : list (list nat)) : option BlockPartition :=
  if negb (0 <? num_insts) || negb (Z.of_nat num_insts <=? u32_max)%Z then None else
  leaders ← fold_opt (leader_row num_insts) (<[0 := true]> (replicate num_insts false)) (imap pair succs);
  let '(starts, block_of) := fold_left open_block (imap pair leaders) ([], []) in
  Some (mkPartition (starts ++ [num_insts]) block_of).

(** ** Working sets *)

Record WorkingLiveSet := mkSet { members : list VReg; positions : list nat }.
Definition with_width (width : nat) : WorkingLiveSet := mkSet [] (replicate width 0).

Definition contains (s : WorkingLiveSet) (vreg : VReg) : option bool :=
  position ← positions s !! vreg; Some (bool_decide (members s !! position = Some vreg)).
Definition insert_live (s : WorkingLiveSet) (vreg : VReg) : option WorkingLiveSet :=
  c ← contains s vreg;
  Some (if (c : bool) then s else mkSet (members s ++ [vreg]) (<[vreg := length (members s)]> (positions s))).
(** [Vec::swap_remove]. *)
Definition swap_remove (l : list VReg) (position : nat) : list VReg :=
  match last l with Some x => take (length l - 1) (<[position := x]> l) | None => l end.
Definition remove_live (s : WorkingLiveSet) (vreg : VReg) : option WorkingLiveSet :=
  c ← contains s vreg;
  if (c : bool) then
    position ← positions s !! vreg;
    let members := swap_remove (members s) position in
    match members !! position with
    | Some moved => _ ← positions s !! moved; Some (mkSet members (<[moved := position]> (positions s)))
    | None => Some (mkSet members (positions s))
    end
  else Some s.
Definition clear_live (s : WorkingLiveSet) : WorkingLiveSet := mkSet [] (positions s).
Definition union_from (s : WorkingLiveSet) (other : list VReg) : option WorkingLiveSet := fold_opt insert_live s other.

(** [Iterator::all] stops at the first failure. *)
Fixpoint all_opt {A} (p : A -> option bool) (l : list A) : option bool :=
  match l with
  | [] => Some true
  | a :: l => b ← p a; if (b : bool) then all_opt p l else Some false
  end.
Definition matches_solved (s : WorkingLiveSet) (solved : list VReg) : option bool :=
  if length solved =? length (members s) then all_opt (contains s) solved else Some false.
Definition publish (s : WorkingLiveSet) : list VReg := merge_sort le (members s).

(** ** Dataflow *)

Section Analyze.
Context (vreg_count : nat) (succs : list (list nat)) (inst_uses inst_defs : list (list VReg)).

Definition collect_block_live_out (blocks : BlockPartition) (live_in : list (list VReg)) (block : nat) (out : WorkingLiveSet)
    : option WorkingLiveSet :=
  '(_, end_) ← span_of blocks block;
  row ← succs !! end_;
  fold_opt (fun out succ => b ← of_inst blocks succ; l ← live_in !! b; union_from out l) (clear_live out) row.

(** One instruction, backwards. *)
Definition transfer_inst (s : WorkingLiveSet) (idx : nat) : option WorkingLiveSet :=
  ds ← inst_defs !! idx; s ← fold_opt remove_live s ds;
  us ← inst_uses !! idx; fold_opt insert_live s us.

Definition transfer_block (blocks : BlockPartition) (live_in : list (list VReg)) (block : nat) (scratch : WorkingLiveSet)
    : option WorkingLiveSet :=
  '(start, end_) ← span_of blocks block;
  scratch ← collect_block_live_out blocks live_in block scratch;
  fold_opt transfer_inst scratch (rev (seq start (end_ + 1 - start))).

(** The rows are filled through the offsets, which are then moved back. *)
Definition shift_back (os : list nat) (idx : nat) : option (list nat) :=
  o ← os !! (idx - 1); _ ← os !! idx; Some (<[idx := o]> os).
Definition build_predecessor_csr (table : list (list nat)) : option Adjacency :=
  let n := length table in
  counts ← fold_opt (fun os row => fold_opt count_key os row) (replicate (S n) 0) table;
  os ← fold_opt accumulate counts (seq 0 n);
  total ← os !! n;
  '(os, preds) ← fold_opt (fun st source => row ← table !! source; fold_opt (fun st succ => place_at st succ source) st row)
    (os, replicate total 0) (rev (seq 0 n));
  os ← fold_opt shift_back os (rev (seq 1 (n - 1)));
  _ ← os !! 0;
  Some (mkAdjacency (<[0 := 0]> os) preds).

Record solve_state := mkSolve {
  so_live_in : list (list VReg);
  so_scratch : WorkingLiveSet;
  so_queue : list nat;
  so_queued : list bool;
}.

(** [if !queued[p] { queued[p] = true; queue.push_back(p) }]. *)
Definition requeue (st : list nat * list bool) (p : nat) : option (list nat * list bool) :=
  q ← st.2 !! p; Some (if (q : bool) then st else (st.1 ++ [p], <[p := true]> st.2)).

Definition visit_block (blocks : BlockPartition) (preds : Adjacency) (st : solve_state) (block : nat) (queue : list nat)
    : option solve_state :=
  _ ← so_queued st !! block;
  let queued := <[block := false]> (so_queued st) in
  scratch ← transfer_block blocks (so_live_in st) block (so_scratch st);
  solved ← so_live_in st !! block;
  same ← matches_solved scratch solved;
  if (same : bool) then Some (mkSolve (so_live_in st) scratch queue queued) else
  ps ← adj_of preds block;
  '(queue, queued) ← fold_opt requeue (queue, queued) ps;
  Some (mkSolve (<[block := publish scratch]> (so_live_in st)) scratch queue queued).

Fixpoint solve_loop (fuel : nat) (blocks : BlockPartition) (preds : Adjacency) (st : solve_state) : option solve_state :=
  match fuel with
  | O => None
  | S fuel =>
      match so_queue st with
      | [] => Some st
      | block :: queue => st ← visit_block blocks preds st block queue; solve_loop fuel blocks preds st
      end
  end.

(** One reverse sweep, which suffices without back edges. *)
Definition sweep_block (blocks : BlockPartition) (st : list (list VReg) * WorkingLiveSet) (block : nat)
    : option (list (list VReg) * WorkingLiveSet) :=
  scratch ← transfer_block blocks st.1 block st.2;
  _ ← st.1 !! block;
  Some (<[block := publish scratch]> st.1, scratch).

Definition block_successors (blocks : BlockPartition) (block : nat) : option (list nat) :=
  '(_, end_) ← span_of blocks block; row ← succs !! end_; mapM (of_inst blocks) row.

(** Every visit that changes a set adds a register to it and queues its
    predecessors, so the queue is filled at most [vreg_count] times along each
    edge. *)
Definition solve_block_liveness (blocks : BlockPartition) (has_back_edge : bool) : option (list (list VReg)) :=
  let block_count := blocks_len blocks in
  let live_in := replicate block_count [] in
  let scratch := with_width vreg_count in
  if has_back_edge then
    table ← mapM (block_successors blocks) (seq 0 block_count);
    preds ← build_predecessor_csr table;
    st ← solve_loop (S (block_count + vreg_count * length (targets preds))) blocks preds
      (mkSolve live_in scratch (rev (seq 0 block_count)) (replicate block_count true));
    Some (so_live_in st)
  else
    st ← fold_opt (sweep_block blocks) (live_in, scratch) (rev (seq 0 block_count)); Some st.1.

Record BlockLiveness := mkBlockLiveness { bl_blocks : BlockPartition; bl_live_in : list (list VReg) }.

(** ** Ranges *)

Definition extend (ranges : list (option LiveRange)) (e : VReg * nat) : option (list (option LiveRange)) :=
  let '(vreg, idx) := e in
  slot ← ranges !! vreg;
  Some (<[vreg := Some match slot with
    | Some range => mkRange (if idx <? r_start range then idx else r_start range) (if r_end range <? idx then idx else r_end range)
    | None => mkRange idx idx
    end]> ranges).
Definition extend_all (idx : nat) (ranges : list (option LiveRange)) (vregs : list VReg) : option (list (option LiveRange)) :=
  fold_opt (fun ranges vreg => extend ranges (vreg, idx)) ranges vregs.

Definition extend_inst (ranges : list (option LiveRange)) (idx : nat) : option (list (option LiveRange)) :=
  ds ← inst_defs !! idx; ranges ← extend_all idx ranges ds; us ← inst_uses !! idx; extend_all idx ranges us.

Definition extend_block (bl : BlockLiveness) (st : list (option LiveRange) * WorkingLiveSet) (block : nat)
    : option (list (option LiveRange) * WorkingLiveSet) :=
  '(start, end_) ← span_of (bl_blocks bl) block;
  live ← bl_live_in bl !! block;
  ranges ← extend_all start st.1 live;
  out ← collect_block_live_out (bl_blocks bl) (bl_live_in bl) block st.2;
  ranges ← extend_all end_ ranges (members out);
  Some (ranges, out).

Definition build_live_ranges (num_insts : nat) (cyclic : option BlockLiveness) : option (list (option LiveRange)) :=
  ranges ← fold_opt extend_inst (replicate vreg_count None) (seq 0 num_insts);
  match cyclic with
  | None => Some ranges
  | Some bl =>
      st ← fold_opt (extend_block bl) (ranges, with_width vreg_count) (seq 0 (blocks_len (bl_blocks bl))); Some st.1
  end.

(** ** Rows for [--emit liveness] *)

Definition row_of (st : list InstructionLiveness * WorkingLiveSet) (idx : nat) : option (list InstructionLiveness * WorkingLiveSet) :=
  let live_out := members st.2 in
  s ← transfer_inst st.2 idx;
  ds ← inst_defs !! idx;
  us ← inst_uses !! idx;
  Some (st.1 ++ [mkRow idx (members s) live_out ds us], s).
Definition block_rows (bl : BlockLiveness) (st : list InstructionLiveness * WorkingLiveSet) (block : nat)
    : option (list InstructionLiveness * WorkingLiveSet) :=
  '(start, end_) ← span_of (bl_blocks bl) block;
  scratch ← collect_block_live_out (bl_blocks bl) (bl_live_in bl) block st.2;
  '(rows, scratch) ← fold_opt row_of ([], scratch) (rev (seq start (end_ + 1 - start)));
  Some (st.1 ++ rev rows, scratch).
Definition instruction_liveness_rows (num_insts : nat) (bl : BlockLiveness) : option (list InstructionLiveness) :=
  st ← fold_opt (block_rows bl) ([], with_width vreg_count) (seq 0 (blocks_len (bl_blocks bl)));
  if length st.1 =? num_insts then Some st.1 else None.
End Analyze.

(** ** Divergence *)

Definition retire_edge (st : list bool * list nat * list nat) (pred : nat) : option (list bool * list nat * list nat) :=
  let '(diverging, unmarked, worklist) := st in
  d ← diverging !! pred;
  if (d : bool) then Some st else
  k ← unmarked !! pred;
  match k with
  | O => None
  | S k =>
      let unmarked := <[pred := k]> unmarked in
      Some (if k =? 0 then (<[pred := true]> diverging, unmarked, pred :: worklist) else (diverging, unmarked, worklist))
  end.

Fixpoint divergence_loop (fuel : nat) (preds : Adjacency) (st : list bool * list nat * list nat) : option (list bool) :=
  match fuel with
  | O => None
  | S fuel =>
      let '(diverging, unmarked, worklist) := st in
      match worklist with
      | [] => Some diverging
      | idx :: worklist =>
          ps ← adj_of preds idx;
          st ← fold_opt retire_edge (diverging, unmarked, worklist) ps;
          divergence_loop fuel preds st
      end
  end.

(** The worklist is a stack: its seeds are pushed in order, so the last is
    popped first. *)
Definition compute_divergence (succs : list (list nat)) (non_returning : list bool) : option (list bool) :=
  let n := length succs in
  let seeds := omap (fun e => if (e.2 : bool) then Some e.1 else None) (imap pair non_returning) in
  match seeds with
  | [] => Some (replicate n false)
  | _ :: _ =>
      diverging ← fold_opt (fun d idx => _ ← d !! idx; Some (<[idx := true]> d)) (replicate n false) seeds;
      counts ← fold_opt (fun os row => fold_opt count_key os row) (replicate (S n) 0) succs;
      os ← fold_opt accumulate counts (seq 0 n);
      total ← os !! n;
      '(_, preds) ← fold_opt (fun st e => fold_opt (fun st succ => place_at st succ e.1) st e.2) (os, replicate total 0) (imap pair succs);
      divergence_loop (S n) (mkAdjacency os preds) (diverging, length <$> succs, rev seeds)
  end.

Definition mark_use (uses : list bool) (vreg : VReg) : list bool := <[vreg := true]> uses.
Definition collect_diverging_uses (vreg_count : nat) (inst_uses : list (list VReg)) (diverging : list bool) : option (list bool) :=
  fold_opt (fun acc e => d ← diverging !! e.1; Some (if (d : bool) then fold_left mark_use e.2 acc else acc))
    (replicate vreg_count false) (imap pair inst_uses).

(** ** The analysis *)

Definition has_back_edge (succs : list (list nat)) : bool :=
  existsb (fun e => existsb (fun to => to <=? e.1) e.2) (imap pair succs).

Section Adapter.
Context {Inst Reg : Type} `{LivenessAdapter Inst Reg}.

Definition build_label_map (instructions : list Inst) : gmap LabelId nat :=
  fold_left (fun m e => match label e.2 with Some l => <[l := e.1]> m | None => m end) (imap pair instructions) ∅.
Definition build_successor_lists (instructions : list Inst) (label_to_idx : gmap LabelId nat) : list (list nat) :=
  imap (fun idx inst => successors idx inst label_to_idx) instructions.

Definition analyze_inner (instructions : list Inst) (vreg_count : nat) (classes : list RegClass) (collect_debug collect_loops : bool)
    : option (LivenessInfo Reg * option LivenessDebugInfo * option LoopInfo) :=
  let num_insts := length instructions in
  if num_insts =? 0 then
    Some (mkInfo [] [] [] [] [] classes,
          if collect_debug then Some (mkDebug [] [] vreg_count) else None,
          if collect_loops then Some (no_loops 0) else None)
  else
    let succs := build_successor_lists instructions (build_label_map instructions) in
    loop_info ← if collect_loops then l ← compute_loop_info num_insts succs; Some (Some l) else Some None;
    let inst_uses := uses <$> instructions in
    let inst_defs := defs <$> instructions in
    let back := has_back_edge succs in
    block_liveness ←
      if collect_debug || back then
        blocks ← partition_blocks num_insts succs;
        live_in ← solve_block_liveness vreg_count succs inst_uses inst_defs blocks back;
        Some (Some (mkBlockLiveness blocks live_in))
      else Some None;
    ranges ← build_live_ranges vreg_count succs inst_uses inst_defs num_insts (if back then block_liveness else None);
    debug ←
      if collect_debug then
        bl ← block_liveness;
        rows ← instruction_liveness_rows vreg_count succs inst_uses inst_defs num_insts bl;
        Some (Some (mkDebug rows ranges vreg_count))
      else Some None;
    let non_returning := is_non_returning <$> instructions in
    diverging ← compute_divergence succs non_returning;
    diverging_uses ← collect_diverging_uses vreg_count inst_uses diverging;
    Some (mkInfo ranges (clobbers <$> instructions) non_returning diverging diverging_uses classes, debug, loop_info).

Definition analyze (instructions : list Inst) (vreg_count : nat) (classes : list RegClass) : option (LivenessInfo Reg) :=
  r ← analyze_inner instructions vreg_count classes false false; Some r.1.1.
Definition analyze_with_debug (instructions : list Inst) (vreg_count : nat) (classes : list RegClass) : option (LivenessInfo Reg * LivenessDebugInfo) :=
  r ← analyze_inner instructions vreg_count classes true false; d ← r.1.2; Some (r.1.1, d).
(** [analyze_debug] asks for no clobbers and no never-returning calls. *)
Definition quiet_adapter : LivenessAdapter Inst Reg := {|
  label := label; successors := successors; uses := uses; defs := defs; clobbers := fun _ => []; is_non_returning := fun _ => false;
|}.
Definition analyze_with_loops (instructions : list Inst) (vreg_count : nat) (classes : list RegClass) : option (LivenessInfo Reg * LoopInfo) :=
  r ← analyze_inner instructions vreg_count classes false true; l ← r.2; Some (r.1.1, l).
Definition analyze_with_debug_and_loops (instructions : list Inst) (vreg_count : nat) (classes : list RegClass)
    : option (LivenessInfo Reg * LivenessDebugInfo * LoopInfo) :=
  r ← analyze_inner instructions vreg_count classes true true; d ← r.1.2; l ← r.2; Some (r.1.1, d, l).
Definition analyze_loops (instructions : list Inst) : option LoopInfo :=
  let num_insts := length instructions in
  if num_insts =? 0 then Some (no_loops 0) else
  compute_loop_info num_insts (build_successor_lists instructions (build_label_map instructions)).
End Adapter.

Definition analyze_debug {Inst Reg} `{A : LivenessAdapter Inst Reg} (instructions : list Inst) (vreg_count : nat) (classes : list RegClass)
    : option LivenessDebugInfo :=
  r ← @analyze_with_debug Inst Reg quiet_adapter instructions vreg_count classes; Some r.2.
