(* ===== verification/LiveSets.v ===== *)
(** * The working sets of the liveness analysis

    A [WorkingLiveSet] is a list of members with a position table that checks
    itself; it implements finite sets. *)

From stdpp Require Import gmap sorting.
From S2P Require Import Prelude Csr Sched Live.

(** Every member is found through its position. *)
Definition set_ok (width : nat) (s : WorkingLiveSet) : Prop :=
  length (positions s) = width /\ forall i v, members s !! i = Some v -> positions s !! v = Some i.

Definition elts (s : WorkingLiveSet) : gset nat := list_to_set (members s).

Lemma elem_of_elts s v : v ∈ elts s <-> v ∈ members s.
Proof. rw /elts elem_of_list_to_set //. Qed.

Section Sets.
Context (width : nat).
Implicit Types (s : WorkingLiveSet) (v : nat) (l : list nat).

Lemma set_ok_empty : set_ok width (with_width width).
Proof. split; [apply length_replicate|done]. Qed.

Lemma set_ok_clear s : set_ok width s -> set_ok width (clear_live s).
Proof. intros [Hl _]. by split. Qed.

Lemma set_ok_nodup s : set_ok width s -> NoDup (members s).
Proof.
  intros [_ Hp]. apply NoDup_alt. intros i j v Hi Hj. apply Hp in Hi, Hj. congruence.
Qed.

Lemma set_ok_width s v : set_ok width s -> v ∈ members s -> v < width.
Proof.
  intros [<- Hp] [i Hi]%list_elem_of_lookup. apply Hp in Hi. by eapply lookup_lt_Some.
Qed.

Lemma contains_spec s v : set_ok width s -> v < width -> contains s v = Some (bool_decide (v ∈ members s)).
Proof.
  intros [Hl Hp] Hv. rw /contains. destruct (lookup_lt_is_Some_2 (positions s) v) as [p Hpv]; [lia|]. rw Hpv /=.
  f_equal. apply bool_decide_ext. split; [apply list_elem_of_lookup_2|].
  intros [i Hi]%list_elem_of_lookup. by pose proof (Hp _ _ Hi) as Hpi; simplify_eq.
Qed.

Lemma insert_live_spec s v : set_ok width s -> v < width ->
  exists s', insert_live s v = Some s' /\ set_ok width s' /\ elts s' = {[v]} ∪ elts s.
Proof.
  intros Hs Hv. rw /insert_live (contains_spec s v Hs Hv) /=. case_bool_decide as Hin.
  { exists s. split_and!; [done..|]. apply elem_of_elts in Hin. set_solver. }
  destruct Hs as [Hl Hp]. eexists. split; [done|]. split; [split|].
  - by rw length_insert.
  - intros i u. simpl. intros [Hi|[Hge Hi]]%lookup_app_Some.
    + rw list_lookup_insert_ne; [by apply Hp|]. intros <-. apply Hin. by eapply list_elem_of_lookup_2.
    + apply list_lookup_singleton_Some in Hi as [Hi <-]. rw list_lookup_insert_eq; [f_equal|]; lia.
  - rw /elts /= list_to_set_app_L /=. set_solver.
Qed.

Lemma swap_remove_lookup l p x i v : NoDup l -> l !! p = Some x -> swap_remove l p !! i = Some v ->
  v <> x /\ ((i = p /\ last l = Some v /\ p < length l - 1) \/ (i <> p /\ l !! i = Some v)).
Proof.
  intros Hnd Hp. rw /swap_remove. destruct (last l) as [y|] eqn:Hy; [|by apply last_None in Hy as ->].
  intros [Hi Hlt]%lookup_take_Some.
  destruct (decide (p = i)) as [->|Hne].
  - rewrite list_lookup_insert_eq in Hi; [|by eapply lookup_lt_Some]. injection Hi as ->. split; [|left; split_and!; [done| |lia]].
    + intros ->. rewrite last_lookup in Hy. pose proof (NoDup_lookup _ _ _ _ Hnd Hp Hy). lia.
    + done.
  - rewrite list_lookup_insert_ne in Hi; [|done]. split; [|by right]. intros ->. apply Hne. by eapply NoDup_lookup.
Qed.

Lemma swap_remove_elem l p x v : NoDup l -> l !! p = Some x -> v ∈ swap_remove l p <-> v ∈ l /\ v <> x.
Proof.
  intros Hnd Hp. split.
  - intros [i Hi]%list_elem_of_lookup. destruct (swap_remove_lookup l p x i v Hnd Hp Hi) as [Hne [(_ & Hl & _)|[_ Hl]]].
    + split; [|done]. rewrite last_lookup in Hl. by eapply list_elem_of_lookup_2.
    + split; [|done]. by eapply list_elem_of_lookup_2.
  - intros [[i Hi]%list_elem_of_lookup Hne]. rw /swap_remove.
    assert (is_Some (last l)) as [y Hy]; [rw last_is_Some; by intros ->|]. rw Hy. rewrite last_lookup in Hy.
    pose proof (lookup_lt_Some _ _ _ Hp) as Hlp. apply lookup_lt_Some in Hi as Hli. apply list_elem_of_lookup.
    destruct (decide (i = Nat.pred (length l))) as [->|Hi2].
    + exists p. simplify_eq. rw lookup_take_lt; [by apply list_lookup_insert_eq|].
      destruct (decide (p = Nat.pred (length l))) as [->|]; [by exfalso; apply Hne; congruence|lia].
    + exists i. rw lookup_take_lt; [|lia]. rw list_lookup_insert_ne //. intros ->. by rewrite Hi in Hp; simplify_eq.
Qed.

Lemma remove_live_spec s v : set_ok width s -> v < width ->
  exists s', remove_live s v = Some s' /\ set_ok width s' /\ elts s' = elts s ∖ {[v]}.
Proof.
  intros Hs Hv. rw /remove_live (contains_spec s v Hs Hv) /=. case_bool_decide as Hin; cycle 1.
  { exists s. split_and!; [done..|]. rewrite -elem_of_elts in Hin. set_solver. }
  pose proof (set_ok_nodup s Hs) as Hnd. destruct Hs as [Hl Hp].
  apply list_elem_of_lookup in Hin as [p Hpv]. rw (Hp _ _ Hpv) /=.
  assert (elts (mkSet (swap_remove (members s) p) (positions s)) = elts s ∖ {[v]}) as He.
  { apply set_eq. intros u. rw /elts /= elem_of_difference !elem_of_list_to_set elem_of_singleton. by eapply swap_remove_elem. }
  destruct (swap_remove (members s) p !! p) as [y|] eqn:Hy.
  - destruct (swap_remove_lookup _ _ _ _ _ Hnd Hpv Hy) as [Hyv [(_ & Hlast & Hlt)|[? _]]]; [|done].
    rewrite last_lookup in Hlast. pose proof (Hp _ _ Hlast) as Hpy. rw Hpy /=. eexists. split; [done|]. split; [split|done].
    + by rw length_insert.
    + simpl. intros i u Hi. destruct (swap_remove_lookup _ _ _ _ _ Hnd Hpv Hi) as [Huv [(-> & Hlu & _)|[Hne Hlu]]].
      * rewrite last_lookup in Hlu. simplify_eq. apply list_lookup_insert_eq. by eapply lookup_lt_Some.
      * rw list_lookup_insert_ne; [by apply Hp|]. intros <-. pose proof (Hp _ _ Hlu). simplify_eq.
        apply lookup_lt_Some in Hi. revert Hi. rw /swap_remove. rewrite last_lookup Hlast length_take. lia.
  - eexists. split; [done|]. split; [split; [done|]|done]. simpl. intros i u Hi.
    destruct (swap_remove_lookup _ _ _ _ _ Hnd Hpv Hi) as [_ [(-> & _)|[_ Hlu]]]; [congruence|by apply Hp].
Qed.

Lemma insert_all_spec l s : set_ok width s -> Forall (fun v => v < width) l ->
  exists s', fold_opt insert_live s l = Some s' /\ set_ok width s' /\ elts s' = list_to_set l ∪ elts s.
Proof.
  intros Hs Hl. revert s Hs. induction Hl as [|v l Hv _ IH]; intros s Hs; simpl.
  { exists s. split_and!; [done..|set_solver]. }
  destruct (insert_live_spec s v Hs Hv) as (s1 & -> & Hs1 & He1). simpl.
  destruct (IH s1 Hs1) as (s2 & -> & Hs2 & He2). exists s2. split_and!; [done..|]. rw He2 He1. set_solver.
Qed.

Lemma union_from_spec l s : set_ok width s -> Forall (fun v => v < width) l ->
  exists s', union_from s l = Some s' /\ set_ok width s' /\ elts s' = list_to_set l ∪ elts s.
Proof. apply insert_all_spec. Qed.

Lemma remove_all_spec l s : set_ok width s -> Forall (fun v => v < width) l ->
  exists s', fold_opt remove_live s l = Some s' /\ set_ok width s' /\ elts s' = elts s ∖ list_to_set l.
Proof.
  intros Hs Hl. revert s Hs. induction Hl as [|v l Hv _ IH]; intros s Hs; simpl.
  { exists s. split_and!; [done..|set_solver]. }
  destruct (remove_live_spec s v Hs Hv) as (s1 & -> & Hs1 & He1). simpl.
  destruct (IH s1 Hs1) as (s2 & -> & Hs2 & He2). exists s2. split_and!; [done..|]. rw He2 He1. set_solver.
Qed.

Lemma all_opt_contains s l : set_ok width s -> Forall (fun v => v < width) l ->
  all_opt (contains s) l = Some (bool_decide (Forall (fun v => v ∈ members s) l)).
Proof.
  intros Hs Hl. induction Hl as [|v l Hv _ IH]; simpl; [done|].
  rw (contains_spec s v Hs Hv) /=. destruct (decide (v ∈ members s)) as [Hin|Hin].
  - rewrite (bool_decide_true (v ∈ _)) // IH. f_equal. apply bool_decide_ext. rw Forall_cons. naive_solver.
  - rewrite (bool_decide_false (v ∈ _)) // bool_decide_false //. rw Forall_cons. naive_solver.
Qed.

(** Equal sizes and containment decide equality of sets. *)
Lemma matches_solved_spec s l : set_ok width s -> Forall (fun v => v < width) l -> NoDup l ->
  matches_solved s l = Some (bool_decide (elts s = list_to_set l)).
Proof.
  intros Hs Hl Hnd. pose proof (set_ok_nodup s Hs) as Hnds. rw /matches_solved.
  destruct (Nat.eqb_spec (length l) (length (members s))) as [He|Hne].
  - rw (all_opt_contains s l Hs Hl). f_equal. apply bool_decide_ext. rw Forall_forall. split.
    + intros Hin. apply set_eq. intros v. rw elem_of_elts elem_of_list_to_set. split; [|apply Hin].
      intros Hv. assert (l ⊆+ members s) as Hsub by (apply NoDup_submseteq; [done|exact Hin]).
      apply submseteq_length_Permutation in Hsub; [|lia]. by rw Hsub.
    + intros Heq v Hv. rw -elem_of_elts Heq elem_of_list_to_set //.
  - f_equal. symmetry. apply bool_decide_false. intros Heq. apply Hne.
    assert (l ≡ₚ members s) as ->; [|done]. apply NoDup_Permutation; [done..|]. intros v.
    rw -elem_of_elts Heq elem_of_list_to_set //.
Qed.

Lemma publish_spec s : set_ok width s -> Sorted le (publish s) /\ NoDup (publish s) /\ publish s ≡ₚ members s.
Proof.
  intros Hs. pose proof (merge_sort_Permutation le (members s)) as Hp. rw /publish.
  split_and!; [|by rewrite Hp; apply set_ok_nodup|done]. apply Sorted_merge_sort. intros x y. lia.
Qed.
End Sets.

(** ** Refinement *)

Inductive set_op := InsertOp (v : nat) | RemoveOp (v : nat) | ClearOp | UnionOp (l : list nat).

Definition set_step (s : WorkingLiveSet) (op : set_op) : option WorkingLiveSet :=
  match op with
  | InsertOp v => insert_live s v
  | RemoveOp v => remove_live s v
  | ClearOp => Some (clear_live s)
  | UnionOp l => union_from s l
  end.
Definition set_effect (x : gset nat) (op : set_op) : gset nat :=
  match op with
  | InsertOp v => {[v]} ∪ x
  | RemoveOp v => x ∖ {[v]}
  | ClearOp => ∅
  | UnionOp l => list_to_set l ∪ x
  end.
Definition op_width (width : nat) (op : set_op) : Prop :=
  match op with InsertOp v | RemoveOp v => v < width | ClearOp => True | UnionOp l => Forall (fun v => v < width) l end.

Lemma set_step_spec width s op : set_ok width s -> op_width width op ->
  exists s', set_step s op = Some s' /\ set_ok width s' /\ elts s' = set_effect (elts s) op.
Proof.
  intros Hs Hop. destruct op as [v|v| |l]; simpl in *.
  - by apply insert_live_spec.
  - by apply remove_live_spec.
  - eexists. split_and!; [done|by apply set_ok_clear|done].
  - by apply union_from_spec.
Qed.

(** C13. The sparse working set refines finite sets: whatever registers below
    its width are inserted, removed or united, in whatever order and across
    clears that leave stale positions behind, no operation fails, the members
    are those of the set the same operations build, membership tests and the
    comparison with a solved set answer as set membership and set equality do,
    and publishing gives its members once each in ascending order. *)
Theorem live_set_refines width ops (Hw : Forall (op_width width) ops) :
  exists s, fold_opt set_step (with_width width) ops = Some s /\
    elts s = fold_left set_effect ops ∅ /\
    (forall v, v < width -> contains s v = Some (bool_decide (v ∈ fold_left set_effect ops ∅))) /\
    (forall l, NoDup l -> Forall (fun v => v < width) l ->
       matches_solved s l = Some (bool_decide (fold_left set_effect ops ∅ = list_to_set l))) /\
    StronglySorted lt (publish s) /\ forall v, v ∈ publish s <-> v ∈ fold_left set_effect ops ∅.
Proof.
  assert (forall s, set_ok width s -> exists s', fold_opt set_step s ops = Some s' /\ set_ok width s' /\
    elts s' = fold_left set_effect ops (elts s)) as H.
  { induction Hw as [|op ops Hop _ IH]; intros s Hs; simpl; [by exists s|].
    destruct (set_step_spec width s op Hs Hop) as (s1 & -> & Hs1 & <-). by apply IH. }
  destruct (H _ (set_ok_empty width)) as (s & Hf & Hs & He). exists s. rewrite -He. split_and!; [done..| | | |].
  - intros v Hv. rw (contains_spec _ _ _ Hs Hv). f_equal. apply bool_decide_ext. by rw elem_of_elts.
  - intros l Hnd Hl. by apply (matches_solved_spec width).
  - destruct (publish_spec width s Hs) as (Hso & Hnd & _). apply Sorted_StronglySorted in Hso; [|apply _].
    induction Hso as [|x l _ IH Hx]; [constructor|]. apply NoDup_cons in Hnd as [Hnx Hnd]. constructor; [by apply IH|].
    rw !Forall_forall in Hx *. intros y Hy. specialize (Hx y Hy). destruct (decide (x = y)) as [->|]; [done|lia].
  - intros v. destruct (publish_spec width s Hs) as (_ & _ & ->). by rw elem_of_elts.
Qed.

Lemma live_set_refines_witness :
  exists s, fold_opt set_step (with_width 4) [InsertOp 3; InsertOp 1; RemoveOp 3; ClearOp; InsertOp 2; UnionOp [0; 2]] = Some s /\
    elts s = {[0; 2]} /\ publish s = [0; 2].
Proof.
  destruct (live_set_refines 4 [InsertOp 3; InsertOp 1; RemoveOp 3; ClearOp; InsertOp 2; UnionOp [0; 2]]) as (s & Hs & He & _).
  { repeat constructor; simpl; lia. }
  exists s. split; [done|]. split; [rewrite He; vm_compute; reflexivity|].
  assert (fold_opt set_step (with_width 4) [InsertOp 3; InsertOp 1; RemoveOp 3; ClearOp; InsertOp 2; UnionOp [0; 2]]
    = Some (mkSet [2; 0] [1; 0; 0; 0])) as H by reflexivity.
  rewrite H in Hs. injection Hs as <-. reflexivity.
Defined.
