(* ===== verification/LiveBlocks.v ===== *)
(** * The block partition and the blocks' transfer functions

    Liveness as the paths of the instruction graph define it, the partition
    into straight-line blocks, and the transfer of one block as a function on
    sets. *)

From stdpp Require Import gmap sorting.
From S2P Require Import Prelude Csr Sched Live LiveSets.
Import Machine.

(** ** Liveness along paths *)

Section Paths.
Context (succs inst_uses inst_defs : list (list nat)).

(** A register is live before an instruction when some path from it reaches a
    use before any definition. *)
Inductive live_at : nat -> VReg -> Prop :=
| live_use i us v : inst_uses !! i = Some us -> v ∈ us -> live_at i v
| live_step i ds js j v : inst_defs !! i = Some ds -> v ∉ ds -> succs !! i = Some js -> j ∈ js -> live_at j v -> live_at i v.

Definition live_out (i : nat) (v : VReg) : Prop := exists js j, succs !! i = Some js /\ j ∈ js /\ live_at j v.

(** One instruction, on sets. *)
Definition used_at (i : nat) (v : VReg) : Prop := exists us, inst_uses !! i = Some us /\ v ∈ us.
Definition defined_at (i : nat) (v : VReg) : Prop := exists ds, inst_defs !! i = Some ds /\ v ∈ ds.

Lemma live_at_eq i v : i < length inst_defs -> live_at i v <-> used_at i v \/ (~ defined_at i v /\ live_out i v).
Proof.
  intros Hi. split.
  - destruct 1 as [i us v Hu Hv|i ds js j v Hd Hv Hj Hin Hl]; [left; by exists us|right]. split; [|by exists js, j].
    intros (ds' & Hd' & ?). by simplify_eq.
  - intros [(us & Hu & Hv)|[Hnd (js & j & Hj & Hin & Hl)]]; [by eapply live_use|].
    destruct (lookup_lt_is_Some_2 inst_defs i Hi) as [ds Hd]. eapply live_step; try done. intros Hv. apply Hnd. by exists ds.
Qed.

(** A straight run of [k] instructions from [i], backwards from what is live
    after it. *)
Fixpoint thru (i k : nat) (X : VReg -> Prop) (v : VReg) : Prop :=
  match k with
  | O => X v
  | S k => used_at i v \/ (~ defined_at i v /\ thru (S i) k X v)
  end.

Lemma thru_mono i k (X Y : VReg -> Prop) v : (forall u, X u -> Y u) -> thru i k X v -> thru i k Y v.
Proof. intros HXY. revert i. induction k as [|k IH]; intros i; simpl; [apply HXY|]. naive_solver. Qed.
End Paths.

(** ** The partition *)

(** What the analysis needs of a partition of [n] instructions. *)
Record partition_ok (p : BlockPartition) (n : nat) (succs : list (list nat)) : Prop := {
  pk_span b : b < blocks_len p -> exists s e, span_of p b = Some (s, e) /\ s <= e < n /\
    (forall i, s <= i <= e -> of_inst p i = Some b) /\
    (forall i, s <= i < e -> succs !! i = Some [S i]) /\
    (forall js j, succs !! e = Some js -> j ∈ js -> exists b' e', of_inst p j = Some b' /\ b' < blocks_len p /\ span_of p b' = Some (j, e'));
  pk_of i : i < n -> exists b s e, of_inst p i = Some b /\ b < blocks_len p /\ span_of p b = Some (s, e) /\ s <= i <= e;
  pk_first : exists e, span_of p 0 = Some (0, e);
  pk_next b s e : S b < blocks_len p -> span_of p b = Some (s, e) -> exists e', span_of p (S b) = Some (S e, e');
  pk_last s e : span_of p (blocks_len p - 1) = Some (s, e) -> S e = n;
  pk_len : 0 < blocks_len p;
}.

Section Partition.
Context (n : nat) (succs : list (list nat)).
Hypothesis Hn : length succs = n.
Hypothesis Hsuccs : forall i js, succs !! i = Some js -> Forall (fun j => j < n) js.

Definition marked (ls : list bool) (i : nat) : Prop := ls !! i = Some true.

Lemma mark_leader_spec ls i : i < length ls -> exists ls', mark_leader ls i = Some ls' /\ length ls' = length ls /\
  (forall k, marked ls k -> marked ls' k) /\ marked ls' i.
Proof.
  intros Hi. rw /mark_leader. destruct (lookup_lt_is_Some_2 ls i Hi) as [x ->]. simpl. eexists. split; [done|].
  rw length_insert. split_and!; [done| |by apply list_lookup_insert_eq]. intros k Hk. rw /marked.
  destruct (decide (i = k)) as [->|]; [by apply list_lookup_insert_eq|by rw list_lookup_insert_ne].
Qed.

Definition row_marks (k : nat) (js : list nat) (ls : list bool) : Prop :=
  (js <> [S k] -> S k < n -> marked ls (S k)) /\ (forall j, j ∈ js -> j <> S k -> marked ls j).

Lemma leader_row_spec ls k js : length ls = n -> succs !! k = Some js ->
  exists ls', leader_row n ls (k, js) = Some ls' /\ length ls' = n /\ (forall i, marked ls i -> marked ls' i) /\ row_marks k js ls'.
Proof.
  intros Hl Hjs. pose proof (Hsuccs _ _ Hjs) as Hj. rw /leader_row Nat.add_1_r.
  assert (exists l1, (if negb (bool_decide (js = [S k])) && (S k <? n) then mark_leader ls (S k) else Some ls) = Some l1 /\
    length l1 = n /\ (forall i, marked ls i -> marked l1 i) /\ (js <> [S k] -> S k < n -> marked l1 (S k))) as (l1 & -> & Hl1 & Hm1 & Hk1).
  { case_bool_decide as He; simpl; [by exists ls|]. destruct (Nat.ltb_spec (S k) n) as [Hlt|]; [|exists ls; split_and!; [done..|lia]].
    destruct (mark_leader_spec ls (S k)) as (l1 & -> & Hl1 & Hm & Hk); [lia|]. exists l1. split_and!; [done|lia|done|done]. }
  simpl. clear Hjs.
  assert (forall js' l1, Forall (fun j => j < n) js' -> length l1 = n -> exists l2,
    fold_opt (fun leaders succ => if succ =? S k then Some leaders else mark_leader leaders succ) l1 js' = Some l2 /\
    length l2 = n /\ (forall i, marked l1 i -> marked l2 i) /\ forall j, j ∈ js' -> j <> S k -> marked l2 j) as H.
  { clear. induction js' as [|j js' IH]; intros l1 Hj Hl1; simpl; [exists l1; split_and!; [done..|set_solver]|].
    apply Forall_cons in Hj as [Hjn Hj]. destruct (Nat.eqb_spec j (S k)) as [->|Hne].
    - destruct (IH l1 Hj Hl1) as (l2 & Hf & ? & ? & ?). exists l2. split_and!; [done..|]. set_solver.
    - destruct (mark_leader_spec l1 j) as (l' & Hf1 & Hl' & Hm' & Hj'); [lia|]. rw Hf1 /=. 
      destruct (IH l' Hj) as (l2 & Hf & ? & ? & ?); [lia|]. exists l2. split_and!; [done..|auto|]. set_solver. }
  destruct (H js l1 Hj Hl1) as (l2 & Hf & Hl2 & Hm2 & Hj2). exists l2. split_and!; [done..|auto|]. split; auto.
Qed.

Lemma row_marks_mono k js ls ls' : (forall i, marked ls i -> marked ls' i) -> row_marks k js ls -> row_marks k js ls'.
Proof. rw /row_marks. naive_solver. Qed.

Lemma leaders_spec : 0 < n -> exists ls, fold_opt (leader_row n) (<[0 := true]> (replicate n false)) (imap pair succs) = Some ls /\
  length ls = n /\ marked ls 0 /\ forall k js, succs !! k = Some js -> row_marks k js ls.
Proof.
  intros Hpos. destruct (fold_opt_total_imap (leader_row n) (fun m ls => length ls = n /\ marked ls 0 /\
    forall k js, k < m -> succs !! k = Some js -> row_marks k js ls) succs (<[0 := true]> (replicate n false)))
    as (ls & Hf & Hl & H0 & Hr).
  - rw length_insert length_replicate. split_and!; [done| |lia]. apply list_lookup_insert_eq. by rw length_replicate.
  - intros k js ls Hjs (Hl & H0 & Hr). destruct (leader_row_spec ls k js Hl Hjs) as (ls' & Hf & Hl' & Hm & Hr').
    exists ls'. split_and!; [done..|auto|]. intros k' js' Hk' Hjs'. destruct (decide (k' = k)) as [->|].
    + simplify_eq. done.
    + eapply row_marks_mono; [done|]. apply Hr; [lia|done].
  - exists ls. split_and!; [done..|]. intros k js Hk. apply Hr; [|done]. by eapply lookup_lt_Some.
Qed.

(** The blocks opened over a prefix of the leaders. *)
Record open_inv (ls : list bool) (m : nat) (st : list nat * list nat) : Prop := {
  oi_of : length st.2 = m;
  oi_first : 0 < m -> st.1 !! 0 = Some 0;
  oi_lt b s : st.1 !! b = Some s -> s < m /\ marked ls s;
  oi_inc b s s' : st.1 !! b = Some s -> st.1 !! S b = Some s' -> s < s';
  oi_row i : i < m -> exists b s, st.2 !! i = Some b /\ st.1 !! b = Some s /\ s <= i /\
    (forall s', st.1 !! S b = Some s' -> i < s') /\ (marked ls i -> s = i);
}.

Lemma open_block_inv ls m l st : ls !! m = Some l -> marked ls 0 -> open_inv ls m st -> open_inv ls (S m) (open_block st (m, l)).
Proof.
  intros Hl H0 [Hof Hfirst Hlt Hinc Hrow]. destruct st as [ss os]. simpl in *. rw /open_block /=.
  set (ss' := if l then ss ++ [m] else ss).
  assert (forall b s, ss' !! b = Some s -> ss !! b = Some s \/ (l = true /\ b = length ss /\ s = m)) as Hss.
  { intros b s. rw /ss'. destruct l; [|by left]. intros [?|[? Hb]]%lookup_app_Some; [by left|right].
    apply list_lookup_singleton_Some in Hb as [? <-]. split_and!; [done|lia|done]. }
  assert (forall b s, ss !! b = Some s -> ss' !! b = Some s) as Hss2.
  { intros b s Hb. rw /ss'. destruct l; [|done]. by apply lookup_app_l_Some. }
  assert (0 < length ss') as Hpos.
  { rw /ss'. destruct l; [rw length_app /=; lia|]. destruct m as [|m']; [by rewrite /marked in H0; simplify_eq|].
    by eapply lookup_lt_Some, Hfirst; lia. }
  split; simpl.
  - rw length_app /=. lia.
  - intros _. destruct m as [|m']; [|by apply Hss2, Hfirst; lia]. rewrite /marked in H0. simplify_eq. rw /ss'.
    destruct ss as [|s ss]; [done|]. destruct (Hlt 0 s eq_refl). lia.
  - intros b s [Hb|(-> & -> & ->)]%Hss; [|by split; [lia|]]. destruct (Hlt _ _ Hb). split; [lia|done].
  - intros b s s' [Hb|(_ & -> & _)]%Hss [Hb'|(_ & Hb' & ->)]%Hss; [by eapply Hinc| |apply lookup_lt_Some in Hb'; lia|lia].
    by apply Hlt in Hb as [? _].
  - intros i Hi. destruct (decide (i = m)) as [->|Hne].
    + exists (length ss' - 1). rw -Hof list_lookup_middle // Hof. destruct (lookup_lt_is_Some_2 ss' (length ss' - 1)) as [s Hs]; [lia|].
      exists s. split_and!; [done|done| | |].
      * apply Hss in Hs as [Hs|(_ & _ & ->)]; [|lia]. apply Hlt in Hs. lia.
      * intros s' Hs'%lookup_lt_Some. lia.
      * rewrite /marked Hl. intros [= ->]. rewrite /ss' length_app /= Nat.add_sub list_lookup_middle // in Hs. by injection Hs as <-.
    + destruct (Hrow i) as (b & s & Hb & Hs & Hle & Hn' & Hmk); [lia|]. exists b, s. split_and!; [|by apply Hss2|done| |done].
      * by apply lookup_app_l_Some.
      * intros s' [Hs'|(_ & _ & ->)]%Hss; [by apply Hn'|lia].
Qed.

Lemma open_blocks ls : length ls = n -> marked ls 0 -> open_inv ls n (fold_left open_block (imap pair ls) ([], [])).
Proof.
  intros Hl H0. rw -Hl. apply fold_left_imap; [split; simpl; try done; lia|].
  intros k a t Ha. by apply open_block_inv.
Qed.

(** The starts of the blocks with the terminating [n]: strictly increasing, so
    an index lies in one block. *)
Section Starts.
Context (ls : list bool) (ss os : list nat).
Hypothesis Hinv : open_inv ls n (ss, os).
Let p := mkPartition (ss ++ [n]) os.

Lemma starts_len : 0 < n -> blocks_len p = length ss /\ 0 < length ss.
Proof.
  intros Hpos. split; [rw /blocks_len /p /= length_app /=; lia|]. destruct Hinv as [_ Hfirst _ _ _]. eapply lookup_lt_Some. by apply Hfirst.
Qed.

Lemma block_span b s : ss !! b = Some s -> exists e, span_of p b = Some (s, e) /\ s <= e < n /\ starts p !! S b = Some (S e).
Proof.
  intros Hb. destruct Hinv as [_ _ Hlt Hinc _]. rw /span_of /p /= (lookup_app_l_Some _ _ _ _ Hb) /=. simpl in *.
  destruct (decide (S b < length ss)) as [Hlt'|Hge].
  - destruct (lookup_lt_is_Some_2 ss (S b) Hlt') as [s' Hs']. rw (lookup_app_l_Some _ _ _ _ Hs') /=. eexists. split; [done|].
    pose proof (Hinc _ _ _ Hb Hs'). destruct (Hlt _ _ Hs'). split; [lia|]. f_equal. lia.
  - apply lookup_lt_Some in Hb as Hbl. assert (S b = length ss) as -> by lia. rw list_lookup_middle // /=. eexists. split; [done|].
    destruct (Hlt _ _ Hb). split; [lia|]. f_equal. lia.
Qed.

Lemma block_find i : i < n -> exists b s e, of_inst p i = Some b /\ ss !! b = Some s /\ span_of p b = Some (s, e) /\
  s <= i <= e /\ e < n /\ starts p !! S b = Some (S e) /\ (marked ls i -> s = i).
Proof.
  intros Hi. destruct Hinv as [_ _ _ _ Hrow]. destruct (Hrow i Hi) as (b & s & Hb & Hs & Hle & Hnx & Hmk). simpl in *.
  destruct (block_span b s Hs) as (e & He & Hse & Hnext). exists b, s, e. split_and!; try done; [|lia..].
  apply lookup_app_Some in Hnext as [Hne|[Hge Hne]]; [apply Hnx in Hne; lia|].
  apply list_lookup_singleton_Some in Hne as [_ Hne]. lia.
Qed.

Lemma starts_mono b b' s s' : b < b' -> ss !! b = Some s -> ss !! b' = Some s' -> s < s'.
Proof.
  destruct Hinv as [_ _ _ Hinc _]. simpl in *. intros Hbb. revert s'. induction Hbb as [|b' Hbb IH]; intros s' Hb Hb'; [by eapply Hinc|].
  destruct (lookup_lt_is_Some_2 ss b') as [s1 Hs1]; [apply lookup_lt_Some in Hb'; lia|].
  pose proof (IH s1 Hb Hs1). pose proof (Hinc _ _ _ Hs1 Hb'). lia.
Qed.

Lemma block_unique i b b' s s' e e' : ss !! b = Some s -> ss !! b' = Some s' -> s <= i <= e -> s' <= i <= e' ->
  starts p !! S b = Some (S e) -> starts p !! S b' = Some (S e') -> b = b'.
Proof.
  assert (forall b b' s s' e, ss !! b = Some s -> ss !! b' = Some s' -> i <= e -> s' <= i -> starts p !! S b = Some (S e) -> b <? b' = false) as H.
  { clear b b' s s' e e'. intros b b' s s' e Hb Hb' Hi Hi' He. apply Nat.ltb_ge. destruct (Nat.lt_ge_cases b b') as [Hlt|]; [exfalso|done].
    apply lookup_lt_Some in Hb' as Hl. destruct (lookup_lt_is_Some_2 ss (S b)) as [t Ht]; [lia|].
    rewrite /p /= (lookup_app_l_Some _ _ _ _ Ht) in He. injection He as ->.
    destruct (decide (S b = b')) as [<-|]; [simplify_eq; lia|]. pose proof (starts_mono (S b) b' _ _ ltac:(lia) Ht Hb'). lia. }
  intros Hb Hb' Hi Hi' He He'. pose proof (H b b' s s' e Hb Hb' ltac:(lia) ltac:(lia) He) as H1%Nat.ltb_ge.
  pose proof (H b' b s' s e' Hb' Hb ltac:(lia) ltac:(lia) He') as H2%Nat.ltb_ge. lia.
Qed.

Lemma starts_ok : 0 < n -> (forall k js, succs !! k = Some js -> row_marks k js ls) -> partition_ok p n succs.
Proof.
  intros Hpos Hr. destruct (starts_len Hpos) as [Hlen Hls]. split; rw ?Hlen.
  - intros b Hb. destruct (lookup_lt_is_Some_2 ss b Hb) as [s Hs]. destruct (block_span b s Hs) as (e & He & Hse & Hnext).
    exists s, e. split_and!; [done|lia|lia| | |].
    + intros i Hi. destruct (block_find i) as (b' & s' & e' & -> & Hs' & _ & Hi' & _ & Hnext' & _); [lia|].
      f_equal. symmetry. by eapply (block_unique i).
    + intros i Hi. destruct (lookup_lt_is_Some_2 succs i) as [js Hjs]; [lia|]. destruct (decide (js = [S i])) as [->|Hne]; [done|exfalso].
      destruct (Hr _ _ Hjs) as [Hmk _]. specialize (Hmk Hne ltac:(lia)).
      destruct (block_find (S i)) as (b' & s' & e' & _ & Hs' & _ & Hi' & _ & Hnext' & Hst); [lia|]. specialize (Hst Hmk) as ->.
      assert (b' = b) as -> by (eapply (block_unique (S i)); [done..| | |done|done]; lia). simplify_eq. lia.
    + intros js j Hjs Hj. pose proof (Hsuccs _ _ Hjs) as Hjn. rewrite Forall_forall in Hjn. specialize (Hjn j Hj).
      destruct (block_find j Hjn) as (b' & s' & e' & Hof' & Hs' & He' & Hi' & He'n & Hnext' & Hst).
      assert (s' = j) as ->; [|exists b', e'; split_and!; [done| |done]; by eapply lookup_lt_Some].
      destruct (decide (j = S e)) as [->|Hne]; [|by apply Hst, (Hr _ _ Hjs)].
      apply lookup_app_Some in Hnext as [Hne|[_ Hne]]; [|apply list_lookup_singleton_Some in Hne as [_ Hne]; lia].
      destruct (block_span _ _ Hne) as (e2 & _ & ? & Hn2).
      assert (b' = S b) as -> by (eapply (block_unique (S e)); [done..| | |done|done]; lia). by simplify_eq.
  - intros i Hi. destruct (block_find i Hi) as (b & s & e & Hof' & Hs & He & Hi' & _). exists b, s, e.
    split_and!; try done; [by eapply lookup_lt_Some|lia..].
  - destruct Hinv as [_ Hfirst _ _ _]. destruct (block_span 0 0 (Hfirst Hpos)) as (e & He & _). by exists e.
  - intros b s e Hb He. destruct (lookup_lt_is_Some_2 ss (S b) Hb) as [s' Hs'].
    destruct (lookup_lt_is_Some_2 ss b) as [s0 Hs0]; [lia|]. destruct (block_span _ _ Hs0) as (e0 & He0 & _ & Hnext). simplify_eq.
    rewrite /p /= (lookup_app_l_Some _ _ _ _ Hs') in Hnext. injection Hnext as ->. destruct (block_span _ _ Hs') as (e' & He' & _). by exists e'.
  - intros s e He. destruct (lookup_lt_is_Some_2 ss (length ss - 1)) as [s0 Hs0]; [lia|].
    destruct (block_span _ _ Hs0) as (e0 & He0 & _ & Hnext). simplify_eq. rewrite /p /= lookup_app_r in Hnext; [|lia].
    replace (S (length ss - 1) - length ss) with 0 in Hnext by lia. by injection Hnext as ->.
  - done.
Qed.
End Starts.

Lemma partition_blocks_ok : 0 < n -> (Z.of_nat n <= u32_max)%Z ->
  exists p, partition_blocks n succs = Some p /\ partition_ok p n succs.
Proof.
  intros Hpos Hmax. rw /partition_blocks. destruct (Nat.ltb_spec 0 n) as [_|]; [|lia].
  destruct (Z.leb_spec (Z.of_nat n) u32_max) as [_|]; [|lia]. simpl.
  destruct (leaders_spec Hpos) as (ls & -> & Hl & H0 & Hr). simpl.
  pose proof (open_blocks ls Hl H0) as Hinv. destruct (fold_left open_block (imap pair ls) ([], [])) as [ss os].
  eexists. split; [done|]. by apply (starts_ok ls).
Qed.
End Partition.

Lemma span_facts p n succs b s e : partition_ok p n succs -> b < blocks_len p -> span_of p b = Some (s, e) -> s <= e < n /\
  (forall i, s <= i <= e -> of_inst p i = Some b) /\ (forall i, s <= i < e -> succs !! i = Some [S i]) /\
  (forall js j, succs !! e = Some js -> j ∈ js -> exists b' e', of_inst p j = Some b' /\ b' < blocks_len p /\ span_of p b' = Some (j, e')).
Proof.
  intros Hp Hb Hs. destruct (pk_span _ _ _ Hp b Hb) as (s' & e' & Hs' & H). rewrite Hs in Hs'. by injection Hs' as <- <-.
Qed.

(** ** The transfer of a block *)

(** What the analysis is given: one row per instruction, every successor an
    instruction and every register below the count. *)
Record flow_ok (w n : nat) (succs inst_uses inst_defs : list (list nat)) : Prop := {
  fo_succs : length succs = n;
  fo_uses : length inst_uses = n;
  fo_defs : length inst_defs = n;
  fo_target i js : succs !! i = Some js -> Forall (fun j => j < n) js;
  fo_used i us : inst_uses !! i = Some us -> Forall (fun v => v < w) us;
  fo_defined i ds : inst_defs !! i = Some ds -> Forall (fun v => v < w) ds;
}.

Section Transfer.
Context (w n : nat) (succs inst_uses inst_defs : list (list nat)) (p : BlockPartition).
Hypothesis Hf : flow_ok w n succs inst_uses inst_defs.
Hypothesis Hp : partition_ok p n succs.
Implicit Types (L : list (list VReg)).

Definition table_ok L : Prop :=
  length L = blocks_len p /\ forall b l, L !! b = Some l -> NoDup l /\ Forall (fun v => v < w) l.

(** What is live after a block, and before it, as a table of sets says. *)
Definition after L (b : nat) (v : VReg) : Prop :=
  exists s e js j b' l, span_of p b = Some (s, e) /\ succs !! e = Some js /\ j ∈ js /\ of_inst p j = Some b' /\ L !! b' = Some l /\ v ∈ l.
Definition flow L (b : nat) (v : VReg) : Prop :=
  exists s e, span_of p b = Some (s, e) /\ thru inst_uses inst_defs s (S e - s) (after L b) v.

Definition table_le L L' : Prop := forall b l l' v, L !! b = Some l -> L' !! b = Some l' -> v ∈ l -> v ∈ l'.

Lemma after_mono L L' b v : length L = length L' -> table_le L L' -> after L b v -> after L' b v.
Proof.
  intros Hl Hle (s & e & js & j & b' & l & Hs & Hj & Hin & Hof & Hlb & Hv).
  destruct (lookup_lt_is_Some_2 L' b') as [l' Hl']; [rw -Hl; by eapply lookup_lt_Some|]. exists s, e, js, j, b', l'. eauto 10.
Qed.

Lemma flow_mono L L' b v : length L = length L' -> table_le L L' -> flow L b v -> flow L' b v.
Proof.
  intros Hl Hle (s & e & Hs & Ht). exists s, e. split; [done|]. eapply thru_mono; [|done]. intros u. by apply after_mono.
Qed.

Lemma union_rows_spec L js s : table_ok L -> set_ok w s -> Forall (fun j => j < n) js ->
  exists s', fold_opt (fun out succ => b ← of_inst p succ; l ← L !! b; union_from out l) s js = Some s' /\ set_ok w s' /\
    forall v, v ∈ elts s' <-> v ∈ elts s \/ exists j b l, j ∈ js /\ of_inst p j = Some b /\ L !! b = Some l /\ v ∈ l.
Proof.
  intros HL Hs Hj. revert s Hs. induction Hj as [|j js Hj _ IH]; intros s Hs; simpl.
  { exists s. split_and!; [done..|]. intros v. split; [by left|]. intros [?|(j & b & l & Hj & _)]; [done|]. by apply not_elem_of_nil in Hj. }
  destruct (pk_of _ _ _ Hp j Hj) as (b & s0 & e0 & Hof & Hb & _). rw Hof /=. destruct HL as [HLl HL].
  destruct (lookup_lt_is_Some_2 L b) as [l Hl]; [lia|]. rw Hl /=. destruct (HL _ _ Hl) as [_ Hw].
  destruct (union_from_spec w l s Hs Hw) as (s1 & -> & Hs1 & He1). simpl.
  destruct (IH s1 Hs1) as (s2 & -> & Hs2 & Hv2). exists s2. split_and!; [done..|]. intros v. rw Hv2 He1. split.
  - intros [[Hv|Hv]%elem_of_union|(j' & b' & l' & Hj' & H')]; [|by left|].
    + right. exists j, b, l. rw elem_of_cons. apply elem_of_list_to_set in Hv. split_and!; [by left|done..].
    + right. exists j', b', l'. rw elem_of_cons. split; [by right|done].
  - intros [Hv|(j' & b' & l' & [->|Hj']%elem_of_cons & Hof' & Hl' & Hv)]; [left; set_solver|left|right].
    + simplify_eq. apply elem_of_union_l, elem_of_list_to_set, Hv.
    + by exists j', b', l'.
Qed.

Lemma collect_spec L b s : table_ok L -> set_ok w s -> b < blocks_len p ->
  exists s', collect_block_live_out succs p L b s = Some s' /\ set_ok w s' /\ forall v, v ∈ elts s' <-> after L b v.
Proof.
  intros HL Hs Hb. destruct (pk_span _ _ _ Hp b Hb) as (s0 & e & Hsp & Hse & _). rw /collect_block_live_out Hsp /=.
  destruct (lookup_lt_is_Some_2 succs e) as [js Hjs]; [rw (fo_succs _ _ _ _ _ Hf); lia|]. rw Hjs /=.
  destruct (union_rows_spec L js (clear_live s) HL (set_ok_clear _ _ Hs) (fo_target _ _ _ _ _ Hf _ _ Hjs)) as (s' & -> & Hs' & Hv).
  exists s'. split_and!; [done..|]. intros v. rw Hv. split.
  - intros [?%not_elem_of_empty|(j & b' & l & H)]; [done|]. exists s0, e, js, j, b', l. naive_solver.
  - intros (s1 & e1 & js1 & j & b' & l & H). right. exists j, b', l. naive_solver.
Qed.

Lemma transfer_inst_spec i s : i < n -> set_ok w s ->
  exists s', transfer_inst inst_uses inst_defs s i = Some s' /\ set_ok w s' /\
    forall v, v ∈ elts s' <-> used_at inst_uses i v \/ (~ defined_at inst_defs i v /\ v ∈ elts s).
Proof.
  intros Hi Hs. rw /transfer_inst. destruct (lookup_lt_is_Some_2 inst_defs i) as [ds Hds]; [rw (fo_defs _ _ _ _ _ Hf); lia|].
  destruct (lookup_lt_is_Some_2 inst_uses i) as [us Hus]; [rw (fo_uses _ _ _ _ _ Hf); lia|]. rw Hds /=.
  destruct (remove_all_spec w ds s Hs (fo_defined _ _ _ _ _ Hf _ _ Hds)) as (s1 & -> & Hs1 & He1). rw /= Hus /=.
  destruct (insert_all_spec w us s1 Hs1 (fo_used _ _ _ _ _ Hf _ _ Hus)) as (s2 & -> & Hs2 & He2).
  exists s2. split_and!; [done..|]. intros v. rw He2 He1 elem_of_union elem_of_difference !elem_of_list_to_set.
  assert (used_at inst_uses i v <-> v ∈ us) as ->.
  { split; [by intros (us' & ? & ?); simplify_eq|by exists us]. }
  assert (defined_at inst_defs i v <-> v ∈ ds) as ->.
  { split; [by intros (ds' & ? & ?); simplify_eq|by exists ds]. }
  naive_solver.
Qed.

Lemma transfer_run_spec k i s : i + k <= n -> set_ok w s ->
  exists s', fold_opt (transfer_inst inst_uses inst_defs) s (rev (seq i k)) = Some s' /\ set_ok w s' /\
    forall v, v ∈ elts s' <-> thru inst_uses inst_defs i k (fun v => v ∈ elts s) v.
Proof.
  revert i. induction k as [|k IH]; intros i Hi Hs; [by exists s|].
  destruct (IH (S i)) as (s1 & Hf1 & Hs1 & Hv1); [lia|done|]. simpl. rw fold_opt_app Hf1 /=.
  destruct (transfer_inst_spec i s1) as (s2 & -> & Hs2 & Hv2); [lia|done|]. exists s2. split_and!; [done..|].
  intros v. rw Hv2. pose proof (Hv1 v). tauto.
Qed.

Lemma thru_iff i k (X Y : VReg -> Prop) v : (forall u, X u <-> Y u) ->
  thru inst_uses inst_defs i k X v <-> thru inst_uses inst_defs i k Y v.
Proof. intros HXY. split; apply thru_mono; naive_solver. Qed.

Lemma transfer_block_spec L b s : table_ok L -> set_ok w s -> b < blocks_len p ->
  exists s', transfer_block succs inst_uses inst_defs p L b s = Some s' /\ set_ok w s' /\ forall v, v ∈ elts s' <-> flow L b v.
Proof.
  intros HL Hs Hb. destruct (pk_span _ _ _ Hp b Hb) as (s0 & e & Hsp & Hse & _). rw /transfer_block Hsp /=.
  destruct (collect_spec L b s HL Hs Hb) as (s1 & -> & Hs1 & Hv1). simpl. rw Nat.add_1_r.
  destruct (transfer_run_spec (S e - s0) s0 s1) as (s2 & -> & Hs2 & Hv2); [lia|done|]. exists s2. split_and!; [done..|].
  intros v. rw Hv2 (thru_iff _ _ _ (after L b)) //. rw /flow. split; [by exists s0, e|]. intros (s' & e' & ? & ?). by simplify_eq.
Qed.

(** *** Tables and paths *)

Let live := live_at succs inst_uses inst_defs.
Let live_after := live_out succs inst_uses inst_defs.

(** Along a straight run the transfer carries liveness. *)
Lemma thru_live k i v : i + k <= n -> 0 < k -> (forall j, i <= j -> S j < i + k -> succs !! j = Some [S j]) ->
  thru inst_uses inst_defs i k (live_after (i + k - 1)) v <-> live i v.
Proof.
  revert i. induction k as [|k IH]; intros i Hi Hk Hst; [lia|]. rw /live live_at_eq ?(fo_defs _ _ _ _ _ Hf); [|lia]. simpl.
  destruct k as [|k].
  { simpl. by rw Nat.add_sub. }
  replace (i + S (S k) - 1) with (S i + S k - 1) by lia. rw IH; [|lia..|intros; apply Hst; lia].
  assert (live_out succs inst_uses inst_defs i v <-> live (S i) v) as ->; [|done].
  rw /live_out (Hst i) //; [|lia]. split; [|by exists [S i], (S i); set_solver].
  intros (js & j & [= <-] & ->%list_elem_of_singleton & ?). done.
Qed.

Lemma block_live b s e v : b < blocks_len p -> span_of p b = Some (s, e) ->
  thru inst_uses inst_defs s (S e - s) (live_after e) v <-> live s v.
Proof.
  intros Hb Hs. destruct (span_facts _ _ _ _ _ _ Hp Hb Hs) as (Hse & _ & Hst & _).
  rw -(thru_live (S e - s)); [|lia..|].
  - by replace (s + (S e - s) - 1) with e by lia.
  - intros j Hj1 Hj2. apply Hst. lia.
Qed.

(** A table of paths: below them, and all of them. *)
Definition table_sound L : Prop := forall b l s e v, L !! b = Some l -> span_of p b = Some (s, e) -> v ∈ l -> live s v.
Definition block_exact L (b : nat) : Prop := forall l s e v, L !! b = Some l -> span_of p b = Some (s, e) -> v ∈ l <-> live s v.

Lemma target_block b s e js j : b < blocks_len p -> span_of p b = Some (s, e) -> succs !! e = Some js -> j ∈ js ->
  exists b' e', of_inst p j = Some b' /\ b' < blocks_len p /\ span_of p b' = Some (j, e').
Proof.
  intros Hb Hs Hjs Hj. destruct (span_facts _ _ _ _ _ _ Hp Hb Hs) as (_ & _ & _ & Ht). by eapply Ht.
Qed.

Lemma after_sound L b s e v : table_ok L -> table_sound L -> b < blocks_len p -> span_of p b = Some (s, e) ->
  after L b v -> live_after e v.
Proof.
  intros HL Hsound Hb Hs (s' & e' & js & j & b' & l & Hs' & Hjs & Hj & Hof & Hl & Hv). rewrite Hs in Hs'. injection Hs' as <- <-.
  exists js, j. split_and!; [done..|]. destruct (target_block b s e js j) as (b2 & e2 & Hof2 & _ & Hs2); [done..|].
  simplify_eq. by eapply Hsound.
Qed.

Lemma flow_sound L b s e v : table_ok L -> table_sound L -> b < blocks_len p -> span_of p b = Some (s, e) -> flow L b v -> live s v.
Proof.
  intros HL Hsound Hb Hs (s' & e' & Hs' & Ht). rewrite Hs in Hs'. injection Hs' as <- <-. apply (block_live b s e); [done..|].
  eapply thru_mono; [|done]. intros u. by eapply after_sound.
Qed.

(** Exact sets of the successors give an exact set. *)
Lemma after_exact L b s e v : length L = blocks_len p -> b < blocks_len p -> span_of p b = Some (s, e) ->
  (forall js j b', succs !! e = Some js -> j ∈ js -> of_inst p j = Some b' -> block_exact L b') ->
  after L b v <-> live_after e v.
Proof.
  intros HL Hb Hs Hex. split.
  - intros (s' & e' & js & j & b' & l & Hs' & Hjs & Hj & Hof & Hl & Hv). rewrite Hs in Hs'. injection Hs' as <- <-. exists js, j. split_and!; [done..|].
    destruct (target_block b s e js j) as (b2 & e2 & Hof2 & _ & Hs2); [done..|]. simplify_eq. by eapply Hex.
  - intros (js & j & Hjs & Hj & Hv). destruct (target_block b s e js j) as (b' & e' & Hof & Hb' & Hs'); [done..|].
    destruct (lookup_lt_is_Some_2 L b') as [l Hl]; [lia|]. exists s, e, js, j, b', l. split_and!; try done. by eapply Hex.
Qed.

Lemma flow_exact L b s e v : length L = blocks_len p -> b < blocks_len p -> span_of p b = Some (s, e) ->
  (forall js j b', succs !! e = Some js -> j ∈ js -> of_inst p j = Some b' -> block_exact L b') ->
  flow L b v <-> live s v.
Proof.
  intros HL Hb Hs Hex. rewrite -(block_live b s e) // -(thru_iff _ _ (after L b)); [|intros; by eapply after_exact].
  rw /flow. split; [|by exists s, e]. intros (s' & e' & ? & ?). by simplify_eq.
Qed.

(** A table closed under the transfer holds every path. *)
Lemma closed_complete L : length L = blocks_len p ->
  (forall b l v, L !! b = Some l -> flow L b v -> v ∈ l) ->
  forall i v, live i v -> forall b s e, of_inst p i = Some b -> b < blocks_len p -> span_of p b = Some (s, e) -> s <= i <= e ->
  thru inst_uses inst_defs i (S e - i) (after L b) v.
Proof.
  intros HL Hcl i v Hlive. induction Hlive as [i us v Hu Hv|i ds js j v Hd Hv Hjs Hj Hl IH]; intros b s e Hof Hb Hs Hi.
  - replace (S e - i) with (S (e - i)) by lia. left. by exists us.
  - replace (S e - i) with (S (e - i)) by lia. right. split.
    { intros (ds' & ? & ?). by simplify_eq. }
    destruct (span_facts _ _ _ _ _ _ Hp Hb Hs) as (Hse & Hin & Hst & Ht).
    destruct (decide (i = e)) as [->|Hne].
    + destruct (Ht _ _ Hjs Hj) as (b' & e2 & Hof' & Hb' & Hs'). replace (e - e) with 0 by lia. simpl.
      destruct (span_facts _ _ _ _ _ _ Hp Hb' Hs') as (Hse' & _).
      destruct (lookup_lt_is_Some_2 L b') as [l Hlb]; [lia|]. exists s, e, js, j, b', l. split_and!; try done.
      eapply Hcl; [done|]. exists j, e2. split; [done|]. eapply IH; [done..|lia].
    + rewrite (Hst i) in Hjs; [|lia]. injection Hjs as <-. apply list_elem_of_singleton in Hj as ->.
      replace (e - i) with (S e - S i) by lia. eapply IH; try done; [apply Hin|]; lia.
Qed.

Lemma closed_exact L : table_ok L -> table_sound L -> (forall b l v, L !! b = Some l -> flow L b v -> v ∈ l) ->
  forall b, block_exact L b.
Proof.
  intros [HL HL2] Hsound Hcl b l s e v Hl Hs. split; [by eapply Hsound|]. intros Hv. eapply Hcl; [done|].
  assert (b < blocks_len p) as Hb by (rw -HL; by eapply lookup_lt_Some).
  destruct (span_facts _ _ _ _ _ _ Hp Hb Hs) as (Hse & Hin & _). exists s, e. split; [done|].
  eapply closed_complete; try done; [apply Hin|]; lia.
Qed.
End Transfer.
