(* ===== verification/LiveSolve.v ===== *)
(** * The block-level fixed point

    The predecessor index the worklist walks, the loop that empties it within
    its fuel, and the reverse sweep of a body without back edges: both leave
    the sets the paths define. *)

From stdpp Require Import gmap sorting.
From S2P Require Import Prelude Csr Sched Live LiveSets LiveBlocks.
Import Machine.

(** ** The predecessor index *)

Section Index.
Context (table : list (list nat)).
Let m := length table.
Hypothesis Hm : 0 < m.
Hypothesis Ht : forall b r, table !! b = Some r -> Forall (fun k => k < m) r.

Definition row_of_source (src : nat) : list nat := default [] (table !! src).
Definition pairs_of (srcs : list nat) : list (nat * nat) := flat_map (fun src => (fun k => (k, src)) <$> row_of_source src) srcs.

Lemma elem_of_pairs srcs k src : (k, src) ∈ pairs_of srcs <-> src ∈ srcs /\ exists r, table !! src = Some r /\ k ∈ r.
Proof.
  rw /pairs_of list_elem_of_In in_flat_map. split.
  - intros (x & Hx & Hk). rewrite -list_elem_of_In in Hx. rewrite -list_elem_of_In list_elem_of_fmap in Hk.
    destruct Hk as (k' & [= -> ->] & Hk). split; [done|]. rewrite /row_of_source in Hk.
    destruct (table !! x) as [r|]; [by exists r|by apply not_elem_of_nil in Hk].
  - intros [Hs (r & Hr & Hk)]. exists src. rewrite -!list_elem_of_In. split; [done|]. apply list_elem_of_fmap. exists k.
    by rw /row_of_source Hr.
Qed.

Lemma pairs_keys : (pairs_of (seq 0 m)).*1 = concat table.
Proof.
  assert (forall pre suf, table = pre ++ suf -> (pairs_of (seq (length pre) (length suf))).*1 = concat suf) as H; [|by apply (H [])].
  intros pre suf. revert pre. induction suf as [|r suf IH]; intros pre Heq; [done|]. simpl. rw fmap_app. f_equal.
  - rw /row_of_source Heq list_lookup_middle //= -list_fmap_compose. apply list_fmap_id.
  - specialize (IH (pre ++ [r])). rewrite length_app /= Nat.add_1_r in IH. apply IH. by rw -app_assoc.
Qed.

Lemma pairs_perm : pairs_of (rev (seq 0 m)) ≡ₚ pairs_of (seq 0 m).
Proof. rw /pairs_of. apply Permutation_flat_map. symmetry. apply Permutation_rev. Qed.

Lemma pairs_bound srcs : Forall (fun p => p.1 < m) (pairs_of srcs).
Proof.
  rw Forall_forall. intros [k src] [_ (r & Hr & Hk)]%elem_of_pairs. pose proof (Ht _ _ Hr) as Hf. rewrite Forall_forall in Hf. by apply Hf.
Qed.

Lemma row_perm ps ps' k : ps ≡ₚ ps' -> row ps k ≡ₚ row ps' k.
Proof. intros Hp. rw /row. by rewrite Hp. Qed.

Lemma off_perm ps ps' k : ps ≡ₚ ps' -> off ps k = off ps' k.
Proof. intros Hp. induction k as [|k IH]; [done|]. rw !off_S IH. f_equal. by rewrite (row_perm _ _ _ Hp). Qed.

Lemma place_pairs srcs st : Forall (fun src => src < m) srcs ->
  fold_opt (fun st source => row ← table !! source; fold_opt (fun st succ => place_at st succ source) st row) st srcs =
  fold_opt (fun st p => place_at st p.1 p.2) st (pairs_of srcs).
Proof.
  intros Hs. revert st. induction Hs as [|src srcs Hs _ IH]; intros st; [done|]. simpl.
  destruct (lookup_lt_is_Some_2 table src Hs) as [r Hr]. rw Hr /= fold_opt_app /row_of_source Hr /=.
  assert (fold_opt (fun st p => place_at st p.1 p.2) st ((fun k => (k, src)) <$> r) = fold_opt (fun st succ => place_at st succ src) st r) as ->.
  { clear Hr. revert st. induction r as [|k r IHr]; intros st; [done|]. simpl. destruct (place_at st k src); [apply IHr|done]. }
  destruct (fold_opt _ st r); [apply IH|done].
Qed.

(** The filled cursors are moved back by one row. *)
Lemma shift_rows (ps : list (nat * nat)) os : length os = S m -> (forall k, k < m -> os !! k = Some (off ps (S k))) ->
  os !! m = Some (off ps m) ->
  exists os', fold_opt shift_back os (rev (seq 1 (m - 1))) = Some os' /\ length os' = S m /\
    forall k, 1 <= k <= m -> os' !! k = Some (off ps k).
Proof.
  intros Hl Hk Hlast. destruct (fold_opt_total_rev shift_back (fun i o => length o = S m /\
      (forall k, k < i -> k < m -> o !! k = Some (off ps (S k))) /\ forall k, i <= k <= m -> o !! k = Some (off ps k)) 1 (m - 1) os)
    as (os' & Hf & Hl' & _ & Hr).
  - split_and!; [done|intros; by apply Hk|]. intros k Hkm. assert (k = m) as -> by lia. done.
  - intros i o Hi (Hlo & Hlow & Hhigh). rw /shift_back. rewrite (Hlow (i - 1)); [|lia..]. simpl.
    destruct (lookup_lt_is_Some_2 o i) as [x ->]; [lia|]. simpl. eexists. split; [done|]. rw length_insert. split_and!; [done| |].
    + intros k Hki Hkm. rw list_lookup_insert_ne; [|lia]. apply Hlow; lia.
    + intros k Hki. destruct (decide (k = i)) as [->|].
      * rw list_lookup_insert_eq; [|lia]. f_equal. f_equal. lia.
      * rw list_lookup_insert_ne; [|lia]. apply Hhigh. lia.
  - by exists os'.
Qed.

Lemma predecessor_csr_spec : exists adj, build_predecessor_csr table = Some adj /\ length (targets adj) = length (concat table) /\
  exists ps, Forall (fun p => p.1 < m) ps /\ length ps = length (concat table) /\
    (forall k src, (k, src) ∈ ps <-> exists r, table !! src = Some r /\ k ∈ r) /\
    forall k, k < m -> adj_of adj k = Some (row ps k).
Proof.
  rw /build_predecessor_csr. fold m. set (psA := pairs_of (seq 0 m)). set (psD := pairs_of (rev (seq 0 m))).
  assert (psD ≡ₚ psA) as Hperm by apply pairs_perm.
  destruct (csr_counts psA m (pairs_bound _)) as (counts & Hc & Hl & H0 & Hk).
  rewrite /psA pairs_keys fold_opt_concat in Hc. rw Hc /=.
  destruct (csr_offsets _ _ _ Hl H0 Hk) as (os & -> & Hlo & Ho). simpl. rw Ho // /=. 
  assert (forall k, off psA k = off psD k) as Hoff by (intros; symmetry; by apply off_perm).
  assert (length psD = length (concat table)) as Hlen by (rw Hperm -pairs_keys; by rw length_fmap).
  assert (off psA m = length psD) as Htot by (rw Hoff; apply off_total, pairs_bound).
  destruct (csr_place psD m os (off psA m)) as ([cs ts] & Hst & Hr & Hlc & Hcs & Hts & Hlast).
  { apply pairs_bound. } { done. } { intros. rw -Hoff. by apply Ho. } { done. }
  rw place_pairs; [|apply Forall_forall; intros x; rw list_elem_of_In -in_rev in_seq; lia]. rw Hst /=. simpl in *.
  destruct (shift_rows psD cs) as (os' & -> & Hlo' & Hos'); [done|done|rw Hlast Ho //; by rw Hoff|]. simpl.
  destruct (lookup_lt_is_Some_2 os' 0) as [z ->]; [lia|]. simpl. eexists. split; [done|]. simpl. split; [lia|].
  exists psD. split_and!; [apply pairs_bound|done| |].
  - intros k src. rw elem_of_pairs. split; [naive_solver|]. intros (r & Hr' & Hin). split; [|by exists r].
    rw list_elem_of_In -in_rev in_seq. apply lookup_lt_Some in Hr'. rewrite -/m in Hr'. lia.
  - intros k Hkm. rw -Hr //. rw /adj_of /=.
    assert (forall j, j <= m -> <[0 := 0]> os' !! j = os !! j) as Hsame; [|rw !Hsame //; lia].
    intros j Hj. rw Ho //. destruct (decide (j = 0)) as [->|].
    + rw list_lookup_insert_eq; [done|lia].
    + rw list_lookup_insert_ne; [|lia]. rw Hos'; [|lia]. by rw Hoff.
Qed.
End Index.

(** Lowering one term of a sum lowers the sum. *)
Lemma sum_update (f g : nat -> nat) b d m : b < m -> (forall k, k < m -> k <> b -> g k <= f k) -> g b + d <= f b ->
  sum_list (g <$> seq 0 m) + d <= sum_list (f <$> seq 0 m).
Proof.
  intros Hb Hne Hd. induction m as [|m IH]; [lia|]. rw seq_S !fmap_app !sum_list_app /=.
  destruct (decide (b = m)) as [->|Hbm].
  - assert (forall j, j <= m -> sum_list (g <$> seq 0 j) <= sum_list (f <$> seq 0 j)) as H; [|specialize (H m); lia].
    clear IH. intros j. induction j as [|j IH]; intros Hj; [done|]. rw seq_S !fmap_app !sum_list_app /=.
    pose proof (Hne j ltac:(lia) ltac:(lia)). lia.
  - pose proof (Hne m ltac:(lia) ltac:(lia)). assert (b < m) as Hb' by lia.
    pose proof (IH Hb' ltac:(intros; apply Hne; lia)). lia.
Qed.

Section Solve.
Context (w n : nat) (succs inst_uses inst_defs : list (list nat)) (p : BlockPartition).
Hypothesis Hf : flow_ok w n succs inst_uses inst_defs.
Hypothesis Hp : partition_ok p n succs.
Let B := blocks_len p.
Implicit Types (L : list (list VReg)).

Let flow := flow succs inst_uses inst_defs p.
Let table_ok := table_ok w p.
Let table_sound := table_sound succs inst_uses inst_defs p.

(** The successor blocks of a block. *)
Definition block_edge (b b' : nat) : Prop :=
  exists s e js j, span_of p b = Some (s, e) /\ succs !! e = Some js /\ j ∈ js /\ of_inst p j = Some b'.

Lemma block_successors_spec b : b < B -> exists r, block_successors succs p b = Some r /\ Forall (fun k => k < B) r /\
  forall b', b' ∈ r <-> block_edge b b'.
Proof.
  intros Hb. destruct (pk_span _ _ _ Hp b Hb) as (s & e & Hs & Hse & _ & _ & Hto). rw /block_successors Hs /=.
  destruct (lookup_lt_is_Some_2 succs e) as [js Hjs]; [rw (fo_succs _ _ _ _ _ Hf); lia|]. rw Hjs /=.
  assert (Forall (fun j => is_Some (of_inst p j)) js) as [r Hr]%mapM_is_Some_2.
  { apply Forall_forall. intros j Hj. destruct (Hto _ _ Hjs Hj) as (b' & e' & -> & _). done. }
  exists r. split; [done|]. pose proof (mapM_elem _ _ _ Hr) as He. split.
  - apply Forall_forall. intros b' (j & Hj & Hof)%He. destruct (Hto _ _ Hjs Hj) as (b2 & e' & ? & ? & _). by simplify_eq.
  - intros b'. rw He. split.
    + intros (j & Hj & Hof). by exists s, e, js, j.
    + intros (s' & e' & js' & j & Hs' & Hjs' & Hj & Hof). simplify_eq. by exists j.
Qed.

Lemma successor_table : exists table, mapM (block_successors succs p) (seq 0 B) = Some table /\ length table = B /\
  (forall b r, table !! b = Some r -> Forall (fun k => k < B) r) /\
  forall b b', b < B -> (exists r, table !! b = Some r /\ b' ∈ r) <-> block_edge b b'.
Proof.
  assert (Forall (fun b => is_Some (block_successors succs p b)) (seq 0 B)) as [table Hm]%mapM_is_Some_2.
  { apply Forall_forall. intros b Hb%elem_of_seq. destruct (block_successors_spec b) as (r & -> & _); [lia|done]. }
  exists table. split; [done|]. apply mapM_Some_1 in Hm. pose proof (Forall2_length _ _ _ Hm) as Hl. rewrite length_seq in Hl.
  assert (forall b r, table !! b = Some r -> b < B /\ block_successors succs p b = Some r) as Hr.
  { intros b r Hb. destruct (Forall2_lookup_r _ _ _ _ _ Hm Hb) as (b2 & Hb2 & Hr). apply lookup_seq in Hb2 as [-> ?]. by split; [lia|]. }
  split_and!; [done| |].
  - intros b r Hb. destruct (Hr _ _ Hb) as [Hlt He]. destruct (block_successors_spec b Hlt) as (r' & ? & ? & _). by simplify_eq.
  - intros b b' Hb. destruct (block_successors_spec b Hb) as (r & Hbr & _ & He). rw -He. split.
    + intros (r' & Hr' & Hin). destruct (Hr _ _ Hr') as [_ ?]. by simplify_eq.
    + intros Hin. destruct (lookup_lt_is_Some_2 table b) as [r' Hr']; [lia|]. destruct (Hr _ _ Hr') as [_ ?]. simplify_eq. by exists r.
Qed.

(** *** The worklist *)

Section Loop.
Context (preds : Adjacency) (deg : nat -> nat).
Hypothesis Hpreds : forall b, b < B -> exists ps, adj_of preds b = Some ps /\ length ps = deg b /\
  Forall (fun q => q < B) ps /\ forall q, q < B -> block_edge q b -> q ∈ ps.

Definition room L (b : nat) : nat := (w - length (default [] (L !! b))) * deg b.
Definition budget (st : solve_state) : nat := length (so_queue st) + sum_list (room (so_live_in st) <$> seq 0 B).

Definition queue_ok (queue : list nat) (queued : list bool) : Prop :=
  length queued = B /\ NoDup queue /\ forall b, queued !! b = Some true <-> b ∈ queue.

(** The sets stay below the paths and grow; a block that is not queued is
    stable. *)
Record solve_inv (st : solve_state) : Prop := {
  si_table : table_ok (so_live_in st);
  si_sound : table_sound (so_live_in st);
  si_scratch : set_ok w (so_scratch st);
  si_queue : queue_ok (so_queue st) (so_queued st);
  si_grow b l v : so_live_in st !! b = Some l -> v ∈ l -> flow (so_live_in st) b v;
  si_stable b l v : so_queued st !! b = Some false -> so_live_in st !! b = Some l -> flow (so_live_in st) b v -> v ∈ l;
}.

Lemma requeue_spec ps queue queued : queue_ok queue queued -> Forall (fun q => q < B) ps ->
  exists queue' queued', fold_opt requeue (queue, queued) ps = Some (queue', queued') /\ queue_ok queue' queued' /\
    length queue' <= length queue + length ps /\
    (forall q, q ∈ ps -> queued' !! q = Some true) /\ (forall q, queued' !! q = Some false -> queued !! q = Some false) /\
    (forall q, queued !! q = Some true -> queued' !! q = Some true).
Proof.
  intros Hq Hps. revert queue queued Hq. induction Hps as [|q ps Hqb _ IH]; intros queue queued Hq; simpl.
  { exists queue, queued. split_and!; [done..|lia|set_solver|done|done]. }
  destruct Hq as (Hl & Hnd & Hiff). destruct (lookup_lt_is_Some_2 queued q) as [x Hx]; [lia|].
  assert (requeue (queue, queued) q = Some (if x then (queue, queued) else (queue ++ [q], <[q:=true]> queued))) as -> by by rewrite /requeue /= Hx.
  destruct x; simpl.
  - destruct (IH queue queued) as (queue' & queued' & -> & Hok & Hlen & Hin & Hfalse & Htrue); [done|].
    exists queue', queued'. split_and!; [done..|lia| |done|done]. intros q' [->|?]%elem_of_cons; auto.
  - assert (q ∉ queue) as Hnq by (rw -Hiff; congruence).
    destruct (IH (queue ++ [q]) (<[q:=true]> queued)) as (queue' & queued' & -> & Hok & Hlen & Hin & Hfalse & Htrue).
    { split_and!; [by rw length_insert| |].
      - apply NoDup_app. split_and!; [done| |apply NoDup_singleton]. intros y Hy ->%list_elem_of_singleton. done.
      - intros b. rw elem_of_app list_elem_of_singleton. destruct (decide (q = b)) as [->|Hne].
        + rw list_lookup_insert_eq; [|lia]. naive_solver.
        + rw list_lookup_insert_ne // Hiff. naive_solver. }
    assert (<[q:=true]> queued !! q = Some true) as Hqt by (apply list_lookup_insert_eq; lia).
    exists queue', queued'. rewrite length_app /= in Hlen. simpl. split_and!; [done..|lia| | |].
    + intros q' [->|?]%elem_of_cons; auto.
    + intros q' Hq'. apply Hfalse in Hq'. destruct (decide (q = q')) as [->|]; [by rewrite Hqt in Hq'|].
      rewrite list_lookup_insert_ne in Hq'; done.
    + intros q' Hq'. apply Htrue. destruct (decide (q = q')) as [->|]; [done|]. by rw list_lookup_insert_ne.
Qed.

Lemma queue_pop b queue queued : queue_ok (b :: queue) queued -> queue_ok queue (<[b := false]> queued) /\ b < B.
Proof.
  intros (Hl & Hnd & Hiff). apply NoDup_cons in Hnd as [Hnb Hnd].
  assert (queued !! b = Some true) as Hb by (apply Hiff; by left). apply lookup_lt_Some in Hb as Hlt.
  split; [|lia]. split_and!; [by rw length_insert|done|]. intros q. destruct (decide (b = q)) as [->|Hne].
  - rw list_lookup_insert_eq //; naive_solver.
  - rw list_lookup_insert_ne // Hiff elem_of_cons; naive_solver.
Qed.

Lemma after_insert L b b' l v : ~ block_edge b' b -> after succs p (<[b := l]> L) b' v -> after succs p L b' v.
Proof.
  intros Hne (s & e & js & j & b2 & l2 & Hs & Hjs & Hj & Hof & Hl & Hv). exists s, e, js, j, b2, l2.
  rewrite list_lookup_insert_ne in Hl; [done|]. intros <-. apply Hne. by exists s, e, js, j.
Qed.

Lemma flow_insert L b b' l v : ~ block_edge b' b -> flow (<[b := l]> L) b' v -> flow L b' v.
Proof.
  intros Hne (s & e & Hs & Hth). exists s, e. split; [done|]. eapply thru_mono; [|done]. intros u. by apply after_insert.
Qed.

Lemma publish_row s : set_ok w s -> NoDup (publish s) /\ Forall (fun v => v < w) (publish s) /\ forall v, v ∈ publish s <-> v ∈ elts s.
Proof.
  intros Hs. destruct (publish_spec w s Hs) as (_ & Hnd & Hperm). split; [done|].
  assert (forall v, v ∈ publish s <-> v ∈ elts s) as H by (intros v; by rw elem_of_elts Hperm). split; [|done].
  apply Forall_forall. intros v Hv. eapply set_ok_width; [done|]. by rw -elem_of_elts -H.
Qed.

Lemma table_insert L b s : table_ok L -> set_ok w s -> table_ok (<[b := publish s]> L).
Proof.
  intros [HL HLr] Hs. split; [by rw length_insert|]. intros b' l Hl. destruct (publish_row s Hs) as (? & ? & _).
  apply list_lookup_insert_Some in Hl as [(-> & <- & _)|[_ Hl]]; [done|by eapply HLr].
Qed.

(** A changed set is strictly larger. *)
Lemma grown_set (l l' : list nat) : NoDup l -> NoDup l' -> (forall v, v ∈ l -> v ∈ l') ->
  list_to_set (C := gset nat) l' <> list_to_set l -> S (length l) <= length l'.
Proof.
  intros Hl Hl' Hsub Hne. pose proof (NoDup_submseteq l l' Hl Hsub) as Hs.
  destruct (Nat.le_gt_cases (length l') (length l)) as [Hle|]; [exfalso|done].
  apply Hne. apply submseteq_length_Permutation in Hs; [|done]. by rw Hs.
Qed.

Lemma visit_unchanged st block queue scratch l : solve_inv st -> so_queue st = block :: queue -> so_live_in st !! block = Some l ->
  set_ok w scratch -> (forall v, v ∈ elts scratch <-> flow (so_live_in st) block v) -> elts scratch = list_to_set l ->
  solve_inv (mkSolve (so_live_in st) scratch queue (<[block := false]> (so_queued st))).
Proof.
  intros [HT Hsound _ Hq Hgrow Hstable] Hqueue Hl Hs Hv He. rewrite Hqueue in Hq. destruct (queue_pop _ _ _ Hq) as [Hq' Hb].
  split; simpl; [done..|]. intros b' l' v Hb' Hl' Hfl. destruct (decide (block = b')) as [->|Hne].
  - simplify_eq. rewrite -Hv He elem_of_list_to_set in Hfl. done.
  - rewrite list_lookup_insert_ne in Hb'; [|done]. by eapply Hstable.
Qed.

Lemma visit_changed st block queue queued scratch l : solve_inv st -> block < B ->
  so_live_in st !! block = Some l -> set_ok w scratch -> (forall v, v ∈ elts scratch <-> flow (so_live_in st) block v) ->
  queue_ok queue queued ->
  (forall q, queued !! q = Some false -> q = block \/ so_queued st !! q = Some false) ->
  (forall q, q < B -> block_edge q block -> queued !! q = Some true) ->
  solve_inv (mkSolve (<[block := publish scratch]> (so_live_in st)) scratch queue queued).
Proof.
  intros [HT Hsound _ Hq Hgrow Hstable] Hb Hl Hs Hv Hqok Hfalse Hedge.
  destruct (publish_row scratch Hs) as (Hnd & Hw & Hpv). destruct HT as [HTl HTr].
  assert (table_le (so_live_in st) (<[block := publish scratch]> (so_live_in st))) as Hle.
  { intros b' l1 l2 v H1 H2 Hin. apply list_lookup_insert_Some in H2 as [(-> & <- & _)|[_ H2]]; [|by simplify_eq].
    rw Hpv Hv. simplify_eq. by eapply Hgrow. }
  assert (forall b' v, flow (so_live_in st) b' v -> flow (<[block := publish scratch]> (so_live_in st)) b' v) as Hfm.
  { intros b' v. by apply flow_mono; [rw length_insert|]. }
  split; simpl; [by apply table_insert| |done|done| |].
  - intros b' l' s e v Hl' Hsp Hin. apply list_lookup_insert_Some in Hl' as [(-> & <- & _)|[_ Hl']]; [|by eapply Hsound].
    eapply (flow_sound w n); [done..|]. by rw -/flow -Hv -Hpv.
  - intros b' l' v Hl' Hin. apply Hfm. apply list_lookup_insert_Some in Hl' as [(-> & <- & _)|[_ Hl']]; [|by eapply Hgrow].
    by rw -Hv -Hpv.
  - intros b' l' v Hb' Hl' Hfl. assert (b' < B) as Hlt by (destruct Hqok as [<- _]; by eapply lookup_lt_Some).
    assert (~ block_edge b' block) as Hne by (intros He; by rewrite (Hedge _ Hlt He) in Hb').
    apply flow_insert in Hfl; [|done].
    apply list_lookup_insert_Some in Hl' as [(-> & <- & _)|[Hbb Hl']]; [by rw Hpv Hv|].
    destruct (Hfalse _ Hb') as [->|]; [done|]. by eapply Hstable.
Qed.

Lemma visit_block_spec st block queue : solve_inv st -> so_queue st = block :: queue ->
  exists st', visit_block succs inst_uses inst_defs p preds st block queue = Some st' /\ solve_inv st' /\ budget st' < budget st.
Proof.
  intros Hinv Hqueue. pose proof Hinv as [HT Hsound Hscr Hq Hgrow Hstable]. pose proof Hq as Hq0. rewrite Hqueue in Hq0.
  destruct (queue_pop _ _ _ Hq0) as [Hq' Hb]. rw /visit_block.
  assert (so_queued st !! block = Some true) as -> by (apply Hq; rw Hqueue; by left). simpl.
  destruct (transfer_block_spec w n succs inst_uses inst_defs p Hf Hp (so_live_in st) block (so_scratch st)) as (scratch & -> & Hs & Hv); [done..|]. simpl.
  destruct (lookup_lt_is_Some_2 (so_live_in st) block) as [l Hl]; [destruct HT as [-> _]; done|]. rw Hl /=.
  destruct HT as [HTl HTr]. destruct (HTr _ _ Hl) as [Hnd Hw]. rw (matches_solved_spec w scratch l Hs Hw Hnd) /=.
  case_bool_decide as He.
  { eexists. split; [done|]. split; [by eapply visit_unchanged|]. rw /budget Hqueue /=. lia. }
  destruct (Hpreds block Hb) as (ps & -> & Hdeg & Hps & Hedge). simpl.
  destruct (requeue_spec ps queue _ Hq' Hps) as (queue' & queued' & -> & Hok & Hlen & Hin & Hfalse & Htrue). simpl.
  eexists. split; [done|]. split.
  - eapply visit_changed; try done.
    + intros q Hqf. apply Hfalse in Hqf. destruct (decide (block = q)) as [->|]; [by left|right].
      by rewrite list_lookup_insert_ne in Hqf.
    + intros q Hqb Hqe. apply Hin. by apply Hedge.
  - destruct (publish_row scratch Hs) as (Hndp & Hwp & Hpv). rw /budget Hqueue /=.
    assert (S (length l) <= length (publish scratch)) as Hgr.
    { apply grown_set; [done..| |].
      - intros v Hin'. rw Hpv Hv. by eapply Hgrow.
      - intros Heq. apply He. rw -Heq. apply set_eq. intros v. by rw elem_of_list_to_set Hpv. }
    assert (length (publish scratch) <= w) as Hlw.
    { assert (publish scratch ⊆+ seq 0 w) as Hsub%submseteq_length; [|by rewrite length_seq in Hsub].
      apply NoDup_submseteq; [done|]. intros v Hvp. apply elem_of_seq. rewrite Forall_forall in Hwp. specialize (Hwp v Hvp). lia. }
    pose proof (sum_update (room (so_live_in st)) (room (<[block := publish scratch]> (so_live_in st))) block (deg block) B Hb) as Hsum.
    enough (sum_list (room (<[block := publish scratch]> (so_live_in st)) <$> seq 0 B) + deg block <=
      sum_list (room (so_live_in st) <$> seq 0 B)) by lia.
    apply Hsum.
    + intros k Hk Hne. rw /room list_lookup_insert_ne //.
    + rw /room list_lookup_insert_eq; [|rw HTl //]. rw Hl /=. nia.
Qed.

Lemma solve_loop_spec fuel st : solve_inv st -> budget st < fuel ->
  exists st', solve_loop succs inst_uses inst_defs fuel p preds st = Some st' /\ solve_inv st' /\ so_queue st' = [].
Proof.
  revert st. induction fuel as [|fuel IH]; intros st Hinv Hlt; [lia|]. simpl.
  destruct (so_queue st) as [|block queue] eqn:Hq; [by exists st|].
  destruct (visit_block_spec st block queue Hinv Hq) as (st1 & -> & Hinv1 & Hb). simpl. apply IH; [done|lia].
Qed.

Lemma solve_inv_start : solve_inv (mkSolve (replicate B []) (with_width w) (rev (seq 0 B)) (replicate B true)).
Proof.
  split; simpl.
  - split; [by rw length_replicate|]. intros b l [-> _]%lookup_replicate. by split; [apply NoDup_nil|].
  - intros b l s e v [-> _]%lookup_replicate _ ?%not_elem_of_nil. done.
  - apply set_ok_empty.
  - split_and!; [by rw length_replicate|rw -Permutation_rev; apply NoDup_seq|]. intros b.
    rw lookup_replicate -Permutation_rev elem_of_seq. naive_solver lia.
  - intros b l v [-> _]%lookup_replicate ?%not_elem_of_nil. done.
  - intros b l v [? _]%lookup_replicate. done.
Qed.

Lemma solved_exact st : solve_inv st -> so_queue st = [] ->
  table_ok (so_live_in st) /\ forall b, block_exact succs inst_uses inst_defs p (so_live_in st) b.
Proof.
  intros [HT Hsound _ Hq _ Hstable] Hnil. split; [done|]. apply (closed_exact w n); [done..|].
  intros b l v Hl Hfl. destruct HT as [HTl _]. rewrite Hnil in Hq. destruct Hq as (Hlq & _ & Hiff).
  destruct (lookup_lt_is_Some_2 (so_queued st) b) as [x Hx]; [rw Hlq /B -HTl; by eapply lookup_lt_Some|].
  destruct x; [by apply Hiff, not_elem_of_nil in Hx|]. by eapply Hstable.
Qed.
End Loop.

(** *** The sweep *)

Lemma span_mono b b' s e s' e' : b <= b' -> b' < B -> span_of p b = Some (s, e) -> span_of p b' = Some (s', e') -> s <= s'.
Proof.
  intros Hb. revert s' e'. induction Hb as [|b' Hb IH]; intros s' e' Hlt Hs Hs'; [by simplify_eq|].
  destruct (pk_span _ _ _ Hp b') as (s1 & e1 & Hs1 & Hse & _); [lia|]. specialize (IH s1 e1 ltac:(lia) Hs Hs1).
  destruct (pk_next _ _ _ Hp b' s1 e1 Hlt Hs1) as (e2 & Hs2). simplify_eq. lia.
Qed.

Lemma sweep_exact : (forall i js j, succs !! i = Some js -> j ∈ js -> i < j) ->
  exists st, fold_opt (sweep_block succs inst_uses inst_defs p) (replicate B [], with_width w) (rev (seq 0 B)) = Some st /\
    table_ok st.1 /\ forall b, block_exact succs inst_uses inst_defs p st.1 b.
Proof.
  intros Hfwd. destruct (fold_opt_total_rev (sweep_block succs inst_uses inst_defs p) (fun k st => table_ok st.1 /\ set_ok w st.2 /\
      forall b, k <= b -> block_exact succs inst_uses inst_defs p st.1 b) 0 B (replicate B [], with_width w)) as (st & Hst & HT & _ & Hex).
  - destruct solve_inv_start as [HT _ Hs _ _ _]; simpl in *.
    split_and!; [done..|]. intros b Hb l s e v Hl. apply lookup_lt_Some in Hl. rewrite length_replicate in Hl. lia.
  - intros k [L scratch] Hk (HT & Hs & Hex). simpl in *. destruct (pk_span _ _ _ Hp k) as (s & e & Hspan & Hse & _ & _ & Hto); [lia|].
    destruct (transfer_block_spec w n succs inst_uses inst_defs p Hf Hp L k scratch HT Hs) as (scratch' & Hft & Hs' & Hv); [lia|].
    rw /sweep_block /= Hft /=. destruct (lookup_lt_is_Some_2 L k) as [l Hl]; [destruct HT as [-> _]; lia|]. rw Hl /=.
    eexists. split; [done|]. simpl. split_and!; [by apply table_insert|done|]. intros b Hb l' s' e' v Hl' Hsp.
    apply list_lookup_insert_Some in Hl' as [(<- & <- & _)|[Hne Hl']]; [|by eapply (Hex b); [lia|..]].
    destruct (publish_row scratch' Hs') as (_ & _ & ->). rw Hv. eapply (flow_exact w n); [done..|by destruct HT|lia|done|].
    intros js j b' Hjs Hj Hof. simplify_eq. destruct (Hto _ _ Hjs Hj) as (b2 & e2 & ? & Hb2 & Hsp2). simplify_eq.
    apply Hex. pose proof (Hfwd _ _ _ Hjs Hj). destruct (Nat.le_gt_cases (S k) b') as [|Hle]; [done|exfalso].
    pose proof (span_mono b' k _ _ _ _ ltac:(lia) ltac:(lia) Hsp2 Hspan). lia.
  - exists st. split_and!; [done..|]. intros b. apply Hex. lia.
Qed.

Lemma sum_scaled c (f : nat -> nat) l : sum_list ((fun k => c * f k) <$> l) = c * sum_list (f <$> l).
Proof. induction l as [|k l IH]; simpl; [lia|]. by rw IH Nat.mul_add_distr_l. Qed.

(** Both ways of solving give each block the registers live at its start. *)
Lemma solve_block_liveness_spec back : (back = false -> forall i js j, succs !! i = Some js -> j ∈ js -> i < j) ->
  exists L, solve_block_liveness w succs inst_uses inst_defs p back = Some L /\ table_ok L /\
    forall b, block_exact succs inst_uses inst_defs p L b.
Proof.
  intros Hback. rw /solve_block_liveness. fold B. destruct back; cycle 1.
  { destruct (sweep_exact (Hback eq_refl)) as (st & -> & ?). by exists st.1. }
  destruct successor_table as (table & -> & Hl & Hb & He). cbn [mbind option_bind].
  destruct (predecessor_csr_spec table) as (adj & -> & Htl & ps & Hps & Hpl & Hin & Hadj).
  { rw Hl. by apply (pk_len _ _ _ Hp). } { by rw Hl. }
  cbn [mbind option_bind]. rewrite Hl in Hps, Hadj. set (deg := fun k => length (row ps k)).
  assert (forall b, b < B -> exists qs, adj_of adj b = Some qs /\ length qs = deg b /\
    Forall (fun q => q < B) qs /\ forall q, q < B -> block_edge q b -> q ∈ qs) as Hpreds.
  { intros b Hlt. exists (row ps b). split_and!; [by apply Hadj|done| |].
    - apply Forall_forall. intros q (r & Hr & _)%elem_of_row%Hin. apply lookup_lt_Some in Hr. lia.
    - intros q Hq Hqe. apply elem_of_row, Hin. by apply He. }
  destruct (solve_loop_spec adj deg Hpreds (S (B + w * length (targets adj)))
    (mkSolve (replicate B []) (with_width w) (rev (seq 0 B)) (replicate B true)) solve_inv_start) as (st & -> & Hinv & Hnil).
  - rw /budget /= length_rev length_seq Htl -Hpl -(off_total ps B Hps) /off -(sum_scaled w).
    enough (sum_list (room deg (replicate B []) <$> seq 0 B) = sum_list ((fun k => w * length (row ps k)) <$> seq 0 B)) as ->; [rw list_fmap_compose; lia|].
    f_equal. apply list_fmap_ext. intros i b Hbi. rw /room. apply lookup_seq in Hbi as [-> Hbi].
    assert (replicate B ([] : list nat) !! (0 + i) = Some []) as -> by (by apply lookup_replicate). simpl. rw /deg. lia.
  - simpl. exists (so_live_in st). split; [done|]. by apply solved_exact.
Qed.
End Solve.
