(* ===== verification/LiveRanges.v ===== *)
(** * Live ranges and liveness rows

    The ranges built from definitions, uses and block boundaries are the hulls
    of liveness; the rows swept out of the blocks are liveness itself. *)

From stdpp Require Import gmap sorting.
From S2P Require Import Prelude Csr Sched Live LiveSets LiveBlocks LiveSolve.
Import Machine.

(** The tightest interval around the indices of a property, as far as they are
    asked about. *)
Definition hull_on (R P : nat -> Prop) (r : option LiveRange) : Prop :=
  match r with
  | None => forall i, ~ P i
  | Some r => P (r_start r) /\ P (r_end r) /\ r_start r <= r_end r /\ forall i, R i -> P i -> r_start r <= i <= r_end r
  end.
Definition hull := hull_on (fun _ => True).

Lemma hull_iff (P Q : nat -> Prop) r : (forall i, P i <-> Q i) -> hull P r -> hull Q r.
Proof.
  intros H. destruct r as [r|]; simpl.
  - intros (H1 & H2 & Hle & H3). split_and!; [by apply H..|done|]. intros i _ Hi. by apply H3, H.
  - intros H1 i Hi. by apply (H1 i), H.
Qed.

(** A property inside another whose points it surrounds has the same hull. *)
Lemma hull_around (R P Q : nat -> Prop) r : (forall i, P i -> Q i) -> (forall i, Q i -> exists j, P j) ->
  (forall i, R i -> Q i -> exists a c, P a /\ P c /\ a <= i <= c) -> hull P r -> hull_on R Q r.
Proof.
  intros HPQ Hex Hbet. destruct r as [r|]; simpl.
  - intros (H1 & H2 & Hle & H3). split_and!; [by apply HPQ..|done|]. intros i HR Hi. destruct (Hbet i HR Hi) as (a & c & Ha & Hc & Hac).
    pose proof (H3 a I Ha). pose proof (H3 c I Hc). lia.
  - intros H1 i Hi. destruct (Hex i Hi) as (j & Hj). by apply (H1 j).
Qed.

(** ** Ranges *)

Section Ranges.
Context (w : nat).
Implicit Types (rs : list (option LiveRange)) (P Q : nat -> nat -> Prop).

Definition hulls P rs : Prop := length rs = w /\ forall v r, rs !! v = Some r -> hull (P v) r.

Lemma hulls_iff P Q rs : (forall v i, P v i <-> Q v i) -> hulls P rs -> hulls Q rs.
Proof. intros H [Hl Hr]. split; [done|]. intros v r Hv. eapply hull_iff; [intros; apply H|]. by eapply Hr. Qed.

Lemma hulls_empty : hulls (fun _ _ => False) (replicate w None).
Proof. split; [by rw length_replicate|]. intros v r [-> _]%lookup_replicate. intros i []. Qed.

Lemma extend_spec P rs v idx : hulls P rs -> v < w ->
  exists rs', extend rs (v, idx) = Some rs' /\ hulls (fun u i => P u i \/ (u = v /\ i = idx)) rs'.
Proof.
  intros [Hl Hr] Hv. rw /extend. destruct (lookup_lt_is_Some_2 rs v) as [slot Hs]; [lia|]. rw Hs /=. eexists. split; [done|].
  split; [by rw length_insert|]. intros u r Hu. apply list_lookup_insert_Some in Hu as [(<- & <- & _)|[Hne Hu]]; cycle 1.
  { eapply hull_iff; [|by eapply Hr]. intros i. naive_solver. }
  specialize (Hr _ _ Hs). destruct slot as [r|]; simpl in *.
  - destruct Hr as (H1 & H2 & Hle & H3). split_and!.
    + case_match; auto.
    + case_match; auto.
    + destruct (Nat.ltb_spec idx (r_start r)), (Nat.ltb_spec (r_end r) idx); lia.
    + intros i _ Hi. destruct (Nat.ltb_spec idx (r_start r)), (Nat.ltb_spec (r_end r) idx), Hi as [Hi|[_ ->]];
        try pose proof (H3 i I Hi); pose proof (H3 _ I H1); lia.
  - split_and!; [by right..|done|]. intros i _ [Hi|[_ ->]]; [by apply Hr in Hi|lia].
Qed.

#[local] Arguments extend : simpl never.

Lemma extend_all_spec P rs idx vs : hulls P rs -> Forall (fun v => v < w) vs ->
  exists rs', extend_all idx rs vs = Some rs' /\ hulls (fun u i => P u i \/ (u ∈ vs /\ i = idx)) rs'.
Proof.
  intros Hr Hvs. revert P rs Hr. induction Hvs as [|v vs Hv _ IH]; intros P rs Hr; simpl.
  { exists rs. split; [done|]. eapply hulls_iff; [|done]. set_solver. }
  rw /extend_all /=. destruct (extend_spec P rs v idx Hr Hv) as (r1 & -> & Hr1). simpl. destruct (IH _ _ Hr1) as (r2 & H2 & Hr2).
  exists r2. split; [done|]. eapply hulls_iff; [|done]. intros u i. simpl. rw elem_of_cons. tauto.
Qed.

Section Flow.
Context (n : nat) (succs inst_uses inst_defs : list (list nat)).
Hypothesis Hf : flow_ok w n succs inst_uses inst_defs.
Hypothesis Hn : 0 < n.
Let used := used_at inst_uses.
Let defined := defined_at inst_defs.
Let live := live_at succs inst_uses inst_defs.
Let live_after := live_out succs inst_uses inst_defs.

Definition touched (v i : nat) : Prop := defined_at inst_defs i v \/ used_at inst_uses i v.

Lemma touched_lt v i : touched v i -> i < n.
Proof.
  intros [(ds & H%lookup_lt_Some & _)|(us & H%lookup_lt_Some & _)].
  - by rewrite (fo_defs _ _ _ _ _ Hf) in H.
  - by rewrite (fo_uses _ _ _ _ _ Hf) in H.
Qed.

Lemma extend_inst_spec P rs i : i < n -> hulls P rs ->
  exists rs', extend_inst inst_uses inst_defs rs i = Some rs' /\ hulls (fun u k => P u k \/ (touched u k /\ k = i)) rs'.
Proof.
  intros Hi Hr. rw /extend_inst. destruct (lookup_lt_is_Some_2 inst_defs i) as [ds Hds]; [rw (fo_defs _ _ _ _ _ Hf) //|].
  destruct (lookup_lt_is_Some_2 inst_uses i) as [us Hus]; [rw (fo_uses _ _ _ _ _ Hf) //|]. rw Hds /=.
  destruct (extend_all_spec P rs i ds Hr (fo_defined _ _ _ _ _ Hf _ _ Hds)) as (r1 & -> & Hr1). rw /= Hus /=.
  destruct (extend_all_spec _ r1 i us Hr1 (fo_used _ _ _ _ _ Hf _ _ Hus)) as (r2 & -> & Hr2). exists r2. split; [done|].
  eapply hulls_iff; [|done]. intros u k. simpl. rw /touched /defined_at /used_at. split.
  - intros [[?|[? ->]]|[? ->]]; [by left|right; split; [left|]; eauto|right; split; [right|]; eauto].
  - intros [?|[[(? & ? & ?)|(? & ? & ?)] ->]]; simplify_eq; tauto.
Qed.

Lemma touched_ranges : exists rs, fold_opt (extend_inst inst_uses inst_defs) (replicate w None) (seq 0 n) = Some rs /\ hulls touched rs.
Proof.
  destruct (fold_opt_total_seq (extend_inst inst_uses inst_defs) (fun k rs => hulls (fun v i => touched v i /\ i < k) rs) 0 n (replicate w None))
    as (rs & Hrs & Hr).
  - eapply hulls_iff; [|apply hulls_empty]. intros. simpl. lia.
  - intros k rs Hk Hr. destruct (extend_inst_spec _ rs k ltac:(lia) Hr) as (rs' & ? & Hr'). exists rs'. split; [done|].
    eapply hulls_iff; [|done]. intros v i. simpl. split; [intros [[? ?]|[? ->]]; (split; [done|lia])|].
    intros [? ?]. destruct (decide (i = k)); [by right|left; split; [done|lia]].
  - exists rs. split; [done|]. eapply hulls_iff; [|done]. intros v i. simpl. split; [tauto|]. intros H. split; [done|].
    by apply touched_lt in H.
Qed.

(** A register is live where a path uses it; a use is somewhere. *)
Lemma live_touched i v : live i v -> exists j, touched v j.
Proof. induction 1 as [i us v Hu Hv|i ds js j v Hd Hv Hjs Hj Hl IH]; [|done]. exists i. right. by exists us. Qed.

Definition occupied (v i : nat) : Prop := defined_at inst_defs i v \/ live_at succs inst_uses inst_defs i v.

Lemma touched_occupied v i : touched v i -> occupied v i.
Proof. intros [?|(us & ? & ?)]; [by left|right]. by eapply live_use. Qed.

(** *** Without back edges *)

Definition flows (i j : nat) : Prop := exists js, succs !! i = Some js /\ j ∈ js.
Definition reachable (i : nat) : Prop := rtc flows 0 i.

Hypothesis Hentry : forall v, ~ live_at succs inst_uses inst_defs 0 v.

Lemma live_step_back i j v : i < n -> flows i j -> live j v -> ~ defined i v -> live i v.
Proof.
  intros Hi (js & Hjs & Hj) Hl Hnd. apply live_at_eq; [by rw (fo_defs _ _ _ _ _ Hf)|]. right. split; [done|]. by exists js, j.
Qed.

Lemma flows_lt i j : flows i j -> i < n.
Proof. intros (js & H%lookup_lt_Some & _). by rewrite (fo_succs _ _ _ _ _ Hf) in H. Qed.

Lemma live_has_def i v : (forall i j, flows i j -> i < j) -> reachable i -> live i v -> exists a, a < i /\ defined a v.
Proof.
  intros Hfwd Hr. revert v. pattern i. revert i Hr. apply rtc_ind_r; [by intros v Hl%Hentry|]. intros j i Hr Hji IH v Hl.
  destruct (lookup_lt_is_Some_2 inst_defs j) as [ds Hds];
    [rw (fo_defs _ _ _ _ _ Hf); by eapply flows_lt|].
  destruct (decide (v ∈ ds)) as [Hd|Hd].
  - exists j. split; [by apply Hfwd|by exists ds].
  - destruct (IH v) as (a & ? & ?).
    + eapply live_step_back; [by eapply flows_lt|done..|]. intros (ds' & ? & ?). by simplify_eq.
    + exists a. split; [pose proof (Hfwd _ _ Hji); lia|done].
Qed.

Lemma live_has_use i v : (forall i j, flows i j -> i < j) -> live i v -> exists c, i <= c /\ used c v.
Proof.
  intros Hfwd. induction 1 as [i us v Hu Hv|i ds js j v Hd Hv Hjs Hj Hl (c & Hc & Hu)].
  - exists i. split; [done|by exists us].
  - exists c. assert (i < j) by (apply Hfwd; by exists js). split; [lia|done].
Qed.

Lemma forward_hull v r : (forall i j, flows i j -> i < j) -> hull (touched v) r -> hull_on reachable (occupied v) r.
Proof.
  intros Hfwd. apply hull_around.
  - apply touched_occupied.
  - intros i [?|Hl]; [exists i; by left|]. by eapply live_touched.
  - intros i Hr [?|Hl]; [exists i, i; split_and!; [by left..|lia|lia]|].
    destruct (live_has_def i v Hfwd Hr Hl) as (a & ? & ?). destruct (live_has_use i v Hfwd Hl) as (c & ? & ?).
    exists a, c. split_and!; [by left|by right|lia|lia].
Qed.

(** *** With them, through the blocks *)

Section Cyclic.
Context (p : BlockPartition) (L : list (list VReg)).
Hypothesis Hp : partition_ok p n succs.
Hypothesis HT : table_ok w p L.
Hypothesis Hex : forall b, block_exact succs inst_uses inst_defs p L b.

Definition bounded_in (b v i : nat) : Prop :=
  exists s e, span_of p b = Some (s, e) /\ ((i = s /\ live_at succs inst_uses inst_defs s v) \/ (i = e /\ live_out succs inst_uses inst_defs e v)).

Lemma extend_block_spec P rs out b : b < blocks_len p -> hulls P rs -> set_ok w out ->
  exists rs' out', extend_block succs (mkBlockLiveness p L) (rs, out) b = Some (rs', out') /\ set_ok w out' /\
    hulls (fun v i => P v i \/ bounded_in b v i) rs'.
Proof.
  intros Hb Hr Hs. destruct (pk_span _ _ _ Hp b Hb) as (s & e & Hsp & _). rw /extend_block /= Hsp /=.
  destruct HT as [HTl HTr]. destruct (lookup_lt_is_Some_2 L b) as [l Hl]; [lia|]. destruct (HTr _ _ Hl) as [_ Hlw]. rw Hl /=.
  destruct (extend_all_spec P rs s l Hr Hlw) as (r1 & -> & Hr1). simpl.
  destruct (collect_spec w n succs inst_uses inst_defs p Hf Hp L b out HT Hs Hb) as (out' & -> & Hs' & Hv). simpl.
  destruct (extend_all_spec _ r1 e (members out') Hr1) as (r2 & -> & Hr2).
  { apply Forall_forall. intros v. by apply set_ok_width. }
  simpl. exists r2, out'. split_and!; [done..|]. eapply hulls_iff; [|done]. intros v i. simpl.
  rewrite -elem_of_elts Hv (after_exact n succs inst_uses inst_defs p Hp L b s e v HTl Hb Hsp); [|intros; apply Hex].
  rw (Hex b l s e v Hl Hsp) /bounded_in. split; [naive_solver|]. intros [?|(s' & e' & Hsp' & H)]; [tauto|]. simplify_eq. tauto.
Qed.

Definition bounded (v i : nat) : Prop := exists b, b < blocks_len p /\ bounded_in b v i.

Lemma cyclic_ranges rs : hulls touched rs ->
  exists st, fold_opt (extend_block succs (mkBlockLiveness p L)) (rs, with_width w) (seq 0 (blocks_len p)) = Some st /\
    hulls (fun v i => touched v i \/ bounded v i) st.1.
Proof.
  intros Hr. destruct (fold_opt_total_seq (extend_block succs (mkBlockLiveness p L))
      (fun k st => set_ok w st.2 /\ hulls (fun v i => touched v i \/ exists b, b < k /\ bounded_in b v i) st.1) 0 (blocks_len p) (rs, with_width w))
    as (st & Hst & _ & Hh).
  - split; [apply set_ok_empty|]. eapply hulls_iff; [|done]. intros v i. simpl. split; [by left|]. intros [?|(b & ? & _)]; [done|lia].
  - intros k [rs1 out] Hk [Hs Hh]. destruct (extend_block_spec _ rs1 out k ltac:(lia) Hh Hs) as (rs2 & out2 & -> & Hs2 & Hh2).
    eexists. split; [done|]. split; [done|]. eapply hulls_iff; [|done]. intros v i. simpl. split.
    + intros [[?|(b & ? & ?)]|?]; [by left|right; exists b; by split; [lia|]|right; exists k; by split; [lia|]].
    + intros [?|(b & Hb & ?)]; [tauto|]. destruct (decide (b = k)) as [->|]; [tauto|]. left. right. exists b. by split; [lia|].
  - by exists st.
Qed.

Lemma bounded_occupied v i : touched v i \/ bounded v i -> occupied v i.
Proof.
  intros [?|(b & Hb & s & e & Hsp & [[-> Hl]|[-> Hl]])]; [by apply touched_occupied|by right|].
  destruct (span_facts _ _ _ _ _ _ Hp Hb Hsp) as (Hse & _). destruct (lookup_lt_is_Some_2 inst_defs e) as [ds Hds]; [rw (fo_defs _ _ _ _ _ Hf); lia|].
  destruct (decide (v ∈ ds)); [left; by exists ds|right]. destruct Hl as (js & j & Hjs & Hj & Hl). by eapply live_step.
Qed.

(** From a point where a register is live, downwards and upwards inside the
    block, to a point that extended its range. *)
Lemma live_down b s e v k : b < blocks_len p -> span_of p b = Some (s, e) -> s + k <= e -> live (s + k) v ->
  exists a, (touched v a \/ bounded v a) /\ s <= a <= s + k.
Proof.
  intros Hb Hsp. destruct (span_facts _ _ _ _ _ _ Hp Hb Hsp) as (Hse & _ & Hst & _). induction k as [|k IH]; intros Hk Hl.
  - rewrite Nat.add_0_r in Hl. exists s. split; [right|lia]. exists b. split; [done|]. exists s, e. auto.
  - destruct (lookup_lt_is_Some_2 inst_defs (s + k)) as [ds Hds]; [rw (fo_defs _ _ _ _ _ Hf); lia|].
    destruct (decide (v ∈ ds)) as [Hd|Hd]; [exists (s + k); split; [do 2 left; by exists ds|lia]|].
    destruct IH as (a & ? & ?); [lia| |exists a; split; [done|lia]]. eapply live_step; [done..|apply Hst; lia|by left|].
    by rw -Nat.add_succ_r.
Qed.

Lemma live_up b s e v k : b < blocks_len p -> span_of p b = Some (s, e) -> s + k <= e -> live (e - k) v ->
  exists c, (touched v c \/ bounded v c) /\ e - k <= c <= e.
Proof.
  intros Hb Hsp. destruct (span_facts _ _ _ _ _ _ Hp Hb Hsp) as (Hse & _ & Hst & _).
  induction k as [|k IH]; intros Hk Hl; (apply live_at_eq in Hl as [Hu|[_ Hl]]; [| |rw (fo_defs _ _ _ _ _ Hf); lia]).
  - exists e. rewrite Nat.sub_0_r in Hu. split; [left; by right|lia].
  - rewrite Nat.sub_0_r in Hl. exists e. split; [right|lia]. exists b. split; [done|]. exists s, e. auto.
  - exists (e - S k). split; [left; by right|lia].
  - destruct Hl as (js & j & Hjs & Hj & Hl). rewrite (Hst (e - S k)) in Hjs; [|lia]. injection Hjs as <-.
    apply list_elem_of_singleton in Hj as ->. replace (S (e - S k)) with (e - k) in Hl by lia.
    destruct IH as (c & ? & ?); [lia|done|]. exists c. (split; [done|lia]).
Qed.

Lemma cyclic_hull v r : hull (fun i => touched v i \/ bounded v i) r -> hull_on (fun i => i < n) (occupied v) r.
Proof.
  apply hull_around.
  - apply bounded_occupied.
  - intros i [?|Hl]; [exists i; left; by left|]. apply live_touched in Hl as [j ?]. exists j. by left.
  - intros i Hi [?|Hl]; [exists i, i; split_and!; [left; by left..|lia|lia]|].
    destruct (pk_of _ _ _ Hp i Hi) as (b & s & e & _ & Hb & Hsp & Hse).
    destruct (live_down b s e v (i - s)) as (a & ? & ?); [done..|lia|by replace (s + (i - s)) with i by lia|].
    destruct (live_up b s e v (e - i)) as (c & ? & ?); [done..|lia|by replace (e - (e - i)) with i by lia|].
    exists a, c. split_and!; [done..|lia|lia].
Qed.

(** *** Rows *)

Definition row_exact (i : nat) (r : InstructionLiveness) : Prop :=
  il_index r = i /\ inst_defs !! i = Some (il_defs r) /\ inst_uses !! i = Some (il_uses r) /\ NoDup (il_live_in r) /\ NoDup (il_live_out r) /\
  (forall v, v ∈ il_live_in r <-> live_at succs inst_uses inst_defs i v) /\
  (forall v, v ∈ il_live_out r <-> live_out succs inst_uses inst_defs i v).

Lemma row_of_spec rows s i : i < n -> set_ok w s -> (forall v, v ∈ elts s <-> live_after i v) ->
  exists r s', row_of inst_uses inst_defs (rows, s) i = Some (rows ++ [r], s') /\ row_exact i r /\ set_ok w s' /\
    (forall v, v ∈ elts s' <-> live i v).
Proof.
  intros Hi Hs Hv. rw /row_of /=. destruct (transfer_inst_spec w n succs inst_uses inst_defs Hf i s Hi Hs) as (s' & -> & Hs' & Hv'). simpl.
  destruct (lookup_lt_is_Some_2 inst_defs i) as [ds Hds]; [rw (fo_defs _ _ _ _ _ Hf); lia|].
  destruct (lookup_lt_is_Some_2 inst_uses i) as [us Hus]; [rw (fo_uses _ _ _ _ _ Hf); lia|]. rw Hds /= Hus /=.
  assert (forall v, v ∈ elts s' <-> live i v) as Hl.
  { intros v. rw Hv' /live live_at_eq ?Hv //. by rw (fo_defs _ _ _ _ _ Hf). }
  eexists _, s'. split; [done|]. split; [|done]. rw /row_exact /=. split_and!; try done; [by eapply set_ok_nodup..| |].
  - intros v. by rw -elem_of_elts.
  - intros v. by rw -elem_of_elts.
Qed.

Lemma block_rows_spec rows0 scratch b s e : b < blocks_len p -> span_of p b = Some (s, e) -> set_ok w scratch -> length rows0 = s ->
  (forall i r, rows0 !! i = Some r -> row_exact i r) ->
  exists rows scratch', block_rows succs inst_uses inst_defs (mkBlockLiveness p L) (rows0, scratch) b = Some (rows, scratch') /\
    set_ok w scratch' /\ length rows = S e /\ forall i r, rows !! i = Some r -> row_exact i r.
Proof.
  intros Hb Hsp Hs Hl0 Hr0. destruct (span_facts _ _ _ _ _ _ Hp Hb Hsp) as (Hse & _ & Hst & _). rw /block_rows /= Hsp /=.
  destruct (collect_spec w n succs inst_uses inst_defs p Hf Hp L b scratch HT Hs Hb) as (out & -> & Hso & Hv). simpl. rw Nat.add_1_r.
  assert (forall v, v ∈ elts out <-> live_after e v) as Hvo.
  { intros v. rw Hv. eapply after_exact; try done. by destruct HT. }
  destruct (fold_opt_total_rev (row_of inst_uses inst_defs) (fun k st => set_ok w st.2 /\
      (forall v, s < k -> v ∈ elts st.2 <-> live_after (k - 1) v) /\ length st.1 = S e - k /\
      forall i r, rev st.1 !! i = Some r -> row_exact (k + i) r) s (S e - s) ([], out)) as ([rs scr] & -> & Hscr & _ & Hlr & Hrr).
  - replace (s + (S e - s)) with (S e) by lia. simpl. rw Nat.sub_0_r. split_and!; [done|intros; apply Hvo|lia|done].
  - intros k [rs scr] Hk (Hscr & Hvs & Hlr & Hrr). simpl in *. 
    destruct (row_of_spec rs scr k) as (r & scr' & -> & Hre & Hscr' & Hvs'); [lia|done| |].
    { intros v. rewrite Hvs; [|lia]. by rw Nat.sub_0_r. }
    eexists. split; [done|]. simpl. split_and!; [done| |rw length_app /=; lia|].
    + intros v Hsk. rw Hvs'. rw /live_after /live_out (Hst (k - 1)); [|lia]. replace (S (k - 1)) with k by lia.
      split; [by exists [k], k; set_solver|]. intros (js & j & [= <-] & ->%list_elem_of_singleton & ?). done.
    + rw rev_app_distr /=. intros [|i] r' Hi; simpl in Hi; [simplify_eq; by rw Nat.add_0_r|]. rw Nat.add_succ_r. by apply (Hrr i).
  - simpl in *. eexists _, scr. split; [done|]. split_and!; [done|rw length_app length_rev; lia|].
    intros i r [Hi|[Hge Hi]]%lookup_app_Some; [by apply Hr0|]. replace i with (s + (i - length rows0)) by lia. by apply Hrr.
Qed.

Lemma rows_spec : exists rows, instruction_liveness_rows w succs inst_uses inst_defs n (mkBlockLiveness p L) = Some rows /\
  length rows = n /\ forall i r, rows !! i = Some r -> row_exact i r.
Proof.
  pose proof (pk_len _ _ _ Hp) as Hlen. rw /instruction_liveness_rows.
  destruct (fold_opt_total_seq (block_rows succs inst_uses inst_defs (mkBlockLiveness p L)) (fun k st => set_ok w st.2 /\
      (k < blocks_len p -> exists e, span_of p k = Some (length st.1, e)) /\ (k = blocks_len p -> length st.1 = n) /\
      forall i r, st.1 !! i = Some r -> row_exact i r) 0 (blocks_len p) ([], with_width w)) as (st & Hst & _ & _ & Hl & Hr).
  - split_and!; [apply set_ok_empty|intros _; by apply (pk_first _ _ _ Hp)|lia|done].
  - intros k [rows scr] Hk (Hs & Hsp & _ & Hr). destruct (Hsp ltac:(lia)) as (e & Hspk). simpl in *.
    destruct (block_rows_spec rows scr k _ e ltac:(lia) Hspk Hs eq_refl Hr) as (rows' & scr' & -> & Hs' & Hl' & Hr').
    eexists. split; [done|]. simpl. split_and!; [done| | |done].
    + intros Hlt. rw Hl'. by eapply (pk_next _ _ _ Hp).
    + intros He. rw Hl'. eapply (pk_last _ _ _ Hp). replace (blocks_len p - 1) with k by lia. done.
  - rw /= Hst /=. simpl in Hl. rw Hl // Nat.eqb_refl. exists st.1. split_and!; [done|by apply Hl|done].
Qed.
End Cyclic.

Lemma ranges_forward : (forall i j, flows i j -> i < j) ->
  exists rs, build_live_ranges w succs inst_uses inst_defs n None = Some rs /\ length rs = w /\
    forall v r, rs !! v = Some r -> hull_on reachable (occupied v) r.
Proof.
  intros Hfwd. destruct touched_ranges as (rs & Hrs & Hl & Hr). rw /build_live_ranges Hrs /=. exists rs. split_and!; [done..|].
  intros v r Hv. apply forward_hull; [done|]. by apply Hr.
Qed.

Lemma ranges_cyclic p L : partition_ok p n succs -> table_ok w p L -> (forall b, block_exact succs inst_uses inst_defs p L b) ->
  exists rs, build_live_ranges w succs inst_uses inst_defs n (Some (mkBlockLiveness p L)) = Some rs /\ length rs = w /\
    forall v r, rs !! v = Some r -> hull_on (fun i => i < n) (occupied v) r.
Proof.
  intros Hp HT Hex. destruct touched_ranges as (rs & Hrs & Hh). rw /build_live_ranges Hrs /=.
  destruct (cyclic_ranges p L Hp HT Hex rs Hh) as (st & -> & Hl & Hr). simpl. exists st.1. split_and!; [done..|].
  intros v r Hv. eapply cyclic_hull; [done|]. by apply Hr.
Qed.
End Flow.
End Ranges.
