(* ===== verification/LiveDiverge.v ===== *)
(** * Divergence

    The instructions control can only leave by aborting: a least fixed point,
    computed by retiring edges from the calls that never return. *)

From stdpp Require Import gmap sorting.
From S2P Require Import Prelude Csr Sched Live LiveSolve.
Import Machine.

(** ** Counting *)

Definition occ (x : nat) (l : list nat) : nat := length (filter (fun y => y = x) l).

Lemma occ_app x l l' : occ x (l ++ l') = occ x l + occ x l'.
Proof. by rw /occ filter_app length_app. Qed.

Lemma occ_cons x y l : occ x (y :: l) = (if decide (y = x) then 1 else 0) + occ x l.
Proof. rw /occ filter_cons. by case_decide. Qed.

Lemma occ_elem x l : x ∈ l -> 0 < occ x l.
Proof.
  intros Hx. rw /occ. assert (x ∈ filter (fun y => y = x) l) as H by by apply list_elem_of_filter.
  destruct (filter _ l); [by apply not_elem_of_nil in H|simpl; lia].
Qed.

Lemma occ_not_elem x l : x ∉ l -> occ x l = 0.
Proof.
  intros Hx. induction l as [|y l IH]; [done|]. apply not_elem_of_cons in Hx as [Hne Hx]. rw occ_cons decide_False //. by apply IH.
Qed.

Lemma filter_out (P : nat -> Prop) `{forall x, Decision (P x)} x l : P x ->
  length (filter P l) = length (filter (fun y => P y /\ y <> x) l) + occ x l.
Proof.
  intros Hx. induction l as [|y l IH]; [done|]. rw occ_cons !filter_cons.
  destruct (decide (y = x)) as [->|Hne]; repeat case_decide; simpl; naive_solver lia.
Qed.

Lemma filter_same (P Q : nat -> Prop) `{forall x, Decision (P x)} `{forall x, Decision (Q x)} l :
  (forall x, x ∈ l -> P x <-> Q x) -> length (filter P l) = length (filter Q l).
Proof.
  induction l as [|y l IH]; intros HPQ; [done|]. rw !filter_cons. pose proof (HPQ y ltac:(by left)).
  assert (length (filter P l) = length (filter Q l)) by (apply IH; intros; apply HPQ; by right). repeat case_decide; simpl; naive_solver lia.
Qed.

Lemma filter_lt (P Q : nat -> Prop) `{forall x, Decision (P x)} `{forall x, Decision (Q x)} x l :
  (forall y, Q y -> P y) -> x ∈ l -> P x -> ~ Q x -> length (filter Q l) < length (filter P l).
Proof.
  intros HQP Hx HP HQ. pose proof (occ_elem x l Hx) as Hocc. enough (length (filter Q l) + occ x l <= length (filter P l)) by lia.
  clear Hx Hocc. induction l as [|y l IH]; [done|]. rw occ_cons !filter_cons.
  repeat case_decide; simplify_eq/=; naive_solver lia.
Qed.

(** ** The least fixed point *)

Section Divergence.
Context (succs : list (list nat)) (non_returning : list bool).
Let n := length succs.
Hypothesis Hnr : length non_returning = n.
Hypothesis Hsuccs : forall i js, succs !! i = Some js -> Forall (fun j => j < n) js.

Inductive diverges : nat -> Prop :=
| diverges_call i : non_returning !! i = Some true -> diverges i
| diverges_all i js : succs !! i = Some js -> js <> [] -> (forall j, j ∈ js -> diverges j) -> diverges i.

(** *** The predecessor rows *)

Let ps := pairs_of succs (seq 0 n).

Lemma place_rows st : fold_opt (fun st e => fold_opt (fun st succ => place_at st succ e.1) st e.2) st (imap pair succs) =
  fold_opt (fun st p => place_at st p.1 p.2) st ps.
Proof.
  rewrite -place_pairs; [|apply Forall_forall; intros x Hx%elem_of_seq; simpl in *; subst n; lia].
  assert (forall pre suf st, succs = pre ++ suf ->
    fold_opt (fun st e => fold_opt (fun st succ => place_at st succ e.1) st e.2) st (imap (fun i => pair (length pre + i)) suf) =
    fold_opt (fun st source => row ← succs !! source; fold_opt (fun st succ => place_at st succ source) st row) st (seq (length pre) (length suf))) as H.
  { clear st. intros pre suf. revert pre. induction suf as [|r suf IH]; intros pre st Heq; [done|]. simpl.
    rw Nat.add_0_r. assert (succs !! length pre = Some r) as -> by by rw Heq list_lookup_middle. simpl.
    destruct (fold_opt _ st r) as [st'|]; [|done]. simpl. assert (S (length pre) = length (pre ++ [r])) as -> by (rw length_app /=; lia).
    rewrite -IH; [|by rw -app_assoc]. f_equal. apply imap_ext. intros i x _. simpl. f_equal. rw length_app /=. lia. }
  by apply (H []).
Qed.

Lemma occ_row p k srcs : NoDup srcs ->
  occ p (row (pairs_of succs srcs) k) = if decide (p ∈ srcs) then occ k (row_of_source succs p) else 0.
Proof.
  intros Hnd. induction srcs as [|src srcs IH]; [done|]. apply NoDup_cons in Hnd as [Hn Hnd].
  change (pairs_of succs (src :: srcs)) with (((fun k => (k, src)) <$> row_of_source succs src) ++ pairs_of succs srcs).
  rw row_app occ_app IH //.
  assert (forall r, occ p (row ((fun k => (k, src)) <$> r) k) = if decide (src = p) then occ k r else 0) as ->.
  { induction r as [|y r IHr]; [by destruct (decide (src = p))|]. rw fmap_cons (row_app [_]) row_one occ_app IHr /= (occ_cons k y).
    destruct (decide (y = k)), (decide (src = p)) as [Hs|Hs]; rewrite ?occ_cons ?(decide_True _ _ Hs) ?(decide_False _ _ Hs); done. }
  destruct (decide (src = p)) as [->|Hne].
  - rw decide_False // decide_True; [lia|by left].
  - destruct (decide (p ∈ srcs)) as [Hp|Hp]; [rw decide_True; [lia|by right]|]. rw decide_False; [lia|].
    by intros [?|?]%elem_of_cons.
Qed.

(** *** The worklist *)

Definition processed (ds : list bool) (wl : list nat) (j : nat) : Prop := ds !! j = Some true /\ j ∉ wl.

(** Successors still open. *)
Definition pend (ds : list bool) (wl js : list nat) : nat := length (filter (fun j => ~ (ds !! j = Some true /\ j ∉ wl)) js).

Record div_inv (ds : list bool) (um wl : list nat) : Prop := {
  dv_len : length ds = n /\ length um = n;
  dv_wl : NoDup wl /\ forall j, j ∈ wl -> ds !! j = Some true;
  dv_sound i : ds !! i = Some true -> diverges i;
  dv_count p js : succs !! p = Some js -> ds !! p = Some false -> um !! p = Some (pend ds wl js) /\ (js <> [] -> 0 < pend ds wl js);
  dv_call i : non_returning !! i = Some true -> ds !! i = Some true;
}.

(** While the predecessors of [idx] are walked, it still counts as open. *)
Record walk_inv (idx : nat) (done0 : nat -> Prop) (ds : list bool) (um wl pre : list nat) : Prop := {
  wk_len : length ds = n /\ length um = n;
  wk_wl : NoDup (idx :: wl) /\ forall j, j ∈ idx :: wl -> ds !! j = Some true;
  wk_sound i : ds !! i = Some true -> diverges i;
  wk_done j : done0 j <-> processed ds (idx :: wl) j;
  wk_count p js : succs !! p = Some js -> ds !! p = Some false ->
    exists c, um !! p = Some c /\ c + occ p pre = pend ds (idx :: wl) js /\ (js <> [] -> 0 < c);
  wk_call i : non_returning !! i = Some true -> ds !! i = Some true;
}.

Lemma pend_ext ds ds' wl wl' js : (forall j, j ∈ js -> processed ds wl j <-> processed ds' wl' j) -> pend ds wl js = pend ds' wl' js.
Proof. intros H. apply filter_same. intros j Hj. specialize (H j Hj). rw /processed in H. naive_solver. Qed.

Lemma pend_zero ds wl js : (forall j, j ∈ js -> processed ds wl j) -> pend ds wl js = 0.
Proof.
  intros H. rw /pend. induction js as [|j js IH]; [done|]. rw filter_cons decide_False.
  - apply IH. intros; apply H; by right.
  - intros Hn. apply Hn, H. by left.
Qed.

Lemma pend_pos ds wl js : 0 < pend ds wl js -> exists j, j ∈ js /\ ~ processed ds wl j.
Proof.
  rw /pend. intros Hp. destruct (filter _ js) as [|j l] eqn:Hf; [simpl in Hp; lia|].
  assert (j ∈ j :: l) as Hj by by left. rewrite -Hf list_elem_of_filter in Hj. exists j. rw /processed. tauto.
Qed.

(** All open successors are [idx]. *)
Lemma pend_occ ds wl js idx : idx ∈ wl -> pend ds wl js <= occ idx js -> forall j, j ∈ js -> j <> idx -> processed ds wl j.
Proof.
  intros Hidx Hle j Hj Hne. rewrite /pend (filter_out _ idx) in Hle; [|tauto].
  destruct (decide (ds !! j = Some true /\ j ∉ wl)) as [|Hnp]; [done|exfalso].
  assert (j ∈ filter (fun y => ~ (ds !! y = Some true /\ y ∉ wl) /\ y <> idx) js) as Hin by by apply list_elem_of_filter.
  destruct (filter _ js); [by apply not_elem_of_nil in Hin|]. simpl in Hle. lia.
Qed.

Let preds_of (idx : nat) : list nat := row ps idx.

Lemma occ_preds p idx js : succs !! p = Some js -> occ p (preds_of idx) = occ idx js.
Proof.
  intros Hjs. rw /preds_of /ps occ_row; [|apply NoDup_seq]. rw decide_True; [by rw /row_of_source Hjs|].
  apply elem_of_seq. apply lookup_lt_Some in Hjs. lia.
Qed.

Lemma elem_preds p idx : p ∈ preds_of idx <-> exists js, succs !! p = Some js /\ idx ∈ js.
Proof.
  rw /preds_of elem_of_row elem_of_pairs elem_of_seq. split; [tauto|]. intros (js & Hjs & Hi). split; [|by exists js].
  apply lookup_lt_Some in Hjs. lia.
Qed.

Lemma walk_occ p q pre : p <> q -> occ q (pre ++ [p]) = occ q pre.
Proof. intros Hne. rw occ_app occ_cons decide_False //=. Qed.

Lemma processed_push ds wl p j : ds !! p = Some false -> processed (<[p := true]> ds) (p :: wl) j <-> processed ds wl j.
Proof.
  intros Hp. rw /processed. destruct (decide (p = j)) as [->|Hne].
  - rw list_lookup_insert_eq; [|by eapply lookup_lt_Some]. rw Hp. split; [intros [_ Hn]; exfalso; apply Hn; by left|naive_solver].
  - rw list_lookup_insert_ne // not_elem_of_cons. naive_solver.
Qed.

(** The last open edge of [p] goes. *)
Lemma retire_last idx done0 ds um wl pre p post js : preds_of idx = pre ++ p :: post -> walk_inv idx done0 ds um wl pre ->
  succs !! p = Some js -> idx ∈ js -> ds !! p = Some false -> um !! p = Some 1 ->
  walk_inv idx done0 (<[p := true]> ds) (<[p := 0]> um) (p :: wl) (pre ++ [p]).
Proof.
  intros Hpre [[Hld Hlu] [Hnd Hwl] Hsound Hdone Hcount Hcall] Hjs Hidx Hd Hc.
  assert (p < n) as Hp by by eapply lookup_lt_Some.
  destruct (Hcount p js Hjs Hd) as (c & Hc' & Hsum & _). simplify_eq.
  pose proof (occ_preds p idx js Hjs) as Hocc. rewrite Hpre occ_app occ_cons decide_True in Hocc; [|done].
  assert (p ∉ idx :: wl) as Hpw by (intros Hin; apply Hwl in Hin; congruence).
  assert (forall i, ds !! i = Some true -> <[p := true]> ds !! i = Some true) as Hkeep.
  { intros i Hi. destruct (decide (p = i)) as [->|]; [congruence|by rw list_lookup_insert_ne]. }
  assert (forall j, processed ds (idx :: wl) j <-> processed (<[p := true]> ds) (idx :: p :: wl) j) as Hproc.
  { intros j. rw -(processed_push ds (idx :: wl) p j Hd) /processed. rw !not_elem_of_cons. tauto. }
  split.
  - by rw !length_insert.
  - split.
    + apply not_elem_of_cons in Hpw as [Hpi Hpw]. apply NoDup_cons in Hnd as [Hi Hnd]. apply NoDup_cons. split.
      { apply not_elem_of_cons. by split. } by apply NoDup_cons.
    + intros j Hj. destruct (decide (p = j)) as [->|Hne]; [apply list_lookup_insert_eq; lia|]. apply Hkeep, Hwl. set_solver.
  - intros i Hi. destruct (decide (p = i)) as [->|Hne]; [|rewrite list_lookup_insert_ne in Hi; auto].
    apply (diverges_all i js Hjs); [by intros ->; apply not_elem_of_nil in Hidx|]. intros j Hj.
    destruct (decide (j = idx)) as [->|Hne]; [apply Hsound, Hwl; by left|]. apply Hsound.
    apply (pend_occ ds (idx :: wl) js idx); [by left|lia|done|done].
  - intros j. by rw Hdone.
  - intros q js' Hq Hqd. assert (p <> q) as Hne by (intros ->; rewrite list_lookup_insert_eq in Hqd; [done|lia]).
    rewrite list_lookup_insert_ne in Hqd; [|done]. destruct (Hcount q js' Hq Hqd) as (c & Hcq & Hsum' & Hpos').
    exists c. rw list_lookup_insert_ne // walk_occ //. split_and!; [done| |done]. rw Hsum'. apply pend_ext. intros j _. apply Hproc.
  - intros i Hi. by apply Hkeep, Hcall.
Qed.

Lemma retire_spec idx done0 ds um wl pre p post : preds_of idx = pre ++ p :: post -> walk_inv idx done0 ds um wl pre ->
  exists ds' um' wl', retire_edge (ds, um, wl) p = Some (ds', um', wl') /\ walk_inv idx done0 ds' um' wl' (pre ++ [p]).
Proof.
  intros Hpre Hinv. pose proof Hinv as [[Hld Hlu] [Hnd Hwl] Hsound Hdone Hcount Hcall].
  assert (p ∈ preds_of idx) as (js & Hjs & Hidx)%elem_preds by (rw Hpre; apply elem_of_app; right; by left).
  assert (p < n) as Hp by by eapply lookup_lt_Some. rw /retire_edge.
  destruct (lookup_lt_is_Some_2 ds p) as [d Hd]; [lia|]. rw Hd /=. destruct d.
  { exists ds, um, wl. split; [done|]. split; [done..| |done]. intros q js' Hq Hqd. assert (p <> q) as Hne by (intros ->; congruence).
    destruct (Hcount q js' Hq Hqd) as (c & Hc & Hsum & Hpos). exists c. rw walk_occ //. }
  destruct (Hcount p js Hjs Hd) as (c & Hc & Hsum & Hpos). rw Hc /=.
  assert (0 < c) as Hc0 by (apply Hpos; by intros ->; apply not_elem_of_nil in Hidx). destruct c as [|k]; [lia|].
  destruct (Nat.eqb_spec k 0) as [->|Hk]; [by eexists _, _, _; split; [done|eapply retire_last]|].
  eexists _, _, _. split; [done|]. split; [by rw ?length_insert|done..| |done]. intros q js' Hq Hqd. destruct (decide (p = q)) as [->|Hne].
  - simplify_eq. exists k. rw list_lookup_insert_eq; [|lia]. rw occ_app occ_cons decide_True //=. change (occ q []) with 0.
    split_and!; [done|lia|intros; lia].
  - destruct (Hcount q js' Hq Hqd) as (c & ? & ? & ?). exists c. rw list_lookup_insert_ne // walk_occ //.
Qed.

Lemma visit_divergence ds um idx wl : div_inv ds um (idx :: wl) ->
  exists ds' um' wl', fold_opt retire_edge (ds, um, wl) (preds_of idx) = Some (ds', um', wl') /\ div_inv ds' um' wl' /\
    forall j, processed ds' wl' j <-> processed ds (idx :: wl) j \/ j = idx.
Proof.
  intros [Hlen [Hnd Hwl] Hsound Hcount Hcall].
  destruct (fold_opt_total retire_edge (fun pre st => walk_inv idx (processed ds (idx :: wl)) st.1.1 st.1.2 st.2 pre) (preds_of idx) (ds, um, wl))
    as ([[ds' um'] wl'] & Hf & [Hlen' [Hnd' Hwl'] Hsound' Hdone' Hcount' Hcall']).
  - split; simpl; try done. intros p js Hp Hd. destruct (Hcount p js Hp Hd) as [Hc Hpos]. exists (pend ds (idx :: wl) js).
    split_and!; [done|rw /occ /=; lia|done].
  - intros pre p [[ds1 um1] wl1] [post Hpre] Hw. simpl in *.
    destruct (retire_spec _ _ _ _ _ _ _ _ Hpre Hw) as (ds2 & um2 & wl2 & Hr & Hw2). by exists (ds2, um2, wl2).
  - simpl in *. exists ds', um', wl'. split; [done|]. apply NoDup_cons in Hnd' as Hn2. destruct Hn2 as [Hi2 Hnd2].
    assert (ds' !! idx = Some true) as Hidx by (apply Hwl'; by left). split; [split|].
    + done.
    + split; [done|]. intros j Hj. apply Hwl'. by right.
    + done.
    + intros p js Hp Hd. destruct (Hcount' p js Hp Hd) as (c & Hc & Hsum & Hpos). rewrite (occ_preds p idx js Hp) in Hsum.
      assert (c = pend ds' wl' js) as ->; [|done]. rewrite /pend (filter_out _ idx) in Hsum; [|intros [_ Hn]; apply Hn; by left].
      assert (c = length (filter (fun y => ~ (ds' !! y = Some true /\ y ∉ idx :: wl') /\ y <> idx) js)) as -> by lia.
      apply filter_same. intros j _. rw not_elem_of_cons. destruct (decide (j = idx)) as [->|]; [|tauto]. tauto.
    + done.
    + intros j. rw Hdone' /processed not_elem_of_cons. destruct (decide (j = idx)) as [->|]; tauto.
Qed.

Definition open_count (ds : list bool) (wl : list nat) : nat := pend ds wl (seq 0 n).

Section Loop.
Context (adj : Adjacency).
Hypothesis Hadj : forall k, k < n -> adj_of adj k = Some (preds_of k).

Lemma divergence_loop_spec fuel ds um wl : div_inv ds um wl -> open_count ds wl < fuel ->
  exists ds', divergence_loop fuel adj (ds, um, wl) = Some ds' /\ length ds' = n /\ forall i, ds' !! i = Some true <-> diverges i.
Proof.
  revert ds um wl. induction fuel as [|fuel IH]; intros ds um wl Hinv Hlt; [lia|]. simpl. destruct wl as [|idx wl].
  - exists ds. destruct Hinv as [[Hl _] _ Hsound Hcount Hcall]. split_and!; [done..|]. intros i. split; [apply Hsound|].
    induction 1 as [i Hi|i js Hjs Hne Hj IHj]; [by apply Hcall|].
    destruct (lookup_lt_is_Some_2 ds i) as [d Hd]; [rw Hl; by eapply lookup_lt_Some|]. destruct d; [done|exfalso].
    destruct (Hcount i js Hjs Hd) as [_ Hpos]. destruct (pend_pos _ _ _ (Hpos Hne)) as (j & Hjin & Hnp). apply Hnp.
    split; [by apply IHj|]. by apply not_elem_of_nil.
  - assert (idx < n) as Hidx.
    { destruct Hinv as [[<- _] [_ Hwl] _ _ _]. eapply lookup_lt_Some, Hwl. by left. }
    rw Hadj // /=. destruct (visit_divergence ds um idx wl Hinv) as (ds' & um' & wl' & Hf & Hinv' & Hproc). rw Hf /=.
    apply IH; [done|]. enough (open_count ds' wl' < open_count ds (idx :: wl)) by lia.
    apply (filter_lt _ _ idx); [|by apply elem_of_seq; lia| |].
    + intros y Hy Hp. apply Hy, Hproc. by left.
    + intros [_ Hn]. apply Hn. by left.
    + intros Hy. apply Hy, Hproc. by right.
Qed.
End Loop.

Lemma seeds_elem i : i ∈ omap (fun e : nat * bool => if e.2 then Some e.1 else None) (imap pair non_returning) <-> non_returning !! i = Some true.
Proof.
  rw list_elem_of_omap. split.
  - intros ([k b] & Hin & He). apply list_elem_of_lookup in Hin as [m Hm]. rewrite list_lookup_imap in Hm.
    destruct (non_returning !! m) eqn:Hb; [|done]. simplify_eq/=. by destruct b; simplify_eq.
  - intros Hi. exists (i, true). split; [|done]. apply list_elem_of_lookup. exists i. by rw list_lookup_imap Hi.
Qed.

Lemma mark_seeds seeds ds : length ds = n -> Forall (fun i => i < n) seeds ->
  exists ds', fold_opt (fun d idx => _ ← d !! idx; Some (<[idx := true]> d)) ds seeds = Some ds' /\ length ds' = n /\
    forall i, ds' !! i = Some true <-> i ∈ seeds \/ ds !! i = Some true.
Proof.
  intros Hl Hs. revert ds Hl. induction Hs as [|i seeds Hi _ IH]; intros ds Hl; simpl.
  { exists ds. split_and!; [done..|]. intros j. split; [by right|]. by intros [?%not_elem_of_nil|?]. }
  destruct (lookup_lt_is_Some_2 ds i) as [x ->]; [lia|]. simpl. destruct (IH (<[i:=true]> ds)) as (ds' & -> & Hl' & H); [by rw length_insert|].
  exists ds'. split_and!; [done..|]. intros j. rw H elem_of_cons. destruct (decide (i = j)) as [->|Hne].
  - rw list_lookup_insert_eq; [|lia]. tauto.
  - rw list_lookup_insert_ne //. naive_solver.
Qed.

(** The computed flags are the least fixed point. *)
Lemma compute_divergence_spec : exists ds, compute_divergence succs non_returning = Some ds /\ length ds = n /\
  forall i, ds !! i = Some true <-> diverges i.
Proof.
  rw /compute_divergence. fold n. pose proof seeds_elem as Hse. set (seeds := omap _ (imap pair non_returning)) in *.
  destruct seeds as [|s0 sds] eqn:Hseeds.
  { exists (replicate n false). split_and!; [done|by rw length_replicate|]. intros i. split; [by intros [? _]%lookup_replicate|].
    induction 1 as [i Hi|i js Hjs Hne Hj IHj]; [by apply Hse, not_elem_of_nil in Hi|]. destruct js as [|j js]; [done|].
    specialize (IHj j ltac:(by left)). by apply lookup_replicate in IHj as [? _]. }
  assert (Forall (fun i => i < n) (s0 :: sds)) as Hsb.
  { apply Forall_forall. intros i Hi%Hse. apply lookup_lt_Some in Hi. lia. }
  destruct (mark_seeds (s0 :: sds) (replicate n false)) as (ds & -> & Hld & Hds); [by rw length_replicate|done|]. cbn [mbind option_bind].
  assert (Forall (fun p => p.1 < n) ps) as Hpb by by apply pairs_bound.
  destruct (csr_counts ps n Hpb) as (counts & Hc & Hl & H0 & Hk). rewrite /ps pairs_keys fold_opt_concat in Hc. rw Hc. cbn [mbind option_bind].
  destruct (csr_offsets _ _ _ Hl H0 Hk) as (os & -> & Hlo & Ho). cbn [mbind option_bind]. rw Ho //. cbn [mbind option_bind].
  destruct (csr_place ps n os (off ps n) Hpb Hlo Ho (off_total _ _ Hpb)) as (st & Hst & Hr & _).
  rw place_rows Hst. cbn [mbind option_bind]. destruct st as [os' preds].
  apply (divergence_loop_spec (mkAdjacency os preds) Hr _ ds (length <$> succs)); cycle 1.
  { rw /open_count /pend. pose proof (length_filter (fun j => ~ (ds !! j = Some true /\ j ∉ rev (s0 :: sds))) (seq 0 n)) as Hlf.
    rewrite length_seq in Hlf. lia. }
  assert (forall j, ds !! j = Some true <-> j ∈ s0 :: sds) as Hds2.
  { intros j. rw Hds. split; [intros [?|[? _]%lookup_replicate]; done|by left]. }
  assert (forall j, ~ processed ds (rev (s0 :: sds)) j) as Hnone.
  { intros j [Hj%Hds2 Hn]. apply Hn. by rw list_elem_of_In -in_rev -list_elem_of_In. }
  assert (NoDup (s0 :: sds)) as Hnd.
  { rw -Hseeds. apply NoDup_alt. intros i j x Hi Hj. destruct (decide (i = j)) as [|Hne]; [done|exfalso].
    destruct (omap_lookup_2 _ _ _ _ _ _ Hne Hi Hj) as (i' & j' & [a1 b1] & [a2 b2] & Hne' & Hi' & Hj' & Hf1 & Hf2).
    rewrite list_lookup_imap in Hi'. rewrite list_lookup_imap in Hj'.
    destruct (non_returning !! i'), (non_returning !! j'); simplify_eq/=. destruct b1, b2; simplify_eq. }
  split.
  - by rw length_fmap.
  - split; [by rw -Permutation_rev|]. intros j. rw -Permutation_rev. apply Hds2.
  - intros i Hi. apply diverges_call. by apply Hse, Hds2.
  - intros p js Hp Hd. rw list_lookup_fmap Hp. assert (pend ds (rev (s0 :: sds)) js = length js) as ->.
    { rw /pend. clear Hp. induction js as [|j js IHj]; [done|]. rw filter_cons decide_True; [simpl; by f_equal|]. apply Hnone. }
    split; [done|]. destruct js; [done|simpl; lia].
  - intros i Hi. by apply Hds2, Hse.
Qed.
End Divergence.

(** ** Registers a diverging instruction reads *)

Lemma mark_uses_spec us acc v : fold_left mark_use us acc !! v = Some true <-> acc !! v = Some true \/ (v ∈ us /\ v < length acc).
Proof.
  revert acc. induction us as [|u us IH]; intros acc; simpl; [split; [by left|by intros [?|[?%not_elem_of_nil _]]]|].
  rw IH /mark_use length_insert elem_of_cons. destruct (decide (u = v)) as [->|Hne].
  - destruct (decide (v < length acc)) as [Hlt|Hge].
    + rw list_lookup_insert_eq //. naive_solver.
    + rw list_insert_ge; [|lia]. naive_solver lia.
  - rw list_lookup_insert_ne //. naive_solver.
Qed.

Lemma mark_uses_length us acc : length (fold_left mark_use us acc) = length acc.
Proof. revert acc. induction us as [|u us IH]; intros acc; [done|]. simpl. by rw IH length_insert. Qed.

Lemma diverging_uses_spec w inst_uses ds : length inst_uses = length ds ->
  exists us, collect_diverging_uses w inst_uses ds = Some us /\ length us = w /\
    forall v, us !! v = Some true <-> v < w /\ exists i l, ds !! i = Some true /\ inst_uses !! i = Some l /\ v ∈ l.
Proof.
  intros Hl. rw /collect_diverging_uses.
  destruct (fold_opt_total_imap (fun acc e => d ← ds !! e.1; Some (if (d : bool) then fold_left mark_use e.2 acc else acc))
    (fun k acc => length acc = w /\ forall v, acc !! v = Some true <-> v < w /\ exists i l, i < k /\ ds !! i = Some true /\ inst_uses !! i = Some l /\ v ∈ l)
    inst_uses (replicate w false)) as (us & Hus & Hlen & Hv).
  - split; [by rw length_replicate|]. intros v. split; [by intros [? _]%lookup_replicate|]. intros (_ & i & l & ? & _). lia.
  - intros k l acc Hk [Hla Hacc]. simpl. destruct (lookup_lt_is_Some_2 ds k) as [d Hd]; [rw -Hl; by eapply lookup_lt_Some|]. rw Hd /=.
    eexists. split; [done|]. destruct d.
    + split; [by rw mark_uses_length|]. intros v. rw mark_uses_spec Hla Hacc. split.
      * intros [(? & i & l' & ? & ?)|[? ?]]; (split; [done|]); [exists i, l'|exists k, l]; (split; [lia|done]).
      * intros (? & i & l' & Hi & Hdi & Hli & Hin). destruct (decide (i = k)) as [->|]; [simplify_eq; by right|left].
        split; [done|]. exists i, l'. split; [lia|done].
    + split; [done|]. intros v. rw Hacc. split; intros (? & i & l' & Hi & Hdi & ?); (split; [done|]); exists i, l'; (split; [|done]).
      * lia.
      * destruct (decide (i = k)) as [->|]; [by simplify_eq|lia].
  - exists us. split_and!; [done..|]. intros v. rw Hv. split.
    + intros (? & i & l & _ & ?). split; [done|]. by exists i, l.
    + intros (? & i & l & ? & Hi & ?). split; [done|]. exists i, l. split_and!; try done. by eapply lookup_lt_Some.
Qed.
