(* ===== verification/LiveLoops.v ===== *)
(** * Loop depths

    The depth of an instruction is the number of back edges whose interval
    covers it; the sparse table over the runs of equal depth answers the
    maximum over a range. *)

From stdpp Require Import gmap sorting.
From S2P Require Import Prelude Csr Sched Live.
Import Machine.
Local Open Scope Z_scope.

(** ** Depths *)

(** The edges of a successor table, and those whose interval covers an index. *)
Definition edges (succs : list (list nat)) : list (nat * nat) := concat (imap (fun from js => pair from <$> js) succs).
Definition covers (i : nat) (e : nat * nat) : Prop := (e.2 <= i <= e.1)%nat.
#[export] Instance covers_dec i e : Decision (covers i e) := _.
Definition covering (succs : list (list nat)) (i : nat) : nat := length (filter (covers i) (edges succs)).

Definition psum (ds : list Z) (i : nat) : Z := foldr Z.add 0 (take (S i) ds).

Lemma psum_insert ds k d x i : ds !! k = Some d -> psum (<[k := d + x]> ds) i = psum ds i + (if (k <=? i)%nat then x else 0).
Proof.
  rw /psum. revert k i. induction ds as [|y ds IH]; intros [|k] [|i] Hk; simplify_eq/=; try lia.
  specialize (IH k i Hk). simpl in IH. rw IH. lia.
Qed.

Lemma psum_zeros m i : psum (replicate m 0) i = 0.
Proof. rw /psum take_replicate. induction (S i `min` m)%nat; simpl; lia. Qed.

Lemma add_delta_spec ds k x : (k < length ds)%nat ->
  exists ds', add_delta ds (k, x) = Some ds' /\ length ds' = length ds /\ forall i, psum ds' i = psum ds i + (if (k <=? i)%nat then x else 0).
Proof.
  intros Hk. rw /add_delta /=. destruct (lookup_lt_is_Some_2 ds k Hk) as [d Hd]. rw Hd /=. eexists. split; [done|].
  split; [by rw length_insert|]. intros i. by apply psum_insert.
Qed.

Lemma loop_edge_spec ds from to : (S from < length ds)%nat ->
  exists ds', loop_edge from ds to = Some ds' /\ length ds' = length ds /\
    forall i, psum ds' i = psum ds i + (if decide (covers i (from, to)) then 1 else 0).
Proof.
  intros Hf. rw /loop_edge /covers /=. destruct (Nat.ltb_spec from to).
  { exists ds. split_and!; [done..|]. intros i. rw decide_False; lia. }
  destruct (add_delta_spec ds to 1) as (d1 & -> & Hl1 & H1); [lia|]. simpl.
  destruct (add_delta_spec d1 (S from) (-1)) as (d2 & -> & Hl2 & H2); [lia|]. exists d2. split_and!; [done|lia|].
  intros i. rw H2 H1. destruct (Nat.leb_spec to i), (Nat.leb_spec (S from) i); case_decide; lia.
Qed.

Lemma loop_row_spec from js ds : (S from < length ds)%nat ->
  exists ds', fold_opt (loop_edge from) ds js = Some ds' /\ length ds' = length ds /\
    forall i, psum ds' i = psum ds i + Z.of_nat (length (filter (covers i) (pair from <$> js))).
Proof.
  revert ds. induction js as [|to js IH]; intros ds Hf; simpl; [exists ds; split_and!; [done..|intros; simpl; lia]|].
  destruct (loop_edge_spec ds from to Hf) as (d1 & -> & Hl1 & H1). simpl.
  destruct (IH d1) as (d2 & -> & Hl2 & H2); [lia|]. exists d2. split_and!; [done|lia|]. intros i. rw H2 H1 filter_cons.
  change (list_fmap _ _ (pair from) js) with (pair from <$> js). case_decide; simpl; lia.
Qed.

Lemma edges_snoc succs k js : succs !! k = Some js -> edges (take (S k) succs) = edges (take k succs) ++ (pair k <$> js).
Proof.
  intros Hk. rw (take_S_r _ _ _ Hk) /edges imap_app concat_app /= app_nil_r. f_equal.
  rw length_take Nat.add_0_r. apply lookup_lt_Some in Hk. by replace (k `min` length succs)%nat with k by lia.
Qed.

Lemma deltas_spec n succs : length succs = n ->
  exists ds, fold_opt (fun deltas e => fold_opt (loop_edge e.1) deltas e.2) (replicate (n + 1) 0) (imap pair succs) = Some ds /\
    length ds = S n /\ forall i, psum ds i = Z.of_nat (covering succs i).
Proof.
  intros Hl. destruct (fold_opt_total_imap (fun deltas e => fold_opt (loop_edge e.1) deltas e.2)
    (fun k ds => length ds = S n /\ forall i, psum ds i = Z.of_nat (covering (take k succs) i)) succs (replicate (n + 1) 0)) as (ds & Hf & Hld & Hs).
  - split; [rw length_replicate; lia|]. intros i. rw psum_zeros. done.
  - intros k js ds Hk [Hld Hs]. simpl. destruct (loop_row_spec k js ds) as (d2 & Hf2 & Hl2 & H2); [apply lookup_lt_Some in Hk; lia|].
    exists d2. split; [done|]. split; [lia|]. intros i. rw H2 Hs /covering (edges_snoc _ _ _ Hk) filter_app length_app. lia.
  - exists ds. split_and!; [done..|]. intros i. by rw Hs take_ge.
Qed.

Lemma depth_steps ds a acc : (fold_left depth_step ds (a, acc)).2 = acc ++ imap (fun i _ => saturated (a + psum ds i)) ds.
Proof.
  revert a acc. induction ds as [|d ds IH]; intros a acc; simpl; [by rw app_nil_r|]. rw IH -app_assoc /=. f_equal. f_equal.
  - f_equal. rw /psum /=. lia.
  - apply imap_ext. intros i x _. rw /psum /=. f_equal. lia.
Qed.

Lemma saturated_min (c : nat) : saturated (Z.of_nat c) = Z.min (Z.of_nat c) u32_max.
Proof.
  rw /saturated. destruct (checked_u 32 (Z.of_nat c)) as [r|] eqn:Hc; simpl.
  - apply checked_u_Some in Hc as [-> Hc]. rewrite /in_u in Hc. rw /u32_max. lia.
  - destruct (Z.lt_ge_cases (Z.of_nat c) (2 ^ 32)) as [Hlt|Hge]; [|rw /u32_max; lia].
    rewrite checked_u_in in Hc; [done|]. rw /in_u. lia.
Qed.

Definition loop_depth (succs : list (list nat)) (i : nat) : Z := Z.min (Z.of_nat (covering succs i)) u32_max.

(** ** The runs of equal depth *)

Lemma filter_none {A} (P : A -> Prop) `{forall x, Decision (P x)} l : Forall (fun x => ~ P x) l -> filter P l = [].
Proof. induction 1 as [|x l Hx _ IH]; [done|]. by rw filter_cons decide_False. Qed.

Lemma filter_all {A} (P : A -> Prop) `{forall x, Decision (P x)} l : Forall P l -> filter P l = l.
Proof. induction 1 as [|x l Hx _ IH]; [done|]. rw filter_cons decide_True // IH //. Qed.

Definition max_over (f : nat -> Z) (a b : nat) (m : Z) : Prop :=
  (forall i, (a <= i <= b)%nat -> f i <= m) /\ exists i, (a <= i <= b)%nat /\ f i = m.

Lemma max_over_union f a b c d x y : (a <= c <= S b)%nat -> (b <= d)%nat -> max_over f a b x -> max_over f c d y -> max_over f a d (Z.max x y).
Proof.
  intros Hac Hbd [H1 (i1 & Hi1 & He1)] [H2 (i2 & Hi2 & He2)]. split.
  - intros i Hi. destruct (Nat.le_gt_cases i b); [pose proof (H1 i ltac:(lia))|pose proof (H2 i ltac:(lia))]; lia.
  - destruct (Z.max_spec x y) as [[? ->]|[? ->]]; [exists i2|exists i1]; split; [lia|done|lia|done].
Qed.

(** Where the runs start and what their depths are, over the first [k] indices. *)
Record runs_inv (ds : list Z) (k : nat) (ss : list nat) (rd : list Z) : Prop := {
  rn_len : length ss = length rd;
  rn_start j s : ss !! j = Some s -> (s < k)%nat;
  rn_inc j s s' : ss !! j = Some s -> ss !! S j = Some s' -> (s < s')%nat;
  rn_val j s : ss !! j = Some s -> exists d, rd !! j = Some d /\ ds !! s = Some d;
  rn_row i : (i < k)%nat -> exists j s, ss !! j = Some s /\ (s <= i)%nat /\ (forall s', ss !! S j = Some s' -> (i < s')%nat) /\ rd !! j = ds !! i;
}.

Lemma push_run_spec ds k d ss rd : ds !! k = Some d -> runs_inv ds k ss rd ->
  exists ss' rd', push_run ds (ss, rd) (k, d) = Some (ss', rd') /\ runs_inv ds (S k) ss' rd'.
Proof.
  intros Hd [Hlen Hstart Hinc Hval Hrow]. rw /push_run.
  assert (runs_inv ds (S k) (ss ++ [k]) (rd ++ [d])) as Hfresh.
  { assert (forall j s, (ss ++ [k]) !! j = Some s -> ss !! j = Some s \/ (j = length ss /\ s = k)) as Hss.
    { intros j s [?|[Hge Hj]]%lookup_app_Some; [by left|right]. apply list_lookup_singleton_Some in Hj as [? <-]. split; [lia|done]. }
    split.
    - rw !length_app. simpl. lia.
    - intros j s [Hj|[_ ->]]%Hss; [apply Hstart in Hj|]; lia.
    - intros j s s' [Hj|[-> ->]]%Hss [Hj'|[Hl ->]]%Hss; [by eapply Hinc|by apply Hstart in Hj|apply lookup_lt_Some in Hj'; lia|lia].
    - intros j s [Hj|[-> ->]]%Hss.
      + destruct (Hval _ _ Hj) as (d' & ? & ?). exists d'. split; [by apply lookup_app_l_Some|done].
      + exists d. split; [|done]. by rw Hlen list_lookup_middle.
    - intros i Hi. destruct (decide (i = k)) as [->|Hne].
      + exists (length ss), k. split_and!; [by rw list_lookup_middle|lia| |by rw Hlen list_lookup_middle].
        intros s' Hs'%lookup_lt_Some. rewrite length_app /= in Hs'. lia.
      + destruct (Hrow i) as (j & s & Hj & Hle & Hnx & Hr); [lia|]. exists j, s.
        split_and!; [by apply lookup_app_l_Some|done| |].
        * intros s' [Hs'|[_ ->]]%Hss; [by apply Hnx|lia].
        * rw lookup_app_l //. rw -Hlen. by eapply lookup_lt_Some. }
  destruct k as [|k]; simpl; [by eexists _, _|]. destruct (lookup_lt_is_Some_2 ds k) as [b Hb]; [apply lookup_lt_Some in Hd; lia|].
  rw Hb /=. case_bool_decide as Hbd; [by eexists _, _|]. assert (b = d) as -> by (destruct (decide (d = b)); done). eexists _, _. split; [done|].
  split; [done|intros; apply Hstart in H; lia|done|done|]. intros i Hi. destruct (decide (i = S k)) as [->|Hne]; [|apply Hrow; lia].
  destruct (Hrow k) as (j & s & Hj & Hle & Hnx & Hr); [lia|]. exists j, s. split_and!; [done|lia| |by rw Hr Hb Hd].
  intros s' Hs'. pose proof (Hnx _ Hs'). pose proof (Hstart _ _ Hs'). lia.
Qed.

Lemma runs_spec ds : exists ss rd, fold_opt (push_run ds) ([], []) (imap pair ds) = Some (ss, rd) /\ runs_inv ds (length ds) ss rd.
Proof.
  destruct (fold_opt_total_imap (push_run ds) (fun k st => runs_inv ds k st.1 st.2) ds ([], [])) as ([ss rd] & Hf & Hr).
  - split; simpl; try done. lia.
  - intros k d [ss rd] Hk Hinv. destruct (push_run_spec ds k d ss rd Hk Hinv) as (ss' & rd' & Hp & Hr). by exists (ss', rd').
  - by exists ss, rd.
Qed.

Section Runs.
Context (ds : list Z) (ss : list nat) (rd : list Z).
Hypothesis Hinv : runs_inv ds (length ds) ss rd.
Local Open Scope nat_scope.

Lemma runs_mono j j' s s' : j < j' -> ss !! j = Some s -> ss !! j' = Some s' -> s < s'.
Proof.
  destruct Hinv as [_ _ Hinc _ _]. intros Hj. revert s'. induction Hj as [|j' Hj IH]; intros s' H1 H2; [by eapply Hinc|].
  destruct (lookup_lt_is_Some_2 ss j') as [t Ht]; [apply lookup_lt_Some in H2; lia|].
  pose proof (IH t H1 Ht). pose proof (Hinc _ _ _ Ht H2). lia.
Qed.

(** The last run that starts at or before an index holds it. *)
Lemma run_of_spec l i : run_starts l = ss -> i < length ds ->
  exists j s, run_of l i = Some j /\ ss !! j = Some s /\ s <= i /\ (forall s', ss !! S j = Some s' -> i < s') /\ rd !! j = ds !! i.
Proof.
  intros Hl Hi. destruct Hinv as [_ _ _ _ Hrow]. destruct (Hrow i Hi) as (j & s & Hj & Hle & Hnx & Hr). exists j, s.
  split; [|done]. rw /run_of Hl. assert (length (filter (fun start => start <= i) ss) = S j) as ->; [|done].
  apply lookup_lt_Some in Hj as Hjl. rw -{1}(take_drop (S j) ss) filter_app length_app.
  assert (filter (fun start => start <= i) (take (S j) ss) = take (S j) ss) as ->.
  { apply filter_all. apply Forall_forall. intros x [m Hm]%list_elem_of_lookup. apply lookup_take_Some in Hm as [Hm Hmj].
    destruct (decide (m = j)) as [->|]; [by simplify_eq|]. pose proof (runs_mono m j x s ltac:(lia) Hm Hj). lia. }
  assert (filter (fun start => start <= i) (drop (S j) ss) = []) as ->; [|rewrite length_take; change (length (@nil nat)) with 0; lia].
  apply filter_none. apply Forall_forall. intros x [m Hm]%list_elem_of_lookup. rewrite lookup_drop in Hm.
  destruct (decide (m = 0)) as [->|]; [rewrite Nat.add_0_r in Hm; apply Hnx in Hm; lia|].
  destruct (lookup_lt_is_Some_2 ss (S j)) as [t Ht]; [apply lookup_lt_Some in Hm; lia|]. pose proof (Hnx _ Ht).
  pose proof (runs_mono (S j) (S j + m) t x ltac:(lia) Ht Hm). lia.
Qed.

Lemma run_between i i' j j' s s' : ss !! j = Some s -> ss !! j' = Some s' -> s <= i -> i <= i' -> (forall t, ss !! S j' = Some t -> i' < t) -> j <= j'.
Proof.
  intros Hj Hj' Hs Hi Hn. destruct (Nat.le_gt_cases j j') as [|Hlt]; [done|exfalso].
  destruct (lookup_lt_is_Some_2 ss (S j')) as [t Ht]; [apply lookup_lt_Some in Hj; lia|]. pose proof (Hn _ Ht).
  destruct (decide (S j' = j)) as [<-|]; [simplify_eq; lia|]. pose proof (runs_mono (S j') j t s ltac:(lia) Ht Hj). lia.
Qed.

(** The maximum over a range is the maximum over its runs. *)
Lemma runs_max l a b j j' m : run_starts l = ss -> a <= b < length ds -> run_of l a = Some j -> run_of l b = Some j' ->
  max_over (fun k => default 0%Z (rd !! k)) j j' m -> max_over (fun i => default 0%Z (ds !! i)) a b m.
Proof.
  intros Hl Hab Ha Hb [Hub (k & Hk & Hkm)].
  destruct (run_of_spec l a Hl) as (j1 & s1 & He1 & Hj1 & Hs1 & Hn1 & Hr1); [lia|].
  destruct (run_of_spec l b Hl) as (j2 & s2 & He2 & Hj2 & Hs2 & Hn2 & Hr2); [lia|].
  assert (j1 = j) as -> by congruence. assert (j2 = j') as -> by congruence. split.
  - intros i Hi. destruct (run_of_spec l i Hl) as (j3 & s3 & _ & Hj3 & Hs3 & Hn3 & Hr3); [lia|]. rw -Hr3. apply Hub. split.
    + eapply (run_between a i j j3); try done; lia.
    + eapply (run_between i b j3 j'); try done; lia.
  - apply lookup_lt_Some in Hj2 as Hl2. destruct (lookup_lt_is_Some_2 ss k) as [s Hs]; [lia|].
    destruct (decide (k = j)) as [->|Hne].
    + exists a. split; [lia|]. by rw -Hr1.
    + exists s. destruct Hinv as [_ _ _ Hval _]. destruct (Hval _ _ Hs) as (d & Hd & Hds). rw Hds -Hd. split; [|done]. split.
      * destruct (lookup_lt_is_Some_2 ss (S j)) as [t Ht]; [lia|]. pose proof (Hn1 _ Ht).
        destruct (decide (S j = k)) as [<-|]; [simplify_eq; lia|]. pose proof (runs_mono (S j) k t s ltac:(lia) Ht Hs). lia.
      * destruct (decide (k = j')) as [->|]; [simplify_eq; lia|]. pose proof (runs_mono k j' s s2 ltac:(lia) Hs Hj2). lia.
Qed.
End Runs.

(** ** The sparse table *)

Section Sparse.
Context (rd : list Z).
Let runs := length rd.
Let at_run (k : nat) : Z := default 0 (rd !! k).
Local Open Scope nat_scope.

Definition level_ok (l : nat) (row : list Z) : Prop :=
  length row = runs + 1 - 2 ^ l /\ forall j v, row !! j = Some v -> max_over at_run j (j + 2 ^ l - 1) v.

Lemma bit_length_spec x : 0 < x -> exists l, bit_length x = S l /\ 2 ^ l <= x < 2 ^ S l.
Proof. intros Hx. exists (Nat.log2 x). destruct x as [|x]; [lia|]. split; [done|]. by apply Nat.log2_spec. Qed.

Lemma next_level_spec l prev : 2 ^ S l <= runs -> level_ok l prev -> exists row, next_level runs (2 ^ S l) prev = Some row /\ level_ok (S l) row.
Proof.
  intros Hl [Hlen Hval]. rw /next_level. assert (2 ^ S l / 2 = 2 ^ l) as -> by (rw Nat.pow_succ_r'; by rw Nat.mul_comm Nat.div_mul).
  pose proof (Nat.pow_nonzero 2 l ltac:(done)). rewrite Nat.pow_succ_r' in Hl. rw Nat.pow_succ_r'.
  set (g := fun index => a ← prev !! index; b ← prev !! (index + 2 ^ l); Some (Z.max a b)).
  assert (forall index, index < runs + 1 - 2 * 2 ^ l -> exists a b, prev !! index = Some a /\ prev !! (index + 2 ^ l) = Some b /\ g index = Some (Z.max a b)) as Hg.
  { intros index Hi. destruct (lookup_lt_is_Some_2 prev index) as [a Ha]; [lia|].
    destruct (lookup_lt_is_Some_2 prev (index + 2 ^ l)) as [b Hb]; [lia|]. exists a, b. split_and!; [done..|]. by rw /g Ha /= Hb. }
  assert (Forall (fun i => is_Some (g i)) (seq 0 (runs + 1 - 2 * 2 ^ l))) as [row Hrow]%mapM_is_Some_2.
  { apply Forall_forall. intros i Hi%elem_of_seq. destruct (Hg i) as (a & b & _ & _ & ->); [lia|done]. }
  exists row. split; [done|]. apply mapM_Some_1 in Hrow. split.
  - apply Forall2_length in Hrow. rewrite length_seq in Hrow. rw Nat.pow_succ_r'. lia.
  - intros j v Hj. destruct (Forall2_lookup_r _ _ _ _ _ Hrow Hj) as (j' & Hj' & Hv). apply lookup_seq in Hj' as [-> Hlt].
    simpl in *. destruct (Hg j) as (a & b & Ha & Hb & Hg'); [lia|]. rewrite Hg' in Hv. injection Hv as <-.
    rw Nat.add_0_r. eapply (max_over_union _ _ (j + 2 ^ l - 1) (j + 2 ^ l)); [lia|lia|by apply Hval|].
    pose proof (Hval _ _ Hb) as Hm. by replace (j + (2 ^ l + 2 ^ l) - 1) with (j + 2 ^ l + 2 ^ l - 1) by lia.
Qed.

Lemma table_spec : 0 < runs -> exists table, fold_opt (push_level runs) [rd] (seq 1 (bit_length runs - 1)) = Some table /\
  length table = bit_length runs /\ forall l row, table !! l = Some row -> level_ok l row.
Proof.
  intros Hr. destruct (bit_length_spec runs Hr) as (lg & Hbl & Hlo & _).
  destruct (fold_opt_total_seq (push_level runs) (fun l table => length table = l /\ forall k row, table !! k = Some row -> level_ok k row)
    1 (bit_length runs - 1) [rd]) as (table & Ht & Hl & Hrow).
  - split; [done|]. intros k row Hk. apply list_lookup_singleton_Some in Hk as [-> <-]. split; [simpl; fold runs; lia|].
    intros j v Hj. simpl. replace (j + 1 - 1) with j by lia. split; [|exists j; split; [lia|by rw /at_run Hj]].
    intros i Hi. assert (i = j) as -> by lia. by rw /at_run Hj.
  - intros l table Hk [Hl Hrow]. rw /push_level. destruct (lookup_lt_is_Some_2 table (l - 1)) as [prev Hp]; [lia|]. rw Hp /=.
    destruct l as [|l]; [lia|]. replace (S l - 1) with l in Hp by lia.
    destruct (next_level_spec l prev) as (row & -> & Hro); [|by apply Hrow|].
    { etrans; [|exact Hlo]. apply Nat.pow_le_mono_r; lia. }
    simpl. eexists. split; [done|]. split; [rw length_app /=; lia|]. intros k row' [Hk'|[Hge Hk']]%lookup_app_Some; [by apply Hrow|].
    apply list_lookup_singleton_Some in Hk' as [Hk' <-]. by assert (k = S l) as -> by lia.
  - exists table. split_and!; [done|lia|done].
Qed.

(** Two overlapping windows cover any range. *)
Lemma window_max table first last : length table = bit_length runs -> (forall l row, table !! l = Some row -> level_ok l row) ->
  first <= last < runs -> exists row a b, table !! (bit_length (last - first + 1) - 1) = Some row /\ row !! first = Some a /\
    row !! (last + 1 - 2 ^ (bit_length (last - first + 1) - 1)) = Some b /\ max_over at_run first last (Z.max a b).
Proof.
  intros Hl Hrow Hfl. destruct (bit_length_spec (last - first + 1)) as (lg & -> & Hlo & Hhi); [lia|].
  destruct (bit_length_spec runs) as (lr & Hbr & Hrlo & Hrhi); [lia|]. replace (S lg - 1) with lg by lia.
  assert (lg < S lr) as Hlg. { apply (Nat.pow_lt_mono_r_iff 2); lia. }
  destruct (lookup_lt_is_Some_2 table lg) as [row Hro]; [lia|]. destruct (Hrow _ _ Hro) as [Hrl Hval].
  pose proof (Nat.pow_nonzero 2 lg ltac:(done)). rewrite Nat.pow_succ_r' in Hhi.
  destruct (lookup_lt_is_Some_2 row first) as [a Ha]; [lia|]. destruct (lookup_lt_is_Some_2 row (last + 1 - 2 ^ lg)) as [b Hb]; [lia|].
  exists row, a, b. split_and!; [done..|]. pose proof (Hval _ _ Ha) as Hma. pose proof (Hval _ _ Hb) as Hmb.
  replace (last + 1 - 2 ^ lg + 2 ^ lg - 1) with last in Hmb by lia. eapply max_over_union; [..|exact Hma|exact Hmb]; lia.
Qed.
End Sparse.

(** ** Loop information *)

Lemma fold_max_spec ds a : a <= fold_left Z.max ds a /\ Forall (fun d => d <= fold_left Z.max ds a) ds.
Proof.
  revert a. induction ds as [|d ds IH]; intros a; simpl; [split; [lia|constructor]|]. destruct (IH (a `max` d)) as [H1 H2].
  split; [lia|]. constructor; [lia|done].
Qed.

(** What loop information promises of the depths it was built from. *)
Record loops_ok (l : LoopInfo) (ds : list Z) : Prop := {
  lo_depths : depths l = ds;
  lo_range a b : exists m, max_depth_in_range l a b = Some m /\ (forall i, (a <= i <= b)%nat -> depth l i <= m) /\
    (m = 0 \/ exists i, (a <= i <= b)%nat /\ depth l i = m);
}.

Lemma all_zero_ok l ds : depths l = ds -> max_depth l = 0 -> Forall (fun d => d <= 0) ds -> loops_ok l ds.
Proof.
  intros Hd Hm Hz. split; [done|]. intros a b. exists 0. rw /max_depth_in_range Hm /=. split_and!; [done| |by left].
  intros i _. rw /depth Hd. destruct (ds !! i) as [d|] eqn:He; [|done]. rewrite Forall_forall in Hz. simpl. apply Hz.
  by eapply list_elem_of_lookup_2.
Qed.

Lemma from_depths_ok ds : Forall (fun d => 0 <= d) ds -> exists l, from_depths ds = Some l /\ loops_ok l ds.
Proof.
  intros Hnn. rw /from_depths. destruct (fold_max_spec ds 0) as [Hmd Hall]. set (md := fold_left Z.max ds 0) in *.
  destruct (Z.eqb_spec md 0) as [Hz|Hnz].
  { eexists. split; [done|]. apply all_zero_ok; [done..|]. by rw -Hz. }
  destruct (runs_spec ds) as (ss & rd & -> & Hinv). cbn [mbind option_bind].
  assert (0 < length ds)%nat as Hpos by (destruct ds; [by rewrite /md /= in Hnz|simpl; lia]).
  assert (0 < length rd)%nat as Hrd.
  { destruct (rn_row _ _ _ _ Hinv 0 Hpos) as (j & s & Hj & _). rewrite -(rn_len _ _ _ _ Hinv). apply lookup_lt_Some in Hj. lia. }
  destruct (table_spec rd Hrd) as (table & -> & Hlt & Hrow). cbn [mbind option_bind]. eexists. split; [done|].
  set (l := mkLoops ds md ss table). split; [done|]. intros a b. rw /max_depth_in_range. destruct (Z.eqb_spec (max_depth l) 0) as [|_]; [done|].
  destruct (Nat.ltb_spec b a) as [Hba|Hab]; simpl; [exists 0; split_and!; [done|lia|by left]|].
  destruct (Nat.leb_spec (length ds) a) as [Hla|Hla].
  { exists 0. split_and!; [done| |by left]. intros i Hi. rw /depth /= lookup_ge_None_2 //. lia. }
  set (e := (b `min` (length ds - 1))%nat).
  destruct (run_of_spec ds ss rd Hinv l a) as (j1 & s1 & Hr1 & Hj1 & Hs1 & Hn1 & _); [done|lia|].
  destruct (run_of_spec ds ss rd Hinv l e) as (j2 & s2 & Hr2 & Hj2 & Hs2 & Hn2 & _); [done|lia|].
  assert (j1 <= j2)%nat as Hj12 by (eapply (run_between ds ss rd Hinv a e); [done..|lia|done]).
  destruct (window_max rd table j1 j2 Hlt Hrow) as (row & x & y & Hro & Hx & Hy & Hmax).
  { apply lookup_lt_Some in Hj2. rewrite -(rn_len _ _ _ _ Hinv). lia. }
  rw Hr1 /= Hr2 /= Hro /= Hx /= Hy /=. exists (Z.max x y). split; [done|].
  destruct (runs_max ds ss rd Hinv l a e j1 j2 (Z.max x y)) as [Hub (i & Hi & Him)]; [done|lia|done..|]. split.
  - intros i' Hi'. rw /depth /=. destruct (Nat.le_gt_cases i' e); [apply Hub; lia|]. rw lookup_ge_None_2 /=; [|lia].
    rw -Him. destruct (ds !! i) as [d|] eqn:Hd; [|done]. simpl. rewrite Forall_forall in Hnn. apply Hnn. by eapply list_elem_of_lookup_2.
  - right. exists i. split; [lia|]. by rw /depth.
Qed.

Lemma compute_loop_info_ok n succs : length succs = n ->
  exists l, compute_loop_info n succs = Some l /\ loops_ok l (depths l) /\ length (depths l) = n /\
    forall i, (i < n)%nat -> depth l i = loop_depth succs i.
Proof.
  intros Hl. rw /compute_loop_info. destruct (Nat.eqb_spec n 0) as [->|Hn].
  { exists (no_loops 0). split_and!; [done|by apply all_zero_ok|done|lia]. }
  destruct (deltas_spec n succs Hl) as (ds & -> & Hld & Hs). cbn [mbind option_bind]. rw depth_steps app_nil_l.
  set (dep := imap (fun i _ => saturated (0 + psum (take n ds) i)) (take n ds)).
  assert (forall i, (i < n)%nat -> dep !! i = Some (loop_depth succs i)) as Hdep.
  { intros i Hi. rw /dep list_lookup_imap. destruct (lookup_lt_is_Some_2 (take n ds) i) as [x ->]; [rw length_take; lia|]. simpl.
    f_equal. rw /loop_depth -saturated_min -Hs. f_equal. rw /psum take_take. by replace (S i `min` n)%nat with (S i) by lia. }
  assert (length dep = n) as Hdl by (rw /dep length_imap length_take; lia).
  destruct (from_depths_ok dep) as (l & -> & Hok).
  { apply Forall_forall. intros d [i Hi]%list_elem_of_lookup. apply lookup_lt_Some in Hi as Hlt. rewrite Hdep in Hi; [|lia].
    injection Hi as <-. rw /loop_depth /u32_max. lia. }
  exists l. pose proof (lo_depths _ _ Hok) as Hd. split_and!; [done|by rw Hd|by rw Hd|]. intros i Hi. by rw /depth Hd Hdep.
Qed.
