(* ===== verification/LiveRun.v ===== *)
(** * What the liveness analysis computes

    The analysis over any back end's instructions: it finishes, its ranges are
    the hulls of liveness along paths, its rows are liveness, its flags are
    the least fixed point of divergence, its depths count back edges. *)

From stdpp Require Import gmap sorting.
From S2P Require Import Prelude Csr Sched Live LiveSets LiveBlocks LiveSolve LiveRanges LiveDiverge LiveLoops.
Import Machine.

Lemma has_back_edge_false succs : has_back_edge succs = false -> forall i js j, succs !! i = Some js -> j ∈ js -> i < j.
Proof.
  intros Hb i js j Hi Hj. destruct (Nat.lt_ge_cases i j) as [|Hge]; [done|exfalso].
  rewrite -not_true_iff_false in Hb. apply Hb. rw /has_back_edge existsb_exists. exists (i, js). split.
  - rewrite -list_elem_of_In. apply list_elem_of_lookup. exists i. by rw list_lookup_imap Hi.
  - apply existsb_exists. exists j. rewrite -list_elem_of_In. split; [done|]. by apply Nat.leb_le.
Qed.

Lemma hull_on_sub (R R' P : nat -> Prop) r : (forall i, R i -> P i -> R' i) -> hull_on R' P r -> hull_on R P r.
Proof. intros H. destruct r as [r|]; simpl; naive_solver. Qed.

Section Run.
Context {Inst Reg : Type} `{LivenessAdapter Inst Reg}.
Context (instructions : list Inst) (vreg_count : nat) (classes : list RegClass).

(** The tables the analysis reads off the instructions. *)
Definition succ_table : list (list nat) := build_successor_lists instructions (build_label_map instructions).
Definition use_table : list (list VReg) := uses <$> instructions.
Definition def_table : list (list VReg) := defs <$> instructions.
Definition call_table : list bool := is_non_returning <$> instructions.

(** What an instruction stream must be: targets inside it, registers below the
    count, indices that fit their width, nothing live on entry. *)
Record well_formed : Prop := {
  wf_pos : 0 < length instructions;
  wf_width : (Z.of_nat (length instructions) <= u32_max)%Z;
  wf_target i js : succ_table !! i = Some js -> Forall (fun j => j < length instructions) js;
  wf_uses : Forall (fun inst => Forall (fun v => v < vreg_count) (uses inst)) instructions;
  wf_defs : Forall (fun inst => Forall (fun v => v < vreg_count) (defs inst)) instructions;
  wf_entry v : ~ live_at succ_table use_table def_table 0 v;
}.

Lemma well_formed_flow : well_formed -> flow_ok vreg_count (length instructions) succ_table use_table def_table.
Proof.
  intros [_ _ Ht Hu Hd _]. split; [by rw /succ_table /build_successor_lists length_imap|by rw length_fmap|by rw length_fmap|done| |].
  - intros i us Hi. rewrite /use_table list_lookup_fmap in Hi. apply fmap_Some in Hi as (inst & Hin & ->).
    rewrite Forall_forall in Hu. apply Hu. by eapply list_elem_of_lookup_2.
  - intros i us Hi. rewrite /def_table list_lookup_fmap in Hi. apply fmap_Some in Hi as (inst & Hin & ->).
    rewrite Forall_forall in Hd. apply Hd. by eapply list_elem_of_lookup_2.
Qed.

(** Where a register is defined or live, and what control can reach. *)
Definition occupied_at (v : VReg) (i : nat) : Prop := occupied succ_table use_table def_table v i.
Definition reached (i : nat) : Prop := reachable succ_table i.

Record info_ok (info : LivenessInfo Reg) : Prop := {
  io_ranges : length (ranges info) = vreg_count;
  io_hull v r : ranges info !! v = Some r -> hull_on reached (occupied_at v) r;
  io_clobbers : clobbers_at info = clobbers <$> instructions;
  io_calls : non_returning_at info = call_table;
  io_div_len : length (diverging_at info) = length instructions;
  io_div i : diverging_at info !! i = Some true <-> diverges succ_table call_table i;
  io_div_uses : length (diverging_uses info) = vreg_count /\ forall v, diverging_uses info !! v = Some true <->
    v < vreg_count /\ exists i, diverges succ_table call_table i /\ used_at use_table i v;
  io_classes : vreg_classes info = classes;
}.

Definition debug_ok (info : LivenessInfo Reg) (d : LivenessDebugInfo) : Prop :=
  dbg_live_ranges d = ranges info /\ dbg_vreg_count d = vreg_count /\ length (dbg_instructions d) = length instructions /\
  forall i r, dbg_instructions d !! i = Some r -> row_exact succ_table use_table def_table i r.

Definition loops_info_ok (l : LoopInfo) : Prop :=
  compute_loop_info (length instructions) succ_table = Some l /\ length (depths l) = length instructions /\ (forall i, i < length instructions -> depth l i = loop_depth succ_table i) /\
  loops_ok l (depths l).

Lemma loop_info_ok : 0 < length instructions -> exists l, compute_loop_info (length instructions) succ_table = Some l /\ loops_info_ok l.
Proof.
  intros _. destruct (compute_loop_info_ok (length instructions) succ_table) as (l & Hc & Hok & Hl & Hd).
  { by rw /succ_table /build_successor_lists length_imap. }
  by exists l.
Qed.

(** The blocks' sets, when they are asked for. *)
Lemma blocks_ok back : well_formed -> has_back_edge succ_table = back -> exists p L,
  (blocks ← partition_blocks (length instructions) succ_table;
   live_in ← solve_block_liveness vreg_count succ_table use_table def_table blocks back; Some (Some (mkBlockLiveness blocks live_in)))
    = Some (Some (mkBlockLiveness p L)) /\
  partition_ok p (length instructions) succ_table /\ table_ok vreg_count p L /\ forall b, block_exact succ_table use_table def_table p L b.
Proof.
  intros Hwf Hb. pose proof (well_formed_flow Hwf) as Hf. destruct Hwf as [Hpos Hw Ht _ _ _].
  destruct (partition_blocks_ok _ _ (fo_succs _ _ _ _ _ Hf) Ht Hpos Hw) as (p & -> & Hp). cbn [mbind option_bind].
  destruct (solve_block_liveness_spec _ _ _ _ _ p Hf Hp back) as (L & -> & HT & Hex).
  { intros ->. by apply has_back_edge_false. }
  by exists p, L.
Qed.

Lemma occupied_lt v i : well_formed -> occupied_at v i -> i < length instructions.
Proof.
  intros Hwf [(ds & Hd%lookup_lt_Some & _)|Hl]; [by rewrite length_fmap in Hd|].
  destruct Hl as [i us v Hu%lookup_lt_Some _|i ds js j v Hd%lookup_lt_Some _ _ _ _]; by rewrite length_fmap in Hu || rewrite length_fmap in Hd.
Qed.

Lemma ranges_ok p L : well_formed -> partition_ok p (length instructions) succ_table -> table_ok vreg_count p L ->
  (forall b, block_exact succ_table use_table def_table p L b) ->
  exists rs, build_live_ranges vreg_count succ_table use_table def_table (length instructions)
      (if has_back_edge succ_table then Some (mkBlockLiveness p L) else None) = Some rs /\
    length rs = vreg_count /\ forall v r, rs !! v = Some r -> hull_on reached (occupied_at v) r.
Proof.
  intros Hwf Hp HT Hex. pose proof (well_formed_flow Hwf) as Hf. destruct (has_back_edge succ_table) eqn:Hb.
  - destruct (ranges_cyclic _ _ _ _ _ Hf (wf_pos Hwf) p L Hp HT Hex) as (rs & -> & Hl & Hr). exists rs. split_and!; [done..|].
    intros v r Hv. eapply hull_on_sub; [|by apply Hr]. intros i _ Hi. by eapply occupied_lt.
  - apply (ranges_forward _ _ _ _ _ Hf (wf_pos Hwf)); [apply (wf_entry Hwf)|]. intros i j (js & Hjs & Hj). by eapply has_back_edge_false.
Qed.

Lemma divergence_ok : well_formed -> exists ds us, compute_divergence succ_table call_table = Some ds /\ length ds = length instructions /\
  (forall i, ds !! i = Some true <-> diverges succ_table call_table i) /\
  collect_diverging_uses vreg_count use_table ds = Some us /\ length us = vreg_count /\
  forall v, us !! v = Some true <-> v < vreg_count /\ exists i, diverges succ_table call_table i /\ used_at use_table i v.
Proof.
  intros Hwf. pose proof (well_formed_flow Hwf) as Hf. pose proof (fo_succs _ _ _ _ _ Hf) as Hl.
  destruct (compute_divergence_spec succ_table call_table) as (ds & -> & Hds & Hdiv).
  { rw Hl /call_table length_fmap //. } { rw Hl. apply (wf_target Hwf). }
  destruct (diverging_uses_spec vreg_count use_table ds) as (us & Hus & Hlu & Hu); [rw Hds Hl /use_table length_fmap //|].
  exists ds, us. split_and!; [done|by rw Hds|done..|]. intros v. rw Hu. split.
  - intros (? & i & l & Hi%Hdiv & ?). split; [done|]. exists i. split; [done|by exists l].
  - intros (? & i & Hi%Hdiv & l & ?). split; [done|]. by exists i, l.
Qed.

(** The whole analysis: one result, whichever projections are asked for. *)
Lemma analyze_inner_ok : well_formed -> exists info, info_ok info /\ forall dbg loops, exists d l,
  analyze_inner instructions vreg_count classes dbg loops = Some (info, d, l) /\
  (if dbg then exists d', d = Some d' /\ debug_ok info d' else d = None) /\
  (if loops then exists l', l = Some l' /\ loops_info_ok l' else l = None).
Proof.
  intros Hwf. pose proof (well_formed_flow Hwf) as Hf. destruct (blocks_ok _ Hwf eq_refl) as (p & L & Hbl & Hp & HT & Hex).
  destruct (ranges_ok p L Hwf Hp HT Hex) as (rs & Hrs & Hrl & Hr).
  destruct (rows_spec _ _ _ _ _ Hf (wf_pos Hwf) (wf_entry Hwf) p L Hp HT Hex) as (rows & Hrows & Hrowl & Hrow).
  destruct (divergence_ok Hwf) as (ds & us & Hds & Hdl & Hdiv & Hus & Hul & Hu).
  exists (mkInfo rs (clobbers <$> instructions) call_table ds us classes). split; [by split|]. intros dbg loops.
  rw /analyze_inner. destruct (Nat.eqb_spec (length instructions) 0) as [H0|_]; [pose proof (wf_pos Hwf); lia|].
  fold succ_table use_table def_table call_table. destruct (loop_info_ok (wf_pos Hwf)) as (li & Hli & Hliok).
  exists (if dbg then Some (mkDebug rows rs vreg_count) else None), (if loops then Some li else None).
  assert ((if loops then l ← compute_loop_info (length instructions) succ_table; Some (Some l) else Some None) =
    Some (if loops then Some li else None)) as -> by (rw Hli; by destruct loops). cbn [mbind option_bind].
  rw Hbl. split; [|split; [by destruct dbg; [eexists|]|by destruct loops; [eexists|]]].
  set (bl := if dbg || has_back_edge succ_table then Some (Some (mkBlockLiveness p L)) else Some None).
  assert (exists o, bl = Some o /\ (dbg || has_back_edge succ_table = true -> o = Some (mkBlockLiveness p L))) as (o & -> & Ho).
  { rw /bl. destruct (dbg || has_back_edge succ_table); by eexists. }
  cbn [mbind option_bind]. assert ((if has_back_edge succ_table then o else None) =
    (if has_back_edge succ_table then Some (mkBlockLiveness p L) else None)) as ->.
  { destruct (has_back_edge succ_table); [apply Ho, orb_true_r|done]. }
  rw Hrs. cbn [mbind option_bind].
  assert ((if dbg then bl ← o; rows ← instruction_liveness_rows vreg_count succ_table use_table def_table (length instructions) bl;
      Some (Some (mkDebug rows rs vreg_count)) else Some None) = Some (if dbg then Some (mkDebug rows rs vreg_count) else None)) as ->.
  { destruct dbg; [|done]. rw Ho // /= Hrows //. }
  cbn [mbind option_bind]. rw Hds. cbn [mbind option_bind]. by rw Hus.
Qed.

(** C11. On instructions whose targets and registers are in range and with
    nothing live on entry, the analysis finishes, and each register's live
    range is the tightest interval of the indices where the register is
    defined or live along some path: both endpoints are such indices, no such
    index that control can reach lies outside, and a register without a range
    occupies none. *)
Theorem live_ranges_exact (Hwf : well_formed) : exists info, analyze instructions vreg_count classes = Some info /\
  length (ranges info) = vreg_count /\
  forall v r, ranges info !! v = Some r ->
    match r with
    | Some r => occupied_at v (r_start r) /\ occupied_at v (r_end r) /\ r_start r <= r_end r /\
        forall i, reached i -> occupied_at v i -> r_start r <= i <= r_end r
    | None => forall i, ~ occupied_at v i
    end.
Proof.
  destruct (analyze_inner_ok Hwf) as (info & Hok & H0). destruct (H0 false false) as (d & l & Ha & _). exists info.
  split; [by rw /analyze Ha|]. split; [apply Hok|]. intros v r Hv. exact (io_hull _ Hok v r Hv).
Qed.

(** The diagnostic rows: one per instruction, in order, with its own
    definitions and uses, whose live-in and live-out sets hold each register
    once and exactly when a path from the instruction, or from a successor of
    it, reaches a use before a definition; the analysis and the ranges are
    those of the run without diagnostics. *)
Theorem live_rows_exact (Hwf : well_formed) : exists info d,
  analyze_with_debug instructions vreg_count classes = Some (info, d) /\ analyze instructions vreg_count classes = Some info /\
  dbg_live_ranges d = ranges info /\ length (dbg_instructions d) = length instructions /\
  forall i r, dbg_instructions d !! i = Some r ->
    il_index r = i /\ def_table !! i = Some (il_defs r) /\ use_table !! i = Some (il_uses r) /\
    NoDup (il_live_in r) /\ NoDup (il_live_out r) /\
    (forall v, v ∈ il_live_in r <-> live_at succ_table use_table def_table i v) /\
    (forall v, v ∈ il_live_out r <-> live_out succ_table use_table def_table i v).
Proof.
  destruct (analyze_inner_ok Hwf) as (info & Hok & H0). destruct (H0 true false) as (d & l & Ha & (d' & -> & Hr & _ & Hl & Hrow) & _).
  destruct (H0 false false) as (d2 & l2 & Ha2 & _). exists info, d'. split; [by rw /analyze_with_debug Ha|]. by split; [rw /analyze Ha2|].
Qed.

(** C12. The divergence flags are the least fixed point of "a call that never
    returns, or at least one successor and only diverging ones": when such
    calls have no successors, every instruction control can reach from a
    flagged one is flagged, so that none of them returns, and a register is
    flagged for diverging uses exactly when a diverging instruction reads it. *)
Theorem divergence_exact (Hwf : well_formed)
    (Hcalls : forall i, call_table !! i = Some true -> succ_table !! i = Some []) :
  exists info, analyze instructions vreg_count classes = Some info /\ length (diverging_at info) = length instructions /\
  (forall i, diverging_at info !! i = Some true <-> diverges succ_table call_table i) /\
  (forall i j, diverging_at info !! i = Some true -> rtc (flows succ_table) i j ->
     diverging_at info !! j = Some true /\ (succ_table !! j = Some [] -> call_table !! j = Some true)) /\
  forall v, diverging_uses info !! v = Some true <->
    v < vreg_count /\ exists i, diverging_at info !! i = Some true /\ used_at use_table i v.
Proof.
  destruct (analyze_inner_ok Hwf) as (info & Hok & H0). destruct (H0 false false) as (d & l & Ha & _). exists info.
  split; [by rw /analyze Ha|]. split; [apply Hok|]. split; [apply Hok|]. split.
  - intros i j Hi Hr. assert (diverges succ_table call_table j) as Hj.
    { apply (io_div _ Hok) in Hi. induction Hr as [|i k j (js & Hjs & Hk) _ IH]; [done|]. apply IH.
      destruct Hi as [i Hc|i js' Hjs' _ Hall]; [rewrite (Hcalls _ Hc) in Hjs; simplify_eq; by apply not_elem_of_nil in Hk|].
      simplify_eq. by apply Hall. }
    split; [by apply (io_div _ Hok)|]. intros Hnil. destruct Hj as [|j js Hjs Hne _]; [done|congruence].
  - intros v. rw (proj2 (io_div_uses _ Hok)). split; intros (? & i & ? & ?); (split; [done|]); exists i; (split; [|done]);
      by apply (io_div _ Hok).
Qed.

(** Loop depths, alone or with the ranges: each instruction's depth is the
    number of back edges whose interval, from target to source, covers it,
    saturated at the width of a depth; and the maximum over a range of
    instructions is answered for every range, out of bounds or reversed too,
    as the largest depth in it. *)
Theorem loop_depths_exact (Hwf : well_formed) : exists info l,
  analyze_with_loops instructions vreg_count classes = Some (info, l) /\ analyze instructions vreg_count classes = Some info /\
  analyze_loops instructions = Some l /\ length (depths l) = length instructions /\
  (forall i, i < length instructions ->
     depth l i = Z.min (Z.of_nat (length (filter (fun e => e.2 <= i <= e.1) (edges succ_table)))) u32_max) /\
  forall a b, exists m, max_depth_in_range l a b = Some m /\ (forall i, a <= i <= b -> (depth l i <= m)%Z) /\
    (m = 0%Z \/ exists i, a <= i <= b /\ depth l i = m).
Proof.
  destruct (analyze_inner_ok Hwf) as (info & Hok & H0). destruct (H0 false true) as (d & l & Ha & _ & l' & -> & Hc & Hl & Hd & Hr).
  destruct (H0 false false) as (d2 & l2 & Ha2 & _). exists info, l'. split; [by rw /analyze_with_loops Ha|]. split; [by rw /analyze Ha2|].
  split.
  - rw /analyze_loops. destruct (Nat.eqb_spec (length instructions) 0) as [H1|_]; [pose proof (wf_pos Hwf); lia|].
    exact Hc.
  - split_and!; [done|exact Hd|]. exact (lo_range _ _ Hr).
Qed.
End Run.

(** ** A back end for examples *)

Inductive Toy := Put (v : nat) | Get (v : nat) | Mark (l : nat) | Branch (l v : nat) | Trap | Ret.

#[export] Instance toy_adapter : LivenessAdapter Toy nat := {
  label i := match i with Mark l => Some l | _ => None end;
  successors idx i m := match i with
    | Branch l _ => S idx :: branch_successor l m
    | Trap | Ret => []
    | _ => [S idx]
    end;
  uses i := match i with Get v | Branch _ v => [v] | _ => [] end;
  defs i := match i with Put v => [v] | _ => [] end;
  clobbers i := match i with Trap => [0; 1] | _ => [] end;
  is_non_returning i := match i with Trap => true | _ => false end;
}.

(** A loop over [0], then a branch that skips a trap. *)
Definition toy_code : list Toy := [Put 0; Mark 7; Put 1; Branch 7 0; Branch 9 1; Get 1; Trap; Mark 9; Ret].

Lemma toy_live i v : live_at (succ_table toy_code) (use_table toy_code) (def_table toy_code) i v ->
  v ∈ nth i [[]; [0]; [0]; [0; 1]; [1]; [1]] [].
Proof.
  intros Hl. induction Hl as [i us v Hu Hv|i ds js j v Hd Hv Hj Hjs _ IH].
  - do 9 (destruct i as [|i]; [vm_compute in Hu; injection Hu as <-; simpl; set_solver|]). done.
  - do 9 (destruct i as [|i]; [vm_compute in Hd, Hj; injection Hd as <-; injection Hj as <-;
      repeat (apply elem_of_cons in Hjs as [->|Hjs]; [simpl in *; set_solver|]); by apply not_elem_of_nil in Hjs|]). done.
Qed.

Lemma toy_well_formed : well_formed toy_code 2.
Proof.
  split.
  - simpl. lia.
  - vm_compute. discriminate.
  - intros i js Hi. do 9 (destruct i as [|i]; [vm_compute in Hi; injection Hi as <-; repeat constructor; simpl; lia|]). done.
  - repeat constructor; simpl; lia.
  - repeat constructor; simpl; lia.
  - intros v Hl. apply toy_live in Hl. by apply not_elem_of_nil in Hl.
Qed.

Lemma live_ranges_exact_witness : exists info, analyze toy_code 2 [Gp; Gp] = Some info /\
  ranges info = [Some (mkRange 0 3); Some (mkRange 2 5)].
Proof.
  destruct (live_ranges_exact toy_code 2 [Gp; Gp] toy_well_formed) as (info & Ha & _). exists info. split; [exact Ha|].
  vm_compute in Ha. injection Ha as <-. reflexivity.
Defined.

Lemma live_rows_exact_witness : exists info d, analyze_with_debug toy_code 2 [Gp; Gp] = Some (info, d) /\
  (il_live_out <$> dbg_instructions d) = [[0]; [0]; [1; 0]; [1; 0]; [1]; []; []; []; []].
Proof.
  destruct (live_rows_exact toy_code 2 [Gp; Gp] toy_well_formed) as (info & d & Ha & _). exists info, d. split; [exact Ha|].
  vm_compute in Ha. injection Ha as <- <-. reflexivity.
Defined.

Lemma divergence_exact_witness : exists info, analyze toy_code 2 [Gp; Gp] = Some info /\
  diverging_at info = [false; false; false; false; false; true; true; false; false] /\ diverging_uses info = [false; true].
Proof.
  destruct (divergence_exact toy_code 2 [Gp; Gp] toy_well_formed) as (info & Ha & _).
  - intros i Hi. do 9 (destruct i as [|i]; [vm_compute in Hi; first [discriminate|reflexivity]|]). discriminate.
  - exists info. split; [exact Ha|]. vm_compute in Ha. injection Ha as <-. by split.
Defined.

Lemma loop_depths_exact_witness : exists info l, analyze_with_loops toy_code 2 [Gp; Gp] = Some (info, l) /\
  depths l = [0; 1; 1; 1; 0; 0; 0; 0; 0]%Z /\ max_depth_in_range l 3 6 = Some 1%Z /\ max_depth_in_range l 4 100 = Some 0%Z.
Proof.
  destruct (loop_depths_exact toy_code 2 [Gp; Gp] toy_well_formed) as (info & l & Ha & _). exists info, l. split; [exact Ha|].
  vm_compute in Ha. injection Ha as <- <-. split_and!; reflexivity.
Defined.
