(* ===== verification/Regalloc.v ===== *)
(** * Register allocation

    [crates/rue-codegen/src/regalloc.rs], with [VRegClasses] of [reg_class.rs]
    and the frame ceiling of rue-air's [layout.rs]: the cost model, move
    coalescing, the clobber and divergence indices, spill slots, the linear scan
    in its two forms, and the driver around them.  A back end is a type class.
    [None] is a failed assertion, index or unwrap; [res] adds the errors the
    driver returns.  The counters of the indices are at most the number of
    instructions, which fits their width. *)

From stdpp Require Import gmap.
From S2P Require Import Prelude Csr Sched Live.
Import Machine.

(** ** Cost model *)

Record CostModel := mkCost { base_spill_cost : Z; loop_depth_multiplier : Z; use_loop_aware_spilling : bool }.
Definition cost_default : CostModel := mkCost 1 10 true.

(** [saturating_mul] and [saturating_pow] of [u32], [saturating_mul] and
    [saturating_sub] of [u64]. *)
Definition sat_u32 (z : Z) : Z := Z.min z u32_max.
Definition sat_u64 (z : Z) : Z := Z.max 0 (Z.min z u64_max).

Definition spill_cost (m : CostModel) (loop_depth : Z) : Z :=
  if negb (use_loop_aware_spilling m) then base_spill_cost m else
  sat_u32 (base_spill_cost m * sat_u32 (loop_depth_multiplier m ^ loop_depth))%Z.
Definition spill_priority (m : CostModel) (loop_depth : Z) (remaining : nat) : Z :=
  if negb (use_loop_aware_spilling m) then (u64_max - Z.of_nat remaining)%Z else
  let cost := spill_cost m loop_depth in
  let length := Z.max (Z.of_nat remaining) 1 in
  sat_u64 (sat_u64 (cost * 1000) - Z.min length 999)%Z.

(** ** Frame slots *)

Definition SLOT_BYTES : Z := 8.
Definition MAX_FUNCTION_FRAME_BYTES : Z := (2 ^ 31 - 1) / 16 * 16.
Definition MAX_FUNCTION_FRAME_SLOTS : Z := MAX_FUNCTION_FRAME_BYTES / SLOT_BYTES.
Definition checked_function_frame_slots (current additional : Z) : option Z :=
  total ← checked_u 64 (current + additional)%Z;
  if (total <=? MAX_FUNCTION_FRAME_SLOTS)%Z then Some (wrap_u 32 total) else None.

Record SpillSlotAllocator := mkSlots { slots : list (option nat); min_slot_end : option nat; base_slots : Z }.
Definition slots_new (existing_locals : Z) : SpillSlotAllocator := mkSlots [] None existing_locals.
Definition num_slots (a : SpillSlotAllocator) : Z := wrap_u 32 (Z.of_nat (length (slots a))).

Definition offset_for_slot (a : SpillSlotAllocator) (slot_index : nat) : Z :=
  let one_based_slot := sat_u64 (sat_u64 (base_slots a + Z.of_nat slot_index) + 1)%Z in
  let bytes := sat_u64 (one_based_slot * SLOT_BYTES)%Z in
  match checked_s 32 bytes with Some bytes => (- bytes)%Z | None => (- 2 ^ 31)%Z end.

(** The first slot whose occupant ended before [start]. *)
Fixpoint reusable_slot (ss : list (option nat)) (start i : nat) : option nat :=
  match ss with
  | [] => None
  | slot :: ss =>
      match slot with
      | Some e => if e <? start then Some i else reusable_slot ss start (S i)
      | None => reusable_slot ss start (S i)
      end
  end.
Definition min_opt (ss : list (option nat)) : option nat :=
  fold_left (fun acc s => match acc, s with Some a, Some b => Some (a `min` b) | None, s => s | acc, None => acc end) ss None.

Definition allocate_slot (a : SpillSlotAllocator) (start end_ : nat) : SpillSlotAllocator * Z :=
  let found := match min_slot_end a with
    | Some min_end => if min_end <? start then reusable_slot (slots a) start 0 else None
    | None => None
    end in
  match found with
  | Some i =>
      let ss := <[i := Some end_]> (slots a) in
      let a := mkSlots ss (min_opt ss) (base_slots a) in (a, offset_for_slot a i)
  | None =>
      let slot_index := length (slots a) in
      let a := mkSlots (slots a ++ [Some end_])
        (Some match min_slot_end a with Some min_end => min_end `min` end_ | None => end_ end) (base_slots a) in
      (a, offset_for_slot a slot_index)
  end.

(** ** Registers *)

Record SaveClasses (Reg : Type) := mkSave { caller_saved : list Reg; callee_saved : list Reg; compact_callee_saved : list Reg }.
Arguments mkSave {_}.
Arguments caller_saved {_}.
Arguments callee_saved {_}.
Arguments compact_callee_saved {_}.

Definition RegisterFile (Reg : Type) : Type := PerClass (SaveClasses Reg).
Definition save_empty {Reg} : SaveClasses Reg := mkSave [] [] [].
Definition callee_saved_only {Reg} (regs : list Reg) : SaveClasses Reg := mkSave [] regs [].
Definition gp_only {Reg} (save : SaveClasses Reg) : RegisterFile Reg := mkPerClass save save_empty.
Definition file_iter {Reg} (file : RegisterFile Reg) : list (RegClass * SaveClasses Reg) := [(Gp, at_class file Gp); (Fp, at_class file Fp)].
Definition caller_saved_flattened {Reg} (file : RegisterFile Reg) : list Reg := concat ((fun e => caller_saved e.2) <$> file_iter file).

Inductive RematerializeOp := Const32 (i : Z) | Const64 (i : Z) | StringPtr (s : nat) | StringLen (s : nat) | StringCap (s : nat).
#[export] Instance RematerializeOp_eq_dec : EqDecision RematerializeOp.
Proof. solve_decision. Defined.

Record VRegInfo := mkVRegInfo { remat : option RematerializeOp }.
Definition vreg_none : VRegInfo := mkVRegInfo None.
Definition vreg_rematerializable (op : RematerializeOp) : VRegInfo := mkVRegInfo (Some op).

Inductive Allocation (Reg : Type) := Register (r : Reg) | Spill (offset : Z) | Rematerialize (op : RematerializeOp).
Arguments Register {_}.
Arguments Spill {_}.
Arguments Rematerialize {_}.

Section Regs.
Context {Reg : Type} `{EqDecision Reg}.
Implicit Types (info : LivenessInfo Reg) (file : RegisterFile Reg) (save : SaveClasses Reg) (reg : Reg).

Definition is_callee_saved save reg : bool := bool_decide (reg ∈ callee_saved save).

(** ** Liveness facts *)

Definition class_of info (vreg : VReg) : RegClass := default Gp (vreg_classes info !! vreg).
Definition instruction_count info : nat := length (clobbers_at info).
Definition range_of info (vreg : VReg) : option LiveRange := mjoin (ranges info !! vreg).
Definition interferes info (a b : VReg) : bool :=
  match range_of info a, range_of info b with Some ra, Some rb => overlaps ra rb | _, _ => false end.
Definition clobbers_of info (idx : nat) : option (list Reg) := clobbers_at info !! idx.
Definition non_returning info (idx : nat) : bool := default false (non_returning_at info !! idx).
Definition diverges_at info (idx : nat) : bool := default false (diverging_at info !! idx).
Definition has_diverging_use info (vreg : VReg) : bool := default true (diverging_uses info !! vreg).

Definition set_ranges info rs : LivenessInfo Reg :=
  mkInfo rs (clobbers_at info) (non_returning_at info) (diverging_at info) (diverging_uses info) (vreg_classes info).
Definition set_diverging_uses info us : LivenessInfo Reg :=
  mkInfo (ranges info) (clobbers_at info) (non_returning_at info) (diverging_at info) us (vreg_classes info).

Definition merged_range (a r : option LiveRange) : option LiveRange :=
  match a, r with
  | Some a, Some r => Some (mkRange (r_start a `min` r_start r) (r_end a `max` r_end r))
  | only, None => only
  | None, only => only
  end.
Definition merge_into info (absorbed representative : VReg) : option (LivenessInfo Reg) :=
  if negb (bool_decide (class_of info absorbed = class_of info representative)) then None else
  let merged := merged_range (range_of info absorbed) (range_of info representative) in
  _ ← ranges info !! representative; _ ← ranges info !! absorbed;
  let info := set_ranges info (<[absorbed := None]> (<[representative := merged]> (ranges info))) in
  Some (if has_diverging_use info absorbed then set_diverging_uses info (<[representative := true]> (diverging_uses info)) else info).

(** ** Clobber and divergence indices *)

Record TrackedClobbers := mkTracked { tracked_reg : Reg; tracked_all : list nat; returning_only : list nat }.

Definition count_clobber info reg (keep : bool) (st : nat * nat * list nat * list nat) (idx : nat) : option (nat * nat * list nat * list nat) :=
  let '(running, running_returning, all, returning) := st in
  cs ← clobbers_of info idx;
  let hit := negb (non_returning info idx) && bool_decide (reg ∈ cs) in
  let running := if hit then S running else running in
  let running_returning := if hit && negb (diverges_at info idx) then S running_returning else running_returning in
  Some (running, running_returning, all ++ [running], if keep then returning ++ [running_returning] else returning).

Definition diverging_clobber info (idx : nat) : option bool :=
  if diverges_at info idx && negb (non_returning info idx) then cs ← clobbers_of info idx; Some (negb (bool_decide (cs = []))) else Some false.
Fixpoint any_opt {A} (p : A -> option bool) (l : list A) : option bool :=
  match l with [] => Some false | a :: l => b ← p a; if (b : bool) then Some true else any_opt p l end.

Definition clobbers_build info (tracked : list Reg) : option (list TrackedClobbers) :=
  let num_insts := length (clobbers_at info) in
  has_diverging_clobber ← any_opt (diverging_clobber info) (seq 0 num_insts);
  mapM (fun reg =>
    '(_, _, all, returning) ← fold_opt (count_clobber info reg has_diverging_clobber) (0, 0, [0], if (has_diverging_clobber : bool) then [0] else []) (seq 0 num_insts);
    Some (mkTracked reg all returning)) tracked.

(** The counts at both ends of a range, clamped to the table. *)
Definition range_counts (counts : list nat) (range : LiveRange) : option (nat * nat) :=
  let last := length counts - 1 in
  a ← counts !! (r_start range `min` last); b ← counts !! (S (r_end range) `min` last); Some (a, b).

Definition is_clobbered_during (index : list TrackedClobbers) reg (range : LiveRange) (ignore_diverging : bool) : option bool :=
  match list_find (fun entry => tracked_reg entry = reg) index with
  | None => Some true
  | Some (_, entry) =>
      let counts := if ignore_diverging && negb (bool_decide (returning_only entry = [])) then returning_only entry else tracked_all entry in
      '(start, end_) ← range_counts counts range; Some (start <? end_)
  end.

Definition divergence_build info : list nat :=
  if negb (existsb id (diverging_at info)) then [] else
  (fold_left (fun st idx =>
     let running := if negb (diverges_at info idx) then S st.1 else st.1 in (running, st.2 ++ [running]))
     (seq 0 (instruction_count info)) (0, [0])).2.
Definition range_diverges (returning_before : list nat) (range : LiveRange) : option bool :=
  if bool_decide (returning_before = []) then Some false else
  '(start, end_) ← range_counts returning_before range; Some (end_ =? start).

(** ** Coalescing *)

Record CoalesceCandidate := mkCandidate { inst_idx : nat; cand_dst : VReg; cand_src : VReg }.
(** A table slot that holds [EMPTY_VREG] is [None]; [coalesce] asserts that no
    register has that index. *)
Record CoalesceResult := mkCoalesce { coalesce_map : list (option VReg); eliminated_moves : list bool; eliminated_count : nat }.
Definition coalesce_empty : CoalesceResult := mkCoalesce [] [] 0.
Definition with_vreg_count (vreg_count : nat) : CoalesceResult := mkCoalesce (replicate vreg_count None) [] 0.
Definition representative (r : CoalesceResult) (vreg : VReg) : VReg :=
  match coalesce_map r !! vreg with Some (Some representative) => representative | _ => vreg end.
Definition is_eliminated (r : CoalesceResult) (idx : nat) : bool := default false (eliminated_moves r !! idx).
Definition mark_eliminated (r : CoalesceResult) (idx : nat) : option CoalesceResult :=
  let moves := if length (eliminated_moves r) <=? idx then resize (S idx) false (eliminated_moves r) else eliminated_moves r in
  b ← moves !! idx;
  Some (if (b : bool) then mkCoalesce (coalesce_map r) moves (eliminated_count r)
        else mkCoalesce (coalesce_map r) (<[idx := true]> moves) (S (eliminated_count r))).

(** The union-find of [coalesce], with path compression. *)
Fixpoint find (fuel : nat) (parent : list (option VReg)) (vreg : VReg) : option (list (option VReg) * VReg) :=
  match fuel with
  | O => None
  | S fuel =>
      match parent !! vreg with
      | Some (Some p) => '(parent, root) ← find fuel parent p; Some (<[vreg := Some root]> parent, root)
      | _ => Some (parent, vreg)
      end
  end.

Record coalesce_state := mkCo { co_result : CoalesceResult; co_parent : list (option VReg); co_live : LivenessInfo Reg }.

Definition coalesce_step (st : coalesce_state) (c : CoalesceCandidate) : option coalesce_state :=
  '(parent, dst) ← find (S (length (co_parent st))) (co_parent st) (cand_dst c);
  '(parent, src) ← find (S (length parent)) parent (cand_src c);
  if dst =? src then r ← mark_eliminated (co_result st) (inst_idx c); Some (mkCo r parent (co_live st)) else
  if negb (bool_decide (class_of (co_live st) dst = class_of (co_live st) src)) then Some (mkCo (co_result st) parent (co_live st)) else
  match range_of (co_live st) dst, range_of (co_live st) src with
  | Some dst_range, Some src_range =>
      if (r_end src_range <=? inst_idx c) && (inst_idx c <=? r_start dst_range) then
        _ ← parent !! dst; let parent := <[dst := Some src]> parent in
        _ ← coalesce_map (co_result st) !! dst;
        let r := mkCoalesce (<[dst := Some src]> (coalesce_map (co_result st))) (eliminated_moves (co_result st)) (eliminated_count (co_result st)) in
        live ← merge_into (co_live st) dst src;
        r ← mark_eliminated r (inst_idx c);
        Some (mkCo r parent live)
      else Some (mkCo (co_result st) parent (co_live st))
  | _, _ => Some (mkCo (co_result st) parent (co_live st))
  end.

Definition coalesce (candidates : list CoalesceCandidate) info : option (CoalesceResult * LivenessInfo Reg) :=
  let n := length (ranges info) in
  if negb (Z.of_nat n <=? u32_max)%Z then None else
  st ← fold_opt coalesce_step (mkCo (with_vreg_count n) (replicate n None) info) candidates;
  Some (co_result st, co_live st).

(** ** Linear scan *)

(** One entry of an active list: register, its home, the end of its range. *)
Notation Active := (VReg * Reg * nat)%type.

Definition is_used (active : list Active) (candidate : Reg) : bool := existsb (fun e => bool_decide (e.1.2 = candidate)) active.
Fixpoint first_unclobbered (clobbers : list TrackedClobbers) (active : list Active) (range : LiveRange) (off_diverging_paths : bool) (regs : list Reg)
    : option (option Reg) :=
  match regs with
  | [] => Some None
  | reg :: regs =>
      if is_used active reg then first_unclobbered clobbers active range off_diverging_paths regs else
      c ← is_clobbered_during clobbers reg range off_diverging_paths;
      if (c : bool) then first_unclobbered clobbers active range off_diverging_paths regs else Some (Some reg)
  end.
Definition pick_free_register save (clobbers : list TrackedClobbers) (active : list Active) (sunk : list Reg) (range : LiveRange)
    (off_diverging_paths : bool) : option (option Reg) :=
  match List.find (fun reg => bool_decide (reg ∈ sunk) && negb (is_used active reg)) (compact_callee_saved save) with
  | Some reg => Some (Some reg)
  | None =>
      free ← first_unclobbered clobbers active range off_diverging_paths (caller_saved save);
      Some match free with
      | Some reg => Some reg
      | None => List.find (fun reg => negb (is_used active reg)) (callee_saved save)
      end
  end.

Definition register_survives_range save (clobbers : list TrackedClobbers) reg (range : LiveRange) (off_diverging_paths : bool) : option bool :=
  if is_callee_saved save reg then Some true else
  c ← is_clobbered_during clobbers reg range off_diverging_paths; Some (negb c).

Definition registers_held (allocation : list (option (Allocation Reg))) : nat :=
  length (omap (fun a => match a with Some (Register r) => Some r | _ => None end) allocation).

Record RegAllocDebugInfo := mkRegDebug {
  rd_live_ranges : list (nat * nat * nat);
  rd_interference : list (nat * nat);
  rd_allocations : list (nat * Allocation Reg);
  rd_spills : list nat;
  rd_callee_saved_used : list Reg;
}.
(** Allocation, number of spill slots, callee-saved registers, debug facts. *)
Definition ScanResult : Type := list (option (Allocation Reg)) * Z * list Reg * RegAllocDebugInfo.

Definition accept_reuse_pass (baseline reuse : ScanResult) : bool :=
  let '(baseline_allocation, baseline_spills, baseline_saved, _) := baseline in
  let '(reuse_allocation, reuse_spills, reuse_saved, _) := reuse in
  forallb (fun reg => bool_decide (reg ∈ baseline_saved)) reuse_saved &&
  (registers_held baseline_allocation <=? registers_held reuse_allocation) && (reuse_spills <=? baseline_spills)%Z.

Record ScanInputs := mkInputs { vregs_by_start : list (VReg * LiveRange); in_clobbers : list TrackedClobbers; in_divergence : list nat }.

(** [sort_by_key] is stable. *)
Fixpoint insert_by_start (e : VReg * LiveRange) (l : list (VReg * LiveRange)) : list (VReg * LiveRange) :=
  match l with
  | [] => [e]
  | e' :: l' => if r_start e.2 <=? r_start e'.2 then e :: l else e' :: insert_by_start e l'
  end.
Definition ranged_vregs (vreg_count : nat) info : list (VReg * LiveRange) :=
  omap (fun v => r ← range_of info v; Some (v, r)) (seq 0 vreg_count).
Definition scan_inputs (vreg_count : nat) info file : option ScanInputs :=
  clobbers ← clobbers_build info (caller_saved_flattened file);
  Some (mkInputs (foldr insert_by_start [] (ranged_vregs vreg_count info)) clobbers (divergence_build info)).

Definition reuse_pass_could_differ file (baseline_saved : list Reg) : bool :=
  existsb (fun e => negb (bool_decide (caller_saved e.2 = [])) &&
    existsb (fun reg => bool_decide (reg ∈ baseline_saved)) (compact_callee_saved e.2)) (file_iter file).

Record scan_state := mkScan {
  sc_allocation : list (option (Allocation Reg));
  sc_slots : SpillSlotAllocator;
  sc_saved : list Reg;
  sc_spills : list nat;
  sc_active : PerClass (list Active);
}.
Definition active_by_class : PerClass (list Active) := mkPerClass [] [].
Definition set_allocation (vreg : VReg) (a : Allocation Reg) (allocation : list (option (Allocation Reg))) : option (list (option (Allocation Reg))) :=
  _ ← allocation !! vreg; Some (<[vreg := Some a]> allocation).

(** The register was free: it is assigned, and the prologue saves it if it must. *)
Definition assign_free save reg (vreg : VReg) (range : LiveRange) (confined_to_divergence : bool) (class : RegClass) (active : list Active)
    (st : scan_state) : option scan_state :=
  allocation ← set_allocation vreg (Register reg) (sc_allocation st);
  let saved := if is_callee_saved save reg && negb confined_to_divergence && negb (bool_decide (reg ∈ sc_saved st))
    then sc_saved st ++ [reg] else sc_saved st in
  Some (mkScan allocation (sc_slots st) saved (sc_spills st) (set_class class (active ++ [(vreg, reg, r_end range)]) (sc_active st))).

(** A vreg moves to a stack slot. *)
Definition spill_vreg (vreg : VReg) (start end_ : nat) (st : scan_state) : option scan_state :=
  let '(slots, offset) := allocate_slot (sc_slots st) start end_ in
  allocation ← set_allocation vreg (Spill offset) (sc_allocation st);
  Some (mkScan allocation slots (sc_saved st) (sc_spills st ++ [vreg]) (sc_active st)).

(** The evicted register's home goes to the arriving vreg. *)
Definition take_over (vreg : VReg) reg (range : LiveRange) (class : RegClass) (active : list Active) (st : scan_state) : option scan_state :=
  allocation ← set_allocation vreg (Register reg) (sc_allocation st);
  Some (mkScan allocation (sc_slots st) (sc_saved st) (sc_spills st) (set_class class (active ++ [(vreg, reg, r_end range)]) (sc_active st))).

Section Scan.
Context (vreg_count : nat) (info : LivenessInfo Reg) (file : RegisterFile Reg) (existing_locals : Z) (collect_debug : bool)
  (cost_model : CostModel) (loop_info : LoopInfo).

Definition priority_of (start end_ : nat) : option Z :=
  d ← max_depth_in_range loop_info start end_; Some (spill_priority cost_model d (end_ - start)).

(** The cheapest active vreg whose register could hold the arriving one. *)
Definition weigh save (clobbers : list TrackedClobbers) (range : LiveRange) (off_diverging_paths : bool)
    (best : option nat * Z) (e : nat * Active) : option (option nat * Z) :=
  let '(i, (_, active_reg, end_)) := e in
  survives ← register_survives_range save clobbers active_reg range off_diverging_paths;
  if negb survives then Some best else
  priority ← priority_of (r_start range) end_;
  Some (if (priority <? best.2)%Z then (Some i, priority) else best).

Definition debug_live_ranges : list (nat * nat * nat) :=
  if collect_debug then (fun e => (e.1, r_start e.2, r_end e.2)) <$> ranged_vregs vreg_count info else [].
Definition debug_interference (inputs : ScanInputs) : list (nat * nat) :=
  if collect_debug then
    concat (imap (fun i e => omap (fun e' => if overlaps e.2 e'.2 then Some (e.1, e'.1) else None) (drop (S i) (vregs_by_start inputs)))
      (vregs_by_start inputs)) else [].
Definition debug_of (inputs : ScanInputs) (st : scan_state) : RegAllocDebugInfo :=
  mkRegDebug debug_live_ranges (debug_interference inputs)
    (if collect_debug then omap (fun e => match e.2 with Some a => Some (e.1, a) | None => None end) (imap pair (sc_allocation st)) else [])
    (sc_spills st)
    (if collect_debug then sc_saved st else []).

Definition scan_step (inputs : ScanInputs) (sunk : list Reg) (st : scan_state) (e : VReg * LiveRange) : option scan_state :=
  let '(vreg, range) := e in
  let class := class_of info vreg in
  let save := at_class file class in
  let active := filter (fun e => r_start range <= e.2) (at_class (sc_active st) class) in
  let off_diverging_paths := negb (has_diverging_use info vreg) in
  confined_to_divergence ← range_diverges (in_divergence inputs) range;
  allocated ← pick_free_register save (in_clobbers inputs) active sunk range off_diverging_paths;
  match allocated with
  | Some reg => assign_free save reg vreg range confined_to_divergence class active st
  | None =>
      current_priority ← priority_of (r_start range) (r_end range);
      '(best, _) ← fold_opt (weigh save (in_clobbers inputs) range off_diverging_paths) (None, current_priority) (imap pair active);
      let st := mkScan (sc_allocation st) (sc_slots st) (sc_saved st) (sc_spills st) (set_class class active (sc_active st)) in
      match best with
      | Some idx =>
          '(spilled_vreg, freed_reg, spilled_end) ← active !! idx;
          spilled_range ← range_of info spilled_vreg;
          st ← spill_vreg spilled_vreg (r_start spilled_range) spilled_end st;
          take_over vreg freed_reg range class (delete idx active) st
      | None => spill_vreg vreg (r_start range) (r_end range) st
      end
  end.

Definition scan_start : scan_state := mkScan (replicate vreg_count None) (slots_new existing_locals) [] [] active_by_class.
Definition scan_result (inputs : ScanInputs) (st : scan_state) : ScanResult :=
  (sc_allocation st, num_slots (sc_slots st), sc_saved st, debug_of inputs st).

Definition scan_intervals (inputs : ScanInputs) (sunk : list Reg) : option ScanResult :=
  st ← fold_opt (scan_step inputs sunk) scan_start (vregs_by_start inputs); Some (scan_result inputs st).

Definition linear_scan_impl : option ScanResult :=
  inputs ← scan_inputs vreg_count info file;
  baseline ← scan_intervals inputs [];
  if negb (reuse_pass_could_differ file baseline.1.2) then Some baseline else
  reuse ← scan_intervals inputs baseline.1.2;
  Some (if accept_reuse_pass baseline reuse then reuse else baseline).

(** *** With rematerialization *)

Context (vreg_info : list VRegInfo).

Definition can_remat (vreg : VReg) : option RematerializeOp := vi ← vreg_info !! vreg; remat vi.
Definition is_remat (vreg : VReg) : bool := match can_remat vreg with Some _ => true | None => false end.

Definition should_replace (active_is_remat best_is_remat : bool) (active_priority best_priority : Z) : bool :=
  if active_is_remat && negb best_is_remat then true
  else if negb active_is_remat && best_is_remat then false
  else (active_priority <? best_priority)%Z.

Definition weigh_with_remat save (clobbers : list TrackedClobbers) (range : LiveRange) (off_diverging_paths : bool)
    (best : option nat * Z * bool) (e : nat * Active) : option (option nat * Z * bool) :=
  let '(i, (active_vreg, active_reg, end_)) := e in
  let '(_, best_priority, best_is_remat) := best in
  survives ← register_survives_range save clobbers active_reg range off_diverging_paths;
  if negb survives then Some best else
  d ← max_depth_in_range loop_info (r_start range) end_;
  let active_priority := if is_remat active_vreg then 0%Z else spill_priority cost_model d (end_ - r_start range) in
  Some (if should_replace (is_remat active_vreg) best_is_remat active_priority best_priority
        then (Some i, active_priority, is_remat active_vreg) else best).

(** A vreg leaves the registers: recomputed when it can be, spilled otherwise. *)
Definition evict (vreg : VReg) (start end_ : nat) (st : scan_state) : option scan_state :=
  match can_remat vreg with
  | Some op =>
      allocation ← set_allocation vreg (Rematerialize op) (sc_allocation st);
      Some (mkScan allocation (sc_slots st) (sc_saved st) (sc_spills st) (sc_active st))
  | None => spill_vreg vreg start end_ st
  end.
(** As for an evicted vreg, whose range is looked up for its slot only. *)
Definition evict_active (vreg : VReg) (end_ : nat) (st : scan_state) : option scan_state :=
  match can_remat vreg with
  | Some op => evict vreg 0 end_ st
  | None => range ← range_of info vreg; evict vreg (r_start range) end_ st
  end.

Definition scan_step_with_remat (inputs : ScanInputs) (sunk : list Reg) (st : scan_state) (e : VReg * LiveRange) : option scan_state :=
  let '(vreg, range) := e in
  let class := class_of info vreg in
  let save := at_class file class in
  let active := filter (fun e => r_start range <= e.2) (at_class (sc_active st) class) in
  let off_diverging_paths := negb (has_diverging_use info vreg) in
  confined_to_divergence ← range_diverges (in_divergence inputs) range;
  allocated ← pick_free_register save (in_clobbers inputs) active sunk range off_diverging_paths;
  match allocated with
  | Some reg => assign_free save reg vreg range confined_to_divergence class active st
  | None =>
      d ← max_depth_in_range loop_info (r_start range) (r_end range);
      let current_priority := if is_remat vreg then 0%Z else spill_priority cost_model d (r_end range - r_start range) in
      '(best, _, _) ← fold_opt (weigh_with_remat save (in_clobbers inputs) range off_diverging_paths)
        (None, current_priority, is_remat vreg) (imap pair active);
      let st := mkScan (sc_allocation st) (sc_slots st) (sc_saved st) (sc_spills st) (set_class class active (sc_active st)) in
      match best with
      | Some idx =>
          '(spilled_vreg, freed_reg, spilled_end) ← active !! idx;
          st ← evict_active spilled_vreg spilled_end st;
          take_over vreg freed_reg range class (delete idx active) st
      | None => evict vreg (r_start range) (r_end range) st
      end
  end.

Definition scan_intervals_with_remat (inputs : ScanInputs) (sunk : list Reg) : option ScanResult :=
  st ← fold_opt (scan_step_with_remat inputs sunk) scan_start (vregs_by_start inputs); Some (scan_result inputs st).

Definition linear_scan_impl_with_remat : option ScanResult :=
  inputs ← scan_inputs vreg_count info file;
  baseline ← scan_intervals_with_remat inputs [];
  if negb (reuse_pass_could_differ file baseline.1.2) then Some baseline else
  reuse ← scan_intervals_with_remat inputs baseline.1.2;
  Some (if accept_reuse_pass baseline reuse then reuse else baseline).
End Scan.

(** The entry points that name a bare list of registers. *)
Definition longest_range : CostModel := mkCost (base_spill_cost cost_default) (loop_depth_multiplier cost_default) false.
Definition linear_scan (vreg_count : nat) info (allocatable_regs : list Reg) (existing_locals : Z) : option (list (option (Allocation Reg)) * Z * list Reg) :=
  r ← linear_scan_impl vreg_count info (gp_only (callee_saved_only allocatable_regs)) existing_locals false longest_range (no_loops (instruction_count info));
  Some r.1.
Definition linear_scan_with_cost_model (vreg_count : nat) info (allocatable_regs : list Reg) (existing_locals : Z) (cost_model : CostModel) (loop_info : LoopInfo)
    : option (list (option (Allocation Reg)) * Z * list Reg) :=
  r ← linear_scan_impl vreg_count info (gp_only (callee_saved_only allocatable_regs)) existing_locals false cost_model loop_info; Some r.1.
Definition linear_scan_with_remat (vreg_count : nat) info (allocatable_regs : list Reg) (existing_locals : Z) (vreg_info : list VRegInfo)
    : option (list (option (Allocation Reg)) * Z * list Reg) :=
  r ← linear_scan_impl_with_remat vreg_count info (gp_only (callee_saved_only allocatable_regs)) existing_locals false longest_range
    (no_loops (instruction_count info)) vreg_info; Some r.1.
Definition linear_scan_with_debug (vreg_count : nat) info (allocatable_regs : list Reg) (existing_locals : Z) : option ScanResult :=
  linear_scan_impl vreg_count info (gp_only (callee_saved_only allocatable_regs)) existing_locals true longest_range (no_loops (instruction_count info)).

(** ** What rewriting sees *)

Record AllocationContext := mkContext { ctx_allocation : list (option (Allocation Reg)); ctx_coalesce : CoalesceResult }.
Definition context_allocation (ctx : AllocationContext) (vreg : VReg) : option (option (Allocation Reg)) :=
  ctx_allocation ctx !! representative (ctx_coalesce ctx) vreg.
End Regs.

Arguments TrackedClobbers : clear implicits.
Arguments RegAllocDebugInfo : clear implicits.
Arguments ScanResult : clear implicits.
Arguments AllocationContext : clear implicits.

Record RewriteBuffer (I : Type) := mkBuffer { buf_before : list I; buf_main : list I; buf_after : list I }.
Arguments mkBuffer {_}.
Arguments buf_before {_}.
Arguments buf_main {_}.
Arguments buf_after {_}.
Definition buffer_new {I} : RewriteBuffer I := mkBuffer [] [] [].
Definition push_before {I} (inst : I) (b : RewriteBuffer I) := mkBuffer (buf_before b ++ [inst]) (buf_main b) (buf_after b).
Definition push_main {I} (inst : I) (b : RewriteBuffer I) := mkBuffer (buf_before b) (buf_main b ++ [inst]) (buf_after b).
Definition push_after {I} (inst : I) (b : RewriteBuffer I) := mkBuffer (buf_before b) (buf_main b) (buf_after b ++ [inst]).
Definition drain_ordered {I} (b : RewriteBuffer I) : list I := buf_before b ++ buf_main b ++ buf_after b.

Inductive RegAllocError := FunctionFrameTooLarge | GenerationCanceled | BackendError.

(** The hooks of a back end, beside the facts it reports to liveness. *)
Class RegAllocBackend (Inst Reg : Type) := {
  rematerialization : Inst -> option (VReg * RematerializeOp);
  coalesce_candidates : list Inst -> list CoalesceCandidate;
  register_file : RegisterFile Reg;
  physical_operands : Inst -> list Reg;
  rewrite_inst : AllocationContext Reg -> Inst -> res RegAllocError (RewriteBuffer Inst);
}.

(** The MIR of either target, but for the counter of inline labels, which allocation leaves at zero;
    a symbol is its identity. *)
Record Mir (Inst : Type) := mkMir { mir_instructions : list Inst; mir_vreg_count : nat; mir_classes : list RegClass; mir_symbols : list nat }.
Arguments mkMir {_}.
Arguments mir_instructions {_}.
Arguments mir_vreg_count {_}.
Arguments mir_classes {_}.
Arguments mir_symbols {_}.
Definition new_mir {Inst} : Mir Inst := mkMir [] 0 [] [].
Definition set_symbols {Inst} (mir : Mir Inst) (symbols : list nat) : Mir Inst := mkMir (mir_instructions mir) (mir_vreg_count mir) (mir_classes mir) symbols.
Definition push_inst {Inst} (mir : Mir Inst) (inst : Inst) : Mir Inst :=
  mkMir (mir_instructions mir ++ [inst]) (mir_vreg_count mir) (mir_classes mir) (mir_symbols mir).

Inductive RematerializationState := Unknown | Eligible (op : RematerializeOp) | Ineligible.

Section Driver.
Context {Inst Reg : Type} `{EqDecision Reg} `{LivenessAdapter Inst Reg} `{RegAllocBackend Inst Reg}.

(** ** Rematerialization recipes *)

Definition join_recipe (state : RematerializationState) (recipe : option RematerializeOp) : RematerializationState :=
  match state, recipe with
  | Ineligible, _ => Ineligible
  | Unknown, Some recipe => Eligible recipe
  | Eligible existing, Some recipe => if bool_decide (existing = recipe) then Eligible existing else Ineligible
  | _, None => Ineligible
  end.
Definition def_recipe (inst : Inst) (defined : VReg) : option RematerializeOp :=
  match rematerialization inst with
  | Some (candidate_vreg, recipe) => if candidate_vreg =? defined then Some recipe else None
  | None => None
  end.
Definition note_def (r : CoalesceResult) (inst : Inst) (states : list RematerializationState) (defined : VReg) : option (list RematerializationState) :=
  let rep := representative r defined in
  state ← states !! rep; Some (<[rep := join_recipe state (def_recipe inst defined)]> states).
Definition note_inst (r : CoalesceResult) (states : list RematerializationState) (e : nat * Inst) : option (list RematerializationState) :=
  if is_eliminated r e.1 then Some states else fold_opt (note_def r e.2) states (defs e.2).
Definition recipe_info (state : RematerializationState) : VRegInfo :=
  match state with Eligible recipe => vreg_rematerializable recipe | _ => vreg_none end.
Definition rematerialization_info (mir : Mir Inst) (r : CoalesceResult) : option (list VRegInfo) :=
  states ← fold_opt (note_inst r) (replicate (mir_vreg_count mir) Unknown) (imap pair (mir_instructions mir)) : option (list RematerializationState);
  Some (fmap (M:=list) recipe_info states).

(** ** The driver *)

Definition allocatable (reg : Reg) : bool :=
  existsb (fun e => bool_decide (reg ∈ caller_saved e.2) || bool_decide (reg ∈ callee_saved e.2)) (file_iter register_file).
Definition assert_no_allocatable_physical_operands (mir : Mir Inst) : option unit :=
  if forallb (fun inst => forallb (fun reg => negb (allocatable reg)) (physical_operands inst)) (mir_instructions mir) then Some () else None.

Record RegAllocDriver := mkDriver {
  dr_mir : Mir Inst;
  dr_allocation : list (option (Allocation Reg));
  dr_vreg_info : list VRegInfo;
  dr_liveness : LivenessInfo Reg;
  dr_liveness_debug : option LivenessDebugInfo;
  dr_loop_info : LoopInfo;
  dr_coalesce : CoalesceResult;
  dr_num_spills : Z;
  dr_saved : list Reg;
  dr_existing_locals : Z;
}.

Definition new_with_artifacts (mir : Mir Inst) (existing_locals : Z) (capture_liveness : bool) : option RegAllocDriver :=
  _ ← assert_no_allocatable_physical_operands mir;
  let vreg_count := mir_vreg_count mir in
  '(liveness, liveness_debug, loop_info) ←
    (if capture_liveness then
       '(liveness, debug, loops) ← analyze_with_debug_and_loops (mir_instructions mir) vreg_count (mir_classes mir); Some (liveness, Some debug, loops)
     else '(liveness, loops) ← analyze_with_loops (mir_instructions mir) vreg_count (mir_classes mir); Some (liveness, None, loops));
  if negb (length (vreg_classes liveness) =? vreg_count) then None else
  '(coalesce_result, liveness) ← coalesce (coalesce_candidates (mir_instructions mir)) liveness;
  vreg_info ← rematerialization_info mir coalesce_result;
  Some (mkDriver mir (replicate vreg_count None) vreg_info liveness liveness_debug loop_info coalesce_result 0 [] existing_locals).
Definition driver_new (mir : Mir Inst) (existing_locals : Z) : option RegAllocDriver := new_with_artifacts mir existing_locals false.

Definition assign_registers_with (collect_debug : bool) (d : RegAllocDriver) : option (RegAllocDriver * RegAllocDebugInfo Reg) :=
  '(allocation, num_spills, used_callee_saved, debug_info) ←
    linear_scan_impl_with_remat (mir_vreg_count (dr_mir d)) (dr_liveness d) register_file (dr_existing_locals d) collect_debug cost_default
      (dr_loop_info d) (dr_vreg_info d);
  Some (mkDriver (dr_mir d) allocation (dr_vreg_info d) (dr_liveness d) (dr_liveness_debug d) (dr_loop_info d) (dr_coalesce d) num_spills
    used_callee_saved (dr_existing_locals d), debug_info).
Definition assign_registers (d : RegAllocDriver) : option RegAllocDriver := r ← assign_registers_with false d; Some r.1.
Definition assign_registers_with_debug (d : RegAllocDriver) : option (RegAllocDriver * RegAllocDebugInfo Reg) := assign_registers_with true d.

Definition validate_spill_budget (d : RegAllocDriver) : res RegAllocError unit :=
  match checked_function_frame_slots (dr_existing_locals d) (dr_num_spills d) with Some _ => Ok () | None => Err FunctionFrameTooLarge end.

(** A cancellation authority answers the checks in order; [NONE] never cancels. *)
Definition check_cancel (cancel : nat -> bool) (k : nat) : res RegAllocError unit := if cancel k then Err GenerationCanceled else Ok ().
Definition NONE (k : nat) : bool := false.

(** An instruction with nothing left to emit. *)
Definition recomputed_later (ctx : AllocationContext Reg) (inst : Inst) : option bool :=
  match rematerialization inst with
  | Some (defined, recipe) =>
      a ← context_allocation ctx defined;
      Some match a with Some (Rematerialize selected) => bool_decide (selected = recipe) | _ => false end
  | None => Some false
  end.
Definition dropped (ctx : AllocationContext Reg) (idx : nat) (inst : Inst) : option bool :=
  if is_eliminated (ctx_coalesce ctx) idx then Some true else recomputed_later ctx inst.

Definition rewrite_step (ctx : AllocationContext Reg) (cancel : nat -> bool) (first_check : nat) (mir : Mir Inst) (e : nat * Inst) : res RegAllocError (Mir Inst) :=
  let '(idx, inst) := e in
  _ ← check_cancel cancel (first_check + idx);
  skip ← expect (dropped ctx idx inst);
  if (skip : bool) then Ok mir else
  buffer ← rewrite_inst ctx inst;
  Ok (fold_left push_inst (drain_ordered buffer) mir).
Definition rewrite_instructions (cancel : nat -> bool) (first_check : nat) (d : RegAllocDriver) : res RegAllocError (Mir Inst) :=
  let ctx := mkContext (dr_allocation d) (dr_coalesce d) in
  fold_res (rewrite_step ctx cancel first_check) (set_symbols new_mir (mir_symbols (dr_mir d))) (imap pair (mir_instructions (dr_mir d))).

Definition allocate_with_spills (d : RegAllocDriver) : res RegAllocError (Mir Inst * Z * list Reg) :=
  d ← expect (assign_registers d);
  _ ← validate_spill_budget d;
  mir ← rewrite_instructions NONE 0 d;
  Ok (mir, dr_num_spills d, dr_saved d).
Definition allocate (d : RegAllocDriver) : res RegAllocError (Mir Inst) :=
  d ← expect (assign_registers d);
  _ ← validate_spill_budget d;
  rewrite_instructions NONE 0 d.
Definition allocate_with_debug (d : RegAllocDriver) : res RegAllocError (Mir Inst * Z * list Reg * RegAllocDebugInfo Reg) :=
  '(d, debug_info) ← expect (assign_registers_with_debug d);
  _ ← validate_spill_budget d;
  mir ← rewrite_instructions NONE 0 d;
  Ok (mir, dr_num_spills d, dr_saved d, debug_info).
Definition allocate_with_artifacts (capture_regalloc : bool) (cancel : nat -> bool) (d : RegAllocDriver)
    : res RegAllocError (Mir Inst * Z * list Reg * option LivenessDebugInfo * option (RegAllocDebugInfo Reg)) :=
  _ ← check_cancel cancel 0;
  '(d, regalloc_debug) ← (if capture_regalloc then '(d, debug) ← expect (assign_registers_with_debug d); Ok (d, Some debug)
    else d ← expect (assign_registers d); Ok (d, None));
  _ ← check_cancel cancel 1;
  _ ← validate_spill_budget d;
  mir ← rewrite_instructions cancel 2 d;
  Ok (mir, dr_num_spills d, dr_saved d, dr_liveness_debug d, regalloc_debug).
End Driver.
