(* ===== verification/RegIndex.v ===== *)
(** * Register allocation: the indices

    The clobber and divergence indices answer a question about a range with two
    reads of a prefix count; the answers are those of a walk over the range.
    The slot allocator takes the first slot that is free again. *)

From stdpp Require Import gmap.
From S2P Require Import Prelude Csr Sched Live Regalloc.
Import Machine.

(** ** Prefix counts *)

Fixpoint count (p : nat -> bool) (k : nat) : nat :=
  match k with O => 0 | S k => if p k then S (count p k) else count p k end.
Definition prefix (p : nat -> bool) (n : nat) : list nat := count p <$> seq 0 (S n).

Lemma count_mono p a b : a <= b -> count p a <= count p b.
Proof. induction 1 as [|b _ IH]; [done|]. simpl. destruct (p b); lia. Qed.

Lemma count_lt p a b : count p a < count p b <-> exists i, a <= i < b /\ p i = true.
Proof.
  split.
  - induction b as [|b IH]; simpl; [lia|]. destruct (p b) eqn:Hb; intros Hlt.
    + exists b. split; [|done]. destruct (Nat.lt_ge_cases b a) as [Hab|]; [|lia]. pose proof (count_mono p _ _ Hab) as Hm.
      simpl in Hm. rewrite Hb in Hm. lia.
    + destruct (IH Hlt) as (i & ? & ?). exists i. split; [lia|done].
  - intros (i & Hi & Hp). pose proof (count_mono p a i ltac:(lia)). pose proof (count_mono p (S i) b ltac:(lia)) as Hb.
    simpl in Hb. rewrite Hp in Hb. lia.
Qed.

Lemma count_none p k : count p k = 0 <-> forall i, i < k -> p i = false.
Proof.
  pose proof (count_lt p 0 k) as Hc. simpl in Hc. split.
  - intros H0 i Hi. apply not_true_iff_false. intros Hp. assert (0 < count p k) by (apply Hc; exists i; split; [lia|done]). lia.
  - intros Hall. destruct (count p k) eqn:Hk; [done|]. destruct (proj1 Hc) as (i & ? & Hp); [lia|]. by rewrite Hall in Hp; [|lia].
Qed.

Lemma prefix_snoc p n : prefix p (S n) = prefix p n ++ [count p (S n)].
Proof. by rw /prefix (seq_S (S n)) fmap_app. Qed.

Lemma prefix_lookup p n k : k <= n -> prefix p n !! k = Some (count p k).
Proof. intros Hk. rw /prefix list_lookup_fmap lookup_seq_lt //. lia. Qed.

Lemma prefix_counts p n r : range_counts (prefix p n) r = Some (count p (r_start r `min` n), count p (S (r_end r) `min` n)).
Proof.
  rw /range_counts. assert (length (prefix p n) - 1 = n) as -> by by rw /prefix length_fmap length_seq Nat.sub_succ Nat.sub_0_r.
  rw !prefix_lookup //; lia.
Qed.

(** A prefix differs at the ends of a range when the range holds a hit. *)
Lemma count_range p n r : count p (r_start r `min` n) < count p (S (r_end r) `min` n) <->
  exists i, r_start r <= i <= r_end r /\ i < n /\ p i = true.
Proof.
  rw count_lt. split; [intros (i & Hi & Hp)|intros (i & Hi & Hlt & Hp)]; exists i; split_and!; done || lia.
Qed.

(** ** Clobbers *)

Section Index.
Context {Reg : Type} `{EqDecision Reg} (info : LivenessInfo Reg).
Implicit Types (reg : Reg).

(** Instruction [i] returns with [reg] clobbered. *)
Definition hit reg (i : nat) : bool := negb (non_returning info i) && bool_decide (reg ∈ default [] (clobbers_at info !! i)).
Definition hit_returning reg (i : nat) : bool := hit reg i && negb (diverges_at info i).
(** The clobbers that count for a value: those of diverging code do not when it
    is not used there. *)
Definition counted (off_diverging_paths : bool) reg (i : nat) : bool := hit reg i && negb (off_diverging_paths && diverges_at info i).
Definition clobbered_in (off_diverging_paths : bool) reg (r : LiveRange) : Prop :=
  exists i, r_start r <= i <= r_end r /\ counted off_diverging_paths reg i = true.

Definition index_of (keep : bool) reg : TrackedClobbers Reg :=
  mkTracked reg (prefix (hit reg) (instruction_count info)) (if keep then prefix (hit_returning reg) (instruction_count info) else []).

Lemma hit_lt reg i : hit reg i = true -> i < instruction_count info.
Proof.
  rw /hit andb_true_iff bool_decide_eq_true. intros [_ Hr]. destruct (clobbers_at info !! i) eqn:Hi; [by eapply lookup_lt_Some|].
  by apply not_elem_of_nil in Hr.
Qed.

Lemma clobber_counts reg keep : fold_opt (count_clobber info reg keep) (0, 0, [0], if keep then [0] else []) (seq 0 (instruction_count info)) =
  Some (count (hit reg) (instruction_count info), count (hit_returning reg) (instruction_count info),
    prefix (hit reg) (instruction_count info), if keep then prefix (hit_returning reg) (instruction_count info) else []).
Proof.
  destruct (fold_opt_total_seq (count_clobber info reg keep) (fun k st => st = (count (hit reg) k, count (hit_returning reg) k,
    prefix (hit reg) k, if keep then prefix (hit_returning reg) k else [])) 0 (instruction_count info)
    (0, 0, [0], if keep then [0] else [])) as (st & Hf & ->); [by destruct keep| |done].
  intros k st Hk ->. destruct (lookup_lt_is_Some_2 (clobbers_at info) k) as [cs Hcs]; [by apply Hk|]. eexists. split; [|done].
  rw /count_clobber /clobbers_of Hcs. cbn [mbind option_bind]. rw !prefix_snoc.
  assert (hit reg k = negb (non_returning info k) && bool_decide (reg ∈ cs)) as Hh by by rw /hit Hcs.
  rw -Hh. assert (hit_returning reg k = hit reg k && negb (diverges_at info k)) as Hr by done. rw -Hr /=.
  by destruct keep.
Qed.

Lemma any_opt_spec {A} (p : A -> option bool) (f : A -> bool) l : (forall a, a ∈ l -> p a = Some (f a)) -> any_opt p l = Some (existsb f l).
Proof.
  induction l as [|a l IH]; intros Hp; [done|]. simpl. rw Hp; [|set_solver]. simpl. destruct (f a); [done|].
  apply IH. intros b Hb. apply Hp. set_solver.
Qed.

Lemma clobbers_build_spec tracked : exists keep, clobbers_build info tracked = Some (index_of keep <$> tracked) /\
  (keep = false -> forall reg i, hit reg i = true -> diverges_at info i = false).
Proof.
  set (f := fun i => diverges_at info i && negb (non_returning info i) && negb (bool_decide (default [] (clobbers_at info !! i) = []))).
  exists (existsb f (seq 0 (instruction_count info))). split.
  - rw /clobbers_build. fold (instruction_count info). rw (any_opt_spec _ f).
    + cbn [mbind option_bind]. apply mapM_Some. apply Forall2_fmap_r. apply Forall_Forall2_diag, Forall_true. intros reg.
      by rw clobber_counts.
    + intros i Hi%elem_of_seq. rw /diverging_clobber /f /clobbers_of. destruct (lookup_lt_is_Some_2 (clobbers_at info) i) as [cs ->]; [by apply Hi|].
      by destruct (diverges_at info i && negb (non_returning info i)).
  - intros Hf reg i Hh. apply not_true_iff_false. intros Hd. apply not_true_iff_false in Hf. apply Hf, existsb_exists.
    exists i. split; [apply list_elem_of_In, elem_of_seq; split; [lia|]; by eapply hit_lt|].
    rewrite /hit andb_true_iff bool_decide_eq_true in Hh. destruct Hh as [Hn Hr]. rw /f Hd Hn.
    apply negb_true_iff, bool_decide_eq_false. clear Hn. intros Hn. rewrite Hn in Hr. by apply not_elem_of_nil in Hr.
Qed.

Lemma index_find keep tracked reg : reg ∈ tracked -> exists k, list_find (fun e => tracked_reg e = reg) (index_of keep <$> tracked) = Some (k, index_of keep reg).
Proof.
  intros Hr. assert (index_of keep reg ∈ index_of keep <$> tracked) as He by (apply list_elem_of_fmap; by exists reg). clear Hr.
  destruct (list_find_elem_of (fun e => tracked_reg e = reg) (index_of keep <$> tracked) (index_of keep reg)) as [[k e] Hf]; [done|done|].
  exists k. rw Hf. do 2 f_equal. apply list_find_Some in Hf as (Hk & <- & _).
  apply list_elem_of_lookup_2, list_elem_of_fmap in Hk as (reg' & -> & _). done.
Qed.

(** Two reads of the table, whatever the range. *)
Lemma is_clobbered_during_spec tracked idx reg r off : clobbers_build info tracked = Some idx -> reg ∈ tracked ->
  exists b, is_clobbered_during idx reg r off = Some b /\ (b = true <-> clobbered_in off reg r).
Proof.
  intros Hb Hr. destruct (clobbers_build_spec tracked) as (keep & Hk & Hnone). rewrite Hk in Hb. injection Hb as <-.
  destruct (index_find keep tracked reg Hr) as (k & Hf). rw /is_clobbered_during Hf /=.
  set (p := if off && keep then hit_returning reg else hit reg).
  assert ((if off && negb (bool_decide ((if keep then prefix (hit_returning reg) (instruction_count info) else []) = []))
    then (if keep then prefix (hit_returning reg) (instruction_count info) else []) else prefix (hit reg) (instruction_count info)) =
    prefix p (instruction_count info)) as ->.
  { rw /p. destruct off, keep; simpl; done. }
  rw prefix_counts /=. eexists. split; [done|]. rw Nat.ltb_lt count_range /clobbered_in.
  assert (forall i, p i = true <-> counted off reg i = true) as Hp.
  { intros i. rw /p /counted /hit_returning. destruct off, keep; simpl; rw ?andb_true_r //. split; [|by intros [? _]%andb_true_iff].
    intros Hh. by rw Hh (Hnone eq_refl _ _ Hh). }
  split; intros (i & Hi & H0); exists i; (split; [lia|]).
  - by apply Hp, H0.
  - apply Hp in H0 as H1. split; [|done]. move: H0. rw /counted andb_true_iff. intros [Hh _]. by eapply hit_lt.
Qed.

(** A register the index does not track is never answered free. *)
Lemma is_clobbered_during_untracked tracked idx reg r off : clobbers_build info tracked = Some idx -> reg ∉ tracked ->
  is_clobbered_during idx reg r off = Some true.
Proof.
  intros Hb Hr. destruct (clobbers_build_spec tracked) as (keep & Hk & _). rewrite Hk in Hb. injection Hb as <-.
  rw /is_clobbered_during. destruct (list_find _ _) as [[k e]|] eqn:He; [|done].
  apply list_find_Some in He as (Hl & <- & _). apply list_elem_of_lookup_2, list_elem_of_fmap in Hl as (reg' & -> & ?). done.
Qed.

(** ** Divergence *)

Definition confined (r : LiveRange) : Prop := (exists i, diverging_at info !! i = Some true) /\
  forall i, r_start r <= i <= r_end r -> i < instruction_count info -> diverges_at info i = true.

Lemma divergence_counts : divergence_build info =
  if existsb id (diverging_at info) then prefix (fun i => negb (diverges_at info i)) (instruction_count info) else [].
Proof.
  rw /divergence_build. destruct (existsb id (diverging_at info)); [|done]. simpl.
  set (p := fun i => negb (diverges_at info i)).
  assert (forall n, fold_left (fun st idx => let running := if negb (diverges_at info idx) then S st.1 else st.1 in (running, st.2 ++ [running]))
    (seq 0 n) (0, [0]) = (count p n, prefix p n)) as Hn; [|by rw Hn].
  induction n as [|n IH]; [done|]. rw seq_S fold_left_app IH prefix_snoc /=. by rewrite /p.
Qed.

Lemma range_diverges_spec r : exists b, range_diverges (divergence_build info) r = Some b /\ (r_start r <= r_end r -> b = true <-> confined r).
Proof.
  rw divergence_counts. destruct (existsb id (diverging_at info)) eqn:He.
  - rw /range_diverges bool_decide_false // prefix_counts. cbn [mbind option_bind]. eexists. split; [done|]. intros Hle. rw Nat.eqb_eq /confined.
    pose proof (count_mono (fun i => negb (diverges_at info i)) (r_start r `min` instruction_count info) (S (r_end r) `min` instruction_count info)
      ltac:(lia)) as Hm. pose proof (count_range (fun i => negb (diverges_at info i)) (instruction_count info) r) as Hr. split.
    + intros Heq. split.
      * apply existsb_exists in He as (b & Hb & Hid). apply list_elem_of_In, list_elem_of_lookup in Hb as [i Hi]. exists i. by destruct b.
      * intros i Hi Hlt. apply not_false_iff_true. intros Hf. assert (count (fun i => negb (diverges_at info i)) (r_start r `min` instruction_count info) <
          count (fun i => negb (diverges_at info i)) (S (r_end r) `min` instruction_count info)); [|lia].
        apply Hr. exists i. by rw Hf.
    + intros [_ Hall]. destruct (Nat.eq_dec (count (fun i => negb (diverges_at info i)) (S (r_end r) `min` instruction_count info))
        (count (fun i => negb (diverges_at info i)) (r_start r `min` instruction_count info))) as [|Hne]; [done|exfalso].
      destruct (proj1 Hr) as (i & Hi & Hlt & Hp); [lia|]. by rewrite Hall in Hp.
  - exists false. split; [done|]. intros _. split; [done|]. intros [(i & Hi) _]. exfalso. apply not_true_iff_false in He. apply He.
    apply existsb_exists. exists true. split; [|done]. apply list_elem_of_In. by eapply list_elem_of_lookup_2.
Qed.

(** C17. The two indices answer with two table reads what a walk over the range
    would: a register is clobbered during a range when the index does not
    track it or some instruction of the range returns with it clobbered, those
    of diverging code aside when they are to be ignored; a range that does not
    end before it starts diverges when some instruction does and all of the
    range do.  Ranges out of bounds are answered too. *)
Theorem range_indices_exact (tracked : list Reg) : exists index, clobbers_build info tracked = Some index /\
  (forall reg r off, exists b, is_clobbered_during index reg r off = Some b /\
     (b = true <-> reg ∉ tracked \/ exists i cs, r_start r <= i <= r_end r /\ clobbers_at info !! i = Some cs /\ reg ∈ cs /\
        non_returning info i = false /\ (off = true -> diverges_at info i = false))) /\
  forall r, r_start r <= r_end r -> exists b, range_diverges (divergence_build info) r = Some b /\
     (b = true <-> (exists i, diverging_at info !! i = Some true) /\
        forall i, r_start r <= i <= r_end r -> i < instruction_count info -> diverges_at info i = true).
Proof.
  destruct (clobbers_build_spec tracked) as (keep & Hk & _). exists (index_of keep <$> tracked). split_and!; [done| |].
  - intros reg r off. destruct (decide (reg ∈ tracked)) as [Hr|Hr].
    + destruct (is_clobbered_during_spec tracked _ reg r off Hk Hr) as (b & Hb & Hiff). exists b. split; [done|]. rw Hiff. split.
      * intros (i & Hi & Hc). right. revert Hc. rw /counted /hit !andb_true_iff bool_decide_eq_true !negb_true_iff andb_false_iff.
        intros [[Hn Hin] Ho]. destruct (clobbers_at info !! i) as [cs|] eqn:Hcs; [|by apply not_elem_of_nil in Hin]. exists i, cs.
        split_and!; try done; [lia|lia|]. intros ->. by destruct Ho.
      * intros [?|(i & cs & Hi & Hcs & Hin & Hn & Ho)]; [done|]. exists i. split; [done|]. rw /counted /hit Hcs Hn /= bool_decide_true //=.
        destruct off; [by rw Ho|done].
    + exists true. split; [by apply (is_clobbered_during_untracked tracked)|]. split; [by left|done].
  - intros r Hr. destruct (range_diverges_spec r) as (b & Hb & Hiff). exists b. split; [done|]. by apply Hiff.
Qed.
End Index.

(** ** Slots *)

(** The reuse scan is the first slot whose occupant is gone. *)
Lemma reusable_slot_spec ss start i :
  match reusable_slot ss start i with
  | Some k => exists j e, k = i + j /\ ss !! j = Some (Some e) /\ e < start /\ forall j' e', j' < j -> ss !! j' = Some (Some e') -> start <= e'
  | None => forall j e, ss !! j = Some (Some e) -> start <= e
  end.
Proof.
  revert i. induction ss as [|s ss IH]; intros i; simpl; [done|].
  assert (forall P : Prop, (s = None \/ exists e, s = Some e /\ start <= e) -> 
    match reusable_slot ss start (S i) with
    | Some k => exists j e, k = i + j /\ (s :: ss) !! j = Some (Some e) /\ e < start /\ forall j' e', j' < j -> (s :: ss) !! j' = Some (Some e') -> start <= e'
    | None => forall j e, (s :: ss) !! j = Some (Some e) -> start <= e
    end) as Hskip.
  { intros _ Hs. specialize (IH (S i)). destruct (reusable_slot ss start (S i)) as [k|].
    - destruct IH as (j & e & -> & Hj & He & Hmin). exists (S j), e. split_and!; [lia|done..|].
      intros [|j'] e' Hlt Hj'; simpl in Hj'; [naive_solver|]. apply (Hmin j'); [lia|done].
    - intros [|j] e Hj; simpl in Hj; [naive_solver|]. by eapply IH. }
  destruct s as [e|]; [|apply (Hskip True); by left]. destruct (Nat.ltb_spec e start) as [Hlt|Hge].
  - exists 0, e. split_and!; [lia|done..|]. intros j' e' Hj'. lia.
  - apply (Hskip True). right. by exists e.
Qed.

(** Every slot has an occupant, and the recorded minimum is theirs. *)
Definition slots_ok (a : SpillSlotAllocator) : Prop :=
  Forall is_Some (slots a) /\ match min_slot_end a with
  | Some m => forall j e, slots a !! j = Some (Some e) -> m <= e
  | None => slots a = []
  end.

Definition allocate_reference (a : SpillSlotAllocator) (start end_ : nat) : nat * list (option nat) :=
  match reusable_slot (slots a) start 0 with
  | Some i => (i, <[i := Some end_]> (slots a))
  | None => (length (slots a), slots a ++ [Some end_])
  end.

Lemma min_opt_spec ss : Forall is_Some ss -> match min_opt ss with
  | Some m => forall j e, ss !! j = Some (Some e) -> m <= e
  | None => ss = []
  end.
Proof.
  rw /min_opt. set (step := fun acc s => _).
  assert (forall ss acc, Forall is_Some ss -> match fold_left step ss acc with
    | Some m => (forall j e, ss !! j = Some (Some e) -> m <= e) /\ (forall a, acc = Some a -> m <= a)
    | None => ss = [] /\ acc = None
    end) as H.
  { clear ss. induction ss as [|s ss IH]; intros acc Hall; simpl; [destruct acc; naive_solver|].
    apply Forall_cons in Hall as [[x ->] Hall]. specialize (IH (step acc (Some x)) Hall).
    assert (exists y, step acc (Some x) = Some y /\ y <= x /\ forall a, acc = Some a -> y <= a) as (y & Hy & Hyx & Hya).
    { destruct acc as [a|]; simpl; eexists; (split; [done|]); split; [lia|intros ? [= <-]; lia|done|done]. }
    rewrite Hy in IH. rw Hy. destruct (fold_left step ss (Some y)) as [m|]; [|naive_solver]. destruct IH as [IH1 IH2].
    specialize (IH2 _ eq_refl). split; [|intros a Ha; specialize (Hya _ Ha); lia].
    intros [|j] e Hj; simpl in Hj; [simplify_eq; lia|by eapply IH1]. }
  intros Hall. specialize (H ss None Hall). destruct (fold_left step ss None); naive_solver.
Qed.

Lemma allocate_slot_reference a start end_ : slots_ok a -> exists a',
  allocate_slot a start end_ = (a', offset_for_slot a (allocate_reference a start end_).1) /\
  slots a' = (allocate_reference a start end_).2 /\ base_slots a' = base_slots a /\ slots_ok a'.
Proof.
  intros [Hall Hmin]. pose proof (reusable_slot_spec (slots a) start 0) as Hr.
  assert (match min_slot_end a with Some min_end => if min_end <? start then reusable_slot (slots a) start 0 else None | None => None end =
    reusable_slot (slots a) start 0) as Hfound.
  { destruct (min_slot_end a) as [m|]; [|by rw Hmin].
    destruct (Nat.ltb_spec m start) as [|Hge]; [done|]. destruct (reusable_slot (slots a) start 0) as [k|]; [|done].
    destruct Hr as (j & e & _ & Hj & He & _). specialize (Hmin _ _ Hj). lia. }
  rw /allocate_slot /allocate_reference Hfound. destruct (reusable_slot (slots a) start 0) as [k|] eqn:Hk.
  - eexists. split; [done|]. split_and!; [done..|]. assert (Forall is_Some (<[k := Some end_]> (slots a))) as Hall'
      by (apply Forall_insert; [done|by eexists]). split; [done|]. exact (min_opt_spec _ Hall').
  - eexists. split; [done|]. split_and!; [done..|]. split; [apply Forall_app; split; [done|]; repeat constructor; by eexists|]. simpl.
    intros j e Hj. apply lookup_app_Some in Hj as [Hj|[_ Hj]].
    + destruct (min_slot_end a) as [m|]; [specialize (Hmin _ _ Hj); lia|by rewrite Hmin in Hj].
    + apply list_lookup_singleton_Some in Hj as [_ [= <-]]. destruct (min_slot_end a); lia.
Qed.

(** Offsets are exact while the frame stays under its ceiling. *)
Lemma offset_exact a i : (0 <= base_slots a)%Z -> (base_slots a + Z.of_nat i < MAX_FUNCTION_FRAME_SLOTS)%Z ->
  offset_for_slot a i = (- (8 * (base_slots a + Z.of_nat i + 1)))%Z.
Proof.
  intros Hb Hi. assert (MAX_FUNCTION_FRAME_SLOTS = 268435454)%Z as Hm by (vm_compute; reflexivity). rewrite Hm in Hi.
  rw /offset_for_slot /sat_u64 /SLOT_BYTES. assert (u64_max = 18446744073709551615)%Z as -> by (vm_compute; reflexivity).
  rw /checked_s /in_sb. set (b := (8 * (base_slots a + Z.of_nat i + 1))%Z).
  replace (Z.max 0 _) with b by (rw /b; lia). destruct (_ && _) eqn:Hc; [done|exfalso].
  apply andb_false_iff in Hc as [Hc%Z.leb_gt|Hc%Z.ltb_ge]; revert Hc; rw /b; simpl; lia.
Qed.
