(* ===== verification/RegScan.v ===== *)
(** * Register allocation: the linear scan

    What one pass over the intervals maintains: two overlapping intervals never
    share a register or a slot, a register an interval holds survives it, a
    recipe stands only for a register that has one. *)

From stdpp Require Import gmap sorting.
From S2P Require Import Prelude Csr Sched SchedGraph Live Regalloc RegIndex.
Import Machine.

Section Scan.
Context {Reg : Type} `{EqDecision Reg} (info : LivenessInfo Reg) (file : RegisterFile Reg) (existing_locals : Z)
  (vreg_info : list VRegInfo).
Implicit Types (reg : Reg) (st : scan_state (Reg:=Reg)) (c : RegClass) (r : LiveRange).

(** ** The invariant *)

Definition save_of (v : VReg) : SaveClasses Reg := at_class file (class_of info v).
Definition off_diverging (v : VReg) : bool := negb (has_diverging_use info v).

(** [reg] can hold a value for the whole of [r]. *)
Definition survives (off : bool) (save : SaveClasses Reg) reg r : Prop := reg ∈ callee_saved save \/ ~ clobbered_in info off reg r.
Definition home_ok (v : VReg) reg r : Prop :=
  reg ∈ caller_saved (save_of v) ++ callee_saved (save_of v) /\ survives (off_diverging v) (save_of v) reg r.

(** A range that starts in diverging code stays in it. *)
Definition starts_ok : Prop := forall v r, range_of info v = Some r -> diverges_at info (r_start r) = true -> confined info r.

Definition in_reg st (v : VReg) reg : Prop := sc_allocation st !! v = Some (Some (Register reg)).

(** Registers. [D] are the intervals seen, [s] the last start. *)
Record regs_inv (D : VReg -> Prop) (s : nat) st : Prop := {
  ri_len : length (sc_allocation st) = length (ranges info);
  ri_dom v : (exists a, sc_allocation st !! v = Some (Some a)) <-> D v;
  ri_start v : D v -> exists r, range_of info v = Some r /\ r_start r <= s;
  ri_active c u reg e : (u, reg, e) ∈ at_class (sc_active st) c ->
    class_of info u = c /\ in_reg st u reg /\ exists r, range_of info u = Some r /\ e = r_end r;
  ri_nodup c : NoDup ((fun e => e.1.2) <$> at_class (sc_active st) c);
  ri_all u reg r : in_reg st u reg -> range_of info u = Some r ->
    (u, reg, r_end r) ∈ at_class (sc_active st) (class_of info u) \/ r_end r < s;
  ri_apart u v reg ru rv : u <> v -> class_of info u = class_of info v -> in_reg st u reg -> in_reg st v reg ->
    range_of info u = Some ru -> range_of info v = Some rv -> overlaps ru rv = false;
  ri_home v reg r : in_reg st v reg -> range_of info v = Some r -> home_ok v reg r;
  ri_remat v op : sc_allocation st !! v = Some (Some (Rematerialize op)) -> can_remat vreg_info v = Some op;
}.

(** Slots: every spilled interval has one, whose last occupant ends no earlier;
    two in the same slot are disjoint. *)
Definition slot_inv st (slot_of : VReg -> nat) : Prop :=
  (forall v off, sc_allocation st !! v = Some (Some (Spill off)) -> can_remat vreg_info v = None /\
    off = offset_for_slot (slots_new existing_locals) (slot_of v) /\
    exists e r, slots (sc_slots st) !! slot_of v = Some (Some e) /\ range_of info v = Some r /\ r_end r <= e) /\
  (forall u v o o' ru rv, u <> v -> sc_allocation st !! u = Some (Some (Spill o)) -> sc_allocation st !! v = Some (Some (Spill o')) ->
    slot_of u = slot_of v -> range_of info u = Some ru -> range_of info v = Some rv -> overlaps ru rv = false).
Definition slots_inv st : Prop := slots_ok (sc_slots st) /\ base_slots (sc_slots st) = existing_locals /\
  length (slots (sc_slots st)) <= length (sc_spills st) /\
  NoDup (sc_spills st) /\ (forall v, v ∈ sc_spills st <-> exists o, sc_allocation st !! v = Some (Some (Spill o))) /\
  exists slot_of, slot_inv st slot_of.

(** The prologue's saves. *)
Record saved_inv st : Prop := {
  vi_nodup : NoDup (sc_saved st);
  vi_callee reg : reg ∈ sc_saved st -> exists c, reg ∈ callee_saved (at_class file c);
  vi_all v reg r : starts_ok -> in_reg st v reg -> range_of info v = Some r -> reg ∈ callee_saved (save_of v) -> ~ confined info r ->
    reg ∈ sc_saved st;
}.

Record scan_inv (D : VReg -> Prop) (s : nat) st : Prop := { sv_regs : regs_inv D s st; sv_slots : slots_inv st; sv_saved : saved_inv st }.

(** ** Changes of the state *)

Definition set_active_of st c (l : list (VReg * Reg * nat)) : scan_state :=
  mkScan (sc_allocation st) (sc_slots st) (sc_saved st) (sc_spills st) (set_class c l (sc_active st)).

Lemma overlaps_false a b : overlaps a b = false <-> r_end b < r_start a \/ r_end a < r_start b.
Proof. rw /overlaps andb_false_iff !Nat.leb_gt. tauto. Qed.
Lemma overlaps_sym a b : overlaps a b = overlaps b a.
Proof. rw /overlaps. by rw andb_comm. Qed.

Lemma in_reg_insert st v a u reg sl sa sp ac : v < length (sc_allocation st) ->
  in_reg (mkScan (<[v := Some a]> (sc_allocation st)) sl sa sp ac) u reg <-> (u = v /\ a = Register reg) \/ (u <> v /\ in_reg st u reg).
Proof.
  intros Hv. rw /in_reg /=. destruct (decide (u = v)) as [->|Hne].
  - rw list_lookup_insert_eq //. naive_solver.
  - rw list_lookup_insert_ne //. naive_solver.
Qed.

(** The intervals of a class that ended before [s'] leave its list. *)
Lemma scan_inv_expire D s s' st c : s <= s' -> scan_inv D s st ->
  scan_inv D s' (set_active_of st c (filter (fun e => s' <= e.2) (at_class (sc_active st) c))).
Proof.
  intros Hs [HR HS HV]. split; [|exact HS|by destruct HV; split].
  destruct HR. split; simpl; try done.
  - intros v Hv. destruct (ri_start0 v Hv) as (r & ? & ?). exists r. split; [done|lia].
  - intros c' u reg e. rw at_set_class. case_decide as Hc; [|apply ri_active0]. subst c'.
    rw list_elem_of_filter. intros [_ Hin]. by apply ri_active0.
  - intros c'. rw at_set_class. case_decide as Hc; [|apply ri_nodup0]. subst c'.
    eapply sublist_NoDup; [apply ri_nodup0|]. apply fmap_sublist, sublist_filter.
  - intros u reg r Hu Hr. rw at_set_class. destruct (ri_all0 u reg r Hu Hr) as [Hin|]; [|right; lia].
    case_decide as Hc; [subst c|by left]. destruct (decide (s' <= r_end r)); [|right; lia]. left. by apply list_elem_of_filter.
Qed.

(** A register that is free in its class takes the interval. *)
Lemma scan_inv_assign D s st v reg r saved : scan_inv D s st -> ~ D v -> range_of info v = Some r -> r_start r = s ->
  reg ∉ (fun e => e.1.2) <$> at_class (sc_active st) (class_of info v) -> home_ok v reg r ->
  NoDup saved -> (forall reg, reg ∈ saved -> exists c, reg ∈ callee_saved (at_class file c)) -> (forall reg, reg ∈ sc_saved st -> reg ∈ saved) ->
  (starts_ok -> reg ∈ callee_saved (save_of v) -> ~ confined info r -> reg ∈ saved) ->
  scan_inv (fun u => D u \/ u = v) s (mkScan (<[v := Some (Register reg)]> (sc_allocation st)) (sc_slots st) saved (sc_spills st)
    (set_class (class_of info v) (at_class (sc_active st) (class_of info v) ++ [(v, reg, r_end r)]) (sc_active st))).
Proof.
  intros [HR HS HV] Hv Hr Hs Hfree Hhome Hnd Hcs Hsub Hsaved. destruct HR.
  assert (v < length (sc_allocation st)) as Hlt.
  { rw ri_len0. revert Hr. rw /range_of. destruct (ranges info !! v) eqn:H0; [intros _; by eapply lookup_lt_Some|done]. }
  assert (forall a, sc_allocation st !! v <> Some (Some a)) as Hnone by (intros a Ha; apply Hv, ri_dom0; by exists a).
  assert (forall u ru, in_reg st u reg -> class_of info u = class_of info v -> range_of info u = Some ru -> r_end ru < r_start r) as Hgone.
  { intros u ru Hu Hc Hru. destruct (ri_all0 u reg ru Hu Hru) as [Hin|]; [|lia]. exfalso. apply Hfree. rewrite -Hc.
    apply list_elem_of_fmap. by exists (u, reg, r_end ru). }
  split.
  - split; simpl.
    + by rw length_insert.
    + intros u. destruct (decide (u = v)) as [->|Hne].
      * rw list_lookup_insert_eq //. split; [by right|by eexists].
      * rw list_lookup_insert_ne // ri_dom0. naive_solver.
    + intros u [Hu| ->]; [by apply ri_start0|]. exists r. split; [done|lia].
    + intros c u reg' e. rw at_set_class. intros Hin. rw in_reg_insert //.
      assert ((u, reg', e) ∈ at_class (sc_active st) c \/ c = class_of info v /\ u = v /\ reg' = reg /\ e = r_end r) as [Ho|(-> & -> & -> & ->)].
      { revert Hin. case_decide as Hc; [subst c; rw elem_of_app list_elem_of_singleton; naive_solver|by left]. }
      * destruct (ri_active0 _ _ _ _ Ho) as (? & Hu & ?). split_and!; [done| |done]. right. split; [|done]. intros ->. by eapply Hnone.
      * split_and!; [done|by left|by exists r].
    + intros c. rw at_set_class. case_decide as Hc; [|done]. subst c. rw fmap_app. apply NoDup_app. split_and!; [done| |apply NoDup_singleton].
      intros x Hx ->%list_elem_of_singleton. done.
    + intros u reg' ru. rw in_reg_insert // at_set_class. intros [[-> [= <-]]|[Hne Hu]] Hru.
      * left. rw decide_True // elem_of_app list_elem_of_singleton. right. congruence.
      * destruct (ri_all0 u reg' ru Hu Hru) as [Hin|]; [|by right]. left. case_decide as Hc; [|done]. rewrite -Hc in Hin. rw elem_of_app. by left.
    + intros u w reg' ru rx Huw Hc. rw !in_reg_insert //. intros [[-> [= <-]]|[Hu1 Hu]] [[-> H2]|[Hw1 Hw]] Hru Hrw; [done|..].
      * assert (ru = r) as -> by congruence. apply overlaps_false. left. by apply (Hgone w).
      * injection H2 as <-. assert (rx = r) as -> by congruence. apply overlaps_false. right. by apply (Hgone u).
      * by apply (ri_apart0 u w reg').
    + intros u reg' ru. rw in_reg_insert //. intros [[-> [= <-]]|[_ Hu]] Hru; [congruence|by apply ri_home0].
    + intros u op. destruct (decide (u = v)) as [->|Hne]; [by rw list_lookup_insert_eq|]. rw list_lookup_insert_ne //. apply ri_remat0.
  - assert (forall u o, <[v:=Some (Register reg)]> (sc_allocation st) !! u = Some (Some (Spill o)) <-> sc_allocation st !! u = Some (Some (Spill o))) as Hsp.
    { intros u o. destruct (decide (u = v)) as [->|Hne]; [rw list_lookup_insert_eq //; naive_solver|]. by rw list_lookup_insert_ne. }
    destruct HS as (? & ? & ? & ? & Hspills & slot_of & H1 & H2). split_and!; simpl; try done.
    + intros u. rw Hspills. by setoid_rewrite Hsp.
    + exists slot_of. split; simpl; [intros u o; rw Hsp; apply H1|]. intros u w o o' ru rx Hne Ho%Hsp Ho'%Hsp. by apply (H2 u w o o').
  - destruct HV. split; simpl; [done..|]. intros u reg' ru Hst. rw in_reg_insert //. intros [[-> [= <-]]|[_ Hu]] Hru; [|eauto].
    assert (ru = r) as -> by congruence. by apply Hsaved.
Qed.

(** An interval goes to the frame or is recomputed. *)
Lemma regs_inv_leave D s st v a r sl sa sp active : regs_inv D s st -> range_of info v = Some r -> r_start r <= s ->
  (forall reg, a <> Register reg) -> (forall op, a = Rematerialize op -> can_remat vreg_info v = Some op) ->
  (forall c e, e ∈ at_class active c <-> e ∈ at_class (sc_active st) c /\ e.1.1 <> v) -> (forall c, NoDup ((fun e => e.1.2) <$> at_class active c)) ->
  regs_inv (fun u => D u \/ u = v) s (mkScan (<[v := Some a]> (sc_allocation st)) sl sa sp active).
Proof.
  intros HR Hr Hs Hreg Hop Hact Hnd. destruct HR.
  assert (v < length (sc_allocation st)) as Hlt.
  { rw ri_len0. revert Hr. rw /range_of. destruct (ranges info !! v) eqn:H0; [intros _; by eapply lookup_lt_Some|done]. }
  assert (forall u reg, in_reg (mkScan (<[v := Some a]> (sc_allocation st)) sl sa sp active) u reg <-> u <> v /\ in_reg st u reg) as Hin.
  { intros u reg. rw in_reg_insert //. split; [|by right]. intros [[_ Ha]|]; [by destruct (Hreg reg)|done]. }
  split; simpl; [by rw length_insert| | | |done|..].
  - intros u. destruct (decide (u = v)) as [->|Hne].
    + rw list_lookup_insert_eq //. split; [by right|by eexists].
    + rw list_lookup_insert_ne // ri_dom0. naive_solver.
  - intros u [Hu| ->]; [by apply ri_start0|]. by exists r.
  - intros c u reg e [Hu Hne]%Hact. rw Hin. destruct (ri_active0 _ _ _ _ Hu) as (? & ? & ?). done.
  - intros u reg ru [Hne Hu]%Hin Hru. destruct (ri_all0 _ _ _ Hu Hru) as [|]; [left; by apply Hact|by right].
  - intros u w reg ru rx Huw Hc [_ Hu]%Hin [_ Hw]%Hin. by apply (ri_apart0 u w reg).
  - intros u reg ru [_ Hu]%Hin. by apply ri_home0.
  - intros u op. destruct (decide (u = v)) as [->|Hne]; [rw list_lookup_insert_eq //; intros [= ->]; by apply Hop|].
    rw list_lookup_insert_ne //. apply ri_remat0.
Qed.

Lemma saved_inv_leave st v a sl sp active : saved_inv st -> v < length (sc_allocation st) -> (forall reg, a <> Register reg) ->
  saved_inv (mkScan (<[v := Some a]> (sc_allocation st)) sl (sc_saved st) sp active).
Proof.
  intros [] Hv Ha. split; simpl; [done..|]. intros u reg r Hst. rw in_reg_insert //. intros [[_ ->]|[_ Hu]]; [by destruct (Ha reg)|eauto].
Qed.

Lemma slots_inv_remat st v op sa active : slots_inv st -> v < length (sc_allocation st) -> (forall o, sc_allocation st !! v <> Some (Some (Spill o))) ->
  slots_inv (mkScan (<[v := Some (Rematerialize op)]> (sc_allocation st)) (sc_slots st) sa (sc_spills st) active).
Proof.
  intros (? & ? & ? & ? & Hspills & slot_of & H1 & H2) Hv Hno.
  assert (forall u o, <[v:=Some (Rematerialize op)]> (sc_allocation st) !! u = Some (Some (Spill o)) <-> sc_allocation st !! u = Some (Some (Spill o))) as Hsp.
  { intros u o. destruct (decide (u = v)) as [->|Hne]; [rw list_lookup_insert_eq //; naive_solver|]. by rw list_lookup_insert_ne. }
  split_and!; simpl; try done.
  - intros u. rw Hspills. by setoid_rewrite Hsp.
  - exists slot_of. split; simpl; [intros u o; rw Hsp; apply H1|]. intros u w o o' ru rx Hne Ho%Hsp Ho'%Hsp. by apply (H2 u w o o').
Qed.

Lemma offset_for_slot_base a i : offset_for_slot a i = offset_for_slot (slots_new (base_slots a)) i.
Proof. done. Qed.

Lemma slots_inv_spill st v r sa active sl off : slots_inv st -> v < length (sc_allocation st) -> range_of info v = Some r -> r_start r <= r_end r ->
  can_remat vreg_info v = None -> (forall o, sc_allocation st !! v <> Some (Some (Spill o))) ->
  allocate_slot (sc_slots st) (r_start r) (r_end r) = (sl, off) ->
  slots_inv (mkScan (<[v := Some (Spill off)]> (sc_allocation st)) sl sa (sc_spills st ++ [v]) active).
Proof.
  intros (Hok & Hbase & Hlen & Hnd & Hspills & slot_of & H1 & H2) Hv Hr Hle Hrem Hno Hal.
  destruct (allocate_slot_reference (sc_slots st) (r_start r) (r_end r) Hok) as (sl' & Hal' & Hsl & Hb & Hok').
  rewrite Hal' in Hal. injection Hal as -> <-. set (k := (allocate_reference (sc_slots st) (r_start r) (r_end r)).1) in *.
  assert (slots sl !! k = Some (Some (r_end r)) /\ (forall j e, slots (sc_slots st) !! j = Some (Some e) -> j = k -> e < r_start r) /\
    (forall j, j <> k -> slots (sc_slots st) !! j <> None -> slots sl !! j = slots (sc_slots st) !! j) /\ length (slots sl) <= S (length (sc_spills st)))
    as (Hk & Hfree & Hother & Hlen').
  { rw Hsl /k /allocate_reference. pose proof (reusable_slot_spec (slots (sc_slots st)) (r_start r) 0) as Hru.
    destruct (reusable_slot (slots (sc_slots st)) (r_start r) 0) as [i|]; simpl.
    - destruct Hru as (j & e & -> & Hj & He & _). split_and!.
      + apply list_lookup_insert_eq. by eapply lookup_lt_Some.
      + intros j' e' Hj' ->. simpl in Hj'. congruence.
      + intros j' Hne _. by rw list_lookup_insert_ne.
      + rw length_insert. lia.
    - split_and!.
      + by rw list_lookup_middle.
      + intros j e Hj%lookup_lt_Some ->. lia.
      + intros j Hne Hj. destruct (slots (sc_slots st) !! j) eqn:H0; [|done]. by apply lookup_app_l_Some.
      + rw length_app /=. lia. }
  assert (forall u o, <[v:=Some (Spill (offset_for_slot (sc_slots st) k))]> (sc_allocation st) !! u = Some (Some (Spill o)) <->
    (u = v /\ o = offset_for_slot (sc_slots st) k) \/ u <> v /\ sc_allocation st !! u = Some (Some (Spill o))) as Hsp.
  { intros u o. destruct (decide (u = v)) as [->|Hne]; [rw list_lookup_insert_eq //; naive_solver|]. rw list_lookup_insert_ne //. naive_solver. }
  assert (v ∉ sc_spills st) as Hnv by (rw Hspills; intros [o Ho]; by eapply Hno).
  split_and!; simpl; [done|by rw Hb|rw length_app /=; lia| | |].
  - apply NoDup_app. split_and!; [done| |apply NoDup_singleton]. intros x Hx ->%list_elem_of_singleton. done.
  - intros u. rw elem_of_app list_elem_of_singleton Hspills. setoid_rewrite Hsp. destruct (decide (u = v)) as [->|]; naive_solver.
  - exists (fun u => if decide (u = v) then k else slot_of u). split; simpl.
    + intros u o [[-> ->]|[Hne Ho]]%Hsp; [rw decide_True //|rw decide_False //].
      * split_and!; [done|by rw offset_for_slot_base Hbase|by exists (r_end r), r].
      * destruct (H1 u o Ho) as (? & ? & e & ru & He & Hru & Hend). split_and!; [done..|].
        destruct (decide (slot_of u = k)) as [Hsame|Hdiff].
        -- exists (r_end r), ru. rewrite Hsame. split_and!; [done..|]. specialize (Hfree _ _ He Hsame). lia.
        -- exists e, ru. rw Hother //; by rw He.
    + assert (forall u o ru, sc_allocation st !! u = Some (Some (Spill o)) -> slot_of u = k -> range_of info u = Some ru -> overlaps ru r = false) as Hdis.
      { intros u o ru Ho Hsk Hru. apply overlaps_false. right. destruct (H1 u o Ho) as (_ & _ & e & ru' & He & Hru' & Hend).
        assert (ru' = ru) as -> by congruence. specialize (Hfree _ _ He Hsk). lia. }
      intros u w o o' ru rx Huw [[-> ->]|[Hu Ho]]%Hsp [[-> ->]|[Hw Ho']]%Hsp; [done|..]; repeat case_decide; try done; intros Hs Hru Hrw.
      * assert (ru = r) as -> by congruence. rw overlaps_sym. by eapply Hdis.
      * assert (rx = r) as -> by congruence. by eapply Hdis.
      * by apply (H2 u w o o').
Qed.

(** ** The choices of a step *)

Context (cost_model : CostModel) (loop_info : LoopInfo).

(** What the scan is given: a table of its own size, ranges inside the code, a
    register file whose compact registers are callee-saved, depths that answer. *)
Record scan_ok : Prop := {
  so_range v r : range_of info v = Some r -> r_start r <= r_end r < instruction_count info;
  so_compact c reg : reg ∈ compact_callee_saved (at_class file c) -> reg ∈ callee_saved (at_class file c);
  so_depth a b : is_Some (max_depth_in_range loop_info a b);
}.

Lemma tracked_all c reg : reg ∈ caller_saved (at_class file c) -> reg ∈ caller_saved_flattened file.
Proof. intros Hr. rw /caller_saved_flattened /= !elem_of_app. destruct c; simpl in *; tauto. Qed.

Lemma find_none {A} (p : A -> bool) l : List.find p l = None <-> forall a, a ∈ l -> p a = false.
Proof.
  split; [intros Hf a Ha; apply (find_none p l Hf); by apply list_elem_of_In|].
  induction l as [|a l IH]; intros Hall; [done|]. simpl. rw Hall; [|set_solver]. apply IH. set_solver.
Qed.
Lemma find_Some {A} (p : A -> bool) l a : List.find p l = Some a -> a ∈ l /\ p a = true.
Proof. intros [Ha Hp]%List.find_some. split; [by apply list_elem_of_In|done]. Qed.

Lemma used_spec (active : list (VReg * Reg * nat)) reg : is_used active reg = true <-> reg ∈ (fun e => e.1.2) <$> active.
Proof.
  rw /is_used existsb_exists list_elem_of_fmap. setoid_rewrite bool_decide_eq_true. setoid_rewrite <- list_elem_of_In. naive_solver.
Qed.
Lemma unused_spec (active : list (VReg * Reg * nat)) reg : negb (is_used active reg) = true <-> reg ∉ (fun e => e.1.2) <$> active.
Proof. rw negb_true_iff -used_spec. by destruct (is_used active reg). Qed.

Lemma first_unclobbered_spec idx active v r regs : clobbers_build info (caller_saved_flattened file) = Some idx ->
  (forall reg, reg ∈ regs -> reg ∈ caller_saved (save_of v)) ->
  exists o, first_unclobbered idx active r (off_diverging v) regs = Some o /\ match o with
    | Some reg => reg ∈ regs /\ reg ∉ (fun e => e.1.2) <$> active /\ ~ clobbered_in info (off_diverging v) reg r
    | None => forall reg, reg ∈ regs -> ~ clobbered_in info (off_diverging v) reg r -> reg ∈ (fun e => e.1.2) <$> active end.
Proof.
  intros Hidx. induction regs as [|reg regs IH]; intros Hsub; simpl; [exists None; split; [done|by intros ? ?%not_elem_of_nil]|].
  destruct IH as (o & Ho & Hspec); [intros; apply Hsub; by right|].
  assert ((reg ∈ (fun e => e.1.2) <$> active \/ clobbered_in info (off_diverging v) reg r) -> match o with
    | Some reg' => reg' ∈ reg :: regs /\ reg' ∉ (fun e => e.1.2) <$> active /\ ~ clobbered_in info (off_diverging v) reg' r
    | None => forall reg', reg' ∈ reg :: regs -> ~ clobbered_in info (off_diverging v) reg' r -> reg' ∈ (fun e => e.1.2) <$> active end) as Hskip.
  { intros Hreg. destruct o as [reg'|]; [split; [set_solver|tauto]|].
    intros reg' [->|Hr]%elem_of_cons Hc; [by destruct Hreg|by apply Hspec]. }
  destruct (is_used active reg) eqn:Hu; [exists o; split; [done|]; apply Hskip; left; by apply used_spec|].
  destruct (is_clobbered_during_spec info _ idx reg r (off_diverging v) Hidx) as (b & Hb & Hiff).
  { eapply tracked_all, Hsub. by left. }
  rw Hb. destruct b; cbn [mbind option_bind]; [exists o; split; [done|]; apply Hskip; right; by apply Hiff|].
  exists (Some reg). split; [done|]. split; [by left|]. split; [apply unused_spec; by rw Hu|]. intros Hc. by apply Hiff in Hc.
Qed.

Lemma pick_free_spec idx active sunk v r : clobbers_build info (caller_saved_flattened file) = Some idx -> scan_ok ->
  exists o, pick_free_register (save_of v) idx active sunk r (off_diverging v) = Some o /\
    match o with
    | Some reg => reg ∉ (fun e => e.1.2) <$> active /\ home_ok v reg r
    | None => forall reg, home_ok v reg r -> reg ∈ (fun e => e.1.2) <$> active
    end.
Proof.
  intros Hidx Hok. rw /pick_free_register. destruct (List.find _ (compact_callee_saved (save_of v))) as [reg|] eqn:Hf.
  { eexists. split; [done|]. apply find_Some in Hf as [Hin [_ Hu%unused_spec]%andb_true_iff]. split; [done|].
    apply so_compact in Hin; [|done]. split; [rw elem_of_app; by right|by left]. }
  destruct (first_unclobbered_spec idx active v r (caller_saved (save_of v)) Hidx (fun _ H => H)) as (o & -> & Hspec). cbn [mbind option_bind].
  destruct o as [reg|]; eexists; (split; [done|]).
  { destruct Hspec as (? & ? & ?). split; [done|]. split; [rw elem_of_app; by left|by right]. }
  destruct (List.find _ (callee_saved (save_of v))) as [reg|] eqn:Hg.
  - apply find_Some in Hg as [Hin Hu%unused_spec]. split; [done|]. split; [rw elem_of_app; by right|by left].
  - rewrite find_none in Hg. assert (forall reg, reg ∈ callee_saved (save_of v) -> reg ∈ (fun e => e.1.2) <$> active) as Hcallee.
    { intros reg Hr%Hg. apply used_spec. by apply negb_false_iff in Hr. }
    intros reg [[Hr|Hr]%elem_of_app Hs]; [|by apply Hcallee]. destruct Hs as [Hs|Hs]; [by apply Hcallee|by apply Hspec].
Qed.

Lemma register_survives_spec idx v reg r : clobbers_build info (caller_saved_flattened file) = Some idx ->
  reg ∈ caller_saved (save_of v) ++ callee_saved (save_of v) ->
  exists b, register_survives_range (save_of v) idx reg r (off_diverging v) = Some b /\ (b = true <-> home_ok v reg r).
Proof.
  intros Hidx Hr. rw /register_survives_range /is_callee_saved /home_ok /survives. case_bool_decide as Hc; [exists true; tauto|].
  assert (reg ∈ caller_saved (save_of v)) as Hcs by (apply elem_of_app in Hr as [|]; done).
  destruct (is_clobbered_during_spec info _ idx reg r (off_diverging v) Hidx) as (b & Hb & Hiff); [by eapply tracked_all|].
  rw Hb /=. exists (negb b). split; [done|]. rw negb_true_iff. destruct b; naive_solver.
Qed.

Lemma weigh_spec idx v r active start : clobbers_build info (caller_saved_flattened file) = Some idx -> scan_ok ->
  (forall e, e ∈ active -> e.1.2 ∈ caller_saved (save_of v) ++ callee_saved (save_of v)) -> start.1.1 = None ->
  exists best, fold_opt (weigh_with_remat cost_model loop_info vreg_info (save_of v) idx r (off_diverging v)) start (imap pair active) = Some best /\
    forall i, best.1.1 = Some i -> exists u reg e, active !! i = Some (u, reg, e) /\ home_ok v reg r.
Proof.
  intros Hidx Hok Hact Hstart.
  destruct (fold_opt_total_imap (weigh_with_remat cost_model loop_info vreg_info (save_of v) idx r (off_diverging v))
    (fun _ best => forall i, best.1.1 = Some i -> exists u reg e, active !! i = Some (u, reg, e) /\ home_ok v reg r) active start) as (best & Hb & Hs);
    [by rw Hstart| |by exists best].
  intros k [[u reg] e] [[best p] isr] Hk Hbest. rw /weigh_with_remat.
  destruct (register_survives_spec idx v reg r Hidx) as (b & Hb & Hiff); [apply (Hact (u, reg, e)); by eapply list_elem_of_lookup_2|].
  rw Hb. cbn [mbind option_bind]. destruct b; simpl; [|by eexists]. destruct (so_depth Hok (r_start r) e) as [d ->]. cbn [mbind option_bind].
  eexists. split; [done|]. destruct (should_replace _ _ _ _); [|done]. intros i [= <-]. exists u, reg, e. split; [done|by apply Hiff].
Qed.

(** ** One step *)

Lemma evict_ok D s st u r active : scan_inv D s st -> scan_ok -> range_of info u = Some r -> r_start r <= s ->
  (forall o, sc_allocation st !! u <> Some (Some (Spill o))) ->
  (forall c e, e ∈ at_class active c <-> e ∈ at_class (sc_active st) c /\ e.1.1 <> u) -> (forall c, NoDup ((fun e => e.1.2) <$> at_class active c)) ->
  exists st', evict vreg_info u (r_start r) (r_end r) st = Some st' /\ sc_active st' = sc_active st /\ sc_saved st' = sc_saved st /\
    scan_inv (fun w => D w \/ w = u) s (mkScan (sc_allocation st') (sc_slots st') (sc_saved st') (sc_spills st') active).
Proof.
  intros [HR HS HV] Hok Hr Hs Hno Hact Hnd.
  assert (u < length (sc_allocation st)) as Hlt.
  { rw (ri_len _ _ _ HR). revert Hr. rw /range_of. destruct (ranges info !! u) eqn:H0; [intros _; by eapply lookup_lt_Some|done]. }
  destruct (lookup_lt_is_Some_2 _ _ Hlt) as [o Ho]. rw /evict.
  destruct (can_remat vreg_info u) as [op|] eqn:Hop.
  - rw /set_allocation Ho. cbn [mbind option_bind]. eexists. split; [done|]. split_and!; [done..|]. simpl. split.
    + apply regs_inv_leave with r; try done. by intros op' [= <-].
    + by apply slots_inv_remat.
    + by apply saved_inv_leave.
  - rw /spill_vreg /set_allocation. destruct (allocate_slot (sc_slots st) (r_start r) (r_end r)) as [sl off] eqn:Hal.
    rw Ho. cbn [mbind option_bind]. eexists. split; [done|]. split_and!; [done..|]. simpl. split.
    + by apply regs_inv_leave with r.
    + apply slots_inv_spill with r; try done. by apply (so_range Hok u).
    + by apply saved_inv_leave.
Qed.

Lemma delete_active (l : list (VReg * Reg * nat)) i u reg e : NoDup ((fun e => e.1.2) <$> l) -> l !! i = Some (u, reg, e) ->
  (forall x, x ∈ l -> x.1.1 = u -> x.1.2 = reg) ->
  (forall x, x ∈ delete i l <-> x ∈ l /\ x.1.1 <> u) /\ reg ∉ (fun e => e.1.2) <$> delete i l /\ NoDup ((fun e => e.1.2) <$> delete i l).
Proof.
  intros Hnd Hi Hreg. pose proof (delete_Permutation _ _ _ Hi) as Hp. assert (Hnd' := Hnd). rewrite Hp in Hnd'.
  apply NoDup_cons in Hnd' as [Hfresh Hnd']. simpl in Hfresh. split_and!; [|done..].
  intros x. rw {2}Hp elem_of_cons. split.
  - intros Hx. split; [by right|]. intros Hu. apply Hfresh. apply list_elem_of_fmap. exists x. split; [|done].
    symmetry. apply Hreg; [rw Hp; by right|done].
  - by intros [[->|Hx] Hne].
Qed.

Lemma set_set_class {T} c (x y : T) p : set_class c x (set_class c y p) = set_class c x p.
Proof. by destruct c, p. Qed.

Lemma scan_inv_proper (D D' : VReg -> Prop) s st : (forall v, D v <-> D' v) -> scan_inv D s st -> scan_inv D' s st.
Proof.
  intros HD [[] HS HV]. split; [split; try done|done|done].
  - intros v. rw ri_dom0. apply HD.
  - intros v Hv. by apply ri_start0, HD.
Qed.

(** A register whose occupant is confined is taken over by confined intervals
    only. *)
Lemma taken_saved D s st v u reg r : scan_inv D s st -> scan_ok -> range_of info v = Some r -> r_start r = s ->
  (exists e, s <= e /\ (u, reg, e) ∈ at_class (sc_active st) (class_of info v)) ->
  starts_ok -> reg ∈ callee_saved (save_of v) -> ~ confined info r -> reg ∈ sc_saved st.
Proof.
  intros [HR _ HV] Hok Hr Hs (e & He & Hin) Hst Hc Hn.
  destruct (ri_active _ _ _ HR _ _ _ _ Hin) as (Hcu & Hu & ru & Hru & ->).
  apply (vi_all _ HV u reg ru); [done..|by rw /save_of Hcu|]. intros [Hex Hall]. apply Hn. apply (Hst v); [done|].
  assert (D u) as Hdu by (apply (ri_dom _ _ _ HR); by eexists). destruct (ri_start _ _ _ HR u Hdu) as (ru' & Hru' & Hle).
  assert (ru' = ru) as -> by congruence. destruct (so_range Hok v r Hr). apply Hall; lia.
Qed.

Section Step.
Context (sunk : list Reg) (inputs : ScanInputs (Reg:=Reg)).
Context (Hidx : clobbers_build info (caller_saved_flattened file) = Some (in_clobbers inputs)) (Hdiv : in_divergence inputs = divergence_build info).
Context (Hok : scan_ok).

Lemma assign_free_ok D s st v reg r b : scan_inv D s st -> ~ D v -> range_of info v = Some r -> r_start r = s ->
  reg ∉ (fun e => e.1.2) <$> at_class (sc_active st) (class_of info v) -> home_ok v reg r -> (b = true <-> confined info r) ->
  exists st', assign_free (save_of v) reg v r b (class_of info v) (at_class (sc_active st) (class_of info v)) st = Some st' /\
    scan_inv (fun u => D u \/ u = v) s st'.
Proof.
  intros Hinv Hv Hr Hs Hfree Hhome Hb. rw /assign_free /set_allocation.
  destruct (lookup_lt_is_Some_2 (sc_allocation st) v) as [o ->].
  { rw (ri_len _ _ _ (sv_regs _ _ _ Hinv)). revert Hr. rw /range_of. destruct (ranges info !! v) eqn:H0; [intros _; by eapply lookup_lt_Some|done]. }
  cbn [mbind option_bind]. eexists. split; [done|]. destruct (sv_saved _ _ _ Hinv) as [Hnd Hcs Hall].
  apply scan_inv_assign; try done.
  - destruct (is_callee_saved _ _ && _ && _) eqn:Hc; [|done]. apply andb_true_iff in Hc as [_ Hc%negb_true_iff%bool_decide_eq_false].
    apply NoDup_app. split_and!; [done| |apply NoDup_singleton]. by intros x Hx ->%list_elem_of_singleton.
  - intros reg'. destruct (is_callee_saved _ _ && _ && _) eqn:Hc; [|apply Hcs]. rw elem_of_app list_elem_of_singleton. intros [| ->]; [by apply Hcs|].
    apply andb_true_iff in Hc as [[Hc _]%andb_true_iff _]. apply bool_decide_eq_true in Hc. by eexists.
  - intros reg' Hin. destruct (is_callee_saved _ _ && _ && _); [rw elem_of_app; by left|done].
  - intros _ Hc Hn. rw /is_callee_saved bool_decide_true //. destruct b; [by exfalso; apply Hn, Hb|]. simpl. case_bool_decide; simpl; [done|].
    rw elem_of_app. right. by apply list_elem_of_singleton.
Qed.

(** The occupant at [i] leaves and the arriving interval takes its register. *)
Lemma replace_ok D s st v r i u reg e : scan_inv D s st -> ~ D v -> range_of info v = Some r -> r_start r = s ->
  at_class (sc_active st) (class_of info v) !! i = Some (u, reg, e) -> s <= e -> home_ok v reg r ->
  exists st1 st2, evict_active info vreg_info u e st = Some st1 /\
    take_over v reg r (class_of info v) (delete i (at_class (sc_active st) (class_of info v))) st1 = Some st2 /\ scan_inv (fun u => D u \/ u = v) s st2.
Proof.
  intros Hinv Hv Hr Hs Hi He Hhome. assert (HR := sv_regs _ _ _ Hinv). assert (Hin := list_elem_of_lookup_2 _ _ _ Hi).
  destruct (ri_active _ _ _ HR _ _ _ _ Hin) as (Hcu & Hu & ru & Hru & ->).
  assert (D u) as Hdu by (apply (ri_dom _ _ _ HR); by eexists).
  destruct (ri_start _ _ _ HR u Hdu) as (ru' & Hru' & Hle). assert (ru' = ru) as -> by congruence.
  destruct (delete_active _ i u reg (r_end ru) (ri_nodup _ _ _ HR (class_of info v)) Hi) as (Hdel & Hfresh & Hnd).
  { intros [[x xr] xe] Hx Hxu. simpl in *. subst x. destruct (ri_active _ _ _ HR _ _ _ _ Hx) as (_ & Hx' & _). rewrite /in_reg in Hx'. congruence. }
  set (active := set_class (class_of info v) (delete i (at_class (sc_active st) (class_of info v))) (sc_active st)).
  destruct (evict_ok D s st u ru active Hinv Hok Hru Hle) as (st1 & Hev & Hac & Hsv & Hinv1).
  { intros o. rw Hu. naive_solver. }
  { intros c x. rw /active at_set_class. case_decide as Hc; [subst c; apply Hdel|]. split; [|tauto]. intros Hx. split; [done|].
    intros Hxu. destruct x as [[x xr] xe]. simpl in *. subst x. destruct (ri_active _ _ _ HR _ _ _ _ Hx) as (? & _). congruence. }
  { intros c. rw /active at_set_class. case_decide; [done|]. apply (ri_nodup _ _ _ HR). }
  exists st1. rw /evict_active Hru. cbn [mbind option_bind].
  assert (evict vreg_info u 0 (r_end ru) st = Some st1 \/ can_remat vreg_info u = None) as Hev0.
  { revert Hev. rw /evict. destruct (can_remat vreg_info u); [by left|by right]. }
  assert (v < length (sc_allocation st1)) as Hlt.
  { rewrite (ri_len _ _ _ (sv_regs _ _ _ Hinv1) : length (sc_allocation st1) = _). revert Hr. rw /range_of.
    destruct (ranges info !! v) eqn:H0; [intros _; by eapply lookup_lt_Some|done]. }
  rw /take_over /set_allocation. destruct (lookup_lt_is_Some_2 _ _ Hlt) as [o ->]. cbn [mbind option_bind].
  eexists. split; [|split; [done|]].
  { destruct (can_remat vreg_info u); [by destruct Hev0|done]. }
  assert (u <> v) as Huv by by intros ->.
  apply (scan_inv_proper (fun w => (D w \/ w = u) \/ w = v)); [naive_solver|].
  pose proof (scan_inv_assign (fun w => D w \/ w = u) s
    (mkScan (sc_allocation st1) (sc_slots st1) (sc_saved st1) (sc_spills st1) active) v reg r (sc_saved st1)) as Ha.
  revert Ha. simpl. rw /active at_set_class decide_True // set_set_class -Hac. intros Ha. apply Ha; try done; clear Ha.
  - by rw Hac.
  - naive_solver.
  - by rw Hac.
  - by apply (sv_saved _ _ _ Hinv1).
  - apply (sv_saved _ _ _ Hinv1).
  - intros Hst Hc Hn. rw Hsv. eapply (taken_saved D s st v u reg r Hinv Hok Hr Hs); [|done..]. by exists (r_end ru).
Qed.

Lemma scan_step_ok D s st v r : scan_inv D s st -> ~ D v -> range_of info v = Some r -> s <= r_start r ->
  exists st', scan_step_with_remat info file cost_model loop_info vreg_info inputs sunk st (v, r) = Some st' /\
    scan_inv (fun u => D u \/ u = v) (r_start r) st'.
Proof.
  intros Hinv Hv Hr Hs. rw /scan_step_with_remat. cbv zeta. set (c := class_of info v).
  set (active := filter (fun e => r_start r <= e.2) (at_class (sc_active st) c)).
  pose proof (scan_inv_expire D s (r_start r) st c Hs Hinv) as Hinv'. fold active in Hinv'.
  rw Hdiv. destruct (range_diverges_spec info r) as (b & -> & Hb). specialize (Hb (proj1 (so_range Hok v r Hr))).
  cbn [mbind option_bind]. rewrite -/(save_of v) -/(off_diverging v).
  destruct (pick_free_spec (in_clobbers inputs) active sunk v r Hidx Hok) as (o & -> & Ho). cbn [mbind option_bind].
  assert (at_class (sc_active (set_active_of st c active)) c = active) as Hac by by rw at_set_class decide_True.
  destruct o as [reg|].
  { destruct Ho as [Hfree Hhome].
    destruct (assign_free_ok D (r_start r) (set_active_of st c active) v reg r b Hinv' Hv Hr eq_refl) as (st' & Hst' & Hi); [by rw Hac|done..|].
    exists st'. split; [|done]. revert Hst'. rw Hac /assign_free /set_active_of /= set_set_class. done. }
  destruct (so_depth Hok (r_start r) (r_end r)) as [d ->]. cbn [mbind option_bind].
  match goal with |- context [fold_opt _ ?x (imap pair active)] => set (start := x) end.
  destruct (weigh_spec (in_clobbers inputs) v r active start Hidx Hok) as (best & -> & Hbest); [|done|].
  { intros [[u reg] e] He. assert ((u, reg, e) ∈ at_class (sc_active (set_active_of st c active)) c) as Hin by by rw Hac.
    destruct (ri_active _ _ _ (sv_regs _ _ _ Hinv') _ _ _ _ Hin) as (Hcu & Hu & ru & Hru & ->).
    destruct (ri_home _ _ _ (sv_regs _ _ _ Hinv') _ _ _ Hu Hru) as [Hh _]. by rewrite /save_of Hcu in Hh. }
  cbn [mbind option_bind]. destruct best as [[best p] isr]. fold (set_active_of st c active). destruct best as [i|].
  - destruct (Hbest i eq_refl) as (u & reg & e & Hi & Hhome). rw Hi. cbn [mbind option_bind].
    destruct (replace_ok D (r_start r) (set_active_of st c active) v r i u reg e Hinv' Hv Hr eq_refl) as (st1 & st2 & Hev & Htk & Hfin); [by rw Hac| |done|].
    { by apply list_elem_of_lookup_2, list_elem_of_filter in Hi as [? _]. }
    rewrite Hac in Htk. rw Hev. cbn [mbind option_bind]. by exists st2.
  - destruct (evict_ok D (r_start r) (set_active_of st c active) v r (sc_active (set_active_of st c active)) Hinv' Hok Hr (Nat.le_refl _))
      as (st' & Hev & Hac' & _ & Hfin).
    + intros off Hoff. apply Hv, (ri_dom _ _ _ (sv_regs _ _ _ Hinv')). by eexists.
    + intros c' [[u reg] e]. split; [|tauto]. intros Hin. split; [done|]. simpl. intros ->.
      destruct (ri_active _ _ _ (sv_regs _ _ _ Hinv') _ _ _ _ Hin) as (_ & Hu & _). apply Hv, (ri_dom _ _ _ (sv_regs _ _ _ Hinv')). by eexists.
    + apply (ri_nodup _ _ _ (sv_regs _ _ _ Hinv')).
    + exists st'. split; [done|]. rewrite -Hac' in Hfin. by destruct st'.
Qed.
End Step.
End Scan.
