(* ===== verification/RegValid.v ===== *)
(** * Register allocation: the allocation is valid

    Both passes over the sorted intervals finish with every interval placed;
    the pass without recipes is the pass with an empty table of them. *)

From stdpp Require Import gmap sorting.
From S2P Require Import Prelude Csr Sched SchedGraph Live Regalloc RegIndex RegScan.
Import Machine.

(** ** The order of the intervals *)

Definition by_start (a b : VReg * LiveRange) : Prop := r_start a.2 <= r_start b.2.

Lemma insert_by_start_perm e l : insert_by_start e l ≡ₚ e :: l.
Proof.
  induction l as [|e' l IH]; simpl; [done|]. destruct (_ <=? _); [done|]. rw IH. apply perm_swap.
Qed.

Lemma insert_by_start_sorted e l : StronglySorted by_start l -> StronglySorted by_start (insert_by_start e l).
Proof.
  induction 1 as [|e' l Hl IH Hall]; simpl; [by repeat constructor|]. destruct (Nat.leb_spec (r_start e.2) (r_start e'.2)) as [Hle|Hlt].
  - constructor; [by constructor|]. constructor; [done|]. eapply Forall_impl; [exact Hall|]. rw /by_start. simpl. lia.
  - constructor; [done|]. rw insert_by_start_perm. constructor; [rw /by_start; lia|done].
Qed.

Lemma sort_by_start l : foldr insert_by_start [] l ≡ₚ l /\ StronglySorted by_start (foldr insert_by_start [] l).
Proof.
  induction l as [|e l [IH1 IH2]]; simpl; [split; [done|constructor]|]. split; [by rw insert_by_start_perm IH1|by apply insert_by_start_sorted].
Qed.

Section Order.
Context {Reg : Type} (info : LivenessInfo Reg) (vreg_count : nat).

Lemma ranged_spec v r : (v, r) ∈ ranged_vregs vreg_count info <-> v < vreg_count /\ range_of info v = Some r.
Proof.
  rw /ranged_vregs list_elem_of_omap. split.
  - intros (x & Hx%elem_of_seq & Hr). destruct (range_of info x) eqn:H0; [|done]. injection Hr as -> ->. split; [lia|done].
  - intros [Hv Hr]. exists v. split; [apply elem_of_seq; lia|]. by rw Hr.
Qed.

Lemma ranged_nodup : NoDup (ranged_vregs vreg_count info).*1.
Proof.
  rw /ranged_vregs. generalize (NoDup_seq 0 vreg_count). generalize (seq 0 vreg_count) as l.
  induction l as [|v l IH]; intros Hnd; simpl; [constructor|]. apply NoDup_cons in Hnd as [Hv Hnd].
  destruct (range_of info v) as [r|]; simpl; [|by apply IH]. constructor; [|by apply IH].
  intros ([x rx] & -> & Hin)%list_elem_of_fmap. apply list_elem_of_omap in Hin as (y & Hy & He).
  destruct (range_of info y); [|done]. by injection He as ->.
Qed.
End Order.

(** ** Whole passes *)

Section Valid.
Context {Reg : Type} `{EqDecision Reg} (vreg_count : nat) (info : LivenessInfo Reg) (file : RegisterFile Reg) (existing_locals : Z)
  (collect_debug : bool) (cost_model : CostModel) (loop_info : LoopInfo) (vreg_info : list VRegInfo).
Context (Hok : scan_ok info file loop_info) (Hcount : length (ranges info) = vreg_count).

Notation scan_inv := (scan_inv info file existing_locals vreg_info).

Lemma scan_inv_start : scan_inv (fun _ => False) 0 (scan_start vreg_count existing_locals).
Proof.
  assert (forall v (a : Allocation Reg), replicate vreg_count None !! v <> Some (Some a)) as Hno.
  { intros v a Ha. by apply lookup_replicate in Ha as [? _]. }
  split; [split|split_and!|split]; simpl; try done.
  - by rw length_replicate.
  - intros v. split; [intros [a Ha]; by eapply Hno|done].
  - intros c u reg e. destruct c; simpl; by intros ?%not_elem_of_nil.
  - intros []; constructor.
  - intros u reg r Hu. by destruct (Hno _ _ Hu).
  - intros u v reg ru rv _ _ Hu. by destruct (Hno _ _ Hu).
  - intros v reg r Hv. by destruct (Hno _ _ Hv).
  - intros v op Hv. by destruct (Hno _ _ Hv).
  - by constructor.
  - intros v. split; [by intros ?%not_elem_of_nil|intros [o Ho]; by destruct (Hno _ _ Ho)].
  - exists id. split; simpl; [intros v off Hv|intros u v o o' ru rv _ Hu]; by destruct (Hno _ _ ltac:(eassumption)).
  - constructor.
  - by intros reg ?%not_elem_of_nil.
  - intros v reg r _ Hv. by destruct (Hno _ _ Hv).
Qed.

Lemma scan_inputs_ok : exists inputs, scan_inputs vreg_count info file = Some inputs /\
  clobbers_build info (caller_saved_flattened file) = Some (in_clobbers inputs) /\ in_divergence inputs = divergence_build info /\
  vregs_by_start inputs = foldr insert_by_start [] (ranged_vregs vreg_count info).
Proof.
  destruct (clobbers_build_spec info (caller_saved_flattened file)) as (keep & Hk & _). rw /scan_inputs Hk. by eexists.
Qed.

Lemma scan_intervals_ok inputs sunk : scan_inputs vreg_count info file = Some inputs ->
  exists st s, scan_intervals_with_remat vreg_count info file existing_locals collect_debug cost_model loop_info vreg_info inputs sunk =
    Some (scan_result vreg_count info collect_debug inputs st) /\
    scan_inv (fun v => exists r, range_of info v = Some r) s st.
Proof.
  intros Hin. destruct scan_inputs_ok as (inputs' & Hin' & Hcl & Hdv & Hvs). assert (inputs' = inputs) as -> by congruence.
  rw /scan_intervals_with_remat Hvs. destruct (sort_by_start (ranged_vregs vreg_count info)) as [Hperm Hsorted].
  set (l := foldr insert_by_start [] (ranged_vregs vreg_count info)) in *.
  assert (NoDup l.*1) as Hnd by (rw Hperm; apply ranged_nodup).
  destruct (fold_opt_total (scan_step_with_remat info file cost_model loop_info vreg_info inputs sunk)
    (fun pre st => exists s, scan_inv (fun v => v ∈ pre.*1) s st /\ (s = 0 \/ exists e, e ∈ pre /\ s = r_start e.2)) l (scan_start vreg_count existing_locals))
    as (st & -> & s & Hinv & _).
  - exists 0. split; [|by left]. eapply scan_inv_proper; [|apply scan_inv_start]. intros v. split; [done|by intros ?%not_elem_of_nil].
  - intros pre [v r] st [post Hl] (s & Hinv & Hs).
    assert ((v, r) ∈ ranged_vregs vreg_count info) as [_ Hr]%ranged_spec by (rw -Hperm Hl elem_of_app; right; by left).
    rewrite Hl fmap_app in Hnd. apply NoDup_app in Hnd as (_ & Hdis & _). rewrite Hl in Hsorted.
    destruct (scan_step_ok info file existing_locals vreg_info cost_model loop_info sunk inputs Hcl Hdv Hok (fun v => v ∈ pre.*1) s st v r Hinv)
      as (st' & Hst' & Hinv').
    + intros Hv. apply (Hdis v Hv). by left.
    + done.
    + destruct Hs as [->|(e & He & ->)]; [lia|]. apply StronglySorted_app in Hsorted as (Hcross & _). apply (Hcross e (v, r)); [done|by left].
    + exists st'. split; [done|]. exists (r_start r). split.
      * eapply scan_inv_proper; [|exact Hinv']. intros u. rw fmap_app elem_of_app. simpl. by rw list_elem_of_singleton.
      * right. exists (v, r). split; [rw elem_of_app; right; by left|done].
  - exists st, s. split; [done|]. eapply scan_inv_proper; [|exact Hinv]. intros v. rw Hperm list_elem_of_fmap. split.
    + intros ([u r] & -> & [_ Hr]%ranged_spec). by exists r.
    + intros [r Hr]. exists (v, r). split; [done|]. apply ranged_spec. split; [|done]. rw -Hcount. revert Hr. rw /range_of.
      destruct (ranges info !! v) eqn:H0; [intros _; by eapply lookup_lt_Some|done].
Qed.

(** ** What a result promises *)

(** The frame of a result, while it stays under its ceiling: every spilled
    interval has a slot of its own for as long as it lives. *)
Definition slots_apart (alloc : list (option (Allocation Reg))) (spills : Z) : Prop := exists slot : VReg -> Z,
  (forall v off, alloc !! v = Some (Some (Spill off)) -> (0 <= slot v < spills)%Z /\ off = (- (8 * (existing_locals + slot v + 1)))%Z) /\
  forall u v o o' ru rv, u <> v -> alloc !! u = Some (Some (Spill o)) -> alloc !! v = Some (Some (Spill o')) ->
    range_of info u = Some ru -> range_of info v = Some rv -> overlaps ru rv = true -> slot u <> slot v.

Record allocation_ok (alloc : list (option (Allocation Reg))) (spills : Z) (saved : list Reg) : Prop := {
  al_len : length alloc = vreg_count;
  al_dom v : (exists a, alloc !! v = Some (Some a)) <-> exists r, range_of info v = Some r;
  al_home v reg r : alloc !! v = Some (Some (Register reg)) -> range_of info v = Some r -> home_ok info file v reg r;
  al_apart u v reg reg' ru rv : u <> v -> class_of info u = class_of info v ->
    alloc !! u = Some (Some (Register reg)) -> alloc !! v = Some (Some (Register reg')) ->
    range_of info u = Some ru -> range_of info v = Some rv -> overlaps ru rv = true -> reg <> reg';
  al_remat v op : alloc !! v = Some (Some (Rematerialize op)) -> can_remat vreg_info v = Some op;
  al_spill v off : alloc !! v = Some (Some (Spill off)) -> can_remat vreg_info v = None;
  al_slots : is_Some (checked_function_frame_slots existing_locals spills) -> slots_apart alloc spills;
  al_spills : (0 <= spills <= Z.of_nat vreg_count)%Z;
  al_saved : NoDup saved /\ (forall reg, reg ∈ saved -> exists c, reg ∈ callee_saved (at_class file c)) /\
    (starts_ok info -> forall v reg r, alloc !! v = Some (Some (Register reg)) -> range_of info v = Some r ->
       reg ∈ callee_saved (save_of info file v) -> ~ confined info r -> reg ∈ saved);
}.

Context (Hlocals : (0 <= existing_locals)%Z) (Hwidth : (Z.of_nat vreg_count <= u32_max)%Z).

Lemma frame_ok spills : is_Some (checked_function_frame_slots existing_locals spills) -> (existing_locals + spills <= MAX_FUNCTION_FRAME_SLOTS)%Z.
Proof.
  rw /checked_function_frame_slots /checked_u. intros [z Hz]. destruct (in_ub _ _); [|done]. cbn [mbind option_bind] in Hz.
  destruct (Z.leb_spec (existing_locals + spills) MAX_FUNCTION_FRAME_SLOTS); [done|done].
Qed.

Lemma scan_result_ok st s : scan_inv (fun v => exists r, range_of info v = Some r) s st ->
  allocation_ok (sc_allocation st) (num_slots (sc_slots st)) (sc_saved st).
Proof.
  intros [HR (Hsl & Hbase & Hlen & Hnd & Hsp & slot_of & H1 & H2) HV].
  assert (length (sc_spills st) <= vreg_count) as Hle.
  { assert (sc_spills st ⊆+ seq 0 vreg_count) as Hsub%submseteq_length; [|by rewrite length_seq in Hsub].
    apply NoDup_submseteq; [done|]. intros v [o Ho]%Hsp.
    apply elem_of_seq. rewrite -Hcount -(ri_len _ _ _ _ _ _ HR). split; [lia|]. by eapply lookup_lt_Some. }
  assert (num_slots (sc_slots st) = Z.of_nat (length (slots (sc_slots st)))) as Hnum.
  { rw /num_slots /wrap_u Z.mod_small //. revert Hwidth. rw /u32_max. lia. }
  split.
  - by rw (ri_len _ _ _ _ _ _ HR).
  - apply (ri_dom _ _ _ _ _ _ HR).
  - apply (ri_home _ _ _ _ _ _ HR).
  - intros u v reg reg' ru rv Hne Hc Hu Hv Hru Hrv Ho ->. by rewrite (ri_apart _ _ _ _ _ _ HR u v reg' ru rv) in Ho.
  - apply (ri_remat _ _ _ _ _ _ HR).
  - intros v off Hv. apply (H1 v off Hv).
  - intros Hf%frame_ok. exists (fun v => Z.of_nat (slot_of v)). split.
    + intros v off Hv. destruct (H1 v off Hv) as (_ & -> & e & r & He%lookup_lt_Some & _). rw Hnum. split; [lia|].
      rw offset_exact //=. rewrite Hnum in Hf. lia.
    + intros u v o o' ru rv Hne Hu Hv Hru Hrv Ho Heq%Nat2Z.inj. by rewrite (H2 u v o o' ru rv) in Ho.
  - rw Hnum. lia.
  - destruct HV as [V1 V2 V3]. split_and!; [done..|]. intros Hst v reg r Hv Hr. by apply (V3 v reg r).
Qed.

(** The reuse pass is taken only at no cost. *)
Lemma linear_scan_ok : exists alloc spills saved dbg,
  linear_scan_impl_with_remat vreg_count info file existing_locals collect_debug cost_model loop_info vreg_info = Some (alloc, spills, saved, dbg) /\
  allocation_ok alloc spills saved.
Proof.
  destruct scan_inputs_ok as (inputs & Hin & _). rw /linear_scan_impl_with_remat Hin. cbn [mbind option_bind].
  destruct (scan_intervals_ok inputs [] Hin) as (st & s & -> & Hinv). cbn [mbind option_bind].
  pose proof (scan_result_ok st s Hinv) as Hst. destruct (reuse_pass_could_differ _ _); simpl negb; cbv iota; [|by do 4 eexists].
  destruct (scan_intervals_ok inputs (scan_result vreg_count info collect_debug inputs st).1.2 Hin) as (st' & s' & -> & Hinv').
  cbn [mbind option_bind]. pose proof (scan_result_ok st' s' Hinv') as Hst'. destruct (accept_reuse_pass _ _); by do 4 eexists.
Qed.
End Valid.

(** ** Without recipes *)

Section Plain.
Context {Reg : Type} `{EqDecision Reg} (vreg_count : nat) (info : LivenessInfo Reg) (file : RegisterFile Reg) (existing_locals : Z)
  (collect_debug : bool) (cost_model : CostModel) (loop_info : LoopInfo) (vreg_info : list VRegInfo).
Context (Hnone : forall v, can_remat vreg_info v = None).

Lemma weigh_plain (save : SaveClasses Reg) idx r off l best p :
  fold_opt (weigh_with_remat cost_model loop_info vreg_info save idx r off) (best, p, false) l =
  (b ← fold_opt (weigh cost_model loop_info save idx r off) (best, p) l; Some (b, false)).
Proof.
  revert best p. induction l as [|[i [[u reg] e]] l IH]; intros best p; [done|]. simpl.
  destruct (register_survives_range save idx reg r off) as [[|]|]; simpl; [|apply IH|done].
  rw /priority_of. destruct (max_depth_in_range loop_info (r_start r) e) as [d|]; simpl; [|done]. rw /is_remat Hnone /should_replace /=.
  destruct (_ <? _)%Z; apply IH.
Qed.

Lemma scan_step_plain inputs sunk st e :
  scan_step_with_remat info file cost_model loop_info vreg_info inputs sunk st e = scan_step info file cost_model loop_info inputs sunk st e.
Proof.
  destruct e as [v r]. rw /scan_step_with_remat /scan_step. destruct (range_diverges _ r) as [b|]; cbn [mbind option_bind]; [|done].
  destruct (pick_free_register _ _ _ _ _ _) as [[reg|]|]; cbn [mbind option_bind]; [done| |done].
  rw /priority_of. destruct (max_depth_in_range _ _ _) as [d|]; cbn [mbind option_bind]; [|done].
  assert (forall w, is_remat vreg_info w = false) as Hrem by (intros w; by rw /is_remat Hnone). rw Hrem weigh_plain.
  destruct (fold_opt _ _ _) as [[[i|] p]|]; cbn [mbind option_bind]; [|by rw /evict Hnone|done].
  destruct (filter _ _ !! i) as [[[u reg] e]|]; cbn [mbind option_bind]; [|done]. rw /evict_active Hnone.
  destruct (range_of info u); cbn [mbind option_bind]; [|done]. by rw /evict Hnone.
Qed.

Lemma scan_plain : linear_scan_impl_with_remat vreg_count info file existing_locals collect_debug cost_model loop_info vreg_info =
  linear_scan_impl vreg_count info file existing_locals collect_debug cost_model loop_info.
Proof.
  assert (forall inputs sunk, scan_intervals_with_remat vreg_count info file existing_locals collect_debug cost_model loop_info vreg_info inputs sunk =
    scan_intervals vreg_count info file existing_locals collect_debug cost_model loop_info inputs sunk) as Heq.
  { intros inputs sunk. rw /scan_intervals_with_remat /scan_intervals. f_equal. generalize (scan_start vreg_count existing_locals : scan_state (Reg:=Reg)).
    induction (vregs_by_start inputs) as [|e l IH]; intros st; [done|]. simpl. rw scan_step_plain. destruct (scan_step _ _ _ _ _ _ _ _); [|done]. apply IH. }
  rw /linear_scan_impl_with_remat /linear_scan_impl. destruct (scan_inputs _ _ _) as [inputs|]; [|done]. cbn [mbind option_bind]. rw Heq.
  destruct (scan_intervals _ _ _ _ _ _ _ inputs []) as [b|]; [|done]. cbn [mbind option_bind]. by rw Heq.
Qed.
End Plain.

(** ** With diagnostics *)

(** Collecting diagnostics changes nothing else. *)
Lemma scan_debug {Reg : Type} `{EqDecision Reg} vreg_count (info : LivenessInfo Reg) file existing_locals cost_model loop_info vreg_info alloc spills saved dbg :
  linear_scan_impl_with_remat vreg_count info file existing_locals false cost_model loop_info vreg_info = Some (alloc, spills, saved, dbg) ->
  exists dbg', linear_scan_impl_with_remat vreg_count info file existing_locals true cost_model loop_info vreg_info = Some (alloc, spills, saved, dbg').
Proof.
  rw /linear_scan_impl_with_remat. destruct (scan_inputs vreg_count info file) as [inputs|]; [|done]. cbn [mbind option_bind].
  set (run := fun collect sunk => scan_intervals_with_remat vreg_count info file existing_locals collect cost_model loop_info vreg_info inputs sunk).
  change (scan_intervals_with_remat vreg_count info file existing_locals false cost_model loop_info vreg_info inputs []) with (run false []).
  change (scan_intervals_with_remat vreg_count info file existing_locals true cost_model loop_info vreg_info inputs []) with (run true []).
  assert (forall sunk, run false sunk = None /\ run true sunk = None \/ exists a n s x y, run false sunk = Some (a, n, s, x) /\ run true sunk = Some (a, n, s, y)) as Hrun.
  { intros sunk. rw /run /scan_intervals_with_remat. destruct (fold_opt _ _ _) as [st|]; [right|by left]. by do 5 eexists. }
  destruct (Hrun []) as [[-> ->]|(a & n & s & x & y & -> & ->)]; [done|]. cbn [mbind option_bind]. simpl fst. simpl snd.
  destruct (negb (reuse_pass_could_differ file s)); [intros [= <- <- <- _]; by eexists|].
  change (scan_intervals_with_remat vreg_count info file existing_locals false cost_model loop_info vreg_info inputs s) with (run false s).
  change (scan_intervals_with_remat vreg_count info file existing_locals true cost_model loop_info vreg_info inputs s) with (run true s).
  destruct (Hrun s) as [[-> ->]|(a' & n' & s' & x' & y' & -> & ->)]; [done|]. cbn [mbind option_bind].
  change (accept_reuse_pass (a, n, s, y) (a', n', s', y')) with (accept_reuse_pass (a, n, s, x) (a', n', s', x')).
  destruct (accept_reuse_pass _ _); intros [= <- <- <- _]; by eexists.
Qed.

(** C14. One allocation, by the two-pass scan: on liveness facts whose ranges lie
    in the code it finishes, in [allocation_ok]: every register with a range,
    and no other, has a home; two overlapping registers of one class never
    share a register nor, while the frame stays under its ceiling, a slot,
    whose offset is exact; a value's register is callee-saved or is clobbered
    nowhere in its range (an instruction that does not return aside, and code that
    diverges when the value has no use there); a recipe stands only for a
    register that has one, a slot only for one that has none; and the saved
    registers are callee-saved, each once.  When no range starts in diverging
    code and leaves it ([starts_ok]), they include every callee-saved register that holds a value the function can return
    past; without that condition they need not
    ([RegToy.eviction_saves_nothing]).  Without recipes it is the plain scan. *)
Theorem linear_scan_valid {Reg : Type} `{EqDecision Reg} (info : LivenessInfo Reg) (file : RegisterFile Reg) (existing_locals : Z)
    (collect_debug : bool) (cost_model : CostModel) (loop_info : LoopInfo) (vreg_info : list VRegInfo)
    (Hok : scan_ok info file loop_info) (Hlocals : (0 <= existing_locals)%Z) (Hwidth : (Z.of_nat (length (ranges info)) <= u32_max)%Z) :
  exists alloc spills saved dbg,
    linear_scan_impl_with_remat (length (ranges info)) info file existing_locals collect_debug cost_model loop_info vreg_info =
      Some (alloc, spills, saved, dbg) /\
    allocation_ok (length (ranges info)) info file existing_locals vreg_info alloc spills saved /\
    ((forall v, can_remat vreg_info v = None) ->
       linear_scan_impl (length (ranges info)) info file existing_locals collect_debug cost_model loop_info = Some (alloc, spills, saved, dbg)).
Proof.
  destruct (linear_scan_ok (length (ranges info)) info file existing_locals collect_debug cost_model loop_info vreg_info Hok eq_refl Hlocals Hwidth)
    as (alloc & spills & saved & dbg & Hs & Hal).
  exists alloc, spills, saved, dbg. split_and!; [done..|]. intros Hn. by rewrite -(scan_plain _ _ _ _ _ _ _ vreg_info Hn).
Qed.
