(* ===== verification/RegCoalesce.v ===== *)
(** * Register allocation: move coalescing

    Candidates come in instruction order.  Then every absorbed register points
    straight at the root of its class, the class's range is the hull of its
    members' ranges, and two members meet at an eliminated move only. *)

From stdpp Require Import gmap sorting.
From S2P Require Import Prelude Csr Sched Live Regalloc.
Import Machine.

Lemma resize_default (l : list bool) n j : length l <= n -> default false (resize n false l !! j) = default false (l !! j).
Proof.
  intros Hn. rw resize_ge //. destruct (decide (j < length l)) as [Hj|Hj]; [by rw lookup_app_l|].
  rw lookup_app_r; [|lia]. rw (lookup_ge_None_2 l j); [|lia]. destruct (replicate _ _ !! _) eqn:Hr; [|done].
  by apply lookup_replicate in Hr as [-> _].
Qed.

Lemma mark_eliminated_ok r i : exists r', mark_eliminated r i = Some r' /\ coalesce_map r' = coalesce_map r /\
  forall j, is_eliminated r' j = is_eliminated r j || (j =? i).
Proof.
  rw /mark_eliminated. set (moves := if length (eliminated_moves r) <=? i then _ else _).
  assert (i < length moves /\ forall j, default false (moves !! j) = is_eliminated r j) as [Hi Hm].
  { rw /moves. destruct (Nat.leb_spec (length (eliminated_moves r)) i).
    - split; [rw length_resize; lia|]. intros j. apply resize_default. lia.
    - done. }
  destruct (lookup_lt_is_Some_2 _ _ Hi) as [b Hb]. rw Hb. cbn [mbind option_bind].
  eexists. split; [done|]. destruct b; (split; [done|]); intros j; rw {1}/is_eliminated /=.
  - rw Hm. destruct (Nat.eqb_spec j i) as [->|_]; [|by rw orb_false_r]. by rw -Hm Hb.
  - destruct (Nat.eqb_spec j i) as [->|Hne]; [by rw list_lookup_insert_eq //= orb_true_r|].
    by rw list_lookup_insert_ne // Hm orb_false_r.
Qed.

Section Coalesce.
Context {Reg : Type} `{EqDecision Reg} (info : LivenessInfo Reg).

(** What a back end's list of moves must be, for [n] registers. *)
Definition candidates_ok (cs : list CoalesceCandidate) : Prop :=
  StronglySorted (fun a b => inst_idx a < inst_idx b) cs /\
  Forall (fun c => cand_dst c < length (ranges info) /\ cand_src c < length (ranges info)) cs.

(** The state after the moves before [next]. *)
Record co_inv (done : list CoalesceCandidate) (next : nat) (st : coalesce_state (Reg:=Reg)) : Prop := {
  ci_parent : co_parent st = coalesce_map (co_result st);
  ci_len : length (coalesce_map (co_result st)) = length (ranges info) /\ length (ranges (co_live st)) = length (ranges info);
  ci_depth v p : coalesce_map (co_result st) !! v = Some (Some p) -> coalesce_map (co_result st) !! p = Some None;
  ci_same : clobbers_at (co_live st) = clobbers_at info /\ non_returning_at (co_live st) = non_returning_at info /\
    diverging_at (co_live st) = diverging_at info /\ vreg_classes (co_live st) = vreg_classes info /\
    length (diverging_uses (co_live st)) = length (diverging_uses info);
  ci_class v : class_of info (representative (co_result st) v) = class_of info v;
  ci_gone v p : coalesce_map (co_result st) !! v = Some (Some p) -> range_of (co_live st) v = None;
  ci_hull v rv : range_of info v = Some rv -> exists r, range_of (co_live st) (representative (co_result st) v) = Some r /\
    r_start r <= r_start rv /\ r_end rv <= r_end r;
  ci_tight p r : range_of (co_live st) p = Some r ->
    (exists v rv, representative (co_result st) v = p /\ range_of info v = Some rv /\ r_start rv = r_start r) /\
    (exists v rv, representative (co_result st) v = p /\ range_of info v = Some rv /\ r_end rv = r_end r);
  ci_uses v : v < length (diverging_uses info) -> has_diverging_use info v = true -> has_diverging_use (co_live st) (representative (co_result st) v) = true;
  ci_absorbed v p : coalesce_map (co_result st) !! v = Some (Some p) -> exists r, range_of (co_live st) p = Some r /\ r_start r < next;
  ci_elim i : is_eliminated (co_result st) i = true ->
    exists c, c ∈ done /\ inst_idx c = i /\ representative (co_result st) (cand_dst c) = representative (co_result st) (cand_src c);
  ci_apart u v ru rv i : u <> v -> representative (co_result st) u = representative (co_result st) v ->
    range_of info u = Some ru -> range_of info v = Some rv -> r_start ru <= i <= r_end ru -> r_start rv <= i <= r_end rv ->
    is_eliminated (co_result st) i = true /\ (r_end ru = i /\ r_start rv = i \/ r_end rv = i /\ r_start ru = i);
}.

Context (Hrange : forall v r, range_of info v = Some r -> r_start r <= r_end r).

Lemma representative_lookup r v p : coalesce_map r !! v = Some (Some p) -> representative r v = p.
Proof. intros Hv. by rw /representative Hv. Qed.

Lemma representative_cases r v : representative r v = v \/ exists p, coalesce_map r !! v = Some (Some p) /\ representative r v = p.
Proof. rw /representative. destruct (coalesce_map r !! v) as [[p|]|]; [right; by exists p|by left..]. Qed.

Lemma co_inv_root ds next st v : co_inv ds next st -> v < length (ranges info) ->
  coalesce_map (co_result st) !! representative (co_result st) v = Some None.
Proof.
  intros Hinv Hv. destruct (lookup_lt_is_Some_2 (coalesce_map (co_result st)) v) as [o Ho]; [by rw (proj1 (ci_len _ _ _ Hinv))|].
  rw /representative Ho. destruct o as [p|]; [by eapply ci_depth|done].
Qed.

(** The union-find never has more to do than one look. *)
Lemma find_root ds next st v : co_inv ds next st -> v < length (ranges info) ->
  find (S (length (co_parent st))) (co_parent st) v = Some (co_parent st, representative (co_result st) v).
Proof.
  intros Hinv Hv. rewrite (ci_parent _ _ _ Hinv) (proj1 (ci_len _ _ _ Hinv)). destruct (length (ranges info)) as [|n]; [lia|].
  cbn [find]. destruct (representative_cases (co_result st) v) as [Hr|(p & Hp & Hr)].
  - rw Hr. rw /representative in Hr. destruct (coalesce_map (co_result st) !! v) as [[p|]|] eqn:Hm; [|done..].
    subst p. pose proof (ci_depth _ _ _ Hinv _ _ Hm). congruence.
  - rw Hp Hr (ci_depth _ _ _ Hinv _ _ Hp). cbn [mbind option_bind]. by rw list_insert_id.
Qed.

Lemma co_inv_start next : co_inv [] next (mkCo (with_vreg_count (length (ranges info))) (replicate (length (ranges info)) None) info).
Proof.
  assert (forall v p, replicate (length (ranges info)) (None : option VReg) !! v <> Some (Some p)) as Hno.
  { intros v p Hv. by apply lookup_replicate in Hv as [? _]. }
  assert (forall v, representative (with_vreg_count (length (ranges info))) v = v) as Hrep.
  { intros v. destruct (representative_cases (with_vreg_count (length (ranges info))) v) as [|(p & Hp & _)]; [done|by destruct (Hno v p)]. }
  split; simpl; try done.
  - by rw length_replicate.
  - intros v p Hv. by destruct (Hno v p).
  - intros v. by rw Hrep.
  - intros v p Hv. by destruct (Hno v p).
  - intros v rv Hv. exists rv. by rw Hrep.
  - intros p r Hp. split; exists p, r; by rw Hrep.
  - intros v. by rw Hrep.
  - intros v p Hv. by destruct (Hno v p).
  - intros u v ru rv i. by rw !Hrep.
Qed.

(** A move inside a class, or one left alone. *)
Lemma co_inv_skip ds next st c : co_inv ds next st -> next <= inst_idx c -> co_inv (ds ++ [c]) (S (inst_idx c)) st.
Proof.
  intros [] Hn. split; try done.
  - intros v p Hv. destruct (ci_absorbed0 v p Hv) as (r & ? & ?). exists r. split; [done|lia].
  - intros i Hi. destruct (ci_elim0 i Hi) as (c' & ? & ?). exists c'. rw elem_of_app. tauto.
Qed.

Lemma representative_same r r' v : coalesce_map r' = coalesce_map r -> representative r' v = representative r v.
Proof. rw /representative. by intros ->. Qed.

Lemma co_inv_mark ds next parent st c r : co_inv ds next (mkCo r parent st) -> c ∈ ds ->
  representative r (cand_dst c) = representative r (cand_src c) ->
  exists r', mark_eliminated r (inst_idx c) = Some r' /\ co_inv ds next (mkCo r' parent st).
Proof.
  intros [] Hc Hsame. destruct (mark_eliminated_ok r (inst_idx c)) as (r' & Hr' & Hm & He). exists r'. split; [done|]. simpl in *.
  assert (forall v, representative r' v = representative r v) as Hrep by (intros v; by apply representative_same).
  split; simpl; rw ?Hm; try done; try (setoid_rewrite Hrep; done).
  - intros i. rw He orb_true_iff. setoid_rewrite Hrep. intros [Hi|Hi%Nat.eqb_eq]; [by apply ci_elim0|]. exists c. by rw Hi.
  - intros u v ru rv i Hne. rw !Hrep He. intros H1 H2 H3 H4 H5. destruct (ci_apart0 u v ru rv i) as [-> ?]; done.
Qed.

Section Merge.
Context (ds : list CoalesceCandidate) (next : nat) (st : coalesce_state (Reg:=Reg)) (c : CoalesceCandidate) (rd rs : LiveRange).
Context (Hinv : co_inv ds next st) (Hn : next <= inst_idx c).
Context (Hdl : cand_dst c < length (ranges info)) (Hsl : cand_src c < length (ranges info)).
Let Dst := representative (co_result st) (cand_dst c).
Let Src := representative (co_result st) (cand_src c).
Context (Hne : Dst <> Src) (Hclass : class_of (co_live st) Dst = class_of (co_live st) Src).
Context (Hrd : range_of (co_live st) Dst = Some rd) (Hrs : range_of (co_live st) Src = Some rs).
Context (He : r_end rs <= inst_idx c <= r_start rd).

(** Nothing was absorbed into the destination before. *)
Lemma merge_alone v : representative (co_result st) v = Dst -> v = Dst.
Proof.
  intros Hv. destruct (representative_cases (co_result st) v) as [Hr|(p & Hp & Hr)]; [congruence|].
  destruct (ci_absorbed _ _ _ Hinv v p Hp) as (r & Hpr & Hlt). assert (p = Dst) as -> by congruence. assert (r = rd) as -> by congruence. lia.
Qed.

Let m := <[Dst := Some Src]> (coalesce_map (co_result st)).

Lemma merge_representative r v : coalesce_map r = m -> v < length (ranges info) \/ v <> Dst ->
  representative r v = if decide (v = Dst) then Src else representative (co_result st) v.
Proof.
  intros Hm Hv. rw /representative Hm /m. destruct (decide (v = Dst)) as [->|Hd].
  - rw list_lookup_insert_eq //. rw (proj1 (ci_len _ _ _ Hinv)). by destruct Hv.
  - by rw list_lookup_insert_ne.
Qed.

Lemma class_of_same (live : LivenessInfo Reg) v : vreg_classes live = vreg_classes info -> class_of live v = class_of info v.
Proof. rw /class_of. by intros ->. Qed.

Lemma range_of_insert rs' uses' (live : LivenessInfo Reg) v o w : v < length rs' -> range_of (set_diverging_uses (set_ranges live (<[v := o]> rs')) uses') w =
  if decide (w = v) then o else range_of (set_ranges live rs') w.
Proof.
  intros Hv. rw /range_of /=. case_decide as Hw; [subst w; by rw list_lookup_insert_eq|]. by rw list_lookup_insert_ne.
Qed.

Definition merged_hull : LiveRange := mkRange (r_start rd `min` r_start rs) (r_end rd `max` r_end rs).

Lemma merge_into_ok : exists live, merge_into (co_live st) Dst Src = Some live /\
  (forall w, range_of live w = if decide (w = Dst) then None else if decide (w = Src) then Some merged_hull else range_of (co_live st) w) /\
  clobbers_at live = clobbers_at (co_live st) /\ non_returning_at live = non_returning_at (co_live st) /\
  diverging_at live = diverging_at (co_live st) /\ vreg_classes live = vreg_classes (co_live st) /\
  length (ranges live) = length (ranges (co_live st)) /\ length (diverging_uses live) = length (diverging_uses (co_live st)) /\
  (forall w, has_diverging_use (co_live st) w = true -> has_diverging_use live w = true) /\
  (has_diverging_use (co_live st) Dst = true -> has_diverging_use live Src = true).
Proof.
  assert (forall w r, range_of (co_live st) w = Some r -> w < length (ranges (co_live st))) as Hlt.
  { intros w r. rw /range_of. destruct (ranges (co_live st) !! w) eqn:H0; [intros _; by eapply lookup_lt_Some|done]. }
  pose proof (Hlt _ _ Hrd) as HD. pose proof (Hlt _ _ Hrs) as HS. rw /merge_into bool_decide_true //. simpl negb. cbv iota.
  destruct (lookup_lt_is_Some_2 _ _ HS) as [oS ->]. destruct (lookup_lt_is_Some_2 _ _ HD) as [oD ->]. cbn [mbind option_bind].
  eexists. split; [done|]. rw Hrd Hrs. change (merged_range (Some rd) (Some rs)) with (Some merged_hull).
  match goal with |- context [has_diverging_use ?i Dst] => change (has_diverging_use i Dst) with (has_diverging_use (co_live st) Dst) end.
  assert (forall uses w, range_of (set_diverging_uses (set_ranges (co_live st) (<[Dst := None]> (<[Src := Some merged_hull]> (ranges (co_live st))))) uses) w =
    if decide (w = Dst) then None else if decide (w = Src) then Some merged_hull else range_of (co_live st) w) as Hw.
  { intros us w. rw range_of_insert; [|by rw length_insert]. case_decide; [done|]. rewrite -(range_of_insert _ (diverging_uses (co_live st)) (co_live st) Src) //. }
  assert (forall (w : nat) (us : list bool), default true (us !! w) = true -> default true (<[Src := true]> us !! w) = true) as Hus.
  { intros w us Hu. destruct (decide (w = Src)) as [->|]; [|by rw list_lookup_insert_ne]. destruct (decide (Src < length us)); [by rw list_lookup_insert_eq|].
    rw (lookup_ge_None_2 (<[Src := true]> us)) //. rw length_insert. lia. }
  destruct (has_diverging_use (co_live st) Dst) eqn:Hd; split_and!; try (simpl; rw ?length_insert; done); try apply Hw.
  - intros w. rw /has_diverging_use /=. by apply Hus.
  - intros _. rw /has_diverging_use /=. destruct (decide (Src < length (diverging_uses (co_live st)))); [by rw list_lookup_insert_eq|].
    rw (lookup_ge_None_2 (<[Src := true]> (diverging_uses (co_live st)))) //. rw length_insert. lia.
Qed.

Lemma merge_bounds : Dst < length (ranges info) /\ Src < length (ranges info).
Proof.
  rewrite -(proj2 (ci_len _ _ _ Hinv)). split; [revert Hrd|revert Hrs]; rw /range_of; destruct (ranges (co_live st) !! _) eqn:H0; try done;
    intros _; by eapply lookup_lt_Some.
Qed.
Lemma merge_roots : coalesce_map (co_result st) !! Src = Some None /\ representative (co_result st) Dst = Dst /\ representative (co_result st) Src = Src.
Proof.
  assert (coalesce_map (co_result st) !! Src = Some None) as HS by (by eapply co_inv_root).
  assert (coalesce_map (co_result st) !! Dst = Some None) as HD by (by eapply co_inv_root).
  split_and!; [done|by rw /representative HD|by rw /representative HS].
Qed.

Lemma member_inside v rv p r : range_of info v = Some rv -> representative (co_result st) v = p -> range_of (co_live st) p = Some r ->
  r_start r <= r_start rv /\ r_end rv <= r_end r.
Proof. intros Hv <- Hr. destruct (ci_hull _ _ _ Hinv v rv Hv) as (r' & Hr' & ?). by simplify_eq. Qed.

Lemma merged_ends : r_start rs <= r_end rs /\ merged_hull = mkRange (r_start rs) (r_end rd).
Proof.
  assert (forall p r, range_of (co_live st) p = Some r -> r_start r <= r_end r) as Hv.
  { intros p r Hr. destruct (ci_tight _ _ _ Hinv p r Hr) as [(v & rv & Hp & Hv & <-) _]. pose proof (member_inside v rv p r Hv Hp Hr).
    pose proof (Hrange _ _ Hv). lia. }
  pose proof (Hv _ _ Hrd). pose proof (Hv _ _ Hrs). split; [done|]. rw /merged_hull. f_equal; lia.
Qed.

Section After.
Context (live : LivenessInfo Reg) (r : CoalesceResult) (Hm : merge_into (co_live st) Dst Src = Some live) (Hr : coalesce_map r = m)
  (Hel : forall j, is_eliminated r j = is_eliminated (co_result st) j || (j =? inst_idx c)).

Lemma merge_case v p : m !! v = Some (Some p) -> v = Dst /\ p = Src \/ v <> Dst /\ coalesce_map (co_result st) !! v = Some (Some p) /\ p <> Dst.
Proof.
  rw /m. destruct (decide (v = Dst)) as [->|Hv].
  - rw list_lookup_insert_eq; [|rw (proj1 (ci_len _ _ _ Hinv)); apply merge_bounds]. intros [= <-]. by left.
  - rw list_lookup_insert_ne //. intros Hp. right. split_and!; [done..|]. intros ->. by apply Hv, merge_alone, representative_lookup.
Qed.

Lemma merge_rep v : representative r v = if decide (v = Dst) then Src else representative (co_result st) v.
Proof. apply merge_representative; [done|]. destruct (decide (v = Dst)) as [->|]; [left; apply merge_bounds|by right]. Qed.

Lemma merge_rep_mono u v : representative (co_result st) u = representative (co_result st) v -> representative r u = representative r v.
Proof.
  rw !merge_rep. destruct (decide (u = Dst)) as [->|Hu], (decide (v = Dst)) as [->|Hv]; try done.
  - rw (proj1 (proj2 merge_roots)). intros H0. by destruct Hv; apply merge_alone.
  - rw (proj1 (proj2 merge_roots)). intros H0. by destruct Hu; apply merge_alone.
Qed.

Lemma merge_hull v rv : range_of info v = Some rv -> exists r0, range_of live (representative r v) = Some r0 /\ r_start r0 <= r_start rv /\ r_end rv <= r_end r0.
Proof.
  intros Hv. destruct merge_into_ok as (live' & Hm' & Hrange' & _). assert (live' = live) as -> by congruence. rw merge_rep Hrange'.
  destruct merge_roots as (_ & HD & HS). destruct (ci_hull _ _ _ Hinv v rv Hv) as (r0 & Hr0 & Hlo & Hhi). destruct (decide (v = Dst)) as [Hvd|Hvd].
  - subst v. rewrite HD in Hr0. assert (r0 = rd) as -> by congruence. rw decide_False // decide_True //. exists merged_hull. rw /merged_hull /=. split; [done|lia].
  - rw decide_False; [|intros H0; by apply Hvd, merge_alone]. case_decide as Hvs; [|by exists r0]. rewrite Hvs in Hr0.
    assert (r0 = rs) as -> by congruence. exists merged_hull. rw /merged_hull /=. split; [done|lia].
Qed.

Lemma merge_tight p r0 : range_of live p = Some r0 ->
  (exists v rv, representative r v = p /\ range_of info v = Some rv /\ r_start rv = r_start r0) /\
  (exists v rv, representative r v = p /\ range_of info v = Some rv /\ r_end rv = r_end r0).
Proof.
  destruct merge_into_ok as (live' & Hm' & Hrange' & _). assert (live' = live) as -> by congruence. destruct merge_roots as (_ & HD & HS).
  assert (forall v p, p <> Dst -> representative (co_result st) v = p -> representative r v = p) as Hkeep.
  { intros v p' Hp <-. rw merge_rep decide_False //. by intros ->. }
  rw Hrange'. case_decide as Hpd; [done|]. case_decide as Hps.
  - subst p. intros [= <-]. rw (proj2 merged_ends) /=. split.
    + destruct (ci_tight _ _ _ Hinv _ _ Hrs) as [(v & rv & Hv & Hrv & He') _]. exists v, rv. split; [by apply Hkeep|done].
    + destruct (ci_tight _ _ _ Hinv _ _ Hrd) as [_ (v & rv & Hv%merge_alone & Hrv & He')]. exists v, rv. split; [by rw merge_rep decide_True|done].
  - intros Hr0. destruct (ci_tight _ _ _ Hinv _ _ Hr0) as [(v & rv & Hv & ?) (w & rw' & Hw & ?)].
    split; [exists v, rv|exists w, rw']; (split; [by apply Hkeep|done]).
Qed.

Lemma merge_apart u v ru rv i : u <> v -> representative r u = representative r v -> range_of info u = Some ru -> range_of info v = Some rv ->
  r_start ru <= i <= r_end ru -> r_start rv <= i <= r_end rv ->
  is_eliminated r i = true /\ (r_end ru = i /\ r_start rv = i \/ r_end rv = i /\ r_start ru = i).
Proof.
  destruct merge_roots as (_ & HD & HS).
  assert (forall u v ru rv, u = Dst -> v <> Dst -> Src = representative (co_result st) v -> range_of info u = Some ru -> range_of info v = Some rv ->
    r_start ru <= i <= r_end ru -> r_start rv <= i <= r_end rv -> i = inst_idx c /\ r_end rv = i /\ r_start ru = i) as Hmeet.
  { intros u' v' ru' rv' -> _ Hs Hu Hv Hi Hj. pose proof (member_inside _ _ _ _ Hu HD Hrd). pose proof (member_inside _ _ _ _ Hv (eq_sym Hs) Hrs). lia. }
  intros Hne'. rw !merge_rep Hel. destruct (decide (u = Dst)) as [Hu|Hu], (decide (v = Dst)) as [Hv|Hv]; intros Hrep Hru Hrv Hi Hj.
  - congruence.
  - destruct (Hmeet u v ru rv) as (-> & ? & ?); try done. rw Nat.eqb_refl orb_true_r. tauto.
  - destruct (Hmeet v u rv ru) as (-> & ? & ?); try done. rw Nat.eqb_refl orb_true_r. tauto.
  - destruct (ci_apart _ _ _ Hinv u v ru rv i) as [-> ?]; done.
Qed.

Lemma co_inv_merge : co_inv (ds ++ [c]) (S (inst_idx c)) (mkCo r m live).
Proof.
  destruct merge_into_ok as (live' & Hm' & Hrange' & Hc1 & Hc2 & Hc3 & Hc4 & Hl1 & Hl2 & Hu1 & Hu2). assert (live' = live) as -> by congruence.
  destruct merge_roots as (HSroot & HD & HS). destruct merged_ends as [Hrsv Hends].
  split; simpl; try (apply merge_hull || apply merge_tight || apply merge_apart).
  - done.
  - rw Hr Hl1 /m length_insert. apply (ci_len _ _ _ Hinv).
  - rw Hr. intros v p [[-> ->]|(Hv & Hp & Hpd)]%merge_case; rw /m list_lookup_insert_ne //. by eapply ci_depth.
  - rw Hc1 Hc2 Hc3 Hc4 Hl2. apply (ci_same _ _ _ Hinv).
  - intros v. rw merge_rep. case_decide as Hv; [|apply (ci_class _ _ _ Hinv)]. subst v.
    rewrite -!(class_of_same (co_live st)) //; by destruct (ci_same _ _ _ Hinv) as (_ & _ & _ & -> & _).
  - rw Hr. intros v p [[-> ->]|(Hv & Hp & Hpd)]%merge_case; rw Hrange'; [by rw decide_True|]. rw decide_False // decide_False; [by eapply (ci_gone _ _ _ Hinv)|].
    intros ->. by rewrite HSroot in Hp.
  - intros v Hv Huse. rw merge_rep. case_decide as Hvd; [|by apply Hu1, (ci_uses _ _ _ Hinv)]. subst v. apply Hu2.
    pose proof (ci_uses _ _ _ Hinv _ Hv Huse) as H0. by rewrite HD in H0.
  - rw Hr. intros v p [[-> ->]|(Hv & Hp & Hpd)]%merge_case; rw Hrange'.
    + rw decide_False // decide_True //. exists merged_hull. split; [done|]. rw Hends /=. lia.
    + rw decide_False //. destruct (ci_absorbed _ _ _ Hinv v p Hp) as (r0 & Hr0 & Hlt). case_decide as Hps; [|exists r0; split; [done|lia]].
      subst p. assert (r0 = rs) as -> by congruence. exists merged_hull. split; [done|]. rw Hends /=. lia.
  - intros i. rw Hel orb_true_iff. intros [Hi|Hi%Nat.eqb_eq].
    + destruct (ci_elim _ _ _ Hinv i Hi) as (c' & ? & ? & ?). exists c'. split_and!; [rw elem_of_app; by left|done|by apply merge_rep_mono].
    + exists c. split_and!; [rw elem_of_app; right; by left|done|]. rw !merge_rep.
      rw (merge_alone (cand_dst c)) // decide_True // decide_False //. intros Hcs. apply Hne. by rw /Src Hcs HD.
Qed.
End After.
End Merge.

Lemma coalesce_step_ok ds next st c : co_inv ds next st -> next <= inst_idx c -> cand_dst c < length (ranges info) -> cand_src c < length (ranges info) ->
  exists st', coalesce_step st c = Some st' /\ co_inv (ds ++ [c]) (S (inst_idx c)) st'.
Proof.
  intros Hinv Hn Hd Hs. pose proof (co_inv_skip ds next st c Hinv Hn) as Hskip.
  rw /coalesce_step (find_root _ _ _ _ Hinv Hd). cbn [mbind option_bind]. rw (find_root _ _ _ _ Hinv Hs). cbn [mbind option_bind].
  set (Dst := representative (co_result st) (cand_dst c)). set (Src := representative (co_result st) (cand_src c)).
  assert (co_inv (ds ++ [c]) (S (inst_idx c)) (mkCo (co_result st) (co_parent st) (co_live st))) as Hsame by by destruct st.
  destruct (Nat.eqb_spec Dst Src) as [Heq|Hne].
  { destruct (co_inv_mark (ds ++ [c]) _ _ _ c _ Hsame) as (r' & -> & Hinv'); [rw elem_of_app; right; by left|done|]. by eexists. }
  case_bool_decide as Hc; simpl negb; cbv iota; [|by eexists].
  destruct (range_of (co_live st) Dst) as [rd|] eqn:Hrd; [|by eexists]. destruct (range_of (co_live st) Src) as [rs|] eqn:Hrs; [|by eexists].
  destruct ((r_end rs <=? inst_idx c) && (inst_idx c <=? r_start rd)) eqn:He; [|by eexists].
  apply andb_true_iff in He as [He1%Nat.leb_le He2%Nat.leb_le]. assert (r_end rs <= inst_idx c <= r_start rd) as He by done.
  pose proof (merge_bounds ds next st c rd rs Hinv Hrd Hrs) as [HD _]. rw (ci_parent _ _ _ Hinv).
  destruct (lookup_lt_is_Some_2 (coalesce_map (co_result st)) Dst) as [o Ho]; [by rw (proj1 (ci_len _ _ _ Hinv))|]. rw Ho. cbn [mbind option_bind].
  destruct (merge_into_ok next st c rd rs Hn Hd Hs Hne Hc Hrd Hrs He) as (live & Hm & _). rw Hm. cbn [mbind option_bind].
  match goal with |- context [mark_eliminated ?r _] => set (r0 := r) end.
  destruct (mark_eliminated_ok r0 (inst_idx c)) as (r' & -> & Hmap & Hel). cbn [mbind option_bind]. eexists. split; [done|].
  by apply (co_inv_merge ds next st c rd rs).
Qed.

Lemma coalesce_ok cs : candidates_ok cs -> (Z.of_nat (length (ranges info)) <= u32_max)%Z ->
  exists r live next, coalesce cs info = Some (r, live) /\ co_inv cs next (mkCo r (coalesce_map r) live).
Proof.
  intros [Hsort Hb] Hw. rw /coalesce. destruct (Z.leb_spec (Z.of_nat (length (ranges info))) u32_max); [|lia]. simpl negb. cbv iota.
  destruct (fold_opt_total coalesce_step (fun pre st => exists next, co_inv pre next st /\ (next = 0 \/ exists c, c ∈ pre /\ next = S (inst_idx c))) cs
    (mkCo (with_vreg_count (length (ranges info))) (replicate (length (ranges info)) None) info)) as (st & -> & next & Hinv & _).
  - exists 0. split; [apply co_inv_start|by left].
  - intros pre c st [post Hl] (next & Hinv & Hn). rewrite Hl in Hsort. rewrite Hl Forall_app Forall_cons in Hb. destruct Hb as (_ & [Hd Hs] & _).
    destruct (coalesce_step_ok pre next st c Hinv) as (st' & Hst' & Hinv'); [|done..|].
    + destruct Hn as [->|(c' & Hc' & ->)]; [lia|]. apply StronglySorted_app in Hsort as (Hcross & _). apply (Hcross c' c); [done|by left].
    + exists st'. split; [done|]. exists (S (inst_idx c)). split; [done|]. right. exists c. split; [rw elem_of_app; right; by left|done].
  - cbn [mbind option_bind]. exists (co_result st), (co_live st), next. split; [done|]. rewrite -(ci_parent _ _ _ Hinv). by destruct st.
Qed.

(** C15. Coalescing, on moves listed in instruction order, merges registers into
    classes that can share a home.  Each absorbed register points straight at
    its class's root, of its own register class, and has no range of its own;
    the root's range is the hull of its members' ranges and it keeps every
    member's use in diverging code; an eliminated move joins members of one
    class; and two members' ranges have at most one index in common, that of an
    eliminated move where one range ends and the other starts. *)
Theorem coalesce_exact (cs : list CoalesceCandidate) (Hcs : candidates_ok cs) (Hw : (Z.of_nat (length (ranges info)) <= u32_max)%Z) :
  exists r live, coalesce cs info = Some (r, live) /\
  (forall v, v < length (ranges info) -> representative r (representative r v) = representative r v /\
     class_of info (representative r v) = class_of info v /\ (representative r v <> v -> range_of live v = None)) /\
  (forall v rv, range_of info v = Some rv -> exists rp, range_of live (representative r v) = Some rp /\ r_start rp <= r_start rv /\ r_end rv <= r_end rp) /\
  (forall p rp, range_of live p = Some rp ->
     (exists v rv, representative r v = p /\ range_of info v = Some rv /\ r_start rv = r_start rp) /\
     (exists v rv, representative r v = p /\ range_of info v = Some rv /\ r_end rv = r_end rp)) /\
  (forall i, is_eliminated r i = true -> exists c, c ∈ cs /\ inst_idx c = i /\ representative r (cand_dst c) = representative r (cand_src c)) /\
  (forall u v ru rv i, u <> v -> representative r u = representative r v -> range_of info u = Some ru -> range_of info v = Some rv ->
     r_start ru <= i <= r_end ru -> r_start rv <= i <= r_end rv ->
     is_eliminated r i = true /\ (r_end ru = i /\ r_start rv = i \/ r_end rv = i /\ r_start ru = i)) /\
  (forall v, v < length (diverging_uses info) -> has_diverging_use info v = true -> has_diverging_use live (representative r v) = true) /\
  clobbers_at live = clobbers_at info /\ non_returning_at live = non_returning_at info /\ diverging_at live = diverging_at info.
Proof.
  destruct (coalesce_ok cs Hcs Hw) as (r & live & next & Hco & Hinv). exists r, live. split; [done|]. split_and!; try (by destruct Hinv); cycle 1.
  1-3: by destruct (ci_same _ _ _ Hinv) as (? & ? & ? & _).
  intros v Hv. pose proof (co_inv_root _ _ _ v Hinv Hv) as Hroot. simpl in Hroot. split_and!; [|apply (ci_class _ _ _ Hinv)|].
  - by rw {1}/representative Hroot.
  - intros Hne. destruct (representative_cases r v) as [|(p & Hp & _)]; [done|]. by apply (ci_gone _ _ _ Hinv v p).
Qed.
End Coalesce.
