(* ===== verification/RegRemat.v ===== *)
(** * Register allocation: recipes

    A representative is rematerializable when every definition of its class
    that stays computes the same recipe. *)

From stdpp Require Import gmap.
From S2P Require Import Prelude Csr Sched Live Regalloc.
Import Machine.

Section Remat.
Context {Inst Reg : Type} `{EqDecision Reg} `{LivenessAdapter Inst Reg} `{RegAllocBackend Inst Reg}.
Context (r : CoalesceResult).

(** What a state knows of the recipes [E] noted for a register. *)
Definition state_ok (E : option RematerializeOp -> Prop) (s : RematerializationState) : Prop :=
  match s with
  | Unknown => forall x, ~ E x
  | Eligible op => (forall x, E x -> x = Some op) /\ E (Some op)
  | Ineligible => E None \/ exists a b, a <> b /\ E (Some a) /\ E (Some b)
  end.
Definition states_ok (n : nat) (E : VReg -> option RematerializeOp -> Prop) (states : list RematerializationState) : Prop :=
  length states = n /\ forall p s, states !! p = Some s -> state_ok (E p) s.

Lemma states_ok_proper n (E E' : VReg -> option RematerializeOp -> Prop) states : (forall p x, E p x <-> E' p x) -> states_ok n E states -> states_ok n E' states.
Proof.
  intros HE [Hl Hs]. split; [done|]. intros p s Hp. specialize (Hs p s Hp). destruct s as [|op|]; simpl in *.
  - intros x. by rw -HE.
  - rw -HE. split; [|tauto]. intros x. rw -HE. apply Hs.
  - rw -HE. setoid_rewrite <- HE. done.
Qed.

Lemma join_recipe_ok (E : option RematerializeOp -> Prop) s x : state_ok E s -> state_ok (fun y => E y \/ y = x) (join_recipe s x).
Proof.
  destruct s as [|op|], x as [y|]; simpl.
  - intros Hn. split; [|by right]. intros z [Hz| ->]; [by destruct (Hn z)|done].
  - intros _. left. by right.
  - intros [Hall Hop]. case_bool_decide as Heq.
    + subst y. split; [|by left]. intros z [Hz| ->]; [by apply Hall|done].
    + right. exists op, y. split_and!; [done|by left|by right].
  - intros _. left. by right.
  - intros [Hn|(a & b & Hab & Ha & Hb)]; [left; by left|right; exists a, b; tauto].
  - intros _. left. by right.
Qed.

Lemma note_def_ok n E states inst d : states_ok n E states -> representative r d < n ->
  exists states', note_def r inst states d = Some states' /\
    states_ok n (fun p x => E p x \/ p = representative r d /\ x = def_recipe inst d) states'.
Proof.
  intros [Hl Hs] Hd. rw /note_def. destruct (lookup_lt_is_Some_2 states (representative r d)) as [s Hp]; [by rw Hl|]. rw Hp.
  eexists. split; [done|]. split; [by rw length_insert|]. intros p s' Hp'. destruct (decide (p = representative r d)) as [->|Hne].
  - rewrite list_lookup_insert_eq in Hp'; [|by rw Hl]. injection Hp' as <-.
    pose proof (join_recipe_ok _ _ (def_recipe inst d) (Hs _ _ Hp)) as Hj. destruct (join_recipe s (def_recipe inst d)); simpl in *; naive_solver.
  - rewrite list_lookup_insert_ne // in Hp'. specialize (Hs p s' Hp'). destruct s'; simpl in *; naive_solver.
Qed.

(** The recipes noted for [p] by the instructions before [k]. *)
Definition noted (insts : list Inst) (k : nat) (p : VReg) (x : option RematerializeOp) : Prop :=
  exists i inst d, i < k /\ insts !! i = Some inst /\ is_eliminated r i = false /\ d ∈ defs inst /\ representative r d = p /\ x = def_recipe inst d.

Lemma note_inst_ok n insts k inst states : states_ok n (noted insts k) states -> insts !! k = Some inst ->
  Forall (fun d => representative r d < n) (defs inst) ->
  exists states', note_inst r states (k, inst) = Some states' /\ states_ok n (noted insts (S k)) states'.
Proof.
  intros Hs Hk Hd. rw /note_inst /=. destruct (is_eliminated r k) eqn:He.
  - exists states. split; [done|]. eapply states_ok_proper; [|exact Hs]. intros p x. split; intros (i & inst' & d & Hi & Hin & Hel & ?).
    + exists i, inst', d. split; [lia|done].
    + exists i, inst', d. split; [|done]. destruct (decide (i = k)) as [->|]; [congruence|lia].
  - destruct (fold_opt_total (note_def r inst) (fun pre => states_ok n (fun p x => noted insts k p x \/ exists d, d ∈ pre /\ representative r d = p /\ x = def_recipe inst d))
      (defs inst) states) as (states' & Hf & Hok).
    + eapply states_ok_proper; [|exact Hs]. intros p x. split; [by left|]. intros [|(d & ?%not_elem_of_nil & _)]; done.
    + intros pre d t [post Hl] Ht. rewrite Hl Forall_app Forall_cons in Hd. destruct (note_def_ok _ _ _ inst d Ht) as (t' & Ht' & Hok'); [by apply Hd|].
      exists t'. split; [done|]. eapply states_ok_proper; [|exact Hok']. intros p x. setoid_rewrite elem_of_app. setoid_rewrite list_elem_of_singleton. naive_solver.
    + exists states'. split; [done|]. eapply states_ok_proper; [|exact Hok]. intros p x. split.
      * intros [(i & inst' & d & Hi & ?)|(d & ? & ? & ?)]; [exists i, inst', d; split; [lia|done]|]. exists k, inst, d. split_and!; [lia|done..].
      * intros (i & inst' & d & Hi & Hin & ?). destruct (decide (i = k)) as [->|]; [right; exists d; simplify_eq; tauto|].
        left. exists i, inst', d. split_and!; [lia|done|tauto..].
Qed.

Lemma rematerialization_info_ok mir : Forall (fun inst => Forall (fun d => representative r d < mir_vreg_count mir) (defs inst)) (mir_instructions mir) ->
  exists vi, rematerialization_info mir r = Some vi /\ length vi = mir_vreg_count mir /\
    forall p op, can_remat vi p = Some op <->
      (forall x, noted (mir_instructions mir) (length (mir_instructions mir)) p x -> x = Some op) /\
      noted (mir_instructions mir) (length (mir_instructions mir)) p (Some op).
Proof.
  intros Hd. rw /rematerialization_info.
  destruct (fold_opt_total_imap (note_inst r) (fun k => states_ok (mir_vreg_count mir) (noted (mir_instructions mir) k)) (mir_instructions mir)
    (replicate (mir_vreg_count mir) Unknown)) as (states & -> & Hl & Hs).
  - split; [by rw length_replicate|]. intros p s [-> _]%lookup_replicate. intros x (i & inst & d & Hi & _). lia.
  - intros k inst t Hk Ht. apply note_inst_ok; [done..|]. rewrite Forall_forall in Hd. apply Hd. by eapply list_elem_of_lookup_2.
  - cbn [mbind option_bind]. eexists. split; [done|]. split; [by rw length_fmap|]. intros p op. rw /can_remat list_lookup_fmap. split.
    + destruct (states !! p) as [s|] eqn:Hp; [|done]. specialize (Hs p s Hp). destruct s as [|op'|]; simpl in *; try done. by intros [= <-].
    + intros [Hall Hop]. destruct Hop as (i & inst & d & Hi & Hin & Hel & Hdin & Hrep & Hx).
      assert (p < length states) as [s Hp]%lookup_lt_is_Some_2.
      { rw Hl -Hrep. rewrite Forall_forall in Hd. specialize (Hd inst (list_elem_of_lookup_2 _ _ _ Hin)). rewrite Forall_forall in Hd. by apply Hd. }
      rw Hp. specialize (Hs p s Hp). assert (noted (mir_instructions mir) (length (mir_instructions mir)) p (Some op)) as Hop by (by exists i, inst, d).
      destruct s as [|op'|]; simpl in *; [by destruct (Hs (Some op))|destruct Hs as [Hs _]; by specialize (Hs _ Hop); simplify_eq|].
      destruct Hs as [Hn|(a & b & Hab & Ha & Hb)]; [by apply Hall in Hn|]. apply Hall in Ha, Hb. congruence.
Qed.
End Remat.
