(* ===== verification/RegMachine.v ===== *)
(** * Register allocation: two machines

    A machine over virtual registers, and a machine over the homes an
    allocation gives them. *)

From stdpp Require Import gmap relations.
From S2P Require Import Prelude Csr Sched Live Regalloc.
Import Machine.

Inductive Location (Reg : Type) := InReg (r : Reg) | InSlot (offset : Z).
Arguments InReg {_}.
Arguments InSlot {_}.
#[export] Instance Location_eq_dec {Reg} `{EqDecision Reg} : EqDecision (Location Reg).
Proof. solve_decision. Defined.

Definition set_value {K Val : Type} `{EqDecision K} (env : K -> Val) (k : K) (x : Val) : K -> Val := fun k' => if decide (k' = k) then x else env k'.

Lemma set_value_eq {K Val : Type} `{EqDecision K} (env : K -> Val) k x : set_value env k x k = x.
Proof. by rw /set_value decide_True. Qed.
Lemma set_value_ne {K Val : Type} `{EqDecision K} (env : K -> Val) k x k' : k' <> k -> set_value env k x k' = env k'.
Proof. intros Hk. by rw /set_value decide_False. Qed.

Section Homes.
Context {Reg Val : Type} `{EqDecision Reg} (ctx : AllocationContext Reg).

(** What a register reads as; a definition of a recomputed register is not
    kept. *)
Definition read (recipe : RematerializeOp -> Val) (loc : Location Reg -> Val) (v : VReg) : option Val :=
  match context_allocation ctx v with
  | Some (Some (Register reg)) => Some (loc (InReg reg))
  | Some (Some (Spill off)) => Some (loc (InSlot off))
  | Some (Some (Rematerialize op)) => Some (recipe op)
  | _ => None
  end.
Definition write (loc : Location Reg -> Val) (e : VReg * Val) : Location Reg -> Val :=
  match context_allocation ctx e.1 with
  | Some (Some (Register reg)) => set_value loc (InReg reg) e.2
  | Some (Some (Spill off)) => set_value loc (InSlot off) e.2
  | _ => loc
  end.
(** The place of a register that has one. *)
Definition located (v : VReg) (l : Location Reg) : Prop :=
  context_allocation ctx v = Some (Some (match l with InReg reg => Register reg | InSlot off => Spill off end)).

Lemma write_located loc d x l : located d l -> write loc (d, x) = set_value loc l x.
Proof. rw /located /write /=. intros ->. by destruct l. Qed.
Lemma read_located recipe loc v l : located v l -> read recipe loc v = Some (loc l).
Proof. rw /located /read. intros ->. by destruct l. Qed.
Lemma write_other loc d x l : ~ located d l -> write loc (d, x) l = loc l.
Proof.
  rw /located /write /=. intros Hn. destruct (context_allocation ctx d) as [[[reg|off|op]|]|]; try done;
    apply set_value_ne; intros ->; by apply Hn.
Qed.

(** The writes of the definitions leave in a place the value of its register,
    when no other definition shares the place. *)
Lemma writes_agree es v l : located v l -> (forall d x, (d, x) ∈ es -> d <> v -> ~ located d l) ->
  forall env loc, (v ∉ es.*1 -> loc l = env v) ->
  fold_left write es loc l = fold_left (fun env e => set_value env e.1 e.2) es env v.
Proof.
  intros Hv. induction es as [|[d x] es IH]; intros Hd env loc Heq; simpl; [by apply Heq, not_elem_of_nil|].
  apply IH; [intros d' x' Hin; apply (Hd d' x'); by right|]. intros Hin. destruct (decide (d = v)) as [->|Hne].
  - by rw (write_located _ _ _ l Hv) !set_value_eq.
  - rw write_other; [|by apply (Hd d x); [left|]]. rw set_value_ne; [|done]. apply Heq. rw elem_of_cons. naive_solver.
Qed.
End Homes.

Section Machines.
Context {Inst Reg : Type} `{EqDecision Reg} `{LivenessAdapter Inst Reg} `{RegAllocBackend Inst Reg}.
Context {Val W : Type} (exec : nat -> Inst -> list Val -> W -> list Val * W * option nat) (recipe : RematerializeOp -> Val).
Context (instructions : list Inst) (ctx : AllocationContext Reg).

(** One instruction reads its uses, acts on the world, writes its definitions
    and goes on at an index or stops. *)
Inductive vstep : nat * (VReg -> Val) * W -> nat * (VReg -> Val) * W -> Prop :=
| vstep_run pc env w inst vals w' pc' : instructions !! pc = Some inst -> exec pc inst (env <$> uses inst) w = (vals, w', Some pc') ->
    vstep (pc, env, w) (pc', fold_left (fun env e => set_value env e.1 e.2) (zip (defs inst) vals) env, w').
Definition vhalt (st : nat * (VReg -> Val) * W) (w' : W) : Prop := let '(pc, env, w) := st in
  exists inst vals, instructions !! pc = Some inst /\ exec pc inst (env <$> uses inst) w = (vals, w', None).

(** What an instruction clobbers may hold anything afterwards. *)
Definition clobbered (inst : Inst) (loc loc' : Location Reg -> Val) : Prop :=
  forall l, (forall reg, l = InReg reg -> reg ∉ clobbers inst) -> loc' l = loc l.

Inductive lstep : nat * (Location Reg -> Val) * W -> nat * (Location Reg -> Val) * W -> Prop :=
| lstep_drop pc loc w inst : instructions !! pc = Some inst -> dropped ctx pc inst = Some true -> lstep (pc, loc, w) (S pc, loc, w)
| lstep_run pc loc w inst us vals w' pc' loc' : instructions !! pc = Some inst -> dropped ctx pc inst = Some false ->
    mapM (read ctx recipe loc) (uses inst) = Some us -> exec pc inst us w = (vals, w', Some pc') -> clobbered inst loc loc' ->
    lstep (pc, loc, w) (pc', fold_left (write ctx) (zip (defs inst) vals) loc', w').
Definition lhalt (st : nat * (Location Reg -> Val) * W) (w' : W) : Prop := let '(pc, loc, w) := st in
  exists inst us vals, instructions !! pc = Some inst /\ dropped ctx pc inst = Some false /\ mapM (read ctx recipe loc) (uses inst) = Some us /\
    exec pc inst us w = (vals, w', None).
End Machines.
