(* ===== verification/RegSim.v ===== *)
(** * Register allocation: the homes keep the values

    Facts of one allocation: where a register is live its home belongs to it,
    nothing an instruction clobbers is the home of a register live after it,
    and what an instruction defines shares no home with what lives on. *)

From stdpp Require Import gmap sorting relations.
From S2P Require Import Prelude Csr Sched Live LiveSets LiveBlocks LiveSolve LiveRanges LiveDiverge LiveLoops LiveRun.
From S2P Require Import Regalloc RegIndex RegScan RegValid RegCoalesce RegRemat RegMachine.
Import Machine.

(** A register file: compact registers are callee-saved, classes are disjoint. *)
Record file_ok {Reg} (file : RegisterFile Reg) : Prop := {
  rf_compact c reg : reg ∈ compact_callee_saved (at_class file c) -> reg ∈ callee_saved (at_class file c);
  rf_disjoint c c' reg : reg ∈ caller_saved (at_class file c) ++ callee_saved (at_class file c) ->
    reg ∈ caller_saved (at_class file c') ++ callee_saved (at_class file c') -> c = c';
}.

Section Contract.
Context {Inst Reg : Type} `{EqDecision Reg} `{LivenessAdapter Inst Reg} `{RegAllocBackend Inst Reg}.
Context {Val W : Type} (exec : nat -> Inst -> list Val -> W -> list Val * W * option nat) (recipe : RematerializeOp -> Val).
Context (instructions : list Inst) (vreg_count : nat).

(** What a back end reports of its instructions is what they do: one value per
    definition, successors as listed, a never-returning call does not go on, a
    returning one keeps the callee-saved registers; a candidate is a move, the
    candidates come in order; a recipe is what its instruction computes. *)
Record backend_ok : Prop := {
  bk_file : file_ok register_file;
  bk_arity i inst us w vals w' next : instructions !! i = Some inst -> exec i inst us w = (vals, w', next) -> length vals = length (defs inst);
  bk_flow i inst us w vals w' j : instructions !! i = Some inst -> exec i inst us w = (vals, w', Some j) ->
    is_non_returning inst = false /\ flows (succ_table instructions) i j;
  bk_calls i : call_table instructions !! i = Some true -> succ_table instructions !! i = Some [];
  bk_callee i inst c reg : instructions !! i = Some inst -> is_non_returning inst = false -> reg ∈ clobbers inst ->
    reg ∉ callee_saved (at_class register_file c);
  bk_order : StronglySorted (fun a b => inst_idx a < inst_idx b) (coalesce_candidates instructions);
  bk_move c : c ∈ coalesce_candidates instructions -> exists inst, instructions !! inst_idx c = Some inst /\
    uses inst = [cand_src c] /\ defs inst = [cand_dst c] /\ forall x w, exec (inst_idx c) inst [x] w = ([x], w, Some (S (inst_idx c)));
  bk_recipe i inst d op : instructions !! i = Some inst -> rematerialization inst = Some (d, op) ->
    defs inst = [d] /\ forall us w, exec i inst us w = ([recipe op], w, Some (S i));
}.
End Contract.

Section Facts.
Context {Inst Reg : Type} `{EqDecision Reg} `{LivenessAdapter Inst Reg} `{RegAllocBackend Inst Reg}.
Context {Val W : Type} (exec : nat -> Inst -> list Val -> W -> list Val * W * option nat) (recipe : RematerializeOp -> Val).
Context (mir : Mir Inst) (existing_locals : Z).
Notation instructions := (mir_instructions mir).
Notation vreg_count := (mir_vreg_count mir).
Notation file := (register_file : RegisterFile Reg).
Notation live i v := (live_at (succ_table instructions) (use_table instructions) (def_table instructions) i v).
Context (Hwf : well_formed instructions vreg_count) (Hbk : backend_ok exec recipe instructions).
Context (info0 : LivenessInfo Reg) (Hinfo : info_ok instructions vreg_count (mir_classes mir) info0).
Context (r : CoalesceResult) (info : LivenessInfo Reg) (next : nat)
  (Hco : co_inv info0 (coalesce_candidates instructions) next (mkCo r (coalesce_map r) info)).
Context (vreg_info : list VRegInfo) (Hvi : forall p op, can_remat vreg_info p = Some op -> forall x, noted r instructions (length instructions) p x -> x = Some op).
Context (alloc : list (option (Allocation Reg))) (spills : Z) (saved : list Reg)
  (Hal : allocation_ok vreg_count info file existing_locals vreg_info alloc spills saved)
  (Hframe : is_Some (checked_function_frame_slots existing_locals spills)).
Let ctx := mkContext alloc r.
Notation rep := (representative r).
Notation reached := (reached instructions).
Notation occ := (occupied_at instructions).

Lemma ctx_allocation v : context_allocation ctx v = alloc !! rep v.
Proof. done. Qed.

Lemma occupied_lt_count v i : occ v i -> v < vreg_count.
Proof.
  pose proof (well_formed_flow _ _ Hwf) as Hf. intros [(ds & Hds & Hv)|Hl].
  - pose proof (fo_defined _ _ _ _ _ Hf _ _ Hds) as Hall. rewrite Forall_forall in Hall. by apply Hall.
  - induction Hl as [i us v Hus Hv|]; [|done]. pose proof (fo_used _ _ _ _ _ Hf _ _ Hus) as Hall. rewrite Forall_forall in Hall. by apply Hall.
Qed.

(** A register is inside its own range and its class's where it is occupied. *)
Lemma occupied_range v i : reached i -> occ v i -> exists rv rp, range_of info0 v = Some rv /\ r_start rv <= i <= r_end rv /\
  range_of info (rep v) = Some rp /\ r_start rp <= i <= r_end rp.
Proof.
  intros Hi Ho. pose proof (occupied_lt_count v i Ho) as Hv. rewrite -(io_ranges _ _ _ _ Hinfo) in Hv.
  apply lookup_lt_is_Some_2 in Hv as [rv Hrv]. pose proof (io_hull _ _ _ _ Hinfo v rv Hrv) as Hh.
  destruct rv as [rv|]; [|by destruct (Hh i)]. destruct Hh as (_ & _ & _ & Hin). specialize (Hin i Hi Ho).
  assert (range_of info0 v = Some rv) as Hr by by rw /range_of Hrv. destruct (ci_hull _ _ _ _ Hco v rv Hr) as (rp & Hrp & ? & ?).
  exists rv, rp. split_and!; done || lia.
Qed.

(** Every operand has a home, in code control cannot reach too. *)
Lemma operand_home v i : occ v i -> exists a, context_allocation ctx v = Some (Some a).
Proof.
  intros Ho. pose proof (occupied_lt_count v i Ho) as Hv. rewrite -(io_ranges _ _ _ _ Hinfo) in Hv.
  apply lookup_lt_is_Some_2 in Hv as [rv Hrv]. pose proof (io_hull _ _ _ _ Hinfo v rv Hrv) as Hh.
  destruct rv as [rv|]; [|by destruct (Hh i)]. destruct (ci_hull _ _ _ _ Hco v rv) as (rp & Hrp & _); [by rw /range_of Hrv|].
  apply (al_dom _ _ _ _ _ _ _ _ Hal). by exists rp.
Qed.

(** Two classes occupied at one place have different homes. *)
Lemma homes_apart u v i l : reached i -> occ u i -> occ v i -> rep u <> rep v -> located ctx u l -> ~ located ctx v l.
Proof.
  intros Hi Hu Hv Hne. destruct (occupied_range u i Hi Hu) as (_ & ru & _ & _ & Hru & Hiu). destruct (occupied_range v i Hi Hv) as (_ & rv & _ & _ & Hrv & Hiv).
  assert (overlaps ru rv = true) as Ho by (apply not_false_iff_true; rewrite overlaps_false; lia).
  rw /located !ctx_allocation. destruct l as [reg|off]; intros Hlu Hlv.
  - destruct (al_home _ _ _ _ _ _ _ _ Hal _ _ _ Hlu Hru) as [Hcu _]. destruct (al_home _ _ _ _ _ _ _ _ Hal _ _ _ Hlv Hrv) as [Hcv _].
    pose proof (rf_disjoint _ (bk_file _ _ _ Hbk) _ _ _ Hcu Hcv) as Hc. by apply (al_apart _ _ _ _ _ _ _ _ Hal _ _ _ _ _ _ Hne Hc Hlu Hlv Hru Hrv Ho).
  - destruct (al_slots _ _ _ _ _ _ _ _ Hal Hframe) as (slot & Hoff & Hap). apply (Hap _ _ _ _ _ _ Hne Hlu Hlv Hru Hrv Ho).
    destruct (Hoff _ _ Hlu) as [_ H1]. destruct (Hoff _ _ Hlv) as [_ H2]. lia.
Qed.

(** Two registers of one class meet at an eliminated move only. *)
Lemma class_apart u v i : reached i -> occ u i -> occ v i -> u <> v -> rep u = rep v -> is_eliminated r i = true.
Proof.
  intros Hi Hu Hv Hne Hrep. destruct (occupied_range u i Hi Hu) as (ru & _ & Hru & Hiu & _). destruct (occupied_range v i Hi Hv) as (rv & _ & Hrv & Hiv & _).
  by destruct (ci_apart _ _ _ _ Hco u v ru rv i Hne Hrep Hru Hrv Hiu Hiv).
Qed.

Lemma diverges_live i v : live i v -> diverges (succ_table instructions) (call_table instructions) i ->
  exists k, diverges (succ_table instructions) (call_table instructions) k /\ used_at (use_table instructions) k v.
Proof.
  intros Hl Hd. induction Hl as [i us v Hus Hv|i ds js j v _ _ Hjs Hj _ IH]; [exists i; split; [done|by exists us]|].
  apply IH. destruct Hd as [i Hc|i js' Hjs' _ Hall]; [|simplify_eq; by apply Hall].
  pose proof (bk_calls _ _ _ Hbk i Hc). simplify_eq. by apply not_elem_of_nil in Hj.
Qed.

Lemma live_out_occupied v i inst : instructions !! i = Some inst -> live_out (succ_table instructions) (use_table instructions) (def_table instructions) i v ->
  occ v i /\ (v ∉ defs inst -> live i v).
Proof.
  intros Hi (js & j & Hjs & Hj & Hl). assert (def_table instructions !! i = Some (defs inst)) as Hd by by rw /def_table list_lookup_fmap Hi.
  assert (v ∉ defs inst -> live i v) as Hlive by (intros Hv; by eapply live_step). split; [|done].
  destruct (decide (v ∈ defs inst)) as [Hv|Hv]; [left; by exists (defs inst)|right; by apply Hlive].
Qed.

Lemma diverges_at_spec i : diverges_at info i = true <-> diverges (succ_table instructions) (call_table instructions) i.
Proof.
  rewrite -(io_div _ _ _ _ Hinfo). destruct (ci_same _ _ _ _ Hco) as (_ & _ & Hd & _). simpl in Hd. rw /diverges_at Hd.
  destruct (diverging_at info0 !! i) as [[]|]; simpl; naive_solver.
Qed.

(** A register live after an instruction keeps its home through it. *)
Lemma home_survives v i inst reg : reached i -> instructions !! i = Some inst -> is_non_returning inst = false ->
  live_out (succ_table instructions) (use_table instructions) (def_table instructions) i v -> located ctx v (InReg reg) -> reg ∉ clobbers inst.
Proof.
  intros Hi Hin Hnr Hout Hloc Hcl. destruct (live_out_occupied v i inst Hin Hout) as [Ho _].
  destruct (occupied_range v i Hi Ho) as (_ & rp & _ & _ & Hrp & Hip).
  destruct (al_home _ _ _ _ _ _ _ _ Hal _ _ _ Hloc Hrp) as [_ [Hcs|Hn]]; [by eapply (bk_callee _ _ _ Hbk)|]. apply Hn. exists i. split; [done|].
  destruct (ci_same _ _ _ _ Hco) as (Hc & Hnon & _ & _ & Hlen). simpl in *.
  rw /counted /hit /non_returning Hc Hnon (io_clobbers _ _ _ _ Hinfo) (io_calls _ _ _ _ Hinfo) /call_table !list_lookup_fmap Hin /= Hnr bool_decide_true //=.
  apply negb_true_iff, not_true_iff_false. intros [Hoff Hdiv]%andb_true_iff. apply negb_true_iff in Hoff. apply diverges_at_spec in Hdiv.
  destruct Hout as (js & j & Hjs & Hj & Hl). assert (diverges (succ_table instructions) (call_table instructions) j) as Hdj.
  { destruct Hdiv as [i Hcall|i js' Hjs' _ Hall]; [rewrite (bk_calls _ _ _ Hbk i Hcall) in Hjs; simplify_eq; by apply not_elem_of_nil in Hj|].
    simplify_eq. by apply Hall. }
  destruct (diverges_live j v Hl Hdj) as (k & Hdk & Huk). pose proof (occupied_lt_count v i Ho) as Hv.
  destruct (io_div_uses _ _ _ _ Hinfo) as [Hul Hus].
  assert (diverging_uses info0 !! v = Some true) as Hu by (apply Hus; split; [done|by exists k]).
  pose proof (ci_uses _ _ _ _ Hco v) as Hrep. simpl in Hrep. rewrite Hrep in Hoff; [done|by rw Hul|by rw /has_diverging_use Hu].
Qed.

(** ** The simulation *)

Definition agree (pc : nat) (env : VReg -> Val) (loc : Location Reg -> Val) : Prop :=
  reached pc /\ forall v, live pc v -> read ctx recipe loc v = Some (env v).

Lemma reads_agree pc env loc inst : agree pc env loc -> instructions !! pc = Some inst -> mapM (read ctx recipe loc) (uses inst) = Some (env <$> uses inst).
Proof.
  intros [_ Hag] Hin. apply mapM_Some, Forall2_fmap_r, Forall_Forall2_diag, Forall_forall. intros v Hv. apply Hag.
  eapply live_use; [by rw /use_table list_lookup_fmap Hin|done].
Qed.

Lemma reached_flow i j : reached i -> flows (succ_table instructions) i j -> reached j.
Proof. intros Hi Hf. by eapply rtc_r. Qed.

Lemma dropped_total pc inst : instructions !! pc = Some inst -> exists b, dropped ctx pc inst = Some b.
Proof.
  intros Hin. rw /dropped /recomputed_later. destruct (is_eliminated _ pc); [by exists true|].
  destruct (rematerialization inst) as [[d op]|] eqn:Hr; [|by exists false]. rw ctx_allocation.
  destruct (bk_recipe _ _ _ Hbk _ _ _ _ Hin Hr) as [Hd _]. assert (d < vreg_count) as Hlt.
  { pose proof (wf_defs _ _ Hwf) as Hall. rewrite Forall_forall in Hall. specialize (Hall inst (list_elem_of_lookup_2 _ _ _ Hin)).
    rewrite Hd in Hall. by apply Forall_cons in Hall as [? _]. }
  assert (rep d < length alloc) as [a ->]%lookup_lt_is_Some_2; [|by eexists].
  rw (al_len _ _ _ _ _ _ _ _ Hal) -(io_ranges _ _ _ _ Hinfo). destruct (ci_len _ _ _ _ Hco) as [Hl _]. simpl in Hl. rw -Hl.
  eapply lookup_lt_Some, (co_inv_root info0 _ _ _ d Hco). by rw (io_ranges _ _ _ _ Hinfo).
Qed.

(** A dropped instruction changes nothing but the value it would have put in a
    home that already reads as it. *)
Lemma agree_drop pc env loc inst w vals w' pc' : agree pc env loc -> instructions !! pc = Some inst -> dropped ctx pc inst = Some true ->
  exec pc inst (env <$> uses inst) w = (vals, w', Some pc') ->
  pc' = S pc /\ w' = w /\ agree (S pc) (fold_left (fun env e => set_value env e.1 e.2) (zip (defs inst) vals) env) loc.
Proof.
  intros [Hr Hag] Hin Hdrop Hex. pose proof (proj2 (bk_flow _ _ _ Hbk _ _ _ _ _ _ _ Hin Hex)) as Hflow.
  assert (exists d x, defs inst = [d] /\ vals = [x] /\ w' = w /\ pc' = S pc /\ read ctx recipe loc d = Some x) as (d & x & Hd & -> & -> & -> & Hread).
  { revert Hdrop. rw /dropped. destruct (is_eliminated (ctx_coalesce ctx) pc) eqn:He.
    - intros _. destruct (ci_elim _ _ _ _ Hco pc He) as (c & Hc & <- & Hrep). simpl in Hrep.
      destruct (bk_move _ _ _ Hbk c Hc) as (inst' & Hin' & Hu & Hd & Hmove). assert (inst' = inst) as -> by congruence.
      exists (cand_dst c), (env (cand_src c)). rewrite Hu Hmove in Hex. injection Hex as <- <- <-. split_and!; [done..|].
      assert (read ctx recipe loc (cand_dst c) = read ctx recipe loc (cand_src c)) as ->.
      { by rw /read !ctx_allocation Hrep. }
      apply Hag. eapply live_use; [by rw /use_table list_lookup_fmap Hin|]. rw Hu. by left.
    - rw /recomputed_later. destruct (rematerialization inst) as [[d op]|] eqn:Hre; [|done].
      destruct (bk_recipe _ _ _ Hbk _ _ _ _ Hin Hre) as [Hd Hop]. rewrite Hop in Hex. injection Hex as <- <- <-.
      intros Hsel. exists d, (recipe op). split_and!; [done..|]. rw /read. revert Hsel.
      destruct (context_allocation ctx d) as [[[reg|off|op']|]|]; try done. cbn [mbind option_bind].
      intros [= ->%bool_decide_eq_true]. done. }
  split_and!; [done..|]. split; [by eapply reached_flow|]. intros v Hv. rw Hd /=. destruct (decide (v = d)) as [->|Hne].
  - by rw set_value_eq.
  - rw set_value_ne //. apply Hag. destruct Hflow as (js & Hjs & Hj).
    eapply live_step; [by rw /def_table list_lookup_fmap Hin| |done..]. rw Hd. by intros ->%list_elem_of_singleton.
Qed.

Lemma not_dropped pc inst : dropped ctx pc inst = Some false -> is_eliminated r pc = false /\
  forall d op, rematerialization inst = Some (d, op) -> context_allocation ctx d <> Some (Some (Rematerialize op)).
Proof.
  rw /dropped. simpl. destruct (is_eliminated r pc); [done|]. intros Hd. split; [done|]. intros d op Hr Ha. revert Hd.
  rw /recomputed_later Hr Ha. cbn [mbind option_bind]. by rw bool_decide_true.
Qed.

(** Every definition of a recomputed register was dropped. *)
Lemma remat_not_defined pc inst v op : instructions !! pc = Some inst -> dropped ctx pc inst = Some false ->
  context_allocation ctx v = Some (Some (Rematerialize op)) -> v ∉ defs inst.
Proof.
  intros Hin [He Hno]%not_dropped Ha Hv. rewrite ctx_allocation in Ha. apply (al_remat _ _ _ _ _ _ _ _ Hal) in Ha as Hop.
  assert (Some op = def_recipe inst v) as Hdr.
  { symmetry. apply (Hvi _ _ Hop). exists pc, inst, v. split_and!; try done. by eapply lookup_lt_Some. }
  revert Hdr. rw /def_recipe. destruct (rematerialization inst) as [[d op']|] eqn:Hr; [|done].
  destruct (Nat.eqb_spec d v) as [->|]; [|done]. intros [= ->]. by apply (Hno v op').
Qed.

Lemma set_value_out (env : VReg -> Val) es v : v ∉ es.*1 -> fold_left (fun env e => set_value env e.1 e.2) es env v = env v.
Proof.
  revert env. induction es as [|[d x] es IH]; intros env Hv; [done|]. simpl in *. rewrite IH; [apply set_value_ne|]; set_solver.
Qed.

Lemma agree_run pc env loc inst w vals w' pc' loc' : agree pc env loc -> instructions !! pc = Some inst -> dropped ctx pc inst = Some false ->
  exec pc inst (env <$> uses inst) w = (vals, w', Some pc') -> clobbered inst loc loc' ->
  agree pc' (fold_left (fun env e => set_value env e.1 e.2) (zip (defs inst) vals) env) (fold_left (write ctx) (zip (defs inst) vals) loc').
Proof.
  intros [Hr Hag] Hin Hdrop Hex Hcl. destruct (bk_flow _ _ _ Hbk _ _ _ _ _ _ _ Hin Hex) as [Hnr Hflow].
  pose proof (bk_arity _ _ _ Hbk _ _ _ _ _ _ _ Hin Hex) as Har. assert ((zip (defs inst) vals).*1 = defs inst) as Hzip by (apply fst_zip; lia).
  split; [by eapply reached_flow|]. intros v Hv.
  assert (live_out (succ_table instructions) (use_table instructions) (def_table instructions) pc v) as Hout.
  { destruct Hflow as (js & Hjs & Hj). by exists js, pc'. }
  destruct (live_out_occupied v pc inst Hin Hout) as [Ho Hlive]. destruct (operand_home v pc Ho) as [a Ha].
  assert ((exists op, a = Rematerialize op) \/ exists l, located ctx v l) as [[op ->]|[l Hl]].
  { destruct a as [reg|off|op]; [right; by exists (InReg reg)|right; by exists (InSlot off)|left; by exists op]. }
  - pose proof (remat_not_defined pc inst v op Hin Hdrop Ha) as Hvd. rw set_value_out; [|by rw Hzip].
    rewrite -Hag; [|by apply Hlive]. by rw /read Ha.
  - rw (read_located _ _ _ _ l Hl). f_equal. apply (writes_agree ctx _ v l Hl).
    + intros d x Hd Hne Hdl. apply elem_of_zip_l in Hd. assert (occ d pc) as Hod by (left; exists (defs inst); by rw /def_table list_lookup_fmap Hin).
      destruct (decide (rep d = rep v)) as [Heq|Hneq]; [|by apply (homes_apart d v pc l)].
      pose proof (class_apart d v pc Hr Hod Ho Hne Heq). by destruct (not_dropped pc inst Hdrop) as [? _]; congruence.
    + rw Hzip. intros Hvd. rewrite Hcl.
      * pose proof (Hag v (Hlive Hvd)) as Hrd. rewrite (read_located _ _ _ _ l Hl) in Hrd. by injection Hrd.
      * intros reg ->. by eapply home_survives.
Qed.

Notation vstep := (vstep exec instructions).
Notation lstep := (lstep exec recipe instructions ctx).
Notation vhalt := (vhalt exec instructions).
Notation lhalt := (lhalt exec recipe instructions ctx).

Lemma sim_step pc env loc w pc1 env1 w1 : agree pc env loc -> vstep (pc, env, w) (pc1, env1, w1) ->
  (exists loc1, lstep (pc, loc, w) (pc1, loc1, w1)) /\
  forall s, lstep (pc, loc, w) s -> exists loc1, s = (pc1, loc1, w1) /\ agree pc1 env1 loc1.
Proof.
  intros Hag Hstep. inversion Hstep as [? ? ? inst vals ? ? Hin Hex]; subst. destruct (dropped_total pc inst Hin) as [[|] Hd].
  - destruct (agree_drop pc env loc inst w vals w1 pc1 Hag Hin Hd Hex) as (-> & -> & Hag'). split; [exists loc; by econstructor|].
    intros s Hs. inversion Hs as [? ? ? inst' Hin' Hd'|? ? ? inst' us vals' ? ? ? Hin' Hd']; simplify_eq. by exists loc.
  - pose proof (reads_agree pc env loc inst Hag Hin) as Hrd. split.
    + eexists. eapply (lstep_run _ _ _ _ pc loc w inst); [done..| |]. exact Hex. by intros l _.
    + intros s Hs. inversion Hs as [? ? ? inst' Hin' Hd'|? ? ? inst' us vals' ? ? loc' Hin' Hd' Hrd' Hex' Hcl]; simplify_eq.
      rewrite Hex in Hex'. injection Hex' as <- <- <-. eexists. split; [done|]. by eapply agree_run.
Qed.

Lemma sim_halt pc env loc w w' : agree pc env loc -> vhalt (pc, env, w) w' <-> lhalt (pc, loc, w) w'.
Proof.
  intros Hag. split.
  - intros (inst & vals & Hin & Hex). exists inst, (env <$> uses inst), vals. split_and!; [done| |by eapply reads_agree|done].
    destruct (dropped_total pc inst Hin) as [[|] Hd]; [|done]. exfalso. revert Hd. rw /dropped. destruct (is_eliminated (ctx_coalesce ctx) pc) eqn:He.
    + intros _. destruct (ci_elim _ _ _ _ Hco pc He) as (c & Hc & <- & _). destruct (bk_move _ _ _ Hbk c Hc) as (inst' & Hin' & Hu & _ & Hmove).
      assert (inst' = inst) as -> by congruence. by rewrite Hu Hmove in Hex.
    + rw /recomputed_later. destruct (rematerialization inst) as [[d op]|] eqn:Hre; [|done].
      destruct (bk_recipe _ _ _ Hbk _ _ _ _ Hin Hre) as [_ Hop]. by rewrite Hop in Hex.
  - intros (inst & us & vals & Hin & _ & Hrd & Hex). rewrite (reads_agree pc env loc inst Hag Hin) in Hrd. injection Hrd as <-. by exists inst, vals.
Qed.

Lemma agree_start env loc : agree 0 env loc.
Proof. split; [apply rtc_refl|]. intros v Hv. by destruct (wf_entry _ _ Hwf v). Qed.

Lemma sim_run k pc0 env0 loc0 w0 pc env w : agree pc0 env0 loc0 -> nsteps vstep k (pc0, env0, w0) (pc, env, w) ->
  (exists loc, nsteps lstep k (pc0, loc0, w0) (pc, loc, w)) /\
  forall s, nsteps lstep k (pc0, loc0, w0) s -> exists loc, s = (pc, loc, w) /\ agree pc env loc.
Proof.
  intros Hag0. revert pc env w. induction k as [|k IH]; intros pc env w Hrun.
  - inversion Hrun; subst. split; [exists loc0; constructor|]. intros s Hs. inversion Hs; subst. by exists loc0.
  - apply nsteps_inv_r in Hrun as ([[pc1 env1] w1] & Hrun & Hlast). destruct (IH _ _ _ Hrun) as [[loc1 Hl] Hall].
    destruct (Hall _ Hl) as (loc1' & [= <-] & Hag). split.
    + destruct (sim_step _ _ _ _ _ _ _ Hag Hlast) as [[loc2 Hl2] _]. exists loc2. by eapply nsteps_r.
    + intros s Hs. apply nsteps_inv_r in Hs as (s1 & Hs1 & Hs). destruct (Hall _ Hs1) as (loc2 & -> & Hag2).
      by apply (sim_step _ _ _ _ _ _ _ Hag2 Hlast).
Qed.

Lemma halted_stuck s w' s' : lhalt s w' -> ~ lstep s s'.
Proof.
  destruct s as [[pc loc] w]. intros (inst & us & vals & Hin & Hd & Hrd & Hex) Hs. inversion Hs; simplify_eq; congruence.
Qed.

(** A run that halts is the bound of every run over the homes. *)
Lemma sim_halts k env0 loc0 w0 pc env w w' j s : nsteps vstep k (0, env0, w0) (pc, env, w) -> vhalt (pc, env, w) w' ->
  nsteps lstep j (0, loc0, w0) s -> j <= k /\ exists s', nsteps lstep (k - j) s s' /\ lhalt s' w'.
Proof.
  intros Hrun Hh Hs. destruct (Nat.le_gt_cases j k) as [Hjk|Hjk]; [split; [done|]|exfalso].
  - replace k with (j + (k - j)) in Hrun by lia. apply nsteps_add_inv in Hrun as ([[pc1 env1] w1] & Hr1 & Hr2).
    destruct (sim_run _ _ _ _ _ _ _ _ (agree_start env0 loc0) Hr1) as [_ Hall]. destruct (Hall _ Hs) as (loc1 & -> & Hag1).
    destruct (sim_run _ _ _ _ _ _ _ _ Hag1 Hr2) as [[loc2 Hl2] Hall2]. destruct (Hall2 _ Hl2) as (loc2' & [= <-] & Hag2).
    exists (pc, loc2, w). split; [done|]. by apply (sim_halt _ _ _ _ _ Hag2).
  - replace j with (k + S (j - k - 1)) in Hs by lia. apply nsteps_add_inv in Hs as (s1 & Hs1 & Hs2). inversion Hs2 as [|? ? s2 ? Hstep _]; subst.
    destruct (sim_run _ _ _ _ _ _ _ _ (agree_start env0 loc0) Hrun) as [_ Hall]. destruct (Hall _ Hs1) as (loc1 & -> & Hag1).
    apply (sim_halt _ _ _ _ w' Hag1) in Hh. by eapply halted_stuck.
Qed.

(** ** Callee-saved registers *)

Lemma diverges_flow i j : flows (succ_table instructions) i j -> diverges (succ_table instructions) (call_table instructions) i ->
  diverges (succ_table instructions) (call_table instructions) j.
Proof.
  intros (js & Hjs & Hj) Hd. destruct Hd as [i Hc|i js' Hjs' _ Hall]; [|assert (js' = js) as -> by congruence; by apply Hall].
  rewrite (bk_calls _ _ _ Hbk _ Hc) in Hjs. simplify_eq. by apply not_elem_of_nil in Hj.
Qed.

Lemma lstep_flow pc loc w s : lstep (pc, loc, w) s -> flows (succ_table instructions) pc s.1.1.
Proof.
  intros Hs. inversion Hs as [? ? ? inst Hin Hd|? ? ? inst us vals w' pc' loc' Hin Hd _ Hex _]; subst; [|by apply (bk_flow _ _ _ Hbk _ _ _ _ _ _ _ Hin Hex)].
  revert Hd. rw /dropped. destruct (is_eliminated (ctx_coalesce ctx) pc) eqn:He.
  - intros _. destruct (ci_elim _ _ _ _ Hco pc He) as (c & Hc & <- & _). destruct (bk_move _ _ _ Hbk c Hc) as (inst' & Hin' & _ & _ & Hmove).
    by apply (bk_flow _ _ _ Hbk _ _ _ _ _ _ _ Hin' (Hmove (loc (InSlot 0)) w)).
  - rw /recomputed_later. destruct (rematerialization inst) as [[d op]|] eqn:Hre; [|done].
    destruct (bk_recipe _ _ _ Hbk _ _ _ _ Hin Hre) as [_ Hop]. intros _. by apply (bk_flow _ _ _ Hbk _ _ _ _ _ _ _ Hin (Hop [] w)).
Qed.

(** Outside diverging code an unsaved register is no definition's home. *)
Lemma unsaved_home c reg pc inst d : starts_ok info -> reached pc -> ~ diverges (succ_table instructions) (call_table instructions) pc ->
  instructions !! pc = Some inst -> d ∈ defs inst -> reg ∈ callee_saved (at_class file c) -> reg ∉ saved -> ~ located ctx d (InReg reg).
Proof.
  intros Hst Hr Hdv Hin Hd Hcs Hns Hl. assert (occ d pc) as Ho by (left; exists (defs inst); by rw /def_table list_lookup_fmap Hin).
  destruct (occupied_range d pc Hr Ho) as (_ & rp & _ & _ & Hrp & Hip). destruct (al_home _ _ _ _ _ _ _ _ Hal _ _ _ Hl Hrp) as [Hh _].
  apply Hns. destruct (al_saved _ _ _ _ _ _ _ _ Hal) as (_ & _ & Hsv). apply (Hsv Hst _ _ _ Hl Hrp).
  - assert (class_of info (rep d) = c) as Hc; [|by rw /save_of Hc].
    apply (rf_disjoint _ (bk_file _ _ _ Hbk) _ _ reg Hh). rw elem_of_app. by right.
  - intros [_ Hall]. apply Hdv, diverges_at_spec, Hall; [done|]. rw /instruction_count. destruct (ci_same _ _ _ _ Hco) as (Hc & _).
    simpl in Hc. rw Hc (io_clobbers _ _ _ _ Hinfo) length_fmap. by eapply lookup_lt_Some.
Qed.

Lemma writes_other es l loc : (forall d x, (d, x) ∈ es -> ~ located ctx d l) -> fold_left (write (Val:=Val) ctx) es loc l = loc l.
Proof.
  revert loc. induction es as [|[d x] es IH]; intros loc Hd; [done|]. simpl. rw IH; [apply write_other, (Hd d x); by left|].
  intros d' x' Hin. apply (Hd d' x'). by right.
Qed.

Lemma kept_step c reg pc loc w s : starts_ok info -> reached pc -> ~ diverges (succ_table instructions) (call_table instructions) pc ->
  reg ∈ callee_saved (at_class file c) -> reg ∉ saved -> lstep (pc, loc, w) s -> s.1.2 (InReg reg) = loc (InReg reg).
Proof.
  intros Hst Hr Hdv Hcs Hns Hs. inversion Hs as [|? ? ? inst us vals w' pc' loc' Hin Hd _ Hex Hcl]; subst; [done|]. simpl.
  rw writes_other.
  - apply Hcl. intros reg' [= <-]. destruct (bk_flow _ _ _ Hbk _ _ _ _ _ _ _ Hin Hex) as [Hnr _]. intros Hc. by eapply (bk_callee _ _ _ Hbk).
  - intros d x Hdx%elem_of_zip_l. by eapply unsaved_home.
Qed.

Lemma kept_run c reg k loc0 w0 pc loc w : starts_ok info -> reg ∈ callee_saved (at_class file c) -> reg ∉ saved ->
  nsteps lstep k (0, loc0, w0) (pc, loc, w) -> ~ diverges (succ_table instructions) (call_table instructions) pc ->
  reached pc /\ loc (InReg reg) = loc0 (InReg reg).
Proof.
  intros Hst Hcs Hns. revert pc loc w. induction k as [|k IH]; intros pc loc w Hrun Hdv.
  - inversion Hrun; subst. split; [apply rtc_refl|done].
  - apply nsteps_inv_r in Hrun as ([[pc1 loc1] w1] & Hrun & Hlast). pose proof (lstep_flow _ _ _ _ Hlast) as Hflow. simpl in Hflow.
    assert (~ diverges (succ_table instructions) (call_table instructions) pc1) as Hdv1 by (intros Hd; by eapply Hdv, diverges_flow).
    destruct (IH _ _ _ Hrun Hdv1) as [Hr1 Heq]. split; [by eapply reached_flow|]. rewrite -Heq.
    by apply (kept_step c reg pc1 loc1 w1 (pc, loc, w)).
Qed.
End Facts.
