(* ===== verification/RegRun.v ===== *)
(** * Register allocation: the driver

    From instructions to an allocated function: the driver finishes on every
    well-formed function, the homes it chooses carry the function's values, and
    the first check or rewriting that fails settles the last phase's outcome. *)

From stdpp Require Import gmap sorting relations.
From S2P Require Import Prelude Csr Sched Live LiveBlocks LiveRanges LiveDiverge LiveLoops LiveRun.
From S2P Require Import Regalloc RegIndex RegScan RegValid RegCoalesce RegRemat RegMachine RegSim.
Import Machine.

Section Driver.
Context {Inst Reg : Type} `{EqDecision Reg} `{LivenessAdapter Inst Reg} `{RegAllocBackend Inst Reg}.
Context {Val W : Type} (exec : nat -> Inst -> list Val -> W -> list Val * W * option nat) (recipe : RematerializeOp -> Val).
Context (mir : Mir Inst) (existing_locals : Z).
Notation instructions := (mir_instructions mir).
Notation vreg_count := (mir_vreg_count mir).
Notation file := (register_file : RegisterFile Reg).

(** A function the driver is given. *)
Record mir_ok : Prop := {
  mo_wf : well_formed instructions vreg_count;
  mo_classes : length (mir_classes mir) = vreg_count;
  mo_physical : forall inst reg c, inst ∈ instructions -> reg ∈ physical_operands inst ->
    reg ∉ caller_saved (at_class file c) ++ callee_saved (at_class file c);
  mo_width : (Z.of_nat vreg_count <= u32_max)%Z;
  mo_locals : (0 <= existing_locals <= u32_max)%Z;
}.
Context (Hmir : mir_ok) (Hbk : backend_ok exec recipe instructions).

Record ready (d : RegAllocDriver) (info0 : LivenessInfo Reg) (next : nat) : Prop := {
  rd_mir : dr_mir d = mir;
  rd_locals : dr_existing_locals d = existing_locals;
  rd_info : info_ok instructions vreg_count (mir_classes mir) info0;
  rd_loops : loops_info_ok instructions (dr_loop_info d);
  rd_co : co_inv info0 (coalesce_candidates instructions) next (mkCo (dr_coalesce d) (coalesce_map (dr_coalesce d)) (dr_liveness d));
  rd_recipes p op : can_remat (dr_vreg_info d) p = Some op <->
    (forall x, noted (dr_coalesce d) instructions (length instructions) p x -> x = Some op) /\
    noted (dr_coalesce d) instructions (length instructions) p (Some op);
}.

Lemma no_physical : assert_no_allocatable_physical_operands mir = Some ().
Proof.
  rw /assert_no_allocatable_physical_operands. destruct (forallb _ _) eqn:Hf; [done|exfalso]. apply not_true_iff_false in Hf. apply Hf.
  apply forallb_forall. intros inst Hin%list_elem_of_In. apply forallb_forall. intros reg Hr%list_elem_of_In.
  apply negb_true_iff, not_true_iff_false. rw /allocatable existsb_exists. intros (e & He%list_elem_of_In & Ho).
  apply orb_true_iff in Ho. rewrite !bool_decide_eq_true in Ho. rewrite /file_iter in He.
  apply elem_of_cons in He as [-> | ->%list_elem_of_singleton]; by eapply (mo_physical Hmir); [..|rw elem_of_app; exact Ho].
Qed.

Lemma live_order info0 v rv : info_ok instructions vreg_count (mir_classes mir) info0 -> range_of info0 v = Some rv ->
  r_start rv <= r_end rv < length instructions.
Proof.
  intros Hinfo. rw /range_of. destruct (ranges info0 !! v) as [o|] eqn:Hv; [|done]. simpl. intros ->.
  destruct (io_hull _ _ _ _ Hinfo v _ Hv) as (_ & He & Hle & _). split; [done|]. eapply occupied_lt; [apply (mo_wf Hmir)|exact He].
Qed.

Lemma move_bounds info0 : info_ok instructions vreg_count (mir_classes mir) info0 -> candidates_ok info0 (coalesce_candidates instructions).
Proof.
  intros Hinfo. split; [apply (bk_order _ _ _ Hbk)|]. apply Forall_forall. intros c Hc. rw (io_ranges _ _ _ _ Hinfo).
  destruct (bk_move _ _ _ Hbk c Hc) as (inst & Hin%list_elem_of_lookup_2 & Hu & Hd & _).
  pose proof (wf_uses _ _ (mo_wf Hmir)) as Hus. pose proof (wf_defs _ _ (mo_wf Hmir)) as Hds. rewrite !Forall_forall in Hus, Hds.
  specialize (Hus inst Hin). specialize (Hds inst Hin). rewrite Hu in Hus. rewrite Hd in Hds.
  apply Forall_cons in Hus as [? _]. by apply Forall_cons in Hds as [? _].
Qed.

Lemma new_ok : exists info0 live loops r vi next, ready (mkDriver mir (replicate vreg_count None) vi live None loops r 0 [] existing_locals) info0 next /\
  forall capture, exists debug, new_with_artifacts mir existing_locals capture =
    Some (mkDriver mir (replicate vreg_count None) vi live debug loops r 0 [] existing_locals) /\ (capture = false -> debug = None).
Proof.
  destruct (analyze_inner_ok instructions vreg_count (mir_classes mir) (mo_wf Hmir)) as (info0 & Hinfo & Han).
  destruct (Han false true) as (d0 & l0 & H00 & _ & loops & -> & Hloops).
  destruct (Han true true) as (d1 & l1 & H11 & (debug & -> & _) & loops' & -> & Hloops').
  assert (loops' = loops) as -> by (destruct Hloops as (H1 & _), Hloops' as (H2 & _); congruence).
  destruct (coalesce_ok info0) with (cs := coalesce_candidates instructions) as (r & live & next & Hco & Hinv);
    [intros v rv Hv; by apply (live_order info0 v rv Hinfo)|by apply move_bounds|rw (io_ranges _ _ _ _ Hinfo); apply (mo_width Hmir)|].
  destruct (rematerialization_info_ok r mir) as (vi & Hvi & _ & Hrec).
  { eapply Forall_impl; [apply (wf_defs _ _ (mo_wf Hmir))|]. intros inst Hall. eapply Forall_impl; [exact Hall|]. intros d Hd. simpl in Hd.
    rewrite -(io_ranges _ _ _ _ Hinfo). rewrite -(proj1 (ci_len _ _ _ _ Hinv)). eapply lookup_lt_Some, (co_inv_root info0 _ _ _ d Hinv).
    by rw (io_ranges _ _ _ _ Hinfo). }
  exists info0, live, loops, r, vi, next. split; [by split|]. intros capture. exists (if capture then Some debug else None). split; [|by intros ->].
  rw /new_with_artifacts no_physical. cbn [mbind option_bind].
  assert (length (vreg_classes info0) =? vreg_count = true) as Hcl by (apply Nat.eqb_eq; rw (io_classes _ _ _ _ Hinfo); apply (mo_classes Hmir)).
  destruct capture.
  - rw /analyze_with_debug_and_loops H11 /=. by rw Hcl /= Hco /= Hvi.
  - rw /analyze_with_loops H00 /=. by rw Hcl /= Hco /= Hvi.
Qed.

Lemma ready_scan d info0 next : ready d info0 next -> scan_ok (dr_liveness d) file (dr_loop_info d).
Proof.
  intros [_ _ Hinfo Hloops Hco _]. split.
  - intros p r Hr. destruct (ci_tight _ _ _ _ Hco p r Hr) as [(u & ru & Hu & Hru & Hs) (v & rv & Hv & Hrv & He)]. simpl in *.
    destruct (ci_hull _ _ _ _ Hco u ru Hru) as (r' & Hr' & _ & Hle). simpl in *. rewrite Hu in Hr'. simplify_eq.
    destruct (live_order _ _ _ Hinfo Hru), (live_order _ _ _ Hinfo Hrv). destruct (ci_same _ _ _ _ Hco) as (Hc & _). simpl in Hc.
    rw /instruction_count Hc (io_clobbers _ _ _ _ Hinfo) length_fmap. lia.
  - apply (rf_compact _ (bk_file _ _ _ Hbk)).
  - intros a b. destruct Hloops as (_ & _ & _ & Hlo). destruct (lo_range _ _ Hlo a b) as (m & -> & _). done.
Qed.

Lemma ready_count d info0 next : ready d info0 next -> length (ranges (dr_liveness d)) = vreg_count.
Proof. intros [_ _ Hinfo _ Hco _]. destruct (ci_len _ _ _ _ Hco) as [_ Hl]. simpl in Hl. by rw Hl (io_ranges _ _ _ _ Hinfo). Qed.

Lemma assign_ok d info0 next collect : ready d info0 next -> exists alloc spills saved dbg,
  assign_registers_with collect d = Some (mkDriver mir alloc (dr_vreg_info d) (dr_liveness d) (dr_liveness_debug d) (dr_loop_info d) (dr_coalesce d)
    spills saved existing_locals, dbg) /\
  allocation_ok vreg_count (dr_liveness d) file existing_locals (dr_vreg_info d) alloc spills saved.
Proof.
  intros Hr. destruct (linear_scan_ok vreg_count (dr_liveness d) file existing_locals collect cost_default (dr_loop_info d) (dr_vreg_info d))
    as (alloc & spills & saved & dbg & Hs & Hal);
    [by eapply ready_scan|by eapply ready_count|apply (proj1 (mo_locals Hmir))|apply (mo_width Hmir)|].
  exists alloc, spills, saved, dbg. split; [|done]. rw /assign_registers_with (rd_mir _ _ _ Hr) (rd_locals _ _ _ Hr) Hs. done.
Qed.

(** Both steps, with the facts of the allocation they make. *)
Lemma allocated : exists d d' info0 next, driver_new mir existing_locals = Some d /\ assign_registers d = Some d' /\ ready d' info0 next /\
  dr_liveness_debug d' = None /\ allocation_ok vreg_count (dr_liveness d') file existing_locals (dr_vreg_info d') (dr_allocation d') (dr_num_spills d') (dr_saved d').
Proof.
  destruct new_ok as (info0 & live & loops & r & vi & next & Hr & Hnew). destruct (Hnew false) as (debug & Hd & Hn). rewrite (Hn eq_refl) in Hd.
  destruct (assign_ok _ _ _ false Hr) as (alloc & spills & saved & dbg & Hs & Hal).
  eexists _, _, info0, next. split; [exact Hd|]. rw /assign_registers Hs. split; [done|]. split; [by destruct Hr; split|done].
Qed.

Lemma budget_frame (d : RegAllocDriver (Inst:=Inst) (Reg:=Reg)) : dr_existing_locals d = existing_locals -> validate_spill_budget d = Ok () ->
  is_Some (checked_function_frame_slots existing_locals (dr_num_spills d)).
Proof. rw /validate_spill_budget. intros ->. by destruct (checked_function_frame_slots _ _). Qed.

Definition context_of (d : RegAllocDriver (Inst:=Inst) (Reg:=Reg)) : AllocationContext Reg := mkContext (dr_allocation d) (dr_coalesce d).

Lemma ready_recipes d info0 next : ready d info0 next -> forall p op, can_remat (dr_vreg_info d) p = Some op ->
  forall x, noted (dr_coalesce d) instructions (length instructions) p x -> x = Some op.
Proof. intros Hr p op Hp. by apply (rd_recipes _ _ _ Hr). Qed.

(** C1. The allocated function computes what the function over virtual
    registers computes.  On every well-formed function the driver finishes;
    when the frame fits, and the back end's instructions do what it reports of
    them, every run of [k] instructions has a run of [k] steps over the homes,
    where a register is read from its class's home, definitions are written
    there, what an instruction clobbers may change and dropped instructions do
    nothing; and every run of [k] steps over the homes, whatever clobbers
    leave, is at the same instruction in the same world, holds the value of
    each register live there in its home, and stops where and as the original
    stops. *)
Theorem allocation_sound : exists d d', driver_new mir existing_locals = Some d /\ assign_registers d = Some d' /\
  (validate_spill_budget d' = Ok () -> forall k env0 loc0 w0 pc env w,
    nsteps (vstep exec instructions) k (0, env0, w0) (pc, env, w) ->
    (exists loc, nsteps (lstep exec recipe instructions (context_of d')) k (0, loc0, w0) (pc, loc, w)) /\
    forall s, nsteps (lstep exec recipe instructions (context_of d')) k (0, loc0, w0) s -> exists loc, s = (pc, loc, w) /\
      (forall v, live_at (succ_table instructions) (use_table instructions) (def_table instructions) pc v ->
         read (context_of d') recipe loc v = Some (env v)) /\
      forall w', vhalt exec instructions (pc, env, w) w' <-> lhalt exec recipe instructions (context_of d') (pc, loc, w) w').
Proof.
  destruct allocated as (d & d' & info0 & next & Hd & Hd' & Hr & Hdbg & Hal). exists d, d'. split_and!; [done..|].
  intros Hb%budget_frame k env0 loc0 w0 pc env w Hrun; [|apply (rd_locals _ _ _ Hr)]. pose proof (ready_recipes _ _ _ Hr) as Hvi.
  destruct (sim_run exec recipe mir existing_locals (mo_wf Hmir) Hbk info0 (rd_info _ _ _ Hr) _ _ next (rd_co _ _ _ Hr) _ Hvi _ _ _ Hal Hb
    k 0 env0 loc0 w0 pc env w) as [Hex Hall]; [by apply agree_start, Hmir|done|].
  split; [exact Hex|]. intros s Hs. destruct (Hall s Hs) as (loc & -> & Hag). exists loc. split; [done|]. split; [apply Hag|]. intros w'.
  by eapply (sim_halt exec recipe mir existing_locals (mo_wf Hmir) Hbk info0 (rd_info _ _ _ Hr) _ _ next (rd_co _ _ _ Hr)).
Qed.

(** C2. The allocated function halts when the original does: no run over the
    homes, whatever clobbers leave, is longer than the original's [k] steps,
    and each goes on to halt after [k] steps in the original's last world. *)
Theorem allocation_halts : exists d d', driver_new mir existing_locals = Some d /\ assign_registers d = Some d' /\
  (validate_spill_budget d' = Ok () -> forall k env0 loc0 w0 pc env w w' j s,
    nsteps (vstep exec instructions) k (0, env0, w0) (pc, env, w) -> vhalt exec instructions (pc, env, w) w' ->
    nsteps (lstep exec recipe instructions (context_of d')) j (0, loc0, w0) s ->
    j <= k /\ exists s', nsteps (lstep exec recipe instructions (context_of d')) (k - j) s s' /\
      lhalt exec recipe instructions (context_of d') s' w').
Proof.
  destruct allocated as (d & d' & info0 & next & Hd & Hd' & Hr & Hdbg & Hal). exists d, d'. split_and!; [done..|].
  intros Hb%budget_frame; [|apply (rd_locals _ _ _ Hr)]. pose proof (ready_recipes _ _ _ Hr) as Hvi. intros k env0 loc0 w0 pc env w w' j s.
  by apply (sim_halts exec recipe mir existing_locals (mo_wf Hmir) Hbk info0 (rd_info _ _ _ Hr) _ _ next (rd_co _ _ _ Hr) _ Hvi _ _ _ Hal Hb).
Qed.

(** C3. The prologue saves enough: when no live range starts in diverging code
    and leaves it, a callee-saved register outside the save set holds its
    entry value wherever the function returns, however it got there. *)
Theorem callee_saved_kept : exists d d', driver_new mir existing_locals = Some d /\ assign_registers d = Some d' /\
  (starts_ok (dr_liveness d') -> forall k loc0 w0 pc loc w inst c reg,
    nsteps (lstep exec recipe instructions (context_of d')) k (0, loc0, w0) (pc, loc, w) ->
    instructions !! pc = Some inst -> is_non_returning inst = false -> succ_table instructions !! pc = Some [] ->
    reg ∈ callee_saved (at_class file c) -> reg ∉ dr_saved d' -> loc (InReg reg) = loc0 (InReg reg)).
Proof.
  destruct allocated as (d & d' & info0 & next & Hd & Hd' & Hr & Hdbg & Hal). exists d, d'. split_and!; [done..|].
  intros Hst k loc0 w0 pc loc w inst c reg Hrun Hin Hnr Hsucc Hcs Hns.
  refine (proj2 (kept_run exec recipe mir existing_locals (mo_wf Hmir) Hbk info0 (rd_info _ _ _ Hr) _ _ next (rd_co _ _ _ Hr) _ _ _ _ Hal
    c reg k loc0 w0 pc loc w Hst Hcs Hns Hrun _)).
  intros Hdv. inversion Hdv as [i Hc|i js Hjs Hne _]; subst; [|congruence]. rewrite /call_table list_lookup_fmap Hin /= Hnr in Hc. done.
Qed.

(** What a rewriter is handed.  Every operand of every instruction has a
    home, in code control cannot reach too; and no definition of an instruction
    that stays is a recipe, so that a rewriter never has to write one. *)
Theorem rewriter_operands_homed : exists d d', driver_new mir existing_locals = Some d /\ assign_registers d = Some d' /\
  forall i inst v, instructions !! i = Some inst ->
    (v ∈ uses inst ++ defs inst -> exists a, context_allocation (context_of d') v = Some (Some a)) /\
    (dropped (context_of d') i inst = Some false -> v ∈ defs inst -> forall op, context_allocation (context_of d') v <> Some (Some (Rematerialize op))).
Proof.
  destruct allocated as (d & d' & info0 & next & Hd & Hd' & Hr & Hdbg & Hal). exists d, d'. split_and!; [done..|]. intros i inst v Hin. split.
  - intros Hv. apply (operand_home mir existing_locals (mo_wf Hmir) info0 (rd_info _ _ _ Hr) _ _ next (rd_co _ _ _ Hr) _ _ _ _ Hal v i).
    apply elem_of_app in Hv as [Hv|Hv].
    + right. eapply live_use; [by rw /use_table list_lookup_fmap Hin|done].
    + left. exists (defs inst). by rw /def_table list_lookup_fmap Hin.
  - intros Hdrop Hv op Ha. by eapply (remat_not_defined mir existing_locals (dr_coalesce d') (dr_liveness d') (dr_vreg_info d') (ready_recipes _ _ _ Hr)).
Qed.

(** ** Every outcome *)

(** What rewriting emits for one instruction: nothing for one that is dropped;
    else what goes before it, what it becomes and what goes after it. *)
Definition emitted (ctx : AllocationContext Reg) (e : nat * Inst) : list Inst :=
  match dropped ctx e.1 e.2, rewrite_inst ctx e.2 with Some false, Ok b => buf_before b ++ buf_main b ++ buf_after b | _, _ => [] end.

(** The check made at an instruction does not cancel, and it is dropped or rewritten. *)
Definition goes_through (ctx : AllocationContext Reg) (cancel : nat -> bool) (k : nat) (e : nat * Inst) : Prop :=
  cancel (k + e.1) = false /\ (dropped ctx e.1 e.2 = Some true \/ exists b, rewrite_inst ctx e.2 = Ok b).

Lemma dropped_iff ctx i inst : is_Some (dropped ctx i inst) -> dropped ctx i inst = Some true <->
  is_eliminated (ctx_coalesce ctx) i = true \/ exists v op, rematerialization inst = Some (v, op) /\ context_allocation ctx v = Some (Some (Rematerialize op)).
Proof.
  rw /dropped /recomputed_later. destruct (is_eliminated _ i); [by split; [left|]|].
  destruct (rematerialization inst) as [[v op]|]; [|by split; [|naive_solver]].
  intros [x Hx]. destruct (context_allocation ctx v) as [a|] eqn:Ha; [|done]. cbn [mbind option_bind]. split.
  - destruct a as [[]|]; try done. intros [= ->%bool_decide_eq_true]. right. by do 2 eexists.
  - intros [|(? & ? & [= <- <-] & He)]; [done|]. rewrite He in Ha. injection Ha as <-. by rw bool_decide_true.
Qed.

Lemma push_all (l : list Inst) m : fold_left push_inst l m = mkMir (mir_instructions m ++ l) (mir_vreg_count m) (mir_classes m) (mir_symbols m).
Proof.
  revert m. induction l as [|i l IH]; intros m; simpl; [rw app_nil_r; by destruct m|]. rw IH /push_inst /=. by rw -app_assoc.
Qed.

Lemma rewrite_fold ctx cancel k es m : Forall (fun e => exists b, dropped ctx e.1 e.2 = Some b) es -> Forall (goes_through ctx cancel k) es ->
  fold_res (rewrite_step ctx cancel k) m es =
    Ok (mkMir (mir_instructions m ++ concat (emitted ctx <$> es)) (mir_vreg_count m) (mir_classes m) (mir_symbols m)).
Proof.
  intros Hd Hg. revert m. induction Hg as [|[i inst] es [Hc Hr] Hg IH]; intros m; simpl; [rw app_nil_r; by destruct m|].
  apply Forall_cons in Hd as [[b Hb] Hd]. simpl in Hb, Hc, Hr.
  rw /rewrite_step /check_cancel Hc Hb. cbn [expect mbind res_bind]. destruct b; cbn [mbind res_bind].
  - by rw IH // {2}/emitted /= Hb.
  - destruct Hr as [Hr|[buf Hbuf]]; [by simplify_eq|]. rw Hbuf. cbn [mbind res_bind]. rw IH // push_all /= {2}/emitted /= Hb Hbuf. by rw -app_assoc.
Qed.

(** The first instruction that does not go through decides. *)
Lemma rewrite_stops ctx cancel k pre e post m err : Forall (fun e => exists b, dropped ctx e.1 e.2 = Some b) pre ->
  Forall (goes_through ctx cancel k) pre ->
  cancel (k + e.1) = true /\ err = GenerationCanceled \/ cancel (k + e.1) = false /\ dropped ctx e.1 e.2 = Some false /\ rewrite_inst ctx e.2 = Err err ->
  fold_res (rewrite_step ctx cancel k) m (pre ++ e :: post) = Err err.
Proof.
  intros Hd Hg Hstop. rw fold_res_app rewrite_fold //. cbn [mbind res_bind fold_res]. destruct e as [i inst]. rw /rewrite_step /check_cancel.
  destruct Hstop as [[Hc ->]|(Hc & Hdr & Hr)]; simpl in *; rw Hc //. cbn [mbind res_bind]. rw Hdr. cbn [expect mbind res_bind]. by rw Hr.
Qed.

Lemma rewrite_no_panic ctx cancel k es m : (forall e, e ∈ es -> exists b, dropped ctx e.1 e.2 = Some b) -> (forall inst, rewrite_inst ctx inst <> Panic) ->
  fold_res (rewrite_step ctx cancel k) m es <> Panic.
Proof.
  intros Hd Hr. revert m. induction es as [|[i inst] es IH]; intros m; simpl; [done|]. apply bind_no_panic; [|intros m' _; apply IH; intros; apply Hd; by right].
  destruct (Hd (i, inst)) as [b Hb]; [by left|]. simpl in Hb. rw /rewrite_step /check_cancel Hb.
  destruct (cancel (k + i)); [done|]. cbn [expect mbind res_bind]. destruct b; [done|]. apply bind_no_panic; [apply Hr|done].
Qed.

Lemma budget_cases (d : RegAllocDriver (Inst:=Inst) (Reg:=Reg)) : dr_existing_locals d = existing_locals -> (0 <= dr_num_spills d <= Z.of_nat vreg_count)%Z ->
  validate_spill_budget d = if (existing_locals + dr_num_spills d <=? MAX_FUNCTION_FRAME_SLOTS)%Z then Ok () else Err FunctionFrameTooLarge.
Proof.
  intros Hl Hs. rw /validate_spill_budget Hl /checked_function_frame_slots /checked_u. pose proof (mo_locals Hmir) as Hlo. pose proof (mo_width Hmir) as Hw.
  assert (u32_max = 4294967295)%Z as Hm by done. rewrite Hm in Hlo, Hw.
  assert (in_ub 64 (existing_locals + dr_num_spills d) = true) as ->; [|cbn [mbind option_bind]].
  { apply andb_true_iff. split; [apply Z.leb_le|apply Z.ltb_lt]; lia. }
  by destruct (existing_locals + dr_num_spills d <=? MAX_FUNCTION_FRAME_SLOTS)%Z.
Qed.

(** The assignment, with or without its diagnostics. *)
Lemma assigned_either (capture : bool) (d d' : RegAllocDriver (Inst:=Inst) (Reg:=Reg)) : assign_registers d = Some d' ->
  exists d2 debug, (if capture then '(d, debug) ← expect (assign_registers_with_debug d); Ok (d, Some debug) else d ← expect (assign_registers d); Ok (d, None)) =
    (Ok (d2, debug) : res RegAllocError _) /\ (debug = None <-> capture = false) /\ d2 = d'.
Proof.
  rw /assign_registers_with_debug /assign_registers /assign_registers_with.
  destruct (linear_scan_impl_with_remat _ _ _ _ false _ _ _) as [[[[alloc spills] saved] dbg]|] eqn:Hs; [|done].
  destruct (scan_debug _ _ _ _ _ _ _ _ _ _ _ Hs) as (dbg' & Hs'). intros [= <-].
  destruct capture; [rw Hs'|]; by do 2 eexists.
Qed.

(** The instructions below [n] go through. *)
Definition all_through (ctx : AllocationContext Reg) (cancel : nat -> bool) (n : nat) : Prop :=
  forall i inst, i < n -> instructions !! i = Some inst -> goes_through ctx cancel 2 (i, inst).

Lemma through_prefix ctx cancel n : all_through ctx cancel n -> Forall (goes_through ctx cancel 2) (imap pair (take n instructions)).
Proof.
  intros Hall. apply Forall_lookup. intros i e He. rewrite list_lookup_imap in He. apply fmap_Some in He as (inst & Hin & ->).
  apply lookup_take_Some in Hin as [Hin Hlt]. by apply Hall.
Qed.

(** C16. Every outcome of the driver's last phase.  A back end whose rewriting
    does not panic never makes it panic.  An authority that cancels at its first
    or second check, or a frame over the ceiling, stops it before anything is
    rewritten.  After that the instructions are taken in order, and the first
    one that does not go through decides: cancellation if the check made at it
    cancels (even when it is dropped), and otherwise, when it is not dropped,
    the very error its rewriting gives.  When all go through, the new function
    holds what each instruction that stays became - what goes before it, what
    replaces it, what goes after it - in order, under the same symbols, with the
    spill and save counts of the assignment, whether or not diagnostics are
    asked for.  What is dropped are the merged moves and the definitions of a
    register recomputed by that same recipe. *)
Theorem driver_outcomes (Hrw : forall ctx inst, rewrite_inst ctx inst <> Panic) :
  exists d d', driver_new mir existing_locals = Some d /\ assign_registers d = Some d' /\
  (forall i inst, instructions !! i = Some inst -> dropped (context_of d') i inst = Some true <->
     is_eliminated (dr_coalesce d') i = true \/
     exists v op, rematerialization inst = Some (v, op) /\ context_allocation (context_of d') v = Some (Some (Rematerialize op))) /\
  forall capture cancel,
  let out := allocate_with_artifacts capture cancel d in
  out <> Panic /\
  (cancel 0 = true \/ cancel 1 = true -> out = Err GenerationCanceled) /\
  (cancel 0 = false -> cancel 1 = false -> (MAX_FUNCTION_FRAME_SLOTS < existing_locals + dr_num_spills d')%Z -> out = Err FunctionFrameTooLarge) /\
  (cancel 0 = false -> cancel 1 = false -> (existing_locals + dr_num_spills d' <= MAX_FUNCTION_FRAME_SLOTS)%Z ->
   (forall n inst, instructions !! n = Some inst -> all_through (context_of d') cancel n ->
     (cancel (2 + n) = true -> out = Err GenerationCanceled) /\
     (forall err, cancel (2 + n) = false -> dropped (context_of d') n inst = Some false -> rewrite_inst (context_of d') inst = Err err -> out = Err err)) /\
   (all_through (context_of d') cancel (length instructions) ->
     exists mir' debug, out = Ok (mir', dr_num_spills d', dr_saved d', None, debug) /\ (debug = None <-> capture = false) /\
     mir_instructions mir' = concat (imap (fun i inst => emitted (context_of d') (i, inst)) instructions) /\ mir_symbols mir' = mir_symbols mir)).
Proof.
  destruct allocated as (d & d' & info0 & next & Hd & Hd' & Hr & Hdbg & Hal). exists d, d'.
  assert (forall i inst, instructions !! i = Some inst -> exists b, dropped (context_of d') i inst = Some b) as Hdrop.
  { intros i inst. by apply (dropped_total exec recipe mir existing_locals (mo_wf Hmir) Hbk info0 (rd_info _ _ _ Hr) _ _ next (rd_co _ _ _ Hr) _ _ _ _ Hal). }
  split_and!; [done..| |intros capture cancel out].
  { intros i inst Hin. split; apply (dropped_iff (context_of d')); destruct (Hdrop i inst Hin); by eexists. }
  destruct (assigned_either capture d d' Hd') as (d2 & debug & Hassign & Hdebug & ->).
  assert (forall n, Forall (fun e => exists b, dropped (context_of d') e.1 e.2 = Some b) (imap pair (take n instructions))) as Hdropped.
  { intros n. apply Forall_lookup. intros i e He. rewrite list_lookup_imap in He. apply fmap_Some in He as (inst & [Hin _]%lookup_take_Some & ->). by apply Hdrop. }
  pose proof (budget_cases d' (rd_locals _ _ _ Hr) (al_spills _ _ _ _ _ _ _ _ Hal)) as Hbudget.
  rw /out /allocate_with_artifacts /check_cancel Hassign. clear out Hassign.
  destruct (cancel 0) eqn:H00; [split_and!; intros; try done; congruence|]. cbn [mbind res_bind].
  destruct (cancel 1) eqn:H01; [split_and!; intros; try done; congruence|]. cbn [mbind res_bind]. rw Hbudget.
  destruct (Z.leb_spec (existing_locals + dr_num_spills d') MAX_FUNCTION_FRAME_SLOTS) as [Hfits|Hbig]; cbn [mbind res_bind];
    [|split_and!; intros; try done; lia || naive_solver]. rw /rewrite_instructions (rd_mir _ _ _ Hr). split_and!; [|by intros []|lia|intros _ _ _; split].
  - apply bind_no_panic; [|done]. apply rewrite_no_panic; [|done]. intros e He. rewrite -(firstn_all instructions) in He.
    by apply (proj1 (Forall_forall _ _) (Hdropped (length instructions))).
  - intros n inst Hin Hpre. assert (imap pair instructions = imap pair (take n instructions) ++ (n, inst) :: imap (fun i => pair (S n + i)) (drop (S n) instructions)) as ->.
    { rewrite -{1}(take_drop_middle _ _ _ Hin) imap_app /= length_take_le; [|apply lookup_lt_Some in Hin; lia]. rw Nat.add_0_r. f_equal. f_equal. apply imap_ext. intros. simpl. by f_equal; lia. }
    split; [intros Hc|intros err Hc Hdr Hre];
      (erewrite (rewrite_stops _ cancel 2 _ (n, inst)); [reflexivity|apply Hdropped|by apply through_prefix|]); [by left|by right].
  - intros Hall%through_prefix. specialize (Hdropped (length instructions)). rewrite firstn_all in Hall, Hdropped.
    rw (rewrite_fold _ cancel 2) //. cbn [mbind res_bind]. rw Hdbg fmap_imap. by do 2 eexists.
Qed.
End Driver.
