(* ===== verification/RegToy.v ===== *)
(** * Register allocation: a small back end

    A back end the theorems of the register allocator apply to, the allocations
    it gets, and a function whose prologue saves too little. *)

From stdpp Require Import gmap sorting relations.
From S2P Require Import Prelude Csr Sched Live LiveBlocks LiveRanges LiveDiverge LiveLoops LiveRun.
From S2P Require Import Regalloc RegIndex RegScan RegValid RegCoalesce RegRemat RegMachine RegSim RegRun.
Import Machine.

Inductive Op :=
| OConst (d : nat) (k : Z) | OIn (d : nat) | OMove (d s : nat) | OAdd (d a b : nat) | OOut (a : nat)
| OCall | OFork (l : nat) | OMark (l : nat) | OTrap | ORet.

#[export] Instance op_adapter : LivenessAdapter Op nat := {
  label i := match i with OMark l => Some l | _ => None end;
  successors idx i m := match i with
    | OFork l => S idx :: branch_successor l m
    | OTrap | ORet => []
    | _ => [S idx]
    end;
  uses i := match i with OMove _ s => [s] | OAdd _ a b => [a; b] | OOut a => [a] | _ => [] end;
  defs i := match i with OConst d _ | OIn d | OMove d _ | OAdd d _ _ => [d] | _ => [] end;
  clobbers i := match i with OCall | OTrap => [0; 1] | _ => [] end;
  is_non_returning i := match i with OTrap => true | _ => false end;
}.

Definition op_backend (rewrite : Op -> res RegAllocError (RewriteBuffer Op)) (file : RegisterFile nat) : RegAllocBackend Op nat := {|
  rematerialization i := match i with OConst d k => Some (d, Const32 k) | _ => None end;
  coalesce_candidates code := omap (fun e => match e.2 with OMove d s => Some (mkCandidate e.1 d s) | _ => None end) (imap pair code);
  register_file := file;
  physical_operands _ := [];
  rewrite_inst _ i := rewrite i;
|}.
Definition plain (i : Op) : res RegAllocError (RewriteBuffer Op) := Ok (push_main i buffer_new).

(** The world is the output so far; a fork is taken while it is empty. *)
Definition op_exec (code : list Op) (i : nat) (inst : Op) (us : list Z) (w : list Z) : list Z * list Z * option nat :=
  match inst, us with
  | OConst _ k, _ => ([k], w, Some (S i))
  | OIn _, _ => ([7%Z], w, Some (S i))
  | OMove _ _, [x] => ([x], w, Some (S i))
  | OAdd _ _ _, [x; y] => ([(x + y)%Z], w, Some (S i))
  | OMove _ _, _ | OAdd _ _ _, _ => ([0%Z], w, None)
  | OOut _, _ => ([], w ++ us, Some (S i))
  | OFork l, _ => ([], w, Some (match w, branch_successor l (build_label_map code) with [], [t] => t | _, _ => S i end))
  | OCall, _ | OMark _, _ => ([], w, Some (S i))
  | OTrap, _ | ORet, _ => ([], w, None)
  end.
Definition op_recipe (op : RematerializeOp) : Z := match op with Const32 k | Const64 k => k | _ => 0%Z end.

Definition toy_file : RegisterFile nat := gp_only (mkSave [0; 1] [10; 11] [10]).

(** A value across a call, a move, a constant, a trap on the side. *)
Definition alloc_code : list Op :=
  [OConst 0 5; OAdd 1 0 0; OCall; OMove 2 1; OFork 9; OTrap; OMark 9; OAdd 3 2 0; OOut 3; ORet].
Definition alloc_mir : Mir Op := mkMir alloc_code 4 [Gp; Gp; Gp; Gp] [].

(** One goal per instruction of a ten-instruction function. *)
Tactic Notation "by_index" ident(i) ident(H) "using" tactic3(t) :=
  do 10 (destruct i as [|i]; [vm_compute in H; first [discriminate H|injection H as <-; t]|]); discriminate H.

Lemma alloc_live i v : live_at (succ_table alloc_code) (use_table alloc_code) (def_table alloc_code) i v ->
  v ∈ nth i [[]; [0]; [0; 1]; [0; 1]; [0; 2]; []; [0; 2]; [0; 2]; [3]] [].
Proof.
  intros Hl. induction Hl as [i us v Hu Hv|i ds js j v Hd Hv Hj Hjs _ IH].
  - by_index i Hu using (simpl; set_solver).
  - do 10 (destruct i as [|i]; [vm_compute in Hd, Hj; injection Hd as <-; injection Hj as <-;
      repeat (apply elem_of_cons in Hjs as [->|Hjs]; [simpl in *; set_solver|]); by apply not_elem_of_nil in Hjs|]). done.
Qed.

Section Rewritten.
Context (rewrite : Op -> res RegAllocError (RewriteBuffer Op)).
#[local] Instance toy_rewritten : RegAllocBackend Op nat := op_backend rewrite toy_file.

Lemma alloc_mir_ok : mir_ok alloc_mir 0.
Proof.
  split; [split| | | |].
  - simpl. lia.
  - vm_compute. discriminate.
  - intros i js Hi. by_index i Hi using (repeat constructor; simpl; lia).
  - repeat constructor; simpl; lia.
  - repeat constructor; simpl; lia.
  - intros v Hl. apply alloc_live in Hl. by apply not_elem_of_nil in Hl.
  - done.
  - intros inst reg c _ Hr. by apply not_elem_of_nil in Hr.
  - vm_compute. discriminate.
  - vm_compute. split; discriminate.
Qed.

Lemma toy_file_ok : file_ok toy_file.
Proof.
  split.
  - intros [] reg; simpl; set_solver.
  - intros [] [] reg; simpl; try done; by intros ? ?%not_elem_of_nil || by intros ?%not_elem_of_nil.
Qed.

Lemma op_flow code i inst us w vals w' j : code !! i = Some inst -> op_exec code i inst us w = (vals, w', Some j) ->
  is_non_returning inst = false /\ flows (succ_table code) i j.
Proof.
  intros Hi Hex. split; [by destruct inst|]. exists (successors i inst (build_label_map code)).
  split; [by rw /succ_table /build_successor_lists list_lookup_imap Hi|].
  destruct inst; simpl in *; repeat case_match; simplify_eq; set_solver.
Qed.

Lemma op_backend_ok code : StronglySorted (fun a b => inst_idx a < inst_idx b) (coalesce_candidates code) ->
  Forall (fun c => code !! inst_idx c = Some (OMove (cand_dst c) (cand_src c))) (coalesce_candidates code) ->
  backend_ok (op_exec code) op_recipe code.
Proof.
  intros Hsorted Hmoves. split.
  - apply toy_file_ok.
  - intros i inst us w vals w' next _. destruct inst; simpl; repeat case_match; by intros [= <- <- <-].
  - apply op_flow.
  - intros i. rw /call_table /succ_table /build_successor_lists list_lookup_fmap list_lookup_imap. by destruct (code !! i) as [[]|].
  - intros i inst c reg Hi Hn Hr Hc. destruct inst; simpl in *; try (by apply not_elem_of_nil in Hr); try done; destruct c; simpl in *; set_solver.
  - exact Hsorted.
  - intros c Hc. rewrite Forall_forall in Hmoves. exists (OMove (cand_dst c) (cand_src c)). by rewrite (Hmoves c Hc).
  - intros i inst d op Hi Hr. destruct inst; simpl in *; try done. by injection Hr as <- <-.
Qed.
Lemma alloc_backend_ok : backend_ok (op_exec alloc_code) op_recipe alloc_code.
Proof. apply op_backend_ok; vm_compute; repeat constructor. Qed.
End Rewritten.
#[local] Instance toy_backend : RegAllocBackend Op nat := op_backend plain toy_file.

(** ** What it gets *)

Lemma op_step code pc inst env w vals w' pc' st k : code !! pc = Some inst -> op_exec code pc inst (env <$> uses inst) w = (vals, w', Some pc') ->
  nsteps (vstep (op_exec code) code) k (pc', fold_left (fun env e => set_value env e.1 e.2) (zip (defs inst) vals) env, w') st ->
  nsteps (vstep (op_exec code) code) (S k) (pc, env, w) st.
Proof. intros Hin Hex Hs. eapply nsteps_l; [|exact Hs]. by econstructor. Qed.

Lemma alloc_fork : branch_successor 9 (build_label_map alloc_code) = [6].
Proof. vm_compute. reflexivity. Qed.

Lemma alloc_run env0 : exists env, nsteps (vstep (op_exec alloc_code) alloc_code) 7 (0, env0, []) (8, env, []) /\ env 3 = 15%Z.
Proof.
  eexists. split.
  - do 4 (eapply op_step; [reflexivity|simpl; reflexivity|]). eapply op_step; [reflexivity|simpl; rw alloc_fork; reflexivity|].
    do 2 (eapply op_step; [reflexivity|simpl; reflexivity|]). apply nsteps_O.
  - reflexivity.
Qed.

Lemma alloc_halt env0 : exists env, nsteps (vstep (op_exec alloc_code) alloc_code) 8 (0, env0, []) (9, env, [15%Z]) /\
  vhalt (op_exec alloc_code) alloc_code (9, env, [15%Z]) [15%Z].
Proof.
  destruct (alloc_run env0) as (env & Hrun & H3). exists env. split; [|by exists ORet, []]. eapply nsteps_r; [exact Hrun|].
  refine (vstep_run _ _ 8 env [] (OOut 3) [] [15%Z] 9 _ _); [done|]. by rw /= H3.
Qed.

(** The driver's results, computed. *)
Tactic Notation "alloc_compute" ident(Hd) ident(Hd') :=
  vm_compute in Hd; injection Hd as <-; vm_compute in Hd'; injection Hd' as <-.

Lemma allocation_sound_witness : exists d', (d ← driver_new alloc_mir 0; assign_registers d) = Some d' /\
  forall loc0, exists loc, nsteps (lstep (op_exec alloc_code) op_recipe alloc_code (context_of d')) 7 (0, loc0, []) (8, loc, []) /\
    read (context_of d') op_recipe loc 3 = Some 15%Z.
Proof.
  destruct (allocation_sound (op_exec alloc_code) op_recipe alloc_mir 0 (alloc_mir_ok plain) (alloc_backend_ok plain)) as (d & d' & Hd & Hd' & Hs).
  exists d'. split; [by rewrite Hd|]. intros loc0. destruct (alloc_run (fun _ => 0%Z)) as (env & Hrun & H3).
  assert (validate_spill_budget d' = Ok ()) as Hb.
  { alloc_compute Hd Hd'. reflexivity. }
  destruct (Hs Hb 7 _ loc0 [] 8 env [] Hrun) as [[loc Hloc] Hall]. exists loc. split; [exact Hloc|].
  destruct (Hall _ Hloc) as (loc' & [= <-] & Hrd & _). rewrite -H3. apply Hrd. eapply live_use; [reflexivity|by left].
Defined.

Lemma allocation_halts_witness : exists d', (d ← driver_new alloc_mir 0; assign_registers d) = Some d' /\
  forall loc0, exists s', nsteps (lstep (op_exec alloc_code) op_recipe alloc_code (context_of d')) 8 (0, loc0, []) s' /\
    lhalt (op_exec alloc_code) op_recipe alloc_code (context_of d') s' [15%Z].
Proof.
  destruct (allocation_halts (op_exec alloc_code) op_recipe alloc_mir 0 (alloc_mir_ok plain) (alloc_backend_ok plain)) as (d & d' & Hd & Hd' & Hs).
  exists d'. split; [by rewrite Hd|]. intros loc0. destruct (alloc_halt (fun _ => 0%Z)) as (env & Hrun & Hh).
  assert (validate_spill_budget d' = Ok ()) as Hb.
  { alloc_compute Hd Hd'. reflexivity. }
  destruct (Hs Hb 8 _ loc0 [] 9 env _ _ 0 (0, loc0, []) Hrun Hh) as (_ & s' & H1 & H2); [apply nsteps_O|].
  exists s'. split; [exact H1|exact H2].
Defined.

(** *** A register written in diverging code only

    Register 10 keeps a value over the call and is saved; the value that lives
    in the branch that traps, across a call of its own, gets register 11, which
    is not. *)
Definition side_code : list Op := [OIn 1; OFork 7; OIn 0; OCall; OOut 0; OOut 1; OTrap; OMark 7; OOut 1; ORet].
Definition side_mir : Mir Op := mkMir side_code 2 [Gp; Gp] [].

Lemma side_live i v : live_at (succ_table side_code) (use_table side_code) (def_table side_code) i v ->
  v ∈ nth i [[]; [1]; [1]; [0; 1]; [0; 1]; [1]; []; [1]; [1]] [].
Proof.
  intros Hl. induction Hl as [i us v Hu Hv|i ds js j v Hd Hv Hj Hjs _ IH].
  - by_index i Hu using (simpl; set_solver).
  - do 10 (destruct i as [|i]; [vm_compute in Hd, Hj; injection Hd as <-; injection Hj as <-;
      repeat (apply elem_of_cons in Hjs as [->|Hjs]; [simpl in *; set_solver|]); by apply not_elem_of_nil in Hjs|]). done.
Qed.

Lemma side_mir_ok : mir_ok side_mir 0.
Proof.
  split; [split| | | |].
  - simpl. lia.
  - vm_compute. discriminate.
  - intros i js Hi. by_index i Hi using (repeat constructor; simpl; lia).
  - repeat constructor; simpl; lia.
  - repeat constructor; simpl; lia.
  - intros v Hl. apply side_live in Hl. by apply not_elem_of_nil in Hl.
  - done.
  - intros inst reg c _ Hr. by apply not_elem_of_nil in Hr.
  - vm_compute. discriminate.
  - vm_compute. split; discriminate.
Qed.

Lemma side_backend_ok : backend_ok (op_exec side_code) op_recipe side_code.
Proof. apply (op_backend_ok plain); vm_compute; repeat constructor. Qed.

Lemma side_fork : branch_successor 7 (build_label_map side_code) = [7].
Proof. vm_compute. reflexivity. Qed.

(** One step over the homes of an instruction that clobbers nothing. *)
Lemma op_lstep code ctx pc inst loc w us vals w' pc' st k : code !! pc = Some inst -> dropped ctx pc inst = Some false ->
  mapM (read ctx op_recipe loc) (uses inst) = Some us -> op_exec code pc inst us w = (vals, w', Some pc') ->
  nsteps (lstep (op_exec code) op_recipe code ctx) k (pc', fold_left (write ctx) (zip (defs inst) vals) loc, w') st ->
  nsteps (lstep (op_exec code) op_recipe code ctx) (S k) (pc, loc, w) st.
Proof. intros Hin Hd Hu Hex Hs. eapply nsteps_l; [|exact Hs]. by eapply lstep_run; [..|intros l _]. Qed.
Tactic Notation "op_lsteps" constr(fork) :=
  repeat first [apply nsteps_O|eapply op_lstep; [reflexivity|reflexivity|reflexivity|simpl; try rewrite fork; reflexivity|]].

Lemma callee_saved_kept_witness : exists d', (d ← driver_new side_mir 0; assign_registers d) = Some d' /\ dr_saved d' = [10] /\
  11 ∈ callee_saved (at_class toy_file Gp) /\ dr_allocation d' = [Some (Register 11); Some (Register 10)] /\
  forall loc0, (exists loc, nsteps (lstep (op_exec side_code) op_recipe side_code (context_of d')) 3 (0, loc0, [1%Z]) (3, loc, [1%Z]) /\ loc (InReg 11) = 7%Z) /\
    exists loc, nsteps (lstep (op_exec side_code) op_recipe side_code (context_of d')) 4 (0, loc0, []) (9, loc, [7%Z]) /\
      loc (InReg 10) = 7%Z /\ loc (InReg 11) = loc0 (InReg 11).
Proof.
  destruct (callee_saved_kept (op_exec side_code) op_recipe side_mir 0 side_mir_ok side_backend_ok) as (d & d' & Hd & Hd' & Hs).
  exists d'. split; [by rewrite Hd|].
  assert (starts_ok (dr_liveness d')) as Hst.
  { alloc_compute Hd Hd'. intros v r Hr. destruct v as [|[|v]]; vm_compute in Hr; [injection Hr as <-|injection Hr as <-; vm_compute; discriminate|discriminate Hr].
    intros _. split; [by exists 6|]. simpl. intros i Hi _. do 5 (destruct i as [|i]; [first [lia|reflexivity]|]). lia. }
  assert (dr_saved d' = [10] /\ dr_allocation d' = [Some (Register 11); Some (Register 10)]) as [Hsaved Hal].
  { alloc_compute Hd Hd'. by split. }
  split; [exact Hsaved|]. split; [by right; left|]. split; [exact Hal|]. intros loc0.
  assert (exists loc, nsteps (lstep (op_exec side_code) op_recipe side_code (context_of d')) 4 (0, loc0, []) (9, loc, [7%Z]) /\ loc (InReg 10) = 7%Z) as (loc & Hrun & H10).
  { clear Hs. alloc_compute Hd Hd'. eexists. split; [op_lsteps side_fork|reflexivity]. }
  split.
  - clear Hs Hrun. alloc_compute Hd Hd'. eexists. split; [op_lsteps side_fork|reflexivity].
  - exists loc. split; [exact Hrun|]. split; [exact H10|].
    apply (Hs Hst 4 loc0 [] 9 loc [7%Z] ORet Gp 11); [exact Hrun|reflexivity..|by right; left|].
    rewrite Hsaved. intros [=]%list_elem_of_singleton.
Defined.

Lemma rewriter_operands_homed_witness : exists d', (d ← driver_new alloc_mir 0; assign_registers d) = Some d' /\
  exists a, context_allocation (context_of d') 2 = Some (Some a).
Proof.
  destruct (rewriter_operands_homed (op_exec alloc_code) op_recipe alloc_mir 0 (alloc_mir_ok plain) (alloc_backend_ok plain)) as (d & d' & Hd & Hd' & Hs).
  exists d'. split; [by rewrite Hd|]. apply (Hs 7 (OAdd 3 2 0) 2); [reflexivity|by left].
Defined.

(** Back ends that emit around an output, and one of them refuses the trap. *)
Definition bracket (i : Op) : res RegAllocError (RewriteBuffer Op) :=
  match i with OOut _ => Ok (push_before (OMark 7) (push_main i (push_after (OMark 8) buffer_new))) | _ => plain i end.
Definition refusing (i : Op) : res RegAllocError (RewriteBuffer Op) := match i with OTrap => Err BackendError | _ => bracket i end.
Definition allocated_with (rewrite : Op -> res RegAllocError (RewriteBuffer Op)) (capture : bool) (cancel : nat -> bool) :=
  d ← expect (driver_new (H0 := op_backend rewrite toy_file) alloc_mir 0); allocate_with_artifacts (H0 := op_backend rewrite toy_file) capture cancel d.

(** The function with its output bracketed; cancellation at the second check, at
    the merged move and at the trap; the trap's refusal, also when a later check
    would cancel. *)
Lemma driver_outcomes_witness :
  (exists mir', allocated_with bracket false NONE = Ok (mir', 0%Z, [10; 11], None, None) /\
    mir_instructions mir' = [OConst 0 5; OAdd 1 0 0; OCall; OFork 9; OTrap; OMark 9; OAdd 3 2 0; OMark 7; OOut 3; OMark 8; ORet]) /\
  allocated_with bracket false (fun k => k =? 1) = Err GenerationCanceled /\
  allocated_with bracket false (fun k => k =? 5) = Err GenerationCanceled /\
  allocated_with refusing false (fun k => k =? 7) = Err GenerationCanceled /\
  allocated_with refusing false (fun k => k =? 8) = Err BackendError.
Proof.
  destruct (driver_outcomes (H0 := op_backend bracket toy_file) (op_exec alloc_code) op_recipe alloc_mir 0 (alloc_mir_ok bracket) (alloc_backend_ok bracket))
    as (d & d' & Hd & Hd' & _ & Hs); [by intros ? []|].
  destruct (driver_outcomes (H0 := op_backend refusing toy_file) (op_exec alloc_code) op_recipe alloc_mir 0 (alloc_mir_ok refusing) (alloc_backend_ok refusing))
    as (e & e' & He & He' & _ & Ht); [by intros ? []|].
  rewrite /allocated_with Hd He. cbn [expect mbind res_bind].
  assert (0 + dr_num_spills d' <= MAX_FUNCTION_FRAME_SLOTS)%Z as Hfit by (clear Hs He Ht; alloc_compute Hd Hd'; discriminate).
  assert (0 + dr_num_spills e' <= MAX_FUNCTION_FRAME_SLOTS)%Z as Hfit' by (clear Ht Hd Hs; alloc_compute He He'; discriminate).
  assert (dropped (H0 := op_backend refusing toy_file) (context_of e') 5 OTrap = Some false) as Htrap by (clear Ht Hd Hs; alloc_compute He He'; reflexivity).
  split; [|split; [|split; [|split]]].
  - destruct (Hs false NONE) as (_ & _ & _ & Hall). destruct (Hall eq_refl eq_refl Hfit) as [_ Hok].
    destruct Hok as (mir' & debug & Hout & Hdebug & Hins & _).
    { intros i inst _ Hin. by_index i Hin using (split; [reflexivity|right; eexists; reflexivity]). }
    rewrite (proj2 Hdebug eq_refl) in Hout. exists mir'. rewrite Hout Hins. clear -Hd Hd'. alloc_compute Hd Hd'. by split.
  - destruct (Hs false (fun k => k =? 1)) as (_ & Hcancel & _). apply Hcancel. by right.
  - destruct (Hs false (fun k => k =? 5)) as (_ & _ & _ & Hall). destruct (Hall eq_refl eq_refl Hfit) as [Hstop _].
    destruct (Hstop 3 (OMove 2 1) eq_refl) as [Hcancel _]; [|by apply Hcancel].
    intros i inst Hlt Hin. by_index i Hin using (first [lia|split; [reflexivity|right; eexists; reflexivity]]).
  - destruct (Ht false (fun k => k =? 7)) as (_ & _ & _ & Hall). destruct (Hall eq_refl eq_refl Hfit') as [Hstop _].
    destruct (Hstop 5 OTrap eq_refl) as [Hcancel _]; [|by apply Hcancel].
    intros i inst Hlt Hin. by_index i Hin using (first [lia|split; [reflexivity|right; eexists; reflexivity]]).
  - destruct (Ht false (fun k => k =? 8)) as (_ & _ & _ & Hall). destruct (Hall eq_refl eq_refl Hfit') as [Hstop _].
    destruct (Hstop 5 OTrap eq_refl) as [_ Herr]; [|by apply (Herr BackendError)].
    intros i inst Hlt Hin. by_index i Hin using (first [lia|split; [reflexivity|right; eexists; reflexivity]]).
Defined.

(** A move where one range ends and the other starts. *)
Definition toy_info : LivenessInfo nat :=
  mkInfo [Some (mkRange 0 3); Some (mkRange 3 5); Some (mkRange 1 5); Some (mkRange 2 4)] [[]; []; []; []; [0; 1]; []]
    (replicate 6 false) (replicate 6 false) (replicate 4 false) (replicate 4 Gp).

Lemma toy_ranges v r : range_of toy_info v = Some r -> r_start r <= r_end r < 6.
Proof. do 4 (destruct v as [|v]; [intros [= <-]; simpl; lia|]). done. Qed.

Lemma coalesce_exact_witness : exists r live, coalesce [mkCandidate 3 1 0] toy_info = Some (r, live) /\
  representative r 1 = 0 /\ is_eliminated r 3 = true /\ ranges live = [Some (mkRange 0 5); None; Some (mkRange 1 5); Some (mkRange 2 4)].
Proof.
  destruct (coalesce_exact toy_info) with (cs := [mkCandidate 3 1 0]) as (r & live & Hc & _).
  - intros v r Hr. by apply toy_ranges in Hr as [? _].
  - split; [repeat constructor|]. constructor; [simpl; lia|constructor].
  - vm_compute. discriminate.
  - exists r, live. split; [exact Hc|]. vm_compute in Hc. injection Hc as <- <-. by split_and!.
Defined.

(** Three overlapping ranges and two registers, one lost in a call. *)
Lemma linear_scan_valid_witness : exists alloc spills saved dbg,
  linear_scan_impl_with_remat 4 toy_info (gp_only (mkSave [0] [10] [])) 2 false cost_default (no_loops 6) [] = Some (alloc, spills, saved, dbg) /\
  alloc = [Some (Register 0); Some (Spill (-32)); Some (Spill (-24)); Some (Register 10)] /\ saved = [10] /\ starts_ok toy_info /\
  allocation_ok 4 toy_info (gp_only (mkSave [0] [10] [])) 2 [] alloc spills saved.
Proof.
  destruct (linear_scan_valid toy_info (gp_only (mkSave [0] [10] [])) 2 false cost_default (no_loops 6) []) as (alloc & spills & saved & dbg & Hs & Hal & _).
  - split; [apply toy_ranges|intros [] reg; simpl; by intros ?%not_elem_of_nil|intros a b; by eexists].
  - done.
  - vm_compute. discriminate.
  - exists alloc, spills, saved, dbg. split; [exact Hs|]. vm_compute in Hs. injection Hs as <- <- <- <-. split; [reflexivity|]. split; [reflexivity|]. split; [|exact Hal].
    intros v r _. rewrite /diverges_at /=. by destruct (r_start r) as [|[|[|[|[|[]]]]]].
Defined.

(** ** A register taken over in diverging code

    One callee-saved register.  The constant that holds it first is confined to
    the trapping branch, so nothing is saved for it; the value that takes it
    over there has a second definition in the branch that returns, and the
    eviction path records no save. *)

Definition tight_file : RegisterFile nat := gp_only (callee_saved_only [10]).
#[local] Instance tight_backend : RegAllocBackend Op nat := op_backend plain tight_file.
Definition taken_code : list Op := [OFork 9; OConst 0 1; OIn 1; OOut 0; OOut 1; OTrap; OMark 9; OIn 1; OOut 1; ORet].
Definition taken_mir : Mir Op := mkMir taken_code 2 [Gp; Gp] [].

Lemma eviction_saves_nothing : exists d d' loc, driver_new taken_mir 0 = Some d /\
  assign_registers d = Some d' /\ dr_saved d' = [] /\ is_callee_saved (at_class tight_file Gp) 10 = true /\
  nsteps (lstep (op_exec taken_code) op_recipe taken_code (context_of d')) 4
    (0, fun _ => 0%Z, []) (9, loc, [7%Z]) /\ loc (InReg 10) = 7%Z /\ succ_table taken_code !! 9 = Some [].
Proof.
  eexists _, _, _. split; [vm_compute; reflexivity|]. split; [vm_compute; reflexivity|]. split; [reflexivity|]. split; [reflexivity|].
  assert (branch_successor 9 (build_label_map taken_code) = [6]) as Hfork by (vm_compute; reflexivity).
  split; [|split].
  - eapply nsteps_l; [eapply (lstep_run _ _ _ _ 0 _ [] (OFork 9) [] [] [] 6); [reflexivity|reflexivity|reflexivity|simpl; by rw Hfork|by intros l _]|].
    eapply nsteps_l; [eapply (lstep_run _ _ _ _ 6 _ [] (OMark 9) [] [] [] 7); [reflexivity..|by intros l _]|].
    eapply nsteps_l; [eapply (lstep_run _ _ _ _ 7 _ [] (OIn 1) [] [7%Z] [] 8); [reflexivity..|by intros l _]|].
    eapply nsteps_l; [eapply (lstep_run _ _ _ _ 8 _ [] (OOut 1) [7%Z] [] [7%Z] 9); [reflexivity..|by intros l _]|]. apply nsteps_O.
  - reflexivity.
  - reflexivity.
Qed.
