(* ===== verification/Infer.v ===== *)
(** * Type inference: substitutions, unification, constraint solving

    [crates/rue-air/src/inference/types.rs], [constraint.rs] and [unify.rs]:
    the inference types, the substitution with path compression, the unifier
    with its literal classes, and the constraint solver with its three passes.
    Every operation runs in a state monad over the [Unifier]; [None] is
    recursion that outlives its fuel.  The mapping is mutated behind [&self]
    too (path compression through the [RefCell]), so lookups are monadic. *)

From S2P Require Import Prelude IntegerSemantics Types.
From stdpp Require Import gmap.
Import Machine.

(** ** [types.rs] *)

(** [TypeVarId(u32)], an index. *)
Notation TypeVarId := nat (only parsing).

Inductive InferType :=
| Concrete (ty : Type_)
| Var (id : TypeVarId)
| IntLiteral
| Array (element : InferType) (length : Z).

#[export] Instance InferType_eq_dec : EqDecision InferType.
Proof. solve_decision. Defined.
#[export] Instance Type_countable : Countable Type_.
Proof. by apply (inj_countable' raw_encoding mkType); intros []. Defined.

Definition is_int_literal (ty : InferType) : bool := match ty with IntLiteral => true | _ => false end.

(** ** [constraint.rs] *)

(** The mapping of a [Substitution]. *)
Definition Substitution : Type := list (option InferType).

(** [get]: no entry beyond the end. *)
Definition get (m : Substitution) (var : TypeVarId) : option InferType := mjoin (m !! var).

Definition insert_var (var : TypeVarId) (ty : InferType) (m : Substitution) : Substitution :=
  let m := if length m <=? var then m ++ replicate (S var - length m) None else m in
  <[var := Some ty]> m.

(** Fuel: a bound on the depth of a type and of everything bound. *)
Fixpoint ty_size (ty : InferType) : nat := match ty with Array element _ => S (ty_size element) | _ => 1 end.
Definition entry_size (e : option InferType) : nat := match e with Some ty => S (ty_size ty) | None => 0 end.
Definition depth_bound (m : Substitution) (ty : InferType) : nat := S (ty_size ty + sum_list (entry_size <$> m)).

(** [apply] and [apply_var], with path compression. *)
Fixpoint apply_fuel (fuel : nat) (m : Substitution) (ty : InferType) : option (InferType * Substitution) :=
  match fuel with
  | O => None
  | S fuel =>
      match ty with
      | Concrete _ | IntLiteral => Some (ty, m)
      | Array element length =>
          '(resolved_element, m) ← apply_fuel fuel m element;
          Some (Array resolved_element length, m)
      | Var id =>
          match get m id with
          | None => Some (Var id, m)
          | Some resolved =>
              '(final_type, m) ← apply_fuel fuel m resolved;
              Some (final_type, if decide (final_type = resolved) then m else <[id := Some final_type]> m)
          end
      end
  end.

Fixpoint occurs_fuel (fuel : nat) (m : Substitution) (var : TypeVarId) (ty : InferType) : option bool :=
  match fuel with
  | O => None
  | S fuel =>
      match ty with
      | Concrete _ | IntLiteral => Some false
      | Array element _ => occurs_fuel fuel m var element
      | Var id =>
          if id =? var then Some true else
          match get m id with
          | Some resolved => occurs_fuel fuel m var resolved
          | None => Some false
          end
      end
  end.

(** ** [unify.rs]: results and state *)

Inductive UnifyResult :=
| UOk
| TypeMismatch (expected found : InferType)
| IntLiteralNonInteger (found : InferType)
| StringLiteralNonString (found : InferType)
| StringLiteralMismatch (expected : InferType)
| OccursCheck (var : TypeVarId) (ty : InferType)
| NotSigned (ty : Type_)
| NotInteger (ty : InferType)
| NotUnsigned (ty : InferType)
| ArrayLengthMismatch (expected found : Z)
| PeerArrayMismatch (expected found : InferType) (string_literals : list TypeVarId).

Definition result_is_ok (r : UnifyResult) : bool := match r with UOk => true | _ => false end.

Inductive VarSide := Found | Expected.
Definition opposite (side : VarSide) : VarSide := match side with Found => Expected | Expected => Found end.

(** Spans are carried along and field names are passed on to the caller's
    lookup; neither is inspected. *)
Section Inference.
Context {Span Spur : Type}.

Record UnificationError := mkError { kind : UnifyResult; error_span : Span }.

Record Unifier := mkUnifier {
  substitution : Substitution;
  int_literal_vars : gset TypeVarId;
  float_literal_vars : gset TypeVarId;
  string_literal_vars : gset TypeVarId;
  string_literal_types : gset Type_;
  pending_literal_joins : list (TypeVarId * VarSide);
  literal_joins : list (TypeVarId * VarSide * Span);
  recover_failures : bool;
}.

Definition unifier_new : Unifier := mkUnifier [] ∅ ∅ ∅ ∅ [] [] true.
Definition with_capacity (type_var_count : nat) : Unifier :=
  mkUnifier (replicate type_var_count None) ∅ ∅ ∅ ∅ [] [] true.

(** Field updates. *)
Definition set_substitution (m : Substitution) (u : Unifier) : Unifier :=
  mkUnifier m (int_literal_vars u) (float_literal_vars u) (string_literal_vars u) (string_literal_types u)
    (pending_literal_joins u) (literal_joins u) (recover_failures u).
Definition extend_ints (vars : gset TypeVarId) (u : Unifier) : Unifier :=
  mkUnifier (substitution u) (vars ∪ int_literal_vars u) (float_literal_vars u) (string_literal_vars u)
    (string_literal_types u) (pending_literal_joins u) (literal_joins u) (recover_failures u).
Definition extend_floats (vars : gset TypeVarId) (u : Unifier) : Unifier :=
  mkUnifier (substitution u) (int_literal_vars u) (vars ∪ float_literal_vars u) (string_literal_vars u)
    (string_literal_types u) (pending_literal_joins u) (literal_joins u) (recover_failures u).
Definition extend_strings (vars : gset TypeVarId) (types : gset Type_) (u : Unifier) : Unifier :=
  mkUnifier (substitution u) (int_literal_vars u) (float_literal_vars u) (vars ∪ string_literal_vars u)
    (types ∪ string_literal_types u) (pending_literal_joins u) (literal_joins u) (recover_failures u).
Definition set_joins (pending : list (TypeVarId * VarSide)) (joins : list (TypeVarId * VarSide * Span)) (u : Unifier) : Unifier :=
  mkUnifier (substitution u) (int_literal_vars u) (float_literal_vars u) (string_literal_vars u)
    (string_literal_types u) pending joins (recover_failures u).

Definition without_failure_recovery (u : Unifier) : Unifier :=
  mkUnifier (substitution u) (int_literal_vars u) (float_literal_vars u) (string_literal_vars u)
    (string_literal_types u) (pending_literal_joins u) (literal_joins u) false.
Definition mark_int_literal_vars (vars : list TypeVarId) : Unifier -> Unifier := extend_ints (list_to_set vars).
Definition mark_float_literal_vars (vars : list TypeVarId) : Unifier -> Unifier := extend_floats (list_to_set vars).
Definition mark_string_literal_vars (vars : list TypeVarId) (types : list Type_) : Unifier -> Unifier :=
  extend_strings (list_to_set vars) (list_to_set types).

(** The state monad. *)
Definition inferM (A : Type) : Type := Unifier -> option (A * Unifier).
#[global] Instance inferM_ret : MRet inferM := fun A a u => Some (a, u).
#[global] Instance inferM_bind : MBind inferM := fun A B f m u => '(a, u) ← m u; f a u.
Definition gets {A} (f : Unifier -> A) : inferM A := fun u => Some (f u, u).
Definition modify (f : Unifier -> Unifier) : inferM unit := fun u => Some (tt, f u).

(** Out of fuel, and [unreachable!()]. *)
Definition diverged {A} : inferM A := fun _ => None.
Definition unreachable {A} : inferM A := fun _ => None.

Definition apply (ty : InferType) : inferM InferType := fun u =>
  '(t, m) ← apply_fuel (depth_bound (substitution u) ty) (substitution u) ty;
  Some (t, set_substitution m u).
Definition occurs_in (var : TypeVarId) (ty : InferType) : inferM bool := fun u =>
  b ← occurs_fuel (depth_bound (substitution u) ty) (substitution u) var ty; Some (b, u).
Definition insert (var : TypeVarId) (ty : InferType) : inferM unit :=
  modify (fun u => set_substitution (insert_var var ty (substitution u)) u).

(** ** Binding a variable *)

Fixpoint render_for_error (u : Unifier) (ty : InferType) : InferType :=
  match ty with
  | Var v =>
      if decide (v ∈ int_literal_vars u) then IntLiteral
      else if decide (v ∈ float_literal_vars u) then Concrete TCOMPTIME_FLOAT
      else ty
  | Array element length => Array (render_for_error u element) length
  | _ => ty
  end.

Definition int_literal_mismatch (other : InferType) (literal_side : VarSide) : UnifyResult :=
  match literal_side with Found => TypeMismatch other IntLiteral | Expected => IntLiteralNonInteger other end.
Definition float_literal_mismatch (other : InferType) (literal_side : VarSide) : UnifyResult :=
  let literal := Concrete TCOMPTIME_FLOAT in
  match literal_side with Found => TypeMismatch other literal | Expected => TypeMismatch literal other end.
Definition string_literal_mismatch (other : InferType) (literal_side : VarSide) : UnifyResult :=
  match literal_side with Found => StringLiteralMismatch other | Expected => StringLiteralNonString other end.

Definition note_literal_join (var other : TypeVarId) (side : VarSide) : inferM unit :=
  modify (fun u =>
    let push int_side := set_joins (pending_literal_joins u ++ [(other, int_side)]) (literal_joins u) u in
    match bool_decide (var ∈ int_literal_vars u), bool_decide (var ∈ float_literal_vars u),
          bool_decide (other ∈ int_literal_vars u), bool_decide (other ∈ float_literal_vars u) with
    | true, false, false, true => push side
    | false, true, true, false => push (opposite side)
    | _, _, _, _ => u
    end).

Definition attribute_literal_joins (span : Span) : inferM unit :=
  modify (fun u => set_joins []
    (literal_joins u ++ ((fun '(rep, side) => (rep, side, span)) <$> pending_literal_joins u)) u).

(** The three literal rules of [bind]; [Some r] is an early return. *)
Definition bind_int_literal (var : TypeVarId) (ty : InferType) (side : VarSide) : inferM (option UnifyResult) :=
  u ← gets id;
  if decide (var ∈ int_literal_vars u) then
    match ty with
    | Var other => modify (extend_ints {[other]});; mret None
    | Concrete t =>
        mret (if is_error t then Some UOk
              else if negb (is_integer t) && negb (is_never t) then Some (int_literal_mismatch ty side)
              else None)
    | Array _ _ => mret (Some (int_literal_mismatch (render_for_error u ty) side))
    | IntLiteral => mret None
    end
  else mret None.

Definition bind_float_literal (var : TypeVarId) (ty : InferType) (side : VarSide) : inferM (option UnifyResult) :=
  u ← gets id;
  if decide (var ∈ float_literal_vars u) then
    match ty with
    | Var other => modify (extend_floats {[other]});; mret None
    | Concrete t =>
        mret (if is_float t || bool_decide (t = TCOMPTIME_FLOAT) || is_error t || is_never t then None
              else Some (float_literal_mismatch (render_for_error u ty) side))
    | IntLiteral | Array _ _ => mret (Some (float_literal_mismatch (render_for_error u ty) side))
    end
  else
    match ty with
    | Var other => if decide (other ∈ float_literal_vars u) then modify (extend_floats {[var]});; mret None else mret None
    | _ => mret None
    end.

Definition bind_string_literal (var : TypeVarId) (ty : InferType) (side : VarSide) : inferM (option UnifyResult) :=
  u ← gets id;
  if decide (var ∈ string_literal_vars u) then
    match ty with
    | Var other =>
        if decide (other ∈ int_literal_vars u) then mret (Some (string_literal_mismatch IntLiteral side))
        else modify (extend_strings {[other]} ∅);; mret None
    | Concrete t =>
        mret (if is_error t then Some UOk
              else if decide (t ∈ string_literal_types u) then None
              else Some (string_literal_mismatch (Concrete t) side))
    | IntLiteral => mret (Some (string_literal_mismatch IntLiteral side))
    | Array _ _ => mret (Some (string_literal_mismatch (render_for_error u ty) side))
    end
  else
    match ty with
    | Var other =>
        if decide (other ∈ string_literal_vars u) then
          if decide (var ∈ int_literal_vars u) then mret (Some (string_literal_mismatch IntLiteral (opposite side)))
          else modify (extend_strings {[var]} ∅);; mret None
        else mret None
    | _ => mret None
    end.

Definition or_return (rule : inferM (option UnifyResult)) (rest : inferM UnifyResult) : inferM UnifyResult :=
  r ← rule; match r with Some result => mret result | None => rest end.

Definition bind (var : TypeVarId) (ty : InferType) (side : VarSide) : inferM UnifyResult :=
  if decide (ty = Var var) then mret UOk else
  occurs ← occurs_in var ty;
  if occurs : bool then mret (OccursCheck var ty) else
  match ty with Var other => note_literal_join var other side | _ => mret tt end;;
  or_return (bind_int_literal var ty side)
    (or_return (bind_float_literal var ty side)
      (or_return (bind_string_literal var ty side)
        (insert var ty;; mret UOk))).

(** ** Unification *)

(** [if let InferType::Var(var) = original]: the representative to rebind. *)
Definition rebind_int_literal_to_concrete (original : InferType) (concrete_ty : Type_) : inferM unit :=
  match original with
  | Var var =>
      resolved ← apply original;
      u ← gets id;
      match resolved with
      | Var rep =>
          if decide (var ∈ int_literal_vars u \/ rep ∈ int_literal_vars u)
          then insert rep (Concrete concrete_ty) else mret tt
      | IntLiteral =>
          if decide (var ∈ int_literal_vars u \/ get (substitution u) var = Some IntLiteral)
          then insert var (Concrete concrete_ty) else mret tt
      | Concrete _ | Array _ _ => mret tt
      end
  | _ => mret tt
  end.

Section Equality.
Variable concrete_types_equal : Type_ -> Type_ -> bool.

Fixpoint unify_fuel (fuel : nat) (lhs rhs : InferType) : inferM UnifyResult :=
  match fuel with
  | O => diverged
  | S fuel =>
      lhs_resolved ← apply lhs;
      rhs_resolved ← apply rhs;
      u ← gets id;
      let mismatch := TypeMismatch (render_for_error u rhs_resolved) (render_for_error u lhs_resolved) in
      match lhs_resolved, rhs_resolved with
      | Concrete t1, Concrete t2 =>
          mret (if concrete_types_equal t1 t2 || can_coerce_to t1 t2 || can_coerce_to t2 t1 then UOk
                else TypeMismatch rhs_resolved lhs_resolved)
      | Var var, _ => bind var rhs_resolved Found
      | _, Var var => bind var lhs_resolved Expected
      | IntLiteral, Concrete ty | Concrete ty, IntLiteral =>
          if is_integer ty then
            rebind_int_literal_to_concrete lhs ty;; rebind_int_literal_to_concrete rhs ty;; mret UOk
          else if is_error ty then mret UOk
          else mret (int_literal_mismatch (Concrete ty) (if is_int_literal lhs_resolved then Found else Expected))
      | IntLiteral, IntLiteral => mret UOk
      | Array elem1 len1, Array elem2 len2 =>
          if (len1 =? len2)%Z then unify_fuel fuel elem1 elem2 else mret (ArrayLengthMismatch len2 len1)
      | Concrete ty, Array _ _ | Array _ _, Concrete ty =>
          mret (if is_never ty || is_error ty then UOk else mismatch)
      | Array _ _, IntLiteral | IntLiteral, Array _ _ => mret mismatch
      end
  end.

Definition unify_with (lhs rhs : InferType) : inferM UnifyResult :=
  fun u => unify_fuel (S (depth_bound (substitution u) lhs)) lhs rhs u.

Definition is_32_or_64_float (ty : InferType) : option Type_ :=
  match ty with
  | Concrete t => if decide (t = TF32 \/ t = TF64) then Some t else None
  | _ => None
  end.

Fixpoint unify_contextual_fuel (fuel : nat) (lhs rhs : InferType) : inferM UnifyResult :=
  match fuel with
  | O => diverged
  | S fuel =>
      lhs_applied ← apply lhs;
      rhs_applied ← apply rhs;
      u ← gets id;
      let integer_literal :=
        match lhs_applied with
        | IntLiteral => true
        | Var rep =>
            bool_decide (rep ∈ int_literal_vars u) ||
            match lhs with Var var => bool_decide (var ∈ int_literal_vars u) | _ => false end
        | Concrete _ | Array _ _ => false
        end in
      match integer_literal, is_32_or_64_float rhs_applied with
      | true, Some expected => rebind_int_literal_to_concrete lhs expected;; mret UOk
      | _, _ =>
          match lhs_applied, rhs_applied with
          | Array found_element found_length, Array expected_element expected_length =>
              if (found_length =? expected_length)%Z
              then unify_contextual_fuel fuel found_element expected_element
              else mret (ArrayLengthMismatch expected_length found_length)
          | _, _ => unify_with lhs rhs
          end
      end
  end.

Definition unify_contextual (lhs rhs : InferType) : inferM UnifyResult :=
  fun u => unify_contextual_fuel (S (depth_bound (substitution u) lhs)) lhs rhs u.

Fixpoint collect_string_literal_vars (u : Unifier) (ty : InferType) : list TypeVarId :=
  match ty with
  | Var v => if decide (v ∈ string_literal_vars u) then [v] else []
  | Array element _ => collect_string_literal_vars u element
  | _ => []
  end.

Definition peer_is_never (ty : InferType) : bool := match ty with Concrete t => is_never t | _ => false end.
Definition peer_is_literal (u : Unifier) (ty : InferType) : bool :=
  match ty with
  | IntLiteral => true
  | Var var => bool_decide (var ∈ int_literal_vars u) || bool_decide (var ∈ string_literal_vars u)
  | Concrete _ | Array _ _ => false
  end.

Fixpoint array_pairs_literal_with_never (u : Unifier) (lhs rhs : InferType) : bool :=
  match lhs, rhs with
  | Array lhs_element lhs_length, Array rhs_element rhs_length =>
      if negb (lhs_length =? rhs_length)%Z then false else
      (peer_is_never lhs_element && peer_is_literal u rhs_element)
      || (peer_is_literal u lhs_element && peer_is_never rhs_element)
      || array_pairs_literal_with_never u lhs_element rhs_element
  | _, _ => false
  end.

Definition unify_peer (lhs rhs : InferType) : inferM UnifyResult :=
  lhs_applied ← apply lhs;
  rhs_applied ← apply rhs;
  u ← gets id;
  if array_pairs_literal_with_never u lhs_applied rhs_applied then
    let expected := render_for_error u rhs_applied in
    let found := render_for_error u lhs_applied in
    mret (PeerArrayMismatch expected found
      (collect_string_literal_vars u expected ++ collect_string_literal_vars u found))
  else unify_with lhs rhs.
End Equality.

(** ** Predicates *)

Definition check_signed (ty : InferType) : inferM UnifyResult :=
  ty ← apply ty;
  mret match ty with
  | Concrete concrete =>
      if ty_is_signed concrete || is_float concrete || is_error concrete || is_never concrete then UOk
      else if ty_is_unsigned concrete then NotSigned concrete
      else UOk
  | Var _ | IntLiteral | Array _ _ => UOk
  end.

Definition check_integer (ty : InferType) : inferM UnifyResult :=
  ty ← apply ty;
  u ← gets id;
  mret match ty with
  | Concrete concrete =>
      if is_integer concrete || is_error concrete || is_never concrete then UOk else NotInteger ty
  | Var _ | IntLiteral => UOk
  | Array _ _ => NotInteger (render_for_error u ty)
  end.

Definition check_numeric (ty : InferType) : inferM UnifyResult :=
  ty ← apply ty;
  u ← gets id;
  mret match ty with
  | Concrete t =>
      if is_integer t || is_float t || is_error t || is_never t then UOk else NotInteger ty
  | Var _ | IntLiteral => UOk
  | Array _ _ => NotInteger (render_for_error u ty)
  end.

Definition check_unsigned (ty : InferType) : inferM UnifyResult :=
  ty ← apply ty;
  u ← gets id;
  mret match ty with
  | Concrete concrete =>
      if ty_is_unsigned concrete || is_error concrete || is_never concrete then UOk else NotUnsigned ty
  | Var _ | IntLiteral => UOk
  | Array _ _ => NotUnsigned (render_for_error u ty)
  end.

(** ** The solver *)

Inductive Constraint :=
| Equal (lhs rhs : InferType) (span : Span)
| ContextualEqual (lhs rhs : InferType) (span : Span)
| PeerEqual (lhs rhs : InferType) (span : Span)
| FieldGet (base : InferType) (field : Spur) (result : InferType) (span : Span)
| FieldSet (base : InferType) (field : Spur) (value : InferType) (span : Span)
| IndexGet (base result : InferType) (span : Span)
| IndexSet (base value : InferType) (span : Span)
| IsSigned (ty : InferType) (span : Span)
| IsInteger (ty : InferType) (span : Span)
| IsNumeric (ty : InferType) (span : Span)
| IsUnsigned (ty : InferType) (span : Span).

Definition constraint_span (c : Constraint) : Span :=
  match c with
  | Equal _ _ span | ContextualEqual _ _ span | PeerEqual _ _ span
  | FieldGet _ _ _ span | FieldSet _ _ _ span | IndexGet _ _ span | IndexSet _ _ span
  | IsSigned _ span | IsInteger _ span | IsNumeric _ span | IsUnsigned _ span => span
  end.

Definition recover_from_error (lhs rhs : InferType) : inferM unit :=
  u ← gets id;
  if negb (recover_failures u) then mret tt else
  lhs_applied ← apply lhs;
  rhs_applied ← apply rhs;
  match lhs_applied with Var var => insert var (Concrete TERROR) | _ => mret tt end;;
  match rhs_applied with Var var => insert var (Concrete TERROR) | _ => mret tt end.

Fixpoint register_string_context_types (is_string_context_type : InferType -> bool) (ty : InferType) : Unifier -> Unifier :=
  match ty with
  | Concrete concrete => if is_string_context_type ty then extend_strings ∅ {[concrete]} else id
  | Array element _ => register_string_context_types is_string_context_type element
  | _ => id
  end.

(** A fold in the monad. *)
Fixpoint fold_infer {S A} (f : S -> A -> inferM S) (s : S) (l : list A) : inferM S :=
  match l with
  | [] => mret s
  | a :: l => s ← f s a; fold_infer f s l
  end.

(** The shared tail of every equation: attribute the joins, then recover and
    report. *)
Definition solve_equation (unify : inferM UnifyResult) (lhs rhs : InferType) (span : Span)
    (errors : list UnificationError) : inferM (list UnificationError) :=
  result ← unify;
  attribute_literal_joins span;;
  if negb (result_is_ok result) then
    recover_from_error lhs rhs;; mret (errors ++ [mkError result span])
  else mret errors.

Section Solve.
Variable concrete_types_equal : Type_ -> Type_ -> bool.
Variable field_type : InferType -> Spur -> option InferType.
Variable index_element_type : InferType -> option InferType.
Variable is_string_context_type : InferType -> bool.

Record first_state := mkFirst {
  errors : list UnificationError;
  projections : list Constraint;
  predicates : list Constraint;
}.

Definition is_array (ty : InferType) : bool := match ty with Array _ _ => true | _ => false end.

(** The guarded arm of the integer, numeric and unsigned checks: an array is
    reported in constraint order, anything else waits. *)
Definition check_now_or_later (st : first_state) (c : Constraint) (ty : InferType) (span : Span)
    (check : inferM UnifyResult) : inferM first_state :=
  applied ← apply ty;
  if is_array applied then
    result ← check; mret (mkFirst (errors st ++ [mkError result span]) (projections st) (predicates st))
  else mret (mkFirst (errors st) (projections st) (predicates st ++ [c])).

Definition first_pass (st : first_state) (c : Constraint) : inferM first_state :=
  match c with
  | FieldGet _ _ _ _ | FieldSet _ _ _ _ | IndexGet _ _ _ | IndexSet _ _ _ =>
      mret (mkFirst (errors st) (projections st ++ [c]) (predicates st))
  | Equal lhs rhs span =>
      errs ← solve_equation (unify_with concrete_types_equal lhs rhs) lhs rhs span (errors st);
      mret (mkFirst errs (projections st) (predicates st))
  | PeerEqual lhs rhs span =>
      errs ← solve_equation (unify_peer concrete_types_equal lhs rhs) lhs rhs span (errors st);
      mret (mkFirst errs (projections st) (predicates st))
  | ContextualEqual lhs rhs span =>
      errs ← solve_equation (unify_contextual concrete_types_equal lhs rhs) lhs rhs span (errors st);
      mret (mkFirst errs (projections st) (predicates st))
  | IsInteger ty span => check_now_or_later st c ty span (check_integer ty)
  | IsNumeric ty span => check_now_or_later st c ty span (check_numeric ty)
  | IsUnsigned ty span => check_now_or_later st c ty span (check_unsigned ty)
  | IsSigned _ _ => mret (mkFirst (errors st) (projections st) (predicates st ++ [c]))
  end.

Record round_state := mkRound { round_errors : list UnificationError; next : list Constraint; progress : bool }.

(** [field_type(&self.substitution.apply(base), *field)] and its indexed
    counterpart; no other constraint is a projection. *)
Definition projected_type (c : Constraint) : inferM (option InferType) :=
  match c with
  | FieldGet base field _ _ | FieldSet base field _ _ => base ← apply base; mret (field_type base field)
  | IndexGet base _ _ | IndexSet base _ _ => base ← apply base; mret (index_element_type base)
  | _ => unreachable
  end.

Definition projection_step (st : round_state) (c : Constraint) : inferM round_state :=
  projected ← projected_type c;
  match projected with
  | None => mret (mkRound (round_errors st) (next st ++ [c]) (progress st))
  | Some ty =>
      modify (register_string_context_types is_string_context_type ty);;
      errs ← match c with
             | FieldGet _ _ result span | IndexGet _ result span =>
                 solve_equation (unify_with concrete_types_equal ty result) ty result span (round_errors st)
             | FieldSet _ _ value span | IndexSet _ value span =>
                 solve_equation (unify_contextual concrete_types_equal value ty) value ty span (round_errors st)
             | _ => unreachable
             end;
      mret (mkRound errs (next st) true)
  end.

Fixpoint projection_loop (fuel : nat) (pending : list Constraint) (errs : list UnificationError) : inferM (list UnificationError) :=
  match fuel with
  | O => diverged
  | S fuel =>
      st ← fold_infer projection_step (mkRound errs [] false) pending;
      match progress st, next st with
      | false, _ | _, [] => mret (round_errors st)
      | true, pending => projection_loop fuel pending (round_errors st)
      end
  end.

Definition predicate_step (errs : list UnificationError) (c : Constraint) : inferM (list UnificationError) :=
  result ← match c with
           | IsSigned ty _ => check_signed ty
           | IsInteger ty _ => check_integer ty
           | IsNumeric ty _ => check_numeric ty
           | IsUnsigned ty _ =>
               applied ← apply ty;
               match applied, ty with
               | IntLiteral, Var var => insert var (Concrete TU64)
               | Var var, _ => insert var (Concrete TU64)
               | _, _ => mret tt
               end;;
               check_unsigned ty
           | _ => unreachable
           end;
  mret (if result_is_ok result then errs else errs ++ [mkError result (constraint_span c)]).

Definition solve_constraints_with_projections (constraints : list Constraint) : inferM (list UnificationError) :=
  st ← fold_infer first_pass (mkFirst [] [] []) constraints;
  errs ← projection_loop (S (length (projections st))) (projections st) (errors st);
  fold_infer predicate_step errs (predicates st).
End Solve.

Definition solve_constraints_with (concrete_types_equal : Type_ -> Type_ -> bool) : list Constraint -> inferM (list UnificationError) :=
  solve_constraints_with_projections concrete_types_equal (fun _ _ => None) (fun _ => None) (fun _ => false).
Definition solve_constraints : list Constraint -> inferM (list UnificationError) :=
  solve_constraints_with (fun left right => bool_decide (left = right)).
Definition unify : InferType -> InferType -> inferM UnifyResult := unify_with (fun left right => bool_decide (left = right)).

(** ** After solving *)

(** One variable of [default_int_literal_vars] and
    [default_unconstrained_vars]. *)
Definition default_var (default : Type_) (_ : unit) (var : TypeVarId) : inferM unit :=
  resolved ← apply (Var var);
  match resolved with Var rep => insert rep (Concrete default) | _ => mret tt end.
Definition default_int_literal_vars (vars : list TypeVarId) : inferM unit := fold_infer (default_var TI32) tt vars.
Definition default_unconstrained_vars (vars : list TypeVarId) (default : Type_) : inferM unit :=
  fold_infer (default_var default) tt vars.

(** The first join of each class that is still unbound. *)
Definition note_unresolved (joins : gmap TypeVarId UnificationError) (j : TypeVarId * VarSide * Span) :
    inferM (gmap TypeVarId UnificationError) :=
  let '(rep, int_side, span) := j in
  resolved ← apply (Var rep);
  mret match resolved with
  | Var class =>
      match joins !! class with
      | Some _ => joins
      | None => <[class := mkError (int_literal_mismatch (Concrete TCOMPTIME_FLOAT) int_side) span]> joins
      end
  | _ => joins
  end.
Definition unresolved_literal_joins : inferM (gmap TypeVarId UnificationError) :=
  u ← gets id; fold_infer note_unresolved ∅ (literal_joins u).

Fixpoint resolve_fuel (fuel : nat) (ty : InferType) : inferM InferType :=
  match fuel with
  | O => diverged
  | S fuel =>
      resolved ← apply ty;
      match resolved with
      | Concrete _ | Var _ => mret resolved
      | IntLiteral => mret (Concrete TI32)
      | Array element length => element ← resolve_fuel fuel element; mret (Array element length)
      end
  end.
Definition resolve_infer_type (ty : InferType) : inferM InferType :=
  fun u => resolve_fuel (S (depth_bound (substitution u) ty)) ty u.
Definition resolve (ty : InferType) : inferM (option Type_) :=
  resolved ← resolve_infer_type ty;
  mret match resolved with
  | Concrete t => Some t
  | IntLiteral => Some TI32
  | Var _ | Array _ _ => None
  end.
Definition resolve_or_error (ty : InferType) : inferM Type_ := t ← resolve ty; mret (default TERROR t).
End Inference.
