(* ===== verification/InferSubst.v ===== *)
(** * Type inference: what a substitution means

    The resolution relation of a substitution, acyclicity, and the operations
    of [Infer]: [apply] computes the resolution within its fuel and its path
    compression changes nothing, the occurs check is exact on resolved types,
    and binding a fresh variable refines every resolution. *)

From stdpp Require Import gmap.
From S2P Require Import Prelude IntegerSemantics Types Infer.

(** ** Resolution *)

(** An [InferType] has at most one variable, at its leaf. *)
Fixpoint ty_var (ty : InferType) : option nat :=
  match ty with Var v => Some v | Array e _ => ty_var e | _ => None end.
Fixpoint lit_free (ty : InferType) : bool :=
  match ty with IntLiteral => false | Array e _ => lit_free e | _ => true end.

(** [resolves m ty t]: following every binding of [m] in [ty] ends in [t]. *)
Inductive resolves (m : Substitution) : InferType -> InferType -> Prop :=
| res_concrete c : resolves m (Concrete c) (Concrete c)
| res_literal : resolves m IntLiteral IntLiteral
| res_array e e' n : resolves m e e' -> resolves m (Array e n) (Array e' n)
| res_unbound v : get m v = None -> resolves m (Var v) (Var v)
| res_bound v ty t : get m v = Some ty -> resolves m ty t -> resolves m (Var v) t.

(** Every chain of bindings descends. *)
Definition ranked (m : Substitution) (r : nat -> nat) : Prop :=
  forall v ty w, get m v = Some ty -> ty_var ty = Some w -> is_Some (get m w) -> r w < r v.
Definition acyclic (m : Substitution) : Prop := exists r, ranked m r.
Definition wf (m : Substitution) : Prop := acyclic m /\ forall v ty, get m v = Some ty -> lit_free ty = true.

(** No variable of [t] is bound. *)
Definition resolved (m : Substitution) (t : InferType) : Prop := forall v, ty_var t = Some v -> get m v = None.

Lemma resolves_fun m ty t : resolves m ty t -> forall t', resolves m ty t' -> t = t'.
Proof.
  induction 1 as [| |e e' n He IH|v Hv|v ty t Hv Ht IH]; intros t' Ht'; inversion Ht' as [| | |? Hu|? ? ? Hb]; subst; try done.
  - f_equal. by apply IH.
  - congruence.
  - congruence.
  - apply IH. congruence.
Qed.

Lemma resolves_resolved m ty t : resolves m ty t -> resolved m t.
Proof. by induction 1; intros w Hw; simplify_eq/=; eauto. Qed.

Lemma resolved_self m t : resolved m t -> resolves m t t.
Proof.
  induction t as [c|v| |e IH n]; intros Hr; [constructor..|constructor].
  - by apply Hr.
  - apply IH. intros w Hw. by apply Hr.
Qed.

Lemma resolved_fix m t t' : resolved m t -> resolves m t t' -> t' = t.
Proof. intros Hr Ht. eapply resolves_fun; [exact Ht|by apply resolved_self]. Qed.

Lemma resolves_lit_free m ty t : wf m -> resolves m ty t -> lit_free ty = true -> lit_free t = true.
Proof. intros [_ Hm]. induction 1 as [| | | |? ? ? ? ? IH]; simpl; try done. intros _. apply IH. eauto. Qed.

(** ** Two substitutions with the same meaning, and a finer one *)

Definition same (m m' : Substitution) : Prop := forall ty t, resolves m ty t <-> resolves m' ty t.
Definition compresses (m m' : Substitution) : Prop := wf m' /\ same m m'.
Definition refines (m m' : Substitution) : Prop := forall ty t t', resolves m ty t -> resolves m' t t' -> resolves m' ty t'.

#[export] Instance same_equivalence : Equivalence same.
Proof. split; unfold same; [done|by intros m m' H ty t; rewrite H|by intros m m' m'' H H' ty t; rewrite H]. Qed.

Lemma compresses_refl m : wf m -> compresses m m.
Proof. by split. Qed.
Lemma compresses_trans m m' m'' : compresses m m' -> compresses m' m'' -> compresses m m''.
Proof. intros [_ H] [Hw H']. split; [done|by transitivity m']. Qed.

Lemma same_unbound m m' v : same m m' -> get m v = None -> get m' v = None.
Proof. intros Hs Hv. apply (resolves_resolved m' (Var v) (Var v)); [|done]. apply Hs. by constructor. Qed.
Lemma same_resolved m m' t : same m m' -> resolved m t -> resolved m' t.
Proof. intros Hs Hr v Hv. eapply same_unbound; [done|by apply Hr]. Qed.

Lemma same_refines m m' : same m m' -> refines m m'.
Proof. intros Hs ty t t' Ht Ht'. assert (resolved m' t) as Hr by (eapply resolves_resolved, Hs, Ht). apply Hs. by rewrite (resolved_fix _ _ _ Hr Ht'). Qed.
Lemma refines_refl m : refines m m.
Proof. by apply same_refines. Qed.

(** ** Fuel *)

(** The sizes of the bindings below a rank. *)
Definition weight (m : Substitution) (r : nat -> nat) (k : nat) : nat :=
  sum_list (imap (fun v e => if r v <? k then entry_size e else 0) m).

Lemma sum_imap_mono {T} (f g : nat -> T -> nat) l : (forall i x, f i x <= g i x) -> sum_list (imap f l) <= sum_list (imap g l).
Proof.
  revert f g. induction l as [|x l IH]; intros f g Hle; simpl; [done|].
  specialize (IH (f ∘ S) (g ∘ S) (fun i y => Hle (S i) y)). specialize (Hle 0 x). lia.
Qed.

Lemma sum_imap_gap {T} (f g : nat -> T -> nat) l i x d : (forall j y, f j y <= g j y) -> l !! i = Some x -> f i x + d <= g i x ->
  sum_list (imap f l) + d <= sum_list (imap g l).
Proof.
  revert f g i. induction l as [|y l IH]; intros f g i Hle Hi Hd; [done|]. destruct i as [|i]; simpl in *.
  - simplify_eq. pose proof (sum_imap_mono (f ∘ S) (g ∘ S) l (fun j z => Hle (S j) z)). lia.
  - specialize (IH (f ∘ S) (g ∘ S) i (fun j z => Hle (S j) z) Hi Hd). specialize (Hle 0 y). lia.
Qed.

Lemma weight_step m r v ty k : get m v = Some ty -> r v < k -> S (ty_size ty) + weight m r (r v) <= weight m r k.
Proof.
  rw /get. destruct (m !! v) as [[t|]|] eqn:Hv; intros ? Hk; simplify_eq/=.
  change (S (ty_size ty) + weight m r (r v) <= weight m r k). rw Nat.add_comm.
  apply (sum_imap_gap (fun i e => if r i <? r v then entry_size e else 0) _ _ v (Some ty)); [|done|].
  - intros i e. destruct (Nat.ltb_spec (r i) (r v)), (Nat.ltb_spec (r i) k); lia.
  - destruct (Nat.ltb_spec (r v) (r v)), (Nat.ltb_spec (r v) k); simpl; lia.
Qed.

Lemma weight_total m r k : weight m r k <= sum_list (entry_size <$> m).
Proof.
  rw /weight. transitivity (sum_list (imap (fun _ e => entry_size e) m)).
  - apply sum_imap_mono. intros i e. destruct (r i <? k); lia.
  - by rw imap_const.
Qed.

(** ** Path compression *)

Lemma get_compressed m v x t w : get m v = Some x -> get (<[v := Some t]> m) w = if decide (w = v) then Some t else get m w.
Proof.
  rw /get. intros Hv. assert (v < length m) by (destruct (m !! v) eqn:E; [by apply lookup_lt_Some in E|done]).
  destruct (decide (w = v)) as [->|Hne]; [by rw list_lookup_insert_eq|by rw list_lookup_insert_ne].
Qed.

Lemma compress_ok m v x final : wf m -> get m v = Some x -> resolves m (Var v) final -> compresses m (<[v := Some final]> m).
Proof.
  intros [[r Hr] Hlit] Hv Hf. pose proof (resolves_resolved _ _ _ Hf) as Hres.
  pose proof (fun w => get_compressed m v x final w Hv) as Hget. set (m' := <[v := Some final]> m) in *.
  assert (resolved m' final) as Hres'.
  { intros w Hw. rw Hget. destruct (decide (w = v)) as [->|]; [|by apply Hres]. rw (Hres _ Hw) in Hv. done. }
  split; [split|].
  - exists r. intros w ty u. rw !Hget. destruct (decide (w = v)) as [->|].
    + intros [= <-] Hu [z Hz]. exfalso. apply Hres in Hu. destruct (decide (u = v)) as [->|]; congruence.
    + intros Hw Hu Hb. apply (Hr w ty u Hw Hu). destruct (decide (u = v)) as [->|]; eauto.
  - intros w ty. rw Hget. destruct (decide (w = v)) as [->|]; [|apply Hlit]. intros [= <-].
    eapply (resolves_lit_free m (Var v)); [by split; [exists r|]|done|done].
  - intros ty t. split.
    + induction 1 as [| |e e' n He IH|w Hw|w ty t Hw Ht IH]; try by constructor.
      * constructor. rw Hget. destruct (decide (w = v)) as [->|]; congruence.
      * destruct (decide (w = v)) as [->|Hne].
        -- assert (t = final) as -> by (eapply resolves_fun; [|exact Hf]; by econstructor).
           apply (res_bound _ _ final); [rw Hget; by rw decide_True|by apply resolved_self].
        -- apply (res_bound _ _ ty); [rw Hget; by rw decide_False|done].
    + induction 1 as [| |e e' n He IH|w Hw|w ty t Hw Ht IH]; try by constructor.
      * constructor. move: Hw. rw Hget. by destruct (decide (w = v)).
      * move: Hw. rw Hget. destruct (decide (w = v)) as [->|Hne]; intros Hw.
        -- injection Hw as <-. by rw (resolved_fix _ _ _ Hres' Ht).
        -- by econstructor.
Qed.

(** ** [apply] and the occurs check *)

Lemma apply_fuel_ok m r : wf m -> ranked m r -> forall fuel k ty,
  (forall w, ty_var ty = Some w -> is_Some (get m w) -> r w < k) -> ty_size ty + weight m r k < fuel ->
  exists t m', apply_fuel fuel m ty = Some (t, m') /\ resolves m ty t /\ compresses m m'.
Proof.
  intros Hwf Hr. induction fuel as [|fuel IH]; intros k ty Hk Hf; [lia|]. destruct ty as [c|v| |e n]; simpl.
  - exists (Concrete c), m. split_and!; [done|constructor|by apply compresses_refl].
  - destruct (get m v) as [ty|] eqn:Hv.
    + assert (r v < k) as Hlt by (apply Hk; [done|by rw Hv]). pose proof (weight_step m r v ty k Hv Hlt). simpl in Hf.
      destruct (IH (r v) ty) as (t & m' & -> & Ht & Hc); [intros w; by apply Hr|lia|].
      assert (resolves m (Var v) t) as Hvt by by econstructor. eexists t, _. split_and!; [reflexivity|done|].
      destruct (decide (t = ty)) as [|Hne]; [done|]. eapply compresses_trans; [done|]. destruct Hc as [Hw' Hs].
      destruct (get m' v) as [x|] eqn:Hx; [by apply (compress_ok _ _ x); [| |apply Hs]|].
      apply (same_unbound _ _ _ (symmetry Hs)) in Hx. congruence.
    + exists (Var v), m. split_and!; [done|by constructor|by apply compresses_refl].
  - exists IntLiteral, m. split_and!; [done|constructor|by apply compresses_refl].
  - destruct (IH k e) as (t & m' & -> & Ht & Hc); [done|simpl in Hf; lia|]. eexists _, m'. split_and!; [done|by constructor|done].
Qed.

Lemma subst_apply_ok m ty : wf m ->
  exists t m', apply_fuel (depth_bound m ty) m ty = Some (t, m') /\ resolves m ty t /\ compresses m m'.
Proof.
  intros Hwf. pose proof Hwf as [[r Hr] _].
  set (k := S (default 0 (r <$> ty_var ty))). apply (apply_fuel_ok m r) with (k := k); [done..| |].
  - intros w Hw _. subst k. rw Hw /=. lia.
  - pose proof (weight_total m r k). rw /depth_bound. lia.
Qed.

Lemma resolves_total m ty : wf m -> exists t, resolves m ty t.
Proof. intros Hwf. destruct (subst_apply_ok m ty Hwf) as (t & _ & _ & Ht & _). eauto. Qed.

(** The fuel also bounds what a type resolves to. *)
Lemma resolves_size m ty t : wf m -> resolves m ty t -> ty_size t < depth_bound m ty.
Proof.
  intros [[r Hr] _] Ht.
  assert (forall k, (forall w, ty_var ty = Some w -> is_Some (get m w) -> r w < k) -> ty_size t <= ty_size ty + weight m r k) as Hb.
  { induction Ht as [| |e e' n He IH|v Hv|v ty t Hv Ht IH]; intros k Hk; simpl; try lia.
    - specialize (IH k Hk). lia.
    - assert (r v < k) as Hlt by (apply Hk; [done|by rw Hv]). pose proof (weight_step m r v ty k Hv Hlt).
      specialize (IH (r v) (fun w => Hr v ty w Hv)). lia. }
  pose proof (weight_total m r (S (default 0 (r <$> ty_var ty)))) as Hw. rw /depth_bound.
  assert (ty_size t <= ty_size ty + weight m r (S (default 0 (r <$> ty_var ty)))); [|lia]. apply Hb. intros w Hv _. rw Hv /=. lia.
Qed.

Lemma occurs_fuel_ok m var ty fuel : resolved m ty -> ty_size ty < fuel ->
  occurs_fuel fuel m var ty = Some (bool_decide (ty_var ty = Some var)).
Proof.
  revert ty. induction fuel as [|fuel IH]; intros ty Hr Hf; [lia|]. destruct ty as [c|v| |e n]; simpl in *.
  - done.
  - destruct (Nat.eqb_spec v var) as [->|Hne]; [by rw bool_decide_true|].
    rw (Hr v) //. rw bool_decide_false //. congruence.
  - done.
  - apply IH; [done|lia].
Qed.

(** ** Binding *)

Lemma get_insert_var m v t w : get (insert_var v t m) w = if decide (w = v) then Some t else get m w.
Proof.
  rw /insert_var /get. destruct (Nat.leb_spec (length m) v) as [Hle|Hlt].
  - destruct (decide (w = v)) as [->|Hne].
    + rw list_lookup_insert_eq //. rw length_app length_replicate. lia.
    + rw list_lookup_insert_ne //. destruct (decide (w < length m)) as [Hw|Hw]; [by rw lookup_app_l|].
      rw lookup_app_r; [|lia]. rw (lookup_ge_None_2 m w); [|lia].
      destruct (replicate _ None !! (w - length m)) as [x|] eqn:Hx; [|done]. by apply lookup_replicate in Hx as [-> _].
  - destruct (decide (w = v)) as [->|Hne]; [by rw list_lookup_insert_eq|by rw list_lookup_insert_ne].
Qed.

Lemma insert_wf m v t : wf m -> lit_free t = true -> resolved m t -> ty_var t <> Some v -> wf (insert_var v t m).
Proof.
  intros [[r Hr] Hl] Hlt Hres Hne. split.
  - exists (fun w => if decide (w = v) then 0 else S (r w)). intros w ty u. rw !get_insert_var. destruct (decide (w = v)) as [->|Hwv].
    + intros [= <-] Hu. rw decide_False; [|congruence]. rw (Hres _ Hu). by intros [? ?].
    + intros Hw Hu. destruct (decide (u = v)) as [->|Huv]; [lia|]. intros Hb. by apply Nat.lt_succ_r, (Hr w ty u).
  - intros w ty. rw get_insert_var. destruct (decide (w = v)) as [->|]; [congruence|apply Hl].
Qed.

Lemma insert_refines m v t : get m v = None -> refines m (insert_var v t m).
Proof.
  intros Hv ty s s' Hs. revert s'. induction Hs as [| |e e' n He IH|w Hw|w ty s Hw Hs IH]; intros s' Hs'; try done.
  - inversion Hs'; subst. constructor. auto.
  - apply (res_bound _ _ ty); [|by apply IH]. rw get_insert_var decide_False //. congruence.
Qed.

Lemma insert_resolves m v t : resolved m t -> ty_var t <> Some v -> resolves (insert_var v t m) (Var v) t.
Proof.
  intros Hr Hne. apply (res_bound _ _ t); [by rw get_insert_var decide_True|]. apply resolved_self.
  intros w Hw. rw get_insert_var decide_False; [by apply Hr|congruence].
Qed.

Lemma refines_trans m m' m'' : wf m' -> wf m'' -> refines m m' -> refines m' m'' -> refines m m''.
Proof.
  intros Hw' Hw'' H1 H2 ty t t'' Ht Ht''. destruct (resolves_total m' t Hw') as [t' Ht'].
  destruct (resolves_total m'' t' Hw'') as [s Hs]. assert (s = t'') as -> by (eapply resolves_fun; [|exact Ht'']; eauto).
  apply (H2 _ t'); [|done]. eauto.
Qed.
