(* ===== verification/InferUnify.v ===== *)
(** * Type inference: unification

    A weakest-precondition calculus for the state monad of [Infer], the
    relation [step] every operation establishes between unifier states, and
    the specification of [unify_with], [unify_contextual] and [unify_peer]:
    they end, refine the substitution, accept only compatible types, and accept
    every equation that has a solution. *)

From stdpp Require Import gmap.
From S2P Require Import Prelude IntegerSemantics Types Infer InferSubst.

#[local] Arguments is_integer : simpl never.
#[local] Arguments is_float : simpl never.
#[local] Arguments is_never : simpl never.
#[local] Arguments is_error : simpl never.

(** ** Types that an equation may relate *)

(** Equal up to the concrete equality in use; [!] and the recovery type meet
    anything, at the top and inside arrays. *)
Inductive compatible (equal : Type_ -> Type_ -> bool) : InferType -> InferType -> Prop :=
| compat_refl t : compatible equal t t
| compat_equal a b : equal a b = true -> compatible equal (Concrete a) (Concrete b)
| compat_bottom_l a t : is_never a || is_error a = true -> compatible equal (Concrete a) t
| compat_bottom_r t b : is_never b || is_error b = true -> compatible equal t (Concrete b)
| compat_array s t n : compatible equal s t -> compatible equal (Array s n) (Array t n).

(** What both sides resolve to is compatible. *)
Definition equated (equal : Type_ -> Type_ -> bool) (m : Substitution) (lhs rhs : InferType) : Prop :=
  exists s t, resolves m lhs s /\ resolves m rhs t /\ compatible equal s t.

Lemma compatible_resolves equal m s t : compatible equal s t -> forall s' t',
  resolves m s s' -> resolves m t t' -> compatible equal s' t'.
Proof.
  induction 1 as [t|a b Hab|a t Ha|t b Hb|s t n Hst IH]; intros s' t' Hs Ht.
  - rewrite (resolves_fun _ _ _ Hs _ Ht). constructor.
  - inversion Hs; inversion Ht; subst. by constructor.
  - inversion Hs; subst. by apply compat_bottom_l.
  - inversion Ht; subst. by apply compat_bottom_r.
  - inversion Hs; inversion Ht; subst. constructor. by apply IH.
Qed.

Lemma equated_refines equal m m' l r : wf m' -> refines m m' -> equated equal m l r -> equated equal m' l r.
Proof.
  intros Hw Href (s & t & Hs & Ht & Hc). destruct (resolves_total m' s Hw) as [s' Hs'], (resolves_total m' t Hw) as [t' Ht'].
  exists s', t'. split_and!; [by eapply Href..|by eapply compatible_resolves].
Qed.

(** ** Solutions *)

(** A typing of the variables. *)
Fixpoint inst (θ : nat -> InferType) (ty : InferType) : InferType :=
  match ty with Var v => θ v | Array e n => Array (inst θ e) n | _ => ty end.

Definition models (θ : nat -> InferType) (m : Substitution) : Prop :=
  forall ty t, resolves m ty t -> inst θ ty = inst θ t.

Lemma models_insert θ m v t : wf m -> models θ m -> θ v = inst θ t -> models θ (insert_var v t m).
Proof.
  intros Hw Hm Hv ty s Hs. induction Hs as [| |e e' n He IH|w Hw'|w ty s Hw' Hs IH]; simpl; try done; [by rw IH|].
  rewrite get_insert_var in Hw'. destruct (decide (w = v)) as [->|Hne]; [injection Hw' as <-; by rw Hv IH|].
  destruct (resolves_total m ty Hw) as [x Hx]. rewrite -IH (Hm _ _ Hx). apply (Hm (Var w)). by econstructor.
Qed.

Lemma ty_size_inst θ v t : ty_var t = Some v -> t <> Var v -> ty_size (θ v) < ty_size (inst θ t).
Proof.
  induction t as [c|w| |e IH n]; simpl; try done.
  { intros [= ->] Hne. congruence. }
  intros Hv _.
  destruct (decide (e = Var v)) as [->|Hne]; simpl; [lia|]. specialize (IH Hv Hne). lia.
Qed.

Section Unify.
Context {Span Spur : Type}.
Notation Unifier := (@Unifier Span).
Notation inferM := (@inferM Span).
Implicit Types (u : Unifier).

(** ** Running the monad *)

Definition wp {A} (m : inferM A) (Q : A -> Unifier -> Prop) u : Prop := exists a u', m u = Some (a, u') /\ Q a u'.

Lemma wp_ret {A} (a : A) (Q : A -> Unifier -> Prop) u : Q a u -> wp (mret a) Q u.
Proof. intros H. by exists a, u. Qed.
Lemma wp_bind {A B} (m : inferM A) (f : A -> inferM B) Q u : wp m (fun a => wp (f a) Q) u -> wp (m ≫= f) Q u.
Proof.
  intros (a & u' & Hm & b & u'' & Hf & Hq). exists b, u''. split; [|done]. rw /mbind /inferM_bind Hm. exact Hf.
Qed.
Lemma wp_gets {A} (f : Unifier -> A) (Q : A -> Unifier -> Prop) u : Q (f u) u -> wp (gets f) Q u.
Proof. intros H. by exists (f u), u. Qed.
Lemma wp_modify f (Q : unit -> Unifier -> Prop) u : Q tt (f u) -> wp (modify f) Q u.
Proof. intros H. by exists tt, (f u). Qed.
Lemma wp_mono {A} (m : inferM A) (Q Q' : A -> Unifier -> Prop) u : wp m Q u -> (forall a u', Q a u' -> Q' a u') -> wp m Q' u.
Proof. intros (a & u' & Hm & Hq) H. exists a, u'. auto. Qed.

(** ** States *)

Notation mapping := (@substitution Span).

(** What the variable of an integer literal may stand for. *)
Definition int_like (ints : gset nat) (t : InferType) : Prop :=
  match t with
  | Var v => v ∈ ints
  | Concrete c => is_integer c || is_float c || is_never c || is_error c = true
  | IntLiteral | Array _ _ => False
  end.
Definition literals_ok u : Prop :=
  forall v t, v ∈ int_literal_vars u -> resolves (mapping u) (Var v) t -> int_like (int_literal_vars u) t.

Record step u u' : Prop := {
  step_wf : wf (mapping u');
  step_refines : refines (mapping u) (mapping u');
  step_ints : int_literal_vars u ⊆ int_literal_vars u';
  step_literals : literals_ok u -> literals_ok u';
  step_recover : recover_failures u' = recover_failures u;
}.

Lemma step_refl u : wf (mapping u) -> step u u.
Proof. intros Hw. split; [done|apply refines_refl|done..]. Qed.
Lemma step_trans u u' u'' : step u u' -> step u' u'' -> step u u''.
Proof.
  intros [H1 H2 H3 H4 H5] [K1 K2 K3 K4 K5]. split; [done|exact (refines_trans _ _ _ H1 K1 H2 K2)|set_solver|auto|congruence].
Qed.

Lemma int_like_mono (I J : gset nat) t : I ⊆ J -> int_like I t -> int_like J t.
Proof. destruct t; simpl; set_solver. Qed.

(** A state that differs in the meaning of nothing. *)
Lemma step_compress u u' : compresses (mapping u) (mapping u') -> int_literal_vars u' = int_literal_vars u ->
  recover_failures u' = recover_failures u -> step u u'.
Proof.
  intros [Hw Hs] Hi Hr. split; [done|by apply same_refines|by rw Hi| |done].
  intros Hl v t. rw Hi. intros Hv Ht. by apply (Hl v), Hs.
Qed.

(** A typing that the state allows: it solves the bindings and types each
    literal within its class. *)
Record admits (θ : nat -> InferType) u : Prop := {
  admits_models : models θ (mapping u);
  admits_int v : v ∈ int_literal_vars u -> exists c, θ v = Concrete c /\ is_integer c = true;
  admits_float v : v ∈ float_literal_vars u -> exists c, θ v = Concrete c /\ (is_float c = true \/ c = TCOMPTIME_FLOAT);
  admits_string v : v ∈ string_literal_vars u -> exists c, θ v = Concrete c /\ c ∈ string_literal_types u /\
    is_integer c = false /\ is_never c = false /\ is_error c = false;
}.

Lemma integer_not_bottom c : is_integer c = true -> is_never c = false /\ is_error c = false /\ is_float c = false.
Proof.
  intros Hc. rw /is_never /is_error /is_float. split_and!.
  - apply bool_decide_false. by intros ->.
  - apply bool_decide_false. by intros ->.
  - apply orb_false_iff. split; apply bool_decide_false; by intros ->.
Qed.

(** ** [apply], the occurs check, [insert] *)

Lemma wp_apply ty u (Q : InferType -> Unifier -> Prop) : wf (mapping u) ->
  (forall t m, resolves (mapping u) ty t -> compresses (mapping u) m -> Q t (set_substitution m u)) -> wp (apply ty) Q u.
Proof.
  intros Hw HQ. destruct (subst_apply_ok (mapping u) ty Hw) as (t & m & He & Ht & Hc).
  exists t, (set_substitution m u). split; [|by apply HQ]. rw /apply He. done.
Qed.

Lemma wp_occurs var ty u (Q : bool -> Unifier -> Prop) : resolved (mapping u) ty ->
  Q (bool_decide (ty_var ty = Some var)) u -> wp (occurs_in var ty) Q u.
Proof.
  intros Hr HQ. eexists _, u. split; [|exact HQ]. rw /occurs_in (occurs_fuel_ok (mapping u) var ty) //. rw /depth_bound. lia.
Qed.

Lemma admits_compress θ u m : compresses (mapping u) m -> admits θ u -> admits θ (set_substitution m u).
Proof. intros [_ Hs] [H1 H2 H3 H4]. split; simpl; [|done..]. intros ty t Ht. by apply H1, Hs. Qed.

(** Binding an unbound variable, as a step. *)
Lemma step_insert u v t : wf (mapping u) -> get (mapping u) v = None -> lit_free t = true -> resolved (mapping u) t -> ty_var t <> Some v ->
  (v ∈ int_literal_vars u -> int_like (int_literal_vars u) t) -> step u (set_substitution (insert_var v t (mapping u)) u).
Proof.
  intros Hw Hv Hlf Hr Hne Hlit. split; simpl; [by apply insert_wf|by apply insert_refines|done| |done].
  intros Hl w t' Hw' Ht'. simpl in *. destruct (resolves_total (mapping u) (Var w) Hw) as [s Hs].
  pose proof (Hl w s Hw' Hs) as Hlike. assert (resolves (insert_var v t (mapping u)) s t') as Hst.
  { destruct (resolves_total _ s (insert_wf _ _ _ Hw Hlf Hr Hne)) as [x Hx].
    assert (t' = x) as ->; [|done]. eapply resolves_fun; [exact Ht'|]. by eapply insert_refines. }
  destruct s as [c|z| |e n]; simpl in Hlike; try done; [by inversion Hst; subst|].
  assert (get (mapping u) z = None) as Hz by by apply (resolves_resolved _ _ _ Hs).
  destruct (decide (z = v)) as [->|Hzv].
  - pose proof (insert_resolves (mapping u) v t Hr Hne) as Hvt. rewrite (resolves_fun _ _ _ Hst _ Hvt). auto.
  - inversion Hst as [| | |? Hu|? ? ? Hb]; subst; [done|]. rewrite get_insert_var decide_False // in Hb. congruence.
Qed.

Lemma admits_insert θ u v t : wf (mapping u) -> admits θ u -> θ v = inst θ t ->
  admits θ (set_substitution (insert_var v t (mapping u)) u).
Proof. intros Hw [H1 H2 H3 H4] Hv. split; simpl; [by apply models_insert|done..]. Qed.

(** ** [bind] *)

(** What each literal rule does. *)
Record rule_ok (var : nat) (ty : InferType) u (r : option UnifyResult) u' : Prop := {
  rule_mapping : mapping u' = mapping u;
  rule_recover : recover_failures u' = recover_failures u;
  rule_ints : int_literal_vars u ⊆ int_literal_vars u';
  rule_literals : literals_ok u -> literals_ok u';
  rule_early : r = Some UOk -> ty = Concrete TERROR;
  rule_admits θ : admits θ u -> θ var = inst θ ty -> r = None /\ admits θ u';
}.

Lemma rule_skip var ty u : rule_ok var ty u None u.
Proof. by split. Qed.

(** An early return that no typing admits. *)
Lemma rule_stop var ty u r : (r = UOk -> ty = Concrete TERROR) -> (forall θ, admits θ u -> θ var = inst θ ty -> False) ->
  rule_ok var ty u (Some r) u.
Proof. intros H1 H2. split; try done; [intros [= ->]; auto|]. intros θ Ha Hv. by destruct (H2 θ). Qed.

Lemma is_error_eq t : is_error t = true -> t = TERROR.
Proof. apply bool_decide_eq_true_1. Qed.
Lemma is_never_eq t : is_never t = true -> t = TNEVER.
Proof. apply bool_decide_eq_true_1. Qed.

Lemma mismatch_not_ok other side : int_literal_mismatch other side <> UOk /\ float_literal_mismatch other side <> UOk /\ string_literal_mismatch other side <> UOk.
Proof. by destruct side. Qed.

Lemma bind_int_ok var ty side u : resolved (mapping u) ty -> lit_free ty = true ->
  wp (bind_int_literal var ty side) (fun r u' => rule_ok var ty u r u' /\
    (r = None -> var ∈ int_literal_vars u' -> int_like (int_literal_vars u') ty)) u.
Proof.
  intros Hr Hlf. apply wp_bind, wp_gets. simpl. destruct (decide (var ∈ int_literal_vars u)) as [Hin|Hin].
  2: { apply wp_ret. split; [apply rule_skip|done]. }
  destruct ty as [t|other| |e n]; simpl in *; [| |done|].
  - apply wp_ret. destruct (is_error t) eqn:He; [|destruct (is_integer t) eqn:Hi; [|destruct (is_never t) eqn:Hn]]; simpl.
    + split; [|done]. apply rule_stop; [by rw (is_error_eq _ He)|]. intros θ Ha Hv. destruct (admits_int _ _ Ha var Hin) as (c & Hc & Hi).
      rewrite Hc in Hv. injection Hv as ->. by destruct (integer_not_bottom t Hi) as (_ & ? & _); congruence.
    + split; [apply rule_skip|]. done.
    + split; [apply rule_skip|]. intros _ _. by destruct (is_float t).
    + split; [|done]. apply rule_stop; [by intros ?%mismatch_not_ok|]. intros θ Ha Hv. destruct (admits_int _ _ Ha var Hin) as (c & Hc & Hi').
      rewrite Hc in Hv. injection Hv as ->. congruence.
  - apply wp_bind, wp_modify, wp_ret. split; [|intros _ _; simpl; set_solver]. split; simpl; try done.
    + set_solver.
    + intros Hl v t Hv Ht. simpl in *. destruct (decide (v = other)) as [->|Hne].
      * inversion Ht as [| | |? Hu|? ? ? Hb]; subst; [simpl; set_solver|]. rewrite (Hr other) // in Hb.
      * apply (int_like_mono (int_literal_vars u)); [set_solver|]. apply (Hl v); [set_solver|done].
    + intros θ Ha Hv. split; [done|]. destruct (admits_int _ _ Ha var Hin) as (c & Hc & Hi). destruct Ha as [A1 A2 A3 A4]. split; try done; simpl.
      intros w [->%elem_of_singleton|Hw]%elem_of_union; [|by apply A2]. exists c. by rw -Hv.
  - apply wp_ret. split; [|done]. apply rule_stop; [by intros ?%mismatch_not_ok|]. intros θ Ha Hv.
    destruct (admits_int _ _ Ha var Hin) as (c & Hc & _). simpl in Hv. congruence.
Qed.

Lemma bind_float_ok var ty side u : lit_free ty = true ->
  wp (bind_float_literal var ty side) (fun r u' => rule_ok var ty u r u' /\ int_literal_vars u' = int_literal_vars u) u.
Proof.
  intros Hlf. apply wp_bind, wp_gets. simpl. destruct (decide (var ∈ float_literal_vars u)) as [Hin|Hin].
  - destruct ty as [t|other| |e n]; simpl in *; [| |done|].
    + apply wp_ret. split; [|done]. destruct (_ || _) eqn:Hb; [apply rule_skip|]. apply rule_stop; [by intros ?%mismatch_not_ok|].
      intros θ Ha Hv. destruct (admits_float _ _ Ha var Hin) as (c & Hc & Hf). rewrite Hc in Hv. injection Hv as ->.
      apply orb_false_iff in Hb as [Hb _]. apply orb_false_iff in Hb as [Hb _]. apply orb_false_iff in Hb as [Hb1 Hb2].
      apply bool_decide_eq_false_1 in Hb2. destruct Hf; congruence.
    + apply wp_bind, wp_modify, wp_ret. split; [|done]. split; simpl; try done. intros θ Ha Hv. split; [done|].
      destruct (admits_float _ _ Ha var Hin) as (c & Hc & Hf). destruct Ha as [A1 A2 A3 A4]. split; try done; simpl.
      intros w [->%elem_of_singleton|Hw]%elem_of_union; [|by apply A3]. exists c. by rw -Hv.
    + apply wp_ret. split; [|done]. apply rule_stop; [by intros ?%mismatch_not_ok|]. intros θ Ha Hv.
      destruct (admits_float _ _ Ha var Hin) as (c & Hc & _). simpl in Hv. congruence.
  - destruct ty as [t|other| |e n]; try (apply wp_ret; split; [apply rule_skip|done]).
    destruct (decide (other ∈ float_literal_vars u)) as [Ho|Ho]; [|apply wp_ret; split; [apply rule_skip|done]].
    apply wp_bind, wp_modify, wp_ret. split; [|done]. split; simpl; try done. intros θ Ha Hv. split; [done|].
    destruct (admits_float _ _ Ha other Ho) as (c & Hc & Hf). destruct Ha as [A1 A2 A3 A4]. split; try done; simpl.
    intros w [->%elem_of_singleton|Hw]%elem_of_union; [|by apply A3]. exists c. by rw Hv.
Qed.

Lemma bind_string_ok var ty side u : lit_free ty = true ->
  wp (bind_string_literal var ty side) (fun r u' => rule_ok var ty u r u' /\ int_literal_vars u' = int_literal_vars u) u.
Proof.
  intros Hlf.
  assert (forall a b, a ∈ string_literal_vars u -> b ∈ int_literal_vars u -> forall θ, admits θ u -> θ a = θ b -> False) as Hclash.
  { intros a b Ha Hb θ Hadm Hab. destruct (admits_string _ _ Hadm a Ha) as (c & Hc & _ & Hi & _).
    destruct (admits_int _ _ Hadm b Hb) as (d & Hd & Hdi). congruence. }
  assert (forall a b θ, admits θ u -> a ∈ string_literal_vars u -> θ a = θ b -> admits θ (extend_strings {[b]} ∅ u)) as Hmark.
  { intros a b θ Ha Hin Hab. destruct (admits_string _ _ Ha a Hin) as (c & Hc & Ht & Hrest). destruct Ha as [A1 A2 A3 A4]. split; try done.
    simpl. intros w [->%elem_of_singleton|Hw]%elem_of_union.
    - exists c. rw -Hab. split_and!; [done|set_solver|apply Hrest..].
    - destruct (A4 w Hw) as (d & ? & ? & ?). exists d. split_and!; [done|set_solver|naive_solver..]. }
  apply wp_bind, wp_gets. simpl. destruct (decide (var ∈ string_literal_vars u)) as [Hin|Hin].
  - destruct ty as [t|other| |e n]; simpl in *; [| |done|].
    + apply wp_ret. split; [|done]. destruct (is_error t) eqn:He; [|destruct (decide _) as [Ht|Ht]; [apply rule_skip|]].
      * apply rule_stop; [by rw (is_error_eq _ He)|]. intros θ Ha Hv. destruct (admits_string _ _ Ha var Hin) as (c & Hc & _ & _ & _ & Hce). simpl in Hv. congruence.
      * apply rule_stop; [by intros ?%mismatch_not_ok|]. intros θ Ha Hv. destruct (admits_string _ _ Ha var Hin) as (c & Hc & Hct & _). simpl in Hv. congruence.
    + destruct (decide (other ∈ int_literal_vars u)) as [Ho|Ho].
      * apply wp_ret. split; [|done]. apply rule_stop; [by intros ?%mismatch_not_ok|]. intros θ Ha Hv. by eapply Hclash.
      * apply wp_bind, wp_modify, wp_ret. split; [|done]. split; try done. intros θ Ha Hv. split; [done|]. by eapply Hmark.
    + apply wp_ret. split; [|done]. apply rule_stop; [by intros ?%mismatch_not_ok|]. intros θ Ha Hv.
      destruct (admits_string _ _ Ha var Hin) as (c & Hc & _). simpl in Hv. congruence.
  - destruct ty as [t|other| |e n]; try (apply wp_ret; split; [apply rule_skip|done]).
    destruct (decide (other ∈ string_literal_vars u)) as [Ho|Ho]; [|apply wp_ret; split; [apply rule_skip|done]].
    destruct (decide (var ∈ int_literal_vars u)) as [Hv|Hv].
    + apply wp_ret. split; [|done]. apply rule_stop; [by intros ?%mismatch_not_ok|]. intros θ Ha Hvo. by eapply (Hclash other var).
    + apply wp_bind, wp_modify, wp_ret. split; [|done]. split; try done. intros θ Ha Hvo. split; [done|]. by eapply (Hmark other var).
Qed.

(** What solving one equation does, from [u] to [u']. *)
Record outcome (equal : Type_ -> Type_ -> bool) (lhs rhs : InferType) u (r : UnifyResult) u' : Prop := {
  out_step : step u u';
  out_sound : r = UOk -> equated equal (mapping u') lhs rhs;
  out_complete : (forall t, equal t t = true) -> forall θ, admits θ u -> inst θ lhs = inst θ rhs -> r = UOk /\ admits θ u';
}.

Lemma rule_step var ty u r u' : wf (mapping u) -> rule_ok var ty u r u' -> step u u'.
Proof. intros Hw [H1 H2 H3 H4 H5 H6]. split; try done; rw H1; [done|apply refines_refl]. Qed.

Lemma or_return_ok equal var ty u (rule : inferM (option UnifyResult)) rest (X : option UnifyResult -> Unifier -> Prop) :
  wf (mapping u) -> get (mapping u) var = None -> resolved (mapping u) ty ->
  wp rule (fun r u' => rule_ok var ty u r u' /\ X r u') u ->
  (forall u', rule_ok var ty u None u' -> X None u' -> wp rest (outcome equal (Var var) ty u') u') ->
  wp (or_return rule rest) (outcome equal (Var var) ty u) u.
Proof.
  intros Hw Hv Hr Hrule Hrest. apply wp_bind. eapply wp_mono; [exact Hrule|]. intros [r|] u' [Hok HX]; simpl.
  - apply wp_ret. split.
    + by eapply rule_step.
    + intros ->. exists (Var var), ty. rewrite (rule_mapping _ _ _ _ _ Hok). split_and!; [by constructor|by apply resolved_self|].
      rewrite (rule_early _ _ _ _ _ Hok) //. by apply compat_bottom_r.
    + intros _ θ Ha Hθ. by destruct (rule_admits _ _ _ _ _ Hok θ Ha Hθ).
  - eapply wp_mono; [by apply Hrest|]. intros r u'' [H1 H2 H3]. split; [|done|].
    + eapply step_trans; [|exact H1]. by eapply rule_step.
    + intros He θ Ha Hθ. apply H3; [done| |done]. by destruct (rule_admits _ _ _ _ _ Hok θ Ha Hθ).
Qed.

Lemma note_join_ok var other side u : wp (note_literal_join var other side) (fun _ u' => exists p j, u' = set_joins p j u) u.
Proof.
  apply wp_modify. assert (exists p j, u = set_joins p j u) as Hu by (exists (pending_literal_joins u), (literal_joins u); by destruct u).
  repeat case_match; eauto.
Qed.

Lemma step_joins u p j : wf (mapping u) -> step u (set_joins p j u).
Proof. intros Hw. apply step_compress; [by apply compresses_refl|done..]. Qed.
Lemma admits_joins θ u p j : admits θ u -> admits θ (set_joins p j u).
Proof. by intros []. Qed.

Lemma bind_ok equal var ty side u : wf (mapping u) -> get (mapping u) var = None -> resolved (mapping u) ty -> lit_free ty = true ->
  wp (bind var ty side) (outcome equal (Var var) ty u) u.
Proof.
  intros Hw Hv Hr Hlf. rw /bind. destruct (decide (ty = Var var)) as [->|Hne].
  { apply wp_ret. split; [by apply step_refl| |done]. intros _. exists (Var var), (Var var). split_and!; by constructor. }
  apply wp_bind, wp_occurs; [done|]. destruct (bool_decide_reflect (ty_var ty = Some var)) as [Hocc|Hocc].
  { apply wp_ret. split; [by apply step_refl|done|]. intros _ θ _ Hθ. simpl in Hθ. pose proof (ty_size_inst θ var ty Hocc Hne). rewrite -Hθ in H. lia. }
  apply wp_bind. apply (wp_mono _ (fun _ u' => exists p j, u' = set_joins p j u)).
  { destruct ty; [|apply note_join_ok|..]; apply wp_ret; exists (pending_literal_joins u), (literal_joins u); by destruct u. }
  intros _ u0 (p & j & ->). set (u1 := set_joins p j u).
  apply (wp_mono _ (outcome equal (Var var) ty u1)).
  2: { intros r u' [H1 H2 H3]. split; [|done|]; [eapply step_trans; [by apply step_joins|done]|].
       intros He θ Ha. apply H3; [done|]. by apply admits_joins. }
  eapply (or_return_ok _ _ _ u1); [done..|by apply bind_int_ok|]. intros u2 Hok2 Hlike.
  pose proof (rule_mapping _ _ _ _ _ Hok2) as Hm2. eapply (or_return_ok _ _ _ u2); [by rw Hm2..|by apply bind_float_ok|].
  intros u3 Hok3 Hi3. pose proof (rule_mapping _ _ _ _ _ Hok3) as Hm3.
  eapply (or_return_ok _ _ _ u3); [by rw Hm3 Hm2..|by apply bind_string_ok|].
  intros u4 Hok4 Hi4. pose proof (rule_mapping _ _ _ _ _ Hok4) as Hm4. rewrite Hm3 Hm2 in Hm4.
  assert (resolved (mapping u4) ty) as Hr4 by by rw Hm4.
  apply wp_bind, wp_modify, wp_ret. split.
  - apply step_insert; [by rw Hm4|by rw Hm4|done|done|done|]. simpl in *. rw Hi4 Hi3. auto.
  - intros _. exists ty, ty. split_and!; [by apply insert_resolves| |constructor]. apply resolved_self. simpl.
    intros w Hwt. rw get_insert_var decide_False; [by apply Hr4|congruence].
  - intros _ θ Ha Hθ. split; [done|]. apply admits_insert; [by rw Hm4|done|done].
Qed.

(** ** [unify_with] *)

Lemma outcome_flip equal l r u res u' : outcome (fun a b => equal b a) l r u res u' -> outcome equal r l u res u'.
Proof.
  intros [H1 H2 H3]. split; [done| |].
  - intros Hok. destruct (H2 Hok) as (s & t & Hs & Ht & Hc). exists t, s. split_and!; [done..|]. clear -Hc. induction Hc; by constructor.
  - intros He θ Ha Hθ. apply H3; [done..|by rw Hθ].
Qed.

(** Resolving both sides first changes nothing. *)
Lemma outcome_resolve equal l r t s u u1 res u' : step u u1 -> (forall θ, admits θ u -> admits θ u1) ->
  resolves (mapping u) l t -> resolves (mapping u) r s -> outcome equal t s u1 res u' -> outcome equal l r u res u'.
Proof.
  intros Hst Had Hl Hr [H1 H2 H3]. assert (step u u') as Hst' by by eapply step_trans. split; [done| |].
  - intros Hok. destruct (H2 Hok) as (t' & s' & Ht' & Hs' & Hc). exists t', s'. split_and!; [| |done].
    + by eapply (step_refines _ _ Hst').
    + by eapply (step_refines _ _ Hst').
  - intros He θ Ha Hθ. apply H3; [done|by apply Had|]. by rw -(admits_models _ _ Ha _ _ Hl) -(admits_models _ _ Ha _ _ Hr).
Qed.

Lemma outcome_array equal s t n u res u' : outcome equal s t u res u' -> outcome equal (Array s n) (Array t n) u res u'.
Proof.
  intros [H1 H2 H3]. split; [done| |].
  - intros Hok. destruct (H2 Hok) as (s' & t' & ? & ? & ?). exists (Array s' n), (Array t' n). split_and!; by constructor.
  - intros He θ Ha [= Hθ]. by apply H3.
Qed.

(** An immediate answer on resolved types. *)
Lemma outcome_ret equal l r u res : wf (mapping u) -> resolved (mapping u) l -> resolved (mapping u) r ->
  (res = UOk -> compatible equal l r) -> ((forall t, equal t t = true) -> forall θ, inst θ l = inst θ r -> res = UOk) ->
  outcome equal l r u res u.
Proof.
  intros Hw Hl Hr Hs Hc. split; [by apply step_refl| |].
  - intros Hok. exists l, r. split_and!; [by apply resolved_self..|by apply Hs].
  - intros He θ Ha Hθ. split; [by eapply Hc|done].
Qed.

(** Resolve both sides, then go on with the resolved types in a state of the
    same meaning. *)
Lemma wp_resolve_both {equal l r u} (k : InferType -> InferType -> inferM UnifyResult) : wf (mapping u) ->
  (forall t s u1, step u u1 -> int_literal_vars u1 = int_literal_vars u -> same (mapping u) (mapping u1) ->
     resolves (mapping u) l t -> resolves (mapping u) r s -> resolved (mapping u1) t -> resolved (mapping u1) s ->
     wp (k t s) (fun res u' => outcome equal t s u1 res u' \/ ((forall θ, admits θ u -> admits θ u1) -> outcome equal l r u res u')) u1) ->
  wp (lhs ← apply l; rhs ← apply r; k lhs rhs) (outcome equal l r u) u.
Proof.
  intros Hw Hk. apply wp_bind, wp_apply; [done|]. intros t m1 Ht Hc1. apply wp_bind, wp_apply; [apply Hc1|]. intros s m2 Hs Hc2. simpl in *.
  set (u1 := set_substitution m2 (set_substitution m1 u)).
  assert (compresses (mapping u) (mapping u1)) as Hc by by eapply compresses_trans.
  assert (step u u1) as Hst by by apply step_compress. apply (proj2 Hc1) in Hs.
  assert (forall θ, admits θ u -> admits θ u1) as Had.
  { intros θ Ha. apply admits_compress; [done|]. by apply admits_compress. }
  destruct Hc as [Hw1 Hsame]. eapply wp_mono.
  - apply (Hk t s u1); try done; by eapply resolves_resolved, Hsame.
  - intros res u' [Ho|Ho]; [|by apply Ho]. by eapply outcome_resolve.
Qed.

Lemma unify_fuel_ok equal : forall fuel l r u t, wf (mapping u) -> lit_free l = true -> lit_free r = true ->
  resolves (mapping u) l t -> ty_size t < fuel -> wp (unify_fuel equal fuel l r) (outcome equal l r u) u.
Proof.
  induction fuel as [|fuel IH]; intros l r u t Hw Hll Hlr Ht Hf; [lia|]. simpl. apply wp_resolve_both; [done|].
  intros t' s u1 Hst _ Hsame Ht' Hs Hrt Hrs. rewrite (resolves_fun _ _ _ Ht' _ Ht) in Hrt |- *. clear t' Ht'.
  pose proof (resolves_lit_free _ _ _ Hw Ht Hll) as Hlt. pose proof (resolves_lit_free _ _ _ Hw Hs Hlr) as Hls.
  pose proof (step_wf _ _ Hst) as Hw1. apply wp_bind, wp_gets. apply (wp_mono _ (outcome equal t s u1)); [|by left].
  destruct t as [a|v| |e n]; [| | |]; [| |done|].
  - destruct s as [b|w| |e n]; [| |done|].
    + apply wp_ret, outcome_ret; [done..| |].
      * destruct (_ || _) eqn:Hb; [|done]. intros _. apply orb_true_iff in Hb as [Hb|Hb]; [apply orb_true_iff in Hb as [Hb|Hb]|].
        -- by apply compat_equal.
        -- rewrite /can_coerce_to /coerces_into in Hb. apply orb_true_iff in Hb as [Hb|Hb%bool_decide_eq_true_1]; [by apply compat_bottom_l|subst; constructor].
        -- rewrite /can_coerce_to /coerces_into in Hb. apply orb_true_iff in Hb as [Hb|Hb%bool_decide_eq_true_1]; [by apply compat_bottom_r|subst; constructor].
      * intros He θ [= ->]. by rw He.
    + eapply wp_mono; [apply (bind_ok (fun x y => equal y x)); [done|by apply Hrs|done..]|]. intros res u'. apply outcome_flip.
    + apply wp_ret, outcome_ret; [done..| |done]. destruct (is_never a || is_error a) eqn:Hb; [|done]. intros _. by apply compat_bottom_l.
  - apply bind_ok; [done|by apply Hrt|done..].
  - destruct s as [b|w| |e' n']; [| |done|].
    + apply wp_ret, outcome_ret; [done..| |done]. destruct (is_never b || is_error b) eqn:Hb; [|done]. intros _. by apply compat_bottom_r.
    + eapply wp_mono; [apply (bind_ok (fun x y => equal y x)); [done|by apply Hrs|done..]|]. intros res u'. apply outcome_flip.
    + destruct (Z.eqb_spec n n') as [->|Hn].
      * eapply wp_mono; [apply (IH e e' u1 e); [done..|by apply resolved_self|simpl in Hf; lia]|]. intros res u'. apply outcome_array.
      * apply wp_ret, outcome_ret; [done..|]. intros _ θ [= _ ?]. done.
Qed.

Lemma unify_with_ok equal l r u : wf (mapping u) -> lit_free l = true -> lit_free r = true ->
  wp (unify_with equal l r) (outcome equal l r u) u.
Proof.
  intros Hw Hl Hr. destruct (resolves_total (mapping u) l Hw) as [t Ht]. apply (unify_fuel_ok equal _ l r u t); [done..|].
  pose proof (resolves_size _ _ _ Hw Ht). lia.
Qed.

(** ** [unify_contextual] and [unify_peer] *)

Lemma outcome_from equal l r u u1 res u' : step u u1 -> (forall θ, admits θ u -> admits θ u1) ->
  outcome equal l r u1 res u' -> outcome equal l r u res u'.
Proof. intros Hst Had [H1 H2 H3]. split; [by eapply step_trans|done|]. intros He θ Ha. apply H3; auto. Qed.

(** The literal rule: the class of an integer literal takes the float type. *)
Lemma rebind_ok equal v rep f u : wf (mapping u) -> resolves (mapping u) (Var v) (Var rep) ->
  v ∈ int_literal_vars u \/ rep ∈ int_literal_vars u -> is_float f = true ->
  wp (rebind_int_literal_to_concrete (Var v) f;; mret UOk)
    (fun res u' => step u u' /\ res = UOk /\ equated equal (mapping u') (Var v) (Concrete f)) u.
Proof.
  intros Hw Hres Hin Hf. apply wp_bind, wp_bind, wp_apply; [done|]. intros t m Ht Hc.
  rewrite (resolves_fun _ _ _ Ht _ Hres). apply wp_bind, wp_gets. set (u1 := set_substitution m u).
  rw decide_True //. apply wp_modify, wp_ret. destruct Hc as [Hw1 Hsame].
  assert (get (mapping u1) rep = None) as Hrep by (apply (resolves_resolved _ (Var v) (Var rep)); [by apply Hsame|done]).
  assert (step u1 (set_substitution (insert_var rep (Concrete f) (mapping u1)) u1)) as Hst.
  { apply step_insert; [done..|]. intros _. simpl. by rw Hf !orb_true_r. }
  split_and!; [|done|].
  - eapply step_trans; [|exact Hst]. by apply step_compress.
  - exists (Concrete f), (Concrete f). split_and!; [|constructor..]. apply (step_refines _ _ Hst _ (Var rep)); [by apply Hsame|].
    by apply insert_resolves.
Qed.

Lemma float_of_spec t f : is_32_or_64_float t = Some f -> t = Concrete f /\ is_float f = true /\ is_integer f = false.
Proof.
  destruct t as [c| | |]; simpl; try done. destruct (decide _) as [Hf|]; [|done]. intros [= <-]. by destruct Hf as [-> | ->].
Qed.

Lemma contextual_fuel_ok equal : forall fuel l r u t, wf (mapping u) -> lit_free l = true -> lit_free r = true ->
  resolves (mapping u) l t -> ty_size t < fuel -> wp (unify_contextual_fuel equal fuel l r) (outcome equal l r u) u.
Proof.
  induction fuel as [|fuel IH]; intros l r u t Hw Hll Hlr Ht Hf; [lia|]. simpl. apply wp_resolve_both; [done|].
  intros t' s u1 Hst Hints Hsame Ht' Hs Hrt Hrs. rewrite (resolves_fun _ _ _ Ht' _ Ht) in Hrt |- *. clear t' Ht'.
  pose proof (resolves_lit_free _ _ _ Hw Ht Hll) as Hlt. pose proof (resolves_lit_free _ _ _ Hw Hs Hlr) as Hls.
  pose proof (step_wf _ _ Hst) as Hw1. apply wp_bind, wp_gets.
  assert (forall k, wp k (outcome equal l r u1) u1 -> wp k (fun res u' => outcome equal t s u1 res u' \/
    ((forall θ, admits θ u -> admits θ u1) -> outcome equal l r u res u')) u1) as Hwhole.
  { intros k Hk. eapply wp_mono; [exact Hk|]. intros res u' Ho. right. intros Had. by eapply outcome_from. }
  pose proof (unify_with_ok equal l r u1 Hw1 Hll Hlr) as Hplain. simpl.
  destruct (match t with Var _ => _ | IntLiteral => _ | _ => _ end) eqn:Hlit, (is_32_or_64_float s) as [f|] eqn:Hfl.
  1: { destruct (float_of_spec _ _ Hfl) as (-> & Hff & Hfi). destruct t as [|rep| |]; try done.
       assert (exists v, l = Var v) as [v ->] by (inversion Ht; eauto). apply Hwhole.
       assert (v ∈ int_literal_vars u1 \/ rep ∈ int_literal_vars u1) as Hin.
       { apply orb_true_iff in Hlit as [Hl|Hl]; apply bool_decide_eq_true_1 in Hl; auto. }
       assert (resolves (mapping u1) (Var v) (Var rep)) as Hvr by by apply Hsame.
       eapply wp_mono; [by apply (rebind_ok equal v rep f u1)|]. intros res u' (Hst' & -> & Heq). split; [done| |].
       - intros _. destruct Heq as (a & b & Ha & Hb & Hc). exists a, b. split_and!; [done| |done].
         inversion Hb; subst. eapply (step_refines _ _ Hst'); [by apply Hsame|constructor].
       - intros _ θ Ha Hθ. exfalso. assert (exists x, (x = v \/ x = rep) /\ x ∈ int_literal_vars u1) as (x & Hx & Hxi) by naive_solver.
         destruct (admits_int _ _ Ha x Hxi) as (c & Hc & Hci). assert (θ v = θ rep) as Hvr' by apply (admits_models _ _ Ha _ _ Hvr).
         assert (inst θ r = Concrete f) as Hrf by by apply (admits_models _ _ Ha r (Concrete f)), Hsame.
         simpl in Hθ. assert (θ x = Concrete f) as Hxf by (destruct Hx as [-> | ->]; congruence). congruence. }
  all: destruct t as [a|v| |e n]; try (apply Hwhole; exact Hplain).
  all: destruct s as [b|w| |e' n']; try (apply Hwhole; exact Hplain).
  all: try done.
  all: apply (wp_mono _ (outcome equal (Array e n) (Array e' n') u1)); [|by left]; destruct (Z.eqb_spec n n') as [->|Hn].
  1: eapply wp_mono; [apply (IH e e' u1 e); [done..|by apply resolved_self|simpl in Hf; lia]|]; intros res u'; apply outcome_array.
  apply wp_ret, outcome_ret; [done..|]. intros _ θ [= _ ?]. done.
Qed.

Lemma unify_contextual_ok equal l r u : wf (mapping u) -> lit_free l = true -> lit_free r = true ->
  wp (unify_contextual equal l r) (outcome equal l r u) u.
Proof.
  intros Hw Hl Hr. destruct (resolves_total (mapping u) l Hw) as [t Ht]. apply (contextual_fuel_ok equal _ l r u t); [done..|].
  pose proof (resolves_size _ _ _ Hw Ht). lia.
Qed.

(** No typing equates a literal with [!]. *)
Lemma pairs_unsolvable u θ : admits θ u -> forall l r, array_pairs_literal_with_never u l r = true -> inst θ l <> inst θ r.
Proof.
  intros Ha.
  assert (forall a b, peer_is_never a = true -> peer_is_literal u b = true -> lit_free b = true -> inst θ a <> inst θ b) as Hpair.
  { intros [c| | |] [|v| |]; simpl; try done. intros Hn%is_never_eq Hl _ Hv. subst c.
    apply orb_true_iff in Hl as [Hl%bool_decide_eq_true_1|Hl%bool_decide_eq_true_1].
    - destruct (admits_int _ _ Ha v Hl) as (c & Hc & Hi). by assert (c = TNEVER) as -> by congruence.
    - destruct (admits_string _ _ Ha v Hl) as (c & Hc & _ & _ & Hn & _). by assert (c = TNEVER) as -> by congruence. }
  assert (forall a b, peer_is_never a = true -> peer_is_literal u b = true -> inst θ a <> inst θ b) as Hpair'.
  { intros a b Hn Hl. destruct (lit_free b) eqn:Hb; [by apply Hpair|]. destruct a as [c| | |]; try done. by destruct b. }
  induction l as [| | |e IH n]; intros [| | |e' n']; simpl; try done. destruct (Z.eqb_spec n n') as [->|]; simpl; [|done].
  intros [[Hb|Hb]%orb_true_iff|Hb]%orb_true_iff [= Heq].
  - apply andb_true_iff in Hb as [H1 H2]. by destruct (Hpair' e e' H1 H2).
  - apply andb_true_iff in Hb as [H1 H2]. by destruct (Hpair' e' e H2 H1).
  - by destruct (IH e' Hb).
Qed.

Lemma unify_peer_ok equal l r u : wf (mapping u) -> lit_free l = true -> lit_free r = true ->
  wp (unify_peer equal l r) (outcome equal l r u) u.
Proof.
  intros Hw Hll Hlr. apply wp_resolve_both; [done|]. intros t s u1 Hst _ Hsame Ht Hs Hrt Hrs. pose proof (step_wf _ _ Hst) as Hw1.
  apply wp_bind, wp_gets. simpl. destruct (array_pairs_literal_with_never u1 t s) eqn:Hp.
  - apply (wp_mono _ (outcome equal t s u1)); [|by left]. apply wp_ret. split; [by apply step_refl|done|].
    intros _ θ Ha Hθ. by destruct (pairs_unsolvable u1 θ Ha t s Hp).
  - eapply wp_mono; [by apply unify_with_ok|]. intros res u' Ho. right. intros Had. by eapply outcome_from.
Qed.
End Unify.
