(* ===== verification/InferSolve.v ===== *)
(** * Type inference: solving constraints

    The three passes of [solve_constraints_with_projections]: equations in
    order, projections to a fixed point, predicates last.  The passes end, the
    final substitution satisfies every constraint that was not reported, it
    finds no error when the constraints have a typing, and every integer
    literal ends with a numeric type. *)

From stdpp Require Import gmap.
From S2P Require Import Prelude IntegerSemantics Types Infer InferSubst InferUnify.

#[local] Arguments is_integer : simpl never.
#[local] Arguments is_float : simpl never.
#[local] Arguments is_never : simpl never.
#[local] Arguments is_error : simpl never.
#[local] Arguments ty_is_unsigned : simpl never.
#[local] Arguments ty_is_signed : simpl never.

Section Solving.
Context {Span Spur : Type}.
Notation Unifier := (@Unifier Span).
Notation inferM := (@inferM Span).
Notation mapping := (@substitution Span).
Notation Constraint := (@Constraint Span Spur).
Notation UnificationError := (@UnificationError Span).
Implicit Types (u : Unifier) (c : Constraint).

(** ** One equation *)

Lemma insert_var_twice v t m : insert_var v t (insert_var v t m) = insert_var v t m.
Proof.
  assert (v < length (insert_var v t m)) as Hlt.
  { rw /insert_var length_insert. destruct (Nat.leb_spec (length m) v); [|done]. rw length_app length_replicate. lia. }
  rw {1}/insert_var. destruct (Nat.leb_spec (length (insert_var v t m)) v); [lia|]. by rw /insert_var list_insert_insert_eq.
Qed.

Lemma recover_ok l r u : wf (mapping u) -> wp (recover_from_error l r) (fun _ u' => step u u') u.
Proof.
  intros Hw. apply wp_bind, wp_gets. destruct (negb _); [by apply wp_ret, step_refl|].
  apply wp_bind, wp_apply; [done|]. intros t m1 Ht Hc1. apply wp_bind, wp_apply; [apply Hc1|]. intros s m2 Hs Hc2. simpl in *.
  set (u1 := set_substitution m2 (set_substitution m1 u)).
  assert (compresses (mapping u) (mapping u1)) as Hc by by eapply compresses_trans.
  assert (step u u1) as Hst by by apply step_compress. pose proof (step_wf _ _ Hst) as Hw1.
  assert (resolved (mapping u1) t) as Hrt by by eapply resolves_resolved, Hc.
  assert (resolved (mapping u1) s) as Hrs by by eapply resolves_resolved, Hc, Hc1.
  assert (forall v, get (mapping u1) v = None -> step u1 (set_substitution (insert_var v (Concrete TERROR) (mapping u1)) u1)) as Herr by by intros v Hv; apply step_insert.
  apply wp_bind. destruct t as [|v| |]; [apply wp_ret| |apply wp_ret..].
  2: { apply wp_modify. assert (step u1 (set_substitution (insert_var v (Concrete TERROR) (mapping u1)) u1)) as Hst1 by by apply Herr, Hrt.
       destruct s as [|w| |]; [apply wp_ret; exact (step_trans _ _ _ Hst Hst1)| |apply wp_ret; exact (step_trans _ _ _ Hst Hst1)..]. apply wp_modify. eapply step_trans; [exact Hst|].
       destruct (decide (w = v)) as [->|Hne]; [simpl; by rw insert_var_twice|]. eapply step_trans; [exact Hst1|].
       apply step_insert; [apply Hst1| |done..]. simpl. rw get_insert_var decide_False //. by apply Hrs. }
  all: destruct s as [|w| |]; [by apply wp_ret| |by apply wp_ret..]; apply wp_modify; (eapply step_trans; [exact Hst|]); by apply Herr, Hrs.
Qed.

Definition reported (errs : list UnificationError) c : Prop := exists e, e ∈ errs /\ error_span e = constraint_span c.

Lemma equation_ok equal unify l r span errs u : wf (mapping u) -> wp unify (outcome equal l r u) u ->
  wp (solve_equation unify l r span errs) (fun errs' u' => step u u' /\
    ((errs' = errs /\ equated equal (mapping u') l r) \/ exists k, errs' = errs ++ [mkError k span]) /\
    ((forall t, equal t t = true) -> forall θ, admits θ u -> inst θ l = inst θ r -> errs' = errs /\ admits θ u')) u.
Proof.
  intros Hw Hunify. apply wp_bind. eapply wp_mono; [exact Hunify|]. intros res u1 [H1 H2 H3]. apply wp_bind, wp_modify.
  set (u2 := set_joins _ _ u1). assert (step u u2) as Hst by (eapply step_trans; [exact H1|]; by apply step_joins, H1).
  destruct (result_is_ok res) eqn:Hok; simpl.
  - apply wp_ret. assert (res = UOk) as -> by by destruct res. split_and!; [done|left; by auto|].
    intros He θ Ha Hθ. split; [done|]. by apply admits_joins, H3.
  - apply wp_bind. eapply wp_mono; [by apply recover_ok, Hst|]. intros [] u3 Hst3. apply wp_ret. split_and!; [exact (step_trans _ _ _ Hst Hst3)|eauto|].
    intros He θ Ha Hθ. destruct (H3 He θ Ha Hθ) as [Hr _]. by rewrite Hr in Hok.
Qed.

(** A fold keeps an invariant of the consumed prefix. *)
Lemma wp_fold {S A} (f : S -> A -> inferM S) (I : list A -> S -> Unifier -> Prop) l s u :
  I [] s u -> (forall pre a s u, (exists post, l = pre ++ a :: post) -> I pre s u -> wp (f s a) (I (pre ++ [a])) u) ->
  wp (fold_infer f s l) (I l) u.
Proof.
  intros H0 Hstep. cut (forall post pre s u, l = pre ++ post -> I pre s u -> wp (fold_infer f s post) (I l) u); [intros H; by apply (H l [])|].
  induction post as [|a post IH]; intros pre s' u' Hl Hi; simpl.
  - apply wp_ret. by rw Hl app_nil_r.
  - apply wp_bind. eapply wp_mono; [apply (Hstep pre a); [by exists post|done]|]. intros s2 u2 Hi2. apply (IH (pre ++ [a])); [by rw -app_assoc|done].
Qed.

(** ** What a constraint asks of a typing and of the final substitution *)

Variable equal : Type_ -> Type_ -> bool.
Variable field_type : InferType -> Spur -> option InferType.
Variable index_element_type : InferType -> option InferType.
Variable is_string_context_type : InferType -> bool.

Definition constraint_lit_free c : bool :=
  match c with
  | Equal l r _ | ContextualEqual l r _ | PeerEqual l r _ | FieldGet l _ r _ | FieldSet l _ r _ | IndexGet l r _ | IndexSet l r _ =>
      lit_free l && lit_free r
  | IsSigned t _ | IsInteger t _ | IsNumeric t _ | IsUnsigned t _ => lit_free t
  end.

(** The base of a projection, its lookup, and the equation it becomes. *)
Definition projection_base c : option (InferType * (InferType -> option InferType)) :=
  match c with
  | FieldGet base field _ _ | FieldSet base field _ _ => Some (base, fun b => field_type b field)
  | IndexGet base _ _ | IndexSet base _ _ => Some (base, index_element_type)
  | _ => None
  end.
Definition projection_equation c (ty : InferType) : InferType * InferType :=
  match c with
  | FieldSet _ _ value _ | IndexSet _ value _ => (value, ty)
  | FieldGet _ _ result _ | IndexGet _ result _ => (ty, result)
  | _ => (ty, ty)
  end.

(** Whether a resolved type passes a predicate.  A signed check on a variable
    is deferred, and an index may then give the variable [u64]. *)
Definition predicate_holds c (t : InferType) : Prop :=
  match c, t with
  | IsSigned _ _, Concrete a => ty_is_unsigned a = true -> a = TU64
  | IsSigned _ _, _ => True
  | IsInteger _ _, Concrete a => is_integer a || is_error a || is_never a = true
  | IsNumeric _ _, Concrete a => is_integer a || is_float a || is_error a || is_never a = true
  | IsUnsigned _ _, Concrete a => ty_is_unsigned a || is_error a || is_never a = true
  | IsInteger _ _, Var _ | IsNumeric _ _, Var _ => True
  | _, _ => False
  end.
Definition predicate_of c : option InferType :=
  match c with IsSigned t _ | IsInteger t _ | IsNumeric t _ | IsUnsigned t _ => Some t | _ => None end.
Definition equation_of c : option (InferType * InferType) :=
  match c with Equal l r _ | ContextualEqual l r _ | PeerEqual l r _ => Some (l, r) | _ => None end.

(** [vs] take the index type. *)
Definition u64_default (vs : gset nat) : InferType -> InferType :=
  inst (fun v => if decide (v ∈ vs) then Concrete TU64 else Var v).

Definition discharged (m : Substitution) c : Prop :=
  exists base lookup b ty, projection_base c = Some (base, lookup) /\ (exists x, resolves m base x /\ resolves m b x) /\
    lookup b = Some ty /\ equated equal m (projection_equation c ty).1 (projection_equation c ty).2.

(** Equations hold; a projection holds for the type its lookup gave, unless
    the lookup never knew the base; predicates hold. *)
Definition satisfied (m : Substitution) c : Prop :=
  match equation_of c, projection_base c, predicate_of c with
  | Some (l, r), _, _ => equated equal m l r
  | _, Some (base, lookup), _ =>
      discharged m c \/ exists b vs, resolves m base (u64_default vs b) /\ lookup b = None
  | _, _, Some t => exists t', resolves m t t' /\ predicate_holds c t'
  | _, _, _ => False
  end.

(** What a typing of the variables must give. *)
Definition solves (θ : nat -> InferType) c : Prop :=
  match equation_of c, projection_base c with
  | Some (l, r), _ => inst θ l = inst θ r
  | _, Some (base, lookup) => forall b ty, inst θ b = inst θ base -> lookup b = Some ty ->
      inst θ (projection_equation c ty).1 = inst θ (projection_equation c ty).2
  | _, _ =>
      match c with
      | IsSigned t _ => exists a, inst θ t = Concrete a /\ ty_is_signed a || is_float a = true
      | IsInteger t _ => exists a, inst θ t = Concrete a /\ is_integer a = true
      | IsNumeric t _ => exists a, inst θ t = Concrete a /\ is_integer a || is_float a = true
      | IsUnsigned t _ => exists a, inst θ t = Concrete a /\ ty_is_unsigned a = true
      | _ => True
      end
  end.

(** ** First pass *)

(** After its turn, a constraint is reported, solved, or kept for later. *)
Definition first_done (st : first_state) (m : Substitution) c : Prop :=
  reported (errors st) c \/
  match equation_of c, projection_base c with
  | Some (l, r), _ => equated equal m l r
  | _, Some _ => c ∈ projections st
  | _, _ => c ∈ predicates st
  end.

Record first_inv u0 (pre : list Constraint) (st : first_state) u : Prop := {
  fi_step : step u0 u;
  fi_done c : c ∈ pre -> first_done st (mapping u) c;
  fi_proj c : c ∈ projections st -> c ∈ pre /\ is_Some (projection_base c);
  fi_pred c : c ∈ predicates st -> c ∈ pre /\ is_Some (predicate_of c);
  fi_complete : (forall t, equal t t = true) -> forall θ, admits θ u0 -> (forall c, c ∈ pre -> solves θ c) -> errors st = [] /\ admits θ u;
}.

Lemma reported_app errs more c : reported errs c -> reported (errs ++ more) c.
Proof. intros (e & He & Hs). exists e. split; [|done]. apply elem_of_app. by left. Qed.
Lemma reported_last errs k c : reported (errs ++ [mkError k (constraint_span c)]) c.
Proof. eexists. split; [apply elem_of_app; right; by left|done]. Qed.

(** What is done stays done. *)
Lemma first_done_mono st st' m m' c : first_done st m c -> wf m' -> refines m m' -> (exists more, errors st' = errors st ++ more) ->
  projections st ⊆ projections st' -> predicates st ⊆ predicates st' -> first_done st' m' c.
Proof.
  intros [Hr|Hc] Hw Href (more & He) Hp Hq; [left; rw He; by apply reported_app|]. right.
  destruct (equation_of c) as [[l r]|]; [by eapply equated_refines|]. destruct (projection_base c); auto.
Qed.

(** One more constraint. *)
Lemma first_inv_snoc u0 pre st u c st' u' : first_inv u0 pre st u -> step u u' ->
  (exists more, errors st' = errors st ++ more) ->
  (projections st' = projections st \/ projections st' = projections st ++ [c] /\ is_Some (projection_base c)) ->
  (predicates st' = predicates st \/ predicates st' = predicates st ++ [c] /\ is_Some (predicate_of c)) ->
  first_done st' (mapping u') c ->
  ((forall t, equal t t = true) -> forall θ, admits θ u -> solves θ c -> errors st' = errors st /\ admits θ u') ->
  first_inv u0 (pre ++ [c]) st' u'.
Proof.
  intros [H1 H2 H3 H4 H5] Hst He Hp Hq Hdone Hcomp. split.
  - by eapply step_trans.
  - intros d [Hd| ->%list_elem_of_singleton]%elem_of_app; [|done]. eapply first_done_mono; [by apply H2|apply Hst|apply Hst|done|..].
    + destruct Hp as [-> | [-> _]]; set_solver.
    + destruct Hq as [-> | [-> _]]; set_solver.
  - intros d Hd. rw elem_of_app. destruct Hp as [Hp | [Hp Hb]]; rewrite Hp in Hd; [naive_solver|].
    apply elem_of_app in Hd as [Hd| ->%list_elem_of_singleton]; [naive_solver|]. split; [right; by left|done].
  - intros d Hd. rw elem_of_app. destruct Hq as [Hq | [Hq Hb]]; rewrite Hq in Hd; [naive_solver|].
    apply elem_of_app in Hd as [Hd| ->%list_elem_of_singleton]; [naive_solver|]. split; [right; by left|done].
  - intros Heq θ Ha Hs. destruct (H5 Heq θ Ha) as [He0 Ha']; [intros d Hd; apply Hs, elem_of_app; by left|].
    destruct (Hcomp Heq θ Ha') as [He' Ha'']; [apply Hs, elem_of_app; right; by left|]. by rw He' He0.
Qed.

(** An equation of the first pass. *)
Lemma first_equation_ok u0 pre st u c l r span unify : first_inv u0 pre st u -> equation_of c = Some (l, r) -> constraint_span c = span ->
  wp unify (outcome equal l r u) u ->
  wp (errs ← solve_equation unify l r span (errors st); mret (mkFirst errs (projections st) (predicates st))) (first_inv u0 (pre ++ [c])) u.
Proof.
  intros Hi Hc <- Hunify. pose proof (step_wf _ _ (fi_step _ _ _ _ Hi)) as Hw. apply wp_bind.
  eapply wp_mono; [by apply (equation_ok equal)|]. intros errs u' (Hst & Hr & Hcomp). apply wp_ret.
  eapply first_inv_snoc; [exact Hi|done| |by left|by left| |]; simpl.
  - destruct Hr as [[-> _]|[k ->]]; [exists []; by rw app_nil_r|eauto].
  - destruct Hr as [[-> Heq]|[k ->]]; [right; by rw Hc|left; apply reported_last].
  - intros He θ Ha Hs. rewrite /solves Hc in Hs. by apply Hcomp.
Qed.

(** A predicate of the first pass: an array is reported, others wait. *)
Lemma first_predicate_ok u0 pre st u c t span check : first_inv u0 pre st u ->
  predicate_of c = Some t -> constraint_span c = span -> lit_free t = true ->
  (forall e n θ, inst θ t = Array e n -> ~ solves θ c) ->
  (forall u, wf (mapping u) -> wp check (fun _ u' => exists m, u' = set_substitution m u /\ compresses (mapping u) m) u) ->
  wp (check_now_or_later st c t span check) (first_inv u0 (pre ++ [c])) u.
Proof.
  intros Hi Hc <- Hlf Hbad Hcheck. pose proof (step_wf _ _ (fi_step _ _ _ _ Hi)) as Hw. apply wp_bind, wp_apply; [done|]. intros t' m Ht Hcm.
  assert (step u (set_substitution m u)) as Hst by by apply step_compress.
  assert (equation_of c = None /\ projection_base c = None) as [Hne Hnp] by by destruct c.
  destruct (is_array t') eqn:Harr.
  - destruct t' as [| | |e n]; try done. apply wp_bind. eapply wp_mono; [apply Hcheck, Hcm|]. intros res u' (m' & -> & Hc'). apply wp_ret.
    eapply first_inv_snoc; [exact Hi| |simpl; eauto|by left|by left|left; apply reported_last|].
    + eapply step_trans; [exact Hst|]. by apply step_compress.
    + intros _ θ Ha Hs. destruct (Hbad (inst θ e) n θ); [|done]. by rw (admits_models _ _ Ha _ _ Ht).
  - apply wp_ret. eapply first_inv_snoc; [exact Hi|done|exists []; by rw app_nil_r|by left| | |]; simpl.
    + right. split; [done|by rw Hc].
    + right. rw Hne Hnp /=. apply elem_of_app. right. by left.
    + intros _ θ Ha _. split; [done|]. by apply admits_compress.
Qed.

Lemma check_compresses t (f : Unifier -> InferType -> UnifyResult) u : wf (mapping u) ->
  wp (ty ← apply t; u ← gets id; mret (f u ty)) (fun _ u' => exists m, u' = set_substitution m u /\ compresses (mapping u) m) u.
Proof. intros Hw. apply wp_bind, wp_apply; [done|]. intros s m _ Hc. apply wp_bind, wp_gets, wp_ret. eauto. Qed.

Lemma first_pass_ok u0 pre st u c : constraint_lit_free c = true -> first_inv u0 pre st u ->
  wp (first_pass equal st c) (first_inv u0 (pre ++ [c])) u.
Proof.
  intros Hlf Hi. pose proof (step_wf _ _ (fi_step _ _ _ _ Hi)) as Hw. pose proof (step_refl u Hw) as Hst.
  assert (is_Some (projection_base c) -> first_inv u0 (pre ++ [c]) (mkFirst (errors st) (projections st ++ [c]) (predicates st)) u) as Hproj.
  { intros Hp. eapply first_inv_snoc; [exact Hi|done|exists []; by rw app_nil_r|by right|by left| |done].
    right. destruct c; try by destruct Hp. all: apply elem_of_app; right; by left. }
  destruct c as [l r sp|l r sp|l r sp|b f r sp|b f r sp|b r sp|b r sp|t sp|t sp|t sp|t sp]; simpl in Hlf |- *;
    [apply andb_true_iff in Hlf as [Hl Hr]..| | | |].
  - eapply first_equation_ok; [exact Hi|done|done|by apply unify_with_ok].
  - eapply first_equation_ok; [exact Hi|done|done|by apply unify_contextual_ok].
  - eapply first_equation_ok; [exact Hi|done|done|by apply unify_peer_ok].
  - apply wp_ret, Hproj. eauto.
  - apply wp_ret, Hproj. eauto.
  - apply wp_ret, Hproj. eauto.
  - apply wp_ret, Hproj. eauto.
  - apply wp_ret. eapply first_inv_snoc; [exact Hi|done|exists []; by rw app_nil_r|by left|by right|right; apply elem_of_app; right; by left|done].
  - eapply first_predicate_ok; [exact Hi|done|done|done| |].
    + intros e n θ Hin (a & Ha & _). congruence.
    + intros u1 Hw1. by apply check_compresses.
  - eapply first_predicate_ok; [exact Hi|done|done|done| |].
    + intros e n θ Hin (a & Ha & _). congruence.
    + intros u1 Hw1. by apply check_compresses.
  - eapply first_predicate_ok; [exact Hi|done|done|done| |].
    + intros e n θ Hin (a & Ha & _). congruence.
    + intros u1 Hw1. by apply check_compresses.
Qed.

(** ** Projections *)

Hypothesis field_lit_free : forall b f ty, field_type b f = Some ty -> lit_free ty = true.
Hypothesis index_lit_free : forall b ty, index_element_type b = Some ty -> lit_free ty = true.

Definition unavailable (m : Substitution) c : Prop :=
  exists base lookup b, projection_base c = Some (base, lookup) /\ resolves m base b /\ lookup b = None.

Lemma discharged_refines m m' c : wf m' -> refines m m' -> discharged m c -> discharged m' c.
Proof.
  intros Hw Href (base & lookup & b & ty & Hc & (x & Hx & Hb) & Hl & Heq). exists base, lookup, b, ty.
  destruct (resolves_total m' x Hw) as [y Hy]. split_and!; [done| |done|by eapply equated_refines].
  exists y. split; by eapply Href.
Qed.

Lemma projected_ok c base lookup u : projection_base c = Some (base, lookup) -> wf (mapping u) ->
  wp (projected_type field_type index_element_type c) (fun o u' => exists m b, u' = set_substitution m u /\
    compresses (mapping u) m /\ resolves (mapping u) base b /\ o = lookup b) u.
Proof.
  intros Hc Hw. destruct c; try done; injection Hc as <- <-; apply wp_bind, wp_apply; try done; intros t m Ht Hm; apply wp_ret; eauto 6.
Qed.

Lemma lookup_lit_free c base lookup b ty : projection_base c = Some (base, lookup) -> lookup b = Some ty -> lit_free ty = true.
Proof using field_lit_free index_lit_free. intros Hc Hl. destruct c; try done; injection Hc as <- <-; eauto. Qed.

Lemma register_ok (ty : InferType) u : wf (mapping u) -> step u (register_string_context_types is_string_context_type ty u) /\
  mapping (register_string_context_types is_string_context_type ty u) = mapping u /\
  forall θ, admits θ u -> admits θ (register_string_context_types is_string_context_type ty u).
Proof.
  intros Hw. assert (forall types : gset Type_, step u (extend_strings ∅ types u) /\ mapping (extend_strings ∅ types u) = mapping u /\
    forall θ, admits θ u -> admits θ (extend_strings ∅ types u)) as Hext.
  { intros types. split_and!; [|done|].
    - split; simpl; [done|apply refines_refl|done|done|done].
    - intros θ [H1 H2 H3 H4]. split; simpl; [done..|]. intros v Hv. destruct (H4 v) as (a & ? & ? & ?); [set_solver|]. exists a. set_solver. }
  assert (step u u /\ mapping u = mapping u /\ forall θ, admits θ u -> admits θ u) as Hid by (split_and!; [by apply step_refl|done..]).
  induction ty as [a|v| |e IH n]; simpl; [|done..|done]. by destruct (is_string_context_type (Concrete a)).
Qed.

Record round_inv u0 (errs0 : list UnificationError) (pre : list Constraint) (st : round_state) u : Prop := {
  ri_step : step u0 u;
  ri_errors : exists more, round_errors st = errs0 ++ more;
  ri_done c : c ∈ pre -> c ∈ next st \/ discharged (mapping u) c \/ reported (round_errors st) c;
  ri_next c : c ∈ next st -> c ∈ pre;
  ri_length : length (next st) <= length pre /\ (progress st = true -> length (next st) < length pre);
  ri_idle : progress st = false -> same (mapping u0) (mapping u) /\ forall c, c ∈ pre -> unavailable (mapping u) c;
  ri_complete : (forall t, equal t t = true) -> forall θ, admits θ u0 -> (forall c, c ∈ pre -> solves θ c) -> round_errors st = errs0 /\ admits θ u;
}.

Lemma round_inv_start u errs : wf (mapping u) -> round_inv u errs [] (mkRound errs [] false) u.
Proof.
  intros Hw. split; simpl; try done.
  - by apply step_refl.
  - exists []. by rw app_nil_r.
  - by intros c ?%not_elem_of_nil.
  - split; [done|]. by intros c ?%not_elem_of_nil.
Qed.

Lemma done_mono m m' errs errs' (nx nx' : list Constraint) c : wf m' -> refines m m' -> (exists more, errs' = errs ++ more) -> nx ⊆ nx' ->
  c ∈ nx \/ discharged m c \/ reported errs c -> c ∈ nx' \/ discharged m' c \/ reported errs' c.
Proof.
  intros Hw Href (more & ->) Hn [Hc|[Hc|Hc]]; [left; auto|right; left; by eapply discharged_refines|right; right; by apply reported_app].
Qed.

Lemma projection_step_ok u0 errs0 pre st u c : is_Some (projection_base c) -> constraint_lit_free c = true ->
  round_inv u0 errs0 pre st u ->
  wp (projection_step equal field_type index_element_type is_string_context_type st c) (round_inv u0 errs0 (pre ++ [c])) u.
Proof using field_lit_free index_lit_free.
  intros [[base lookup] Hc] Hlf [H1 H2 H3 H4 [H5 H5'] H6 H7]. pose proof (step_wf _ _ H1) as Hw. apply wp_bind.
  eapply wp_mono; [by apply (projected_ok c base lookup)|]. intros o u' (m & b & -> & Hm & Hb & ->).
  assert (step u (set_substitution m u)) as Hst by by apply step_compress. set (u1 := set_substitution m u) in *.
  destruct (lookup b) as [ty|] eqn:Hl.
  - apply wp_bind, wp_modify. destruct (register_ok ty u1 (step_wf _ _ Hst)) as (Hst2 & Hmap2 & Had2).
    set (u2 := register_string_context_types is_string_context_type ty u1) in *. pose proof (step_wf _ _ Hst2) as Hw2.
    pose proof (lookup_lit_free c base lookup b ty Hc Hl) as Hty. apply wp_bind.
    set (l := (projection_equation c ty).1). set (r := (projection_equation c ty).2).
    apply (wp_mono _ (fun errs' u3 => step u2 u3 /\
      ((errs' = round_errors st /\ equated equal (mapping u3) l r) \/ exists k, errs' = round_errors st ++ [mkError k (constraint_span c)]) /\
      ((forall t, equal t t = true) -> forall θ, admits θ u2 -> inst θ l = inst θ r -> errs' = round_errors st /\ admits θ u3))).
    { destruct c as [| | |bb f rr sp|bb f rr sp|bb rr sp|bb rr sp| | | |]; try done; simpl in Hlf; apply andb_true_iff in Hlf as [_ Hlr]; apply equation_ok; try done;
        first [by apply unify_with_ok|by apply unify_contextual_ok]. }
    intros errs' u3 (Hst3 & Hres & Hcomp). apply wp_ret.
    assert (step u u3) as Hst' by (eapply step_trans; [exact Hst|]; by eapply step_trans).
    assert (exists more, errs' = round_errors st ++ more) as Hmore.
    { destruct Hres as [[-> _]|[k ->]]; [exists []; by rw app_nil_r|eauto]. }
    split; simpl.
    + by eapply step_trans.
    + destruct Hmore as [more' ->], H2 as [more ->]. exists (more ++ more'). by rw app_assoc.
    + intros d [Hd| ->%list_elem_of_singleton]%elem_of_app.
      * eapply done_mono; [apply Hst'|apply Hst'|exact Hmore|done|by apply H3].
      * right. destruct Hres as [[-> Heq]|[k ->]]; [left|right; apply reported_last]. exists base, lookup, b, ty. split_and!; [done| |done|done].
        destruct (resolves_total (mapping u3) b) as [x Hx]; [apply Hst3|]. exists x. split; [by eapply (step_refines _ _ Hst')|done].
    + intros d Hd. apply elem_of_app. left. by apply H4.
    + rw length_app /=. lia.
    + done.
    + intros He θ Ha Hs. destruct (H7 He θ Ha) as [He0 Ha']; [intros d Hd; apply Hs, elem_of_app; by left|]. destruct (Hcomp He θ) as [He' Ha''].
      * apply Had2. by apply admits_compress.
      * assert (solves θ c) as Hsc by (apply Hs, elem_of_app; right; by left). rewrite /solves Hc in Hsc.
        assert (equation_of c = None) as Hne by by destruct c. rewrite Hne in Hsc. apply (Hsc b ty); [|done]. symmetry. by apply (admits_models _ _ Ha').
      * by rw He' He0.
  - apply wp_ret. split; simpl.
    + by eapply step_trans.
    + done.
    + intros d [Hd| ->%list_elem_of_singleton]%elem_of_app; [|left; apply elem_of_app; right; by left].
      eapply done_mono; [apply Hst|apply Hst|exists []; by rw app_nil_r| |by apply H3]. set_solver.
    + intros d [Hd| ->%list_elem_of_singleton]%elem_of_app; apply elem_of_app; [left; by apply H4|right; by left].
    + rw !length_app /=. split; [lia|]. intros Hp. specialize (H5' Hp). lia.
    + intros Hp. destruct (H6 Hp) as [Hs Hun]. assert (same (mapping u0) m) as Hs' by (transitivity (mapping u); [done|apply Hm]). split; [done|].
      intros d [Hd| ->%list_elem_of_singleton]%elem_of_app.
      * destruct (Hun d Hd) as (bb & ll & x & ? & Hx & ?). exists bb, ll, x. split_and!; [done|by apply (proj2 Hm)|done].
      * exists base, lookup, b. split_and!; [done|by apply (proj2 Hm)|done].
    + intros He θ Ha Hs. destruct (H7 He θ Ha) as [He0 Ha']; [intros d Hd; apply Hs, elem_of_app; by left|]. split; [done|]. by apply admits_compress.
Qed.

Lemma projection_loop_ok : forall fuel pending errs u, length pending < fuel -> wf (mapping u) ->
  (forall c, c ∈ pending -> is_Some (projection_base c) /\ constraint_lit_free c = true) ->
  wp (projection_loop equal field_type index_element_type is_string_context_type fuel pending errs) (fun errs' u' => step u u' /\
    (exists more, errs' = errs ++ more) /\
    (forall c, c ∈ pending -> discharged (mapping u') c \/ reported errs' c \/ unavailable (mapping u') c) /\
    ((forall t, equal t t = true) -> forall θ, admits θ u -> (forall c, c ∈ pending -> solves θ c) -> errs' = errs /\ admits θ u')) u.
Proof using field_lit_free index_lit_free.
  induction fuel as [|fuel IH]; intros pending errs u Hf Hw Hp; [lia|]. simpl. apply wp_bind.
  eapply wp_mono; [apply (wp_fold _ (round_inv u errs)); [by apply round_inv_start|]|].
  { intros pre c s u1 (post & ->) Hi. destruct (Hp c) as [? ?]; [apply elem_of_app; right; by left|]. by apply projection_step_ok. }
  intros st u1 [H1 H2 H3 H4 [H5 H5'] H6 H7]. destruct (progress st) eqn:Hprog; [destruct (next st) as [|d nx] eqn:Hnx|].
  - apply wp_ret. split_and!; [done|done| |done]. intros c Hc. destruct (H3 c Hc) as [[]%not_elem_of_nil|[?|?]]; auto.
  - eapply wp_mono; [apply (IH (d :: nx) (round_errors st) u1)|].
    + specialize (H5' eq_refl). lia.
    + apply H1.
    + intros c Hc. apply Hp. by apply H4.
    + intros errs' u' (Hst & Hmore & Hdone & Hcomp). split_and!.
      * by eapply step_trans.
      * destruct Hmore as [more' ->], H2 as [more ->]. exists (more ++ more'). by rw app_assoc.
      * intros c Hc. destruct (H3 c Hc) as [Hn|[Hd|Hr]]; [by apply Hdone| |].
        -- left. eapply discharged_refines; [apply Hst|apply Hst|done].
        -- right. left. destruct Hmore as [more' ->]. by apply reported_app.
      * intros He θ Ha Hs. destruct (H7 He θ Ha Hs) as [He0 Ha']. rw -He0. apply Hcomp; [done|done|]. intros c Hc. apply Hs. by apply H4.
  - apply wp_ret. split_and!; [done|done| |done]. intros c Hc. destruct (H6 eq_refl) as [_ Hun]. right. right. by apply Hun.
Qed.

(** ** Predicates *)

Definition accepts c (a : Type_) : bool :=
  match c with
  | IsSigned _ _ => ty_is_signed a || is_float a
  | IsInteger _ _ => is_integer a
  | IsNumeric _ _ => is_integer a || is_float a
  | IsUnsigned _ _ => ty_is_unsigned a
  | _ => false
  end.
Definition is_unsigned_check c : bool := match c with IsUnsigned _ _ => true | _ => false end.
Definition check_of c : inferM UnifyResult :=
  match c with
  | IsSigned t _ => check_signed t
  | IsInteger t _ => check_integer t
  | IsNumeric t _ => check_numeric t
  | IsUnsigned t _ => check_unsigned t
  | _ => mret UOk
  end.

Lemma unsigned_facts a : ty_is_unsigned a = true -> is_integer a = true /\ ty_is_signed a = false /\ is_float a = false /\ is_error a = false /\ is_never a = false.
Proof.
  intros Ha. assert (is_integer a = true) as Hi.
  { rewrite /ty_is_unsigned in Ha. rw /is_integer. by repeat case_match. }
  destruct (integer_not_bottom a Hi) as (? & ? & ?). split_and!; [done| |done..].
  rewrite /ty_is_unsigned in Ha. rw /ty_is_signed. by repeat case_match.
Qed.

Lemma check_of_ok c t0 u : predicate_of c = Some t0 -> wf (mapping u) -> wp (check_of c) (fun res u' => exists m s,
  u' = set_substitution m u /\ compresses (mapping u) m /\ resolves (mapping u) t0 s /\
  (result_is_ok res = true -> (is_unsigned_check c = true -> forall v, s <> Var v) -> lit_free s = true -> predicate_holds c s) /\
  ((forall a, s = Concrete a -> accepts c a = true) -> (forall e n, s <> Array e n) -> res = UOk)) u.
Proof.
  intros Hc Hw. destruct c as [| | | | | | |t sp|t sp|t sp|t sp]; try done; injection Hc as ->; apply wp_bind, wp_apply; try done; intros s m Hs Hm.
  1: apply wp_ret. 2-4: apply wp_bind, wp_gets, wp_ret.
  all: exists m, s; split_and!; [done..| |]; destruct s as [a|v| |e n]; simpl; try done.
  all: try (intros _ Hn; by destruct (Hn e n)).
  - intros Hok _ _ Hu. destruct (unsigned_facts a Hu) as (_ & H1 & H2 & H3 & H4). by rewrite H1 H2 H3 H4 /= Hu in Hok.
  - intros Ha _. pose proof (Ha a eq_refl) as Hb. apply orb_true_iff in Hb as [Hb|Hb]; rw Hb; [done|by rw orb_true_r].
  - by destruct (_ || _).
  - intros Ha _. by rw (Ha a).
  - by destruct (_ || _).
  - intros Ha _. by rw (Ha a).
  - by destruct (_ || _).
  - intros _ Hu _. by destruct (Hu eq_refl v).
  - intros Ha _. by rw (Ha a).
Qed.

Definition defaults_to (m : Substitution) (vs : gset nat) (m' : Substitution) : Prop :=
  forall ty t, resolves m ty t -> resolves m' ty (u64_default vs t).

Lemma u64_default_array vs e n : u64_default vs (Array e n) = Array (u64_default vs e) n.
Proof. done. Qed.
Lemma u64_default_var vs v : u64_default vs (Var v) = if decide (v ∈ vs) then Concrete TU64 else Var v.
Proof. done. Qed.
Lemma u64_default_none t : u64_default ∅ t = t.
Proof. induction t as [|v| |e IH n]; try done. by rw u64_default_array IH. Qed.
Lemma u64_default_union v vs t : u64_default {[v]} (u64_default vs t) = u64_default ({[v]} ∪ vs) t.
Proof.
  induction t as [|w| |e IH n]; try done; [|by rw !u64_default_array IH].
  rw !u64_default_var. destruct (decide (w ∈ vs)) as [Hw|Hw]; [rw decide_True //; set_solver|]. rw u64_default_var.
  destruct (decide (w ∈ {[v]})) as [Hv|Hv]; [rw decide_True //|rw decide_False //]; set_solver.
Qed.

Lemma predicate_holds_default c vs t : predicate_holds c t -> predicate_holds c (u64_default vs t).
Proof.
  destruct c as [| | | | | | |? ?|? ?|? ?|? ?], t as [a|v| |e n]; try done; rw /u64_default /=; by destruct (decide (v ∈ vs)).
Qed.

(** Giving an unbound variable the index type. *)
Lemma insert_u64 u v : wf (mapping u) -> get (mapping u) v = None ->
  step u (set_substitution (insert_var v (Concrete TU64) (mapping u)) u) /\
  defaults_to (mapping u) {[v]} (insert_var v (Concrete TU64) (mapping u)).
Proof.
  intros Hw Hv. assert (step u (set_substitution (insert_var v (Concrete TU64) (mapping u)) u)) as Hst by by apply step_insert.
  split; [done|]. intros ty t Ht. apply (step_refines _ _ Hst _ _ _ Ht). apply resolves_resolved in Ht. simpl.
  induction t as [a|w| |e IH n]; [constructor| |constructor|].
  - rw /u64_default /=. destruct (decide (w ∈ {[v]})) as [->%elem_of_singleton|Hn]; [by apply insert_resolves|].
    constructor. rw get_insert_var decide_False; [by apply Ht|set_solver].
  - constructor. by apply IH.
Qed.

Lemma defaults_to_trans m m' m'' vs v : defaults_to m vs m' -> defaults_to m' {[v]} m'' -> defaults_to m ({[v]} ∪ vs) m''.
Proof. intros H1 H2 ty t Ht. rw -u64_default_union. by apply H2, H1. Qed.
Lemma defaults_to_same m m' m'' vs : defaults_to m vs m' -> same m' m'' -> defaults_to m vs m''.
Proof. intros H1 H2 ty t Ht. by apply H2, H1. Qed.

Record predicate_inv u0 (errs0 : list UnificationError) (pre : list Constraint) (errs : list UnificationError) u : Prop := {
  pi_step : step u0 u;
  pi_errors : exists more, errs = errs0 ++ more;
  pi_done c : c ∈ pre -> reported errs c \/ exists t0 t, predicate_of c = Some t0 /\ resolves (mapping u) t0 t /\ predicate_holds c t;
  pi_defaults : exists vs, defaults_to (mapping u0) vs (mapping u) /\
    forall θ, admits θ u0 -> (forall c, c ∈ pre -> solves θ c) ->
      (forall v, v ∈ vs -> exists a, θ v = Concrete a /\ ty_is_unsigned a = true) /\ errs = errs0;
}.

Lemma predicate_solves θ c t0 : predicate_of c = Some t0 -> solves θ c <-> exists a, inst θ t0 = Concrete a /\ accepts c a = true.
Proof. intros Hc. by destruct c; try done; injection Hc as ->. Qed.

(** The check itself, once an index check has given its variable a type. *)
Lemma predicate_check_ok u0 errs0 pre errs u u1 vs c t0 : predicate_of c = Some t0 -> lit_free t0 = true -> wf (mapping u0) ->
  predicate_inv u0 errs0 pre errs u -> step u u1 -> defaults_to (mapping u0) vs (mapping u1) ->
  (exists vs', defaults_to (mapping u) vs' (mapping u1)) ->
  (is_unsigned_check c = true -> forall v, ~ resolves (mapping u1) t0 (Var v)) ->
  (forall θ, admits θ u0 -> (forall d, d ∈ pre ++ [c] -> solves θ d) -> forall v, v ∈ vs -> exists a, θ v = Concrete a /\ ty_is_unsigned a = true) ->
  wp (result ← check_of c; mret (if result_is_ok result then errs else errs ++ [mkError result (constraint_span c)]))
    (predicate_inv u0 errs0 (pre ++ [c])) u1.
Proof.
  intros Hc Hlf Hw0 [H1 H2 H3 (vs0 & _ & H4)] Hst Hdef [vs' Hvs'] Hnv Hvs. apply wp_bind.
  eapply wp_mono; [by apply (check_of_ok c t0), Hst|]. intros res u' (m & s & -> & Hm & Hs & Hok & Hacc). apply wp_ret.
  assert (step u1 (set_substitution m u1)) as Hst' by by apply step_compress. split.
  - eapply step_trans; [exact H1|]. by eapply step_trans.
  - destruct H2 as [more ->]. destruct (result_is_ok res); eauto. rw -app_assoc. eauto.
  - intros d [Hd| ->%list_elem_of_singleton]%elem_of_app.
    + destruct (H3 d Hd) as [Hr|(t & t' & Hd' & Ht & Hh)]; [left; by destruct (result_is_ok res); [|apply reported_app]|].
      right. exists t, (u64_default vs' t'). split_and!; [done|by apply (proj2 Hm), Hvs'|by apply predicate_holds_default].
    + destruct (result_is_ok res) eqn:He; [|left; apply reported_last]. right. exists t0, s. split_and!; [done|by apply (proj2 Hm)|].
      apply Hok; [done| |eapply resolves_lit_free; [apply Hst|exact Hs|done]]. intros Hu v ->. by apply (Hnv Hu v).
  - exists vs. split; [eapply defaults_to_same; [done|apply Hm]|]. intros θ Ha Hsol. split; [by apply Hvs|].
    destruct (H4 θ Ha) as [_ ->]; [intros d Hd; apply Hsol, elem_of_app; by left|].
    assert (solves θ c) as (a & Hia & Hacca)%(predicate_solves _ _ _ Hc) by (apply Hsol, elem_of_app; right; by left).
    rewrite Hacc; [done| |].
    + intros b ->. destruct (resolves_total (mapping u0) t0 Hw0) as [t Ht].
      pose proof (admits_models _ _ Ha _ _ Ht) as Hit. pose proof (Hdef _ _ Ht) as Ht1. pose proof (resolves_fun _ _ _ Hs _ Ht1) as Heq.
      destruct t as [x|v| |e n]; rewrite /u64_default /= in Heq; simplify_eq/=; [congruence|].
      destruct (decide (v ∈ vs)) as [Hv|]; simplify_eq/=. destruct (Hvs θ Ha Hsol v Hv) as (x & Hx & Hxu).
      assert (x = a) as -> by congruence. destruct (unsigned_facts a Hxu) as (Hi & Hsg & Hf & _).
      destruct c; try done; simpl in Hacca; by rewrite Hsg Hf in Hacca.
    + intros e n ->. destruct (resolves_total (mapping u0) t0 Hw0) as [t Ht].
      pose proof (admits_models _ _ Ha _ _ Ht) as Hit. pose proof (Hdef _ _ Ht) as Ht1. pose proof (resolves_fun _ _ _ Hs _ Ht1) as Heq.
      destruct t as [x|v| |e' n']; rewrite /u64_default /= in Heq; simplify_eq/=; [|congruence]. by destruct (decide (v ∈ vs)).
Qed.

Lemma wp_bind_inv {A B} (m : inferM A) (f : A -> inferM B) Q u : wp (m ≫= f) Q u -> wp m (fun a => wp (f a) Q) u.
Proof.
  intros (b & u'' & Hf & Hq). rewrite /mbind /inferM_bind in Hf. destruct (m u) as [[a u']|] eqn:Hm; [|done]. exists a, u'. split; [done|]. by exists b, u''.
Qed.

Lemma predicate_step_ok u0 errs0 pre errs u c : is_Some (predicate_of c) -> constraint_lit_free c = true -> wf (mapping u0) ->
  predicate_inv u0 errs0 pre errs u -> wp (predicate_step errs c) (predicate_inv u0 errs0 (pre ++ [c])) u.
Proof.
  intros [t0 Hc] Hlf Hw0 Hi. pose proof Hi as [H1 _ _ (vs & Hdef & Hθ)]. pose proof (step_wf _ _ H1) as Hw.
  assert (lit_free t0 = true) as Hlf0 by (by destruct c; try done; injection Hc as ->).
  assert (forall θ, admits θ u0 -> (forall d, d ∈ pre ++ [c] -> solves θ d) -> forall v, v ∈ vs -> exists a, θ v = Concrete a /\ ty_is_unsigned a = true) as Hvs.
  { intros θ Ha Hs. apply Hθ; [done|]. intros d Hd. apply Hs, elem_of_app. by left. }
  assert (exists vs', defaults_to (mapping u) vs' (mapping u)) as Hself.
  { exists ∅. intros ty t Ht. by rw u64_default_none. }
  destruct (is_unsigned_check c) eqn:Hu.
  2: { replace (predicate_step errs c) with (result ← check_of c; mret (if result_is_ok result then errs else errs ++ [mkError result (constraint_span c)]))
         by by destruct c. eapply (predicate_check_ok u0 errs0 pre errs u u vs); try done; [by apply step_refl|by rw Hu]. }
  destruct c as [| | | | | | | | | |t sp]; try done. injection Hc as ->. apply wp_bind, wp_bind, wp_apply; [done|]. intros t m Ht Hm.
  assert (step u (set_substitution m u)) as Hst by by apply step_compress. set (u1 := set_substitution m u) in *.
  pose proof (step_wf _ _ Hst) as Hw1. assert (resolves (mapping u1) t0 t) as Ht1 by by apply (proj2 Hm).
  assert (defaults_to (mapping u0) vs (mapping u1)) as Hdef1 by (eapply defaults_to_same; [done|apply Hm]).
  pose proof (resolves_lit_free _ _ _ Hw Ht Hlf0) as Hlft. apply wp_bind.
  destruct t as [a|v| |e n]; [| |done|].
  2: { apply wp_modify. assert (get (mapping u1) v = None) as Hv by by apply (resolves_resolved _ _ _ Ht1).
       destruct (insert_u64 u1 v Hw1 Hv) as [Hst2 Hd2]. set (u2 := set_substitution (insert_var v (Concrete TU64) (mapping u1)) u1) in *.
       apply (wp_bind_inv (check_of (IsUnsigned t0 sp))). eapply (predicate_check_ok u0 errs0 pre errs u u2 ({[v]} ∪ vs) _ t0); try done.
       - by eapply step_trans.
       - by eapply defaults_to_trans.
       - exists {[v]}. intros ty x Hx. apply Hd2. by apply (proj2 Hm).
       - intros _ w Hw'. assert (Var w = Concrete TU64) as Heq; [|done]. eapply resolves_fun; [exact Hw'|].
         specialize (Hd2 _ _ Ht1). by rewrite u64_default_var decide_True in Hd2; [|set_solver].
       - intros θ Ha Hs w [->%elem_of_singleton|Hwv]%elem_of_union; [|by eapply Hvs].
         destruct (Hs (IsUnsigned t0 sp)) as (a & Ha0 & Hau); [apply elem_of_app; right; by left|]. exists a. split; [|done].
         destruct (resolves_total (mapping u0) t0 Hw0) as [x Hx]. pose proof (Hdef1 _ _ Hx) as Hx1.
         pose proof (resolves_fun _ _ _ Hx1 _ Ht1) as Heq. rewrite (admits_models _ _ Ha _ _ Hx) in Ha0.
         destruct x as [b|z| |e n]; try done. rewrite u64_default_var in Heq. destruct (decide (z ∈ vs)); simplify_eq. done. }
  all: apply wp_ret, (wp_bind_inv (check_of (IsUnsigned t0 sp))); eapply (predicate_check_ok u0 errs0 pre errs u u1 vs _ t0); try done;
    [exists ∅; intros ty x Hx; rw u64_default_none; by apply (proj2 Hm)|]; intros _ w Hw'; by pose proof (resolves_fun _ _ _ Hw' _ Ht1).
Qed.

(** ** The solver *)

Lemma solve_ok cs u0 : wf (mapping u0) -> (forall c, c ∈ cs -> constraint_lit_free c = true) ->
  wp (solve_constraints_with_projections equal field_type index_element_type is_string_context_type cs) (fun errs u' => step u0 u' /\
    (forall c, c ∈ cs -> satisfied (mapping u') c \/ reported errs c) /\
    ((forall t, equal t t = true) -> forall θ, admits θ u0 -> (forall c, c ∈ cs -> solves θ c) -> errs = [] /\
      exists vs, (forall v, v ∈ vs -> exists a, θ v = Concrete a /\ ty_is_unsigned a = true) /\
        forall ty t', resolves (mapping u') ty t' -> exists t, t' = u64_default vs t /\ inst θ ty = inst θ t)) u0.
Proof using field_lit_free index_lit_free.
  intros Hw Hcs. apply wp_bind. eapply wp_mono; [apply (wp_fold _ (first_inv u0))|].
  { split; simpl; [by apply step_refl|by intros c ?%not_elem_of_nil..|done]. }
  { intros pre c s u (post & ->) Hi. apply first_pass_ok; [|done]. apply Hcs, elem_of_app. right. by left. }
  intros st u1 [F1 F2 F3 F4 F5]. pose proof (step_wf _ _ F1) as Hw1. apply wp_bind.
  eapply wp_mono; [apply (projection_loop_ok _ (projections st) (errors st)); [lia|done|]|].
  { intros c Hc. destruct (F3 c Hc). auto. }
  intros errs1 u2 (P1 & P2 & P3 & P4). pose proof (step_wf _ _ P1) as Hw2.
  eapply wp_mono; [apply (wp_fold _ (predicate_inv u2 errs1))|].
  { split; simpl; [by apply step_refl|exists []; by rw app_nil_r|by intros c ?%not_elem_of_nil|]. exists ∅. split; [intros ty t Ht; by rw u64_default_none|].
    intros θ _ _. split; [|done]. by intros v ?%not_elem_of_empty. }
  { intros pre c s u (post & Hpost) Hi. destruct (F4 c) as [Hc1 Hc2]; [rw Hpost; apply elem_of_app; right; by left|]. apply predicate_step_ok; auto. }
  intros errs u' [Q1 Q2 Q3 (vs & Q4 & Q5)]. assert (step u1 u') as Hst1 by by eapply step_trans. split_and!; [by eapply step_trans| |].
  - intros c Hc. destruct (F2 c Hc) as [Hr|Hd].
    { right. destruct P2 as [m1 P2], Q2 as [m2 ->]. rw P2. by do 2 apply reported_app. }
    rewrite /satisfied. destruct (equation_of c) as [[l r]|] eqn:He; [left; eapply equated_refines; [apply Hst1|apply Hst1|done]|].
    destruct (projection_base c) as [[base lookup]|] eqn:Hp.
    + destruct (P3 c Hd) as [Hd'|[Hr|Hun]].
      * left. left. eapply discharged_refines; [apply Q1|apply Q1|done].
      * right. destruct Q2 as [m2 ->]. by apply reported_app.
      * left. right. destruct Hun as (base' & lookup' & b & Hp' & Hb & Hl). assert (base' = base /\ lookup' = lookup) as [-> ->] by (split; congruence).
        exists b, vs. split; [by apply Q4|done].
    + destruct (Q3 c Hd) as [Hr|(t0 & t & Ht0 & Ht & Hh)]; [by right|]. left. rw Ht0. eauto.
  - intros Heq θ Ha Hs. destruct (F5 Heq θ Ha Hs) as [E1 A1]. destruct (P4 Heq θ A1) as [E2 A2]; [intros c Hc; apply Hs; by destruct (F3 c Hc)|].
    destruct (Q5 θ A2) as [Hvs E3]; [intros c Hc; apply Hs; by destruct (F4 c Hc)|]. split; [congruence|]. exists vs. split; [done|].
    intros ty t' Ht'. destruct (resolves_total (mapping u2) ty Hw2) as [t Ht]. exists t. split; [|by apply (admits_models _ _ A2)].
    eapply resolves_fun; [exact Ht'|by apply Q4].
Qed.
End Solving.
