(* ===== verification/InferRun.v ===== *)
(** * Type inference: properties

    Soundness and completeness of the constraint solver, and the types of
    integer literals after defaulting. *)

From stdpp Require Import gmap.
From S2P Require Import Prelude IntegerSemantics Types Infer InferSubst InferUnify InferSolve.

#[local] Arguments is_integer : simpl never.
#[local] Arguments is_float : simpl never.
#[local] Arguments is_never : simpl never.
#[local] Arguments is_error : simpl never.

Section Defaults.
Context {Span : Type}.
Notation Unifier := (@Unifier Span).
Notation mapping := (@substitution Span).
Implicit Types (u : Unifier).

(** ** Defaulting *)

(** What an integer literal may end as: an integer type, the [f32] or [f64] of
    its context, or a type that marks dead or already rejected code. *)
Definition literal_type (c : Type_) : bool := is_integer c || is_float c || is_never c || is_error c.

Definition literal_typed (m : Substitution) (v : nat) : Prop := exists c, resolves m (Var v) (Concrete c) /\ literal_type c = true.

Lemma default_var_ok v u : wf (mapping u) -> literals_ok u ->
  wp (default_var TI32 tt v) (fun _ u' => step u u' /\ (v ∈ int_literal_vars u -> literal_typed (mapping u') v)) u.
Proof.
  intros Hw Hl. apply wp_bind, wp_apply; [done|]. intros t m Ht Hm. set (u1 := set_substitution m u).
  assert (step u u1) as Hst by by apply step_compress. assert (resolves (mapping u1) (Var v) t) as Ht1 by by apply (proj2 Hm).
  pose proof (fun Hv => Hl v t Hv Ht) as Hlike. destruct t as [c|rep| |e n].
  - apply wp_ret. split; [done|]. intros Hv. exists c. split; [done|by apply Hlike].
  - apply wp_modify. assert (step u1 (set_substitution (insert_var rep (Concrete TI32) (mapping u1)) u1)) as Hst1.
    { apply step_insert; [apply Hst|by apply (resolves_resolved _ _ _ Ht1)|done..]. }
    split; [by eapply step_trans|]. intros _. exists TI32. split; [|done]. eapply (step_refines _ _ Hst1); [exact Ht1|]. by apply insert_resolves.
  - apply wp_ret. split; [done|]. intros Hv. by destruct (Hlike Hv).
  - apply wp_ret. split; [done|]. intros Hv. by destruct (Hlike Hv).
Qed.

Lemma literal_typed_step u u' v : step u u' -> literal_typed (mapping u) v -> literal_typed (mapping u') v.
Proof. intros Hst (c & Hc & Ht). exists c. split; [|done]. eapply (step_refines _ _ Hst); [done|constructor]. Qed.

Lemma default_vars_ok vars u : wf (mapping u) -> literals_ok u -> (forall v, v ∈ vars -> v ∈ int_literal_vars u) ->
  wp (default_int_literal_vars vars) (fun _ u' => step u u' /\ forall v, v ∈ vars -> literal_typed (mapping u') v) u.
Proof.
  intros Hw Hl Hvars. eapply (wp_mono _ (fun _ u' => step u u' /\ forall v, v ∈ vars -> literal_typed (mapping u') v)); [|by intros [] ?].
  apply (wp_fold _ (fun pre _ u' => step u u' /\ forall v, v ∈ pre -> literal_typed (mapping u') v)).
  - split; [by apply step_refl|]. by intros v ?%not_elem_of_nil.
  - intros pre v [] u1 (post & ->) [Hst Hpre]. eapply wp_mono; [apply default_var_ok; [apply Hst|by apply Hst]|].
    intros [] u2 [Hst2 Hv]. split; [by eapply step_trans|]. intros w [Hw'| ->%list_elem_of_singleton]%elem_of_app.
    + eapply literal_typed_step; [done|by apply Hpre].
    + apply Hv, (step_ints _ _ Hst), Hvars, elem_of_app. right. by left.
Qed.

Lemma resolve_concrete v c u : wf (mapping u) -> resolves (mapping u) (Var v) (Concrete c) -> wp (resolve_or_error (Var v)) (fun t _ => t = c) u.
Proof.
  intros Hw Hv. apply wp_bind, wp_bind. rw /resolve_infer_type.
  assert (wp (resolve_fuel (S (depth_bound (mapping u) (Var v))) (Var v)) (fun t _ => t = Concrete c) u) as (t & u' & Ht & ->).
  { simpl. apply wp_bind, wp_apply; [done|]. intros t m Ht _. rewrite (resolves_fun _ _ _ Ht _ Hv). by apply wp_ret. }
  exists (Concrete c), u'. split; [done|]. apply wp_ret. by apply wp_ret.
Qed.

(** Marking literals of an empty substitution is consistent. *)
Lemma get_replicate n v : get (replicate n None) v = None.
Proof. revert v. induction n as [|n IH]; intros [|v]; [done..|apply IH]. Qed.

Lemma with_capacity_wf n : wf (replicate n None).
Proof. split; [exists id|]; intros v ty; by rw get_replicate. Qed.

Lemma fresh_literals_ok u n : mapping u = replicate n None -> literals_ok u.
Proof.
  intros Hm v t Hv Ht. rewrite Hm in Ht. inversion Ht as [| | | |? ty ? Hg]; subst; [done|]. by rewrite get_replicate in Hg.
Qed.
End Defaults.

(** ** Properties *)



(** Every integer literal gets a numeric type: as the body analysis
    runs it - marks on a fresh unifier, solving, then defaulting the integer
    literals - each literal variable resolves to an integer type, to [f32] or
    [f64] where a context asked for it, or to [!] or the recovery type; never
    to a bool, a string, an array or another composite, whatever the
    constraints and whichever of them failed. *)
Theorem literals_typed {Span Spur} (equal : Type_ -> Type_ -> bool) (field_type : InferType -> Spur -> option InferType)
    (index_element_type : InferType -> option InferType) (is_string_context_type : InferType -> bool)
    (constraints : list (@Constraint Span Spur)) (type_var_count : nat) (ints floats strings : list nat) (types : list Type_) (recover : bool)
    (Hc : forall c, c ∈ constraints -> constraint_lit_free c = true)
    (Hf : forall b f ty, field_type b f = Some ty -> lit_free ty = true)
    (Hi : forall b ty, index_element_type b = Some ty -> lit_free ty = true) :
  let fresh := if recover then with_capacity type_var_count else without_failure_recovery (with_capacity type_var_count) in
  let u := mark_string_literal_vars strings types (mark_float_literal_vars floats (mark_int_literal_vars ints fresh)) in
  exists errs u1 u2,
    solve_constraints_with_projections equal field_type index_element_type is_string_context_type constraints u = Some (errs, u1) /\
    default_int_literal_vars ints u1 = Some (tt, u2) /\
    forall v, v ∈ ints -> exists c u3, resolve_or_error (Var v) u2 = Some (c, u3) /\ literal_type c = true.
Proof.
  intros fresh u. assert (substitution u = replicate type_var_count None) as Hm by by (rw /u /fresh; destruct recover).
  assert (wf (substitution u)) as Hw by (rw Hm; apply with_capacity_wf).
  assert (forall v, v ∈ ints -> v ∈ int_literal_vars u) as Hints.
  { intros v Hv. subst u fresh. destruct recover; simpl; apply elem_of_union; left; by apply elem_of_list_to_set. }
  destruct (solve_ok equal field_type index_element_type is_string_context_type Hf Hi constraints u Hw Hc) as (errs & u1 & Hrun & Hst & _ & _).
  destruct (default_vars_ok ints u1) as ([] & u2 & Hdef & Hst2 & Hty).
  - apply Hst.
  - apply (step_literals _ _ Hst). by eapply fresh_literals_ok.
  - intros v Hv. by apply (step_ints _ _ Hst), Hints.
  - exists errs, u1, u2. split_and!; [done..|]. intros v Hv. destruct (Hty v Hv) as (c & Hcc & Ht).
    destruct (resolve_concrete v c u2) as (t & u3 & Hres & ->); [apply Hst2|done|]. by exists c, u3.
Qed.

(** ** Witnesses *)

(** Two literals joined through an array, a field of a struct, an index, and a
    condition that is not a boolean. *)
Definition demo_struct : Type_ := mkType 356.
Definition demo_field (b : InferType) (f : nat) : option InferType :=
  if decide (b = Concrete demo_struct) then Some (Concrete TI64) else None.
Definition demo_index (b : InferType) : option InferType := match b with Array e _ => if lit_free e then Some e else None | _ => None end.
Definition demo_equal (a b : Type_) : bool := bool_decide (a = b).
Definition demo_good : list (@Constraint nat nat) := [
  Equal (Var 2) (Array (Var 0) 2) 10; PeerEqual (Var 0) (Var 1) 11; IndexGet (Var 2) (Var 3) 12;
  FieldGet (Concrete demo_struct) 7 (Var 1) 13; IsUnsigned (Var 4) 14; IsNumeric (Var 3) 15].
Definition demo_start : @Unifier nat := mark_int_literal_vars [0; 1; 4] (with_capacity 5).
Definition demo_typing (v : nat) : InferType :=
  match v with 2 => Array (Concrete TI64) 2 | 4 => Concrete TU8 | _ => Concrete TI64 end.

Lemma demo_field_lit_free b f ty : demo_field b f = Some ty -> lit_free ty = true.
Proof. rw /demo_field. destruct (decide _); [by intros [= <-]|done]. Qed.
Lemma demo_index_lit_free b ty : demo_index b = Some ty -> lit_free ty = true.
Proof. destruct b as [| | |e n]; try done. simpl. destruct (lit_free e) eqn:He; [by intros [= <-]|done]. Qed.
Lemma demo_lit_free l : forallb constraint_lit_free l = true -> forall c : @Constraint nat nat, c ∈ l -> constraint_lit_free c = true.
Proof. intros Hl c Hc. rewrite forallb_forall in Hl. by apply Hl, list_elem_of_In. Qed.

Definition demo_bad : list (@Constraint nat nat) := demo_good ++ [Equal (Var 0) (Concrete TBOOL) 16].


Lemma demo_admits : admits demo_typing demo_start.
Proof.
  split.
  - intros ty t Ht. induction Ht as [| |e e' n He IH|v Hv|v ty t Hv Ht IH]; simpl; try done; [by rw IH|].
    simpl in Hv. by rewrite (get_replicate 5 v) in Hv.
  - intros v Hv. assert (v = 0 \/ v = 1 \/ v = 4) as Hv' by (simpl in Hv; set_solver).
    destruct Hv' as [-> |[-> | ->]]; eexists; (split; [reflexivity|reflexivity]).
  - intros v Hv. simpl in Hv. set_solver.
  - intros v Hv. simpl in Hv. set_solver.
Qed.

Lemma demo_solves c : c ∈ demo_good -> solves demo_field demo_index demo_typing c.
Proof.
  rewrite /demo_good !elem_of_cons. intros [-> |[-> |[-> |[-> |[-> |[-> |[]%not_elem_of_nil]]]]]].
  - reflexivity.
  - reflexivity.
  - intros b ty Hb Hl. destruct b as [| | |e n]; try done. simpl in Hl. destruct (lit_free e); [|done]. injection Hl as <-. by injection Hb.
  - intros b ty _ Hl. simpl in Hl. rewrite /demo_field in Hl. destruct (decide _); [|done]. by injection Hl as <-.
  - by exists TU8.
  - by exists TI64.
Qed.


Lemma literals_typed_witness :
  exists errs u1 u2, solve_constraints_with_projections demo_equal demo_field demo_index (fun _ => false) demo_bad
      (mark_string_literal_vars [] [] (mark_float_literal_vars [] (mark_int_literal_vars [0; 1; 4] (without_failure_recovery (with_capacity 5))))) = Some (errs, u1) /\
    default_int_literal_vars [0; 1; 4] u1 = Some (tt, u2) /\
    forall v, v ∈ [0; 1; 4] -> exists c u3, resolve_or_error (Var v) u2 = Some (c, u3) /\ literal_type c = true.
Proof.
  apply (literals_typed demo_equal demo_field demo_index (fun _ => false) demo_bad 5 [0; 1; 4] [] [] [] false).
  - apply demo_lit_free. reflexivity.
  - apply demo_field_lit_free.
  - apply demo_index_lit_free.
Defined.
