(* ===== verification/Allocator.v ===== *)
(** * The runtime allocator

    [crates/rue-allocator/src/lib.rs]: power-of-two classes served from bump
    arenas with intrusive free lists, and dedicated mappings for larger
    requests.  Memory is bytes; every access of the allocator is checked
    against the live mappings, and an access outside them, a failed assertion
    or a lock that is never released is [None].  [debug] selects the build:
    [cfg(debug_assertions)] adds a header in front of every allocation.

    The page mapper is the interface [PageMapper]; what is assumed of it is
    its documented contract, [MapperLaws]. *)

From S2P Require Import Prelude.
Import Machine.
Local Open Scope Z_scope.

Definition PAGE_SIZE : Z := 4096.
Definition ARENA_SIZE : Z := 64 * 1024.
Definition MAX_SMALL_SIZE : Z := 16 * 1024.
Definition MIN_CLASS_SIZE : Z := 8.
Definition MIN_CLASS_SHIFT : Z := trailing_zeros MIN_CLASS_SIZE.
Definition MAX_CLASS_SHIFT : Z := trailing_zeros MAX_SMALL_SIZE.
Definition CLASS_COUNT : Z := MAX_CLASS_SHIFT - MIN_CLASS_SHIFT + 1.

(** [size_of] of the two headers stored in memory. *)
Definition ARENA_HEADER : Z := 24.
Definition ALLOCATION_HEADER : Z := 48.
Definition DEBUG_HEADER_MAGIC : Z := 0x525545414c4c4f43.
Definition DIRECT_KIND : Z := 2 ^ 64 - 1.

(** ** Classification *)

Record SmallClass := mkClass { index : Z; block_size : Z; block_align : Z }.
Inductive AllocationKind := Small (class : SmallClass) | Direct (mapping_size : Z).

#[export] Instance SmallClass_eq_dec : EqDecision SmallClass.
Proof. solve_decision. Defined.
#[export] Instance AllocationKind_eq_dec : EqDecision AllocationKind.
Proof. solve_decision. Defined.

Definition classify (size align : Z) : option AllocationKind :=
  if (size =? 0) || (align =? 0) || negb (is_power_of_two align) || (PAGE_SIZE <? align) then None else
  let direct := mapping_size ← checked_next_multiple_of 64 size PAGE_SIZE; Some (Direct mapping_size) in
  if size <=? MAX_SMALL_SIZE then
    let required := (size `max` align) `max` MIN_CLASS_SIZE in
    block_size ← checked_next_power_of_two 64 required;
    if block_size <=? MAX_SMALL_SIZE then
      Some (Small (mkClass (trailing_zeros block_size - MIN_CLASS_SHIFT) block_size
                     (block_size `min` PAGE_SIZE)))
    else direct
  else direct.

Definition checked_align_up (value align : Z) : option Z :=
  added ← checked_u 64 (value + (align - 1)); Some (Z.land added (Z.lnot (align - 1))).

Definition allocation_kind_key (kind : AllocationKind) : Z :=
  match kind with Small class => index class | Direct _ => DIRECT_KIND end.

(** ** Memory *)

Definition Memory : Type := Z -> Z.

(** Little-endian words. *)
Fixpoint read_le (n : nat) (m : Memory) (a : Z) : Z :=
  match n with O => 0 | S n => m a + 256 * read_le n m (a + 1) end.
Definition write_le (len : Z) (m : Memory) (a v : Z) : Memory := fun x =>
  if (a <=? x) && (x <? a + len) then (v / 256 ^ (x - a)) mod 256 else m x.
Definition copy_bytes (m : Memory) (src dst n : Z) : Memory := fun x =>
  if (dst <=? x) && (x <? dst + n) then m (src + (x - dst)) else m x.

(** ** The mapper *)

Class PageMapper := {
  world : Type;
  allocation_permitted : world -> bool * world;
  os_map : Z -> world -> Z * world;
  os_unmap : Z -> Z -> world -> world;
}.

(** Base and size of a live mapping. *)
Definition Mapping : Type := Z * Z.

Definition apart (e e' : Z * Z) : Prop := e.1 + e.2 <= e'.1 \/ e'.1 + e'.2 <= e.1.

(** The contract of [PageMapper]: [live w maps] relates the mapper's state to
    the mappings that are live; a fresh one is page-aligned, exclusive, and
    inside the address space. *)
Class MapperLaws `{PageMapper} := {
  live_maps : world -> list Mapping -> Prop;
  live_permitted w maps : live_maps w maps -> live_maps (allocation_permitted w).2 maps;
  live_map w maps size : live_maps w maps -> 0 < size -> size mod PAGE_SIZE = 0 ->
    let '(p, w') := os_map size w in
    p = 0 /\ live_maps w' maps \/
    0 < p /\ p mod PAGE_SIZE = 0 /\ p + size <= 2 ^ 64 /\
    Forall (apart (p, size)) maps /\ live_maps w' ((p, size) :: maps);
  live_unmap w maps maps' p size : live_maps w maps -> maps ≡ₚ (p, size) :: maps' ->
    live_maps (os_unmap p size w) maps';
}.

(** ** State and effects *)

Record St `{PageMapper} := mkSt {
  mem : Memory;
  maps : list Mapping;
  os : world;
  locked : bool;
  current_arena : Z;
  free_lists : list Z;
}.

Section Code.
Context `{PageMapper} (debug : bool).

Definition M (A : Type) : Type := St -> option (A * St).
#[local] Instance M_ret : MRet M := fun A a st => Some (a, st).
#[local] Instance M_bind : MBind M := fun A B f m st =>
  match m st with Some (a, st') => f a st' | None => None end.

Definition fail {A} : M A := fun _ => None.
Definition get {A} (f : St -> A) : M A := fun st => Some (f st, st).
Definition assert_that (b : bool) : M unit := if b then mret tt else fail.
Definition lift {A} (o : option A) : M A := match o with Some a => mret a | None => fail end.

Definition with_mem (m : Memory) (st : St) : St :=
  mkSt _ m (maps st) (os st) (locked st) (current_arena st) (free_lists st).
Definition with_locked (b : bool) (st : St) : St :=
  mkSt _ (mem st) (maps st) (os st) b (current_arena st) (free_lists st).
Definition with_arena (a : Z) (st : St) : St :=
  mkSt _ (mem st) (maps st) (os st) (locked st) a (free_lists st).
Definition with_free_lists (l : list Z) (st : St) : St :=
  mkSt _ (mem st) (maps st) (os st) (locked st) (current_arena st) l.

(** [n] bytes at [a] lie in one live mapping. *)
Definition mapped (st : St) (a n : Z) : bool :=
  existsb (fun m => (m.1 <=? a) && (a + n <=? m.1 + m.2)) (maps st).

Definition read_u64 (a : Z) : M Z := fun st =>
  if mapped st a 8 then Some (read_le 8 (mem st) a, st) else None.
Definition write_u64 (a v : Z) : M unit := fun st =>
  if mapped st a 8 then Some (tt, with_mem (write_le 8 (mem st) a v) st) else None.
Definition copy_nonoverlapping (src dst n : Z) : M unit := fun st =>
  if mapped st src n && mapped st dst n && ((src + n <=? dst) || (dst + n <=? src))
  then Some (tt, with_mem (copy_bytes (mem st) src dst n) st) else None.

(** [M::map] and [M::unmap]; unmapping anything but a live mapping is
    undefined behaviour. *)
Definition map_pages (size : Z) : M Z := fun st =>
  let '(p, w) := os_map size (os st) in
  let maps' := if p =? 0 then maps st else (p, size) :: maps st in
  Some (p, mkSt _ (mem st) maps' w (locked st) (current_arena st) (free_lists st)).
Definition unmap_pages (p size : Z) : M unit := fun st =>
  match list_find (eq (p, size)) (maps st) with
  | Some (i, _) =>
      Some (tt, mkSt _ (mem st) (delete i (maps st)) (os_unmap p size (os st)) (locked st)
                  (current_arena st) (free_lists st))
  | None => None
  end.

Definition permitted : M bool := fun st =>
  let '(b, w) := allocation_permitted (os st) in
  Some (b, mkSt _ (mem st) (maps st) w (locked st) (current_arena st) (free_lists st)).

(** The spin lock: alone, [lock] returns at once or spins for ever. *)
Definition lock : M unit := fun st => if locked st then None else Some (tt, with_locked true st).
Definition unlock : M unit := fun st => Some (tt, with_locked false st).
(** A guarded block: the guard is dropped on every exit. *)
Definition guarded {A} (body : M A) : M A := lock ;; a ← body; unlock ;; mret a.

(** ** Allocation headers (debug builds) *)

Definition write_allocation_header (pointer size align raw_pointer mapping_size kind : Z) : M unit :=
  let header := pointer - ALLOCATION_HEADER in
  write_u64 header DEBUG_HEADER_MAGIC;; write_u64 (header + 8) size;; write_u64 (header + 16) align;;
  write_u64 (header + 24) raw_pointer;; write_u64 (header + 32) mapping_size;; write_u64 (header + 40) kind.

Record AllocationHeader := mkHeader { raw_pointer : Z; h_mapping_size : Z; kind : Z }.

Definition validate_allocation_header (pointer size align : Z) : M AllocationHeader :=
  let header := pointer - ALLOCATION_HEADER in
  magic ← read_u64 header; s ← read_u64 (header + 8); al ← read_u64 (header + 16);
  raw ← read_u64 (header + 24); ms ← read_u64 (header + 32); k ← read_u64 (header + 40);
  assert_that (magic =? DEBUG_HEADER_MAGIC);; assert_that (s =? size);; assert_that (al =? align);;
  mret (mkHeader raw ms k).

Definition update_allocation_size (pointer size : Z) : M unit :=
  write_u64 (pointer - ALLOCATION_HEADER + 8) size.

(** ** Small blocks *)

Definition allocate_from_arena (arena : Z) (class : SmallClass) (size align : Z) : M (option Z) :=
  arena_size ← read_u64 (arena + 8);
  offset ← read_u64 (arena + 16);
  match pointer_offset ←
          (if debug
           then start ← checked_u 64 (offset + ALLOCATION_HEADER); checked_align_up start (block_align class)
           else checked_align_up offset (block_align class));
        new_offset ← checked_u 64 (pointer_offset + block_size class);
        Some (pointer_offset, new_offset) with
  | None => mret None
  | Some (pointer_offset, new_offset) =>
      if arena_size <? new_offset then mret None else
      write_u64 (arena + 16) new_offset;;
      let pointer := arena + pointer_offset in
      (if debug then write_allocation_header pointer size align 0 0 (index class) else mret tt);;
      mret (Some pointer)
  end.

(** The [loop] of [allocate_small]; [fuel] bounds its iterations. *)
Fixpoint arena_loop (fuel : nat) (class : SmallClass) (size align : Z) : M Z :=
  match fuel with
  | O => fail
  | S fuel =>
      arena ← get current_arena;
      bumped ← (if arena =? 0 then mret None else allocate_from_arena arena class size align);
      match bumped with
      | Some pointer => mret pointer
      | None =>
          mapping ← map_pages ARENA_SIZE;
          if mapping =? 0 then mret 0 else
          write_u64 mapping arena;; write_u64 (mapping + 8) ARENA_SIZE;;
          write_u64 (mapping + 16) ARENA_HEADER;;
          (fun st => Some (tt, with_arena mapping st));;
          arena_loop fuel class size align
      end
  end.

Definition free_head (i : Z) : M Z :=
  l ← get free_lists; if i <? 0 then fail else lift (l !! Z.to_nat i).
Definition set_free_head (i p : Z) : M unit := fun st =>
  Some (tt, with_free_lists (<[Z.to_nat i := p]> (free_lists st)) st).

Definition allocate_small (fuel : nat) (class : SmallClass) (size align : Z) : M Z :=
  guarded (
    free ← free_head (index class);
    if negb (free =? 0) then
      next ← read_u64 free;
      set_free_head (index class) next;;
      (if debug then write_allocation_header free size align 0 0 (index class) else mret tt);;
      mret free
    else arena_loop fuel class size align).

Definition release_small (pointer class_index : Z) : M unit :=
  guarded (
    head ← free_head class_index;
    write_u64 pointer head;;
    set_free_head class_index pointer).

(** ** The public operations *)

Definition allocate_direct (mapping_size size align : Z) : M Z :=
  if debug then
    match checked_align_up ALLOCATION_HEADER align with
    | None => mret 0
    | Some payload_offset =>
        match (sum ← checked_u 64 (mapping_size + payload_offset); checked_next_multiple_of 64 sum PAGE_SIZE) with
        | None => mret 0
        | Some physical =>
            raw ← map_pages physical;
            if raw =? 0 then mret 0 else
            let pointer := raw + payload_offset in
            write_allocation_header pointer size align raw physical DIRECT_KIND;;
            mret pointer
        end
    end
  else map_pages mapping_size.

Definition allocate (size align : Z) : M Z :=
  ok ← permitted;
  if negb ok then mret 0 else
  match classify size align with
  | None => mret 0
  | Some (Small class) => allocate_small 2 class size align
  | Some (Direct mapping_size) => allocate_direct mapping_size size align
  end.

Definition deallocate (pointer size align : Z) : M unit :=
  if pointer =? 0 then mret tt else
  if debug then
    record ← validate_allocation_header pointer size align;
    if kind record =? DIRECT_KIND then unmap_pages (raw_pointer record) (h_mapping_size record)
    else release_small pointer (kind record)
  else
    match classify size align with
    | None => mret tt
    | Some (Small class) => release_small pointer (index class)
    | Some (Direct mapping_size) => unmap_pages pointer mapping_size
    end.

Definition resize_in_place (pointer old_size new_size align : Z) : M bool :=
  if pointer =? 0 then mret false else
  record ← (if debug then validate_allocation_header pointer old_size align else mret (mkHeader 0 0 0));
  if new_size =? 0 then mret false else
  match classify old_size align, classify new_size align with
  | Some old_kind, Some new_kind =>
      (if debug then assert_that (kind record =? allocation_kind_key old_kind) else mret tt);;
      if decide (old_kind = new_kind) then
        (if debug then update_allocation_size pointer new_size else mret tt);; mret true
      else mret false
  | _, _ => mret false
  end.

Definition reallocate (pointer old_size new_size align : Z) : M Z :=
  if pointer =? 0 then allocate new_size align else
  record ← (if debug then validate_allocation_header pointer old_size align else mret (mkHeader 0 0 0));
  if new_size =? 0 then deallocate pointer old_size align;; mret 0 else
  match classify old_size align, classify new_size align with
  | Some old_kind, Some new_kind =>
      (if debug then assert_that (kind record =? allocation_kind_key old_kind) else mret tt);;
      if decide (old_kind = new_kind) then
        (if debug then update_allocation_size pointer new_size else mret tt);; mret pointer
      else
        replacement ← allocate new_size align;
        if replacement =? 0 then mret 0 else
        copy_nonoverlapping pointer replacement (old_size `min` new_size);;
        deallocate pointer old_size align;;
        mret replacement
  | _, _ => mret 0
  end.

Definition allocator_new (m : Memory) (w : world) : St :=
  mkSt _ m [] w false 0 (replicate (Z.to_nat CLASS_COUNT) 0).
End Code.
