(* ===== verification/AllocatorInv.v ===== *)
(** * Allocator: ownership of memory

    The arithmetic of size classes, word access, and the invariant that ties
    the allocator's memory to the blocks it has handed out. *)

From S2P Require Import Prelude Allocator.
From stdpp Require Import gmap sorting.
From Stdlib Require List.
Import Machine.
Local Open Scope Z_scope.

(** ** Size classes *)

Lemma pow2_is_power_of_two k : 0 <= k -> is_power_of_two (2 ^ k) = true.
Proof.
  intros Hk. rewrite /is_power_of_two andb_true_iff Z.ltb_lt Z.eqb_eq. split; [lia|].
  rewrite land_mask //. apply Z.mod_same. lia.
Qed.

Lemma trailing_zeros_pow k : 0 <= k -> trailing_zeros (2 ^ k) = k.
Proof. intros Hk. rewrite trailing_zeros_pow2; [by apply Z.log2_pow2|by apply pow2_is_power_of_two]. Qed.

Lemma next_power_of_two n : 1 <= n <= 2 ^ 63 -> exists k, 0 <= k <= 63 /\
  checked_next_power_of_two 64 n = Some (2 ^ k) /\ n <= 2 ^ k < 2 * n.
Proof.
  intros Hn. rewrite /checked_next_power_of_two. destruct (Z.leb_spec n 1).
  - exists 0. split; [lia|]. split; [by apply checked_u_in|lia].
  - destruct (Z.log2_spec (n - 1)) as [Hlo Hhi]; [lia|]. pose proof (Z.log2_nonneg (n - 1)) as Hp.
    assert (Z.log2 (n - 1) < 63) as Hlt by (apply Z.log2_lt_pow2; lia).
    exists (Z.log2 (n - 1) + 1). rewrite Z.add_1_r in Hhi |- *. split; [lia|].
    assert (2 ^ Z.succ (Z.log2 (n - 1)) = 2 * 2 ^ Z.log2 (n - 1)) as Hs by (by rewrite Z.pow_succ_r).
    split; [|lia]. apply checked_u_in. split; [lia|]. apply Z.pow_lt_mono_r; lia.
Qed.

Lemma next_multiple_of n m : 0 <= n -> 0 < m -> match checked_next_multiple_of 64 n m with
  | Some r => r mod m = 0 /\ n <= r < n + m /\ (n < 2 ^ 64 -> r < 2 ^ 64)
  | None => n mod m <> 0 /\ 2 ^ 64 <= n + (m - n mod m)
  end.
Proof.
  intros Hn Hm. rewrite /checked_next_multiple_of. destruct (Z.eqb_spec m 0); [lia|].
  pose proof (Z.mod_pos_bound n m Hm) as Hr. destruct (Z.eqb_spec (n mod m) 0) as [Hz|Hz]; [lia|].
  destruct (checked_u 64 _) as [r|] eqn:Hc.
  - apply checked_u_Some in Hc as [-> [_ Hlt]]. split; [|lia].
    pose proof (Z.div_mod n m ltac:(lia)) as Hd.
    replace (n + (m - n mod m)) with ((n / m + 1) * m) by lia. apply Z.mod_mul. lia.
  - split; [done|]. destruct (Z.lt_ge_cases (n + (m - n mod m)) (2 ^ 64)); [|done].
    rewrite checked_u_in in Hc; [done|]. split; lia.
Qed.

(** The supported alignments. *)
Lemma align_cases a : is_power_of_two a = true -> a <= PAGE_SIZE ->
  exists j, (j <= 12)%nat /\ a = 2 ^ Z.of_nat j.
Proof.
  intros Hp Ha. destruct (power_of_two_spec a Hp) as [H0 ->].
  pose proof (Z.log2_nonneg a) as Hl. exists (Z.to_nat (Z.log2 a)). rewrite Z2Nat.id //. split; [|done].
  pose proof (Z.log2_le_mono a PAGE_SIZE Ha) as Hm. change (Z.log2 PAGE_SIZE) with 12 in Hm. lia.
Qed.

Lemma pow2_divide j k : 0 <= j <= k -> (2 ^ j | 2 ^ k).
Proof. intros Hj. exists (2 ^ (k - j)). rewrite -Z.pow_add_r; [f_equal; lia|lia..]. Qed.

(** What a small class is. *)
Definition class_of (i : Z) : SmallClass := mkClass i (2 ^ (i + 3)) (2 ^ (i + 3) `min` PAGE_SIZE).

Lemma class_facts i : 0 <= i <= 11 -> 8 <= block_size (class_of i) <= MAX_SMALL_SIZE /\
  exists j, 3 <= j <= 12 /\ block_align (class_of i) = 2 ^ j /\ (2 ^ j | 2 ^ (i + 3)).
Proof.
  intros Hi. assert (2 ^ 3 <= 2 ^ (i + 3)) by (apply Z.pow_le_mono_r; lia).
  assert (2 ^ (i + 3) <= 2 ^ 14) by (apply Z.pow_le_mono_r; lia).
  split; [simpl; unfold MAX_SMALL_SIZE; lia|]. exists ((i + 3) `min` 12). split; [lia|]. simpl.
  change PAGE_SIZE with (2 ^ 12). destruct (Z.le_ge_cases (i + 3) 12) as [Hc|Hc].
  - rewrite (Z.min_l (i + 3)) // Z.min_l; [done|by apply Z.pow_le_mono_r].
  - rewrite (Z.min_r (i + 3)) // Z.min_r; [|by apply Z.pow_le_mono_r].
    split; [done|]. apply pow2_divide. lia.
Qed.

(** The classification, case by case. *)
Lemma classify_cases s a : 0 <= s -> match classify s a with
  | Some (Small c) => 0 < s /\ (exists i, 0 <= i <= 11 /\ c = class_of i) /\
      s <= block_size c /\ is_power_of_two a = true /\ a <= PAGE_SIZE /\ (a | block_align c)
  | Some (Direct m) => MAX_SMALL_SIZE < s /\ is_power_of_two a = true /\ a <= PAGE_SIZE /\
      m mod PAGE_SIZE = 0 /\ s <= m < s + PAGE_SIZE /\ (s < 2 ^ 64 -> m < 2 ^ 64)
  | None => s = 0 \/ is_power_of_two a = false \/ PAGE_SIZE < a \/ 2 ^ 64 - PAGE_SIZE < s
  end.
Proof.
  intros Hs. rewrite /classify. destruct (Z.eqb_spec s 0); [by left|].
  destruct (Z.eqb_spec a 0) as [->|]; [by right; left|].
  destruct (is_power_of_two a) eqn:Hp; simpl; [|by right; left].
  destruct (Z.ltb_spec PAGE_SIZE a); [by right; right; left|].
  destruct (power_of_two_spec a Hp) as [Ha Hka].
  pose proof (next_multiple_of s PAGE_SIZE Hs ltac:(done)) as Hnm.
  destruct (Z.leb_spec s MAX_SMALL_SIZE).
  - destruct (next_power_of_two ((s `max` a) `max` MIN_CLASS_SIZE)) as (k & Hk & -> & Hlo & Hhi).
    { unfold MAX_SMALL_SIZE, PAGE_SIZE, MIN_CLASS_SIZE in *. lia. }
    simpl. assert (3 <= k) as Hk3.
    { apply (Z.pow_le_mono_r_iff 2); [lia..|]. unfold MIN_CLASS_SIZE in *. lia. }
    assert (k <= 14) as Hk14.
    { apply Z.lt_succ_r, (Z.pow_lt_mono_r_iff 2); [lia..|].
      unfold MAX_SMALL_SIZE, PAGE_SIZE, MIN_CLASS_SIZE in *. change (2 ^ Z.succ 14) with 32768. lia. }
    assert (2 ^ k <= MAX_SMALL_SIZE) as Hm by (change MAX_SMALL_SIZE with (2 ^ 14); by apply Z.pow_le_mono_r).
    destruct (Z.leb_spec (2 ^ k) MAX_SMALL_SIZE); [|lia].
    assert (a <= 2 ^ k) by lia.
    split; [lia|]. rewrite trailing_zeros_pow; [|lia]. change MIN_CLASS_SHIFT with 3. simpl.
    split; [exists (k - 3); split; [lia|]; by rewrite /class_of Z.sub_add|].
    split; [lia|]. split_and!; [done..|]. rewrite Hka.
    destruct (Z.le_ge_cases (2 ^ k) PAGE_SIZE) as [Hle|Hge].
    + rewrite Z.min_l //. apply pow2_divide. split; [apply Z.log2_nonneg|].
      rewrite -(Z.log2_pow2 k); [|lia]. by apply Z.log2_le_mono.
    + rewrite Z.min_r //. change PAGE_SIZE with (2 ^ 12). apply pow2_divide.
      split; [apply Z.log2_nonneg|]. change 12 with (Z.log2 PAGE_SIZE). by apply Z.log2_le_mono.
  - destruct (checked_next_multiple_of 64 s PAGE_SIZE) as [m|]; simpl.
    + by destruct Hnm as (? & ? & ?).
    + right. right. right. pose proof (Z.mod_pos_bound s PAGE_SIZE ltac:(done)). unfold PAGE_SIZE in *. lia.
Qed.

(** ** Words in memory *)

(** The two memories hold the same bytes in a region. *)
Definition agree (m m' : Memory) (e : Z * Z) : Prop := forall x, e.1 <= x < e.1 + e.2 -> m x = m' x.

Lemma agree_trans m1 m2 m3 e : agree m1 m2 e -> agree m2 m3 e -> agree m1 m3 e.
Proof. intros H1 H2 x Hx. rewrite H1 //. by apply H2. Qed.

Lemma agree_sub m m' e e' : agree m m' e -> e.1 <= e'.1 -> e'.1 + e'.2 <= e.1 + e.2 -> agree m m' e'.
Proof. intros Ha H1 H2 x Hx. apply Ha. lia. Qed.

Lemma read_le_agree n m m' a : agree m m' (a, Z.of_nat n) -> read_le n m a = read_le n m' a.
Proof.
  revert a. induction n as [|n IH]; intros a Ha; [done|]. simpl. rewrite (Ha a); [|simpl; lia].
  do 2 f_equal. apply IH. intros x Hx. apply Ha. simpl in *. lia.
Qed.

Lemma write_le_outside len m a v e : apart (a, len) e -> agree m (write_le len m a v) e.
Proof.
  intros Hp x Hx. rewrite /write_le. destruct (Z.leb_spec a x), (Z.ltb_spec x (a + len)); try done.
  rewrite /apart /= in Hp. lia.
Qed.

Lemma copy_outside m src dst n e : apart (dst, n) e -> agree m (copy_bytes m src dst n) e.
Proof.
  intros Hp x Hx. rewrite /copy_bytes. destruct (Z.leb_spec dst x), (Z.ltb_spec x (dst + n)); try done.
  rewrite /apart /= in Hp. lia.
Qed.

Lemma read_le_digits n m a v : (forall i, 0 <= i < Z.of_nat n -> m (a + i) = (v / 256 ^ i) mod 256) ->
  read_le n m a = v mod 256 ^ Z.of_nat n.
Proof.
  revert a v. induction n as [|n IH]; intros a v Hm; [by rewrite Z.mod_1_r|].
  cbn [read_le]. rewrite (IH (a + 1) (v / 256)).
  - rewrite -(Z.add_0_r a) Hm; [|lia]. rewrite Z.pow_0_r Z.div_1_r.
    rewrite Nat2Z.inj_succ Z.pow_succ_r; [|lia]. rewrite Z.rem_mul_r; lia.
  - intros i Hi. rewrite -Z.add_assoc Hm; [|lia]. rewrite Z.pow_add_r; [|lia..].
    rewrite Z.pow_1_r Zdiv.Zdiv_Zdiv //; lia.
Qed.

(** Reading back a word. *)
Lemma read_write m a v : 0 <= v < 2 ^ 64 -> read_le 8 (write_le 8 m a v) a = v.
Proof.
  intros Hv. rewrite (read_le_digits 8 _ a v); [by apply Z.mod_small|].
  intros i Hi. rewrite /write_le. destruct (Z.leb_spec a (a + i)), (Z.ltb_spec (a + i) (a + 8)); try lia.
  simpl. do 3 f_equal. lia.
Qed.

(** ** Regions *)

Lemma apart_sym e e' : apart e e' -> apart e' e.
Proof. rewrite /apart. lia. Qed.

Definition within (e r : Z * Z) : Prop := r.1 <= e.1 /\ e.1 + e.2 <= r.1 + r.2.

Lemma apart_within e e' r : within e r -> apart r e' -> apart e e'.
Proof. rewrite /within /apart. lia. Qed.

Lemma within_trans e1 e2 e3 : within e1 e2 -> within e2 e3 -> within e1 e3.
Proof. rewrite /within. lia. Qed.

(** Pairwise apart, in any order. *)
Definition separate (l : list (Z * Z)) : Prop := List.ForallOrdPairs apart l.

Lemma separate_cons e l : separate (e :: l) <-> Forall (apart e) l /\ separate l.
Proof. split; [by inversion 1|]. intros []. by constructor. Qed.

#[export] Instance separate_perm : Proper (Permutation ==> iff) separate.
Proof.
  assert (forall l l', l ≡ₚ l' -> separate l -> separate l') as Hp; [|by intros l l' Hl; split; apply Hp].
  induction 1 as [|e l l' Hl IH|e e' l|l1 l2 l3 _ IH1 _ IH2]; [done| | |auto].
  - rewrite !separate_cons. intros [Hf Hs]. split; [by rewrite -Hl|auto].
  - rewrite !separate_cons !Forall_cons. intros ([Ha Hf] & Hf' & Hs).
    split; [split; [by apply apart_sym|done]|done].
Qed.

Lemma separate_app l1 l2 : separate (l1 ++ l2) <->
  separate l1 /\ separate l2 /\ Forall (fun e => Forall (apart e) l2) l1.
Proof.
  induction l1 as [|e l1 IH]; simpl.
  - split; [intros Hs; split_and!; [constructor|done|constructor]|by intros (_ & ? & _)].
  - rewrite !separate_cons IH Forall_app Forall_cons. tauto.
Qed.

Lemma separate_elem e e' l : separate (e :: l) -> e' ∈ l -> apart e e'.
Proof. intros [Hf _]%separate_cons He. rewrite Forall_forall in Hf. by apply Hf. Qed.

(** ** Ownership *)

(** The logical state: the arenas, newest first; the free blocks of each
    class, in list order; and the live allocations with their layouts. *)
Record Ghost := mkGhost {
  arenas : list Z;
  free : list (list Z);
  live : gmap Z (Z * Z);
}.
Definition ghost_empty : Ghost := mkGhost [] (replicate 12 []) ∅.

Section Inv.
Context {PM : PageMapper} {ML : @MapperLaws PM} (debug : bool).

Definition header_bytes : Z := if debug then ALLOCATION_HEADER else 0.

(** The memory a small block occupies, its header included. *)
Definition small_region (i p : Z) : Z * Z := (p - header_bytes, header_bytes + block_size (class_of i)).

(** A direct allocation owns its mapping. *)
Definition payload_offset (align : Z) : Z :=
  if debug then default 0 (checked_align_up ALLOCATION_HEADER align) else 0.
Definition physical_size (m align : Z) : Z :=
  if debug then default 0 (checked_next_multiple_of 64 (m + payload_offset align) PAGE_SIZE) else m.
Definition direct_region (p m align : Z) : Z * Z := (p - payload_offset align, physical_size m align).

Definition live_region (e : Z * (Z * Z)) : Z * Z :=
  match classify e.2.1 e.2.2 with
  | Some (Small c) => small_region (index c) e.1
  | Some (Direct m) => direct_region e.1 m e.2.2
  | None => (0, 0)
  end.
Definition live_mapping (e : Z * (Z * Z)) : option Mapping :=
  match classify e.2.1 e.2.2 with Some (Direct m) => Some (direct_region e.1 m e.2.2) | _ => None end.

Definition arena_headers (g : Ghost) : list (Z * Z) := (fun a => (a, ARENA_HEADER)) <$> arenas g.
Definition free_regions (fl : list (list Z)) : list (Z * Z) :=
  concat (imap (fun i l => small_region (Z.of_nat i) <$> l) fl).
Definition live_regions (lv : gmap Z (Z * Z)) : list (Z * Z) := live_region <$> map_to_list lv.
Definition regions (g : Ghost) : list (Z * Z) :=
  arena_headers g ++ free_regions (free g) ++ live_regions (live g).
Definition all_maps (g : Ghost) : list Mapping :=
  ((fun a => (a, ARENA_SIZE)) <$> arenas g) ++ omap live_mapping (map_to_list (live g)).

(** An intrusive list: the first word of each block is the next one. *)
Fixpoint chain (m : Memory) (head : Z) (l : list Z) : Prop :=
  match l with
  | [] => head = 0
  | p :: l => head = p /\ chain m (read_le 8 m p) l
  end.

(** A carved block lies above the header of an arena and, in the current
    one, below the bump offset. *)
Definition carved (g : Ghost) (st : St) (e : Z * Z) : Prop :=
  exists a, a ∈ arenas g /\ a + ARENA_HEADER <= e.1 /\ e.1 + e.2 <= a + ARENA_SIZE /\
    (a = current_arena st -> e.1 + e.2 <= a + read_le 8 (mem st) (a + 16)).

Definition small_ok (g : Ghost) (st : St) (i p : Z) : Prop :=
  0 <= i <= 11 /\ p mod block_align (class_of i) = 0 /\ carved g st (small_region i p).

Definition header_ok (m : Memory) (p s a raw ms k : Z) : Prop :=
  read_le 8 m (p - 48) = DEBUG_HEADER_MAGIC /\ read_le 8 m (p - 48 + 8) = s /\ read_le 8 m (p - 48 + 16) = a /\
  read_le 8 m (p - 48 + 24) = raw /\ read_le 8 m (p - 48 + 32) = ms /\ read_le 8 m (p - 48 + 40) = k.

Definition live_ok (g : Ghost) (st : St) (p s a : Z) : Prop :=
  in_u 64 s /\ in_u 64 a /\
  match classify s a with
  | Some (Small c) => small_ok g st (index c) p /\ (debug = true -> header_ok (mem st) p s a 0 0 (index c))
  | Some (Direct m) =>
      p mod a = 0 /\
      (debug = true -> header_ok (mem st) p s a (p - payload_offset a) (physical_size m a) DIRECT_KIND)
  | None => False
  end.

Definition arena_ok (g : Ghost) (st : St) : Prop :=
  match arenas g with
  | [] => current_arena st = 0
  | a :: _ => current_arena st = a /\ read_le 8 (mem st) (a + 8) = ARENA_SIZE /\
      ARENA_HEADER <= read_le 8 (mem st) (a + 16) <= ARENA_SIZE
  end.

Definition mapping_ok (m : Mapping) : Prop :=
  0 < m.1 /\ m.1 mod PAGE_SIZE = 0 /\ 0 < m.2 /\ m.1 + m.2 <= 2 ^ 64.

Record inv (g : Ghost) (st : St) : Prop := {
  inv_heads : length (free_lists st) = 12%nat;
  inv_classes : length (free g) = 12%nat;
  inv_chain : forall i l, free g !! i = Some l -> exists head, free_lists st !! i = Some head /\ chain (mem st) head l;
  inv_free : forall i l p, free g !! i = Some l -> p ∈ l -> small_ok g st (Z.of_nat i) p;
  inv_live : forall p s a, live g !! p = Some (s, a) -> live_ok g st p s a;
  inv_arena : arena_ok g st;
  inv_maps : maps st ≡ₚ all_maps g;
  inv_mappings : Forall mapping_ok (maps st);
  inv_maps_apart : separate (maps st);
  inv_os : live_maps (os st) (maps st);
  inv_regions : separate (regions g);
}.

Implicit Types (g : Ghost) (st : St).

(** ** Consequences *)

Lemma payload_offset_ok a : is_power_of_two a = true -> a <= PAGE_SIZE ->
  header_bytes <= payload_offset a <= PAGE_SIZE /\ payload_offset a mod a = 0 /\
  (debug = true -> checked_align_up ALLOCATION_HEADER a = Some (payload_offset a)).
Proof using Type.
  intros Hp Ha. destruct (align_cases a Hp Ha) as (j & Hj & ->).
  rewrite /payload_offset /header_bytes. destruct debug; [|by rewrite Z.mod_0_l; [split_and!|apply Z.pow_nonzero; lia]].
  do 13 (destruct j as [|j]; [vm_compute; split_and!; done|]). lia.
Qed.

Lemma physical_size_ok m a : 0 <= m -> is_power_of_two a = true -> a <= PAGE_SIZE -> 0 < physical_size m a ->
  m + payload_offset a <= physical_size m a.
Proof using Type.
  intros Hm Hp Ha. pose proof (payload_offset_ok a Hp Ha) as ([Hpf _] & _ & _).
  rewrite /physical_size /payload_offset /header_bytes in Hpf |- *. destruct debug; [|lia].
  intros Hpos. unfold ALLOCATION_HEADER in Hpf at 1.
  pose proof (next_multiple_of (m + default 0 (checked_align_up ALLOCATION_HEADER a)) PAGE_SIZE ltac:(lia) ltac:(done)) as Hn.
  destruct (checked_next_multiple_of 64 _ PAGE_SIZE) as [r|]; simpl in *; lia.
Qed.

Lemma header_bytes_nonneg : 0 <= header_bytes.
Proof using Type. rewrite /header_bytes /ALLOCATION_HEADER. destruct debug; lia. Qed.

Lemma live_regions_insert lv p x : lv !! p = None ->
  live_regions (<[p := x]> lv) ≡ₚ live_region (p, x) :: live_regions lv.
Proof using Type. intros Hn. rewrite /live_regions map_to_list_insert //. Qed.

Lemma live_regions_delete lv p x : lv !! p = Some x ->
  live_regions lv ≡ₚ live_region (p, x) :: live_regions (delete p lv).
Proof using Type. intros Hs. rewrite /live_regions -{1}(map_to_list_delete lv p x) //. Qed.

Lemma live_region_elem g p x : live g !! p = Some x -> live_region (p, x) ∈ regions g.
Proof using Type.
  intros Hl. rewrite /regions !elem_of_app. right. right. apply list_elem_of_fmap. exists (p, x).
  split; [done|]. by apply elem_of_map_to_list.
Qed.

Lemma free_regions_elem g i l p : free g !! i = Some l -> p ∈ l ->
  small_region (Z.of_nat i) p ∈ regions g.
Proof using Type.
  intros Hl Hp. rewrite /regions !elem_of_app. right. left. rewrite /free_regions.
  apply list_elem_of_In, List.in_concat. exists (small_region (Z.of_nat i) <$> l).
  rewrite -!list_elem_of_In. split; [|by apply list_elem_of_fmap_2].
  apply list_elem_of_lookup. exists i. by rewrite list_lookup_imap Hl.
Qed.

Lemma free_regions_split fl i l : fl !! i = Some l -> exists rest,
  forall l', free_regions (<[i := l']> fl) ≡ₚ (small_region (Z.of_nat i) <$> l') ++ rest.
Proof using Type.
  intros Hl. exists (free_regions (<[i := []]> fl)). intros l'. rewrite /free_regions.
  pose proof (lookup_lt_Some _ _ _ Hl) as Hlt.
  rewrite !insert_take_drop // !imap_app !imap_cons !concat_app /=.
  rewrite length_take_le; [|lia]. rewrite Nat.add_0_r. solve_Permutation.
Qed.

Lemma free_regions_insert fl i l p : fl !! i = Some l ->
  free_regions (<[i := p :: l]> fl) ≡ₚ small_region (Z.of_nat i) p :: free_regions fl.
Proof using Type.
  intros Hl. destruct (free_regions_split fl i l Hl) as [rest Hr].
  pose proof (Hr l) as Hl2. rewrite list_insert_id // in Hl2. by rewrite Hr Hl2.
Qed.

Lemma arena_mapping g st a : inv g st -> a ∈ arenas g -> (a, ARENA_SIZE) ∈ maps st.
Proof using Type.
  intros Hi Ha. rewrite (inv_maps _ _ Hi) /all_maps elem_of_app. left. by apply (list_elem_of_fmap_2 (fun a => (a, ARENA_SIZE))).
Qed.

Lemma mapping_facts g st m : inv g st -> m ∈ maps st -> mapping_ok m.
Proof using Type. intros Hi Hm. pose proof (inv_mappings _ _ Hi) as Hf. rewrite Forall_forall in Hf. by apply Hf. Qed.

Lemma carved_within g st e : inv g st -> carved g st e -> exists a, a ∈ arenas g /\
  (a, ARENA_SIZE) ∈ maps st /\ mapping_ok (a, ARENA_SIZE) /\ within e (a, ARENA_SIZE) /\ apart (a, ARENA_HEADER) e.
Proof using Type.
  intros Hi (a & Ha & H1 & H2 & _). exists a. pose proof (arena_mapping g st a Hi Ha) as Hm.
  split_and!; [done..|by eapply mapping_facts| |]; rewrite /within /apart /=; unfold ARENA_HEADER in *; lia.
Qed.

(** A class block: inside the address space, above its header. *)
Lemma small_facts g st i p : inv g st -> small_ok g st i p ->
  0 < p /\ p + block_size (class_of i) <= 2 ^ 64 /\
  exists m, m ∈ maps st /\ within (small_region i p) m.
Proof using Type.
  intros Hi (Hc & _ & Hcv). destruct (carved_within g st _ Hi Hcv) as (a & _ & Hm & (H0 & _ & _ & Hs) & Hw & _).
  pose proof header_bytes_nonneg as Hp0. simpl in *. destruct Hcv as (a' & Ha' & Hlo & _).
  rewrite /within /small_region /= in Hw Hlo.
  pose proof (proj1 (mapping_facts g st _ Hi (arena_mapping g st a' Hi Ha'))) as Ha0. simpl in Ha0.
  unfold ARENA_HEADER in Hlo. split; [lia|]. split; [lia|]. exists (a, ARENA_SIZE). split; [done|].
  rewrite /within /small_region /=. lia.
Qed.

Lemma direct_mapping_elem g st p s a m : inv g st -> live g !! p = Some (s, a) ->
  classify s a = Some (Direct m) -> direct_region p m a ∈ maps st.
Proof using Type.
  intros Hi Hl Hc. rewrite (inv_maps _ _ Hi) /all_maps elem_of_app. right.
  apply list_elem_of_omap. exists (p, (s, a)). split; [by apply elem_of_map_to_list|]. by rewrite /live_mapping /= Hc.
Qed.

(** What a live allocation owns. *)
Lemma live_facts g st p s a : inv g st -> live g !! p = Some (s, a) ->
  0 < p /\ 0 < s /\ 0 < a /\ p mod a = 0 /\ p + s <= 2 ^ 64 /\
  within (p - header_bytes, header_bytes + s) (live_region (p, (s, a))) /\
  exists m, m ∈ maps st /\ within (live_region (p, (s, a))) m.
Proof using Type.
  intros Hi Hl. pose proof (inv_live _ _ Hi p s a Hl) as ([Hs _] & [Ha _] & Hk).
  pose proof (classify_cases s a Hs) as Hc. rewrite /live_region /=.
  destruct (classify s a) as [[c|m]|] eqn:Hcl; [| |done].
  - destruct Hk as [Hok _], Hc as (Hs0 & (i & Hir & ->) & Hsz & Hp2 & _ & Hdiv).
    destruct (small_facts g st _ p Hi Hok) as (Hp & Hend & m & Hm & Hw). destruct Hok as (_ & Hal & _).
    change (index (class_of i)) with i in *. destruct (power_of_two_spec a Hp2) as [Ha0 _].
    split_and!; [done|done|done| |lia|rewrite /within /small_region; simpl in *; lia|by exists m].
    apply Z.mod_divide; [lia|]. etrans; [exact Hdiv|]. apply Z.mod_divide; [|done].
    destruct Hdiv as [q Hq]. destruct (class_facts i Hir) as (_ & j & Hj & -> & _). lia.
  - destruct Hk as [Hal _], Hc as (Hs0 & Hp2 & Hap & _ & Hsz & _).
    destruct (power_of_two_spec a Hp2) as [Ha0 _].
    pose proof (direct_mapping_elem g st p s a m Hi Hl Hcl) as Hm.
    pose proof (mapping_facts g st _ Hi Hm) as (H1 & _ & H2 & H3). simpl in H1, H2, H3.
    pose proof (payload_offset_ok a Hp2 Hap) as ([Hlo _] & _). pose proof header_bytes_nonneg.
    pose proof (physical_size_ok m a ltac:(unfold MAX_SMALL_SIZE in *; lia) Hp2 Hap H2).
    unfold MAX_SMALL_SIZE in *.
    split_and!; [lia|lia|lia|done|lia|rewrite /within /direct_region /=; lia|].
    eexists. split; [exact Hm|]. rewrite /within. lia.
Qed.

Lemma region_within g st e : inv g st -> e ∈ regions g -> exists m, m ∈ maps st /\ within e m.
Proof using Type.
  intros Hi. rewrite /regions !elem_of_app. intros [He|[He|He]].
  - apply list_elem_of_fmap in He as (a & -> & Ha). exists (a, ARENA_SIZE).
    split; [by eapply arena_mapping|]. rewrite /within /ARENA_HEADER /ARENA_SIZE /=. lia.
  - apply list_elem_of_In, List.in_concat in He as (r & Hr & He). rewrite -!list_elem_of_In in Hr, He.
    apply list_elem_of_lookup in Hr as [i Hr]. rewrite list_lookup_imap in Hr.
    destruct (free g !! i) as [l|] eqn:Hl; [|done]. simpl in Hr. injection Hr as <-.
    apply list_elem_of_fmap in He as (p & -> & Hp).
    by destruct (small_facts g st _ p Hi (inv_free _ _ Hi i l p Hl Hp)) as (_ & _ & ?).
  - apply list_elem_of_fmap in He as ([p [s a]] & -> & Hp%elem_of_map_to_list).
    by destruct (live_facts g st p s a Hi Hp) as (_ & _ & _ & _ & _ & _ & ?).
Qed.

(** A fresh mapping is apart from everything owned. *)
Lemma fresh_apart g st e : inv g st -> Forall (apart e) (maps st) -> Forall (apart e) (regions g).
Proof using Type.
  intros Hi Hf. apply Forall_forall. intros r Hr. destruct (region_within g st r Hi Hr) as (m & Hm & Hw).
  rewrite Forall_forall in Hf. apply apart_sym. apply (apart_within _ _ m Hw). by apply apart_sym, Hf.
Qed.

(** The region of a live allocation is its own. *)
Lemma live_separate g st p x : inv g st -> live g !! p = Some x ->
  Forall (apart (live_region (p, x))) (arena_headers g ++ free_regions (free g) ++ live_regions (delete p (live g))).
Proof using Type.
  intros Hi Hl. pose proof (inv_regions _ _ Hi) as Hs. rewrite /regions (live_regions_delete _ _ _ Hl) in Hs.
  assert (separate (live_region (p, x) :: arena_headers g ++ free_regions (free g) ++ live_regions (delete p (live g)))) as Hs2.
  { eapply separate_perm; [|exact Hs]. solve_Permutation. }
  by apply separate_cons in Hs2 as [? _].
Qed.
End Inv.
