(* ===== verification/AllocatorSteps.v ===== *)
(** * Allocator: what each step does to ownership

    Every effect of the allocator changes the invariant of [AllocatorInv] in
    one of the ways below: a write outside everything that is owned, a block
    moving between a free list and the live allocations, a bump of the current
    arena, or a mapping that comes or goes. *)

From S2P Require Import Prelude Allocator AllocatorInv.
From stdpp Require Import gmap sorting.
From Stdlib Require List.
Import Machine.
Local Open Scope Z_scope.

#[local] Arguments read_le : simpl never.

Section Steps.
Context {PM : PageMapper} {ML : @MapperLaws PM} (debug : bool).
Implicit Types (g : Ghost) (st : St).
Notation inv := (inv debug).
Notation regions := (regions debug).
Notation live_region := (live_region debug).
Notation small_region := (small_region debug).
Notation small_ok := (small_ok debug).
Notation live_ok := (live_ok debug).

Lemma chain_agree m m' head l : (forall p, p ∈ l -> agree m m' (p, 8)) -> chain m head l -> chain m' head l.
Proof.
  revert head. induction l as [|p l IH]; intros head Ha; [done|]. intros [-> Hc]. split; [done|].
  rewrite -(read_le_agree 8 m m' p); [|apply Ha; by left]. apply IH; [|done]. intros q Hq. apply Ha. by right.
Qed.

Lemma header_agree m m' p s a raw ms k : agree m m' (p - 48, 48) -> header_ok m p s a raw ms k ->
  header_ok m' p s a raw ms k.
Proof.
  intros Ha (H1 & H2 & H3 & H4 & H5 & H6).
  assert (forall d, 0 <= d <= 40 -> read_le 8 m (p - 48 + d) = read_le 8 m' (p - 48 + d)) as Hr.
  { intros d Hd. apply read_le_agree. eapply agree_sub; [exact Ha|simpl; lia..]. }
  rewrite /header_ok. rewrite -!Hr; [|lia..]. split_and!; try done.
  rewrite -(Z.add_0_r (p - 48)) -Hr; [|lia]. by rewrite Z.add_0_r.
Qed.

(** Memory may change wherever no link or header is, if the blocks stay
    carved. *)
Lemma inv_mem_carved g st m' : inv g st ->
  (forall i l p, free g !! i = Some l -> p ∈ l -> agree (mem st) m' (p, 8)) ->
  (forall p s a, live g !! p = Some (s, a) -> debug = true -> agree (mem st) m' (p - 48, 48)) ->
  (forall e, carved g st e -> carved g (with_mem m' st) e) -> arena_ok g (with_mem m' st) ->
  inv g (with_mem m' st).
Proof.
  intros Hi Hfree Hlive Hcv Har.
  assert (forall i p, small_ok g st i p -> small_ok g (with_mem m' st) i p) as Hsm.
  { intros i p (? & ? & ?). split; [done|split; [done|by apply Hcv]]. }
  destruct Hi. split; try done.
  - intros i l Hl. destruct (inv_chain i l Hl) as (head & Hh & Hc). exists head. split; [done|].
    eapply chain_agree; [|exact Hc]. intros p Hp. by eapply Hfree.
  - intros i l p Hl Hp. eauto.
  - intros p s a Hl. destruct (inv_live p s a Hl) as (Hs & Ha & Hk). split_and!; [done..|].
    destruct (classify s a) as [[c|m]|]; [| |done].
    + destruct Hk as [Hok Hh]. split; [by apply Hsm|]. intros Hd. eapply header_agree; [by eapply Hlive|auto].
    + destruct Hk as [Hok Hh]. split; [done|]. intros Hd. eapply header_agree; [by eapply Hlive|auto].
Qed.

Lemma inv_mem g st m' : inv g st ->
  (forall i l p, free g !! i = Some l -> p ∈ l -> agree (mem st) m' (p, 8)) ->
  (forall p s a, live g !! p = Some (s, a) -> debug = true -> agree (mem st) m' (p - 48, 48)) ->
  (forall a, a ∈ arenas g -> agree (mem st) m' (a, ARENA_HEADER)) ->
  inv g (with_mem m' st).
Proof.
  intros Hi Hfree Hlive Har.
  assert (forall a d, a ∈ arenas g -> 0 <= d <= 16 -> read_le 8 m' (a + d) = read_le 8 (mem st) (a + d)) as Hoff.
  { intros a d Ha Hd. symmetry. apply read_le_agree. eapply agree_sub; [by apply Har|simpl; unfold ARENA_HEADER; lia..]. }
  apply inv_mem_carved; [done..| |].
  - intros e (a & Ha & H1 & H2 & H3). exists a. split_and!; [done..|]. simpl. intros He.
    rewrite Hoff; [by apply H3|done|lia].
  - pose proof (AllocatorInv.inv_arena _ _ _ Hi) as Hao. rewrite /arena_ok in Hao |- *.
    destruct (arenas g) as [|a l] eqn:Hg; [done|].
    simpl. rewrite (Hoff a 8) ?(Hoff a 16) //; try (by left); lia.
Qed.

(** The parts of an allocation. *)
Lemma live_header_within g st p s a : inv g st -> live g !! p = Some (s, a) -> debug = true ->
  within (p - 48, 48) (live_region (p, (s, a))).
Proof.
  intros Hi Hl Hd. destruct (live_facts debug g st p s a Hi Hl) as (_ & Hs & _ & _ & _ & Hw & _).
  rewrite /within /header_bytes Hd /ALLOCATION_HEADER /= in Hw |- *. lia.
Qed.

Lemma live_payload_within g st p s a : inv g st -> live g !! p = Some (s, a) ->
  within (p, s) (live_region (p, (s, a))).
Proof.
  intros Hi Hl. destruct (live_facts debug g st p s a Hi Hl) as (_ & Hs & _ & _ & _ & Hw & _).
  pose proof (header_bytes_nonneg debug). rewrite /within /= in Hw |- *. lia.
Qed.

Lemma block_word_within i p : 0 <= i <= 11 -> within (p, 8) (small_region i p).
Proof.
  intros Hi. destruct (class_facts i Hi) as [Hb _]. pose proof (header_bytes_nonneg debug).
  rewrite /within /AllocatorInv.small_region /=. simpl in Hb. lia.
Qed.

(** A write outside everything that is owned. *)
Lemma inv_unowned g st m' w : inv g st -> (forall e, apart w e -> agree (mem st) m' e) ->
  Forall (apart w) (regions g) -> inv g (with_mem m' st).
Proof.
  intros Hi Hm Hw. rewrite Forall_forall in Hw.
  assert (forall e r, within e r -> r ∈ regions g -> agree (mem st) m' e) as Hag.
  { intros e r He Hr. apply Hm. apply apart_sym, (apart_within _ _ r He). by apply apart_sym, Hw. }
  apply inv_mem; [done|..].
  - intros i l p Hl Hp. eapply Hag; [|by eapply free_regions_elem]. apply block_word_within.
    by destruct (AllocatorInv.inv_free _ _ _ Hi i l p Hl Hp).
  - intros p s a Hl Hd. eapply Hag; [by eapply live_header_within|by apply live_region_elem].
  - intros a Ha. eapply (Hag _ (a, ARENA_HEADER)); [rewrite /within; lia|].
    rewrite /AllocatorInv.regions !elem_of_app. left. by apply (list_elem_of_fmap_2 (fun a => (a, ARENA_HEADER))).
Qed.

(** ** Blocks *)

Definition set_class (g : Ghost) (i : nat) (l : list Z) : Ghost := mkGhost (arenas g) (<[i := l]> (free g)) (live g).
Definition set_live (g : Ghost) (lv : gmap Z (Z * Z)) : Ghost := mkGhost (arenas g) (free g) lv.

Lemma regions_push g i l p : free g !! i = Some l ->
  regions (set_class g i (p :: l)) ≡ₚ small_region (Z.of_nat i) p :: regions g.
Proof.
  intros Hl. rewrite /AllocatorInv.regions /set_class /=. rewrite (free_regions_insert debug _ _ _ p Hl).
  rewrite /arena_headers /=. solve_Permutation.
Qed.

Lemma regions_insert g p x : live g !! p = None ->
  regions (set_live g (<[p := x]> (live g))) ≡ₚ live_region (p, x) :: regions g.
Proof.
  intros Hl. rewrite /AllocatorInv.regions /set_live /= live_regions_insert //.
  rewrite /arena_headers /=. solve_Permutation.
Qed.

Lemma regions_delete g p x : live g !! p = Some x ->
  regions g ≡ₚ live_region (p, x) :: regions (set_live g (delete p (live g))).
Proof.
  intros Hl. rewrite /AllocatorInv.regions /set_live /= {1}(live_regions_delete debug _ _ _ Hl).
  rewrite /arena_headers /=. solve_Permutation.
Qed.

Lemma maps_insert g p x : live g !! p = None ->
  all_maps debug (set_live g (<[p := x]> (live g))) ≡ₚ
  match live_mapping debug (p, x) with Some m => [m] | None => [] end ++ all_maps debug g.
Proof.
  intros Hl. rewrite /all_maps /set_live /=.
  rewrite (omap_Permutation _ _ _ (map_to_list_insert (live g) p x Hl)) /=.
  destruct (live_mapping debug (p, x)); simpl; solve_Permutation.
Qed.

Lemma maps_delete g p x : live g !! p = Some x ->
  all_maps debug g ≡ₚ
  match live_mapping debug (p, x) with Some m => [m] | None => [] end ++ all_maps debug (set_live g (delete p (live g))).
Proof.
  intros Hl. rewrite -(maps_insert (set_live g (delete p (live g))) p x); [|by rewrite /= lookup_delete_eq].
  rewrite /set_live /= insert_delete_id //.
Qed.

(** A block that is apart from everything owned is not live. *)
Lemma region_fresh g st e p : inv g st -> within (p, 1) e -> Forall (apart e) (regions g) -> live g !! p = None.
Proof.
  intros Hi He Hf. destruct (live g !! p) as [[s a]|] eqn:Hl; [exfalso|done].
  rewrite Forall_forall in Hf. pose proof (Hf _ (live_region_elem debug g p (s, a) Hl)) as Hap.
  pose proof (live_payload_within g st p s a Hi Hl) as Hw.
  destruct (live_facts debug g st p s a Hi Hl) as (_ & Hs & _).
  rewrite /within /apart in He Hap Hw. simpl in He, Hw. lia.
Qed.

Lemma small_word g st i p : small_ok g st i p -> within (p, 1) (small_region i p).
Proof. intros [Hi _]. pose proof (block_word_within i p Hi) as Hw. rewrite /within /= in Hw |- *. lia. Qed.

Lemma inv_push_free g st i l p head : inv g st -> free g !! i = Some l -> small_ok g st (Z.of_nat i) p ->
  free_lists st !! i = Some head -> read_le 8 (mem st) p = head ->
  Forall (apart (small_region (Z.of_nat i) p)) (regions g) ->
  inv (set_class g i (p :: l)) (with_free_lists (<[i := p]> (free_lists st)) st).
Proof.
  intros Hi Hl Hok Hh Hr Hap. pose proof (lookup_lt_Some _ _ _ Hl) as Hlt. pose proof (lookup_lt_Some _ _ _ Hh) as Hlt'.
  destruct (AllocatorInv.inv_chain _ _ _ Hi i l Hl) as (head' & Hh' & Hc). assert (head' = head) as -> by congruence.
  destruct Hi. split; try done; simpl.
  - by rewrite length_insert.
  - by rewrite length_insert.
  - intros j k [(<- & <- & _)|[Hne Hk]]%list_lookup_insert_Some.
    + exists p. split; [by apply list_lookup_insert_eq|]. split; [done|]. by rewrite Hr.
    + rewrite list_lookup_insert_ne //. by apply inv_chain.
  - intros j k q [(<- & <- & _)|[Hne Hk]]%list_lookup_insert_Some Hq; [|by eapply inv_free].
    apply elem_of_cons in Hq as [->|Hq]; [done|by eapply inv_free].
  - rewrite regions_push //. by apply separate_cons.
Qed.

Lemma inv_pop_free g st i p l : inv g st -> free g !! i = Some (p :: l) ->
  let g' := set_class g i l in
  inv g' (with_free_lists (<[i := read_le 8 (mem st) p]> (free_lists st)) st) /\
  small_ok g' st (Z.of_nat i) p /\ Forall (apart (small_region (Z.of_nat i) p)) (regions g') /\
  free_lists st !! i = Some p.
Proof.
  intros Hi Hl g'. pose proof (lookup_lt_Some _ _ _ Hl) as Hlt.
  destruct (AllocatorInv.inv_chain _ _ _ Hi i _ Hl) as (head & Hh & -> & Hc). pose proof (lookup_lt_Some _ _ _ Hh) as Hlt'.
  assert (regions g ≡ₚ small_region (Z.of_nat i) p :: regions g') as Hperm.
  { rewrite -(regions_push g' i l p); [|by apply list_lookup_insert_eq].
    rewrite /set_class /g' /= list_insert_insert_eq list_insert_id //. }
  pose proof (AllocatorInv.inv_regions _ _ _ Hi) as Hs. rewrite Hperm in Hs. apply separate_cons in Hs as [Hap Hs].
  assert (small_ok g st (Z.of_nat i) p) as Hok by (eapply (AllocatorInv.inv_free _ _ _ Hi); [done|by left]).
  split; [|done]. destruct Hi. split; try done; simpl.
  - by rewrite length_insert.
  - by rewrite length_insert.
  - intros j k [(<- & <- & _)|[Hne Hk]]%list_lookup_insert_Some.
    + eexists. split; [by apply list_lookup_insert_eq|done].
    + rewrite list_lookup_insert_ne //. by apply inv_chain.
  - intros j k q [(<- & <- & _)|[Hne Hk]]%list_lookup_insert_Some Hq; eapply inv_free; eauto. by right.
Qed.

Lemma inv_forget_small g st p s a c : inv g st -> live g !! p = Some (s, a) -> classify s a = Some (Small c) ->
  let g' := set_live g (delete p (live g)) in
  inv g' st /\ small_ok g' st (index c) p /\ Forall (apart (small_region (index c) p)) (regions g').
Proof.
  intros Hi Hl Hc g'. pose proof (AllocatorInv.inv_regions _ _ _ Hi) as Hs.
  rewrite (regions_delete g p (s, a) Hl) in Hs. apply separate_cons in Hs as [Hap Hs].
  destruct (AllocatorInv.inv_live _ _ _ Hi p s a Hl) as (_ & _ & Hk). rewrite Hc in Hk.
  split; [|split; [apply Hk|by rewrite /AllocatorInv.live_region /= Hc in Hap]].
  destruct Hi. split; try done; simpl.
  - intros q s' a' Hq. apply inv_live. by apply lookup_delete_Some in Hq as [_ ?].
  - rewrite inv_maps (maps_delete g p (s, a) Hl) /live_mapping /= Hc //.
Qed.

Lemma inv_add_small g st p s a c : inv g st -> live_ok g st p s a -> classify s a = Some (Small c) ->
  Forall (apart (small_region (index c) p)) (regions g) ->
  live g !! p = None /\ inv (set_live g (<[p := (s, a)]> (live g))) st.
Proof.
  intros Hi Hok Hc Hap. assert (live g !! p = None) as Hn.
  { eapply region_fresh; [done| |done]. destruct Hok as (_ & _ & Hk). rewrite Hc in Hk. by eapply small_word, Hk. }
  split; [done|]. destruct Hi. split; try done; simpl.
  - intros q s' a' [(<- & [= <- <-])|[_ Hq]]%lookup_insert_Some; [done|by apply inv_live].
  - rewrite inv_maps maps_insert // /live_mapping /= Hc //.
  - rewrite regions_insert //. apply separate_cons. split; [|done]. by rewrite /AllocatorInv.live_region /= Hc.
Qed.

(** ** Arenas and mappings *)

Lemma separate_distinct l e e' : separate l -> e ∈ l -> e' ∈ l -> e <> e' -> apart e e'.
Proof.
  intros Hs He He' Hne. rewrite !list_elem_of_In in He, He'.
  destruct (List.ForallOrdPairs_In Hs e e' He He') as [?|[?|?]]; [done|done|by apply apart_sym].
Qed.

Lemma arenas_apart g st a b : inv g st -> a ∈ arenas g -> b ∈ arenas g -> a <> b ->
  apart (a, ARENA_SIZE) (b, ARENA_SIZE).
Proof.
  intros Hi Ha Hb Hne. eapply separate_distinct; [apply (AllocatorInv.inv_maps_apart _ _ _ Hi)|..|congruence];
    by eapply arena_mapping.
Qed.

(** Bumping the offset of the current arena. *)
Lemma inv_bump g st a rest new : inv g st -> arenas g = a :: rest ->
  read_le 8 (mem st) (a + 16) <= new <= ARENA_SIZE ->
  inv g (with_mem (write_le 8 (mem st) (a + 16) new) st).
Proof.
  intros Hi Har Hnew. pose proof (AllocatorInv.inv_arena _ _ _ Hi) as Hao. rewrite /arena_ok Har in Hao.
  destruct Hao as (Hcur & Hsz & Hoff).
  assert (read_le 8 (write_le 8 (mem st) (a + 16) new) (a + 16) = new) as Hrd.
  { apply read_write. unfold ARENA_HEADER, ARENA_SIZE in *. lia. }
  pose proof (AllocatorInv.inv_regions _ _ _ Hi) as Hs.
  assert ((a, ARENA_HEADER) ∈ arena_headers g) as Hah.
  { apply (list_elem_of_fmap_2 (fun a => (a, ARENA_HEADER))). rewrite Har. by left. }
  rewrite /AllocatorInv.regions in Hs. apply separate_app in Hs as (_ & _ & Hcross).
  rewrite Forall_forall in Hcross. specialize (Hcross _ Hah). rewrite Forall_forall in Hcross.
  assert (forall e r, within e r -> r ∈ free_regions debug (free g) ++ live_regions debug (live g) ->
    agree (mem st) (write_le 8 (mem st) (a + 16) new) e) as Hag.
  { intros e r He Hr%Hcross. apply write_le_outside. apply (apart_within _ _ (a, ARENA_HEADER)).
    - rewrite /within /ARENA_HEADER /=. lia.
    - apply apart_sym, (apart_within _ _ _ He). by apply apart_sym. }
  apply inv_mem_carved; [done|..].
  - intros i l p Hl Hp. eapply Hag.
    + apply block_word_within. by destruct (AllocatorInv.inv_free _ _ _ Hi i l p Hl Hp).
    + pose proof (free_regions_elem debug g i l p Hl Hp) as He. rewrite /AllocatorInv.regions !elem_of_app in He.
      rewrite elem_of_app. destruct He as [He|?]; [exfalso|done].
      apply list_elem_of_fmap in He as (b & Hb & Hbin).
      destruct (AllocatorInv.inv_free _ _ _ Hi i l p Hl Hp) as (Hir & _ & Hcv).
      destruct (carved_within debug g st _ Hi Hcv) as (x & Hx & _ & _ & Hw & Hap).
      destruct (class_facts _ Hir) as [Hbs _]. pose proof (header_bytes_nonneg debug).
      rewrite Hb in Hw, Hap. destruct (decide (b = x)) as [->|Hbx].
      * rewrite /apart /ARENA_HEADER /= in Hap. lia.
      * pose proof (arenas_apart g st b x Hi Hbin Hx Hbx) as Hab.
        rewrite /apart /within /ARENA_HEADER /ARENA_SIZE /= in Hab, Hw. lia.
  - intros p s b Hl Hd. eapply Hag; [by eapply live_header_within|].
    rewrite elem_of_app. right. apply list_elem_of_fmap. exists (p, (s, b)). split; [done|]. by apply elem_of_map_to_list.
  - intros e (b & Hb & H1 & H2 & H3). exists b. split_and!; [done..|]. simpl. intros Hbc.
    assert (b = a) as -> by congruence. rewrite Hrd. specialize (H3 Hbc). lia.
  - rewrite /arena_ok Har /= Hrd. split_and!; [done| |lia|lia].
    rewrite -Hsz. symmetry. apply read_le_agree, write_le_outside. rewrite /apart /=. lia.
Qed.

(** What lies between the bump offset and the end of the current arena is
    nobody's. *)
Lemma bump_apart g st a rest e : inv g st -> arenas g = a :: rest ->
  a + read_le 8 (mem st) (a + 16) <= e.1 -> e.1 + e.2 <= a + ARENA_SIZE -> Forall (apart e) (regions g).
Proof.
  intros Hi Har Hlo Hhi. pose proof (AllocatorInv.inv_arena _ _ _ Hi) as Hao. rewrite /arena_ok Har in Hao.
  destruct Hao as (Hcur & Hsz & Hoff).
  assert (a ∈ arenas g) as Ha by (rewrite Har; by left).
  assert (within e (a, ARENA_SIZE)) as Hwe by (rewrite /within /=; unfold ARENA_HEADER in *; lia).
  assert (forall r, carved g st r -> apart e r) as Hcv.
  { intros r (b & Hb & H1 & H2 & H3). destruct (decide (b = a)) as [->|Hne].
    - specialize (H3 (eq_sym Hcur)). rewrite /apart. lia.
    - pose proof (arenas_apart g st a b Hi Ha Hb ltac:(done)) as Hab.
      apply (apart_within _ _ _ Hwe). apply apart_sym, (apart_within _ _ (b, ARENA_SIZE)); [|by apply apart_sym].
      rewrite /within /=. unfold ARENA_HEADER in *. lia. }
  apply Forall_forall. intros r. rewrite /AllocatorInv.regions !elem_of_app. intros [Hr|[Hr|Hr]].
  - apply list_elem_of_fmap in Hr as (b & -> & Hb). destruct (decide (b = a)) as [->|Hne].
    + rewrite /apart /=. unfold ARENA_HEADER in *. lia.
    + pose proof (arenas_apart g st a b Hi Ha Hb ltac:(done)) as Hab.
      apply (apart_within _ _ _ Hwe). rewrite /apart /= in Hab |- *. unfold ARENA_HEADER, ARENA_SIZE in *. lia.
  - apply Hcv. apply list_elem_of_In, List.in_concat in Hr as (q & Hq & Hr). rewrite -!list_elem_of_In in Hq, Hr.
    apply list_elem_of_lookup in Hq as [i Hq]. rewrite list_lookup_imap in Hq.
    destruct (free g !! i) as [l|] eqn:Hl; [|done]. simpl in Hq. injection Hq as <-.
    apply list_elem_of_fmap in Hr as (p & -> & Hp). by destruct (AllocatorInv.inv_free _ _ _ Hi i l p Hl Hp) as (_ & _ & ?).
  - apply list_elem_of_fmap in Hr as ([p [s b]] & -> & Hp%elem_of_map_to_list).
    destruct (AllocatorInv.inv_live _ _ _ Hi p s b Hp) as (_ & _ & Hk).
    rewrite /AllocatorInv.live_region /=. destruct (classify s b) as [[c|m]|] eqn:Hc; [| |done].
    + apply Hcv. by destruct Hk as [(_ & _ & ?) _].
    + apply (apart_within _ _ _ Hwe).
      pose proof (AllocatorInv.inv_maps_apart _ _ _ Hi) as Hs. rewrite (AllocatorInv.inv_maps _ _ _ Hi) in Hs.
      rewrite /all_maps in Hs. apply separate_app in Hs as (_ & _ & Hcross). rewrite Forall_forall in Hcross.
      assert ((a, ARENA_SIZE) ∈ (fun a => (a, ARENA_SIZE)) <$> arenas g) as Hain by by apply (list_elem_of_fmap_2 (fun a => (a, ARENA_SIZE))).
      specialize (Hcross _ Hain). rewrite Forall_forall in Hcross. apply Hcross.
      apply list_elem_of_omap. exists (p, (s, b)). split; [by apply elem_of_map_to_list|]. by rewrite /live_mapping /= Hc.
Qed.

Definition with_map (m : Memory) (mp : Mapping) (w : world) (st : St) : St :=
  mkSt _ m (mp :: maps st) w (locked st) (current_arena st) (free_lists st).

(** A fresh mapping and what was written into it leave everything owned
    alone. *)
Lemma fresh_agree g st m' mp e r : inv g st -> Forall (apart mp) (maps st) ->
  (forall e, apart mp e -> agree (mem st) m' e) -> within e r -> r ∈ regions g -> agree (mem st) m' e.
Proof.
  intros Hi Hf Hm He Hr. apply Hm. pose proof (fresh_apart debug g st mp Hi Hf) as Hfr.
  rewrite Forall_forall in Hfr. apply apart_sym, (apart_within _ _ r He). by apply apart_sym, Hfr.
Qed.

Lemma fresh_mem g st m' mp : inv g st -> Forall (apart mp) (maps st) ->
  (forall e, apart mp e -> agree (mem st) m' e) -> inv g (with_mem m' st).
Proof. intros Hi Hf Hm. eapply inv_unowned; [done|exact Hm|by eapply fresh_apart]. Qed.

Lemma inv_add_arena g st p w m' : inv g st -> mapping_ok (p, ARENA_SIZE) ->
  Forall (apart (p, ARENA_SIZE)) (maps st) -> live_maps w ((p, ARENA_SIZE) :: maps st) ->
  (forall e, apart (p, ARENA_SIZE) e -> agree (mem st) m' e) ->
  read_le 8 m' (p + 8) = ARENA_SIZE -> read_le 8 m' (p + 16) = ARENA_HEADER ->
  inv (mkGhost (p :: arenas g) (free g) (live g)) (with_arena p (with_map m' (p, ARENA_SIZE) w st)).
Proof.
  intros Hi Hok Hf Hw Hm H8 H16. pose proof (fresh_mem g st m' _ Hi Hf Hm) as Hi'.
  pose proof (fresh_apart debug g st (p, ARENA_SIZE) Hi Hf) as Hfr.
  assert (p ∉ arenas g) as Hp.
  { intros Hp%(arena_mapping debug g st p Hi). rewrite Forall_forall in Hf. pose proof (Hf _ Hp) as Hap.
    rewrite /apart /ARENA_SIZE /= in Hap. lia. }
  assert (forall e, carved g (with_mem m' st) e ->
    carved (mkGhost (p :: arenas g) (free g) (live g)) (with_arena p (with_map m' (p, ARENA_SIZE) w st)) e) as Hcv.
  { intros e (a & Ha & H1 & H2 & _). exists a. split_and!; [by right|done|done|]. simpl. intros ->. done. }
  destruct Hi'. split; try done; simpl.
  - intros i l q Hl Hq. destruct (inv_free i l q Hl Hq) as (? & ? & ?). split; [done|split; [done|by apply Hcv]].
  - intros q s a Hl. destruct (inv_live q s a Hl) as (Hs & Ha & Hk). split; [done|split; [done|]].
    destruct (classify s a) as [[c|m]|]; [|done..].
    destruct Hk as [(? & ? & ?) Hh]. split; [split; [done|split; [done|by apply Hcv]]|done].
  - rewrite /arena_ok /=. split_and!; [done|done|rewrite H16; done|rewrite H16; done].
  - simpl in inv_maps. by rewrite inv_maps.
  - by constructor.
  - by apply separate_cons.
  - apply separate_cons. split; [|done].
    eapply Forall_impl; [exact Hfr|]. intros r Hr. apply (apart_within _ _ (p, ARENA_SIZE)); [|done].
    rewrite /within /ARENA_HEADER /ARENA_SIZE /=. lia.
Qed.

Lemma inv_add_direct g st p s a m w m' : inv g st -> classify s a = Some (Direct m) ->
  mapping_ok (direct_region debug p m a) -> Forall (apart (direct_region debug p m a)) (maps st) ->
  live_maps w (direct_region debug p m a :: maps st) ->
  (forall e, apart (direct_region debug p m a) e -> agree (mem st) m' e) ->
  live_ok g (with_mem m' st) p s a -> within (p, 1) (direct_region debug p m a) ->
  live g !! p = None /\
  inv (set_live g (<[p := (s, a)]> (live g))) (with_map m' (direct_region debug p m a) w st).
Proof.
  intros Hi Hc Hmok Hf Hw Hm Hok Hwp. pose proof (fresh_mem g st m' _ Hi Hf Hm) as Hi'.
  pose proof (fresh_apart debug g st _ Hi Hf) as Hfr.
  pose proof (region_fresh g st _ p Hi Hwp Hfr) as Hn. split; [done|].
  destruct Hi'. split; try done; simpl.
  - intros q s' a' [(<- & [= <- <-])|[_ Hq]]%lookup_insert_Some; [done|by apply inv_live].
  - simpl in inv_maps. rewrite inv_maps maps_insert // /live_mapping /= Hc //.
  - by constructor.
  - by apply separate_cons.
  - rewrite regions_insert //. apply separate_cons. split; [|done]. by rewrite /AllocatorInv.live_region /= Hc.
Qed.

Lemma inv_remove_direct g st p s a m w mps : inv g st -> live g !! p = Some (s, a) ->
  classify s a = Some (Direct m) -> maps st ≡ₚ direct_region debug p m a :: mps -> live_maps w mps ->
  inv (set_live g (delete p (live g)))
    (mkSt _ (mem st) mps w (locked st) (current_arena st) (free_lists st)).
Proof.
  intros Hi Hl Hc Hp Hw. destruct Hi. split; try done; simpl.
  - intros q s' a' [_ Hq]%lookup_delete_Some. by apply inv_live.
  - rewrite Hp (maps_delete g p (s, a) Hl) /live_mapping /= Hc /= in inv_maps. by apply Permutation_cons_inv in inv_maps.
  - rewrite Hp in inv_mappings. by inversion inv_mappings.
  - rewrite Hp in inv_maps_apart. by apply separate_cons in inv_maps_apart as [_ ?].
  - rewrite (regions_delete g p (s, a) Hl) in inv_regions. by apply separate_cons in inv_regions as [_ ?].
Qed.

Lemma small_ok_agree g st m' i p : small_ok g st i p ->
  (forall a, a ∈ arenas g -> agree (mem st) m' (a, ARENA_HEADER)) -> small_ok g (with_mem m' st) i p.
Proof.
  intros (Hi & Ha & b & Hb & H1 & H2 & H3) Hm. split; [done|split; [done|]]. exists b.
  split_and!; [done..|]. simpl. intros Hc.
  rewrite -(read_le_agree 8 (mem st) m'); [by apply H3|]. eapply agree_sub; [by apply Hm|simpl; unfold ARENA_HEADER; lia..].
Qed.

(** What agrees outside the region of one live allocation leaves everything
    else of the invariant alone. *)
Lemma inv_others g st m' p x : inv g st -> live g !! p = Some x ->
  (forall e, apart (live_region (p, x)) e -> agree (mem st) m' e) ->
  (forall i l q, free g !! i = Some l -> q ∈ l -> agree (mem st) m' (q, 8)) /\
  (forall a, a ∈ arenas g -> agree (mem st) m' (a, ARENA_HEADER)) /\
  (forall q s a, q <> p -> live g !! q = Some (s, a) -> agree (mem st) m' (live_region (q, (s, a)))).
Proof.
  intros Hi Hl Hm. pose proof (live_separate debug g st p x Hi Hl) as Hf. rewrite !Forall_app !Forall_forall in Hf.
  destruct Hf as (Har & Hfr & Hlv). split_and!.
  - intros i l q Hil Hq. apply Hm.
    assert (small_region (Z.of_nat i) q ∈ free_regions debug (free g)) as Hin.
    { rewrite /free_regions. apply list_elem_of_In, List.in_concat. exists (small_region (Z.of_nat i) <$> l).
      rewrite -!list_elem_of_In. split; [|by apply list_elem_of_fmap_2].
      apply list_elem_of_lookup. exists i. by rewrite list_lookup_imap Hil. }
    destruct (AllocatorInv.inv_free _ _ _ Hi i l q Hil Hq) as [Hir _].
    apply apart_sym, (apart_within _ _ _ (block_word_within _ q Hir)). by apply apart_sym, Hfr.
  - intros a Ha. apply Hm, Har. by apply (list_elem_of_fmap_2 (fun a => (a, ARENA_HEADER))).
  - intros q s a Hne Hq. apply Hm, Hlv. apply list_elem_of_fmap. exists (q, (s, a)). split; [done|].
    apply elem_of_map_to_list. by rewrite lookup_delete_ne.
Qed.

(** Relabelling a live block with a size of the same kind. *)
Lemma inv_relabel g st m' p s s' a : inv g st -> live g !! p = Some (s, a) -> classify s a = classify s' a ->
  (forall e, apart (live_region (p, (s, a))) e -> agree (mem st) m' e) -> live_ok g (with_mem m' st) p s' a ->
  inv (set_live g (<[p := (s', a)]> (live g))) (with_mem m' st).
Proof.
  intros Hi Hl Hc Hm Hok. destruct (inv_others g st m' p _ Hi Hl Hm) as (Hfree & Har & Hlv).
  assert (set_live g (<[p := (s', a)]> (live g)) =
    set_live (set_live g (delete p (live g))) (<[p := (s', a)]> (delete p (live g)))) as Heq.
  { by rewrite /set_live /= insert_delete_eq. }
  assert (live (set_live g (delete p (live g))) !! p = None) as Hn by by rewrite /= lookup_delete_eq.
  assert (live_mapping debug (p, (s', a)) = live_mapping debug (p, (s, a))) as Hlm by by rewrite /live_mapping /= Hc.
  assert (live_region (p, (s', a)) = live_region (p, (s, a))) as Hlr by by rewrite /AllocatorInv.live_region /= Hc.
  assert (forall q t b, q <> p -> live g !! q = Some (t, b) -> live_ok g (with_mem m' st) q t b) as Hothers.
  { intros q t b Hne Hq. destruct (AllocatorInv.inv_live _ _ _ Hi q t b Hq) as (Ht & Hb & Hk). split; [done|split; [done|]].
    assert (debug = true -> agree (mem st) m' (q - 48, 48)) as Hh.
    { intros Hd. destruct (live_header_within g st q t b Hi Hq Hd). by eapply agree_sub; [by eapply Hlv|..]. }
    destruct (classify t b) as [[c|m]|]; [| |done]; destruct Hk as [Hk1 Hk2]; (split; [|intros Hd; eapply header_agree; auto]).
    - by apply small_ok_agree.
    - done. }
  assert (forall a d, a ∈ arenas g -> 0 <= d <= 16 -> read_le 8 m' (a + d) = read_le 8 (mem st) (a + d)) as Hoff.
  { intros b d Hb Hd. symmetry. apply read_le_agree. eapply agree_sub; [by apply Har|simpl; unfold ARENA_HEADER; lia..]. }
  destruct Hi. split; try done; simpl.
  - intros i l Hil. destruct (inv_chain i l Hil) as (head & Hh & Hch). exists head. split; [done|].
    eapply chain_agree; [|exact Hch]. intros q Hq. by eapply Hfree.
  - intros i l q Hil Hq. apply small_ok_agree; eauto.
  - intros q u b [(<- & [= <- <-])|[Hne Hq]]%lookup_insert_Some; [done|by apply Hothers].
  - rewrite /arena_ok /= in inv_arena |- *. destruct (arenas g) as [|b l] eqn:Hg; [done|].
    rewrite (Hoff b 8) ?(Hoff b 16) //; try (by left); lia.
  - rewrite Heq (maps_insert (set_live g (delete p (live g)))) // Hlm inv_maps. by apply maps_delete.
  - rewrite Heq (regions_insert (set_live g (delete p (live g)))) // Hlr. by rewrite -regions_delete.
Qed.

(** The holder of an allocation may write its bytes. *)
Lemma inv_payload g st m' p s a : inv g st -> live g !! p = Some (s, a) ->
  (forall e, apart (p, s) e -> agree (mem st) m' e) ->
  inv g (with_mem m' st) /\
  forall q t b, q <> p -> live g !! q = Some (t, b) -> agree (mem st) m' (q, t).
Proof.
  intros Hi Hl Hm. pose proof (live_payload_within g st p s a Hi Hl) as Hw.
  destruct (inv_others g st m' p _ Hi Hl) as (Hfree & Har & Hlv).
  { intros e He. apply Hm. by apply (apart_within _ _ _ Hw). }
  split.
  - apply inv_mem; [done..| |done]. intros q t b Hq Hd. destruct (decide (q = p)) as [->|Hne].
    + apply Hm. rewrite /apart /=. lia.
    + destruct (live_header_within g st q t b Hi Hq Hd). by eapply agree_sub; [by eapply Hlv|..].
  - intros q t b Hne Hq. destruct (live_payload_within g st q t b Hi Hq). by eapply agree_sub; [by eapply Hlv|..].
Qed.
End Steps.
