(* ===== verification/AllocatorSpec.v ===== *)
(** * Allocator: allocation

    Runs of the effects of [Allocator.v] on states that satisfy the ownership
    invariant, from single words up to [allocate]: the operation completes
    without touching unmapped memory, keeps the invariant and the bytes of the
    live allocations, and returns null or a block that was not live. *)

From S2P Require Import Prelude Allocator AllocatorInv AllocatorSteps.
From stdpp Require Import gmap.
From Stdlib Require List.
Import Machine.
Local Open Scope Z_scope.

#[local] Arguments read_le : simpl never.
#[local] Arguments write_le : simpl never.

#[local] Existing Instances M_ret M_bind.

Section Spec.
Context {PM : PageMapper} {ML : @MapperLaws PM} (debug : bool).
Implicit Types (g : Ghost) (st : St).
Notation inv := (inv debug).
Notation regions := (regions debug).
Notation small_region := (small_region debug).
Notation small_ok := (small_ok debug).
Notation live_ok := (live_ok debug).

(** ** Effects *)

Lemma mapped_within st a n m : m ∈ maps st -> within (a, n) m -> mapped st a n = true.
Proof.
  intros Hm [H1 H2]. rewrite /mapped. apply List.existsb_exists. exists m.
  rewrite -list_elem_of_In. split; [done|]. simpl in *. rewrite andb_true_iff !Z.leb_le. lia.
Qed.

Lemma read_run st a m : m ∈ maps st -> within (a, 8) m -> read_u64 a st = Some (read_le 8 (mem st) a, st).
Proof. intros Hm Hw. by rewrite /read_u64 (mapped_within _ _ _ m). Qed.

Lemma write_run st a v m : m ∈ maps st -> within (a, 8) m ->
  write_u64 a v st = Some (tt, with_mem (write_le 8 (mem st) a v) st).
Proof. intros Hm Hw. by rewrite /write_u64 (mapped_within _ _ _ m). Qed.

Lemma bind_run {A B} (f : A -> M B) (m : M A) st a st' : m st = Some (a, st') -> (m ≫= f) st = f a st'.
Proof. intros Hm. by rewrite /mbind /M_bind Hm. Qed.

Lemma guarded_run {A} (body : M A) st r st' : locked st = false ->
  body (with_locked true st) = Some (r, st') -> guarded body st = Some (r, with_locked false st').
Proof. intros Hl Hb. by rewrite /guarded /lock /mbind /M_bind Hl Hb. Qed.

Lemma inv_locked g st b : inv g st -> inv g (with_locked b st).
Proof. by intros []. Qed.

(** Six words, one after the other. *)
Lemma header_run st p s a raw ms k m : m ∈ maps st -> within (p - 48, 48) m ->
  in_u 64 s -> in_u 64 a -> in_u 64 raw -> in_u 64 ms -> in_u 64 k ->
  exists m', write_allocation_header p s a raw ms k st = Some (tt, with_mem m' st) /\
    (forall e, apart (p - 48, 48) e -> agree (mem st) m' e) /\ header_ok m' p s a raw ms k.
Proof.
  intros Hm Hw Hs Ha Hraw Hms Hk. rewrite /write_allocation_header /mbind /M_bind /ALLOCATION_HEADER.
  rewrite /within /= in Hw.
  assert (forall st' d v, maps st' = maps st -> 0 <= d <= 40 ->
    write_u64 (p - 48 + d) v st' = Some (tt, with_mem (write_le 8 (mem st') (p - 48 + d) v) st')) as Hwr.
  { intros st' d v Hst Hd. apply (write_run _ _ _ m); [by rewrite Hst|rewrite /within /=; lia]. }
  rewrite (write_run st (p - 48) _ m) //; [|rewrite /within /=; lia].
  do 5 (rewrite Hwr; [|done|lia]). cbn [mem with_mem].
  eexists. split; [done|]. split.
  - intros e He. do 6 (eapply agree_trans; [|apply write_le_outside; rewrite /apart /= in He |- *; lia]).
    by intros x _.
  - assert (forall mm d v d' , 0 <= d <= 40 -> 0 <= d' <= 40 -> d + 8 <= d' \/ d' + 8 <= d ->
      read_le 8 (write_le 8 mm (p - 48 + d') v) (p - 48 + d) = read_le 8 mm (p - 48 + d)) as Hro.
    { intros mm d v d' Hd Hd' Hap. symmetry. apply read_le_agree, write_le_outside. rewrite /apart /=. lia. }
    assert (forall mm v d', 8 <= d' <= 40 -> read_le 8 (write_le 8 mm (p - 48 + d') v) (p - 48) = read_le 8 mm (p - 48)) as Hro0.
    { intros mm v d' Hd. symmetry. apply read_le_agree, write_le_outside. rewrite /apart /=. lia. }
    rewrite /header_ok. split_and!; [rewrite !Hro0; [|lia..]|..];
      repeat (rewrite Hro; [|lia..]); apply read_write; assumption || done.
Qed.

Lemma validate_run st p s a raw ms k m : m ∈ maps st -> within (p - 48, 48) m ->
  header_ok (mem st) p s a raw ms k ->
  validate_allocation_header p s a st = Some (mkHeader raw ms k, st).
Proof.
  intros Hm Hw (H1 & H2 & H3 & H4 & H5 & H6). rewrite /validate_allocation_header /mbind /M_bind /ALLOCATION_HEADER.
  rewrite /within /= in Hw.
  rewrite (read_run _ _ m) //; [|rewrite /within /=; lia].
  repeat (rewrite (read_run _ _ m) //; [|rewrite /within /=; lia]).
  by rewrite H1 H2 H3 H4 H5 H6 !Z.eqb_refl.
Qed.

(** ** Blocks *)

Lemma align_up v j : 0 <= j -> 0 <= v -> v + 2 ^ j <= 2 ^ 64 -> exists r,
  checked_align_up v (2 ^ j) = Some r /\ r mod 2 ^ j = 0 /\ v <= r < v + 2 ^ j.
Proof.
  intros Hj Hv Hb. assert (0 < 2 ^ j) as Hp by (apply Z.pow_pos_nonneg; lia).
  rewrite /checked_align_up checked_u_in; [|split; lia]. cbn.
  eexists. split; [done|]. rewrite -Z.ldiff_land Z.sub_1_r -Z.ones_equiv Z.ldiff_ones_r // Z.shiftl_mul_pow2 //.
  rewrite Z.shiftr_div_pow2 //. rewrite Z.ones_equiv. set (w := v + Z.pred (2 ^ j)).
  pose proof (Z.div_mod w (2 ^ j) ltac:(lia)) as Hd. pose proof (Z.mod_pos_bound w (2 ^ j) Hp) as Hm.
  split; [by rewrite Z.mod_mul; [|lia]|]. lia.
Qed.

(** The bytes of the live allocations stay. *)
Definition preserved (g : Ghost) (st st' : St) : Prop := forall p s a, live g !! p = Some (s, a) ->
  agree (mem st) (mem st') (p, s).

Lemma preserved_refl g st : preserved g st st.
Proof. by intros p s a _ x _. Qed.

Lemma preserved_trans g g' st1 st2 st3 : live g = live g' -> preserved g st1 st2 -> preserved g' st2 st3 ->
  preserved g st1 st3.
Proof. intros Hl H1 H2 p s a Hp. eapply agree_trans; [by eapply H1|]. rewrite Hl in Hp. by eapply H2. Qed.

Lemma preserved_write g st m' w : inv g st -> (forall e, apart w e -> agree (mem st) m' e) ->
  Forall (apart w) (live_regions debug (live g)) -> preserved g st (with_mem m' st).
Proof.
  intros Hi Hm Hw p s a Hl. apply Hm. rewrite Forall_forall in Hw.
  apply apart_sym, (apart_within _ _ _ (live_payload_within debug g st p s a Hi Hl)). apply apart_sym, Hw.
  apply list_elem_of_fmap. exists (p, (s, a)). split; [done|]. by apply elem_of_map_to_list.
Qed.

Lemma regions_live w g : Forall (apart w) (regions g) -> Forall (apart w) (live_regions debug (live g)).
Proof. rewrite /AllocatorInv.regions !Forall_app. tauto. Qed.

(** A block ready to be handed out with a layout. *)
Definition block_ready (g : Ghost) (st st' : St) (i p s al : Z) : Prop :=
  inv g st' /\ live_ok g st' p s al /\ Forall (apart (small_region i p)) (regions g) /\
  preserved g st st' /\ locked st' = locked st /\ maps st' = maps st.

Lemma block_header g st i p s al : inv g st -> small_ok g st i p -> Forall (apart (small_region i p)) (regions g) ->
  classify s al = Some (Small (class_of i)) -> in_u 64 s -> in_u 64 al ->
  exists st', (if debug then write_allocation_header p s al 0 0 i else mret tt) st = Some (tt, st') /\
    block_ready g st st' i p s al.
Proof.
  intros Hi Hok Hap Hc Hs Hal. pose proof Hok as [Hir _].
  destruct (small_facts debug g st i p Hi Hok) as (_ & _ & m & Hm & Hw).
  destruct (class_facts i Hir) as [Hbs _].
  assert (debug = true \/ debug = false) as [Hd|Hd] by (destruct debug; auto); rewrite {1}Hd.
  2:{ exists st. split; [done|]. split; [done|]. split; [|by split_and!; try apply preserved_refl].
    split; [done|split; [done|]]. rewrite Hc. split; [done|]. by rewrite Hd. }
  assert (within (p - 48, 48) (small_region i p)) as Hwb by (rewrite /within /AllocatorInv.small_region /header_bytes Hd /ALLOCATION_HEADER; simpl in *; lia).
  destruct (header_run st p s al 0 0 i m Hm (within_trans _ _ _ Hwb Hw)) as (m' & -> & Hag & Hh);
    [done..|split; lia|]. eexists. split; [done|].
  assert (Forall (apart (p - 48, 48)) (regions g)) as Hap'.
  { eapply Forall_impl; [exact Hap|]. intros r. by apply apart_within. }
  split_and!; try done.
  - by eapply inv_unowned.
  - split_and!; [done..|]. rewrite Hc. split; [|done]. apply small_ok_agree; [done|]. intros a Ha. apply Hag.
    rewrite Forall_forall in Hap'. apply Hap'. rewrite /AllocatorInv.regions elem_of_app. left.
    by apply (list_elem_of_fmap_2 (fun a => (a, ARENA_HEADER))).
  - eapply preserved_write; [done|done|by apply regions_live].
Qed.

(** ** The bump arena *)

Lemma block_ready_after g st st1 st' i p s al : preserved g st st1 -> locked st1 = locked st -> maps st1 = maps st ->
  block_ready g st1 st' i p s al -> block_ready g st st' i p s al.
Proof.
  intros Hp Hl Ho (H1 & H2 & H3 & H4 & H5 & H6). split_and!; [done| |done| |congruence..].
  - apply H2.
  - by eapply preserved_trans.
Qed.

(** Where the next block of a class goes. *)
Lemma bump_offsets off i : 0 <= i <= 11 -> ARENA_HEADER <= off <= ARENA_SIZE -> exists po,
  (pointer_offset ←
     (if debug
      then start ← checked_u 64 (off + ALLOCATION_HEADER); checked_align_up start (block_align (class_of i))
      else checked_align_up off (block_align (class_of i)));
   new_offset ← checked_u 64 (pointer_offset + block_size (class_of i));
   Some (pointer_offset, new_offset)) = Some (po, po + block_size (class_of i)) /\
  po mod block_align (class_of i) = 0 /\ off + header_bytes debug <= po < off + header_bytes debug + PAGE_SIZE.
Proof.
  intros Hi Hoff. destruct (class_facts i Hi) as [Hbs (j & Hj & Hal & _)]. rewrite Hal.
  assert (2 ^ j <= 2 ^ 12) as Hj2 by (apply Z.pow_le_mono_r; lia). change (2 ^ 12) with PAGE_SIZE in Hj2.
  unfold ARENA_HEADER, ARENA_SIZE, MAX_SMALL_SIZE, PAGE_SIZE in *.
  destruct (align_up (off + header_bytes debug) j) as (po & Hpo & Hm & Hb);
    [lia|rewrite /header_bytes /ALLOCATION_HEADER; destruct debug; lia..|].
  exists po. split; [|split; [done|lia]].
  rewrite /header_bytes in Hpo Hb. destruct debug.
  - rewrite checked_u_in; [|unfold ALLOCATION_HEADER in *; split; lia]. cbn [mbind option_bind]. rewrite Hpo. cbn [mbind option_bind].
    rewrite checked_u_in; [done|unfold ALLOCATION_HEADER in *; split; lia].
  - rewrite Z.add_0_r in Hpo. rewrite Hpo. cbn [mbind option_bind]. rewrite checked_u_in; [done|split; lia].
Qed.

Lemma allocate_from_arena_spec g st a rest i s al : inv g st -> arenas g = a :: rest -> 0 <= i <= 11 ->
  classify s al = Some (Small (class_of i)) -> in_u 64 s -> in_u 64 al ->
  exists r st', allocate_from_arena debug a (class_of i) s al st = Some (r, st') /\
  match r with
  | None => st' = st /\ read_le 8 (mem st) (a + 16) <> ARENA_HEADER
  | Some p => block_ready g st st' i p s al
  end.
Proof.
  intros Hi Har Hir Hc Hs Hal. pose proof (AllocatorInv.inv_arena _ _ _ Hi) as Hao. rewrite /arena_ok Har in Hao.
  destruct Hao as (Hcur & Hsz & Hoff).
  assert (a ∈ arenas g) as Ha by (rewrite Har; by left).
  pose proof (arena_mapping debug g st a Hi Ha) as Hm.
  destruct (mapping_facts debug g st _ Hi Hm) as (Ha0 & Hamod & _ & Hend). simpl in Ha0, Hamod, Hend.
  assert (forall d, 0 <= d <= 16 -> within (a + d, 8) (a, ARENA_SIZE)) as Hwd by (intros; rewrite /within /ARENA_SIZE /=; lia).
  destruct (bump_offsets _ i Hir Hoff) as (po & Hpo & Hmod & Hb). destruct (class_facts i Hir) as [Hbs (j & Hj & Hja & _)].
  pose proof (header_bytes_nonneg debug) as Hh0.
  rewrite /allocate_from_arena.
  rewrite (bind_run _ _ _ _ _ (read_run _ _ _ Hm (Hwd 8 ltac:(lia)))).
  rewrite (bind_run _ _ _ _ _ (read_run _ _ _ Hm (Hwd 16 ltac:(lia)))).
  rewrite Hpo Hsz. destruct (Z.ltb_spec ARENA_SIZE (po + block_size (class_of i))) as [Hlt|Hle].
  - eexists _, _. split; [done|]. split; [done|]. intros He. rewrite He in Hb.
    unfold ARENA_HEADER, ARENA_SIZE, MAX_SMALL_SIZE, PAGE_SIZE in *.
    rewrite /header_bytes /ALLOCATION_HEADER in Hb. destruct debug; lia.
  - rewrite (bind_run _ _ _ _ _ (write_run _ _ _ _ Hm (Hwd 16 ltac:(lia)))).
    set (st1 := with_mem _ st).
    assert (inv g st1) as Hi1 by (eapply inv_bump; [done|done|lia]).
    assert (Forall (apart (small_region i (a + po))) (regions g)) as Hap.
    { eapply (bump_apart debug g st a rest); [done|done|rewrite /AllocatorInv.small_region /=; lia|].
      rewrite /AllocatorInv.small_region /=. simpl in Hle. lia. }
    assert (small_ok g st1 i (a + po)) as Hok.
    { split; [done|]. split.
      - rewrite Hja in Hmod |- *. apply Z.mod_divide; [lia|]. apply Z.divide_add_r.
        + apply Z.mod_divide in Hamod; [|done]. etrans; [|exact Hamod]. change PAGE_SIZE with (2 ^ 12). apply pow2_divide. lia.
        + apply Z.mod_divide; [lia|done].
      - exists a. rewrite /AllocatorInv.small_region /=. simpl in Hle. split_and!; [done|lia|lia|].
        intros _. rewrite read_write; [lia|]. unfold ARENA_SIZE, ARENA_HEADER in *. lia. }
    destruct (block_header g st1 i (a + po) s al Hi1 Hok Hap Hc Hs Hal) as (st' & Hrun & Hready).
    rewrite (bind_run _ _ _ _ _ Hrun). eexists _, _. split; [done|].
    eapply block_ready_after; [..|done]; [|done|done].
    eapply (preserved_write _ _ _ (a + 16, 8)); [done|intros e; apply write_le_outside|].
    apply Forall_forall. intros r Hr. pose proof (AllocatorInv.inv_regions _ _ _ Hi) as Hsep.
    rewrite /AllocatorInv.regions in Hsep. apply separate_app in Hsep as (_ & _ & Hcross).
    rewrite Forall_forall in Hcross.
    specialize (Hcross (a, ARENA_HEADER) (list_elem_of_fmap_2 (fun a => (a, ARENA_HEADER)) _ _ Ha)).
    rewrite Forall_forall in Hcross. apply (apart_within _ _ (a, ARENA_HEADER)); [rewrite /within /ARENA_HEADER /=; lia|].
    apply Hcross. rewrite elem_of_app. by right.
Qed.

(** What an allocation returns: null with the same live blocks, or a block
    that was not live. *)
Definition outcome (g : Ghost) (st : St) (r : Z) (st' : St) (s al : Z) : Prop := exists g',
  inv g' st' /\ preserved g st st' /\ locked st' = locked st /\
  (maps st' = maps st \/ exists mp, maps st' = mp :: maps st) /\
  (r = 0 /\ live g' = live g \/ r <> 0 /\ live g !! r = None /\ live g' = <[r := (s, al)]> (live g)).

Lemma block_outcome g st st' i p s al : block_ready g st st' i p s al -> classify s al = Some (Small (class_of i)) ->
  p <> 0 /\ outcome g st p st' s al.
Proof.
  intros (Hi & Hok & Hap & Hp & Hl & Hm) Hc. destruct (inv_add_small debug g st' p s al _ Hi Hok Hc Hap) as [Hn Hi'].
  pose proof Hok as (_ & _ & Hk). rewrite Hc in Hk. destruct (small_facts debug g st' _ p Hi (proj1 Hk)) as [H0 _].
  split; [lia|]. eexists. split; [exact Hi'|]. split_and!; [done|done|by left|]. right. by split; [lia|].
Qed.


(** Mapping an arena and writing its header. *)
Lemma new_arena_run {A} (k : M A) g st : inv g st ->
  let '(p, w) := os_map ARENA_SIZE (os st) in
  map_pages ARENA_SIZE st = Some (p, mkSt _ (mem st) (if p =? 0 then maps st else (p, ARENA_SIZE) :: maps st) w
                                       (locked st) (current_arena st) (free_lists st)) /\
  (p = 0 /\ live_maps w (maps st) \/
   p <> 0 /\ exists m',
     (write_u64 p (current_arena st);; write_u64 (p + 8) ARENA_SIZE;; write_u64 (p + 16) ARENA_HEADER;;
      (fun st => Some (tt, with_arena p st));; k) (with_map (mem st) (p, ARENA_SIZE) w st) =
     k (with_arena p (with_map m' (p, ARENA_SIZE) w st)) /\
     inv (mkGhost (p :: arenas g) (free g) (live g)) (with_arena p (with_map m' (p, ARENA_SIZE) w st)) /\
     read_le 8 m' (p + 16) = ARENA_HEADER /\
     preserved g st (with_arena p (with_map m' (p, ARENA_SIZE) w st))).
Proof.
  intros Hi. pose proof (live_map (os st) (maps st) ARENA_SIZE (AllocatorInv.inv_os _ _ _ Hi) ltac:(done) ltac:(done)) as Hm.
  rewrite /map_pages. destruct (os_map ARENA_SIZE (os st)) as [p w]. split; [done|].
  destruct Hm as [Hm|(Hp & Hmod & Hend & Hap & Hw)]; [by left|right]. split; [lia|].
  assert (forall st' d v, maps st' = (p, ARENA_SIZE) :: maps st -> 0 <= d <= 16 ->
    write_u64 (p + d) v st' = Some (tt, with_mem (write_le 8 (mem st') (p + d) v) st')) as Hwr.
  { intros st' d v Hst Hd. apply (write_run _ _ _ (p, ARENA_SIZE)); [rewrite Hst; by left|rewrite /within /ARENA_SIZE /=; lia]. }
  set (m1 := write_le 8 (mem st) p (current_arena st)). set (m2 := write_le 8 m1 (p + 8) ARENA_SIZE).
  exists (write_le 8 m2 (p + 16) ARENA_HEADER).
  assert (forall e, apart (p, ARENA_SIZE) e -> agree (mem st) (write_le 8 m2 (p + 16) ARENA_HEADER) e) as Hag.
  { intros e He. do 3 (eapply agree_trans; [|apply write_le_outside; rewrite /apart /ARENA_SIZE /= in He |- *; lia]).
    by intros x _. }
  assert (read_le 8 (write_le 8 m2 (p + 16) ARENA_HEADER) (p + 16) = ARENA_HEADER) as H16 by by apply read_write.
  split_and!.
  - assert (write_u64 p (current_arena st) (with_map (mem st) (p, ARENA_SIZE) w st) =
      Some (tt, with_map m1 (p, ARENA_SIZE) w st)) as He.
    { pose proof (Hwr (with_map (mem st) (p, ARENA_SIZE) w st) 0 (current_arena st) eq_refl ltac:(lia)) as He.
      by rewrite Z.add_0_r in He. }
    etrans; [exact (bind_run _ _ _ _ _ He)|].
    etrans; [exact (bind_run _ _ _ _ _ (Hwr (with_map m1 (p, ARENA_SIZE) w st) 8 ARENA_SIZE eq_refl ltac:(lia)))|].
    by etrans; [exact (bind_run _ _ _ _ _ (Hwr (with_map m2 (p, ARENA_SIZE) w st) 16 ARENA_HEADER eq_refl ltac:(lia)))|].
  - apply inv_add_arena; try done.
    rewrite -(read_write m1 (p + 8) ARENA_SIZE); [|done]. symmetry. apply read_le_agree, write_le_outside.
    rewrite /apart /=. lia.
  - done.
  - intros q s a Hl. apply Hag. pose proof (fresh_apart debug g st (p, ARENA_SIZE) Hi Hap) as Hfr.
    rewrite Forall_forall in Hfr. apply apart_sym, (apart_within _ _ _ (live_payload_within debug g st q s a Hi Hl)).
    by apply apart_sym, Hfr, live_region_elem.
Qed.

Lemma outcome_after g st st1 g1 st' r s al mp : inv g st -> preserved g st st1 -> locked st1 = locked st ->
  maps st1 = mp :: maps st -> maps st' = maps st1 -> live g1 = live g -> outcome g1 st1 r st' s al -> outcome g st r st' s al.
Proof.
  intros Hi Hp Hl Hm Hm2 Hlv (g' & Hi' & Hp' & Hl' & _ & Hr). exists g'. split_and!; [done| |congruence| |].
  - by eapply preserved_trans.
  - right. exists mp. congruence.
  - by rewrite Hlv in Hr.
Qed.

(** The [loop] on a state whose current arena is fresh. *)
Lemma loop_fresh n g st a rest i s al : inv g st -> arenas g = a :: rest -> 0 <= i <= 11 ->
  read_le 8 (mem st) (a + 16) = ARENA_HEADER ->
  classify s al = Some (Small (class_of i)) -> in_u 64 s -> in_u 64 al ->
  exists p st', arena_loop debug (S n) (class_of i) s al st = Some (p, st') /\ block_ready g st st' i p s al.
Proof.
  intros Hi Har Hir Ho Hc Hs Hal. cbn [arena_loop].
  pose proof (AllocatorInv.inv_arena _ _ _ Hi) as Hao. rewrite /arena_ok Har in Hao. destruct Hao as (Hcur & _).
  assert (a <> 0) as Ha0.
  { assert (a ∈ arenas g) as Ha by (rewrite Har; by left).
    destruct (mapping_facts debug g st _ Hi (arena_mapping debug g st a Hi Ha)) as [H0 _]. simpl in H0. lia. }
  rewrite /get {1}/mbind {1}/M_bind Hcur. destruct (Z.eqb_spec a 0); [done|].
  destruct (allocate_from_arena_spec g st a rest i s al Hi Har Hir Hc Hs Hal) as (r & st' & Hrun & Hr).
  rewrite (bind_run _ _ _ _ _ Hrun). destruct r as [p|]; [by exists p, st'|]. by destruct Hr.
Qed.

(** The [loop] when the current arena, if any, is full. *)
Lemma loop_grow n g st i s al : inv g st -> 0 <= i <= 11 ->
  classify s al = Some (Small (class_of i)) -> in_u 64 s -> in_u 64 al ->
  exists r st',
    (mapping ← map_pages ARENA_SIZE;
     if mapping =? 0 then mret 0 else
     write_u64 mapping (current_arena st);; write_u64 (mapping + 8) ARENA_SIZE;;
     write_u64 (mapping + 16) ARENA_HEADER;;
     (fun st => Some (tt, with_arena mapping st));;
     arena_loop debug (S n) (class_of i) s al) st = Some (r, st') /\
    outcome g st r st' s al /\ (r = 0 -> (os_map ARENA_SIZE (os st)).1 = 0).
Proof.
  intros Hi Hir Hc Hs Hal. pose proof (new_arena_run (arena_loop debug (S n) (class_of i) s al) g st Hi) as Hnew.
  destruct (os_map ARENA_SIZE (os st)) as [p w]. destruct Hnew as [Hrun Hnew]. rewrite (bind_run _ _ _ _ _ Hrun).
  destruct Hnew as [[-> Hw]|(Hp & m' & Hk & Hi' & H16 & Hpr)].
  - eexists _, _. split; [done|]. split; [|done]. exists g. split_and!; [by destruct Hi; split|by intros q t b _ x _|done|by left|by left].
  - apply Z.eqb_neq in Hp. rewrite Hp Hk.
    destruct (loop_fresh n _ _ p (arenas g) i s al Hi' eq_refl Hir H16 Hc Hs Hal) as (r & st' & -> & Hr).
    exists r, st'. split; [done|]. pose proof Hr as (_ & _ & _ & _ & _ & Hm).
    destruct (block_outcome _ _ _ _ _ _ _ Hr Hc) as [Hr0 Hout].
    split; [|done]. by eapply outcome_after.
Qed.

(** The loop ends: a second arena is never needed. *)
Lemma arena_loop_spec n g st i s al : inv g st -> 0 <= i <= 11 ->
  classify s al = Some (Small (class_of i)) -> in_u 64 s -> in_u 64 al ->
  exists r st', arena_loop debug (S (S n)) (class_of i) s al st = Some (r, st') /\ outcome g st r st' s al /\
    (r = 0 -> (os_map ARENA_SIZE (os st)).1 = 0).
Proof.
  intros Hi Hir Hc Hs Hal. pose proof (loop_grow n g st i s al Hi Hir Hc Hs Hal) as Hgrow.
  pose proof (AllocatorInv.inv_arena _ _ _ Hi) as Hao. rewrite /arena_ok in Hao.
  remember (S n) as n1. cbn [arena_loop]. rewrite {1}/get {1}/mbind {1}/M_bind.
  destruct (arenas g) as [|a rest] eqn:Har.
  - rewrite Hao in Hgrow |- *. exact Hgrow.
  - destruct Hao as (Hcur & _). rewrite Hcur in Hgrow |- *. assert (a <> 0) as Ha0.
    { assert (a ∈ arenas g) as Ha by (rewrite Har; by left).
      destruct (mapping_facts debug g st _ Hi (arena_mapping debug g st a Hi Ha)) as [H0 _]. simpl in H0. lia. }
    destruct (Z.eqb_spec a 0); [done|].
    destruct (allocate_from_arena_spec g st a rest i s al Hi Har Hir Hc Hs Hal) as (r & st' & Hrun & Hr).
    rewrite (bind_run _ _ _ _ _ Hrun). destruct r as [p|].
    + destruct (block_outcome _ _ _ _ _ _ _ Hr Hc) as [Hp0 Hout]. by exists p, st'.
    + by destruct Hr as [-> _].
Qed.

(** A run under the lock. *)
Lemma outcome_locked g st b b' r st' s al : outcome g (with_locked b st) r st' s al -> locked st = b' ->
  outcome g st r (with_locked b' st') s al.
Proof.
  intros (g' & Hi & Hp & _ & Hm & Hr) Hb. exists g'. split_and!; [by apply inv_locked|exact Hp|done|exact Hm|done].
Qed.

Lemma free_head_run g st i l : inv g st -> 0 <= i <= 11 -> free g !! Z.to_nat i = Some l ->
  exists h, free_lists st !! Z.to_nat i = Some h /\ chain (mem st) h l /\ free_head i st = Some (h, st).
Proof.
  intros Hi Hir Hl. destruct (AllocatorInv.inv_chain _ _ _ Hi _ _ Hl) as (h & Hh & Hc). exists h. split_and!; [done..|].
  rewrite /free_head /mbind /M_bind /get. destruct (Z.ltb_spec i 0); [lia|]. by rewrite Hh.
Qed.

Lemma class_list g st i : inv g st -> 0 <= i <= 11 -> exists l, free g !! Z.to_nat i = Some l.
Proof.
  intros Hi Hir. apply lookup_lt_is_Some. rewrite (AllocatorInv.inv_classes _ _ _ Hi). lia.
Qed.

Lemma allocate_small_spec n g st i s al : inv g st -> locked st = false -> 0 <= i <= 11 ->
  classify s al = Some (Small (class_of i)) -> in_u 64 s -> in_u 64 al ->
  exists r st', allocate_small debug (S (S n)) (class_of i) s al st = Some (r, st') /\ outcome g st r st' s al /\
    (r = 0 -> (os_map ARENA_SIZE (os st)).1 = 0).
Proof.
  intros Hi Hlk Hir Hc Hs Hal. pose proof (inv_locked g st true Hi) as Hi1.
  destruct (class_list g _ i Hi1 Hir) as [l Hl].
  destruct (free_head_run g _ i l Hi1 Hir Hl) as (h & Hh & Hch & Hhead).
  rewrite /allocate_small. change (index (class_of i)) with i.
  destruct l as [|p l].
  - destruct (arena_loop_spec n g _ i s al Hi1 Hir Hc Hs Hal) as (r & st' & Hrun & Hout & H0).
    eexists r, _. split; [|split; [by eapply outcome_locked|exact H0]].
    apply guarded_run; [done|]. rewrite (bind_run _ _ _ _ _ Hhead). simpl in Hch. by rewrite Hch.
  - destruct (inv_pop_free debug g _ _ p l Hi1 Hl) as (Hi2 & Hok & Hap & _). rewrite Z2Nat.id in Hok Hap; [|lia..].
    set (g2 := set_class g (Z.to_nat i) l) in *.
    set (st2 := with_free_lists (<[Z.to_nat i:=read_le 8 (mem (with_locked true st)) p]> (free_lists (with_locked true st))) (with_locked true st)) in *.
    destruct (block_header g2 st2 i p s al Hi2 Hok Hap Hc Hs Hal) as (st' & Hrun & Hready).
    destruct (block_outcome _ _ _ _ _ _ _ Hready Hc) as [Hp0 (g' & Hi' & Hp' & Hl' & Hm' & Hr')].
    destruct Hch as [-> _].
    destruct (small_facts debug g2 st2 i p Hi2 Hok) as (_ & _ & m & Hm & Hw).
    pose proof (within_trans _ _ _ (block_word_within debug i p Hir) Hw) as Hw8.
    exists p, (with_locked false st'). split; [|split; [|lia]].
    + apply guarded_run; [done|]. rewrite (bind_run _ _ _ _ _ Hhead). destruct (Z.eqb_spec p 0); [done|]. cbn [negb].
      rewrite (bind_run _ _ _ _ _ (read_run (with_locked true st) p m Hm Hw8)).
      etrans; [by apply (bind_run _ (set_free_head i _) _ tt st2)|]. by rewrite (bind_run _ _ _ _ _ Hrun).
    + exists g'. split_and!; [by apply inv_locked|exact Hp'|done|exact Hm'|exact Hr'].
Qed.

(** ** Dedicated mappings *)

Lemma direct_ready g st s al m raw w m' : inv g st -> classify s al = Some (Direct m) -> in_u 64 s -> in_u 64 al ->
  let off := payload_offset debug al in let phys := physical_size debug m al in
  0 < phys -> 0 < raw -> raw mod PAGE_SIZE = 0 -> raw + phys <= 2 ^ 64 ->
  Forall (apart (raw, phys)) (maps st) -> live_maps w ((raw, phys) :: maps st) ->
  (forall e, apart (raw, phys) e -> agree (mem st) m' e) ->
  (debug = true -> header_ok m' (raw + off) s al raw phys DIRECT_KIND) ->
  raw + off <> 0 /\ outcome g st (raw + off) (with_map m' (raw, phys) w st) s al.
Proof.
  intros Hi Hc Hs Hal off phys Hph Hraw Hmod Hend Hap Hw Hag Hh. pose proof (classify_cases s al (proj1 Hs)) as Hcc. rewrite Hc in Hcc.
  destruct Hcc as (Hs0 & Hp2 & Hpg & _ & Hsz & _). unfold MAX_SMALL_SIZE in Hs0.
  destruct (payload_offset_ok debug al Hp2 Hpg) as ([Hlo Hhi] & Hoff & _). fold off in Hlo, Hhi, Hoff.
  pose proof (header_bytes_nonneg debug). pose proof (physical_size_ok debug m al ltac:(lia) Hp2 Hpg Hph) as Hfit.
  fold off phys in Hfit. destruct (power_of_two_spec al Hp2) as [Hal0 _].
  assert (direct_region debug (raw + off) m al = (raw, phys)) as Hreg.
  { rewrite /direct_region. fold off phys. f_equal. lia. }
  assert ((raw + off) mod al = 0) as Halign.
  { apply Z.mod_divide; [lia|]. apply Z.divide_add_r; [|by apply Z.mod_divide; [lia|]].
    apply Z.mod_divide in Hmod; [|done]. etrans; [|exact Hmod]. destruct (align_cases al Hp2 Hpg) as (j & Hj & ->).
    change PAGE_SIZE with (2 ^ 12). apply pow2_divide. lia. }
  destruct (inv_add_direct debug g st (raw + off) s al m w m' Hi Hc) as [Hn Hi'];
    rewrite ?Hreg; try done; [|rewrite /within /=; lia|].
  - split_and!; [done..|]. rewrite Hc. split; [done|]. intros Hd. fold off phys. replace (raw + off - off) with raw by lia. auto.
  - split; [lia|]. eexists. split; [rewrite Hreg in Hi'; exact Hi'|]. split_and!; [|done|by right; eexists|right; split_and!; [lia|done|done]].
    intros q t b Hl. apply Hag. pose proof (fresh_apart debug g st (raw, phys) Hi Hap) as Hfr.
    rewrite Forall_forall in Hfr. apply apart_sym, (apart_within _ _ _ (live_payload_within debug g st q t b Hi Hl)).
    by apply apart_sym, Hfr, live_region_elem.
Qed.

(** Why an allocation that was permitted fails: no class, a size that its
    debug header pushes out of the address space, or a mapper that refuses. *)
Definition exhausted (s al : Z) (w : world) : Prop :=
  match classify s al with
  | None => True
  | Some (Small _) => (os_map ARENA_SIZE w).1 = 0
  | Some (Direct m) => debug = true /\ 2 ^ 64 - 3 * PAGE_SIZE < s \/ (os_map (physical_size debug m al) w).1 = 0
  end.

Lemma no_mapping g st w s al : inv g st -> live_maps w (maps st) ->
  outcome g st 0 (mkSt _ (mem st) (maps st) w (locked st) (current_arena st) (free_lists st)) s al.
Proof.
  intros Hi Hw. exists g. split_and!; [by destruct Hi; split|by intros q t b _ x _|done|by left|by left].
Qed.

Lemma allocate_direct_spec g st s al m : inv g st -> classify s al = Some (Direct m) -> in_u 64 s -> in_u 64 al ->
  exists r st', allocate_direct debug m s al st = Some (r, st') /\ outcome g st r st' s al /\
    (r = 0 -> exhausted s al (os st)).
Proof.
  intros Hi Hc Hs Hal. pose proof (classify_cases s al (proj1 Hs)) as Hcc. rewrite Hc in Hcc.
  destruct Hcc as (Hs0 & Hp2 & Hpg & Hmm & Hsz & Hm64). unfold MAX_SMALL_SIZE in Hs0.
  destruct (payload_offset_ok debug al Hp2 Hpg) as ([Hlo Hhi] & _ & Hoff).
  pose proof (header_bytes_nonneg debug) as Hhb. rewrite /exhausted Hc.
  pose proof (AllocatorInv.inv_os _ _ _ Hi) as Hos.
  assert (outcome g st 0 st s al) as Hnull by by destruct st; apply no_mapping.
  rewrite /allocate_direct.
  assert (debug = true \/ debug = false) as [Hd|Hd] by (destruct debug; auto); rewrite {1}Hd.
  - rewrite (Hoff Hd). set (off := payload_offset debug al) in *.
    assert (physical_size debug m al = default 0 (checked_next_multiple_of 64 (m + off) PAGE_SIZE)) as Hph by by rewrite /physical_size -/off {1}Hd.
    pose proof (next_multiple_of (m + off) PAGE_SIZE ltac:(lia) ltac:(done)) as Hnm.
    pose proof (Z.mod_pos_bound (m + off) PAGE_SIZE ltac:(done)) as Hmb.
    destruct (checked_u 64 (m + off)) as [sum|] eqn:Hsum; cbn [mbind option_bind].
    2:{ exists 0, st. split; [done|split; [done|]]. intros _. left. split; [done|].
        destruct (Z.lt_ge_cases (m + off) (2 ^ 64)); [|unfold PAGE_SIZE in *; lia].
        rewrite checked_u_in in Hsum; [done|split; lia]. }
    apply checked_u_Some in Hsum as [-> [_ Hsum]].
    destruct (checked_next_multiple_of 64 (m + off) PAGE_SIZE) as [phys|].
    2:{ exists 0, st. split; [done|split; [done|]]. intros _. left. split; [done|]. unfold PAGE_SIZE in *. lia. }
    simpl in Hph. destruct Hnm as (Hpm & Hpb & _).
    pose proof (live_map (os st) (maps st) phys Hos ltac:(lia) Hpm) as Hmap.
    destruct (os_map phys (os st)) as [raw w] eqn:Hrm.
    assert (map_pages phys st = Some (raw, mkSt _ (mem st) (if raw =? 0 then maps st else (raw, phys) :: maps st) w
      (locked st) (current_arena st) (free_lists st))) as Hrun by by rewrite /map_pages Hrm.
    rewrite (bind_run _ _ _ _ _ Hrun). rewrite Hph Hrm.
    destruct Hmap as [[-> Hw]|(Hraw & Hmod & Hend & Hap & Hw)].
    + eexists 0, _. split; [done|]. split; [by apply no_mapping|by right].
    + destruct (Z.eqb_spec raw 0); [lia|].
      assert (raw + off - 48 = raw + (off - 48)) as He by lia.
      rewrite /header_bytes Hd /ALLOCATION_HEADER in Hlo.
      destruct (header_run (with_map (mem st) (raw, phys) w st) (raw + off) s al raw phys DIRECT_KIND (raw, phys))
        as (m' & Hrun2 & Hag & Hh); [by left|rewrite /within /=; lia|done|done|split; lia|split; lia|done|].
      rewrite (bind_run _ _ _ _ _ Hrun2). exists (raw + off). eexists. split; [done|].
      destruct (direct_ready g st s al m raw w m' Hi Hc Hs Hal) as [Hne Hout]; rewrite ?Hph; try done; [lia| |].
      { intros e Hae. apply Hag. eapply apart_within; [|exact Hae]. rewrite /within /=. lia. }
      rewrite Hph in Hout. split; [exact Hout|done].
  - assert (physical_size debug m al = m) as Hph by by rewrite /physical_size Hd.
    assert (payload_offset debug al = 0) as Ho by by rewrite /payload_offset Hd.
    pose proof (live_map (os st) (maps st) m Hos ltac:(lia) Hmm) as Hmap. rewrite Hph.
    destruct (os_map m (os st)) as [raw w] eqn:Hrm. rewrite /map_pages Hrm.
    destruct Hmap as [[-> Hw]|(Hraw & Hmod & Hend & Hap & Hw)].
    + eexists 0, _. split; [done|]. split; [by apply no_mapping|by right].
    + exists raw. eexists. split; [done|]. destruct (Z.eqb_spec raw 0); [lia|].
      destruct (direct_ready g st s al m raw w (mem st) Hi Hc Hs Hal) as [Hne Hout]; rewrite ?Hph; try done; [lia|by rewrite Hd|].
      rewrite Hph Ho Z.add_0_r in Hne Hout. split; [exact Hout|done].
Qed.

(** ** [allocate] *)

Lemma allocate_spec g st s al : inv g st -> locked st = false -> in_u 64 s -> in_u 64 al ->
  exists r st', allocate debug s al st = Some (r, st') /\ outcome g st r st' s al /\
    (r = 0 -> (allocation_permitted (os st)).1 = false \/ exhausted s al (allocation_permitted (os st)).2).
Proof.
  intros Hi Hlk Hs Hal. pose proof (live_permitted _ _ (AllocatorInv.inv_os _ _ _ Hi)) as Hperm.
  destruct (allocation_permitted (os st)) as [b w] eqn:Hap.
  set (st1 := mkSt _ (mem st) (maps st) w (locked st) (current_arena st) (free_lists st)).
  assert (permitted st = Some (b, st1)) as Hrun by by rewrite /permitted Hap.
  rewrite /allocate (bind_run _ _ _ _ _ Hrun). simpl in Hperm.
  assert (inv g st1) as Hi1 by by destruct Hi; split.
  destruct b; simpl negb; cbv iota; [|exists 0, st1; split; [done|split; [by apply no_mapping|by left]]].
  assert (forall r st', outcome g st1 r st' s al -> outcome g st r st' s al) as Hout by done.
  pose proof (classify_cases s al (proj1 Hs)) as Hcc.
  destruct (classify s al) as [[c|m]|] eqn:Hc.
  - destruct Hcc as (_ & (i & Hir & ->) & _).
    destruct (allocate_small_spec 0 g st1 i s al Hi1 Hlk Hir Hc Hs Hal) as (r & st' & Hr & Ho & H0).
    exists r, st'. split; [done|split; [by apply Hout|]]. intros Hr0. right. rewrite /exhausted Hc. by apply H0.
  - destruct (allocate_direct_spec g st1 s al m Hi1 Hc Hs Hal) as (r & st' & Hr & Ho & H0).
    exists r, st'. split; [done|split; [by apply Hout|]]. intros Hr0. right. by apply H0.
  - exists 0, st1. split; [done|split; [by apply no_mapping|]]. intros _. right. by rewrite /exhausted Hc.
Qed.
End Spec.
