(* ===== verification/AllocatorOps.v ===== *)
(** * Allocator: release and resizing

    [deallocate], [resize_in_place] and [reallocate] on a live allocation, and
    the writes of the holder of an allocation. *)

From S2P Require Import Prelude Allocator AllocatorInv AllocatorSteps AllocatorSpec.
From stdpp Require Import gmap.
From Stdlib Require List.
Import Machine.
Local Open Scope Z_scope.

#[local] Arguments read_le : simpl never.
#[local] Arguments write_le : simpl never.
#[local] Existing Instances M_ret M_bind.

Section Ops.
Context {PM : PageMapper} {ML : @MapperLaws PM} (debug : bool).
Implicit Types (g : Ghost) (st : St).
Notation inv := (inv debug).
Notation regions := (regions debug).
Notation small_region := (small_region debug).
Notation small_ok := (small_ok debug).
Notation live_ok := (live_ok debug).

(** ** Release *)

(** The block [p] is given back. *)
Definition released (g : Ghost) (st st' : St) (p : Z) : Prop := exists g',
  inv g' st' /\ live g' = delete p (live g) /\ preserved g' st st' /\ locked st' = false.

Lemma free_word g st i l head : inv g st -> free g !! i = Some l -> chain (mem st) head l -> in_u 64 head.
Proof.
  intros Hi Hl Hc. destruct l as [|q l]; simpl in Hc; [subst; done|]. destruct Hc as [-> _].
  pose proof (AllocatorInv.inv_free _ _ _ Hi i _ q Hl ltac:(by left)) as Hok.
  destruct (small_facts debug g st _ q Hi Hok) as (H0 & Hend & _). destruct Hok as [Hir _].
  destruct (class_facts _ Hir) as [Hb _]. split; lia.
Qed.

Lemma release_small_spec g st i p : inv g st -> locked st = false -> small_ok g st i p ->
  Forall (apart (small_region i p)) (regions g) ->
  exists st' g', release_small p i st = Some (tt, st') /\ inv g' st' /\ live g' = live g /\
    preserved g st st' /\ locked st' = false.
Proof.
  intros Hi Hlk Hok Hap. pose proof Hok as [Hir _]. pose proof (inv_locked debug g st true Hi) as Hi1.
  destruct (class_list debug g _ i Hi1 Hir) as [l Hl].
  destruct (free_head_run debug g _ i l Hi1 Hir Hl) as (h & Hh & Hch & Hhead).
  destruct (small_facts debug g st i p Hi Hok) as (_ & _ & m & Hm & Hw).
  pose proof (block_word_within debug i p Hir) as Hpw.
  set (st1 := with_locked true st) in *. set (m' := write_le 8 (mem st1) p h).
  assert (forall e, apart (p, 8) e -> agree (mem st1) m' e) as Hag by (intros e; apply write_le_outside).
  assert (Forall (apart (p, 8)) (regions g)) as Hap8.
  { eapply Forall_impl; [exact Hap|]. intros r. by apply apart_within. }
  assert (inv g (with_mem m' st1)) as Hi2 by by eapply inv_unowned.
  assert (small_ok g (with_mem m' st1) (Z.of_nat (Z.to_nat i)) p) as Hok2.
  { rewrite Z2Nat.id; [|lia]. apply small_ok_agree; [done|]. intros a Ha. apply Hag.
    rewrite Forall_forall in Hap8. apply Hap8. rewrite /AllocatorInv.regions elem_of_app. left.
    by apply (list_elem_of_fmap_2 (fun a => (a, ARENA_HEADER))). }
  exists (with_locked false (with_free_lists (<[Z.to_nat i := p]> (free_lists st1)) (with_mem m' st1))).
  exists (set_class g (Z.to_nat i) (p :: l)). split_and!; [| |done| |done].
  - apply guarded_run; [done|]. rewrite (bind_run _ _ _ _ _ Hhead).
    by rewrite (bind_run _ _ _ _ _ (write_run st1 p h m Hm (within_trans _ _ _ Hpw Hw))).
  - apply inv_locked. eapply (inv_push_free debug g _ _ l p h Hi2 Hl Hok2 Hh).
    + apply read_write. exact (free_word g st1 _ l h Hi1 Hl Hch).
    + rewrite Z2Nat.id; [done|lia].
  - exact (preserved_write debug g st m' (p, 8) Hi Hag (regions_live debug _ _ Hap8)).
Qed.

Lemma unmap_run g st p s a m : inv g st -> live g !! p = Some (s, a) -> classify s a = Some (Direct m) ->
  locked st = false ->
  exists st', unmap_pages (p - payload_offset debug a) (physical_size debug m a) st = Some (tt, st') /\ released g st st' p.
Proof.
  intros Hi Hl Hc Hlk. pose proof (direct_mapping_elem debug g st p s a m Hi Hl Hc) as Hm.
  rewrite /direct_region in Hm. rewrite /unmap_pages.
  destruct (list_find_elem_of (eq (p - payload_offset debug a, physical_size debug m a)) _ _ Hm eq_refl) as [[i x] Hf].
  rewrite Hf. apply list_find_Some in Hf as (Hix & <- & _). pose proof (delete_Permutation _ _ _ Hix) as Hperm.
  eexists. split; [done|]. exists (set_live g (delete p (live g))). split; [|split; [done|split; [by intros q t b _ x _|done]]].
  eapply (inv_remove_direct debug g st p s a m); [done..|].
  by eapply live_unmap; [apply (AllocatorInv.inv_os _ _ _ Hi)|].
Qed.

Lemma small_release g st p s a c : inv g st -> locked st = false -> live g !! p = Some (s, a) ->
  classify s a = Some (Small c) -> exists st', release_small p (index c) st = Some (tt, st') /\ released g st st' p.
Proof.
  intros Hi Hlk Hl Hc. destruct (inv_forget_small debug g st p s a c Hi Hl Hc) as (Hi' & Hok & Hap).
  destruct (release_small_spec _ st (index c) p Hi' Hlk Hok Hap) as (st' & g' & Hrun & Hig & Hlv & Hp & Hk).
  exists st'. split; [done|]. exists g'. split_and!; [done|done| |done].
  intros q t b Hq. apply (Hp q t b). by rewrite -Hlv.
Qed.

(** The header of a live allocation, in a debug build. *)
Lemma live_header g st p s a : inv g st -> live g !! p = Some (s, a) -> debug = true ->
  exists raw ms, validate_allocation_header p s a st =
    Some (mkHeader raw ms (match classify s a with Some k => allocation_kind_key k | None => 0 end), st) /\
  forall m, classify s a = Some (Direct m) -> raw = p - payload_offset debug a /\ ms = physical_size debug m a.
Proof.
  intros Hi Hl Hd. destruct (live_facts debug g st p s a Hi Hl) as (_ & _ & _ & _ & _ & _ & mp & Hmp & Hw).
  pose proof (within_trans _ _ _ (live_header_within debug g st p s a Hi Hl Hd) Hw) as Hwh.
  destruct (AllocatorInv.inv_live _ _ _ Hi p s a Hl) as (_ & _ & Hk).
  destruct (classify s a) as [[c|m]|]; [| |done]; destruct Hk as [_ Hh]; specialize (Hh Hd);
    eexists _, _; (split; [by eapply validate_run|]).
  - done.
  - by intros m' [= <-].
Qed.

Lemma live_classified g st p s a : inv g st -> live g !! p = Some (s, a) -> exists k, classify s a = Some k.
Proof.
  intros Hi Hl. destruct (AllocatorInv.inv_live _ _ _ Hi p s a Hl) as (_ & _ & Hk).
  destruct (classify s a) as [k|]; [by exists k|done].
Qed.

Lemma small_key g st p s a c : inv g st -> live g !! p = Some (s, a) -> classify s a = Some (Small c) ->
  (index c =? DIRECT_KIND) = false.
Proof.
  intros Hi Hl Hc. destruct (AllocatorInv.inv_live _ _ _ Hi p s a Hl) as (_ & _ & Hk). rewrite Hc in Hk.
  destruct Hk as [[Hir _] _]. apply Z.eqb_neq. rewrite /DIRECT_KIND. lia.
Qed.

Lemma deallocate_spec g st p s a : inv g st -> locked st = false -> live g !! p = Some (s, a) ->
  exists st', deallocate debug p s a st = Some (tt, st') /\ released g st st' p.
Proof.
  intros Hi Hlk Hl. destruct (live_facts debug g st p s a Hi Hl) as (Hp & _).
  destruct (live_classified g st p s a Hi Hl) as [k Hc]. rewrite /deallocate.
  destruct (Z.eqb_spec p 0); [lia|]. assert (debug = true \/ debug = false) as [Hd|Hd] by (destruct debug; auto); rewrite {1}Hd.
  - destruct (live_header g st p s a Hi Hl Hd) as (raw & ms & Hrun & Hdir). rewrite (bind_run _ _ _ _ _ Hrun) Hc.
    rewrite Hc in Hdir. destruct k as [c|m]; cbn [kind allocation_kind_key].
    + rewrite (small_key g st p s a c Hi Hl Hc). by eapply small_release.
    + rewrite Z.eqb_refl. destruct (Hdir m eq_refl) as [-> ->]. by eapply unmap_run.
  - rewrite Hc. destruct k as [c|m]; [by eapply small_release|].
    assert (p = p - payload_offset debug a) as Hpo by (rewrite /payload_offset Hd; lia).
    assert (m = physical_size debug m a) as Hps by by rewrite /physical_size Hd.
    rewrite {1}Hpo {1}Hps. by eapply unmap_run.
Qed.

(** ** Resizing *)

Lemma header_resize m p s s' a raw ms k : header_ok m p s a raw ms k -> in_u 64 s' ->
  header_ok (write_le 8 m (p - 48 + 8) s') p s' a raw ms k.
Proof.
  intros (H1 & H2 & H3 & H4 & H5 & H6) Hs.
  assert (forall d, 16 <= d -> read_le 8 (write_le 8 m (p - 48 + 8) s') (p - 48 + d) = read_le 8 m (p - 48 + d)) as Hr.
  { intros d Hd. symmetry. apply read_le_agree, write_le_outside. rewrite /apart /=. lia. }
  split_and!; try (rewrite Hr; [done|lia]); [|by apply read_write].
  rewrite -H1. symmetry. apply read_le_agree, write_le_outside. rewrite /apart /=. lia.
Qed.

Lemma relabel_spec g st p s s' a k : inv g st -> live g !! p = Some (s, a) -> classify s a = Some k ->
  classify s' a = Some k -> in_u 64 s' ->
  exists st', (if debug then update_allocation_size p s' else mret tt) st = Some (tt, st') /\
    inv (set_live g (<[p := (s', a)]> (live g))) st' /\ preserved g st st' /\ locked st' = locked st.
Proof.
  intros Hi Hl Hc Hc' Hs'. destruct (AllocatorInv.inv_live _ _ _ Hi p s a Hl) as (_ & Ha & Hk). rewrite Hc in Hk.
  assert (debug = true \/ debug = false) as [Hd|Hd] by (destruct debug; auto); rewrite {1}Hd.
  - destruct (live_facts debug g st p s a Hi Hl) as (_ & _ & _ & _ & _ & _ & mp & Hmp & Hw).
    pose proof (live_header_within debug g st p s a Hi Hl Hd) as Hwh.
    set (m' := write_le 8 (mem st) (p - 48 + 8) s').
    assert (within (p - 48 + 8, 8) (p - 48, 48)) as Hw8 by (rewrite /within /=; lia).
    assert (forall e, apart (p - 48 + 8, 8) e -> agree (mem st) m' e) as Hag by (intros e; apply write_le_outside).
    assert (forall e, apart (live_region debug (p, (s, a))) e -> agree (mem st) m' e) as Hagr.
    { intros e He. apply Hag. by apply (apart_within _ _ _ (within_trans _ _ _ Hw8 Hwh)). }
    destruct (inv_others debug g st m' p _ Hi Hl Hagr) as (_ & Har & Hlv).
    exists (with_mem m' st). split_and!; [| | |done].
    + rewrite /update_allocation_size /ALLOCATION_HEADER. apply (write_run _ _ _ mp Hmp).
      by apply (within_trans _ _ _ Hw8), (within_trans _ _ _ Hwh).
    + apply (inv_relabel debug g st m' p s s' a Hi Hl); [congruence|done|]. split; [done|split; [done|]]. rewrite Hc'.
      destruct k as [c|m]; destruct Hk as [Hk Hh].
      * split; [by apply small_ok_agree|]. intros _. by apply (header_resize _ _ s); [apply Hh|].
      * split; [done|]. intros _. by apply (header_resize _ _ s); [apply Hh|].
    + intros q t b Hq. destruct (decide (q = p)) as [->|Hne].
      * apply Hag. rewrite /apart /=. lia.
      * destruct (live_payload_within debug g st q t b Hi Hq). by eapply agree_sub; [by eapply Hlv|..].
  - exists (with_mem (mem st) st). split_and!; [by destruct st| |by intros q t b _ x _|done].
    apply (inv_relabel debug g st _ p s s' a Hi Hl); [congruence|by intros e _ x _|]. split; [done|split; [done|]]. rewrite Hc'.
    destruct k as [c|m]; destruct Hk as [Hk Hh]; (split; [done|by rewrite Hd]).
Qed.

(** Both resizing operations first check the header. *)
Lemma checked_header {A} (f : AllocationHeader -> M A) g st p s a k : inv g st -> live g !! p = Some (s, a) ->
  classify s a = Some k -> exists r, (debug = true -> kind r = allocation_kind_key k) /\
    ((if debug then validate_allocation_header p s a else mret (mkHeader 0 0 0)) ≫= f) st = f r st.
Proof.
  intros Hi Hl Hc. destruct debug eqn:Hd.
  - destruct (live_header g st p s a ltac:(by rewrite Hd) Hl Hd) as (raw & ms & Hrun & _). rewrite Hc in Hrun.
    eexists. split; [|by rewrite (bind_run _ _ _ _ _ Hrun)]. done.
  - eexists. split; [done|]. done.
Qed.

Lemma checked_kind {A} (f : unit -> M A) st k r : (debug = true -> kind r = k) ->
  ((if debug then assert_that (kind r =? k) else mret tt) ≫= f) st = f tt st.
Proof. intros Hk. destruct debug; [|done]. rewrite (Hk eq_refl) Z.eqb_refl. done. Qed.

Definition resized (s s' a : Z) : bool :=
  match classify s a, classify s' a with Some k, Some k' => bool_decide (k = k') | _, _ => false end.

Lemma classify_zero a : classify 0 a = None.
Proof. done. Qed.

Lemma resize_in_place_spec g st p s s' a : inv g st -> live g !! p = Some (s, a) -> in_u 64 s' ->
  exists st', resize_in_place debug p s s' a st = Some (resized s s' a, st') /\
    inv (if resized s s' a then set_live g (<[p := (s', a)]> (live g)) else g) st' /\
    preserved g st st' /\ locked st' = locked st /\ (resized s s' a = false -> st' = st).
Proof.
  intros Hi Hl Hs'. destruct (live_facts debug g st p s a Hi Hl) as (Hp & _).
  destruct (live_classified g st p s a Hi Hl) as [k Hc]. rewrite /resize_in_place /resized Hc.
  destruct (Z.eqb_spec p 0); [lia|].
  match goal with |- context [((if debug then validate_allocation_header _ _ _ else _) ≫= ?f) st] =>
    destruct (checked_header f g st p s a k Hi Hl Hc) as (r & Hk & ->) end.
  destruct (Z.eqb_spec s' 0) as [->|Hne].
  { rewrite classify_zero. exists st. by (split_and!; try apply preserved_refl). }
  destruct (classify s' a) as [k'|] eqn:Hc'; [|exists st; by (split_and!; try apply preserved_refl)].
  rewrite (checked_kind _ st _ r Hk). case_decide as Hkk.
  - subst k'. destruct (relabel_spec g st p s s' a k Hi Hl Hc Hc' Hs') as (st' & Hrun & Hi' & Hpr & Hlk).
    rewrite (bind_run _ _ _ _ _ Hrun). exists st'. by rewrite bool_decide_eq_true_2.
  - exists st. by rewrite bool_decide_eq_false_2.
Qed.

(** What [reallocate] does to the live allocations and their bytes. *)
Definition moved (g g' : Ghost) (st st' : St) (p s s' a r : Z) : Prop :=
  r <> 0 /\ s' <> 0 /\ live g' = <[r := (s', a)]> (delete p (live g)) /\ (resized s s' a = true <-> r = p) /\
  (r = p \/ live g !! r = None) /\
  (forall q t b, q <> p -> live g !! q = Some (t, b) -> agree (mem st) (mem st') (q, t)) /\
  (forall x, 0 <= x < s `min` s' -> mem st' (r + x) = mem st (p + x)).
Definition reallocated (g : Ghost) (st st' : St) (p s s' a r : Z) : Prop := exists g',
  inv g' st' /\ locked st' = false /\
  (r = 0 /\ s' = 0 /\ live g' = delete p (live g) /\ preserved g' st st' \/
   r = 0 /\ s' <> 0 /\ resized s s' a = false /\ live g' = live g /\ preserved g st st' \/
   moved g g' st st' p s s' a r).

(** Copying into a fresh block and giving the old one back. *)
Lemma replace_spec g st p s s' a r : inv g st -> locked st = false -> live g !! p = Some (s, a) ->
  live g !! r = Some (s', a) -> r <> p ->
  exists st', (copy_nonoverlapping p r (s `min` s');; deallocate debug p s a;; mret r) st = Some (r, st') /\
  exists g', inv g' st' /\ locked st' = false /\ live g' = delete p (live g) /\
    (forall q t b, q <> p -> q <> r -> live g !! q = Some (t, b) -> agree (mem st) (mem st') (q, t)) /\
    (forall x, 0 <= x < s `min` s' -> mem st' (r + x) = mem st (p + x)).
Proof.
  intros Hi Hlk Hp Hr Hne. set (n := s `min` s').
  destruct (live_facts debug g st p s a Hi Hp) as (_ & Hs0 & _ & _ & _ & _ & mp & Hmp & Hwp).
  destruct (live_facts debug g st r s' a Hi Hr) as (_ & Hs0' & _ & _ & _ & _ & mr & Hmr & Hwr).
  pose proof (live_payload_within debug g st p s a Hi Hp) as Hpp. pose proof (live_payload_within debug g st r s' a Hi Hr) as Hpr.
  assert (within (p, n) (p, s)) as Hpn by (rewrite /within /=; lia).
  assert (within (r, n) (r, s')) as Hrn by (rewrite /within /=; lia).
  set (m' := copy_bytes (mem st) p r n).
  destruct (inv_payload debug g st m' r s' a Hi Hr) as [Hi' Hothers].
  { intros e He. apply copy_outside. by apply (apart_within _ _ _ Hrn). }
  assert (apart (p, s) (r, n)) as Hap.
  { apply (apart_within _ _ _ Hpp), apart_sym, (apart_within _ _ _ (within_trans _ _ _ Hrn Hpr)), apart_sym.
    pose proof (live_separate debug g st p _ Hi Hp) as Hf. rewrite !Forall_app !Forall_forall in Hf.
    apply (proj2 (proj2 Hf)). apply list_elem_of_fmap. exists (r, (s', a)). split; [done|].
    apply elem_of_map_to_list. by rewrite lookup_delete_ne. }
  assert (copy_nonoverlapping p r n st = Some (tt, with_mem m' st)) as Hcopy.
  { rewrite /copy_nonoverlapping (mapped_within _ _ _ mp) //; [|by eapply within_trans, within_trans].
    rewrite (mapped_within _ _ _ mr) //; [|by eapply within_trans, within_trans].
    rewrite /apart /= in Hap. destruct (Z.leb_spec (p + n) r), (Z.leb_spec (r + n) p); try done. lia. }
  destruct (deallocate_spec g (with_mem m' st) p s a Hi' Hlk Hp) as (st' & Hrun & g' & Hi2 & Hlv & Hpres & Hk).
  exists st'. rewrite (bind_run _ _ _ _ _ Hcopy) (bind_run _ _ _ _ _ Hrun). split; [done|].
  exists g'. split_and!; [done..| |].
  - intros q t b Hqp Hqr Hq. eapply agree_trans; [by eapply Hothers|]. apply (Hpres q t b). by rewrite Hlv lookup_delete_ne.
  - intros x Hx. rewrite -(Hpres r s' a); [|by rewrite Hlv lookup_delete_ne|simpl; lia].
    simpl. rewrite /m' /copy_bytes. destruct (Z.leb_spec r (r + x)), (Z.ltb_spec (r + x) (r + n)); try lia.
    simpl. f_equal. lia.
Qed.

Lemma moved_in_place g g' st st' p s s' a : live g !! p = Some (s, a) -> 0 < p -> 0 < s' -> resized s s' a = true ->
  live g' = <[p := (s', a)]> (live g) -> preserved g st st' -> moved g g' st st' p s s' a p.
Proof.
  intros Hl Hp Hs Hr Hlv Hpr. split; [lia|split; [lia|split; [by rewrite insert_delete_eq|]]].
  split; [by split|split; [by left|split]].
  - intros q t b _ Hq. by eapply Hpr.
  - intros x Hx. symmetry. apply (Hpr p s a Hl). simpl. lia.
Qed.

Lemma reallocate_spec g st p s s' a : inv g st -> locked st = false -> live g !! p = Some (s, a) -> in_u 64 s' ->
  exists r st', reallocate debug p s s' a st = Some (r, st') /\ reallocated g st st' p s s' a r.
Proof.
  intros Hi Hlk Hl Hs'. destruct (live_facts debug g st p s a Hi Hl) as (Hp & _).
  destruct (AllocatorInv.inv_live _ _ _ Hi p s a Hl) as (_ & Ha & _).
  destruct (live_classified g st p s a Hi Hl) as [k Hc]. rewrite /reallocate. destruct (Z.eqb_spec p 0); [lia|].
  match goal with |- context [((if debug then validate_allocation_header _ _ _ else _) ≫= ?f) st] =>
    destruct (checked_header f g st p s a k Hi Hl Hc) as (r & Hk & ->) end.
  destruct (Z.eqb_spec s' 0) as [->|Hne].
  { destruct (deallocate_spec g st p s a Hi Hlk Hl) as (st' & Hrun & g' & Hi' & Hlv & Hpr & Hlk').
    rewrite (bind_run _ _ _ _ _ Hrun). exists 0, st'. split; [done|]. exists g'. split_and!; [done..|]. by left. }
  assert (reallocated g st st p s s' a 0 <-> resized s s' a = false) as Hnull.
  { split; [by intros (g' & _ & _ & [(_ & ? & _)|[(_ & _ & ? & _)|(? & _)]])|].
    intros Hf. exists g. split_and!; [done..|]. right. left. by (split_and!; try apply preserved_refl). }
  rewrite Hc. destruct (classify s' a) as [k'|] eqn:Hc'.
  2:{ exists 0, st. split; [done|]. apply Hnull. by rewrite /resized Hc Hc'. }
  rewrite (checked_kind _ st _ r Hk). case_decide as Hkk.
  - subst k'. destruct (relabel_spec g st p s s' a k Hi Hl Hc Hc' Hs') as (st' & Hrun & Hi' & Hpr & Hlk').
    rewrite (bind_run _ _ _ _ _ Hrun). exists p, st'. split; [done|]. eexists. split; [exact Hi'|].
    split; [congruence|]. right. right. apply moved_in_place; try done; [destruct Hs'; lia|].
    by rewrite /resized Hc Hc' bool_decide_eq_true_2.
  - assert (resized s s' a = false) as Hres by by rewrite /resized Hc Hc' bool_decide_eq_false_2.
    destruct (allocate_spec debug g st s' a Hi Hlk Hs' Ha) as (q & st2 & Hrun & (g2 & Hi2 & Hpr & Hlk2 & _ & Hq) & _).
    rewrite (bind_run _ _ _ _ _ Hrun). destruct Hq as [[-> Hlv]|(Hq0 & Hqn & Hlv)].
    + exists 0, st2. split; [done|]. exists g2. split_and!; [done|congruence|]. right. by left.
    + destruct (Z.eqb_spec q 0); [done|]. assert (q <> p) as Hqp by congruence.
      destruct (replace_spec g2 st2 p s s' a q Hi2 ltac:(congruence)) as (st' & -> & g' & Hi' & Hlk' & Hlv' & Hoth & Hcp);
        [by rewrite Hlv lookup_insert_ne|by rewrite Hlv lookup_insert_eq|done|].
      exists q, st'. split; [done|]. exists g'. split_and!; [done..|]. right. right.
      split; [done|split; [done|split; [|split; [|split; [by right|split]]]]].
      * rewrite Hlv' Hlv delete_insert_ne //.
      * rewrite Hres. by split.
      * intros t u b Htp Ht. eapply agree_trans; [by eapply Hpr|]. eapply (Hoth t u b); [done|congruence|].
        rewrite Hlv lookup_insert_ne //. congruence.
      * intros x Hx. rewrite Hcp //. symmetry. apply (Hpr p s a Hl). simpl. lia.
Qed.
End Ops.
