(* ===== verification/AllocatorClient.v ===== *)
(** * Allocator: every client that keeps its contract is served safely

    The operations of [Allocator.v] as steps of a client that follows the
    [# Safety] sections of the source, the invariant of every reachable state,
    and the contracts of the operations in terms of the client's own record of
    what it holds.  [Bump] is a concrete mapper that satisfies [MapperLaws]. *)

From S2P Require Import Prelude Allocator AllocatorInv AllocatorSteps AllocatorSpec AllocatorOps.
From stdpp Require Import gmap.
Import Machine.
Local Open Scope Z_scope.

#[local] Arguments read_le : simpl never.
#[local] Arguments write_le : simpl never.
#[local] Existing Instances M_ret M_bind.

(** ** Clients *)

Inductive Op :=
  | Allocate (size align : Z)
  | Deallocate (pointer size align : Z)
  | Resize (pointer old_size new_size align : Z)
  | Reallocate (pointer old_size new_size align : Z)
  | Store (pointer address value : Z).

(** What a client holds: its allocations and their layouts. *)
Notation Held := (gmap Z (Z * Z)).

(** The safety conditions: a pointer is null or held with exactly that
    layout; a write stays inside a held allocation. *)
Definition allowed (lv : Held) (op : Op) : Prop :=
  match op with
  | Allocate s a => in_u 64 s /\ in_u 64 a
  | Deallocate p s a => p = 0 \/ lv !! p = Some (s, a)
  | Resize p s s' a => in_u 64 s' /\ (p = 0 \/ lv !! p = Some (s, a))
  | Reallocate p s s' a => in_u 64 s' /\ in_u 64 a /\ (p = 0 \/ lv !! p = Some (s, a))
  | Store p x v => match lv !! p with Some (s, _) => p <= x < p + s | None => False end
  end.

#[export] Instance in_u_dec b z : Decision (in_u b z).
Proof. unfold in_u. apply _. Defined.
#[export] Instance allowed_dec lv op : Decision (allowed lv op).
Proof. destruct op as [| | | |p x v]; simpl; [apply _..|]. destruct (lv !! p) as [[]|]; apply _. Defined.

(** What the client holds afterwards, from the result alone. *)
Definition after (lv : Held) (op : Op) (r : Z) : Held :=
  match op with
  | Allocate s a => if r =? 0 then lv else <[r := (s, a)]> lv
  | Deallocate p _ _ => delete p lv
  | Resize p s s' a => if r =? 0 then lv else <[p := (s', a)]> lv
  | Reallocate p s s' a =>
      if r =? 0 then (if s' =? 0 then delete p lv else lv) else <[r := (s', a)]> (delete p lv)
  | Store _ _ _ => lv
  end.

(** The allocation whose bytes an operation may change. *)
Definition target (op : Op) : Z :=
  match op with Deallocate p _ _ | Reallocate p _ _ _ | Store p _ _ => p | Allocate _ _ | Resize _ _ _ _ => 0 end.

Section Client.
Context {PM : PageMapper} {ML : @MapperLaws PM} (debug : bool).

Definition store (x v : Z) : M Z := fun st =>
  if mapped st x 1 then Some (0, with_mem (write_le 1 (mem st) x v) st) else None.

Definition run_op (op : Op) : M Z :=
  match op with
  | Allocate s a => allocate debug s a
  | Deallocate p s a => deallocate debug p s a;; mret 0
  | Resize p s s' a => b ← resize_in_place debug p s s' a; mret (Z.b2z b)
  | Reallocate p s s' a => reallocate debug p s s' a
  | Store _ x v => store x v
  end.

Fixpoint run_ops (ops : list Op) (lv : Held) (st : St) : option (Held * St) :=
  match ops with
  | [] => Some (lv, st)
  | op :: ops =>
      if decide (allowed lv op)
      then match run_op op st with Some (r, st') => run_ops ops (after lv op r) st' | None => None end
      else None
  end.

Inductive reachable : Held -> St -> Prop :=
  | reach_new m w : live_maps w [] -> reachable ∅ (allocator_new m w)
  | reach_step lv st op r st' : reachable lv st -> allowed lv op -> run_op op st = Some (r, st') ->
      reachable (after lv op r) st'.

(** The invariant of [AllocatorInv], in terms of what the client holds. *)
Definition holds (lv : Held) (st : St) : Prop :=
  exists g, inv debug g st /\ live g = lv /\ locked st = false.

(** The bytes of the allocations that are not the operation's stay. *)
Definition framed (lv : Held) (op : Op) (st st' : St) : Prop := forall q t b,
  q <> target op -> lv !! q = Some (t, b) -> agree (mem st) (mem st') (q, t).

Lemma run_ops_reachable ops lv st : reachable lv st -> forall lv' st', run_ops ops lv st = Some (lv', st') -> reachable lv' st'.
Proof.
  revert lv st. induction ops as [|op ops IH]; intros lv st Hr lv' st'; simpl; [by intros [= <- <-]|].
  case_decide as Hok; [|done]. destruct (run_op op st) as [[r st1]|] eqn:Hrun; [|done]. apply IH. by econstructor.
Qed.

Lemma new_holds m w : live_maps w [] -> holds ∅ (allocator_new m w).
Proof.
  intros Hw. exists ghost_empty. split; [|done]. split; try done.
  - intros i l Hl. apply lookup_replicate in Hl as [-> Hlt]. exists 0. split; [|done]. by apply lookup_replicate_2.
  - intros i l p [-> _]%lookup_replicate Hp. by apply not_elem_of_nil in Hp.
  - by constructor.
  - by constructor.
Qed.

Lemma null_not_held lv st x : holds lv st -> lv !! 0 = Some x -> False.
Proof. intros (g & Hi & <- & _) H0. destruct x as [s a]. by destruct (live_facts debug g st 0 s a Hi H0). Qed.

Lemma outcome_holds lv st r st' s a : (exists g, live g = lv /\ outcome debug g st r st' s a) -> locked st = false ->
  holds (if r =? 0 then lv else <[r := (s, a)]> lv) st' /\
  (forall q t b, lv !! q = Some (t, b) -> agree (mem st) (mem st') (q, t)).
Proof.
  intros (g & <- & g' & Hi & Hp & Hk & _ & Hr) Hlk. split; [|exact Hp]. exists g'. split; [done|].
  split; [|congruence]. by destruct (Z.eqb_spec r 0) as [->|]; destruct Hr as [[? ?]|(? & ? & ?)].
Qed.

Lemma store_spec g st p x v s a : inv debug g st -> live g !! p = Some (s, a) -> p <= x < p + s ->
  exists st', store x v st = Some (0, st') /\ inv debug g st' /\ locked st' = locked st /\ framed (live g) (Store p x v) st st'.
Proof.
  intros Hi Hl Hx. destruct (live_facts debug g st p s a Hi Hl) as (_ & _ & _ & _ & _ & _ & m & Hm & Hw).
  pose proof (live_payload_within debug g st p s a Hi Hl) as Hpw.
  assert (within (x, 1) (p, s)) as Hx1 by (rewrite /within /=; lia).
  destruct (inv_payload debug g st (write_le 1 (mem st) x v) p s a Hi Hl) as [Hi' Hf].
  { intros e He. apply write_le_outside. by apply (apart_within _ _ _ Hx1). }
  eexists. rewrite /store (mapped_within _ _ _ m Hm (within_trans _ _ _ Hx1 (within_trans _ _ _ Hpw Hw))).
  split; [done|split; [exact Hi'|split; [done|exact Hf]]].
Qed.

(** Every allowed operation completes and keeps the invariant. *)
Lemma step_holds lv st op : holds lv st -> allowed lv op ->
  exists r st', run_op op st = Some (r, st') /\ holds (after lv op r) st' /\ framed lv op st st'.
Proof.
  intros Hh. pose proof Hh as (g & Hi & <- & Hlk).
  assert (forall st', mem st = mem st' -> framed (live g) op st st') as Hsame.
  { intros st' Hm q t b _ _ x _. by rewrite Hm. }
  destruct op as [s a|p s a|p s s' a|p s s' a|p x v]; simpl.
  - intros [Hs Ha]. destruct (allocate_spec debug g st s a Hi Hlk Hs Ha) as (r & st' & Hrun & Hout & _).
    exists r, st'. split; [done|]. destruct (outcome_holds (live g) st r st' s a ltac:(by eexists) Hlk) as [Hh' Hf].
    split; [done|]. intros q t b _. apply Hf.
  - intros [->|Hl].
    + exists 0, st. split; [done|split; [|by apply Hsame]]. rewrite delete_id; [done|].
      destruct (live g !! 0) eqn:H0; [|done]. by destruct (null_not_held _ _ _ Hh H0).
    + destruct (deallocate_spec debug g st p s a Hi Hlk Hl) as (st' & Hrun & g' & Hi' & Hlv & Hp & Hk).
      exists 0, st'. rewrite (bind_run _ _ _ _ _ Hrun). split; [done|split; [by exists g'|]].
      intros q t b Hq Hl'. eapply Hp. rewrite Hlv lookup_delete_ne //.
  - intros [Hs' [->|Hl]]; [exists 0, st; split; [done|split; [done|by apply Hsame]]|].
    destruct (resize_in_place_spec debug g st p s s' a Hi Hl Hs') as (st' & Hrun & Hi' & Hp & Hk & Hf).
    eexists _, st'. rewrite (bind_run _ _ _ _ _ Hrun). split; [done|]. split; [|intros q t b _; apply Hp].
    eexists. split; [exact Hi'|]. split; [by destruct (resized s s' a)|congruence].
  - intros (Hs' & Ha & [->|Hl]).
    + destruct (allocate_spec debug g st s' a Hi Hlk Hs' Ha) as (r & st' & Hrun & Hout & _).
      exists r, st'. split; [done|]. destruct (outcome_holds (live g) st r st' s' a ltac:(by eexists) Hlk) as [Hh' Hf].
      assert (delete 0 (live g) = live g) as ->.
      { rewrite delete_id; [done|]. destruct (live g !! 0) eqn:H0; [|done]. by destruct (null_not_held _ _ _ Hh H0). }
      split; [by destruct (r =? 0), (s' =? 0)|]. intros q t b _. apply Hf.
    + destruct (reallocate_spec debug g st p s s' a Hi Hlk Hl Hs') as (r & st' & Hrun & g' & Hi' & Hk & Hr).
      exists r, st'. split; [done|]. destruct Hr as [(-> & -> & Hlv & Hp)|[(-> & Hs0 & _ & Hlv & Hp)|(Hr0 & Hs0 & Hlv & _ & _ & Hf & _)]].
      * split; [by exists g'|]. intros q t b Hq Hl'. eapply Hp. rewrite Hlv lookup_delete_ne //.
      * apply Z.eqb_neq in Hs0. rewrite Hs0. split; [by exists g'|]. intros q t b _. apply Hp.
      * apply Z.eqb_neq in Hr0. rewrite Hr0. split; [by exists g'|exact Hf].
  - destruct (live g !! p) as [[s a]|] eqn:Hl; [|done]. intros Hx.
    destruct (store_spec g st p x v s a Hi Hl Hx) as (st' & Hrun & Hi' & Hk & Hf). exists 0, st'.
    split; [done|split; [|done]]. exists g. split; [done|split; [done|congruence]].
Qed.

Lemma reachable_holds lv st : reachable lv st -> holds lv st.
Proof.
  induction 1 as [m w Hw|lv st op r st' _ IH Hok Hrun]; [by apply new_holds|].
  destruct (step_holds lv st op IH Hok) as (r' & st1 & Hrun' & Hh & _). by simplify_eq.
Qed.
End Client.

(** ** A mapper

    Addresses from a counter up to a limit, never reused. *)
Module Bump.
Definition LIMIT : Z := 2 ^ 40.

#[local] Instance BumpMapper : PageMapper := {|
  world := Z;
  allocation_permitted w := (true, w);
  os_map size w := if w + size <=? LIMIT then (w, w + size) else (0, w);
  os_unmap _ _ w := w;
|}.

Definition bump_live (w : Z) (maps : list Mapping) : Prop :=
  0 < w <= LIMIT /\ w mod PAGE_SIZE = 0 /\ Forall (fun m : Mapping => m.1 + m.2 <= w) maps.

#[local] Program Instance BumpLaws : @MapperLaws BumpMapper := {| live_maps := bump_live |}.
Next Obligation. done. Qed.
Next Obligation.
  intros w maps size (Hw & Hmod & Hf) Hs Hsm. simpl. destruct (Z.leb_spec (w + size) LIMIT) as [Hle|]; [right|by left].
  split_and!; [lia|done|unfold LIMIT in *; lia| |].
  - eapply Forall_impl; [exact Hf|]. intros m Hm. right. exact Hm.
  - split; [lia|split].
    + rewrite Z.add_mod // Hmod Hsm //.
    + constructor; [simpl; lia|]. eapply Forall_impl; [exact Hf|]. intros m Hm. simpl in *. lia.
Qed.
Next Obligation.
  intros w maps maps' p size (Hw & Hmod & Hf) Hp. rewrite Hp in Hf. inversion Hf. split; [done|by split].
Qed.

Definition start : St := allocator_new (fun _ => 170) PAGE_SIZE.

Lemma start_reachable debug : reachable debug ∅ start.
Proof. apply reach_new. by split_and!. Qed.
End Bump.
Import Bump.
#[local] Existing Instances BumpMapper BumpLaws.


(** ** Properties *)

Section Properties.
Context {PM : PageMapper} {ML : @MapperLaws PM} (debug : bool).

(** The supported layouts: a positive size and an alignment up to a page. *)
Definition valid_layout (s a : Z) : Prop := 0 < s /\ exists j, 0 <= j <= 12 /\ a = 2 ^ j.

Lemma valid_layout_intro s a : 0 < s -> is_power_of_two a = true -> a <= PAGE_SIZE -> valid_layout s a.
Proof.
  intros Hs Hp Ha. split; [done|]. destruct (align_cases a Hp Ha) as (j & Hj & ->). exists (Z.of_nat j). split; [lia|done].
Qed.

Lemma valid_layout_elim s a : valid_layout s a -> 0 < s /\ is_power_of_two a = true /\ a <= PAGE_SIZE.
Proof.
  intros [Hs (j & Hj & ->)]. split_and!; [done|apply pow2_is_power_of_two; lia|].
  change PAGE_SIZE with (2 ^ 12). apply Z.pow_le_mono_r; lia.
Qed.

Lemma classify_minimal s a c : classify s a = Some (Small c) ->
  s <= MAX_SMALL_SIZE /\ s `max` a <= block_size c < 2 * ((s `max` a) `max` MIN_CLASS_SIZE).
Proof.
  rewrite /classify. destruct (_ || _) eqn:Hv; [done|]. apply orb_false_iff in Hv as [_ Hpg]. apply Z.ltb_ge in Hpg.
  destruct (Z.leb_spec s MAX_SMALL_SIZE); [|by destruct (checked_next_multiple_of _ _ _)].
  destruct (next_power_of_two ((s `max` a) `max` MIN_CLASS_SIZE)) as (k & Hk & -> & Hlo & Hhi).
  { unfold MAX_SMALL_SIZE, PAGE_SIZE, MIN_CLASS_SIZE in *. lia. }
  cbn [mbind option_bind]. destruct (2 ^ k <=? MAX_SMALL_SIZE); [|by destruct (checked_next_multiple_of _ _ _)].
  intros [= <-]. cbn [block_size]. split; [done|lia].
Qed.

(** The size class of a request is the smallest one that holds its size and
    alignment, a larger request gets the page multiple just above it, and
    exactly the unsupported layouts are rejected. *)
Theorem classify_exact s a : in_u 64 s -> in_u 64 a ->
  match classify s a with
  | None => ~ valid_layout s a \/ 2 ^ 64 - PAGE_SIZE < s
  | Some (Small c) =>
      valid_layout s a /\ s <= MAX_SMALL_SIZE /\ exists i, 0 <= i < CLASS_COUNT /\
        c = mkClass i (2 ^ (i + 3)) (2 ^ (i + 3) `min` PAGE_SIZE) /\
        s `max` a <= 2 ^ (i + 3) /\ (0 < i -> 2 ^ (i + 2) < s `max` a)
  | Some (Direct m) =>
      valid_layout s a /\ MAX_SMALL_SIZE < s /\ m mod PAGE_SIZE = 0 /\ s <= m < s + PAGE_SIZE /\ m < 2 ^ 64
  end.
Proof.
  intros [Hs Hs64] Ha. pose proof (classify_cases s a Hs) as Hc. pose proof (classify_minimal s a) as Hmin.
  destruct (classify s a) as [[c|m]|].
  - destruct Hc as (Hs0 & (i & Hir & ->) & _ & Hp & Hpg & _). destruct (Hmin _ eq_refl) as (Hsm & Hlo & Hhi).
    split; [by apply valid_layout_intro|split; [done|]]. exists i. split; [change CLASS_COUNT with 12; lia|].
    split; [done|]. split; [exact Hlo|]. intros Hi0. cbn [class_of block_size] in Hhi.
    replace (i + 3) with (Z.succ (i + 2)) in Hhi by lia. rewrite Z.pow_succ_r in Hhi; [|lia].
    assert (2 ^ 3 <= 2 ^ (i + 2)) by (apply Z.pow_le_mono_r; lia). unfold MIN_CLASS_SIZE in *. lia.
  - destruct Hc as (Hs0 & Hp & Hpg & Hm & Hb & Hlt). unfold MAX_SMALL_SIZE in *.
    split_and!; try done; [apply valid_layout_intro; [lia|done..]|lia|lia|auto].
  - destruct (Z.lt_ge_cases (2 ^ 64 - PAGE_SIZE) s) as [|Hle]; [by right|left].
    intros (Hs0 & Hp & Hpg)%valid_layout_elim. destruct Hc as [?|[?|[?|?]]]; [lia|congruence|lia|lia].
Qed.

(** C18. No client that keeps its contract makes the allocator touch unmapped
    memory, fail an assertion or wait for ever, and no operation changes the
    bytes of an allocation it was not given. *)
Theorem client_safe lv st op : reachable debug lv st -> allowed lv op ->
  exists r st', run_op debug op st = Some (r, st') /\ reachable debug (after lv op r) st' /\ framed lv op st st'.
Proof.
  intros Hr Hok. destruct (step_holds debug lv st op (reachable_holds debug lv st Hr) Hok) as (r & st' & Hrun & _ & Hf).
  exists r, st'. split; [done|split; [by econstructor|done]].
Qed.


(** The fuel of the loop does not matter once it is enough. *)
Lemma arena_loop_mono n m c s a st x : (n <= m)%nat ->
  arena_loop debug n c s a st = Some x -> arena_loop debug m c s a st = Some x.
Proof.
  revert m st x. induction n as [|n IH]; intros m st x Hm; [done|]. destruct m as [|m]; [lia|]. cbn [arena_loop].
  assert (forall st x, arena_loop debug n c s a st = Some x -> arena_loop debug m c s a st = Some x) as IH' by (intros; apply IH; [lia|done]).
  clear IH. rewrite /mbind /M_bind /get.
  match goal with |- match ?X with _ => _ end = _ -> _ => destruct X as [[[p|] st1]|]; [done| |done] end.
  destruct (map_pages ARENA_SIZE st1) as [[mp st2]|]; [|done]. destruct (mp =? 0); [done|].
  do 3 (case_match; [|done]; case_match). apply IH'.
Qed.

(** C37. A small allocation ends: two iterations of its loop are always enough,
    more fuel changes nothing, and at most one arena is mapped. *)
Theorem small_allocation_terminates lv st s a c fuel : reachable debug lv st -> classify s a = Some (Small c) ->
  in_u 64 s -> in_u 64 a -> (2 <= fuel)%nat ->
  exists r st', allocate_small debug fuel c s a st = Some (r, st') /\
    allocate_small debug 2 c s a st = Some (r, st') /\
    (maps st' = maps st \/ exists mp, maps st' = mp :: maps st) /\
    (r = 0 -> (os_map ARENA_SIZE (os st)).1 = 0).
Proof.
  intros Hr Hc Hs Ha Hfuel. destruct (reachable_holds debug lv st Hr) as (g & Hi & <- & Hlk).
  pose proof (classify_cases s a (proj1 Hs)) as Hcc. rewrite Hc in Hcc. destruct Hcc as (_ & (i & Hir & ->) & _).
  destruct (allocate_small_spec debug 0 g st i s a Hi Hlk Hir Hc Hs Ha) as (r & st' & Hrun & (_ & _ & _ & _ & Hm & _) & H0).
  exists r, st'. split_and!; [|done..]. revert Hrun. rewrite /allocate_small /guarded /mbind /M_bind.
  destruct (lock st) as [[[] st1]|]; [|done]. destruct (free_head _ st1) as [[f st2]|]; [|done].
  destruct (negb (f =? 0)); [done|].
  destruct (arena_loop debug 2 (class_of i) s a st2) as [[r1 st3]|] eqn:Hl; [|done].
  by rewrite (arena_loop_mono 2 fuel _ _ _ _ _ Hfuel Hl).
Qed.

(** A block the client holds, as it sees it. *)
Definition usable (lv : Held) (st : St) (p s a : Z) : Prop :=
  lv !! p = Some (s, a) /\ p mod a = 0 /\ mapped st p s = true.

Lemma held_usable lv st p s a : holds debug lv st -> lv !! p = Some (s, a) -> usable lv st p s a.
Proof.
  intros (g & Hi & <- & _) Hl. destruct (live_facts debug g st p s a Hi Hl) as (_ & _ & _ & Hal & _ & _ & m & Hm & Hw).
  split_and!; [done..|]. apply (mapped_within st p s m Hm), (within_trans _ _ _ (live_payload_within debug g st p s a Hi Hl) Hw).
Qed.

(** [allocate] returns null only for a reason, keeps every held byte, and
    otherwise returns a block that nobody holds. *)
Theorem allocate_contract lv st s a : reachable debug lv st -> in_u 64 s -> in_u 64 a ->
  exists r st', allocate debug s a st = Some (r, st') /\
    (forall q t b, lv !! q = Some (t, b) -> agree (mem st) (mem st') (q, t)) /\
    (r = 0 -> reachable debug lv st' /\
       ((allocation_permitted (os st)).1 = false \/ exhausted debug s a (allocation_permitted (os st)).2)) /\
    (r <> 0 -> lv !! r = None /\ classify s a <> None /\
       reachable debug (<[r := (s, a)]> lv) st' /\ usable (<[r := (s, a)]> lv) st' r s a).
Proof.
  intros Hr Hs Ha. pose proof (reachable_holds debug lv st Hr) as Hh. pose proof Hh as (g & Hi & <- & Hlk).
  destruct (allocate_spec debug g st s a Hi Hlk Hs Ha) as (r & st' & Hrun & Hout & H0).
  assert (reachable debug (after (live g) (Allocate s a) r) st') as Hr' by (econstructor; [exact Hr|by split|done]).
  simpl in Hr'. exists r, st'. split; [done|]. pose proof Hout as (g' & Hi' & Hp & _ & _ & Hcase). split; [exact Hp|].
  destruct (Z.eqb_spec r 0) as [|Hne]; [by split; [split; [|apply H0]|]|]. split; [done|]. intros _.
  destruct Hcase as [[? _]|(_ & Hn & Hlv)]; [done|]. split; [done|]. split.
  - assert (live g' !! r = Some (s, a)) as Hl by by rewrite Hlv lookup_insert_eq.
    destruct (live_classified debug g' st' r s a Hi' Hl) as [k Hk]. by rewrite Hk.
  - split; [done|]. apply held_usable; [by apply reachable_holds|by rewrite lookup_insert_eq].
Qed.

End Properties.

(** ** A run

    Two arena blocks that fill the first arena, a dedicated mapping, a write,
    and a freed block that is handed out again. *)
Definition sample : list Op :=
  [Allocate 24 8; Allocate 16384 8; Allocate 16000 8; Allocate 20000 4096; Store 28672 28673 7;
   Deallocate 4192 24 8; Allocate 17 8].

Lemma sample_state : exists lv st, reachable true lv st /\ lv !! 28672 = Some (16000, 8) /\ lv !! 4192 = Some (17, 8) /\
  maps st = [(69632, 24576); (4096, ARENA_SIZE)].
Proof.
  assert ((fun x => (x.1 !! 28672, x.1 !! 4192, maps x.2)) <$> run_ops true sample ∅ start =
    Some (Some (16000, 8), Some (17, 8), [(69632, 24576); (4096, ARENA_SIZE)])) as Hv by (vm_compute; reflexivity).
  destruct (run_ops true sample ∅ start) as [[lv st]|] eqn:Hrun; [|discriminate Hv].
  pose proof (run_ops_reachable true sample ∅ start (start_reachable true) lv st Hrun) as Hr. clear Hrun.
  injection Hv as H1 H2 H3. exists lv, st. exact (conj Hr (conj H1 (conj H2 H3))).
Qed.

Lemma classify_exact_witness : in_u 64 16385 /\ in_u 64 8 /\ classify 16385 8 = Some (Direct 20480) /\
  valid_layout 16385 8 /\ MAX_SMALL_SIZE < 16385 /\ 20480 mod PAGE_SIZE = 0 /\
  16385 <= 20480 < 16385 + PAGE_SIZE /\ 20480 < 2 ^ 64.
Proof.
  split; [by split|split; [by split|split; [reflexivity|]]].
  exact (classify_exact 16385 8 ltac:(by split) ltac:(by split)).
Defined.

Lemma client_safe_witness : exists lv st r st', reachable true lv st /\ lv !! 28672 = Some (16000, 8) /\
  run_op true (Reallocate 28672 16000 20001 8) st = Some (r, st') /\
  reachable true (after lv (Reallocate 28672 16000 20001 8) r) st'.
Proof.
  destruct sample_state as (lv & st & Hr & Hl & _).
  destruct (client_safe true lv st (Reallocate 28672 16000 20001 8) Hr) as (r & st' & Hrun & Hr' & _);
    [split; [by split|split; [by split|by right]]|].
  exists lv, st, r, st'. by split.
Defined.


Lemma small_allocation_terminates_witness : exists lv st r st', reachable true lv st /\
  classify 16384 8 = Some (Small (class_of 11)) /\ allocate_small true 5 (class_of 11) 16384 8 st = Some (r, st').
Proof.
  destruct sample_state as (lv & st & Hr & _).
  destruct (small_allocation_terminates true lv st 16384 8 (class_of 11) 5 Hr) as (r & st' & Hrun & _);
    [reflexivity|by split|by split|lia|].
  exists lv, st, r, st'. by split.
Defined.

Lemma allocate_contract_witness : exists lv st r st', reachable true lv st /\ allocate true 16384 8 st = Some (r, st') /\
  (r <> 0 -> lv !! r = None).
Proof.
  destruct sample_state as (lv & st & Hr & _).
  destruct (allocate_contract true lv st 16384 8 Hr) as (r & st' & Hrun & _ & _ & Hnew); [by split|by split|].
  exists lv, st, r, st'. split; [done|split; [done|]]. intros Hne. by destruct (Hnew Hne).
Defined.

