(* ===== verification/RtMemory.v ===== *)
(** * Runtime memory primitives

    [crates/rue-runtime/src/memory.rs]: the copies, fills and comparisons
    compiled programs and the compiler's own lowering call, in chunks of eight
    bytes and a tail.  An address is a [Z]; [valid] tells which addresses are
    backed, and touching another one is undefined behaviour ([None], like
    [unreachable_unchecked]).  Words are little-endian, as on both targets. *)

From S2P Require Import Prelude Allocator AllocatorInv.
Import Machine.
Local Open Scope Z_scope.

#[local] Arguments read_le : simpl never.
#[local] Arguments write_le : simpl never.

Definition CHUNK_SIZE : Z := 8.

Section Code.
Context (valid : Z -> bool).

Definition read_byte (m : Memory) (a : Z) : option Z := if valid a then Some (m a) else None.
Definition write_byte (m : Memory) (a v : Z) : option Memory := if valid a then Some (write_le 1 m a v) else None.
Definition span_valid (a n : Z) : bool := forallb (fun i => valid (a + Z.of_nat i)) (seq 0 (Z.to_nat n)).
Definition read_chunk (m : Memory) (src : Z) : option Z := if span_valid src CHUNK_SIZE then Some (read_le 8 m src) else None.
Definition write_chunk (m : Memory) (dst value : Z) : option Memory :=
  if span_valid dst CHUNK_SIZE then Some (write_le 8 m dst value) else None.

(** ** Tails *)

(** [*dst.add(off) = *src.add(off)]. *)
Definition copy_byte (dst src : Z) (m : Memory) (off : nat) : option Memory :=
  v ← read_byte m (src + Z.of_nat off); write_byte m (dst + Z.of_nat off) v.
Definition copy_forward_tail (m : Memory) (dst src remaining : Z) : option Memory :=
  let copy := fold_opt (copy_byte dst src) m in
  match Z.to_nat remaining with
  | 0 => Some m
  | 1 => copy [0]
  | 2 => copy [0; 1]
  | 3 => copy [0; 1; 2]
  | 4 => copy [0; 1; 2; 3]
  | 5 => copy [0; 1; 2; 3; 4]
  | 6 => copy [0; 1; 2; 3; 4; 5]
  | 7 => copy [0; 1; 2; 3; 4; 5; 6]
  | _ => None
  end%nat.
Definition copy_backward_tail (m : Memory) (dst src remaining : Z) : option Memory :=
  let copy := fold_opt (copy_byte dst src) m in
  match Z.to_nat remaining with
  | 0 => Some m
  | 1 => copy [0]
  | 2 => copy [1; 0]
  | 3 => copy [2; 1; 0]
  | 4 => copy [3; 2; 1; 0]
  | 5 => copy [4; 3; 2; 1; 0]
  | 6 => copy [5; 4; 3; 2; 1; 0]
  | 7 => copy [6; 5; 4; 3; 2; 1; 0]
  | _ => None
  end%nat.
Definition set_tail (m : Memory) (dst value remaining : Z) : option Memory :=
  let set := fold_opt (fun m off => write_byte m (dst + Z.of_nat off) value) m in
  match Z.to_nat remaining with
  | 0 => Some m
  | 1 => set [0]
  | 2 => set [0; 1]
  | 3 => set [0; 1; 2]
  | 4 => set [0; 1; 2; 3]
  | 5 => set [0; 1; 2; 3; 4]
  | 6 => set [0; 1; 2; 3; 4; 5]
  | 7 => set [0; 1; 2; 3; 4; 5; 6]
  | _ => None
  end%nat.

(** [compare_byte!] returns early at the first difference. *)
Fixpoint compare_offsets (m : Memory) (a b : Z) (offs : list nat) : option Z :=
  match offs with
  | [] => Some 0
  | off :: offs =>
      left ← read_byte m (a + Z.of_nat off); right ← read_byte m (b + Z.of_nat off);
      if left =? right then compare_offsets m a b offs else Some (left - right)
  end.
Definition compare_bounded (m : Memory) (a b remaining : Z) : option Z :=
  match Z.to_nat remaining with
  | 0 => Some 0%Z
  | 1 => compare_offsets m a b [0]
  | 2 => compare_offsets m a b [0; 1]
  | 3 => compare_offsets m a b [0; 1; 2]
  | 4 => compare_offsets m a b [0; 1; 2; 3]
  | 5 => compare_offsets m a b [0; 1; 2; 3; 4]
  | 6 => compare_offsets m a b [0; 1; 2; 3; 4; 5]
  | 7 => compare_offsets m a b [0; 1; 2; 3; 4; 5; 6]
  | 8 => compare_offsets m a b [0; 1; 2; 3; 4; 5; 6; 7]
  | _ => None
  end%nat.

(** ** Copies *)

Fixpoint copy_forward_loop (fuel : nat) (m : Memory) (dst src remaining : Z) : option (Memory * Z * Z * Z) :=
  match fuel with
  | O => None
  | S fuel =>
      if CHUNK_SIZE <=? remaining then
        value ← read_chunk m src; m ← write_chunk m dst value;
        copy_forward_loop fuel m (dst + CHUNK_SIZE) (src + CHUNK_SIZE) (remaining - CHUNK_SIZE)
      else Some (m, dst, src, remaining)
  end.
Definition copy_forward (m : Memory) (dst src remaining : Z) : option Memory :=
  '(m, dst, src, remaining) ← copy_forward_loop (S (Z.to_nat remaining)) m dst src remaining;
  if negb (remaining =? 0) then copy_forward_tail m dst src remaining else Some m.

Fixpoint copy_backward_loop (fuel : nat) (m : Memory) (dst src remaining : Z) : option (Memory * Z) :=
  match fuel with
  | O => None
  | S fuel =>
      if CHUNK_SIZE <=? remaining then
        let remaining := remaining - CHUNK_SIZE in
        value ← read_chunk m (src + remaining); m ← write_chunk m (dst + remaining) value;
        copy_backward_loop fuel m dst src remaining
      else Some (m, remaining)
  end.
Definition copy_backward (m : Memory) (dst src remaining : Z) : option Memory :=
  '(m, remaining) ← copy_backward_loop (S (Z.to_nat remaining)) m dst src remaining;
  if negb (remaining =? 0) then copy_backward_tail m dst src remaining else Some m.

Definition memcpy (m : Memory) (dst src n : Z) : option (Z * Memory) := m ← copy_forward m dst src n; Some (dst, m).
Definition memmove (m : Memory) (dst src n : Z) : option (Z * Memory) :=
  m ← (if dst <? src then copy_forward m dst src n else copy_backward m dst src n); Some (dst, m).

(** ** Fills *)

(** [u64::from_ne_bytes([byte; CHUNK_SIZE])]. *)
Definition splat (byte : Z) : Z := read_le 8 (fun _ => byte) 0.
Fixpoint memset_loop (fuel : nat) (m : Memory) (cursor chunk remaining : Z) : option (Memory * Z * Z) :=
  match fuel with
  | O => None
  | S fuel =>
      if CHUNK_SIZE <=? remaining then
        m ← write_chunk m cursor chunk; memset_loop fuel m (cursor + CHUNK_SIZE) chunk (remaining - CHUNK_SIZE)
      else Some (m, cursor, remaining)
  end.
Definition memset (m : Memory) (dst c n : Z) : option (Z * Memory) :=
  let byte := wrap_u 8 c in
  '(m, cursor, remaining) ← memset_loop (S (Z.to_nat n)) m dst (splat byte) n;
  m ← (if negb (remaining =? 0) then set_tail m cursor byte remaining else Some m); Some (dst, m).

Definition __rue_byte_copy (m : Memory) (dst src size : Z) : option Memory := r ← memcpy m dst src size; Some r.2.
(** [value as i32]. *)
Definition __rue_byte_set (m : Memory) (dst value size : Z) : option Memory := r ← memset m dst (wrap_s 32 value) size; Some r.2.
Definition __rue_byte_move (m : Memory) (dst src size : Z) : option Memory := r ← memmove m dst src size; Some r.2.

(** ** Comparisons *)

Fixpoint memcmp_loop (fuel : nat) (m : Memory) (s1 s2 offset remaining : Z) : option Z :=
  match fuel with
  | O => None
  | S fuel =>
      if CHUNK_SIZE <=? remaining then
        a ← read_chunk m (s1 + offset); b ← read_chunk m (s2 + offset);
        if negb (a =? b) then compare_bounded m (s1 + offset) (s2 + offset) CHUNK_SIZE
        else memcmp_loop fuel m s1 s2 (offset + CHUNK_SIZE) (remaining - CHUNK_SIZE)
      else if remaining =? 0 then Some 0 else compare_bounded m (s1 + offset) (s2 + offset) remaining
  end.
Definition memcmp (m : Memory) (s1 s2 n : Z) : option Z := memcmp_loop (S (Z.to_nat n)) m s1 s2 0 n.

Fixpoint bcmp_loop (fuel : nat) (m : Memory) (s1 s2 offset remaining : Z) : option Z :=
  match fuel with
  | O => None
  | S fuel =>
      if CHUNK_SIZE <=? remaining then
        a ← read_chunk m (s1 + offset); b ← read_chunk m (s2 + offset);
        if negb (a =? b) then Some 1 else bcmp_loop fuel m s1 s2 (offset + CHUNK_SIZE) (remaining - CHUNK_SIZE)
      else if remaining =? 0 then Some 0 else
        r ← compare_bounded m (s1 + offset) (s2 + offset) remaining; Some (Z.b2z (negb (r =? 0)))
  end.
Definition bcmp (m : Memory) (s1 s2 n : Z) : option Z := bcmp_loop (S (Z.to_nat n)) m s1 s2 0 n.

(** string.rs *)
Definition __rue_str_eq (m : Memory) (ptr1 len1 ptr2 len2 : Z) : option Z :=
  if negb (len1 =? len2) then Some 0 else
  if ptr1 =? ptr2 then Some 1 else
  r ← bcmp m ptr1 ptr2 len1; Some (Z.b2z (r =? 0)).
End Code.

(** ** Copies, piece by piece *)

(** Memory holds bytes. *)
Definition bytes_ok (m : Memory) : Prop := forall x, 0 <= m x < 256.
(** [m'] is [m] after offsets [lo] to [hi] of [src] were copied to [dst]. *)
Definition copied (m m' : Memory) (dst src lo hi : Z) : Prop := forall x, m' x = if (dst + lo <=? x) && (x <? dst + hi) then m (src + (x - dst)) else m x.

Lemma in_span (a b x : Z) : reflect (a <= x < b) ((a <=? x) && (x <? b)).
Proof. apply iff_reflect. by rewrite andb_true_iff Z.leb_le Z.ltb_lt. Qed.

Lemma write_le_1 m a v x : 0 <= v < 256 -> write_le 1 m a v x = if x =? a then v else m x.
Proof.
  intros Hv. rewrite /write_le. destruct (in_span a (a + 1) x), (Z.eqb_spec x a); try lia.
  subst. rewrite Z.sub_diag Z.pow_0_r Z.div_1_r. by apply Z.mod_small.
Qed.

Lemma read_le_byte n m a i : bytes_ok m -> 0 <= i < Z.of_nat n -> (read_le n m a / 256 ^ i) mod 256 = m (a + i).
Proof.
  intros Hb. revert a i. induction n as [|n IH]; intros a i Hi; [lia|]. change (read_le (S n) m a) with (m a + 256 * read_le n m (a + 1)).
  destruct (Z.eq_dec i 0) as [->|Hne].
  - rewrite Z.pow_0_r Z.div_1_r Z.add_0_r Z.mul_comm Z.mod_add; [|lia]. by apply Z.mod_small.
  - replace i with (Z.succ (i - 1)) by lia. rewrite Z.pow_succ_r; [|lia]. rewrite -Z.div_div; [|lia|by apply Z.pow_pos_nonneg; lia].
    rewrite (Z.mul_comm 256) Z.div_add; [|lia]. rewrite (Z.div_small (m a)); [|apply Hb]. rewrite Z.add_0_l IH; [|lia]. f_equal. lia.
Qed.

Lemma write_read_le m m' dst src n x : bytes_ok m -> 
  write_le (Z.of_nat n) m' dst (read_le n m src) x = if (dst <=? x) && (x <? dst + Z.of_nat n) then m (src + (x - dst)) else m' x.
Proof.
  intros Hb. rewrite /write_le. destruct (in_span dst (dst + Z.of_nat n) x); [|done]. apply read_le_byte; [done|lia].
Qed.

Lemma copied_refl m dst src k : copied m m dst src k k.
Proof. intros x. by destruct (in_span (dst + k) (dst + k) x); [lia|]. Qed.

Lemma copied_bytes m m' dst src lo hi : bytes_ok m -> copied m m' dst src lo hi -> bytes_ok m'.
Proof. intros Hb Hc x. rewrite Hc. by destruct (_ && _). Qed.

(** A piece next to what is copied extends it, when its source is untouched. *)
Lemma copied_after m m1 m2 dst src lo k j : lo <= k -> 0 <= j -> (forall i, k <= i < k + j -> src + i < dst + lo \/ dst + k <= src + i) ->
  copied m m1 dst src lo k -> copied m1 m2 dst src k (k + j) -> copied m m2 dst src lo (k + j).
Proof.
  intros Hk Hj Hs H1 H2 x. rewrite H2. destruct (in_span (dst + k) (dst + (k + j)) x) as [Hx|Hx].
  - rewrite H1. destruct (in_span (dst + lo) (dst + (k + j)) x); [|lia]. destruct (in_span (dst + lo) (dst + k) (src + (x - dst))); [|done].
    specialize (Hs (x - dst)). lia.
  - rewrite H1. destruct (in_span (dst + lo) (dst + (k + j)) x), (in_span (dst + lo) (dst + k) x); try done; lia.
Qed.
Lemma copied_before m m1 m2 dst src k j hi : k <= hi -> 0 <= j -> (forall i, k - j <= i < k -> src + i < dst + k \/ dst + hi <= src + i) ->
  copied m m1 dst src k hi -> copied m1 m2 dst src (k - j) k -> copied m m2 dst src (k - j) hi.
Proof.
  intros Hk Hj Hs H1 H2 x. rewrite H2. destruct (in_span (dst + (k - j)) (dst + k) x) as [Hx|Hx].
  - rewrite H1. destruct (in_span (dst + (k - j)) (dst + hi) x); [|lia]. destruct (in_span (dst + k) (dst + hi) (src + (x - dst))); [|done].
    specialize (Hs (x - dst)). lia.
  - rewrite H1. destruct (in_span (dst + (k - j)) (dst + hi) x), (in_span (dst + k) (dst + hi) x); try done; lia.
Qed.

Lemma copied_shift m m' dst src d lo hi : copied m m' (dst + d) (src + d) lo hi <-> copied m m' dst src (d + lo) (d + hi).
Proof.
  split; intros H x; rewrite (H x); rewrite !Z.add_assoc; destruct (_ && _); try done; f_equal; lia.
Qed.

Section Proofs.
Context (valid : Z -> bool).
Notation copy_forward := (copy_forward valid).
Notation copy_backward := (copy_backward valid).

(** [n] bytes at [a] are backed. *)
Definition backed (a n : Z) : Prop := forall i, 0 <= i < n -> valid (a + i) = true.

Lemma span_valid_true a n : span_valid valid a n = true <-> backed a n.
Proof.
  rewrite /span_valid forallb_forall. split.
  - intros H i Hi. specialize (H (Z.to_nat i)). rewrite Z2Nat.id in H; [|lia]. apply H, in_seq. lia.
  - intros H i Hi%in_seq. apply H. lia.
Qed.

Lemma backed_sub a n b k : backed a n -> a <= b -> b + k <= a + n -> backed b k.
Proof. intros H Hb Hk i Hi. replace (b + i) with (a + (b - a + i)) by lia. apply H. lia. Qed.

Lemma copy_byte_step m dst src off : bytes_ok m -> valid (src + Z.of_nat off) = true -> valid (dst + Z.of_nat off) = true ->
  exists m', copy_byte valid dst src m off = Some m' /\ copied m m' dst src (Z.of_nat off) (Z.of_nat off + 1).
Proof.
  intros Hb Hs Hd. rewrite /copy_byte /read_byte /write_byte Hs. cbn [mbind option_bind]. rewrite Hd. eexists. split; [done|]. intros x.
  rewrite write_le_1; [|done]. rewrite Z.add_assoc. destruct (in_span (dst + Z.of_nat off) (dst + Z.of_nat off + 1) x), (Z.eqb_spec x (dst + Z.of_nat off)); try lia.
  f_equal. lia.
Qed.

Lemma copy_chunk_step m dst src : bytes_ok m -> backed src 8 -> backed dst 8 ->
  exists m', (value ← read_chunk valid m src; write_chunk valid m dst value) = Some m' /\ copied m m' dst src 0 8.
Proof.
  intros Hb Hs Hd. rewrite /read_chunk /write_chunk. rewrite (proj2 (span_valid_true src CHUNK_SIZE)); [|done]. cbn [mbind option_bind].
  rewrite (proj2 (span_valid_true dst CHUNK_SIZE)); [|done]. eexists. split; [done|]. intros x.
  rewrite (write_read_le m m dst src 8 x Hb) Z.add_0_r. done.
Qed.

(** ** Tails *)

Lemma forward_tail_seq m dst src r : 0 <= r < 8 -> copy_forward_tail valid m dst src r = fold_opt (copy_byte valid dst src) m (seq 0 (Z.to_nat r)).
Proof.
  intros Hr. rewrite /copy_forward_tail. assert (Z.to_nat r < 8)%nat as Hn by lia. revert Hn. generalize (Z.to_nat r). intros k Hk.
  do 8 (destruct k as [|k]; [done|]). lia.
Qed.
Lemma backward_tail_seq m dst src r : 0 <= r < 8 -> copy_backward_tail valid m dst src r = fold_opt (copy_byte valid dst src) m (rev (seq 0 (Z.to_nat r))).
Proof.
  intros Hr. rewrite /copy_backward_tail. assert (Z.to_nat r < 8)%nat as Hn by lia. revert Hn. generalize (Z.to_nat r). intros k Hk.
  do 8 (destruct k as [|k]; [done|]). lia.
Qed.
Lemma set_tail_seq m dst v r : 0 <= r < 8 ->
  set_tail valid m dst v r = fold_opt (fun m off => write_byte valid m (dst + Z.of_nat off) v) m (seq 0 (Z.to_nat r)).
Proof.
  intros Hr. rewrite /set_tail. assert (Z.to_nat r < 8)%nat as Hn by lia. revert Hn. generalize (Z.to_nat r). intros k Hk.
  do 8 (destruct k as [|k]; [done|]). lia.
Qed.
Lemma compare_bounded_seq m a b r : 0 <= r <= 8 -> compare_bounded valid m a b r = compare_offsets valid m a b (seq 0 (Z.to_nat r)).
Proof.
  intros Hr. rewrite /compare_bounded. assert (Z.to_nat r < 9)%nat as Hn by lia. revert Hn. generalize (Z.to_nat r). intros k Hk.
  do 9 (destruct k as [|k]; [done|]). lia.
Qed.

Lemma forward_fold dst src m n : bytes_ok m -> backed src n -> backed dst n -> dst <= src \/ src + n <= dst -> forall r, Z.of_nat r <= n ->
  exists m', fold_opt (copy_byte valid dst src) m (seq 0 r) = Some m' /\ copied m m' dst src 0 (Z.of_nat r).
Proof.
  intros Hb Hs Hd Hsafe r. induction r as [|r IH]; intros Hr; [exists m; split; [done|apply copied_refl]|].
  destruct IH as (m1 & H1 & Hc1); [lia|]. rewrite seq_S fold_opt_app H1. cbn [mbind option_bind fold_opt].
  destruct (copy_byte_step m1 dst src r) as (m2 & H2 & Hc2); [by eapply copied_bytes|apply Hs; lia|apply Hd; lia|]. rewrite Nat.add_0_l H2. cbn [mbind option_bind].
  exists m2. split; [done|]. replace (Z.of_nat (S r)) with (Z.of_nat r + 1) by lia. eapply copied_after; [..|exact Hc1|exact Hc2]; lia.
Qed.

Lemma backward_fold dst src m n hi : bytes_ok m -> backed src n -> backed dst n -> src <= dst -> hi <= n -> forall r m1, Z.of_nat r <= hi ->
  copied m m1 dst src (Z.of_nat r) hi -> exists m', fold_opt (copy_byte valid dst src) m1 (rev (seq 0 r)) = Some m' /\ copied m m' dst src 0 hi.
Proof.
  intros Hb Hs Hd Hsafe Hhi r. induction r as [|r IH]; intros m1 Hr Hc1; [by exists m1|].
  rewrite seq_S rev_app_distr. cbn [rev app fold_opt]. destruct (copy_byte_step m1 dst src r) as (m2 & H2 & Hc2); [by eapply copied_bytes|apply Hs; lia|apply Hd; lia|].
  rewrite Nat.add_0_l H2. cbn [mbind option_bind]. apply IH; [lia|]. replace (Z.of_nat r) with (Z.of_nat (S r) - 1) in Hc2 by lia.
  replace (Z.of_nat r) with (Z.of_nat (S r) - 1) by lia. eapply copied_before; [..|exact Hc1|]; [lia..|]. by replace (Z.of_nat (S r) - 1 + 1) with (Z.of_nat (S r)) in Hc2 by lia.
Qed.

(** ** Loops *)

Lemma forward_loop m dst src n : bytes_ok m -> backed src n -> backed dst n -> dst <= src \/ src + n <= dst ->
  forall fuel m1 k, 0 <= k <= n -> n - k < Z.of_nat fuel -> copied m m1 dst src 0 k ->
  exists m' k', copy_forward_loop valid fuel m1 (dst + k) (src + k) (n - k) = Some (m', dst + k', src + k', n - k') /\
    copied m m' dst src 0 k' /\ 0 <= k' <= n /\ n - k' < 8.
Proof.
  intros Hb Hs Hd Hsafe fuel. induction fuel as [|fuel IH]; intros m1 k Hk Hf Hc; [lia|]. cbn [copy_forward_loop].
  rewrite /CHUNK_SIZE. destruct (Z.leb_spec 8 (n - k)); [|by exists m1, k].
  destruct (copy_chunk_step m1 (dst + k) (src + k)) as (m2 & H2 & Hc2); [by eapply copied_bytes|eapply backed_sub; [exact Hs|lia..]|eapply backed_sub; [exact Hd|lia..]|].
  destruct (read_chunk valid m1 (src + k)) as [v|]; [|done]. cbn [mbind option_bind] in H2 |- *. rewrite H2. cbn [mbind option_bind].
  rewrite -!Z.add_assoc. replace (n - k - 8) with (n - (k + 8)) by lia. apply IH; [lia..|]. apply copied_shift in Hc2. rewrite Z.add_0_r in Hc2.
  eapply copied_after; [..|exact Hc|exact Hc2]; lia.
Qed.

Lemma backward_loop m dst src n : bytes_ok m -> backed src n -> backed dst n -> src <= dst ->
  forall fuel m1 k, 0 <= k <= n -> k < Z.of_nat fuel -> copied m m1 dst src k n ->
  exists m' k', copy_backward_loop valid fuel m1 dst src k = Some (m', k') /\ copied m m' dst src k' n /\ 0 <= k' <= n /\ k' < 8.
Proof.
  intros Hb Hs Hd Hsafe fuel. induction fuel as [|fuel IH]; intros m1 k Hk Hf Hc; [lia|]. cbn [copy_backward_loop].
  rewrite /CHUNK_SIZE. destruct (Z.leb_spec 8 k); [|by exists m1, k].
  destruct (copy_chunk_step m1 (dst + (k - 8)) (src + (k - 8))) as (m2 & H2 & Hc2); [by eapply copied_bytes|eapply backed_sub; [exact Hs|lia..]|eapply backed_sub; [exact Hd|lia..]|].
  destruct (read_chunk valid m1 (src + (k - 8))) as [v|]; [|done]. cbn [mbind option_bind] in H2 |- *. rewrite H2. cbn [mbind option_bind].
  apply IH; [lia..|]. apply copied_shift in Hc2. replace (k - 8 + 8) with k in Hc2 by lia. rewrite Z.add_0_r in Hc2.
  eapply copied_before; [..|exact Hc|exact Hc2]; lia.
Qed.

Lemma copy_forward_ok m dst src n : 0 <= n -> bytes_ok m -> backed src n -> backed dst n -> dst <= src \/ src + n <= dst ->
  exists m', copy_forward m dst src n = Some m' /\ copied m m' dst src 0 n.
Proof.
  intros Hn Hb Hs Hd Hsafe. rewrite /copy_forward. destruct (forward_loop m dst src n Hb Hs Hd Hsafe (S (Z.to_nat n)) m 0) as (m1 & k & H1 & Hc & Hk & Hk8); [lia..|apply copied_refl|].
  rewrite !Z.add_0_r Z.sub_0_r in H1. rewrite H1. cbn [mbind option_bind]. destruct (Z.eqb_spec (n - k) 0) as [|Hne]; simpl negb; cbn iota.
  { exists m1. split; [done|]. by replace n with k by lia. }
  rewrite forward_tail_seq; [|lia]. destruct (forward_fold (dst + k) (src + k) m1 (n - k)) with (r := Z.to_nat (n - k)) as (m2 & -> & Hc2);
    [by eapply copied_bytes|eapply backed_sub; [exact Hs|lia..]|eapply backed_sub; [exact Hd|lia..]|lia..|].
  exists m2. split; [done|]. rewrite Z2Nat.id in Hc2; [|lia]. apply copied_shift in Hc2. rewrite Z.add_0_r in Hc2.
  replace n with (k + (n - k)) at 1 by lia. eapply copied_after; [..|exact Hc|exact Hc2]; lia.
Qed.

Lemma copy_backward_ok m dst src n : 0 <= n -> bytes_ok m -> backed src n -> backed dst n -> src <= dst ->
  exists m', copy_backward m dst src n = Some m' /\ copied m m' dst src 0 n.
Proof.
  intros Hn Hb Hs Hd Hsafe. rewrite /copy_backward. destruct (backward_loop m dst src n Hb Hs Hd Hsafe (S (Z.to_nat n)) m n) as (m1 & k & H1 & Hc & Hk & Hk8); [lia..|apply copied_refl|].
  rewrite H1. cbn [mbind option_bind]. destruct (Z.eqb_spec k 0) as [->|Hne]; simpl negb; cbn iota; [by exists m1|].
  rewrite backward_tail_seq; [|lia]. apply (backward_fold dst src m n n); [done..|lia|]. rewrite Z2Nat.id; [done|lia].
Qed.

(** ** Fills *)

Definition filled (m m' : Memory) (dst v k : Z) : Prop := forall x, m' x = if (dst <=? x) && (x <? dst + k) then v else m x.

Lemma filled_after m m1 m2 dst v k j : 0 <= k -> 0 <= j -> filled m m1 dst v k -> filled m1 m2 (dst + k) v j -> filled m m2 dst v (k + j).
Proof.
  intros Hk Hj H1 H2 x. rewrite H2 H1. destruct (in_span (dst + k) (dst + k + j) x), (in_span dst (dst + k) x), (in_span dst (dst + (k + j)) x); try done; lia.
Qed.

Lemma splat_chunk m dst v : 0 <= v < 256 -> backed dst 8 -> exists m', write_chunk valid m dst (splat v) = Some m' /\ filled m m' dst v 8.
Proof.
  intros Hv Hd. rewrite /write_chunk. rewrite (proj2 (span_valid_true dst CHUNK_SIZE)); [|done]. eexists. split; [done|]. intros x.
  rewrite /splat. etransitivity; [apply (write_read_le (fun _ => v) m dst 0 8 x); by intros ?|done].
Qed.

Lemma set_fold m dst v n : 0 <= v < 256 -> backed dst n -> forall r, Z.of_nat r <= n ->
  exists m', fold_opt (fun m off => write_byte valid m (dst + Z.of_nat off) v) m (seq 0 r) = Some m' /\ filled m m' dst v (Z.of_nat r).
Proof.
  intros Hv Hd r. induction r as [|r IH]; intros Hr; [exists m; split; [done|]; intros x; by destruct (in_span dst (dst + Z.of_nat 0) x); [lia|]|].
  destruct IH as (m1 & H1 & Hc1); [lia|]. rewrite seq_S fold_opt_app H1. cbn [mbind option_bind fold_opt]. rewrite Nat.add_0_l /write_byte Hd; [|lia].
  cbn [mbind option_bind]. eexists. split; [done|]. replace (Z.of_nat (S r)) with (Z.of_nat r + 1) by lia. eapply filled_after; [..|exact Hc1|]; [lia..|].
  intros x. rewrite write_le_1; [|done]. destruct (in_span (dst + Z.of_nat r) (dst + Z.of_nat r + 1) x), (Z.eqb_spec x (dst + Z.of_nat r)); try done; lia.
Qed.

Lemma fill_loop m dst v n : 0 <= v < 256 -> backed dst n -> forall fuel m1 k, 0 <= k <= n -> n - k < Z.of_nat fuel -> filled m m1 dst v k ->
  exists m' k', memset_loop valid fuel m1 (dst + k) (splat v) (n - k) = Some (m', dst + k', n - k') /\ filled m m' dst v k' /\ 0 <= k' <= n /\ n - k' < 8.
Proof.
  intros Hv Hd fuel. induction fuel as [|fuel IH]; intros m1 k Hk Hf Hc; [lia|]. cbn [memset_loop].
  rewrite /CHUNK_SIZE. destruct (Z.leb_spec 8 (n - k)); [|by exists m1, k].
  destruct (splat_chunk m1 (dst + k) v Hv) as (m2 & -> & Hc2); [eapply backed_sub; [exact Hd|lia..]|]. cbn [mbind option_bind].
  rewrite -Z.add_assoc. replace (n - k - 8) with (n - (k + 8)) by lia. apply IH; [lia..|]. eapply filled_after; [..|exact Hc|exact Hc2]; lia.
Qed.

Lemma memset_ok m dst c n : 0 <= n -> backed dst n -> exists m', memset valid m dst c n = Some (dst, m') /\ filled m m' dst (wrap_u 8 c) n.
Proof.
  intros Hn Hd. assert (0 <= wrap_u 8 c < 256) as Hv by by apply (wrap_u_in 8).
  rewrite /memset. destruct (fill_loop m dst (wrap_u 8 c) n Hv Hd (S (Z.to_nat n)) m 0) as (m1 & k & H1 & Hc & Hk & Hk8); [lia..| |].
  { intros x. by destruct (in_span dst (dst + 0) x); [lia|]. }
  rewrite !Z.add_0_r Z.sub_0_r in H1. rewrite H1. cbn [mbind option_bind]. destruct (Z.eqb_spec (n - k) 0) as [|Hne]; simpl negb; cbn iota.
  { exists m1. split; [done|]. by replace n with k by lia. }
  rewrite set_tail_seq; [|lia]. destruct (set_fold m1 (dst + k) (wrap_u 8 c) (n - k) Hv) with (r := Z.to_nat (n - k)) as (m2 & -> & Hc2);
    [eapply backed_sub; [exact Hd|lia..]|lia|].
  cbn [mbind option_bind]. exists m2. split; [done|]. rewrite Z2Nat.id in Hc2; [|lia]. replace n with (k + (n - k)) by lia. eapply filled_after; [..|exact Hc|exact Hc2]; lia.
Qed.

(** ** Comparisons *)

Definition same (m : Memory) (a b n : Z) : Prop := forall i, 0 <= i < n -> m (a + i) = m (b + i).
(** The difference at the first offset where the ranges differ, if any. *)
Definition verdict (m : Memory) (a b n r : Z) : Prop :=
  same m a b n /\ r = 0 \/
  exists i, 0 <= i < n /\ same m a b i /\ m (a + i) <> m (b + i) /\ r = m (a + i) - m (b + i).

Lemma verdict_after m a b k j r : 0 <= k -> 0 <= j -> same m a b k -> verdict m (a + k) (b + k) j r -> verdict m a b (k + j) r.
Proof.
  intros Hk Hj Hs Hv. assert (forall i, 0 <= i -> same m (a + k) (b + k) i -> same m a b (k + i)) as Hx.
  { intros i Hi H x Hxx. destruct (Z.lt_ge_cases x k); [by apply Hs; lia|]. specialize (H (x - k)). rewrite -!Z.add_assoc Zplus_minus in H. apply H. lia. }
  destruct Hv as [[H ->]|(i & Hi & H & Hne & ->)]; [left; split; [by apply Hx|done]|right].
  exists (k + i). rewrite !Z.add_assoc. split_and!; [lia..|apply Hx; [lia|done]|done|done].
Qed.

Lemma read_le_same n m a b : (forall i, 0 <= i < Z.of_nat n -> m (a + i) = m (b + i)) -> read_le n m a = read_le n m b.
Proof.
  revert a b. induction n as [|n IH]; intros a b H; [done|]. change (m a + 256 * read_le n m (a + 1) = m b + 256 * read_le n m (b + 1)). f_equal.
  - specialize (H 0). rewrite !Z.add_0_r in H. apply H. lia.
  - f_equal. apply IH. intros i Hi. rewrite -!Z.add_assoc. apply H. lia.
Qed.

Lemma chunk_same m a b : bytes_ok m -> read_le 8 m a = read_le 8 m b <-> same m a b 8.
Proof.
  intros Hb. split; [|intros H; by apply read_le_same]. intros H i Hi. by rewrite -(read_le_byte 8 m a i Hb Hi) -(read_le_byte 8 m b i Hb Hi) H.
Qed.

Lemma compare_offsets_ok m a b : forall n k, (forall i, 0 <= i < Z.of_nat (k + n) -> valid (a + i) = true /\ valid (b + i) = true) -> same m a b (Z.of_nat k) ->
  exists r, compare_offsets valid m a b (seq k n) = Some r /\ verdict m a b (Z.of_nat (k + n)) r.
Proof.
  induction n as [|n IH]; intros k Hv Hs; cbn [seq compare_offsets].
  - exists 0. split; [done|]. rewrite Nat.add_0_r. by left.
  - rewrite /read_byte. destruct (Hv (Z.of_nat k)) as [-> ->]; [lia|]. cbn [mbind option_bind]. destruct (Z.eqb_spec (m (a + Z.of_nat k)) (m (b + Z.of_nat k))).
    + rewrite -Nat.add_succ_comm. apply IH; [by rewrite Nat.add_succ_comm|]. intros i Hi. destruct (Z.eq_dec i (Z.of_nat k)) as [->|]; [done|apply Hs; lia].
    + eexists. split; [done|]. right. exists (Z.of_nat k). split_and!; [lia..|done|done|done].
Qed.

Lemma compare_bounded_ok m a b n : 0 <= n <= 8 -> backed a n -> backed b n -> exists r, compare_bounded valid m a b n = Some r /\ verdict m a b n r.
Proof.
  intros Hn Ha Hb. rewrite compare_bounded_seq; [|done].
  destruct (compare_offsets_ok m a b (Z.to_nat n) 0) as (r & Hr & Hv); [intros i Hi; split; [apply Ha|apply Hb]; lia|intros i Hi; lia|].
  exists r. split; [done|]. by replace n with (Z.of_nat (0 + Z.to_nat n)) by lia.
Qed.

Lemma read_chunks m a b : backed a 8 -> backed b 8 -> read_chunk valid m a = Some (read_le 8 m a) /\ read_chunk valid m b = Some (read_le 8 m b).
Proof. intros Ha Hb. rewrite /read_chunk. by rewrite (proj2 (span_valid_true a CHUNK_SIZE)) // (proj2 (span_valid_true b CHUNK_SIZE)). Qed.

Lemma memcmp_ok m a b n : bytes_ok m -> backed a n -> backed b n -> forall fuel k, 0 <= k <= n -> n - k < Z.of_nat fuel -> same m a b k ->
  exists r, memcmp_loop valid fuel m a b k (n - k) = Some r /\ verdict m a b n r.
Proof.
  intros Hm Ha Hb fuel. induction fuel as [|fuel IH]; intros k Hk Hf Hs; [lia|]. cbn [memcmp_loop]. rewrite /CHUNK_SIZE. destruct (Z.leb_spec 8 (n - k)).
  - destruct (read_chunks m (a + k) (b + k)) as [-> ->]; [eapply backed_sub; [exact Ha|lia..]|eapply backed_sub; [exact Hb|lia..]|]. cbn [mbind option_bind].
    destruct (Z.eqb_spec (read_le 8 m (a + k)) (read_le 8 m (b + k))) as [He|Hne]; simpl negb; cbn iota.
    + replace (n - k - 8) with (n - (k + 8)) by lia. apply IH; [lia..|]. apply (chunk_same m _ _ Hm) in He.
      destruct (verdict_after m a b k 8 0) as [[? _]|(i & _ & _ & ? & ?)]; [lia..|done|by left|done|lia].
    + destruct (compare_bounded_ok m (a + k) (b + k) 8) as (r & -> & Hr); [lia|eapply backed_sub; [exact Ha|lia..]|eapply backed_sub; [exact Hb|lia..]|]. exists r. split; [done|].
      destruct (verdict_after m a b k 8 r) as [[Hs' _]|(i & Hi & H')]; [lia..|done|done| |right; by exists i; split; [lia|]].
      destruct Hne. apply (chunk_same m _ _ Hm). intros i Hi. rewrite -!Z.add_assoc. apply Hs'. lia.
  - destruct (Z.eqb_spec (n - k) 0) as [|Hne].
    + exists 0. split; [done|]. left. by replace n with k by lia.
    + destruct (compare_bounded_ok m (a + k) (b + k) (n - k)) as (r & -> & Hr); [lia|eapply backed_sub; [exact Ha|lia..]|eapply backed_sub; [exact Hb|lia..]|]. exists r. split; [done|].
      replace n with (k + (n - k)) by lia. apply verdict_after; [lia..|done|done].
Qed.

Lemma verdict_zero m a b n r : verdict m a b n r -> r = 0 <-> same m a b n.
Proof.
  intros [[Hs ->]|(i & Hi & _ & Hne & ->)]; [done|]. split; [intros Hz; lia|]. intros Hs. by destruct Hne; apply Hs.
Qed.

Lemma bcmp_ok m a b n : bytes_ok m -> backed a n -> backed b n -> forall fuel k, 0 <= k <= n -> n - k < Z.of_nat fuel -> same m a b k ->
  exists r, bcmp_loop valid fuel m a b k (n - k) = Some r /\ (r = 0 \/ r = 1) /\ (r = 0 <-> same m a b n).
Proof.
  intros Hm Ha Hb fuel. induction fuel as [|fuel IH]; intros k Hk Hf Hs; [lia|]. cbn [bcmp_loop]. rewrite /CHUNK_SIZE. destruct (Z.leb_spec 8 (n - k)).
  - destruct (read_chunks m (a + k) (b + k)) as [-> ->]; [eapply backed_sub; [exact Ha|lia..]|eapply backed_sub; [exact Hb|lia..]|]. cbn [mbind option_bind].
    destruct (Z.eqb_spec (read_le 8 m (a + k)) (read_le 8 m (b + k))) as [He|Hne]; simpl negb; cbn iota.
    + replace (n - k - 8) with (n - (k + 8)) by lia. apply IH; [lia..|]. apply (chunk_same m _ _ Hm) in He.
      destruct (verdict_after m a b k 8 0) as [[? _]|(i & _ & _ & ? & ?)]; [lia..|done|by left|done|lia].
    + exists 1. split; [done|]. split; [by right|]. split; [done|]. intros Hs'. destruct Hne. apply (chunk_same m _ _ Hm). intros i Hi. rewrite -!Z.add_assoc. apply Hs'. lia.
  - destruct (Z.eqb_spec (n - k) 0) as [|Hne].
    + exists 0. split; [done|]. split; [by left|]. by replace n with k by lia.
    + destruct (compare_bounded_ok m (a + k) (b + k) (n - k)) as (r & -> & Hr); [lia|eapply backed_sub; [exact Ha|lia..]|eapply backed_sub; [exact Hb|lia..]|]. cbn [mbind option_bind].
      eexists. split; [done|]. assert (verdict m a b n r) as Hv%verdict_zero by (replace n with (k + (n - k)) by lia; by apply verdict_after; [lia..| |]).
      rewrite -Hv. destruct (Z.eqb_spec r 0); simpl; split; [by left|done|by right|]; lia.
Qed.
End Proofs.

(** ** Properties *)

(** C19. The runtime's memory primitives do, eight bytes at a time, what their
    byte-wise contracts say, and touch no byte outside the ranges they are
    given: [memmove] copies as through a temporary buffer however the ranges
    overlap, [memcpy] does when they do not, [memset] fills with the low byte,
    [memcmp] returns the difference at the first offset where the ranges differ
    or zero, [bcmp] tells whether they differ, and string equality holds exactly
    for equal lengths and bytes. *)
Theorem memory_primitives_exact (valid : Z -> bool) (m : Memory) (dst src n : Z) :
  bytes_ok m -> in_u 64 n -> backed valid dst n -> backed valid src n ->
  (exists m', memmove valid m dst src n = Some (dst, m') /\ forall x, m' x = copy_bytes m src dst n x) /\
  (dst + n <= src \/ src + n <= dst -> exists m', memcpy valid m dst src n = Some (dst, m') /\ forall x, m' x = copy_bytes m src dst n x) /\
  (forall c, exists m', memset valid m dst c n = Some (dst, m') /\
    forall x, m' x = if decide (dst <= x < dst + n) then c mod 256 else m x) /\
  (exists r, memcmp valid m dst src n = Some r /\ verdict m dst src n r) /\
  (exists r, bcmp valid m dst src n = Some r /\ (r = 0 <-> forall i, 0 <= i < n -> m (dst + i) = m (src + i))) /\
  (forall n', exists r, __rue_str_eq valid m dst n src n' = Some r /\ (r = 0 \/ r = 1) /\
    (r = 1 <-> n = n' /\ forall i, 0 <= i < n -> m (dst + i) = m (src + i))).
Proof.
  intros Hm [Hn _] Hd Hs. assert (forall m', copied m m' dst src 0 n -> forall x, m' x = copy_bytes m src dst n x) as Hcp.
  { intros m' H x. by rewrite (H x) Z.add_0_r. }
  assert (exists r, bcmp valid m dst src n = Some r /\ (r = 0 \/ r = 1) /\ (r = 0 <-> same m dst src n)) as Hbc.
  { rewrite /bcmp. destruct (bcmp_ok valid m dst src n Hm Hd Hs (S (Z.to_nat n)) 0) as (r & Hr & H); [lia..|intros i Hi; lia|]. rewrite Z.sub_0_r in Hr. by exists r. }
  split_and!.
  - rewrite /memmove. destruct (Z.ltb_spec dst src).
    + destruct (copy_forward_ok valid m dst src n) as (m' & -> & H'); [done..|lia|]. exists m'. split; [done|by apply Hcp].
    + destruct (copy_backward_ok valid m dst src n) as (m' & -> & H'); [done..|]. exists m'. split; [done|by apply Hcp].
  - intros Hdis. rewrite /memcpy. destruct (copy_forward_ok valid m dst src n) as (m' & -> & H'); [done..|lia|]. exists m'. split; [done|by apply Hcp].
  - intros c. destruct (memset_ok valid m dst c n Hn Hd) as (m' & H' & Hf). exists m'. split; [done|]. intros x. rewrite (Hf x).
    destruct (in_span dst (dst + n) x); by case_decide.
  - rewrite /memcmp. destruct (memcmp_ok valid m dst src n Hm Hd Hs (S (Z.to_nat n)) 0) as (r & Hr & H); [lia..|intros i Hi; lia|]. rewrite Z.sub_0_r in Hr. by exists r.
  - destruct Hbc as (r & -> & _ & Hr). by exists r.
  - intros n'. rewrite /__rue_str_eq. destruct (Z.eqb_spec n n') as [<-|Hne]; simpl negb; cbn iota; [|exists 0; split; [done|]; split; [by left|]; by split; [|intros [? _]]].
    destruct (Z.eqb_spec dst src) as [->|_]; [exists 1; split; [done|]; split; [by right|done]|].
    destruct Hbc as (r & -> & _ & Hr). cbn [mbind option_bind]. eexists. split; [done|]. destruct (Z.eqb_spec r 0) as [->|Hne]; simpl.
    + split; [by right|]. split; [intros _; split; [done|by apply Hr]|done].
    + split; [by left|]. split; [done|]. intros [_ H]. by apply Hr in H.
Qed.

(** *** Witness: an overlapping move *)

Definition sample_memory : Memory := fun x => if (100 <=? x) && (x <? 132) then x else 7.
Lemma memory_primitives_exact_witness : exists m', memmove (fun _ => true) sample_memory 103 100 20 = Some (103, m') /\
  (m' <$> [102; 103; 104; 122; 123]) = [102; 100; 101; 119; 123] /\ exists m'', memset (fun _ => true) sample_memory 103 255 20 = Some (103, m'').
Proof.
  destruct (memory_primitives_exact (fun _ => true) sample_memory 103 100 20) as ((m' & Hm & Hx) & _ & Hset & _).
  - intros x. rewrite /sample_memory. destruct (in_span 100 132 x); lia.
  - rewrite /in_u. lia.
  - done.
  - done.
  - exists m'. split; [exact Hm|]. split; [cbn [fmap list_fmap]; rewrite !Hx; vm_compute; reflexivity|]. destruct (Hset 255) as (m'' & H'' & _). by exists m''.
Defined.
