(* ===== verification/RtHeap.v ===== *)
(** * The runtime's heap

    [crates/rue-runtime/src/heap.rs]: the allocator as the runtime's helpers use
    it, the results they write for compiled programs
    ([crates/rue-runtime-abi/src/lib.rs]), and the traps that end a program
    ([error.rs]).  Everything runs in the allocator's state. *)

From S2P Require Import Prelude Allocator AllocatorInv AllocatorSteps AllocatorSpec AllocatorOps AllocatorClient RtMemory.
From stdpp Require Import gmap.
Import Machine.
Local Open Scope Z_scope.

#[local] Arguments read_le : simpl never.
#[local] Arguments write_le : simpl never.
#[local] Existing Instances M_ret M_bind.

(** ** Results *)

Record StrBufResult := mkStrBuf { ptr : Z; cap : Z; len : Z }.
Record OptionStrBufResult := mkOptionStrBuf { os_disc : Z; os_ptr : Z; os_cap : Z; os_len : Z }.
Record OptionIntResult := mkOptionInt { oi_disc : Z; oi_value : Z }.

(** The helpers that end the program never return. *)
Inductive Trap := OutOfMemory | InputError | InvalidUtf8 | IndexOutOfBounds.
Inductive exit (A : Type) := Returns (a : A) | Traps (t : Trap).
Arguments Returns {A} a.
Arguments Traps {A} t.
Definition allocation_failure {A} : exit A := Traps OutOfMemory.
Definition __rue_invalid_utf8 {A} : exit A := Traps InvalidUtf8.
Definition __rue_bounds_check {A} : exit A := Traps IndexOutOfBounds.

(** ** Bytes *)

(** [n] bytes at [a]. *)
Definition bytes_at (m : Memory) (a n : Z) : list Z := (fun i => m (a + Z.of_nat i)) <$> seq 0 (Z.to_nat n).
(** [m] with [bs] stored from [a] on. *)
Definition put (m : Memory) (a : Z) (bs : list Z) : Memory := fun x =>
  if (a <=? x) && (x <? a + Z.of_nat (length bs)) then nth (Z.to_nat (x - a)) bs 0 else m x.

Section Code.
Context {PM : PageMapper} (debug : bool).

Definition alloc (size align : Z) : M Z := allocate debug size align.
Definition free (pointer size align : Z) : M unit := deallocate debug pointer size align.
Definition resize (pointer old_size new_size align : Z) : M bool := resize_in_place debug pointer old_size new_size align.
Definition realloc (pointer old_size new_size align : Z) : M Z := reallocate debug pointer old_size new_size align.

Definition backed_by (st : St) (a : Z) : bool := mapped st a 1.
(** A memory primitive, on the mapped part of memory. *)
Definition with_memory (f : (Z -> bool) -> Memory -> option (Z * Memory)) : M Z := fun st =>
  match f (backed_by st) (mem st) with Some (r, m) => Some (r, with_mem m st) | None => None end.
Definition alloc_zeroed (size align : Z) : M Z :=
  pointer ← allocate debug size align;
  if negb (pointer =? 0) then with_memory (fun valid m => memset valid m pointer 0 size);; mret pointer else mret pointer.

(** [copy_nonoverlapping] from storage that is not the heap's: a stack buffer
    or the standard input chunk. *)
Definition copy_in (bs : list Z) (dst : Z) : M unit := fun st =>
  if mapped st dst (Z.of_nat (length bs)) then Some (tt, with_mem (put (mem st) dst bs) st) else None.

Definition __rue_alloc := alloc.
Definition __rue_alloc_zeroed := alloc_zeroed.
Definition __rue_free := free.
Definition __rue_realloc := realloc.
Definition __rue_resize (pointer old_size new_size align : Z) : M Z := b ← resize pointer old_size new_size align; mret (Z.b2z b).
End Code.

(** ** What a holder of blocks may rely on *)

Lemma put_outside m a bs e : apart (a, Z.of_nat (length bs)) e -> agree m (put m a bs) e.
Proof. rewrite /apart /=. intros He x Hx. rewrite /put. destruct (in_span a (a + Z.of_nat (length bs)) x); [lia|done]. Qed.

Lemma put_at m a bs : bytes_at (put m a bs) a (Z.of_nat (length bs)) = bs.
Proof.
  apply list_eq. intros i. rewrite /bytes_at list_lookup_fmap Nat2Z.id. destruct (decide (i < length bs)%nat) as [Hi|Hi].
  - rewrite lookup_seq_lt; [|done]. destruct (lookup_lt_is_Some_2 bs i Hi) as [b Hb]. rewrite Hb /=. f_equal. rewrite /put.
    destruct (in_span a (a + Z.of_nat (length bs)) (a + Z.of_nat i)); [|lia]. replace (Z.to_nat (a + Z.of_nat i - a)) with i by lia. by apply nth_lookup_Some.
  - rewrite lookup_seq_ge; [|lia]. rewrite lookup_ge_None_2; [done|lia].
Qed.

Lemma bytes_at_agree m m' a n : agree m m' (a, n) -> bytes_at m a n = bytes_at m' a n.
Proof.
  intros Ha. rewrite /bytes_at. apply list_fmap_ext. intros i x Hx%lookup_seq. apply Ha. simpl. lia.
Qed.

Lemma bytes_at_app m a n k : 0 <= n -> 0 <= k -> bytes_at m a (n + k) = bytes_at m a n ++ bytes_at m (a + n) k.
Proof.
  intros Hn Hk. rewrite /bytes_at Z2Nat.inj_add // seq_app fmap_app. f_equal. rewrite Nat.add_0_l -{1}(Nat.add_0_r (Z.to_nat n)) -fmap_add_seq -list_fmap_compose.
  apply list_fmap_ext. intros i x _. simpl. f_equal. lia.
Qed.

Lemma bytes_at_length m a n : length (bytes_at m a n) = Z.to_nat n.
Proof. by rewrite /bytes_at length_fmap length_seq. Qed.

Section Contracts.
Context {PM : PageMapper} {ML : @MapperLaws PM} (debug : bool).
Notation holds := (holds debug).

(** The bytes of every block held stay. *)
Definition kept (lv : Held) (st st' : St) : Prop := forall q t b, lv !! q = Some (t, b) -> agree (mem st) (mem st') (q, t).

Lemma kept_refl lv st : kept lv st st.
Proof. by intros q t b _ x _. Qed.
Lemma kept_trans lv st1 st2 st3 : kept lv st1 st2 -> kept lv st2 st3 -> kept lv st1 st3.
Proof. intros H1 H2 q t b Hq. eapply agree_trans; [by eapply H1|by eapply H2]. Qed.
Lemma kept_sub lv lv' st st' : lv ⊆ lv' -> kept lv' st st' -> kept lv st st'.
Proof. intros Hs H q t b Hq. eapply H. by eapply lookup_weaken. Qed.

Lemma alloc_ok lv st s a : holds lv st -> in_u 64 s -> in_u 64 a -> exists r st', alloc debug s a st = Some (r, st') /\ kept lv st st' /\
  (r = 0 -> holds lv st') /\ (r <> 0 -> lv !! r = None /\ holds (<[r := (s, a)]> lv) st').
Proof.
  intros Hh Hs Ha. pose proof Hh as (g & Hi & <- & Hlk). destruct (allocate_spec debug g st s a Hi Hlk Hs Ha) as (r & st' & Hrun & Hout & _).
  destruct (outcome_holds debug (live g) st r st' s a ltac:(by eexists) Hlk) as [Hh' Hf]. exists r, st'. split; [done|split; [done|]].
  destruct (Z.eqb_spec r 0) as [|Hne]; [done|]. split; [done|]. intros _. split; [|done].
  destruct Hout as (g' & _ & _ & _ & _ & [[? _]|(_ & Hn & _)]); done.
Qed.

Lemma free_ok lv st p s a : holds lv st -> lv !! p = Some (s, a) -> exists st', free debug p s a st = Some (tt, st') /\
  kept (delete p lv) st st' /\ holds (delete p lv) st'.
Proof.
  intros (g & Hi & <- & Hlk) Hl. destruct (deallocate_spec debug g st p s a Hi Hlk Hl) as (st' & Hrun & g' & Hi' & Hlv & Hp & Hk).
  exists st'. split; [done|split; [|by exists g']]. intros q t b Hq. eapply Hp. by rewrite Hlv.
Qed.

Lemma realloc_ok lv st p s s' a : holds lv st -> lv !! p = Some (s, a) -> in_u 64 s' -> s' <> 0 ->
  exists r st', realloc debug p s s' a st = Some (r, st') /\ kept (delete p lv) st st' /\
  (r = 0 -> holds lv st' /\ agree (mem st) (mem st') (p, s)) /\
  (r <> 0 -> holds (<[r := (s', a)]> (delete p lv)) st' /\ delete p lv !! r = None /\ forall x, 0 <= x < s `min` s' -> mem st' (r + x) = mem st (p + x)).
Proof.
  intros (g & Hi & <- & Hlk) Hl Hs' Hne. destruct (reallocate_spec debug g st p s s' a Hi Hlk Hl Hs') as (r & st' & Hrun & g' & Hi' & Hk & Hcase).
  exists r, st'. split; [done|]. destruct Hcase as [(-> & ? & _)|[(-> & _ & _ & Hlv & Hp)|(Hr0 & _ & Hlv & _ & Hnew & Hf & Hcp)]]; [done| |].
  - split; [intros q t b [_ Hq]%lookup_delete_Some; by eapply Hp|]. split; [|done]. intros _. split; [by exists g'|]. by eapply Hp.
  - split; [intros q t b [Hpq Hq]%lookup_delete_Some; by eapply Hf|]. split; [done|]. intros _. split; [by exists g'|]. split; [|done].
    destruct Hnew as [->|Hn]; [apply lookup_delete_eq|]. by apply lookup_delete_None; right.
Qed.

(** Writing inside a held block. *)
Lemma payload_ok lv st p s a m' : holds lv st -> lv !! p = Some (s, a) -> (forall e, apart (p, s) e -> agree (mem st) m' e) ->
  holds lv (with_mem m' st) /\ kept (delete p lv) st (with_mem m' st).
Proof.
  intros (g & Hi & <- & Hlk) Hl Hm. destruct (inv_payload debug g st m' p s a Hi Hl Hm) as [Hi' Hf]. split; [by exists g|].
  intros q t b [Hpq Hq]%lookup_delete_Some. by eapply Hf.
Qed.

Lemma held_mapped lv st p s a x n : holds lv st -> lv !! p = Some (s, a) -> p <= x -> x + n <= p + s -> mapped st x n = true.
Proof.
  intros (g & Hi & <- & _) Hl H1 H2. destruct (live_facts debug g st p s a Hi Hl) as (_ & _ & _ & _ & _ & _ & m & Hm & Hw).
  apply (mapped_within st x n m Hm). eapply within_trans; [|exact Hw]. eapply within_trans; [|by eapply live_payload_within]. by rewrite /within /=.
Qed.

Lemma copy_in_ok lv st p s a x bs : holds lv st -> lv !! p = Some (s, a) -> p <= x -> x + Z.of_nat (length bs) <= p + s ->
  let st' := with_mem (put (mem st) x bs) st in
  copy_in bs x st = Some (tt, st') /\ holds lv st' /\ kept (delete p lv) st st'.
Proof.
  intros Hh Hl H1 H2 st'. rewrite /copy_in (held_mapped lv st p s a x) //. split; [done|]. apply (payload_ok lv st p s a); [done..|].
  intros e He. apply put_outside. eapply apart_within; [|exact He]. by rewrite /within /=.
Qed.

Lemma alloc_zeroed_ok lv st s a : holds lv st -> in_u 64 s -> in_u 64 a -> exists r st', alloc_zeroed debug s a st = Some (r, st') /\ kept lv st st' /\
  (r = 0 -> holds lv st') /\ (r <> 0 -> lv !! r = None /\ holds (<[r := (s, a)]> lv) st' /\ forall x, r <= x < r + s -> mem st' x = 0).
Proof.
  intros Hh Hs Ha. destruct (alloc_ok lv st s a Hh Hs Ha) as (r & st1 & Hrun & Hk & H0 & Hn). rewrite /alloc_zeroed. rewrite /alloc in Hrun. rewrite (bind_run _ _ _ _ _ Hrun). cbn beta.
  destruct (Z.eqb_spec r 0) as [->|Hne]; cbn [negb]; [exists 0, st1; by split_and!|]. destruct (Hn Hne) as [Hnew Hh1].
  assert (<[r := (s, a)]> lv !! r = Some (s, a)) as Hl by apply lookup_insert_eq.
  destruct (memset_ok (backed_by st1) (mem st1) r 0 s) as (m' & Hm & Hf); [by destruct Hs|intros i Hi; apply (held_mapped _ st1 r s a _ _ Hh1 Hl); lia|].
  destruct (payload_ok _ st1 r s a m' Hh1 Hl) as [Hh2 Hk2].
  { intros e He x Hx. rewrite (Hf x). destruct (in_span r (r + s) x); [|done]. rewrite /apart /= in He. lia. }
  assert (with_memory (fun valid m => memset valid m r 0 s) st1 = Some (r, with_mem m' st1)) as Hw by (rewrite /with_memory; by rewrite Hm).
  exists r, (with_mem m' st1). split; [by rewrite (bind_run _ _ _ _ _ Hw)|]. split; [|split; [done|]].
  - eapply kept_trans; [exact Hk|]. eapply kept_sub; [|exact Hk2]. by rewrite delete_insert_id //.
  - intros _. split_and!; [done..|]. intros x Hx. simpl. rewrite (Hf x). by destruct (in_span r (r + s) x); [|lia].
Qed.
End Contracts.
