(* ===== verification/RtNumbers.v ===== *)
(** * Integers as text

    [crates/rue-runtime/src/parse.rs] and the integer formatting of [string.rs].
    The outer [None] is arithmetic overflow, an index out of range or memory
    that is not backed; a parse that fails returns [Some None]. *)

From S2P Require Import Prelude Allocator AllocatorInv AllocatorSpec AllocatorClient RtMemory RtHeap.
From stdpp Require Import gmap.
Import Machine.
Local Open Scope Z_scope.
#[local] Existing Instances M_ret M_bind.

(** ** Parsing *)

Definition i64_min : Z := - 2 ^ 63.
Definition i64_max : Z := 2 ^ 63 - 1.
Definition is_ascii_digit (byte : Z) : bool := (48 <=? byte) && (byte <=? 57).

Fixpoint parse_i64_loop (is_negative : bool) (result : Z) (bytes : list Z) : option (option Z) :=
  match bytes with
  | [] => Some (Some result)
  | byte :: bytes =>
      if negb (is_ascii_digit byte) then Some None else
      let digit := byte - 48 in
      if is_negative then
        if result <? Z.quot i64_min 10 then Some None else
        result ← checked_s 64 (result * 10); limit ← checked_s 64 (i64_min + digit);
        if result <? limit then Some None else result ← checked_s 64 (result - digit); parse_i64_loop is_negative result bytes
      else
        if Z.quot i64_max 10 <? result then Some None else
        result ← checked_s 64 (result * 10); limit ← checked_s 64 (i64_max - digit);
        if limit <? result then Some None else result ← checked_s 64 (result + digit); parse_i64_loop is_negative result bytes
  end.
Definition parse_i64_checked (bytes : list Z) : option (option Z) :=
  match bytes with
  | [] => Some None
  | b :: rest =>
      if b =? 45 then match rest with [] => Some None | _ => parse_i64_loop true 0 rest end
      else parse_i64_loop false 0 bytes
  end.

Fixpoint parse_u64_loop (result : Z) (bytes : list Z) : option (option Z) :=
  match bytes with
  | [] => Some (Some result)
  | byte :: bytes =>
      if negb (is_ascii_digit byte) then Some None else
      let digit := byte - 48 in
      if u64_max / 10 <? result then Some None else
      result ← checked_u 64 (result * 10); limit ← checked_u 64 (u64_max - digit);
      if limit <? result then Some None else result ← checked_u 64 (result + digit); parse_u64_loop result bytes
  end.
Definition parse_u64_checked (bytes : list Z) : option (option Z) :=
  match bytes with [] => Some None | b :: _ => if b =? 45 then Some None else parse_u64_loop 0 bytes end.

Definition parse_i32_checked (bytes : list Z) : option (option Z) :=
  r ← parse_i64_checked bytes;
  match r with
  | None => Some None
  | Some v => if (v <? - 2 ^ 31) || (2 ^ 31 - 1 <? v) then Some None else Some (Some (wrap_s 32 v))
  end.
Definition parse_u32_checked (bytes : list Z) : option (option Z) :=
  r ← parse_u64_checked bytes;
  match r with None => Some None | Some v => if u32_max <? v then Some None else Some (Some (wrap_u 32 v)) end.

Definition write_parse_result (parsed : option Z) (some_disc none_disc : Z) : OptionIntResult :=
  match parsed with Some v => mkOptionInt some_disc v | None => mkOptionInt none_disc 0 end.
(** The slice the caller passes, and the result it gets. *)
Definition slice_of (valid : Z -> bool) (m : Memory) (ptr len : Z) : option (list Z) :=
  if len =? 0 then Some [] else if span_valid valid ptr len then Some (bytes_at m ptr len) else None.
Definition parse_with (parse : list Z -> option (option Z)) (valid : Z -> bool) (m : Memory) (ptr len some_disc none_disc : Z) : option OptionIntResult :=
  bytes ← slice_of valid m ptr len; parsed ← parse bytes;
  Some (write_parse_result (wrap_u 64 <$> parsed) some_disc none_disc).
Definition __rue_parse_i32 := parse_with parse_i32_checked.
Definition __rue_parse_i64 := parse_with parse_i64_checked.
Definition __rue_parse_u32 := parse_with parse_u32_checked.
Definition __rue_parse_u64 := parse_with parse_u64_checked.

(** ** Formatting *)

Definition STRING_MIN_CAPACITY : Z := 16.

(** [i -= 1; buf[i] = byte]. *)
Definition push_front (st : list Z * nat) (byte : Z) : option (list Z * nat) :=
  match st.2 with O => None | S i => _ ← st.1 !! i; Some (<[i := byte]> st.1, i) end.
Fixpoint digit_loop (fuel : nat) (st : list Z * nat) (mag : Z) : option (list Z * nat) :=
  match fuel with
  | O => None
  | S fuel =>
      if 0 <? mag then byte ← checked_u 8 (48 + wrap_u 8 (mag mod 10)); st ← push_front st byte; digit_loop fuel st (mag / 10)
      else Some st
  end.
Definition format_magnitude (mag : Z) : option (list Z * nat) :=
  let st := (replicate 20 0, 20%nat) in
  if mag =? 0 then push_front st 48 else digit_loop 21 st mag.
Definition format_signed (n : Z) : option (list Z * nat) :=
  let negative := n <? 0 in
  let mag := wrap_u 64 n in
  let mag := if negative then wrap_u 64 (- mag) else mag in
  st ← format_magnitude mag; if negative then push_front st 45 else Some st.

Section Format.
Context {PM : PageMapper} (debug : bool).

(** The buffer's tail, copied into a fresh allocation. *)
Definition publish (bytes : list Z) : M (exit StrBufResult) :=
  let len := Z.of_nat (length bytes) in
  let new_cap := if len <? STRING_MIN_CAPACITY then STRING_MIN_CAPACITY else len in
  new_ptr ← alloc debug new_cap 1;
  if new_ptr =? 0 then mret allocation_failure else copy_in bytes new_ptr;; mret (Returns (mkStrBuf new_ptr new_cap len)).
Definition publish_owned_strbuf := publish.
Definition __rue_to_string (n : Z) : M (exit StrBufResult) := '(buf, i) ← lift (format_signed n); publish (drop i buf).
Definition __rue_to_string_unsigned (n : Z) : M (exit StrBufResult) := '(buf, i) ← lift (format_magnitude n); publish (drop i buf).
End Format.

(** ** What a decimal text denotes *)

Definition decimal (ds : list Z) : Prop := Forall (fun d => 48 <= d <= 57) ds.
Definition value_from (r : Z) (ds : list Z) : Z := fold_left (fun acc d => acc * 10 + (d - 48)) ds r.
Notation value := (value_from 0).

Lemma is_ascii_digit_true b : is_ascii_digit b = true <-> 48 <= b <= 57.
Proof. by rewrite /is_ascii_digit andb_true_iff !Z.leb_le. Qed.

Lemma value_from_ge ds : forall r, decimal ds -> 0 <= r -> r <= value_from r ds.
Proof.
  induction ds as [|d ds IH]; intros r Hds Hr; [done|]. apply Forall_cons in Hds as [Hd Hds]. simpl.
  specialize (IH (r * 10 + (d - 48)) Hds). lia.
Qed.

Lemma value_from_snoc r ds d : value_from r (ds ++ [d]) = value_from r ds * 10 + (d - 48).
Proof. by rewrite /value_from fold_left_app. Qed.

(** ** Parsing is exact *)

(** A loop that accumulates the magnitude [r], as [sign r], up to [limit]. *)
Section Accumulate.
Context (loop : Z -> list Z -> option (option Z)) (sign : Z -> Z) (limit : Z).
Hypothesis loop_nil : forall r, loop (sign r) [] = Some (Some (sign r)).
Hypothesis loop_cons : forall r b bs, 0 <= r <= limit -> loop (sign r) (b :: bs) =
  if is_ascii_digit b then if r * 10 + (b - 48) <=? limit then loop (sign (r * 10 + (b - 48))) bs else Some None else Some None.

Lemma accumulate bs : forall r, 0 <= r <= limit -> exists o, loop (sign r) bs = Some o /\
  forall v, o = Some v <-> decimal bs /\ v = sign (value_from r bs) /\ value_from r bs <= limit.
Proof using loop_nil loop_cons.
  induction bs as [|b bs IH]; intros r Hr.
  - rewrite loop_nil. eexists. split; [done|]. intros v. split; [intros [= <-]; split_and!; [constructor|done|apply Hr]|by intros (_ & -> & _)].
  - rewrite loop_cons //. destruct (is_ascii_digit b) eqn:Hb.
    2: { eexists. split; [done|]. intros v. split; [done|]. intros ([Hd%is_ascii_digit_true _]%Forall_cons & _). congruence. }
    apply is_ascii_digit_true in Hb. destruct (Z.leb_spec (r * 10 + (b - 48)) limit) as [Hle|Hgt].
    + destruct (IH (r * 10 + (b - 48))) as (o & -> & Ho); [lia|]. exists o. split; [done|]. intros v. rewrite Ho. simpl. split; intros (H1 & H2 & H3); split_and!; try done.
      * by constructor.
      * by apply Forall_cons in H1 as [_ ?].
    + eexists. split; [done|]. intros v. split; [done|]. intros ([_ Hd]%Forall_cons & _ & H3). simpl in H3.
      pose proof (value_from_ge bs (r * 10 + (b - 48)) Hd). lia.
Qed.
End Accumulate.

Ltac decide_step := repeat first
  [ rewrite checked_s_in; [|rewrite /in_s; lia] | rewrite checked_u_in; [|rewrite /in_u; lia]
  | progress cbn [mbind option_bind negb] | case_bool_decide
  | match goal with |- context [?a <? ?b] => destruct (Z.ltb_spec a b) | |- context [?a <=? ?b] => destruct (Z.leb_spec a b) end ]; try done; try lia.

Lemma positive_step r b bs : 0 <= r <= i64_max -> parse_i64_loop false r (b :: bs) =
  if is_ascii_digit b then if r * 10 + (b - 48) <=? i64_max then parse_i64_loop false (r * 10 + (b - 48)) bs else Some None else Some None.
Proof.
  intros Hr. cbn [parse_i64_loop]. destruct (is_ascii_digit b) eqn:Hb; [|done]. apply is_ascii_digit_true in Hb.
  change (Z.quot i64_max 10) with 922337203685477580. rewrite /i64_max in Hr |- *. decide_step.
Qed.
Lemma negative_step r b bs : 0 <= r <= 2 ^ 63 -> parse_i64_loop true (- r) (b :: bs) =
  if is_ascii_digit b then if r * 10 + (b - 48) <=? 2 ^ 63 then parse_i64_loop true (- (r * 10 + (b - 48))) bs else Some None else Some None.
Proof.
  intros Hr. cbn [parse_i64_loop]. destruct (is_ascii_digit b) eqn:Hb; [|done]. apply is_ascii_digit_true in Hb.
  change (Z.quot i64_min 10) with (-922337203685477580). rewrite /i64_min in Hr |- *. decide_step. f_equal. lia.
Qed.
Lemma unsigned_step r b bs : 0 <= r <= u64_max -> parse_u64_loop r (b :: bs) =
  if is_ascii_digit b then if r * 10 + (b - 48) <=? u64_max then parse_u64_loop (r * 10 + (b - 48)) bs else Some None else Some None.
Proof.
  intros Hr. cbn [parse_u64_loop]. destruct (is_ascii_digit b) eqn:Hb; [|done]. apply is_ascii_digit_true in Hb.
  change (u64_max / 10) with 1844674407370955161. rewrite /u64_max in Hr |- *. decide_step.
Qed.

(** The texts of the signed and unsigned types, and what they denote. *)
Definition denotes (signed : bool) (bytes : list Z) (v : Z) : Prop := exists ds, ds <> [] /\ decimal ds /\
  (bytes = ds /\ v = value ds \/ signed = true /\ bytes = 45 :: ds /\ v = - value ds).

Lemma parse_i64_ok bytes : exists o, parse_i64_checked bytes = Some o /\ forall v, o = Some v <-> in_s 64 v /\ denotes true bytes v.
Proof.
  destruct bytes as [|b rest]; [exists None; split; [done|]; intros v; split; [done|]; intros (_ & ds & Hne & _ & [[? _]|(_ & ? & _)]); by simplify_eq|].
  cbn [parse_i64_checked]. destruct (Z.eqb_spec b 45) as [->|Hb].
  - assert (forall ds v, decimal ds -> 45 :: rest = ds -> v = value ds -> False) as Hno.
    { intros ds v Hd Heq _. subst ds. apply Forall_cons in Hd as [? _]. lia. }
    destruct rest as [|c rest].
    + exists None. split; [done|]. intros v. split; [done|]. intros (_ & ds & Hne & Hd & [[Heq Hv]|(_ & Heq & _)]); [by destruct (Hno ds v)|by simplify_eq].
    + destruct (accumulate (parse_i64_loop true) Z.opp (2 ^ 63)) with (bs := c :: rest) (r := 0) as (o & Ho & Hv); [done|intros; by apply negative_step|lia|].
      change (- 0) with 0 in Ho. exists o. split; [done|]. intros v. rewrite Hv. split.
      * intros (Hd & -> & Hle). pose proof (value_from_ge _ 0 Hd). split; [rewrite /in_s; lia|]. exists (c :: rest). split_and!; [done..|by right].
      * intros ([Hlo _] & ds & Hne & Hd & [[Heq Hval]|(_ & [= <-] & ->)]); [by destruct (Hno ds v)|]. split_and!; [done..|]. lia.
  - destruct (accumulate (parse_i64_loop false) id i64_max) with (bs := b :: rest) (r := 0) as (o & Ho & Hv); [done|intros; by apply positive_step|rewrite /i64_max; lia|].
    exists o. split; [done|]. intros v. rewrite Hv. rewrite /i64_max. split.
    + intros (Hd & -> & Hle). pose proof (value_from_ge _ 0 Hd). split; [rewrite /in_s /id; lia|]. exists (b :: rest). split_and!; [done..|by left].
    + intros ([_ Hhi] & ds & Hne & Hd & [[<- ->]|(_ & Heq & _)]); [|by simplify_eq]. split_and!; [done..|lia].
Qed.

Lemma parse_u64_ok bytes : exists o, parse_u64_checked bytes = Some o /\ forall v, o = Some v <-> in_u 64 v /\ denotes false bytes v.
Proof.
  destruct bytes as [|b rest]; [exists None; split; [done|]; intros v; split; [done|]; intros (_ & ds & Hne & _ & [[? _]|(? & _)]); by simplify_eq|].
  cbn [parse_u64_checked]. destruct (Z.eqb_spec b 45) as [->|Hb].
  - exists None. split; [done|]. intros v. split; [done|]. intros (_ & ds & Hne & Hd & [[<- _]|(? & _)]); [|done]. apply Forall_cons in Hd as [? _]. lia.
  - destruct (accumulate parse_u64_loop id u64_max) with (bs := b :: rest) (r := 0) as (o & Ho & Hv); [done|intros; by apply unsigned_step|rewrite /u64_max; lia|].
    exists o. split; [done|]. intros v. rewrite Hv. rewrite /u64_max. split.
    + intros (Hd & -> & Hle). pose proof (value_from_ge _ 0 Hd). split; [rewrite /in_u /id; lia|]. exists (b :: rest). split_and!; [done..|by left].
    + intros ([_ Hhi] & ds & Hne & Hd & [[<- ->]|(? & _)]); [|done]. split_and!; [done..|lia].
Qed.

Lemma parse_i32_ok bytes : exists o, parse_i32_checked bytes = Some o /\ forall v, o = Some v <-> in_s 32 v /\ denotes true bytes v.
Proof.
  destruct (parse_i64_ok bytes) as (o & Ho & Hv). rewrite /parse_i32_checked Ho. cbn [mbind option_bind]. destruct o as [w|].
  - destruct (proj1 (Hv w) eq_refl) as [Hw Hd]. destruct (Z.ltb_spec w (- 2 ^ 31)), (Z.ltb_spec (2 ^ 31 - 1) w); cbn [orb]; (eexists; split; [done|]); intros v; split; try done;
      try (intros [Hin Hden]; assert (Some w = Some v) as [= <-] by (apply Hv; split; [rewrite /in_s in Hin |- *; lia|done]); rewrite /in_s in Hin; lia).
    + intros [= <-]. rewrite wrap_s_small; [split; [rewrite /in_s; lia|done]|lia|rewrite /in_s; lia].
    + intros [Hin Hden]. assert (Some w = Some v) as [= <-] by (apply Hv; split; [rewrite /in_s in Hin |- *; lia|done]). rewrite wrap_s_small; [done|lia|done].
  - eexists. split; [done|]. intros v. split; [done|]. intros [Hin Hden]. apply Hv. split; [rewrite /in_s in Hin |- *; lia|done].
Qed.

Lemma parse_u32_ok bytes : exists o, parse_u32_checked bytes = Some o /\ forall v, o = Some v <-> in_u 32 v /\ denotes false bytes v.
Proof.
  destruct (parse_u64_ok bytes) as (o & Ho & Hv). rewrite /parse_u32_checked Ho. cbn [mbind option_bind]. destruct o as [w|].
  - destruct (proj1 (Hv w) eq_refl) as [Hw Hd]. rewrite /u32_max. destruct (Z.ltb_spec (2 ^ 32 - 1) w); (eexists; split; [done|]); intros v; split; try done.
    + intros [Hin Hden]. assert (Some w = Some v) as [= <-] by (apply Hv; split; [rewrite /in_u in Hin |- *; lia|done]). rewrite /in_u in Hin. lia.
    + intros [= <-]. rewrite wrap_u_small; [split; [rewrite /in_u in Hw |- *; lia|done]|rewrite /in_u in Hw |- *; lia].
    + intros [Hin Hden]. assert (Some w = Some v) as [= <-] by (apply Hv; split; [rewrite /in_u in Hin |- *; lia|done]). by rewrite wrap_u_small.
  - eexists. split; [done|]. intros v. split; [done|]. intros [Hin Hden]. apply Hv. split; [rewrite /in_u in Hin |- *; lia|done].
Qed.

(** ** Formatting is exact *)

Lemma push_front_ok buf i byte : (i < length buf)%nat -> exists buf', push_front (buf, S i) byte = Some (buf', i) /\ length buf' = length buf /\ drop i buf' = byte :: drop (S i) buf.
Proof.
  intros Hi. rewrite /push_front /=. destruct (lookup_lt_is_Some_2 buf i Hi) as [b Hb]. rewrite Hb. cbn [mbind option_bind]. eexists. split; [done|].
  rewrite length_insert. split; [done|]. rewrite (drop_S _ byte); [|by rewrite list_lookup_insert_eq]. f_equal. by rewrite drop_insert_lt; [|lia].
Qed.

Lemma digit_loop_ok k : forall fuel mag buf i, 0 <= mag < 10 ^ Z.of_nat k -> (k <= i <= length buf)%nat -> (k < fuel)%nat ->
  exists buf' i' ds, digit_loop fuel (buf, i) mag = Some (buf', i') /\ length buf' = length buf /\ (i - k <= i' <= i)%nat /\
    drop i' buf' = ds ++ drop i buf /\ decimal ds /\ value ds = mag /\ (mag = 0 -> ds = []) /\ (0 < mag -> ds <> [] /\ head ds <> Some 48).
Proof.
  induction k as [|k IH]; intros fuel mag buf i Hmag Hi Hf; (destruct fuel as [|fuel]; [lia|]); cbn [digit_loop].
  - assert (mag = 0) as -> by (change (10 ^ Z.of_nat 0) with 1 in Hmag; lia). exists buf, i, []. split_and!; try done; try (intros; lia); constructor.
  - destruct (Z.ltb_spec 0 mag) as [Hpos|]; [|assert (mag = 0) as -> by lia; exists buf, i, []; split_and!; try done; try (intros; lia); constructor].
    rewrite Nat2Z.inj_succ Z.pow_succ_r in Hmag; [|lia]. pose proof (Z.div_mod mag 10 ltac:(lia)) as Hdm. pose proof (Z.mod_pos_bound mag 10 ltac:(lia)) as Hm.
    rewrite wrap_u_small; [|rewrite /in_u; lia]. rewrite checked_u_in; [|rewrite /in_u; lia]. cbn [mbind option_bind].
    destruct i as [|i]; [lia|]. destruct (push_front_ok buf i (48 + mag mod 10)) as (buf1 & -> & Hl1 & Hd1); [lia|]. cbn [mbind option_bind].
    destruct (IH fuel (mag / 10) buf1 i) as (buf' & i' & ds & -> & Hl & Hi' & Hd & Hdec & Hval & H0 & H1); [lia|lia|lia|].
    exists buf', i', (ds ++ [48 + mag mod 10]). split_and!; [done|congruence|lia|lia|by rewrite Hd Hd1 -app_assoc| | |lia|].
    + apply Forall_app. split; [done|]. repeat constructor; lia.
    + rewrite value_from_snoc Hval. lia.
    + intros _. split; [by destruct ds|]. destruct ds as [|d ds]; [|by apply H1; destruct (decide (0 < mag / 10)); [|assert (d :: ds = []) by (apply H0; lia)]].
      simpl in Hval |- *. intros [= He]. lia.
Qed.

(** The decimal text of a number: no sign but for a negative one, no leading
    zero but for zero itself. *)
Definition decimal_text (n : Z) (t : list Z) : Prop := exists ds, ds <> [] /\ decimal ds /\ value ds = Z.abs n /\ (head ds = Some 48 -> ds = [48]) /\
  t = if n <? 0 then 45 :: ds else ds.

Lemma format_magnitude_ok mag k : 0 <= mag < 10 ^ Z.of_nat k -> (1 <= k <= 20)%nat -> exists buf i ds, format_magnitude mag = Some (buf, i) /\ length buf = 20%nat /\
  (20 - k <= i <= 20)%nat /\ drop i buf = ds /\ ds <> [] /\ decimal ds /\ value ds = mag /\ (head ds = Some 48 -> ds = [48]).
Proof.
  intros Hm Hk. rewrite /format_magnitude. destruct (Z.eqb_spec mag 0) as [->|Hne].
  - eexists _, _, [48]. split; [reflexivity|]. split_and!; try done; [lia|lia|]. repeat constructor; lia.
  - destruct (digit_loop_ok k 21 mag (replicate 20 0) 20) as (buf & i & ds & -> & Hl & Hi & Hd & Hdec & Hval & _ & H1); [done|rewrite length_replicate; lia|lia|].
    destruct (H1 ltac:(lia)) as [Hne' Hh]. exists buf, i, ds. change (length buf = 20%nat) in Hl. change (drop i buf = ds ++ []) in Hd. rewrite app_nil_r in Hd.
    split_and!; try done; lia.
Qed.

Lemma format_signed_ok n : in_s 64 n -> exists buf i, format_signed n = Some (buf, i) /\ decimal_text n (drop i buf) /\ (i <= 20)%nat /\ length buf = 20%nat.
Proof.
  intros Hn. rewrite /format_signed. assert ((if n <? 0 then wrap_u 64 (- wrap_u 64 n) else wrap_u 64 n) = Z.abs n) as Hmag.
  { rewrite /in_s in Hn. rewrite /wrap_u. destruct (Z.ltb_spec n 0); [|rewrite Z.mod_small; lia]. rewrite Z.mod_opp_l_nz.
    - rewrite Z.mod_mod; [|lia]. rewrite -(Z.mod_unique n (2 ^ 64) (-1) (n + 2 ^ 64)); lia.
    - lia.
    - rewrite Z.mod_mod; [|lia]. rewrite -(Z.mod_unique n (2 ^ 64) (-1) (n + 2 ^ 64)); lia. }
  rewrite Hmag. destruct (format_magnitude_ok (Z.abs n) 19) as (buf & i & ds & -> & Hl & Hi & Hd & Hne & Hdec & Hval & Hh); [rewrite /in_s in Hn; lia|lia|].
  cbn [mbind option_bind]. destruct (Z.ltb_spec n 0) as [Hneg|Hpos].
  - destruct i as [|i]; [lia|]. destruct (push_front_ok buf i 45) as (buf' & -> & Hl' & Hd'); [lia|]. exists buf', i. split_and!; [done| |lia|congruence].
    exists ds. rewrite Hd' Hd. rewrite (proj2 (Z.ltb_lt n 0)); [|done]. done.
  - exists buf, i. split_and!; [done| |lia|done]. exists ds. rewrite Hd. rewrite (proj2 (Z.ltb_ge n 0)); [|done]. done.
Qed.

Lemma decimal_text_denotes n t : decimal_text n t -> denotes true t n.
Proof.
  intros (ds & Hne & Hd & Hv & _ & ->). exists ds. split_and!; [done..|]. destruct (Z.ltb_spec n 0); [right|left]; (split_and!; [done..|]); lia.
Qed.

(** ** Results on the heap *)

Section Publish.
Context {PM : PageMapper} {ML : @MapperLaws PM} (debug : bool).
Notation holds := (holds debug).

(** A result the caller owns: a fresh block that holds [bytes]; or a trap, with
    nothing allocated. *)
Definition published (lv : Held) (st' : St) (bytes : list Z) (r : exit StrBufResult) : Prop :=
  match r with
  | Traps t => t = OutOfMemory /\ holds lv st'
  | Returns b => lv !! ptr b = None /\ holds (<[ptr b := (cap b, 1)]> lv) st' /\
      len b = Z.of_nat (length bytes) /\ len b <= cap b /\ STRING_MIN_CAPACITY <= cap b /\ bytes_at (mem st') (ptr b) (len b) = bytes
  end.

Lemma publish_ok lv st bytes : holds lv st -> Z.of_nat (length bytes) < 2 ^ 64 ->
  exists r st', publish debug bytes st = Some (r, st') /\ kept lv st st' /\ published lv st' bytes r.
Proof.
  intros Hh Hlen. rewrite /publish. set (cap := if _ <? STRING_MIN_CAPACITY then _ else _).
  assert (Z.of_nat (length bytes) <= cap /\ STRING_MIN_CAPACITY <= cap /\ in_u 64 cap) as (Hc1 & Hc2 & Hc3).
  { rewrite /cap /in_u /STRING_MIN_CAPACITY. destruct (Z.ltb_spec (Z.of_nat (length bytes)) 16); lia. }
  destruct (alloc_ok debug lv st cap 1 Hh Hc3) as (r & st1 & Hrun & Hk & H0 & Hn); [by split|]. rewrite (bind_run _ _ _ _ _ Hrun). cbn beta.
  destruct (Z.eqb_spec r 0) as [Hz|Hne]; [exists allocation_failure, st1; split; [done|split; [done|split; [done|by apply H0]]]|]. destruct (Hn Hne) as [Hnew Hh1].
  assert (<[r := (cap, 1)]> lv !! r = Some (cap, 1)) as Hl by apply lookup_insert_eq.
  destruct (copy_in_ok debug _ st1 r cap 1 r bytes Hh1 Hl) as (Hc & Hh2 & Hk2); [lia|lia|]. rewrite (bind_run _ _ _ _ _ Hc).
  eexists _, _. split; [done|]. split.
  - eapply kept_trans; [exact Hk|]. eapply kept_sub; [|exact Hk2]. by rewrite delete_insert_id.
  - simpl. split_and!; [done..|]. apply put_at.
Qed.

(** The text in a published buffer, as the parsers see it. *)
Lemma published_slice lv st' bytes b : published lv st' bytes (Returns b) -> slice_of (backed_by st') (mem st') (ptr b) (len b) = Some bytes.
Proof.
  intros (_ & Hh & Hlen & Hcap & _ & Hb). rewrite /slice_of. destruct (Z.eqb_spec (len b) 0) as [Hz|Hz].
  - rewrite Hz in Hlen. by destruct bytes.
  - rewrite Hb. rewrite (proj2 (span_valid_true (backed_by st') (ptr b) (len b))); [done|]. intros i Hi.
    apply (held_mapped debug _ st' (ptr b) (cap b) 1 _ _ Hh); [apply lookup_insert_eq|lia..].
Qed.

Lemma parse_published lv st' bytes b parse v sd nd : published lv st' bytes (Returns b) -> parse bytes = Some (Some v) ->
  parse_with parse (backed_by st') (mem st') (ptr b) (len b) sd nd = Some (mkOptionInt sd (wrap_u 64 v)).
Proof. intros Hp Hv. rewrite /parse_with (published_slice lv st' bytes b Hp). cbn [mbind option_bind]. by rewrite Hv. Qed.

Lemma to_string_ok lv st n : holds lv st -> in_s 64 n -> exists r st' t, __rue_to_string debug n st = Some (r, st') /\ kept lv st st' /\ decimal_text n t /\ published lv st' t r.
Proof.
  intros Hh Hn. destruct (format_signed_ok n Hn) as (buf & i & Hf & Ht & Hi & Hl). rewrite /__rue_to_string Hf.
  destruct (publish_ok lv st (drop i buf) Hh) as (r & st' & Hrun & Hk & Hp); [rewrite length_drop; lia|]. by exists r, st', (drop i buf).
Qed.
Lemma to_string_unsigned_ok lv st n : holds lv st -> in_u 64 n -> exists r st' t, __rue_to_string_unsigned debug n st = Some (r, st') /\ kept lv st st' /\ decimal_text n t /\ published lv st' t r.
Proof.
  intros Hh Hn. rewrite /in_u in Hn. destruct (format_magnitude_ok n 20) as (buf & i & ds & Hf & Hl & Hi & Hd & Hne & Hdec & Hval & Hhd); [lia|lia|]. rewrite /__rue_to_string_unsigned Hf.
  destruct (publish_ok lv st (drop i buf) Hh) as (r & st' & Hrun & Hk & Hp); [rewrite length_drop; lia|]. exists r, st', (drop i buf). split_and!; [done..| |done].
  exists ds. rewrite Hd Z.abs_eq; [|lia]. rewrite (proj2 (Z.ltb_ge n 0)); [|lia]. done.
Qed.
End Publish.

(** ** Properties *)

(** C23. Each parser accepts exactly the decimal texts of its type's values,
    with a minus sign only for the signed types, and returns the value; every
    other text, empty or out of range or with any other character, is refused,
    and no arithmetic overflows on the way. *)
Theorem parse_exact (bytes : list Z) :
  (exists r, parse_i64_checked bytes = Some r /\ forall v, r = Some v <-> in_s 64 v /\ denotes true bytes v) /\
  (exists r, parse_i32_checked bytes = Some r /\ forall v, r = Some v <-> in_s 32 v /\ denotes true bytes v) /\
  (exists r, parse_u64_checked bytes = Some r /\ forall v, r = Some v <-> in_u 64 v /\ denotes false bytes v) /\
  (exists r, parse_u32_checked bytes = Some r /\ forall v, r = Some v <-> in_u 32 v /\ denotes false bytes v).
Proof. split_and!; [apply parse_i64_ok|apply parse_i32_ok|apply parse_u64_ok|apply parse_u32_ok]. Qed.

(** C22. Formatting an integer, on any heap a client can hold, ends with the
    trap for exhausted memory and nothing allocated, or with a fresh block of
    at least sixteen bytes that holds the integer's shortest decimal text; every
    block held before keeps its bytes.  Parsing that text from the block gives
    the integer back, over the whole range of [i64] and of [u64]. *)
Theorem to_string_roundtrip {PM : PageMapper} {ML : @MapperLaws PM} (debug : bool) (lv : Held) (st : St) (n sd nd : Z) : holds debug lv st ->
  (in_s 64 n -> exists r st' t, __rue_to_string debug n st = Some (r, st') /\ kept lv st st' /\ decimal_text n t /\ published debug lv st' t r /\
    forall b, r = Returns b -> __rue_parse_i64 (backed_by st') (mem st') (ptr b) (len b) sd nd = Some (mkOptionInt sd (wrap_u 64 n))) /\
  (in_u 64 n -> exists r st' t, __rue_to_string_unsigned debug n st = Some (r, st') /\ kept lv st st' /\ decimal_text n t /\ published debug lv st' t r /\
    forall b, r = Returns b -> __rue_parse_u64 (backed_by st') (mem st') (ptr b) (len b) sd nd = Some (mkOptionInt sd n)).
Proof.
  intros Hh. split; intros Hn.
  - destruct (to_string_ok debug lv st n Hh Hn) as (r & st' & t & Hrun & Hk & Ht & Hp). exists r, st', t. split_and!; [done..|]. intros b ->.
    apply (parse_published debug lv st' t); [done|]. destruct (parse_i64_ok t) as (o & -> & Ho). f_equal. apply Ho. split; [done|by apply decimal_text_denotes].
  - destruct (to_string_unsigned_ok debug lv st n Hh Hn) as (r & st' & t & Hrun & Hk & Ht & Hp). exists r, st', t. split_and!; [done..|]. intros b ->.
    rewrite -{1}(wrap_u_small 64 n Hn). apply (parse_published debug lv st' t); [done|]. destruct (parse_u64_ok t) as (o & -> & Ho). f_equal. apply Ho. split; [done|].
    destruct Ht as (ds & Hne & Hd & Hv & _ & ->). exists ds. rewrite /in_u in Hn. rewrite (proj2 (Z.ltb_ge n 0)); [|lia]. split_and!; [done..|]. left. split; [done|lia].
Qed.

Import Bump.
#[local] Existing Instances BumpMapper BumpLaws.

Lemma to_string_roundtrip_witness : exists b st', __rue_to_string true (-2 ^ 63) start = Some (Returns b, st') /\ len b = 20 /\ ptr b <> 0 /\
  __rue_parse_i64 (backed_by st') (mem st') (ptr b) (len b) 1 0 = Some (mkOptionInt 1 (2 ^ 63)).
Proof.
  destruct (to_string_roundtrip true ∅ start (-2 ^ 63) 1 0 (reachable_holds true ∅ start (start_reachable true))) as [Hs _].
  destruct (Hs ltac:(by vm_compute)) as (r & st' & t & Hrun & _ & _ & _ & Hp).
  assert ((fun x => match x.1 with Returns b => Some (len b, ptr b =? 0) | Traps _ => None end) <$> __rue_to_string true (-2 ^ 63) start = Some (Some (20, false))) as Hv by (vm_compute; reflexivity).
  rewrite Hrun in Hv. destruct r as [b|]; [|discriminate Hv]. injection Hv as Hl Hz. exists b, st'. split; [exact Hrun|]. split; [exact Hl|]. split; [by apply Z.eqb_neq|]. by apply Hp.
Defined.
