(* ===== verification/RtUtf8.v ===== *)
(** * UTF-8

    [crates/rue-runtime/src/utf8.rs], and the strict and the lossy decoder of
    [string.rs] that back the two character iterations over a [str].  [None] is
    a read of memory that is not backed, or arithmetic overflow. *)

From S2P Require Import Prelude Allocator AllocatorInv RtMemory RtHeap.
Import Machine.
Local Open Scope Z_scope.

(** ** The table *)

Record Utf8Lead := mkLead { width : Z; first_continuation_min : Z; first_continuation_max : Z; scalar_prefix : Z }.

Definition lead_row (byte : Z) : option (Z * Z * Z) :=
  let within lo hi := (lo <=? byte) && (byte <=? hi) in
  if within 0xC2 0xDF then Some (2, 0x80, 0xBF)
  else if within 0xE0 0xE0 then Some (3, 0xA0, 0xBF)
  else if within 0xE1 0xEC then Some (3, 0x80, 0xBF)
  else if within 0xED 0xED then Some (3, 0x80, 0x9F)
  else if within 0xEE 0xEF then Some (3, 0x80, 0xBF)
  else if within 0xF0 0xF0 then Some (4, 0x90, 0xBF)
  else if within 0xF1 0xF3 then Some (4, 0x80, 0xBF)
  else if within 0xF4 0xF4 then Some (4, 0x80, 0x8F)
  else None.
Definition lead (byte : Z) : option Utf8Lead :=
  '(width, min, max) ← lead_row byte; Some (mkLead width min max (Z.land byte (Z.shiftr 0x7F width))).
Definition accepts_first_continuation (l : Utf8Lead) (byte : Z) : bool := (first_continuation_min l <=? byte) && (byte <=? first_continuation_max l).
Definition is_continuation (byte : Z) : bool := Z.land byte 0xC0 =? 0x80.

(** ** Decoding *)

(** [(cp << 6) | ((b as u32) & 0x3F)]. *)
Definition shift_in (cp b : Z) : Z := Z.lor (wrap_u 32 (Z.shiftl cp 6)) (Z.land b 0x3F).

Section Code.
Context (valid : Z -> bool) (m : Memory).

Fixpoint decode_rest (fuel : nat) (p : Z) (l : Utf8Lead) (k cp : Z) : option (exit (Z * Z)) :=
  match fuel with
  | O => None
  | S fuel =>
      if k <? width l then
        b ← read_byte valid m (p + k);
        if negb (is_continuation b) then Some __rue_invalid_utf8 else decode_rest fuel p l (k + 1) (shift_in cp b)
      else Some (Returns (cp, width l))
  end.
Definition __rue_decode_utf8_at (ptr len offset : Z) : option (exit (Z * Z)) :=
  let i := offset in
  if len <=? i then Some __rue_invalid_utf8 else
  b0 ← read_byte valid m (ptr + i);
  if b0 <? 0x80 then Some (Returns (b0, 1)) else
  match lead b0 with
  | None => Some __rue_invalid_utf8
  | Some l =>
      if len <? i + width l then Some __rue_invalid_utf8 else
      b1 ← read_byte valid m (ptr + (i + 1));
      if negb (accepts_first_continuation l b1) then Some __rue_invalid_utf8 else
      decode_rest 4 (ptr + i) l 2 (shift_in (scalar_prefix l) b1)
  end.
Definition __rue_str_char_scalar (ptr len offset : Z) : option (exit Z) :=
  r ← __rue_decode_utf8_at ptr len offset;
  match r with Returns (scalar, _) => Some (Returns scalar) | Traps t => Some (Traps t) end.
Definition __rue_str_char_next (ptr len offset : Z) : option (exit Z) :=
  r ← __rue_decode_utf8_at ptr len offset;
  match r with Returns (_, width) => next ← checked_u 64 (offset + width); Some (Returns next) | Traps t => Some (Traps t) end.

Definition FFFD : Z := 0xFFFD.
Fixpoint decode_rest_lossy (fuel : nat) (ptr len i : Z) (l : Utf8Lead) (consumed cp : Z) : option (Z * Z) :=
  match fuel with
  | O => None
  | S fuel =>
      if consumed <? width l then
        if len <=? i + consumed then Some (FFFD, consumed) else
        b ← read_byte valid m (ptr + (i + consumed));
        if negb (is_continuation b) then Some (FFFD, consumed) else decode_rest_lossy fuel ptr len i l (consumed + 1) (shift_in cp b)
      else Some (cp, width l)
  end.
Definition __rue_decode_utf8_lossy_at (ptr len offset : Z) : option (Z * Z) :=
  let i := offset in
  if len <=? i then Some (FFFD, 1) else
  b0 ← read_byte valid m (ptr + i);
  if b0 <? 0x80 then Some (b0, 1) else
  match lead b0 with
  | None => Some (FFFD, 1)
  | Some l =>
      if len <=? i + 1 then Some (FFFD, 1) else
      b1 ← read_byte valid m (ptr + (i + 1));
      if negb (accepts_first_continuation l b1) then Some (FFFD, 1) else
      decode_rest_lossy 4 ptr len i l 2 (shift_in (scalar_prefix l) b1)
  end.
Definition __rue_str_char_scalar_lossy (ptr len offset : Z) : option Z := r ← __rue_decode_utf8_lossy_at ptr len offset; Some r.1.
Definition __rue_str_char_next_lossy (ptr len offset : Z) : option Z := r ← __rue_decode_utf8_lossy_at ptr len offset; checked_u 64 (offset + r.2).

Definition __rue_str_byte_at (ptr len index : Z) : option (exit Z) :=
  if len <=? index then Some __rue_bounds_check else b ← read_byte valid m (ptr + index); Some (Returns b).
End Code.

(** ** UTF-8, by the standard's arithmetic *)

Definition scalar (c : Z) : Prop := 0 <= c < 0xD800 \/ 0xE000 <= c <= 0x10FFFF.
Definition encode (c : Z) : list Z :=
  if c <? 0x80 then [c]
  else if c <? 0x800 then [0xC0 + c / 64; 0x80 + c mod 64]
  else if c <? 0x10000 then [0xE0 + c / 4096; 0x80 + (c / 64) mod 64; 0x80 + c mod 64]
  else [0xF0 + c / 262144; 0x80 + (c / 4096) mod 64; 0x80 + (c / 64) mod 64; 0x80 + c mod 64].

(** Checking every byte. *)
Lemma for_bytes (P : Z -> bool) : forallb (fun i => P (Z.of_nat i)) (seq 0 256) = true -> forall b, 0 <= b < 256 -> P b = true.
Proof. intros H b Hb. rewrite forallb_forall in H. rewrite -(Z2Nat.id b); [|lia]. apply H, in_seq. lia. Qed.

Definition lead_arith (b : Z) : option (Z * Z * Z * Z) :=
  if b <? 0xC2 then None else if b <=? 0xDF then Some (2, 0x80, 0xBF, b - 0xC0)
  else if b <=? 0xEF then Some (3, if b =? 0xE0 then 0xA0 else 0x80, if b =? 0xED then 0x9F else 0xBF, b - 0xE0)
  else if b <=? 0xF4 then Some (4, if b =? 0xF0 then 0x90 else 0x80, if b =? 0xF4 then 0x8F else 0xBF, b - 0xF0) else None.
Lemma lead_exact b : 0 <= b < 256 -> (fun l => (width l, first_continuation_min l, first_continuation_max l, scalar_prefix l)) <$> lead b = lead_arith b.
Proof.
  intros Hb. apply (bool_decide_eq_true _). revert b Hb. apply for_bytes. vm_compute. reflexivity.
Qed.

Lemma continuation_exact b : 0 <= b < 256 -> is_continuation b = (0x80 <=? b) && (b <=? 0xBF).
Proof. intros Hb. apply (bool_decide_eq_true _). revert b Hb. apply for_bytes. vm_compute. reflexivity. Qed.

Lemma shift_in_exact cp b : 0 <= cp < 2 ^ 20 -> 0x80 <= b <= 0xBF -> shift_in cp b = cp * 64 + (b - 0x80).
Proof.
  intros Hcp Hb. rewrite /shift_in Z.shiftl_mul_pow2; [|lia]. rewrite wrap_u_small; [|rewrite /in_u; lia].
  change 0x3F with (Z.ones 6). rewrite Z.land_ones; [|lia]. change (2 ^ 6) with 64. replace (b mod 64) with (b - 0x80) by (apply (Z.mod_unique b 64 2); lia).
  rewrite -Z.add_nocarry_lor; [done|]. apply Z.bits_inj'. intros k Hk. rewrite Z.land_spec Z.bits_0. destruct (Z.lt_ge_cases k 6).
  - change 64 with (2 ^ 6). by rewrite Z.mul_pow2_bits_low.
  - rewrite (Z.bits_above_log2 (b - 0x80)); [by rewrite andb_false_r|lia|]. destruct (Z.eq_dec (b - 0x80) 0) as [->|]; [change (Z.log2 0) with 0; lia|].
    apply Z.lt_le_trans with 6; [apply Z.log2_lt_pow2; lia|done].
Qed.

(** ** Well-formed sequences are the encodings *)

Definition fold_rest (cp : Z) (rest : list Z) : Z := fold_left (fun acc b => acc * 64 + (b - 0x80)) rest cp.
Definition continuation (b : Z) : Prop := 0x80 <= b <= 0xBF.
Inductive sequence : list Z -> Z -> Prop :=
| seq_ascii b : 0 <= b < 0x80 -> sequence [b] b
| seq_multi b0 l b1 tl : 0 <= b0 < 256 -> lead b0 = Some l -> accepts_first_continuation l b1 = true -> Z.of_nat (length tl) + 2 = width l -> Forall continuation tl ->
    sequence (b0 :: b1 :: tl) (fold_rest (scalar_prefix l) (b1 :: tl)).

(** What a row of the table says. *)
Lemma lead_facts b l : 0 <= b < 256 -> lead b = Some l ->
  let '(w, lo, hi, s) := (width l, first_continuation_min l, first_continuation_max l, scalar_prefix l) in
  w = 2 /\ 0xC2 <= b <= 0xDF /\ lo = 0x80 /\ hi = 0xBF /\ s = b - 0xC0 \/
  w = 3 /\ 0xE0 <= b <= 0xEF /\ lo = (if b =? 0xE0 then 0xA0 else 0x80) /\ hi = (if b =? 0xED then 0x9F else 0xBF) /\ s = b - 0xE0 \/
  w = 4 /\ 0xF0 <= b <= 0xF4 /\ lo = (if b =? 0xF0 then 0x90 else 0x80) /\ hi = (if b =? 0xF4 then 0x8F else 0xBF) /\ s = b - 0xF0.
Proof.
  intros Hb Hl. pose proof (lead_exact b Hb) as H. rewrite Hl /lead_arith /= in H.
  destruct (Z.ltb_spec b 0xC2); [done|]. destruct (Z.leb_spec b 0xDF); [injection H as -> -> -> ->; left; split_and!; lia|].
  destruct (Z.leb_spec b 0xEF); [injection H as -> -> -> ->; right; left; split_and!; done || lia|].
  destruct (Z.leb_spec b 0xF4); [injection H as -> -> -> ->; right; right; split_and!; done || lia|done].
Qed.
Lemma lead_some b : 0xC2 <= b <= 0xF4 -> exists l, lead b = Some l.
Proof.
  intros Hb. pose proof (lead_exact b ltac:(lia)) as H. destruct (lead b) as [l|]; [by exists l|]. rewrite /lead_arith /= in H.
  destruct (Z.ltb_spec b 0xC2); [lia|]. destruct (Z.leb_spec b 0xDF); [done|]. destruct (Z.leb_spec b 0xEF); [done|]. by destruct (Z.leb_spec b 0xF4); [|lia].
Qed.

Ltac split_ifs := repeat match goal with
  | |- context [if ?a =? ?b then _ else _] => destruct (Z.eqb_spec a b)
  | H : context [if ?a =? ?b then _ else _] |- _ => destruct (Z.eqb_spec a b)
  | |- context [if ?a <? ?b then _ else _] => destruct (Z.ltb_spec a b); try lia
  end.
Ltac bytes_lia := repeat match goal with |- _ :: _ = _ :: _ => f_equal end; try done; Z.to_euclidean_division_equations; lia.

Lemma sequence_sound bs c : sequence bs c -> scalar c /\ bs = encode c.
Proof.
  destruct 1 as [b Hb|b0 l b1 tl Hb0 Hl Hb1 Hlen Hc].
  - rewrite /scalar /encode. split_ifs. split; [lia|done].
  - rewrite /accepts_first_continuation andb_true_iff !Z.leb_le in Hb1. apply lead_facts in Hl; [|done].
    destruct Hl as [(Hw & Hb & Hlo & Hhi & ->)|[(Hw & Hb & Hlo & Hhi & ->)|(Hw & Hb & Hlo & Hhi & ->)]]; rewrite Hlo Hhi in Hb1; rewrite Hw in Hlen;
      (destruct tl as [|b2 [|b3 [|? ?]]]; cbn [length] in Hlen; try lia); cbn [fold_rest fold_left]; rewrite /scalar /encode.
    + split; [lia|]. split_ifs. bytes_lia.
    + apply Forall_cons in Hc as [Hc2 _]. rewrite /continuation in Hc2. split; [split_ifs; lia|]. split_ifs; bytes_lia.
    + apply Forall_cons in Hc as [Hc2 [Hc3 _]%Forall_cons]. rewrite /continuation in Hc2 Hc3. split; [split_ifs; lia|]. split_ifs; bytes_lia.
Qed.

Lemma sequence_complete c : scalar c -> sequence (encode c) c.
Proof.
  intros Hc. rewrite /scalar in Hc. rewrite /encode. destruct (Z.ltb_spec c 0x80); [constructor; lia|]. destruct (Z.ltb_spec c 0x800).
  - set (b0 := 0xC0 + c / 64). set (b1 := 0x80 + c mod 64). assert (0xC2 <= b0 <= 0xDF /\ 0x80 <= b1 <= 0xBF /\ c = (b0 - 0xC0) * 64 + (b1 - 0x80)) as (K0 & K1 & Heq) by (subst b0 b1; Z.to_euclidean_division_equations; lia).
    clearbody b0 b1. destruct (lead_some b0) as [l Hl]; [lia|]. pose proof (lead_facts b0 l ltac:(lia) Hl) as [(Hw & Hb & Hlo & Hhi & Hs)|[(? & ? & _)|(? & ? & _)]]; [|lia..].
    assert (c = fold_rest (scalar_prefix l) [b1]) as Hf by (rewrite Hs; exact Heq). rewrite Hf.
    constructor; [lia|done| |by rewrite Hw|constructor]. rewrite /accepts_first_continuation andb_true_iff !Z.leb_le Hlo Hhi. lia.
  - destruct (Z.ltb_spec c 0x10000).
    + set (b0 := 0xE0 + c / 4096). set (b1 := 0x80 + (c / 64) mod 64). set (b2 := 0x80 + c mod 64).
      assert (0xE0 <= b0 <= 0xEF /\ continuation b1 /\ continuation b2 /\ c = ((b0 - 0xE0) * 64 + (b1 - 0x80)) * 64 + (b2 - 0x80)) as (K0 & K1 & K2 & Heq)
        by (subst b0 b1 b2; rewrite /continuation; Z.to_euclidean_division_equations; lia).
      clearbody b0 b1 b2. destruct (lead_some b0) as [l Hl]; [lia|]. pose proof (lead_facts b0 l ltac:(lia) Hl) as [(? & ? & _)|[(Hw & Hb & Hlo & Hhi & Hs)|(? & ? & _)]]; [lia| |lia].
      assert (c = fold_rest (scalar_prefix l) [b1; b2]) as Hf by (rewrite Hs; exact Heq). rewrite Hf. rewrite /continuation in K1 K2.
      constructor; [lia|done| |by rewrite Hw|constructor; [exact K2|constructor]]. rewrite /accepts_first_continuation andb_true_iff !Z.leb_le Hlo Hhi. split_ifs; lia.
    + set (b0 := 0xF0 + c / 262144). set (b1 := 0x80 + (c / 4096) mod 64). set (b2 := 0x80 + (c / 64) mod 64). set (b3 := 0x80 + c mod 64).
      assert (0xF0 <= b0 <= 0xF4 /\ continuation b1 /\ continuation b2 /\ continuation b3 /\ c = (((b0 - 0xF0) * 64 + (b1 - 0x80)) * 64 + (b2 - 0x80)) * 64 + (b3 - 0x80)) as (K0 & K1 & K2 & K3 & Heq)
        by (subst b0 b1 b2 b3; rewrite /continuation; Z.to_euclidean_division_equations; lia).
      clearbody b0 b1 b2 b3. destruct (lead_some b0) as [l Hl]; [lia|]. pose proof (lead_facts b0 l ltac:(lia) Hl) as [(? & ? & _)|[(? & ? & _)|(Hw & Hb & Hlo & Hhi & Hs)]]; [lia|lia|].
      assert (c = fold_rest (scalar_prefix l) [b1; b2; b3]) as Hf by (rewrite Hs; exact Heq). rewrite Hf. rewrite /continuation in K1 K2 K3.
      constructor; [lia|done| |by rewrite Hw|constructor; [exact K2|constructor; [exact K3|constructor]]]. rewrite /accepts_first_continuation andb_true_iff !Z.leb_le Hlo Hhi. split_ifs; lia.
Qed.

(** ** Texts in memory *)

Lemma bytes_at_cons m a n : 0 < n -> bytes_at m a n = m a :: bytes_at m (a + 1) (n - 1).
Proof.
  intros Hn. replace n with (1 + (n - 1)) at 1 by lia. rewrite bytes_at_app; [|lia|lia]. by rewrite {1}/bytes_at /= Z.add_0_r.
Qed.
Lemma bytes_at_snoc m a n : 0 <= n -> bytes_at m a (n + 1) = bytes_at m a n ++ [m (a + n)].
Proof. intros Hn. rewrite bytes_at_app; [|lia|lia]. f_equal. by rewrite /bytes_at /= Z.add_0_r. Qed.
Lemma bytes_at_nil m a n : n <= 0 -> bytes_at m a n = [].
Proof. intros Hn. rewrite /bytes_at. by replace (Z.to_nat n) with 0%nat by lia. Qed.

Lemma fold_rest_snoc cp l b : fold_rest cp (l ++ [b]) = fold_rest cp l * 64 + (b - 0x80).
Proof. by rewrite /fold_rest fold_left_app. Qed.

(** A sequence at [p], from its first two bytes on. *)
Lemma sequence_at m p w c : bytes_ok m -> sequence (bytes_at m p w) c <->
  w = 1 /\ m p < 0x80 /\ c = m p \/
  exists l, lead (m p) = Some l /\ w = width l /\ accepts_first_continuation l (m (p + 1)) = true /\
    Forall continuation (bytes_at m (p + 2) (w - 2)) /\ c = fold_rest (shift_in (scalar_prefix l) (m (p + 1))) (bytes_at m (p + 2) (w - 2)).
Proof.
  intros Hm. assert (forall l, lead (m p) = Some l -> accepts_first_continuation l (m (p + 1)) = true -> shift_in (scalar_prefix l) (m (p + 1)) = scalar_prefix l * 64 + (m (p + 1) - 0x80) /\ 2 <= width l) as Hs.
  { intros l Hl Ha. rewrite /accepts_first_continuation andb_true_iff !Z.leb_le in Ha. apply lead_facts in Hl; [|apply Hm].
    destruct Hl as [(Hw & Hb & Hlo & Hhi & Hp)|[(Hw & Hb & Hlo & Hhi & Hp)|(Hw & Hb & Hlo & Hhi & Hp)]]; rewrite Hlo Hhi in Ha; (split; [|lia]); (apply shift_in_exact; [lia|split_ifs; lia]). }
  split.
  - intros Hq. destruct (Z.leb_spec w 0); [rewrite bytes_at_nil in Hq; [inversion Hq|done]|]. rewrite bytes_at_cons in Hq; [|done].
    destruct (Z.eq_dec w 1) as [->|Hw1].
    + rewrite (bytes_at_nil _ _ (1 - 1)) in Hq; [|lia]. left. inversion Hq; subst. split_and!; [done|lia|done].
    + right. rewrite bytes_at_cons in Hq; [|lia]. rewrite -Z.add_assoc in Hq. replace (w - 1 - 1) with (w - 2) in Hq by lia. change (1 + 1) with 2 in Hq.
      inversion Hq as [|b0 l b1 tl Hb0 Hl Ha Hlen Hc]; subst. exists l. destruct (Hs l Hl Ha) as [-> Hw]. rewrite bytes_at_length in Hlen. split_and!; [done|lia|done..].
  - intros [(-> & Hb & ->)|(l & Hl & -> & Ha & Hc & ->)].
    + rewrite bytes_at_cons; [|lia]. rewrite bytes_at_nil; [|lia]. constructor. specialize (Hm p). lia.
    + destruct (Hs l Hl Ha) as [-> Hw]. rewrite bytes_at_cons; [|lia]. rewrite bytes_at_cons; [|lia]. rewrite -Z.add_assoc. replace (width l - 1 - 1) with (width l - 2) by lia.
      change (1 + 1) with 2. change (sequence (m p :: m (p + 1) :: bytes_at m (p + 2) (width l - 2)) (fold_rest (scalar_prefix l) (m (p + 1) :: bytes_at m (p + 2) (width l - 2)))).
      constructor; [apply Hm|done|done|rewrite bytes_at_length; lia|done].
Qed.

Lemma ascii_no_lead b l : 0 <= b < 0x80 -> lead b = Some l -> False.
Proof. intros Hb Hl. apply lead_facts in Hl; [|lia]. destruct Hl as [(_ & ? & _)|[(_ & ? & _)|(_ & ? & _)]]; lia. Qed.

Lemma sequence_unique m p w w' c c' : bytes_ok m -> sequence (bytes_at m p w) c -> sequence (bytes_at m p w') c' -> w = w' /\ c = c'.
Proof.
  intros Hm [(-> & Hb & ->)|(l & Hl & -> & _ & _ & ->)]%sequence_at [(-> & Hb' & ->)|(l' & Hl' & -> & _ & _ & ->)]%sequence_at; try done.
  - destruct (ascii_no_lead (m p) l'); [specialize (Hm p); lia|done].
  - destruct (ascii_no_lead (m p) l); [specialize (Hm p); lia|done].
  - rewrite Hl in Hl'. by injection Hl' as <-.
Qed.

Lemma lead_width b l : 0 <= b < 256 -> lead b = Some l -> 2 <= width l <= 4 /\ 0 <= scalar_prefix l < 32.
Proof. intros Hb Hl. apply lead_facts in Hl; [|done]. destruct Hl as [(? & ? & _ & _ & ?)|[(? & ? & _ & _ & ?)|(? & ? & _ & _ & ?)]]; lia. Qed.

Lemma shift_in_bound cp b k : 0 <= cp < 2 ^ (6 * k) -> 0 <= k <= 3 -> continuation b -> shift_in cp b = cp * 64 + (b - 0x80) /\ 0 <= shift_in cp b < 2 ^ (6 * (k + 1)).
Proof.
  intros Hcp Hk Hb. rewrite /continuation in Hb. assert (2 ^ (6 * k) <= 2 ^ 18) by (apply Z.pow_le_mono_r; lia).
  rewrite shift_in_exact; [|lia|done]. replace (6 * (k + 1)) with (6 * k + 6) by lia. rewrite Z.pow_add_r; [|lia|lia]. lia.
Qed.

Lemma first_continuation b l b1 : 0 <= b < 256 -> lead b = Some l -> accepts_first_continuation l b1 = true -> continuation b1.
Proof.
  intros Hb Hl Hacc. rewrite /accepts_first_continuation andb_true_iff !Z.leb_le in Hacc. rewrite /continuation.
  destruct (lead_facts b l Hb Hl) as [(? & ? & Hlo & Hhi & _)|[(? & ? & Hlo & Hhi & _)|(? & ? & Hlo & Hhi & _)]]; rewrite Hlo Hhi in Hacc; split_ifs; lia.
Qed.

Section Decode.
Context (valid : Z -> bool) (m : Memory) (Hm : bytes_ok m).

Lemma is_continuation_spec b : 0 <= b < 256 -> reflect (continuation b) (is_continuation b).
Proof. intros Hb. rewrite continuation_exact; [|done]. apply iff_reflect. by rewrite andb_true_iff !Z.leb_le. Qed.

Lemma decode_rest_ok p l : width l <= 4 -> backed valid p (width l) -> forall fuel k cp, 2 <= k <= width l -> width l - k < Z.of_nat fuel -> 0 <= cp < 2 ^ (6 * k) ->
  let tl := bytes_at m (p + k) (width l - k) in
  decode_rest valid m fuel p l k cp = Some (Returns (fold_rest cp tl, width l)) /\ Forall continuation tl \/
  decode_rest valid m fuel p l k cp = Some (Traps InvalidUtf8) /\ ~ Forall continuation tl.
Proof using Hm.
  intros Hw Hv fuel. induction fuel as [|fuel IH]; intros k cp Hk Hf Hcp tl; [lia|]. cbn [decode_rest]. destruct (Z.ltb_spec k (width l)).
  - subst tl. rewrite bytes_at_cons; [|lia]. rewrite /read_byte Hv; [|lia]. cbn [mbind option_bind]. destruct (is_continuation_spec (m (p + k)) (Hm _)) as [Hc|Hc]; cbn [negb].
    + destruct (shift_in_bound cp (m (p + k)) k Hcp ltac:(lia) Hc) as [Hsh Hb]. destruct (IH (k + 1) (shift_in cp (m (p + k)))) as [[-> Hall]|[-> Hall]]; [lia|lia|done| |].
      * left. rewrite Z.add_assoc in Hall |- *. replace (width l - (k + 1)) with (width l - k - 1) in Hall |- * by lia. split; [|by constructor]. by rewrite Hsh.
      * right. split; [done|]. intros [_ Ha]%Forall_cons. apply Hall. rewrite Z.add_assoc. by replace (width l - (k + 1)) with (width l - k - 1) by lia.
    + right. split; [done|]. by intros [? _]%Forall_cons.
  - left. subst tl. rewrite bytes_at_nil; [|lia]. split; [done|constructor].
Qed.

Lemma strict_ok ptr len offset : backed valid ptr len -> 0 <= offset < len ->
  (exists c w, __rue_decode_utf8_at valid m ptr len offset = Some (Returns (c, w)) /\ offset + w <= len /\ sequence (bytes_at m (ptr + offset) w) c) \/
  (__rue_decode_utf8_at valid m ptr len offset = Some (Traps InvalidUtf8) /\ forall c w, offset + w <= len -> ~ sequence (bytes_at m (ptr + offset) w) c).
Proof using Hm.
  intros Hv Hoff. rewrite /__rue_decode_utf8_at. destruct (Z.leb_spec len offset); [lia|]. rewrite /read_byte (Hv offset); [|lia]. cbn [mbind option_bind].
  set (p := ptr + offset). destruct (Z.ltb_spec (m p) 0x80) as [Ha|Ha].
  { left. exists (m p), 1. split_and!; [done|lia|]. apply sequence_at; [done|]. by left. }
  destruct (lead (m p)) as [l|] eqn:Hl.
  2: { right. split; [done|]. intros c w _ [(_ & ? & _)|(l & Hl' & _)]%sequence_at; [lia|congruence|done]. }
  destruct (lead_width (m p) l (Hm _) Hl) as [Hw Hpre]. destruct (Z.ltb_spec len (offset + width l)).
  { right. split; [done|]. intros c w Hle [(_ & ? & _)|(l' & Hl' & -> & _)]%sequence_at; [lia|rewrite Hl in Hl'; injection Hl' as <-; lia|done]. }
  rewrite (Hv (offset + 1)); [|lia]. cbn [mbind option_bind]. rewrite Z.add_assoc. fold p. destruct (accepts_first_continuation l (m (p + 1))) eqn:Hacc; cbn [negb].
  2: { right. split; [done|]. intros c w Hle [(_ & ? & _)|(l' & Hl' & _ & Hacc' & _)]%sequence_at; [lia|rewrite Hl in Hl'; injection Hl' as <-; congruence|done]. }
  assert (continuation (m (p + 1))) as Hc1 by by apply (first_continuation (m p) l).
  destruct (shift_in_bound (scalar_prefix l) (m (p + 1)) 1) as [_ Hb]; [change (2 ^ (6 * 1)) with 64; lia|lia|done|].
  destruct (decode_rest_ok p l) with (fuel := 4%nat) (k := 2) (cp := shift_in (scalar_prefix l) (m (p + 1))) as [[-> Hall]|[-> Hall]]; [lia|eapply backed_sub; [exact Hv|lia..]|lia|lia|done| |].
  - left. eexists _, _. split; [done|]. split; [lia|]. apply sequence_at; [done|]. right. by exists l.
  - right. split; [done|]. intros c w Hle [(_ & ? & _)|(l' & Hl' & -> & _ & Hc & _)]%sequence_at; [lia| |done]. rewrite Hl in Hl'. by injection Hl' as <-.
Qed.

(** ** Substitution *)

(** A text that some encoding starts with. *)
Definition partial (bs : list Z) : Prop := exists c tl, scalar c /\ encode c = bs ++ tl.

Lemma partial_inv b0 b1 tl : partial (b0 :: b1 :: tl) ->
  exists l, lead b0 = Some l /\ accepts_first_continuation l b1 = true /\ Forall continuation tl /\ Z.of_nat (length tl) + 2 <= width l.
Proof.
  intros (c & tl' & Hc & He). apply sequence_complete in Hc. rewrite He in Hc. inversion Hc as [|? l ? tl0 _ Hl Ha Hlen Hall]; subst.
  rewrite length_app in Hlen. apply Forall_app in Hall as [Hall _]. exists l. split_and!; [done..|lia].
Qed.

Lemma partial_intro b0 l b1 tl : 0 <= b0 < 256 -> lead b0 = Some l -> accepts_first_continuation l b1 = true -> Forall continuation tl -> Z.of_nat (length tl) + 2 <= width l ->
  partial (b0 :: b1 :: tl).
Proof.
  intros Hb Hl Ha Hc Hlen. set (ext := replicate (Z.to_nat (width l - 2 - Z.of_nat (length tl))) 0x80).
  destruct (sequence_sound (b0 :: b1 :: tl ++ ext) (fold_rest (scalar_prefix l) (b1 :: tl ++ ext))) as [Hs He].
  - constructor; [done|done|done|rewrite length_app length_replicate; lia|]. apply Forall_app. split; [done|]. apply Forall_replicate. by rewrite /continuation.
  - by exists (fold_rest (scalar_prefix l) (b1 :: tl ++ ext)), ext.
Qed.

(** Where a replaced sequence ends. *)
Definition broken (p len i w : Z) : Prop := (w = 1 \/ partial (bytes_at m p w)) /\ (i + w < len -> ~ partial (bytes_at m p (w + 1))).

Lemma lossy_rest_ok ptr len i l : width l <= 4 -> backed valid ptr len -> 0 <= i -> lead (m (ptr + i)) = Some l -> accepts_first_continuation l (m (ptr + i + 1)) = true ->
  forall fuel k cp, 2 <= k <= width l -> i + k <= len -> width l - k < Z.of_nat fuel -> 0 <= cp < 2 ^ (6 * k) -> Forall continuation (bytes_at m (ptr + i + 2) (k - 2)) ->
  let p := ptr + i in let tl := bytes_at m (p + k) (width l - k) in
  decode_rest_lossy valid m fuel ptr len i l k cp = Some (fold_rest cp tl, width l) /\ i + width l <= len /\ Forall continuation tl \/
  exists w, decode_rest_lossy valid m fuel ptr len i l k cp = Some (FFFD, w) /\ 1 <= w /\ i + w <= len /\ broken p len i w /\ (i + width l <= len -> ~ Forall continuation tl).
Proof using Hm.
  intros Hw Hv Hi Hl Ha fuel. induction fuel as [|fuel IH]; intros k cp Hk Hlen Hf Hcp Hpre p tl; [lia|]. cbn [decode_rest_lossy].
  assert (forall j, 2 <= j -> bytes_at m p j = m p :: m (p + 1) :: bytes_at m (p + 2) (j - 2)) as Hun.
  { intros j Hj. rewrite bytes_at_cons; [|lia]. rewrite bytes_at_cons; [|lia]. rewrite -!Z.add_assoc. change (1 + 1) with 2. by replace (j - 1 - 1) with (j - 2) by lia. }
  destruct (Z.ltb_spec k (width l)) as [Hkw|Hkw].
  2: { left. subst tl. rewrite bytes_at_nil; [|lia]. split_and!; [done|lia|constructor]. }
  assert (partial (bytes_at m p k)) as Hpart by (rewrite Hun; [|lia]; apply (partial_intro _ l); [apply Hm|done|done|done|rewrite bytes_at_length; lia]).
  destruct (Z.leb_spec len (i + k)).
  { right. exists k. split_and!; [done|lia|lia| |lia]. split; [by right|lia]. }
  rewrite /read_byte Hv; [|lia]. cbn [mbind option_bind]. rewrite Z.add_assoc. fold p. subst tl. rewrite (bytes_at_cons _ (p + k)); [|lia].
  destruct (is_continuation_spec (m (p + k)) (Hm _)) as [Hc|Hc]; cbn [negb].
  - destruct (shift_in_bound cp (m (p + k)) k Hcp ltac:(lia) Hc) as [Hsh Hb].
    destruct (IH (k + 1) (shift_in cp (m (p + k)))) as [(-> & Hle & Hall)|(w & -> & Hw1 & Hle & Hbr & Hall)]; [lia|lia|lia|done| | |].
    + replace (k + 1 - 2) with (k - 2 + 1) by lia. rewrite bytes_at_snoc; [|lia]. apply Forall_app. split; [done|]. constructor; [|constructor].
      by replace (ptr + i + 2 + (k - 2)) with (p + k) by (subst p; lia).
    + left. fold p in Hall |- *. rewrite Z.add_assoc in Hall |- *. replace (width l - (k + 1)) with (width l - k - 1) in Hall |- * by lia. split_and!; [by rewrite Hsh|done|by constructor].
    + right. exists w. split_and!; [done..|]. intros Hle' [_ Hall']%Forall_cons. apply Hall; [done|]. fold p. rewrite Z.add_assoc. by replace (width l - (k + 1)) with (width l - k - 1) by lia.
  - right. exists k. split_and!; [done|lia|lia| |by intros _ [? _]%Forall_cons]. split; [by right|]. intros _. rewrite Hun; [|lia].
    replace (k + 1 - 2) with (k - 2 + 1) by lia. rewrite bytes_at_snoc; [|lia]. intros (l' & _ & _ & [_ [Hc' _]%Forall_cons]%Forall_app & _)%partial_inv.
    apply Hc. by replace (p + 2 + (k - 2)) with (p + k) in Hc' by lia.
Qed.

Lemma lossy_ok ptr len offset : backed valid ptr len -> 0 <= offset < len -> exists c w, __rue_decode_utf8_lossy_at valid m ptr len offset = Some (c, w) /\
  1 <= w /\ offset + w <= len /\
  (sequence (bytes_at m (ptr + offset) w) c \/
   c = FFFD /\ broken (ptr + offset) len offset w /\ forall c' w', offset + w' <= len -> ~ sequence (bytes_at m (ptr + offset) w') c').
Proof using Hm.
  intros Hv Hoff. rewrite /__rue_decode_utf8_lossy_at. destruct (Z.leb_spec len offset); [lia|]. rewrite /read_byte (Hv offset); [|lia]. cbn [mbind option_bind].
  set (p := ptr + offset). destruct (Z.ltb_spec (m p) 0x80) as [Ha|Ha].
  { exists (m p), 1. split_and!; [done|lia|lia|]. left. apply sequence_at; [done|]. by left. }
  assert (bytes_at m p (1 + 1) = [m p; m (p + 1)]) as Htwo by (rewrite bytes_at_cons; [|lia]; rewrite bytes_at_cons; [|lia]; by rewrite bytes_at_nil; [|lia]).
  destruct (lead (m p)) as [l|] eqn:Hl.
  2: { exists FFFD, 1. split_and!; [done|lia|lia|]. right. split; [done|]. split.
    - split; [by left|]. intros _. rewrite Htwo. intros (l & Hl' & _)%partial_inv. congruence.
    - intros c w _ [(_ & ? & _)|(l & Hl' & _)]%sequence_at; [lia|congruence|done]. }
  destruct (lead_width (m p) l (Hm _) Hl) as [Hw Hpre]. destruct (Z.leb_spec len (offset + 1)).
  { exists FFFD, 1. split_and!; [done|lia|lia|]. right. split; [done|]. split; [split; [by left|lia]|].
    intros c w Hle [(_ & ? & _)|(l' & Hl' & -> & _)]%sequence_at; [lia|rewrite Hl in Hl'; injection Hl' as <-; lia|done]. }
  rewrite (Hv (offset + 1)); [|lia]. cbn [mbind option_bind]. rewrite Z.add_assoc. fold p. destruct (accepts_first_continuation l (m (p + 1))) eqn:Hacc; cbn [negb].
  2: { exists FFFD, 1. split_and!; [done|lia|lia|]. right. split; [done|]. split.
    - split; [by left|]. intros _. rewrite Htwo. intros (l' & Hl' & Hacc' & _)%partial_inv. congruence.
    - intros c w Hle [(_ & ? & _)|(l' & Hl' & _ & Hacc' & _)]%sequence_at; [lia|congruence|done]. }
  assert (continuation (m (p + 1))) as Hc1 by by apply (first_continuation (m p) l).
  destruct (shift_in_bound (scalar_prefix l) (m (p + 1)) 1) as [_ Hb]; [change (2 ^ (6 * 1)) with 64; lia|lia|done|].
  destruct (lossy_rest_ok ptr len offset l) with (fuel := 4%nat) (k := 2) (cp := shift_in (scalar_prefix l) (m (p + 1))) as [(-> & Hle & Hall)|(w & -> & Hw1 & Hle & Hbr & Hall)];
    [lia|done|lia|done|done|lia|lia|lia|done|by rewrite bytes_at_nil| |].
  - eexists _, _. split; [done|]. split_and!; [lia|done|]. left. apply sequence_at; [done|]. right. by exists l.
  - exists FFFD, w. split_and!; [done..|]. right. split_and!; [done| |].
    + by destruct Hbr.
    + intros c w' Hle' [(_ & ? & _)|(l' & Hl' & -> & _ & Hc & _)]%sequence_at; [lia| |done]. rewrite Hl in Hl'. injection Hl' as <-. by apply Hall.
Qed.
End Decode.

(** The encoding of [c], [w] bytes wide, at an offset of a text. *)
Definition encoded (m : Memory) (ptr len offset c w : Z) : Prop :=
  scalar c /\ w = Z.of_nat (length (encode c)) /\ offset + w <= len /\ bytes_at m (ptr + offset) w = encode c.

Lemma encoded_sequence m ptr len offset c w : encoded m ptr len offset c w <-> 0 <= w /\ offset + w <= len /\ sequence (bytes_at m (ptr + offset) w) c.
Proof.
  split.
  - intros (Hc & -> & Hle & He). split_and!; [lia|done|]. rewrite He. by apply sequence_complete.
  - intros (Hw & Hle & [Hc He]%sequence_sound). split_and!; [done| |done|done]. rewrite -He bytes_at_length. lia.
Qed.

(** ** Properties *)

(** C21. At every offset of a text the two decoders find the one Unicode scalar
    whose UTF-8 encoding stands there, and step past exactly its bytes.  Where
    there is none (a stray, overlong, surrogate, out-of-range or cut-off
    sequence) the strict one traps, and the lossy one answers U+FFFD and steps
    past the maximal part of an ill-formed sequence: one byte, or the longest
    run that some encoding starts with.  So both always advance, stay inside the
    text, and agree on well-formed text. *)
Theorem utf8_decoders_exact (valid : Z -> bool) (m : Memory) (ptr len offset : Z) :
  bytes_ok m -> backed valid ptr len -> in_u 64 len -> 0 <= offset < len ->
  (exists c w, encoded m ptr len offset c w /\ (forall c' w', encoded m ptr len offset c' w' -> c' = c /\ w' = w) /\
     __rue_str_char_scalar valid m ptr len offset = Some (Returns c) /\ __rue_str_char_next valid m ptr len offset = Some (Returns (offset + w)) /\
     __rue_str_char_scalar_lossy valid m ptr len offset = Some c /\ __rue_str_char_next_lossy valid m ptr len offset = Some (offset + w)) \/
  ((forall c w, ~ encoded m ptr len offset c w) /\
   __rue_str_char_scalar valid m ptr len offset = Some (Traps InvalidUtf8) /\ __rue_str_char_next valid m ptr len offset = Some (Traps InvalidUtf8) /\
   exists w, __rue_str_char_scalar_lossy valid m ptr len offset = Some FFFD /\ __rue_str_char_next_lossy valid m ptr len offset = Some (offset + w) /\
     1 <= w /\ offset + w <= len /\ (w = 1 \/ partial (bytes_at m (ptr + offset) w)) /\
     (offset + w < len -> ~ partial (bytes_at m (ptr + offset) (w + 1)))).
Proof.
  intros Hm Hv Hlen Hoff. rewrite /__rue_str_char_scalar /__rue_str_char_next /__rue_str_char_scalar_lossy /__rue_str_char_next_lossy.
  destruct (lossy_ok valid m Hm ptr len offset Hv Hoff) as (cl & wl & -> & Hw1 & Hwl & Hl). cbn [mbind option_bind fst snd]. rewrite /in_u in Hlen.
  assert (forall w, 0 <= w -> offset + w <= len -> checked_u 64 (offset + w) = Some (offset + w)) as Hck by (intros w ? ?; apply checked_u_in; rewrite /in_u; lia).
  destruct (strict_ok valid m Hm ptr len offset Hv Hoff) as [(c & w & -> & Hle & Hs)|[-> Hno]]; cbn [mbind option_bind].
  - left. destruct Hl as [Hl|(_ & _ & Hl)]; [|by destruct (Hl c w Hle)]. destruct (sequence_unique m _ _ _ _ _ Hm Hs Hl) as [-> ->]. exists cl, wl.
    rewrite Hck; [|lia|done]. cbn [mbind option_bind]. split_and!; [by apply encoded_sequence; split_and!; [lia|..]| |done..].
    intros c' w' (_ & _ & Hs')%encoded_sequence. by destruct (sequence_unique m _ _ _ _ _ Hm Hs' Hl).
  - right. destruct Hl as [Hl|(-> & [Hb1 Hb2] & _)]; [by destruct (Hno cl wl Hwl)|]. split_and!; [|done|done|].
    + intros c w (_ & Hle & Hs)%encoded_sequence. by apply (Hno c w).
    + exists wl. rewrite Hck; [|lia|done]. by split_and!.
Qed.

(** *** Witness: an encoding, then one that breaks off *)

Definition sample_text : Memory := fun x => nth (Z.to_nat (x - 100)) [0xE2; 0x82; 0xAC; 0xF0; 0x9F; 0x41] 0.

Lemma sample_bytes : bytes_ok sample_text.
Proof. intros x. rewrite /sample_text. generalize (Z.to_nat (x - 100)). intros k. do 6 (destruct k as [|k]; [simpl; lia|]). destruct k; simpl; lia. Qed.

Lemma utf8_decoders_exact_witness : encoded sample_text 100 6 0 0x20AC 3 /\
  __rue_str_char_scalar (fun _ => true) sample_text 100 6 3 = Some (Traps InvalidUtf8) /\
  __rue_str_char_next_lossy (fun _ => true) sample_text 100 6 3 = Some 5.
Proof.
  split.
  - destruct (utf8_decoders_exact (fun _ => true) sample_text 100 6 0 sample_bytes ltac:(done) ltac:(by split) ltac:(lia)) as [(c & w & He & _ & Hs & Hn & _)|(_ & Ht & _)].
    + vm_compute in Hs. injection Hs as <-. vm_compute in Hn. destruct w as [|w|w]; try discriminate Hn. injection Hn as <-. exact He.
    + vm_compute in Ht. discriminate Ht.
  - destruct (utf8_decoders_exact (fun _ => true) sample_text 100 6 3 sample_bytes ltac:(done) ltac:(by split) ltac:(lia)) as [(c & w & _ & _ & Hs & _)|(_ & Hs & _)].
    + vm_compute in Hs. discriminate Hs.
    + split; [exact Hs|reflexivity].
Defined.
