(* ===== verification/RtStdin.v ===== *)
(** * Reading lines

    [crates/rue-runtime/src/io.rs]: the retained chunk of standard input and
    [read_line], on the allocator's heap.  The operating system is a script of
    the results of its reads, after which the input has ended.  [None] is memory
    that is not mapped, an index out of range, or a loop that outlives its
    fuel. *)

From S2P Require Import Prelude Allocator AllocatorInv AllocatorSpec AllocatorClient RtMemory RtHeap.
From stdpp Require Import gmap.
Import Machine.
Local Open Scope Z_scope.
#[local] Existing Instances M_ret M_bind.

Definition READ_LINE_INITIAL_CAPACITY : Z := 128.
Definition STDIN_CHUNK_SIZE : nat := 4096.
Definition STRING_MIN_CAPACITY : Z := 16.

Record InputSegment := mkSegment { segment : list Z; ends_line : bool }.
Record StdinBuffer := mkStdin { chunk : list Z; cursor : nat; filled : nat }.
Definition stdin_new : StdinBuffer := mkStdin (replicate STDIN_CHUNK_SIZE 0) 0 0.

(** What one read returned, and the bytes it stored. *)
Record ReadResult := mkRead { ret : Z; stored : list Z }.
Notation Script := (list ReadResult).
Definition read (script : Script) (buf : list Z) : option (Z * list Z * Script) :=
  match script with
  | [] => Some (0, buf, [])
  | e :: script => if decide (length (stored e) <= length buf)%nat then Some (ret e, stored e ++ drop (length (stored e)) buf, script) else None
  end.

(** ** Segments *)

Fixpoint scan (fuel : nat) (bytes : list Z) (filled end_ : nat) : option nat :=
  match fuel with
  | O => None
  | S fuel => if (end_ <? filled)%nat then b ← bytes !! end_; if negb (b =? 10) then scan fuel bytes filled (S end_) else Some end_ else Some end_
  end.
Definition take_segment (input : StdinBuffer) : option (InputSegment * StdinBuffer) :=
  let start := cursor input in
  end_ ← scan (S (filled input)) (chunk input) (filled input) start;
  let ends := (end_ <? filled input)%nat in
  Some (mkSegment (take (end_ - start) (drop start (chunk input))) ends, mkStdin (chunk input) (end_ + Nat.b2n ends) (filled input)).
Definition next_segment (input : StdinBuffer) (script : Script) : option ((Z + option InputSegment) * StdinBuffer * Script) :=
  if (cursor input =? filled input)%nat then
    '(result, buf, script) ← read script (chunk input);
    let input := mkStdin buf (cursor input) (filled input) in
    if result <? 0 then Some (inl result, input, script) else
    if result =? 0 then Some (inr None, input, script) else
    if Z.of_nat (length buf) <? result then Some (inl (-5), input, script) else
    '(s, input) ← take_segment (mkStdin buf 0 (Z.to_nat result)); Some (inr (Some s), input, script)
  else '(s, input) ← take_segment input; Some (inr (Some s), input, script).

(** ** Lines *)

Inductive ReadLineFailure := FailAllocation | FailInput.

(** Doubling; [Some None] is an overflow. *)
Fixpoint grow (fuel : nat) (new_cap required : Z) : option (option Z) :=
  match fuel with
  | O => None
  | S fuel =>
      if new_cap <? required then
        match checked_u 64 (new_cap * 2) with None => Some None | Some grown => grow fuel (grown `max` STRING_MIN_CAPACITY) required end
      else Some (Some new_cap)
  end.

Section Code.
Context {PM : PageMapper} (debug : bool).
Notation Line := (ReadLineFailure + OptionStrBufResult)%type.

Definition give_up_line (ptr cap : Z) (failure : ReadLineFailure) (input : StdinBuffer) (script : Script) : M (Line * StdinBuffer * Script) :=
  free debug ptr cap 1;; mret (inl failure, input, script).
(** The buffer with room for [required] bytes. *)
Definition make_room (ptr cap required : Z) : M (option (Z * Z)) :=
  if cap <? required then
    new_cap ← lift (grow 65 cap required);
    match new_cap with
    | None => free debug ptr cap 1;; mret None
    | Some new_cap =>
        new_ptr ← realloc debug ptr cap new_cap 1;
        if new_ptr =? 0 then free debug ptr cap 1;; mret None else mret (Some (new_ptr, new_cap))
    end
  else mret (Some (ptr, cap)).
Fixpoint read_loop (fuel : nat) (some_disc none_disc ptr cap len : Z) (input : StdinBuffer) (script : Script) : M (Line * StdinBuffer * Script) :=
  match fuel with
  | O => fail
  | S fuel =>
      '(seg, input, script) ← lift (next_segment input script);
      match seg with
      | inl _ => give_up_line ptr cap FailInput input script
      | inr None =>
          if len =? 0 then free debug ptr cap 1;; mret (inr (mkOptionStrBuf none_disc 0 0 0), input, script)
          else mret (inr (mkOptionStrBuf some_disc ptr cap len), input, script)
      | inr (Some seg) =>
          match checked_u 64 (len + Z.of_nat (length (segment seg))) with
          | None => give_up_line ptr cap FailAllocation input script
          | Some required =>
              room ← make_room ptr cap required;
              match room with
              | None => mret (inl FailAllocation, input, script)
              | Some (ptr, cap) =>
                  copy_in (segment seg) (ptr + len);;
                  if ends_line seg then mret (inr (mkOptionStrBuf some_disc ptr cap required), input, script)
                  else read_loop fuel some_disc none_disc ptr cap required input script
              end
          end
      end
  end.
Definition read_line_from (input : StdinBuffer) (script : Script) (some_disc none_disc : Z) : M (Line * StdinBuffer * Script) :=
  ptr ← alloc debug READ_LINE_INITIAL_CAPACITY 1;
  if ptr =? 0 then mret (inl FailAllocation, input, script)
  else read_loop (length script + 3) some_disc none_disc ptr READ_LINE_INITIAL_CAPACITY 0 input script.

Definition line_trap (failure : ReadLineFailure) : Trap := match failure with FailAllocation => OutOfMemory | FailInput => InputError end.
Definition __rue_read_line (input : StdinBuffer) (script : Script) (some_disc none_disc : Z) : M (exit OptionStrBufResult * StdinBuffer * Script) :=
  '(r, input, script) ← read_line_from input script some_disc none_disc;
  mret (match r with inl failure => Traps (line_trap failure) | inr out => Returns out end, input, script).
End Code.

(** ** What a reader of lines sees *)

(** The line up to the first newline, and what follows it. *)
Fixpoint split_line (s : list Z) : option (list Z * list Z) :=
  match s with
  | [] => None
  | b :: s => if b =? 10 then Some ([], s) else '(l, r) ← split_line s; Some (b :: l, r)
  end.

Lemma split_line_Some s l r : split_line s = Some (l, r) <-> s = l ++ 10 :: r /\ 10 ∉ l.
Proof.
  revert l. induction s as [|b s IH]; intros l; simpl.
  - split; [done|]. intros [He _]. by destruct l.
  - destruct (Z.eqb_spec b 10) as [->|Hb].
    + split; [intros [= <- <-]; split; [done|apply not_elem_of_nil]|]. intros [He Hn]. destruct l as [|c l]; simpl in He; injection He as <-; [by subst|]. destruct Hn. by left.
    + destruct (split_line s) as [[l' r']|]; cbn [mbind option_bind].
      * split.
        -- intros [= <- <-]. destruct (proj1 (IH l')) as [-> Hn]; [done|]. split; [done|]. by apply not_elem_of_cons.
        -- intros [He Hn]. destruct l as [|c l]; simpl in He; injection He as -> He; [done|]. apply not_elem_of_cons in Hn as [_ Hn]. by assert (Some (l', r') = Some (l, r)) as [= -> ->] by by apply IH.
      * split; [done|]. intros [He Hn]. destruct l as [|c l]; simpl in He; injection He as -> He; [done|]. apply not_elem_of_cons in Hn as [_ Hn]. by assert (None = Some (l, r)) by by apply IH.
Qed.
Lemma split_line_None s : split_line s = None <-> 10 ∉ s.
Proof.
  split.
  - intros Hs Hin. apply list_elem_of_split_l in Hin as (l & r & -> & Hn). by rewrite (proj2 (split_line_Some (l ++ 10 :: r) l r)) in Hs.
  - intros Hn. destruct (split_line s) as [[l r]|] eqn:Hs; [|done]. apply split_line_Some in Hs as [-> _]. destruct Hn. apply elem_of_app. right. by left.
Qed.

(** The retained bytes not yet consumed. *)
Definition pending (input : StdinBuffer) : list Z := take (filled input - cursor input) (drop (cursor input) (chunk input)).
Definition input_ok (input : StdinBuffer) : Prop := (cursor input <= filled input <= length (chunk input))%nat /\ length (chunk input) = STDIN_CHUNK_SIZE.
(** The contract of a read: it stores what it returned, inside the chunk. *)
Definition read_ok (e : ReadResult) : Prop := (length (stored e) <= STDIN_CHUNK_SIZE)%nat /\ (0 < ret e <= Z.of_nat STDIN_CHUNK_SIZE -> Z.of_nat (length (stored e)) = ret e).
Definition data_of (e : ReadResult) : option (list Z) := if (0 <? ret e) && (ret e <=? Z.of_nat STDIN_CHUNK_SIZE) then Some (stored e) else None.
(** The bytes that arrive before the input ends or fails, and what is left. *)
Fixpoint ahead (script : Script) : list Z * Script :=
  match script with
  | [] => ([], [])
  | e :: script' => match data_of e with Some d => (d ++ (ahead script').1, (ahead script').2) | None => ([], script) end
  end.
Definition available (input : StdinBuffer) (script : Script) : list Z := pending input ++ (ahead script).1.
Definition fails (script : Script) : Prop := exists e rest, (ahead script).2 = e :: rest /\ ret e <> 0.

Lemma scan_ok fuel bytes filled : forall e, (e <= filled <= length bytes)%nat -> (filled - e < fuel)%nat -> exists e', scan fuel bytes filled e = Some e' /\
  (e <= e' <= filled)%nat /\ (forall j, (e <= j < e')%nat -> bytes !! j <> Some 10) /\ ((e' < filled)%nat -> bytes !! e' = Some 10).
Proof.
  induction fuel as [|fuel IH]; intros e He Hf; [lia|]. cbn [scan]. destruct (Nat.ltb_spec e filled); [|exists e; split_and!; [done|lia..]].
  destruct (lookup_lt_is_Some_2 bytes e) as [b Hb]; [lia|]. rewrite Hb. cbn [mbind option_bind]. destruct (Z.eqb_spec b 10) as [->|Hne]; cbn [negb].
  - exists e. split_and!; [done|lia|lia|lia|done].
  - destruct (IH (S e)) as (e' & -> & He' & Hn & Hs); [lia|lia|]. exists e'. split_and!; [done|lia|lia| |done].
    intros j Hj. destruct (decide (j = e)) as [->|]; [rewrite Hb; congruence|apply Hn; lia].
Qed.

Lemma take_drop_split {A} (l : list A) c e f : (c <= e <= f)%nat -> take (f - c) (drop c l) = take (e - c) (drop c l) ++ take (f - e) (drop e l).
Proof.
  intros He. replace (f - c)%nat with ((e - c) + (f - e))%nat by lia. rewrite -take_take_drop drop_drop. by replace (c + (e - c))%nat with e by lia.
Qed.

Lemma take_segment_ok input : input_ok input -> exists seg input', take_segment input = Some (seg, input') /\ input_ok input' /\ 10 ∉ segment seg /\
  pending input = segment seg ++ (if ends_line seg then 10 :: pending input' else []) /\ (ends_line seg = false -> pending input' = []).
Proof.
  intros [Hb Hl]. rewrite /take_segment. destruct (scan_ok (S (filled input)) (chunk input) (filled input) (cursor input)) as (e & -> & He & Hn & Hs); [lia|lia|].
  cbn [mbind option_bind]. eexists _, _. split; [done|]. cbn [segment ends_line]. split_and!.
  - rewrite /input_ok /=. destruct (Nat.ltb_spec e (filled input)); simpl; lia.
  - intros (j & Hj)%list_elem_of_lookup. rewrite lookup_take_Some lookup_drop in Hj. destruct Hj as [Hj Hlt]. by apply (Hn (cursor input + j)%nat); [lia|].
  - rewrite /pending (take_drop_split _ (cursor input) e (filled input)) //. f_equal. destruct (Nat.ltb_spec e (filled input)) as [Hlt|Hge].
    + rewrite (drop_S _ 10); [|by apply Hs]. replace (filled input - e)%nat with (S (filled input - S e)) by lia. cbn [take filled cursor chunk Nat.b2n]. by replace (e + 1)%nat with (S e) by lia.
    + by replace (filled input - e)%nat with 0%nat by lia.
  - destruct (Nat.ltb_spec e (filled input)) as [|Hge]; [done|]. intros _. rewrite /pending /= Nat.add_0_r. by replace (filled input - e)%nat with 0%nat by lia.
Qed.

(** How many segments may still come before the input ends. *)
Definition work (input : StdinBuffer) (script : Script) : nat := (length script + if decide (pending input = []) then 0 else 1)%nat.

Lemma pending_nil input : input_ok input -> cursor input = filled input -> pending input = [].
Proof. intros _ Heq. by rewrite /pending Heq Nat.sub_diag. Qed.

Lemma next_segment_ok input script : input_ok input -> Forall read_ok script ->
  exists r input' script', next_segment input script = Some (r, input', script') /\ input_ok input' /\ Forall read_ok script' /\
  match r with
  | inr (Some seg) => 10 ∉ segment seg /\ (ahead script').2 = (ahead script).2 /\
      available input script = segment seg ++ (if ends_line seg then 10 :: available input' script' else available input' script') /\
      (ends_line seg = false -> (work input' script' < work input script)%nat)
  | inr None => available input script = [] /\ ~ fails script /\ pending input' = [] /\ script' = tail (ahead script).2
  | inl _ => available input script = [] /\ fails script /\ pending input' = [] /\ script' = tail (ahead script).2
  end.
Proof.
  intros Hin Hsc. rewrite /next_segment. destruct (Nat.eqb_spec (cursor input) (filled input)) as [Heq|Hne].
  - pose proof (pending_nil input Hin Heq) as Hp. destruct Hin as [Hb Hl]. assert (forall buf, length buf = STDIN_CHUNK_SIZE -> input_ok (mkStdin buf (cursor input) (filled input)) /\ pending (mkStdin buf (cursor input) (filled input)) = []) as Hidle.
    { intros buf Hbuf. split; [rewrite /input_ok /=; lia|]. by rewrite /pending /= Heq Nat.sub_diag. }
    destruct script as [|e script].
    { cbn [read mbind option_bind]. change (0 <? 0) with false. change (0 =? 0) with true. cbn iota. destruct (Hidle (chunk input) Hl) as [Hi0 Hp0]. eexists _, _, _. split; [done|]. split_and!; [done..| | |done|done].
      - by rewrite /available Hp.
      - intros (e & rest & He & _). done. }
    apply Forall_cons in Hsc as [He Hsc]. cbn [read]. destruct (decide (length (stored e) <= length (chunk input))%nat) as [Hfit|Hfit]; [|destruct He as [He _]; lia].
    cbn [mbind option_bind]. set (buf := stored e ++ drop (length (stored e)) (chunk input)).
    assert (length buf = STDIN_CHUNK_SIZE) as Hbuf by (rewrite /buf length_app length_drop; lia). destruct (Hidle buf Hbuf) as [Hi0 Hp0].
    assert (data_of e = None -> available input (e :: script) = [] /\ (ahead (e :: script)).2 = e :: script) as Hstop.
    { intros Hd. rewrite /available Hp /= Hd. done. }
    destruct (Z.ltb_spec (ret e) 0) as [Hneg|Hpos].
    { destruct Hstop as [Ha Hs]; [rewrite /data_of; destruct (Z.ltb_spec 0 (ret e)); [lia|done]|]. eexists _, _, _. split; [done|]. split_and!; [done..| |done|by rewrite Hs]. exists e, script. split; [done|lia]. }
    destruct (Z.eqb_spec (ret e) 0) as [Hz|Hnz].
    { destruct Hstop as [Ha Hs]; [rewrite /data_of; destruct (Z.ltb_spec 0 (ret e)); [lia|done]|]. eexists _, _, _. split; [done|]. split_and!; [done..| |done|by rewrite Hs].
      intros (e' & rest & He' & Hr). rewrite Hs in He'. injection He' as <- _. done. }
    rewrite Hbuf. destruct (Z.ltb_spec (Z.of_nat STDIN_CHUNK_SIZE) (ret e)) as [Hbig|Hok].
    { destruct Hstop as [Ha Hs]; [rewrite /data_of; destruct (Z.leb_spec (ret e) (Z.of_nat STDIN_CHUNK_SIZE)); [lia|by rewrite andb_false_r]|]. eexists _, _, _. split; [done|]. split_and!; [done..| |done|by rewrite Hs].
      exists e, script. split; [done|lia]. }
    destruct He as [_ He]. specialize (He ltac:(lia)).
    assert (data_of e = Some (stored e)) as Hd by (rewrite /data_of; destruct (Z.ltb_spec 0 (ret e)), (Z.leb_spec (ret e) (Z.of_nat STDIN_CHUNK_SIZE)); done || lia).
    assert (pending (mkStdin buf 0 (Z.to_nat (ret e))) = stored e) as Hpe.
    { rewrite /pending /= Nat.sub_0_r drop_0. replace (Z.to_nat (ret e)) with (length (stored e)) by lia. by rewrite /buf take_app_length. }
    destruct (take_segment_ok (mkStdin buf 0 (Z.to_nat (ret e)))) as (seg & input' & -> & Hi' & Hn & Hseg & Hend); [rewrite /input_ok /=; lia|].
    cbn [mbind option_bind]. eexists _, _, _. split; [done|]. split_and!; [done..| | |].
    + by rewrite /= Hd.
    + rewrite /available Hp /= Hd /= -Hpe Hseg -app_assoc. f_equal. destruct (ends_line seg) eqn:Hel; [done|]. by rewrite (Hend eq_refl).
    + intros Hel. rewrite /work (Hend Hel) Hp /=. lia.
  - destruct (take_segment_ok input Hin) as (seg & input' & -> & Hi' & Hn & Hseg & Hend). cbn [mbind option_bind]. eexists _, _, _. split; [done|]. split_and!; [done..| |].
    + rewrite /available Hseg -app_assoc. f_equal. destruct (ends_line seg) eqn:Hel; [done|]. by rewrite (Hend eq_refl).
    + intros Hel. rewrite /work (Hend Hel). case_decide; [|done]. case_decide as Hp; [|lia]. exfalso. destruct Hin as [Hb Hl].
      assert (length (pending input) = 0%nat) as Hlen by by rewrite Hp. rewrite /pending length_take length_drop in Hlen. lia.
Qed.

(** ** Growth *)

Lemma grow_ok required : required < 2 ^ 64 -> forall (fuel j : nat) new_cap, 16 <= new_cap < 2 ^ 64 -> 2 ^ Z.of_nat j <= new_cap -> (64 < fuel + j)%nat ->
  exists r, grow fuel new_cap required = Some r /\ forall c, r = Some c -> required <= c /\ new_cap <= c < 2 ^ 64.
Proof.
  intros Hreq fuel. induction fuel as [|fuel IH]; intros j new_cap Hcap Hj Hf.
  - assert (2 ^ 64 <= 2 ^ Z.of_nat j) by (apply Z.pow_le_mono_r; lia). lia.
  - cbn [grow]. destruct (Z.ltb_spec new_cap required); [|eexists; split; [done|]; intros c [= <-]; lia].
    destruct (checked_u 64 (new_cap * 2)) as [g|] eqn:Hg; [|eexists; split; [done|]; done]. apply checked_u_Some in Hg as [-> Hg]. rewrite /in_u in Hg.
    rewrite Z.max_l; [|rewrite /STRING_MIN_CAPACITY; lia]. destruct (IH (S j) (new_cap * 2)) as (r & -> & Hr); [lia|rewrite Nat2Z.inj_succ Z.pow_succ_r; lia|lia|].
    exists r. split; [done|]. intros c Hc. specialize (Hr c Hc). lia.
Qed.

Section Lines.
Context {PM : PageMapper} {ML : @MapperLaws PM} (debug : bool) (lv : Held).
Notation holds := (holds debug).

(** The line so far, in a block nobody else holds. *)
Record holding (st : St) (p cap : Z) (acc : list Z) : Prop := {
  hg_fresh : lv !! p = None;
  hg_holds : holds (<[p := (cap, 1)]> lv) st;
  hg_cap : READ_LINE_INITIAL_CAPACITY <= cap < 2 ^ 64;
  hg_fits : Z.of_nat (length acc) <= cap;
  hg_bytes : bytes_at (mem st) p (Z.of_nat (length acc)) = acc;
}.

Lemma holding_free st p cap acc : holding st p cap acc -> exists st', free debug p cap 1 st = Some (tt, st') /\ kept lv st st' /\ holds lv st'.
Proof.
  intros [Hn Hh _ _ _]. destruct (free_ok debug _ st p cap 1 Hh) as (st' & Hf & Hk & Hh'); [apply lookup_insert_eq|].
  rewrite delete_insert_id // in Hk Hh'. by exists st'.
Qed.

Lemma make_room_ok st p cap acc required : holding st p cap acc -> Z.of_nat (length acc) <= required < 2 ^ 64 ->
  exists r st', make_room debug p cap required st = Some (r, st') /\ kept lv st st' /\
    match r with None => holds lv st' | Some (p', cap') => holding st' p' cap' acc /\ required <= cap' end.
Proof.
  intros Hg Hreq. pose proof Hg as [Hn Hh Hc Hfit Hb]. rewrite /make_room. destruct (Z.ltb_spec cap required) as [Hlt|Hge].
  2: { exists (Some (p, cap)), st. split; [done|]. split; [apply kept_refl|]. done. }
  rewrite /READ_LINE_INITIAL_CAPACITY in Hc. destruct (grow_ok required ltac:(lia) 65 0 cap) as (g & Hg' & Hgc); [lia|simpl; lia|lia|].
  rewrite /lift Hg'. change (mret g ≫= ?f) with (f g). cbn beta. destruct g as [cap'|].
  - destruct (Hgc cap' eq_refl) as [Hr1 Hr2]. destruct (realloc_ok debug _ st p cap cap' 1 Hh) as (r & st1 & Hrun & Hk & H0 & H1); [apply lookup_insert_eq|rewrite /in_u; lia|lia|].
    rewrite delete_insert_id // in Hk H1. rewrite (bind_run _ _ _ _ _ Hrun). cbn beta. destruct (Z.eqb_spec r 0) as [Hz|Hnz].
    + destruct (H0 Hz) as [Hh1 _]. destruct (free_ok debug _ st1 p cap 1 Hh1) as (st2 & Hf & Hk2 & Hh2); [apply lookup_insert_eq|]. rewrite delete_insert_id // in Hk2 Hh2.
      rewrite (bind_run _ _ _ _ _ Hf). exists None, st2. split; [done|]. split; [by eapply kept_trans|done].
    + destruct (H1 Hnz) as (Hh1 & Hfresh & Hcp). exists (Some (r, cap')), st1. split; [done|]. split; [done|]. split; [|done].
      split; [done|done|rewrite /READ_LINE_INITIAL_CAPACITY; lia|lia|]. rewrite -{2}Hb. rewrite /bytes_at. apply list_fmap_ext. intros i x Hx%lookup_seq. apply Hcp. lia.
  - destruct (holding_free st p cap acc Hg) as (st1 & Hf & Hk & Hh1). rewrite (bind_run _ _ _ _ _ Hf). by exists None, st1.
Qed.

Lemma append_ok st p cap acc bs : holding st p cap acc -> Z.of_nat (length acc) + Z.of_nat (length bs) <= cap -> exists st',
  copy_in bs (p + Z.of_nat (length acc)) st = Some (tt, st') /\ kept lv st st' /\ holding st' p cap (acc ++ bs).
Proof.
  intros [Hn Hh Hc Hfit Hb] Hle. destruct (copy_in_ok debug _ st p cap 1 (p + Z.of_nat (length acc)) bs Hh) as (Hrun & Hh' & Hk); [apply lookup_insert_eq|lia|lia|].
  rewrite delete_insert_id // in Hk. eexists. split; [exact Hrun|]. split; [done|]. split; [done|done|done|rewrite length_app; lia|].
  rewrite length_app Nat2Z.inj_add bytes_at_app; [|lia|lia]. f_equal.
  - rewrite -{3}Hb. symmetry. apply bytes_at_agree. apply put_outside. rewrite /apart /=. lia.
  - apply put_at.
Qed.

(** ** The loop *)

(** What a call promises about its result, given the bytes the line starts with
    and those that are available: running out of memory apart, the bytes up to
    the newline, or up to the end of the input, or a failure. *)
Definition line_result (acc avail : list Z) (script : Script) (sd nd : Z) (r : ReadLineFailure + OptionStrBufResult) (input' : StdinBuffer) (script' : Script) (st' : St) : Prop :=
  match r with
  | inl FailAllocation => holds lv st'
  | inl FailInput => holds lv st' /\ split_line avail = None /\ fails script /\ pending input' = [] /\ script' = tail (ahead script).2
  | inr out =>
      (exists l rest, split_line avail = Some (l, rest) /\ available input' script' = rest /\ (ahead script').2 = (ahead script).2 /\
         out = mkOptionStrBuf sd (os_ptr out) (os_cap out) (Z.of_nat (length (acc ++ l))) /\ holding st' (os_ptr out) (os_cap out) (acc ++ l)) \/
      split_line avail = None /\ ~ fails script /\ pending input' = [] /\ script' = tail (ahead script).2 /\
        (acc ++ avail = [] /\ out = mkOptionStrBuf nd 0 0 0 /\ holds lv st' \/
         acc ++ avail <> [] /\ out = mkOptionStrBuf sd (os_ptr out) (os_cap out) (Z.of_nat (length (acc ++ avail))) /\ holding st' (os_ptr out) (os_cap out) (acc ++ avail))
  end.

Lemma split_line_app_none l s : 10 ∉ l -> split_line (l ++ s) = '(a, b) ← split_line s; Some (l ++ a, b).
Proof.
  intros Hn. destruct (split_line s) as [[a b]|] eqn:Hs; cbn [mbind option_bind].
  - apply split_line_Some in Hs as [-> Ha]. apply split_line_Some. rewrite app_assoc. split; [done|]. by apply not_elem_of_app.
  - apply split_line_None in Hs. apply split_line_None. by apply not_elem_of_app.
Qed.

Lemma line_result_step acc l avail script script1 sd nd r input' script' st' : 10 ∉ l -> (ahead script1).2 = (ahead script).2 ->
  line_result (acc ++ l) avail script1 sd nd r input' script' st' -> line_result acc (l ++ avail) script sd nd r input' script' st'.
Proof.
  intros Hn Hs. assert (fails script1 <-> fails script) as Hf by by rewrite /fails Hs. destruct r as [[|]|out]; cbn [line_result]; rewrite ?Hs; [done| |].
  - intros (H1 & H2 & H3 & H4). split; [done|]. split; [by rewrite split_line_app_none // H2|]. split; [by apply Hf|done].
  - rewrite -!app_assoc. intros [(a & rest & H1 & H2 & H3 & H4)|(H1 & H2)]; [left|right].
    + exists (l ++ a), rest. rewrite split_line_app_none // H1. rewrite -!app_assoc in H4. done.
    + split; [by rewrite split_line_app_none // H1|]. destruct H2 as [H2 H3]. split; [by rewrite -Hf|done].
Qed.

Lemma read_loop_ok sd nd : forall fuel st p cap acc input script, input_ok input -> Forall read_ok script -> holding st p cap acc -> (work input script + 1 < fuel)%nat ->
  exists r input' script' st', read_loop debug fuel sd nd p cap (Z.of_nat (length acc)) input script st = Some ((r, input', script'), st') /\
    kept lv st st' /\ input_ok input' /\ line_result acc (available input script) script sd nd r input' script' st'.
Proof.
  intros fuel. induction fuel as [|fuel IH]; intros st p cap acc input script Hin Hsc Hg Hf; [lia|]. cbn [read_loop].
  destruct (next_segment_ok input script Hin Hsc) as (r & input1 & script1 & Hseg & Hin1 & Hsc1 & Hr). rewrite /lift Hseg. change (mret ?x ≫= ?f) with (f x). cbn beta iota.
  destruct r as [e|[seg|]].
  - destruct Hr as (Ha & Hfail & Hp & Hs). destruct (holding_free st p cap acc Hg) as (st1 & Hfr & Hk & Hh). rewrite /give_up_line (bind_run _ _ _ _ _ Hfr).
    eexists _, _, _, _. split; [done|]. split_and!; [done..|]. rewrite Ha. done.
  - destruct Hr as (Hn & Hah & Hav & Hw). destruct (checked_u 64 (Z.of_nat (length acc) + Z.of_nat (length (segment seg)))) as [req|] eqn:Hreq.
    2: { destruct (holding_free st p cap acc Hg) as (st1 & Hfr & Hk & Hh). rewrite /give_up_line (bind_run _ _ _ _ _ Hfr). eexists _, _, _, _. split; [done|]. by split_and!. }
    apply checked_u_Some in Hreq as [-> Hreq]. rewrite /in_u in Hreq.
    destruct (make_room_ok st p cap acc (Z.of_nat (length acc) + Z.of_nat (length (segment seg))) Hg ltac:(lia)) as (room & st1 & Hroom & Hk1 & Hr). rewrite (bind_run _ _ _ _ _ Hroom). cbn beta.
    destruct room as [[p' cap']|]; [|eexists _, _, _, _; split; [done|]; by split_and!]. destruct Hr as [Hg1 Hle].
    destruct (append_ok st1 p' cap' acc (segment seg) Hg1 ltac:(lia)) as (st2 & Happ & Hk2 & Hg2). rewrite (bind_run _ _ _ _ _ Happ).
    assert (kept lv st st2) as Hk by by eapply kept_trans. assert (Z.of_nat (length acc) + Z.of_nat (length (segment seg)) = Z.of_nat (length (acc ++ segment seg))) as Hlen by (rewrite length_app; lia).
    destruct (ends_line seg) eqn:Hend.
    + eexists _, _, _, _. split; [done|]. split_and!; [done..|]. left. rewrite Hav. exists (segment seg), (available input1 script1). simpl.
      split_and!; [by apply split_line_Some|done|done|by rewrite Hlen|done].
    + rewrite Hlen. destruct (IH st2 p' cap' (acc ++ segment seg) input1 script1 Hin1 Hsc1 Hg2) as (r & input2 & script2 & st3 & Hrun & Hk3 & Hin2 & Hres); [specialize (Hw eq_refl); lia|].
      eexists _, _, _, _. split; [exact Hrun|]. split_and!; [by eapply kept_trans|done|]. rewrite Hav. by eapply line_result_step.
  - destruct Hr as (Ha & Hfail & Hp & Hs). destruct (Z.eqb_spec (Z.of_nat (length acc)) 0) as [Hz|Hnz].
    + destruct (holding_free st p cap acc Hg) as (st1 & Hfr & Hk & Hh). rewrite (bind_run _ _ _ _ _ Hfr). eexists _, _, _, _. split; [done|]. split_and!; [done..|].
      right. rewrite Ha app_nil_r. split_and!; [done..|]. left. split_and!; [by destruct acc|done|done].
    + eexists _, _, _, _. split; [done|]. split_and!; [apply kept_refl|done|]. right. rewrite Ha app_nil_r. split_and!; [done..|]. right. split_and!; [by destruct acc|done|done].
Qed.

Lemma read_line_ok sd nd st input script : holds lv st -> input_ok input -> Forall read_ok script ->
  exists r input' script' st', read_line_from debug input script sd nd st = Some ((r, input', script'), st') /\
    kept lv st st' /\ input_ok input' /\ line_result [] (available input script) script sd nd r input' script' st'.
Proof.
  intros Hh Hin Hsc. rewrite /read_line_from. destruct (alloc_ok debug lv st READ_LINE_INITIAL_CAPACITY 1 Hh) as (r & st1 & Hrun & Hk & H0 & Hn); [by split|by split|].
  rewrite (bind_run _ _ _ _ _ Hrun). cbn beta. destruct (Z.eqb_spec r 0) as [Hz|Hnz].
  { eexists _, _, _, _. split; [done|]. split_and!; [done..|]. by apply H0. }
  destruct (Hn Hnz) as [Hnew Hh1]. destruct (read_loop_ok sd nd (length script + 3) st1 r READ_LINE_INITIAL_CAPACITY [] input script Hin Hsc) as (res & input' & script' & st' & Hl & Hk' & Hin' & Hres).
  - split; [done|done|by split|done|done].
  - rewrite /work. case_decide; lia.
  - exists res, input', script', st'. split; [exact Hl|]. split; [by eapply kept_trans|done].
Qed.
End Lines.

(** ** Properties *)


Import Bump.
#[local] Existing Instances BumpMapper BumpLaws.

(** *** Witness: a line in two reads *)

Definition sample_script : Script := [mkRead 2 [104; 105]; mkRead 3 [33; 10; 98]; mkRead 0 []].
